(* ===== verification/_CoqProject ===== *)
-Q . S2P
Prelude.v
Slice.v
Format.v
Crc32c.v
Framing.v
Footer.v
Bloom.v
Crypto.v
Names.v
ManifestPayload.v
Watermark.v
VersionEdit.v
Version.v
Catalog.v
FileSystem.v
DiskCatalog.v
DiskProofs.v
DiskCrash.v
Dynamo.v
DynamoProofs.v
Blob.v
DiskBlob.v
BlobCrash.v
Budget.v
RangeCache.v
CacheStore.v
MemoryCache.v
DiskCache.v
Windowed.v
BlockCache.v
ReaderCache.v
CacheExamples.v
Kms.v
S3.v
S3Mem.v
S3Blob.v
S3Cached.v
S3Catalog.v
VersionSet.v
Open.v
WriteSst.v
Sweep.v
VersionSetProofs.v
ManifestExamples.v
Obsolete.v
Memtable.v
Merging.v
Sst.v
Iterators.v
Block.v
SstFile.v
SstFileProofs.v
Concat.v
Lsm.v
ReadPath.v
Invariants.v
Scan.v
ScanProofs.v
Picker.v
Outputs.v
Compact.v
CompactProofs.v
PickerProofs.v
Tiers.v
Scores.v
Levels.v
OpenOptions.v
Deadlines.v
Migration.v
MigrationProofs.v
LevelPass.v
Positions.v
Reclaim.v
Passes.v
Db.v
Flush.v
Refinement.v
Examples.v
Admission.v
AdmissionProofs.v
