(* ===== verification/Prelude.v ===== *)
(** * A verification of ElysiumKV

    ElysiumKV is an embedded key-value store: a log-structured merge tree whose files live in object
    stores and whose file set is a manifest of versioned edits. This library models the engine, the
    bytes it writes, the manifest protocol and the stores under it, and proves that what a read
    answers is what the writes said, and that what was acknowledged is still there after a restart.

    ** The program and where each part is modelled

    Shared ground.
    - [Prelude]: bytes, machine integers, [Status] and [Result] ([include/elysiumkv/status.hpp]),
      binary search, list lemmas, the tactics and hint databases the other files share.
    - [Slice]: the key order and prefixes ([include/elysiumkv/slice.hpp]).

    Bytes.
    - [Format]: integers on the wire and range tombstones ([src/sst/format.hpp]).
    - [Crc32c], [Framing], [Footer], [Bloom]: checksum, block framing, footer, hash and filter
      ([src/sst/crc32c.cpp], [compression.cpp], [footer.cpp], [xxhash.hpp], [bloom.cpp]).
    - [Block], [SstFile], [SstFileProofs]: data blocks, the SST writer and reader byte by byte
      ([src/sst/block_builder.cpp], [block_reader.cpp], [sst_writer.cpp], [sst_reader.cpp]), and that
      a written file reads back, through a cache that may rot.
    - [Crypto], [Kms]: encryption at the object boundary ([src/crypt]), and data keys from AWS KMS
      ([aws/aws_kms_encryption_key_manager.cpp]).
    - [Names]: object names and addresses ([sst_object_name], [src/blob/object_name.hpp]).

    The manifest.
    - [Watermark], [VersionEdit], [Version]: positions, the manifest's records and their encoding, and
      the file set ([src/version/watermark.hpp], [version_edit.cpp], [version.cpp]).
    - [ManifestPayload]: the envelope of a record ([src/version/manifest_payload.cpp]).
    - [Catalog]: the interface [ManifestCatalog] as a class of operations with its laws.
    - [FileSystem], [DiskCatalog], [DiskProofs], [DiskCrash]: a file system with short, interrupted
      and failing calls and with power loss; the catalog on it
      ([src/manifest/disk_manifest_catalog.cpp]), that it keeps the contract, and what a power cut
      can take.
    - [Dynamo], [DynamoProofs]: the catalog on DynamoDB
      ([aws/dynamo_manifest_catalog.cpp]), against DynamoDB's documented behaviour.
    - [S3Catalog]: the catalog on S3 ([aws/s3_manifest_catalog.cpp]), over the
      service of [S3].
    - [VersionSet], [VersionSetProofs], [ManifestExamples]: the version set
      ([src/version/version_set.cpp]): recovery, edits, generations, obsolete files, and
      the runs of sweeps and rolls.
    - [Open], [Positions]: opening a store and the recovery position ([DbImpl::open] and what it
      calls).

    Objects.
    - [Blob], [DiskBlob], [BlobCrash]: the interface [BlobStore] and its laws, the store on disk with
      its cache of open files ([src/blob/disk_blob_store.cpp], [open_file_cache.hpp]).
    - [RangeCache], [CacheStore], [MemoryCache], [DiskCache], [CacheExamples]: the cache layers
      between the engine and a store: which ranges are held ([src/blob/range_cache.cpp]), the code the
      two decorators share, and their payloads in memory and on disk
      ([src/blob/memory_cache_blob_store.cpp], [disk_cache_blob_store.cpp]).
    - [Windowed]: the window a compaction reads its inputs through
      ([src/blob/windowed_blob_store.hpp]).
    - [BlockCache], [ReaderCache], [Budget]: the caches of blocks and of open readers
      ([src/cache/sharded_lru.cpp], [src/sst/sst_reader_cache.cpp]), the memory budget they share and
      the arena that charges it ([include/elysiumkv/memory_budget.hpp], [src/memtable/arena.cpp]).
    - [S3], [S3Mem], [S3Blob], [S3Cached]: the calls of S3 with their documented laws, a bucket in
      memory that keeps them and loses answers, the store on it ([aws/s3_blob_store.cpp]), and the
      store behind a cache layer.
    - [WriteSst], [Sweep]: writing a new object under a fresh number, and the removal of orphans and
      of stale generations ([src/db/db_impl.cpp]).
    - [Obsolete]: the deletion of files no version needs ([delete_obsolete]).
    - [Tiers], [Levels], [Deadlines], [Migration], [MigrationProofs], [LevelPass]: tiers
      and placement ([src/blob/placement.cpp], [tier.hpp]), levels ([src/db/level_config.cpp]), what
      migration and re-encryption do ([src/compact/migrator.cpp], [compactor.cpp]) and compaction of
      one level on request.

    The engine.
    - [Memtable]: the skip list ([src/memtable/skiplist_memtable.cpp]), node by node.
    - [Merging], [Iterators], [Concat], [Scan], [ScanProofs]: the merge behind scans and compactions
      ([src/compact/merging_iterator.cpp]), the iterator interface, a level as one iterator
      ([src/sst/concat_iterator.cpp]), [DbIterator] and its agreement with point reads.
    - [Sst]: a file's logical content, the writer's bookkeeping and the class [SstReaderLaws], the
      contract of [src/sst/sst_reader.cpp] the engine is proved against.
    - [Lsm]: [DbImpl::get], the recency order and the well-formedness of a version ([version_ok]).
    - [Picker], [PickerProofs], [Scores]: the choice of a compaction ([src/compact/picker.cpp]), that
      it is sound, and the scores that choose its level.
    - [Outputs], [Compact], [CompactProofs], [Reclaim], [Passes]: writing the outputs, installing the
      edit, dropping whole files, and the order in which a pass asks for such work
      ([src/compact/compactor.cpp]).
    - [OpenOptions]: what [open] accepts ([src/db/db_impl.cpp]).
    - [Db], [Flush]: the engine's state, its write path, rotation and flush ([src/db/db_impl.cpp]).
    - [Admission], [AdmissionProofs]: when a write waits, sheds memory or is
      refused, the whole write calls and [flush], inline and with threads ([throttle_writes] and what
      it calls).
    - [ReadPath], [Invariants]: the reader of a file and what a failed read is taken for
      ([reader_for], [classify_read_failure]), and the self-check ([check_invariants]).
    - [Refinement]: the abstract contract (a map with a floor), the step relation of the engine and
      the simulation.
    - [Examples]: the theorems at concrete states, and runs that show defects.

    ** How the parts meet

    A write goes to the memtable ([Db.db_put], [Memtable.put]); a full memtable is sealed and flushed
    into an L0 file ([Db.seal_memtable], [Db.flush_memtable], [WriteSst.write_new_sst]); compactions
    move files down ([Picker.pick_compaction], [Compact.run_compaction]); each change of the file set
    is one edit ([Version.apply]), appended to the manifest ([VersionSet.vs_apply]) through a catalog
    ([Catalog.ManifestCatalog]); a read asks the memtables, then the files from newest to oldest
    ([Lsm.db_get]). The engine's lock-protected regions are the steps of [Refinement.db_step]:
    between picking a compaction and installing it any other step may happen. The clients of a
    catalog, of a blob store and of a reader are proved against a class of laws; the disk catalog, the
    disk store, the store on S3, a cache layer over any store, and the SST bytes discharge it.

    ** What the theorems show

    - The engine answers as the map of its writes does, whatever maintenance is interleaved
      ([engine_refines_map], for writes that name no empty key); with background threads a write call
      lands exactly when it is acknowledged ([write_lands_iff_acknowledged]).
    - Each maintenance step on its own: compaction ([compaction_preserves_reads],
      [compact_level_preserves_reads]), its choice ([pick_compaction_sound]), made
      when a limit is exceeded and for a reason ([compaction_picked_when_due]), flush
      ([flush_writes_on_top]), reclamation, where a time to live is in play too
      ([reclaim_drops_only_dead]), migration and re-encryption down to the bytes they store
      ([rewrites_preserve_reads], [migrations_terminate]); those about picking and reclaiming assume
      non-empty keys, and files on configured levels only; a call that compacts until it is quiet ends with nothing left to do
      where the tasks make progress ([quiet_means_idle]).
    - Writes under pressure: a flush that answers [Ok] leaves nothing in memory
      ([flush_leaves_nothing_in_memory]), a throttled write ends and is told why it was refused
      ([throttle_ends], [throttle_tells_why]); the options [open] accepts are exactly those that meet
      the rules it enforces ([open_accepts_exactly]).
    - Each component against its abstract description: the skip list and a finite map
      ([memtable_refines_map]), the merge and "newest child wins" ([merge_yields_newest]), the read
      path and "newest file wins" ([get_reads_newest]), edits and file sets ([apply_edit_exact]),
      scans and point reads ([scan_matches_get], [scan_reports_failure]), tiers and placement
      ([resolve_tiers_exact], [placement_within_bounds]).
    - The manifest: with one writer, every acknowledged edit is recovered or the recovery says that a
      read failed, across rolls, sweeps and failing catalogs, where the read after an unanswered swap
      answers ([manifest_durable]); no file that is handed to the deleter is recovered
      ([collected_not_recovered]); the payloads open ([manifest_payload_opens]); the recovered position never claims a lost write
      ([recovered_watermark_sound]).
    - Storage: the catalog on disk keeps the contract where directories can be listed, and its acknowledged calls survive power loss
      ([disk_catalog_keeps_contract], [acknowledged_calls_survive_power_loss]), and so does an object
      that was put ([stored_object_survives_power_loss]); a new object never overwrites another
      ([new_sst_never_overwrites], [collision_never_fatal]); a sweep removes only orphans
      ([sweep_removes_only_orphans]) and the deletion of obsolete files only those, keeping what failed
      ([obsolete_objects_removed_safely]); the self-check accepts a well-formed store and what it
      accepts is well-formed ([check_invariants_sound], [check_invariants_accepts]); a missing object
      is not a missing key ([missing_object_is_no_missing_key]); on DynamoDB an edit reads back and a snapshot commits or leaves
      the old generation ([dynamo_edit_reads_back], [dynamo_snapshot_commits]); what was acknowledged
      on S3 reads back, objects through a cache ([s3_object_reads_back], [s3_manifest_reads_back]).
    - Caches: a layer answers what the store below holds and stays within its size
      ([cache_transparent], [cache_bounded], [memory_cache_charges_exactly]), a window answers what a
      read would ([window_reads_exact]), the caches of blocks and readers serve what was inserted and
      charge the budget exactly ([block_cache_sound], [reader_cache_sound]), and the arena hands out
      disjoint regions ([arena_regions_disjoint]).
    - The bytes: files, encrypted objects and edits read back ([sst_file_reads_back],
      [encrypted_object_reads_back], [edit_round_trip]), damage is detected or repaired
      ([frame_burst_detected], [rotted_cache_repaired], [encrypted_read_authentic]), the two checksum
      paths agree, the filter has no false negatives.
    - Defects, as runs of the model: the empty key and the picker
      ([empty_key_compaction_reverts_write]), a store opened with fewer levels
      ([fewer_levels_revert_removal]), a directory that cannot be listed
      ([unlisted_directory_loses_edits]), a sweep during a roll ([sweep_destroys_generation_being_rolled],
      [blind_sweep_deletes_live_generation]), residue on DynamoDB ([acknowledged_edit_unreadable]),
      two tiers on one store ([shared_store_migrates_forever]), a torn edit
      ([torn_edit_fences_every_writer]), a cached copy of a removed object
      ([late_insert_serves_removed_object]), a refused name that empties a directory
      ([refused_name_empties_parent]), on S3 a write of one's own taken for another's
      ([own_write_reported_taken], [landed_swap_reported_lost]) and a batch that is not attempted
      ([malformed_name_shields_batch]), an unanswered swap of the pointer
      ([unanswered_swap_loses_edit]), a directory that is not synced
      ([new_store_lost_to_power_cut]), a single level ([single_level_pass_reverts_write]), a
      deadline that is dropped ([deadline_forgotten]), an object that vanishes under an open reader
      ([vanished_object_reads_as_absent]), files of range tombstones the self-check refuses
      ([range_only_neighbours_rejected]), a flush that skips the live memtable
      ([inline_flush_skips_live_memtable]) and a write that lands and fails, both inline
      ([inline_write_lands_and_fails]), a bounded wait that is not ([shedding_waits_for_flush])
      and a limit of rounds that is not reported ([stuck_picker_reports_ok]).

    ** Modelling choices

    A byte string is a list of the 256-constructor [byte]; a machine integer is a [Z] with its
    wrap-around written out ([u32], [u64]). A pointer pair that a decoder advances is the list of
    bytes left. A pointer into the skip list is an index into its arena. Texts of errors, locks and
    counters are left out. LZ4, Zstandard, the CRC instructions, OpenSSL, DynamoDB, S3 and KMS are parameters
    whose documented behaviour is a class of laws; each class has an instance. What the clock and a
    failing call answer are arguments or scripts of the environment, and so is the throttle's answer
    for the steps of [Db], which the calls of [Admission] take. A wait on a condition variable takes the next of a list of
    functions, what the other threads did to the engine meanwhile; [None] is a caller still asleep at
    the end of the list. The fractions of
    placement and the scores of levels are doubles: a significand times a power of two, rounded to
    even. The engine of [Refinement] compacts whatever level is chosen, so that its theorems hold for
    every choice. The memtables do not change while one scan runs.

    Loops that are not structural run on fuel, and each theorem says it suffices: the skip list's
    searches on the number of nodes plus the height, the closure of an overlapping level on the number
    of files, the merge on the number of entries, a block's scan on its bytes, a file's entries on the
    footer's count, the read and write loops on bytes plus interruptions (lemmas named [..._enough]), the eviction of a
    cache on the objects or entries it holds, an upload on the bytes left, a paged listing on the number
    of keys in the bucket, an inline flush on its two memtables, a throttled write on the rounds of its
    caller, the drains of a pass on the work left.
    Scans and migration end at some bound and answer the same with any larger fuel. The retries of the
    code have its own limits: four reads on recovery, sixteen attempts to roll a snapshot or to write
    an object, of which two suffice where the store answers.

    ** What is not modelled

    The C interface, the command line, the Java bindings and the benchmark: marshalling and
    presentation. Of [DbImpl], the threads that wait to be dispatched, the statistics and the log
    lines. The clients of the services, with their credentials, timeouts and retries. Threads are
    modelled by interleaved steps, not by a memory model. *)

From Stdlib Require Export ZArith NArith Lia Strings.Byte.
From stdpp Require Export base numbers list sorting option gmap.

#[global] Open Scope Z_scope.

(** ** Byte strings

    Every key, value and encoded record of the engine is a sequence of unsigned bytes
    ([Slice], [std::string], [Buffer]). A byte is the Standard Library's 256-constructor type; its
    unsigned value is read with [zb] and an integer is truncated to a byte, as
    [static_cast<uint8_t>] does, with [bz]. *)

Abbreviation bytes := (list byte).

Definition zb (b : byte) : Z := Z.of_N (Byte.to_N b).

Definition bz (z : Z) : byte :=
  match Byte.of_N (Z.to_N (z mod 256)) with Some b => b | None => Byte.x00 end.

(** Length of a byte string as a [size_t]. *)
Definition zlen (s : bytes) : Z := Z.of_nat (length s).

#[global] Arguments zb : simpl never.
#[global] Arguments bz : simpl never.
#[global] Arguments Z.compare : simpl never.

(** ** Machine integers

    A [uint32_t] or [uint64_t] is an integer of [Z] with its wrap-around written out. *)

Definition u32 (z : Z) : Z := z mod 2 ^ 32.
Definition u64 (z : Z) : Z := z mod 2 ^ 64.

Definition is_u32 (z : Z) : Prop := 0 <= z < 2 ^ 32.
Definition is_u64 (z : Z) : Prop := 0 <= z < 2 ^ 64.

(** ** Errors

    [include/elysiumkv/status.hpp]: every fallible operation answers a value or one of these. *)

Inductive Status : Type :=
  | Ok | NotFound | Corrupt | Unusable | Fenced | Config | Io | Stalled | Unsupported | Stale
  | RecoveryRequired.

(** [Result<T>] is [std::expected<T, Status>]. *)
Inductive Result (A : Type) : Type :=
  | Value (a : A)
  | Unexpected (s : Status).
Arguments Value {A} _.
Arguments Unexpected {A} _.

Definition is_terminal (s : Status) : bool :=
  match s with
  | Corrupt | Unusable | Fenced | Config | Unsupported => true
  | _ => false
  end.

Definition is_retryable (s : Status) : bool :=
  match s with Io => true | _ => false end.

#[export] Instance Status_eq_dec : EqDecision Status.
Proof. solve_decision. Defined.

#[export] Instance byte_eq_decision : EqDecision byte := Byte.byte_eq_dec.

Definition result_bind {A B : Type} (r : Result A) (k : A -> Result B) : Result B :=
  match r with
  | Value a => k a
  | Unexpected s => Unexpected s
  end.

Declare Scope ekv_scope.
Delimit Scope ekv_scope with ekv.

(** Early return: [if (!r) return std::unexpected(r.error());]. *)
Notation "'let?' x := r 'in' k" := (result_bind r (fun x => k))
  (at level 10, x pattern, r at level 100, k at level 200) : ekv_scope.

(** The same for decoders that answer a [bool] and fill out-parameters. *)
Notation "'let!' x := r 'in' k" := (match r with Some x => k | None => None end)
  (at level 10, x pattern, r at level 100, k at level 200) : ekv_scope.

#[global] Open Scope ekv_scope.

(** ** Automation *)

Create HintDb ekv.
Create Rewrite HintDb ekv.

(** Case analysis on the scrutinee of the first [match] or [if] of the goal. *)
Ltac case_scrut :=
  match goal with
  | |- context [match ?x with _ => _ end] => destruct x eqn:?
  end.

(** Boolean comparisons of integers to propositions, everywhere. *)
Ltac zbool :=
  repeat match goal with
  | H : (_ <? _) = true |- _ => apply Z.ltb_lt in H
  | H : (_ <? _) = false |- _ => apply Z.ltb_ge in H
  | H : (_ <=? _) = true |- _ => apply Z.leb_le in H
  | H : (_ <=? _) = false |- _ => apply Z.leb_gt in H
  | H : (_ =? _) = true |- _ => apply Z.eqb_eq in H
  | H : (_ =? _) = false |- _ => apply Z.eqb_neq in H
  | H : negb _ = true |- _ => apply negb_true_iff in H
  | H : negb _ = false |- _ => apply negb_false_iff in H
  | H : _ && _ = true |- _ => apply andb_true_iff in H as [? ?]
  | H : _ || _ = false |- _ => apply orb_false_iff in H as [? ?]
  end.

(** [lia] with division and modulo by constants. *)
Ltac mlia := Z.to_euclidean_division_equations; lia.

(** ** Lemmas on bytes *)

Lemma zb_range b : 0 <= zb b < 256.
Proof. unfold zb. pose proof (Byte.to_N_bounded b). lia. Qed.

Lemma zb_bz z : zb (bz z) = z mod 256.
Proof.
  unfold zb, bz. pose proof (Z.mod_pos_bound z 256 ltac:(lia)) as Hm.
  destruct (Byte.of_N (Z.to_N (z mod 256))) as [b|] eqn:E.
  - apply Byte.to_of_N in E. rewrite E. lia.
  - apply Byte.of_N_None_iff in E. lia.
Qed.

Lemma zb_inj b1 b2 : zb b1 = zb b2 -> b1 = b2.
Proof.
  unfold zb. intros H. apply N2Z.inj in H.
  pose proof (Byte.of_to_N b1). pose proof (Byte.of_to_N b2). congruence.
Qed.

Lemma bz_zb b : bz (zb b) = b.
Proof. apply zb_inj. rewrite zb_bz. apply Z.mod_small, zb_range. Qed.

Lemma bz_small z : 0 <= z < 256 -> zb (bz z) = z.
Proof. intros. rewrite zb_bz. by apply Z.mod_small. Qed.

Lemma zlen_nonneg s : 0 <= zlen s.
Proof. unfold zlen. lia. Qed.

Lemma zlen_app s t : zlen (s ++ t) = zlen s + zlen t.
Proof. unfold zlen. rewrite length_app. lia. Qed.

Lemma zlen_cons b s : zlen (b :: s) = 1 + zlen s.
Proof. unfold zlen. simpl. lia. Qed.

#[export] Hint Resolve zb_range zlen_nonneg : ekv.
#[export] Hint Rewrite zb_bz zlen_app zlen_cons : ekv.

(** ** Lemmas on machine integers *)

Lemma u64_small z : is_u64 z -> u64 z = z.
Proof. intros. by apply Z.mod_small. Qed.

Lemma u32_small z : is_u32 z -> u32 z = z.
Proof. intros. by apply Z.mod_small. Qed.

Lemma u64_range z : is_u64 (u64 z).
Proof. apply Z.mod_pos_bound. lia. Qed.

Lemma u32_range z : is_u32 (u32 z).
Proof. apply Z.mod_pos_bound. lia. Qed.

#[export] Hint Resolve u64_range u32_range : ekv.

(** [Z.lor] of numbers whose bits do not meet is their sum. *)
Lemma lor_shiftl_add a b n :
  0 <= n -> 0 <= a < 2 ^ n -> Z.lor a (Z.shiftl b n) = a + b * 2 ^ n.
Proof.
  intros Hn Ha. rewrite <- Z.shiftl_mul_pow2 by done.
  assert (Z.land a (Z.shiftl b n) = 0) as Hdis.
  { apply Z.bits_inj'; intros i Hi. rewrite Z.land_spec, Z.bits_0.
    destruct (Z.lt_ge_cases i n).
    - rewrite (Z.shiftl_spec_low b) by lia. by rewrite andb_false_r.
    - rewrite <- (Z.mod_small a (2 ^ n)) by done.
      by rewrite Z.mod_pow2_bits_high by lia. }
  by rewrite <- Z.lxor_lor, <- Z.add_nocarry_lxor by done.
Qed.

Lemma lor_range n a b : 0 <= n -> 0 <= a < 2 ^ n -> 0 <= b < 2 ^ n -> 0 <= Z.lor a b < 2 ^ n.
Proof.
  intros Hn Ha Hb. split; [apply Z.lor_nonneg; lia|].
  assert (Z.lor a b = Z.lor a b mod 2 ^ n) as ->; [|apply Z.mod_pos_bound; lia].
  rewrite <- Z.land_ones, Z.land_lor_distr_l, !Z.land_ones by lia.
  by rewrite !Z.mod_small by done.
Qed.

Lemma lxor_range n a b : 0 <= n -> 0 <= a < 2 ^ n -> 0 <= b < 2 ^ n -> 0 <= Z.lxor a b < 2 ^ n.
Proof.
  intros Hn Ha Hb. split; [apply Z.lxor_nonneg; lia|].
  assert (Z.lxor a b = Z.lxor a b mod 2 ^ n) as ->; [|apply Z.mod_pos_bound; lia].
  rewrite <- (Z.mod_small a (2 ^ n)), <- (Z.mod_small b (2 ^ n)) by done.
  apply Z.bits_inj'. intros i Hi. destruct (Z.lt_ge_cases i n).
  - rewrite (Z.mod_pow2_bits_low (Z.lxor _ _)) by lia. done.
  - rewrite (Z.mod_pow2_bits_high (Z.lxor _ _)) by lia.
    by rewrite Z.lxor_spec, !Z.mod_pow2_bits_high by lia.
Qed.

(** ** Lemmas on lists *)

Lemma take_drop_app {A} n (l k : list A) :
  length l = n -> take n (l ++ k) = l /\ drop n (l ++ k) = k.
Proof. intros <-. split; [apply take_app_length | apply drop_app_length]. Qed.

Lemma app_inj_length {A} (l1 l2 k1 k2 : list A) :
  length l1 = length l2 -> l1 ++ k1 = l2 ++ k2 -> l1 = l2 /\ k1 = k2.
Proof. intros. by apply app_inj_1. Qed.

Lemma rev_replicate {A} n (x : A) : rev (replicate n x) = replicate n x.
Proof. rewrite rev_alt. apply reverse_replicate. Qed.

Lemma elem_of_rev {A} (x : A) l : x ∈ rev l <-> x ∈ l.
Proof. rewrite !list_elem_of_In. symmetry. apply in_rev. Qed.

Lemma StronglySorted_rev {A} (R : A -> A -> Prop) l :
  StronglySorted (fun a b => R b a) l -> StronglySorted R (rev l).
Proof.
  induction 1 as [|x l Hs IH Hf]; simpl; [constructor|].
  apply StronglySorted_app_2; [|done|repeat constructor].
  intros y z Hy Hz. apply list_elem_of_singleton in Hz as ->.
  rewrite elem_of_rev in Hy.
  rewrite Forall_forall in Hf. exact (Hf y Hy).
Qed.

(** ** Binary search

    [std::lower_bound] with the predicate "is before the probe", and [std::upper_bound] with its
    predicate negated, both halve a window. The result is the partition point when the list is
    partitioned by the predicate, which is the precondition of the library functions. *)

Fixpoint bsearch {A} (fuel : nat) (before : A -> bool) (l : list A) (first len : nat) : nat :=
  match fuel with
  | O => first
  | S fuel' =>
      if Nat.eqb len 0 then first
      else
        let half := Nat.div len 2 in
        let mid := (first + half)%nat in
        match l !! mid with
        | Some x =>
            if before x then bsearch fuel' before l (S mid) (len - half - 1)
            else bsearch fuel' before l first half
        | None => first
        end
  end.

Definition lower_bound {A} (before : A -> bool) (l : list A) : nat :=
  bsearch (S (length l)) before l 0 (length l).

(** Every element before the partition point satisfies the predicate and none after it does. *)
Definition partitioned {A} (before : A -> bool) (l : list A) : Prop :=
  forall i j x y, (i < j)%nat -> l !! i = Some x -> l !! j = Some y ->
    before y = true -> before x = true.

Lemma bsearch_spec {A} fuel (before : A -> bool) l first len :
  partitioned before l -> (len < fuel)%nat -> (first + len <= length l)%nat ->
  (forall j x, l !! j = Some x -> (j < first)%nat -> before x = true) ->
  (forall j x, l !! j = Some x -> (first + len <= j)%nat -> before x = false) ->
  (bsearch fuel before l first len <= length l)%nat /\
  forall j x, l !! j = Some x ->
    (before x = true <-> (j < bsearch fuel before l first len)%nat).
Proof.
  intros Hp. revert first len. induction fuel as [|fuel IH]; [lia|].
  intros first len Hfuel Hlen Hlo Hhi. cbn [bsearch]. destruct (Nat.eqb_spec len 0) as [->|Hne].
  { split; [lia|]. intros j x Hj. split; intros H; [|by eapply Hlo].
    destruct (Nat.lt_ge_cases j first); [done|]. rewrite (Hhi j x) in H; [done|done|lia]. }
  pose proof (Nat.div_lt len 2). pose proof (Nat.div_mod_eq len 2).
  destruct (lookup_lt_is_Some_2 l (first + Nat.div len 2)) as [x Hx]; [lia|]. cbv zeta. rewrite Hx.
  destruct (before x) eqn:Hb; apply IH; try lia.
  - intros j y Hj Hlt. destruct (decide (j = first + Nat.div len 2)%nat) as [->|]; [congruence|].
    eapply (Hp j); [|exact Hj|exact Hx|done]. lia.
  - intros j y Hj Hge. apply (Hhi j); [done|lia].
  - done.
  - intros j y Hj Hge. apply not_true_iff_false. intros Hy.
    destruct (decide (j = first + Nat.div len 2)%nat) as [->|]; [congruence|].
    rewrite (Hp (first + Nat.div len 2)%nat j x y) in Hb; [done|lia|done..].
Qed.

Lemma lower_bound_spec {A} (before : A -> bool) (l : list A) :
  partitioned before l ->
  (lower_bound before l <= length l)%nat /\
  forall j x, l !! j = Some x -> (before x = true <-> (j < lower_bound before l)%nat).
Proof.
  intros Hp. apply bsearch_spec; [done|lia|lia|lia|].
  intros j x Hj ?. apply lookup_lt_Some in Hj. lia.
Qed.

Lemma StronglySorted_lookup_lt {A} (R : A -> A -> Prop) (l : list A) i j x y :
  StronglySorted R l -> (i < j)%nat -> l !! i = Some x -> l !! j = Some y -> R x y.
Proof.
  intros Hs. revert i j. induction Hs as [|a l Hs IH Hf]; intros i j Hij Hi Hj; [done|].
  destruct j as [|j]; [lia|]. simpl in Hj. destruct i as [|i]; simpl in Hi.
  - simplify_eq. rewrite Forall_lookup in Hf. by eapply Hf.
  - eapply IH; [|done|done]. lia.
Qed.

Lemma partitioned_sorted {A} (R : A -> A -> Prop) (before : A -> bool) l :
  StronglySorted R l ->
  (forall x y, R x y -> before y = true -> before x = true) -> partitioned before l.
Proof.
  intros Hs HR i j x y Hij Hi Hj. apply HR. by eapply StronglySorted_lookup_lt.
Qed.

(** What a binary search splits off is what a scan would keep. *)
Lemma filter_take_drop {A} (p : A -> bool) (l : list A) n :
  (n <= length l)%nat ->
  (forall j x, l !! j = Some x -> (p x = true <-> (j < n)%nat)) ->
  List.filter p l = take n l /\ List.filter (fun x => negb (p x)) l = drop n l.
Proof.
  revert n. induction l as [|a l IH]; intros n Hn H; simpl.
  - by rewrite take_nil, drop_nil.
  - destruct (IH (pred n)) as [E1 E2].
    + simpl in Hn. lia.
    + intros j x Hj. rewrite (H (S j) x Hj). lia.
    + destruct n as [|n]; simpl in *.
      * destruct (p a) eqn:Ea; [specialize (proj1 (H 0%nat a eq_refl) Ea); lia|].
        simpl. split; [done|]. by rewrite E2.
      * rewrite (proj2 (H 0%nat a eq_refl)) by lia. simpl. split; [by rewrite E1|done].
Qed.

Lemma partitioned_filter {A} (p : A -> bool) (l : list A) :
  partitioned p l ->
  List.filter p l = take (lower_bound p l) l /\
  List.filter (fun x => negb (p x)) l = drop (lower_bound p l) l.
Proof. intros [Hn H]%lower_bound_spec. by apply filter_take_drop. Qed.

Lemma partitioned_drop {A} (p : A -> bool) (l : list A) n : partitioned p l -> partitioned p (drop n l).
Proof.
  intros Hp i j x y Hij Hi Hj. rewrite lookup_drop in Hi, Hj. eapply (Hp (n + i)%nat); [|done..]. lia.
Qed.

Lemma filter_filter {A} (p q : A -> bool) (l : list A) :
  List.filter q (List.filter p l) = List.filter (fun x => p x && q x) l.
Proof.
  induction l as [|a l IH]; simpl; [done|]. destruct (p a); simpl; [|done].
  destruct (q a); by rewrite IH.
Qed.

(** Between two binary searches lies what both predicates keep. *)
Lemma partitioned_window {A} (p q : A -> bool) (l : list A) :
  partitioned p l -> partitioned q l ->
  take (lower_bound q l - lower_bound p l) (drop (lower_bound p l) l) =
  List.filter (fun x => negb (p x) && q x) l.
Proof.
  intros Hp [Hn HQ]%lower_bound_spec. destruct (partitioned_filter p l Hp) as [_ E].
  rewrite <- filter_filter, E. symmetry. apply filter_take_drop.
  - rewrite length_drop. lia.
  - intros j x Hj. rewrite lookup_drop in Hj. rewrite (HQ _ _ Hj). lia.
Qed.

Lemma elem_of_filter_bool {A} (p : A -> bool) (l : list A) x :
  x ∈ List.filter p l <-> x ∈ l /\ p x = true.
Proof. rewrite !list_elem_of_In. apply filter_In. Qed.

Lemma existsb_elem {A} (p : A -> bool) (l : list A) :
  existsb p l = true <-> exists x, x ∈ l /\ p x = true.
Proof. rewrite existsb_exists. by setoid_rewrite list_elem_of_In. Qed.

Lemma StronglySorted_filter_bool {A} (R : A -> A -> Prop) (p : A -> bool) l :
  StronglySorted R l -> StronglySorted R (List.filter p l).
Proof.
  induction 1 as [|a l Hs IH Hf]; simpl; [constructor|]. destruct (p a); [|done].
  constructor; [done|]. rewrite Forall_forall in *. intros x [Hx _]%elem_of_filter_bool. by apply Hf.
Qed.

Lemma sublist_filter_bool {A} (p : A -> bool) (l : list A) : List.filter p l `sublist_of` l.
Proof. induction l as [|x l IH]; simpl; [done|]. destruct (p x); by constructor. Qed.

Lemma sublist_StronglySorted {A} (R : A -> A -> Prop) (l k : list A) :
  StronglySorted R k -> l `sublist_of` k -> StronglySorted R l.
Proof.
  intros Hs Hsub. induction Hsub as [|x l k Hsub IH|x l k Hsub IH]; [constructor| |].
  - inversion_clear Hs as [|? ? Hs' Hf]. constructor; [by apply IH|]. rewrite Forall_forall in *.
    intros y Hy. apply Hf. by eapply elem_of_sublist.
  - inversion_clear Hs. by apply IH.
Qed.

(** A filter that keeps more is longer, and equal when it is no longer. *)
Lemma filter_weaken {A} (p q : A -> bool) (l : list A) :
  (forall x, x ∈ l -> p x = true -> q x = true) ->
  (length (List.filter p l) <= length (List.filter q l))%nat /\
  (length (List.filter q l) = length (List.filter p l) -> List.filter q l = List.filter p l).
Proof.
  induction l as [|x l IH]; intros H; simpl; [done|].
  destruct IH as [IH1 IH2]; [intros y Hy; apply H; by right|].
  destruct (p x) eqn:Ep; [rewrite (H x) by (done || by left); simpl; split; [lia|intros E; f_equal; apply IH2; lia]|].
  destruct (q x); simpl; [split; [lia|intros E; lia]|done].
Qed.

Lemma filter_all {A} (p : A -> bool) (l : list A) :
  (forall x, x ∈ l -> p x = true) -> List.filter p l = l.
Proof.
  induction l as [|a l IH]; intros H; simpl; [done|]. rewrite H, IH; [done| |apply elem_of_cons; auto].
  intros x Hx. apply H, elem_of_cons. auto.
Qed.

Lemma filter_none {A} (p : A -> bool) (l : list A) :
  (forall x, x ∈ l -> p x = false) -> List.filter p l = [].
Proof.
  induction l as [|a l IH]; intros H; simpl; [done|]. rewrite H, IH; [done| |apply elem_of_cons; auto].
  intros x Hx. apply H, elem_of_cons. auto.
Qed.

(** ** Keys as map keys *)

#[export] Instance byte_countable : Countable byte.
Proof.
  apply (inj_countable' Byte.to_N (fun n => default x00 (Byte.of_N n))).
  intros b. by rewrite Byte.of_to_N.
Defined.

Lemma head_filter_Some {A} (p : A -> bool) (l : list A) x :
  head (List.filter p l) = Some x -> x ∈ l /\ p x = true.
Proof.
  intros H. apply elem_of_filter_bool. destruct (List.filter p l); simplify_eq/=. by left.
Qed.

Lemma NoDup_split_unique {A} (x : A) pre post pre' post' :
  NoDup (pre ++ x :: post) -> pre ++ x :: post = pre' ++ x :: post' -> pre = pre' /\ post = post'.
Proof.
  revert pre'. induction pre as [|a pre IH]; intros [|b pre'] Hnd E; simpl in *;
    apply NoDup_cons in Hnd as [Hnot Hnd].
  - by injection E.
  - injection E as -> ->. exfalso. apply Hnot, elem_of_app. right. by left.
  - injection E as -> E. exfalso. apply Hnot, elem_of_app. right. by left.
  - injection E as -> E. by destruct (IH _ Hnd E) as [-> ->].
Qed.

Lemma head_filter_at {A} (p : A -> bool) (l : list A) i x :
  l !! i = Some x -> p x = true -> (forall j y, l !! j = Some y -> (j < i)%nat -> p y = false) ->
  head (List.filter p l) = Some x.
Proof.
  intros Hi Hp Hb. rewrite <- (take_drop_middle _ _ _ Hi), List.filter_app, filter_none.
  - simpl. by rewrite Hp.
  - intros y (j & Hj)%list_elem_of_lookup. apply lookup_take_Some in Hj as [Hj Hlt]. by apply (Hb j).
Qed.

Lemma last_filter_at {A} (p : A -> bool) (l : list A) i x :
  l !! i = Some x -> p x = true -> (forall j y, l !! j = Some y -> (i < j)%nat -> p y = false) ->
  last (List.filter p l) = Some x.
Proof.
  intros Hi Hp Ha. rewrite <- (take_drop_middle _ _ _ Hi), List.filter_app. simpl. rewrite Hp, (filter_none p (drop (S i) l)).
  - apply last_snoc.
  - intros y (j & Hj)%list_elem_of_lookup. rewrite lookup_drop in Hj. apply (Ha _ _ Hj). lia.
Qed.
