(* ===== verification/Slice.v ===== *)
(** * Slices and the key order

    [include/elysiumkv/slice.hpp]: the bytewise comparison that orders every key of the engine
    ([Slice::operator<=>], [operator==]), [starts_with] and [prefix_upper_bound]. The same order is
    [std::string::operator<], which compares through [char_traits<char>], that is as unsigned
    bytes. The file ends with [key_order], a decision procedure for goals about that order. *)

From Stdlib Require Import OrdersTac.
From S2P Require Import Prelude.

(** ** Definitions *)

(** [std::memcmp] over the first [n] bytes of both arguments. *)
Fixpoint memcmp (a b : bytes) (n : nat) : comparison :=
  match n, a, b with
  | S n', x :: a', y :: b' =>
      match zb x ?= zb y with
      | Eq => memcmp a' b' n'
      | c => c
      end
  | _, _, _ => Eq
  end.

(** [Slice::operator<=>]: compare the common prefix, then the sizes. *)
Definition slice_compare (a b : bytes) : comparison :=
  let n := Nat.min (length a) (length b) in
  match memcmp a b n with
  | Lt => Lt
  | Gt => Gt
  | Eq => Nat.compare (length a) (length b)
  end.

(** [Slice::operator==]. *)
Definition slice_eqb (a b : bytes) : bool :=
  Nat.eqb (length a) (length b) &&
  match memcmp a b (length a) with Eq => true | _ => false end.

Definition key_ltb (a b : bytes) : bool :=
  match slice_compare a b with Lt => true | _ => false end.

Definition key_leb (a b : bytes) : bool :=
  match slice_compare a b with Gt => false | _ => true end.

Definition key_lt (a b : bytes) : Prop := slice_compare a b = Lt.
Definition key_le (a b : bytes) : Prop := slice_compare a b <> Gt.

(** [std::min] and [std::max] on strings. *)
Definition key_min (a b : bytes) : bytes := if key_ltb b a then b else a.
Definition key_max (a b : bytes) : bytes := if key_ltb a b then b else a.

Infix "<k" := key_lt (at level 70) : ekv_scope.
Infix "<=k" := key_le (at level 70) : ekv_scope.
Infix "<?k" := key_ltb (at level 70) : ekv_scope.
Infix "<=?k" := key_leb (at level 70) : ekv_scope.

(** [starts_with]. *)
Definition starts_with (key prefix : bytes) : bool :=
  Nat.leb (length prefix) (length key) &&
  match memcmp key prefix (length prefix) with Eq => true | _ => false end.

(** The loop of [prefix_upper_bound], over the reversed prefix: drop trailing [0xFF] bytes, add one
    to the first byte that is not [0xFF] and cut the string after it. *)
Fixpoint bump_last (rev_prefix : bytes) : option bytes :=
  match rev_prefix with
  | [] => None
  | c :: rest => if zb c =? 255 then bump_last rest else Some (bz (zb c + 1) :: rest)
  end.

(** [prefix_upper_bound]: [None] is the [false] answer, which leaves the out-parameter empty. *)
Definition prefix_upper_bound (prefix : bytes) : option bytes :=
  match bump_last (rev prefix) with
  | Some r => Some (rev r)
  | None => None
  end.

(** ** The order is the lexicographic one *)

Fixpoint lex (a b : bytes) : comparison :=
  match a, b with
  | [], [] => Eq
  | [], _ :: _ => Lt
  | _ :: _, [] => Gt
  | x :: a', y :: b' => match zb x ?= zb y with Eq => lex a' b' | c => c end
  end.

Lemma slice_compare_lex a b : slice_compare a b = lex a b.
Proof.
  unfold slice_compare. revert b.
  induction a as [|x a IH]; intros [|y b]; try done. simpl.
  destruct (zb x ?= zb y); try done; apply IH.
Qed.

Lemma lex_refl a : lex a a = Eq.
Proof. induction a as [|x a IH]; simpl; [done|]. by rewrite Z.compare_refl. Qed.

Lemma lex_eq a b : lex a b = Eq -> a = b.
Proof.
  revert b. induction a as [|x a IH]; intros [|y b]; simpl; try done.
  destruct (zb x ?= zb y) eqn:E; try done. apply Z.compare_eq in E.
  intros H. f_equal; [by apply zb_inj | by apply IH].
Qed.

Lemma lex_antisym a b : lex b a = CompOpp (lex a b).
Proof.
  revert b. induction a as [|x a IH]; intros [|y b]; simpl; try done.
  rewrite (Z.compare_antisym (zb x)). destruct (zb x ?= zb y); simpl; auto.
Qed.

Lemma lex_trans a b c : lex a b = Lt -> lex b c = Lt -> lex a c = Lt.
Proof.
  revert b c. induction a as [|x a IH]; intros [|y b] [|z c]; simpl; try done.
  destruct (Z.compare_spec (zb x) (zb y)); destruct (Z.compare_spec (zb y) (zb z));
    destruct (Z.compare_spec (zb x) (zb z)); try done; try lia. eauto.
Qed.

(** ** Order facts *)

Lemma key_lt_trans a b c : a <k b -> b <k c -> a <k c.
Proof. unfold key_lt. rewrite !slice_compare_lex. apply lex_trans. Qed.

Lemma key_lt_irrefl a : ~ a <k a.
Proof. unfold key_lt. by rewrite slice_compare_lex, lex_refl. Qed.

Lemma key_trichotomy a b : a <k b \/ a = b \/ b <k a.
Proof.
  unfold key_lt. rewrite !slice_compare_lex, (lex_antisym a b).
  destruct (lex a b) eqn:E; simpl; auto. right; left. by apply lex_eq.
Qed.

Lemma key_le_lteq a b : a <=k b <-> a <k b \/ a = b.
Proof.
  unfold key_le, key_lt. rewrite !slice_compare_lex. split.
  - destruct (lex a b) eqn:E; auto; [|done]. intros _. right. by apply lex_eq.
  - intros [->| ->]; [done|]. by rewrite lex_refl.
Qed.

Lemma key_ltb_lt a b : (a <?k b) = true <-> a <k b.
Proof. unfold key_ltb, key_lt. destruct (slice_compare a b); naive_solver. Qed.

Lemma key_leb_le a b : (a <=?k b) = true <-> a <=k b.
Proof. unfold key_leb, key_le. destruct (slice_compare a b); naive_solver. Qed.

Lemma key_not_lt a b : ~ a <k b <-> b <=k a.
Proof.
  rewrite key_le_lteq. split.
  - destruct (key_trichotomy a b) as [?|[->|?]]; naive_solver.
  - intros [Hlt| ->] H; [|by apply key_lt_irrefl in H].
    by apply (key_lt_irrefl a), (key_lt_trans _ b).
Qed.

Lemma key_ltb_ge a b : (a <?k b) = false <-> b <=k a.
Proof. rewrite <- key_not_lt, <- key_ltb_lt. destruct (a <?k b); naive_solver. Qed.

Lemma key_leb_gt a b : (a <=?k b) = false <-> b <k a.
Proof.
  split.
  - intros H. destruct (key_trichotomy b a) as [?|H']; [done|].
    exfalso. assert (a <=k b) as Hle%key_leb_le; [|congruence].
    apply key_le_lteq. destruct H' as [->|?]; auto.
  - intros H. destruct (a <=?k b) eqn:E; [|done].
    by apply key_leb_le, key_not_lt in E.
Qed.

(** The decision procedure of the Standard Library for total orders, at the key order. *)
Module KeyOrder.
Definition t : Type := bytes.
Definition eq : t -> t -> Prop := Logic.eq.
Definition lt : t -> t -> Prop := key_lt.
Definition le : t -> t -> Prop := key_le.
End KeyOrder.

Module KeyTotal.
Definition eq_equiv : Equivalence KeyOrder.eq := eq_equivalence.
Definition lt_strorder : StrictOrder KeyOrder.lt :=
  {| StrictOrder_Irreflexive := key_lt_irrefl;
     StrictOrder_Transitive := key_lt_trans |}.
Definition lt_compat : Proper (KeyOrder.eq ==> KeyOrder.eq ==> iff) KeyOrder.lt.
Proof. by intros ?? -> ?? ->. Qed.
Definition le_lteq : forall x y, KeyOrder.le x y <-> KeyOrder.lt x y \/ KeyOrder.eq x y :=
  key_le_lteq.
Definition lt_total :
  forall x y, KeyOrder.lt x y \/ KeyOrder.eq x y \/ KeyOrder.lt y x := key_trichotomy.
End KeyTotal.

Module KeyTac := MakeOrderTac KeyOrder KeyTotal.

(** Boolean key comparisons in hypotheses to propositions. *)
Ltac key_bool :=
  repeat match goal with
  | H : (_ <?k _) = true |- _ => apply key_ltb_lt in H
  | H : (_ <?k _) = false |- _ => apply key_ltb_ge in H
  | H : (_ <=?k _) = true |- _ => apply key_leb_le in H
  | H : (_ <=?k _) = false |- _ => apply key_leb_gt in H
  | H : negb _ = true |- _ => apply negb_true_iff in H
  | H : negb _ = false |- _ => apply negb_false_iff in H
  | H : _ && _ = true |- _ => apply andb_true_iff in H as [? ?]
  | H : _ || _ = false |- _ => apply orb_false_iff in H as [? ?]
  | H : ~ _ <k _ |- _ => apply key_not_lt in H
  | |- (_ <?k _) = true => apply key_ltb_lt
  | |- (_ <?k _) = false => apply key_ltb_ge
  | |- (_ <=?k _) = true => apply key_leb_le
  | |- (_ <=?k _) = false => apply key_leb_gt
  | |- negb _ = true => apply negb_true_iff
  | |- negb _ = false => apply negb_false_iff
  end.

(** [key_order] closes a goal that follows from the key comparisons of the context. *)
Ltac key_order :=
  key_bool;
  change key_lt with KeyOrder.lt in *; change key_le with KeyOrder.le in *;
  change (@eq bytes) with KeyOrder.eq in *;
  KeyTac.order.

#[export] Instance key_lt_dec : RelDecision key_lt.
Proof.
  intros a b. destruct (a <?k b) eqn:E; [left|right].
  - by apply key_ltb_lt.
  - by apply key_not_lt, key_ltb_ge.
Defined.

#[export] Instance key_le_dec : RelDecision key_le.
Proof.
  intros a b. destruct (a <=?k b) eqn:E; [left|right].
  - by apply key_leb_le.
  - intros H. apply key_leb_gt in E. by apply key_not_lt in H.
Defined.

#[export] Instance key_le_total : TotalOrder key_le.
Proof.
  repeat split.
  - intros a. apply key_le_lteq. auto.
  - intros a b c. key_order.
  - intros a b. key_order.
  - intros a b. destruct (key_trichotomy a b) as [?|[->|?]].
    + left. split; [|intros ?]; key_order.
    + auto.
    + right; right. split; [|intros ?]; key_order.
Qed.

Lemma key_empty_le a : [] <=k a.
Proof. unfold key_le. rewrite slice_compare_lex. by destruct a. Qed.

Lemma key_lt_empty a : ~ a <k [].
Proof. apply key_not_lt, key_empty_le. Qed.

#[export] Hint Resolve key_empty_le : ekv.

Lemma slice_eqb_eq a b : slice_eqb a b = true <-> a = b.
Proof.
  unfold slice_eqb. split.
  - intros [Hl Hm]%andb_true_iff. apply Nat.eqb_eq in Hl.
    apply lex_eq. rewrite <- slice_compare_lex. unfold slice_compare.
    rewrite <- Hl, Nat.min_id. destruct (memcmp a b (length a)); try done.
    apply Nat.compare_refl.
  - intros ->. rewrite Nat.eqb_refl. pose proof (lex_refl b) as H.
    rewrite <- slice_compare_lex in H. unfold slice_compare in H.
    rewrite Nat.min_id in H. by destruct (memcmp b b (length b)).
Qed.

Lemma key_min_spec a b : key_min a b <=k a /\ key_min a b <=k b /\ (key_min a b = a \/ key_min a b = b).
Proof. unfold key_min. case_scrut; repeat split; auto; key_order. Qed.

Lemma key_max_spec a b : a <=k key_max a b /\ b <=k key_max a b /\ (key_max a b = a \/ key_max a b = b).
Proof. unfold key_max. case_scrut; repeat split; auto; key_order. Qed.

(** ** Prefixes *)

Lemma lex_app_common p a b : lex (p ++ a) (p ++ b) = lex a b.
Proof. induction p as [|x p IH]; simpl; [done|]. by rewrite Z.compare_refl. Qed.

Lemma key_le_lex a b : a <=k b <-> lex a b <> Gt.
Proof. unfold key_le. by rewrite slice_compare_lex. Qed.

Lemma key_lt_lex a b : a <k b <-> lex a b = Lt.
Proof. unfold key_lt. by rewrite slice_compare_lex. Qed.

Lemma memcmp_prefix p k :
  memcmp k p (length p) = Eq -> (length p <= length k)%nat -> exists t, k = p ++ t.
Proof.
  revert k. induction p as [|y p IH]; intros [|x k]; simpl; try (intros; lia); eauto.
  destruct (zb x ?= zb y) eqn:E; try done. apply Z.compare_eq, zb_inj in E as ->.
  intros H Hl. destruct (IH k H) as [t ->]; [lia|]. eauto.
Qed.

Lemma memcmp_app p t : memcmp (p ++ t) p (length p) = Eq.
Proof. induction p as [|x p IH]; simpl; [by destruct t|]. by rewrite Z.compare_refl. Qed.

Lemma starts_with_spec key p : starts_with key p = true <-> exists t, key = p ++ t.
Proof.
  unfold starts_with. split.
  - intros [Hl Hm]%andb_true_iff. apply Nat.leb_le in Hl.
    apply memcmp_prefix; [|done]. by destruct (memcmp key p (length p)).
  - intros [t ->]. rewrite memcmp_app, andb_true_r, length_app. apply Nat.leb_le. lia.
Qed.

Lemma bump_last_inv r s :
  bump_last r = Some s ->
  exists n c rest, r = replicate n xff ++ c :: rest /\ zb c < 255 /\ s = bz (zb c + 1) :: rest.
Proof.
  induction r as [|c r IH]; simpl; [done|].
  destruct (Z.eqb_spec (zb c) 255) as [E|E]; intros H.
  - destruct (IH H) as (n & c' & rest & -> & ? & ->). exists (S n), c', rest.
    repeat split; try done. simpl. f_equal. by apply zb_inj.
  - simplify_eq. exists 0%nat, c, r. pose proof (zb_range c). repeat split; lia.
Qed.

Lemma bump_last_none r : bump_last r = None -> r = replicate (length r) xff.
Proof.
  induction r as [|c r IH]; simpl; [done|].
  destruct (Z.eqb_spec (zb c) 255) as [E|E]; [|done].
  intros H. rewrite <- IH by done. f_equal. by apply zb_inj.
Qed.

Lemma ff_le_prefix n k : replicate n xff <=k k -> exists t, k = replicate n xff ++ t.
Proof.
  rewrite key_le_lex. revert k. induction n as [|n IH]; intros k; cbn [replicate lex]; [by eauto|].
  destruct k as [|x k]; cbn [lex]; [done|].
  pose proof (zb_range x). change (zb xff) with 255.
  destruct (Z.compare_spec 255 (zb x)) as [E|?|?]; [|lia|by intros []].
  intros H'. destruct (IH k H') as [t ->]. exists t. simpl. f_equal. symmetry. by apply zb_inj.
Qed.

Lemma key_le_app p t : p <=k p ++ t.
Proof.
  apply key_le_lex. rewrite <- (app_nil_r p) at 1. rewrite lex_app_common. by destruct t.
Qed.

Lemma bumped_above p c n t : zb c < 255 ->
  (p ++ c :: replicate n xff) ++ t <k p ++ [bz (zb c + 1)].
Proof.
  intros Hc. apply key_lt_lex. rewrite <- app_assoc, lex_app_common. simpl.
  rewrite bz_small by (pose proof (zb_range c); lia).
  destruct (Z.compare_spec (zb c) (zb c + 1)); try lia. done.
Qed.

Lemma bumped_interval p c n key :
  zb c < 255 ->
  p ++ c :: replicate n xff <=k key -> key <k p ++ [bz (zb c + 1)] ->
  exists t, key = (p ++ c :: replicate n xff) ++ t.
Proof.
  intros Hc. pose proof (zb_range c). rewrite key_le_lex, key_lt_lex.
  revert key. induction p as [|y p IH]; intros [|x k]; simpl; try done.
  - rewrite bz_small by lia.
    destruct (Z.compare_spec (zb c) (zb x)) as [E|E|E]; try done.
    + intros Hle _. apply zb_inj in E as ->.
      destruct (ff_le_prefix n k) as [t ->]; [by apply key_le_lex|]. by exists t.
    + destruct (Z.compare_spec (zb x) (zb c + 1)); try lia; try done. by destruct k.
  - destruct (Z.compare_spec (zb y) (zb x)) as [E|E|E]; try done.
    + apply zb_inj in E as ->. rewrite Z.compare_refl.
      intros H1 H2. destruct (IH k H1 H2) as [t ->]. by exists t.
    + destruct (Z.compare_spec (zb x) (zb y)); try lia. done.
Qed.

Lemma prefix_upper_bound_inv prefix ub :
  prefix_upper_bound prefix = Some ub ->
  exists p c n, prefix = p ++ c :: replicate n xff /\ zb c < 255 /\ ub = p ++ [bz (zb c + 1)].
Proof.
  unfold prefix_upper_bound. destruct (bump_last (rev prefix)) as [r|] eqn:E; [|done].
  intros [= <-]. apply bump_last_inv in E as (n & c & rest & Hr & Hc & ->).
  exists (rev rest), c, n. split; [|by simpl].
  rewrite <- (rev_involutive prefix), Hr, rev_app_distr. simpl. rewrite <- app_assoc. simpl.
  by rewrite rev_replicate.
Qed.

(** Scanning the half-open interval that [prefix_upper_bound] answers visits exactly the keys with
    the prefix. *)
Lemma prefix_upper_bound_exact prefix ub key :
  prefix_upper_bound prefix = Some ub ->
  (starts_with key prefix = true <-> prefix <=k key /\ key <k ub).
Proof.
  intros (p & c & n & -> & Hc & ->)%prefix_upper_bound_inv. rewrite starts_with_spec. split.
  - intros [t ->]. split; [apply key_le_app | by apply bumped_above].
  - intros [Hle Hlt]. by apply bumped_interval.
Qed.

(** When there is no such bound, the scan that runs to the end of the keyspace visits exactly the
    keys with the prefix. *)
Lemma prefix_upper_bound_none prefix key :
  prefix_upper_bound prefix = None ->
  (starts_with key prefix = true <-> prefix <=k key).
Proof.
  unfold prefix_upper_bound. destruct (bump_last (rev prefix)) eqn:E; [done|]. intros _.
  apply bump_last_none in E.
  assert (prefix = replicate (length prefix) xff) as ->.
  { rewrite <- (rev_involutive prefix) at 1. by rewrite E, length_rev, rev_replicate. }
  rewrite starts_with_spec. split.
  - intros [t ->]. apply key_le_app.
  - apply ff_le_prefix.
Qed.

(** ** Properties *)

(** a prefix scan needs no filter. The half-open interval from the prefix to what
    [prefix_upper_bound] answers (unbounded above when it answers nothing) holds exactly the keys
    that start with the prefix, for every prefix and key. *)
Lemma prefix_scan_exact prefix key :
  starts_with key prefix = true <->
  prefix <=k key /\ match prefix_upper_bound prefix with Some ub => key <k ub | None => True end.
Proof.
  destruct (prefix_upper_bound prefix) as [ub|] eqn:E.
  - by apply prefix_upper_bound_exact.
  - rewrite (prefix_upper_bound_none _ _ E). tauto.
Qed.
