(* ===== verification/Format.v ===== *)
(** * Wire primitives and range tombstones

    [src/sst/format.hpp]: value types, little-endian fixed-width integers, varints, and the
    half-open range tombstones with their union ([merge_ranges]) and restriction ([clip_ranges]).

    A decoder that advances a pointer [p] towards [limit] is a function of the bytes between them
    and answers the decoded value with the bytes that are left; [None] is its [false] answer. *)

From S2P Require Import Prelude Slice.

(** ** Value types *)

Inductive ValueType : Type := Delete | Put.

#[export] Instance ValueType_eq_dec : EqDecision ValueType.
Proof. solve_decision. Defined.

Definition value_type_byte (t : ValueType) : Z := match t with Delete => 0 | Put => 1 end.

Definition is_known_value_type (raw : Z) : bool := (raw =? 0) || (raw =? 1).

(** [static_cast<ValueType>(raw)] of a byte [is_known_value_type] has accepted. *)
Definition value_type_of (raw : Z) : ValueType := if raw =? 0 then Delete else Put.

Definition kBlockTrailerLength : Z := 9.
Definition kMaxValueBytes : Z := 2 ^ 20.
Definition kMaxKeyBytes : Z := 64 * 2 ^ 10.
Definition kMaxEntryBlockBytes : Z := kMaxValueBytes + kMaxKeyBytes + 1024.

(** ** Little-endian fixed-width integers *)

Definition put_fixed32 (value : Z) : bytes :=
  [bz value; bz (Z.shiftr value 8); bz (Z.shiftr value 16); bz (Z.shiftr value 24)].

Definition put_fixed64 (value : Z) : bytes :=
  map (fun i => bz (Z.shiftr value (8 * Z.of_nat i))) (seq 0 8).

(** Byte [i] of the memory that starts at the pointer. The callers check the bound first; a
    position past the end reads as zero here. *)
Definition byte_at (p : bytes) (i : nat) : Z := zb (nth i p x00).

Definition decode_fixed32 (p : bytes) : Z :=
  Z.lor (Z.lor (Z.lor (byte_at p 0) (Z.shiftl (byte_at p 1) 8)) (Z.shiftl (byte_at p 2) 16))
        (Z.shiftl (byte_at p 3) 24).

Definition decode_fixed64 (p : bytes) : Z :=
  fold_left (fun value i => Z.lor value (Z.shiftl (byte_at p i) (8 * Z.of_nat i))) (seq 0 8) 0.

(** ** Varints *)

(** The [while (value >= 0x80)] loop. Nine rounds bring any [uint64_t] under [0x80]. *)
Fixpoint put_varint_loop (fuel : nat) (value : Z) : bytes :=
  match fuel with
  | S fuel' =>
      if 0x80 <=? value
      then bz (Z.lor (Z.land value 0x7F) 0x80) :: put_varint_loop fuel' (Z.shiftr value 7)
      else [bz value]
  | O => [bz value]
  end.

Definition put_varint32 (value : Z) : bytes := put_varint_loop 4 value.
Definition put_varint64 (value : Z) : bytes := put_varint_loop 9 value.

(** The decoding loop: at most [rounds] bytes, each shifted into a [wrap]-wide accumulator. *)
Fixpoint get_varint_loop (wrap : Z -> Z) (rounds : nat) (shift result : Z) (p : bytes)
  : option (Z * bytes) :=
  match rounds, p with
  | S rounds', b :: p' =>
      let byte := zb b in
      if negb (Z.land byte 0x80 =? 0)
      then get_varint_loop wrap rounds' (shift + 7)
             (Z.lor result (wrap (Z.shiftl (Z.land byte 0x7F) shift))) p'
      else Some (Z.lor result (wrap (Z.shiftl byte shift)), p')
  | _, _ => None
  end.

(** [shift <= 28] in steps of seven is five rounds, [shift <= 63] is ten. *)
Definition get_varint32 (p : bytes) : option (Z * bytes) := get_varint_loop u32 5 0 0 p.
Definition get_varint64 (p : bytes) : option (Z * bytes) := get_varint_loop u64 10 0 0 p.

(** ** Range tombstones *)

Record RangeTombstone : Type := mkRange { lower : bytes; upper : bytes }.

#[export] Instance RangeTombstone_eq_dec : EqDecision RangeTombstone.
Proof. solve_decision. Defined.

Definition covers (r : RangeTombstone) (key : bytes) : bool :=
  (lower r <=?k key) && (key <?k upper r).

(** The comparator of [std::sort] in [merge_ranges], as the order it induces. *)
Definition range_le (a b : RangeTombstone) : Prop :=
  lower a <k lower b \/ (lower a = lower b /\ upper a <=k upper b).

#[export] Instance range_le_dec : RelDecision range_le.
Proof. unfold range_le. intros a b. apply _. Defined.

(** One round of the loop: [merged] holds the ranges pushed so far, the last one first. *)
Definition merge_step (merged : list RangeTombstone) (range : RangeTombstone)
  : list RangeTombstone :=
  if upper range <=?k lower range then merged
  else match merged with
       | back :: rest =>
           if lower range <=?k upper back
           then (if upper back <?k upper range then mkRange (lower back) (upper range) else back)
                  :: rest
           else range :: merged
       | [] => [range]
       end.

Definition merge_ranges (ranges : list RangeTombstone) : list RangeTombstone :=
  rev (fold_left merge_step (merge_sort range_le ranges) []).

Definition clip_one (lo hi : option bytes) (range : RangeTombstone) : RangeTombstone :=
  mkRange
    (match lo with Some l => if lower range <?k l then l else lower range | None => lower range end)
    (match hi with Some h => if h <?k upper range then h else upper range | None => upper range end).

Definition clip_ranges (ranges : list RangeTombstone) (lo hi : option bytes)
  : list RangeTombstone :=
  filter (fun r => Is_true (lower r <?k upper r)) (map (clip_one lo hi) ranges).

(** Whether some range of a set covers a key: what a reader asks of the set. *)
Definition any_covers (ranges : list RangeTombstone) (key : bytes) : bool :=
  existsb (fun r => covers r key) ranges.

(** ** Fixed-width round trips *)

(** Little-endian value of a byte string, the reference for both decoders. *)
Definition le_value (l : bytes) : Z := fold_right (fun b acc => zb b + 256 * acc) 0 l.

(** The [n] low bytes of a value, the reference for both encoders. *)
Definition le_bytes (n : nat) (v : Z) : bytes :=
  map (fun i => bz (Z.shiftr v (8 * Z.of_nat i))) (seq 0 n).

Lemma le_bytes_S n v : le_bytes (S n) v = bz v :: le_bytes n (v / 256).
Proof.
  unfold le_bytes. simpl. rewrite Z.shiftr_0_r. f_equal.
  rewrite <- seq_shift, map_map. apply map_ext. intros i. f_equal.
  rewrite Nat2Z.inj_succ, Z.mul_succ_r, Z.add_comm, <- Z.shiftr_shiftr by lia.
  by rewrite (Z.shiftr_div_pow2 v 8) by lia.
Qed.

Lemma le_value_bytes n v : le_value (le_bytes n v) = v mod 256 ^ Z.of_nat n.
Proof.
  revert v. induction n as [|n IH]; intros v.
  - simpl. by rewrite Z.mod_1_r.
  - rewrite le_bytes_S. cbn [le_value fold_right]. fold (le_value (le_bytes n (v / 256))).
    rewrite IH, zb_bz, Nat2Z.inj_succ, Z.pow_succ_r by lia.
    rewrite Z.rem_mul_r; lia.
Qed.

Lemma length_le_bytes n v : length (le_bytes n v) = n.
Proof. unfold le_bytes. by rewrite length_map, length_seq. Qed.

Lemma le_value_range l : 0 <= le_value l < 256 ^ zlen l.
Proof.
  induction l as [|b l IH]; [done|]. cbn [le_value fold_right]. fold (le_value l).
  rewrite zlen_cons, Z.pow_add_r by (pose proof (zlen_nonneg l); lia).
  pose proof (zb_range b). lia.
Qed.

Lemma decode_fixed32_le p : decode_fixed32 p = le_value (map (fun i => nth i p x00) (seq 0 4)).
Proof.
  unfold decode_fixed32, byte_at. simpl.
  pose proof (zb_range (nth 0 p x00)). pose proof (zb_range (nth 1 p x00)).
  pose proof (zb_range (nth 2 p x00)). pose proof (zb_range (nth 3 p x00)).
  rewrite (lor_shiftl_add _ _ 8) by lia. rewrite (lor_shiftl_add _ _ 16) by lia.
  rewrite (lor_shiftl_add _ _ 24) by lia. lia.
Qed.

Lemma decode_fixed64_le p : decode_fixed64 p = le_value (map (fun i => nth i p x00) (seq 0 8)).
Proof.
  unfold decode_fixed64, byte_at. simpl.
  pose proof (zb_range (nth 0 p x00)). pose proof (zb_range (nth 1 p x00)).
  pose proof (zb_range (nth 2 p x00)). pose proof (zb_range (nth 3 p x00)).
  pose proof (zb_range (nth 4 p x00)). pose proof (zb_range (nth 5 p x00)).
  pose proof (zb_range (nth 6 p x00)). pose proof (zb_range (nth 7 p x00)).
  rewrite Z.shiftl_0_r. change (Z.lor 0 ?x) with x.
  rewrite (lor_shiftl_add _ _ 8) by lia. rewrite (lor_shiftl_add _ _ 16) by lia.
  rewrite (lor_shiftl_add _ _ 24) by lia. rewrite (lor_shiftl_add _ _ 32) by lia.
  rewrite (lor_shiftl_add _ _ 40) by lia. rewrite (lor_shiftl_add _ _ 48) by lia.
  rewrite (lor_shiftl_add _ _ 56) by lia. lia.
Qed.

Lemma nth_prefix n l rest :
  length l = n -> map (fun i => nth i (l ++ rest) x00) (seq 0 n) = l.
Proof.
  intros <-. induction l as [|x l IH]; [done|].
  simpl. f_equal. by rewrite <- seq_shift, map_map.
Qed.

Lemma put_fixed32_le v : put_fixed32 v = le_bytes 4 v.
Proof. unfold put_fixed32, le_bytes. simpl. by rewrite Z.shiftr_0_r. Qed.

Lemma length_put_fixed32 v : length (put_fixed32 v) = 4%nat.
Proof. done. Qed.

Lemma length_put_fixed64 v : length (put_fixed64 v) = 8%nat.
Proof. done. Qed.

Lemma decode_put_fixed32 v rest : decode_fixed32 (put_fixed32 v ++ rest) = u32 v.
Proof. by rewrite decode_fixed32_le, nth_prefix, put_fixed32_le, le_value_bytes by done. Qed.

Lemma decode_put_fixed64 v rest : decode_fixed64 (put_fixed64 v ++ rest) = u64 v.
Proof. rewrite decode_fixed64_le, nth_prefix by done. apply (le_value_bytes 8). Qed.

Lemma decode_fixed32_range p : is_u32 (decode_fixed32 p).
Proof.
  rewrite decode_fixed32_le.
  apply (le_value_range (map (fun i => nth i p x00) (seq 0 4))).
Qed.

Lemma decode_fixed64_range p : is_u64 (decode_fixed64 p).
Proof.
  rewrite decode_fixed64_le.
  apply (le_value_range (map (fun i => nth i p x00) (seq 0 8))).
Qed.

#[export] Hint Resolve decode_fixed32_range decode_fixed64_range : ekv.

(** ** Varint round trips *)

Lemma high_bit_clear b : 0 <= b < 128 -> Z.land b 128 = 0.
Proof.
  intros Hb. replace b with (Z.land b (Z.ones 7)).
  - rewrite <- Z.land_assoc. change (Z.land (Z.ones 7) 128) with 0. apply Z.land_0_r.
  - rewrite Z.land_ones by lia. by apply Z.mod_small.
Qed.

Lemma lor_128 b : 0 <= b < 128 -> Z.lor b 128 = b + 128.
Proof. intros. change 128 with (Z.shiftl 1 7) at 1. rewrite lor_shiftl_add; lia. Qed.

Lemma high_bit_set b : 0 <= b < 128 -> Z.land (b + 128) 128 = 128 /\ Z.land (b + 128) 127 = b.
Proof.
  intros Hb. rewrite <- lor_128 by done. rewrite !Z.land_lor_distr_l. split.
  - by rewrite high_bit_clear by done.
  - change 127 with (Z.ones 7). rewrite Z.land_ones by lia. rewrite Z.mod_small by lia.
    change (Z.land 128 (Z.ones 7)) with 0. apply Z.lor_0_r.
Qed.

(** A byte with the continuation bit, and one without. *)
Lemma varint_byte_cont b : 0 <= b < 128 ->
  (Z.land (zb (bz (Z.lor b 128))) 128 =? 0) = false /\ Z.land (zb (bz (Z.lor b 128))) 127 = b.
Proof.
  intros Hb. rewrite lor_128, bz_small by lia. destruct (high_bit_set b Hb) as [-> ->]. done.
Qed.

Lemma varint_byte_last b : 0 <= b < 128 -> (Z.land (zb (bz b)) 128 =? 0) = true.
Proof. intros. by rewrite bz_small, high_bit_clear by lia. Qed.

Lemma get_put_varint_loop w wrap fuel rounds shift result v rest :
  (forall z, 0 <= z < 2 ^ w -> wrap z = z) ->
  0 <= shift -> 0 <= result < 2 ^ shift -> 0 <= v ->
  v < 128 ^ Z.of_nat (S fuel) -> (fuel < rounds)%nat ->
  v * 2 ^ shift < 2 ^ w ->
  get_varint_loop wrap rounds shift result (put_varint_loop fuel v ++ rest)
  = Some (result + v * 2 ^ shift, rest).
Proof.
  intros Hwrap. revert rounds shift result v.
  induction fuel as [|fuel IH]; intros [|rounds] shift result v Hs Hr Hv Hf Hrounds Hw;
    try lia.
  - simpl in Hf. simpl. rewrite varint_byte_last by lia. simpl. rewrite bz_small by lia.
    rewrite Hwrap by (rewrite Z.shiftl_mul_pow2 by done; nia).
    by rewrite lor_shiftl_add.
  - cbn [put_varint_loop]. destruct (Z.leb_spec 128 v) as [Hge|Hlt].
    + assert (0 <= Z.land v 127 < 128) as Hlow.
      { change 127 with (Z.ones 7). rewrite Z.land_ones by lia. change (2 ^ 7) with 128. mlia. }
      destruct (varint_byte_cont (Z.land v 127) Hlow) as [Hc Hb].
      simpl. rewrite Hc, Hb. simpl. change 127 with (Z.ones 7).
      rewrite Z.land_ones by lia. rewrite Z.shiftr_div_pow2 by lia. change (2 ^ 7) with 128.
      assert (v = 128 * (v / 128) + v mod 128) as Hdiv by mlia.
      assert (0 < 2 ^ shift) by lia.
      assert (2 ^ (shift + 7) = 2 ^ shift * 128) as Hpow by (rewrite Z.pow_add_r by lia; lia).
      assert (0 <= v mod 128 <= v) by mlia.
      assert (0 <= v mod 128 * 2 ^ shift < 2 ^ w) by nia.
      rewrite Hwrap by (by rewrite Z.shiftl_mul_pow2 by done).
      rewrite lor_shiftl_add by done.
      assert (0 <= v / 128) by mlia.
      assert (v * 2 ^ shift = 128 * (v / 128) * 2 ^ shift + v mod 128 * 2 ^ shift) as Hsplit
        by (rewrite Hdiv at 1; ring).
      assert (v mod 128 * 2 ^ shift <= 127 * 2 ^ shift) by (apply Z.mul_le_mono_nonneg_r; mlia).
      rewrite IH; rewrite ?Hpow; try lia.
      * do 2 f_equal. lia.
      * rewrite Nat2Z.inj_succ, Z.pow_succ_r in Hf by lia. mlia.
    + simpl. rewrite varint_byte_last by lia. simpl. rewrite bz_small by lia.
      rewrite Hwrap by (rewrite Z.shiftl_mul_pow2 by done; nia).
      by rewrite lor_shiftl_add.
Qed.

Lemma get_put_varint32 v rest : is_u32 v -> get_varint32 (put_varint32 v ++ rest) = Some (v, rest).
Proof.
  intros Hv. unfold is_u32 in Hv. unfold get_varint32, put_varint32.
  rewrite (get_put_varint_loop 32); try lia.
  - f_equal. f_equal. lia.
  - intros z Hz. by apply Z.mod_small.
Qed.

Lemma get_put_varint64 v rest : is_u64 v -> get_varint64 (put_varint64 v ++ rest) = Some (v, rest).
Proof.
  intros Hv. unfold is_u64 in Hv. unfold get_varint64, put_varint64.
  rewrite (get_put_varint_loop 64); try lia.
  - f_equal. f_equal. lia.
  - intros z Hz. by apply Z.mod_small.
Qed.

(** A varint decoder consumes at least one and at most [rounds] bytes, and never reads past them. *)
Lemma get_varint_loop_suffix wrap rounds shift result p v p' :
  get_varint_loop wrap rounds shift result p = Some (v, p') ->
  exists l, p = l ++ p' /\ (0 < length l <= rounds)%nat.
Proof.
  revert shift result p. induction rounds as [|rounds IH]; intros shift result [|b p]; try done.
  simpl. destruct (negb _).
  - intros (l & -> & ?)%IH. exists (b :: l). simpl. split; [done|lia].
  - intros [= <- <-]. exists [b]. simpl. split; [done|lia].
Qed.

Lemma get_varint_loop_range n wrap rounds shift result p v p' :
  0 <= n -> (forall z, 0 <= wrap z < 2 ^ n) -> 0 <= result < 2 ^ n ->
  get_varint_loop wrap rounds shift result p = Some (v, p') -> 0 <= v < 2 ^ n.
Proof.
  intros Hn Hw. revert shift result p.
  induction rounds as [|rounds IH]; intros shift result [|b p]; try done.
  simpl. intros Hr. destruct (negb _).
  - apply IH. by apply lor_range.
  - intros [= <- <-]. by apply lor_range.
Qed.

Lemma get_varint32_suffix p v p' :
  get_varint32 p = Some (v, p') -> exists l, p = l ++ p' /\ (0 < length l <= 5)%nat.
Proof. apply get_varint_loop_suffix. Qed.

Lemma get_varint64_suffix p v p' :
  get_varint64 p = Some (v, p') -> exists l, p = l ++ p' /\ (0 < length l <= 10)%nat.
Proof. apply get_varint_loop_suffix. Qed.

Lemma get_varint32_range p v p' : get_varint32 p = Some (v, p') -> is_u32 v.
Proof. apply (get_varint_loop_range 32); [lia|apply u32_range|lia]. Qed.

Lemma get_varint64_range p v p' : get_varint64 p = Some (v, p') -> is_u64 v.
Proof. apply (get_varint_loop_range 64); [lia|apply u64_range|lia]. Qed.

Lemma length_put_varint_loop fuel v : (0 < length (put_varint_loop fuel v) <= S fuel)%nat.
Proof.
  revert v. induction fuel as [|fuel IH]; intros v; simpl; [lia|].
  case_scrut; simpl; [|lia]. specialize (IH (Z.shiftr v 7)). lia.
Qed.

(** ** Range tombstones *)

#[export] Instance range_le_trans : Transitive range_le.
Proof.
  intros [l1 u1] [l2 u2] [l3 u3]. unfold range_le. simpl.
  intros [?|[-> ?]] [?|[-> ?]]; [left|left|left|right; split; [done|]]; key_order.
Qed.

#[export] Instance range_le_total : Total range_le.
Proof.
  intros [l1 u1] [l2 u2]. unfold range_le. simpl.
  destruct (key_trichotomy l1 l2) as [?|[->|?]]; auto.
  destruct (key_trichotomy u1 u2) as [?|[->|?]]; [left|left|right]; right; split; auto; key_order.
Qed.

Lemma covers_spec r k : covers r k = true <-> lower r <=k k /\ k <k upper r.
Proof. unfold covers. by rewrite andb_true_iff, key_leb_le, key_ltb_lt. Qed.

Lemma any_covers_spec rs k :
  any_covers rs k = true <-> exists r, r ∈ rs /\ lower r <=k k /\ k <k upper r.
Proof.
  unfold any_covers. rewrite existsb_exists. setoid_rewrite covers_spec.
  by setoid_rewrite list_elem_of_In.
Qed.

Lemma any_covers_app rs ss k : any_covers (rs ++ ss) k = any_covers rs k || any_covers ss k.
Proof. apply existsb_app. Qed.

Lemma any_covers_perm rs ss k : rs ≡ₚ ss -> any_covers rs k = any_covers ss k.
Proof.
  intros H. apply eq_true_iff_eq. rewrite !any_covers_spec. by setoid_rewrite H.
Qed.

Lemma any_covers_rev rs k : any_covers (rev rs) k = any_covers rs k.
Proof. apply any_covers_perm. rewrite rev_alt. apply reverse_Permutation. Qed.

Lemma any_covers_cons r rs k : any_covers (r :: rs) k = covers r k || any_covers rs k.
Proof. done. Qed.

(** Two ranges that meet cover together what their hull covers. *)
Lemma covers_join a b k :
  lower a <=k lower b -> lower b <=k upper a -> upper a <=k upper b ->
  covers (mkRange (lower a) (upper b)) k = covers a k || covers b k.
Proof.
  intros. apply eq_true_iff_eq. rewrite orb_true_iff, !covers_spec. simpl. split.
  - intros [? ?]. destruct (k <?k upper a) eqn:E; [left|right]; split; key_order.
  - intros [[? ?]|[? ?]]; split; key_order.
Qed.

Lemma covers_absorb a b k :
  lower a <=k lower b -> upper b <=k upper a -> covers a k || covers b k = covers a k.
Proof.
  intros. apply eq_true_iff_eq. rewrite orb_true_iff, !covers_spec. split; [|by left].
  intros [?|[? ?]]; [done|]. split; key_order.
Qed.

Lemma covers_empty r k : upper r <=k lower r -> covers r k = false.
Proof. intros. apply not_true_iff_false. rewrite covers_spec. intros [? ?]. key_order. Qed.

(** The canonical form of a set of ranges: in order, apart from each other, none empty. *)
Definition ranges_apart (a b : RangeTombstone) : Prop := upper a <k lower b.

Definition canonical (rs : list RangeTombstone) : Prop :=
  StronglySorted ranges_apart rs /\ Forall (fun r => lower r <k upper r) rs.

(** The loop invariant of [merge_ranges]. [merged] is kept last range first. *)
Definition merging (merged : list RangeTombstone) (next : bytes) : Prop :=
  StronglySorted (fun a b => ranges_apart b a) merged /\
  Forall (fun r => lower r <k upper r /\ lower r <=k next) merged.

Lemma merging_mono merged x y : x <=k y -> merging merged x -> merging merged y.
Proof.
  intros Hxy [Hs Hf]. split; [done|]. eapply Forall_impl; [exact Hf|].
  simpl. intros r [? ?]. split; [done|]. key_order.
Qed.

Lemma merge_step_ok merged r :
  merging merged (lower r) ->
  merging (merge_step merged r) (lower r) /\
  forall k, any_covers (merge_step merged r) k = any_covers merged k || covers r k.
Proof.
  intros Hm. unfold merge_step. destruct (upper r <=?k lower r) eqn:Hempty.
  { split; [done|]. intros k. rewrite covers_empty by key_order. by rewrite orb_false_r. }
  destruct Hm as [Hs Hf]. destruct merged as [|back rest].
  { split; [|intros k; simpl; by rewrite orb_false_r].
    split; repeat constructor; simpl; key_order. }
  apply StronglySorted_inv in Hs as [Hs Hback]. apply Forall_cons in Hf as [[Hb1 Hb2] Hf].
  destruct (lower r <=?k upper back) eqn:Hjoin; [destruct (upper back <?k upper r) eqn:Hext|].
  - split; [split; constructor; simpl; try done; split; key_order|].
    intros k. rewrite !any_covers_cons, covers_join by key_order.
    by destruct (covers back k), (covers r k), (any_covers rest k).
  - split; [split; constructor; simpl; try done; split; key_order|].
    intros k. rewrite any_covers_cons. rewrite <- (covers_absorb back r k) at 1 by key_order.
    by destruct (covers back k), (covers r k), (any_covers rest k).
  - split; [|intros k; by rewrite any_covers_cons, orb_comm].
    split; constructor; try done; [by constructor| |split; key_order|by constructor].
    constructor; [unfold ranges_apart; key_order|].
    eapply Forall_impl; [exact Hback|]. unfold ranges_apart. simpl. intros r' ?. key_order.
Qed.

Lemma merge_fold_ok rs merged :
  StronglySorted range_le rs -> Forall (fun r => merging merged (lower r)) rs ->
  (rs = [] -> exists x, merging merged x) ->
  (exists x, merging (fold_left merge_step rs merged) x) /\
  forall k, any_covers (fold_left merge_step rs merged) k
            = any_covers merged k || any_covers rs k.
Proof.
  revert merged. induction rs as [|r rs IH]; intros merged Hs Hm Hn; simpl.
  { split; [by apply Hn|]. intros k. by rewrite orb_false_r. }
  apply StronglySorted_inv in Hs as [Hs Hle]. apply Forall_cons in Hm as [Hm _].
  destruct (merge_step_ok merged r Hm) as [Hm' Hc].
  destruct (IH (merge_step merged r)) as [Hx Hk]; [done| |by eauto|].
  { eapply Forall_impl; [exact Hle|]. intros r' Hrr'. eapply merging_mono; [|exact Hm'].
    destruct Hrr' as [?|[-> ?]]; key_order. }
  split; [done|]. intros k. by rewrite Hk, Hc, orb_assoc.
Qed.

Lemma merge_ranges_ok rs :
  canonical (merge_ranges rs) /\ forall k, any_covers (merge_ranges rs) k = any_covers rs k.
Proof.
  unfold merge_ranges.
  destruct (merge_fold_ok (merge_sort range_le rs) []) as [[x [Hs Hf]] Hk].
  - apply (StronglySorted_merge_sort range_le).
  - apply Forall_true. intros r. split; constructor.
  - intros _. exists []. split; constructor.
  - split.
    + split; [by apply StronglySorted_rev|].
      rewrite rev_alt. apply Forall_reverse. eapply Forall_impl; [exact Hf|]. by intros r [? ?].
    + intros k. rewrite any_covers_rev, Hk. simpl. apply any_covers_perm, merge_sort_Permutation.
Qed.

(** The bounds of [clip_ranges] as a predicate on keys; an absent bound is no bound. *)
Definition in_bounds (lo hi : option bytes) (k : bytes) : bool :=
  match lo with Some l => l <=?k k | None => true end &&
  match hi with Some h => k <?k h | None => true end.

Lemma clip_one_covers lo hi r k :
  covers (clip_one lo hi r) k = covers r k && in_bounds lo hi k.
Proof.
  apply eq_true_iff_eq. unfold in_bounds. rewrite !andb_true_iff, !covers_spec.
  destruct r as [l u], lo as [lo|], hi as [hi|]; simpl; rewrite ?key_leb_le, ?key_ltb_lt.
  all: repeat case_scrut; split; intros; destruct_and?; repeat split; try key_order.
Qed.

(** Restricting ranges to bounds keeps exactly the covered keys within the bounds. *)
Lemma clip_ranges_covers rs lo hi k :
  any_covers (clip_ranges rs lo hi) k = any_covers rs k && in_bounds lo hi k.
Proof.
  apply eq_true_iff_eq. rewrite andb_true_iff, !any_covers_spec. unfold clip_ranges. split.
  - intros (r & Hr & Hk). rewrite list_elem_of_filter in Hr. destruct Hr as [_ Hr].
    apply list_elem_of_fmap in Hr as (s & -> & Hs). apply covers_spec in Hk.
    rewrite clip_one_covers in Hk. apply andb_true_iff in Hk as [Hk ?].
    split; [|done]. exists s. by rewrite <- covers_spec.
  - intros [(s & Hs & Hk) Hb]. exists (clip_one lo hi s).
    assert (covers (clip_one lo hi s) k = true) as Hc.
    { rewrite clip_one_covers. apply covers_spec in Hk. by rewrite Hk. }
    rewrite list_elem_of_filter, <- covers_spec. repeat split; [|by apply list_elem_of_fmap_2|done].
    apply covers_spec in Hc as [? ?]. apply Is_true_true. key_order.
Qed.

Lemma clip_one_narrow lo hi r : lower r <=k lower (clip_one lo hi r) /\ upper (clip_one lo hi r) <=k upper r.
Proof. destruct r, lo, hi; simpl; repeat case_scrut; split; key_order. Qed.

Lemma clip_one_upper lo u r : upper (clip_one lo (Some u) r) <=k u.
Proof. unfold clip_one. simpl. destruct (u <?k upper r) eqn:E; key_order. Qed.

Lemma clip_ranges_canonical rs lo hi : canonical rs -> canonical (clip_ranges rs lo hi).
Proof.
  unfold clip_ranges. intros [Hs Hf]. induction Hs as [|r rs Hs IH Hr]; simpl; [repeat constructor|].
  apply Forall_cons in Hf as [Hr1 Hf]. destruct (IH Hf) as [IHs IHf]. rewrite filter_cons.
  case_decide as Hd; [|done]. apply Is_true_true in Hd.
  split; constructor; [done| |key_order|done].
  apply Forall_forall. intros s Hs'. rewrite list_elem_of_filter in Hs'. destruct Hs' as [_ Hs'].
  apply list_elem_of_fmap in Hs' as (s0 & -> & Hs0). rewrite Forall_forall in Hr.
  specialize (Hr s0 Hs0). unfold ranges_apart in *.
  pose proof (clip_one_narrow lo hi r). pose proof (clip_one_narrow lo hi s0).
  destruct_and?. key_order.
Qed.

(** In a canonical set the covering range, if any, is the last one that starts at or before the
    key, so a search on the lower bounds decides coverage. *)
Lemma canonical_partitioned rs k :
  canonical rs -> partitioned (fun r => lower r <=?k k) rs.
Proof.
  intros [Hs Hf]. apply (partitioned_sorted (fun a b => lower a <=k lower b)).
  - induction Hs as [|r rs Hs IH Hr]; [constructor|]. apply Forall_cons in Hf as [Hr1 Hf].
    constructor; [by apply IH|]. eapply Forall_impl; [exact Hr|].
    unfold ranges_apart. intros s ?. key_order.
  - intros x y Hxy Hy. key_order.
Qed.

Lemma canonical_lookup rs k i r :
  canonical rs -> rs !! i = Some r ->
  (forall j s, rs !! j = Some s -> (lower s <=k k <-> (j < S i)%nat)) ->
  any_covers rs k = (k <?k upper r).
Proof.
  intros [Hs Hf] Hi Hj. apply eq_true_iff_eq. rewrite any_covers_spec, key_ltb_lt. split.
  - intros (s & Hin & Hlo & Hhi). apply list_elem_of_lookup in Hin as [j Hs'].
    pose proof (proj1 (Hj j s Hs') Hlo) as Hle.
    destruct (decide (i = j)) as [->|Hne]; [congruence|].
    assert (ranges_apart s r) as Hap.
    { eapply StronglySorted_lookup_lt; [exact Hs| |exact Hs'|exact Hi]. lia. }
    assert (lower r <=k k) by (eapply Hj; [exact Hi|lia]).
    rewrite Forall_lookup in Hf. specialize (Hf i r Hi).
    unfold ranges_apart in Hap. exfalso. key_order.
  - intros Hk. exists r. repeat split; [by eapply list_elem_of_lookup_2| |done].
    eapply Hj; [exact Hi|lia].
Qed.

(** ** Properties *)

(** [merge_ranges] keeps exactly the keys its inputs cover and answers disjoint, non-adjacent,
    non-empty ranges in order; [clip_ranges] then keeps exactly the covered keys between its bounds,
    in the same form. *)
Theorem range_union_and_clip rs lo hi :
  canonical (merge_ranges rs) /\
  (forall k, any_covers (merge_ranges rs) k = any_covers rs k) /\
  canonical (clip_ranges (merge_ranges rs) lo hi) /\
  (forall k, any_covers (clip_ranges (merge_ranges rs) lo hi) k = any_covers rs k && in_bounds lo hi k).
Proof.
  destruct (merge_ranges_ok rs) as [Hc Hk]. split_and!; [done|done|by apply clip_ranges_canonical|].
  intros k. by rewrite clip_ranges_covers, Hk.
Qed.

(** A varint written by [put_varint64] (and, below 2^32, by [put_varint32]) is read back by the
    decoder of its width, which consumes exactly the bytes written and leaves whatever follows. *)
Theorem varint_round_trip v rest :
  is_u64 v ->
  get_varint64 (put_varint64 v ++ rest) = Some (v, rest) /\
  (is_u32 v -> get_varint32 (put_varint32 v ++ rest) = Some (v, rest)).
Proof. intros Hv. split; [by apply get_put_varint64|]. intros Hv'. by apply get_put_varint32. Qed.

Lemma varint_round_trip_witness :
  get_varint64 (put_varint64 (2 ^ 64 - 1) ++ [x2a]) = Some (2 ^ 64 - 1, [x2a]).
Proof. apply (varint_round_trip (2 ^ 64 - 1) [x2a]). unfold is_u64. lia. Defined.
