(* ===== verification/Crc32c.v ===== *)
(** * CRC32C

    [src/sst/crc32c.cpp]: the table of the portable path, the portable and the hardware loops, the
    dispatch between them, and what the checksum detects. The CPU instructions the hardware loop
    issues are parameters, with the documented effect of one instruction as hypothesis. *)

From S2P Require Import Prelude Format.

(** ** Definitions *)

Definition kPolynomial : Z := 0x82F63B78.

(** One bit of the division by the reversed Castagnoli polynomial. *)
Definition crc_bit (crc : Z) : Z :=
  if negb (Z.land crc 1 =? 0) then Z.lxor (Z.shiftr crc 1) kPolynomial else Z.shiftr crc 1.

(** The inner loop of [make_table]. *)
Fixpoint crc_bits (n : nat) (crc : Z) : Z :=
  match n with
  | O => crc
  | S n' => crc_bits n' (crc_bit crc)
  end.

Definition make_table : list Z :=
  map (fun i => crc_bits 8 (Z.of_nat i)) (seq 0 256).

Definition kTable : list Z := Eval vm_compute in make_table.

(** One byte of the portable loop. *)
Definition table_step (crc : Z) (b : byte) : Z :=
  Z.lxor (nth (Z.to_nat (Z.land (Z.lxor crc (zb b)) 0xFF)) kTable 0) (Z.shiftr crc 8).

Definition crc32c_table (data : bytes) (crc : Z) : Z := fold_left table_step data crc.

(** [crc32c_portable]; the default seed is zero. *)
Definition crc32c_portable (data : bytes) (seed : Z) : Z :=
  Z.lxor (crc32c_table data (Z.lxor seed 0xFFFFFFFF)) 0xFFFFFFFF.

(** The checksum every caller of [src/sst] and [src/version] computes. *)
Definition crc32c (data : bytes) : Z := crc32c_portable data 0.

Section Hardware.
(** [_mm_crc32_u64] / [crc32cx] and [_mm_crc32_u8] / [crc32cb]. *)
Context (crc32_u64 : Z -> Z -> Z) (crc32_u8 : Z -> Z -> Z).

(** The two [while] loops of [crc32c_hardware]: eight bytes at a time, then the rest one by one. *)
Fixpoint crc32c_hardware_tail (data : bytes) (crc : Z) : Z :=
  match data with
  | [] => crc
  | b :: data' => crc32c_hardware_tail data' (crc32_u8 crc (zb b))
  end.

Fixpoint crc32c_hardware_loop (fuel : nat) (data : bytes) (crc : Z) : Z :=
  match fuel with
  | O => crc32c_hardware_tail data crc
  | S fuel' =>
      if 8 <=? zlen data
      then crc32c_hardware_loop fuel' (drop 8 data) (u32 (crc32_u64 crc (decode_fixed64 data)))
      else crc32c_hardware_tail data crc
  end.

Definition crc32c_hardware (data : bytes) (crc : Z) : Z :=
  crc32c_hardware_loop (length data) data crc.

Definition crc32c_dispatch (have_hardware : bool) (data : bytes) (seed : Z) : Z :=
  let crc := Z.lxor seed 0xFFFFFFFF in
  let crc := if have_hardware then crc32c_hardware data crc else crc32c_table data crc in
  Z.lxor crc 0xFFFFFFFF.

End Hardware.

(** ** The table agrees with the bitwise division *)

Lemma crc_bit_odd crc : crc_bit crc = Z.lxor (Z.shiftr crc 1) (if Z.odd crc then kPolynomial else 0).
Proof.
  unfold crc_bit. change 1 with (Z.ones 1) at 1. rewrite Z.land_ones by lia.
  change (2 ^ 1) with 2. rewrite Zmod_odd. destruct (Z.odd crc); simpl; [done|].
  by rewrite Z.lxor_0_r.
Qed.

Lemma shiftr_shiftl_pred b k : 0 < k -> Z.shiftr (Z.shiftl b k) 1 = Z.shiftl b (k - 1).
Proof. intros. rewrite Z.shiftr_shiftl_l by lia. done. Qed.

Lemma odd_shiftl b k : 0 < k -> Z.odd (Z.shiftl b k) = false.
Proof. intros. rewrite <- Z.bit0_odd. by rewrite Z.shiftl_spec_low by lia. Qed.

(** Bits above the one being shifted out ride along unchanged: the division is linear. *)
Lemma crc_bit_lxor_high a b k :
  0 < k -> crc_bit (Z.lxor a (Z.shiftl b k)) = Z.lxor (crc_bit a) (Z.shiftl b (k - 1)).
Proof.
  intros Hk. rewrite !crc_bit_odd, Z.shiftr_lxor, shiftr_shiftl_pred by done.
  rewrite <- !Z.bit0_odd, Z.lxor_spec, (Z.shiftl_spec_low b) by lia. rewrite xorb_false_r.
  rewrite !Z.lxor_assoc. f_equal. apply Z.lxor_comm.
Qed.

Lemma crc_bits_lxor_high n a b :
  crc_bits n (Z.lxor a (Z.shiftl b (Z.of_nat n))) = Z.lxor (crc_bits n a) b.
Proof.
  revert a. induction n as [|n IH]; intros a.
  - simpl. by rewrite Z.shiftl_0_r.
  - cbn [crc_bits]. rewrite crc_bit_lxor_high by lia.
    replace (Z.of_nat (S n) - 1) with (Z.of_nat n) by lia. apply IH.
Qed.

Lemma low_byte_split x :
  x = Z.lxor (Z.land x 255) (Z.shiftl (Z.shiftr x 8) 8).
Proof.
  apply Z.bits_inj'. intros i Hi. change 255 with (Z.ones 8).
  rewrite Z.lxor_spec, Z.land_spec, Z.testbit_ones by lia.
  destruct (Z.lt_ge_cases i 8).
  - rewrite Z.shiftl_spec_low by lia.
    replace ((0 <=? i) && (i <? 8)) with true by lia. by rewrite andb_true_r, xorb_false_r.
  - rewrite Z.shiftl_spec, Z.shiftr_spec by lia. replace (i - 8 + 8) with i by lia.
    replace ((0 <=? i) && (i <? 8)) with false by lia. by rewrite andb_false_r, xorb_false_l.
Qed.

Lemma kTable_nth i : (i < 256)%nat -> nth i kTable 0 = crc_bits 8 (Z.of_nat i).
Proof.
  intros Hi. change kTable with make_table. unfold make_table.
  change (nth i (map (fun j => crc_bits 8 (Z.of_nat j)) (seq 0 256))
            ((fun j => crc_bits 8 (Z.of_nat j)) 0%nat) = crc_bits 8 (Z.of_nat i)).
  by rewrite map_nth, seq_nth.
Qed.

(** The bitwise reference for one byte. *)
Definition bit_step (crc : Z) (b : byte) : Z := crc_bits 8 (Z.lxor crc (zb b)).

Lemma byte_shiftr_8 b : Z.shiftr (zb b) 8 = 0.
Proof. pose proof (zb_range b). rewrite Z.shiftr_div_pow2 by lia. apply Z.div_small. lia. Qed.

Lemma table_step_bits crc b : table_step crc b = bit_step crc b.
Proof.
  unfold table_step, bit_step. set (x := Z.lxor crc (zb b)).
  assert (0 <= Z.land x 255 < 256) as Hx.
  { change 255 with (Z.ones 8). rewrite Z.land_ones by lia. apply Z.mod_pos_bound. lia. }
  rewrite kTable_nth, Z2Nat.id by lia.
  rewrite (low_byte_split x) at 2. rewrite (crc_bits_lxor_high 8).
  unfold x. by rewrite Z.shiftr_lxor, byte_shiftr_8, Z.lxor_0_r.
Qed.

Lemma crc32c_table_bits data crc : crc32c_table data crc = fold_left bit_step data crc.
Proof.
  unfold crc32c_table. revert crc. induction data as [|b data IH]; intros crc; simpl; [done|].
  by rewrite table_step_bits.
Qed.

(** ** The state is a 32-bit word and every step is a bijection of it *)

Lemma crc_bit_range x : is_u32 x -> is_u32 (crc_bit x).
Proof.
  unfold is_u32. intros Hx. rewrite crc_bit_odd. apply lxor_range; [lia| |].
  - rewrite Z.shiftr_div_pow2 by lia. change (2 ^ 1) with 2. mlia.
  - unfold kPolynomial. destruct (Z.odd x); lia.
Qed.

Lemma crc_bit_inj x y : is_u32 x -> is_u32 y -> crc_bit x = crc_bit y -> x = y.
Proof.
  unfold is_u32. intros Hx Hy. rewrite !crc_bit_odd. intros H.
  assert (forall z, 0 <= z < 2 ^ 32 ->
    Z.testbit (Z.lxor (Z.shiftr z 1) (if Z.odd z then kPolynomial else 0)) 31 = Z.odd z) as Htop.
  { intros z Hz. rewrite Z.lxor_spec, Z.shiftr_spec by lia.
    rewrite <- (Z.mod_small z (2 ^ 32)) at 1 by done. rewrite Z.mod_pow2_bits_high by lia.
    by destruct (Z.odd z). }
  assert (Z.odd x = Z.odd y) as Hodd by (rewrite <- (Htop x Hx), <- (Htop y Hy); by f_equal).
  rewrite <- Hodd in H. apply (f_equal (fun z => Z.lxor z (if Z.odd x then kPolynomial else 0))) in H.
  rewrite !Z.lxor_assoc, !Z.lxor_nilpotent, !Z.lxor_0_r in H.
  rewrite (Z.div_mod x 2), (Z.div_mod y 2) by lia. rewrite !Zmod_odd, Hodd.
  rewrite !Z.shiftr_div_pow2 in H by lia. change (2 ^ 1) with 2 in H. congruence.
Qed.

Lemma crc_bits_range n x : is_u32 x -> is_u32 (crc_bits n x).
Proof. revert x. induction n as [|n IH]; intros x Hx; simpl; auto using crc_bit_range. Qed.

Lemma crc_bits_inj n x y : is_u32 x -> is_u32 y -> crc_bits n x = crc_bits n y -> x = y.
Proof.
  revert x y. induction n as [|n IH]; intros x y Hx Hy; simpl; [done|].
  intros H. apply crc_bit_inj; [done|done|]. apply IH; auto using crc_bit_range.
Qed.

Lemma crc_bits_add m n x : crc_bits (m + n) x = crc_bits n (crc_bits m x).
Proof. revert x. induction m as [|m IH]; intros x; simpl; auto. Qed.

Lemma lxor_byte_range crc b : is_u32 crc -> is_u32 (Z.lxor crc (zb b)).
Proof. intros. pose proof (zb_range b). apply lxor_range; [lia|done|lia]. Qed.

Lemma bit_steps_range data crc : is_u32 crc -> is_u32 (fold_left bit_step data crc).
Proof.
  revert crc. induction data as [|b data IH]; intros crc H; simpl; [done|].
  apply IH, crc_bits_range. by apply lxor_byte_range.
Qed.

Lemma bit_steps_inj data x y :
  is_u32 x -> is_u32 y -> fold_left bit_step data x = fold_left bit_step data y -> x = y.
Proof.
  revert x y. induction data as [|b data IH]; intros x y Hx Hy; simpl; [done|].
  intros H. apply IH in H; [|apply crc_bits_range; by apply lxor_byte_range..].
  apply crc_bits_inj in H; [|by apply lxor_byte_range..].
  apply (f_equal (fun z => Z.lxor z (zb b))) in H.
  by rewrite !Z.lxor_assoc, Z.lxor_nilpotent, !Z.lxor_0_r in H.
Qed.

Lemma le_value_cons b l : le_value (b :: l) = Z.lxor (zb b) (Z.shiftl (le_value l) 8).
Proof.
  assert (Z.land (zb b) (Z.shiftl (le_value l) 8) = 0) as Hdis.
  { apply Z.bits_inj'. intros i Hi. rewrite Z.land_spec, Z.bits_0.
    destruct (Z.lt_ge_cases i 8).
    - by rewrite Z.shiftl_spec_low, andb_false_r by lia.
    - rewrite <- (Z.mod_small (zb b) (2 ^ 8)) by (apply zb_range).
      by rewrite Z.mod_pow2_bits_high by lia. }
  rewrite Z.lxor_lor by done. rewrite lor_shiftl_add by (try apply zb_range; lia).
  cbn [le_value fold_right]. fold (le_value l). lia.
Qed.

Lemma le_value_inj l k : length l = length k -> le_value l = le_value k -> l = k.
Proof.
  revert k. induction l as [|x l IH]; intros [|y k] Hlen; try done.
  cbn [le_value fold_right]. fold (le_value l) (le_value k). intros H.
  pose proof (zb_range x). pose proof (zb_range y). simpl in Hlen.
  f_equal; [apply zb_inj; lia|]. apply IH; lia.
Qed.

(** A run of bytes is one word entering the register. *)
Lemma bit_steps_word w crc :
  fold_left bit_step w crc = crc_bits (8 * length w) (Z.lxor crc (le_value w)).
Proof.
  revert crc. induction w as [|b w IH]; intros crc.
  { simpl. by rewrite Z.lxor_0_r. }
  cbn [fold_left length]. rewrite IH. replace (8 * S (length w))%nat with (8 + 8 * length w)%nat by lia.
  rewrite crc_bits_add. f_equal. unfold bit_step. rewrite <- (crc_bits_lxor_high 8).
  by rewrite le_value_cons, Z.lxor_assoc.
Qed.

Lemma bit_steps_short_inj w1 w2 crc :
  is_u32 crc -> length w1 = length w2 -> (length w1 <= 4)%nat ->
  fold_left bit_step w1 crc = fold_left bit_step w2 crc -> w1 = w2.
Proof.
  intros Hc Hlen H4. rewrite !bit_steps_word, <- Hlen. intros H.
  assert (forall w, length w = length w1 -> is_u32 (Z.lxor crc (le_value w))) as Hr.
  { intros w Hw. apply lxor_range; [lia|done|]. pose proof (le_value_range w) as Hle.
    unfold zlen in Hle. split; [lia|]. eapply Z.lt_le_trans; [apply Hle|].
    change (2 ^ 32) with (256 ^ 4). apply Z.pow_le_mono_r; lia. }
  apply crc_bits_inj in H; auto. apply le_value_inj; [done|].
  apply (f_equal (Z.lxor crc)) in H.
  by rewrite <- !Z.lxor_assoc, Z.lxor_nilpotent, !Z.lxor_0_l in H.
Qed.

(** Damage confined to four consecutive bytes always changes the register. *)
Lemma crc_table_burst p w1 w2 q crc :
  is_u32 crc -> length w1 = length w2 -> (length w1 <= 4)%nat ->
  crc32c_table (p ++ w1 ++ q) crc = crc32c_table (p ++ w2 ++ q) crc -> w1 = w2.
Proof.
  intros Hc Hlen H4. rewrite !crc32c_table_bits, !fold_left_app. intros H.
  apply bit_steps_inj in H; [|by repeat apply bit_steps_range..].
  eapply bit_steps_short_inj; [|done|done|exact H]. by apply bit_steps_range.
Qed.

Lemma crc32c_range data : is_u32 (crc32c data).
Proof.
  unfold crc32c, crc32c_portable. rewrite crc32c_table_bits.
  apply lxor_range; [lia| |lia]. by apply bit_steps_range.
Qed.

#[export] Hint Resolve crc32c_range : ekv.

Lemma lxor_cancel_r a b c : Z.lxor a c = Z.lxor b c -> a = b.
Proof.
  intros H. apply (f_equal (fun z => Z.lxor z c)) in H.
  by rewrite !Z.lxor_assoc, Z.lxor_nilpotent, !Z.lxor_0_r in H.
Qed.

(** Appending the checksum to its data drives the register to a constant, so a record carries its
    own checksum exactly when its whole register is that constant. *)
Lemma crc_residue data stored :
  length stored = 4%nat ->
  crc32c data = le_value stored <->
  crc32c_table (data ++ stored) 0xFFFFFFFF = crc_bits 32 0xFFFFFFFF.
Proof.
  intros Hlen. unfold crc32c, crc32c_portable. rewrite !crc32c_table_bits, fold_left_app.
  rewrite (bit_steps_word stored), Hlen. change (8 * 4)%nat with 32%nat.
  change (Z.lxor 0 0xFFFFFFFF) with 0xFFFFFFFF.
  set (s := fold_left bit_step data 0xFFFFFFFF).
  assert (is_u32 s) as Hs by (apply bit_steps_range; done).
  assert (is_u32 (Z.lxor s (le_value stored))) as Hx.
  { apply lxor_range; [lia|done|]. pose proof (le_value_range stored) as Hle.
    unfold zlen in Hle. by rewrite Hlen in Hle. }
  split.
  - intros <-. by rewrite <- Z.lxor_assoc, Z.lxor_nilpotent, Z.lxor_0_l.
  - intros H. apply crc_bits_inj in H; [|done|unfold is_u32; lia].
    apply (f_equal (Z.lxor s)) in H. rewrite <- Z.lxor_assoc, Z.lxor_nilpotent, Z.lxor_0_l in H.
    done.
Qed.

(** ** The hardware loop computes the same function *)

Section HardwareCorrect.
Context (crc32_u64 : Z -> Z -> Z) (crc32_u8 : Z -> Z -> Z).

(** Documented effect of the instructions: a byte step divides by the Castagnoli polynomial, and
    the quadword step is the byte step over the eight bytes of its operand, lowest first. *)
Hypothesis u8_spec : forall crc b, is_u32 crc -> crc32_u8 crc (zb b) = bit_step crc b.
Hypothesis u64_spec : forall crc v, is_u32 crc -> is_u64 v ->
  crc32_u64 crc v = fold_left (fun c b => crc32_u8 c (zb b)) (put_fixed64 v) crc.

Lemma hardware_tail_table data crc :
  is_u32 crc -> crc32c_hardware_tail crc32_u8 data crc = crc32c_table data crc.
Proof.
  rewrite crc32c_table_bits. revert crc. induction data as [|b data IH]; intros crc Hc; simpl; [done|].
  rewrite u8_spec by done. apply IH. apply crc_bits_range. by apply lxor_byte_range.
Qed.

Lemma put_decode_fixed64 data :
  (8 <= length data)%nat -> put_fixed64 (decode_fixed64 data) = take 8 data.
Proof.
  intros Hlen. apply le_value_inj; [rewrite length_put_fixed64, length_take; lia|].
  change (put_fixed64 ?v) with (le_bytes 8 v).
  rewrite le_value_bytes, decode_fixed64_le, Z.mod_small.
  - f_equal. rewrite <- (nth_prefix 8 (take 8 data) (drop 8 data)) by (rewrite length_take; lia).
    by rewrite take_drop.
  - apply (le_value_range (map (fun i => nth i data x00) (seq 0 8))).
Qed.

Lemma hardware_loop_table fuel data crc :
  is_u32 crc -> crc32c_hardware_loop crc32_u64 crc32_u8 fuel data crc = crc32c_table data crc.
Proof.
  revert data crc. induction fuel as [|fuel IH]; intros data crc Hc; simpl.
  { by apply hardware_tail_table. }
  destruct (Z.leb_spec 8 (zlen data)) as [Hlen|]; [|by apply hardware_tail_table].
  unfold zlen in Hlen.
  assert (u32 (crc32_u64 crc (decode_fixed64 data)) = crc32c_table (take 8 data) crc) as Hstep.
  { rewrite u64_spec by eauto with ekv. rewrite put_decode_fixed64 by lia.
    rewrite crc32c_table_bits. transitivity (u32 (fold_left bit_step (take 8 data) crc)).
    - f_equal. generalize (take 8 data). intros l. revert crc Hc.
      induction l as [|b l IHl]; intros crc Hc; simpl; [done|]. rewrite u8_spec by done.
      apply IHl. apply crc_bits_range. by apply lxor_byte_range.
    - apply u32_small. by apply bit_steps_range. }
  rewrite Hstep, IH.
  - unfold crc32c_table. by rewrite <- fold_left_app, take_drop.
  - rewrite crc32c_table_bits. by apply bit_steps_range.
Qed.

Lemma crc32c_dispatch_ok have_hardware data seed :
  is_u32 seed ->
  crc32c_dispatch crc32_u64 crc32_u8 have_hardware data seed = crc32c_portable data seed.
Proof.
  intros Hs. unfold crc32c_dispatch, crc32c_portable, crc32c_hardware.
  destruct have_hardware; [|done]. rewrite hardware_loop_table; [done|].
  apply lxor_range; [lia|done|lia].
Qed.

End HardwareCorrect.

(** ** Properties *)

(** the checksum does not depend on the processor. With instructions that behave as documented,
    the hardware path of the dispatcher (eight bytes at a time, then the tail) computes what the
    table computes, for every input and seed, and so does the dispatcher whichever it picks. *)
Theorem crc32c_hardware_agrees (crc32_u64 crc32_u8 : Z -> Z -> Z) have_hardware data seed :
  (forall crc b, is_u32 crc -> crc32_u8 crc (zb b) = bit_step crc b) ->
  (forall crc v, is_u32 crc -> is_u64 v ->
     crc32_u64 crc v = fold_left (fun c b => crc32_u8 c (zb b)) (put_fixed64 v) crc) ->
  is_u32 seed ->
  crc32c_dispatch crc32_u64 crc32_u8 have_hardware data seed = crc32c_portable data seed.
Proof. intros H8 H64 Hs. by apply crc32c_dispatch_ok. Qed.

Lemma crc32c_hardware_agrees_witness :
  crc32c_dispatch (fun crc v => fold_left bit_step (put_fixed64 v) crc) (fun crc b => bit_step crc (bz b)) true
    [x31; x32; x33; x34; x35; x36; x37; x38; x39] 0 =
  crc32c_portable [x31; x32; x33; x34; x35; x36; x37; x38; x39] 0.
Proof.
  apply (crc32c_hardware_agrees (fun crc v => fold_left bit_step (put_fixed64 v) crc)
           (fun crc b => bit_step crc (bz b)) true).
  - intros crc b _. by rewrite bz_zb.
  - intros crc v _ _. generalize (put_fixed64 v) crc. clear. intros l. induction l as [|b l IH]; intros crc; simpl; [done|].
    rewrite IH. by rewrite bz_zb.
  - unfold is_u32. lia.
Defined.
