(* ===== verification/Framing.v ===== *)
(** * Block framing

    [src/sst/compression.cpp]: the one framing every SST block, manifest edit and manifest snapshot
    uses. The LZ4 and Zstandard libraries are parameters of the model ([CodecOps]); what the
    framing relies on is that each decompressor inverts its compressor ([CodecLaws]). *)

From S2P Require Import Prelude Format Crc32c.

(** ** Definitions *)

Inductive Compression : Type := NoCompression | Lz4 | Zstd.

#[export] Instance Compression_eq_dec : EqDecision Compression.
Proof. solve_decision. Defined.

Definition compression_byte (c : Compression) : Z :=
  match c with NoCompression => 0 | Lz4 => 1 | Zstd => 2 end.

Definition is_known_compression (raw : Z) : bool := raw <=? 2.

(** [static_cast<Compression>(raw)] of a byte [is_known_compression] has accepted. *)
Definition compression_of (raw : Z) : Compression :=
  if raw =? 0 then NoCompression else if raw =? 1 then Lz4 else Zstd.

(** The compression libraries. A compressor answers [None] where the library reports an error; a
    decompressor is given the capacity of its output buffer and answers what it produced. *)
Class CodecOps : Type := {
  lz4_max_input : Z;
  lz4_bound : Z -> Z;
  lz4_compress : bytes -> option bytes;
  lz4_decompress : bytes -> Z -> option bytes;
  zstd_compress : bytes -> option bytes;
  zstd_decompress : bytes -> Z -> option bytes
}.

Class CodecLaws (ops : CodecOps) : Prop := {
  lz4_inverse : forall d c, lz4_compress d = Some c -> lz4_decompress c (zlen d) = Some d;
  zstd_inverse : forall d c, zstd_compress d = Some c -> zstd_decompress c (zlen d) = Some d
}.

Section Framing.
Context `{ops : CodecOps}.

Definition compress_lz4 (content : bytes) : Result bytes :=
  if lz4_max_input <? zlen content then Unexpected Io
  else if lz4_bound (zlen content) <=? 0 then Unexpected Io
  else match lz4_compress content with
       | Some out => Value out
       | None => Unexpected Io
       end.

Definition compress_zstd (content : bytes) : Result bytes :=
  match zstd_compress content with
  | Some out => Value out
  | None => Unexpected Io
  end.

(** [frame_block]: what it appends to [out]. *)
Definition frame_block (content : bytes) (codec : Compression) : Result bytes :=
  if 2 ^ 32 - 1 <? zlen content then Unexpected Io
  else
    let? payload :=
      match codec with
      | NoCompression => Value content
      | Lz4 => compress_lz4 content
      | Zstd => compress_zstd content
      end in
    let keep_raw := negb (bool_decide (codec = NoCompression)) && (zlen content <=? zlen payload) in
    let payload := if keep_raw then content else payload in
    let stored := if keep_raw then NoCompression else codec in
    let framed := payload ++ put_fixed32 (zlen content) ++ [bz (compression_byte stored)] in
    Value (framed ++ put_fixed32 (crc32c framed)).

Definition unframe_block (raw : bytes) (max_uncompressed : Z) : Result bytes :=
  if zlen raw <? kBlockTrailerLength then Unexpected Corrupt
  else
    let covered := zlen raw - 4 in
    let stored_crc := decode_fixed32 (drop (Z.to_nat covered) raw) in
    if negb (crc32c (take (Z.to_nat covered) raw) =? stored_crc) then Unexpected Corrupt
    else
      let codec_byte := byte_at raw (Z.to_nat (covered - 1)) in
      if negb (is_known_compression codec_byte) then Unexpected Corrupt
      else
        let codec := compression_of codec_byte in
        let uncompressed_len := decode_fixed32 (drop (Z.to_nat (covered - 5)) raw) in
        if max_uncompressed <? uncompressed_len then Unexpected Corrupt
        else
          let payload_len := zlen raw - kBlockTrailerLength in
          let payload := take (Z.to_nat payload_len) raw in
          match codec with
          | NoCompression =>
              if negb (payload_len =? uncompressed_len) then Unexpected Corrupt else Value payload
          | Lz4 =>
              if 2 ^ 31 - 1 <? payload_len then Unexpected Corrupt
              else match lz4_decompress payload uncompressed_len with
                   | Some out => if negb (zlen out =? uncompressed_len) then Unexpected Corrupt
                                 else Value out
                   | None => Unexpected Corrupt
                   end
          | Zstd =>
              match zstd_decompress payload uncompressed_len with
              | Some out => if negb (zlen out =? uncompressed_len) then Unexpected Corrupt
                            else Value out
              | None => Unexpected Corrupt
              end
          end.

(** ** Lemmas *)

Lemma compression_of_byte c : compression_of (compression_byte c) = c.
Proof. by destruct c. Qed.

Lemma is_known_compression_byte c : is_known_compression (compression_byte c) = true.
Proof. by destruct c. Qed.

(** The four fields of a framed record, read back where [unframe_block] looks for them. *)
Lemma frame_fields payload len codec crc :
  let raw := (payload ++ put_fixed32 len ++ [bz codec]) ++ put_fixed32 crc in
  let covered := zlen raw - 4 in
  zlen raw = zlen payload + 9 /\
  take (Z.to_nat covered) raw = payload ++ put_fixed32 len ++ [bz codec] /\
  decode_fixed32 (drop (Z.to_nat covered) raw) = u32 crc /\
  byte_at raw (Z.to_nat (covered - 1)) = codec mod 256 /\
  decode_fixed32 (drop (Z.to_nat (covered - 5)) raw) = u32 len /\
  take (Z.to_nat (zlen raw - kBlockTrailerLength)) raw = payload.
Proof.
  cbv zeta. set (raw := (payload ++ put_fixed32 len ++ [bz codec]) ++ put_fixed32 crc).
  assert (zlen raw = zlen payload + 9) as Hlen.
  { unfold raw, zlen. rewrite !length_app, !length_put_fixed32. simpl. lia. }
  assert (length (payload ++ put_fixed32 len ++ [bz codec]) = Z.to_nat (zlen raw - 4)) as Hcov.
  { rewrite Hlen. unfold zlen. rewrite !length_app, length_put_fixed32. simpl. lia. }
  assert (Z.to_nat (zlen raw - 4 - 5) = length payload) as Hpay by (rewrite Hlen; unfold zlen; lia).
  destruct (take_drop_app _ _ (put_fixed32 crc) Hcov) as [Ht Hd]. fold raw in Ht, Hd.
  split; [done|]. split; [done|]. repeat split.
  - rewrite Hd, <- (app_nil_r (put_fixed32 crc)). apply decode_put_fixed32.
  - replace (Z.to_nat (zlen raw - 4 - 1)) with (length payload + 4)%nat
      by (rewrite Hlen; unfold zlen; lia).
    unfold byte_at, raw. rewrite <- !app_assoc.
    rewrite app_nth2 by lia. replace (length payload + 4 - length payload)%nat with 4%nat by lia.
    rewrite app_nth2 by (rewrite length_put_fixed32; lia). apply zb_bz.
  - rewrite Hpay. unfold raw. rewrite <- !app_assoc, drop_app_length. apply decode_put_fixed32.
  - unfold kBlockTrailerLength. replace (zlen raw - 9) with (zlen raw - 4 - 5) by lia.
    rewrite Hpay. unfold raw. rewrite <- !app_assoc. apply take_app_length.
Qed.

(** A stored record whose payload decodes to [content] under the recorded codec unframes to it. *)
Lemma unframe_stored payload content codec max :
  zlen content <= max -> zlen content < 2 ^ 32 ->
  match codec with
  | NoCompression => payload = content
  | Lz4 => zlen payload <= 2 ^ 31 - 1 /\ lz4_decompress payload (zlen content) = Some content
  | Zstd => zstd_decompress payload (zlen content) = Some content
  end ->
  let framed := payload ++ put_fixed32 (zlen content) ++ [bz (compression_byte codec)] in
  unframe_block (framed ++ put_fixed32 (crc32c framed)) max = Value content.
Proof.
  intros Hmax H32 Hdec framed. unfold unframe_block.
  destruct (frame_fields payload (zlen content) (compression_byte codec) (crc32c framed))
    as (Hlen & Htake & Hcrc & Hcodec & Hulen & Hpay).
  fold framed in Hlen, Htake, Hcrc, Hcodec, Hulen, Hpay. rewrite Htake, Hcrc, Hcodec, Hulen, Hpay.
  pose proof (zlen_nonneg payload). pose proof (zlen_nonneg content).
  rewrite (u32_small (crc32c _)), (u32_small (zlen _)), Z.eqb_refl
    by (eauto with ekv; unfold is_u32; lia).
  replace (compression_byte codec mod 256) with (compression_byte codec) by (by destruct codec).
  rewrite is_known_compression_byte, compression_of_byte, Hlen. unfold kBlockTrailerLength.
  replace (zlen payload + 9 <? 9) with false by lia. replace (max <? zlen content) with false by lia.
  replace (zlen payload + 9 - 9) with (zlen payload) by lia. simpl.
  destruct codec; [subst payload|destruct Hdec as [Hi ->]|rewrite Hdec]; rewrite ?Z.eqb_refl; try done.
  by replace (_ <? zlen payload) with false by lia.
Qed.

(** Unframing a framed block gives the content back. *)
Lemma unframe_frame_block `{!CodecLaws ops} content codec raw max :
  frame_block content codec = Value raw -> zlen content <= max ->
  lz4_max_input <= 2 ^ 31 - 1 ->
  unframe_block raw max = Value content.
Proof.
  unfold frame_block. intros Hf Hmax Hlz. destruct (Z.ltb_spec (2 ^ 32 - 1) (zlen content)); [done|].
  destruct codec; simpl in Hf.
  - injection Hf as <-. apply (unframe_stored content content NoCompression); [done|lia|done].
  - unfold compress_lz4 in Hf. destruct (Z.ltb_spec lz4_max_input (zlen content)); [done|].
    destruct (_ <=? 0); [done|]. destruct (lz4_compress content) as [out|] eqn:E; [|done].
    simpl in Hf. destruct (Z.leb_spec (zlen content) (zlen out)); injection Hf as <-.
    + apply (unframe_stored content content NoCompression); [done|lia|done].
    + apply (unframe_stored out content Lz4); [done|lia|]. split; [lia|]. by apply lz4_inverse.
  - unfold compress_zstd in Hf. destruct (zstd_compress content) as [out|] eqn:E; [|done].
    simpl in Hf. destruct (Z.leb_spec (zlen content) (zlen out)); injection Hf as <-.
    + apply (unframe_stored content content NoCompression); [done|lia|done].
    + apply (unframe_stored out content Zstd); [done|lia|]. by apply zstd_inverse.
Qed.

(** Whatever the bytes are, a success never hands back more than the caller's bound. *)
Lemma unframe_block_bound raw max out :
  unframe_block raw max = Value out -> zlen out <= max.
Proof.
  unfold unframe_block. repeat (case_scrut; try done). all: intros [= <-]; zbool; try lia.
  unfold kBlockTrailerLength, zlen in *. rewrite length_take. lia.
Qed.

(** [unframe_block] fails only with [Corrupt]. *)
Lemma unframe_block_error raw max s : unframe_block raw max = Unexpected s -> s = Corrupt.
Proof. unfold unframe_block. repeat (case_scrut; try congruence). Qed.

Lemma unframe_checksum raw max out :
  unframe_block raw max = Value out ->
  9 <= zlen raw /\ crc32c_table raw 0xFFFFFFFF = crc_bits 32 0xFFFFFFFF.
Proof.
  unfold unframe_block. destruct (Z.ltb_spec (zlen raw) kBlockTrailerLength) as [|Hlen]; [done|].
  unfold kBlockTrailerLength in Hlen. destruct (Z.eqb_spec (crc32c (take (Z.to_nat (zlen raw - 4)) raw))
    (decode_fixed32 (drop (Z.to_nat (zlen raw - 4)) raw))) as [Hcrc|]; [|done].
  intros _. split; [done|]. rewrite <- (take_drop (Z.to_nat (zlen raw - 4)) raw).
  assert (length (drop (Z.to_nat (zlen raw - 4)) raw) = 4%nat) as H4.
  { unfold zlen in *. rewrite length_drop. lia. }
  apply crc_residue; [done|]. rewrite Hcrc, decode_fixed32_le. f_equal.
  rewrite <- (nth_prefix 4 (drop _ raw) []) by done. by rewrite app_nil_r.
Qed.

(** Damage confined to four consecutive bytes of a record that unframes, its length, codec and
    checksum fields included, is reported as corruption. *)
Lemma unframe_detects_burst p w1 w2 q max out :
  unframe_block (p ++ w1 ++ q) max = Value out ->
  length w2 = length w1 -> (length w1 <= 4)%nat -> w1 <> w2 ->
  unframe_block (p ++ w2 ++ q) max = Unexpected Corrupt.
Proof.
  intros [_ H1]%unframe_checksum Hlen H4 Hne.
  destruct (unframe_block (p ++ w2 ++ q) max) as [out2|s] eqn:E2.
  - apply unframe_checksum in E2 as [_ H2]. exfalso. apply Hne.
    eapply (crc_table_burst p w1 w2 q 0xFFFFFFFF); [split; lia|lia|done|].
    etransitivity; [exact H1|symmetry; exact H2].
  - f_equal. by eapply unframe_block_error.
Qed.

End Framing.

(** ** Properties *)

(** The codec that copies: a concrete [CodecOps] with its laws. *)
Definition copy_codec : CodecOps :=
  {| lz4_max_input := 2 ^ 31 - 1; lz4_bound := fun n => n + 16;
     lz4_compress := fun d => Some d; lz4_decompress := fun c _ => Some c;
     zstd_compress := fun d => Some d; zstd_decompress := fun c _ => Some c |}.

Lemma copy_codec_laws : CodecLaws copy_codec.
Proof. split; intros d c [= ->]; done. Qed.

(** A block framed under any codec is unframed to its content, within the reader's bound, by a
    codec whose decompressor inverts its compressor; also when compression did not pay and the block
    was stored raw. *)
Theorem frame_round_trip (ops : CodecOps) content codec raw max :
  CodecLaws ops -> lz4_max_input <= 2 ^ 31 - 1 -> zlen content <= max ->
  frame_block content codec = Value raw -> unframe_block raw max = Value content.
Proof. intros Hl Hm Hc Hf. by eapply unframe_frame_block. Qed.

Lemma frame_round_trip_witness :
  unframe_block (ops := copy_codec)
    (match frame_block (ops := copy_codec) [x61; x62; x63] Zstd with Value raw => raw | Unexpected _ => [] end) 64 =
  Value [x61; x62; x63].
Proof.
  apply (frame_round_trip copy_codec [x61; x62; x63] Zstd); [apply copy_codec_laws|simpl; lia|vm_compute; congruence|].
  reflexivity.
Defined.

(** Corruption is an error, never an answer. Changing up to four consecutive bytes of a frame
    that was readable, anywhere in it (payload, length, codec byte or the checksum itself), makes
    [unframe_block] answer [Corrupt]. *)
Theorem frame_burst_detected (ops : CodecOps) p w1 w2 q max out :
  unframe_block (p ++ w1 ++ q) max = Value out ->
  length w2 = length w1 -> (length w1 <= 4)%nat -> w1 <> w2 ->
  unframe_block (p ++ w2 ++ q) max = Unexpected Corrupt.
Proof. apply unframe_detects_burst. Qed.

Lemma frame_burst_detected_witness :
  unframe_block (ops := copy_codec)
    ([x61] ++ [x00; x00] ++
     drop 3 (match frame_block (ops := copy_codec) [x61; x62; x63] NoCompression with Value raw => raw | Unexpected _ => [] end)) 64 =
  Unexpected Corrupt.
Proof.
  apply (frame_burst_detected copy_codec [x61] [x62; x63] [x00; x00] _ 64 [x61; x62; x63]);
    [vm_compute; reflexivity|reflexivity|simpl; lia|congruence].
Defined.
