(* ===== verification/Footer.v ===== *)
(** * The SST footer

    [src/sst/footer.hpp], [src/sst/footer.cpp]: the three footer widths, the invariant trailer that
    a reader dispatches on, and the checksum of the newest width. *)

From S2P Require Import Prelude Format Crc32c.

(** ** Definitions *)

Record BlockHandle : Type := mkHandle { bh_offset : Z; bh_length : Z }.

Definition zero_handle : BlockHandle := mkHandle 0 0.

Record Footer : Type := mkFooter {
  f_filter : BlockHandle;
  f_index : BlockHandle;
  f_num_entries : Z;
  f_format_version : Z;
  f_range_del : BlockHandle;
  f_crc : Z
}.

Definition kTrailerLength : Z := 12.
Definition kFooterLengthV1 : Z := 44.
Definition kFooterLengthV2 : Z := 56.
Definition kFooterLengthV3 : Z := 60.
Definition kMagic : Z := 0x454C595349554D31.

Definition put_handle (h : BlockHandle) : bytes := put_fixed64 (bh_offset h) ++ put_fixed32 (bh_length h).

(** Everything before the checksum. *)
Definition footer_body (f : Footer) : bytes :=
  put_handle (f_filter f) ++ put_handle (f_index f) ++ put_fixed64 (f_num_entries f) ++
  (if 2 <=? f_format_version f then put_handle (f_range_del f) else []).

Definition encode (f : Footer) : bytes :=
  let out := footer_body f in
  let out := if 3 <=? f_format_version f then out ++ put_fixed32 (crc32c out) else out in
  out ++ put_fixed32 (f_format_version f) ++ put_fixed64 kMagic.

Definition footer_width (version : Z) : Z :=
  if version =? 1 then kFooterLengthV1
  else if version =? 2 then kFooterLengthV2
  else if version =? 3 then kFooterLengthV3
  else 0.

(** A pointer [n] bytes before the end of [s]. *)
Definition from_end (s : bytes) (n : Z) : bytes := drop (Z.to_nat (zlen s - n)) s.

Definition footer_length_from_trailer (trailer : bytes) : Result Z :=
  if zlen trailer <? kTrailerLength then Unexpected Corrupt
  else
    let p := from_end trailer kTrailerLength in
    let version := decode_fixed32 p in
    let magic := decode_fixed64 (drop 4 p) in
    if negb (magic =? kMagic) then Unexpected Corrupt
    else if version =? 1 then Value kFooterLengthV1
    else if version =? 2 then Value kFooterLengthV2
    else if version =? 3 then Value kFooterLengthV3
    else Unexpected Unsupported.

Definition get_handle (p : bytes) : BlockHandle := mkHandle (decode_fixed64 p) (decode_fixed32 (drop 8 p)).

Definition decode (s : bytes) : Result Footer :=
  if zlen s <? kTrailerLength then Unexpected Corrupt
  else
    let trailer := from_end s kTrailerLength in
    let version := decode_fixed32 trailer in
    let magic := decode_fixed64 (drop 4 trailer) in
    if negb (magic =? kMagic) then Unexpected Corrupt
    else
      let width := footer_width version in
      if width =? 0 then Unexpected Unsupported
      else if zlen s <? width then Unexpected Corrupt
      else
        let p := from_end s width in
        let range_del := if 2 <=? version then get_handle (drop 32 p) else zero_handle in
        let body := Z.to_nat (width - kTrailerLength - 4) in
        let crc := if 3 <=? version then decode_fixed32 (drop body p) else 0 in
        if (3 <=? version) && negb (crc32c (take body p) =? crc) then Unexpected Corrupt
        else Value (mkFooter (get_handle p) (get_handle (drop 12 p)) (decode_fixed64 (drop 24 p))
                      version range_del crc).

(** A footer as a writer builds it: field widths, a known version, and the fields its version
    does not carry at their defaults. *)
Definition handle_ok (h : BlockHandle) : Prop := is_u64 (bh_offset h) /\ is_u32 (bh_length h).

Definition footer_ok (f : Footer) : Prop :=
  handle_ok (f_filter f) /\ handle_ok (f_index f) /\ is_u64 (f_num_entries f) /\
  handle_ok (f_range_del f) /\
  (f_format_version f = 1 /\ f_range_del f = zero_handle /\ f_crc f = 0 \/
   f_format_version f = 2 /\ f_crc f = 0 \/
   f_format_version f = 3 /\ f_crc f = crc32c (footer_body f)).

(** ** Lemmas *)

Lemma from_end_app pre s n : zlen s = n -> from_end (pre ++ s) n = s.
Proof.
  intros <-. unfold from_end. rewrite zlen_app.
  replace (Z.to_nat (zlen pre + zlen s - zlen s)) with (length pre) by (unfold zlen; lia).
  apply drop_app_length.
Qed.

Lemma get_put_handle h rest : handle_ok h -> get_handle (put_handle h ++ rest) = h.
Proof.
  intros [Ho Hl]. unfold get_handle, put_handle. rewrite <- app_assoc.
  rewrite decode_put_fixed64, u64_small by done.
  change (drop 8 (put_fixed64 (bh_offset h) ++ put_fixed32 (bh_length h) ++ rest))
    with (put_fixed32 (bh_length h) ++ rest).
  rewrite decode_put_fixed32, u32_small by done. by destruct h.
Qed.

(** The trailer of an encoded footer is read back whatever the version. *)
Lemma read_trailer f pre :
  is_u32 (f_format_version f) ->
  let s := pre ++ encode f in
  (zlen s <? kTrailerLength) = false /\
  decode_fixed32 (from_end s kTrailerLength) = f_format_version f /\
  decode_fixed64 (drop 4 (from_end s kTrailerLength)) = kMagic.
Proof.
  intros Hv s. unfold s, encode. rewrite app_assoc, from_end_app by done. split; [|split].
  - rewrite zlen_app, (zlen_app (put_fixed32 _)).
    change (zlen (put_fixed32 _)) with 4. change (zlen (put_fixed64 kMagic)) with 8.
    unfold kTrailerLength. match goal with |- (zlen ?x + _ <? _) = _ => pose proof (zlen_nonneg x) end.
    lia.
  - by rewrite decode_put_fixed32, u32_small.
  - change (drop 4 (put_fixed32 (f_format_version f) ++ put_fixed64 kMagic)) with (put_fixed64 kMagic).
    rewrite <- (app_nil_r (put_fixed64 kMagic)). apply decode_put_fixed64.
Qed.

Lemma footer_ok_version f : footer_ok f -> is_u32 (f_format_version f).
Proof. intros (_ & _ & _ & _ & Hv). unfold is_u32. lia. Qed.

Lemma encode_width f : footer_ok f -> zlen (encode f) = footer_width (f_format_version f).
Proof.
  intros (_ & _ & _ & _ & Hv). unfold encode, footer_body, footer_width.
  destruct Hv as [(-> & _)|[(-> & _)|(-> & _)]]; reflexivity.
Qed.

(** The width announced by the trailer is the width of the footer it ends. *)
Lemma footer_length_encode f pre :
  footer_ok f -> footer_length_from_trailer (pre ++ encode f) = Value (zlen (encode f)).
Proof.
  intros Hok. rewrite (encode_width f Hok). unfold footer_length_from_trailer.
  destruct (read_trailer f pre (footer_ok_version f Hok)) as (-> & -> & ->).
  rewrite Z.eqb_refl. simpl. destruct Hok as (_ & _ & _ & _ & Hv).
  by destruct Hv as [(-> & _)|[(-> & _)|(-> & _)]].
Qed.

(** The fields of an encoded footer, read back where [decode] looks for them. *)
Lemma encode_fields f rest :
  footer_ok f ->
  let p := footer_body f ++ rest in
  get_handle p = f_filter f /\ get_handle (drop 12 p) = f_index f /\
  decode_fixed64 (drop 24 p) = f_num_entries f /\
  (2 <= f_format_version f -> get_handle (drop 32 p) = f_range_del f).
Proof.
  intros (Hf & Hi & Hn & Hr & _) p. unfold p, footer_body.
  set (tail := if 2 <=? f_format_version f then _ else []).
  rewrite <- !app_assoc. repeat split.
  - by apply get_put_handle.
  - by apply (get_put_handle (f_index f)).
  - etransitivity; [apply (decode_put_fixed64 (f_num_entries f))|by apply u64_small].
  - intros Hv. unfold tail. replace (2 <=? f_format_version f) with true by lia.
    by apply (get_put_handle (f_range_del f)).
Qed.

Lemma footer_body_width f : 2 <= f_format_version f -> zlen (footer_body f) = 44.
Proof. intros Hv. unfold footer_body. by replace (2 <=? f_format_version f) with true by lia. Qed.

Lemma footer_eta f rd c :
  f_range_del f = rd -> f_crc f = c ->
  mkFooter (f_filter f) (f_index f) (f_num_entries f) (f_format_version f) rd c = f.
Proof. by intros <- <-; destruct f. Qed.

(** Decoding the last bytes of a file that ends with an encoded footer gives the footer back. *)
Lemma decode_encode f pre : footer_ok f -> decode (pre ++ encode f) = Value f.
Proof.
  intros Hok. unfold decode.
  destruct (read_trailer f pre (footer_ok_version f Hok)) as (-> & -> & ->).
  rewrite Z.eqb_refl. cbn [negb]. pose proof (encode_width f Hok) as Hw.
  rewrite (from_end_app pre (encode f)) by done.
  replace (zlen (pre ++ encode f) <? footer_width (f_format_version f)) with false
    by (rewrite zlen_app, Hw; pose proof (zlen_nonneg pre); lia).
  assert (exists rest, encode f = footer_body f ++ rest /\
    (f_format_version f = 3 -> exists r, rest = put_fixed32 (crc32c (footer_body f)) ++ r))
    as (rest & -> & Hrest).
  { unfold encode. destruct (Z.leb_spec 3 (f_format_version f)); eexists;
      (split; [rewrite <- ?app_assoc; reflexivity|intros; by eauto || lia]). }
  destruct (encode_fields f rest Hok) as (-> & -> & -> & Hrd).
  destruct Hok as (_ & _ & _ & _ & [(Hv & Hd & Hc)|[(Hv & Hc)|(Hv & Hc)]]).
  - rewrite Hv. simpl. rewrite <- Hv. by rewrite footer_eta.
  - rewrite Hrd, Hv by lia. simpl. rewrite <- Hv. by rewrite footer_eta.
  - rewrite Hrd by lia. destruct (Hrest Hv) as [r ->].
    replace (Z.to_nat (footer_width (f_format_version f) - kTrailerLength - 4))
      with (length (footer_body f))
      by (pose proof (footer_body_width f ltac:(lia)) as Hl; unfold zlen in Hl; rewrite Hv;
          change (footer_width 3 - kTrailerLength - 4) with 44; lia).
    rewrite take_app_length, drop_app_length, decode_put_fixed32, u32_small by eauto with ekv.
    rewrite Hv, Z.eqb_refl. simpl. rewrite <- Hv. by rewrite footer_eta.
Qed.

(** [decode] never reports a version it does not know as damage, nor damage as such a version. *)
Lemma decode_unknown_version s :
  kTrailerLength <= zlen s ->
  decode_fixed64 (drop 4 (from_end s kTrailerLength)) = kMagic ->
  footer_width (decode_fixed32 (from_end s kTrailerLength)) = 0 ->
  decode s = Unexpected Unsupported /\ footer_length_from_trailer s = Unexpected Unsupported.
Proof.
  intros Hlen Hm Hw. unfold decode, footer_length_from_trailer.
  replace (zlen s <? kTrailerLength) with false by lia. rewrite Hm, Z.eqb_refl, Hw. simpl.
  split; [done|]. revert Hw. unfold footer_width. repeat case_scrut; done.
Qed.

(** What a success of [decode] has checked about the trailer. *)
Lemma decode_value_trailer s f :
  decode s = Value f ->
  f_format_version f = decode_fixed32 (from_end s kTrailerLength) /\
  decode_fixed64 (drop 4 (from_end s kTrailerLength)) = kMagic.
Proof.
  unfold decode. intros Hd. destruct (_ <? kTrailerLength) in Hd; [done|].
  destruct (Z.eqb_spec (decode_fixed64 (drop 4 (from_end s kTrailerLength))) kMagic) as [Hm|]; [|done].
  destruct (_ =? 0) in Hd; [done|]. destruct (_ <? footer_width _) in Hd; [done|].
  destruct (_ && _) in Hd; [done|]. by injection Hd as <-.
Qed.

(** A version-3 footer that decodes carries its own checksum. *)
Lemma decode_v3_residue s f :
  decode s = Value f -> f_format_version f = 3 -> zlen s = kFooterLengthV3 ->
  crc32c_table (take 48 s) 0xFFFFFFFF = crc_bits 32 0xFFFFFFFF.
Proof.
  unfold decode. intros Hd Hv Hlen. rewrite Hlen in Hd.
  destruct (negb _) in Hd; [done|]. destruct (_ =? 0) in Hd; [done|].
  destruct (_ <? footer_width _) in Hd; [done|].
  destruct (_ && _) eqn:Hcrc in Hd; [done|]. injection Hd as <-. simpl in Hv.
  rewrite Hv in Hcrc. unfold from_end in Hcrc. rewrite Hlen in Hcrc.
  change (Z.to_nat (footer_width 3 - kTrailerLength - 4)) with 44%nat in Hcrc.
  change (Z.to_nat (kFooterLengthV3 - footer_width 3)) with 0%nat in Hcrc.
  rewrite drop_0 in Hcrc. cbn [Z.leb Z.compare andb] in Hcrc.
  apply negb_false_iff, Z.eqb_eq in Hcrc.
  replace (take 48 s) with (take 44 s ++ take 4 (drop 44 s)) by (by rewrite take_take_drop).
  apply crc_residue.
  { unfold zlen in Hlen. rewrite length_take, length_drop. unfold kFooterLengthV3 in Hlen. lia. }
  rewrite Hcrc, decode_fixed32_le. f_equal.
  rewrite <- (nth_prefix 4 (take 4 (drop 44 s)) (drop 4 (drop 44 s))).
  - by rewrite take_drop.
  - unfold zlen in Hlen. rewrite length_take, length_drop. unfold kFooterLengthV3 in Hlen. lia.
Qed.

(** Damage to at most four consecutive bytes ahead of the trailer of a version-3 footer, handles
    and checksum included, makes [decode] report corruption before any handle is used. *)
Lemma decode_detects_burst p w1 w2 q trailer f :
  decode (p ++ w1 ++ q ++ trailer) = Value f -> f_format_version f = 3 ->
  length trailer = 12%nat -> (length p + length w1 + length q = 48)%nat ->
  length w2 = length w1 -> (length w1 <= 4)%nat -> w1 <> w2 ->
  decode (p ++ w2 ++ q ++ trailer) = Unexpected Corrupt.
Proof.
  intros Hd Hv Ht H48 Hlen H4 Hne.
  assert (forall w, length w = length w1 -> zlen (p ++ w ++ q ++ trailer) = kFooterLengthV3 /\
    take 48 (p ++ w ++ q ++ trailer) = p ++ w ++ q /\
    from_end (p ++ w ++ q ++ trailer) kTrailerLength = trailer) as Hsplit.
  { intros w Hw. split; [unfold zlen, kFooterLengthV3; rewrite !length_app; lia|].
    rewrite !app_assoc. split.
    - apply take_app_length'. rewrite !length_app. lia.
    - apply from_end_app. unfold zlen, kTrailerLength. lia. }
  destruct (Hsplit w1 eq_refl) as (Hz1 & Ht1 & Hf1). destruct (Hsplit w2 Hlen) as (Hz2 & Ht2 & Hf2).
  destruct (decode_value_trailer _ _ Hd) as [Hver Hmag]. rewrite Hf1 in Hver, Hmag.
  rewrite Hv in Hver.
  pose proof (decode_v3_residue _ _ Hd Hv Hz1) as Hres. rewrite Ht1 in Hres.
  destruct (decode (p ++ w2 ++ q ++ trailer)) as [f2|s] eqn:E.
  - exfalso. apply Hne. assert (f_format_version f2 = 3) as Hv2.
    { destruct (decode_value_trailer _ _ E) as [-> _]. by rewrite Hf2. }
    pose proof (decode_v3_residue _ _ E Hv2 Hz2) as Hres2. rewrite Ht2 in Hres2.
    eapply (crc_table_burst p w1 w2 q 0xFFFFFFFF); [split; lia|lia|done|].
    etransitivity; [exact Hres|symmetry; exact Hres2].
  - revert E. unfold decode. rewrite Hz2, Hf2, Hmag, Z.eqb_refl, <- Hver.
    change (kFooterLengthV3 <? kTrailerLength) with false.
    change (footer_width 3 =? 0) with false. change (kFooterLengthV3 <? footer_width 3) with false.
    cbn [negb]. destruct (_ && _); congruence.
Qed.

(** ** Properties *)

(** A footer of any format version, written after any file body, is read back field by field,
    and the trailer alone tells its length. *)
Theorem footer_round_trip f pre :
  footer_ok f ->
  decode (pre ++ encode f) = Value f /\ footer_length_from_trailer (pre ++ encode f) = Value (zlen (encode f)).
Proof. intros Hf. split; [by apply decode_encode|by apply footer_length_encode]. Qed.

Definition sample_footer : Footer :=
  {| f_filter := mkHandle 4096 128; f_index := mkHandle 4224 64; f_num_entries := 7; f_format_version := 2;
     f_range_del := mkHandle 4288 32; f_crc := 0 |}.

Lemma footer_round_trip_witness : decode ([x00; x01] ++ encode sample_footer) = Value sample_footer.
Proof.
  apply (footer_round_trip sample_footer [x00; x01]).
  unfold footer_ok, handle_ok, is_u64, is_u32. simpl. split_and!; try lia.
Defined.
