(* ===== verification/Bloom.v ===== *)
(** * xxHash64 and the bloom filter

    [src/sst/xxhash.hpp] and [src/sst/bloom.cpp]: the hash, the filter builder of an SST and the
    membership test of the read path. *)

From S2P Require Import Prelude Format.

(** ** xxHash64 *)

Module XXHash.

Definition kPrime1 : Z := 0x9E3779B185EBCA87.
Definition kPrime2 : Z := 0xC2B2AE3D27D4EB4F.
Definition kPrime3 : Z := 0x165667B19E3779F9.
Definition kPrime4 : Z := 0x85EBCA77C2B2AE63.
Definition kPrime5 : Z := 0x27D4EB2F165667C5.

Definition rotl64 (x r : Z) : Z := u64 (Z.lor (Z.shiftl x r) (Z.shiftr x (64 - r))).

(** [memcpy] into an integer, on the little-endian targets the engine builds for. *)
Definition read64 (p : bytes) : Z := decode_fixed64 p.
Definition read32 (p : bytes) : Z := decode_fixed32 p.

Definition round (acc input : Z) : Z :=
  let acc := u64 (acc + input * kPrime2) in
  let acc := rotl64 acc 31 in
  u64 (acc * kPrime1).

Definition merge_round (acc val : Z) : Z :=
  let val := round 0 val in
  let acc := Z.lxor acc val in
  u64 (acc * kPrime1 + kPrime4).

(** The [do ... while (p <= limit)] loop over 32-byte stripes: the four lanes and what is left. *)
Fixpoint stripes (fuel : nat) (p : bytes) (v1 v2 v3 v4 : Z) : Z * Z * Z * Z * bytes :=
  match fuel with
  | O => (v1, v2, v3, v4, p)
  | S fuel' =>
      let v1 := round v1 (read64 p) in
      let v2 := round v2 (read64 (drop 8 p)) in
      let v3 := round v3 (read64 (drop 16 p)) in
      let v4 := round v4 (read64 (drop 24 p)) in
      let p := drop 32 p in
      if 32 <=? zlen p then stripes fuel' p v1 v2 v3 v4 else (v1, v2, v3, v4, p)
  end.

(** The [while] loop over the remaining 8-byte words. *)
Fixpoint words (fuel : nat) (p : bytes) (h : Z) : Z * bytes :=
  match fuel with
  | O => (h, p)
  | S fuel' =>
      if 8 <=? zlen p
      then
        let h := Z.lxor h (round 0 (read64 p)) in
        words fuel' (drop 8 p) (u64 (rotl64 h 27 * kPrime1 + kPrime4))
      else (h, p)
  end.

(** The [while (p != end)] loop over the remaining bytes. *)
Definition tail_bytes (p : bytes) (h : Z) : Z :=
  fold_left (fun h b => let h := Z.lxor h (u64 (zb b * kPrime5)) in u64 (rotl64 h 11 * kPrime1)) p h.

Definition xxhash64_seeded (data : bytes) (seed : Z) : Z :=
  let size := zlen data in
  let '(h, p) :=
    if 32 <=? size then
      let '(v1, v2, v3, v4, p) :=
        stripes (length data) data (u64 (seed + kPrime1 + kPrime2)) (u64 (seed + kPrime2)) seed
          (u64 (seed - kPrime1)) in
      let h := u64 (rotl64 v1 1 + rotl64 v2 7 + rotl64 v3 12 + rotl64 v4 18) in
      (merge_round (merge_round (merge_round (merge_round h v1) v2) v3) v4, p)
    else (u64 (seed + kPrime5), data) in
  let h := u64 (h + size) in
  let '(h, p) := words (length p) p h in
  let '(h, p) :=
    if 4 <=? zlen p then
      let h := Z.lxor h (u64 (read32 p * kPrime1)) in
      (u64 (rotl64 h 23 * kPrime2 + kPrime3), drop 4 p)
    else (h, p) in
  let h := tail_bytes p h in
  let h := Z.lxor h (Z.shiftr h 33) in
  let h := u64 (h * kPrime2) in
  let h := Z.lxor h (Z.shiftr h 29) in
  let h := u64 (h * kPrime3) in
  Z.lxor h (Z.shiftr h 32).

(** The default seed is zero. *)
Definition xxhash64 (data : bytes) : Z := xxhash64_seeded data 0.

End XXHash.

(** ** The filter *)

Module Bloom.

Definition kBlockBits : Z := 512.
Definition kBlockBytes : Z := kBlockBits / 8.
Definition kFilterTrailer : Z := 5.

Definition derive_h2 (hash : Z) : Z := Z.lor (Z.shiftr hash 32) 1.

Definition block_index (hash num_blocks : Z) : Z :=
  Z.shiftr (u64 (Z.shiftr hash 32 * num_blocks)) 32.

Record BloomBuilder : Type := mkBuilder {
  hashes_ : list Z;
  bits_per_key_ : Z;
  num_probes_ : Z
}.

Definition make (bits_per_key num_probes : Z) : BloomBuilder :=
  mkBuilder [] (Z.max 1 bits_per_key) (Z.min (Z.max num_probes 1) 32).

Definition add (b : BloomBuilder) (key : bytes) : BloomBuilder :=
  mkBuilder (hashes_ b ++ [XXHash.xxhash64 key]) (bits_per_key_ b) (num_probes_ b).

Definition empty (b : BloomBuilder) : bool := match hashes_ b with [] => true | _ => false end.

Definition reset (b : BloomBuilder) : BloomBuilder := mkBuilder [] (bits_per_key_ b) (num_probes_ b).

(** [bits[pos] |= 1u << j]. *)
Definition or_bit (bits : bytes) (pos : nat) (j : Z) : bytes :=
  <[pos := bz (Z.lor (byte_at bits pos) (Z.shiftl 1 j))]> bits.

(** The inner loop of [finish]: [n] probes left from hash state [h]. *)
Fixpoint set_probes (n : nat) (bits : bytes) (base h h2 : Z) : bytes :=
  match n with
  | O => bits
  | S n' =>
      let bit := h mod kBlockBits in
      set_probes n' (or_bit bits (Z.to_nat (base + bit / 8)) (bit mod 8)) base (u64 (h + h2)) h2
  end.

Definition num_blocks_for (num_hashes bits_per_key : Z) : Z :=
  let total_bits := Z.max kBlockBits (u64 (num_hashes * bits_per_key)) in
  u32 (u64 (total_bits + kBlockBits - 1) / kBlockBits).

Definition add_hash (num_blocks num_probes : Z) (bits : bytes) (hash : Z) : bytes :=
  set_probes (Z.to_nat num_probes) bits (block_index hash num_blocks * kBlockBytes) hash
    (derive_h2 hash).

Definition finish (b : BloomBuilder) : bytes :=
  let num_blocks := num_blocks_for (Z.of_nat (length (hashes_ b))) (bits_per_key_ b) in
  let bits := replicate (Z.to_nat (num_blocks * kBlockBytes)) x00 in
  let bits := fold_left (add_hash num_blocks (num_probes_ b)) (hashes_ b) bits in
  bits ++ put_fixed32 num_blocks ++ [bz (num_probes_ b)].

(** The loop of [bloom_may_contain]. *)
Fixpoint test_probes (n : nat) (bits : bytes) (base h h2 : Z) : bool :=
  match n with
  | O => true
  | S n' =>
      let bit := h mod kBlockBits in
      if Z.land (byte_at bits (Z.to_nat (base + bit / 8))) (Z.shiftl 1 (bit mod 8)) =? 0 then false
      else test_probes n' bits base (u64 (h + h2)) h2
  end.

Definition bloom_may_contain (filter key : bytes) : bool :=
  if zlen filter <=? kFilterTrailer then true
  else
    let bitmap_bytes := zlen filter - kFilterTrailer in
    let num_blocks := decode_fixed32 (drop (Z.to_nat bitmap_bytes) filter) in
    let num_probes := byte_at filter (Z.to_nat (zlen filter - 1)) in
    if (num_blocks =? 0) || (num_probes =? 0) || negb (num_blocks * kBlockBytes =? bitmap_bytes)
    then true
    else
      let hash := XXHash.xxhash64 key in
      test_probes (Z.to_nat num_probes) filter (block_index hash num_blocks * kBlockBytes) hash
        (derive_h2 hash).

(** ** Lemmas *)

Lemma xxhash64_range key : is_u64 (XXHash.xxhash64 key).
Proof.
  unfold XXHash.xxhash64, XXHash.xxhash64_seeded. repeat case_scrut.
  all: match goal with |- is_u64 (Z.lxor (u64 ?x) (Z.shiftr (u64 ?x) 32)) => pose proof (u64_range x) end.
  all: apply lxor_range; [lia|done|]; rewrite Z.shiftr_div_pow2 by lia; unfold is_u64 in *; mlia.
Qed.

(** The bit test of both loops. *)
Definition bit_set (bits : bytes) (pos : nat) (j : Z) : bool := Z.testbit (byte_at bits pos) j.

(** [bits'] has every bit of [bits]. *)
Definition bits_le (bits bits' : bytes) : Prop :=
  forall pos j, bit_set bits pos j = true -> bit_set bits' pos j = true.

Lemma land_bit_test b j : 0 <= j -> (Z.land b (Z.shiftl 1 j) =? 0) = negb (Z.testbit b j).
Proof.
  intros Hj. rewrite Z.shiftl_1_l. destruct (Z.testbit b j) eqn:E; simpl.
  - apply Z.eqb_neq. intros H. apply (f_equal (fun z => Z.testbit z j)) in H.
    by rewrite Z.land_spec, E, Z.pow2_bits_true, Z.bits_0 in H.
  - apply Z.eqb_eq. apply Z.bits_inj'. intros i Hi. rewrite Z.land_spec, Z.bits_0.
    destruct (decide (i = j)) as [->|Hne]; [by rewrite E|].
    by rewrite Z.pow2_bits_false, andb_false_r by done.
Qed.

Lemma byte_at_lookup bits pos b : bits !! pos = Some b -> byte_at bits pos = zb b.
Proof. intros H. unfold byte_at. by erewrite nth_lookup_Some. Qed.

Lemma byte_at_ge bits pos : (length bits <= pos)%nat -> byte_at bits pos = 0.
Proof. intros H. unfold byte_at. by rewrite nth_overflow. Qed.

Lemma byte_at_range bits pos : 0 <= byte_at bits pos < 256.
Proof. apply zb_range. Qed.

Lemma byte_at_or_bit bits pos j : (pos < length bits)%nat -> 0 <= j < 8 ->
  byte_at (or_bit bits pos j) pos = Z.lor (byte_at bits pos) (Z.shiftl 1 j).
Proof.
  intros Hp Hj. unfold or_bit. erewrite byte_at_lookup; [|by apply list_lookup_insert_eq].
  apply bz_small. change 256 with (2 ^ 8). apply lor_range; [lia|apply byte_at_range|].
  rewrite Z.shiftl_1_l. split; [lia|]. apply Z.pow_lt_mono_r; lia.
Qed.

Lemma byte_at_or_bit_ne bits pos pos' j : pos <> pos' -> byte_at (or_bit bits pos j) pos' = byte_at bits pos'.
Proof.
  intros Hne. unfold or_bit. destruct (bits !! pos') as [b|] eqn:E.
  - rewrite (byte_at_lookup _ _ _ E). apply byte_at_lookup. by rewrite list_lookup_insert_ne.
  - apply lookup_ge_None in E. by rewrite !byte_at_ge by (rewrite ?length_insert; lia).
Qed.

Lemma or_bit_le bits pos j : 0 <= j < 8 -> bits_le bits (or_bit bits pos j).
Proof.
  intros Hj pos' i. unfold bit_set. destruct (decide (pos = pos')) as [<-|Hne].
  - destruct (Nat.lt_ge_cases pos (length bits)).
    + rewrite byte_at_or_bit, Z.lor_spec by done. by intros ->.
    + by rewrite (byte_at_ge bits), Z.bits_0 by done.
  - by rewrite byte_at_or_bit_ne.
Qed.

Lemma or_bit_sets bits pos j : (pos < length bits)%nat -> 0 <= j < 8 -> bit_set (or_bit bits pos j) pos j = true.
Proof.
  intros. unfold bit_set. rewrite byte_at_or_bit, Z.lor_spec, Z.shiftl_1_l, Z.pow2_bits_true by lia.
  apply orb_true_r.
Qed.

Lemma length_set_probes n bits base h h2 : length (set_probes n bits base h h2) = length bits.
Proof.
  revert bits h. induction n as [|n IH]; intros bits h; simpl; [done|].
  rewrite IH. apply length_insert.
Qed.

Lemma mod8_range x : 0 <= x mod 8 < 8.
Proof. apply Z.mod_pos_bound. lia. Qed.

Lemma set_probes_le n bits base h h2 : bits_le bits (set_probes n bits base h h2).
Proof.
  revert bits h. induction n as [|n IH]; intros bits h pos j Hb; simpl; [done|].
  apply IH. by apply or_bit_le; [apply mod8_range|].
Qed.

Lemma test_probes_le n bits bits' base h h2 :
  bits_le bits bits' -> test_probes n bits base h h2 = true -> test_probes n bits' base h h2 = true.
Proof.
  intros Hle. revert h. induction n as [|n IH]; intros h; simpl; [done|].
  rewrite !land_bit_test by apply mod8_range.
  destruct (Z.testbit (byte_at bits _) _) eqn:E; simpl; [|done].
  apply Hle in E. unfold bit_set in E. rewrite E. simpl. apply IH.
Qed.

(** What [finish] sets for a hash, [bloom_may_contain] finds. *)
Lemma test_set_probes n bits base h h2 :
  0 <= base -> base + kBlockBytes <= zlen bits ->
  test_probes n (set_probes n bits base h h2) base h h2 = true.
Proof.
  intros Hb Hlen. revert bits h Hlen. induction n as [|n IH]; intros bits h Hlen; [done|].
  cbn [set_probes test_probes]. rewrite land_bit_test by apply mod8_range.
  set (pos := Z.to_nat (base + h mod kBlockBits / 8)).
  assert (pos < length bits)%nat as Hpos.
  { unfold pos, zlen, kBlockBytes, kBlockBits in *. change (512 / 8) with 64 in Hlen. mlia. }
  assert (bit_set (set_probes n (or_bit bits pos (h mod kBlockBits mod 8)) base (u64 (h + h2)) h2)
            pos (h mod kBlockBits mod 8) = true) as Hset.
  { apply set_probes_le, or_bit_sets; [done|apply mod8_range]. }
  unfold bit_set in Hset. rewrite Hset. simpl. apply IH. unfold or_bit, zlen. by rewrite length_insert.
Qed.

Lemma length_fold_add_hash nb np hs bits : length (fold_left (add_hash nb np) hs bits) = length bits.
Proof.
  revert bits. induction hs as [|h hs IH]; intros bits; simpl; [done|].
  rewrite IH. apply length_set_probes.
Qed.

Lemma fold_add_hash_le nb np hs bits : bits_le bits (fold_left (add_hash nb np) hs bits).
Proof.
  revert bits. induction hs as [|h hs IH]; intros bits pos j Hb; simpl; [done|].
  by apply IH, set_probes_le.
Qed.

Lemma block_index_range hash nb : is_u64 hash -> 0 < nb < 2 ^ 32 -> 0 <= block_index hash nb < nb.
Proof.
  unfold is_u64, block_index. intros Hh Hnb.
  rewrite (Z.shiftr_div_pow2 hash), Z.shiftr_div_pow2 by lia.
  assert (0 <= hash / 2 ^ 32 < 2 ^ 32) as Hq by mlia.
  rewrite u64_small by (unfold is_u64; nia). split; [apply Z.div_pos; nia|].
  apply Z.div_lt_upper_bound; nia.
Qed.

Lemma fold_add_hash_test nb np hs bits hash :
  is_u64 hash -> 0 < nb < 2 ^ 32 -> nb * kBlockBytes <= zlen bits -> hash ∈ hs ->
  test_probes (Z.to_nat np) (fold_left (add_hash nb np) hs bits)
    (block_index hash nb * kBlockBytes) hash (derive_h2 hash) = true.
Proof.
  intros Hh Hnb. pose proof (block_index_range hash nb Hh Hnb) as Hbi.
  revert bits. induction hs as [|h hs IH]; intros bits Hlen Hin; [by apply elem_of_nil in Hin|].
  simpl. apply elem_of_cons in Hin as [<-|Hin].
  - eapply test_probes_le; [apply fold_add_hash_le|]. unfold kBlockBytes, kBlockBits in *.
    apply test_set_probes; unfold kBlockBytes, kBlockBits; change (512 / 8) with 64 in *; nia.
  - apply IH; [|done]. unfold add_hash, zlen. by rewrite length_set_probes.
Qed.

Lemma num_blocks_range n bpk :
  0 <= n -> 0 < bpk -> n * bpk < 2 ^ 40 -> 0 < num_blocks_for n bpk < 2 ^ 32.
Proof.
  intros Hn Hb Hbound. unfold num_blocks_for, kBlockBits.
  rewrite (u64_small (n * bpk)) by (unfold is_u64; nia).
  set (t := Z.max 512 (n * bpk)). assert (512 <= t < 2 ^ 40) as Ht by (unfold t; lia).
  rewrite u64_small by (unfold is_u64; lia). rewrite u32_small by (unfold is_u32; mlia). mlia.
Qed.

Definition add_all (b : BloomBuilder) (keys : list bytes) : BloomBuilder := fold_left add keys b.

Lemma add_all_fields b keys :
  hashes_ (add_all b keys) = hashes_ b ++ map XXHash.xxhash64 keys /\
  bits_per_key_ (add_all b keys) = bits_per_key_ b /\ num_probes_ (add_all b keys) = num_probes_ b.
Proof.
  revert b. induction keys as [|k keys IH]; intros b; simpl; [by rewrite app_nil_r|].
  destruct (IH (add b k)) as (-> & -> & ->). simpl. by rewrite <- app_assoc.
Qed.

(** The filter a builder finishes is laid out as [bloom_may_contain] reads it. *)
Lemma filter_fields bits nb np :
  let filter := bits ++ put_fixed32 nb ++ [bz np] in
  zlen filter = zlen bits + 5 /\
  decode_fixed32 (drop (Z.to_nat (zlen filter - kFilterTrailer)) filter) = u32 nb /\
  byte_at filter (Z.to_nat (zlen filter - 1)) = np mod 256.
Proof.
  intros filter. assert (zlen filter = zlen bits + 5) as Hlen.
  { unfold filter, zlen. rewrite !length_app, length_put_fixed32. simpl. lia. }
  split; [done|]. rewrite Hlen. unfold kFilterTrailer. split.
  - replace (Z.to_nat (zlen bits + 5 - 5)) with (length bits) by (unfold zlen; lia).
    unfold filter. rewrite drop_app_length. apply decode_put_fixed32.
  - replace (Z.to_nat (zlen bits + 5 - 1)) with (length bits + 4)%nat by (unfold zlen; lia).
    unfold byte_at, filter. rewrite app_nth2_plus, app_nth2 by (rewrite length_put_fixed32; lia).
    apply zb_bz.
Qed.

(** No false negatives: a key that was added is never answered "absent" by the finished filter. *)
Lemma bloom_no_false_negative bits_per_key num_probes keys key :
  key ∈ keys ->
  Z.of_nat (length keys) * Z.max 1 bits_per_key < 2 ^ 40 ->
  bloom_may_contain (finish (add_all (make bits_per_key num_probes) keys)) key = true.
Proof.
  intros Hin Hbound. set (b := add_all (make bits_per_key num_probes) keys).
  destruct (add_all_fields (make bits_per_key num_probes) keys) as (Hh & Hbpk & Hnp).
  fold b in Hh, Hbpk, Hnp. simpl in Hh, Hbpk, Hnp.
  unfold finish. set (nb := num_blocks_for (Z.of_nat (length (hashes_ b))) (bits_per_key_ b)).
  assert (0 < nb < 2 ^ 32) as Hnb.
  { unfold nb. rewrite Hh, Hbpk, length_map. apply num_blocks_range; lia. }
  set (bits := fold_left _ _ _).
  assert (zlen bits = nb * 64) as Hbits.
  { unfold bits, zlen. rewrite length_fold_add_hash, length_replicate.
    unfold kBlockBytes, kBlockBits. change (512 / 8) with 64. lia. }
  destruct (filter_fields bits nb (num_probes_ b)) as (Hlen & Hdec & Hprobes).
  unfold bloom_may_contain. rewrite Hdec, Hprobes, Hlen, Hbits.
  rewrite u32_small by (unfold is_u32; lia). rewrite Z.mod_small by (rewrite Hnp; lia).
  case_scrut; [done|]. case_scrut; [done|].
  eapply test_probes_le; [|apply (fold_add_hash_test nb (num_probes_ b) (hashes_ b)
    (replicate (Z.to_nat (nb * kBlockBytes)) x00))].
  - intros pos j. unfold bit_set, byte_at. destruct (Nat.lt_ge_cases pos (length bits)).
    + by rewrite app_nth1.
    + rewrite nth_overflow by done. by rewrite Z.bits_0.
  - apply xxhash64_range.
  - done.
  - unfold zlen. rewrite length_replicate. unfold kBlockBytes, kBlockBits. change (512 / 8) with 64. lia.
  - rewrite Hh. by apply list_elem_of_fmap_2.
Qed.

(** A filter whose trailer is malformed never answers "absent". *)
Lemma bloom_malformed filter key :
  let bitmap_bytes := zlen filter - kFilterTrailer in
  let num_blocks := decode_fixed32 (drop (Z.to_nat bitmap_bytes) filter) in
  num_blocks * kBlockBytes <> bitmap_bytes -> bloom_may_contain filter key = true.
Proof.
  intros bitmap_bytes num_blocks Hne. unfold bloom_may_contain. case_scrut; [done|].
  fold bitmap_bytes. fold num_blocks.
  replace (num_blocks * kBlockBytes =? bitmap_bytes) with false by lia. by rewrite !orb_true_r.
Qed.

(** ** Properties *)

(** A filter never hides a key. Whatever the bits per key and the number of probes asked for,
    every key added answers "maybe" after [finish], as long as the bitmap's size fits the arithmetic
    the builder uses. *)
Theorem filter_finds_every_key bits_per_key num_probes keys key :
  Z.of_nat (length keys) * Z.max 1 bits_per_key < 2 ^ 40 -> key ∈ keys ->
  bloom_may_contain (finish (add_all (make bits_per_key num_probes) keys)) key = true.
Proof. intros Hb Hk. by apply bloom_no_false_negative. Qed.

Lemma filter_finds_every_key_witness :
  bloom_may_contain (finish (add_all (make 10 6) [[x61]; [x62; x63]])) [x62; x63] = true.
Proof.
  apply (filter_finds_every_key 10 6 [[x61]; [x62; x63]] [x62; x63]); [simpl; lia|right; left].
Defined.

End Bloom.
