(* ===== verification/Crypto.v ===== *)
(** * Encryption at the object boundary

    [src/crypt]: the chunked layout of an encrypted object ([encrypted_object.cpp]), the AES-256-GCM and
    the pass-through construction ([aes256_gcm_encryption_provider.cpp], [no_encryption_provider.cpp]), the
    static key manager ([static_encryption_key_manager.cpp]) and the registry that routes by provider id
    ([provider_registry.hpp]). AES-GCM, the random generator and an embedder's key manager are parameters:
    [Gcm] with the laws of an authenticated cipher, random bytes as arguments. Sizes are 64-bit, with
    their wrap-around. *)

From S2P Require Import Prelude Slice Format.

(** ** Ciphers *)

(** [ObjectCipher]: [seal] and [open] answer the bytes they append. *)
Record ObjectCipher := {
  c_chunk_bytes : Z;
  c_overhead : Z;
  c_object_id : Z;
  c_seal : Z -> bytes -> bytes -> Result bytes;
  c_open : Z -> bytes -> bytes -> Result bytes
}.

(** What the layout relies on: a fixed overhead, and [open] the exact inverse of [seal]. *)
Record cipher_ok (c : ObjectCipher) : Prop := {
  co_chunk : 0 < c_chunk_bytes c < 2 ^ 64;
  co_overhead : 0 <= c_overhead c < 2 ^ 64;
  co_size : forall k p aad s, c_seal c k p aad = Value s -> zlen s = zlen p + c_overhead c;
  co_inverse : forall k p aad s, c_seal c k p aad = Value s -> c_open c k s aad = Value p;
  co_exact : forall k p aad s, c_open c k s aad = Value p -> c_seal c k p aad = Value s
}.

(** [EncryptionProvider], as the engine calls it. *)
Record EncryptionProvider := {
  p_create : Z -> Result (ObjectCipher * bytes);
  p_open : Z -> bytes -> Result ObjectCipher;
  p_layout : bytes -> Result (Z * Z)
}.

(** ** AES-256-GCM *)

(** OpenSSL's AES-256-GCM over key, nonce and associated data. [None] and [Io] stand for a failing call. *)
Class Gcm := {
  gcm_encrypt : bytes -> bytes -> bytes -> bytes -> option (bytes * bytes);
  gcm_decrypt : bytes -> bytes -> bytes -> bytes -> bytes -> Result bytes
}.

Class GcmLaws (gcm : Gcm) : Prop := {
  gcm_tag : forall key nonce aad p ct tag, gcm_encrypt key nonce aad p = Some (ct, tag) -> length tag = 16%nat;
  gcm_inverse : forall key nonce aad p ct tag,
    gcm_encrypt key nonce aad p = Some (ct, tag) -> gcm_decrypt key nonce aad ct tag = Value p;
  gcm_length : forall key nonce aad p ct tag, gcm_encrypt key nonce aad p = Some (ct, tag) -> length ct = length p;
  gcm_exact : forall key nonce aad p ct tag,
    gcm_decrypt key nonce aad ct tag = Value p -> gcm_encrypt key nonce aad p = Some (ct, tag)
}.

Definition kKeyBytes : Z := 32.
Definition kNonceBytes : Z := 12.
Definition kTagBytes : Z := 16.
Definition kMetadataVersion : Z := 1.
Definition kSuiteAes256Gcm : Z := 2.

Definition derive_nonce (salt chunk : Z) : bytes := le_bytes 4 salt ++ le_bytes 8 chunk.

Section Aes.
Context {gcm : Gcm}.

Definition gcm_seal (key : bytes) (salt chunk : Z) (plaintext aad : bytes) : Result bytes :=
  match gcm_encrypt key (derive_nonce salt chunk) aad plaintext with
  | None => Unexpected Io
  | Some (ct, tag) => if zlen ct =? zlen plaintext then Value (ct ++ tag) else Unexpected Io
  end.

(** The code casts the length of a chunk's body to [int] for OpenSSL; a chunk of 2^31 bytes or more is outside the model. *)
Definition gcm_open (key : bytes) (salt chunk : Z) (ciphertext aad : bytes) : Result bytes :=
  if zlen ciphertext <? kTagBytes then Unexpected Corrupt
  else
    let body := Z.to_nat (zlen ciphertext - kTagBytes) in
    gcm_decrypt key (derive_nonce salt chunk) aad (take body ciphertext) (drop body ciphertext).

Definition gcm_cipher (key : bytes) (salt chunk_bytes object_id : Z) : ObjectCipher :=
  {| c_chunk_bytes := chunk_bytes; c_overhead := kTagBytes; c_object_id := object_id;
     c_seal := gcm_seal key salt; c_open := gcm_open key salt |}.

(** *** Per-object metadata *)

Definition put_bytes (value : bytes) : bytes := put_varint64 (zlen value) ++ value.

Definition get_bytes (p : bytes) : option (bytes * bytes) :=
  let! (size, p) := get_varint64 p in
  if zlen p <? size then None else Some (take (Z.to_nat size) p, drop (Z.to_nat size) p).

Definition encode_metadata (salt chunk_bytes object_id : Z) (envelope : bytes) : bytes :=
  put_varint64 kMetadataVersion ++ put_varint64 kSuiteAes256Gcm ++ put_varint64 salt ++ put_varint64 chunk_bytes ++
  put_varint64 object_id ++ put_bytes envelope.

Definition decode_metadata (metadata : bytes) : option (Z * Z * Z * bytes) :=
  let! (version, p) := get_varint64 metadata in
  if negb (version =? kMetadataVersion) then None else
  let! (suite, p) := get_varint64 p in
  if negb (suite =? kSuiteAes256Gcm) then None else
  let! (salt, p) := get_varint64 p in
  if 4294967295 <? salt then None else
  let! (chunk_bytes, p) := get_varint64 p in
  if chunk_bytes =? 0 then None else
  let! (object_id, p) := get_varint64 p in
  let! (envelope, p) := get_bytes p in
  if bool_decide (p = []) then Some (salt, chunk_bytes, object_id, envelope) else None.

(** The key manager: a fresh data key with its envelope, and the way back. [random] is what the system
    generator answers. *)
Class KeyManager := {
  new_data_key : bytes -> Result (bytes * bytes);
  open_data_key : bytes -> Result bytes
}.

(** [Aes256GcmEncryptionProvider]: [salt] and [random] are the random bytes of one call that got them; where [RAND_bytes]
    for the salt fails the code answers [Io]. *)
Definition aes_create {keys : KeyManager} (chunk_bytes salt : Z) (random : bytes) (object_id : Z) : Result (ObjectCipher * bytes) :=
  let? (key, envelope) := new_data_key random in
  if negb (zlen key =? kKeyBytes) then Unexpected Config
  else Value (gcm_cipher key salt chunk_bytes object_id, encode_metadata salt chunk_bytes object_id envelope).

Definition aes_open {keys : KeyManager} (object_id : Z) (metadata : bytes) : Result ObjectCipher :=
  match decode_metadata metadata with
  | None => Unexpected Corrupt
  | Some (salt, chunk_bytes, recorded_id, envelope) =>
      let? key := open_data_key envelope in
      if negb (zlen key =? kKeyBytes) then Unexpected Corrupt
      else Value (gcm_cipher key salt chunk_bytes recorded_id)
  end.

Definition aes_layout (metadata : bytes) : Result (Z * Z) :=
  match decode_metadata metadata with
  | None => Unexpected Corrupt
  | Some (_, chunk_bytes, _, _) => Value (chunk_bytes, kTagBytes)
  end.

Definition aes_provider {keys : KeyManager} (chunk_bytes salt : Z) (random : bytes) : EncryptionProvider :=
  {| p_create := aes_create chunk_bytes salt random; p_open := aes_open; p_layout := aes_layout |}.

(** *** The static key manager *)

Definition kEnvelopeBytes : Z := kNonceBytes + kKeyBytes + kTagBytes.

(** [wrap]: the random bytes are the data key and then the nonce. *)
Definition wrap (master random : bytes) : Result (bytes * bytes) :=
  let plain := take 32 random in
  let nonce := take 12 (drop 32 random) in
  match gcm_encrypt master nonce [] plain with
  | None => Unexpected Io
  | Some (ct, tag) => Value (plain, nonce ++ ct ++ tag)
  end.

Definition unwrap (master envelope : bytes) : Result bytes :=
  if negb (zlen envelope =? kEnvelopeBytes) then Unexpected Corrupt
  else
    match gcm_decrypt master (take 12 envelope) [] (take 32 (drop 12 envelope)) (drop 44 envelope) with
    | Value plain => Value plain
    | Unexpected _ => Unexpected Config
    end.

Definition static_key_manager (master : bytes) : KeyManager :=
  {| new_data_key := wrap master; open_data_key := unwrap master |}.

Definition static_open (master_key : bytes) : Result KeyManager :=
  if negb (zlen master_key =? kKeyBytes) then Unexpected Config else Value (static_key_manager master_key).
End Aes.

Definition from_hex_digit (c : byte) : Z :=
  let c := zb c in
  if (48 <=? c) && (c <=? 57) then c - 48
  else if (97 <=? c) && (c <=? 102) then c - 97 + 10
  else if (65 <=? c) && (c <=? 70) then c - 65 + 10
  else -1.

Fixpoint hex_bytes (hex : bytes) : option bytes :=
  match hex with
  | [] => Some []
  | [_] => None
  | h :: l :: rest =>
      let high := from_hex_digit h in
      let low := from_hex_digit l in
      if (high <? 0) || (low <? 0) then None
      else let! tail := hex_bytes rest in Some (bz (high * 16 + low) :: tail)
  end.

Definition from_hex {gcm : Gcm} (hex : bytes) : Result KeyManager :=
  if negb (zlen hex =? kKeyBytes * 2) then Unexpected Config
  else match hex_bytes hex with None => Unexpected Config | Some key => static_open key end.

(** ** No encryption *)

Definition no_encryption_cipher : ObjectCipher :=
  {| c_chunk_bytes := 4096; c_overhead := 0; c_object_id := 0;
     c_seal _ plaintext _ := Value plaintext; c_open _ ciphertext _ := Value ciphertext |}.

Definition no_encryption_provider : EncryptionProvider :=
  {| p_create _ := Value (no_encryption_cipher, []);
     p_open _ metadata := if bool_decide (metadata = []) then Value no_encryption_cipher else Unexpected Corrupt;
     p_layout metadata := if bool_decide (metadata = []) then Value (4096, 0) else Unexpected Corrupt |}.

(** ** The registry *)

Record ProviderRegistry := {
  providers : list (bytes * EncryptionProvider);
  primary : bytes;
  accept_plaintext : bool
}.

Fixpoint find_provider (ps : list (bytes * EncryptionProvider)) (id : bytes) : option EncryptionProvider :=
  match ps with
  | [] => None
  | (name, p) :: rest => if slice_eqb name id then Some p else find_provider rest id
  end.

Definition primary_provider (r : ProviderRegistry) : option EncryptionProvider := find_provider (providers r) (primary r).

Definition passthrough_registry : ProviderRegistry :=
  {| providers := [([], no_encryption_provider)]; primary := []; accept_plaintext := false |}.

(** ** Encrypted objects *)

Definition sub_bytes (s : bytes) (at_ len : Z) : bytes := take (Z.to_nat len) (drop (Z.to_nat at_) s).

Definition chunk_count (logical chunk_bytes : Z) : Z := u64 (logical + chunk_bytes - 1) / chunk_bytes.

Definition chunk_plain_bytes (k logical chunk_bytes : Z) : Z :=
  let start := u64 (k * chunk_bytes) in
  if logical <=? start then 0 else Z.min chunk_bytes (logical - start).

Definition chunk_aad (object_id chunk logical : Z) : bytes :=
  put_fixed64 object_id ++ put_fixed64 chunk ++ (if chunk =? 0 then put_fixed64 logical else []).

Definition physical_size (logical chunk_bytes overhead : Z) : Z := u64 (logical + u64 (chunk_count logical chunk_bytes * overhead)).

(** The loops over chunks [k], [k + 1], ..., [n] of them. *)
Fixpoint seal_chunks (c : ObjectCipher) (aad : Z -> bytes) (plaintext : bytes) (k : Z) (n : nat) : Result bytes :=
  match n with
  | O => Value []
  | S n' =>
      let logical := zlen plaintext in
      let? sealed := c_seal c k (sub_bytes plaintext (u64 (k * c_chunk_bytes c)) (chunk_plain_bytes k logical (c_chunk_bytes c))) (aad k) in
      let? rest := seal_chunks c aad plaintext (k + 1) n' in
      Value (sealed ++ rest)
  end.

Fixpoint open_chunks (c : ObjectCipher) (aad : Z -> bytes) (fetched : bytes) (logical first k : Z) (n : nat) : Result bytes :=
  match n with
  | O => Value []
  | S n' =>
      let stride := u64 (c_chunk_bytes c + c_overhead c) in
      let at_ := u64 ((k - first) * stride) in
      let sealed_len := u64 (chunk_plain_bytes k logical (c_chunk_bytes c) + c_overhead c) in
      let? plain := c_open c k (sub_bytes fetched at_ sealed_len) (aad k) in
      let? rest := open_chunks c aad fetched logical first (k + 1) n' in
      Value (plain ++ rest)
  end.

Definition seal_object (c : ObjectCipher) (plaintext : bytes) : Result bytes :=
  let logical := zlen plaintext in
  seal_chunks c (fun k => chunk_aad (c_object_id c) k logical) plaintext 0 (Z.to_nat (chunk_count logical (c_chunk_bytes c))).

Definition kReadToEnd : Z := 2 ^ 64 - 1.

(** One object as a store: [get_sync] is the delegate's read of the object. *)
Record EncryptedObject := { eo_cipher : ObjectCipher; eo_name : bytes; eo_logical : Z }.

Definition eo_read (o : EncryptedObject) (get_sync : Z -> Z -> Result bytes) (name : bytes) (offset len : Z) : Result bytes :=
  let c := eo_cipher o in
  if negb (slice_eqb name (eo_name o)) then Unexpected Config
  else if eo_logical o <=? offset then Value []
  else
    let available := eo_logical o - offset in
    let want := if (len =? kReadToEnd) || (available <? len) then available else len in
    if want =? 0 then Value []
    else
      let first := offset / c_chunk_bytes c in
      let last := u64 (offset + want - 1) / c_chunk_bytes c in
      let stride := u64 (c_chunk_bytes c + c_overhead c) in
      let physical_begin := u64 (first * stride) in
      let physical_end := u64 (last * stride + chunk_plain_bytes last (eo_logical o) (c_chunk_bytes c) + c_overhead c) in
      let? fetched := get_sync physical_begin (u64 (physical_end - physical_begin)) in
      if negb (zlen fetched =? u64 (physical_end - physical_begin)) then Unexpected Corrupt
      else
        let? plaintext := open_chunks c (fun k => chunk_aad (c_object_id c) k (eo_logical o)) fetched (eo_logical o) first first
                            (Z.to_nat (last - first + 1)) in
        Value (sub_bytes plaintext (offset - first * c_chunk_bytes c) want).

Definition eo_put (o : EncryptedObject) (name bytes_ : bytes) : Result bytes :=
  if negb (slice_eqb name (eo_name o)) then Unexpected Config else seal_object (eo_cipher o) bytes_.

(** ** The chunk layout *)

Lemma sub_bytes_all s : sub_bytes s 0 (zlen s) = s.
Proof. unfold sub_bytes, zlen. by rewrite Nat2Z.id, drop_0, take_ge. Qed.

Lemma sub_bytes_length s a n : 0 <= a -> 0 <= n -> a + n <= zlen s -> zlen (sub_bytes s a n) = n.
Proof. unfold sub_bytes, zlen. intros. rewrite length_take, length_drop. lia. Qed.

Lemma sub_bytes_split s a n m : 0 <= a -> 0 <= n -> 0 <= m -> sub_bytes s a (n + m) = sub_bytes s a n ++ sub_bytes s (a + n) m.
Proof.
  intros. unfold sub_bytes. rewrite !Z2Nat.inj_add by lia. rewrite <- drop_drop. rewrite <- (take_drop (Z.to_nat n) (take (Z.to_nat n + Z.to_nat m) (drop (Z.to_nat a) s))).
  rewrite take_take, skipn_firstn_comm. f_equal; [f_equal; lia|f_equal; lia].
Qed.

Lemma sub_sub_bytes s a n b m : 0 <= a -> 0 <= b -> 0 <= m -> b + m <= n -> sub_bytes (sub_bytes s a n) b m = sub_bytes s (a + b) m.
Proof.
  intros. unfold sub_bytes. rewrite skipn_firstn_comm, take_take, drop_drop. f_equal; [lia|]. f_equal. lia.
Qed.

Section Layout.
Context (c : ObjectCipher) (c_ok : cipher_ok c) (P : bytes).
Local Abbreviation C := (c_chunk_bytes c).
Local Abbreviation T := (c_overhead c).
Local Abbreviation N := (zlen P).

(** The object and its sealed form are below 2^64 bytes. *)
Context (small : N + C + (N / C + 1) * T < 2 ^ 64).

Definition pieces : Z := (N + C - 1) / C.
Definition piece_len (k : Z) : Z := Z.min C (N - k * C).

Lemma C_pos : 0 < C.
Proof. apply c_ok. Qed.

Lemma T_nonneg : 0 <= T.
Proof. apply c_ok. Qed.

Lemma pieces_bound k : 0 <= k < pieces <-> 0 <= k /\ k * C < N.
Proof.
  unfold pieces. pose proof C_pos. pose proof (zlen_nonneg P). split; intros [Hk Hlt]; (split; [done|]).
  - assert (k + 1 <= (N + C - 1) / C) as Hle by lia. apply (Z.mul_le_mono_nonneg_r _ _ C) in Hle; [|lia].
    pose proof (Z.mul_div_le (N + C - 1) C). lia.
  - pose proof (Z.div_le_lower_bound (N + C - 1) C (k + 1)). lia.
Qed.

Lemma pieces_le : 0 <= pieces <= N / C + 1.
Proof.
  unfold pieces. pose proof C_pos. pose proof (zlen_nonneg P). split; [apply Z.div_pos; lia|].
  replace (N / C + 1) with ((N + 1 * C) / C) by (rewrite Z.div_add; lia). apply Z.div_le_mono; lia.
Qed.

Lemma piece_range k : 0 <= k < pieces -> 0 < piece_len k <= C /\ k * C + piece_len k <= N /\ (k + 1 < pieces -> piece_len k = C) /\
  0 <= k * C /\ k * (C + T) + piece_len k + T < 2 ^ 64.
Proof.
  intros Hk. pose proof (proj1 (pieces_bound k) Hk) as [Hk0 Hlt]. pose proof C_pos. pose proof T_nonneg. pose proof pieces_le.
  unfold piece_len. split; [lia|]. split; [lia|]. split; [|split; [nia|]].
  - intros Hk1. pose proof (proj1 (pieces_bound (k + 1)) ltac:(lia)). lia.
  - assert ((k + 1) * T <= (N / C + 1) * T) by nia. nia.
Qed.

Lemma chunk_count_pieces : chunk_count N C = pieces.
Proof.
  unfold chunk_count, pieces. pose proof C_pos. pose proof T_nonneg. pose proof (zlen_nonneg P). pose proof pieces_le.
  rewrite u64_small; [done|]. assert (0 <= (N / C + 1) * T) by nia. split; lia.
Qed.

Lemma chunk_plain_piece k : 0 <= k < pieces -> chunk_plain_bytes k N C = piece_len k /\ u64 (k * C) = k * C.
Proof.
  intros Hk. destruct (piece_range k Hk) as (H1 & H2 & _ & H3 & _). pose proof (proj1 (pieces_bound k) Hk) as [_ Hlt].
  pose proof C_pos. pose proof T_nonneg. pose proof pieces_le.
  assert (u64 (k * C) = k * C) as E by (apply u64_small; split; [lia|]; assert (0 <= (N / C + 1) * T) by nia; lia).
  split; [|done]. unfold chunk_plain_bytes. rewrite E. destruct (Z.leb_spec N (k * C)); [lia|]. done.
Qed.

Lemma stride_small : 0 < pieces -> u64 (C + T) = C + T.
Proof.
  intros Hp. apply u64_small. pose proof C_pos. pose proof T_nonneg. pose proof pieces_le. pose proof (zlen_nonneg P).
  assert (T <= (N / C + 1) * T) by nia. split; lia.
Qed.

Definition piece (k : Z) : bytes := sub_bytes P (k * C) (piece_len k).

Lemma piece_length k : 0 <= k < pieces -> zlen (piece k) = piece_len k.
Proof. intros Hk. destruct (piece_range k Hk) as (H1 & H2 & _ & H3 & _). apply sub_bytes_length; lia. Qed.

Context (aad : Z -> bytes).

(** Every sealed chunk sits at its multiple of the stride. *)
Lemma seal_chunks_layout n : forall k S, 0 <= k -> k + Z.of_nat n = pieces -> seal_chunks c aad P k n = Value S ->
  zlen S = (if Nat.eqb n 0 then 0 else N - k * C + Z.of_nat n * T) /\
  forall j, k <= j < pieces -> exists s, c_seal c j (piece j) (aad j) = Value s /\ zlen s = piece_len j + T /\
    sub_bytes S ((j - k) * (C + T)) (piece_len j + T) = s.
Proof.
  pose proof C_pos as HC. pose proof T_nonneg as HT.
  induction n as [|n IH]; intros k S Hk0 Hk HS; cbn [seal_chunks] in HS.
  - injection HS as <-. split; [done|]. intros j. lia.
  - destruct (piece_range k) as (Hpl & Hfit & Hfull & HkC & _); [lia|]. destruct (chunk_plain_piece k) as [E1 E2]; [lia|].
    rewrite E1, E2 in HS. fold (piece k) in HS.
    destruct (c_seal c k (piece k) (aad k)) as [sk|] eqn:Esk; [|done]. cbn [result_bind] in HS.
    destruct (seal_chunks c aad P (k + 1) n) as [rest|] eqn:Er; [|done]. cbn [result_bind] in HS. injection HS as <-.
    destruct (IH (k + 1) rest ltac:(lia) ltac:(lia) Er) as [Hlen Hin].
    pose proof (co_size _ c_ok _ _ _ _ Esk) as Hsk. rewrite piece_length in Hsk by lia. rewrite zlen_app, Hsk, Hlen. split.
    + destruct n as [|n]; simpl Nat.eqb; cbv iota; [|rewrite Hfull by lia; nia].
      pose proof (proj2 (pieces_bound (k + 1))) as Hb. unfold piece_len in *.
      destruct (Z.le_gt_cases C (N - k * C)); [|lia]. assert (N <= (k + 1) * C) by (destruct (Z.le_gt_cases N ((k + 1) * C)); [done|]; exfalso; lia). lia.
    + intros j Hj. destruct (Z.eq_dec j k) as [->|Hne].
      * exists sk. split; [done|]. split; [done|]. rewrite Z.sub_diag. unfold sub_bytes. rewrite Z.mul_0_l. simpl Z.to_nat. rewrite drop_0.
        rewrite take_app_le by (unfold zlen in Hsk; lia). apply take_ge. unfold zlen in Hsk. lia.
      * destruct (Hin j ltac:(lia)) as (s & Hs & Hls & Hsub). exists s. split; [done|]. split; [done|]. rewrite <- Hsub.
        unfold sub_bytes. f_equal. rewrite Hfull in Hsk by lia. unfold zlen in Hsk.
        rewrite drop_app_ge by nia. f_equal. nia.
Qed.

(** Where the plaintext of the chunks below [k] ends. *)
Definition plain_end (k : Z) : Z := Z.min (k * C) N.

Lemma plain_end_step k : 0 <= k < pieces -> plain_end k = k * C /\ plain_end (k + 1) = k * C + piece_len k.
Proof. intros Hk. destruct (piece_range k Hk) as (H1 & H2 & H3 & H4 & _). unfold plain_end, piece_len in *. lia. Qed.

Lemma open_chunks_layout F first n : forall k, 0 <= first <= k -> k + Z.of_nat n <= pieces ->
  (forall j, k <= j < k + Z.of_nat n -> exists s, c_seal c j (piece j) (aad j) = Value s /\
     sub_bytes F ((j - first) * (C + T)) (piece_len j + T) = s) ->
  open_chunks c aad F N first k n = Value (sub_bytes P (plain_end k) (plain_end (k + Z.of_nat n) - plain_end k)).
Proof.
  pose proof C_pos as HC. pose proof T_nonneg as HT.
  induction n as [|n IH]; intros k Hk Hn HF; cbn [open_chunks].
  - rewrite Z.add_0_r, Z.sub_diag. done.
  - destruct (HF k ltac:(lia)) as (s & Hs & Hsub). destruct (piece_range k) as (Hpl & Hfit & Hfull & HkC & Hsm); [lia|].
    destruct (chunk_plain_piece k) as [-> _]; [lia|]. rewrite stride_small by lia.
    rewrite (u64_small ((k - first) * (C + T))) by (split; nia). rewrite (u64_small (piece_len k + T)) by (split; nia).
    rewrite Hsub, (co_inverse _ c_ok _ _ _ _ Hs). cbn [result_bind]. rewrite IH; [|lia|lia|intros j Hj; apply HF; lia].
    cbn [result_bind]. f_equal. unfold piece. destruct (plain_end_step k) as [E1 E2]; [lia|]. rewrite E1.
    replace (k + 1 + Z.of_nat n) with (k + Z.of_nat (S n)) by lia. rewrite E2.
    assert (k * C + piece_len k <= plain_end (k + Z.of_nat (S n))) as Hle.
    { rewrite <- E2. unfold plain_end. assert ((k + 1) * C <= (k + Z.of_nat (S n)) * C) by nia. lia. }
    replace (plain_end (k + Z.of_nat (S n)) - k * C) with (piece_len k + (plain_end (k + Z.of_nat (S n)) - (k * C + piece_len k))) by lia.
    rewrite sub_bytes_split by lia. done.
Qed.

(** A chunk's number within the object. *)
Lemma chunk_of_offset off : 0 <= off < N -> 0 <= off / C < pieces.
Proof.
  intros Hoff. pose proof C_pos as HC. apply pieces_bound. split; [apply Z.div_pos; lia|]. pose proof (Z.mul_div_le off C). lia.
Qed.

Lemma sealed_length S : seal_chunks c aad P 0 (Z.to_nat pieces) = Value S -> zlen S = N + pieces * T.
Proof.
  intros HS. pose proof pieces_le. destruct (seal_chunks_layout (Z.to_nat pieces) 0 S ltac:(lia) ltac:(lia) HS) as [-> _].
  destruct (Z.to_nat pieces) eqn:E; [|simpl; lia]. simpl. assert (pieces = 0) as Ep by lia.
  destruct (Z.le_gt_cases N 0); [pose proof (zlen_nonneg P); lia|]. pose proof (proj2 (pieces_bound 0)). lia.
Qed.
End Layout.

(** ** Reading an encrypted object *)

(** The object and its sealed form stay below 2^64 bytes. *)
Definition object_small (c : ObjectCipher) (n : Z) : Prop :=
  n + c_chunk_bytes c + (n / c_chunk_bytes c + 1) * c_overhead c < 2 ^ 64.

Lemma eo_read_spec c P S name (get : Z -> Z -> Result bytes) offset len :
  cipher_ok c -> object_small c (zlen P) -> seal_object c P = Value S ->
  (forall off n, get off n = Value (sub_bytes S off n)) -> 0 <= offset -> 0 <= len < 2 ^ 64 ->
  eo_read {| eo_cipher := c; eo_name := name; eo_logical := zlen P |} get name offset len = Value (sub_bytes P offset len).
Proof.
  intros Hc Hsm HS Hget Hoff Hlen. unfold seal_object in HS. rewrite (chunk_count_pieces c Hc P Hsm) in HS.
  set (aad := fun k => chunk_aad (c_object_id c) k (zlen P)) in *. pose proof (C_pos c Hc) as HC. pose proof (T_nonneg c Hc) as HT.
  pose proof (pieces_le c Hc P) as Hp.
  assert (zlen P < 2 ^ 64) as HN by (unfold object_small in Hsm; assert (0 <= (zlen P / c_chunk_bytes c + 1) * c_overhead c) by (apply Z.mul_nonneg_nonneg; lia); lia).
  unfold eo_read. cbn [eo_cipher eo_name eo_logical].
  rewrite (proj2 (slice_eqb_eq name name) eq_refl). cbn [negb]. destruct (Z.leb_spec (zlen P) offset) as [Hpast|Hin].
  { f_equal. unfold sub_bytes. rewrite drop_ge; [by rewrite take_nil|]. unfold zlen in Hpast. lia. }
  set (want := if (len =? kReadToEnd) || (zlen P - offset <? len) then zlen P - offset else len).
  assert (sub_bytes P offset len = sub_bytes P offset want /\ 0 <= want <= zlen P - offset) as [-> Hw].
  { unfold want.
    destruct (Z.eqb_spec len kReadToEnd) as [E|E], (Z.ltb_spec (zlen P - offset) len) as [Hl|Hl]; cbn [orb]; (split; [|lia]); try done.
    - unfold sub_bytes. rewrite !take_ge; [done|rewrite length_drop; unfold zlen; lia|rewrite length_drop; unfold zlen in *; lia].
    - unfold kReadToEnd in E. assert (len = zlen P - offset) as -> by lia. done.
    - unfold sub_bytes. rewrite !take_ge; [done|rewrite length_drop; unfold zlen; lia|rewrite length_drop; unfold zlen in *; lia]. }
  destruct (Z.eqb_spec want 0) as [E|Hne].
  { f_equal. rewrite E. unfold sub_bytes. by rewrite take_0. }
  rewrite (u64_small (offset + want - 1)) by (split; lia).
  set (first := offset / c_chunk_bytes c). set (last := (offset + want - 1) / c_chunk_bytes c).
  pose proof (chunk_of_offset c Hc P offset ltac:(lia)) as Hfirst. fold first in Hfirst.
  pose proof (chunk_of_offset c Hc P (offset + want - 1) ltac:(lia)) as Hlast. fold last in Hlast.
  assert (first <= last) as Hfl by (apply Z.div_le_mono; lia).
  destruct (piece_range c Hc P Hsm first Hfirst) as (Hf1 & Hf2 & Hf3 & Hf4 & Hf5).
  destruct (piece_range c Hc P Hsm last Hlast) as (Hl1 & Hl2 & Hl3 & Hl4 & Hl5).
  destruct (chunk_plain_piece c Hc P Hsm last Hlast) as [-> _]. rewrite (stride_small c Hc P Hsm) by lia.
  set (C := c_chunk_bytes c) in *. set (T := c_overhead c) in *.
  assert (first * (C + T) <= last * (C + T)) as Hmono by (apply Z.mul_le_mono_nonneg_r; lia).
  assert (0 <= first * (C + T)) as Hnn by (apply Z.mul_nonneg_nonneg; lia).
  rewrite (u64_small (first * (C + T))) by (split; lia). rewrite (u64_small (last * (C + T) + piece_len c P last + T)) by (split; lia).
  rewrite (u64_small (last * (C + T) + piece_len c P last + T - first * (C + T))) by (split; lia).
  rewrite Hget. cbn [result_bind].
  destruct (seal_chunks_layout c Hc P Hsm aad (Z.to_nat (pieces c P)) 0 S ltac:(lia) ltac:(lia) HS) as [HSlen HSin].
  pose proof (sealed_length c Hc P Hsm aad S HS) as HSl. fold T in HSl.
  assert (last * (C + T) + piece_len c P last + T <= zlen S) as Hfits.
  { rewrite HSl. assert ((last + 1) * T <= pieces c P * T) by (apply Z.mul_le_mono_nonneg_r; lia).
    replace (last * (C + T)) with (last * C + last * T) by ring. replace ((last + 1) * T) with (last * T + T) in * by ring. lia. }
  rewrite sub_bytes_length by lia. rewrite Z.eqb_refl. cbn [negb].
  rewrite (open_chunks_layout c Hc P Hsm aad).
  - cbn [result_bind]. f_equal. replace (first + Z.of_nat (Z.to_nat (last - first + 1))) with (last + 1) by lia.
    destruct (plain_end_step c Hc P Hsm first Hfirst) as [E1 _]. destruct (plain_end_step c Hc P Hsm last Hlast) as [_ E2].
    fold C in E1, E2. rewrite E1, E2.
    pose proof (Z.mul_div_le offset C HC) as Hd1. pose proof (Z.mul_succ_div_gt (offset + want - 1) C HC) as Hd2. fold first in Hd1. fold last in Hd2.
    rewrite sub_sub_bytes.
    + f_equal. lia.
    + lia.
    + lia.
    + lia.
    + unfold piece_len. fold C. lia.
  - lia.
  - lia.
  - intros j Hj. destruct (HSin j ltac:(lia)) as (s & Hs & _ & Hsub). exists s. split; [done|].
    fold C T in Hsub. rewrite Z.sub_0_r in Hsub. rewrite <- Hsub. fold C T.
    destruct (piece_range c Hc P Hsm j ltac:(lia)) as (Hj1 & Hj2 & Hj3 & Hj4 & Hj5). fold C T in Hj1, Hj2, Hj3, Hj4, Hj5.
    assert ((j - first) * (C + T) = j * (C + T) - first * (C + T)) as Ej by ring. rewrite Ej.
    assert (first * (C + T) <= j * (C + T)) by (apply Z.mul_le_mono_nonneg_r; lia).
    rewrite sub_sub_bytes; [f_equal; lia|lia|lia|lia|].
    destruct (Z.eq_dec j last) as [->|Hjl]; [lia|]. rewrite (Hj3 ltac:(lia)).
    assert ((j + 1) * (C + T) <= last * (C + T)) by (apply Z.mul_le_mono_nonneg_r; lia).
    replace ((j + 1) * (C + T)) with (j * (C + T) + C + T) in * by ring. lia.
Qed.

Lemma sealed_physical_size c P S : cipher_ok c -> object_small c (zlen P) -> seal_object c P = Value S ->
  zlen S = physical_size (zlen P) (c_chunk_bytes c) (c_overhead c).
Proof.
  intros Hc Hsm HS. unfold seal_object in HS. unfold physical_size. rewrite (chunk_count_pieces c Hc P Hsm) in *.
  rewrite (sealed_length c Hc P Hsm _ S HS). pose proof (pieces_le c Hc P) as Hp. pose proof (T_nonneg c Hc) as HT. pose proof (C_pos c Hc).
  pose proof (zlen_nonneg P). unfold object_small in Hsm.
  assert (0 <= pieces c P * c_overhead c <= (zlen P / c_chunk_bytes c + 1) * c_overhead c)
    by (split; [apply Z.mul_nonneg_nonneg; lia|apply Z.mul_le_mono_nonneg_r; lia]).
  rewrite !u64_small; [done|split; lia..|rewrite u64_small; split; lia].
Qed.

(** What opens was sealed: the chunks of an answer, sealed again at their place, are the bytes fetched. *)
Lemma open_chunks_exact c aad F logical first n : cipher_ok c -> forall k X,
  open_chunks c aad F logical first k n = Value X ->
  exists ps, length ps = n /\ X = concat ps /\
    forall i p, ps !! i = Some p ->
      c_seal c (k + Z.of_nat i) p (aad (k + Z.of_nat i)) =
      Value (sub_bytes F (u64 ((k + Z.of_nat i - first) * u64 (c_chunk_bytes c + c_overhead c)))
               (u64 (chunk_plain_bytes (k + Z.of_nat i) logical (c_chunk_bytes c) + c_overhead c))).
Proof.
  intros Hc. induction n as [|n IH]; intros k X HX; cbn [open_chunks] in HX.
  - injection HX as <-. by exists [].
  - destruct (c_open c k _ (aad k)) as [p|] eqn:Ep; [|done]. cbn [result_bind] in HX.
    destruct (open_chunks c aad F logical first (k + 1) n) as [rest|] eqn:Er; [|done]. cbn [result_bind] in HX. injection HX as <-.
    destruct (IH (k + 1) rest Er) as (ps & Hl & -> & Hps). exists (p :: ps). split; [simpl; lia|]. split; [done|].
    intros [|i] q Hq; simpl in Hq.
    + injection Hq as ->. rewrite Z.add_0_r. by apply (co_exact _ Hc).
    + replace (k + Z.of_nat (S i)) with (k + 1 + Z.of_nat i) by lia. by apply Hps.
Qed.

(** ** The constructions meet the laws *)

Lemma gcm_cipher_ok {gcm : Gcm} key salt chunk_bytes id : GcmLaws gcm -> 0 < chunk_bytes < 2 ^ 64 -> cipher_ok (gcm_cipher key salt chunk_bytes id).
Proof.
  intros Hl Hcb. split; cbn [gcm_cipher c_chunk_bytes c_overhead c_seal c_open]; [done|unfold kTagBytes; lia| | |].
  - intros k p aad s. unfold gcm_seal. destruct (gcm_encrypt _ _ _ _) as [[ct tag]|] eqn:E; [|done].
    destruct (zlen ct =? zlen p) eqn:El; [|done]. intros [= <-]. zbool. rewrite zlen_app, El. unfold zlen at 2. by rewrite (gcm_tag _ _ _ _ _ _ E).
  - intros k p aad s. unfold gcm_seal, gcm_open. destruct (gcm_encrypt _ _ _ _) as [[ct tag]|] eqn:E; [|done].
    destruct (zlen ct =? zlen p) eqn:El; [|done]. intros [= <-]. pose proof (gcm_tag _ _ _ _ _ _ E) as Ht. rewrite zlen_app.
    assert (zlen tag = kTagBytes) as -> by (unfold zlen, kTagBytes; lia). destruct (Z.ltb_spec (zlen ct + kTagBytes) kTagBytes); [pose proof (zlen_nonneg ct); lia|].
    rewrite Z.add_simpl_r. unfold zlen. rewrite Nat2Z.id, take_app_length, drop_app_length. by apply gcm_inverse.
  - intros k p aad s. unfold gcm_seal, gcm_open. destruct (Z.ltb_spec (zlen s) kTagBytes) as [|Hs]; [done|].
    intros E%gcm_exact. pose proof (gcm_length _ _ _ _ _ _ E) as Hlen. rewrite E.
    assert (zlen (take (Z.to_nat (zlen s - kTagBytes)) s) = zlen p) as -> by (unfold zlen at 1; by rewrite Hlen). by rewrite Z.eqb_refl, take_drop.
Qed.

Lemma no_encryption_ok : cipher_ok no_encryption_cipher.
Proof. split; simpl; [lia|lia|by intros ? ? ? ? [= ->]; lia|by intros ? ? ? ? [= ->]|by intros ? ? ? ? [= ->]]. Qed.

Lemma get_put_bytes v rest : is_u64 (zlen v) -> get_bytes (put_bytes v ++ rest) = Some (v, rest).
Proof.
  intros Hv. unfold get_bytes, put_bytes. rewrite <- app_assoc, get_put_varint64 by done. rewrite zlen_app.
  destruct (Z.ltb_spec (zlen v + zlen rest) (zlen v)); [pose proof (zlen_nonneg rest); lia|].
  unfold zlen. by rewrite Nat2Z.id, take_app_length, drop_app_length.
Qed.

(** The metadata of an object reads back. *)
Lemma decode_encode_metadata salt chunk_bytes object_id envelope :
  0 <= salt < 2 ^ 32 -> 0 < chunk_bytes < 2 ^ 64 -> is_u64 object_id -> is_u64 (zlen envelope) ->
  decode_metadata (encode_metadata salt chunk_bytes object_id envelope) = Some (salt, chunk_bytes, object_id, envelope).
Proof.
  intros Hs Hc Ho He. unfold decode_metadata, encode_metadata. unfold is_u64 in *.
  rewrite get_put_varint64 by (unfold is_u64, kMetadataVersion; lia). simpl negb. cbv iota.
  rewrite get_put_varint64 by (unfold is_u64, kSuiteAes256Gcm; lia). simpl negb. cbv iota.
  rewrite get_put_varint64 by (unfold is_u64; lia). destruct (Z.ltb_spec 4294967295 salt); [lia|].
  rewrite get_put_varint64 by (unfold is_u64; lia). destruct (Z.eqb_spec chunk_bytes 0); [lia|].
  rewrite get_put_varint64 by done. rewrite <- (app_nil_r (put_bytes envelope)), get_put_bytes by done. done.
Qed.

(** What a provider relies on from a key manager: an envelope opens to the key it was made for. A call
    draws at most [kRandomBytes] from the generator. *)
Definition kRandomBytes : Z := kKeyBytes + kNonceBytes.

Class KeyManagerLaws (keys : KeyManager) : Prop := {
  key_inverse : forall random key envelope, kRandomBytes <= zlen random ->
    new_data_key random = Value (key, envelope) -> open_data_key envelope = Value key;
  key_envelope : forall random key envelope, kRandomBytes <= zlen random ->
    new_data_key random = Value (key, envelope) -> is_u64 (zlen envelope)
}.

Lemma unwrap_wrap {gcm : Gcm} master random key envelope : GcmLaws gcm -> (44 <= length random)%nat ->
  wrap master random = Value (key, envelope) -> unwrap master envelope = Value key /\ zlen envelope = kEnvelopeBytes.
Proof.
  intros Hl Hr. unfold wrap, unwrap. destruct (gcm_encrypt _ _ _ _) as [[ct tag]|] eqn:E; [|done]. intros [= <- <-].
  pose proof (gcm_tag _ _ _ _ _ _ E) as Ht. pose proof (gcm_length _ _ _ _ _ _ E) as Hc. rewrite length_take in Hc.
  assert (length (take 12 (drop 32 random)) = 12%nat) as Hn by (rewrite length_take, length_drop; lia).
  assert (zlen (take 12 (drop 32 random) ++ ct ++ tag) = kEnvelopeBytes) as Hz.
  { rewrite !zlen_app. unfold zlen, kEnvelopeBytes, kNonceBytes, kKeyBytes, kTagBytes. lia. }
  rewrite Hz. rewrite Z.eqb_refl. cbn [negb]. split; [|done].
  set (nonce := take 12 (drop 32 random)) in *. rewrite take_app_le, take_ge by lia. rewrite drop_app_ge, Hn, Nat.sub_diag, drop_0 by lia.
  rewrite take_app_le, (take_ge ct) by lia. rewrite drop_app_ge, Hn, drop_app_ge by lia. replace (44 - 12 - length ct)%nat with 0%nat by lia.
  rewrite drop_0. by rewrite (gcm_inverse _ _ _ _ _ _ E).
Qed.

#[export] Instance static_key_laws {gcm : Gcm} master : GcmLaws gcm -> KeyManagerLaws (static_key_manager master).
Proof.
  intros Hl. split; intros random key envelope Hr E; (destruct (unwrap_wrap master random key envelope Hl) as [H1 H2];
    [unfold kRandomBytes, kKeyBytes, kNonceBytes, zlen in Hr; lia|done|]); [done|].
  rewrite H2. unfold is_u64, kEnvelopeBytes, kNonceBytes, kKeyBytes, kTagBytes. lia.
Qed.

(** ** What an encrypted object promises *)

Lemma le_bytes_inj n v w : 0 <= v < 256 ^ Z.of_nat n -> 0 <= w < 256 ^ Z.of_nat n -> le_bytes n v = le_bytes n w -> v = w.
Proof. intros Hv Hw E. apply (f_equal le_value) in E. rewrite !le_value_bytes, !Z.mod_small in E; done. Qed.

Lemma put_fixed64_inj v w : is_u64 v -> is_u64 w -> put_fixed64 v = put_fixed64 w -> v = w.
Proof.
  intros Hv Hw E. apply (f_equal (fun b => decode_fixed64 (b ++ []))) in E. by rewrite !decode_put_fixed64, !u64_small in E.
Qed.

(** The associated data names the object, the chunk and, on chunk zero, the length. *)
Lemma chunk_aad_inj id k l id' k' l' : is_u64 id -> is_u64 k -> is_u64 l -> is_u64 id' -> is_u64 k' -> is_u64 l' ->
  chunk_aad id k l = chunk_aad id' k' l' -> id = id' /\ k = k' /\ (k = 0 -> l = l').
Proof.
  intros H1 H2 H3 H4 H5 H6 E. unfold chunk_aad in E. apply app_inj_1 in E as [E1 E]; [|by rewrite !length_put_fixed64].
  apply app_inj_1 in E as [E2 E]; [|by rewrite !length_put_fixed64].
  apply put_fixed64_inj in E1; [|done..]. apply put_fixed64_inj in E2; [|done..]. split; [done|]. split; [done|]. intros ->. subst k'.
  change (0 =? 0) with true in E. cbv iota in E. by apply put_fixed64_inj in E.
Qed.

(** Under one salt no two chunks share a nonce. *)
Lemma derive_nonce_inj salt k k' : is_u64 k -> is_u64 k' -> derive_nonce salt k = derive_nonce salt k' -> k = k'.
Proof. intros H1 H2 E. unfold derive_nonce in E. apply app_inv_head in E. by apply le_bytes_inj in E. Qed.

Section Objects.
Context {gcm : Gcm} {keys : KeyManager} (gcm_laws : GcmLaws gcm) (key_laws : KeyManagerLaws keys).

(** C27: an encrypted object reads back. Whatever number the object is opened under later, the metadata
    gives back its cipher, and a read at any offset and length over a store that serves the sealed bytes
    answers that part of the plaintext; the object occupies [physical_size] bytes. *)
Theorem encrypted_object_reads_back chunk_bytes salt random object_id c metadata name plaintext sealed :
  0 < chunk_bytes < 2 ^ 64 -> 0 <= salt < 2 ^ 32 -> is_u64 object_id -> kRandomBytes <= zlen random ->
  p_create (aes_provider chunk_bytes salt random) object_id = Value (c, metadata) ->
  object_small c (zlen plaintext) ->
  eo_put {| eo_cipher := c; eo_name := name; eo_logical := zlen plaintext |} name plaintext = Value sealed ->
  zlen sealed = physical_size (zlen plaintext) chunk_bytes kTagBytes /\
  forall chunk_bytes' salt' random' number,
    exists c', p_open (aes_provider chunk_bytes' salt' random') number metadata = Value c' /\
    forall get_sync offset len, (forall off n, get_sync off n = Value (sub_bytes sealed off n)) ->
      0 <= offset -> 0 <= len < 2 ^ 64 ->
      eo_read {| eo_cipher := c'; eo_name := name; eo_logical := zlen plaintext |} get_sync name offset len =
        Value (sub_bytes plaintext offset len).
Proof.
  intros Hcb Hsalt Hid Hr Hcreate Hsm Hput. cbn [p_create aes_provider] in Hcreate. unfold aes_create in Hcreate.
  destruct (new_data_key random) as [[key envelope]|] eqn:Ek; [|done]. cbn [result_bind] in Hcreate.
  destruct (zlen key =? kKeyBytes) eqn:Ekl; cbn [negb] in Hcreate; [|done]. injection Hcreate as <- <-.
  unfold eo_put in Hput. cbn [eo_name eo_cipher] in Hput. rewrite (proj2 (slice_eqb_eq name name) eq_refl) in Hput. cbn [negb] in Hput.
  pose proof (gcm_cipher_ok key salt chunk_bytes object_id gcm_laws Hcb) as Hok. split.
  - by rewrite (sealed_physical_size _ _ _ Hok Hsm Hput).
  - intros chunk_bytes' salt' random' number. exists (gcm_cipher key salt chunk_bytes object_id). split.
    + cbn [p_open aes_provider]. unfold aes_open.
      rewrite decode_encode_metadata; [|done..|by apply (key_envelope random key)]. cbv iota.
      rewrite (key_inverse _ _ _ Hr Ek). cbn [result_bind]. by rewrite Ekl.
    + intros get_sync offset len Hget Hoff Hlen. by apply (eo_read_spec _ _ sealed).
Qed.
End Objects.

(** C28: nothing but sealed bytes is ever answered. Whatever the store returns, a read that succeeds with
    some bytes answers a part of chunks that, sealed under this object's id, at their own number and, on
    chunk zero, under the claimed length, are byte for byte what the store returned; associated data of
    another object, another chunk or, on chunk zero, another length is a different string. *)
Theorem encrypted_read_authentic o get_sync name offset len X :
  let c := eo_cipher o in
  let stride := u64 (c_chunk_bytes c + c_overhead c) in
  let first := offset / c_chunk_bytes c in
  cipher_ok c -> X <> [] -> eo_read o get_sync name offset len = Value X ->
  name = eo_name o /\
  exists fetched ps,
    get_sync (u64 (first * stride)) (zlen fetched) = Value fetched /\
    X = sub_bytes (concat ps) (offset - first * c_chunk_bytes c) (zlen X) /\
    forall i p, ps !! i = Some p ->
      let k := first + Z.of_nat i in
      c_seal c k p (chunk_aad (c_object_id c) k (eo_logical o)) =
        Value (sub_bytes fetched (u64 (Z.of_nat i * stride)) (u64 (chunk_plain_bytes k (eo_logical o) (c_chunk_bytes c) + c_overhead c))) /\
      forall id' k' l', is_u64 (c_object_id c) -> is_u64 k -> is_u64 (eo_logical o) -> is_u64 id' -> is_u64 k' -> is_u64 l' ->
        chunk_aad (c_object_id c) k (eo_logical o) = chunk_aad id' k' l' ->
        id' = c_object_id c /\ k' = k /\ (k = 0 -> l' = eo_logical o).
Proof.
  intros c stride first Hc Hne. unfold eo_read. destruct (slice_eqb name (eo_name o)) eqn:En; cbn [negb]; [|done].
  apply slice_eqb_eq in En. destruct (eo_logical o <=? offset) eqn:E1; [by intros [= <-]|].
  set (want := (if (len =? kReadToEnd) || _ then _ else _) : Z). destruct (want =? 0) eqn:E2; [by intros [= <-]|]. fold c stride first.
  set (last := u64 _ / _). set (amount := u64 (_ - u64 (first * stride))).
  destruct (get_sync (u64 (first * stride)) amount) as [fetched|] eqn:Eg; cbn [result_bind]; [|done].
  destruct (zlen fetched =? amount) eqn:Ea; cbn [negb]; [|done]. zbool.
  destruct (open_chunks _ _ _ _ _ _ _) as [plain|] eqn:Eo; cbn [result_bind]; [|done]. intros [= <-]. split; [done|].
  destruct (open_chunks_exact _ _ _ _ _ _ Hc _ _ Eo) as (ps & _ & -> & Hps).
  exists fetched, ps. split; [by rewrite Ea|]. split.
  { unfold sub_bytes. unfold zlen. rewrite Nat2Z.id, length_take. destruct (Nat.le_ge_cases (Z.to_nat want) (length (drop (Z.to_nat (offset - first * c_chunk_bytes c)) (concat ps)))) as [Hle|Hge].
    - by rewrite Nat.min_l.
    - by rewrite Nat.min_r, !take_ge. }
  intros i p Hp. split; [rewrite (Hps i p Hp); by rewrite Z.add_simpl_l|].
  intros id' k' l' H1 H2 H3 H4 H5 H6 E. destruct (chunk_aad_inj _ _ _ _ _ _ H1 H2 H3 H4 H5 H6 E) as (? & ? & Hl).
  split; [done|]. split; [done|]. intros Hk. by rewrite Hl.
Qed.

(** A toy cipher for the witnesses: the ciphertext is the plaintext, the tag is fixed. *)
Definition toy_gcm : Gcm :=
  {| gcm_encrypt _ _ _ p := Some (p, repeat x00 16);
     gcm_decrypt _ _ _ ct tag := if slice_eqb tag (repeat x00 16) then Value ct else Unexpected Corrupt |}.

#[export] Instance toy_gcm_laws : GcmLaws toy_gcm.
Proof.
  split; simpl; intros; simplify_eq; try done.
  destruct (slice_eqb tag _) eqn:E; [|done]. apply slice_eqb_eq in E. by simplify_eq.
Qed.

Definition toy_plaintext : bytes := [x61; x62; x63; x64; x65; x66; x67].
Definition toy_random : bytes := repeat x07 44.
Definition toy_keys : KeyManager := static_key_manager (gcm := toy_gcm) (repeat x01 32).

Lemma encrypted_object_reads_back_witness :
  exists c metadata sealed c',
    aes_create (gcm := toy_gcm) (keys := toy_keys) 3 9 toy_random 5 = Value (c, metadata) /\
    seal_object c toy_plaintext = Value sealed /\ zlen sealed = 55 /\
    aes_open (gcm := toy_gcm) (keys := toy_keys) 77 metadata = Value c' /\
    eo_read {| eo_cipher := c'; eo_name := [x6f]; eo_logical := 7 |} (fun off n => Value (sub_bytes sealed off n)) [x6f] 2 3 =
      Value [x63; x64; x65].
Proof.
  set (c := gcm_cipher (gcm := toy_gcm) (take 32 toy_random) 9 3 5).
  destruct (encrypted_object_reads_back (gcm := toy_gcm) (keys := toy_keys) _ (static_key_laws (gcm := toy_gcm) (repeat x01 32) _) 3 9 toy_random 5 c
              (encode_metadata 9 3 5 (take 12 (drop 32 toy_random) ++ take 32 toy_random ++ repeat x00 16)) [x6f] toy_plaintext
              [x61; x62; x63; x00; x00; x00; x00; x00; x00; x00; x00; x00; x00; x00; x00; x00; x00; x00; x00;
               x64; x65; x66; x00; x00; x00; x00; x00; x00; x00; x00; x00; x00; x00; x00; x00; x00; x00; x00;
               x67; x00; x00; x00; x00; x00; x00; x00; x00; x00; x00; x00; x00; x00; x00; x00; x00])
    as [Hsize Hread]; [lia|lia|done|done|reflexivity|reflexivity|vm_compute; reflexivity|].
  destruct (Hread 3 9 toy_random 77) as (c' & Hopen & Hget). eexists _, _, _, c'.
  split; [reflexivity|]. split; [vm_compute; reflexivity|]. split; [done|]. split; [exact Hopen|].
  rewrite Hget; [reflexivity|done|done|done].
Defined.

Lemma encrypted_read_authentic_witness :
  exists fetched ps, sub_bytes (concat ps) 2 3 = [x63; x64; x65] /\
    c_seal (gcm_cipher (gcm := toy_gcm) [] 9 3 5) 0 (default [] (ps !! 0%nat)) (chunk_aad 5 0 7) = Value (sub_bytes fetched 0 19).
Proof.
  destruct (encrypted_read_authentic {| eo_cipher := gcm_cipher (gcm := toy_gcm) [] 9 3 5; eo_name := [x6f]; eo_logical := 7 |}
              (fun off n => Value (sub_bytes [x61; x62; x63; x00; x00; x00; x00; x00; x00; x00; x00; x00; x00; x00; x00; x00; x00; x00; x00;
               x64; x65; x66; x00; x00; x00; x00; x00; x00; x00; x00; x00; x00; x00; x00; x00; x00; x00; x00] off n))
              [x6f] 2 3 [x63; x64; x65]) as (_ & fetched & ps & Hget & HX & Hps).
  - apply gcm_cipher_ok; [apply _|lia].
  - done.
  - vm_compute. reflexivity.
  - injection Hget as Hget. destruct ps as [|p ps]; [done|]. exists fetched, (p :: ps). split; [exact (eq_sym HX)|].
    apply (Hps 0%nat p eq_refl).
Defined.
