(* ===== verification/Names.v ===== *)
(** * Names and addresses

    The decimal numerals the engine spells its objects with: [std::to_string] and ["%012llu"] of
    [src/version/manifest_payload.cpp], [src/manifest/disk_manifest_catalog.cpp] and
    [src/db/db_impl.cpp], and the parsers that read them back. *)

From S2P Require Import Prelude Slice.

(** ** Definitions *)

Definition digit (d : Z) : byte := bz (48 + d).

(** [std::to_string] of a 64-bit number: twenty digits are enough. *)
Fixpoint decimal (fuel : nat) (v : Z) : bytes :=
  match fuel with
  | O => []
  | S fuel' => if v <? 10 then [digit v] else decimal fuel' (v / 10) ++ [digit (v mod 10)]
  end.

Definition to_string (v : Z) : bytes := decimal 20 v.

(** ["%012llu"]: padded with zeros to twelve digits. *)
Definition pad12 (s : bytes) : bytes := replicate (12 - length s) (digit 0) ++ s.

Definition padded (v : Z) : bytes := pad12 (to_string v).

Definition is_digit (c : byte) : bool := (48 <=? zb c) && (zb c <=? 57).

(** ["snap#"], ["edit#"] and ["#"]. *)
Definition kSnap : bytes := [x73; x6e; x61; x70; x23].
Definition kEdit : bytes := [x65; x64; x69; x74; x23].
Definition kHash : byte := x23.

Definition snapshot_address (generation : Z) : bytes := kSnap ++ padded generation.

Definition edit_address (generation seq : Z) : bytes := kEdit ++ padded generation ++ [kHash] ++ padded seq.

(** [".sst"]. *)
Definition kSstSuffix : bytes := [x2e; x73; x73; x74].

Definition sst_object_name (file_number : Z) : bytes := padded file_number ++ kSstSuffix.

(** The loop of [sst_file_number], which wraps, and of [parse_u64], which refuses to. *)
Fixpoint digits_wrap (number : Z) (s : bytes) : option Z :=
  match s with
  | [] => Some number
  | c :: rest => if is_digit c then digits_wrap (u64 (u64 (number * 10) + (zb c - 48))) rest else None
  end.

Definition sst_file_number (name : bytes) : option Z :=
  let n := (length name - length kSstSuffix)%nat in
  if negb (Nat.leb (length kSstSuffix) (length name) && slice_eqb (drop n name) kSstSuffix) then None
  else let digits := take n name in
    if negb (Nat.eqb (length digits) 12) then None else digits_wrap 0 digits.

Fixpoint parse_digits (value : Z) (s : bytes) : option Z :=
  match s with
  | [] => Some value
  | c :: rest =>
      if negb (is_digit c) then None
      else if (2 ^ 64 - 1 - (zb c - 48)) / 10 <? value then None
      else parse_digits (u64 (value * 10 + (zb c - 48))) rest
  end.

Definition parse_u64 (s : bytes) : option Z := if bool_decide (s = []) then None else parse_digits 0 s.

(** [std::from_chars]: the longest run of digits at the front, refused when there is none or it is out of
    range. *)
Fixpoint digit_run (s : bytes) : bytes * bytes :=
  match s with
  | [] => ([], [])
  | c :: rest => if is_digit c then (c :: (digit_run rest).1, (digit_run rest).2) else ([], s)
  end.

Definition from_chars (s : bytes) : option (Z * bytes) :=
  let '(run, rest) := digit_run s in
  let! v := parse_u64 run in
  Some (v, rest).

(** The file names of [DiskManifestCatalog]. *)
Definition generation_name (generation : Z) : bytes := padded generation.

(** ["edit-"]. *)
Definition kEditPrefix : bytes := [x65; x64; x69; x74; x2d].

Definition edit_name (seq : Z) : bytes := kEditPrefix ++ padded seq.

(** ** A numeral has one value *)

Definition digits_value (s : bytes) : Z := fold_left (fun acc c => acc * 10 + (zb c - 48)) s 0.

Lemma zb_digit d : 0 <= d < 10 -> zb (digit d) = 48 + d.
Proof. intros Hd. unfold digit. apply bz_small. lia. Qed.

Lemma is_digit_digit d : 0 <= d < 10 -> is_digit (digit d) = true.
Proof. intros Hd. unfold is_digit. rewrite zb_digit by done. lia. Qed.

Lemma digits_value_snoc s c : digits_value (s ++ [c]) = digits_value s * 10 + (zb c - 48).
Proof. unfold digits_value. by rewrite fold_left_app. Qed.

Lemma decimal_spec fuel : forall v, 0 <= v < 10 ^ Z.of_nat fuel ->
  digits_value (decimal fuel v) = v /\ Forall (fun c => is_digit c = true) (decimal fuel v) /\ (length (decimal fuel v) <= fuel)%nat /\
  (forall m, v < 10 ^ Z.of_nat (S m) -> (length (decimal fuel v) <= S m)%nat) /\ ((fuel = 0 \/ 0 < length (decimal fuel v)))%nat.
Proof.
  induction fuel as [|fuel IH]; intros v Hv; cbn [decimal].
  - simpl in *. split; [unfold digits_value; simpl; lia|]. split; [constructor|]. split; [lia|]. split; [lia|lia].
  - rewrite Nat2Z.inj_succ, Z.pow_succ_r in Hv by lia. destruct (Z.ltb_spec v 10) as [Hs|Hs].
    + unfold digits_value. simpl fold_left. rewrite zb_digit by lia. split; [lia|]. split; [constructor; [apply is_digit_digit; lia|constructor]|].
      simpl. split; [lia|]. split; [lia|lia].
    + destruct (IH (v / 10)) as (E & Hd & Hl & Hm & Hpos).
      { split; [apply Z.div_pos; lia|apply Z.div_lt_upper_bound; lia]. }
      pose proof (Z.mod_pos_bound v 10). rewrite digits_value_snoc, E, zb_digit by lia.
      split; [pose proof (Z.div_mod v 10); lia|]. split; [apply Forall_app; split; [done|constructor; [apply is_digit_digit; lia|constructor]]|].
      rewrite length_app. simpl. split; [lia|]. split; [|lia]. intros [|m] Hm'.
      * simpl in Hm'. lia.
      * assert (v / 10 < 10 ^ Z.of_nat (S m)).
        { apply Z.div_lt_upper_bound; [lia|]. rewrite (Nat2Z.inj_succ (S m)), Z.pow_succ_r in Hm' by lia. lia. }
        specialize (Hm m). lia.
Qed.

Lemma digits_value_zeros n s : digits_value (replicate n (digit 0) ++ s) = digits_value s.
Proof. unfold digits_value. rewrite fold_left_app. f_equal. induction n as [|n IH]; [done|]. cbn [replicate fold_left]. rewrite zb_digit by lia. apply IH. Qed.

Lemma to_string_spec v : is_u64 v ->
  digits_value (to_string v) = v /\ Forall (fun c => is_digit c = true) (to_string v) /\ (0 < length (to_string v) <= 20)%nat.
Proof.
  intros Hv. destruct (decimal_spec 20 v) as (E & Hd & Hl & _ & Hp); [unfold is_u64 in Hv; lia|].
  split; [done|]. split; [done|]. unfold to_string in *. lia.
Qed.

Lemma padded_spec v : is_u64 v ->
  digits_value (padded v) = v /\ Forall (fun c => is_digit c = true) (padded v) /\ (12 <= length (padded v) <= 20)%nat.
Proof.
  intros Hv. destruct (to_string_spec v Hv) as (E & Hd & Hl). unfold padded, pad12. rewrite digits_value_zeros. split; [done|].
  split; [|rewrite length_app, length_replicate; lia]. apply Forall_app. split; [|done]. apply Forall_replicate. apply is_digit_digit. lia.
Qed.

Lemma padded_length v : 0 <= v < 10 ^ 12 -> length (padded v) = 12%nat.
Proof.
  intros Hv. destruct (decimal_spec 20 v) as (_ & _ & _ & Hm & _); [lia|]. specialize (Hm 11%nat). fold (to_string v) in Hm.
  unfold padded, pad12. rewrite length_app, length_replicate. assert (length (to_string v) <= 12)%nat by (apply Hm; lia). lia.
Qed.

Lemma padded_inj v w : is_u64 v -> is_u64 w -> padded v = padded w -> v = w.
Proof. intros Hv Hw E. rewrite <- (proj1 (padded_spec v Hv)), E. apply (padded_spec w Hw). Qed.

(** ** Addresses are unambiguous *)

(** Two runs of digits before the same separator. *)
Lemma digits_separated s t sep u w : is_digit sep = false ->
  Forall (fun c => is_digit c = true) s -> Forall (fun c => is_digit c = true) t -> s ++ sep :: u = t ++ sep :: w -> s = t /\ u = w.
Proof.
  intros Hsep. revert t. induction s as [|c s IH]; intros [|d t] Hs Ht E; simpl in E; simplify_eq.
  - done.
  - apply Forall_cons in Ht as [Ht _]. congruence.
  - apply Forall_cons in Hs as [Hs _]. congruence.
  - apply Forall_cons in Hs as [_ Hs]. apply Forall_cons in Ht as [_ Ht]. destruct (IH t Hs Ht) as [-> ->]; done.
Qed.

Lemma edit_address_inj g s g' s' : is_u64 g -> is_u64 s -> is_u64 g' -> is_u64 s' ->
  edit_address g s = edit_address g' s' -> g = g' /\ s = s'.
Proof.
  intros Hg Hs Hg' Hs' E. unfold edit_address in E. apply app_inv_head in E. simpl in E. apply digits_separated in E as [E1 E2].
  - split; by apply padded_inj.
  - done.
  - by apply padded_spec.
  - by apply padded_spec.
Qed.

Lemma snapshot_address_inj g g' : is_u64 g -> is_u64 g' -> snapshot_address g = snapshot_address g' -> g = g'.
Proof. intros Hg Hg' E. unfold snapshot_address in E. apply app_inv_head in E. by apply padded_inj. Qed.

Lemma snapshot_edit_address g g' s : snapshot_address g <> edit_address g' s.
Proof. unfold snapshot_address, edit_address. simpl. intros [=]. Qed.

(** ** Parsers invert printers *)

Lemma fold_digits_shift s : forall a, 0 <= a -> Forall (fun c => is_digit c = true) s ->
  a <= fold_left (fun acc c => acc * 10 + (zb c - 48)) s a.
Proof.
  induction s as [|c s IH]; intros a Ha Hs; cbn [fold_left]; [lia|]. apply Forall_cons in Hs as [Hc Hs].
  unfold is_digit in Hc. zbool. transitivity (a * 10 + (zb c - 48)); [lia|]. apply IH; [lia|done].
Qed.

Lemma digits_wrap_spec s : forall a, 0 <= a -> Forall (fun c => is_digit c = true) s ->
  fold_left (fun acc c => acc * 10 + (zb c - 48)) s a < 2 ^ 64 -> digits_wrap a s = Some (fold_left (fun acc c => acc * 10 + (zb c - 48)) s a).
Proof.
  induction s as [|c s IH]; intros a Ha Hs Hlt; cbn [digits_wrap fold_left] in *; [done|]. apply Forall_cons in Hs as [Hc Hs].
  rewrite Hc. unfold is_digit in Hc. zbool. pose proof (fold_digits_shift s (a * 10 + (zb c - 48)) ltac:(lia) Hs).
  rewrite (u64_small (a * 10)) by (split; lia). rewrite u64_small by (split; lia). apply IH; [lia|done|done].
Qed.

Lemma parse_digits_spec s : forall a, 0 <= a -> Forall (fun c => is_digit c = true) s ->
  fold_left (fun acc c => acc * 10 + (zb c - 48)) s a < 2 ^ 64 -> parse_digits a s = Some (fold_left (fun acc c => acc * 10 + (zb c - 48)) s a).
Proof.
  induction s as [|c s IH]; intros a Ha Hs Hlt; cbn [parse_digits fold_left] in *; [done|]. apply Forall_cons in Hs as [Hc Hs].
  rewrite Hc. unfold is_digit in Hc. zbool. pose proof (fold_digits_shift s (a * 10 + (zb c - 48)) ltac:(lia) Hs). cbn [negb].
  destruct (Z.ltb_spec ((2 ^ 64 - 1 - (zb c - 48)) / 10) a) as [Hbad|Hok].
  { exfalso. pose proof (Z.div_le_lower_bound (2 ^ 64 - 1 - (zb c - 48)) 10 a). lia. }
  rewrite u64_small by (split; lia). apply IH; [lia|done|done].
Qed.

Lemma parse_padded v : is_u64 v -> parse_u64 (padded v) = Some v.
Proof.
  intros Hv. destruct (padded_spec v Hv) as (E & Hd & Hl). unfold parse_u64. rewrite bool_decide_eq_false_2 by (intros E0; rewrite E0 in Hl; simpl in Hl; lia).
  unfold digits_value in E. rewrite parse_digits_spec; rewrite ?E; [done|lia|done|unfold is_u64 in Hv; lia].
Qed.

Lemma parse_to_string v : is_u64 v -> parse_u64 (to_string v) = Some v.
Proof.
  intros Hv. destruct (to_string_spec v Hv) as (E & Hd & Hl). unfold parse_u64. rewrite bool_decide_eq_false_2 by (intros E0; rewrite E0 in Hl; simpl in Hl; lia).
  unfold digits_value in E. rewrite parse_digits_spec; rewrite ?E; [done|lia|done|unfold is_u64 in Hv; lia].
Qed.

Lemma digit_run_app s rest : Forall (fun c => is_digit c = true) s ->
  match rest with [] => True | c :: _ => is_digit c = false end -> digit_run (s ++ rest) = (s, rest).
Proof.
  intros Hs Hr. induction Hs as [|c s Hc Hs IH]; cbn [app digit_run].
  - destruct rest as [|c rest]; [done|]. cbn [digit_run]. by rewrite Hr.
  - by rewrite Hc, IH.
Qed.

Lemma from_chars_to_string v rest : is_u64 v -> match rest with [] => True | c :: _ => is_digit c = false end ->
  from_chars (to_string v ++ rest) = Some (v, rest).
Proof.
  intros Hv Hr. unfold from_chars. rewrite digit_run_app; [|by apply to_string_spec|done]. by rewrite parse_to_string.
Qed.

Lemma from_chars_padded v : is_u64 v -> from_chars (padded v) = Some (v, []).
Proof.
  intros Hv. unfold from_chars. rewrite <- (app_nil_r (padded v)), digit_run_app; [|by apply padded_spec|done]. by rewrite parse_padded.
Qed.

(** A file number within twelve digits is read back from its object's name. *)
Lemma sst_file_number_name v : 0 <= v < 10 ^ 12 -> sst_file_number (sst_object_name v) = Some v.
Proof.
  intros Hv. assert (is_u64 v) as Hu by (unfold is_u64; lia). destruct (padded_spec v Hu) as (E & Hd & _). pose proof (padded_length v Hv) as Hl.
  unfold sst_file_number, sst_object_name. rewrite length_app, Hl. change (length kSstSuffix) with 4%nat. change (12 + 4 - 4)%nat with 12%nat.
  rewrite drop_app_length', take_app_length' by done. rewrite (proj2 (slice_eqb_eq _ _) eq_refl). cbn [Nat.leb andb negb]. rewrite Hl. cbn [Nat.eqb negb].
  unfold digits_value in E. rewrite digits_wrap_spec; rewrite ?E; [done|lia|done|lia].
Qed.
