(* ===== verification/ManifestPayload.v ===== *)
(** * Manifest payloads

    [src/version/manifest_payload.cpp]: the frame a snapshot or an edit gets on its way to the catalog,
    compressed and then sealed in chunks that authenticate the payload's address and, on chunk zero, the
    whole header. Zstandard is the [CodecOps] of [Framing]; the ciphers are those of [Crypto]. *)

From S2P Require Import Prelude Slice Format Framing Crypto Names.

(** ** Definitions *)

Definition kMagic : Z := 39209797.  (* 0x02564B45 *)
Definition kHeaderVersion : Z := 1.
Definition kCodecNone : Z := 0.
Definition kCodecZstd : Z := 1.
Definition kMaxPayloadBytes : Z := 256 * 2 ^ 20.
Definition kHeaderBytes : Z := 32.

Definition packed_chunk_count (logical chunk_bytes : Z) : Z :=
  if logical =? 0 then 0 else u64 (logical + chunk_bytes - 1) / chunk_bytes.

Definition packed_chunk_bytes (chunk logical chunk_bytes : Z) : Z :=
  let remaining := u64 (logical - u64 (chunk * chunk_bytes)) in
  if remaining <? chunk_bytes then remaining else chunk_bytes.

Definition payload_aad (chunk : Z) (address header : bytes) : bytes :=
  put_fixed64 chunk ++ address ++ (if chunk =? 0 then header else []).

(** The fixed 32 bytes of the frame, and all of it that is not sealed. *)
Definition payload_fixed (provider_len metadata_len codec plain_len packed_len : Z) : bytes :=
  put_fixed32 kMagic ++ [bz (Z.land kHeaderVersion 255); bz (Z.shiftr kHeaderVersion 8);
                         bz (Z.land provider_len 255); bz (Z.shiftr provider_len 8)] ++
  put_fixed32 (u32 metadata_len) ++ put_fixed32 codec ++ put_fixed64 plain_len ++ put_fixed64 packed_len.

Definition payload_header (provider metadata : bytes) (codec plain_len packed_len : Z) : bytes :=
  payload_fixed (zlen provider) (zlen metadata) codec plain_len packed_len ++ provider ++ metadata.

Section Payload.
Context `{ops : CodecOps}.

Definition compress (plaintext : bytes) : Result (Z * bytes) :=
  match zstd_compress plaintext with
  | None => Unexpected Io
  | Some out => if zlen plaintext <=? zlen out then Value (kCodecNone, plaintext) else Value (kCodecZstd, out)
  end.

Definition decompress (packed : bytes) (codec plain_len : Z) : Result bytes :=
  if codec =? kCodecNone then if negb (zlen packed =? plain_len) then Unexpected Corrupt else Value packed
  else if negb (codec =? kCodecZstd) then Unexpected Corrupt
  else if plain_len =? 0 then Value []
  else match zstd_decompress packed plain_len with
       | Some out => if negb (zlen out =? plain_len) then Unexpected Corrupt else Value out
       | None => Unexpected Corrupt
       end.

Fixpoint seal_packed (c : ObjectCipher) (aad : Z -> bytes) (packed : bytes) (k : Z) (n : nat) : Result bytes :=
  match n with
  | O => Value []
  | S n' =>
      let start := u64 (k * c_chunk_bytes c) in
      let? sealed := c_seal c k (sub_bytes packed start (packed_chunk_bytes k (zlen packed) (c_chunk_bytes c))) (aad k) in
      let? rest := seal_packed c aad packed (k + 1) n' in
      Value (sealed ++ rest)
  end.

Fixpoint open_packed (c : ObjectCipher) (aad : Z -> bytes) (body : bytes) (packed_len k : Z) (n : nat) : Result bytes :=
  match n with
  | O => Value []
  | S n' =>
      let length := u64 (packed_chunk_bytes k packed_len (c_chunk_bytes c) + c_overhead c) in
      let start := u64 (k * u64 (c_chunk_bytes c + c_overhead c)) in
      let? plain := c_open c k (sub_bytes body start length) (aad k) in
      let? rest := open_packed c aad body packed_len (k + 1) n' in
      Value (plain ++ rest)
  end.

(** [ManifestPayload::seal]. *)
Definition payload_seal (registry : ProviderRegistry) (generation : Z) (address plaintext : bytes) : Result bytes :=
  match primary_provider registry with
  | None => Unexpected Config
  | Some provider =>
      let? (codec, packed) := compress plaintext in
      let? (c, metadata) := p_create provider generation in
      let chunks := packed_chunk_count (zlen packed) (c_chunk_bytes c) in
      let header := payload_header (primary registry) metadata codec (zlen plaintext) (zlen packed) in
      let? body := seal_packed c (fun k => payload_aad k address header) packed 0 (Z.to_nat chunks) in
      Value (header ++ body)
  end.

(** [ManifestPayload::open], with the provider id it reports. *)
Definition payload_open (registry : ProviderRegistry) (generation : Z) (address framed : bytes) : Result (bytes * bytes) :=
  if (zlen framed <? kHeaderBytes) || negb (decode_fixed32 framed =? kMagic) then Unexpected Corrupt
  else
    let header_version := Z.lor (byte_at framed 4) (Z.shiftl (byte_at framed 5) 8) in
    if negb (header_version =? kHeaderVersion) then Unexpected Unsupported
    else
      let provider_len := Z.lor (byte_at framed 6) (Z.shiftl (byte_at framed 7) 8) in
      let metadata_len := decode_fixed32 (drop 8 framed) in
      let codec := decode_fixed32 (drop 12 framed) in
      let plain_len := decode_fixed64 (drop 16 framed) in
      let packed_len := decode_fixed64 (drop 24 framed) in
      if (kMaxPayloadBytes <? plain_len) || (kMaxPayloadBytes <? packed_len) then Unexpected Corrupt
      else if zlen framed <? kHeaderBytes + provider_len + metadata_len then Unexpected Corrupt
      else
        let id := sub_bytes framed kHeaderBytes provider_len in
        if bool_decide (id = []) && negb (bool_decide (primary registry = [])) && negb (accept_plaintext registry)
        then Unexpected Config
        else
          match find_provider (providers registry) id with
          | None => Unexpected Config
          | Some provider =>
              let? c := p_open provider generation (sub_bytes framed (kHeaderBytes + provider_len) metadata_len) in
              let chunks := packed_chunk_count packed_len (c_chunk_bytes c) in
              let expected := u64 (packed_len + u64 (chunks * c_overhead c)) in
              let body := kHeaderBytes + provider_len + metadata_len in
              if negb (zlen framed - body =? expected) then Unexpected Corrupt
              else
                let header := take (Z.to_nat body) framed in
                let? packed := open_packed c (fun k => payload_aad k address header) (drop (Z.to_nat body) framed) packed_len 0 (Z.to_nat chunks) in
                let? plain := decompress packed codec plain_len in
                Value (plain, id)
          end.
End Payload.

(** ** Lemmas *)

(** What a payload relies on from a provider: the metadata gives the cipher back. *)
Class ProviderLaws (p : EncryptionProvider) : Prop := {
  provider_cipher : forall id c metadata, is_u64 id -> p_create p id = Value (c, metadata) -> cipher_ok c;
  provider_inverse : forall id c metadata, is_u64 id -> p_create p id = Value (c, metadata) -> p_open p id metadata = Value c
}.

#[export] Instance no_encryption_laws : ProviderLaws no_encryption_provider.
Proof. split; intros id c metadata _ [= <- <-]; [apply no_encryption_ok|done]. Qed.

Lemma decompress_compress `{ops : CodecOps, !CodecLaws ops} p codec packed :
  compress p = Value (codec, packed) -> decompress packed codec (zlen p) = Value p.
Proof.
  unfold compress, decompress. destruct (zstd_compress p) as [out|] eqn:E; [|done].
  destruct (Z.leb_spec (zlen p) (zlen out)); intros [= <- <-].
  - by rewrite !Z.eqb_refl.
  - change (kCodecZstd =? kCodecNone) with false. cbn [negb]. change (kCodecZstd =? kCodecZstd) with true. cbn [negb].
    destruct (Z.eqb_spec (zlen p) 0) as [E0|_]; [by destruct p|]. rewrite (zstd_inverse _ _ E). by rewrite Z.eqb_refl.
Qed.

Lemma compress_bound `{ops : CodecOps} p codec packed : compress p = Value (codec, packed) -> zlen packed <= zlen p /\ is_u32 codec.
Proof.
  unfold compress. destruct (zstd_compress p) as [out|]; [|done]. destruct (Z.leb_spec (zlen p) (zlen out)); intros [= <- <-];
    (split; [lia|unfold is_u32, kCodecNone, kCodecZstd; lia]).
Qed.

(** The chunk arithmetic is the one of [Crypto] wherever a chunk exists. *)
Section Chunks.
Context (c : ObjectCipher) (c_ok : cipher_ok c) (P : bytes) (small : object_small c (zlen P)).

Lemma packed_count : packed_chunk_count (zlen P) (c_chunk_bytes c) = chunk_count (zlen P) (c_chunk_bytes c).
Proof.
  unfold packed_chunk_count. destruct (Z.eqb_spec (zlen P) 0) as [->|]; [|done]. unfold chunk_count. pose proof (C_pos c c_ok).
  pose proof (co_chunk _ c_ok). rewrite u64_small by (split; lia). symmetry. apply Z.div_small. lia.
Qed.

Lemma packed_bytes k : 0 <= k < pieces c P -> packed_chunk_bytes k (zlen P) (c_chunk_bytes c) = chunk_plain_bytes k (zlen P) (c_chunk_bytes c).
Proof.
  intros Hk. destruct (chunk_plain_piece c c_ok P small k Hk) as [-> E]. unfold packed_chunk_bytes. rewrite E.
  destruct (piece_range c c_ok P small k Hk) as (H1 & H2 & H3 & H4 & H5). pose proof (C_pos c c_ok). pose proof (T_nonneg c c_ok).
  pose proof (pieces_le c c_ok P). unfold object_small in small.
  assert (0 <= (zlen P / c_chunk_bytes c + 1) * c_overhead c) by (apply Z.mul_nonneg_nonneg; lia).
  rewrite u64_small by (split; lia). unfold piece_len. destruct (Z.ltb_spec (zlen P - k * c_chunk_bytes c) (c_chunk_bytes c)); lia.
Qed.

Lemma seal_packed_chunks aad n : forall k, 0 <= k -> k + Z.of_nat n <= pieces c P -> seal_packed c aad P k n = seal_chunks c aad P k n.
Proof.
  induction n as [|n IH]; intros k Hk Hn; cbn [seal_packed seal_chunks]; [done|]. rewrite packed_bytes by lia.
  destruct (c_seal c k _ (aad k)) as [s|]; [|done]. cbn [result_bind]. by rewrite IH by lia.
Qed.

Lemma open_packed_chunks aad F n : forall k, 0 <= k -> k + Z.of_nat n <= pieces c P ->
  open_packed c aad F (zlen P) k n = open_chunks c aad F (zlen P) 0 k n.
Proof.
  induction n as [|n IH]; intros k Hk Hn; cbn [open_packed open_chunks]; [done|]. rewrite packed_bytes, Z.sub_0_r by lia.
  destruct (c_open c k _ (aad k)) as [s|]; [|done]. cbn [result_bind]. by rewrite IH by lia.
Qed.

Lemma open_seal_packed aad S : seal_packed c aad P 0 (Z.to_nat (packed_chunk_count (zlen P) (c_chunk_bytes c))) = Value S ->
  open_packed c aad S (zlen P) 0 (Z.to_nat (packed_chunk_count (zlen P) (c_chunk_bytes c))) = Value P /\
  zlen S = u64 (zlen P + u64 (packed_chunk_count (zlen P) (c_chunk_bytes c) * c_overhead c)).
Proof.
  intros HS. rewrite packed_count in *. pose proof (chunk_count_pieces c c_ok P small) as E. pose proof (pieces_le c c_ok P).
  rewrite E in *. rewrite seal_packed_chunks in HS by lia. rewrite open_packed_chunks by lia. split.
  - destruct (seal_chunks_layout c c_ok P small aad (Z.to_nat (pieces c P)) 0 S ltac:(lia) ltac:(lia) HS) as [_ Hin].
    rewrite (open_chunks_layout c c_ok P small aad); [|lia|lia|].
    + rewrite Z2Nat.id by lia. f_equal. pose proof (C_pos c c_ok). unfold plain_end. rewrite Z.min_l by (pose proof (zlen_nonneg P); lia).
      rewrite Z.min_r; [rewrite Z.sub_0_r; apply sub_bytes_all|].
      destruct (Z.le_gt_cases (zlen P) (pieces c P * c_chunk_bytes c)) as [|Hgt]; [done|].
      pose proof (proj2 (pieces_bound c c_ok P (pieces c P))). lia.
    + intros j Hj. destruct (Hin j ltac:(lia)) as (s & Hs & _ & Hsub). by exists s.
  - rewrite (sealed_length c c_ok P small aad S HS). pose proof (T_nonneg c c_ok). pose proof (C_pos c c_ok). pose proof (zlen_nonneg P).
    unfold object_small in small.
    assert (0 <= pieces c P * c_overhead c <= (zlen P / c_chunk_bytes c + 1) * c_overhead c)
      by (split; [apply Z.mul_nonneg_nonneg; lia|apply Z.mul_le_mono_nonneg_r; lia]).
    rewrite !u64_small; [done|split; lia..|rewrite u64_small; split; lia].
Qed.
End Chunks.

(** ** The header reads back *)

Lemma fixed_length il ml codec pl kl : length (payload_fixed il ml codec pl kl) = 32%nat.
Proof. unfold payload_fixed. by rewrite !length_app, !length_put_fixed32, !length_put_fixed64. Qed.

Lemma header_length id metadata codec pl kl : zlen (payload_header id metadata codec pl kl) = kHeaderBytes + zlen id + zlen metadata.
Proof. unfold payload_header. rewrite !zlen_app. unfold zlen at 1. rewrite fixed_length. unfold kHeaderBytes. lia. Qed.

Lemma u16_bytes n : 0 <= n < 2 ^ 16 -> Z.lor (zb (bz (Z.land n 255))) (Z.shiftl (zb (bz (Z.shiftr n 8))) 8) = n.
Proof.
  intros Hn. change 255 with (Z.ones 8). rewrite Z.land_ones, Z.shiftr_div_pow2 by lia. rewrite !zb_bz, Z.shiftl_mul_pow2 by lia.
  change (2 ^ 8) with 256. rewrite Z.mod_mod by lia. rewrite (Z.mod_small (n / 256)).
  2:{ split; [apply Z.div_pos; lia|apply Z.div_lt_upper_bound; lia]. }
  change (n / 256 * 256) with (n / 256 * 2 ^ 8). rewrite <- Z.shiftl_mul_pow2 by lia. rewrite lor_shiftl_add.
  - change (2 ^ 8) with 256. pose proof (Z.div_mod n 256). lia.
  - lia.
  - change (2 ^ 8) with 256. apply Z.mod_pos_bound. lia.
Qed.

Lemma drop_sized {A} n (a b : list A) : length a = n -> drop n (a ++ b) = b.
Proof. intros <-. apply drop_app_length. Qed.

Lemma drop_after {A} n m (a b : list A) : length a = n -> (n <= m)%nat -> drop m (a ++ b) = drop (m - n) b.
Proof. intros <- Hm. by rewrite drop_app_ge. Qed.

Lemma take_zlen_app (a b : bytes) : take (Z.to_nat (zlen a)) (a ++ b) = a.
Proof. unfold zlen. rewrite Nat2Z.id. apply take_app_length. Qed.

Lemma drop_zlen_app (a b : bytes) : drop (Z.to_nat (zlen a)) (a ++ b) = b.
Proof. unfold zlen. rewrite Nat2Z.id. apply drop_app_length. Qed.

Lemma fixed_fields il ml codec pl kl rest :
  0 <= il < 2 ^ 16 -> is_u32 ml -> is_u32 codec -> is_u64 pl -> is_u64 kl ->
  let framed := payload_fixed il ml codec pl kl ++ rest in
  decode_fixed32 framed = kMagic /\ Z.lor (byte_at framed 4) (Z.shiftl (byte_at framed 5) 8) = kHeaderVersion /\
  Z.lor (byte_at framed 6) (Z.shiftl (byte_at framed 7) 8) = il /\ decode_fixed32 (drop 8 framed) = ml /\
  decode_fixed32 (drop 12 framed) = codec /\ decode_fixed64 (drop 16 framed) = pl /\ decode_fixed64 (drop 24 framed) = kl /\
  drop 32 framed = rest.
Proof.
  intros Hid Hm Hc Hpl Hkl framed. split_and!; [..|apply drop_sized, fixed_length]; unfold framed, payload_fixed; rewrite <- !app_assoc; set (flags := [_; _; _; _]).
  all: assert (forall n r, (n < 4)%nat -> byte_at (put_fixed32 kMagic ++ flags ++ r) (4 + n) = zb (nth n flags x00)) as Hflag
    by (intros n r Hn; unfold byte_at; rewrite app_nth2; rewrite length_put_fixed32; [|lia]; rewrite Nat.add_comm, Nat.add_sub; by rewrite app_nth1).
  all: assert (forall r, drop 8 (put_fixed32 kMagic ++ flags ++ r) = r) as H8
    by (intros r; rewrite (drop_after 4) by (apply length_put_fixed32 || lia); by apply drop_sized).
  - rewrite decode_put_fixed32. done.
  - change 4%nat with (4 + 0)%nat at 1. change 5%nat with (4 + 1)%nat. rewrite !Hflag by lia. apply (u16_bytes kHeaderVersion). unfold kHeaderVersion. lia.
  - change 6%nat with (4 + 2)%nat. change 7%nat with (4 + 3)%nat. rewrite !Hflag by lia. apply (u16_bytes il). lia.
  - rewrite H8, decode_put_fixed32, !u32_small; [done|done|by rewrite u32_small].
  - change 12%nat with (8 + 4)%nat. rewrite <- drop_drop, H8, drop_sized, decode_put_fixed32 by apply length_put_fixed32. by apply u32_small.
  - change 16%nat with (8 + 4 + 4)%nat. rewrite <- !drop_drop, H8, !drop_sized, decode_put_fixed64 by apply length_put_fixed32. by apply u64_small.
  - change 24%nat with (8 + 4 + 4 + 8)%nat. rewrite <- !drop_drop, H8, !drop_sized, decode_put_fixed64 by (apply length_put_fixed32 || apply length_put_fixed64).
    by apply u64_small.
Qed.

(** [payload_open] of a frame whose fixed part is whole, its lengths in bounds. *)
Lemma payload_open_fixed `{ops : CodecOps} registry generation address il ml codec pl kl rest :
  0 <= il < 2 ^ 16 -> is_u32 ml -> is_u32 codec -> 0 <= pl <= kMaxPayloadBytes -> 0 <= kl <= kMaxPayloadBytes ->
  payload_open registry generation address (payload_fixed il ml codec pl kl ++ rest) =
  if zlen rest <? il + ml then Unexpected Corrupt
  else
    let id := take (Z.to_nat il) rest in
    if bool_decide (id = []) && negb (bool_decide (primary registry = [])) && negb (accept_plaintext registry) then Unexpected Config
    else
      match find_provider (providers registry) id with
      | None => Unexpected Config
      | Some provider =>
          let? c := p_open provider generation (take (Z.to_nat ml) (drop (Z.to_nat il) rest)) in
          let chunks := packed_chunk_count kl (c_chunk_bytes c) in
          if negb (zlen rest - (il + ml) =? u64 (kl + u64 (chunks * c_overhead c))) then Unexpected Corrupt
          else
            let header := payload_fixed il ml codec pl kl ++ take (Z.to_nat (il + ml)) rest in
            let? packed := open_packed c (fun k => payload_aad k address header) (drop (Z.to_nat (il + ml)) rest) kl 0 (Z.to_nat chunks) in
            let? plain := decompress packed codec pl in
            Value (plain, id)
      end.
Proof.
  intros Hil Hml Hc Hpl Hkl. unfold kMaxPayloadBytes in *.
  destruct (fixed_fields il ml codec pl kl rest) as (F1 & F2 & F3 & F4 & F5 & F6 & F7 & F8); [done..|split; lia|split; lia|].
  pose proof (fixed_length il ml codec pl kl) as Hfl. set (fixed := payload_fixed il ml codec pl kl) in *.
  assert (zlen (fixed ++ rest) = kHeaderBytes + zlen rest) as Hlen by (rewrite zlen_app; unfold zlen at 1; rewrite Hfl; done).
  pose proof (zlen_nonneg rest). unfold is_u32 in Hml.
  unfold payload_open. rewrite F1, F2, F3, F4, F5, F6, F7, Hlen.
  change (kMagic =? kMagic) with true. change (kHeaderVersion =? kHeaderVersion) with true.
  destruct (Z.ltb_spec (kHeaderBytes + zlen rest) kHeaderBytes); [lia|]. cbn [negb orb]. unfold kMaxPayloadBytes.
  destruct (Z.ltb_spec (256 * 2 ^ 20) pl); [lia|]. destruct (Z.ltb_spec (256 * 2 ^ 20) kl); [lia|]. cbn [orb].
  replace (kHeaderBytes + zlen rest <? kHeaderBytes + il + ml) with (zlen rest <? il + ml) by lia.
  destruct (zlen rest <? il + ml); [done|].
  assert (sub_bytes (fixed ++ rest) kHeaderBytes il = take (Z.to_nat il) rest) as -> by (unfold sub_bytes; change (Z.to_nat kHeaderBytes) with 32%nat; by rewrite F8).
  assert (sub_bytes (fixed ++ rest) (kHeaderBytes + il) ml = take (Z.to_nat ml) (drop (Z.to_nat il) rest)) as ->.
  { unfold sub_bytes, kHeaderBytes. rewrite Z2Nat.inj_add, <- drop_drop by lia. change (Z.to_nat 32) with 32%nat. by rewrite F8. }
  destruct (bool_decide (take (Z.to_nat il) rest = []) && _ && _); [done|].
  destruct (find_provider _ _) as [provider|]; [|done]. destruct (p_open provider _ _) as [c|]; [|done]. cbn [result_bind].
  replace (kHeaderBytes + zlen rest - (kHeaderBytes + il + ml)) with (zlen rest - (il + ml)) by lia.
  assert (Z.to_nat (kHeaderBytes + il + ml) = (32 + Z.to_nat (il + ml))%nat) as -> by (unfold kHeaderBytes; lia).
  rewrite <- drop_drop, F8. assert (take (32 + Z.to_nat (il + ml)) (fixed ++ rest) = fixed ++ take (Z.to_nat (il + ml)) rest) as -> by (rewrite <- Hfl; apply take_app_add).
  done.
Qed.

Lemma value_inj {A} (a b : A) : Value a = Value b -> a = b.
Proof. congruence. Qed.

(** What [payload_seal] made, taken apart. *)
Lemma payload_seal_inv `{ops : CodecOps} registry provider generation address plaintext framed :
  primary_provider registry = Some provider -> payload_seal registry generation address plaintext = Value framed ->
  exists codec packed c metadata body,
    compress plaintext = Value (codec, packed) /\ p_create provider generation = Value (c, metadata) /\
    framed = payload_fixed (zlen (primary registry)) (zlen metadata) codec (zlen plaintext) (zlen packed) ++ primary registry ++ metadata ++ body /\
    seal_packed c (fun k => payload_aad k address (payload_header (primary registry) metadata codec (zlen plaintext) (zlen packed))) packed 0
      (Z.to_nat (packed_chunk_count (zlen packed) (c_chunk_bytes c))) = Value body.
Proof.
  intros Hprov. unfold payload_seal. rewrite Hprov.
  destruct (compress plaintext) as [[codec packed]|] eqn:Ec; cbn [result_bind]; [|done].
  destruct (p_create provider generation) as [[c metadata]|] eqn:Ep; cbn [result_bind]; [|done].
  destruct (seal_packed _ _ _ _ _) as [body|] eqn:Es; cbn [result_bind]; [|done]. intros E%value_inj. subst framed.
  exists codec, packed, c, metadata, body. split; [done|]. split; [done|]. split; [|done]. unfold payload_header. by rewrite <- !app_assoc.
Qed.

Section Opened.
Context `{ops : CodecOps, !CodecLaws ops} (registry : ProviderRegistry) (provider : EncryptionProvider) (generation : Z) (address plaintext framed : bytes).
Context (has_primary : primary_provider registry = Some provider) (laws : ProviderLaws provider) (id_small : zlen (primary registry) < 2 ^ 16).
Context (generation_ok : is_u64 generation).
Context (create_small : forall c metadata, p_create provider generation = Value (c, metadata) ->
  is_u32 (zlen metadata) /\ forall n, 0 <= n <= zlen plaintext -> object_small c n).
Context (plain_small : zlen plaintext <= kMaxPayloadBytes) (sealed : payload_seal registry generation address plaintext = Value framed).

Lemma payload_prefix_open n : payload_open registry generation address (take n framed) =
  if Nat.ltb n (length framed) then Unexpected Corrupt else Value (plaintext, primary registry).
Proof.
  destruct (payload_seal_inv _ _ _ _ _ _ has_primary sealed) as (codec & packed & c & metadata & body & Ec & Ep & -> & Es).
  destruct (create_small c metadata Ep) as [Hmd Hsmall]. destruct (compress_bound _ _ _ Ec) as [Hpk Hcodec].
  pose proof (zlen_nonneg packed) as Hpk0. pose proof (zlen_nonneg plaintext). specialize (Hsmall (zlen packed) ltac:(lia)).
  pose proof (provider_cipher _ _ _ generation_ok Ep) as Hok. destruct (open_seal_packed c Hok packed Hsmall _ _ Es) as [Hopen Hbody]. clear Es.
  set (id := primary registry) in *. pose proof (zlen_nonneg id) as Hid0. pose proof (zlen_nonneg metadata) as Hmd0.
  pose proof (fixed_length (zlen id) (zlen metadata) codec (zlen plaintext) (zlen packed)) as Hfl.
  destruct (Nat.lt_ge_cases n 32) as [Hn|Hn].
  { destruct (Nat.ltb_spec n (length (payload_fixed (zlen id) (zlen metadata) codec (zlen plaintext) (zlen packed) ++ id ++ metadata ++ body))) as [_|Hge];
      [|rewrite length_app, Hfl in Hge; lia].
    unfold payload_open. destruct (Z.ltb_spec (zlen (take n (payload_fixed (zlen id) (zlen metadata) codec (zlen plaintext) (zlen packed) ++ id ++ metadata ++ body))) kHeaderBytes) as [_|Hge];
      [done|]. unfold zlen at 1, kHeaderBytes in Hge. rewrite length_take in Hge. lia. }
  replace n with (length (payload_fixed (zlen id) (zlen metadata) codec (zlen plaintext) (zlen packed)) + (n - 32))%nat by lia.
  rewrite take_app_add, payload_open_fixed; [|split; lia|done|done|lia|lia]. rewrite length_app.
  set (rest := id ++ metadata ++ body). set (m := (n - 32)%nat).
  destruct (Z.ltb_spec (zlen (take m rest)) (zlen id + zlen metadata)) as [Hshort|Hlong].
  { destruct (Nat.ltb_spec (length (payload_fixed (zlen id) (zlen metadata) codec (zlen plaintext) (zlen packed)) + m)
      (length (payload_fixed (zlen id) (zlen metadata) codec (zlen plaintext) (zlen packed)) + length rest)) as [_|Hge]; [done|].
    exfalso. rewrite take_ge in Hshort by lia. unfold rest in Hshort. rewrite !zlen_app in Hshort. pose proof (zlen_nonneg body). lia. }
  assert (length id + length metadata <= m)%nat as Hm by (unfold zlen in Hlong; rewrite length_take in Hlong; lia).
  assert (take m rest = id ++ metadata ++ take (m - length id - length metadata) body) as ->.
  { unfold rest. rewrite take_app_ge by lia. rewrite take_app_ge by lia. done. }
  cbv zeta. rewrite drop_zlen_app, !take_zlen_app.
  replace (bool_decide (id = []) && negb (bool_decide (primary registry = []))) with false by (fold id; by destruct (bool_decide _)). cbn [andb].
  unfold primary_provider in has_primary. fold id in has_primary. rewrite has_primary.
  rewrite (provider_inverse _ _ _ generation_ok Ep). cbn [result_bind]. rewrite <- Hbody, !zlen_app.
  replace (zlen id + (zlen metadata + zlen (take (m - length id - length metadata) body)) - (zlen id + zlen metadata)) with
    (zlen (take (m - length id - length metadata) body)) by lia.
  unfold rest. rewrite !length_app.
  destruct (Nat.ltb_spec (length (payload_fixed (zlen id) (zlen metadata) codec (zlen plaintext) (zlen packed)) + m)
      (length (payload_fixed (zlen id) (zlen metadata) codec (zlen plaintext) (zlen packed)) + (length id + (length metadata + length body)))) as [Hlt|Hge].
  - destruct (Z.eqb_spec (zlen (take (m - length id - length metadata) body)) (zlen body)) as [E|_]; [|done].
    unfold zlen in E. rewrite length_take in E. lia.
  - rewrite take_ge by lia. rewrite Z.eqb_refl. cbn [negb].
    assert (Z.to_nat (zlen id + zlen metadata) = length (id ++ metadata)) as -> by (rewrite length_app; unfold zlen; lia).
    rewrite (app_assoc id), take_app_length, drop_app_length. fold (payload_header id metadata codec (zlen plaintext) (zlen packed)).
    rewrite Hopen. cbn [result_bind]. rewrite (decompress_compress _ _ _ Ec). done.
Qed.

(** A reader without the provider is told so, and not that the bytes are damaged. *)
Lemma payload_unregistered other g : find_provider (providers other) (primary registry) = None ->
  payload_open other g address framed = Unexpected Config.
Proof.
  intros Hno. destruct (payload_seal_inv _ _ _ _ _ _ has_primary sealed) as (codec & packed & c & metadata & body & Ec & Ep & -> & Es).
  destruct (create_small c metadata Ep) as [Hmd _]. destruct (compress_bound _ _ _ Ec) as [Hpk Hcodec].
  pose proof (zlen_nonneg packed) as Hpk0. pose proof (zlen_nonneg plaintext). pose proof (zlen_nonneg (primary registry)). pose proof (zlen_nonneg body).
  rewrite payload_open_fixed; [|split; lia|done|done|lia|lia]. rewrite !zlen_app.
  destruct (Z.ltb_spec (zlen (primary registry) + (zlen metadata + zlen body)) (zlen (primary registry) + zlen metadata)); [lia|].
  cbv zeta. rewrite take_zlen_app. destruct (_ && _); [done|]. by rewrite Hno.
Qed.
End Opened.

#[export] Instance aes_provider_laws {gcm : Gcm} {keys : KeyManager} chunk_bytes salt random :
  GcmLaws gcm -> KeyManagerLaws keys -> TCEq (bool_decide (0 < chunk_bytes < 2 ^ 64 /\ 0 <= salt < 2 ^ 32 /\ kRandomBytes <= zlen random)) true ->
  ProviderLaws (aes_provider chunk_bytes salt random).
Proof.
  intros Hg Hk Hb. apply TCEq_eq, bool_decide_eq_true_1 in Hb as (Hcb & Hs & Hr).
  split; intros id c metadata Hid E; cbn [p_create p_open aes_provider] in *; unfold aes_create in E;
    destruct (new_data_key random) as [[key envelope]|] eqn:Ek; cbn [result_bind] in E; try done;
    destruct (zlen key =? kKeyBytes) eqn:El; cbn [negb] in E; try done; injection E as <- <-.
  - by apply gcm_cipher_ok.
  - unfold aes_open. rewrite decode_encode_metadata; [|done..|by eapply key_envelope]. cbv iota.
    rewrite (key_inverse _ _ _ Hr Ek). cbn [result_bind]. by rewrite El.
Qed.

(** ** Properties *)

(** C26: a manifest payload of at most 256 MiB opens to what was sealed, at its address; cut short at any byte it is
    [Corrupt], which replay takes for a torn write; and where the provider that sealed it is not
    registered it is [Config], never mistaken for damage. The primary provider gives its ciphers back, its id is below
    64 KiB and its metadata below 4 GiB, and the codec inverts itself. *)
Theorem manifest_payload_opens (ops : CodecOps) registry provider generation address plaintext framed :
  CodecLaws ops -> primary_provider registry = Some provider -> ProviderLaws provider -> zlen (primary registry) < 2 ^ 16 -> is_u64 generation ->
  (forall c metadata, p_create provider generation = Value (c, metadata) ->
     is_u32 (zlen metadata) /\ forall n, 0 <= n <= zlen plaintext -> object_small c n) ->
  zlen plaintext <= kMaxPayloadBytes -> payload_seal registry generation address plaintext = Value framed ->
  payload_open registry generation address framed = Value (plaintext, primary registry) /\
  (forall n, (n < length framed)%nat -> payload_open registry generation address (take n framed) = Unexpected Corrupt) /\
  (forall other g, find_provider (providers other) (primary registry) = None -> payload_open other g address framed = Unexpected Config).
Proof.
  intros Hl Hp Hlaws Hid Hg Hc Hlen Hs. split_and!.
  - pose proof (payload_prefix_open registry provider generation address plaintext framed Hp Hlaws Hid Hg Hc Hlen Hs (length framed)) as E.
    by rewrite firstn_all, Nat.ltb_irrefl in E.
  - intros n Hn. rewrite (payload_prefix_open registry provider generation address plaintext framed Hp Hlaws Hid Hg Hc Hlen Hs n).
    by destruct (Nat.ltb_spec n (length framed)); [|lia].
  - intros other g. by apply (payload_unregistered registry provider generation address plaintext).
Qed.

(** A registry with the toy cipher under the id ["k"], chunks of four bytes. *)
Definition toy_registry : ProviderRegistry :=
  {| providers := [([x6b], aes_provider (gcm := toy_gcm) (keys := toy_keys) 4 9 toy_random); ([], no_encryption_provider)];
     primary := [x6b]; accept_plaintext := false |}.

Lemma manifest_payload_opens_witness :
  exists framed, payload_seal (ops := copy_codec) toy_registry 3 (edit_address 3 1) toy_plaintext = Value framed /\
    payload_open (ops := copy_codec) toy_registry 3 (edit_address 3 1) framed = Value (toy_plaintext, [x6b]) /\
    payload_open (ops := copy_codec) toy_registry 3 (edit_address 3 1) (take 40 framed) = Unexpected Corrupt /\
    payload_open (ops := copy_codec) passthrough_registry 3 (edit_address 3 1) framed = Unexpected Config.
Proof.
  eexists. split; [vm_compute; reflexivity|]. match goal with |- payload_open _ _ _ ?f = _ /\ _ => set (framed := f) end.
  destruct (manifest_payload_opens copy_codec toy_registry (aes_provider (gcm := toy_gcm) (keys := toy_keys) 4 9 toy_random) 3 (edit_address 3 1) toy_plaintext framed)
    as (H1 & H2 & H3).
  - apply copy_codec_laws.
  - reflexivity.
  - apply (aes_provider_laws (gcm := toy_gcm)); [apply _|apply (static_key_laws (gcm := toy_gcm) (repeat x01 32)); apply _|by vm_compute].
  - done.
  - unfold is_u64. lia.
  - intros c metadata E. vm_compute in E. injection E as <- <-. split; [by vm_compute|]. intros n Hn.
    change (zlen toy_plaintext) with 7 in Hn. unfold object_small. cbn [c_chunk_bytes c_overhead].
    assert (n / 4 < 2) by (apply Z.div_lt_upper_bound; lia). lia.
  - by vm_compute.
  - vm_compute. reflexivity.
  - split; [exact H1|]. split; [apply H2; vm_compute; lia|]. by apply H3.
Defined.
