(* ===== verification/Watermark.v ===== *)
(** * Watermark intervals and the recovery position

    [src/version/watermark.hpp]: the interval a file carries ([WatermarkInterval]), the recorded
    loss ([WatermarkFloor]) and the accumulator recovery folds the discarded and the surviving files
    into ([RecoveryWatermark]). A [std::optional<uint64_t>] is an [option Z]. *)

From S2P Require Import Prelude.

(** ** Definitions *)

Record WatermarkInterval := { low : option Z; high : option Z }.

#[export] Instance WatermarkInterval_eq_dec : EqDecision WatermarkInterval.
Proof. solve_decision. Defined.

Definition no_watermark : WatermarkInterval := {| low := None; high := None |}.

(** [WatermarkInterval::merge]. *)
Definition merge (w other : WatermarkInterval) : WatermarkInterval :=
  {| low := match low other with
            | None => None
            | Some o => match low w with Some l => Some (Z.min l o) | None => None end
            end;
     high := match high other with
             | None => high w
             | Some o => match high w with Some h => Some (Z.max h o) | None => Some o end
             end |}.

Definition accumulate_min (into value : option Z) : option Z :=
  match value with
  | None => into
  | Some v => match into with Some i => Some (Z.min i v) | None => Some v end
  end.

Definition accumulate_max (into value : option Z) : option Z :=
  match value with
  | None => into
  | Some v => match into with Some i => Some (Z.max i v) | None => Some v end
  end.

Record WatermarkFloor := { position : option Z }.

#[export] Instance WatermarkFloor_eq_dec : EqDecision WatermarkFloor.
Proof. solve_decision. Defined.

(** [WatermarkFloor::lower_to]. *)
Definition lower_to (f : WatermarkFloor) (bound : option Z) : WatermarkFloor :=
  match position f with
  | None => f
  | Some p =>
      match bound with
      | None => {| position := None |}
      | Some b => if b <? p then {| position := Some b |} else f
      end
  end.

Record RecoveryWatermark := {
  anything_discarded_ : bool;
  discarded_lower_bound_absent_ : bool;
  discarded_lower_bound_ : option Z;
  surviving_upper_bound_ : option Z;
}.

Definition recovery_start : RecoveryWatermark :=
  {| anything_discarded_ := false; discarded_lower_bound_absent_ := false;
     discarded_lower_bound_ := None; surviving_upper_bound_ := None |}.

Definition observe_discarded (r : RecoveryWatermark) (w : WatermarkInterval) : RecoveryWatermark :=
  match low w with
  | None =>
      {| anything_discarded_ := true; discarded_lower_bound_absent_ := true;
         discarded_lower_bound_ := discarded_lower_bound_ r;
         surviving_upper_bound_ := surviving_upper_bound_ r |}
  | Some _ =>
      {| anything_discarded_ := true;
         discarded_lower_bound_absent_ := discarded_lower_bound_absent_ r;
         discarded_lower_bound_ := accumulate_min (discarded_lower_bound_ r) (low w);
         surviving_upper_bound_ := surviving_upper_bound_ r |}
  end.

Definition observe_survivor (r : RecoveryWatermark) (w : WatermarkInterval) : RecoveryWatermark :=
  {| anything_discarded_ := anything_discarded_ r;
     discarded_lower_bound_absent_ := discarded_lower_bound_absent_ r;
     discarded_lower_bound_ := discarded_lower_bound_ r;
     surviving_upper_bound_ := accumulate_max (surviving_upper_bound_ r) (high w) |}.

Definition discarded_lower_bound (r : RecoveryWatermark) : option Z :=
  if discarded_lower_bound_absent_ r then None else discarded_lower_bound_ r.

Definition resume_after (r : RecoveryWatermark) : option Z :=
  if anything_discarded_ r then discarded_lower_bound r else surviving_upper_bound_ r.

(** ** Lemmas *)

(** What [get_watermark] accepts: a lower bound comes with an upper bound above it. *)
Definition wm_ok (w : WatermarkInterval) : Prop :=
  forall l, low w = Some l -> exists h, high w = Some h /\ l <= h.

Lemma merge_ok w v : wm_ok w -> wm_ok v -> wm_ok (merge w v).
Proof.
  unfold wm_ok, merge. destruct w as [[l|] hw], v as [[l'|] hv]; simpl; intros Hw Hv m ?; simplify_eq.
  destruct (Hw _ eq_refl) as (h & -> & ?), (Hv _ eq_refl) as (h' & -> & ?).
  eexists; split; [done|lia].
Qed.

(** The lower bound of a merge is below a position exactly when one of the two is, absent being
    below everything. *)
Lemma merge_low w v p :
  (forall l, low w = Some l -> l < p) \/ (forall l, low v = Some l -> l < p) ->
  forall l, low (merge w v) = Some l -> l < p.
Proof.
  unfold merge. destruct w as [[l1|] ?], v as [[l2|] ?]; simpl; intros Hor l ?; simplify_eq.
  destruct Hor as [H|H]; specialize (H _ eq_refl); lia.
Qed.

Lemma merge_high w v : high (merge w v) = accumulate_max (high w) (high v).
Proof. unfold merge, accumulate_max. by destruct (high v). Qed.

Lemma accumulate_max_assoc a b c :
  accumulate_max (accumulate_max a b) c = accumulate_max a (accumulate_max b c).
Proof. unfold accumulate_max. destruct a, b, c; simpl; try done. f_equal. lia. Qed.

Lemma accumulate_max_comm a b : accumulate_max a b = accumulate_max b a.
Proof. unfold accumulate_max. destruct a, b; simpl; try done. f_equal. lia. Qed.

Lemma accumulate_max_None_l a : accumulate_max None a = a.
Proof. by destruct a. Qed.

(** [r] is at most an optional bound, absent bounding nothing. *)
Definition below (p : Z) (r : option Z) : Prop := exists b, r = Some b /\ p <= b.

Lemma below_accumulate_max p a b : below p (accumulate_max a b) <-> below p a \/ below p b.
Proof.
  unfold below, accumulate_max. destruct a as [a|], b as [b|]; split.
  - intros (m & [= <-] & ?). destruct (Z.max_spec a b) as [[? E]|[? E]]; rewrite E in *; eauto.
  - intros [(m & [= <-] & ?)|(m & [= <-] & ?)]; eexists; (split; [done|lia]).
  - intros H; by left.
  - by intros [?|(? & ? & ?)].
  - intros H; by right.
  - by intros [(? & ? & ?)|?].
  - intros H; by left.
  - by intros [?|?].
Qed.

Definition observe_all (observe : RecoveryWatermark -> WatermarkInterval -> RecoveryWatermark)
    (ws : list WatermarkInterval) (r : RecoveryWatermark) : RecoveryWatermark := foldl observe r ws.

Lemma observe_survivors_fields ws r :
  let r' := observe_all observe_survivor ws r in
  anything_discarded_ r' = anything_discarded_ r /\
  discarded_lower_bound r' = discarded_lower_bound r /\
  (forall p, below p (surviving_upper_bound_ r') <->
             below p (surviving_upper_bound_ r) \/ exists w, w ∈ ws /\ below p (high w)).
Proof.
  cbv zeta. revert r. induction ws as [|w ws IH]; intros r; simpl.
  - split_and!; [done..|]. intros p. split; [tauto|]. intros [?|(w & Hw & _)]; [done|].
    by apply elem_of_nil in Hw.
  - destruct (IH (observe_survivor r w)) as (-> & -> & H). split_and!; [done..|].
    intros p. rewrite H. simpl. rewrite below_accumulate_max. setoid_rewrite elem_of_cons. split.
    + intros [[?|?]|(v & ? & ?)]; eauto.
    + intros [?|(v & [->|?] & ?)]; eauto.
Qed.

(** After a discard the bound is present only if every discarded file had a lower bound, and then
    it is at most each of them. *)
Lemma observe_discarded_bound ws r b :
  discarded_lower_bound (observe_all observe_discarded ws r) = Some b ->
  discarded_lower_bound_absent_ r = false /\
  (forall b0, discarded_lower_bound_ r = Some b0 -> b <= b0) /\
  (forall w, w ∈ ws -> exists l, low w = Some l /\ b <= l).
Proof.
  revert r. induction ws as [|w ws IH]; intros r; simpl.
  - unfold discarded_lower_bound. destruct (discarded_lower_bound_absent_ r); [done|]. intros ->.
    split_and!; [done| |set_solver]. intros ? [= <-]. lia.
  - intros (Ha & Hb & Hw)%IH. unfold observe_discarded in Ha, Hb.
    destruct (low w) as [l|] eqn:El; simpl in *; [|done]. split_and!; [done| |].
    + intros b0 E. rewrite E in Hb. specialize (Hb _ eq_refl). lia.
    + intros v [->|?]%elem_of_cons; [|by apply Hw]. exists l. split; [done|].
      destruct (discarded_lower_bound_ r); specialize (Hb _ eq_refl); lia.
Qed.

Lemma observe_discarded_fields ws r :
  let r' := observe_all observe_discarded ws r in
  anything_discarded_ r' = anything_discarded_ r || negb (bool_decide (ws = [])) /\
  surviving_upper_bound_ r' = surviving_upper_bound_ r.
Proof.
  cbv zeta. revert r. induction ws as [|w ws IH]; intros r; simpl; [by rewrite orb_false_r|].
  destruct (IH (observe_discarded r w)) as (-> & ->). unfold observe_discarded.
  destruct (low w); simpl; by rewrite orb_true_r.
Qed.
