(* ===== verification/VersionEdit.v ===== *)
(** * Version edits and snapshots

    [src/version/version_edit.hpp] and [version_edit.cpp]: what the manifest records. An edit is a
    change of the file set; a snapshot is a whole version. Both are a varint stream inside the block
    framing. A decoder's pointer pair [p], [limit] is the list of bytes left; an out-parameter
    decoder that answers [false] is [None]. *)

From S2P Require Import Prelude Slice Format Crc32c Framing Watermark.

(** ** Data *)

Record FileMetadata := {
  level : Z;
  file_number : Z;
  store_id : bytes;
  smallest_key : bytes;
  largest_key : bytes;
  file_bytes : Z;
  num_entries : Z;
  num_tombstones : Z;
  num_range_tombstones : Z;
  smallest_range_key : bytes;
  largest_range_key : bytes;
  compression : Compression;
  min_write_time_ms : Z;
  max_write_time_ms : Z;
  watermark : WatermarkInterval;
  encryption_provider : bytes;
  encryption_metadata : bytes
}.

#[export] Instance FileMetadata_eq_dec : EqDecision FileMetadata.
Proof. solve_decision. Defined.

Definition effective_smallest (f : FileMetadata) : bytes :=
  if num_range_tombstones f =? 0 then smallest_key f
  else if num_entries f =? 0 then smallest_range_key f
  else key_min (smallest_key f) (smallest_range_key f).

Definition effective_largest (f : FileMetadata) : bytes :=
  if num_range_tombstones f =? 0 then largest_key f
  else if num_entries f =? 0 then largest_range_key f
  else key_max (largest_key f) (largest_range_key f).

Definition range_may_cover (f : FileMetadata) (key : bytes) : bool :=
  negb (num_range_tombstones f =? 0) && (smallest_range_key f <=?k key) &&
  (key <?k largest_range_key f).

Record FileRef := { ref_level : Z; ref_number : Z }.

#[export] Instance FileRef_eq_dec : EqDecision FileRef.
Proof. solve_decision. Defined.

Inductive FloorUpdate : Type := Silent | SetFloor | Clear.

#[export] Instance FloorUpdate_eq_dec : EqDecision FloorUpdate.
Proof. solve_decision. Defined.

Record VersionEdit := {
  next_file_number : Z;
  added : list FileMetadata;
  deleted : list FileRef;
  compaction_pointers : list (Z * bytes);
  truncation_point : bytes;
  floor_update : FloorUpdate;
  watermark_floor : WatermarkFloor
}.

(** [VersionEdit{}]. *)
Definition empty_edit : VersionEdit :=
  {| next_file_number := 0; added := []; deleted := []; compaction_pointers := [];
     truncation_point := []; floor_update := Silent; watermark_floor := {| position := None |} |}.

Definition edit_is_empty (e : VersionEdit) : bool :=
  bool_decide (added e = []) && bool_decide (deleted e = []) &&
  bool_decide (compaction_pointers e = []) && bool_decide (truncation_point e = []) &&
  bool_decide (floor_update e = Silent) && (next_file_number e =? 0).

Record VersionSnapshot := {
  snap_next_file_number : Z;
  snap_files : list FileMetadata;
  snap_compaction_pointers : list (Z * bytes);
  snap_truncation_point : bytes;
  snap_watermark_floor : option WatermarkFloor
}.

(** ** Encoders and decoders *)

Definition kEditFormatVersion : Z := 6.
Definition kSnapshotFormatVersion : Z := 6.
Definition kMaxLevels : Z := 1024.
Definition kMaxManifestBytes : Z := 256 * 2 ^ 20.

Definition put_string (value : bytes) : bytes := put_varint64 (zlen value) ++ value.

Definition get_string (p : bytes) : option (bytes * bytes) :=
  let! (size, p) := get_varint64 p in
  if zlen p <? size then None
  else Some (take (Z.to_nat size) p, drop (Z.to_nat size) p).

Definition wm_flags (w : WatermarkInterval) : Z :=
  Z.lor (if low w is Some _ then 1 else 0) (if high w is Some _ then 2 else 0).

Definition put_watermark (w : WatermarkInterval) : bytes :=
  put_varint64 (wm_flags w) ++ put_varint64 (default 0 (low w)) ++ put_varint64 (default 0 (high w)).

Definition get_watermark (p : bytes) : option (WatermarkInterval * bytes) :=
  let! (flags, p) := get_varint64 p in
  if 3 <? flags then None
  else
    let! (lo, p) := get_varint64 p in
    let! (hi, p) := get_varint64 p in
    let has_low := negb (Z.land flags 1 =? 0) in
    let has_high := negb (Z.land flags 2 =? 0) in
    if has_low && negb has_high then None
    else
      let w := {| low := if has_low then Some lo else None; high := if has_high then Some hi else None |} in
      if match low w, high w with Some l, Some h => l <=? h | _, _ => true end
      then Some (w, p) else None.

Definition put_file (f : FileMetadata) : bytes :=
  put_varint64 (u64 (level f)) ++
  put_varint64 (file_number f) ++
  put_string (store_id f) ++
  put_string (smallest_key f) ++
  put_string (largest_key f) ++
  put_varint64 (file_bytes f) ++
  put_varint64 (num_entries f) ++
  put_varint64 (num_tombstones f) ++
  put_varint64 (num_range_tombstones f) ++
  put_string (smallest_range_key f) ++
  put_string (largest_range_key f) ++
  put_varint64 (compression_byte (compression f)) ++
  put_varint64 (min_write_time_ms f) ++
  put_varint64 (max_write_time_ms f) ++
  put_watermark (watermark f) ++
  put_string (encryption_provider f) ++
  put_string (encryption_metadata f).

Definition get_file (p : bytes) : option (FileMetadata * bytes) :=
  let! (lvl, p) := get_varint64 p in
  if kMaxLevels <? lvl then None
  else
    let! (number, p) := get_varint64 p in
    let! (store, p) := get_string p in
    let! (smallest, p) := get_string p in
    let! (largest, p) := get_string p in
    let! (fbytes, p) := get_varint64 p in
    let! (entries, p) := get_varint64 p in
    let! (tombstones, p) := get_varint64 p in
    let! (ranges, p) := get_varint64 p in
    let! (smallest_range, p) := get_string p in
    let! (largest_range, p) := get_string p in
    let! (codec, p) := get_varint64 p in
    if compression_byte Zstd <? codec then None
    else
      let! (min_time, p) := get_varint64 p in
      let! (max_time, p) := get_varint64 p in
      let! (wm, p) := get_watermark p in
      let! (provider, p) := get_string p in
      let! (metadata, p) := get_string p in
      Some ({| level := lvl; file_number := number; store_id := store; smallest_key := smallest;
               largest_key := largest; file_bytes := fbytes; num_entries := entries;
               num_tombstones := tombstones; num_range_tombstones := ranges;
               smallest_range_key := smallest_range; largest_range_key := largest_range;
               compression := compression_of codec; min_write_time_ms := min_time;
               max_write_time_ms := max_time; watermark := wm; encryption_provider := provider;
               encryption_metadata := metadata |}, p).

(** The loops [for (uint64_t i = 0; i < count; ++i)]: every round reads at least one byte or fails,
    so one more round than there are bytes is enough ([get_n_fuel]). *)
Fixpoint get_n {A} (get : bytes -> option (A * bytes)) (fuel : nat) (count : Z) (p : bytes)
  : option (list A * bytes) :=
  if count <=? 0 then Some ([], p)
  else match fuel with
       | O => None
       | S fuel' =>
           let! (x, p) := get p in
           let! (xs, p) := get_n get fuel' (count - 1) p in
           Some (x :: xs, p)
       end.

Definition get_counted {A} (get : bytes -> option (A * bytes)) (p : bytes) : option (list A * bytes) :=
  let! (count, p) := get_varint64 p in
  get_n get (S (length p)) count p.

Definition put_counted {A} (put : A -> bytes) (xs : list A) : bytes :=
  put_varint64 (Z.of_nat (length xs)) ++ flat_map put xs.

Definition put_pointer (ptr : Z * bytes) : bytes := put_varint64 (u64 ptr.1) ++ put_string ptr.2.

Definition get_pointer (p : bytes) : option ((Z * bytes) * bytes) :=
  let! (lvl, p) := get_varint64 p in
  if kMaxLevels <? lvl then None
  else let! (key, p) := get_string p in Some ((lvl, key), p).

Definition put_pointers (ptrs : list (Z * bytes)) : bytes := put_counted put_pointer ptrs.
Definition get_pointers (p : bytes) : option (list (Z * bytes) * bytes) := get_counted get_pointer p.

Definition put_ref (r : FileRef) : bytes := put_varint64 (u64 (ref_level r)) ++ put_varint64 (ref_number r).

Definition get_ref (p : bytes) : option (FileRef * bytes) :=
  let! (lvl, p) := get_varint64 p in
  if kMaxLevels <? lvl then None
  else let! (number, p) := get_varint64 p in Some ({| ref_level := lvl; ref_number := number |}, p).

Definition put_floor_update (update : FloorUpdate) (floor : WatermarkFloor) : bytes :=
  let state :=
    match update with
    | Silent => 0
    | SetFloor => if position floor is Some _ then 1 else 2
    | Clear => 3
    end in
  put_varint64 state ++ put_varint64 (default 0 (position floor)).

Definition get_floor_update (p : bytes) : option ((FloorUpdate * WatermarkFloor) * bytes) :=
  let! (state, p) := get_varint64 p in
  if 3 <? state then None
  else
    let! (value, p) := get_varint64 p in
    Some (if state =? 0 then (Silent, {| position := None |})
          else if state =? 1 then (SetFloor, {| position := Some value |})
          else if state =? 2 then (SetFloor, {| position := None |})
          else (Clear, {| position := None |}), p).

Definition put_floor (floor : option WatermarkFloor) : bytes :=
  let state := match floor with None => 0 | Some f => if position f is Some _ then 1 else 2 end in
  put_varint64 state ++ put_varint64 (match floor with Some f => default 0 (position f) | None => 0 end).

Definition get_floor (p : bytes) : option (option WatermarkFloor * bytes) :=
  let! (state, p) := get_varint64 p in
  if 2 <? state then None
  else
    let! (value, p) := get_varint64 p in
    Some (if state =? 0 then None
          else Some {| position := if state =? 1 then Some value else None |}, p).

Definition edit_content (e : VersionEdit) : bytes :=
  put_varint32 kEditFormatVersion ++
  put_varint64 (next_file_number e) ++
  put_counted put_file (added e) ++
  put_counted put_ref (deleted e) ++
  put_pointers (compaction_pointers e) ++
  put_string (truncation_point e) ++
  put_floor_update (floor_update e) (watermark_floor e).

Definition snapshot_content (s : VersionSnapshot) : bytes :=
  put_varint32 kSnapshotFormatVersion ++
  put_varint64 (snap_next_file_number s) ++
  put_counted put_file (snap_files s) ++
  put_pointers (snap_compaction_pointers s) ++
  put_string (snap_truncation_point s) ++
  put_floor (snap_watermark_floor s).

Definition get_edit_body (p : bytes) : option (VersionEdit * bytes) :=
  let! (next, p) := get_varint64 p in
  let! (adds, p) := get_counted get_file p in
  let! (dels, p) := get_counted get_ref p in
  let! (ptrs, p) := get_pointers p in
  let! (point, p) := get_string p in
  let! ((update, floor), p) := get_floor_update p in
  Some ({| next_file_number := next; added := adds; deleted := dels; compaction_pointers := ptrs;
           truncation_point := point; floor_update := update; watermark_floor := floor |}, p).

Definition get_snapshot_body (p : bytes) : option (VersionSnapshot * bytes) :=
  let! (next, p) := get_varint64 p in
  let! (fs, p) := get_counted get_file p in
  let! (ptrs, p) := get_pointers p in
  let! (point, p) := get_string p in
  let! (floor, p) := get_floor p in
  Some ({| snap_next_file_number := next; snap_files := fs; snap_compaction_pointers := ptrs;
           snap_truncation_point := point; snap_watermark_floor := floor |}, p).

Section Codec.
Context `{ops : CodecOps}.

(** [frame]: the status of [frame_block] is dropped, and a failure leaves the record empty. *)
Definition frame (content : bytes) (codec : Compression) : bytes :=
  match frame_block content codec with
  | Value out => out
  | Unexpected _ => []
  end.

(** The part [decode_version_edit] and [decode_version_snapshot] share: checksum and version first,
    then a body whose failures are [Corrupt]. Bytes left over are ignored. *)
Definition decode_record {A} (format : Z) (get_body : bytes -> option (A * bytes)) (raw : bytes)
  : Result A :=
  let? content := unframe_block raw kMaxManifestBytes in
  match get_varint32 content with
  | None => Unexpected Corrupt
  | Some (version, p) =>
      if negb (version =? format) then Unexpected Unsupported
      else match get_body p with
           | Some (a, _) => Value a
           | None => Unexpected Corrupt
           end
  end.

Definition encode_version_edit (e : VersionEdit) : bytes := frame (edit_content e) NoCompression.
Definition decode_version_edit (raw : bytes) : Result VersionEdit :=
  decode_record kEditFormatVersion get_edit_body raw.

Definition encode_version_snapshot (s : VersionSnapshot) : bytes := frame (snapshot_content s) Zstd.
Definition decode_version_snapshot (raw : bytes) : Result VersionSnapshot :=
  decode_record kSnapshotFormatVersion get_snapshot_body raw.
End Codec.

(** ** Lemmas: every decoder inverts its encoder

    [inverts put get P]: reading back what [put] wrote gives the value and leaves the rest, for
    every value satisfying [P]. *)

Definition inverts {A} (put : A -> bytes) (get : bytes -> option (A * bytes)) (P : A -> Prop) : Prop :=
  forall x rest, P x -> get (put x ++ rest) = Some (x, rest).

Definition str_ok (s : bytes) : Prop := zlen s < 2 ^ 64.
Definition level_ok (l : Z) : Prop := 0 <= l <= kMaxLevels.
Definition opt_ok (o : option Z) : Prop := forall v, o = Some v -> is_u64 v.

Record file_ok (f : FileMetadata) : Prop := {
  fo_level : level_ok (level f);
  fo_number : is_u64 (file_number f);
  fo_strings : Forall str_ok [store_id f; smallest_key f; largest_key f; smallest_range_key f;
                              largest_range_key f; encryption_provider f; encryption_metadata f];
  fo_ints : Forall is_u64 [file_bytes f; num_entries f; num_tombstones f; num_range_tombstones f;
                           min_write_time_ms f; max_write_time_ms f];
  fo_wm : wm_ok (watermark f) /\ opt_ok (low (watermark f)) /\ opt_ok (high (watermark f))
}.

Definition pointer_ok (p : Z * bytes) : Prop := level_ok p.1 /\ str_ok p.2.
Definition ref_ok (r : FileRef) : Prop := level_ok (ref_level r) /\ is_u64 (ref_number r).
Definition list_ok {A} (P : A -> Prop) (xs : list A) : Prop := Z.of_nat (length xs) < 2 ^ 64 /\ Forall P xs.

Record edit_ok (e : VersionEdit) : Prop := {
  eo_next : is_u64 (next_file_number e);
  eo_added : list_ok file_ok (added e);
  eo_deleted : list_ok ref_ok (deleted e);
  eo_pointers : list_ok pointer_ok (compaction_pointers e);
  eo_point : str_ok (truncation_point e);
  eo_floor : opt_ok (position (watermark_floor e));
  eo_floor_unused : floor_update e <> SetFloor -> position (watermark_floor e) = None
}.

Record snapshot_ok (s : VersionSnapshot) : Prop := {
  so_next : is_u64 (snap_next_file_number s);
  so_files : list_ok file_ok (snap_files s);
  so_pointers : list_ok pointer_ok (snap_compaction_pointers s);
  so_point : str_ok (snap_truncation_point s);
  so_floor : forall f, snap_watermark_floor s = Some f -> opt_ok (position f)
}.

Lemma level_u64 l : level_ok l -> is_u64 l /\ u64 l = l /\ (kMaxLevels <? l) = false.
Proof.
  unfold level_ok, kMaxLevels. intros. assert (is_u64 l) by (unfold is_u64; lia).
  split; [done|]. split; [by apply u64_small|lia].
Qed.

Lemma get_put_string : inverts put_string get_string str_ok.
Proof.
  intros s rest Hs. unfold put_string, get_string. rewrite <- app_assoc.
  rewrite get_put_varint64 by (unfold is_u64, str_ok in *; pose proof (zlen_nonneg s); lia).
  rewrite zlen_app. pose proof (zlen_nonneg rest). replace (_ <? _) with false by lia.
  unfold zlen. rewrite Nat2Z.id. by destruct (take_drop_app _ s rest eq_refl) as [-> ->].
Qed.

Lemma opt_ok_default o : opt_ok o -> is_u64 (default 0 o).
Proof. unfold opt_ok, is_u64. destruct o; simpl; [eauto|lia]. Qed.

Lemma wm_flags_u64 w : is_u64 (wm_flags w).
Proof. unfold wm_flags, is_u64. by destruct (low w), (high w). Qed.

Lemma get_put_watermark :
  inverts put_watermark get_watermark (fun w => wm_ok w /\ opt_ok (low w) /\ opt_ok (high w)).
Proof.
  intros w rest (Hok & Hl & Hh). unfold put_watermark, get_watermark. rewrite <- !app_assoc.
  rewrite get_put_varint64 by apply wm_flags_u64.
  destruct w as [[l|] [h|]]; cbn [wm_flags low high Z.lor Pos.lor default from_option id];
    rewrite !get_put_varint64 by (first [by apply Hl | by apply Hh | done]); try done.
  - destruct (Hok _ eq_refl) as (? & [= <-] & Hlh). simpl in Hlh. simpl.
    by replace (l <=? h) with true by lia.
  - by destruct (Hok _ eq_refl) as (? & ? & _).
Qed.

(** The fields of a record are read back one by one. *)
Ltac read_fields :=
  repeat (rewrite <- ?app_assoc;
          first [rewrite get_put_varint64 by done | rewrite get_put_string by done
                |rewrite get_put_watermark by done]).

Lemma get_put_file : inverts put_file get_file file_ok.
Proof.
  intros f rest [Hl Hn Hs Hi Hw]. rewrite !Forall_cons in Hs. rewrite !Forall_cons in Hi.
  destruct Hs as (? & ? & ? & ? & ? & ? & ? & _), Hi as (? & ? & ? & ? & ? & ? & _).
  destruct (level_u64 _ Hl) as (? & Hu & Hmax).
  assert (is_u64 (compression_byte (compression f))) by (by destruct (compression f)).
  unfold put_file, get_file. rewrite Hu. read_fields. rewrite Hmax. read_fields.
  replace (_ <? _) with false by (by destruct (compression f)). read_fields.
  rewrite compression_of_byte. by destruct f.
Qed.

Lemma get_put_ref : inverts put_ref get_ref ref_ok.
Proof.
  intros r rest [Hl Hn]. destruct (level_u64 _ Hl) as (? & Hu & Hmax).
  unfold put_ref, get_ref. rewrite Hu. read_fields. rewrite Hmax. read_fields. by destruct r.
Qed.

Lemma get_put_pointer : inverts put_pointer get_pointer pointer_ok.
Proof.
  intros r rest [Hl Hn]. destruct (level_u64 _ Hl) as (? & Hu & Hmax).
  unfold put_pointer, get_pointer. rewrite Hu. read_fields. rewrite Hmax. read_fields. by destruct r.
Qed.

(** *** Counted lists *)

(** A parser that reads at least one byte. *)
Definition consumes {A} (get : bytes -> option (A * bytes)) : Prop :=
  forall p x p', get p = Some (x, p') -> (length p' < length p)%nat.

Lemma get_n_fuel {A} (get : bytes -> option (A * bytes)) fuel fuel' count p :
  consumes get -> (length p < fuel)%nat -> (length p < fuel')%nat ->
  get_n get fuel count p = get_n get fuel' count p.
Proof.
  intros Hc. revert fuel' count p. induction fuel as [|fuel IH]; intros [|fuel'] count p Hf Hf'; try lia.
  simpl. destruct (count <=? 0); [done|]. destruct (get p) as [[x p']|] eqn:E; [|done].
  apply Hc in E. by rewrite (IH fuel') by lia.
Qed.

Lemma get_n_put {A} (put : A -> bytes) get P fuel xs rest :
  inverts put get P -> (length xs < fuel)%nat -> Forall P xs ->
  get_n get fuel (Z.of_nat (length xs)) (flat_map put xs ++ rest) = Some (xs, rest).
Proof.
  intros Hi. revert fuel. induction xs as [|x xs IH]; intros [|fuel] Hf HP; cbn [length] in *; try lia; [done|].
  inversion_clear HP. cbn [get_n flat_map]. rewrite <- app_assoc, Hi by done.
  destruct (Z.leb_spec (Z.of_nat (S (length xs))) 0); [lia|].
  replace (Z.of_nat (S (length xs)) - 1) with (Z.of_nat (length xs)) by lia.
  by rewrite IH by (done || lia).
Qed.

Lemma length_mjoin_ge {A} (put : A -> bytes) (get : bytes -> option (A * bytes)) P xs :
  inverts put get P -> consumes get -> Forall P xs -> (length xs <= length (flat_map put xs))%nat.
Proof.
  intros Hi Hc. induction 1 as [|x xs Hx _ IH]; cbn [length]; [lia|].
  cbn [flat_map]. rewrite length_app.
  specialize (Hi x [] Hx). apply Hc in Hi. rewrite app_nil_r in Hi. simpl in Hi. lia.
Qed.

Lemma get_put_counted {A} (put : A -> bytes) get P :
  inverts put get P -> consumes get -> inverts (put_counted put) (get_counted get) (list_ok P).
Proof.
  intros Hi Hc xs rest [Hlen HP]. unfold put_counted, get_counted. rewrite <- app_assoc.
  rewrite get_put_varint64 by (unfold is_u64; lia). apply (get_n_put _ _ P); [done| |done].
  rewrite length_app. pose proof (length_mjoin_ge put get P xs Hi Hc HP). lia.
Qed.

Lemma varint_consumes : consumes get_varint64.
Proof.
  intros p v p' (l & -> & ?)%get_varint64_suffix. rewrite length_app. lia.
Qed.

Lemma get_string_le p s p' : get_string p = Some (s, p') -> (length p' <= length p)%nat.
Proof.
  unfold get_string. destruct (get_varint64 p) as [[n q]|] eqn:E; [|done]. apply varint_consumes in E.
  destruct (zlen q <? n); [done|]. intros [= <- <-]. rewrite length_drop. lia.
Qed.

Lemma get_watermark_le p w p' : get_watermark p = Some (w, p') -> (length p' <= length p)%nat.
Proof.
  unfold get_watermark. intros H. repeat case_match; simplify_eq;
  repeat match goal with E : get_varint64 _ = Some _ |- _ => apply varint_consumes in E end; lia.
Qed.

(** Chains the length bounds of the readers a composite reader runs. *)
Ltac reader_lengths :=
  repeat case_match; simplify_eq/=;
  repeat match goal with
  | E : get_varint64 _ = Some _ |- _ => apply varint_consumes in E
  | E : get_string _ = Some _ |- _ => apply get_string_le in E
  | E : get_watermark _ = Some _ |- _ => apply get_watermark_le in E
  end; try lia.

Lemma file_consumes : consumes get_file.
Proof. intros p x p'. unfold get_file. intros H. reader_lengths. Qed.

Lemma ref_consumes : consumes get_ref.
Proof. intros p x p'. unfold get_ref. intros H. reader_lengths. Qed.

Lemma pointer_consumes : consumes get_pointer.
Proof. intros p x p'. unfold get_pointer. intros H. reader_lengths. Qed.

Lemma get_put_floor_update u f rest :
  opt_ok (position f) -> (u <> SetFloor -> position f = None) ->
  get_floor_update (put_floor_update u f ++ rest) = Some ((u, f), rest).
Proof.
  intros Ho Hu. unfold get_floor_update, put_floor_update. rewrite <- app_assoc.
  destruct f as [[v|]], u; cbn [position from_option id] in *; try (by specialize (Hu ltac:(done)));
    rewrite !get_put_varint64 by (done || by apply Ho); done.
Qed.

Lemma get_put_floor :
  inverts put_floor get_floor (fun o => forall f, o = Some f -> opt_ok (position f)).
Proof.
  intros o rest Ho. unfold get_floor, put_floor. rewrite <- app_assoc.
  destruct o as [[[v|]]|]; cbn [position from_option id] in *; rewrite !get_put_varint64 by (done || by apply (Ho _ eq_refl)); done.
Qed.

Lemma get_put_edit_body e rest :
  edit_ok e -> get_edit_body (drop (length (put_varint32 kEditFormatVersion)) (edit_content e) ++ rest) = Some (e, rest).
Proof.
  intros [Hn Ha Hd Hp Hs Hf Hu]. unfold edit_content. rewrite drop_app_length. unfold get_edit_body.
  rewrite <- !app_assoc, get_put_varint64 by done.
  rewrite (get_put_counted _ _ _ get_put_file file_consumes) by done.
  rewrite (get_put_counted _ _ _ get_put_ref ref_consumes) by done.
  unfold get_pointers, put_pointers. rewrite (get_put_counted _ _ _ get_put_pointer pointer_consumes) by done.
  rewrite get_put_string, get_put_floor_update by done. by destruct e.
Qed.

Lemma get_put_snapshot_body s rest :
  snapshot_ok s ->
  get_snapshot_body (drop (length (put_varint32 kSnapshotFormatVersion)) (snapshot_content s) ++ rest) = Some (s, rest).
Proof.
  intros [Hn Ha Hp Hs Hf]. unfold snapshot_content. rewrite drop_app_length. unfold get_snapshot_body.
  rewrite <- !app_assoc, get_put_varint64 by done.
  rewrite (get_put_counted _ _ _ get_put_file file_consumes) by done.
  unfold get_pointers, put_pointers. rewrite (get_put_counted _ _ _ get_put_pointer pointer_consumes) by done.
  rewrite get_put_string, get_put_floor by done. by destruct s.
Qed.

(** Decoding a framed record: the version is checked, then the body parsed. *)
Lemma decode_record_frame `{ops : CodecOps, !CodecLaws ops} {A} format (get_body : bytes -> option (A * bytes))
    body codec a raw :
  frame_block (put_varint32 format ++ body) codec = Value raw ->
  zlen (put_varint32 format ++ body) <= kMaxManifestBytes -> lz4_max_input <= 2 ^ 31 - 1 ->
  is_u32 format -> get_body body = Some (a, []) ->
  decode_record format get_body raw = Value a.
Proof.
  intros Hf Hlen Hlz Hfmt Hb. unfold decode_record.
  rewrite (unframe_frame_block _ _ _ kMaxManifestBytes Hf) by done. simpl.
  rewrite get_put_varint32 by done. by rewrite Z.eqb_refl, Hb.
Qed.

(** A manifest record read back from what was written for it. *)
Lemma decode_edit_ok `{ops : CodecOps, !CodecLaws ops} e :
  edit_ok e -> zlen (edit_content e) <= kMaxManifestBytes -> lz4_max_input <= 2 ^ 31 - 1 ->
  decode_version_edit (encode_version_edit e) = Value e.
Proof.
  intros He Hlen Hlz. unfold decode_version_edit, encode_version_edit, frame.
  destruct (frame_block (edit_content e) NoCompression) as [raw|s] eqn:E.
  - eapply (decode_record_frame _ _ (drop (length (put_varint32 kEditFormatVersion)) (edit_content e))
              NoCompression); try done.
    rewrite <- (app_nil_r (drop _ _)). by apply get_put_edit_body.
  - unfold frame_block in E. unfold kMaxManifestBytes in Hlen.
    replace (2 ^ 32 - 1 <? zlen (edit_content e)) with false in E by lia. done.
Qed.

Lemma decode_snapshot_ok `{ops : CodecOps, !CodecLaws ops} s raw :
  snapshot_ok s -> zlen (snapshot_content s) <= kMaxManifestBytes -> lz4_max_input <= 2 ^ 31 - 1 ->
  frame_block (snapshot_content s) Zstd = Value raw ->
  decode_version_snapshot (encode_version_snapshot s) = Value s.
Proof.
  intros Hs Hlen Hlz E. unfold decode_version_snapshot, encode_version_snapshot, frame. rewrite E.
  eapply (decode_record_frame _ _ (drop (length (put_varint32 kSnapshotFormatVersion)) (snapshot_content s))
            Zstd); try done.
  rewrite <- (app_nil_r (drop _ _)). by apply get_put_snapshot_body.
Qed.

(** ** Properties *)

Definition sample_file (number : Z) (smallest largest : bytes) : FileMetadata :=
  {| level := 0; file_number := number; store_id := [x73]; smallest_key := smallest; largest_key := largest;
     file_bytes := 100; num_entries := 2; num_tombstones := 0; num_range_tombstones := 0;
     smallest_range_key := []; largest_range_key := []; compression := NoCompression;
     min_write_time_ms := 5; max_write_time_ms := 9;
     watermark := {| low := Some 3; high := Some 8 |}; encryption_provider := []; encryption_metadata := [] |}.

Definition sample_edit : VersionEdit :=
  {| next_file_number := 12; added := [sample_file 11 [x61] [x7a]];
     deleted := [ {| ref_level := 0; ref_number := 4 |} ]; compaction_pointers := [(1, [x6d])];
     truncation_point := [x61]; floor_update := SetFloor; watermark_floor := {| position := Some 3 |} |}.

Lemma sample_file_ok number a b :
  is_u64 number -> str_ok a -> str_ok b -> file_ok (sample_file number a b).
Proof.
  intros Hn Ha Hb. split; simpl; [unfold level_ok, kMaxLevels; lia|done| | |].
  - repeat constructor; try done; unfold str_ok, zlen; simpl; lia.
  - repeat constructor; unfold is_u64; lia.
  - split; [intros l [= <-]; exists 8; split; [done|lia]|]. split; intros l [= <-]; unfold is_u64; lia.
Qed.

(** C22: an edit decodes, from its own encoding, to itself: files with their watermarks, deletions, compaction pointers,
    the truncation point and the three-way floor update. For edits the decoder has room for: numbers and lengths in range,
    a floor only where one is set, levels of at most [kMaxLevels] (1024) and a record of at most 256 MiB. The writer enforces
    neither of the last two. *)
Theorem edit_round_trip (ops : CodecOps) e :
  CodecLaws ops -> lz4_max_input <= 2 ^ 31 - 1 -> edit_ok e -> zlen (edit_content e) <= kMaxManifestBytes ->
  decode_version_edit (encode_version_edit e) = Value e.
Proof. intros Hl Hm He Hz. by apply decode_edit_ok. Qed.

Lemma edit_round_trip_witness :
  decode_version_edit (ops := copy_codec) (encode_version_edit (ops := copy_codec) sample_edit) = Value sample_edit.
Proof.
  apply (edit_round_trip copy_codec sample_edit); [apply copy_codec_laws|simpl; lia| |vm_compute; congruence].
  split; simpl.
  - unfold is_u64. lia.
  - split; [simpl; lia|]. apply Forall_singleton, sample_file_ok; [unfold is_u64; lia|done|done].
  - split; [simpl; lia|]. repeat constructor; simpl; unfold level_ok, kMaxLevels, is_u64; lia.
  - split; [simpl; lia|]. repeat constructor; simpl; unfold level_ok, kMaxLevels, str_ok, zlen; simpl; lia.
  - unfold str_ok, zlen. simpl. lia.
  - intros l [= <-]. unfold is_u64. lia.
  - done.
Defined.

(** A snapshot that the compressor accepts decodes to itself, floor and pointers included. *)
Theorem snapshot_round_trip (ops : CodecOps) s raw :
  CodecLaws ops -> lz4_max_input <= 2 ^ 31 - 1 -> snapshot_ok s -> zlen (snapshot_content s) <= kMaxManifestBytes ->
  frame_block (snapshot_content s) Zstd = Value raw ->
  decode_version_snapshot (encode_version_snapshot s) = Value s.
Proof. intros Hl Hm Hs Hz Hf. by eapply decode_snapshot_ok. Qed.

Definition sample_snapshot : VersionSnapshot :=
  {| snap_next_file_number := 12; snap_files := [sample_file 11 [x61] [x7a]];
     snap_compaction_pointers := [(1, [x6d])]; snap_truncation_point := [];
     snap_watermark_floor := Some {| position := None |} |}.

Lemma snapshot_round_trip_witness :
  decode_version_snapshot (ops := copy_codec) (encode_version_snapshot (ops := copy_codec) sample_snapshot) =
  Value sample_snapshot.
Proof.
  eapply (snapshot_round_trip copy_codec sample_snapshot);
    [apply copy_codec_laws|simpl; lia| |vm_compute; congruence|reflexivity].
  split; simpl.
  - unfold is_u64. lia.
  - split; [simpl; lia|]. apply Forall_singleton, sample_file_ok; [unfold is_u64; lia|done|done].
  - split; [simpl; lia|]. repeat constructor; simpl; unfold level_ok, kMaxLevels, str_ok, zlen; simpl; lia.
  - unfold str_ok, zlen. simpl. lia.
  - intros f [= <-] l [=].
Defined.
