(* ===== verification/Version.v ===== *)
(** * Versions

    [src/version/version.hpp] and [version.cpp]: the immutable snapshot of the file set, one list of
    files per level, and the questions the read path, compaction and reclamation ask of it. A
    [std::vector] is a list, [std::lower_bound] and [std::upper_bound] are the binary search of the
    prelude, and [std::sort] is [merge_sort] at the order the comparator induces (a total one, since
    file numbers are unique). *)

From S2P Require Import Prelude Slice Format Framing Watermark VersionEdit.

(** ** Definitions *)

Definition carries_range (f : FileMetadata) : bool := negb (num_range_tombstones f =? 0).

Record Version := {
  levels_ : list (list FileMetadata);
  carries_ranges_ : list bool;
  next_file_number_ : Z;
  compaction_pointers_ : gmap Z bytes;
  truncation_point_ : bytes;
  watermark_floor_ : option WatermarkFloor
}.

(** The constructor, which computes [carries_ranges_]. *)
Definition make_version (levels : list (list FileMetadata)) (next : Z) (pointers : gmap Z bytes)
    (point : bytes) (floor : option WatermarkFloor) : Version :=
  {| levels_ := levels; carries_ranges_ := map (existsb carries_range) levels;
     next_file_number_ := next; compaction_pointers_ := pointers; truncation_point_ := point;
     watermark_floor_ := floor |}.

(** [Version()]. *)
Definition empty_version : Version := make_version [] 1 ∅ [] None.

Definition num_levels (v : Version) : Z := Z.of_nat (length (levels_ v)).

Definition files_at (v : Version) (lvl : Z) : list FileMetadata :=
  if (lvl <? 0) || (num_levels v <=? lvl) then [] else default [] (levels_ v !! Z.to_nat lvl).

Definition carries_ranges (v : Version) (lvl : Z) : bool :=
  (0 <=? lvl) && (lvl <? Z.of_nat (length (carries_ranges_ v))) &&
  default false (carries_ranges_ v !! Z.to_nat lvl).

Definition truncated (v : Version) (key : bytes) : bool :=
  negb (bool_decide (truncation_point_ v = [])) && (key <?k truncation_point_ v).

(** The comparators of [sort_level]: newest first at L0, by key below it. *)
Definition newer_first (a b : FileMetadata) : Prop := file_number b <= file_number a.

Definition by_key (a b : FileMetadata) : Prop :=
  smallest_key a <k smallest_key b \/
  (smallest_key a = smallest_key b /\ file_number a <= file_number b).

#[export] Instance newer_first_dec : RelDecision newer_first.
Proof. unfold newer_first. intros a b. apply _. Defined.

#[export] Instance by_key_dec : RelDecision by_key.
Proof. unfold by_key. intros a b. apply _. Defined.

Definition sort_level (lvl : nat) (files : list FileMetadata) : list FileMetadata :=
  match lvl with
  | O => merge_sort newer_first files
  | S _ => merge_sort by_key files
  end.

Definition sum_bytes (files : list FileMetadata) : Z :=
  fold_left (fun total f => u64 (total + file_bytes f)) files 0.

Definition total_bytes (v : Version) (lvl : Z) : Z := sum_bytes (files_at v lvl).

Definition file_count (v : Version) (lvl : Z) : Z := Z.of_nat (length (files_at v lvl)).

Definition oldest_write_time_ms (v : Version) (lvl : Z) : Z :=
  fold_left
    (fun oldest f =>
       if (oldest =? 0) || (min_write_time_ms f <? oldest) then min_write_time_ms f else oldest)
    (files_at v lvl) 0.

(** An empty upper bound is the end of the keyspace. *)
Definition unbounded (upper : bytes) : bool := bool_decide (upper = []).

Definition overlaps_half_open (lower upper : bytes) (f : FileMetadata) : bool :=
  let data_overlaps :=
    negb (largest_key f <?k lower) && negb (negb (unbounded upper) && (upper <=?k smallest_key f)) in
  let ranges_overlap :=
    carries_range f && negb (largest_range_key f <=?k lower) &&
    negb (negb (unbounded upper) && (upper <=?k smallest_range_key f)) in
  data_overlaps || ranges_overlap.

Definition overlapping_half_open (v : Version) (lvl : Z) (lower upper : bytes) : list FileMetadata :=
  List.filter (overlaps_half_open lower upper) (files_at v lvl).

Definition overlapping_index_range (v : Version) (lvl : Z) (lower upper : bytes) : nat * nat :=
  let files := files_at v lvl in
  let first := lower_bound (fun f => largest_key f <?k lower) files in
  let last :=
    if negb (unbounded upper)
    then (first + lower_bound (fun f => smallest_key f <?k upper) (drop first files))%nat
    else length files in
  (first, last).

Definition holds_in (lower upper : bytes) (f : FileMetadata) : bool :=
  negb (num_entries f =? 0) && negb (largest_key f <?k lower) &&
  negb (negb (unbounded upper) && negb (smallest_key f <?k upper)).

Definition any_file_holds (v : Version) (lower upper : bytes) : bool :=
  if negb (unbounded upper) && negb (lower <?k upper) then false
  else existsb (existsb (holds_in lower upper)) (levels_ v).

Definition overlaps_inclusive (first last : bytes) (f : FileMetadata) : bool :=
  negb (effective_largest f <?k first) && negb (last <?k effective_smallest f).

Definition overlapping_inclusive (v : Version) (lvl : Z) (first last : bytes) : list FileMetadata :=
  List.filter (overlaps_inclusive first last) (files_at v lvl).

Definition all_files (v : Version) : list FileMetadata := concat (levels_ v).

Definition files_entirely_truncated (v : Version) : list FileMetadata :=
  if bool_decide (truncation_point_ v = []) then []
  else List.filter (fun f => effective_largest f <?k truncation_point_ v) (all_files v).

Record RangeDropCandidate := { rd_file : FileMetadata; rd_cover : FileMetadata; rd_exact : bool }.

(** Strictly newer: a lower level, or the same level and a higher file number. *)
Definition newer_than (cover f : FileMetadata) : bool :=
  (level cover <? level f) ||
  ((level cover =? level f) && (file_number f <? file_number cover)).

Definition cover_admits (f cover : FileMetadata) : bool :=
  newer_than cover f && (smallest_range_key cover <=?k smallest_key f) &&
  (largest_key f <?k largest_range_key cover).

Definition range_drop_candidates (v : Version) : list RangeDropCandidate :=
  let covers := List.filter carries_range (all_files v) in
  omap
    (fun f =>
       if carries_range f || (num_entries f =? 0) then None
       else match List.find (cover_admits f) covers with
            | Some cover =>
                Some {| rd_file := f; rd_cover := cover; rd_exact := num_range_tombstones cover =? 1 |}
            | None => None
            end)
    (all_files v).

Definition data_span_index_range (v : Version) (lvl : Z) (first last : bytes) : nat * nat :=
  let files := files_at v lvl in
  let b := lower_bound (fun f => largest_key f <?k first) files in
  let e := lower_bound (fun f => negb (last <?k smallest_key f)) files in
  if Nat.ltb e b then (b, b) else (b, e).

Definition slice_files (files : list FileMetadata) (r : nat * nat) : list FileMetadata :=
  take (r.2 - r.1) (drop r.1 files).

(** The body of the inner loop of [older_file_overlaps]. *)
Definition older_overlap (f other : FileMetadata) : bool :=
  newer_than f other && negb (largest_key other <?k smallest_key f) &&
  negb (largest_key f <?k smallest_key other).

Definition older_file_overlaps (v : Version) (f : FileMetadata) : bool :=
  existsb
    (fun lvl =>
       let others := files_at v lvl in
       let r := if 0 <? lvl then data_span_index_range v lvl (smallest_key f) (largest_key f)
                else (0%nat, length others) in
       existsb (older_overlap f) (slice_files others r))
    (seqZ (level f) (num_levels v - level f)).

Definition expired_before (v : Version) (cutoff : Z) (f : FileMetadata) : bool :=
  negb (max_write_time_ms f =? 0) && negb (cutoff <? max_write_time_ms f) &&
  negb (carries_range f) && negb (older_file_overlaps v f).

Definition files_expired_before (v : Version) (cutoff : Z) : list FileMetadata :=
  List.filter (expired_before v cutoff) (all_files v).

(** [std::erase_if] of one [FileRef]. *)
Definition erase_ref (levels : list (list FileMetadata)) (r : FileRef) : list (list FileMetadata) :=
  if (ref_level r <? 0) || (Z.of_nat (length levels) <=? ref_level r) then levels
  else alter (List.filter (fun f => negb (file_number f =? ref_number r))) (Z.to_nat (ref_level r)) levels.

(** [levels.resize(n)] to a larger size. *)
Definition grow (n : nat) (levels : list (list FileMetadata)) : list (list FileMetadata) :=
  levels ++ replicate (n - length levels) [].

Definition add_file (levels : list (list FileMetadata)) (f : FileMetadata) : list (list FileMetadata) :=
  if level f <? 0 then levels
  else
    let levels := if Z.of_nat (length levels) <=? level f then grow (Z.to_nat (level f + 1)) levels
                  else levels in
    alter (fun files => files ++ [f]) (Z.to_nat (level f)) levels.

Definition apply_floor (floor : option WatermarkFloor) (e : VersionEdit) : option WatermarkFloor :=
  match floor_update e with
  | Silent => floor
  | SetFloor => Some (watermark_floor e)
  | Clear => None
  end.

Definition apply (base : Version) (e : VersionEdit) : Version :=
  let levels := fold_left erase_ref (deleted e) (levels_ base) in
  let levels := fold_left add_file (added e) levels in
  let levels := imap sort_level levels in
  let pointers := fold_left (fun m p => <[p.1 := p.2]> m) (compaction_pointers e)
                    (compaction_pointers_ base) in
  make_version levels
    (Z.max (next_file_number_ base) (next_file_number e))
    pointers
    (if truncation_point_ base <?k truncation_point e then truncation_point e
     else truncation_point_ base)
    (apply_floor (watermark_floor_ base) e).

(** ** Searches agree with scans *)

(** What the binary searches of a level rely on: both ends of the data spans go up. *)
Definition spans_monotone (files : list FileMetadata) : Prop :=
  StronglySorted (fun a b => smallest_key a <=k smallest_key b /\ largest_key a <=k largest_key b) files.

Lemma spans_partitioned_largest files k :
  spans_monotone files -> partitioned (fun f => largest_key f <?k k) files.
Proof. intros H. eapply partitioned_sorted; [exact H|]. simpl. intros x y [_ ?] ?. key_order. Qed.

Lemma spans_partitioned_smallest files k :
  spans_monotone files -> partitioned (fun f => smallest_key f <?k k) files.
Proof. intros H. eapply partitioned_sorted; [exact H|]. simpl. intros x y [? _] ?. key_order. Qed.

Lemma spans_partitioned_starts files k :
  spans_monotone files -> partitioned (fun f => negb (k <?k smallest_key f)) files.
Proof. intros H. eapply partitioned_sorted; [exact H|]. simpl. intros x y [? _] ?. key_order. Qed.

Lemma index_range_scan v lvl lower upper :
  spans_monotone (files_at v lvl) -> Forall (fun f => carries_range f = false) (files_at v lvl) ->
  slice_files (files_at v lvl) (overlapping_index_range v lvl lower upper) =
  overlapping_half_open v lvl lower upper.
Proof.
  intros Hs Hr. unfold overlapping_index_range, overlapping_half_open, slice_files. cbn [fst snd].
  set (files := files_at v lvl) in *.
  destruct (partitioned_filter _ _ (spans_partitioned_largest files lower Hs)) as [_ E].
  transitivity (List.filter (fun f => negb (largest_key f <?k lower) &&
                  (unbounded upper || (smallest_key f <?k upper))) files).
  - destruct (unbounded upper); simpl.
    + rewrite take_ge by (rewrite length_drop; lia). rewrite <- E.
      apply filter_ext. intros f. by rewrite andb_true_r.
    + rewrite Nat.add_sub', <- (filter_filter _ (fun f => smallest_key f <?k upper)), E.
      symmetry. apply partitioned_filter, partitioned_drop, spans_partitioned_smallest, Hs.
  - apply filter_ext_in. intros f Hf%list_elem_of_In. rewrite Forall_forall in Hr. unfold overlaps_half_open.
    rewrite (Hr f Hf). simpl. rewrite orb_false_r. f_equal. destruct (unbounded upper); [done|].
    simpl. destruct (smallest_key f <?k upper) eqn:?, (upper <=?k smallest_key f) eqn:?; try done; key_order.
Qed.

Lemma span_range_window v lvl first last :
  spans_monotone (files_at v lvl) ->
  slice_files (files_at v lvl) (data_span_index_range v lvl first last) =
  List.filter (fun f => negb (largest_key f <?k first) && negb (last <?k smallest_key f)) (files_at v lvl).
Proof.
  intros Hs. rewrite <- partitioned_window; [|by apply spans_partitioned_largest|by apply spans_partitioned_starts].
  unfold data_span_index_range, slice_files. destruct (Nat.ltb_spec
    (lower_bound (fun f => negb (last <?k smallest_key f)) (files_at v lvl))
    (lower_bound (fun f => largest_key f <?k first) (files_at v lvl))); cbn [fst snd]; [|done].
  f_equal. lia.
Qed.

(** Every file is filed under its own level. *)
Definition filed (v : Version) : Prop := forall lvl f, f ∈ files_at v lvl -> level f = lvl.

Lemma elem_of_all_files v f : f ∈ all_files v <-> exists lvl, f ∈ files_at v lvl.
Proof.
  unfold all_files, files_at, num_levels. rewrite list_elem_of_In, in_concat. split.
  - intros (l & Hl & Hf). rewrite <- list_elem_of_In in Hl. rewrite <- list_elem_of_In in Hf. apply list_elem_of_lookup in Hl as [i Hi].
    exists (Z.of_nat i). pose proof (lookup_lt_Some _ _ _ Hi).
    replace (_ || _) with false by lia. by rewrite Nat2Z.id, Hi.
  - intros (lvl & Hf). destruct (_ || _); [by apply elem_of_nil in Hf|].
    destruct (levels_ v !! Z.to_nat lvl) as [l|] eqn:E; simpl in Hf; [|by apply elem_of_nil in Hf].
    exists l. rewrite <- !list_elem_of_In. split; [by eapply list_elem_of_lookup_2|done].
Qed.

Lemma files_at_bounds v lvl f : f ∈ files_at v lvl -> 0 <= lvl < num_levels v.
Proof.
  unfold files_at. destruct (_ || _) eqn:E; [by intros ?%elem_of_nil|]. intros _.
  apply orb_false_iff in E as [? ?]. zbool. lia.
Qed.

Lemma older_overlaps_scan v f :
  filed v -> (forall lvl, 0 < lvl -> spans_monotone (files_at v lvl)) -> 0 <= level f ->
  older_file_overlaps v f = existsb (older_overlap f) (all_files v).
Proof.
  intros Hf Hs Hl. apply eq_true_iff_eq. unfold older_file_overlaps. rewrite !existsb_elem. split.
  - intros (lvl & Hlvl & (o & Ho & Hold)%existsb_elem). exists o. split; [|done].
    apply elem_of_all_files. exists lvl. destruct (Z.ltb_spec 0 lvl).
    + rewrite span_range_window in Ho by auto. by apply elem_of_filter_bool in Ho as [? _].
    + unfold slice_files in Ho. simpl in Ho. by rewrite drop_0, Nat.sub_0_r, firstn_all in Ho.
  - intros (o & (lvl & Ho)%elem_of_all_files & Hold). exists lvl.
    pose proof (files_at_bounds _ _ _ Ho). pose proof (Hf _ _ Ho) as El.
    pose proof Hold as Hold'. unfold older_overlap, newer_than in Hold. rewrite El in Hold.
    apply andb_true_iff in Hold as [[Hn H1]%andb_true_iff H2].
    split; [apply elem_of_seqZ; apply orb_true_iff in Hn as [?|?]; zbool; lia|].
    apply existsb_elem. exists o. split; [|done]. destruct (Z.ltb_spec 0 lvl).
    + rewrite span_range_window by auto. apply elem_of_filter_bool. split; [done|]. by rewrite H1, H2.
    + unfold slice_files. simpl. by rewrite drop_0, Nat.sub_0_r, firstn_all.
Qed.

(** ** What [apply] does to a level *)

Definition level_list (levels : list (list FileMetadata)) (n : nat) : list FileMetadata :=
  default [] (levels !! n).

Lemma files_at_level_list v lvl : 0 <= lvl -> files_at v lvl = level_list (levels_ v) (Z.to_nat lvl).
Proof.
  intros H. unfold files_at, level_list, num_levels. destruct (_ || _) eqn:E; [|done].
  apply orb_true_iff in E as [?|?]; zbool; [lia|]. by rewrite lookup_ge_None_2 by lia.
Qed.

Definition is_ref (n : nat) (f : FileMetadata) (r : FileRef) : bool :=
  (ref_level r =? Z.of_nat n) && (file_number f =? ref_number r).

Definition deletes (refs : list FileRef) (n : nat) (f : FileMetadata) : bool :=
  existsb (is_ref n f) refs.

Lemma erase_ref_level levels r n :
  level_list (erase_ref levels r) n = List.filter (fun f => negb (is_ref n f r)) (level_list levels n).
Proof.
  unfold erase_ref, level_list, is_ref.
  assert (forall l : list FileMetadata, ref_level r <> Z.of_nat n ->
    List.filter (fun f => negb ((ref_level r =? Z.of_nat n) && (file_number f =? ref_number r))) l = l) as Hid.
  { intros l Hne. rewrite (filter_ext _ (fun _ => true)); [by induction l as [|a l IH]; simpl; [|rewrite IH]|].
    intros f. by rewrite (proj2 (Z.eqb_neq _ _) Hne). }
  destruct (_ || _) eqn:E.
  - destruct (levels !! n) as [l|] eqn:El; simpl; [|done]. apply lookup_lt_Some in El.
    symmetry. apply Hid. apply orb_true_iff in E as [?|?]; zbool; lia.
  - apply orb_false_iff in E as [? ?]; zbool. destruct (decide (Z.to_nat (ref_level r) = n)) as [<-|Hne].
    + rewrite list_lookup_alter_eq. rewrite Z2Nat.id, Z.eqb_refl by lia.
      by destruct (levels !! Z.to_nat (ref_level r)).
    + rewrite list_lookup_alter_ne by done. symmetry. apply Hid. lia.
Qed.

Lemma erase_refs_level refs levels n :
  level_list (fold_left erase_ref refs levels) n =
  List.filter (fun f => negb (deletes refs n f)) (level_list levels n).
Proof.
  revert levels. induction refs as [|r refs IH]; intros levels; simpl.
  - symmetry. induction (level_list levels n) as [|a l IHl]; simpl; [done|]. by rewrite IHl.
  - rewrite IH, erase_ref_level, filter_filter. apply filter_ext. intros f. by rewrite negb_orb.
Qed.

Lemma grow_level m levels n : level_list (grow m levels) n = level_list levels n.
Proof.
  unfold level_list, grow. destruct (decide (n < length levels)%nat).
  - by rewrite lookup_app_l by done.
  - rewrite lookup_app_r, (lookup_ge_None_2 levels) by lia.
    destruct (replicate (m - length levels) [] !! (n - length levels)%nat) eqn:E; [|done].
    by apply lookup_replicate in E as [-> _].
Qed.

Lemma add_file_level levels f n :
  level_list (add_file levels f) n =
  level_list levels n ++ List.filter (fun g => level g =? Z.of_nat n) [f].
Proof.
  unfold add_file. destruct (Z.ltb_spec (level f) 0).
  { simpl. destruct (Z.eqb_spec (level f) (Z.of_nat n)); [lia|]. by rewrite app_nil_r. }
  set (levels' := if Z.of_nat (length levels) <=? level f then grow _ levels else levels).
  assert (level_list levels' n = level_list levels n) as <- by (subst levels'; case_match; [apply grow_level|done]).
  assert (Z.to_nat (level f) < length levels')%nat as Hlen.
  { subst levels'. destruct (Z.leb_spec (Z.of_nat (length levels)) (level f)); [|lia].
    unfold grow. rewrite length_app, length_replicate. lia. }
  simpl. unfold level_list. destruct (Z.eqb_spec (level f) (Z.of_nat n)) as [E|E].
  - replace (Z.to_nat (level f)) with n in * by lia. rewrite list_lookup_alter_eq.
    by destruct (lookup_lt_is_Some_2 _ _ Hlen) as [l ->].
  - rewrite list_lookup_alter_ne by lia. by rewrite app_nil_r.
Qed.

Lemma add_files_level adds levels n :
  level_list (fold_left add_file adds levels) n =
  level_list levels n ++ List.filter (fun g => level g =? Z.of_nat n) adds.
Proof.
  revert levels. induction adds as [|f adds IH]; intros levels; simpl; [by rewrite app_nil_r|].
  rewrite IH, add_file_level, <- app_assoc. f_equal. simpl. by destruct (level f =? Z.of_nat n).
Qed.

Lemma sort_level_nil n : sort_level n [] = [].
Proof. by destruct n. Qed.

Lemma apply_level v e lvl :
  0 <= lvl ->
  files_at (apply v e) lvl =
  sort_level (Z.to_nat lvl)
    (List.filter (fun f => negb (deletes (deleted e) (Z.to_nat lvl) f)) (files_at v lvl) ++
     List.filter (fun f => level f =? lvl) (added e)).
Proof.
  intros H. rewrite !files_at_level_list by done. unfold apply. cbn [levels_ make_version].
  unfold level_list at 1. rewrite list_lookup_imap.
  transitivity (sort_level (Z.to_nat lvl) (level_list
    (fold_left add_file (added e) (fold_left erase_ref (deleted e) (levels_ v))) (Z.to_nat lvl))).
  - set (built := fold_left add_file _ _). unfold level_list.
    destruct (built !! Z.to_nat lvl); simpl; [done|by rewrite sort_level_nil].
  - by rewrite add_files_level, erase_refs_level, Z2Nat.id.
Qed.

Lemma sort_level_perm n l : sort_level n l ≡ₚ l.
Proof. destruct n; apply merge_sort_Permutation. Qed.

Lemma elem_of_apply v e lvl f :
  f ∈ files_at (apply v e) lvl <->
  (f ∈ files_at v lvl /\ deletes (deleted e) (Z.to_nat lvl) f = false) \/
  (f ∈ added e /\ level f = lvl /\ 0 <= lvl).
Proof.
  destruct (decide (0 <= lvl)) as [H|H].
  - rewrite apply_level, sort_level_perm, elem_of_app, !elem_of_filter_bool, negb_true_iff, Z.eqb_eq by done.
    tauto.
  - split; [intros ?%files_at_bounds; lia|]. intros [[?%files_at_bounds _]|?]; lia.
Qed.

#[export] Instance newer_first_trans : Transitive newer_first.
Proof. unfold newer_first. intros a b c. lia. Qed.
#[export] Instance newer_first_total : Total newer_first.
Proof. unfold newer_first. intros a b. lia. Qed.
#[export] Instance by_key_trans : Transitive by_key.
Proof.
  unfold by_key. intros a b c [?|[E ?]] [?|[E' ?]]; [left; key_order|rewrite <- E'; by left|rewrite E; by left|].
  right. split; [congruence|lia].
Qed.
#[export] Instance by_key_total : Total by_key.
Proof.
  unfold by_key. intros a b. destruct (key_trichotomy (smallest_key a) (smallest_key b)) as [?|[E|?]]; [by left; left| |by right; left].
  rewrite E. destruct (Z.le_ge_cases (file_number a) (file_number b)); [left|right]; right; (split; [done|lia]).
Qed.

(** The order each level is kept in. *)
Definition level_order (lvl : Z) : FileMetadata -> FileMetadata -> Prop :=
  if lvl =? 0 then newer_first else by_key.

Definition ordered (v : Version) : Prop := forall lvl, StronglySorted (level_order lvl) (files_at v lvl).

Lemma files_at_neg v lvl : lvl < 0 -> files_at v lvl = [].
Proof. intros. unfold files_at. by replace (lvl <? 0) with true by lia. Qed.

Lemma apply_ordered v e : ordered (apply v e).
Proof.
  intros lvl. destruct (Z.lt_ge_cases lvl 0); [rewrite files_at_neg by done; constructor|].
  rewrite apply_level by done. unfold level_order. destruct (Z.eqb_spec lvl 0) as [->|].
  - apply StronglySorted_merge_sort; apply _.
  - destruct (Z.to_nat lvl) eqn:E; [lia|]. apply StronglySorted_merge_sort; apply _.
Qed.

Lemma apply_filed v e : filed v -> filed (apply v e).
Proof. intros Hv lvl f [[Hf _]|(_ & ? & _)]%elem_of_apply; [by apply Hv|done]. Qed.

(** [carries_ranges] is the truth about the level, for every version the constructor built. *)
Lemma carries_ranges_make levels next ptrs point floor lvl :
  let v := make_version levels next ptrs point floor in
  carries_ranges v lvl = existsb carries_range (files_at v lvl).
Proof.
  cbv zeta. unfold carries_ranges, files_at, num_levels. cbn [levels_ carries_ranges_ make_version].
  rewrite length_map. destruct (Z.leb_spec 0 lvl), (Z.ltb_spec lvl 0); simpl; try lia; try done.
  destruct (Z.ltb_spec lvl (Z.of_nat (length levels))), (Z.leb_spec (Z.of_nat (length levels)) lvl); simpl; try lia; try done.
  change (map (existsb carries_range) levels) with (existsb carries_range <$> levels).
  rewrite list_lookup_fmap. by destruct (levels !! Z.to_nat lvl).
Qed.

(** ** Properties *)

(** Applying an edit gives each level exactly the files it had and did not lose plus the files
    added to it, filed under their own level and in the level's order (newest first at L0, by key
    below), whatever version and edit; and the truncation point never moves back. *)
Theorem apply_edit_exact v e :
  (forall lvl f, f ∈ files_at (apply v e) lvl <->
     (f ∈ files_at v lvl /\ deletes (deleted e) (Z.to_nat lvl) f = false) \/
     (f ∈ added e /\ level f = lvl /\ 0 <= lvl)) /\
  ordered (apply v e) /\
  (forall lvl, carries_ranges (apply v e) lvl = existsb carries_range (files_at (apply v e) lvl)) /\
  truncation_point_ v <=k truncation_point_ (apply v e).
Proof.
  split_and!.
  - intros lvl f. apply elem_of_apply.
  - apply apply_ordered.
  - intros lvl. apply carries_ranges_make.
  - unfold apply. simpl. destruct (truncation_point_ v <?k truncation_point e) eqn:E; key_order.
Qed.

Definition at_level (lvl : Z) (f : FileMetadata) : FileMetadata :=
  {| level := lvl; file_number := file_number f; store_id := store_id f; smallest_key := smallest_key f;
     largest_key := largest_key f; file_bytes := file_bytes f; num_entries := num_entries f;
     num_tombstones := num_tombstones f; num_range_tombstones := num_range_tombstones f;
     smallest_range_key := smallest_range_key f; largest_range_key := largest_range_key f;
     compression := compression f; min_write_time_ms := min_write_time_ms f;
     max_write_time_ms := max_write_time_ms f; watermark := watermark f;
     encryption_provider := encryption_provider f; encryption_metadata := encryption_metadata f |}.

Definition sample_version : Version :=
  make_version [ [sample_file 4 [x61] [x7a]];
                 [at_level 1 (sample_file 1 [x62] [x64]); at_level 1 (sample_file 2 [x66] [x68])] ] 5 ∅ [] None.

(** On a level without range tombstones whose spans go up, the binary searches of
    [overlapping_index_range] find exactly the files the linear scan of [overlapping_half_open]
    keeps, for every half-open range (an empty upper bound is no bound). *)
Theorem overlap_search_is_scan v lvl lower upper :
  spans_monotone (files_at v lvl) -> Forall (fun f => carries_range f = false) (files_at v lvl) ->
  slice_files (files_at v lvl) (overlapping_index_range v lvl lower upper) =
  overlapping_half_open v lvl lower upper.
Proof. apply index_range_scan. Qed.

Lemma overlap_search_is_scan_witness :
  slice_files (files_at sample_version 1) (overlapping_index_range sample_version 1 [x63] [x67]) =
  overlapping_half_open sample_version 1 [x63] [x67].
Proof.
  apply (overlap_search_is_scan sample_version 1 [x63] [x67]); simpl; repeat constructor; vm_compute; done.
Defined.

(** Whether an older file overlaps a file's data span, searched level by level, is whether any
    older file of the version does: the test an expired file must pass before it is dropped. *)
Theorem older_overlap_search_is_scan v f :
  filed v -> (forall lvl, 0 < lvl -> spans_monotone (files_at v lvl)) -> 0 <= level f ->
  older_file_overlaps v f = existsb (older_overlap f) (all_files v).
Proof. apply older_overlaps_scan. Qed.

Lemma sample_files_at lvl :
  files_at sample_version lvl = [] \/ (lvl = 0 /\ files_at sample_version lvl = [sample_file 4 [x61] [x7a]]) \/
  (lvl = 1 /\ files_at sample_version lvl =
     [at_level 1 (sample_file 1 [x62] [x64]); at_level 1 (sample_file 2 [x66] [x68])]).
Proof.
  unfold files_at. destruct (_ || _) eqn:E; [by left|]. apply orb_false_iff in E as [? ?]. zbool.
  unfold num_levels in *. simpl in *. assert (lvl = 0 \/ lvl = 1) as [->| ->] by lia; auto.
Qed.

Lemma older_overlap_search_is_scan_witness :
  older_file_overlaps sample_version (sample_file 4 [x61] [x7a]) =
  existsb (older_overlap (sample_file 4 [x61] [x7a])) (all_files sample_version).
Proof.
  apply (older_overlap_search_is_scan sample_version (sample_file 4 [x61] [x7a])); [| |simpl; lia].
  - intros lvl f. destruct (sample_files_at lvl) as [->|[[-> ->]|[-> ->]]].
    + by intros ?%elem_of_nil.
    + by intros ->%list_elem_of_singleton.
    + by intros [->|[->|?%elem_of_nil]%elem_of_cons]%elem_of_cons.
  - intros lvl Hl. destruct (sample_files_at lvl) as [->|[[-> ->]|[-> ->]]]; [constructor|lia|].
    repeat constructor; vm_compute; done.
Defined.
