(* ===== verification/Catalog.v ===== *)
(** * The manifest catalog

    [include/elysiumkv/manifest_catalog.hpp]: where manifest payloads live, and the one pointer that names
    the live generation. The interface is a class of operations over a state of their own, threaded by the
    caller; a future is its result. The laws state what the header documents, for a store one writer uses:
    objects are written once, a failed write may leave nothing, the start of the object or all of it, a
    failed swap of the pointer may have happened, and a read answers what is there or fails. [mem_catalog] is a catalog in memory whose writes (and, if
    asked, reads) follow a script of outcomes. *)

From S2P Require Import Prelude Slice.

(** ** The interface *)

Record Entry := { generation : Z; token : bytes }.

#[export] Instance Entry_eq_dec : EqDecision Entry.
Proof. solve_decision. Defined.

Class ManifestCatalog (M : Type) : Type := {
  cat_read : M -> Result (option Entry) * M;
  compare_and_set : option Entry -> Z -> M -> Result (option Entry) * M;
  put_snapshot : Z -> bytes -> M -> Status * M;
  get_snapshot : Z -> M -> Result bytes * M;
  put_edit : Z -> Z -> bytes -> M -> Status * M;
  get_edit : Z -> Z -> M -> Result bytes * M;
  list_edits : Z -> M -> Result (list Z) * M;
  delete_generation : Z -> M -> Status * M;
  list_generations : M -> Result (list Z) * M
}.

(** ** What a catalog holds *)

Record Manifest := {
  mf_pointer : option Entry;
  mf_snapshots : gmap Z bytes;
  mf_edits : gmap (Z * Z) bytes
}.

Definition empty_manifest : Manifest := {| mf_pointer := None; mf_snapshots := ∅; mf_edits := ∅ |}.

Definition set_pointer (mf : Manifest) (e : option Entry) : Manifest :=
  {| mf_pointer := e; mf_snapshots := mf_snapshots mf; mf_edits := mf_edits mf |}.

Definition set_snapshot (mf : Manifest) (g : Z) (b : bytes) : Manifest :=
  {| mf_pointer := mf_pointer mf; mf_snapshots := <[g := b]> (mf_snapshots mf); mf_edits := mf_edits mf |}.

Definition set_edit (mf : Manifest) (g seq : Z) (b : bytes) : Manifest :=
  {| mf_pointer := mf_pointer mf; mf_snapshots := mf_snapshots mf; mf_edits := <[(g, seq) := b]> (mf_edits mf) |}.

(** Everything outside generation [g] stays, and nothing appears in it. *)
Definition shrinks_at (g : Z) (mf mf' : Manifest) : Prop :=
  mf_pointer mf' = mf_pointer mf /\
  (forall g', g' <> g -> mf_snapshots mf' !! g' = mf_snapshots mf !! g') /\
  (forall g' seq, g' <> g -> mf_edits mf' !! (g', seq) = mf_edits mf !! (g', seq)) /\
  (forall g' seq, mf_edits mf !! (g', seq) = None -> mf_edits mf' !! (g', seq) = None).

Definition found {A} (o : option A) : Result A := match o with Some a => Value a | None => Unexpected NotFound end.

(** ** The laws *)

(** A read answers what is there, or fails; it does not take an object that is there for missing. *)
Definition answers {A} (truth r : Result A) : Prop := r = truth \/ exists s, r = Unexpected s /\ s <> Ok /\ s <> NotFound.

Class CatalogLaws {M : Type} (cat : ManifestCatalog M) (view : M -> Manifest) : Prop := {
  law_read : forall m r m', cat_read m = (r, m') -> view m' = view m /\ answers (Value (mf_pointer (view m))) r;
  law_get_snapshot : forall g m r m', get_snapshot g m = (r, m') -> view m' = view m /\ answers (found (mf_snapshots (view m) !! g)) r;
  law_get_edit : forall g seq m r m', get_edit g seq m = (r, m') -> view m' = view m /\ answers (found (mf_edits (view m) !! (g, seq))) r;
  law_list_edits : forall g m r m', list_edits g m = (r, m') -> view m' = view m /\
    match r with Value l => NoDup l /\ forall seq, seq ∈ l <-> is_Some (mf_edits (view m) !! (g, seq)) | Unexpected s => s <> Ok end;
  law_list_generations : forall m r m', list_generations m = (r, m') -> view m' = view m /\
    match r with Value l => Forall is_u64 l | Unexpected s => s <> Ok end;
  law_put_snapshot : forall g b m s m', put_snapshot g b m = (s, m') ->
    (s = Ok -> mf_snapshots (view m) !! g = None /\ view m' = set_snapshot (view m) g b) /\
    (s <> Ok -> view m' = view m \/ mf_snapshots (view m) !! g = None /\ exists n, view m' = set_snapshot (view m) g (take n b));
  law_put_edit : forall g seq b m s m', put_edit g seq b m = (s, m') ->
    (s = Ok -> mf_edits (view m) !! (g, seq) = None /\ view m' = set_edit (view m) g seq b) /\
    (s <> Ok -> view m' = view m \/ mf_edits (view m) !! (g, seq) = None /\ exists n, view m' = set_edit (view m) g seq (take n b));
  law_compare_and_set : forall expected g m r m', compare_and_set expected g m = (r, m') ->
    match r with
    | Value (Some e) => mf_pointer (view m) = expected /\ generation e = g /\ view m' = set_pointer (view m) (Some e)
    | Value None => mf_pointer (view m) <> expected /\ view m' = view m
    | Unexpected s => s <> Ok /\ view m' = view m \/
        s = Io /\ mf_pointer (view m) = expected /\ exists e, generation e = g /\ view m' = set_pointer (view m) (Some e)
    end;
  law_delete_generation : forall g m s m', delete_generation g m = (s, m') -> shrinks_at g (view m) (view m')
}.

(** What the header does not promise and the version set needs: when a swap is answered with [Io], the read that settles
    whether it happened answers. *)
Class SettlesSwaps {M : Type} (cat : ManifestCatalog M) : Prop :=
  law_settles : forall expected g m m', compare_and_set expected g m = (Unexpected Io, m') -> exists p, (cat_read m').1 = Value p.

(** A catalog none of whose reads fails. *)
Class ReadsAnswer {M : Type} (cat : ManifestCatalog M) : Prop := {
  ra_read : forall m, exists p, (cat_read m).1 = Value p;
  ra_get_snapshot : forall g m s, (get_snapshot g m).1 = Unexpected s -> s = NotFound;
  ra_get_edit : forall g seq m s, (get_edit g seq m).1 = Unexpected s -> s = NotFound;
  ra_list_edits : forall g m, exists l, (list_edits g m).1 = Value l
}.

#[export] Instance reads_answer_settle {M} (cat : ManifestCatalog M) : ReadsAnswer cat -> SettlesSwaps cat.
Proof. intros [H _ _ _] expected g m m' _. apply H. Qed.

(** An occupied address is recognised whenever it is written to: no failure comes first. *)
Class CatalogRefuses {M : Type} (cat : ManifestCatalog M) (view : M -> Manifest) : Prop :=
  law_put_edit_occupied : forall g seq b m, is_Some (mf_edits (view m) !! (g, seq)) ->
    exists m', put_edit g seq b m = (Config, m') /\ view m' = view m.

(** ** A catalog in memory *)

(** What happens to one call: it succeeds, fails and leaves the first bytes, or fails without a trace. *)
Inductive Outcome : Type := Fine | Landed (n : nat) | Lost.

Record MemCatalog := { mem_view : Manifest; mem_script : list Outcome }.

Definition next_outcome (m : MemCatalog) : Outcome * MemCatalog :=
  match mem_script m with
  | [] => (Fine, m)
  | o :: rest => (o, {| mem_view := mem_view m; mem_script := rest |})
  end.

Definition with_view (m : MemCatalog) (mf : Manifest) : MemCatalog := {| mem_view := mf; mem_script := mem_script m |}.

(** A read: with [flaky] it takes its outcome from the script, too. *)
Definition mem_read {A} (flaky : bool) (answer : Manifest -> Result A) (m : MemCatalog) : Result A * MemCatalog :=
  if flaky then
    match next_outcome m with
    | (Fine, m) => (answer (mem_view m), m)
    | (_, m) => (Unexpected Io, m)
    end
  else (answer (mem_view m), m).

Definition mem_put (occupied : bool) (write : bytes -> Manifest -> Manifest) (b : bytes) (m : MemCatalog) : Status * MemCatalog :=
  if occupied then (Config, m)
  else match next_outcome m with
       | (Fine, m) => (Ok, with_view m (write b (mem_view m)))
       | (Landed n, m) => (Io, with_view m (write (take n b) (mem_view m)))
       | (Lost, m) => (Io, m)
       end.

Definition next_entry (mf : Manifest) (g : Z) : Entry :=
  {| generation := g; token := match mf_pointer mf with Some e => x31 :: token e | None => [x31] end |}.

Definition mem_cas (expected : option Entry) (g : Z) (m : MemCatalog) : Result (option Entry) * MemCatalog :=
  if bool_decide (mf_pointer (mem_view m) = expected) then
    let e := next_entry (mem_view m) g in
    match next_outcome m with
    | (Fine, m) => (Value (Some e), with_view m (set_pointer (mem_view m) (Some e)))
    | (Landed _, m) => (Unexpected Io, with_view m (set_pointer (mem_view m) (Some e)))
    | (Lost, m) => (Unexpected Io, m)
    end
  else (Value None, m).

Definition drop_generation (g : Z) (mf : Manifest) : Manifest :=
  {| mf_pointer := mf_pointer mf; mf_snapshots := delete g (mf_snapshots mf);
     mf_edits := filter (fun p => p.1.1 <> g) (mf_edits mf) |}.

Definition mem_delete (g : Z) (m : MemCatalog) : Status * MemCatalog :=
  match next_outcome m with
  | (Fine, m) => (Ok, with_view m (drop_generation g (mem_view m)))
  | (Landed _, m) => (Io, with_view m (drop_generation g (mem_view m)))
  | (Lost, m) => (Io, m)
  end.

Definition edit_numbers (g : Z) (mf : Manifest) : list Z :=
  omap (fun p : (Z * Z) * bytes => if bool_decide (p.1.1 = g) then Some p.1.2 else None) (map_to_list (mf_edits mf)).

#[export] Instance mem_catalog (flaky : bool) : ManifestCatalog MemCatalog := {|
  cat_read := mem_read flaky (fun mf => Value (mf_pointer mf));
  compare_and_set := mem_cas;
  put_snapshot g b m := mem_put (bool_decide (is_Some (mf_snapshots (mem_view m) !! g))) (fun b mf => set_snapshot mf g b) b m;
  get_snapshot g := mem_read flaky (fun mf => found (mf_snapshots mf !! g));
  put_edit g seq b m := mem_put (bool_decide (is_Some (mf_edits (mem_view m) !! (g, seq)))) (fun b mf => set_edit mf g seq b) b m;
  get_edit g seq := mem_read flaky (fun mf => found (mf_edits mf !! (g, seq)));
  list_edits g := mem_read flaky (fun mf => Value (edit_numbers g mf));
  delete_generation := mem_delete;
  list_generations := mem_read flaky (fun _ => Unexpected Unsupported)
|}.

(** ** It meets the laws *)

Lemma next_outcome_view m o m' : next_outcome m = (o, m') -> mem_view m' = mem_view m.
Proof. unfold next_outcome. destruct (mem_script m); intros [= <- <-]; done. Qed.

Lemma mem_put_law occupied write b m s m' : mem_put occupied write b m = (s, m') ->
  (s = Ok -> occupied = false /\ mem_view m' = write b (mem_view m)) /\
  (s <> Ok -> mem_view m' = mem_view m \/ occupied = false /\ exists n, mem_view m' = write (take n b) (mem_view m)).
Proof.
  unfold mem_put. destruct occupied; [intros [= <- <-]; split; [done|by left]|].
  destruct (next_outcome m) as [o m1] eqn:E. apply next_outcome_view in E. rewrite <- E.
  destruct o as [|n|]; intros [= <- <-]; (split; [intros [=]|intros Hs]); try done; [right|by left].
  split; [done|]. by exists n.
Qed.

Lemma not_occupied {A} (o : option A) : bool_decide (is_Some o) = false -> o = None.
Proof. destruct o; [|done]. intros H%bool_decide_eq_false_1. destruct H. by eexists. Qed.

Lemma elem_of_edit_numbers g mf seq : seq ∈ edit_numbers g mf <-> is_Some (mf_edits mf !! (g, seq)).
Proof.
  unfold edit_numbers. rewrite list_elem_of_omap. split.
  - intros ([[g' seq'] b] & Hin & E). apply elem_of_map_to_list in Hin. simpl in E. case_bool_decide; simplify_eq. by exists b.
  - intros [b Hb]. exists ((g, seq), b). split; [by apply elem_of_map_to_list|]. simpl. by rewrite bool_decide_eq_true_2.
Qed.

Lemma edit_numbers_nodup g mf : NoDup (edit_numbers g mf).
Proof.
  unfold edit_numbers. pose proof (NoDup_fst_map_to_list (mf_edits mf)) as H. induction (map_to_list (mf_edits mf)) as [|[[g' seq] b] l IH]; simpl.
  - constructor.
  - simpl in H. apply NoDup_cons in H as [Hn H]. specialize (IH H). case_bool_decide as Eg; [|done]. subst g'. constructor; [|done].
    intros Hin. apply list_elem_of_omap in Hin as ([[g' seq'] b'] & Hin & E). simpl in E. case_bool_decide; simplify_eq.
    apply Hn. apply list_elem_of_fmap. by eexists (_, _).
Qed.

Lemma mem_read_law {A} flaky (answer : Manifest -> Result A) m r m' : mem_read flaky answer m = (r, m') ->
  mem_view m' = mem_view m /\ (r = answer (mem_view m) \/ r = Unexpected Io).
Proof.
  unfold mem_read. destruct flaky; [|intros [= <- <-]; auto]. destruct (next_outcome m) as [o m1] eqn:E. apply next_outcome_view in E.
  destruct o; intros [= <- <-]; rewrite <- ?E; auto.
Qed.

#[export] Instance mem_catalog_laws flaky : CatalogLaws (mem_catalog flaky) mem_view.
Proof.
  split.
  - intros m r m' [E [->| ->]]%mem_read_law; (split; [done|]); [by left|by right; eexists].
  - intros g m r m' [E [->| ->]]%mem_read_law; (split; [done|]); [by left|by right; eexists].
  - intros g seq m r m' [E [->| ->]]%mem_read_law; (split; [done|]); [by left|by right; eexists].
  - intros g m r m' [E [->| ->]]%mem_read_law; (split; [done|]); [|done]. split; [apply edit_numbers_nodup|]. intros seq. apply elem_of_edit_numbers.
  - intros m r m' [E [->| ->]]%mem_read_law; by split.
  - intros g b m s m' E. apply mem_put_law in E as [H1 H2]. split.
    + intros [Ho E]%H1. split; [by apply not_occupied|done].
    + intros [E|[Ho E]]%H2; [by left|right]. split; [by apply not_occupied|done].
  - intros g seq b m s m' E. apply mem_put_law in E as [H1 H2]. split.
    + intros [Ho E]%H1. split; [by apply not_occupied|done].
    + intros [E|[Ho E]]%H2; [by left|right]. split; [by apply not_occupied|done].
  - intros expected g m r m'. simpl. unfold mem_cas. case_bool_decide as Ep; [|by intros [= <- <-]].
    destruct (next_outcome m) as [o m1] eqn:E. apply next_outcome_view in E. destruct o; intros [= <- <-].
    + split; [done|]. split; [done|]. simpl. by rewrite E.
    + right. split; [done|]. split; [done|]. exists (next_entry (mem_view m) g). split; [done|]. simpl. by rewrite E.
    + by left.
  - intros g m s m'. simpl. unfold mem_delete. destruct (next_outcome m) as [o m1] eqn:E. apply next_outcome_view in E.
    assert (shrinks_at g (mem_view m1) (drop_generation g (mem_view m1))) as Hs.
    { split; [done|]. split; [intros g' Hg; by apply lookup_delete_ne|]. split; intros g' seq Hg; simpl; [|apply map_lookup_filter_None_2; by left].
      destruct (mf_edits (mem_view m1) !! (g', seq)) as [b|] eqn:Eb.
      - by apply map_lookup_filter_Some_2.
      - apply map_lookup_filter_None_2. by left. }
    destruct o; intros [= <- <-]; rewrite <- E; simpl; [done|done|]. by split_and!.
Qed.

#[export] Instance mem_catalog_answers : ReadsAnswer (mem_catalog false).
Proof.
  split.
  - intros m. by eexists.
  - intros g m s. simpl. destruct (mf_snapshots (mem_view m) !! g); [done|by intros [= <-]].
  - intros g seq m s. simpl. destruct (mf_edits (mem_view m) !! (g, seq)); [done|by intros [= <-]].
  - intros g m. by eexists.
Qed.

#[export] Instance mem_catalog_refuses flaky : CatalogRefuses (mem_catalog flaky) mem_view.
Proof. intros g seq b m Hs. exists m. simpl. unfold mem_put. by rewrite bool_decide_eq_true_2. Qed.
