(* ===== verification/FileSystem.v ===== *)
(** * The file system under the manifest

    What [src/manifest/disk_manifest_file_system.hpp] offers: the calls of POSIX and [std::filesystem] the
    catalog on disk makes, over a disk that keeps what a process sees and what a power cut leaves. A name
    reaches the medium when its directory is synchronised, the bytes of a file when the file is. Calls fail
    as a script says; paths are relative to the store's directory, which exists. *)

From S2P Require Import Prelude Slice.

(** ** State *)

Abbreviation path := (list bytes).

Inductive Inode : Type :=
  | Dir
  | File (content : bytes) (synced : bool).

#[export] Instance Inode_eq_dec : EqDecision Inode.
Proof. solve_decision. Defined.

(** What happens to one call. [Short n] is a call that did part of its work. *)
Inductive Fault : Type := NoFault | Failing | Interrupted | Short (n : nat).

Record Disk := {
  dk_visible : gmap path Inode;
  dk_durable : gmap path Inode;
  dk_faults : list Fault;
  dk_read_faults : list Fault;
  dk_list_faults : list Fault  (* of the calls that open a directory to iterate over it *)
}.

Inductive Errno : Type := EEXIST | ENOENT | EINTR | EIO.

Definition with_visible (d : Disk) (v : gmap path Inode) : Disk :=
  {| dk_visible := v; dk_durable := dk_durable d; dk_faults := dk_faults d; dk_read_faults := dk_read_faults d; dk_list_faults := dk_list_faults d |}.

Definition with_durable (d : Disk) (v : gmap path Inode) : Disk :=
  {| dk_visible := dk_visible d; dk_durable := v; dk_faults := dk_faults d; dk_read_faults := dk_read_faults d; dk_list_faults := dk_list_faults d |}.

Definition next_fault (d : Disk) : Fault * Disk :=
  match dk_faults d with
  | [] => (NoFault, d)
  | f :: rest => (f, {| dk_visible := dk_visible d; dk_durable := dk_durable d; dk_faults := rest; dk_read_faults := dk_read_faults d; dk_list_faults := dk_list_faults d |})
  end.

Definition next_read_fault (d : Disk) : Fault * Disk :=
  match dk_read_faults d with
  | [] => (NoFault, d)
  | f :: rest => (f, {| dk_visible := dk_visible d; dk_durable := dk_durable d; dk_faults := dk_faults d; dk_read_faults := rest; dk_list_faults := dk_list_faults d |})
  end.

Definition next_list_fault (d : Disk) : Fault * Disk :=
  match dk_list_faults d with
  | [] => (NoFault, d)
  | f :: rest => (f, {| dk_visible := dk_visible d; dk_durable := dk_durable d; dk_faults := dk_faults d; dk_read_faults := dk_read_faults d; dk_list_faults := rest |})
  end.

(** What the calls that read will meet. *)
Definition reads_of (d : Disk) : list Fault * list Fault := (dk_read_faults d, dk_list_faults d).

Definition parent_path (p : path) : path := take (length p - 1) p.

(** The directories above [p], the root first. *)
Definition ancestors (p : path) : list path := map (fun n => take n p) (seq 0 (length p)).

Definition is_child (q p : path) : bool := bool_decide (p <> [] /\ parent_path p = q).

Definition is_below (q p : path) : bool := bool_decide (q `prefix_of` p).

(** ** Calls that write *)

(** [open(O_WRONLY | O_CREAT | O_EXCL)]. *)
Definition fs_open_new (p : path) (d : Disk) : option Errno * Disk :=
  match next_fault d with
  | (Failing, d) => (Some EIO, d)
  | (_, d) =>
      match dk_visible d !! p with
      | Some _ => (Some EEXIST, d)
      | None =>
          if bool_decide (dk_visible d !! parent_path p = Some Dir) then (None, with_visible d (<[p := File [] false]> (dk_visible d)))
          else (Some ENOENT, d)
      end
  end.

Definition append_to (p : path) (b : bytes) (d : Disk) : Disk :=
  match dk_visible d !! p with
  | Some (File c _) => with_visible d (<[p := File (c ++ b) false]> (dk_visible d))
  | _ => d
  end.

(** [write]: how many bytes were taken. *)
Definition fs_write (p : path) (b : bytes) (d : Disk) : (Errno + nat) * Disk :=
  match next_fault d with
  | (Failing, d) => (inl EIO, d)
  | (Interrupted, d) => (inl EINTR, d)
  | (Short n, d) => (inr (n `min` length b)%nat, append_to p (take n b) d)
  | (NoFault, d) => (inr (length b), append_to p b d)
  end.

Definition fs_fsync (p : path) (d : Disk) : bool * Disk :=
  match next_fault d with
  | (Failing, d) => (false, d)
  | (_, d) =>
      (true, match dk_visible d !! p with
             | Some (File c _) => with_visible d (<[p := File c true]> (dk_visible d))
             | _ => d
             end)
  end.

Definition fs_close (d : Disk) : bool * Disk :=
  match next_fault d with (Failing, d) => (false, d) | (_, d) => (true, d) end.

(** [unlink] and [remove]: a name that is not there is no failure. *)
Definition fs_remove (p : path) (d : Disk) : bool * Disk :=
  match next_fault d with
  | (Failing, d) => (false, d)
  | (_, d) => (true, with_visible d (delete p (dk_visible d)))
  end.

(** The directories of a list made one after the other, at most [budget] of them new; [false] when one is a
    file or the budget ran out. *)
Fixpoint make_dirs (budget : option nat) (ps : list path) (v : gmap path Inode) : bool * gmap path Inode :=
  match ps with
  | [] => (match budget with None => true | Some _ => false end, v)
  | p :: rest =>
      match v !! p with
      | Some Dir => make_dirs budget rest v
      | Some (File _ _) => (false, v)
      | None =>
          match budget with
          | None => make_dirs None rest (<[p := Dir]> v)
          | Some O => (false, v)
          | Some (S n) => make_dirs (Some n) rest (<[p := Dir]> v)
          end
      end
  end.

(** [create_directories]: [None] is an error, otherwise whether the last one is new. *)
Definition fs_create_directories (p : path) (d : Disk) : option bool * Disk :=
  let made budget d := let '(ok, v) := make_dirs budget (ancestors p ++ [p]) (dk_visible d) in
    (if ok then Some (negb (bool_decide (dk_visible d !! p = Some Dir))) else None, with_visible d v) in
  match next_fault d with
  | (Failing, d) => (None, d)
  | (Short n, d) => made (Some n) d
  | (_, d) => made None d
  end.

Definition fs_rename (from to : path) (d : Disk) : bool * Disk :=
  match next_fault d with
  | (Failing, d) => (false, d)
  | (_, d) =>
      match dk_visible d !! from with
      | Some n => (true, with_visible d (<[to := n]> (delete from (dk_visible d))))
      | None => (false, d)
      end
  end.

(** [remove_all]: what is below goes first; a failure leaves the rest. *)
Definition below (q : path) (v : gmap path Inode) : list path :=
  List.filter (fun p => is_below q p && negb (bool_decide (p = q))) (map fst (map_to_list v)).

Definition remove_paths (ps : list path) (v : gmap path Inode) : gmap path Inode := foldr delete v ps.

Definition fs_remove_all (q : path) (d : Disk) : bool * Disk :=
  match next_fault d with
  | (Failing, d) => (false, d)
  | (Short n, d) => (false, with_visible d (remove_paths (take n (below q (dk_visible d))) (dk_visible d)))
  | (_, d) => (true, with_visible d (remove_paths (below q (dk_visible d) ++ [q]) (dk_visible d)))
  end.

(** A synchronised directory: its names are on the medium, with what they name. *)
Definition settle (q : path) (d : Disk) : Disk :=
  with_durable d (filter (fun p => is_child q p.1 = true) (dk_visible d) ∪ filter (fun p => is_child q p.1 = false) (dk_durable d)).

Definition fs_sync_directory (q : path) (d : Disk) : bool * Disk :=
  match next_fault d with
  | (Failing, d) => (false, d)
  | (_, d) => if bool_decide (dk_visible d !! q = Some Dir) then (true, settle q d) else (false, d)
  end.

(** The lock file of the pointer: opened, created where it is missing, and locked. *)
Definition fs_lock (p : path) (d : Disk) : bool * Disk :=
  match next_fault d with
  | (Failing, d) => (false, d)
  | (_, d) => (true, match dk_visible d !! p with Some _ => d | None => with_visible d (<[p := File [] false]> (dk_visible d)) end)
  end.

(** ** Calls that read *)

Definition fs_open_read (p : path) (d : Disk) : option Errno * Disk :=
  match next_read_fault d with
  | (Failing, d) => (Some EIO, d)
  | (_, d) => (match dk_visible d !! p with Some _ => None | None => Some ENOENT end, d)
  end.

(** [read] at an offset: some bytes unless the file ends there. *)
Definition fs_read (p : path) (offset size : nat) (d : Disk) : (Errno + bytes) * Disk :=
  match next_read_fault d with
  | (Failing, d) => (inl EIO, d)
  | (Interrupted, d) => (inl EINTR, d)
  | (f, d) =>
      match dk_visible d !! p with
      | Some (File c _) =>
          let n := match f with Short n => ((1 `max` n) `min` size)%nat | _ => size end in
          (inr (take n (drop offset c)), d)
      | _ => (inl EIO, d)
      end
  end.

(** The entries of a directory, by name. *)
Definition entries_of (q : path) (v : gmap path Inode) : list (bytes * Inode) :=
  omap (fun p : path * Inode => if is_child q p.1 then match last p.1 with Some name => Some (name, p.2) | None => None end else None) (map_to_list v).

(** A directory opened to iterate over it; [None] is an error, that it is not there included. *)
Definition fs_directory_iterator (q : path) (d : Disk) : option (list (bytes * Inode)) * Disk :=
  match next_list_fault d with
  | (Failing, d) => (None, d)
  | (_, d) => (if bool_decide (dk_visible d !! q = Some Dir) then Some (entries_of q (dk_visible d)) else None, d)
  end.

(** ** A power cut *)

(** What may be left of a name: bytes that were not synchronised can be anything. *)
Definition decays (n n' : option Inode) : Prop :=
  match n with
  | Some (File c false) => exists c', n' = Some (File c' true)
  | _ => n' = n
  end.

(** Each name shows what was seen or what had reached the medium, in directories that are left. *)
Definition crash (d d' : Disk) : Prop :=
  exists pick : path -> option Inode,
    (forall p, decays (dk_visible d !! p) (pick p) \/ decays (dk_durable d !! p) (pick p)) /\
    (forall p, dk_visible d' !! p = if bool_decide (Forall (fun q => pick q = Some Dir) (ancestors p)) then pick p else None) /\
    dk_durable d' = dk_visible d'.

(** ** Lemmas *)

Lemma next_fault_same d f d' : next_fault d = (f, d') ->
  dk_visible d' = dk_visible d /\ dk_durable d' = dk_durable d /\ reads_of d' = reads_of d /\ (length (dk_faults d') <= length (dk_faults d))%nat /\
  (f = NoFault \/ length (dk_faults d) = S (length (dk_faults d'))).
Proof. unfold next_fault. destruct (dk_faults d) eqn:E; intros [= <- <-]; simpl; [split_and!; [done..|rewrite E; simpl; lia|by left]|split_and!; auto]. Qed.

Lemma lookup_settle q d p : dk_durable (settle q d) !! p = if is_child q p then dk_visible d !! p else dk_durable d !! p.
Proof.
  unfold settle. simpl. rewrite lookup_union. destruct (is_child q p) eqn:E.
  - rewrite (proj2 (map_lookup_filter_None _ (dk_durable d) p)) by (right; intros ? _; simpl; congruence). rewrite (right_id None _).
    destruct (dk_visible d !! p) as [n|] eqn:En; [by apply map_lookup_filter_Some|]. apply map_lookup_filter_None. by left.
  - rewrite (proj2 (map_lookup_filter_None _ (dk_visible d) p)) by (right; intros ? _; simpl; congruence). rewrite (left_id None _).
    destruct (dk_durable d !! p) as [n|] eqn:En; [by apply map_lookup_filter_Some|]. apply map_lookup_filter_None. by left.
Qed.

Lemma lookup_remove_paths ps v p : remove_paths ps v !! p = if bool_decide (p ∈ ps) then None else v !! p.
Proof.
  induction ps as [|q ps IH]; simpl; [done|]. destruct (decide (p = q)) as [->|Hne].
  - rewrite lookup_delete_eq. by rewrite bool_decide_eq_true_2 by by left.
  - rewrite lookup_delete_ne by done. rewrite IH. case_bool_decide; case_bool_decide; set_solver.
Qed.

Lemma elem_of_below q v p : p ∈ below q v <-> is_Some (v !! p) /\ q `prefix_of` p /\ p <> q.
Proof.
  unfold below. rewrite elem_of_filter_bool, andb_true_iff, negb_true_iff. unfold is_below. rewrite bool_decide_eq_true, bool_decide_eq_false.
  split.
  - intros [Hp H]. apply list_elem_of_fmap in Hp as ([p' n] & -> & Hp). apply elem_of_map_to_list in Hp. split; [by exists n|done].
  - intros [[n Hn] H]. split; [|done]. apply list_elem_of_fmap. exists (p, n). split; [done|by apply elem_of_map_to_list].
Qed.

Lemma make_dirs_spec ps : forall budget v ok v', make_dirs budget ps v = (ok, v') ->
  (forall p n, v !! p = Some n -> v' !! p = Some n) /\ (forall p n, v' !! p = Some n -> v !! p = Some n \/ p ∈ ps /\ n = Dir) /\
  (ok = true -> budget = None /\ forall p, p ∈ ps -> v' !! p = Some Dir).
Proof.
  induction ps as [|q ps IH]; intros budget v ok v'; cbn [make_dirs].
  - intros [= <- <-]. split; [done|]. split; [auto|]. destruct budget; [done|]. intros _. split; [done|]. by intros ? ?%elem_of_nil.
  - destruct (v !! q) as [[|c s]|] eqn:Eq.
    + intros (H1 & H2 & H3)%IH. split; [done|]. split; [intros p n [H|[H ->]]%H2; [by left|right; set_solver]|].
      intros [-> H]%H3. split; [done|]. intros p [->|Hp]%elem_of_cons; [by apply H1|by apply H].
    + intros [= <- <-]. split; [done|]. split; [auto|done].
    + assert (forall budget', make_dirs budget' ps (<[q := Dir]> v) = (ok, v') ->
        (forall p n, v !! p = Some n -> v' !! p = Some n) /\ (forall p n, v' !! p = Some n -> v !! p = Some n \/ p ∈ q :: ps /\ n = Dir) /\
        (ok = true -> budget' = None /\ forall p, p ∈ q :: ps -> v' !! p = Some Dir)) as Hstep.
      { intros budget' (H1 & H2 & H3)%IH. split; [|split].
        - intros p n Hp. apply H1. rewrite lookup_insert_ne by congruence. done.
        - intros p n [H|[H ->]]%H2; [|right; set_solver]. apply lookup_insert_Some in H as [[<- <-]|[_ H]]; [right; set_solver|by left].
        - intros [-> H]%H3. split; [done|]. intros p [->|Hp]%elem_of_cons; [apply H1; by rewrite lookup_insert_eq|by apply H]. }
      destruct budget as [[|n]|].
      * intros [= <- <-]. split; [done|]. split; [auto|done].
      * intros H. apply Hstep in H as (H1 & H2 & H3). split; [done|]. split; [done|]. by intros [? _]%H3.
      * apply Hstep.
Qed.

Lemma elem_of_entries q v name n : (name, n) ∈ entries_of q v <-> v !! (q ++ [name]) = Some n.
Proof.
  unfold entries_of. rewrite list_elem_of_omap. split.
  - intros ([p n'] & Hin & E). apply elem_of_map_to_list in Hin. simpl in E. destruct (is_child q p) eqn:Ec; [|done].
    unfold is_child in Ec. apply bool_decide_eq_true in Ec as [Hne Hq]. destruct (last p) as [name'|] eqn:El; [|done]. injection E as -> ->.
    apply last_Some in El as [l ->]. unfold parent_path in Hq. rewrite length_app in Hq. simpl in Hq.
    rewrite take_app_length' in Hq by lia. by subst.
  - intros Hn. exists (q ++ [name], n). split; [by apply elem_of_map_to_list|]. simpl. unfold is_child, parent_path.
    rewrite bool_decide_eq_true_2; [by rewrite last_snoc|]. split; [by destruct q|]. rewrite length_app. simpl. apply take_app_length'. lia.
Qed.
