(* ===== verification/DiskCatalog.v ===== *)
(** * The manifest catalog on disk

    [src/manifest/disk_manifest_catalog.cpp]: generation objects as files under [manifest/{generation}/], the
    pointer as a file renamed over [CURRENT] under a lock. Loops over [read] and [write] run on fuel: a call
    that makes no progress consumes a fault of the script, so the number of bytes and of faults left is
    enough ([write_loop_enough], [read_loop_enough]). *)

From S2P Require Import Prelude Slice Names Catalog FileSystem.

(** ** Paths *)

(** ["manifest"], ["CURRENT"], [".tmp"], ["CURRENT.lock"], ["snapshot"]. *)
Definition kManifest : bytes := [x6d; x61; x6e; x69; x66; x65; x73; x74].
Definition kCurrent : bytes := [x43; x55; x52; x52; x45; x4e; x54].
Definition kTmp : bytes := [x2e; x74; x6d; x70].
Definition kLock : bytes := kCurrent ++ [x2e; x6c; x6f; x63; x6b].
Definition kSnapshot : bytes := [x73; x6e; x61; x70; x73; x68; x6f; x74].

Definition manifest_dir : path := [kManifest].
Definition current_path : path := [kManifest; kCurrent].
Definition temp_path : path := [kManifest; kCurrent ++ kTmp].
Definition lock_path : path := [kManifest; kLock].
Definition generation_dir (g : Z) : path := [kManifest; generation_name g].
Definition snapshot_path (g : Z) : path := generation_dir g ++ [kSnapshot].
Definition edit_path (g seq : Z) : path := generation_dir g ++ [edit_name seq].

(** ** The pointer's text *)

Definition format_token (token : Z) : bytes := to_string token.

Definition kSpace : byte := x20.

Definition parse_current (text : bytes) : option (Z * Z) :=
  match from_chars text with
  | Some (g, c :: rest) =>
      if bool_decide (c = kSpace) then
        match from_chars rest with Some (t, _) => Some (g, t) | None => None end
      else None
  | _ => None
  end.

Definition current_text (g t : Z) : bytes := to_string g ++ [kSpace] ++ format_token t ++ [x0a].

(** ** Objects *)

Definition ensure_directory (p : path) (d : Disk) : Status * Disk :=
  match fs_create_directories p d with
  | (None, d) => (Io, d)
  | (Some false, d) => (Ok, d)
  | (Some true, d) =>
      match fs_sync_directory p d with
      | (false, d) => (Io, d)
      | (true, d) => match fs_sync_directory (parent_path p) d with (false, d) => (Io, d) | (true, d) => (Ok, d) end
      end
  end.

(** The loop over [write]: [true] when every byte was taken. *)
Fixpoint write_loop (fuel : nat) (p : path) (b : bytes) (d : Disk) : bool * Disk :=
  match b, fuel with
  | [], _ => (true, d)
  | _, O => (false, d)
  | _, S fuel =>
      match fs_write p b d with
      | (inr n, d) => write_loop fuel p (drop n b) d
      | (inl EINTR, d) => write_loop fuel p b d
      | (inl _, d) => (false, d)
      end
  end.

Definition write_fuel (b : bytes) (d : Disk) : nat := S (length b + length (dk_faults d)).

Definition write_object (p : path) (b : bytes) (d : Disk) : Status * Disk :=
  match ensure_directory (parent_path p) d with
  | (Ok, d) =>
      match fs_open_new p d with
      | (Some EEXIST, d) => (Config, d)
      | (Some _, d) => (Io, d)
      | (None, d) =>
          match write_loop (write_fuel b d) p b d with
          | (false, d) => let '(_, d) := fs_close d in let '(_, d) := fs_remove p d in (Io, d)
          | (true, d) =>
              let '(synced, d) := fs_fsync p d in
              let '(closed, d) := fs_close d in
              if negb synced || negb closed then (Io, d)
              else match fs_sync_directory (parent_path p) d with (false, d) => (Io, d) | (true, d) => (Ok, d) end
          end
      end
  | (s, d) => (s, d)
  end.

Definition kReadChunk : nat := Z.to_nat (64 * 1024).

Fixpoint read_loop (fuel : nat) (p : path) (out : bytes) (d : Disk) : Result bytes * Disk :=
  match fuel with
  | O => (Unexpected Io, d)
  | S fuel =>
      match fs_read p (length out) kReadChunk d with
      | (inl EINTR, d) => read_loop fuel p out d
      | (inl _, d) => (Unexpected Io, d)
      | (inr [], d) => (Value out, d)
      | (inr chunk, d) => read_loop fuel p (out ++ chunk) d
      end
  end.

Definition file_length (p : path) (d : Disk) : nat := match dk_visible d !! p with Some (File c _) => length c | _ => 0 end.

Definition read_fuel (p : path) (d : Disk) : nat := S (file_length p d + length (dk_read_faults d)).

Definition read_object (p : path) (d : Disk) : Result bytes * Disk :=
  match fs_open_read p d with
  | (Some ENOENT, d) => (Unexpected NotFound, d)
  | (Some _, d) => (Unexpected Io, d)
  | (None, d) => read_loop (read_fuel p d) p [] d
  end.

(** ** The catalog's operations *)

Definition disk_read (d : Disk) : Result (option Entry) * Disk :=
  match read_object current_path d with
  | (Unexpected NotFound, d) => (Value None, d)
  | (Unexpected s, d) => (Unexpected s, d)
  | (Value b, d) =>
      match parse_current b with
      | None => (Unexpected Corrupt, d)
      | Some (g, t) => (Value (Some {| generation := g; token := format_token t |}), d)
      end
  end.

(** The token after the one observed; [None] when there is none left. *)
Definition next_token (observed : option Entry) : option Z :=
  match observed with
  | None => Some 1
  | Some e =>
      let t := match from_chars (token e) with Some (t, _) => t | None => 0 end in
      if t =? 2 ^ 64 - 1 then None else Some (t + 1)
  end.

Definition disk_cas (expected : option Entry) (g : Z) (d : Disk) : Result (option Entry) * Disk :=
  match ensure_directory manifest_dir d with
  | (Ok, d) =>
      match fs_lock lock_path d with
      | (false, d) => (Unexpected Io, d)
      | (true, d) =>
          match disk_read d with
          | (Unexpected s, d) => (Unexpected s, d)
          | (Value observed, d) =>
              if negb (bool_decide (expected = observed)) then (Value None, d)
              else match next_token observed with
                   | None => (Unexpected Unusable, d)
                   | Some t =>
                       match fs_remove temp_path d with
                       | (false, d) => (Unexpected Io, d)
                       | (true, d) =>
                           match write_object temp_path (current_text g t) d with
                           | (Ok, d) =>
                               match fs_rename temp_path current_path d with
                               | (false, d) => (Unexpected Io, d)
                               | (true, d) =>
                                   match fs_sync_directory manifest_dir d with
                                   | (false, d) => (Unexpected Io, d)
                                   | (true, d) => (Value (Some {| generation := g; token := format_token t |}), d)
                                   end
                               end
                           | (s, d) => (Unexpected s, d)
                           end
                       end
                   end
          end
      end
  | (s, d) => (Unexpected s, d)
  end.

Definition disk_put_snapshot (g : Z) (b : bytes) (d : Disk) : Status * Disk := write_object (snapshot_path g) b d.
Definition disk_get_snapshot (g : Z) (d : Disk) : Result bytes * Disk := read_object (snapshot_path g) d.
Definition disk_put_edit (g seq : Z) (b : bytes) (d : Disk) : Status * Disk := write_object (edit_path g seq) b d.
Definition disk_get_edit (g seq : Z) (d : Disk) : Result bytes * Disk := read_object (edit_path g seq) d.

(** The generations a directory holds: names of twelve digits. *)
Definition generation_of (e : bytes * Inode) : option Z :=
  match e.2 with
  | Dir => if bool_decide (length e.1 = 12%nat) then parse_u64 e.1 else None
  | File _ _ => None
  end.

Definition disk_list_generations (d : Disk) : Result (list Z) * Disk :=
  match fs_directory_iterator manifest_dir d with
  | (Some entries, d) => (Value (omap generation_of entries), d)
  | (None, d) => (Value [], d)
  end.

Definition edit_of (e : bytes * Inode) : option Z :=
  if starts_with e.1 kEditPrefix then
    match from_chars (drop (length kEditPrefix) e.1) with Some (seq, _) => Some seq | None => None end
  else None.

Definition disk_list_edits (g : Z) (d : Disk) : Result (list Z) * Disk :=
  match fs_directory_iterator (generation_dir g) d with
  | (Some entries, d) => (Value (merge_sort Z.le (omap edit_of entries)), d)
  | (None, d) => (Value [], d)
  end.

Definition disk_delete_generation (g : Z) (d : Disk) : Status * Disk :=
  match fs_remove_all (generation_dir g) d with
  | (false, d) => (Io, d)
  | (true, d) => match fs_sync_directory manifest_dir d with (false, d) => (Io, d) | (true, d) => (Ok, d) end
  end.

(** ** The loops end *)

Lemma fs_write_progress p b d r d' : b <> [] -> fs_write p b d = (r, d') ->
  (length (dk_faults d') <= length (dk_faults d))%nat /\
  match r with
  | inr n => (length (drop n b) + length (dk_faults d') < length b + length (dk_faults d))%nat
  | inl EINTR => (length (dk_faults d') < length (dk_faults d))%nat
  | inl _ => True
  end.
Proof.
  intros Hb. unfold fs_write. destruct (next_fault d) as [f d1] eqn:E. destruct (next_fault_same d f d1 E) as (_ & _ & _ & Hle & Hf).
  assert (length b <> 0)%nat by (destruct b; [done|simpl; lia]).
  assert (forall b', dk_faults (append_to p b' d1) = dk_faults d1) as Ha by (intros b'; unfold append_to; by destruct (dk_visible d1 !! p) as [[]|]).
  destruct f; intros [= <- <-]; rewrite ?Ha, ?length_drop; (split; [done|]); destruct Hf; try done; lia.
Qed.

(** Any fuel past the bytes and the faults left gives the same answer. *)
Lemma write_loop_enough p : forall fuel fuel' b d, (length b + length (dk_faults d) < fuel)%nat -> (length b + length (dk_faults d) < fuel')%nat ->
  write_loop fuel p b d = write_loop fuel' p b d.
Proof.
  induction fuel as [|fuel IH]; intros fuel' b d H1 H2; [lia|]. destruct fuel' as [|fuel']; [lia|]. destruct b as [|c b]; [done|].
  cbn [write_loop]. destruct (fs_write p (c :: b) d) as [r d1] eqn:E. destruct (fs_write_progress p (c :: b) d r d1 ltac:(done) E) as [Hle Hr].
  destruct r as [[]|n]; try done; [apply IH; lia|apply IH; lia].
Qed.

Lemma fs_read_progress p offset size d r d' : (0 < size)%nat -> fs_read p offset size d = (r, d') ->
  dk_visible d' = dk_visible d /\ (length (dk_read_faults d') <= length (dk_read_faults d))%nat /\
  match r with
  | inr chunk => exists c s, dk_visible d !! p = Some (File c s) /\ chunk `prefix_of` drop offset c /\ (chunk = [] -> (length c <= offset)%nat)
  | inl EINTR => (length (dk_read_faults d') < length (dk_read_faults d))%nat
  | inl _ => True
  end.
Proof.
  intros Hsize. unfold fs_read. destruct (next_read_fault d) as [f d1] eqn:E.
  assert (dk_visible d1 = dk_visible d /\ (length (dk_read_faults d1) <= length (dk_read_faults d))%nat /\ (f = NoFault \/ length (dk_read_faults d) = S (length (dk_read_faults d1)))) as (Ev & Hle & Hf).
  { revert E. unfold next_read_fault. destruct (dk_read_faults d) eqn:El; intros [= <- <-]; simpl; [rewrite El; auto|auto]. }
  rewrite Ev.
  assert (forall n, (0 < n)%nat -> (match dk_visible d !! p with Some (File c _) => (inr (take n (drop offset c)), d1) | _ => (inl EIO, d1) end) = (r, d') ->
    dk_visible d' = dk_visible d /\ (length (dk_read_faults d') <= length (dk_read_faults d))%nat /\
    match r with
    | inr chunk => exists c s, dk_visible d !! p = Some (File c s) /\ chunk `prefix_of` drop offset c /\ (chunk = [] -> (length c <= offset)%nat)
    | inl EINTR => (length (dk_read_faults d') < length (dk_read_faults d))%nat
    | inl _ => True
    end) as Hread.
  { intros n Hn. destruct (dk_visible d !! p) as [[|c s]|] eqn:En; intros [= <- <-]; [done| |done]. split; [done|]. split; [done|]. exists c, s.
    split; [done|]. split; [apply prefix_take|]. intros H%(f_equal length). rewrite length_take, length_drop in H. simpl in H. lia. }
  destruct f; [apply Hread; lia|by intros [= <- <-]| |apply Hread; lia]. intros [= <- <-]. split; [done|]. split; [done|]. destruct Hf; [done|lia].
Qed.

Lemma read_chunk_pos : (0 < kReadChunk)%nat.
Proof. unfold kReadChunk. lia. Qed.

Lemma read_loop_enough p : forall fuel fuel' out d, (file_length p d - length out + length (dk_read_faults d) < fuel)%nat ->
  (file_length p d - length out + length (dk_read_faults d) < fuel')%nat -> read_loop fuel p out d = read_loop fuel' p out d.
Proof.
  induction fuel as [|fuel IH]; intros fuel' out d H1 H2; [lia|]. destruct fuel' as [|fuel']; [lia|]. cbn [read_loop].
  destruct (fs_read p (length out) kReadChunk d) as [r d1] eqn:E. destruct (fs_read_progress p _ _ d r d1 read_chunk_pos E) as (Ev & Hle & Hr).
  assert (file_length p d1 = file_length p d) as El by (unfold file_length; by rewrite Ev).
  destruct r as [[]|[|x chunk]]; try done; [apply IH; lia|]. destruct Hr as (c & s & En & Hp & _). apply prefix_length in Hp. rewrite length_drop in Hp. simpl in Hp.
  assert (file_length p d = length c) as Ec by (unfold file_length; by rewrite En). apply IH; rewrite length_app; simpl; lia.
Qed.

(** A call that reads leaves the disk as it is, but for the faults it met. *)
Definition untouched (d d' : Disk) : Prop := dk_visible d' = dk_visible d /\ dk_durable d' = dk_durable d /\ dk_list_faults d' = dk_list_faults d.

#[export] Instance untouched_preorder : PreOrder untouched.
Proof. split; [by intros d|]. intros a b c (A1 & A2 & A3) (B1 & B2 & B3). split_and!; congruence. Qed.

Lemma next_read_untouched d f d' : next_read_fault d = (f, d') -> untouched d d'.
Proof. unfold next_read_fault. destruct (dk_read_faults d); by intros [= <- <-]. Qed.

Lemma fs_read_untouched p offset size d r d' : fs_read p offset size d = (r, d') -> untouched d d'.
Proof.
  unfold fs_read. destruct (next_read_fault d) as [f d1] eqn:E. apply next_read_untouched in E.
  destruct f; [..|]; try (by intros [= <- <-]); by destruct (dk_visible d1 !! p) as [[]|]; intros [= <- <-].
Qed.

(** Whatever reads fail: an object is answered whole, or [Io]. *)
Lemma read_loop_sound p c s : forall fuel out d r d', dk_visible d !! p = Some (File c s) -> out `prefix_of` c -> read_loop fuel p out d = (r, d') ->
  untouched d d' /\ (r = Value c \/ r = Unexpected Io).
Proof.
  induction fuel as [|fuel IH]; intros out d r d' Hc Hp; cbn [read_loop]; [intros [= <- <-]; split; [done|by right]|].
  destruct (fs_read p (length out) kReadChunk d) as [q d1] eqn:E. pose proof (fs_read_untouched _ _ _ _ _ _ E) as Hu. pose proof Hu as (Hv & _).
  destruct (fs_read_progress p _ _ d q d1 read_chunk_pos E) as (_ & _ & Hq). rewrite <- Hv in Hc.
  assert (forall out', out' `prefix_of` c -> read_loop fuel p out' d1 = (r, d') -> untouched d d' /\ (r = Value c \/ r = Unexpected Io)) as Hgo.
  { intros out' Hp' E'. destruct (IH out' d1 r d' Hc Hp' E') as [Hu' Hr]. split; [by etrans|done]. }
  destruct q as [[]|[|x chunk]]; try (intros [= <- <-]; split; [done|by right]); [by apply Hgo| |].
  - intros [= <- <-]. split; [done|]. left. destruct Hq as (c' & s' & Hc' & _ & Hlen). rewrite <- Hv, Hc in Hc'. injection Hc' as <- <-. f_equal.
    destruct Hp as [rest ->]. specialize (Hlen eq_refl). rewrite length_app in Hlen. destruct rest; [by rewrite app_nil_r|simpl in Hlen; lia].
  - apply Hgo. destruct Hq as (c' & s' & Hc' & [rest Hr] & _). rewrite <- Hv, Hc in Hc'. injection Hc' as <- <-. destruct Hp as [tail ->].
    rewrite drop_app_length in Hr. rewrite Hr, app_assoc. by exists rest.
Qed.

Lemma read_object_sound p d r d' : dk_visible d !! p <> Some Dir -> read_object p d = (r, d') ->
  untouched d d' /\ (r = match dk_visible d !! p with Some (File c _) => Value c | _ => Unexpected NotFound end \/ r = Unexpected Io).
Proof.
  intros Hd. unfold read_object, fs_open_read. destruct (next_read_fault d) as [f d1] eqn:E. pose proof (next_read_untouched _ _ _ E) as Hu. pose proof Hu as (Hv & _).
  assert (match (match dk_visible d1 !! p with Some _ => None | None => Some ENOENT end, d1) with
     | (Some ENOENT, d) => (Unexpected NotFound, d) | (Some _, d) => (Unexpected Io, d) | (None, d) => read_loop (read_fuel p d) p [] d end = (r, d') ->
     untouched d d' /\ (r = match dk_visible d !! p with Some (File c _) => Value c | _ => Unexpected NotFound end \/ r = Unexpected Io)) as Hopen.
  { rewrite Hv. destruct (dk_visible d !! p) as [[|c s]|] eqn:Ep; [done| |intros [= <- <-]; split; [done|by left]]. intros El.
    destruct (read_loop_sound p c s (read_fuel p d1) [] d1 r d') as [Hu' Hr]; [by rewrite Hv|apply prefix_nil|done|]. split; [by etrans|done]. }
  destruct f; try exact Hopen. intros [= <- <-]. split; [done|by right].
Qed.

(** Where no read fails, an object is read whole. *)
Lemma read_loop_whole p d c s : dk_visible d !! p = Some (File c s) -> dk_read_faults d = [] ->
  forall fuel out, out `prefix_of` c -> (length c - length out < fuel)%nat -> read_loop fuel p out d = (Value c, d).
Proof.
  intros Hc Hf. induction fuel as [|fuel IH]; intros out [rest ->] Hfuel; [lia|]. rewrite length_app in Hfuel. cbn [read_loop]. unfold fs_read, next_read_fault. rewrite Hf, Hc.
  rewrite drop_app_length. pose proof read_chunk_pos as Hk. destruct rest as [|x rest]; [rewrite take_nil; by rewrite app_nil_r|].
  destruct kReadChunk as [|k]; [lia|]. cbn [take]. rewrite <- (IH (out ++ x :: take k rest)); [done| |].
  - exists (drop k rest). rewrite <- app_assoc. simpl. by rewrite take_drop.
  - rewrite !length_app in *. simpl in *. lia.
Qed.

Lemma read_object_found p d : dk_read_faults d = [] -> dk_visible d !! p <> Some Dir ->
  read_object p d = (match dk_visible d !! p with Some (File c _) => Value c | _ => Unexpected NotFound end, d).
Proof.
  intros Hf Hd. unfold read_object, fs_open_read, next_read_fault. rewrite Hf. destruct (dk_visible d !! p) as [[|c s]|] eqn:E; [done| |done].
  apply (read_loop_whole p d c s E Hf); [apply prefix_nil|]. unfold read_fuel, file_length. rewrite E. simpl. lia.
Qed.

(** ** What writing an object does *)

(** Names other than [p] stay, directories above it may appear, and what was settled stays settled. *)
Record wrote (p : path) (b : bytes) (d : Disk) (s : Status) (d' : Disk) : Prop := {
  w_frame : forall q, q <> p -> dk_visible d' !! q = dk_visible d !! q \/ dk_visible d !! q = None /\ dk_visible d' !! q = Some Dir /\ q ∈ ancestors p;
  w_ok : s = Ok -> dk_visible d !! p = None /\ dk_visible d' !! p = Some (File b true) /\ dk_durable d' !! p = Some (File b true);
  w_fail : s <> Ok -> dk_visible d' !! p = dk_visible d !! p \/ dk_visible d !! p = None /\ exists k sy, dk_visible d' !! p = Some (File (take k b) sy);
  w_durable : forall q, q <> p \/ is_Some (dk_visible d !! q) -> dk_durable d' !! q = dk_durable d !! q \/ dk_durable d' !! q = dk_visible d' !! q;
  w_parent : is_Some (dk_visible d' !! p) -> is_Some (dk_visible d !! p) \/ dk_visible d' !! parent_path p = Some Dir;
  w_reads : reads_of d' = reads_of d
}.

Lemma ancestors_parent p q : p <> [] -> q ∈ ancestors (parent_path p) ++ [parent_path p] -> q ∈ ancestors p.
Proof.
  intros Hp. unfold ancestors, parent_path. assert (length p <> 0)%nat by (destruct p; [done|simpl; lia]).
  rewrite elem_of_app, list_elem_of_singleton, !list_elem_of_fmap. rewrite length_take. intros [(n & -> & Hn)| ->].
  - apply elem_of_seq in Hn. exists n. rewrite take_take. split; [f_equal; lia|apply elem_of_seq; lia].
  - exists (length p - 1)%nat. split; [done|]. apply elem_of_seq. lia.
Qed.

Lemma ancestors_ne p q : q ∈ ancestors p -> q <> p.
Proof.
  unfold ancestors. rewrite list_elem_of_fmap. intros (n & -> & Hn%elem_of_seq) E%(f_equal length). rewrite length_take in E. lia.
Qed.

Lemma sync_spec q d ok d' : fs_sync_directory q d = (ok, d') ->
  dk_visible d' = dk_visible d /\ reads_of d' = reads_of d /\ (ok = true -> dk_visible d !! q = Some Dir) /\
  forall p, dk_durable d' !! p = if ok && is_child q p then dk_visible d !! p else dk_durable d !! p.
Proof.
  unfold fs_sync_directory. destruct (next_fault d) as [f d1] eqn:E. destruct (next_fault_same d f d1 E) as (E1 & E2 & E3 & _).
  assert ((if bool_decide (dk_visible d1 !! q = Some Dir) then (true, settle q d1) else (false, d1)) = (ok, d') ->
    dk_visible d' = dk_visible d /\ reads_of d' = reads_of d /\ (ok = true -> dk_visible d !! q = Some Dir) /\
    forall p, dk_durable d' !! p = if ok && is_child q p then dk_visible d !! p else dk_durable d !! p) as H.
  { case_bool_decide as Eq; intros [= <- <-]; [|split_and!; [done|done|done|intros p; simpl; by rewrite E2]]. split; [done|]. split; [done|]. split; [intros _; congruence|].
    intros p. rewrite lookup_settle, E1, E2. done. }
  destruct f; [exact H|intros [= <- <-]; split_and!; [done..|]; by intros; rewrite E2|exact H|exact H].
Qed.

(** [ensure_directory] only makes directories, and settles what it looks at. *)
Lemma ensure_directory_spec p d s d' : ensure_directory p d = (s, d') ->
  (forall q, dk_visible d' !! q = dk_visible d !! q \/ dk_visible d !! q = None /\ dk_visible d' !! q = Some Dir /\ q ∈ ancestors p ++ [p]) /\
  (forall q, dk_durable d' !! q = dk_durable d !! q \/ dk_durable d' !! q = dk_visible d' !! q) /\
  (s = Ok -> forall q, q ∈ ancestors p ++ [p] -> dk_visible d' !! q = Some Dir) /\
  reads_of d' = reads_of d /\ (s = Ok \/ s = Io).
Proof.
  unfold ensure_directory. destruct (fs_create_directories p d) as [r d1] eqn:Ec.
  assert ((forall q, dk_visible d1 !! q = dk_visible d !! q \/ dk_visible d !! q = None /\ dk_visible d1 !! q = Some Dir /\ q ∈ ancestors p ++ [p]) /\
    dk_durable d1 = dk_durable d /\ (r <> None -> forall q, q ∈ ancestors p ++ [p] -> dk_visible d1 !! q = Some Dir) /\ reads_of d1 = reads_of d) as (C1 & C2 & C3 & C4).
  { revert Ec. unfold fs_create_directories. destruct (next_fault d) as [f d0] eqn:E. destruct (next_fault_same d f d0 E) as (E1 & E2 & E3 & _).
    assert (forall budget, (let '(ok, v) := make_dirs budget (ancestors p ++ [p]) (dk_visible d0) in
      (if ok then Some (negb (bool_decide (dk_visible d0 !! p = Some Dir))) else None, with_visible d0 v)) = (r, d1) ->
      (forall q, dk_visible d1 !! q = dk_visible d !! q \/ dk_visible d !! q = None /\ dk_visible d1 !! q = Some Dir /\ q ∈ ancestors p ++ [p]) /\
      dk_durable d1 = dk_durable d /\ (r <> None -> forall q, q ∈ ancestors p ++ [p] -> dk_visible d1 !! q = Some Dir) /\ reads_of d1 = reads_of d) as Hmk.
    { intros budget. destruct (make_dirs budget (ancestors p ++ [p]) (dk_visible d0)) as [ok v] eqn:Em. destruct (make_dirs_spec _ _ _ _ _ Em) as (M1 & M2 & M3).
      intros [= <- <-]. rewrite E1 in M1, M2. simpl. split; [|split; [done|split; [|done]]].
      - intros q. destruct (dk_visible d !! q) as [n|] eqn:Eq; [left; by apply M1|]. destruct (v !! q) as [n|] eqn:Ev; [|by left]. right.
        destruct (M2 q n Ev) as [H|[H ->]]; [congruence|done].
      - destruct ok; [|done]. intros _. by apply M3. }
    destruct f; [apply Hmk|intros [= <- <-]; rewrite E1; split_and!; [by left|done..]|apply Hmk|apply Hmk]. }
  destruct r as [[]|].
  - destruct (fs_sync_directory p d1) as [ok1 d2] eqn:S1. destruct (sync_spec _ _ _ _ S1) as (A1 & A2 & _ & A4). destruct ok1.
    + destruct (fs_sync_directory (parent_path p) d2) as [ok2 d3] eqn:S2. destruct (sync_spec _ _ _ _ S2) as (B1 & B2 & _ & B4).
      assert (forall q, dk_durable d3 !! q = dk_durable d !! q \/ dk_durable d3 !! q = dk_visible d3 !! q) as Hdur.
      { intros q. rewrite B4, A4, B1, A1, C2. destruct (ok2 && is_child _ q); [by right|]. simpl. destruct (is_child p q); auto. }
      destruct ok2; intros [= <- <-]; rewrite B1, A1; (split; [done|]); (split; [intros q; specialize (Hdur q); by rewrite B1, A1 in Hdur|]).
      * split; [by intros _; apply C3|]. split; [congruence|by left].
      * split; [done|]. split; [congruence|by right].
    + intros [= <- <-]. rewrite A1. split; [done|]. split; [intros q; rewrite A4, C2; by left|]. split; [done|]. split; [congruence|by right].
  - intros [= <- <-]. split; [done|]. split; [rewrite C2; auto|]. split; [by intros _; apply C3|]. split; [done|by left].
  - intros [= <- <-]. split; [done|]. split; [rewrite C2; auto|]. split; [done|]. split; [done|by right].
Qed.

Lemma append_to_spec p b d c s : dk_visible d !! p = Some (File c s) ->
  append_to p b d = with_visible d (<[p := File (c ++ b) false]> (dk_visible d)).
Proof. intros E. unfold append_to. by rewrite E. Qed.

Lemma write_loop_spec p : forall fuel b d ok d' c s, dk_visible d !! p = Some (File c s) -> write_loop fuel p b d = (ok, d') ->
  exists k s', dk_visible d' = <[p := File (c ++ take k b) s']> (dk_visible d) /\ dk_durable d' = dk_durable d /\ reads_of d' = reads_of d /\
    (ok = true -> take k b = b).
Proof.
  assert (forall b d c s, dk_visible d !! p = Some (File c s) ->
    exists k s', dk_visible d = <[p := File (c ++ take k b) s']> (dk_visible d) /\ dk_durable d = dk_durable d /\ reads_of d = reads_of d /\ (false = true -> take k b = b)) as Hsame.
  { intros b d c s Hc. exists 0%nat, s. rewrite take_0, app_nil_r. split; [by rewrite insert_id|done]. }
  induction fuel as [|fuel IH]; intros [|x b] d ok d' c s Hc; cbn [write_loop].
  1,3: intros [= <- <-]; exists 0%nat, s; rewrite app_nil_r; split; [by rewrite insert_id|done].
  - intros [= <- <-]. by eapply Hsame.
  - destruct (fs_write p (x :: b) d) as [r d1] eqn:Ew. revert Ew. unfold fs_write. destruct (next_fault d) as [f d0] eqn:Ef.
    destruct (next_fault_same d f d0 Ef) as (E1 & E2 & E3 & _). rewrite <- E1 in Hc.
    assert (forall n b', b' = take n (x :: b) -> write_loop fuel p (drop n (x :: b)) (append_to p b' d0) = (ok, d') ->
      exists k s', dk_visible d' = <[p := File (c ++ take k (x :: b)) s']> (dk_visible d) /\ dk_durable d' = dk_durable d /\ reads_of d' = reads_of d /\
        (ok = true -> take k (x :: b) = x :: b)) as Hpart.
    { intros n b' -> H. rewrite (append_to_spec p _ d0 c s Hc) in H.
      apply (IH _ _ _ _ (c ++ take n (x :: b)) false) in H as (k & s' & H1 & H2 & H3 & H4); [|simpl; by rewrite lookup_insert_eq].
      exists (n + k)%nat, s'. rewrite <- take_take_drop, app_assoc. rewrite H1, H2, H3. simpl. rewrite insert_insert_eq, E1. split; [done|]. split; [done|]. split; [done|].
      intros Hok. rewrite (H4 Hok). apply take_drop. }
    destruct f; intros [= <- <-].
    + intros H. apply (Hpart (length (x :: b)) (x :: b)); [by rewrite take_ge|exact H].
    + intros [= <- <-]. rewrite <- E2, <- E3, <- E1. by eapply Hsame.
    + intros H. destruct (IH _ _ _ _ c s Hc H) as (k & s' & H1 & H2 & H3 & H4). exists k, s'. rewrite H1, H2, H3, E1. done.
    + intros H. apply (Hpart n (take n (x :: b)) eq_refl). replace (drop n (x :: b)) with (drop (n `min` length (x :: b)) (x :: b)); [exact H|].
      destruct (Nat.le_gt_cases n (length (x :: b))); [by rewrite Nat.min_l|]. rewrite Nat.min_r by lia. by rewrite !drop_ge by lia.
Qed.

Lemma close_spec d ok d' : fs_close d = (ok, d') -> dk_visible d' = dk_visible d /\ dk_durable d' = dk_durable d /\ reads_of d' = reads_of d.
Proof. unfold fs_close. destruct (next_fault d) as [f d1] eqn:E. destruct (next_fault_same d f d1 E) as (E1 & E2 & E3 & _). by destruct f; intros [= <- <-]. Qed.

Lemma remove_spec p d ok d' : fs_remove p d = (ok, d') ->
  dk_visible d' = (if ok then delete p (dk_visible d) else dk_visible d) /\ dk_durable d' = dk_durable d /\ reads_of d' = reads_of d.
Proof.
  unfold fs_remove. destruct (next_fault d) as [f d1] eqn:E. destruct (next_fault_same d f d1 E) as (E1 & E2 & E3 & _).
  destruct f; intros [= <- <-]; simpl; rewrite ?E1; done.
Qed.

Lemma fsync_spec p d ok d' c s : dk_visible d !! p = Some (File c s) -> fs_fsync p d = (ok, d') ->
  dk_visible d' = <[p := File c (ok || s)]> (dk_visible d) /\ dk_durable d' = dk_durable d /\ reads_of d' = reads_of d.
Proof.
  intros Hc. unfold fs_fsync. destruct (next_fault d) as [f d1] eqn:E. destruct (next_fault_same d f d1 E) as (E1 & E2 & E3 & _).
  rewrite E1, Hc. destruct f; intros [= <- <-]; simpl; rewrite ?E1; try done. split; [by rewrite insert_id|done].
Qed.

Lemma open_new_spec p d r d' : fs_open_new p d = (r, d') ->
  dk_durable d' = dk_durable d /\ reads_of d' = reads_of d /\
  match r with
  | None => dk_visible d !! p = None /\ dk_visible d !! parent_path p = Some Dir /\ dk_visible d' = <[p := File [] false]> (dk_visible d)
  | Some _ => dk_visible d' = dk_visible d
  end.
Proof.
  unfold fs_open_new. destruct (next_fault d) as [f d1] eqn:E. destruct (next_fault_same d f d1 E) as (E1 & E2 & E3 & _). rewrite E1.
  destruct f; try (by intros [= <- <-]); (destruct (dk_visible d !! p) eqn:Ep; [by intros [= <- <-]|]; case_bool_decide; by intros [= <- <-]).
Qed.

Lemma parent_child p : p <> [] -> is_child (parent_path p) p = true.
Proof. intros H. by apply bool_decide_eq_true. Qed.

Lemma write_object_spec p b d s d' : p <> [] -> write_object p b d = (s, d') -> wrote p b d s d'.
Proof.
  intros Hp. unfold write_object. destruct (ensure_directory (parent_path p) d) as [s0 d0] eqn:Ee.
  destruct (ensure_directory_spec _ _ _ _ Ee) as (F1 & F2 & F3 & F4 & F5).
  assert (forall q, q ∈ ancestors (parent_path p) ++ [parent_path p] -> q ∈ ancestors p) as Hanc by (intros; by apply ancestors_parent).
  assert (dk_visible d0 !! p = dk_visible d !! p) as Ep.
  { destruct (F1 p) as [|(_ & _ & H)]; [done|]. by apply Hanc, ancestors_ne in H. }
  assert (parent_path p <> p) as Hpp by (apply (ancestors_ne p), Hanc; set_solver).
  assert (forall q, q <> p -> dk_visible d0 !! q = dk_visible d !! q \/ dk_visible d !! q = None /\ dk_visible d0 !! q = Some Dir /\ q ∈ ancestors p) as Fr.
  { intros q _. destruct (F1 q) as [H|(H1 & H2 & H3)]; [by left|right; auto]. }
  (* nothing at [p]: the frame is that of the directories *)
  assert (forall s1 d1, s1 <> Ok -> dk_visible d1 = dk_visible d0 -> dk_durable d1 = dk_durable d0 -> reads_of d1 = reads_of d0 -> wrote p b d s1 d1) as Hnone.
  { intros s1 d1 Hs V1 V2 V3. split; rewrite ?V1, ?V2, ?V3.
    - exact Fr.
    - done.
    - intros _. left. exact Ep.
    - intros q _. apply F2.
    - rewrite Ep. by left.
    - done. }
  destruct s0; try (intros [= <- <-]; by apply Hnone). specialize (F3 eq_refl).
  destruct (fs_open_new p d0) as [r d1] eqn:Eo. destruct (open_new_spec _ _ _ _ Eo) as (O1 & O2 & O3).
  destruct r as [e|]; [destruct e; intros [= <- <-]; by apply Hnone|]. destruct O3 as (On & Opar & Ov).
  assert (dk_visible d1 !! p = Some (File [] false)) as Hnew by (rewrite Ov; by rewrite lookup_insert_eq).
  destruct (write_loop (write_fuel b d1) p b d1) as [ok d2] eqn:Ew. destruct (write_loop_spec p _ _ _ _ _ [] false Hnew Ew) as (k & s2 & W1 & W2 & W3 & W4).
  rewrite Ov, insert_insert_eq in W1. simpl in W1.
  (* the object is there, in part or whole *)
  assert (forall s1 d3 k1 sy, s1 <> Ok -> dk_visible d3 = <[p := File (take k1 b) sy]> (dk_visible d0) \/ dk_visible d3 = dk_visible d0 ->
    dk_durable d3 = dk_durable d0 -> reads_of d3 = reads_of d0 -> wrote p b d s1 d3) as Hpart.
  { intros s1 d3 k1 sy Hs V1 V2 V3. destruct V1 as [V1|V1]; [|by apply Hnone]. split; rewrite ?V1, ?V2, ?V3.
    - intros q Hq. rewrite lookup_insert_ne by done. by apply Fr.
    - done.
    - intros _. right. rewrite <- Ep. split; [done|]. exists k1, sy. by rewrite lookup_insert_eq.
    - intros q Hq. assert (q <> p) by (destruct Hq as [|[n Hn]]; [done|]; intros ->; congruence). rewrite lookup_insert_ne by done. apply F2.
    - intros _. right. by rewrite lookup_insert_ne by done.
    - done. }
  destruct ok.
  - specialize (W4 eq_refl). destruct (fs_fsync p d2) as [synced d3] eqn:Es.
    destruct (fsync_spec p d2 _ _ (take k b) s2 ltac:(rewrite W1; by rewrite lookup_insert_eq) Es) as (S1 & S2 & S3). rewrite W1, insert_insert_eq in S1.
    destruct (fs_close d3) as [closed d4] eqn:Ecl. destruct (close_spec _ _ _ Ecl) as (C1 & C2 & C3). destruct (negb synced || negb closed) eqn:Esc.
    + intros [= <- <-]. eapply (Hpart Io _ k); [done|left; by rewrite C1, S1|congruence|congruence].
    + apply orb_false_iff in Esc as [Esy _]. apply negb_false_iff in Esy. subst synced. simpl in S1.
      destruct (fs_sync_directory (parent_path p) d4) as [ok5 d5] eqn:E5. destruct (sync_spec _ _ _ _ E5) as (B1 & B2 & B3 & B4). destruct ok5; intros [= <- <-].
      * split.
        -- intros q Hq. rewrite B1, C1, S1, lookup_insert_ne by done. by apply Fr.
        -- intros _. rewrite B4, B1, C1, S1, (parent_child p Hp), lookup_insert_eq, W4, <- Ep. done.
        -- done.
        -- intros q Hq. assert (q <> p) by (destruct Hq as [|[n Hn]]; [done|]; intros ->; congruence). rewrite B4, B1, C1, S1, C2, S2, W2, O1. simpl. destruct (is_child _ q); [by right|]. rewrite lookup_insert_ne by done. apply F2.
        -- intros _. right. rewrite B1, C1, S1, lookup_insert_ne by done. done.
        -- congruence.
      * assert (forall q, dk_durable d5 !! q = dk_durable d0 !! q) as Hd by (intros q; rewrite B4, C2, S2, W2, O1; done).
        apply (Hpart Io d5 k true); [done|left; congruence|apply map_eq; exact Hd|congruence].
  - destruct (fs_close d2) as [closed d3] eqn:Ecl. destruct (close_spec _ _ _ Ecl) as (C1 & C2 & C3).
    destruct (fs_remove p d3) as [okr d4] eqn:Er. destruct (remove_spec _ _ _ _ Er) as (R1 & R2 & R3). intros [= <- <-].
    apply (Hpart Io d4 k s2); [done| |congruence|congruence]. rewrite R1, C1, W1. destruct okr; [right|by left]. rewrite delete_insert_eq. by apply delete_id.
Qed.

(** ** How a disk evolves *)

(** Places where the catalog makes directories. *)
Definition dir_place (q : path) : Prop := (length q <= 2)%nat /\ q <> current_path /\ q <> temp_path /\ q <> lock_path.

(** Outside [X], names stay or are new directories, and the medium lags behind by no more than one step. *)
Record evolves (X : path -> Prop) (d d' : Disk) : Prop := {
  ev_visible : forall q, ~ X q -> dk_visible d' !! q = dk_visible d !! q \/ dk_visible d !! q = None /\ dk_visible d' !! q = Some Dir /\ dir_place q;
  ev_durable : forall q, ~ X q -> dk_durable d' !! q = dk_durable d !! q \/ dk_durable d' !! q = dk_visible d !! q \/ dk_durable d' !! q = dk_visible d' !! q;
  ev_reads : dk_list_faults d' = dk_list_faults d
}.

Lemma evolves_refl X d : evolves X d d.
Proof. split; auto. Qed.

Lemma untouched_evolves X d d' : untouched d d' -> evolves X d d'.
Proof. intros (H1 & H2 & H3). split; [intros q _; left; by rewrite H1|intros q _; left; by rewrite H2|done]. Qed.

Lemma reads_lists d d' : reads_of d' = reads_of d -> dk_list_faults d' = dk_list_faults d.
Proof. by intros [= _ ->]. Qed.

Lemma evolves_trans X d1 d2 d3 : evolves X d1 d2 -> evolves X d2 d3 -> evolves X d1 d3.
Proof.
  intros [V1 D1 R1] [V2 D2 R2]. split; [| |congruence].
  - intros q Hq. destruct (V1 q Hq) as [E1|(E1 & E1' & E1'')], (V2 q Hq) as [E2|(E2 & E2' & E2'')].
    + left. congruence.
    + right. split_and!; congruence.
    + right. split_and!; congruence.
    + congruence.
  - intros q Hq. destruct (V1 q Hq) as [E1|(E1 & E1' & _)], (V2 q Hq) as [E2|(E2 & E2' & _)], (D1 q Hq) as [H1|[H1|H1]], (D2 q Hq) as [H2|[H2|H2]]; rewrite ?H2, ?H1, ?E1, ?E2, ?E1'; auto; right; right; congruence.
Qed.

Lemma evolves_weaken (X Y : path -> Prop) d d' : (forall q, X q -> Y q) -> evolves X d d' -> evolves Y d d'.
Proof. intros H [V D R]. split; [| |done]; intros q Hq; [apply V|apply D]; intros Hx; by apply Hq, H. Qed.

(** What has settled stays. *)
Definition settled_at (d : Disk) (q : path) (n : Inode) : Prop := dk_visible d !! q = Some n /\ dk_durable d !! q = Some n.

Lemma evolves_settled X d d' q n : evolves X d d' -> ~ X q -> settled_at d q n -> settled_at d' q n.
Proof.
  intros [V D _] Hq [H1 H2]. destruct (V q Hq) as [E|(E & _)]; [|congruence]. split; [congruence|].
  destruct (D q Hq) as [H|[H|H]]; congruence.
Qed.

(** A write at an occupied name is no write. *)
Lemma wrote_evolves p b d s d' : (forall q, q ∈ ancestors p -> dir_place q) -> wrote p b d s d' -> evolves (fun q => q = p /\ dk_visible d !! p = None) d d'.
Proof.
  intros Hp [W1 W2 W3 W4 W5 W6].
  assert (forall q, ~ (q = p /\ dk_visible d !! p = None) -> q <> p \/ is_Some (dk_visible d !! q)) as Hx.
  { intros q Hq. destruct (decide (q = p)) as [->|]; [right|by left]. destruct (dk_visible d !! p); [by eexists|]. by destruct Hq. }
  split; [| |by apply reads_lists]; intros q Hq.
  - destruct (decide (q = p)) as [->|Hne].
    + destruct (Hx p Hq) as [|[n Hn]]; [done|]. left. destruct (decide (s = Ok)) as [Hs|Hs]; [destruct (W2 Hs); congruence|]. destruct (W3 Hs) as [|[]]; [done|congruence].
    + destruct (W1 q Hne) as [H|(H1 & H2 & H3)]; [by left|right; auto].
  - destruct (W4 q (Hx q Hq)); auto.
Qed.

Lemma ensure_evolves X p d s d' : (forall q, q ∈ ancestors p ++ [p] -> dir_place q) -> ensure_directory p d = (s, d') -> evolves X d d'.
Proof.
  intros Hp (F1 & F2 & _ & F4 & _)%ensure_directory_spec. split; [| |by apply reads_lists]; intros q _.
  - destruct (F1 q) as [H|(H1 & H2 & H3)]; [by left|right; auto].
  - destruct (F2 q); auto.
Qed.

Lemma sync_evolves X q d ok d' : fs_sync_directory q d = (ok, d') -> evolves X d d'.
Proof. intros (S1 & S2 & _ & S4)%sync_spec. split; [| |by apply reads_lists]; intros p _; [left; by rewrite S1|]. rewrite S4. destruct (ok && is_child q p); auto. Qed.

Lemma lock_spec p d ok d' : fs_lock p d = (ok, d') -> evolves (fun q => q = p) d d'.
Proof.
  unfold fs_lock. destruct (next_fault d) as [f d1] eqn:E. destruct (next_fault_same d f d1 E) as (E1 & E2 & E3 & _).
  assert (evolves (fun q => q = p) d d1) as H1 by (split; [| |by apply reads_lists]; intros q _; [left; by rewrite E1|left; by rewrite E2]).
  assert (evolves (fun q => q = p) d (match dk_visible d1 !! p with Some _ => d1 | None => with_visible d1 (<[p := File [] false]> (dk_visible d1)) end)) as H2.
  { destruct (dk_visible d1 !! p); [done|]. split; [| |by apply reads_lists]; simpl; intros q Hq; left; [rewrite lookup_insert_ne by done; by rewrite E1|by rewrite E2]. }
  by destruct f; intros [= <- <-].
Qed.

Lemma remove_evolves p d ok d' : fs_remove p d = (ok, d') -> evolves (fun q => q = p) d d'.
Proof.
  intros (R1 & R2 & R3)%remove_spec. split; [| |by apply reads_lists]; intros q Hq; left; [|by rewrite R2]. rewrite R1. destruct ok; [|done]. by rewrite lookup_delete_ne.
Qed.

Lemma rename_spec from to d ok d' : from <> to -> fs_rename from to d = (ok, d') ->
  evolves (fun q => q = from \/ q = to) d d' /\ dk_durable d' = dk_durable d /\
  if ok then dk_visible d' !! to = dk_visible d !! from /\ dk_visible d' !! from = None else dk_visible d' = dk_visible d.
Proof.
  intros Hne. unfold fs_rename. destruct (next_fault d) as [f d1] eqn:E. destruct (next_fault_same d f d1 E) as (E1 & E2 & E3 & _).
  assert (evolves (fun q => q = from \/ q = to) d d1) as H1 by (split; [| |by apply reads_lists]; intros q _; [left; by rewrite E1|left; by rewrite E2]).
  assert ((match dk_visible d1 !! from with Some n => (true, with_visible d1 (<[to := n]> (delete from (dk_visible d1)))) | None => (false, d1) end) = (ok, d') ->
    evolves (fun q => q = from \/ q = to) d d' /\ dk_durable d' = dk_durable d /\
    if ok then dk_visible d' !! to = dk_visible d !! from /\ dk_visible d' !! from = None else dk_visible d' = dk_visible d) as H2.
  { destruct (dk_visible d1 !! from) as [n|] eqn:En; intros [= <- <-]; [|done]. split; [|split; [done|]].
    - split; [| |by apply reads_lists]; simpl; intros q Hq; left; [|by rewrite E2]. rewrite lookup_insert_ne by (intros ->; auto). rewrite lookup_delete_ne by (intros ->; auto). by rewrite E1.
    - simpl. rewrite lookup_insert_eq, <- E1, En. split; [done|]. rewrite lookup_insert_ne by done. apply lookup_delete_eq. }
  destruct f; [exact H2|by intros [= <- <-]|exact H2|exact H2].
Qed.

(** ** The pointer *)

Lemma space_not_digit : is_digit kSpace = false.
Proof. done. Qed.

Lemma parse_current_text g t : is_u64 g -> is_u64 t -> parse_current (current_text g t) = Some (g, t).
Proof.
  intros Hg Ht. unfold parse_current, current_text. rewrite from_chars_to_string by done. cbn [app]. rewrite bool_decide_eq_true_2 by done.
  unfold format_token. by rewrite from_chars_to_string.
Qed.

Lemma current_text_inj g t g' t' : is_u64 g -> is_u64 t -> is_u64 g' -> is_u64 t' -> current_text g t = current_text g' t' -> g = g' /\ t = t'.
Proof. intros Hg Ht Hg' Ht' E%(f_equal parse_current). rewrite !parse_current_text in E by done. by simplify_eq. Qed.

Definition entry_of (g t : Z) : Entry := {| generation := g; token := format_token t |}.

Definition pointer_of (v : gmap path Inode) : option Entry :=
  match v !! current_path with
  | Some (File c _) => match parse_current c with Some (g, t) => Some (entry_of g t) | None => None end
  | _ => None
  end.

(** [CURRENT], where it is, was written by [compare_and_set] and is whole. *)
Definition current_ok (v : gmap path Inode) : Prop :=
  forall n, v !! current_path = Some n -> exists g t, is_u64 g /\ is_u64 t /\ n = File (current_text g t) true.

(** Whatever reads fail: the pointer is answered as it is, or [Io]. *)
Lemma disk_read_sound d r d' : current_ok (dk_visible d) -> disk_read d = (r, d') -> untouched d d' /\ (r = Value (pointer_of (dk_visible d)) \/ r = Unexpected Io).
Proof.
  intros Hc. unfold disk_read, pointer_of. destruct (read_object current_path d) as [q d1] eqn:E.
  apply read_object_sound in E as [Hu Hq]; [|intros E'; destruct (Hc _ E') as (g & t & _ & _ & [=])].
  destruct Hq as [->| ->]; [|intros [= <- <-]; split; [done|by right]].
  destruct (dk_visible d !! current_path) as [n|] eqn:En; [|intros [= <- <-]; split; [done|by left]]. destruct (Hc n En) as (g & t & Hg & Ht & ->).
  rewrite parse_current_text by done. intros [= <- <-]. split; [done|by left].
Qed.

Lemma disk_read_spec d : dk_read_faults d = [] -> current_ok (dk_visible d) -> disk_read d = (Value (pointer_of (dk_visible d)), d).
Proof.
  intros Hf Hc. unfold disk_read, pointer_of. rewrite read_object_found; [|done|].
  - destruct (dk_visible d !! current_path) as [n|] eqn:E; [|done]. destruct (Hc n E) as (g & t & Hg & Ht & ->). by rewrite parse_current_text.
  - intros E. destruct (Hc _ E) as (g & t & _ & _ & [=]).
Qed.

Lemma next_token_spec v t : current_ok v -> next_token (pointer_of v) = Some t -> is_u64 t.
Proof.
  intros Hc. unfold pointer_of. destruct (v !! current_path) as [n|] eqn:E; [|intros [= <-]; unfold is_u64; lia]. destruct (Hc n E) as (g & t0 & Hg & Ht & ->).
  rewrite parse_current_text by done. unfold next_token, entry_of, format_token. cbn [token]. rewrite <- (app_nil_r (to_string t0)), from_chars_to_string by done.
  destruct (Z.eqb_spec t0 (2 ^ 64 - 1)); [done|]. intros [= <-]. unfold is_u64 in *. lia.
Qed.

Definition scratch (q : path) : Prop := q = temp_path \/ q = lock_path.

(** What a swap does: the pointer is the old one, or the new one once the call was made with the pointer it expected. *)
Record swapped (expected : option Entry) (g : Z) (d : Disk) (r : Result (option Entry)) (d' : Disk) : Prop := {
  sw_evolves : evolves (fun q => scratch q \/ q = current_path) d d';
  sw_answer : match r with
    | Value (Some e) => exists t, is_u64 t /\ e = entry_of g t /\ pointer_of (dk_visible d) = expected /\
        settled_at d' current_path (File (current_text g t) true) /\ forall q, is_child manifest_dir q = true -> dk_durable d' !! q = dk_visible d' !! q
    | Value None => pointer_of (dk_visible d) <> expected /\ dk_visible d' !! current_path = dk_visible d !! current_path
    | Unexpected s => s <> Ok /\ dk_visible d' !! current_path = dk_visible d !! current_path \/
        s = Io /\ pointer_of (dk_visible d) = expected /\ exists t, is_u64 t /\ dk_visible d' !! current_path = Some (File (current_text g t) true)
    end;
  sw_durable : dk_durable d' !! current_path = dk_durable d !! current_path \/ dk_durable d' !! current_path = dk_visible d !! current_path \/
    dk_durable d' !! current_path = dk_visible d' !! current_path
}.

Lemma manifest_places q : q ∈ ancestors manifest_dir ++ [manifest_dir] -> dir_place q.
Proof. intros H. assert (q = [] \/ q = manifest_dir) as [-> | ->] by (cbv in H; set_solver); by split_and!; [simpl; lia|..]. Qed.

Lemma temp_places q : q ∈ ancestors temp_path -> dir_place q.
Proof. intros H. apply manifest_places. cbv in H |- *. set_solver. Qed.

Lemma disk_cas_spec expected g d r d' : current_ok (dk_visible d) -> disk_cas expected g d = (r, d') -> swapped expected g d r d'.
Proof.
  intros Hc. unfold disk_cas. set (X := fun q => scratch q \/ q = current_path).
  assert (forall d1 r1, evolves scratch d d1 -> dk_visible d1 !! current_path = dk_visible d !! current_path ->
    match r1 with Value (Some _) => False | Value None => pointer_of (dk_visible d) <> expected | Unexpected s => s <> Ok end -> swapped expected g d r1 d1) as Hkeep.
  { intros d1 r1 H1 H2 H3. split; [eapply evolves_weaken; [|exact H1]; unfold X; auto| |].
    - destruct r1 as [[e|]|s]; [done|done|by left].
    - apply (ev_durable _ _ _ H1). by intros [|]. }
  assert (forall d1, evolves scratch d d1 -> dk_visible d1 !! current_path = dk_visible d !! current_path) as Hcur.
  { intros d1 H1. destruct (ev_visible _ _ _ H1 current_path) as [H|(_ & _ & _ & H & _)]; [by intros [|]|done|done]. }
  destruct (ensure_directory manifest_dir d) as [s0 d0] eqn:E0. assert (evolves scratch d d0) as V0 by (eapply ensure_evolves; [apply manifest_places|exact E0]).
  pose proof (ensure_directory_spec _ _ _ _ E0) as (_ & _ & _ & _ & Hs0).
  destruct s0; try (intros [= <- <-]; apply Hkeep; [done|by apply Hcur|done]).
  destruct (fs_lock lock_path d0) as [ok1 d1] eqn:E1.
  assert (evolves scratch d d1) as V1 by (eapply evolves_trans; [exact V0|]; eapply evolves_weaken; [|eapply lock_spec, E1]; unfold scratch; auto).
  destruct ok1; [|intros [= <- <-]; apply Hkeep; [done|by apply Hcur|done]].
  assert (current_ok (dk_visible d1)) as Hc1 by (intros n Hn; apply Hc; by rewrite <- (Hcur d1 V1)).
  destruct (disk_read d1) as [q d1'] eqn:Er. apply disk_read_sound in Er as [Hu Hq]; [|done].
  assert (evolves scratch d d1') as V1' by (eapply evolves_trans; [exact V1|by apply untouched_evolves]). clear V1 E1. rename d1' into d1x.
  assert (pointer_of (dk_visible d1) = pointer_of (dk_visible d)) as Hp by (unfold pointer_of; destruct Hu as (Hu & _); by rewrite <- Hu, (Hcur d1x V1')). rewrite Hp in Hq.
  destruct Hq as [->| ->]; [|intros [= <- <-]; apply Hkeep; [done|by apply Hcur|done]]. clear Hu Hp Hc1 d1. rename d1x into d1, V1' into V1.
  case_bool_decide as Ee; cbn [negb]; [|intros [= <- <-]; apply Hkeep; [done|by apply Hcur|done]].
  destruct (next_token (pointer_of (dk_visible d))) as [t|] eqn:Et; [|intros [= <- <-]; apply Hkeep; [done|by apply Hcur|done]].
  pose proof (next_token_spec _ _ Hc Et) as Ht.
  destruct (fs_remove temp_path d1) as [ok2 d2] eqn:E2.
  assert (evolves scratch d d2) as V2 by (eapply evolves_trans; [exact V1|]; eapply evolves_weaken; [|eapply remove_evolves, E2]; unfold scratch; auto).
  destruct ok2; [|intros [= <- <-]; apply Hkeep; [done|by apply Hcur|done]].
  destruct (write_object temp_path (current_text g t) d2) as [s3 d3] eqn:E3. pose proof (write_object_spec temp_path _ _ _ _ ltac:(done) E3) as W.
  assert (evolves scratch d d3) as V3 by (eapply evolves_trans; [exact V2|]; eapply evolves_weaken; [|eapply wrote_evolves, W; apply temp_places]; unfold scratch; intros q [-> _]; auto).
  destruct s3; try (intros [= <- <-]; apply Hkeep; [done|by apply Hcur|done]). destruct (w_ok _ _ _ _ _ W eq_refl) as (_ & Wv & _).
  destruct (fs_rename temp_path current_path d3) as [ok4 d4] eqn:E4. destruct (rename_spec temp_path current_path _ _ _ ltac:(done) E4) as (R1 & R2 & R3).
  destruct ok4; [|intros [= <- <-]; apply Hkeep].
  2: { eapply evolves_trans; [exact V3|]. split; [intros q _; left; by rewrite R3|intros q _; left; by rewrite R2|apply R1]. }
  2: { rewrite R3. by apply Hcur. }
  2: { done. }
  destruct R3 as [R3 _]. rewrite Wv in R3.
  assert (evolves X d d4) as V4 by (eapply evolves_trans; [eapply evolves_weaken; [|exact V3]; unfold X; auto|]; eapply evolves_weaken; [|exact R1]; unfold X, scratch; intros q [-> | ->]; auto).
  assert (dk_durable d4 !! current_path = dk_durable d !! current_path \/ dk_durable d4 !! current_path = dk_visible d !! current_path) as Hd4.
  { rewrite R2. destruct (ev_durable _ _ _ V3 current_path) as [H|[H|H]]; [by intros [|]|auto|auto|]. right. rewrite H. by apply Hcur. }
  destruct (fs_sync_directory manifest_dir d4) as [ok5 d5] eqn:E5. destruct (sync_spec _ _ _ _ E5) as (S1 & S2 & S3 & S4).
  assert (evolves X d d5) as V5 by (eapply evolves_trans; [exact V4|eapply sync_evolves, E5]).
  destruct ok5; intros [= <- <-]; (split; [exact V5| |]); cbn [andb] in S4.
  - exists t. split; [done|]. split; [done|]. split; [done|]. split; [|intros q Hq; by rewrite S4, Hq, S1].
    split; [by rewrite S1|]. rewrite S4. done.
  - right; right. by rewrite S4, S1.
  - right. split; [done|]. split; [done|]. exists t. split; [done|by rewrite S1].
  - rewrite S4. destruct Hd4; auto.
Qed.
