(* ===== verification/DiskProofs.v ===== *)
(** * The catalog on disk keeps its contract

    What [DiskCatalog] shows to a process that uses it is a manifest that meets [CatalogLaws], whatever calls
    to the file system fail; what it acknowledged is still there after a power cut, provided the manifest
    directory had reached the medium. *)

From S2P Require Import Prelude Slice Names Catalog FileSystem DiskCatalog.

#[export] Instance is_u64_dec z : Decision (is_u64 z).
Proof. unfold is_u64. apply _. Defined.

(** ** The manifest a disk shows *)

Definition snapshot_entry (e : path * Inode) : option (Z * bytes) :=
  match e with
  | ([m; gn; name], File c _) =>
      match parse_u64 gn with
      | Some g => if bool_decide (m = kManifest /\ gn = generation_name g /\ name = kSnapshot) then Some (g, c) else None
      | None => None
      end
  | _ => None
  end.

Definition edit_entry (e : path * Inode) : option ((Z * Z) * bytes) :=
  match e with
  | ([m; gn; name], File c _) =>
      match parse_u64 gn, from_chars (drop (length kEditPrefix) name) with
      | Some g, Some (seq, _) => if bool_decide (m = kManifest /\ gn = generation_name g /\ name = edit_name seq) then Some ((g, seq), c) else None
      | _, _ => None
      end
  | _ => None
  end.

Definition disk_view (v : gmap path Inode) : Manifest :=
  {| mf_pointer := pointer_of v; mf_snapshots := list_to_map (omap snapshot_entry (map_to_list v)); mf_edits := list_to_map (omap edit_entry (map_to_list v)) |}.

(** Re-indexing a map by a key that tells its entries apart. *)
Lemma lookup_reindex {K K2 A B} `{Countable K, Countable K2} (f : K * A -> option (K2 * B)) (m : gmap K A) k b :
  (forall p n p' n' k b b', f (p, n) = Some (k, b) -> f (p', n') = Some (k, b') -> p = p') ->
  (list_to_map (omap f (map_to_list m)) : gmap K2 B) !! k = Some b <-> exists p n, m !! p = Some n /\ f (p, n) = Some (k, b).
Proof.
  intros Hinj. rewrite <- elem_of_list_to_map.
  - rewrite list_elem_of_omap. split.
    + intros ([p n] & Hin & E). exists p, n. split; [by apply elem_of_map_to_list|done].
    + intros (p & n & Hp & E). exists (p, n). split; [by apply elem_of_map_to_list|done].
  - pose proof (NoDup_fst_map_to_list m) as Hn. induction (map_to_list m) as [|[p n] l IH]; simpl; [constructor|].
    simpl in Hn. apply NoDup_cons in Hn as [Hnot Hn]. destruct (f (p, n)) as [[k0 b0]|] eqn:E; [|by apply IH]. simpl. constructor; [|by apply IH].
    intros ([k1 b1] & -> & Hin)%list_elem_of_fmap. apply list_elem_of_omap in Hin as ([p' n'] & Hin & E'). simpl in *. apply Hnot. rewrite (Hinj _ _ _ _ _ _ _ E E').
    apply list_elem_of_fmap. by exists (p', n').
Qed.

Lemma parse_digits_range s : forall a v, is_u64 a -> parse_digits a s = Some v -> is_u64 v.
Proof.
  induction s as [|c s IH]; intros a v Ha; cbn [parse_digits]; [by intros [= <-]|]. destruct (negb (is_digit c)); [done|]. destruct (_ <? _); [done|].
  apply IH. apply u64_range.
Qed.

Lemma parse_u64_range s v : parse_u64 s = Some v -> is_u64 v.
Proof. unfold parse_u64. case_bool_decide; [done|]. apply parse_digits_range. unfold is_u64. lia. Qed.

Lemma from_chars_range s v rest : from_chars s = Some (v, rest) -> is_u64 v.
Proof. unfold from_chars. destruct (digit_run s) as [run r]. destruct (parse_u64 run) eqn:E; simpl; [|done]. intros [= <- _]. by apply parse_u64_range in E. Qed.

Definition content_at (v : gmap path Inode) (p : path) : option bytes := match v !! p with Some (File c _) => Some c | _ => None end.

Lemma edit_name_parse seq : is_u64 seq -> from_chars (drop (length kEditPrefix) (edit_name seq)) = Some (seq, []).
Proof. intros Hs. unfold edit_name. rewrite drop_app_length. by apply from_chars_padded. Qed.

Lemma edit_name_inj s s' : is_u64 s -> is_u64 s' -> edit_name s = edit_name s' -> s = s'.
Proof. intros H H' E%app_inv_head. by apply padded_inj. Qed.

Lemma snapshot_not_edit seq : kSnapshot <> edit_name seq.
Proof. unfold kSnapshot, edit_name. simpl. intros [=]. Qed.

Lemma view_snapshots v g : mf_snapshots (disk_view v) !! g = if decide (is_u64 g) then content_at v (snapshot_path g) else None.
Proof.
  apply option_eq. intros b. simpl. rewrite lookup_reindex.
  - split.
    + intros (p & n & Hp & E). unfold snapshot_entry in E. destruct p as [|m [|gn [|name [|]]]]; try done. destruct n as [|c s]; [done|].
      destruct (parse_u64 gn) as [g'|] eqn:Eg; [|done]. apply parse_u64_range in Eg. case_bool_decide as H; [|done]. destruct H as (-> & -> & ->). injection E as -> ->.
      destruct (decide (is_u64 g)); [|done]. unfold content_at. change (snapshot_path g) with [kManifest; generation_name g; kSnapshot]. by rewrite Hp.
    + destruct (decide (is_u64 g)) as [Hg|]; [|done]. unfold content_at. destruct (v !! snapshot_path g) as [[|c s]|] eqn:E; [done| |done]. intros [= ->].
      exists (snapshot_path g), (File b s). split; [done|]. simpl. unfold generation_name. rewrite parse_padded by done. by rewrite bool_decide_eq_true_2.
  - intros p n p' n' k c c' E E'. unfold snapshot_entry in *. destruct p as [|m [|gn [|name [|]]]]; try done. destruct n as [|c0 s]; [done|].
    destruct p' as [|m' [|gn' [|name' [|]]]]; try done. destruct n' as [|c1 s']; [done|].
    destruct (parse_u64 gn) as [g1|]; [|done]. destruct (parse_u64 gn') as [g2|]; [|done]. case_bool_decide as H1; [|done]. case_bool_decide as H2; [|done].
    destruct H1 as (-> & -> & ->), H2 as (-> & -> & ->). congruence.
Qed.

Lemma view_edits v g seq : mf_edits (disk_view v) !! (g, seq) = if decide (is_u64 g /\ is_u64 seq) then content_at v (edit_path g seq) else None.
Proof.
  apply option_eq. intros b. simpl. rewrite lookup_reindex.
  - split.
    + intros (p & n & Hp & E). unfold edit_entry in E. destruct p as [|m [|gn [|name [|]]]]; try done. destruct n as [|c s]; [done|].
      destruct (parse_u64 gn) as [g'|] eqn:Eg; [|done]. destruct (from_chars _) as [[seq' rest]|] eqn:Es; [|done]. apply parse_u64_range in Eg. apply from_chars_range in Es.
      case_bool_decide as H; [|done]. destruct H as (-> & -> & ->). injection E as -> -> ->.
      destruct (decide (is_u64 g /\ is_u64 seq)) as [_|[]]; [|done]. unfold content_at. change (edit_path g seq) with [kManifest; generation_name g; edit_name seq]. by rewrite Hp.
    + destruct (decide (is_u64 g /\ is_u64 seq)) as [[Hg Hs]|]; [|done]. unfold content_at. destruct (v !! edit_path g seq) as [[|c s]|] eqn:E; [done| |done]. intros [= ->].
      exists (edit_path g seq), (File b s). split; [done|]. unfold edit_path, generation_dir. cbn [app edit_entry]. unfold generation_name. rewrite parse_padded, edit_name_parse by done.
      by rewrite bool_decide_eq_true_2.
  - intros p n p' n' k c c' E E'. unfold edit_entry in *. destruct p as [|m [|gn [|name [|]]]]; try done. destruct n as [|c0 s]; [done|].
    destruct p' as [|m' [|gn' [|name' [|]]]]; try done. destruct n' as [|c1 s']; [done|].
    destruct (parse_u64 gn) as [g1|]; [|done]. destruct (parse_u64 gn') as [g2|]; [|done]. destruct (from_chars (drop _ name)) as [[q1 ?]|]; [|done].
    destruct (from_chars (drop _ name')) as [[q2 ?]|]; [|done]. case_bool_decide as H1; [|done]. case_bool_decide as H2; [|done].
    destruct H1 as (-> & -> & ->), H2 as (-> & -> & ->). congruence.
Qed.

(** A manifest is what a disk shows where the pointer and the objects agree. *)
Lemma view_is v mf : mf_pointer mf = pointer_of v ->
  (forall g, mf_snapshots mf !! g = if decide (is_u64 g) then content_at v (snapshot_path g) else None) ->
  (forall g seq, mf_edits mf !! (g, seq) = if decide (is_u64 g /\ is_u64 seq) then content_at v (edit_path g seq) else None) -> disk_view v = mf.
Proof.
  intros H1 H2 H3. destruct mf as [p s e]. simpl in *. unfold disk_view. f_equal; [done| |].
  - apply map_eq. intros g. rewrite H2. apply (view_snapshots v).
  - apply map_eq. intros [g seq]. rewrite H3. apply (view_edits v).
Qed.

(** ** Objects *)

Inductive object : path -> Prop :=
  | object_snapshot g : is_u64 g -> object (snapshot_path g)
  | object_edit g seq : is_u64 g -> is_u64 seq -> object (edit_path g seq).

Lemma generation_name_places g : is_u64 g -> generation_name g <> kCurrent /\ generation_name g <> kCurrent ++ kTmp /\ generation_name g <> kLock.
Proof.
  intros Hg. destruct (padded_spec g Hg) as (_ & Hd & _). fold (generation_name g) in Hd. split_and!; intros E; rewrite E in Hd; apply Forall_cons in Hd as [Hd _]; done.
Qed.

Lemma object_places p q : object p -> q ∈ ancestors p -> dir_place q.
Proof.
  assert (forall g name, is_u64 g -> q ∈ ancestors [kManifest; generation_name g; name] -> dir_place q) as H.
  { intros g name Hg Hq. destruct (generation_name_places g Hg) as (H1 & H2 & H3).
    assert (q = [] \/ q = [kManifest] \/ q = [kManifest; generation_name g]) as Hq' by (unfold ancestors in Hq; simpl in Hq; set_solver).
    destruct Hq' as [-> | [-> | ->]]; (split; [simpl; lia|]); [by split_and!..|].
    split_and!; intros E; [apply H1|apply H2|apply H3]; exact (f_equal (fun l => default [] (l !! 1%nat)) E). }
  intros [g Hg|g seq Hg Hs] Hq; [exact (H g _ Hg Hq)|exact (H g _ Hg Hq)].
Qed.

Lemma object_shape p : object p -> exists g name, is_u64 g /\ p = [kManifest; generation_name g; name] /\ (name = kSnapshot \/ exists seq, is_u64 seq /\ name = edit_name seq).
Proof. intros [g Hg|g seq Hg Hs]; [exists g, kSnapshot|exists g, (edit_name seq)]; eauto 6. Qed.

Lemma object_not_place p : object p -> ~ dir_place p /\ p <> current_path /\ p <> temp_path /\ p <> lock_path /\ p <> [].
Proof. intros (g & name & _ & -> & _)%object_shape. split_and!; [|done..]. intros [H _]. simpl in H. lia. Qed.

(** What a disk that only the catalog writes to looks like. *)
Record disk_ok (d : Disk) : Prop := {
  do_lists : dk_list_faults d = [];
  do_current : current_ok (dk_visible d);
  do_names : forall g name n, is_u64 g -> dk_visible d !! [kManifest; generation_name g; name] = Some n ->
    (name = kSnapshot \/ exists seq, is_u64 seq /\ name = edit_name seq) /\ (exists c s, n = File c s) /\ dk_visible d !! generation_dir g = Some Dir
}.

Lemma generation_dir_place g : is_u64 g -> dir_place (generation_dir g).
Proof. intros Hg. apply (object_places (snapshot_path g)); [by constructor|]. unfold ancestors. simpl. set_solver. Qed.

Lemma content_ext v v' p : v' !! p = v !! p -> content_at v' p = content_at v p.
Proof. unfold content_at. by intros ->. Qed.

(** A step that leaves the objects outside [X] alone. *)
Lemma evolves_objects (X : path -> Prop) d d' p : evolves X d d' -> object p -> ~ X p -> dk_visible d' !! p = dk_visible d !! p.
Proof. intros [V _ _] Ho Hx. destruct (V p Hx) as [|(_ & _ & H)]; [done|]. by apply object_not_place in Ho as [Ho _]. Qed.

Lemma evolves_current (X : path -> Prop) d d' : evolves X d d' -> ~ X current_path -> dk_visible d' !! current_path = dk_visible d !! current_path.
Proof. intros [V _ _] Hx. destruct (V current_path Hx) as [|(_ & _ & _ & H & _)]; done. Qed.

(** A step keeps [disk_ok] where it touches neither directories nor names below them. *)
Lemma evolves_names (X : path -> Prop) d d' : evolves X d d' -> (forall q, X q -> length q = 2%nat /\ ~ dir_place q) ->
  forall g name n, is_u64 g -> (forall g name n, is_u64 g -> dk_visible d !! [kManifest; generation_name g; name] = Some n ->
    (name = kSnapshot \/ exists seq, is_u64 seq /\ name = edit_name seq) /\ (exists c s, n = File c s) /\ dk_visible d !! generation_dir g = Some Dir) ->
  dk_visible d' !! [kManifest; generation_name g; name] = Some n ->
    (name = kSnapshot \/ exists seq, is_u64 seq /\ name = edit_name seq) /\ (exists c s, n = File c s) /\ dk_visible d' !! generation_dir g = Some Dir.
Proof.
  intros Hev HX g name n Hg Hd Hn. pose proof Hev as [V _ _].
  destruct (V [kManifest; generation_name g; name]) as [E|(_ & _ & Hl & _)]; [intros [H _]%HX; done| |simpl in Hl; lia]. rewrite E in Hn.
  destruct (Hd g name n Hg Hn) as (A & B & C). split; [done|]. split; [done|].
  destruct (V (generation_dir g)) as [E'|(E' & _)]; [|congruence|congruence]. intros [_ Hx]%HX. by apply Hx, generation_dir_place.
Qed.

(** ** The operations keep the disk, and show what the laws say *)

Lemma scratch_place q : scratch q \/ q = current_path -> length q = 2%nat /\ ~ dir_place q.
Proof. intros [[-> | ->] | ->]; (split; [done|]); intros (_ & H1 & H2 & H3); done. Qed.

Lemma put_spec p b d s d' : object p -> disk_ok d -> write_object p b d = (s, d') ->
  disk_ok d' /\ pointer_of (dk_visible d') = pointer_of (dk_visible d) /\ (forall q, object q -> q <> p -> content_at (dk_visible d') q = content_at (dk_visible d) q) /\
  (s = Ok -> content_at (dk_visible d) p = None /\ content_at (dk_visible d') p = Some b) /\
  (s <> Ok -> content_at (dk_visible d') p = content_at (dk_visible d) p \/
     content_at (dk_visible d) p = None /\ exists k, content_at (dk_visible d') p = Some (take k b)).
Proof.
  intros Ho [H1 H2 H3] E. pose proof (object_not_place p Ho) as (P1 & P2 & _ & _ & P5). apply write_object_spec in E as W; [|done].
  assert (evolves (fun q => q = p) d d') as Hev by (eapply evolves_weaken; [|eapply wrote_evolves; [|exact W]; intros; by eapply object_places]; by intros q []).
  assert (dk_visible d' !! current_path = dk_visible d !! current_path) as Hc by (eapply evolves_current; [exact Hev|congruence]).
  destruct W as [W1 W2 W3 W4 W5 W6]. split.
  - split; [rewrite (ev_reads _ _ _ Hev); done|intros n; rewrite Hc; apply H2|]. intros g name n Hg Hn. destruct (decide (p = [kManifest; generation_name g; name])) as [Ep|Hne].
    + destruct (object_shape p Ho) as (g' & name' & Hg' & Ep' & Hname). rewrite Ep in Ep'. injection Ep' as Eg En. rewrite <- En in Hname. split; [done|]. rewrite <- Ep in Hn.
      assert (dk_visible d !! p = Some n -> (exists c s0, n = File c s0) /\ dk_visible d !! generation_dir g = Some Dir) as Hold.
      { rewrite Ep. intros (_ & A & B)%H3; done. }
      assert (dk_visible d' !! generation_dir g = Some Dir) as Hdir.
      { destruct W5 as [[n0 Hn0]|Hd]; [by eexists| |by rewrite Ep in Hd]. rewrite Ep in Hn0. apply H3 in Hn0 as (_ & _ & Hd); [|done].
        destruct (W1 (generation_dir g)) as [E1|(E1 & _)]; [by rewrite Ep|congruence|congruence]. }
      split; [|done]. destruct (decide (s = Ok)) as [Hs|Hs].
      * destruct (W2 Hs) as (_ & E2 & _). rewrite E2 in Hn. injection Hn as <-. eauto.
      * destruct (W3 Hs) as [E3|(_ & k & sy & E3)]; rewrite E3 in Hn; [by apply Hold|]. injection Hn as <-. eauto.
    + destruct (ev_visible _ _ _ Hev [kManifest; generation_name g; name]) as [E1|(_ & _ & Hl & _)]; [congruence| |simpl in Hl; lia]. rewrite E1 in Hn.
      destruct (H3 g name n Hg Hn) as (A & B & C). split; [done|]. split; [done|].
      destruct (ev_visible _ _ _ Hev (generation_dir g)) as [E2|(E2 & _)]; [|congruence|congruence]. intros <-. by apply P1, generation_dir_place.
  - split; [unfold pointer_of; by rewrite Hc|]. split; [intros q Hq Hne; apply content_ext; by eapply evolves_objects|]. split.
    + intros Hs. destruct (W2 Hs) as (E1 & E2 & _). unfold content_at. by rewrite E1, E2.
    + intros Hs. destruct (W3 Hs) as [E3|(E3 & k & sy & E4)]; [left; by apply content_ext|right]. unfold content_at. rewrite E3, E4. split; [done|by exists k].
Qed.

Lemma remove_all_spec q d ok d' : fs_remove_all q d = (ok, d') ->
  dk_durable d' = dk_durable d /\ reads_of d' = reads_of d /\
  (forall p, dk_visible d' !! p = dk_visible d !! p \/ q `prefix_of` p /\ dk_visible d' !! p = None) /\
  (forall p n, q `prefix_of` p -> dk_visible d' !! p = Some n -> dk_visible d' !! q = dk_visible d !! q) /\
  (ok = true -> forall p, q `prefix_of` p -> dk_visible d' !! p = None).
Proof.
  unfold fs_remove_all. destruct (next_fault d) as [f d1] eqn:E. destruct (next_fault_same d f d1 E) as (E1 & E2 & E3 & _). rewrite E1.
  assert (forall ps, (forall p, p ∈ ps -> q `prefix_of` p) -> forall p, remove_paths ps (dk_visible d) !! p = dk_visible d !! p \/ q `prefix_of` p /\ remove_paths ps (dk_visible d) !! p = None) as Hrem.
  { intros ps Hps p. rewrite lookup_remove_paths. case_bool_decide; [right; auto|by left]. }
  assert (forall p, p ∈ below q (dk_visible d) ++ [q] -> q `prefix_of` p) as Hbelow.
  { intros p. rewrite elem_of_app, list_elem_of_singleton, elem_of_below. intros [(_ & H & _)| ->]; done. }
  assert (forall p, q `prefix_of` p -> remove_paths (below q (dk_visible d) ++ [q]) (dk_visible d) !! p = None) as Hall.
  { intros p Hp. rewrite lookup_remove_paths. case_bool_decide as Hin; [done|]. destruct (dk_visible d !! p) as [n|] eqn:En; [|done]. destruct Hin. apply elem_of_app.
    destruct (decide (p = q)) as [->|Hne]; [right; set_solver|left]. apply elem_of_below. split; [by exists n|done]. }
  destruct f; intros [= <- <-]; simpl; rewrite ?E1.
  - split; [done|]. split; [done|]. split; [by apply Hrem|]. split; [|done]. intros p n Hp. by rewrite (Hall p Hp).
  - split; [done|]. split; [done|]. split; [auto|]. done.
  - split; [done|]. split; [done|]. split; [by apply Hrem|]. split; [|done]. intros p n Hp. by rewrite (Hall p Hp).
  - split; [done|]. split; [done|]. split; [apply Hrem; intros p Hp; apply Hbelow, elem_of_app; left; by eapply subseteq_take|]. split; [|done].
    intros p n0 _ _. rewrite lookup_remove_paths. case_bool_decide as Hin; [|done]. apply subseteq_take, elem_of_below in Hin as (_ & _ & []). done.
Qed.

Lemma delete_spec g d s d' : disk_delete_generation g d = (s, d') ->
  evolves (fun q => generation_dir g `prefix_of` q) d d' /\
  (forall p, dk_visible d' !! p = dk_visible d !! p \/ generation_dir g `prefix_of` p /\ dk_visible d' !! p = None) /\
  (forall p n, generation_dir g `prefix_of` p -> dk_visible d' !! p = Some n -> dk_visible d' !! generation_dir g = dk_visible d !! generation_dir g).
Proof.
  unfold disk_delete_generation. destruct (fs_remove_all (generation_dir g) d) as [ok d1] eqn:E. destruct (remove_all_spec _ _ _ _ E) as (R1 & R2 & R3 & R4 & _).
  assert (evolves (fun q => generation_dir g `prefix_of` q) d d1) as V1.
  { split; [| |by apply reads_lists]; intros q Hq; [|left; by rewrite R1]. destruct (R3 q) as [|[]]; [by left|done]. }
  destruct ok; [|intros [= <- <-]; done]. destruct (fs_sync_directory manifest_dir d1) as [ok2 d2] eqn:E2. pose proof (sync_spec _ _ _ _ E2) as (S1 & _).
  assert (evolves (fun q => generation_dir g `prefix_of` q) d d2) by (eapply evolves_trans; [exact V1|eapply sync_evolves, E2]).
  destruct ok2; intros [= <- <-]; rewrite S1; done.
Qed.

Lemma generation_prefix g g' name : is_u64 g -> is_u64 g' -> generation_dir g `prefix_of` [kManifest; generation_name g'; name] -> g = g'.
Proof. intros Hg Hg' [rest E]. apply (f_equal (fun l => default [] (l !! 1%nat))) in E. simpl in E. symmetry in E. by apply padded_inj. Qed.

Lemma delete_keeps g d s d' : is_u64 g -> disk_ok d -> disk_delete_generation g d = (s, d') ->
  disk_ok d' /\ pointer_of (dk_visible d') = pointer_of (dk_visible d) /\ (forall p, dk_visible d' !! p = dk_visible d !! p \/ dk_visible d' !! p = None) /\
  forall g' name, is_u64 g' -> g' <> g -> dk_visible d' !! [kManifest; generation_name g'; name] = dk_visible d !! [kManifest; generation_name g'; name].
Proof.
  intros Hg [H1 H2 H3] E. apply delete_spec in E as (Hev & D1 & D2).
  assert (forall g', is_u64 g' -> g' <> g -> forall p, [kManifest; generation_name g'] `prefix_of` p -> dk_visible d' !! p = dk_visible d !! p) as Hother.
  { intros g' Hg' Hne p [rest ->]. destruct (D1 ([kManifest; generation_name g'] ++ rest)) as [|[[rest' E'] _]]; [done|]. exfalso. apply Hne.
    apply (f_equal (fun l => default [] (l !! 1%nat))) in E'. simpl in E'. by apply padded_inj. }
  assert (dk_visible d' !! current_path = dk_visible d !! current_path) as Hc.
  { destruct (D1 current_path) as [|[[rest E'] _]]; [done|]. apply (f_equal (fun l => default [] (l !! 1%nat))) in E'. simpl in E'. symmetry in E'.
    by apply (proj1 (generation_name_places g Hg)) in E'. }
  split; [|split; [unfold pointer_of; by rewrite Hc|split; [intros p; destruct (D1 p) as [|[_ ?]]; auto|intros g' name Hg' Hne; apply (Hother g'); [done..|by exists [name]]]]].
  split; [rewrite (ev_reads _ _ _ Hev); done|intros n; rewrite Hc; apply H2|]. intros g' name n Hg' Hn. destruct (decide (g' = g)) as [->|Hne].
  - assert (generation_dir g `prefix_of` [kManifest; generation_name g; name]) as Hp by by exists [name].
    rewrite (D2 _ _ Hp Hn). destruct (D1 [kManifest; generation_name g; name]) as [E1|[_ E1]]; [|congruence]. rewrite E1 in Hn. by apply H3.
  - rewrite (Hother g') in Hn; [|done..|by exists [name]]. rewrite (Hother g'); [|done..]. by apply (H3 g' name n).
Qed.

Lemma cas_keeps expected g d r d' : is_u64 g -> disk_ok d -> disk_cas expected g d = (r, d') ->
  disk_ok d' /\ (forall q, object q -> dk_visible d' !! q = dk_visible d !! q).
Proof.
  intros Hg [H1 H2 H3] E. destruct (disk_cas_spec _ _ _ _ _ H2 E) as [Hev Hans _]. split.
  - split; [rewrite (ev_reads _ _ _ Hev); done| |].
    + intros n Hn. destruct r as [[e|]|s].
      * destruct Hans as (t & Ht & _ & _ & [Hv _] & _). rewrite Hv in Hn. injection Hn as <-. eauto.
      * destruct Hans as [_ Hv]. rewrite Hv in Hn. by apply H2.
      * destruct Hans as [[_ Hv]|(_ & _ & t & Ht & Hv)]; rewrite Hv in Hn; [by apply H2|]. injection Hn as <-. eauto.
    + intros g' name n Hg'. apply (evolves_names _ _ _ Hev scratch_place g' name n Hg' H3).
  - intros q Hq. eapply evolves_objects; [exact Hev|done|]. intros [[H| H]| H]; pose proof (object_not_place q Hq) as (_ & A & B & C & _); done.
Qed.

(** ** The edits a directory lists *)

Lemma edit_of_spec d g name n seq : disk_ok d -> is_u64 g -> dk_visible d !! [kManifest; generation_name g; name] = Some n ->
  edit_of (name, n) = Some seq <-> is_u64 seq /\ name = edit_name seq.
Proof.
  intros [_ _ H3] Hg Hn. destruct (H3 g name n Hg Hn) as ([->|(seq' & Hs' & ->)] & _).
  - split; [done|]. by intros [_ ?%snapshot_not_edit].
  - unfold edit_of. cbn [fst]. replace (starts_with (edit_name seq') kEditPrefix) with true.
    + rewrite edit_name_parse by done. split; [by intros [= <-]|]. intros [Hs E%edit_name_inj]; [by subst|done|done].
    + symmetry. apply starts_with_spec. by exists (padded seq').
Qed.

Lemma entries_nodup q v : NoDup (entries_of q v).*1.
Proof.
  pose proof (NoDup_fst_map_to_list v) as Hn. unfold entries_of. induction (map_to_list v) as [|[p n] l IH]; simpl; [constructor|].
  simpl in Hn. apply NoDup_cons in Hn as [Hnot Hn]. specialize (IH Hn). destruct (is_child q p) eqn:Ec; [|done]. destruct (last p) as [name|] eqn:El; [|done]. simpl. constructor; [|done].
  intros ([name' n'] & E & Hin)%list_elem_of_fmap. simpl in E. subst name'. apply list_elem_of_omap in Hin as ([p' n''] & Hin & E). simpl in E.
  destruct (is_child q p') eqn:Ec'; [|done]. destruct (last p') eqn:El'; [|done]. injection E as -> ->. apply Hnot. apply list_elem_of_fmap. exists (p', n'). split; [|done]. simpl.
  unfold is_child in Ec, Ec'. apply bool_decide_eq_true in Ec as [_ Ec], Ec' as [_ Ec']. apply last_Some in El as [l0 ->], El' as [l1 ->].
  unfold parent_path in Ec, Ec'. rewrite length_app in Ec, Ec'. simpl in Ec, Ec'. rewrite take_app_length' in Ec, Ec' by lia. by subst.
Qed.

Lemma list_edits_spec g d : is_u64 g -> disk_ok d -> exists l, disk_list_edits g d = (Value l, d) /\ NoDup l /\
  forall seq, seq ∈ l <-> is_u64 seq /\ is_Some (content_at (dk_visible d) (edit_path g seq)).
Proof.
  intros Hg Hok. unfold disk_list_edits, fs_directory_iterator, next_list_fault. rewrite (do_lists _ Hok).
  assert (forall seq, is_Some (content_at (dk_visible d) (edit_path g seq)) <-> exists n, dk_visible d !! [kManifest; generation_name g; edit_name seq] = Some n) as Hfile.
  { intros seq. change (edit_path g seq) with [kManifest; generation_name g; edit_name seq]. unfold content_at. split.
    - destruct (dk_visible d !! _) as [n|]; [eauto|by intros [? ?]].
    - intros [n Hn]. rewrite Hn. destruct (do_names _ Hok g _ n Hg Hn) as (_ & (c & s & ->) & _). eauto. }
  case_bool_decide as Ed.
  - eexists. split; [done|]. assert (forall seq, seq ∈ omap edit_of (entries_of (generation_dir g) (dk_visible d)) <-> is_u64 seq /\ exists n, dk_visible d !! [kManifest; generation_name g; edit_name seq] = Some n) as Hin.
    { intros seq. rewrite list_elem_of_omap. split.
      - intros ([name n] & Hin%elem_of_entries & E). pose proof Hin as Hin'. apply (edit_of_spec d g name n seq Hok Hg Hin) in E as [Hs ->]. eauto.
      - intros [Hs [n Hn]]. exists (edit_name seq, n). split; [by apply elem_of_entries|]. by apply (edit_of_spec d g _ n seq Hok Hg Hn). }
    split.
    + rewrite merge_sort_Permutation. pose proof (entries_nodup (generation_dir g) (dk_visible d)) as Hn.
      assert (Forall (fun e => dk_visible d !! [kManifest; generation_name g; e.1] = Some e.2) (entries_of (generation_dir g) (dk_visible d))) as Hall.
      { apply Forall_forall. intros [name n] H%elem_of_entries. done. }
      clear Hin. induction (entries_of (generation_dir g) (dk_visible d)) as [|[name n] l IH]; simpl; [constructor|]. simpl in Hn.
      apply NoDup_cons in Hn as [Hnot Hn]. apply Forall_cons in Hall as [Hhd Hall]. specialize (IH Hn Hall). destruct (edit_of (name, n)) as [seq|] eqn:E; [|done]. constructor; [|done].
      apply (edit_of_spec d g name n seq Hok Hg Hhd) in E as [Hs ->]. intros ([name' n'] & Hin & E)%list_elem_of_omap. rewrite Forall_forall in Hall. specialize (Hall _ Hin). simpl in Hall.
      apply (edit_of_spec d g name' n' seq Hok Hg Hall) in E as [_ ->]. apply Hnot, list_elem_of_fmap. by exists (edit_name seq, n').
    + intros seq. rewrite merge_sort_Permutation, Hin, Hfile. done.
  - exists []. split; [done|]. split; [constructor|]. intros seq. split; [by intros ?%elem_of_nil|]. intros [_ [n Hn]%Hfile]. destruct Ed. by apply (do_names _ Hok g (edit_name seq) n Hg).
Qed.

(** ** The catalog as an instance *)

(** A number that is no [uint64_t] cannot be passed: such a call is refused and does nothing. *)
Definition in_range {A} (P : Prop) `{Decision P} (refusal : A) (op : Disk -> A * Disk) (d : Disk) : A * Disk :=
  if decide P then op d else (refusal, d).

Definition ds_read : Disk -> Result (option Entry) * Disk := disk_read.
Definition ds_cas (expected : option Entry) (g : Z) : Disk -> Result (option Entry) * Disk := in_range (is_u64 g) (Unexpected Unusable) (disk_cas expected g).
Definition ds_put_snapshot (g : Z) (b : bytes) : Disk -> Status * Disk := in_range (is_u64 g) Unusable (disk_put_snapshot g b).
Definition ds_get_snapshot (g : Z) : Disk -> Result bytes * Disk := in_range (is_u64 g) (Unexpected NotFound) (disk_get_snapshot g).
Definition ds_put_edit (g seq : Z) (b : bytes) : Disk -> Status * Disk := in_range (is_u64 g /\ is_u64 seq) Unusable (disk_put_edit g seq b).
Definition ds_get_edit (g seq : Z) : Disk -> Result bytes * Disk := in_range (is_u64 g /\ is_u64 seq) (Unexpected NotFound) (disk_get_edit g seq).
Definition ds_list_edits (g : Z) : Disk -> Result (list Z) * Disk := in_range (is_u64 g) (Value []) (disk_list_edits g).
Definition ds_delete_generation (g : Z) : Disk -> Status * Disk := in_range (is_u64 g) Unusable (disk_delete_generation g).

Definition keeps {A} (op : Disk -> A * Disk) : Prop := forall d, disk_ok d -> disk_ok (op d).2.

Lemma in_range_keeps {A} P `{Decision P} (refusal : A) op : (P -> keeps op) -> keeps (in_range P refusal op).
Proof. intros H1 d Hd. unfold in_range. destruct (decide P); [by apply H1|done]. Qed.

Lemma untouched_ok d d' : untouched d d' -> disk_ok d -> disk_ok d'.
Proof. intros (H1 & H2 & H3) [O1 O2 O3]. split; rewrite ?H1, ?H3; done. Qed.

Lemma same_keeps {A} (op : Disk -> A * Disk) : (forall d, disk_ok d -> untouched d (op d).2) -> keeps op.
Proof. intros H d Hd. eapply untouched_ok; [by apply H|done]. Qed.

Lemma read_keeps : keeps ds_read.
Proof. apply same_keeps. intros d Hd. unfold ds_read. destruct (disk_read d) as [r d'] eqn:E. by apply disk_read_sound in E as [? _]; [|apply Hd]. Qed.

Lemma cas_keeps_ok expected g : keeps (ds_cas expected g).
Proof. apply in_range_keeps. intros Hg d Hd. destruct (disk_cas expected g d) as [r d'] eqn:E. by apply cas_keeps in E as [? _]. Qed.

Lemma write_keeps p b : object p -> keeps (write_object p b).
Proof. intros Hp d Hd. destruct (write_object p b d) as [s d'] eqn:E. by apply put_spec in E as [? _]. Qed.

Lemma put_snapshot_keeps g b : keeps (ds_put_snapshot g b).
Proof. apply in_range_keeps. intros Hg. apply write_keeps. by constructor. Qed.

Lemma put_edit_keeps g seq b : keeps (ds_put_edit g seq b).
Proof. apply in_range_keeps. intros [Hg Hs]. apply write_keeps. by constructor. Qed.

Lemma object_not_dir p d : object p -> disk_ok d -> dk_visible d !! p <> Some Dir.
Proof. intros (g & name & Hg & -> & _)%object_shape Hd E. by apply (do_names _ Hd g) in E as (_ & (c & s & [=]) & _). Qed.

Lemma get_object p d r d' : object p -> disk_ok d -> read_object p d = (r, d') -> untouched d d' /\ answers (found (content_at (dk_visible d) p)) r.
Proof.
  intros Ho Hd E. apply read_object_sound in E as [Hu Hr]; [|by apply object_not_dir]. split; [done|].
  destruct Hr as [->| ->]; [left|right; by exists Io]. unfold content_at. destruct (dk_visible d !! p) as [[|c s]|]; done.
Qed.

Lemma get_keeps p : object p -> keeps (read_object p).
Proof. intros Ho. apply same_keeps. intros d Hd. destruct (read_object p d) as [r d'] eqn:E. by apply get_object in E as [? _]. Qed.

Lemma get_snapshot_keeps g : keeps (ds_get_snapshot g).
Proof. apply in_range_keeps. intros Hg. apply get_keeps. by constructor. Qed.

Lemma get_edit_keeps g seq : keeps (ds_get_edit g seq).
Proof. apply in_range_keeps. intros [Hg Hs]. apply get_keeps. by constructor. Qed.

Lemma list_edits_keeps g : keeps (ds_list_edits g).
Proof. apply in_range_keeps. intros Hg. apply same_keeps. intros d Hd. destruct (list_edits_spec g d Hg Hd) as (l & -> & _). done. Qed.

Lemma list_generations_keeps : keeps disk_list_generations.
Proof. apply same_keeps. intros d Hd. unfold disk_list_generations, fs_directory_iterator, next_list_fault. rewrite (do_lists _ Hd). by case_bool_decide. Qed.

Lemma delete_keeps_ok g : keeps (ds_delete_generation g).
Proof. apply in_range_keeps. intros Hg d Hd. destruct (disk_delete_generation g d) as [s d'] eqn:E. by apply delete_keeps in E as [? _]. Qed.

Definition DiskState : Type := { d : Disk | disk_ok d }.

Definition lift {A} (op : Disk -> A * Disk) (H : keeps op) (m : DiskState) : A * DiskState :=
  ((op (`m)).1, exist _ (op (`m)).2 (H _ (proj2_sig m))).

#[export] Instance disk_catalog : ManifestCatalog DiskState := {|
  cat_read := lift ds_read read_keeps;
  compare_and_set expected g := lift (ds_cas expected g) (cas_keeps_ok expected g);
  put_snapshot g b := lift (ds_put_snapshot g b) (put_snapshot_keeps g b);
  get_snapshot g := lift (ds_get_snapshot g) (get_snapshot_keeps g);
  put_edit g seq b := lift (ds_put_edit g seq b) (put_edit_keeps g seq b);
  get_edit g seq := lift (ds_get_edit g seq) (get_edit_keeps g seq);
  list_edits g := lift (ds_list_edits g) (list_edits_keeps g);
  delete_generation g := lift (ds_delete_generation g) (delete_keeps_ok g);
  list_generations := lift disk_list_generations list_generations_keeps
|}.

Definition disk_shows (m : DiskState) : Manifest := disk_view (dk_visible (`m)).

Lemma lift_inv {A} (op : Disk -> A * Disk) (H : keeps op) m a m' : lift op H m = (a, m') -> exists d', op (`m) = (a, d') /\ `m' = d'.
Proof. unfold lift. intros [= <- <-]. simpl. exists (op (`m)).2. split; [by destruct (op (`m))|done]. Qed.

(** What a disk shows after an object was written. *)
Lemma snapshot_put_view v v' g b : is_u64 g -> pointer_of v' = pointer_of v -> (forall q, object q -> q <> snapshot_path g -> content_at v' q = content_at v q) ->
  content_at v' (snapshot_path g) = Some b -> disk_view v' = set_snapshot (disk_view v) g b.
Proof.
  intros Hg Hp Hq Hb. apply view_is; [done| |].
  - intros g'. cbn [mf_snapshots set_snapshot]. destruct (decide (g' = g)) as [->|Hne].
    + rewrite lookup_insert_eq. by destruct (decide (is_u64 g)).
    + rewrite lookup_insert_ne by done. rewrite view_snapshots. destruct (decide (is_u64 g')); [|done]. symmetry. apply Hq; [by constructor|].
      intros E. apply Hne. apply (f_equal (fun l => default [] (l !! 1%nat))) in E. simpl in E. by apply padded_inj.
  - intros g' seq. cbn [mf_edits set_snapshot]. rewrite view_edits. destruct (decide (is_u64 g' /\ is_u64 seq)) as [[]|]; [|done]. symmetry. apply Hq; [by constructor|].
    intros E. apply (snapshot_not_edit seq). symmetry. exact (f_equal (fun l => default [] (l !! 2%nat)) E).
Qed.

Lemma edit_put_view v v' g seq b : is_u64 g -> is_u64 seq -> pointer_of v' = pointer_of v -> (forall q, object q -> q <> edit_path g seq -> content_at v' q = content_at v q) ->
  content_at v' (edit_path g seq) = Some b -> disk_view v' = set_edit (disk_view v) g seq b.
Proof.
  intros Hg Hs Hp Hq Hb. apply view_is; [done| |].
  - intros g'. cbn [mf_snapshots set_edit]. rewrite view_snapshots. destruct (decide (is_u64 g')); [|done]. symmetry. apply Hq; [by constructor|].
    intros E. apply (snapshot_not_edit seq). exact (f_equal (fun l => default [] (l !! 2%nat)) E).
  - intros g' seq'. cbn [mf_edits set_edit]. destruct (decide ((g', seq') = (g, seq))) as [[= -> ->]|Hne].
    + rewrite lookup_insert_eq. by destruct (decide (is_u64 g /\ is_u64 seq)) as [|[]].
    + rewrite lookup_insert_ne by congruence. rewrite view_edits. destruct (decide (is_u64 g' /\ is_u64 seq')) as [[]|]; [|done]. symmetry. apply Hq; [by constructor|].
      intros E. apply Hne. f_equal.
      * apply (f_equal (fun l => default [] (l !! 1%nat))) in E. simpl in E. by apply padded_inj.
      * apply edit_name_inj; [done..|]. exact (f_equal (fun l => default [] (l !! 2%nat)) E).
Qed.

Lemma same_view v v' : pointer_of v' = pointer_of v -> (forall q, object q -> content_at v' q = content_at v q) -> disk_view v' = disk_view v.
Proof.
  intros Hp Hq. apply view_is; [done| |].
  - intros g. rewrite view_snapshots. destruct (decide (is_u64 g)); [|done]. symmetry. apply Hq. by constructor.
  - intros g seq. rewrite view_edits. destruct (decide (is_u64 g /\ is_u64 seq)) as [[]|]; [|done]. symmetry. apply Hq. by constructor.
Qed.

Lemma put_snapshot_law g b m s m' : put_snapshot g b m = (s, m') ->
  (s = Ok -> mf_snapshots (disk_shows m) !! g = None /\ disk_shows m' = set_snapshot (disk_shows m) g b) /\
  (s <> Ok -> disk_shows m' = disk_shows m \/ mf_snapshots (disk_shows m) !! g = None /\ exists n, disk_shows m' = set_snapshot (disk_shows m) g (take n b)).
Proof.
  intros (d' & E & Em)%lift_inv. unfold disk_shows. rewrite Em. unfold ds_put_snapshot, in_range in E.
  destruct (decide (is_u64 g)) as [Hg|]; [|injection E as <- <-; split; [done|by left]].
  apply put_spec in E as (_ & Hp & Hq & H1 & H2); [|by constructor|apply (proj2_sig m)].
  assert (content_at (dk_visible (`m)) (snapshot_path g) = None -> mf_snapshots (disk_view (dk_visible (`m))) !! g = None) as Hn by (intros H; rewrite view_snapshots; by destruct (decide (is_u64 g))).
  split.
  - intros [E1 E2]%H1. split; [by apply Hn|]. by apply snapshot_put_view.
  - intros [E1|(E1 & k & E2)]%H2; [left|right; split; [by apply Hn|exists k; by apply snapshot_put_view]].
    apply same_view; [done|]. intros q Ho. destruct (decide (q = snapshot_path g)) as [->|]; [done|by apply Hq].
Qed.

Lemma put_edit_law g seq b m s m' : put_edit g seq b m = (s, m') ->
  (s = Ok -> mf_edits (disk_shows m) !! (g, seq) = None /\ disk_shows m' = set_edit (disk_shows m) g seq b) /\
  (s <> Ok -> disk_shows m' = disk_shows m \/ mf_edits (disk_shows m) !! (g, seq) = None /\ exists n, disk_shows m' = set_edit (disk_shows m) g seq (take n b)).
Proof.
  intros (d' & E & Em)%lift_inv. unfold disk_shows. rewrite Em. unfold ds_put_edit, in_range in E.
  destruct (decide (is_u64 g /\ is_u64 seq)) as [[Hg Hs]|]; [|injection E as <- <-; split; [done|by left]].
  apply put_spec in E as (_ & Hp & Hq & H1 & H2); [|by constructor|apply (proj2_sig m)].
  assert (content_at (dk_visible (`m)) (edit_path g seq) = None -> mf_edits (disk_view (dk_visible (`m))) !! (g, seq) = None) as Hn by (intros H; rewrite view_edits; by destruct (decide (is_u64 g /\ is_u64 seq))).
  split.
  - intros [E1 E2]%H1. split; [by apply Hn|]. by apply edit_put_view.
  - intros [E1|(E1 & k & E2)]%H2; [left|right; split; [by apply Hn|exists k; by apply edit_put_view]].
    apply same_view; [done|]. intros q Ho. destruct (decide (q = edit_path g seq)) as [->|]; [done|by apply Hq].
Qed.

(** The manifest after [CURRENT] alone moved. *)
Lemma moved_view v v' e : pointer_of v' = Some e -> (forall q, object q -> v' !! q = v !! q) -> disk_view v' = set_pointer (disk_view v) (Some e).
Proof.
  intros Hp Hq. apply view_is; [done| |].
  - intros g. cbn [mf_snapshots set_pointer]. rewrite view_snapshots. destruct (decide (is_u64 g)); [|done]. symmetry. apply content_ext, Hq. by constructor.
  - intros g seq. cbn [mf_edits set_pointer]. rewrite view_edits. destruct (decide (is_u64 g /\ is_u64 seq)) as [[]|]; [|done]. symmetry. apply content_ext, Hq. by constructor.
Qed.

Lemma pointer_written v g t s : is_u64 g -> is_u64 t -> v !! current_path = Some (File (current_text g t) s) -> pointer_of v = Some (entry_of g t).
Proof. intros Hg Ht E. unfold pointer_of. by rewrite E, parse_current_text. Qed.

Lemma compare_and_set_law expected g m r m' : compare_and_set expected g m = (r, m') ->
  match r with
  | Value (Some e) => mf_pointer (disk_shows m) = expected /\ generation e = g /\ disk_shows m' = set_pointer (disk_shows m) (Some e)
  | Value None => mf_pointer (disk_shows m) <> expected /\ disk_shows m' = disk_shows m
  | Unexpected s => s <> Ok /\ disk_shows m' = disk_shows m \/
      s = Io /\ mf_pointer (disk_shows m) = expected /\ exists e, generation e = g /\ disk_shows m' = set_pointer (disk_shows m) (Some e)
  end.
Proof.
  intros (d' & E & Em)%lift_inv. unfold disk_shows. rewrite Em. unfold ds_cas, in_range in E.
  destruct (decide (is_u64 g)) as [Hg|]; [|injection E as <- <-; by left]. destruct m as [d Hd]. cbn [proj1_sig] in *.
  destruct (cas_keeps _ _ _ _ _ Hg Hd E) as [_ Hobj]. destruct (disk_cas_spec _ _ _ _ _ (do_current _ Hd) E) as [_ Hans _].
  assert (dk_visible d' !! current_path = dk_visible d !! current_path -> disk_view (dk_visible d') = disk_view (dk_visible d)) as Hsame.
  { intros Hc. apply same_view; [unfold pointer_of; by rewrite Hc|]. intros q Hq. by apply content_ext, Hobj. }
  destruct r as [[e|]|s].
  - destruct Hans as (t & Ht & -> & Hp & [Hv _] & _). split; [done|]. split; [done|]. apply moved_view; [by eapply pointer_written|done].
  - destruct Hans as [Hp Hc]. split; [done|by apply Hsame].
  - destruct Hans as [[Hs Hc]|(-> & Hp & t & Ht & Hv)]; [left; split; [done|by apply Hsame]|right]. split; [done|]. split; [done|]. exists (entry_of g t). split; [done|].
    apply moved_view; [by eapply pointer_written|done].
Qed.

Lemma delete_generation_law g m s m' : delete_generation g m = (s, m') -> shrinks_at g (disk_shows m) (disk_shows m').
Proof.
  intros (d' & E & Em)%lift_inv. unfold disk_shows. rewrite Em. unfold ds_delete_generation, in_range in E.
  destruct (decide (is_u64 g)) as [Hg|]; [|injection E as <- <-; by split_and!]. destruct m as [d Hd]. cbn [proj1_sig] in *.
  destruct (delete_keeps _ _ _ _ Hg Hd E) as (_ & Hp & Hgone & Hobj). split; [done|]. split; [|split].
  - intros g' Hne. rewrite !view_snapshots. destruct (decide (is_u64 g')); [|done]. apply content_ext. by apply Hobj.
  - intros g' seq Hne. rewrite !view_edits. destruct (decide (is_u64 g' /\ is_u64 seq)) as [[]|]; [|done]. apply content_ext. by apply Hobj.
  - intros g' seq. rewrite !view_edits. destruct (decide (is_u64 g' /\ is_u64 seq)); [|done]. unfold content_at. by destruct (Hgone (edit_path g' seq)) as [-> | ->].
Qed.

Lemma untouched_shows d d' : untouched d d' -> disk_view (dk_visible d') = disk_view (dk_visible d).
Proof. by intros (-> & _). Qed.

Lemma list_edits_law g m r m' : list_edits g m = (r, m') -> disk_shows m' = disk_shows m /\
  match r with Value l => NoDup l /\ forall seq, seq ∈ l <-> is_Some (mf_edits (disk_shows m) !! (g, seq)) | Unexpected s => s <> Ok end.
Proof.
  intros (d' & E & Em)%lift_inv. unfold disk_shows. rewrite Em. destruct m as [d Hd]. cbn [proj1_sig] in *. unfold ds_list_edits, in_range in E. destruct (decide (is_u64 g)) as [Hg|Hg].
  - destruct (list_edits_spec g d Hg Hd) as (l & E' & Hn & Hl). rewrite E' in E. injection E as <- <-. split; [done|]. split; [done|]. intros seq. rewrite Hl, view_edits.
    destruct (decide (is_u64 g /\ is_u64 seq)) as [[]|Hn']; [tauto|]. split; [tauto|by intros [? ?]].
  - injection E as <- <-. split; [done|]. split; [constructor|]. intros seq. rewrite view_edits.
    destruct (decide (is_u64 g /\ is_u64 seq)) as [[]|]; [done|]. split; [by intros ?%elem_of_nil|by intros [? ?]].
Qed.

Lemma list_generations_law m r m' : list_generations m = (r, m') -> disk_shows m' = disk_shows m /\ match r with Value l => Forall is_u64 l | Unexpected s => s <> Ok end.
Proof.
  intros (d' & E & Em)%lift_inv. unfold disk_list_generations, fs_directory_iterator, next_list_fault in E. unfold disk_shows. rewrite Em. rewrite (do_lists _ (proj2_sig m)) in E.
  case_bool_decide; injection E as <- <-; (split; [done|]); [|constructor]. apply Forall_forall. intros g ([name n] & _ & Eg)%list_elem_of_omap. unfold generation_of in Eg. simpl in Eg.
  destruct n; [|done]. case_bool_decide; [|done]. by apply parse_u64_range in Eg.
Qed.

(** C6: the catalog on disk keeps the catalog's contract. Whatever calls to the file system fail, tear a write, cut a
    read short or stop a deletion half way, the manifest a process sees through [DiskCatalog] obeys the laws the version
    set relies on: objects are written once, whole when acknowledged and at most a prefix otherwise; a read answers what
    is there or fails; the pointer moves only from what was expected; listings are exact; deleting a generation touches
    nothing else. The calls that open a directory to list it are taken to succeed ([do_lists]): their error is answered
    as an empty listing, and [unlisted_directory_loses_edits] shows what that costs. Nobody else writes to the disk. *)
Theorem disk_catalog_keeps_contract : CatalogLaws disk_catalog disk_shows.
Proof.
  split.
  - intros m r m' (d' & E & Em)%lift_inv. unfold disk_shows. rewrite Em. apply disk_read_sound in E as [Hu Hr]; [|apply (do_current _ (proj2_sig m))].
    split; [by apply untouched_shows|]. destruct Hr as [->| ->]; [by left|right; by exists Io].
  - intros g m r m' (d' & E & Em)%lift_inv. unfold disk_shows. rewrite Em. unfold ds_get_snapshot, in_range in E. rewrite view_snapshots.
    destruct (decide (is_u64 g)); [|injection E as <- <-; split; [done|by left]]. apply get_object in E as [Hu Hr]; [|by constructor|apply (proj2_sig m)]. split; [by apply untouched_shows|done].
  - intros g seq m r m' (d' & E & Em)%lift_inv. unfold disk_shows. rewrite Em. unfold ds_get_edit, in_range in E. rewrite view_edits.
    destruct (decide (is_u64 g /\ is_u64 seq)) as [[]|]; [|injection E as <- <-; split; [done|by left]].
    apply get_object in E as [Hu Hr]; [|by constructor|apply (proj2_sig m)]. split; [by apply untouched_shows|done].
  - intros g m r m'. apply list_edits_law.
  - intros m r m'. apply list_generations_law.
  - intros g b m s m'. apply put_snapshot_law.
  - intros g seq b m s m'. apply put_edit_law.
  - intros expected g m r m'. apply compare_and_set_law.
  - intros g m s m'. apply delete_generation_law.
Qed.
