(* ===== verification/DiskCrash.v ===== *)
(** * What the catalog on disk acknowledged survives a power cut

    [include/elysiumkv/manifest_catalog.hpp] promises that a successful object write, pointer swap or deletion
    is durable across power loss. The calls of [DiskCatalog] are followed with a record of what they
    acknowledged; the disk keeps it through any later calls and any crash, as long as the manifest directory
    itself had reached the medium. On a new store it had not: nothing synchronises the directory above it. *)

From S2P Require Import Prelude Slice Names Catalog FileSystem DiskCatalog DiskProofs.

(** ** Calls, and what they acknowledged *)

(** The objects whose write was answered [Ok] and whose generation was not deleted since; the generations
    that held such objects when a swap was answered; and the pointers a crash may show: the last one
    acknowledged, and what swaps answered with an error after it left. *)
Record Acked := {
  ak_objects : gmap path bytes;
  ak_anchored : Z -> Prop;
  ak_pointers : list (option Entry)
}.

Definition in_generation (g : Z) (p : path) : Prop := generation_dir g `prefix_of` p.

#[export] Instance in_generation_dec g p : Decision (in_generation g p).
Proof. unfold in_generation. apply _. Defined.

Inductive call : Disk * Acked -> Disk * Acked -> Prop :=
  | call_put d a p b d' : object p -> write_object p b d = (Ok, d') ->
      call (d, a) (d', {| ak_objects := <[p := b]> (ak_objects a); ak_anchored := ak_anchored a; ak_pointers := ak_pointers a |})
  | call_put_failed d a p b s d' : object p -> write_object p b d = (s, d') -> s <> Ok -> call (d, a) (d', a)
  | call_swap d a expected g e d' : is_u64 g -> disk_cas expected g d = (Value (Some e), d') ->
      call (d, a) (d', {| ak_objects := ak_objects a;
                          ak_anchored := fun g' => is_u64 g' /\ (ak_anchored a g' \/ exists p b, ak_objects a !! p = Some b /\ in_generation g' p);
                          ak_pointers := [Some e] |})
  | call_swap_lost d a expected g d' : is_u64 g -> disk_cas expected g d = (Value None, d') -> call (d, a) (d', a)
  | call_swap_failed d a expected g s d' : is_u64 g -> disk_cas expected g d = (Unexpected s, d') ->
      call (d, a) (d', {| ak_objects := ak_objects a; ak_anchored := ak_anchored a; ak_pointers := ak_pointers a ++ [pointer_of (dk_visible d')] |})
  | call_delete d a g s d' : is_u64 g -> disk_delete_generation g d = (s, d') ->
      call (d, a) (d', {| ak_objects := filter (fun e => ~ in_generation g e.1) (ak_objects a); ak_anchored := fun g' => g' <> g /\ ak_anchored a g'; ak_pointers := ak_pointers a |}).

Definition acked_start (d : Disk) : Acked :=
  {| ak_objects := ∅; ak_anchored := fun _ => False; ak_pointers := [pointer_of (dk_visible d); pointer_of (dk_durable d)] |}.

(** The store's directory and the manifest directory in it are on the medium. *)
Record mounted (d : Disk) : Prop := {
  mt_root : settled_at d [] Dir;
  mt_manifest : settled_at d manifest_dir Dir;
  mt_visible : current_ok (dk_visible d);
  mt_durable : current_ok (dk_durable d)
}.

(** ** The invariant *)

Record keeps_acked (d : Disk) (a : Acked) : Prop := {
  ka_mounted : mounted d;
  ka_visible : pointer_of (dk_visible d) ∈ ak_pointers a;
  ka_durable : pointer_of (dk_durable d) ∈ ak_pointers a;
  ka_objects : forall p b, ak_objects a !! p = Some b -> object p /\ settled_at d p (File b true) /\ dk_visible d !! parent_path p = Some Dir;
  ka_anchored : forall g, ak_anchored a g -> is_u64 g /\ settled_at d (generation_dir g) Dir
}.

Lemma object_parent p : object p -> exists g, is_u64 g /\ parent_path p = generation_dir g /\ in_generation g p.
Proof. intros (g & name & Hg & -> & _)%object_shape. exists g. split; [done|]. split; [done|]. by exists [name]. Qed.

Lemma pointer_ext v v' : v' !! current_path = v !! current_path -> pointer_of v' = pointer_of v.
Proof. unfold pointer_of. by intros ->. Qed.

Lemma current_ext v v' : v' !! current_path = v !! current_path -> current_ok v -> current_ok v'.
Proof. unfold current_ok. by intros ->. Qed.

(** A step outside [X] keeps what is not in [X]. *)
Section Step.
Context (X : path -> Prop) (d d' : Disk) (Hev : evolves X d d').
Context (Hroot : ~ X []) (Hman : ~ X manifest_dir).

Lemma step_mounted : mounted d -> current_ok (dk_visible d') -> current_ok (dk_durable d') -> mounted d'.
Proof. intros [H2 H3 _ _] Hv Hd. split; [by eapply evolves_settled|by eapply evolves_settled|done|done]. Qed.

Lemma step_objects a p b : keeps_acked d a -> ak_objects a !! p = Some b -> ~ X p -> ~ X (parent_path p) ->
  object p /\ settled_at d' p (File b true) /\ dk_visible d' !! parent_path p = Some Dir.
Proof.
  intros Hk Hp Hx Hx'. destruct (ka_objects _ _ Hk p b Hp) as (Ho & Hs & Hd). split; [done|]. split; [by eapply evolves_settled|].
  destruct (ev_visible _ _ _ Hev _ Hx') as [E|(E & _)]; congruence.
Qed.

Lemma step_pointer a : keeps_acked d a -> ~ X current_path ->
  current_ok (dk_visible d') /\ current_ok (dk_durable d') /\ pointer_of (dk_visible d') ∈ ak_pointers a /\ pointer_of (dk_durable d') ∈ ak_pointers a.
Proof.
  intros [[_ _ Hv Hd] Hpv Hpd _ _] Hx. pose proof (evolves_current _ _ _ Hev Hx) as Hc.
  split; [by eapply current_ext|]. assert (pointer_of (dk_visible d') = pointer_of (dk_visible d)) as Ep by by apply pointer_ext.
  destruct (ev_durable _ _ _ Hev _ Hx) as [E|[E|E]].
  - split; [by eapply current_ext|]. rewrite Ep. split; [done|]. by rewrite (pointer_ext (dk_durable d) _ E).
  - split; [by eapply (current_ext (dk_visible d))|]. rewrite Ep. split; [done|]. by rewrite (pointer_ext (dk_visible d) _ E).
  - split; [eapply (current_ext (dk_visible d')); [done|by eapply current_ext]|]. rewrite (pointer_ext (dk_visible d') _ E), Ep. done.
Qed.
End Step.

Lemma put_step d a p b s d' : keeps_acked d a -> object p -> write_object p b d = (s, d') ->
  keeps_acked d' {| ak_objects := if bool_decide (s = Ok) then <[p := b]> (ak_objects a) else ak_objects a; ak_anchored := ak_anchored a; ak_pointers := ak_pointers a |}.
Proof.
  intros Hk Ho E. destruct (object_not_place p Ho) as (P1 & P2 & _ & _ & P5). apply write_object_spec in E as W; [|done].
  assert (evolves (fun q => q = p /\ dk_visible d !! p = None) d d') as Hev by (eapply wrote_evolves; [|exact W]; intros; by eapply object_places).
  assert (forall q, dir_place q -> ~ (q = p /\ dk_visible d !! p = None)) as Hplace by (intros q Hq [-> _]; done).
  assert (dir_place [] /\ dir_place manifest_dir) as [Hr Hm] by (split; split_and!; try done; simpl; lia).
  destruct (step_pointer _ _ _ Hev a Hk) as (C1 & C2 & C3 & C4); [intros [E0 _]; congruence|].
  split; simpl; [exact (step_mounted _ _ _ Hev (Hplace _ Hr) (Hplace _ Hm) (ka_mounted _ _ Hk) C1 C2)|done|done| |].
  - assert (forall p0 b0, ak_objects a !! p0 = Some b0 -> object p0 /\ settled_at d' p0 (File b0 true) /\ dk_visible d' !! parent_path p0 = Some Dir) as Hold.
    { intros p0 b0 H0. destruct (ka_objects _ _ Hk p0 b0 H0) as (Ho0 & [Hv0 _] & _). eapply step_objects; [exact Hev|exact Hk|exact H0| |].
      - intros [-> Hn]. congruence.
      - destruct (object_parent p0 Ho0) as (g & Hg & -> & _). by apply Hplace, generation_dir_place. }
    case_bool_decide as Hs; [|exact Hold]. intros p0 b0 H0. apply lookup_insert_Some in H0 as [[<- <-]|[Hne H0]]; [|by apply Hold].
    destruct (w_ok _ _ _ _ _ W Hs) as (W1 & W2 & W3). split; [done|]. split; [done|]. destruct (w_parent _ _ _ _ _ W) as [[n Hn]|]; [by eexists|congruence|done].
  - intros g (Hg & Hs)%(ka_anchored _ _ Hk). split; [done|]. eapply evolves_settled; [exact Hev|by apply Hplace, generation_dir_place|done].
Qed.

Lemma object_not_scratch p : object p -> ~ (scratch p \/ p = current_path) /\ ~ (scratch (parent_path p) \/ parent_path p = current_path).
Proof.
  intros Ho. destruct (object_not_place p Ho) as (_ & A & B & C & _). split; [intros [[|]|]; done|]. destruct (object_parent p Ho) as (g & Hg & -> & _).
  intros H%scratch_place. destruct H as [_ H]. by apply H, generation_dir_place.
Qed.

Lemma swap_step d a expected g r d' : keeps_acked d a -> is_u64 g -> disk_cas expected g d = (r, d') ->
  keeps_acked d' {| ak_objects := ak_objects a;
    ak_anchored := match r with Value (Some _) => fun g' => is_u64 g' /\ (ak_anchored a g' \/ exists p b, ak_objects a !! p = Some b /\ in_generation g' p) | _ => ak_anchored a end;
    ak_pointers := match r with Value (Some e) => [Some e] | Value None => ak_pointers a | Unexpected _ => ak_pointers a ++ [pointer_of (dk_visible d')] end |}.
Proof.
  intros Hk Hg E. destruct (ka_mounted _ _ Hk) as [_ _ Hcv Hcd]. destruct (disk_cas_spec _ _ _ _ _ Hcv E) as [Hev Hans Hdur].
  assert (forall p b, ak_objects a !! p = Some b -> object p /\ settled_at d' p (File b true) /\ dk_visible d' !! parent_path p = Some Dir) as Hobj.
  { intros p b Hp. destruct (ka_objects _ _ Hk p b Hp) as (Ho & _). destruct (object_not_scratch p Ho). by eapply step_objects. }
  assert (forall g', is_u64 g' -> settled_at d (generation_dir g') Dir -> settled_at d' (generation_dir g') Dir) as Hanc.
  { intros g' Hg' Hs. eapply evolves_settled; [exact Hev| |done]. intros [_ H]%scratch_place. by apply H, generation_dir_place. }
  assert (forall old, current_ok old -> pointer_of old ∈ ak_pointers a -> forall v, v !! current_path = old !! current_path -> current_ok v /\ pointer_of v ∈ ak_pointers a) as Hsame.
  { intros old Ho Hp v Hv. split; [by eapply current_ext|]. by rewrite (pointer_ext old). }
  assert (forall cur (ptrs : list (option Entry)), current_ok (dk_visible d') -> (forall q, q ∈ ak_pointers a -> q ∈ ptrs) -> pointer_of (dk_visible d') ∈ ptrs -> cur = dk_durable d' ->
    current_ok cur /\ pointer_of cur ∈ ptrs) as Hdisk.
  { intros cur ptrs Hv Hin Hp ->. destruct Hdur as [H|[H|H]].
    - destruct (Hsame _ Hcd (ka_durable _ _ Hk) _ H). auto.
    - destruct (Hsame _ Hcv (ka_visible _ _ Hk) _ H). auto.
    - split; [by eapply current_ext|]. by rewrite (pointer_ext (dk_visible d')). }
  assert (current_ok (dk_visible d')) as Hv'.
  { intros n Hn. destruct r as [[e|]|s].
    - destruct Hans as (t & Ht & _ & _ & [Hv _] & _). rewrite Hv in Hn. injection Hn as <-. eauto.
    - destruct Hans as [_ Hv]. rewrite Hv in Hn. by apply Hcv.
    - destruct Hans as [[_ Hv]|(_ & _ & t & Ht & Hv)]; rewrite Hv in Hn; [by apply Hcv|]. injection Hn as <-. eauto. }
  assert (~ (scratch [] \/ [] = current_path) /\ ~ (scratch manifest_dir \/ manifest_dir = current_path)) as [Hr Hm] by (split; intros [[|]|]; done).
  destruct r as [[e|]|s].
  - destruct Hans as (t & Ht & -> & _ & [Hv Hd] & Hchild). pose proof (pointer_written _ _ _ _ Hg Ht Hv) as Pv. pose proof (pointer_written _ _ _ _ Hg Ht Hd) as Pd.
    split; simpl; [|rewrite Pv; set_solver|rewrite Pd; set_solver|exact Hobj|].
    + eapply step_mounted; [exact Hev|done|done|apply Hk|done|]. intros n Hn. rewrite Hd in Hn. injection Hn as <-. eauto.
    + intros g' [Hg' [Ha|(p & b & Hp & Hin)]]; (split; [done|]).
      * destruct (ka_anchored _ _ Hk g' Ha) as [_ Hs]. by apply Hanc.
      * destruct (Hobj p b Hp) as (Ho & _ & Hpar). destruct (object_shape p Ho) as (g'' & name & Hg'' & -> & _). apply generation_prefix in Hin; [|done|done]. subst g''.
        change (parent_path [kManifest; generation_name g'; name]) with (generation_dir g') in Hpar. split; [done|]. rewrite Hchild; [done|]. by apply bool_decide_eq_true.
  - destruct Hans as [_ Hv]. destruct (Hsame _ Hcv (ka_visible _ _ Hk) _ Hv) as [_ Hp]. destruct (Hdisk _ (ak_pointers a) Hv' (fun q H => H) Hp eq_refl) as [Hd' Hpd'].
    split; simpl; [exact (step_mounted _ _ _ Hev Hr Hm (ka_mounted _ _ Hk) Hv' Hd')|done|done|exact Hobj|]. intros g' (Hg' & Hs)%(ka_anchored _ _ Hk). split; [done|by apply Hanc].
  - destruct (Hdisk _ (ak_pointers a ++ [pointer_of (dk_visible d')]) Hv' ltac:(set_solver) ltac:(set_solver) eq_refl) as [Hd' Hpd'].
    split; simpl; [exact (step_mounted _ _ _ Hev Hr Hm (ka_mounted _ _ Hk) Hv' Hd')|set_solver|done|exact Hobj|]. intros g' (Hg' & Hs)%(ka_anchored _ _ Hk). split; [done|by apply Hanc].
Qed.

Lemma delete_step d a g s d' : keeps_acked d a -> is_u64 g -> disk_delete_generation g d = (s, d') ->
  keeps_acked d' {| ak_objects := filter (fun e => ~ in_generation g e.1) (ak_objects a); ak_anchored := fun g' => g' <> g /\ ak_anchored a g'; ak_pointers := ak_pointers a |}.
Proof.
  intros Hk Hg (Hev & _)%delete_spec.
  assert (~ generation_dir g `prefix_of` current_path) as Hc.
  { intros [rest E]. apply (f_equal (fun l => default [] (l !! 1%nat))) in E. simpl in E. symmetry in E. by apply (proj1 (generation_name_places g Hg)) in E. }
  destruct (step_pointer _ _ _ Hev a Hk Hc) as (C1 & C2 & C3 & C4).
  assert (forall q : path, (length q < 2)%nat -> ~ generation_dir g `prefix_of` q) as Hshort by (intros q Hq Hp%prefix_length; simpl in Hp; lia).
  assert (forall g', is_u64 g' -> g' <> g -> ~ generation_dir g `prefix_of` generation_dir g') as Hgen.
  { intros g' Hg' Hne [rest E]. apply Hne. apply (f_equal (fun l => default [] (l !! 1%nat))) in E. simpl in E. by apply padded_inj. }
  split; simpl; [eapply step_mounted; [exact Hev|apply Hshort; simpl; lia|apply Hshort; simpl; lia|apply Hk|done|done]|done|done| |].
  - intros p b [Hp Hn]%map_lookup_filter_Some. simpl in Hn. destruct (ka_objects _ _ Hk p b Hp) as (Ho & _). eapply step_objects; [exact Hev|exact Hk|exact Hp|exact Hn|].
    destruct (object_parent p Ho) as (g' & Hg' & -> & Hin). apply Hgen; [done|]. by intros ->.
  - intros g' [Hne (Hg' & Hs)%(ka_anchored _ _ Hk)]. split; [done|]. eapply evolves_settled; [exact Hev|by apply Hgen|done].
Qed.

Lemma call_keeps x y : call x y -> keeps_acked x.1 x.2 -> keeps_acked y.1 y.2.
Proof.
  intros H Hk. destruct H as [d a p b d' Ho E|d a p b s d' Ho E Hs|d a expected g e d' Hg E|d a expected g d' Hg E|d a expected g s d' Hg E|d a g s d' Hg E]; simpl in *.
  - pose proof (put_step _ _ _ _ _ _ Hk Ho E) as H. by rewrite bool_decide_eq_true_2 in H.
  - pose proof (put_step _ _ _ _ _ _ Hk Ho E) as H. rewrite bool_decide_eq_false_2 in H by done. by destruct a.
  - exact (swap_step _ _ _ _ _ _ Hk Hg E).
  - pose proof (swap_step _ _ _ _ _ _ Hk Hg E) as H. by destruct a.
  - exact (swap_step _ _ _ _ _ _ Hk Hg E).
  - by eapply delete_step.
Qed.

(** ** The crash *)

Lemma crash_settled d pick p n : (forall p, decays (dk_visible d !! p) (pick p) \/ decays (dk_durable d !! p) (pick p)) ->
  settled_at d p n -> (forall c, n <> File c false) -> pick p = Some n.
Proof. intros Hp [H1 H2] Hn. destruct (Hp p) as [H|H]; rewrite ?H1, ?H2 in H; destruct n as [|c [|]]; try done; by destruct (Hn c). Qed.

Lemma crash_survives d d' p n : crash d d' -> (forall q, q ∈ ancestors p -> settled_at d q Dir) -> settled_at d p n -> (forall c, n <> File c false) -> dk_visible d' !! p = Some n.
Proof.
  intros (pick & Hp & Hv & _) Hanc Hs Hn. rewrite Hv, bool_decide_eq_true_2; [by eapply crash_settled|]. apply Forall_forall. intros q Hq. by apply (crash_settled d pick q Dir Hp (Hanc q Hq)).
Qed.

Lemma crash_pointer d d' : crash d d' -> mounted d -> pointer_of (dk_visible d') = pointer_of (dk_visible d) \/ pointer_of (dk_visible d') = pointer_of (dk_durable d).
Proof.
  intros (pick & Hp & Hv & _) [Hr Hm Hcv Hcd].
  assert (dk_visible d' !! current_path = pick current_path) as E.
  { rewrite Hv, bool_decide_eq_true_2; [done|]. change (ancestors current_path) with [[]; manifest_dir]. apply Forall_cons. split; [by apply (crash_settled d pick [] Dir)|]. apply Forall_singleton. by apply (crash_settled d pick manifest_dir Dir). }
  assert (forall v, current_ok v -> decays (v !! current_path) (pick current_path) -> pick current_path = v !! current_path) as Hd.
  { intros v Hc Hdec. destruct (v !! current_path) as [n|] eqn:En; [|done]. destruct (Hc n En) as (g & t & _ & _ & ->). done. }
  destruct (Hp current_path) as [H|H]; [left|right]; apply pointer_ext; rewrite E; by apply Hd.
Qed.

(** C5: what the catalog acknowledged is there after a power cut. From a disk whose manifest directory is on the
    medium, through any calls and any failures: an object answered [Ok] and not deleted since, of a
    generation that a later swap of the pointer (or an earlier one, for an edit of the live generation)
    covered, is read back whole after the crash; and the pointer the crash shows is the last one a swap was
    answered with, or one left by a swap that was answered with an error after it. *)
Theorem acknowledged_calls_survive_power_loss d0 d a d' :
  mounted d0 -> rtc call (d0, acked_start d0) (d, a) -> crash d d' ->
  (forall p b g, ak_objects a !! p = Some b -> in_generation g p -> ak_anchored a g -> content_at (dk_visible d') p = Some b) /\
  pointer_of (dk_visible d') ∈ ak_pointers a.
Proof.
  intros Hm Hr Hcrash.
  assert (keeps_acked d0 (acked_start d0)) as H0 by (split; simpl; [done|set_solver|set_solver|done|done]).
  assert (keeps_acked d a) as Hk.
  { change (keeps_acked (d, a).1 (d, a).2). change (keeps_acked (d0, acked_start d0).1 (d0, acked_start d0).2) in H0. revert H0 Hr. generalize (d0, acked_start d0) as x. generalize (d, a) as y.
    intros y x Hx Hr. induction Hr as [|x y z Hxy _ IH]; [done|]. apply IH. by eapply call_keeps. }
  split.
  - intros p b g Hp Hin Ha. destruct (ka_objects _ _ Hk p b Hp) as (Ho & Hs & _). destruct (ka_anchored _ _ Hk g Ha) as [Hg Hgs]. destruct (ka_mounted _ _ Hk) as [Hroot Hman _ _].
    destruct (object_shape p Ho) as (g' & name & Hg' & -> & _). apply generation_prefix in Hin; [|done|done]. subst g'. unfold content_at.
    rewrite (crash_survives d d' [kManifest; generation_name g; name] (File b true) Hcrash); [done| |done|done].
    intros q Hq. assert (q = [] \/ q = manifest_dir \/ q = generation_dir g) as [-> | [-> | ->]] by (unfold ancestors in Hq; simpl in Hq; set_solver); done.
  - destruct (crash_pointer _ _ Hcrash (ka_mounted _ _ Hk)) as [-> | ->]; apply Hk.
Qed.

(** ** Executions *)

Module DiskExamples.
Definition bare_disk (v : gmap path Inode) : Disk := {| dk_visible := v; dk_durable := v; dk_faults := []; dk_read_faults := []; dk_list_faults := [] |}.

(** A store's directory that is empty, and one that holds a synchronised manifest directory. *)
Definition new_disk : Disk := bare_disk {[ [] := Dir ]}.
Definition old_disk : Disk := bare_disk (<[manifest_dir := Dir]> {[ [] := Dir ]}).

(** What the engine does first: the snapshot, the pointer, an edit. *)
Definition first_calls (d : Disk) : (Status * Result (option Entry) * Status) * Disk :=
  let '(s1, d) := disk_put_snapshot 1 [x01] d in
  let '(r, d) := disk_cas None 1 d in
  let '(s2, d) := disk_put_edit 1 1 [x02] d in
  ((s1, r, s2), d).

Definition flushed (n : Inode) : Inode := match n with File c _ => File c true | Dir => Dir end.

Lemma answered {A B} (r : A * B) (a : A) : r.1 = a -> r = (a, r.2).
Proof. by destruct r; intros [= ->]. Qed.

(** A crash at a moment when everything happens to have been written out. *)
Lemma crash_lucky d : map_Forall (fun p _ => Forall (fun q => dk_visible d !! q = Some Dir) (ancestors p)) (dk_visible d) ->
  crash d (bare_disk (flushed <$> dk_visible d)).
Proof.
  intros Hd. exists (fun p => flushed <$> (dk_visible d !! p)). split; [|split; [|done]].
  - intros p. left. destruct (dk_visible d !! p) as [[|c [|]]|]; simpl; [done|done|by exists c|done].
  - intros p. simpl. rewrite lookup_fmap. destruct (dk_visible d !! p) as [n|] eqn:E; [|by case_bool_decide].
    rewrite bool_decide_eq_true_2; [done|]. pose proof (Hd p n E) as H. eapply Forall_impl; [exact H|]. intros q Hq. cbv beta in Hq |- *. by rewrite Hq.
Qed.

(** A crash that leaves nothing below the store's directory. *)
Lemma crash_empty d : dk_visible d !! [] = Some Dir -> dk_durable d !! manifest_dir = None -> (forall p n, dk_visible d !! p = Some n -> p = [] \/ manifest_dir `prefix_of` p) ->
  crash d new_disk.
Proof.
  intros Hr Hm Hd. exists (fun p => if bool_decide (p = manifest_dir) then None else flushed <$> (dk_visible d !! p)). split; [|split; [|done]].
  - intros p. case_bool_decide as E; [right; by rewrite E, Hm|left]. destruct (dk_visible d !! p) as [[|c [|]]|]; simpl; [done|done|by exists c|done].
  - intros p. destruct p as [|x rest].
    + rewrite bool_decide_eq_true_2 by constructor. rewrite bool_decide_eq_false_2 by done. by rewrite Hr.
    + transitivity (None : option Inode); [by apply lookup_singleton_ne|]. symmetry. case_bool_decide as Hanc; [|done]. case_bool_decide as E; [done|].
      destruct (dk_visible d !! (x :: rest)) as [n|] eqn:En; [|done]. exfalso. destruct (Hd _ _ En) as [|[rest' E']]; [done|]. destruct rest' as [|y rest']; [by rewrite app_nil_r in E'|].
      rewrite Forall_forall in Hanc. specialize (Hanc manifest_dir). rewrite bool_decide_eq_true_2 in Hanc by done. discriminate Hanc. rewrite E'. apply list_elem_of_fmap. exists 1%nat.
      split; [done|]. apply elem_of_seq. simpl. lia.
Qed.
End DiskExamples.
Import DiskExamples.

(** A new store is not durable until something else synchronises its directory. On an empty directory the
    first snapshot, the first swap and the first edit are all answered [Ok], and a power cut may then leave an
    empty directory: the manifest directory is created together with the generation's and only the
    generation's and the manifest's own contents are synchronised, so that its name is in no
    synchronised directory. *)
Theorem new_store_lost_to_power_cut :
  (first_calls new_disk).1 = (Ok, Value (Some (entry_of 1 1)), Ok) /\ exists d', crash (first_calls new_disk).2 d' /\ pointer_of (dk_visible d') = None /\
  content_at (dk_visible d') (edit_path 1 1) = None.
Proof.
  split; [by vm_compute|]. exists new_disk. split; [|done]. apply crash_empty; [by vm_compute|by vm_compute|].
  assert (map_Forall (fun p _ => p = [] \/ manifest_dir `prefix_of` p) (dk_visible (first_calls new_disk).2)) as H by (apply (bool_decide_eq_true_1 _); by vm_compute).
  intros p n Hp. exact (H p n Hp).
Qed.

Lemma acknowledged_calls_survive_power_loss_witness :
  exists d a d', rtc call (old_disk, acked_start old_disk) (d, a) /\ crash d d' /\ content_at (dk_visible d') (edit_path 1 1) = Some [x02] /\
    pointer_of (dk_visible d') = Some (entry_of 1 1).
Proof.
  set (d1 := (write_object (snapshot_path 1) [x01] old_disk).2). set (d2 := (disk_cas None 1 d1).2). set (d3 := (write_object (edit_path 1 1) [x02] d2).2).
  assert (object (snapshot_path 1) /\ object (edit_path 1 1)) as [O1 O2] by (split; constructor; unfold is_u64; lia).
  assert (is_u64 1) as Hu by (unfold is_u64; lia).
  set (a0 := acked_start old_disk). set (a1 := {| ak_objects := <[snapshot_path 1 := [x01]]> (ak_objects a0); ak_anchored := ak_anchored a0; ak_pointers := ak_pointers a0 |}).
  set (a2 := {| ak_objects := ak_objects a1; ak_anchored := fun g' => is_u64 g' /\ (ak_anchored a1 g' \/ exists p b, ak_objects a1 !! p = Some b /\ in_generation g' p); ak_pointers := [Some (entry_of 1 1)] |}).
  set (a3 := {| ak_objects := <[edit_path 1 1 := [x02]]> (ak_objects a2); ak_anchored := ak_anchored a2; ak_pointers := ak_pointers a2 |}).
  assert (rtc call (old_disk, a0) (d3, a3)) as Hr.
  { assert (write_object (snapshot_path 1) [x01] old_disk = (Ok, d1)) as E1 by (apply (answered (write_object (snapshot_path 1) [x01] old_disk) Ok); vm_compute; reflexivity).
    assert (disk_cas None 1 d1 = (Value (Some (entry_of 1 1)), d2)) as E2 by (apply (answered (disk_cas None 1 d1) (Value (Some (entry_of 1 1)))); vm_compute; reflexivity).
    assert (write_object (edit_path 1 1) [x02] d2 = (Ok, d3)) as E3 by (apply (answered (write_object (edit_path 1 1) [x02] d2) Ok); vm_compute; reflexivity).
    apply (rtc_l call (old_disk, a0) (d1, a1)); [exact (call_put old_disk a0 (snapshot_path 1) [x01] d1 O1 E1)|].
    apply (rtc_l call (d1, a1) (d2, a2)); [exact (call_swap d1 a1 None 1 (entry_of 1 1) d2 Hu E2)|].
    apply (rtc_l call (d2, a2) (d3, a3)); [exact (call_put d2 a2 (edit_path 1 1) [x02] d3 O2 E3)|]. apply rtc_refl. }
  assert (crash d3 (bare_disk (flushed <$> dk_visible d3))) as Hc by (apply crash_lucky, (bool_decide_eq_true_1 _); by vm_compute).
  assert (mounted old_disk) as Hm by (split; [by split|by split|by intros n H|by intros n H]).
  exists d3, a3, (bare_disk (flushed <$> dk_visible d3)). split; [exact Hr|]. split; [exact Hc|].
  destruct (acknowledged_calls_survive_power_loss old_disk d3 a3 _ Hm Hr Hc) as [Hobj Hptr]. split.
  - apply (Hobj (edit_path 1 1) [x02] 1); [apply lookup_insert_eq|by exists [edit_name 1]|]. split; [done|]. right. exists (snapshot_path 1), [x01]. split; [apply lookup_insert_eq|by exists [kSnapshot]].
  - apply list_elem_of_singleton in Hptr. exact Hptr.
Defined.
