(* ===== verification/Dynamo.v ===== *)
(** * The manifest catalog on DynamoDB

    [aws/dynamo_manifest_catalog.cpp]: payloads cut into items under sort keys, a pointer moved by a conditional
    update, snapshots written under an attempt of their own. DynamoDB is a class of the five calls the catalog makes
    for one partition, with what its documentation promises as laws; any call may fail, also after it was applied.
    The random ids of [fresh_id] come from a supply. *)

From S2P Require Import Prelude Slice Names Catalog.

(** ** DynamoDB *)

(** The attributes of an item besides its key; numbers are held as text. *)
Record Item := {
  it_payload : option bytes;
  it_total_chunks : option bytes;
  it_writer : option bytes;
  it_operation : option bytes;
  it_version : option bytes;
  it_generation : option bytes;
  it_snapshot_attempt : option bytes
}.

Definition no_item : Item :=
  {| it_payload := None; it_total_chunks := None; it_writer := None; it_operation := None; it_version := None; it_generation := None; it_snapshot_attempt := None |}.

Abbreviation Table := (gmap bytes Item).

Inductive DynamoError : Type := ConditionFailed | ValidationFailed | OtherFailure.

(** [PutItem] under [attribute_not_exists(SK)]; [UpdateItem] of one item under a condition on its version; a consistent [GetItem]; all pages
    of a consistent [Query]; [BatchWriteItem] of deletions, and whether it succeeded with nothing left unprocessed. No error is success. *)
Class DynamoDB (D : Type) := {
  ddb_put_new : bytes -> Item -> D -> option DynamoError * D;
  ddb_update_if : bytes -> option bytes -> (Item -> Item) -> D -> option DynamoError * D;
  ddb_get : bytes -> D -> option (option Item) * D;
  ddb_query : bytes -> D -> option (list (bytes * Item)) * D;
  ddb_batch_delete : list bytes -> D -> bool * D
}.

(** Items are returned in the order of the sort key. *)
Definition item_le (a b : bytes * Item) : Prop := key_le a.1 b.1.

#[export] Instance item_le_dec : RelDecision item_le.
Proof. intros a b. unfold item_le. apply _. Defined.

Definition items_under (prefix : bytes) (t : Table) : list (bytes * Item) :=
  merge_sort item_le (List.filter (fun p => starts_with p.1 prefix) (map_to_list t)).

Definition updated (k : bytes) (f : Item -> Item) (t : Table) : Table := <[k := f (default no_item (t !! k))]> t.

(** What is documented of the five calls. The version attribute is a number there and its decimal text here: the catalog
    writes no leading zeros, so that equal texts are equal numbers. *)
Class DynamoLaws {D} (db : DynamoDB D) (view : D -> Table) : Prop := {
  law_put_new : forall k i d e d', ddb_put_new k i d = (e, d') ->
    (view d' = view d /\ e <> None \/ view d !! k = None /\ view d' = <[k := i]> (view d) /\ e <> Some ConditionFailed) /\ (e = Some ConditionFailed -> view d !! k <> None);
  law_update_if : forall k v f d e d', ddb_update_if k v f d = (e, d') ->
    (view d' = view d /\ e <> None \/ (view d !! k ≫= it_version) = v /\ view d' = updated k f (view d) /\ e <> Some ConditionFailed) /\ (e = Some ConditionFailed -> (view d !! k ≫= it_version) <> v);
  law_get : forall k d r d', ddb_get k d = (r, d') -> view d' = view d /\ forall a, r = Some a -> a = view d !! k;
  law_query : forall p d r d', ddb_query p d = (r, d') -> view d' = view d /\ forall l, r = Some l -> l = items_under p (view d);
  law_batch_delete : forall ks d ok d', ddb_batch_delete ks d = (ok, d') ->
    (forall k, view d' !! k = view d !! k \/ k ∈ ks /\ view d' !! k = None) /\ (ok = true -> forall k, k ∈ ks -> view d' !! k = None)
}.

(** ** Keys *)

(** The bytes of [POINTER], [gen#], [#snap#], [#edit#] and [#]. *)
Definition kPointerSk : bytes := [x50; x4f; x49; x4e; x54; x45; x52].
Definition kGenMarker : bytes := [x67; x65; x6e; x23].
Definition kSnapMarker : bytes := [x23; x73; x6e; x61; x70; x23].
Definition kEditMarker : bytes := [x23; x65; x64; x69; x74; x23].
Definition kSep : bytes := [x23].

(** ["%04u"]. *)
Definition pad4 (v : Z) : bytes := replicate (4 - length (to_string v)) (digit 0) ++ to_string v.

Definition generation_prefix (g : Z) : bytes := kGenMarker ++ padded g ++ kSep.
Definition snapshot_prefix (g : Z) : bytes := kGenMarker ++ padded g ++ kSnapMarker.
Definition edit_prefix (g : Z) : bytes := kGenMarker ++ padded g ++ kEditMarker.
Definition edit_chunk_prefix (g seq : Z) : bytes := kGenMarker ++ padded g ++ kEditMarker ++ padded seq ++ kSep.
Definition sort_key_edit (g seq chunk : Z) : bytes := edit_chunk_prefix g seq ++ pad4 chunk.
Definition sort_key_snapshot (g : Z) (attempt : bytes) (chunk : Z) : bytes := (snapshot_prefix g ++ attempt ++ kSep) ++ pad4 chunk.

(** The bytes before the first separator, if there is one. *)
Fixpoint before_sep (s : bytes) : option bytes :=
  match s with
  | [] => None
  | c :: rest => if bool_decide (c = kHash) then Some [] else (fun t => c :: t) <$> before_sep rest
  end.

(** The attempt inside a snapshot's key, empty where there is none. *)
Definition attempt_of (sort_key prefix : bytes) : bytes :=
  if (length sort_key <=? length prefix)%nat then [] else default [] (before_sep (drop (length prefix) sort_key)).

(** A count as [from_chars] reads it; 0 where it cannot. *)
Definition declared_of (i : Item) : Z :=
  match it_total_chunks i with
  | None => 0
  | Some text => match from_chars text with Some (v, _) => if v <? 2 ^ 32 then v else 0 | None => 0 end
  end.

(** ** The catalog *)

Definition kChunkPayloadBytes : Z := 300 * 1024.

(** The pieces of a payload; an empty one is one empty piece. *)
Definition piece_count (b : bytes) : nat := Z.to_nat (Z.max 1 ((zlen b + kChunkPayloadBytes - 1) / kChunkPayloadBytes)).

Definition chunk_piece (b : bytes) (index : nat) : bytes :=
  take (Z.to_nat kChunkPayloadBytes) (drop (Z.to_nat (Z.of_nat index * kChunkPayloadBytes)) b).

(** What one instance remembers, apart from its id. *)
Record Attempts := { written_attempts : gmap Z bytes; pointer_attempts : gmap Z bytes }.

(** The service, and the ids handed out so far. *)
Record Dynamo (D : Type) := { dy_db : D; dy_ids : nat }.
Arguments dy_db {D}.
Arguments dy_ids {D}.

Section Catalog.
Context {D : Type} {db : DynamoDB D} (ids : nat -> bytes) (writer : bytes).

Definition call {A} (f : D -> A * D) (d : Dynamo D) : A * Dynamo D := let '(r, x) := f (dy_db d) in (r, {| dy_db := x; dy_ids := dy_ids d |}).

Definition fresh_id (d : Dynamo D) : bytes * Dynamo D := (ids (dy_ids d), {| dy_db := dy_db d; dy_ids := S (dy_ids d) |}).

Definition chunk_item (payload operation : bytes) (total : nat) : Item :=
  {| it_payload := Some payload; it_total_chunks := Some (to_string (Z.of_nat total)); it_writer := Some writer; it_operation := Some operation;
     it_version := None; it_generation := None; it_snapshot_attempt := None |}.

Definition operation_landed (sort_key operation : bytes) (d : Dynamo D) : Result bool * Dynamo D :=
  match call (ddb_get sort_key) d with
  | (None, d) => (Unexpected Io, d)
  | (Some None, d) => (Value false, d)
  | (Some (Some i), d) => (Value (bool_decide (it_operation i = Some operation)), d)
  end.

(** What the last error means. *)
Definition error_status (e : DynamoError) : Status := match e with ConditionFailed | ValidationFailed => Config | OtherFailure => Io end.

Definition put_once (sort_key payload : bytes) (total : nat) (d : Dynamo D) : Status * Dynamo D :=
  let '(operation, d) := fresh_id d in
  let i := chunk_item payload operation total in
  match call (ddb_put_new sort_key i) d with
  | (None, d) => (Ok, d)
  | (Some OtherFailure, d) =>
      match call (ddb_put_new sort_key i) d with
      | (None, d) => (Ok, d)
      | (Some e, d) =>
          match operation_landed sort_key operation d with
          | (Unexpected s, d) => (s, d)
          | (Value true, d) => (Ok, d)
          | (Value false, d) => (error_status e, d)
          end
      end
  | (Some e, d) => (error_status e, d)
  end.

Fixpoint put_pieces (sort_key : Z -> bytes) (b : bytes) (total : nat) (indices : list nat) (d : Dynamo D) : Status * Dynamo D :=
  match indices with
  | [] => (Ok, d)
  | index :: rest =>
      match put_once (sort_key (Z.of_nat index)) (chunk_piece b index) total d with
      | (Ok, d) => put_pieces sort_key b total rest d
      | (s, d) => (s, d)
      end
  end.

Definition put_chunked (sort_key : Z -> bytes) (b : bytes) (d : Dynamo D) : Status * Dynamo D :=
  put_pieces sort_key b (piece_count b) (seq 0 (piece_count b)) d.

(** All pages of a query, which fails with any of them. *)
Definition query_prefix (prefix : bytes) (d : Dynamo D) : Result (list (bytes * Item)) * Dynamo D :=
  match call (ddb_query prefix) d with
  | (None, d) => (Unexpected Io, d)
  | (Some items, d) => (Value items, d)
  end.

(** The payloads one after the other; an item without one is damage. *)
Fixpoint concat_payloads (items : list (bytes * Item)) : Result bytes :=
  match items with
  | [] => Value []
  | (_, i) :: rest =>
      match it_payload i with
      | None => Unexpected Corrupt
      | Some p => let? tail := concat_payloads rest in Value (p ++ tail)
      end
  end.

Definition assemble (items : list (bytes * Item)) : Result bytes :=
  match merge_sort item_le items with
  | [] => Unexpected NotFound
  | (k, front) :: rest =>
      if negb (declared_of front =? 0) && negb (declared_of front =? Z.of_nat (length items)) then Unexpected Corrupt
      else concat_payloads ((k, front) :: rest)
  end.

Definition get_chunked (prefix : bytes) (d : Dynamo D) : Result bytes * Dynamo D :=
  match query_prefix prefix d with
  | (Unexpected s, d) => (Unexpected s, d)
  | (Value items, d) => (assemble items, d)
  end.

Definition kBatch : nat := 25.

(** The keys in batches; the first batch that leaves something ends it. *)
Fixpoint delete_batches (fuel : nat) (keys : list bytes) (d : Dynamo D) : Status * Dynamo D :=
  match keys, fuel with
  | [], _ | _, O => (Ok, d)
  | _, S fuel =>
      match call (ddb_batch_delete (take kBatch keys)) d with
      | (true, d) => delete_batches fuel (drop kBatch keys) d
      | (false, d) => (Io, d)
      end
  end.

Definition delete_prefix (prefix : bytes) (d : Dynamo D) : Status * Dynamo D :=
  match query_prefix prefix d with
  | (Unexpected s, d) => (s, d)
  | (Value items, d) => delete_batches (length items) (map fst items) d
  end.

(** The items of each attempt, in the order of the query. *)
Definition of_attempt (prefix : bytes) (items : list (bytes * Item)) (attempt : bytes) : list (bytes * Item) :=
  List.filter (fun p => bool_decide (attempt_of p.1 prefix = attempt)) items.

Definition attempts_in (prefix : bytes) (items : list (bytes * Item)) : list bytes :=
  List.filter (fun a => negb (bool_decide (a = []))) (remove_dups (map (fun p => attempt_of p.1 prefix) items)).

(** [get_snapshot_attempt] asks the first item of an attempt how many there are to be, [has_complete_snapshot] the last that says. *)
Definition complete_by_first (prefix : bytes) (items : list (bytes * Item)) (attempt : bytes) : bool :=
  match of_attempt prefix items attempt with
  | [] => false
  | (_, front) :: rest => negb (declared_of front =? 0) && (declared_of front =? Z.of_nat (S (length rest)))
  end.

Definition complete_by_last (prefix : bytes) (items : list (bytes * Item)) (attempt : bytes) : bool :=
  let chunks := of_attempt prefix items attempt in
  match last (List.filter (fun p => match it_total_chunks p.2 with Some _ => true | None => false end) chunks) with
  | None => false
  | Some (_, i) => negb (declared_of i =? 0) && (declared_of i =? Z.of_nat (length chunks))
  end.

Definition has_complete_snapshot (g : Z) (d : Dynamo D) : Result bool * Dynamo D :=
  match query_prefix (snapshot_prefix g) d with
  | (Unexpected s, d) => (Unexpected s, d)
  | (Value items, d) => (Value (existsb (complete_by_last (snapshot_prefix g) items) (attempts_in (snapshot_prefix g) items)), d)
  end.

Definition is_partial (prefix : bytes) (d : Dynamo D) : Result bool * Dynamo D :=
  match query_prefix prefix d with
  | (Unexpected s, d) => (Unexpected s, d)
  | (Value [], d) => (Value false, d)
  | (Value ((k, front) :: rest), d) => (Value (negb (declared_of front =? 0) && negb (declared_of front =? Z.of_nat (S (length rest)))), d)
  end.

Definition written_by_us (sort_key : bytes) (d : Dynamo D) : Result bool * Dynamo D :=
  match call (ddb_get sort_key) d with
  | (None, d) => (Unexpected Io, d)
  | (Some None, d) => (Value true, d)
  | (Some (Some i), d) => (Value (bool_decide (it_writer i = Some writer)), d)
  end.

Definition put_edit_chunked (g seq : Z) (b : bytes) (d : Dynamo D) : Status * Dynamo D :=
  match put_chunked (sort_key_edit g seq) b d with
  | (Config, d) =>
      match is_partial (edit_chunk_prefix g seq) d with
      | (Unexpected s, d) => (s, d)
      | (Value false, d) => (Config, d)
      | (Value true, d) =>
          match written_by_us (sort_key_edit g seq 0) d with
          | (Unexpected s, d) => (s, d)
          | (Value false, d) => (Config, d)
          | (Value true, d) =>
              match delete_prefix (edit_chunk_prefix g seq) d with
              | (Ok, d) => put_chunked (sort_key_edit g seq) b d
              | (s, d) => (s, d)
              end
          end
      end
  | (s, d) => (s, d)
  end.

(** *** The operations of the interface *)

Definition note_pointer (g : Z) (attempt : bytes) (a : Attempts) : Attempts :=
  if bool_decide (attempt = []) then a else {| written_attempts := written_attempts a; pointer_attempts := <[g := attempt]> (pointer_attempts a) |}.

Definition note_written (g : Z) (attempt : bytes) (a : Attempts) : Attempts :=
  {| written_attempts := <[g := attempt]> (written_attempts a); pointer_attempts := pointer_attempts a |}.

Definition dynamo_read (a : Attempts) (d : Dynamo D) : Result (option Entry) * Attempts * Dynamo D :=
  match call (ddb_get kPointerSk) d with
  | (None, d) => (Unexpected Io, a, d)
  | (Some None, d) => (Value None, a, d)
  | (Some (Some i), d) =>
      match it_generation i, it_version i with
      | Some g, Some v =>
          match from_chars g with
          | None => (Unexpected Corrupt, a, d)
          | Some (g, _) => (Value (Some {| generation := g; token := v |}), match it_snapshot_attempt i with Some at_ => note_pointer g at_ a | None => a end, d)
          end
      | _, _ => (Unexpected Corrupt, a, d)
      end
  end.

(** The update of the pointer: what it does not set stays. *)
Definition pointed (g version : Z) (attempt operation : bytes) (old : Item) : Item :=
  {| it_payload := it_payload old; it_total_chunks := it_total_chunks old; it_writer := Some operation; it_operation := it_operation old;
     it_version := Some (to_string version); it_generation := Some (to_string g);
     it_snapshot_attempt := if bool_decide (attempt = []) then it_snapshot_attempt old else Some attempt |}.

Definition next_version (expected : option Entry) : option Z :=
  match expected with
  | None => Some 1
  | Some e => match from_chars (token e) with Some (v, _) => Some (u64 (v + 1)) | None => None end
  end.

Definition dynamo_cas (expected : option Entry) (g : Z) (a : Attempts) (d : Dynamo D) : Result (option Entry) * Attempts * Dynamo D :=
  match next_version expected with
  | None => (Unexpected Config, a, d)
  | Some version =>
      let attempt := default [] (written_attempts a !! g) in
      let '(operation, d) := fresh_id d in
      let update := call (ddb_update_if kPointerSk (token <$> expected) (pointed g version attempt operation)) in
      let won d := (Value (Some {| generation := g; token := to_string version |}), note_pointer g attempt a, d) in
      match update d with
      | (None, d) => won d
      | (Some ConditionFailed, d) => (Value None, a, d)
      | (Some _, d) =>
          match update d with
          | (None, d) => won d
          | (Some e, d) =>
              match call (ddb_get kPointerSk) d with
              | (None, d) => (Unexpected Io, a, d)
              | (Some i, d) =>
                  if bool_decide ((i ≫= it_writer) = Some operation) then won d
                  else match e with ConditionFailed => (Value None, a, d) | _ => (Unexpected Io, a, d) end
              end
          end
      end
  end.

Definition dynamo_put_snapshot (g : Z) (b : bytes) (a : Attempts) (d : Dynamo D) : Status * Attempts * Dynamo D :=
  match has_complete_snapshot g d with
  | (Unexpected s, d) => (s, a, d)
  | (Value true, d) => (Config, a, d)
  | (Value false, d) =>
      let '(attempt, d) := fresh_id d in
      let '(s, d) := put_chunked (sort_key_snapshot g attempt) b d in
      (s, if bool_decide (s = Ok) then note_written g attempt a else a, d)
  end.

Definition dynamo_get_snapshot (g : Z) (a : Attempts) (d : Dynamo D) : Result bytes * Dynamo D :=
  let prefix := snapshot_prefix g in
  match query_prefix prefix d with
  | (Unexpected s, d) => (Unexpected s, d)
  | (Value [], d) => (Unexpected NotFound, d)
  | (Value items, d) =>
      let complete := List.filter (complete_by_first prefix items) (attempts_in prefix items) in
      match pointer_attempts a !! g with
      | Some named =>
          if bool_decide (named ∈ complete) then get_chunked (prefix ++ named ++ kSep) d else (Unexpected Corrupt, d)
      | None =>
          match complete with
          | [only] => get_chunked (prefix ++ only ++ kSep) d
          | _ => (Unexpected Corrupt, d)
          end
      end
  end.

Definition dynamo_put_edit (g seq : Z) (b : bytes) (d : Dynamo D) : Status * Dynamo D := put_edit_chunked g seq b d.

Definition dynamo_get_edit (g seq : Z) (d : Dynamo D) : Result bytes * Dynamo D := get_chunked (edit_chunk_prefix g seq) d.

(** The number after the marker. *)
Fixpoint after_marker (s : bytes) : option bytes :=
  if starts_with s kEditMarker then Some (drop (length kEditMarker) s) else match s with [] => None | _ :: rest => after_marker rest end.

Definition seq_of (sort_key : bytes) : option Z := rest ← after_marker sort_key; fst <$> from_chars rest.

Definition dynamo_list_edits (g : Z) (d : Dynamo D) : Result (list Z) * Dynamo D :=
  match query_prefix (edit_prefix g) d with
  | (Unexpected s, d) => (Unexpected s, d)
  | (Value items, d) => (Value (merge_sort Z.le (remove_dups (omap (fun p => seq_of p.1) items))), d)
  end.

Definition dynamo_delete_generation (g : Z) (d : Dynamo D) : Status * Dynamo D := delete_prefix (generation_prefix g) d.
End Catalog.
