(* ===== verification/DynamoProofs.v ===== *)
(** * What the catalog on DynamoDB promises

    A payload acknowledged under an address reads back whole, whatever calls were lost, repeated or refused on the
    way; and the pointer that a conditional update moved names the snapshot that reads back. *)

From S2P Require Import Prelude Slice Names Catalog Dynamo.

(** ** Items in the order of their keys *)

#[local] Instance item_le_total : Total item_le.
Proof. intros a b. unfold item_le. apply (total key_le). Qed.

#[local] Instance item_le_trans : Transitive item_le.
Proof. intros a b c. unfold item_le. apply transitivity. Qed.

Lemma elem_of_items prefix t k i : (k, i) ∈ items_under prefix t <-> t !! k = Some i /\ starts_with k prefix = true.
Proof. unfold items_under. rewrite (merge_sort_Permutation item_le), elem_of_filter_bool. simpl. by rewrite elem_of_map_to_list. Qed.


Lemma fst_filter_sublist {A B} (p : A * B -> bool) (l : list (A * B)) : map fst (List.filter p l) `sublist_of` map fst l.
Proof. induction l as [|x l IH]; [done|]. simpl. destruct (p x); simpl; [by apply sublist_skip|by apply sublist_cons]. Qed.

Lemma items_nodup prefix t : NoDup (map fst (items_under prefix t)).
Proof.
  unfold items_under. rewrite (merge_sort_Permutation item_le).
  eapply sublist_NoDup; [apply (NoDup_fst_map_to_list t)|apply fst_filter_sublist].
Qed.

(** Two sorted lists of items of one table with the same keys are the same. *)
Lemma items_unique (t : Table) l l' : Sorted item_le l -> Sorted item_le l' -> NoDup (map fst l) -> NoDup (map fst l') ->
  (forall k i, (k, i) ∈ l <-> (k, i) ∈ l') -> l = l'.
Proof.
  intros Hs Hs' Hn Hn' Hin. assert (Hsk : forall x, Sorted item_le x -> Sorted key_le (map fst x)).
  { intros x Hx. induction Hx as [|a x _ IH Hhd]; [constructor|]. simpl. constructor; [done|]. destruct Hhd; simpl; constructor. done. }
  assert (NoDup l) as Nl by (by apply (NoDup_fmap_1 fst)). assert (NoDup l') as Nl' by (by apply (NoDup_fmap_1 fst)).
  assert (l ≡ₚ l') as Hp by (apply NoDup_Permutation; [done|done|intros [k i]; apply Hin]).
  assert (map fst l = map fst l') as Ek by (apply (Sorted_unique key_le); [by apply Hsk|by apply Hsk|by apply (fmap_Permutation fst)]).
  clear Hs Hs' Hsk Nl Nl' Hp. revert l' Hn' Hin Ek. induction l as [|[k i] l IH]; intros [|[k' i'] l'] Hn' Hin Ek; try done.
  simpl in Ek. injection Ek as <- Ek. simpl in Hn, Hn'. apply NoDup_cons in Hn as [Hk Hn]. apply NoDup_cons in Hn' as [Hk' Hn'].
  assert (i = i') as <-.
  { destruct (proj1 (elem_of_cons _ _ _) (proj1 (Hin k i) ltac:(by left))) as [[= ->]|H]; [done|]. exfalso. apply Hk'. apply list_elem_of_fmap. by exists (k, i). }
  f_equal. apply IH; [done|done| |done]. intros k2 i2. split; intros H.
  - destruct (proj1 (elem_of_cons _ _ _) (proj1 (Hin k2 i2) ltac:(by right))) as [[= -> ->]|H2]; [|done]. exfalso. apply Hk. apply list_elem_of_fmap. by exists (k, i).
  - destruct (proj1 (elem_of_cons _ _ _) (proj2 (Hin k2 i2) ltac:(by right))) as [[= -> ->]|H2]; [|done]. exfalso. apply Hk'. apply list_elem_of_fmap. by exists (k, i).
Qed.

(** ** Pieces *)

Definition piece_size : nat := Z.to_nat kChunkPayloadBytes.

Lemma piece_size_Z : Z.of_nat piece_size = kChunkPayloadBytes.
Proof. unfold piece_size, kChunkPayloadBytes. rewrite Z2Nat.id; lia. Qed.

Lemma piece_at b j : chunk_piece b j = take piece_size (drop (j * piece_size) b).
Proof. unfold chunk_piece, piece_size. f_equal. f_equal. rewrite Z2Nat.inj_mul, Nat2Z.id by (unfold kChunkPayloadBytes; lia). done. Qed.

#[local] Opaque piece_size.

Lemma concat_pieces b m : concat (map (chunk_piece b) (seq 0 m)) = take (m * piece_size) b.
Proof.
  induction m as [|m IH]; [done|]. rewrite seq_S, map_app, concat_app, IH. simpl. rewrite app_nil_r, piece_at.
  rewrite <- (take_drop (m * piece_size) (take (piece_size + m * piece_size) b)). rewrite take_take, Nat.min_l by lia. f_equal.
  rewrite skipn_firstn_comm. f_equal. lia.
Qed.

Lemma piece_count_enough b : concat (map (chunk_piece b) (seq 0 (piece_count b))) = b.
Proof.
  rewrite concat_pieces. apply take_ge. unfold piece_count. pose proof piece_size_Z as Hp. assert (0 < kChunkPayloadBytes) as H0 by (unfold kChunkPayloadBytes; lia).
  pose proof (Z.div_mod (zlen b + kChunkPayloadBytes - 1) kChunkPayloadBytes ltac:(lia)) as Hd. pose proof (Z.mod_pos_bound (zlen b + kChunkPayloadBytes - 1) kChunkPayloadBytes H0) as Hm.
  set (q := (zlen b + kChunkPayloadBytes - 1) / kChunkPayloadBytes) in *. unfold zlen in *. apply Nat2Z.inj_le. rewrite Nat2Z.inj_mul, Hp, Z2Nat.id by lia. nia.
Qed.

Lemma piece_count_pos b : (0 < piece_count b)%nat.
Proof. unfold piece_count. lia. Qed.

(** ** Keys of pieces *)

Definition pad4_nat (j : nat) : bytes := pad4 (Z.of_nat j).

Fixpoint increasing (l : list bytes) : bool :=
  match l with a :: ((b :: _) as rest) => key_ltb a b && increasing rest | _ => true end.

Lemma increasing_sorted l : increasing l = true -> StronglySorted key_lt l.
Proof.
  intros H. apply Sorted_StronglySorted; [intros x y z; apply key_lt_trans|]. induction l as [|a [|b l] IH]; [constructor|by repeat constructor|].
  cbn [increasing] in H. apply andb_true_iff in H as [H1 H2]. constructor; [by apply IH|]. constructor. by apply key_ltb_lt.
Qed.

(** Four digits are enough for ten thousand pieces, in order. *)
Lemma pad4_increasing : increasing (map pad4_nat (seq 0 (Z.to_nat 10000))) = true.
Proof. vm_compute. reflexivity. Qed.

Lemma pad4_order i j : (i < j < Z.to_nat 10000)%nat -> key_lt (pad4_nat i) (pad4_nat j).
Proof.
  intros H. pose proof (increasing_sorted _ pad4_increasing) as Hs.
  assert (forall l : list bytes, StronglySorted key_lt l -> forall i j x y, (i < j)%nat -> l !! i = Some x -> l !! j = Some y -> key_lt x y) as Hl.
  { clear. induction 1 as [|a l _ IH Hf]; intros i j x y Hij Hx Hy; [done|]. destruct j as [|j]; [lia|]. simpl in Hy. destruct i as [|i]; simpl in Hx.
    - injection Hx as <-. rewrite Forall_forall in Hf. apply Hf. by eapply list_elem_of_lookup_2.
    - apply (IH i j); [lia|done|done]. }
  apply (Hl _ Hs i j); [lia| |]; change (map pad4_nat (seq 0 (Z.to_nat 10000))) with (pad4_nat <$> seq 0 (Z.to_nat 10000)); rewrite list_lookup_fmap, lookup_seq_lt by lia; done.
Qed.

Lemma piece_keys_order P i j : (i < j < Z.to_nat 10000)%nat -> key_lt (P ++ pad4_nat i) (P ++ pad4_nat j).
Proof. intros H. apply key_lt_lex. rewrite lex_app_common. by apply key_lt_lex, pad4_order. Qed.

Lemma piece_keys_inj P i j : (i < Z.to_nat 10000)%nat -> (j < Z.to_nat 10000)%nat -> P ++ pad4_nat i = P ++ pad4_nat j -> i = j.
Proof.
  intros Hi Hj E. destruct (Nat.lt_trichotomy i j) as [H|[H|H]]; [|done|]; exfalso.
  - apply (key_lt_irrefl (P ++ pad4_nat i)). rewrite E at 2. by apply piece_keys_order.
  - apply (key_lt_irrefl (P ++ pad4_nat i)). rewrite E at 1. by apply piece_keys_order.
Qed.

(** ** A whole set of pieces *)

Section Pieces.
Context (writer : bytes).

(** The table holds exactly the pieces of [b] under the prefix. *)
Definition holds_pieces (P b : bytes) (t : Table) : Prop :=
  (forall j, (j < piece_count b)%nat -> exists op, t !! (P ++ pad4_nat j) = Some (chunk_item writer (chunk_piece b j) op (piece_count b))) /\
  (forall k i, t !! k = Some i -> starts_with k P = true -> exists j, (j < piece_count b)%nat /\ k = P ++ pad4_nat j).

Lemma declared_chunk p op n : Z.of_nat n < 2 ^ 32 -> declared_of (chunk_item writer p op n) = Z.of_nat n.
Proof.
  intros Hn. unfold declared_of, chunk_item. cbn [it_total_chunks]. pose proof (from_chars_to_string (Z.of_nat n) [] ltac:(unfold is_u64; lia) I) as E. rewrite app_nil_r in E. rewrite E.
  destruct (Z.ltb_spec (Z.of_nat n) (2 ^ 32)); [done|lia].
Qed.

Lemma pieces_listed P b t : (piece_count b <= Z.to_nat 10000)%nat -> holds_pieces P b t ->
  exists ops, items_under P t = map (fun j => (P ++ pad4_nat j, chunk_item writer (chunk_piece b j) (ops j) (piece_count b))) (seq 0 (piece_count b)).
Proof.
  intros Hn [Hall Honly]. set (n := piece_count b) in *.
  set (ops := fun j => default [] (match t !! (P ++ pad4_nat j) with Some i => it_operation i | None => None end)). exists ops.
  assert (forall j, (j < n)%nat -> t !! (P ++ pad4_nat j) = Some (chunk_item writer (chunk_piece b j) (ops j) n)) as Hj.
  { intros j H. unfold ops. destruct (Hall j H) as [op E]. by rewrite E. }
  apply (items_unique t).
  - unfold items_under. apply (Sorted_merge_sort item_le).
  - assert (forall m k, (k + m <= n)%nat -> Sorted item_le (map (fun j => (P ++ pad4_nat j, chunk_item writer (chunk_piece b j) (ops j) n)) (seq k m))) as H; [|by apply H].
    induction m as [|m IH]; intros k Hk; [constructor|]. simpl. constructor; [apply IH; lia|]. destruct m; [constructor|]. simpl. constructor. unfold item_le. cbn [fst].
    apply key_le_lteq. left. apply piece_keys_order. lia.
  - apply items_nodup.
  - rewrite map_map. cbn [fst]. apply NoDup_fmap_2_strong; [|apply NoDup_seq]. intros i j Hi%elem_of_seq Hj'%elem_of_seq E. apply (piece_keys_inj P); [lia|lia|done].
  - intros k i. rewrite elem_of_items, list_elem_of_fmap. split.
    + intros [Hk Hs]. destruct (Honly k i Hk Hs) as (j & Hjn & ->). exists j. split; [|apply elem_of_seq; lia]. rewrite (Hj j Hjn) in Hk. by injection Hk as <-.
    + intros (j & [= -> ->] & Hjn%elem_of_seq). split; [apply Hj; lia|]. apply starts_with_spec. by eexists.
Qed.

Lemma concat_chunks P b ops n l : concat_payloads (map (fun j => (P ++ pad4_nat j, chunk_item writer (chunk_piece b j) (ops j) n)) l) = Value (concat (map (chunk_piece b) l)).
Proof. induction l as [|j l IH]; [done|]. simpl. by rewrite IH. Qed.

Lemma assemble_pieces P b t : (piece_count b <= Z.to_nat 10000)%nat -> holds_pieces P b t -> assemble (items_under P t) = Value b.
Proof.
  intros Hn H. destruct (pieces_listed P b t Hn H) as (ops & E). unfold assemble.
  assert (merge_sort item_le (items_under P t) = items_under P t) as Es.
  { apply (items_unique t).
    - apply (Sorted_merge_sort item_le).
    - unfold items_under. apply (Sorted_merge_sort item_le).
    - rewrite (merge_sort_Permutation item_le). apply items_nodup.
    - apply items_nodup.
    - intros k i. by rewrite (merge_sort_Permutation item_le). }
  rewrite Es, E. pose proof (piece_count_pos b) as Hpos. pose proof (piece_count_enough b) as Hall. rewrite length_map, length_seq.
  assert (exists m, piece_count b = S m) as [m Em] by (exists (pred (piece_count b)); lia). assert (seq 0 (piece_count b) = 0%nat :: seq 1 m) as Eq by (by rewrite Em).
  rewrite Eq. cbn [map]. rewrite declared_chunk by lia. destruct (Z.eqb_spec (Z.of_nat (piece_count b)) (Z.of_nat (piece_count b))); [|done]. rewrite andb_false_r.
  pose proof (concat_chunks P b ops (piece_count b) (seq 0 (piece_count b))) as Hc. rewrite Hall, Eq in Hc. exact Hc.
Qed.
End Pieces.

(** ** Writing an item once *)

Section Writes.
Context {D : Type} {db : DynamoDB D} (view : D -> Table) (laws : DynamoLaws db view).
Context (ids : nat -> bytes) (ids_inj : forall m n, ids m = ids n -> m = n) (writer : bytes).

Definition dy_table (d : Dynamo D) : Table := view (dy_db d).

(** No item carries an id that is still to be handed out. *)
Definition ids_fresh (d : Dynamo D) : Prop := forall k i n, dy_table d !! k = Some i -> (dy_ids d <= n)%nat -> it_operation i <> Some (ids n).

Lemma call_db {A} (f : D -> A * D) d r d' : call f d = (r, d') -> f (dy_db d) = (r, dy_db d') /\ dy_ids d' = dy_ids d.
Proof. unfold call. destruct (f (dy_db d)) as [x y]. by intros [= <- <-]. Qed.

Lemma get_spec k d r d' : call (ddb_get k) d = (r, d') -> dy_table d' = dy_table d /\ dy_ids d' = dy_ids d /\ (forall a, r = Some a -> a = dy_table d !! k).
Proof. intros [H Hi]%call_db. apply law_get in H as [H1 H2]. done. Qed.

Lemma query_spec p d r d' : call (ddb_query p) d = (r, d') -> dy_table d' = dy_table d /\ dy_ids d' = dy_ids d /\ (forall l, r = Some l -> l = items_under p (dy_table d)).
Proof. intros [H Hi]%call_db. apply law_query in H as [H1 H2]. done. Qed.

Lemma put_item_spec k i d e d' : call (ddb_put_new k i) d = (e, d') -> dy_ids d' = dy_ids d /\
  (dy_table d' = dy_table d /\ e <> None \/ dy_table d !! k = None /\ dy_table d' = <[k := i]> (dy_table d)).
Proof. intros [H Hi]%call_db. apply law_put_new in H as [[H1|(H1 & H2 & _)] _]; split; try done; [by left|by right]. Qed.

(** An item is written at most once, and whole; it is there when the answer is [Ok]. *)
Lemma put_once_spec k p total d s d' : ids_fresh d -> put_once ids writer k p total d = (s, d') -> ids_fresh d' /\
  (dy_table d' = dy_table d /\ s <> Ok \/ dy_table d !! k = None /\ dy_table d' = <[k := chunk_item writer p (ids (dy_ids d)) total]> (dy_table d)).
Proof.
  intros Hf. unfold put_once, fresh_id. set (op := ids (dy_ids d)). set (i := chunk_item writer p op total). set (d0 := {| dy_db := dy_db d; dy_ids := S (dy_ids d) |}).
  assert (forall d1, dy_ids d1 = S (dy_ids d) -> dy_table d1 = dy_table d \/ dy_table d1 = <[k := i]> (dy_table d) -> ids_fresh d1) as Hfresh.
  { intros d1 E1 E2 k1 i1 n Hk Hn. rewrite E1 in Hn. destruct E2 as [E2|E2]; rewrite E2 in Hk; [apply (Hf k1 i1 n Hk); lia|].
    apply lookup_insert_Some in Hk as [[_ <-]|[_ Hk]]; [|apply (Hf k1 i1 n Hk); lia]. cbn [it_operation chunk_item i]. intros [= E]. apply ids_inj in E. lia. }
  destruct (call (ddb_put_new k i) d0) as [e1 d1] eqn:E1. apply put_item_spec in E1 as (I1 & T1). cbn [dy_ids d0] in I1. change (dy_table d0) with (dy_table d) in T1.
  assert (forall d2, dy_ids d2 = dy_ids d1 -> (dy_table d2 = dy_table d1 \/ dy_table d1 !! k = None /\ dy_table d2 = <[k := i]> (dy_table d1)) ->
    dy_table d2 = dy_table d \/ dy_table d !! k = None /\ dy_table d2 = <[k := i]> (dy_table d)) as Hstep.
  { intros d2 _ [E|[E1 E2]]; destruct T1 as [[T1 _]|[T1 T2]]; [left; congruence|right; split; [done|congruence]|right; rewrite T1 in *; done|].
    rewrite T2, lookup_insert_eq in E1. done. }
  assert (forall d2 s2, dy_ids d2 = dy_ids d1 -> dy_table d2 = dy_table d \/ dy_table d !! k = None /\ dy_table d2 = <[k := i]> (dy_table d) ->
    (s2 = Ok -> dy_table d2 <> dy_table d \/ dy_table d !! k = None /\ dy_table d2 = <[k := i]> (dy_table d)) ->
    ids_fresh d2 /\ (dy_table d2 = dy_table d /\ s2 <> Ok \/ dy_table d !! k = None /\ dy_table d2 = <[k := i]> (dy_table d))) as Hend.
  { intros d2 s2 E2 T2 Hs2. split; [apply Hfresh; [congruence|destruct T2 as [|[_ ?]]; auto]|]. destruct T2 as [T2|T2]; [|by right]. destruct (decide (s2 = Ok)) as [->|]; [|by left].
    destruct (Hs2 eq_refl) as [?|?]; [done|by right]. }
  assert (dy_table d1 = dy_table d \/ dy_table d !! k = None /\ dy_table d1 = <[k := i]> (dy_table d)) as T1' by (destruct T1 as [[? _]|?]; auto).
  destruct e1 as [[]|].
  - intros [= <- <-]. by apply Hend.
  - intros [= <- <-]. by apply Hend.
  - destruct (call (ddb_put_new k i) d1) as [e2 d2] eqn:E2. apply put_item_spec in E2 as (I2 & T2).
    assert (dy_table d2 = dy_table d \/ dy_table d !! k = None /\ dy_table d2 = <[k := i]> (dy_table d)) as T2' by (apply Hstep; [done|destruct T2 as [[? _]|?]; auto]).
    destruct e2 as [e2|].
    + destruct (operation_landed k op d2) as [r d3] eqn:E3. unfold operation_landed in E3. destruct (call (ddb_get k) d2) as [q d3'] eqn:Er. apply get_spec in Er as (T3 & I3 & Hq).
      assert (d3' = d3) as -> by (destruct q as [[]|]; by injection E3 as _ <-). assert (dy_table d3 = dy_table d \/ dy_table d !! k = None /\ dy_table d3 = <[k := i]> (dy_table d)) as T3' by (by rewrite T3).
      destruct r as [landed|s3].
      * destruct landed.
        -- intros [= <- <-]. apply Hend; [congruence|done|]. intros _. destruct T2' as [T2'|T2']; [|right; by rewrite T3]. exfalso.
           destruct q as [[i'|]|]; [|by injection E3|by injection E3]. injection E3 as Eop. apply bool_decide_eq_true in Eop. specialize (Hq _ eq_refl).
           symmetry in Hq. rewrite T2' in Hq. apply (Hf k i' (dy_ids d) Hq); [lia|done].
        -- intros [= <- <-]. apply Hend; [congruence|done|]. by destruct e2.
      * intros [= <- <-]. apply Hend; [congruence|done|]. destruct q as [[]|]; try (by injection E3). by injection E3 as <-.
    + intros [= <- <-]. destruct T2 as [[_ ?]|[T2a T2b]]; [done|]. apply Hend; [congruence|done|]. intros _. right. destruct T2' as [T2'|]; [|done]. exfalso.
      destruct T1 as [[T1 _]|[_ T1]]; [|by rewrite T1, lookup_insert_eq in T2a]. rewrite T2b, T1 in T2'. assert (<[k:=i]> (dy_table d) !! k = dy_table d !! k) as E by (by rewrite T2').
      rewrite lookup_insert_eq, <- T1, T2a in E. done.
  - intros [= <- <-]. destruct T1 as [[_ ?]|T1]; [done|]. apply Hend; [done|by right|]. intros _. by right.
Qed.

(** ** Writing pieces *)

Definition adds_pieces (key : Z -> bytes) (b : bytes) (total : nat) (indices : list nat) (t t' : Table) : Prop :=
  (forall k i, t !! k = Some i -> t' !! k = Some i) /\
  (forall k i, t' !! k = Some i -> t !! k = Some i \/ exists j op, j ∈ indices /\ k = key (Z.of_nat j) /\ t !! k = None /\ i = chunk_item writer (chunk_piece b j) op total).

Lemma put_pieces_spec key b total indices : forall d s d', ids_fresh d -> put_pieces ids writer key b total indices d = (s, d') ->
  ids_fresh d' /\ adds_pieces key b total indices (dy_table d) (dy_table d') /\
  (s = Ok -> forall j, j ∈ indices -> dy_table d !! key (Z.of_nat j) = None /\ exists op, dy_table d' !! key (Z.of_nat j) = Some (chunk_item writer (chunk_piece b j) op total)).
Proof.
  induction indices as [|j indices IH]; intros d s d' Hf; cbn [put_pieces].
  - intros [= <- <-]. split; [done|]. split; [by split; [|left]|]. by intros _ j ?%elem_of_nil.
  - destruct (put_once ids writer (key (Z.of_nat j)) (chunk_piece b j) total d) as [s1 d1] eqn:E1. apply put_once_spec in E1 as [Hf1 T1]; [|done].
    assert (s1 <> Ok -> (s1, d1) = (s, d') -> ids_fresh d' /\ adds_pieces key b total (j :: indices) (dy_table d) (dy_table d') /\
      (s = Ok -> forall i, i ∈ j :: indices -> dy_table d !! key (Z.of_nat i) = None /\ exists op, dy_table d' !! key (Z.of_nat i) = Some (chunk_item writer (chunk_piece b i) op total))) as Hstop.
    { intros Hs [= <- <-]. split; [done|]. split; [|done]. destruct T1 as [[-> _]|[Hn ->]]; [by split; [|left]|]. split.
      - intros k i Hk. rewrite lookup_insert_ne; [done|]. intros <-. congruence.
      - intros k i [[<- <-]|[_ Hk]]%lookup_insert_Some; [|by left]. right. exists j, (ids (dy_ids d)). split; [by left|]. done. }
    destruct s1; try (by apply Hstop). intros E. apply IH in E as (Hf' & [A1 A2] & Hall); [|done]. destruct T1 as [[_ ?]|[Hn T1]]; [done|].
    split; [done|]. assert (forall k i, dy_table d !! k = Some i -> dy_table d1 !! k = Some i) as B1.
    { intros k i Hk. rewrite T1, lookup_insert_ne; [done|]. intros <-. congruence. }
    split; [split; [by intros k i ?%B1%A1|]|].
    + intros k i [Hk|(j' & op & Hj' & -> & Hk & ->)]%A2.
      * rewrite T1 in Hk. apply lookup_insert_Some in Hk as [[<- <-]|[_ Hk]]; [|by left]. right. exists j, (ids (dy_ids d)). split; [by left|]. done.
      * right. exists j', op. split; [by right|]. split; [done|]. split; [|done]. destruct (dy_table d !! key (Z.of_nat j')) eqn:Ed; [|done]. apply B1 in Ed. congruence.
    + intros Hs i [-> |Hi]%elem_of_cons.
      * split; [done|]. exists (ids (dy_ids d)). apply A1. by rewrite T1, lookup_insert_eq.
      * destruct (Hall Hs i Hi) as [H1 H2]. split; [|done]. destruct (dy_table d !! key (Z.of_nat i)) eqn:Ed; [|done]. apply B1 in Ed. congruence.
Qed.

(** Pieces written where nothing was are the whole set. *)
Lemma put_chunked_spec P b d s d' : ids_fresh d -> put_chunked ids writer (fun j => P ++ pad4 j) b d = (s, d') ->
  ids_fresh d' /\ (forall k, starts_with k P = false -> dy_table d' !! k = dy_table d !! k) /\ (forall k i, dy_table d !! k = Some i -> dy_table d' !! k = Some i) /\
  (s = Ok -> dy_table d !! (P ++ pad4_nat 0) = None /\ ((forall k, starts_with k P = true -> dy_table d !! k = None) -> holds_pieces writer P b (dy_table d'))).
Proof.
  intros Hf E. unfold put_chunked in E. apply put_pieces_spec in E as (Hf' & [A1 A2] & Hall); [|done]. split; [done|].
  assert (forall j, starts_with (P ++ pad4 (Z.of_nat j)) P = true) as Hst by (intros j; apply starts_with_spec; by eexists). split; [|split; [done|]].
  - intros k Hk. destruct (dy_table d' !! k) as [i|] eqn:E'.
    + apply A2 in E' as [E'|(j & op & _ & -> & _)]; [done|]. by rewrite Hst in Hk.
    + destruct (dy_table d !! k) eqn:Ed; [|done]. apply A1 in Ed. congruence.
  - intros Hs. split; [apply (Hall Hs 0%nat); apply elem_of_seq; pose proof (piece_count_pos b); lia|]. intros Hnone. split.
    + intros j Hj. destruct (Hall Hs j) as [_ H]; [apply elem_of_seq; lia|done].
    + intros k i Hk Hp. apply A2 in Hk as [Hk|(j & op & Hj & -> & _)]; [rewrite Hnone in Hk; done|]. exists j. split; [apply elem_of_seq in Hj; lia|done].
Qed.

(** ** Clearing what was left *)

Lemma batch_delete_spec keys d ok d' : call (ddb_batch_delete keys) d = (ok, d') -> dy_ids d' = dy_ids d /\
  (forall k, dy_table d' !! k = dy_table d !! k \/ k ∈ keys /\ dy_table d' !! k = None) /\ (ok = true -> forall k, k ∈ keys -> dy_table d' !! k = None).
Proof. intros [H Hi]%call_db. apply law_batch_delete in H as [H1 H2]. done. Qed.

Lemma delete_batches_spec fuel : forall keys d s d', (length keys <= fuel)%nat -> delete_batches fuel keys d = (s, d') -> dy_ids d' = dy_ids d /\
  (forall k, dy_table d' !! k = dy_table d !! k \/ k ∈ keys /\ dy_table d' !! k = None) /\ (s = Ok -> forall k, k ∈ keys -> dy_table d' !! k = None).
Proof.
  induction fuel as [|fuel IH]; intros keys d s d' Hl; destruct keys as [|k0 keys]; cbn [delete_batches]; try (intros [= <- <-]; split; [done|]; split; [by left|by intros _ ? ?%elem_of_nil]); [simpl in Hl; lia|].
  set (ks := k0 :: keys) in *. destruct (call (ddb_batch_delete (take kBatch ks)) d) as [ok d1] eqn:E. apply batch_delete_spec in E as (I1 & T1 & A1).
  assert (forall k, k ∈ take kBatch ks -> k ∈ ks) as Htake by (intros k Hk; rewrite <- (take_drop kBatch ks); apply elem_of_app; by left).
  destruct ok; [|intros [= <- <-]; split; [done|]; split; [|done]; intros k; destruct (T1 k) as [|[? ?]]; auto].
  intros H. apply IH in H as (I2 & T2 & A2); [|rewrite length_drop; unfold kBatch, ks in *; simpl in *; lia].
  assert (forall k, k ∈ drop kBatch ks -> k ∈ ks) as Hdrop by (intros k Hk; rewrite <- (take_drop kBatch ks); apply elem_of_app; by right).
  split; [congruence|]. split.
  - intros k. destruct (T2 k) as [-> |[? ?]]; [|auto]. destruct (T1 k) as [|[? ?]]; auto.
  - intros Hs k Hk. rewrite <- (take_drop kBatch ks) in Hk. apply elem_of_app in Hk as [Hk|Hk]; [|by apply A2]. destruct (T2 k) as [-> |[_ ?]]; [by apply A1|done].
Qed.

Lemma delete_prefix_spec P d s d' : ids_fresh d -> delete_prefix P d = (s, d') -> ids_fresh d' /\ (forall k, starts_with k P = false -> dy_table d' !! k = dy_table d !! k) /\
  (s = Ok -> forall k, starts_with k P = true -> dy_table d' !! k = None).
Proof.
  intros Hf. unfold delete_prefix, query_prefix. destruct (call (ddb_query P) d) as [q d1] eqn:E. apply query_spec in E as (T1 & I1 & Hq). destruct q as [items|].
  - specialize (Hq _ eq_refl). intros H. apply delete_batches_spec in H as (I2 & T2 & A2); [|by rewrite length_map].
    assert (forall k, k ∈ map fst items <-> is_Some (dy_table d !! k) /\ starts_with k P = true) as Hkeys.
    { intros k. rewrite Hq, list_elem_of_fmap. split; [intros ([k' i] & -> & [H1 H2]%elem_of_items); split; [by eexists|done]|]. intros [[i Hi] Hs]. exists (k, i). split; [done|by apply elem_of_items]. }
    split; [|split].
    + intros k i n Hk Hn. rewrite I2, I1 in Hn. destruct (T2 k) as [E|[_ E]]; rewrite E in Hk; [|done]. rewrite T1 in Hk. by apply (Hf k).
    + intros k Hk. destruct (T2 k) as [-> |[Hin _]]; [by rewrite T1|]. apply Hkeys in Hin as [_ Hin]. congruence.
    + intros Hs k Hk. destruct (dy_table d !! k) as [i|] eqn:Ek; [apply (A2 Hs); apply Hkeys; split; [by eexists|done]|]. destruct (T2 k) as [-> |[_ ?]]; [by rewrite T1|done].
  - intros [= <- <-]. split; [|split; [by rewrite T1|done]]. intros k i n Hk Hn. rewrite T1 in Hk. rewrite I1 in Hn. by apply (Hf k).
Qed.

(** ** Edits *)

(** What a read of pieces answers, when it is answered. *)
Lemma get_chunked_spec P d r d' : get_chunked P d = (r, d') -> dy_table d' = dy_table d /\ (r = Unexpected Io \/ r = assemble (items_under P (dy_table d))).
Proof.
  unfold get_chunked, query_prefix. destruct (call (ddb_query P) d) as [q d1] eqn:E. apply query_spec in E as (T & _ & Hq). destruct q as [items|]; intros [= <- <-]; (split; [done|]); [right|by left].
  by rewrite (Hq _ eq_refl).
Qed.

(** The pieces at an edit's address include the first, unless there are none. *)
Definition headed (g seq : Z) (t : Table) : Prop :=
  t !! sort_key_edit g seq 0 = None -> forall k, starts_with k (edit_chunk_prefix g seq) = true -> t !! k = None.

Lemma put_chunked_taken P b d s d' i : ids_fresh d -> dy_table d !! (P ++ pad4_nat 0) = Some i -> put_chunked ids writer (fun j => P ++ pad4 j) b d = (s, d') ->
  s <> Ok /\ dy_table d' = dy_table d /\ ids_fresh d'.
Proof.
  intros Hf Hi. unfold put_chunked. pose proof (piece_count_pos b). assert (exists m, seq 0 (piece_count b) = 0%nat :: m) as [m ->] by (destruct (piece_count b); [lia|by eexists]).
  cbn [put_pieces]. destruct (put_once _ _ _ _ _ d) as [s1 d1] eqn:E. apply put_once_spec in E as [Hf1 [[T1 Hs]|[Hn _]]]; [|exfalso; unfold pad4_nat in Hi; cbn in Hi, Hn; congruence|done].
  intros H2. assert ((s1, d1) = (s, d')) as [= <- <-] by (destruct s1; done). done.
Qed.

Lemma put_edit_outcome g seq b d s d' : ids_fresh d -> dynamo_put_edit ids writer g seq b d = (s, d') ->
  ids_fresh d' /\ (forall k, starts_with k (edit_chunk_prefix g seq) = false -> dy_table d' !! k = dy_table d !! k) /\
  (s = Ok -> headed g seq (dy_table d) -> holds_pieces writer (edit_chunk_prefix g seq) b (dy_table d')).
Proof.
  intros Hf. unfold dynamo_put_edit, put_edit_chunked. set (P := edit_chunk_prefix g seq).
  change (sort_key_edit g seq) with (fun j => P ++ pad4 j). destruct (put_chunked ids writer (fun j => P ++ pad4 j) b d) as [s1 d1] eqn:E1. apply put_chunked_spec in E1 as (Hf1 & F1 & _ & A1); [|done].
  assert (s1 <> Config -> (s1, d1) = (s, d') -> ids_fresh d' /\ (forall k, starts_with k P = false -> dy_table d' !! k = dy_table d !! k) /\
    (s = Ok -> headed g seq (dy_table d) -> holds_pieces writer P b (dy_table d'))) as Hfirst.
  { intros _ [= <- <-]. split; [done|]. split; [done|]. intros Hs Hh. destruct (A1 Hs) as [H0 Hp]. by apply Hp, Hh. }
  destruct s1; try (by apply Hfirst). clear Hfirst.
  assert (forall s0 d0, dy_table d0 = dy_table d1 -> dy_ids d0 = dy_ids d1 -> s0 <> Ok -> (s0, d0) = (s, d') -> ids_fresh d' /\ (forall k, starts_with k P = false -> dy_table d' !! k = dy_table d !! k) /\
    (s = Ok -> headed g seq (dy_table d) -> holds_pieces writer P b (dy_table d'))) as Hstop.
  { intros s0 d0 T I Hs [= <- <-]. split; [intros k i n; rewrite T, I; apply Hf1|]. split; [by rewrite T|done]. }
  destruct (is_partial P d1) as [r2 d2] eqn:E2. assert (dy_table d2 = dy_table d1 /\ dy_ids d2 = dy_ids d1 /\ r2 <> Unexpected Ok) as (T2 & I2 & N2).
  { unfold is_partial, query_prefix in E2. destruct (call (ddb_query _) d1) as [q d2'] eqn:Er. apply query_spec in Er as (? & ? & _). destruct q as [[|[k i] items]|]; by injection E2 as <- <-. }
  destruct r2 as [[]|s2]; [|by apply Hstop|apply Hstop; [done|done|congruence]].
  destruct (written_by_us writer _ d2) as [r3 d3] eqn:E3. assert (dy_table d3 = dy_table d1 /\ dy_ids d3 = dy_ids d1 /\ r3 <> Unexpected Ok) as (T3 & I3 & N3).
  { unfold written_by_us in E3. destruct (call (ddb_get _) d2) as [q d3'] eqn:Er. apply get_spec in Er as (? & ? & _). destruct q as [[]|]; injection E3 as <- <-; (split; [congruence|]); (split; [congruence|done]). }
  destruct r3 as [[]|s3]; [|by apply Hstop|apply Hstop; [done|done|congruence]].
  assert (ids_fresh d3) as Hf3 by (intros k i n; rewrite T3, I3; apply Hf1).
  destruct (delete_prefix P d3) as [s4 d4] eqn:E4. apply delete_prefix_spec in E4 as (Hf4 & F4 & A4); [|done].
  assert (forall k, starts_with k P = false -> dy_table d4 !! k = dy_table d !! k) as F4' by (intros k Hk; rewrite F4, T3 by done; by apply F1).
  destruct s4; try (intros [= <- <-]; by split_and!). intros E5. apply put_chunked_spec in E5 as (Hf5 & F5 & _ & A5); [|done].
  split; [done|]. split; [intros k Hk; rewrite F5 by done; by apply F4'|]. intros Hs _. destruct (A5 Hs) as [_ H]. apply H. by apply A4.
Qed.

(** C34: an edit the catalog on DynamoDB acknowledged reads back whole when the read is answered, with any calls lost, repeated, refused or throttled
    on the way, unless the address held pieces without the first one; a whole edit that is at the address, whoever wrote it,
    is left as it is and not acknowledged; and no other item is touched. *)
Theorem dynamo_edit_reads_back g seq b d s d' : ids_fresh d -> (piece_count b <= Z.to_nat 10000)%nat -> dynamo_put_edit ids writer g seq b d = (s, d') ->
  (forall k, starts_with k (edit_chunk_prefix g seq) = false -> dy_table d' !! k = dy_table d !! k) /\
  (s = Ok -> headed g seq (dy_table d) -> forall d1 r d2, dy_table d1 = dy_table d' -> dynamo_get_edit g seq d1 = (r, d2) -> r = Value b \/ r = Unexpected Io) /\
  (forall w0 b0, (piece_count b0 <= Z.to_nat 10000)%nat -> holds_pieces w0 (edit_chunk_prefix g seq) b0 (dy_table d) -> s <> Ok /\ dy_table d' = dy_table d).
Proof.
  intros Hf Hn E. destruct (put_edit_outcome _ _ _ _ _ _ Hf E) as (_ & Hframe & Hok). split; [done|]. split.
  - intros Hs Hh d1 r d2 T1 Hget. apply get_chunked_spec in Hget as [_ [-> | ->]]; [by right|left]. rewrite T1. by apply (assemble_pieces writer), Hok.
  - intros w0 b0 Hn0 Hold. set (P := edit_chunk_prefix g seq) in *. pose proof (proj1 Hold 0%nat (piece_count_pos b0)) as [op0 H0].
    unfold dynamo_put_edit, put_edit_chunked in E. change (sort_key_edit g seq) with (fun j => P ++ pad4 j) in E.
    destruct (put_chunked ids writer (fun j => P ++ pad4 j) b d) as [s1 d1] eqn:E1. destruct (put_chunked_taken _ _ _ _ _ _ Hf H0 E1) as (Hs1 & T1 & _).
    destruct (decide (s1 = Config)) as [-> |Hc]; [|assert ((s1, d1) = (s, d')) as [= <- <-] by (destruct s1; done); done].
    fold P in E. unfold is_partial, query_prefix in E. destruct (call (ddb_query _) d1) as [q d2] eqn:Er. apply query_spec in Er as (T2 & _ & Hq).
    destruct q as [items|]; [|injection E as <- <-; split; [done|congruence]]. specialize (Hq _ eq_refl). rewrite T1 in Hq. destruct (pieces_listed w0 P b0 _ Hn0 Hold) as (ops & El).
    rewrite El in Hq. pose proof (piece_count_pos b0). assert (exists m, piece_count b0 = S m) as [m Em] by (exists (pred (piece_count b0)); lia).
    assert (List.seq 0 (piece_count b0) = 0%nat :: List.seq 1 m) as Eq by (by rewrite Em). rewrite Eq in Hq. cbn [map] in Hq. subst items. cbv iota beta in E.
    rewrite declared_chunk in E by lia. rewrite length_map, length_seq, <- Em in E. rewrite Z.eqb_refl, andb_false_r in E. injection E as <- <-. split; [done|congruence].
Qed.

(** ** Snapshots and the pointer *)

Context (ids_plain : forall n, ids n <> [] /\ kHash ∉ ids n).

Lemma before_sep_spec a rest : kHash ∉ a -> before_sep (a ++ kHash :: rest) = Some a.
Proof.
  induction a as [|c a IH]; intros Ha; cbn [before_sep app]; [by rewrite bool_decide_eq_true_2|]. apply not_elem_of_cons in Ha as [Hc Ha]. rewrite bool_decide_eq_false_2 by done. by rewrite IH.
Qed.

Lemma before_sep_inv s a : before_sep s = Some a -> exists rest, s = a ++ kHash :: rest.
Proof.
  revert a. induction s as [|c s IH]; intros a; cbn [before_sep]; [done|]. case_bool_decide as Ec; [intros [= <-]; subst; by exists s|]. destruct (before_sep s) as [a'|]; [|done].
  intros [= <-]. destruct (IH _ eq_refl) as [rest ->]. by exists rest.
Qed.

(** The keys of an attempt are those under its prefix. *)
Lemma attempt_keys P a k : a <> [] -> kHash ∉ a -> starts_with k P = true /\ attempt_of k P = a <-> starts_with k (P ++ a ++ kSep) = true.
Proof.
  intros Hne Hno. rewrite !starts_with_spec. unfold attempt_of. split.
  - intros [[t ->] E]. destruct (Nat.leb_spec (length (P ++ t)) (length P)); [by subst|]. rewrite drop_app_length in E.
    destruct (before_sep t) as [a'|] eqn:Eb; [|by subst]. simpl in E. subst a'. apply before_sep_inv in Eb as [rest ->]. exists rest. by rewrite <- !app_assoc.
  - intros [t ->]. rewrite <- !app_assoc. split; [by eexists|]. rewrite length_app. destruct (Nat.leb_spec (length P + length (a ++ kSep ++ t)) (length P)) as [H|H].
    + rewrite length_app in H. destruct a; [done|simpl in H; lia].
    + rewrite drop_app_length. change (a ++ kSep ++ t) with (a ++ kHash :: t). by rewrite before_sep_spec.
Qed.

(** A whole attempt counts as one, whatever else is in the generation. *)
Lemma attempt_complete P a b t : a <> [] -> kHash ∉ a -> (piece_count b <= Z.to_nat 10000)%nat -> holds_pieces writer (P ++ a ++ kSep) b t ->
  a ∈ List.filter (complete_by_first P (items_under P t)) (attempts_in P (items_under P t)).
Proof.
  intros Hne Hno Hn Hp. set (Q := P ++ a ++ kSep) in *. destruct (pieces_listed writer Q b t Hn Hp) as (ops & El).
  assert (forall k i, (k, i) ∈ of_attempt P (items_under P t) a <-> (k, i) ∈ items_under Q t) as Hin.
  { intros k i. unfold of_attempt. rewrite elem_of_filter_bool, !elem_of_items. cbn [fst]. rewrite bool_decide_eq_true. pose proof (attempt_keys P a k Hne Hno). fold Q in H. tauto. }
  assert (NoDup (of_attempt P (items_under P t) a)) as Hnd.
  { apply (NoDup_fmap_1 fst). eapply sublist_NoDup; [apply (items_nodup P t)|apply fst_filter_sublist]. }
  assert (of_attempt P (items_under P t) a ≡ₚ items_under Q t) as Hperm.
  { apply NoDup_Permutation; [done|apply (NoDup_fmap_1 fst), items_nodup|]. intros [k i]. apply Hin. }
  assert (length (of_attempt P (items_under P t) a) = piece_count b) as Hlen by (rewrite Hperm, El, length_map, length_seq; done).
  pose proof (piece_count_pos b) as Hpos. destruct (of_attempt P (items_under P t) a) as [|[k0 i0] rest] eqn:Eof; [simpl in Hlen; lia|].
  assert ((k0, i0) ∈ items_under Q t) as H0 by (apply Hin; by left).
  apply elem_of_filter_bool. split.
  - unfold attempts_in. apply elem_of_filter_bool. split; [|by rewrite bool_decide_eq_false_2]. apply elem_of_remove_dups, list_elem_of_fmap. exists (k0, i0).
    assert ((k0, i0) ∈ of_attempt P (items_under P t) a) as Hk by (rewrite Eof; by left). unfold of_attempt in Hk. apply elem_of_filter_bool in Hk as [Hk Ha]. apply bool_decide_eq_true in Ha. done.
  - unfold complete_by_first. rewrite Eof. rewrite El in H0. apply list_elem_of_fmap in H0 as (j & [= -> ->] & _). rewrite declared_chunk by lia. simpl in Hlen. rewrite Hlen, Z.eqb_refl.
    destruct (Z.eqb_spec (Z.of_nat (piece_count b)) 0); [lia|done].
Qed.

Lemma pointer_apart x : starts_with kPointerSk (kGenMarker ++ x) = false.
Proof. destruct (starts_with kPointerSk (kGenMarker ++ x)) eqn:E; [|done]. apply starts_with_spec in E as [t E]. discriminate. Qed.

Definition attempts_fresh (g : Z) (d : Dynamo D) : Prop :=
  forall n k, (dy_ids d <= n)%nat -> starts_with k (snapshot_prefix g ++ ids n ++ kSep) = true -> dy_table d !! k = None.

Definition pointer_fresh (d : Dynamo D) : Prop := forall i n, dy_table d !! kPointerSk = Some i -> (dy_ids d <= n)%nat -> it_writer i <> Some (ids n).

Lemma put_pieces_ids key b total indices : forall d s d', put_pieces ids writer key b total indices d = (s, d') -> (dy_ids d <= dy_ids d')%nat.
Proof.
  induction indices as [|j indices IH]; intros d s d'; cbn [put_pieces]; [by intros [= <- <-]|]. destruct (put_once _ _ _ _ _ d) as [s1 d1] eqn:E.
  assert (dy_ids d <= dy_ids d1)%nat as H1.
  { unfold put_once, fresh_id in E. destruct (call (ddb_put_new _ _) _) as [e1 d2] eqn:E2 in E. apply put_item_spec in E2 as [I2 _]. cbn [dy_ids] in I2.
    destruct e1 as [[]|]; try (injection E as <- <-; lia). destruct (call (ddb_put_new _ _) d2) as [e3 d3] eqn:E3 in E. apply put_item_spec in E3 as [I3 _]. destruct e3 as [e3|]; [|injection E as <- <-; lia].
    unfold operation_landed in E. destruct (call (ddb_get _) d3) as [q d4] eqn:E4 in E. apply get_spec in E4 as (_ & I4 & _).
    destruct q as [[i|]|]; [destruct (bool_decide _)| |]; injection E as <- <-; lia. }
  destruct s1; try (by intros [= <- <-]). intros H. apply IH in H. lia.
Qed.

Lemma put_snapshot_spec g b a d a1 d1 : ids_fresh d -> attempts_fresh g d -> dynamo_put_snapshot ids writer g b a d = (Ok, a1, d1) ->
  exists attempt, written_attempts a1 !! g = Some attempt /\ attempt <> [] /\ kHash ∉ attempt /\ holds_pieces writer (snapshot_prefix g ++ attempt ++ kSep) b (dy_table d1) /\
    (dy_ids d <= dy_ids d1)%nat /\ dy_table d1 !! kPointerSk = dy_table d !! kPointerSk.
Proof.
  intros Hf Ha. unfold dynamo_put_snapshot, has_complete_snapshot, query_prefix. destruct (call (ddb_query _) d) as [q d0] eqn:Er. apply query_spec in Er as (T0 & I0 & _).
  destruct q as [items|]; [|intros [= <- _ _]]. destruct (existsb _ _); [intros [= ]|]. unfold fresh_id. set (attempt := ids (dy_ids d0)). set (d0' := {| dy_db := dy_db d0; dy_ids := S (dy_ids d0) |}).
  destruct (put_chunked ids writer (sort_key_snapshot g attempt) b d0') as [s d1'] eqn:E. intros [= -> <- <-]. exists attempt.
  assert (ids_fresh d0') as Hf0 by (intros k i n; change (dy_table d0') with (dy_table d0); unfold d0'; cbn [dy_ids]; rewrite T0, I0; intros Hk Hn; apply (Hf k i n Hk); lia).
  change (sort_key_snapshot g attempt) with (fun j => (snapshot_prefix g ++ attempt ++ kSep) ++ pad4 j) in E. pose proof E as E'. apply put_chunked_spec in E as (_ & F & _ & A); [|done].
  split; [cbn [written_attempts note_written]; apply lookup_insert_eq|]. split; [apply ids_plain|]. split; [apply ids_plain|]. split; [|split].
  - destruct (A eq_refl) as [_ H]. apply H. intros k Hk. change (dy_table d0') with (dy_table d0). rewrite T0. apply (Ha (dy_ids d0) k); [lia|done].
  - unfold put_chunked in E'. apply put_pieces_ids in E'. unfold d0' in E'. cbn [dy_ids] in E'. lia.
  - rewrite F by (unfold snapshot_prefix; rewrite <- app_assoc; apply pointer_apart). change (dy_table d0') with (dy_table d0). by rewrite T0.
Qed.

(** The next version is never the one that was expected. *)
Lemma next_differs expected version : next_version expected = Some version -> Some (to_string version) <> token <$> expected.
Proof.
  destruct expected as [e|]; simpl; [|done]. destruct (from_chars (token e)) as [[v rest]|] eqn:E; [|done]. intros [= <-] [= H]. rewrite <- H in E.
  assert (is_u64 (u64 (v + 1))) as Hu by (unfold is_u64, u64; apply Z.mod_pos_bound; lia).
  pose proof (from_chars_to_string (u64 (v + 1)) [] Hu I) as E2. rewrite app_nil_r in E2. rewrite E2 in E. injection E as E _. unfold u64 in E.
  pose proof (Z.mod_pos_bound (v + 1) (2 ^ 64) ltac:(lia)). destruct (Z.eq_dec (v + 1) (2 ^ 64)) as [Ev|Hv]; [rewrite Ev, Z.mod_same in E by lia; lia|]. rewrite Z.mod_small in E by lia. lia.
Qed.

Definition version_of (t : Table) : option bytes := t !! kPointerSk ≫= it_version.

(** The pointer moves only from the version that was expected, and an answer that it moved is true, also when the first answers were lost. *)
Lemma cas_spec expected g a d e a2 d2 : pointer_fresh d -> dynamo_cas ids expected g a d = (Value (Some e), a2, d2) ->
  exists version op, version_of (dy_table d) = token <$> expected /\ e = {| generation := g; token := to_string version |} /\ next_version expected = Some version /\
    dy_table d2 = updated kPointerSk (pointed g version (default [] (written_attempts a !! g)) op) (dy_table d).
Proof.
  intros Hp. unfold dynamo_cas, fresh_id. destruct (next_version expected) as [version|] eqn:Hnext; [|done]. set (attempt := default [] (written_attempts a !! g)). set (op := ids (dy_ids d)).
  set (d0 := {| dy_db := dy_db d; dy_ids := S (dy_ids d) |}). set (update := call (ddb_update_if kPointerSk (token <$> expected) (pointed g version attempt op))).
  set (write := updated kPointerSk (pointed g version attempt op)).
  assert (forall x r y, update x = (r, y) -> dy_table y = dy_table x /\ r <> None \/ version_of (dy_table x) = token <$> expected /\ dy_table y = write (dy_table x)) as Hupdate.
  { intros x r y [H _]%call_db. apply law_update_if in H as [[H|(H1 & H2 & _)] _]; [by left|by right]. }
  assert (forall t, version_of (write t) <> token <$> expected) as Hmoved.
  { intros t. unfold version_of, write, updated. rewrite lookup_insert_eq. by apply (next_differs expected version Hnext). }
  assert (forall d', version_of (dy_table d) = token <$> expected /\ dy_table d' = write (dy_table d) -> (Value (Some {| generation := g; token := to_string version |}), note_pointer g attempt a, d') = (Value (Some e), a2, d2) ->
    exists version0 op0, version_of (dy_table d) = token <$> expected /\ e = {| generation := g; token := to_string version0 |} /\ Some version = Some version0 /\
      dy_table d2 = updated kPointerSk (pointed g version0 attempt op0) (dy_table d)) as Hwon by (intros d' [Hh Ed] [= <- _ <-]; by exists version, op).
  destruct (update d0) as [e1 d1] eqn:E1. apply Hupdate in E1. change (dy_table d0) with (dy_table d) in E1.
  destruct (update d1) as [e2 d2'] eqn:E2. apply Hupdate in E2.
  assert (dy_table d2' = dy_table d \/ version_of (dy_table d) = token <$> expected /\ dy_table d2' = write (dy_table d)) as T2.
  { destruct E1 as [[T1 _]|[H1 T1]], E2 as [[T2 _]|[H2 T2]]; rewrite T1 in *; [by left|by right|by right|by apply Hmoved in H2]. }
  assert (e2 = None -> version_of (dy_table d) = token <$> expected /\ dy_table d2' = write (dy_table d)) as Hnone.
  { intros ->. destruct E2 as [[_ ?]|[H2 T2']]; [done|]. destruct E1 as [[T1 _]|[_ T1]]; rewrite T1 in *; [done|by apply Hmoved in H2]. }
  destruct e1 as [[]|]; [done| | |destruct E1 as [[_ ?]|E1]; [done|by apply Hwon]].
  all: destruct e2 as [e2|]; [|by apply Hwon, Hnone].
  all: destruct (call (ddb_get kPointerSk) d2') as [q d3] eqn:E3; apply get_spec in E3 as (T3 & _ & Hq); destruct q as [i|]; [|done]; specialize (Hq _ eq_refl).
  all: case_bool_decide as Ew; [|destruct e2; done]; destruct T2 as [T2|[Hh T2]]; [|apply Hwon; split; [done|congruence]].
  all: exfalso; rewrite T2 in Hq; subst i; destruct (dy_table d !! kPointerSk) as [i|] eqn:Ei; [|done]; by apply (Hp i (dy_ids d) Ei).
Qed.

(** C33: the generation a pointer names reads back as the snapshot its winner wrote. When [put_snapshot] and the swap after it
    answered success, with any calls lost, repeated or refused, the swap was from the version expected, and every instance that
    reads the pointer and then the snapshot, where the reads are answered, gets these bytes, whatever attempts of rivals are in the same generation. *)
Theorem dynamo_snapshot_commits g b a d a1 d1 expected e a2 d2 : ids_fresh d -> attempts_fresh g d -> pointer_fresh d -> is_u64 g -> (piece_count b <= Z.to_nat 10000)%nat ->
  dynamo_put_snapshot ids writer g b a d = (Ok, a1, d1) -> dynamo_cas ids expected g a1 d1 = (Value (Some e), a2, d2) ->
  version_of (dy_table d1) = token <$> expected /\
  forall a3 d3, dy_table d3 !! kPointerSk = dy_table d2 !! kPointerSk ->
    (forall k, starts_with k (snapshot_prefix g ++ default [] (written_attempts a1 !! g) ++ kSep) = true -> dy_table d3 !! k = dy_table d2 !! k) ->
    forall r a4 d4, dynamo_read a3 d3 = (r, a4, d4) -> r = Unexpected Io \/
      r = Value (Some e) /\ forall q d5, dynamo_get_snapshot g a4 d4 = (q, d5) -> q = Value b \/ q = Unexpected Io.
Proof.
  intros Hf Ha Hp Hg Hn Hput Hcas. destruct (put_snapshot_spec _ _ _ _ _ _ Hf Ha Hput) as (attempt & Hw & Hne & Hno & Hold & Hids & Hptr).
  assert (pointer_fresh d1) as Hp1 by (intros i n; rewrite Hptr; intros Hi Hle; apply (Hp i n Hi); lia).
  destruct (cas_spec _ _ _ _ _ _ _ Hp1 Hcas) as (version & op & Hver & -> & _ & T2). rewrite Hw in *. cbn [default] in *. split; [done|]. intros a3 d3 H3p H3k.
  rewrite T2 in H3p. unfold updated in H3p. rewrite lookup_insert_eq in H3p. set (P := snapshot_prefix g) in *. set (Q := P ++ attempt ++ kSep) in *.
  pose proof (from_chars_to_string g [] Hg I) as Efc. rewrite app_nil_r in Efc.
  intros r a4 d4. unfold dynamo_read. destruct (call (ddb_get kPointerSk) d3) as [q d4'] eqn:Er. apply get_spec in Er as (T4 & _ & Hq). destruct q as [i|]; [|intros [= <- _ _]; by left].
  specialize (Hq _ eq_refl). rewrite H3p in Hq. subst i. cbn [it_generation it_version it_snapshot_attempt pointed]. rewrite Efc, (bool_decide_eq_false_2 (attempt = [])) by done. intros [= <- <- <-]. right. split; [done|].
  assert (holds_pieces writer Q b (dy_table d3)) as Hnew.
  { assert (forall k, starts_with k Q = true -> dy_table d3 !! k = dy_table d1 !! k) as Hsame.
    { intros k Hk. rewrite H3k, T2 by done. unfold updated. rewrite lookup_insert_ne; [done|]. intros <-. unfold Q, P, snapshot_prefix in Hk. rewrite <- app_assoc, pointer_apart in Hk. done. }
    destruct Hold as [O1 O2]. split.
    - intros j Hj. rewrite Hsame; [by apply O1|]. apply starts_with_spec. by eexists.
    - intros k i Hk Hs. rewrite Hsame in Hk by done. by eapply O2. }
  pose proof (attempt_complete P attempt b (dy_table d3) Hne Hno Hn Hnew) as Hcomplete. rewrite <- T4 in Hcomplete, Hnew.
  intros q d5. unfold dynamo_get_snapshot, query_prefix. fold P. destruct (call (ddb_query P) d4') as [ql d6] eqn:Eq. apply query_spec in Eq as (T6 & _ & Hl). destruct ql as [items|]; [|intros [= <- _]; by right].
  rewrite <- (Hl _ eq_refl) in Hcomplete. destruct items as [|x items]; [by apply elem_of_nil in Hcomplete|]. unfold note_pointer. rewrite bool_decide_eq_false_2 by done. cbn [pointer_attempts]. rewrite lookup_insert_eq.
  rewrite bool_decide_eq_true_2 by done. fold Q. intros [_ [-> | ->]]%get_chunked_spec; [by right|left]. rewrite T6. by apply (assemble_pieces writer).
Qed.
End Writes.

(** ** The catalog on DynamoDB, run

    A table whose calls are answered as a script says keeps the laws of [DynamoDB]. Over it: an edit that is acknowledged
    and cannot be read back, and writes that go well although answers are lost. *)


(** ** A table in memory *)

(** What happens to one call: it is answered; refused as invalid; fails before it is applied, or after; is applied in
    part, which only a batch can be ([true] marks what is left). *)
Inductive Reply : Type := Answered | Invalid | Dropped | Unanswered | Throttled (kept : list bool).

Record MemTable := { mt_table : Table; mt_replies : list Reply }.

Definition next_reply (d : MemTable) : Reply * MemTable :=
  match mt_replies d with [] => (Answered, d) | r :: rest => (r, {| mt_table := mt_table d; mt_replies := rest |}) end.

Definition mt_with (d : MemTable) (t : Table) : MemTable := {| mt_table := t; mt_replies := mt_replies d |}.

Definition mt_write (holds : Table -> bool) (write : Table -> Table) (d : MemTable) : option DynamoError * MemTable :=
  let '(r, d) := next_reply d in
  let applied := if holds (mt_table d) then mt_with d (write (mt_table d)) else d in
  match r with
  | Answered => (if holds (mt_table d) then None else Some ConditionFailed, applied)
  | Invalid => (Some ValidationFailed, d)
  | Unanswered => (Some OtherFailure, applied)
  | Dropped | Throttled _ => (Some OtherFailure, d)
  end.

Definition mt_read {A} (answer : Table -> A) (d : MemTable) : option A * MemTable :=
  let '(r, d) := next_reply d in (match r with Answered => Some (answer (mt_table d)) | _ => None end, d).

Definition mt_delete (keys : list bytes) (d : MemTable) : bool * MemTable :=
  let '(r, d) := next_reply d in
  let drop ks := mt_with d (foldr delete (mt_table d) ks) in
  match r with
  | Answered => (true, drop keys)
  | Unanswered => (false, drop keys)
  | Throttled kept =>
      let left := map fst (List.filter (fun p => p.2) (zip keys kept)) in
      (bool_decide (left = []), drop (List.filter (fun k => negb (bool_decide (k ∈ left))) keys))
  | Invalid | Dropped => (false, d)
  end.

#[export] Instance mem_dynamo : DynamoDB MemTable := {|
  ddb_put_new k i := mt_write (fun t => bool_decide (t !! k = None)) (fun t => <[k := i]> t);
  ddb_update_if k v f := mt_write (fun t => bool_decide ((t !! k ≫= it_version) = v)) (updated k f);
  ddb_get k := mt_read (fun t => t !! k);
  ddb_query p := mt_read (items_under p);
  ddb_batch_delete := mt_delete
|}.

Lemma next_reply_table d r d' : next_reply d = (r, d') -> mt_table d' = mt_table d.
Proof. unfold next_reply. destruct (mt_replies d); by intros [= <- <-]. Qed.

Lemma mt_write_spec holds write d e d' : mt_write holds write d = (e, d') ->
  (mt_table d' = mt_table d /\ e <> None \/ holds (mt_table d) = true /\ mt_table d' = write (mt_table d) /\ e <> Some ConditionFailed) /\
  (e = Some ConditionFailed -> holds (mt_table d) = false).
Proof.
  unfold mt_write. destruct (next_reply d) as [r d1] eqn:E. apply next_reply_table in E as Et. rewrite Et.
  destruct r, (holds (mt_table d)) eqn:Eh; intros [= <- <-]; cbn [mt_table mt_with]; rewrite ?Et; (split; [|done]); first [left; split; [congruence|done]|right; done].
Qed.

Lemma mt_read_spec {A} (answer : Table -> A) d r d' : mt_read answer d = (r, d') -> mt_table d' = mt_table d /\ forall a, r = Some a -> a = answer (mt_table d).
Proof.
  unfold mt_read. destruct (next_reply d) as [q d1] eqn:E. apply next_reply_table in E as Et. intros [= <- <-]. split; [done|]. destruct q; intros a [= <-]. by rewrite Et.
Qed.

Lemma foldr_delete_lookup (t : Table) ks k : foldr delete t ks !! k = if bool_decide (k ∈ ks) then None else t !! k.
Proof.
  induction ks as [|x ks IH]; [done|]. simpl. destruct (decide (k = x)) as [-> |Hne]; [rewrite lookup_delete_eq, bool_decide_eq_true_2; [done|by left]|].
  rewrite lookup_delete_ne, IH by done. case_bool_decide; case_bool_decide; set_solver.
Qed.

#[export] Instance mem_dynamo_laws : DynamoLaws mem_dynamo mt_table.
Proof.
  split.
  - intros k i d e d' H. cbn [ddb_put_new mem_dynamo] in H. apply mt_write_spec in H as [H1 H2]. split; [destruct H1 as [|(H & ? & ?)]; [by left|right; by apply bool_decide_eq_true in H]|].
    intros E. by apply H2, bool_decide_eq_false in E.
  - intros k v f d e d' H. cbn [ddb_update_if mem_dynamo] in H. apply mt_write_spec in H as [H1 H2]. split; [destruct H1 as [|(H & ? & ?)]; [by left|right; by apply bool_decide_eq_true in H]|].
    intros E. by apply H2, bool_decide_eq_false in E.
  - intros k d r d' H. by apply mt_read_spec in H.
  - intros p d r d' H. by apply mt_read_spec in H.
  - intros keys d ok d'. cbn [ddb_batch_delete mem_dynamo]. unfold mt_delete. destruct (next_reply d) as [r d1] eqn:E. apply next_reply_table in E as Et.
    assert (forall ks, (forall k, k ∈ ks -> k ∈ keys) -> forall k, mt_table (mt_with d1 (foldr delete (mt_table d1) ks)) !! k = mt_table d !! k \/ k ∈ keys /\ mt_table (mt_with d1 (foldr delete (mt_table d1) ks)) !! k = None) as Hd.
    { intros ks Hks k. cbn [mt_table mt_with]. rewrite foldr_delete_lookup, Et. case_bool_decide; [right; auto|by left]. }
    destruct r; intros [= <- <-]; try (split; [intros k; left; by rewrite Et|done]).
    + split; [by apply Hd|]. intros _ k Hk. cbn [mt_table mt_with]. by rewrite foldr_delete_lookup, bool_decide_eq_true_2.
    + split; [by apply Hd|done].
    + split; [apply Hd; intros k [Hk _]%elem_of_filter_bool; done|]. intros Hleft%bool_decide_eq_true k Hk. cbn [mt_table mt_with]. rewrite foldr_delete_lookup, bool_decide_eq_true_2; [done|].
      apply elem_of_filter_bool. split; [done|]. rewrite Hleft. by rewrite bool_decide_eq_false_2 by (apply not_elem_of_nil).
Qed.

(** ** Residue behind the first piece *)

(** Ids that differ, without a separator. *)
Definition some_ids (n : nat) : bytes := replicate (S n) x61.

(** Three pieces, and one. *)
Definition long_edit : bytes := replicate (Z.to_nat (2 * kChunkPayloadBytes + 1)) x61.
Definition short_edit : bytes := [x62].

Definition empty_dynamo (replies : list Reply) : Dynamo MemTable := {| dy_db := {| mt_table := ∅; mt_replies := replies |}; dy_ids := 0 |}.

(** The third piece is lost twice, which a read confirms. The retry finds its own residue and clears it; the batch is throttled and
    leaves the second piece. The next edit at this address is a short one. *)
Definition residue_replies : list Reply :=
  [Answered; Answered; Dropped; Dropped; Answered] ++ [Answered; Answered; Answered; Answered; Throttled [false; true]].

Definition residue1 := dynamo_put_edit some_ids [x77] 1 1 long_edit (empty_dynamo residue_replies).
Definition residue2 := dynamo_put_edit some_ids [x77] 1 1 long_edit residue1.2.
Definition residue3 := dynamo_put_edit some_ids [x77] 1 1 short_edit residue2.2.

(** an edit can be acknowledged and be unreadable. A throttled deletion of an unfinished edit leaves pieces behind its
    first; the next edit at the address has fewer pieces, meets none of them, is answered [Ok] and reads back [Corrupt]. *)
Theorem acknowledged_edit_unreadable :
  residue1.1 = Io /\ residue2.1 = Io /\ residue3.1 = Ok /\ (dynamo_get_edit 1 1 residue3.2).1 = Unexpected Corrupt.
Proof. vm_compute. done. Qed.

(** ** Answers are lost, and nothing else *)

Lemma some_ids_inj m n : some_ids m = some_ids n -> m = n.
Proof. unfold some_ids. intros H%(f_equal length). rewrite !length_replicate in H. lia. Qed.

Lemma some_ids_plain n : some_ids n <> [] /\ kHash ∉ some_ids n.
Proof. unfold some_ids. split; [done|]. intros H%elem_of_replicate. by destruct H. Qed.

(** The piece lands, the answer is lost, the repetition meets it, and a read recognises it. *)
Definition lossy := empty_dynamo [Unanswered; Answered; Answered].

Lemma empty_fresh replies : ids_fresh mt_table some_ids (empty_dynamo replies) /\ (forall g, attempts_fresh mt_table some_ids g (empty_dynamo replies)) /\ pointer_fresh mt_table some_ids (empty_dynamo replies).
Proof. split_and!; intros ?; intros; unfold dy_table in *; cbn [mt_table dy_db empty_dynamo] in *; by rewrite ?lookup_empty in *. Qed.

Lemma dynamo_edit_reads_back_witness :
  (dynamo_put_edit some_ids [x77] 1 1 short_edit lossy).1 = Ok /\ (dynamo_get_edit 1 1 (dynamo_put_edit some_ids [x77] 1 1 short_edit lossy).2).1 = Value short_edit.
Proof.
  assert ((dynamo_put_edit some_ids [x77] 1 1 short_edit lossy).1 = Ok) as H by (vm_compute; reflexivity). split; [exact H|].
  assert ((dynamo_get_edit 1 1 (dynamo_put_edit some_ids [x77] 1 1 short_edit lossy).2).1 <> Unexpected Io) as Hio by (vm_compute; discriminate).
  destruct (dynamo_put_edit some_ids [x77] 1 1 short_edit lossy) as [s d'] eqn:E. cbn [fst snd] in *.
  destruct (dynamo_edit_reads_back mt_table mem_dynamo_laws some_ids some_ids_inj [x77] 1 1 short_edit lossy s d' (proj1 (empty_fresh _)) ltac:(vm_compute; lia) E) as (_ & Hread & _).
  destruct (dynamo_get_edit 1 1 d') as [r d2] eqn:Eg. cbn [fst] in *. destruct (Hread H (fun _ k _ => lookup_empty k) d' r d2 eq_refl Eg) as [Hr|Hr]; [exact Hr|by apply Hio in Hr].
Defined.

(** The same for the snapshot and for the swap, whose answer is lost twice. *)
Definition lossy_commit := empty_dynamo [Answered; Unanswered; Answered; Answered; Unanswered; Dropped; Answered].
Definition no_attempts : Attempts := {| written_attempts := ∅; pointer_attempts := ∅ |}.
Definition lossy_put := dynamo_put_snapshot some_ids [x77] 1 short_edit no_attempts lossy_commit.
Definition lossy_swap := dynamo_cas some_ids None 1 lossy_put.1.2 lossy_put.2.
Definition lossy_read := dynamo_read no_attempts lossy_swap.2.

Lemma lossy_by_hand : lossy_put.1.1 = Ok /\ lossy_swap.1.1 = Value (Some {| generation := 1; token := [x31] |}) /\ lossy_read.1.1 <> Unexpected Io /\
  (dynamo_get_snapshot 1 lossy_read.1.2 lossy_read.2).1 <> Unexpected Io.
Proof. vm_compute. split_and!; [done|done|discriminate|discriminate]. Qed.

Lemma split_triple {A B C} (x : A * B * C) a : x.1.1 = a -> x = (a, x.1.2, x.2).
Proof. destruct x as [[? ?] ?]. by intros <-. Qed.

Lemma dynamo_snapshot_commits_witness : (dynamo_get_snapshot 1 lossy_read.1.2 lossy_read.2).1 = Value short_edit.
Proof.
  destruct lossy_by_hand as (H1 & H2 & H3 & H4).
  destruct (dynamo_snapshot_commits mt_table mem_dynamo_laws some_ids some_ids_inj [x77] some_ids_plain 1 short_edit no_attempts lossy_commit _ _ None _ _ _ (proj1 (empty_fresh _)) (proj1 (proj2 (empty_fresh _)) 1)
              (proj2 (proj2 (empty_fresh _))) ltac:(unfold is_u64; lia) ltac:(vm_compute; lia) (split_triple lossy_put Ok H1) (split_triple lossy_swap _ H2)) as [_ H].
  destruct (H no_attempts lossy_swap.2 eq_refl (fun _ _ => eq_refl) _ _ _ (split_triple lossy_read _ eq_refl)) as [Hr|[_ Hget]]; [by apply H3 in Hr|].
  destruct (Hget _ _ (surjective_pairing _)) as [Hq|Hq]; [exact Hq|by apply H4 in Hq].
Defined.
