(* ===== verification/Blob.v ===== *)
(** * Blob stores

    [include/elysiumkv/blob_store.hpp]: the interface of a store of immutable named objects, and the contract
    its header gives as laws. What a store holds is a function from names to bytes; failures may leave a partial
    object under the name they were asked for, and nothing else. *)

From S2P Require Import Prelude Slice.

(** ** The interface *)

(** [kReadToEnd] reads to the end of the object. *)
Class BlobStore (S : Type) := {
  bs_put : bytes -> bytes -> S -> Status * S;
  bs_get : bytes -> Z -> option Z -> S -> Result bytes * S;
  bs_remove : bytes -> S -> Status * S;
  bs_remove_many : list bytes -> S -> Status * S;
  bs_list : bytes -> S -> Result (list bytes) * S
}.

(** The bytes a read from [offset] answers: truncated at the end, empty past it. *)
Definition read_slice (c : bytes) (offset : Z) (len : option Z) : bytes :=
  match len with
  | None => drop (Z.to_nat offset) c
  | Some n => take (Z.to_nat n) (drop (Z.to_nat offset) c)
  end.

(** [is_valid_object_name] ([src/blob/object_name.hpp]). *)
Definition is_valid_object_name (name : bytes) : bool :=
  match name with
  | [] => false
  | c :: _ =>
      (length name <=? 255)%nat && negb (bool_decide (c = x2e)) &&
      negb (bool_decide (x2f ∈ name)) && negb (bool_decide (x5c ∈ name)) && negb (bool_decide (x00 ∈ name))
  end.

(** A request for a byte or more that the interface can carry: offsets and lengths are 64 bits wide, and so is
    where they end. *)
Definition readable (offset : Z) (len : option Z) : Prop :=
  0 <= offset /\ match len with Some n => 0 < n /\ offset + n < 2 ^ 64 | None => offset < 2 ^ 64 end.

(** [remove_many] where a store has none of its own: every name is attempted, the first failure is reported. *)
Definition remove_step {S} (remove : bytes -> S -> Status * S) (acc : Status * S) (name : bytes) : Status * S :=
  let '(first_failure, s) := acc in
  let '(status, s) := remove name s in
  (if bool_decide (status <> Ok) && bool_decide (first_failure = Ok) then status else first_failure, s).

Definition remove_many {S} (remove : bytes -> S -> Status * S) (names : list bytes) (s : S) : Status * S := fold_left (remove_step remove) names (Ok, s).

(** ** The contract *)

Class BlobStoreLaws {S} (ops : BlobStore S) (ok : S -> Prop) (objects : S -> bytes -> option bytes) : Prop := {
  (* names are flat *)
  law_named : forall n s c, ok s -> objects s n = Some c -> is_valid_object_name n = true;
  (* a put never overwrites; after [Unusable] the name is taken *)
  law_put_ok : forall n b s s', ok s -> bs_put n b s = (Ok, s') -> objects s n = None /\ objects s' n = Some b;
  law_put_taken : forall n b s s', ok s -> bs_put n b s = (Unusable, s') -> objects s' n <> None;
  law_put_frame : forall n b s r s' m, ok s -> bs_put n b s = (r, s') -> m <> n \/ objects s m <> None -> objects s' m = objects s m;
  law_put_keeps : forall n b s r s', ok s -> bs_put n b s = (r, s') -> ok s';
  (* a read answers the object; [NotFound] is evidence that there is none *)
  law_get_ok : forall n off len s out s', ok s -> readable off len -> bs_get n off len s = (Value out, s') -> exists c, objects s n = Some c /\ out = read_slice c off len;
  law_get_missing : forall n off len s s', ok s -> readable off len -> bs_get n off len s = (Unexpected NotFound, s') -> objects s n = None;
  law_get_frame : forall n off len s r s', ok s -> readable off len -> bs_get n off len s = (r, s') -> ok s' /\ forall m, objects s' m = objects s m;
  (* removing is idempotent, touches the names it is given, and may have happened when it fails *)
  law_remove_ok : forall n s s', ok s -> bs_remove n s = (Ok, s') -> objects s' n = None;
  law_remove_frame : forall n s r s' m, ok s -> bs_remove n s = (r, s') -> objects s' m = objects s m \/ m = n /\ objects s' m = None;
  law_remove_keeps : forall n s r s', ok s -> bs_remove n s = (r, s') -> ok s';
  law_remove_many_ok : forall ns s s', ok s -> bs_remove_many ns s = (Ok, s') -> forall n, n ∈ ns -> objects s' n = None;
  law_remove_many_frame : forall ns s r s' m, ok s -> bs_remove_many ns s = (r, s') -> objects s' m = objects s m \/ m ∈ ns /\ objects s' m = None;
  law_remove_many_keeps : forall ns s r s', ok s -> bs_remove_many ns s = (r, s') -> ok s';
  (* a listing is complete *)
  law_list_ok : forall p s ns s', ok s -> bs_list p s = (Value ns, s') -> forall m, m ∈ ns <-> objects s m <> None /\ starts_with m p = true;
  law_list_frame : forall p s r s', ok s -> bs_list p s = (r, s') -> ok s' /\ forall m, objects s' m = objects s m
}.

(** A store that answers [Unusable] only for a name that was taken before the call. *)
Class BlobStoreRefuses {S} (ops : BlobStore S) (ok : S -> Prop) (objects : S -> bytes -> option bytes) : Prop :=
  law_put_refused : forall n b s s', ok s -> bs_put n b s = (Unusable, s') -> objects s n <> None.

(** ** The default of [remove_many] *)

Section RemoveMany.
Context {S : Type} (remove : bytes -> S -> Status * S) (ok : S -> Prop) (objects : S -> bytes -> option bytes).
Context (Hok : forall n s s', ok s -> remove n s = (Ok, s') -> objects s' n = None).
Context (Hframe : forall n s r s' m, ok s -> remove n s = (r, s') -> objects s' m = objects s m \/ m = n /\ objects s' m = None).
Context (Hkeeps : forall n s r s', ok s -> remove n s = (r, s') -> ok s').

Lemma remove_many_from names : forall first s r s', ok s -> fold_left (remove_step remove) names (first, s) = (r, s') -> ok s' /\ (first <> Ok -> r <> Ok) /\
  (r = Ok -> forall n, n ∈ names -> objects s' n = None) /\ (forall m, objects s' m = objects s m \/ m ∈ names /\ objects s' m = None).
Proof using Hok Hframe Hkeeps.
  induction names as [|n names IH]; intros first s r s' Hs; cbn [fold_left]; [intros [= <- <-]; split_and!; [done|done|set_solver|by left]|].
  unfold remove_step at 2. destruct (remove n s) as [status s1] eqn:E. intros H. pose proof (Hkeeps n s status s1 Hs E) as Hs1. destruct (IH _ _ _ _ Hs1 H) as (Hs' & Hf & Hgone & Hrest).
  assert (forall m, objects s' m = objects s m \/ m ∈ n :: names /\ objects s' m = None) as Hall.
  { intros m. destruct (Hrest m) as [-> |[? ?]]; [|right; split; [by right|done]]. destruct (Hframe n s status s1 m Hs E) as [-> |[-> ?]]; [by left|right; split; [by left|done]]. }
  split_and!; [done| | |done].
  - intros Hfirst. apply Hf. destruct (bool_decide (status <> Ok)), (bool_decide (first = Ok)) eqn:Eb; simpl; try done. by apply bool_decide_eq_true in Eb.
  - intros -> m [-> |Hm]%elem_of_cons; [|by apply Hgone]. destruct (Hrest n) as [-> |[_ ?]]; [|done]. assert (status = Ok) as Es; [|subst status; exact (Hok n s s1 Hs E)].
    destruct (decide (status = Ok)) as [|Hst]; [done|exfalso]. apply Hf; [|done]. destruct (decide (first = Ok)) as [-> |Hfirst].
    + rewrite !bool_decide_eq_true_2 by done. done.
    + rewrite (bool_decide_eq_false_2 (first = Ok)) by done. by rewrite andb_false_r.
Qed.

(** Every name is gone when the batch answers [Ok], no other object is touched, and nothing comes back. *)
Lemma remove_many_spec names s r s' : ok s -> remove_many remove names s = (r, s') -> ok s' /\
  (r = Ok -> forall n, n ∈ names -> objects s' n = None) /\ (forall m, objects s' m = objects s m \/ m ∈ names /\ objects s' m = None).
Proof using Hok Hframe Hkeeps. intros Hs H. destruct (remove_many_from names Ok s r s' Hs H) as (H1 & _ & H2 & H3). done. Qed.
End RemoveMany.
