(* ===== verification/DiskBlob.v ===== *)
(** * The blob store on disk

    [src/blob/disk_blob_store.cpp] with its cache of open files ([open_file_cache.hpp]) and
    [object_name.hpp]: an object is written to a temporary file that is linked into place, so that a
    taken name is never overwritten; descriptors are kept open for later reads. Over the file system of
    [FileSystem], whose root is the store's directory. *)

From S2P Require Import Prelude Slice Names Blob FileSystem DiskCatalog.

(** ** Definitions *)

(** *** Open files *)

(** A descriptor is what it reads: the object it was opened on, which nothing rewrites. *)
Abbreviation Shard := (list (bytes * bytes)).

Definition kNumShards : nat := 8.

Definition per_shard_capacity (capacity : nat) : nat :=
  (capacity / kNumShards + (if capacity mod kNumShards =? 0 then 0 else 1))%nat.

Definition shard_find (name : bytes) (s : Shard) : option bytes :=
  snd <$> List.find (fun e => bool_decide (e.1 = name)) s.

Definition shard_erase (name : bytes) (s : Shard) : Shard := List.filter (fun e => negb (bool_decide (e.1 = name))) s.

(** Front is most recently used; the back goes when the shard is over its share. *)
Definition shard_insert (capacity : nat) (name : bytes) (file : bytes) (s : Shard) : Shard :=
  match shard_find name s with
  | Some _ => (name, file) :: shard_erase name s
  | None => take (per_shard_capacity capacity) ((name, file) :: s)
  end.

Section Cache.
Context (capacity : nat) (hash : bytes -> nat).

Definition shard_of (name : bytes) : nat := (hash name mod kNumShards)%nat.

Definition cache_lookup (name : bytes) (c : list Shard) : option bytes * list Shard :=
  if (capacity =? 0)%nat then (None, c)
  else
    match shard_find name (default [] (c !! shard_of name)) with
    | None => (None, c)
    | Some file => (Some file, alter (fun s => (name, file) :: shard_erase name s) (shard_of name) c)
    end.

Definition cache_insert (name file : bytes) (c : list Shard) : list Shard :=
  if (capacity =? 0)%nat then c else alter (shard_insert capacity name file) (shard_of name) c.

Definition cache_erase (name : bytes) (c : list Shard) : list Shard :=
  if (capacity =? 0)%nat then c else alter (shard_erase name) (shard_of name) c.

Definition cache_clear (c : list Shard) : list Shard := map (fun _ => []) c.
End Cache.

Definition no_files : list Shard := replicate kNumShards [].

(** *** Calls the catalog does not make *)

(** [open(O_RDONLY)]: the content, or why not. A short call stands for a process out of descriptors. *)
Inductive OpenError : Type := NoEntry | OutOfFiles | OtherError.

Definition fs_open_content (p : path) (d : Disk) : (OpenError + bytes) * Disk :=
  match next_read_fault d with
  | (Failing, d) => (inl OtherError, d)
  | (Short _, d) => (inl OutOfFiles, d)
  | (_, d) => (match dk_visible d !! p with Some (File c _) => inr c | Some Dir => inl OtherError | None => inl NoEntry end, d)
  end.

Definition fs_fstat (d : Disk) : bool * Disk :=
  match next_read_fault d with (Failing, d) => (false, d) | (_, d) => (true, d) end.

(** [pread] on a descriptor. *)
Definition fs_pread (content : bytes) (offset size : nat) (d : Disk) : (Errno + bytes) * Disk :=
  match next_read_fault d with
  | (Failing, d) => (inl EIO, d)
  | (Interrupted, d) => (inl EINTR, d)
  | (Short n, d) => (inr (take ((1 `max` n) `min` size)%nat (drop offset content)), d)
  | (NoFault, d) => (inr (take size (drop offset content)), d)
  end.

(** [link]: the new name shares the file. *)
Definition fs_link (from to : path) (d : Disk) : option Errno * Disk :=
  match next_fault d with
  | (Failing, d) => (Some EIO, d)
  | (_, d) =>
      match dk_visible d !! to, dk_visible d !! from with
      | Some _, _ => (Some EEXIST, d)
      | None, None => (Some ENOENT, d)
      | None, Some n => (None, with_visible d (<[to := n]> (dk_visible d)))
      end
  end.

(** [unlink], telling a name that is not there from a failure. *)
Definition fs_unlink (p : path) (d : Disk) : option Errno * Disk :=
  match next_fault d with
  | (Failing, d) => (Some EIO, d)
  | (_, d) => match dk_visible d !! p with Some _ => (None, with_visible d (delete p (dk_visible d))) | None => (Some ENOENT, d) end
  end.

(** *** The store *)

Record DiskBlobStore := { bd_disk : Disk; bd_temp_counter : Z; bd_files : list Shard }.

Definition with_disk (s : DiskBlobStore) (d : Disk) : DiskBlobStore := {| bd_disk := d; bd_temp_counter := bd_temp_counter s; bd_files := bd_files s |}.
Definition with_files (s : DiskBlobStore) (c : list Shard) : DiskBlobStore := {| bd_disk := bd_disk s; bd_temp_counter := bd_temp_counter s; bd_files := c |}.

Definition root_is_directory (d : Disk) : bool := bool_decide (dk_visible d !! [] = Some Dir).

(** The bytes of [.tmp.]. *)
Definition kTempPrefix : bytes := [x2e; x74; x6d; x70; x2e].

Section Store.
Context (capacity : nat) (hash : bytes -> nat) (pid : Z) (sync_writes : bool).

Definition temp_name (counter : Z) (name : bytes) : bytes :=
  kTempPrefix ++ to_string pid ++ [x2e] ++ to_string counter ++ [x2e] ++ name.

(** [open_for_read]: the content to read, or the failure. *)
Definition open_for_read (name : bytes) (s : DiskBlobStore) : Result bytes * DiskBlobStore :=
  let '(held, files) := cache_lookup capacity hash name (bd_files s) in
  let s := with_files s files in
  match held with
  | Some content => (Value content, s)
  | None =>
      let '(r, d) := fs_open_content [name] (bd_disk s) in
      let s := with_disk s d in
      let '(r, s) :=
        match r with
        | inl OutOfFiles =>
            let s := with_files s (cache_clear (bd_files s)) in
            let '(r, d) := fs_open_content [name] (bd_disk s) in (r, with_disk s d)
        | r => (r, s)
        end in
      match r with
      | inl NoEntry => (Unexpected (if root_is_directory (bd_disk s) then NotFound else Io), s)
      | inl _ => (Unexpected Io, s)
      | inr content =>
          let '(stated, d) := fs_fstat (bd_disk s) in
          let s := with_disk s d in
          if stated then (Value content, with_files s (cache_insert capacity hash name content (bd_files s))) else (Unexpected Io, s)
      end
  end.

(** The loop over [pread]. *)
Fixpoint pread_loop (fuel : nat) (content : bytes) (offset want : nat) (out : bytes) (d : Disk) : Result bytes * Disk :=
  if (want <=? length out)%nat then (Value out, d)
  else
    match fuel with
    | O => (Unexpected Io, d)
    | S fuel =>
        match fs_pread content (offset + length out) (want - length out) d with
        | (inl EINTR, d) => pread_loop fuel content offset want out d
        | (inl _, d) => (Unexpected Io, d)
        | (inr [], d) => (Value out, d)
        | (inr chunk, d) => pread_loop fuel content offset want (out ++ chunk) d
        end
    end.

(** [do_get]; the fuel is one round per byte wanted and per fault left. *)
Definition do_get (name : bytes) (offset : Z) (len : option Z) (s : DiskBlobStore) : Result bytes * DiskBlobStore :=
  if negb (is_valid_object_name name) then (Unexpected Config, s)
  else
    match open_for_read name s with
    | (Unexpected e, s) => (Unexpected e, s)
    | (Value content, s) =>
        let size := Z.of_nat (length content) in
        if size <=? offset then (Value [], s)
        else
          let available := size - offset in
          let want := Z.to_nat (match len with Some n => if available <? n then available else n | None => available end) in
          let '(r, d) := pread_loop (S (want + length (dk_read_faults (bd_disk s)))) content (Z.to_nat offset) want [] (bd_disk s) in
          (r, with_disk s d)
    end.

Definition do_put (name b : bytes) (s : DiskBlobStore) : Status * DiskBlobStore :=
  if negb (is_valid_object_name name) then (Config, s)
  else if negb (root_is_directory (bd_disk s)) then (Io, s)
  else
    let temp := [temp_name (bd_temp_counter s) name] in
    let s := {| bd_disk := bd_disk s; bd_temp_counter := bd_temp_counter s + 1; bd_files := bd_files s |} in
    match fs_open_new temp (bd_disk s) with
    | (Some _, d) => (Io, with_disk s d)
    | (None, d) =>
        let abandon d := let '(_, d) := fs_remove temp d in let '(_, d) := fs_close d in (Io, with_disk s d) in
        match write_loop (write_fuel b d) temp b d with
        | (false, d) => abandon d
        | (true, d) =>
            let '(synced, d) := if sync_writes then fs_fsync temp d else (true, d) in
            if negb synced then abandon d
            else
              let '(_, d) := fs_close d in
              match fs_link temp [name] d with
              | (Some e, d) => let '(_, d) := fs_remove temp d in (match e with EEXIST => Unusable | _ => Io end, with_disk s d)
              | (None, d) =>
                  let '(_, d) := fs_remove temp d in
                  if sync_writes then let '(ok, d) := fs_sync_directory [] d in (if ok then Ok else Io, with_disk s d)
                  else (Ok, with_disk s d)
              end
        end
    end.

Definition do_remove (name : bytes) (s : DiskBlobStore) : Status * DiskBlobStore :=
  if negb (is_valid_object_name name) then (Config, s)
  else
    let s := with_files s (cache_erase capacity hash name (bd_files s)) in
    match fs_unlink [name] (bd_disk s) with
    | (None, d) => (Ok, with_disk s d)
    | (Some ENOENT, d) => (if root_is_directory d then Ok else Io, with_disk s d)
    | (Some _, d) => (Io, with_disk s d)
    end.

Definition listed (prefix : bytes) (name : bytes) : bool :=
  negb (starts_with name kTempPrefix) && is_valid_object_name name && starts_with name prefix.

Definition do_list (prefix : bytes) (s : DiskBlobStore) : Result (list bytes) * DiskBlobStore :=
  match next_read_fault (bd_disk s) with
  | (Failing, d) => (Unexpected Io, with_disk s d)
  | (_, d) =>
      (if root_is_directory d then Value (merge_sort key_le (List.filter (listed prefix) (map fst (entries_of [] (dk_visible d))))) else Unexpected Io, with_disk s d)
  end.

#[export] Instance disk_blob_store : BlobStore DiskBlobStore :=
  {| bs_put := do_put; bs_get := do_get; bs_remove := do_remove; bs_remove_many := remove_many do_remove; bs_list := do_list |}.
End Store.

(** ** What the calls do to the disk *)

Lemma next_read_fault_same d f d' : next_read_fault d = (f, d') ->
  dk_visible d' = dk_visible d /\ dk_durable d' = dk_durable d /\ (length (dk_read_faults d') <= length (dk_read_faults d))%nat /\
  (f = NoFault \/ length (dk_read_faults d) = S (length (dk_read_faults d'))).
Proof. unfold next_read_fault. destruct (dk_read_faults d) eqn:E; intros [= <- <-]; simpl; [rewrite E; auto|split_and!; auto]. Qed.

Lemma valid_not_temp name counter n pid : is_valid_object_name name = true -> temp_name pid counter n <> name.
Proof. intros Hv <-. unfold temp_name in Hv. simpl in Hv. by rewrite andb_false_r in Hv. Qed.

Lemma remove_frame p d ok d' : fs_remove p d = (ok, d') -> dk_durable d' = dk_durable d /\ forall q, q <> p -> dk_visible d' !! q = dk_visible d !! q.
Proof.
  unfold fs_remove. destruct (next_fault d) as [f d1] eqn:E. apply next_fault_same in E as (Ev & Ed & _). destruct f; intros [= <- <-]; simpl; rewrite ?Ev, ?Ed; (split; [done|]); intros q Hq;
    rewrite ?lookup_delete_ne by done; done.
Qed.

Lemma close_frame d ok d' : fs_close d = (ok, d') -> dk_visible d' = dk_visible d /\ dk_durable d' = dk_durable d.
Proof. unfold fs_close. destruct (next_fault d) as [f d1] eqn:E. apply next_fault_same in E as (Ev & Ed & _). by destruct f; intros [= <- <-]. Qed.

Lemma fsync_frame p d ok d' c sy : dk_visible d !! p = Some (File c sy) -> fs_fsync p d = (ok, d') ->
  dk_durable d' = dk_durable d /\ (exists sy', dk_visible d' !! p = Some (File c sy') /\ (ok = true -> sy' = true)) /\ forall q, q <> p -> dk_visible d' !! q = dk_visible d !! q.
Proof.
  intros Hp. unfold fs_fsync. destruct (next_fault d) as [f d1] eqn:E. apply next_fault_same in E as (Ev & Ed & _). rewrite Ev. rewrite Hp.
  destruct f; intros [= <- <-]; simpl; rewrite ?Ev, ?Ed; (split; [done|]); (split; [first [exists sy; by rewrite Hp|exists true; by rewrite lookup_insert_eq]|]); intros q Hq; rewrite ?lookup_insert_ne by done; done.
Qed.

Lemma open_new_frame p d r d' : fs_open_new p d = (r, d') -> dk_durable d' = dk_durable d /\ (forall q, q <> p -> dk_visible d' !! q = dk_visible d !! q) /\
  match r with None => dk_visible d' !! p = Some (File [] false) | Some _ => dk_visible d' = dk_visible d end.
Proof.
  unfold fs_open_new. destruct (next_fault d) as [f d1] eqn:E. apply next_fault_same in E as (Ev & Ed & _).
  assert (forall r0 d0, (match dk_visible d1 !! p with
    | Some _ => (Some EEXIST, d1)
    | None => if bool_decide (dk_visible d1 !! parent_path p = Some Dir) then (None, with_visible d1 (<[p := File [] false]> (dk_visible d1))) else (Some ENOENT, d1)
    end) = (r0, d0) -> dk_durable d0 = dk_durable d /\ (forall q, q <> p -> dk_visible d0 !! q = dk_visible d !! q) /\
    match r0 with None => dk_visible d0 !! p = Some (File [] false) | Some _ => dk_visible d0 = dk_visible d end) as H.
  { intros r0 d0. destruct (dk_visible d1 !! p); [intros [= <- <-]; rewrite Ev; done|]. case_bool_decide; intros [= <- <-]; simpl; [|rewrite Ev; done].
    rewrite Ev, lookup_insert_eq. split; [done|]. split; [|done]. intros q Hq. by rewrite lookup_insert_ne. }
  destruct f; [by apply H|intros [= <- <-]; by rewrite Ev|by apply H|by apply H].
Qed.

Lemma link_frame p q d r d' : fs_link p q d = (r, d') -> dk_durable d' = dk_durable d /\ (forall x, x <> q -> dk_visible d' !! x = dk_visible d !! x) /\
  match r with
  | None => dk_visible d !! q = None /\ dk_visible d' !! q = dk_visible d !! p
  | Some e => dk_visible d' = dk_visible d /\ (e = EEXIST -> dk_visible d !! q <> None)
  end.
Proof.
  unfold fs_link. destruct (next_fault d) as [f d1] eqn:E. apply next_fault_same in E as (Ev & Ed & _). rewrite Ev.
  assert (forall r0 d0, (match dk_visible d !! q, dk_visible d !! p with
    | Some _, _ => (Some EEXIST, d1) | None, None => (Some ENOENT, d1) | None, Some n => (None, with_visible d1 (<[q := n]> (dk_visible d))) end) = (r0, d0) ->
    dk_durable d0 = dk_durable d /\ (forall x, x <> q -> dk_visible d0 !! x = dk_visible d !! x) /\
    match r0 with None => dk_visible d !! q = None /\ dk_visible d0 !! q = dk_visible d !! p | Some e => dk_visible d0 = dk_visible d /\ (e = EEXIST -> dk_visible d !! q <> None) end) as H.
  { intros r0 d0. destruct (dk_visible d !! q) eqn:Eq; [intros [= <- <-]; rewrite Ev; done|]. destruct (dk_visible d !! p) eqn:Ep; intros [= <- <-]; simpl; [|rewrite Ev; done].
    split; [done|]. split; [intros x Hx; by rewrite lookup_insert_ne|]. rewrite lookup_insert_eq. done. }
  destruct f; [by apply H|intros [= <- <-]; by rewrite Ev|by apply H|by apply H].
Qed.

Lemma sync_frame q d ok d' : fs_sync_directory q d = (ok, d') -> dk_visible d' = dk_visible d /\ (ok = true -> forall p, is_child q p = true -> dk_durable d' !! p = dk_visible d !! p) /\
  (forall p, dk_durable d' !! p = dk_durable d !! p \/ is_child q p = true /\ dk_durable d' !! p = dk_visible d' !! p).
Proof.
  unfold fs_sync_directory. destruct (next_fault d) as [f d1] eqn:E. apply next_fault_same in E as (Ev & Ed & _).
  assert (forall ok0 d0, (if bool_decide (dk_visible d1 !! q = Some Dir) then (true, settle q d1) else (false, d1)) = (ok0, d0) ->
    dk_visible d0 = dk_visible d /\ (ok0 = true -> forall p, is_child q p = true -> dk_durable d0 !! p = dk_visible d !! p) /\
    (forall p, dk_durable d0 !! p = dk_durable d !! p \/ is_child q p = true /\ dk_durable d0 !! p = dk_visible d0 !! p)) as H.
  { intros ok0 d0. case_bool_decide; intros [= <- <-]; [|rewrite Ev, Ed; split_and!; [done|done|by left]]. split; [done|]. split; [intros _ p Hp; by rewrite lookup_settle, Hp, Ev|]. intros p. rewrite lookup_settle. destruct (is_child q p) eqn:Ec; [by right|left; by rewrite Ed]. }
  destruct f; [by apply H|intros [= <- <-]; rewrite Ev, Ed; split_and!; [done|done|by left]|by apply H|by apply H].
Qed.

Lemma unlink_frame p d r d' : fs_unlink p d = (r, d') -> (forall q, q <> p -> dk_visible d' !! q = dk_visible d !! q) /\
  match r with None => dk_visible d' !! p = None | Some ENOENT => dk_visible d' = dk_visible d /\ dk_visible d !! p = None | Some _ => dk_visible d' = dk_visible d end.
Proof.
  unfold fs_unlink. destruct (next_fault d) as [f d1] eqn:E. apply next_fault_same in E as (Ev & _). rewrite Ev.
  destruct f; try (intros [= <- <-]; by rewrite Ev); destruct (dk_visible d !! p) eqn:Ep; intros [= <- <-]; simpl; rewrite ?Ev; try done;
    (split; [intros q Hq; by rewrite lookup_delete_ne|apply lookup_delete_eq]).
Qed.

(** ** The cache of open files *)

Section Coherence.
Context (capacity : nat) (hash : bytes -> nat).

(** Every descriptor held reads the object under its name, and sits in the shard of that name. *)
Definition coherent (v : gmap path Inode) (c : list Shard) : Prop :=
  forall i s n content, c !! i = Some s -> (n, content) ∈ s -> i = shard_of hash n /\ is_valid_object_name n = true /\ exists sy, v !! [n] = Some (File content sy).

Lemma find_entry name s content : shard_find name s = Some content -> (name, content) ∈ s.
Proof.
  unfold shard_find. destruct (List.find _ s) as [[n c]|] eqn:E; [|done]. intros [= <-]. apply find_some in E as [Hin Hn]. apply bool_decide_eq_true in Hn. simpl in Hn. subst n. by apply list_elem_of_In.
Qed.

Lemma coherent_alter v c g i : coherent v c -> (forall s n content, c !! i = Some s -> (n, content) ∈ g s -> (n, content) ∈ s \/ (i = shard_of hash n /\ is_valid_object_name n = true /\ exists sy, v !! [n] = Some (File content sy))) ->
  coherent v (alter g i c).
Proof.
  intros Hc Hg j s n content. destruct (decide (i = j)) as [<- |Hne]; [|rewrite list_lookup_alter_ne by done; apply Hc]. rewrite list_lookup_alter_eq.
  destruct (c !! i) as [s0|] eqn:E; [|done]. intros [= <-] Hin. destruct (Hg s0 n content eq_refl Hin) as [H|H]; [by eapply Hc|done].
Qed.

Lemma lookup_coherent v c name r c' : coherent v c -> cache_lookup capacity hash name c = (r, c') ->
  coherent v c' /\ (forall content, r = Some content -> is_valid_object_name name = true /\ exists sy, v !! [name] = Some (File content sy)).
Proof.
  intros Hc. unfold cache_lookup. destruct (_ =? 0)%nat; [by intros [= <- <-]|]. destruct (shard_find name _) as [file|] eqn:E; [|by intros [= <- <-]]. intros [= <- <-].
  apply find_entry in E. destruct (c !! shard_of hash name) as [s|] eqn:Es; simpl in E; [|by apply elem_of_nil in E]. destruct (Hc _ _ _ _ Es E) as (Hi & Hval & Hv). split; [|by intros ? [= <-]].
  apply coherent_alter; [done|]. intros s0 n content Hs0 [[= -> ->]|Hin]%elem_of_cons; [by right|left]. unfold shard_erase in Hin. by apply elem_of_filter_bool in Hin as [? _].
Qed.

Lemma insert_coherent v c name content sy : coherent v c -> is_valid_object_name name = true -> v !! [name] = Some (File content sy) -> coherent v (cache_insert capacity hash name content c).
Proof.
  intros Hc Hval Hv. unfold cache_insert. destruct (_ =? 0)%nat; [done|]. apply coherent_alter; [done|]. intros s n x Hs Hin. unfold shard_insert in Hin. destruct (shard_find name s).
  - apply elem_of_cons in Hin as [[= -> ->]|Hin]; [right; split; [done|]; split; [done|by exists sy]|left]. unfold shard_erase in Hin. by apply elem_of_filter_bool in Hin as [? _].
  - apply elem_of_take in Hin as (k & Hk & _). apply list_elem_of_lookup_2 in Hk. apply elem_of_cons in Hk as [[= -> ->]|Hk]; [right; split; [done|]; split; [done|by exists sy]|by left].
Qed.

Lemma clear_coherent v c : coherent v (cache_clear c).
Proof. intros i s n content. unfold cache_clear. rewrite list_lookup_fmap. destruct (c !! i); [|done]. intros [= <-] Hin. by apply elem_of_nil in Hin. Qed.

(** Forgetting a name makes it safe to remove. *)
Lemma erase_coherent v v' c name : coherent v c -> (0 < capacity)%nat \/ Forall (fun s => s = []) c -> (forall q, q <> [name] -> v' !! q = v !! q) -> coherent v' (cache_erase capacity hash name c).
Proof.
  intros Hc Hcap Hv. assert (capacity = 0%nat -> forall i s, c !! i = Some s -> s = []) as Hempty.
  { intros H0 i s Hs. destruct Hcap as [|Hall]; [lia|]. rewrite Forall_forall in Hall. apply Hall. by eapply list_elem_of_lookup_2. }
  unfold cache_erase. destruct (Nat.eqb_spec capacity 0) as [H0|H0].
  - intros i s n content Hs Hin. rewrite (Hempty H0 i s Hs) in Hin. by apply elem_of_nil in Hin.
  - intros j s n content Hs Hin. assert (exists s0, c !! j = Some s0 /\ (n, content) ∈ s0 /\ n <> name) as (s0 & Hs0 & Hin0 & Hne).
    { destruct (decide (shard_of hash name = j)) as [<- |Hj].
      - rewrite list_lookup_alter_eq in Hs. destruct (c !! shard_of hash name) as [s0|] eqn:E; [|done]. injection Hs as <-. unfold shard_erase in Hin. apply elem_of_filter_bool in Hin as [Hin Hn].
        apply negb_true_iff, bool_decide_eq_false in Hn. by exists s0.
      - rewrite list_lookup_alter_ne in Hs by done. exists s. split; [done|]. split; [done|]. intros ->. destruct (Hc _ _ _ _ Hs Hin) as (Ei & _). by apply Hj. }
    destruct (Hc _ _ _ _ Hs0 Hin0) as (Hi & Hval & sy & Hsy). split; [done|]. split; [done|]. exists sy. rewrite Hv; [done|]. intros [= ->]. done.
Qed.
End Coherence.

(** ** The contract holds *)

Section Contract.
Context (capacity : nat) (hash : bytes -> nat) (pid : Z) (sync_writes : bool).

Definition held_at (v : gmap path Inode) (name : bytes) : option bytes :=
  if is_valid_object_name name then match v !! [name] with Some (File c _) => Some c | _ => None end else None.

(** What the store holds. *)
Definition blob_objects (s : DiskBlobStore) (name : bytes) : option bytes := held_at (dk_visible (bd_disk s)) name.

Record blob_ok (s : DiskBlobStore) : Prop := {
  bo_flat : forall n, is_valid_object_name n = true -> dk_visible (bd_disk s) !! [n] <> Some Dir;
  bo_coherent : coherent hash (dk_visible (bd_disk s)) (bd_files s);
  bo_unused : (0 < capacity)%nat \/ Forall (fun sh => sh = []) (bd_files s)
}.

Lemma cache_clear_empty (c : list Shard) : Forall (fun sh => sh = []) (cache_clear c).
Proof. unfold cache_clear. by rewrite Forall_map, Forall_forall. Qed.

Lemma lookup_unused name c r c' : (0 < capacity)%nat \/ Forall (fun sh : Shard => sh = []) c -> cache_lookup capacity hash name c = (r, c') -> (0 < capacity)%nat \/ Forall (fun sh : Shard => sh = []) c'.
Proof. intros [H|H]; [by left|]. unfold cache_lookup. destruct (Nat.eqb_spec capacity 0); [intros [= <- <-]; by right|left; lia]. Qed.

Lemma insert_unused name content c : (0 < capacity)%nat \/ Forall (fun sh : Shard => sh = []) c -> (0 < capacity)%nat \/ Forall (fun sh : Shard => sh = []) (cache_insert capacity hash name content c).
Proof. intros [H|H]; [by left|]. unfold cache_insert. destruct (Nat.eqb_spec capacity 0); [by right|left; lia]. Qed.

Lemma erase_unused name c : (0 < capacity)%nat \/ Forall (fun sh : Shard => sh = []) c -> (0 < capacity)%nat \/ Forall (fun sh : Shard => sh = []) (cache_erase capacity hash name c).
Proof. intros [H|H]; [by left|]. unfold cache_erase. destruct (Nat.eqb_spec capacity 0); [by right|left; lia]. Qed.

(** A disk that shows the same files to a store that is well formed. *)
Lemma ok_same s d c : blob_ok s -> dk_visible d = dk_visible (bd_disk s) -> coherent hash (dk_visible (bd_disk s)) c -> (0 < capacity)%nat \/ Forall (fun sh => sh = []) c ->
  blob_ok {| bd_disk := d; bd_temp_counter := bd_temp_counter s; bd_files := c |}.
Proof. intros [H1 _ _] E Hc Hu. split; simpl; by rewrite ?E. Qed.

Lemma open_content_frame p d r d' : fs_open_content p d = (r, d') -> dk_visible d' = dk_visible d /\
  match r with inr c => exists sy, dk_visible d !! p = Some (File c sy) | inl NoEntry => dk_visible d !! p = None | inl _ => True end.
Proof.
  unfold fs_open_content. destruct (next_read_fault d) as [f d1] eqn:E. apply next_read_fault_same in E as (Ev & _). rewrite Ev.
  destruct f; intros [= <- <-]; (split; [done|]); try done; destruct (dk_visible d !! p) as [[|c sy]|]; try done; by exists sy.
Qed.

Lemma fstat_frame d ok d' : fs_fstat d = (ok, d') -> dk_visible d' = dk_visible d.
Proof. unfold fs_fstat. destruct (next_read_fault d) as [f d1] eqn:E. apply next_read_fault_same in E as (Ev & _). by destruct f; intros [= <- <-]. Qed.

Lemma open_for_read_spec name s r s' : blob_ok s -> is_valid_object_name name = true -> open_for_read capacity hash name s = (r, s') ->
  blob_ok s' /\ dk_visible (bd_disk s') = dk_visible (bd_disk s) /\
  match r with
  | Value c => exists sy, dk_visible (bd_disk s) !! [name] = Some (File c sy)
  | Unexpected NotFound => dk_visible (bd_disk s) !! [name] = None
  | Unexpected _ => True
  end.
Proof.
  intros Hok Hval. unfold open_for_read. destruct (cache_lookup capacity hash name (bd_files s)) as [held files] eqn:El.
  destruct (lookup_coherent capacity hash _ _ _ _ _ (bo_coherent _ Hok) El) as [Hc Hheld]. pose proof (lookup_unused _ _ _ _ (bo_unused _ Hok) El) as Hu.
  assert (forall d c, dk_visible d = dk_visible (bd_disk s) -> coherent hash (dk_visible (bd_disk s)) c -> (0 < capacity)%nat \/ Forall (fun sh => sh = []) c ->
    forall r0 s0, match r0 with
      | inl NoEntry => (Unexpected (if root_is_directory (bd_disk s0) then NotFound else Io), s0)
      | inl _ => (Unexpected Io, s0)
      | inr content => let '(stated, d) := fs_fstat (bd_disk s0) in let s1 := with_disk s0 d in
          if stated then (Value content, with_files s1 (cache_insert capacity hash name content (bd_files s1))) else (Unexpected Io, s1)
      end = (r, s') -> s0 = {| bd_disk := d; bd_temp_counter := bd_temp_counter s; bd_files := c |} ->
      match r0 with inr x => exists sy, dk_visible (bd_disk s) !! [name] = Some (File x sy) | inl NoEntry => dk_visible (bd_disk s) !! [name] = None | inl _ => True end ->
    blob_ok s' /\ dk_visible (bd_disk s') = dk_visible (bd_disk s) /\
    match r with Value x => exists sy, dk_visible (bd_disk s) !! [name] = Some (File x sy) | Unexpected NotFound => dk_visible (bd_disk s) !! [name] = None | Unexpected _ => True end) as Hend.
  { intros d c Ed Hcd Hud r0 s0 H -> Hr0. destruct r0 as [[]|content]; simpl in H.
    - injection H as <- <-. split; [by apply ok_same|]. split; [done|]. by destruct (root_is_directory d).
    - injection H as <- <-. split; [by apply ok_same|]. done.
    - injection H as <- <-. split; [by apply ok_same|]. done.
    - destruct (fs_fstat d) as [stated d1] eqn:Ef. apply fstat_frame in Ef. destruct stated; injection H as <- <-; simpl; (split; [|split; [congruence|done]]).
      + apply (ok_same s); [done|simpl; congruence| |by apply insert_unused]. destruct Hr0 as [sy Hsy]. by eapply insert_coherent.
      + apply (ok_same s); [done|simpl; congruence|done|done]. }
  destruct held as [content|].
  - intros [= <- <-]. split; [by apply (ok_same s (bd_disk s) files)|]. split; [done|]. by apply Hheld.
  - simpl. destruct (fs_open_content [name] (bd_disk s)) as [r1 d1] eqn:E1. apply open_content_frame in E1 as [Ev1 Hr1].
    destruct r1 as [[]|content].
    + intros H. exact (Hend d1 files Ev1 Hc Hu (inl NoEntry) _ H eq_refl Hr1).
    + unfold with_disk, with_files in *. simpl. destruct (fs_open_content [name] d1) as [r2 d2] eqn:E2. apply open_content_frame in E2 as [Ev2 Hr2]. rewrite Ev1 in *. intros H.
      exact (Hend d2 (cache_clear files) Ev2 (clear_coherent _ _ _) (or_intror (cache_clear_empty _)) r2 _ H eq_refl Hr2).
    + intros H. exact (Hend d1 files Ev1 Hc Hu (inl OtherError) _ H eq_refl I).
    + intros H. exact (Hend d1 files Ev1 Hc Hu (inr content) _ H eq_refl Hr1).
Qed.

Lemma pread_frame content offset size d r d' : (0 < size)%nat -> fs_pread content offset size d = (r, d') -> dk_visible d' = dk_visible d /\
  (length (dk_read_faults d') <= length (dk_read_faults d))%nat /\
  match r with
  | inr chunk => chunk `prefix_of` take size (drop offset content) /\ (chunk = [] -> (length content <= offset)%nat)
  | inl EINTR => (length (dk_read_faults d') < length (dk_read_faults d))%nat
  | inl _ => True
  end.
Proof.
  intros Hs. unfold fs_pread. destruct (next_read_fault d) as [f d1] eqn:E. apply next_read_fault_same in E as (Ev & _ & Hle & Hf).
  assert (forall n, (0 < n <= size)%nat -> take n (drop offset content) `prefix_of` take size (drop offset content) /\ (take n (drop offset content) = [] -> (length content <= offset)%nat)) as Ht.
  { intros n Hn. split; [exists (drop n (take size (drop offset content))); rewrite <- (take_drop n (take size (drop offset content))) at 1; f_equal; by rewrite take_take, Nat.min_l by lia|].
    intros H%(f_equal length). rewrite length_take, length_drop in H. simpl in H. lia. }
  destruct f; intros [= <- <-]; (split; [done|]); (split; [done|]); [apply Ht; lia|done|destruct Hf; [done|lia]|apply Ht; lia].
Qed.

(** The loop reads the bytes it wants, or those there are, whatever is cut short or interrupted. *)
Lemma pread_loop_spec content offset want : forall fuel out d r d', out `prefix_of` take want (drop offset content) ->
  pread_loop fuel content offset want out d = (r, d') -> dk_visible d' = dk_visible d /\ match r with Value x => x = take want (drop offset content) | Unexpected e => e = Io end.
Proof.
  assert (forall out, out `prefix_of` take want (drop offset content) -> (length (take want (drop offset content)) <= length out)%nat -> out = take want (drop offset content)) as Hwhole.
  { intros out [rest E] Hge. pose proof (f_equal length E) as El. rewrite length_app in El. assert (rest = []) as -> by (apply length_zero_iff_nil; lia). by rewrite app_nil_r in E. }
  induction fuel as [|fuel IH]; intros out d r d' Hp; simpl; destruct (Nat.leb_spec want (length out)) as [Hge|Hlt]; try (intros [= <- <-]; split; [done|apply Hwhole; [done|rewrite length_take; lia]]); [by intros [= <- <-]|].
  destruct (fs_pread content (offset + length out) (want - length out) d) as [q d1] eqn:E. apply pread_frame in E as (Ev & _ & Hq); [|lia].
  assert (forall chunk, chunk `prefix_of` take (want - length out) (drop (offset + length out) content) -> out ++ chunk `prefix_of` take want (drop offset content)) as Hext.
  { intros chunk [rest Er]. exists rest. destruct Hp as [tl Et]. rewrite <- app_assoc, <- Er, Et. f_equal. rewrite <- drop_drop.
    assert (tl = drop (length out) (take want (drop offset content))) as -> by (rewrite Et; by rewrite drop_app_length). by rewrite skipn_firstn_comm. }
  destruct q as [[]|[|x chunk]]; try (by intros [= <- <-]).
  - intros H. destruct (IH _ _ _ _ Hp H) as [E2 ?]. by rewrite E2.
  - intros [= <- <-]. destruct Hq as [_ Hq]. specialize (Hq eq_refl). split; [done|]. apply Hwhole; [done|]. rewrite length_take, length_drop. lia.
  - intros H. destruct Hq as [Hq _]. destruct (IH _ _ _ _ (Hext _ Hq) H) as [E2 ?]. by rewrite E2.
Qed.

(** The fuel of [do_get] is enough: the loop ends by itself. *)
Lemma pread_loop_enough content offset want : forall fuel fuel' out d, (want - length out + length (dk_read_faults d) < fuel)%nat -> (want - length out + length (dk_read_faults d) < fuel')%nat ->
  pread_loop fuel content offset want out d = pread_loop fuel' content offset want out d.
Proof.
  induction fuel as [|fuel IH]; intros fuel' out d H1 H2; [lia|]. destruct fuel' as [|fuel']; [lia|]. simpl. destruct (Nat.leb_spec want (length out)); [done|].
  destruct (fs_pread content (offset + length out) (want - length out) d) as [q d1] eqn:E. apply pread_frame in E as (_ & Hle & Hq); [|lia].
  destruct q as [[]|[|x chunk]]; try done; [apply IH; lia|]. apply IH; rewrite length_app; simpl; lia.
Qed.

Lemma blob_get_spec name offset len s r s' : blob_ok s -> 0 <= offset -> do_get capacity hash name offset len s = (r, s') ->
  blob_ok s' /\ (forall m, blob_objects s' m = blob_objects s m) /\
  match r with
  | Value out => exists c, blob_objects s name = Some c /\ out = read_slice c offset len
  | Unexpected NotFound => blob_objects s name = None
  | Unexpected _ => True
  end.
Proof.
  intros Hok Hoff. unfold do_get. destruct (is_valid_object_name name) eqn:Hval; cbn [negb]; [|by intros [= <- <-]].
  destruct (open_for_read capacity hash name s) as [o s1] eqn:Eo. destruct (open_for_read_spec name s o s1 Hok Hval Eo) as (Hok1 & Ev & Ho).
  assert (forall m, blob_objects s1 m = blob_objects s m) as Hsame by (intros m; unfold blob_objects; by rewrite Ev).
  destruct o as [content|e].
  2: { intros [= <- <-]. split; [done|]. split; [done|]. destruct e; try done. unfold blob_objects, held_at. by rewrite Hval, Ho. }
  destruct Ho as [sy Hsy]. assert (blob_objects s name = Some content) as Hobj by (unfold blob_objects, held_at; by rewrite Hval, Hsy).
  destruct (Z.leb_spec (Z.of_nat (length content)) offset) as [Hge|Hlt].
  - intros [= <- <-]. split; [done|]. split; [done|]. exists content. split; [done|]. unfold read_slice. rewrite drop_ge by lia. destruct len; [by rewrite take_nil|done].
  - set (want := Z.to_nat _). destruct (pread_loop (S (want + length (dk_read_faults (bd_disk s1)))) content (Z.to_nat offset) want [] (bd_disk s1)) as [q d2] eqn:Ep. intros [= <- <-].
    assert (Z.to_nat offset + want <= length content)%nat as Hlen.
    { subst want. destruct len as [n|]; [destruct (Z.ltb_spec (Z.of_nat (length content) - offset) n)|]; lia. }
    destruct (pread_loop_spec content (Z.to_nat offset) want _ _ _ _ _ (prefix_nil _) Ep) as [Ev2 Hq].
    split; [apply (ok_same s1 d2 (bd_files s1)); [done|done|apply Hok1|apply Hok1]|]. split; [intros m; unfold blob_objects in *; simpl; rewrite Ev2; by rewrite Ev|].
    destruct q as [out|e]; [|by rewrite Hq]. exists content. split; [done|]. rewrite Hq. unfold read_slice. subst want. destruct len as [n|].
    + destruct (Z.ltb_spec (Z.of_nat (length content) - offset) n); [|done]. rewrite !take_ge by (rewrite length_drop; lia). done.
    + rewrite take_ge by (rewrite length_drop; lia). done.
Qed.

Lemma blob_remove_spec name s r s' : blob_ok s -> do_remove capacity hash name s = (r, s') ->
  blob_ok s' /\ (forall m, m <> name -> blob_objects s' m = blob_objects s m) /\ (r = Ok -> blob_objects s' name = None) /\ (r <> Ok -> blob_objects s' name = blob_objects s name).
Proof.
  intros Hok. unfold do_remove. destruct (is_valid_object_name name) eqn:Hval; simpl; [|intros [= <- <-]; done].
  destruct (fs_unlink [name] (bd_disk s)) as [e d] eqn:Eu. destruct (unlink_frame _ _ _ _ Eu) as [Hframe He].
  assert (forall q, blob_ok (with_disk (with_files s (cache_erase capacity hash name (bd_files s))) d) /\ (forall m, m <> name -> held_at (dk_visible d) m = blob_objects s m) /\ (q = Ok -> q = Ok)) as Hcommon.
  { intros q. split; [|split; [|done]].
    - split; simpl.
      + intros n Hn. destruct (decide (n = name)) as [-> |Hne]; [|rewrite Hframe by congruence; by apply (bo_flat _ Hok)].
        destruct e as [[]|]; [by rewrite He; apply (bo_flat _ Hok)|destruct He as [-> _]; by apply (bo_flat _ Hok)|by rewrite He; apply (bo_flat _ Hok)|by rewrite He; apply (bo_flat _ Hok)|by rewrite He].
      + apply (erase_coherent capacity hash (dk_visible (bd_disk s))); [apply Hok|apply Hok|done].
      + apply erase_unused, Hok.
    - intros m Hm. unfold blob_objects, held_at. rewrite Hframe by congruence. done. }
  assert (dk_visible d !! [name] = None -> held_at (dk_visible d) name = None) as Hgone by (intros H; unfold held_at; rewrite H; by destruct (is_valid_object_name name)).
  assert (dk_visible d = dk_visible (bd_disk s) -> held_at (dk_visible d) name = blob_objects s name) as Hstay by (intros ->; done).
  destruct (Hcommon Ok) as (H1 & H2 & _). destruct e as [[]|].
  1,3,4: intros [= <- <-]; split; [done|]; split; [done|]; split; [done|]; intros _; by apply Hstay.
  - destruct He as [Ev Hn]. destruct (root_is_directory d); intros [= <- <-]; (split; [done|]); (split; [done|]); (split; [|done || intros _; by apply Hstay]); intros _; apply Hgone; by rewrite Ev.
  - intros [= <- <-]. split; [done|]. split; [done|]. split; [intros _; by apply Hgone|done].
Qed.

Lemma list_spec prefix s r s' : blob_ok s -> do_list prefix s = (r, s') -> blob_ok s' /\ (forall m, blob_objects s' m = blob_objects s m) /\
  (forall ns, r = Value ns -> forall m, m ∈ ns <-> blob_objects s m <> None /\ starts_with m prefix = true).
Proof.
  intros Hok. unfold do_list. destruct (next_read_fault (bd_disk s)) as [f d] eqn:E. apply next_read_fault_same in E as (Ev & _).
  assert (blob_ok (with_disk s d)) as Hok' by (apply (ok_same s); [done|done|apply Hok|apply Hok]).
  assert (forall m, blob_objects (with_disk s d) m = blob_objects s m) as Hsame by (intros m; unfold blob_objects; simpl; by rewrite Ev).
  assert (forall ns, (if root_is_directory d then Value (merge_sort key_le (List.filter (listed prefix) (map fst (entries_of [] (dk_visible d))))) else Unexpected Io) = Value ns ->
    forall m, m ∈ ns <-> blob_objects s m <> None /\ starts_with m prefix = true) as Hns.
  { intros ns. destruct (root_is_directory d); [|done]. intros [= <-] m. rewrite (merge_sort_Permutation key_le), elem_of_filter_bool, list_elem_of_fmap. unfold listed. rewrite !andb_true_iff, negb_true_iff. split.
    - intros [([n i] & -> & Hin%elem_of_entries) [[Ht Hval] Hp]]. simpl in *. rewrite Ev in Hin. split; [|done]. unfold blob_objects, held_at. rewrite Hval, Hin.
      destruct i; [|done]. by apply (bo_flat _ Hok) in Hin.
    - intros [Hobj Hp]. unfold blob_objects, held_at in Hobj. destruct (is_valid_object_name m) eqn:Hval; [|done]. destruct (dk_visible (bd_disk s) !! [m]) as [i|] eqn:Hm; [|done]. split.
      + exists (m, i). split; [done|]. apply elem_of_entries. by rewrite Ev.
      + split; [|done]. split; [|done]. destruct (starts_with m kTempPrefix) eqn:Et; [|done]. apply starts_with_spec in Et as [t ->]. simpl in Hval. by rewrite andb_false_r in Hval. }
  destruct f; intros [= <- <-]; split_and!; try done; by intros ns.
Qed.

(** What a put leaves under the name it was given: on success the whole object, which is on the medium when writes are
    synchronised; on a failure what was there, or the whole object where nothing was. *)
Definition put_leaves (sync : bool) (name b : bytes) (v : gmap path Inode) (r : Status) (d' : Disk) : Prop :=
  match r with
  | Ok => v !! [name] = None /\ exists sy, dk_visible d' !! [name] = Some (File b sy) /\ (sync = true -> sy = true /\ dk_durable d' !! [name] = Some (File b true))
  | Unusable => v !! [name] <> None /\ dk_visible d' !! [name] = v !! [name]
  | _ => dk_visible d' !! [name] = v !! [name] \/ v !! [name] = None /\ exists sy, dk_visible d' !! [name] = Some (File b sy)
  end.

Lemma put_disk name b s r s' : do_put pid sync_writes name b s = (r, s') -> bd_files s' = bd_files s /\
  (forall q, q <> [temp_name pid (bd_temp_counter s) name] -> q <> [name] -> dk_visible (bd_disk s') !! q = dk_visible (bd_disk s) !! q) /\
  (forall q, dk_durable (bd_disk s') !! q = dk_durable (bd_disk s) !! q \/ is_child [] q = true /\ dk_durable (bd_disk s') !! q = dk_visible (bd_disk s') !! q) /\
  put_leaves sync_writes name b (dk_visible (bd_disk s)) r (bd_disk s').
Proof.
  unfold do_put. destruct (is_valid_object_name name) eqn:Hval; cbn [negb]; [|intros [= <- <-]; split_and!; [done|done|by left|by left]].
  destruct (root_is_directory (bd_disk s)); cbn [negb]; [|intros [= <- <-]; split_and!; [done|done|by left|by left]]. cbn [bd_disk].
  set (temp := [temp_name pid (bd_temp_counter s) name]). assert ([name] <> temp) as Hnt by (intros [= H]; by apply (valid_not_temp name (bd_temp_counter s) name pid)).
  destruct (fs_open_new temp (bd_disk s)) as [[e|] d1] eqn:E1; apply open_new_frame in E1 as (D1 & F1 & R1); [intros [= <- <-]; simpl; rewrite R1, D1; split_and!; [done|done|by left|by left]|].
  assert (forall d r0 s0, dk_durable d = dk_durable (bd_disk s) -> (forall q, q <> temp -> dk_visible d !! q = dk_visible (bd_disk s) !! q) ->
    (let '(_, d) := fs_remove temp d in let '(_, d) := fs_close d in (Io, with_disk {| bd_disk := bd_disk s; bd_temp_counter := bd_temp_counter s + 1; bd_files := bd_files s |} d)) = (r0, s0) ->
    bd_files s0 = bd_files s /\ (forall q, q <> temp -> q <> [name] -> dk_visible (bd_disk s0) !! q = dk_visible (bd_disk s) !! q) /\
    (forall q, dk_durable (bd_disk s0) !! q = dk_durable (bd_disk s) !! q \/ is_child [] q = true /\ dk_durable (bd_disk s0) !! q = dk_visible (bd_disk s0) !! q) /\ put_leaves sync_writes name b (dk_visible (bd_disk s)) r0 (bd_disk s0)) as Habandon.
  { intros d r0 s0 Dd Fd. destruct (fs_remove temp d) as [? d2] eqn:Er. destruct (fs_close d2) as [? d3] eqn:Ec. apply remove_frame in Er as [Dr Fr]. apply close_frame in Ec as [Ec Dc].
    intros [= <- <-]. simpl. rewrite Ec, Dc, Dr, Dd. split_and!; [done|intros q H1 H2; by rewrite Fr, Fd|by left|left; simpl; by rewrite ?Ec, Fr, Fd]. }
  destruct (write_loop (write_fuel b d1) temp b d1) as [written d2] eqn:E2. destruct (write_loop_spec temp _ _ _ _ _ [] false R1 E2) as (k & sy2 & W1 & D2 & _ & W4). rewrite D1 in D2.
  assert (forall q, q <> temp -> dk_visible d2 !! q = dk_visible (bd_disk s) !! q) as F2 by (intros q Hq; rewrite W1, lookup_insert_ne by done; by apply F1).
  destruct written; [|by apply Habandon]. rewrite W4 in W1 by done. simpl in W1. assert (dk_visible d2 !! temp = Some (File b sy2)) as T2 by (by rewrite W1, lookup_insert_eq).
  destruct (if sync_writes then fs_fsync temp d2 else (true, d2)) as [synced d3] eqn:E3.
  assert (dk_durable d3 = dk_durable (bd_disk s) /\ (forall q, q <> temp -> dk_visible d3 !! q = dk_visible (bd_disk s) !! q) /\
    exists sy3, dk_visible d3 !! temp = Some (File b sy3) /\ (synced = true -> sync_writes = true -> sy3 = true)) as (D3 & F3 & sy3 & T3 & S3).
  { destruct sync_writes; [|injection E3 as <- <-; split_and!; [done|done|by exists sy2]]. apply (fsync_frame _ _ _ _ _ _ T2) in E3 as (D3 & (sy' & Hsy & Hs) & Fq).
    split; [congruence|]. split; [intros q Hq; by rewrite Fq, F2|]. exists sy'. split; [done|intros H _; by apply Hs]. }
  destruct synced; cbn [negb]; [|by apply Habandon]. destruct (fs_close d3) as [closed d4] eqn:E4. apply close_frame in E4 as [V4 D4].
  destruct (fs_link temp [name] d4) as [e d5] eqn:E5. apply link_frame in E5 as (D5 & F5 & R5). rewrite V4 in *. destruct e as [e|].
  - destruct (fs_remove temp d5) as [? d6] eqn:E6. apply remove_frame in E6 as [D6 F6]. destruct R5 as [V5 R5]. rewrite V5 in F6. intros [= <- <-]. simpl.
    split; [done|]. split; [intros q H1 H2; by rewrite F6, F3|]. split; [left; congruence|].
    assert (dk_visible d6 !! [name] = dk_visible (bd_disk s) !! [name]) as H by (by rewrite F6, F3). destruct e; try (by left). split; [|done]. rewrite <- F3 by done. by apply R5.
  - destruct (fs_remove temp d5) as [? d6] eqn:E6. apply remove_frame in E6 as [D6 F6]. destruct R5 as [R5 V5]. assert (dk_durable d6 = dk_durable (bd_disk s)) as D by congruence.
    assert (dk_visible (bd_disk s) !! [name] = None) as Hnone by (by rewrite <- F3). assert (dk_visible d6 !! [name] = Some (File b sy3)) as H6 by (by rewrite F6, V5).
    assert (forall q, q <> temp -> q <> [name] -> dk_visible d6 !! q = dk_visible (bd_disk s) !! q) as F6' by (intros q H1 H2; by rewrite F6, F5, F3).
    destruct sync_writes.
    + destruct (fs_sync_directory [] d6) as [ok d7] eqn:E7. apply sync_frame in E7 as (V7 & S7 & D7). rewrite D in D7. intros [= <- <-]. simpl. split; [done|]. split; [by rewrite V7|]. split; [done|].
      destruct ok; unfold put_leaves; rewrite V7; [|right; split; [done|by exists sy3]]. split; [done|]. exists sy3. split; [done|]. intros _. pose proof (S3 eq_refl eq_refl) as ->. split; [done|]. by rewrite S7.
    + intros [= <- <-]. simpl. rewrite D. split; [done|]. split; [done|]. split; [by left|]. split; [done|]. exists sy3. split; [done|]. intros [=].
Qed.

(** No put changes a file that is there under a name of an object. *)
Lemma put_keeps name b s r s' m : is_valid_object_name m = true -> m <> name \/ dk_visible (bd_disk s) !! [m] <> None -> do_put pid sync_writes name b s = (r, s') ->
  dk_visible (bd_disk s') !! [m] = dk_visible (bd_disk s) !! [m].
Proof.
  intros Hval Hm H. apply put_disk in H as (_ & Hframe & _ & Hl). destruct (decide (m = name)) as [-> |Hne].
  - destruct Hm as [|Hm]; [done|]. destruct r; simpl in Hl; try (by destruct Hl as [|[? _]]); by destruct Hl.
  - apply Hframe; [|congruence]. intros [= E]. by apply (valid_not_temp m (bd_temp_counter s) name pid).
Qed.

Lemma put_ok name b s r s' : blob_ok s -> do_put pid sync_writes name b s = (r, s') -> blob_ok s'.
Proof.
  intros Hok H. assert (forall m, is_valid_object_name m = true -> dk_visible (bd_disk s) !! [m] <> None -> dk_visible (bd_disk s') !! [m] = dk_visible (bd_disk s) !! [m]) as Hkeep
    by (intros m Hv Hm; eapply put_keeps; eauto). pose proof (put_disk _ _ _ _ _ H) as (Hf & Hframe & _ & Hl). split.
  - intros m Hv. destruct (decide (m = name)) as [-> |Hne]; [|rewrite (put_keeps name b s r s' m Hv (or_introl Hne) H); by apply Hok].
    pose proof (bo_flat _ Hok name Hv) as Hflat. destruct r; simpl in Hl; first [destruct Hl as [_ (sy & -> & _)]; done|destruct Hl as [-> |[_ [sy ->]]]; done|destruct Hl as [_ ->]; done].
  - rewrite Hf. intros i sh n content Hi Hin. destruct (bo_coherent _ Hok i sh n content Hi Hin) as (Hs & Hv & sy & Hsy). split; [done|]. split; [done|]. exists sy. by rewrite Hkeep, Hsy by (by rewrite ?Hsy).
  - rewrite Hf. apply Hok.
Qed.

Lemma config_not_taken name b s s' r : do_put pid sync_writes name b s = (r, s') -> r = Ok \/ r = Unusable -> is_valid_object_name name = true.
Proof. unfold do_put. destruct (is_valid_object_name name); [done|]. intros [= <- _] [[=]|[=]]. Qed.

Lemma remove_gone n s s' : blob_ok s -> do_remove capacity hash n s = (Ok, s') -> blob_objects s' n = None.
Proof. intros Hok H. destruct (blob_remove_spec _ _ _ _ Hok H) as (_ & _ & Hg & _). by apply Hg. Qed.

Lemma remove_touches n s r s' m : blob_ok s -> do_remove capacity hash n s = (r, s') -> blob_objects s' m = blob_objects s m \/ m = n /\ blob_objects s' m = None.
Proof.
  intros Hok H. destruct (blob_remove_spec _ _ _ _ Hok H) as (_ & Hf & Hg & Hs). destruct (decide (m = n)) as [-> |Hne]; [|left; by apply Hf].
  destruct (decide (r = Ok)) as [-> |Hr]; [right; split; [done|by apply Hg]|left; by apply Hs].
Qed.

Lemma remove_keeps_ok n s r s' : blob_ok s -> do_remove capacity hash n s = (r, s') -> blob_ok s'.
Proof. intros Hok H. by destruct (blob_remove_spec _ _ _ _ Hok H). Qed.

(** A name is refused only when there is something under it. *)
#[export] Instance disk_blob_refuses : BlobStoreRefuses (disk_blob_store capacity hash pid sync_writes) blob_ok blob_objects.
Proof.
  intros n b s s' Hok H. pose proof (config_not_taken _ _ _ _ _ H (or_intror eq_refl)) as Hv. pose proof (put_disk _ _ _ _ _ H) as (_ & _ & _ & Hn & _).
  unfold blob_objects, held_at. rewrite Hv. destruct (dk_visible (bd_disk s) !! [n]) as [[|]|] eqn:E; [by apply (bo_flat _ Hok) in E|done|done].
Qed.

(** The store on disk keeps the contract of [BlobStore]. *)
#[export] Instance disk_blob_laws : BlobStoreLaws (disk_blob_store capacity hash pid sync_writes) blob_ok blob_objects.
Proof.
  split; cbn [bs_put bs_get bs_remove bs_remove_many bs_list disk_blob_store].
  - intros n s c _. unfold blob_objects, held_at. by destruct (is_valid_object_name n).
  - intros n b s s' Hok H. pose proof (config_not_taken _ _ _ _ _ H (or_introl eq_refl)) as Hv. pose proof (put_disk _ _ _ _ _ H) as (_ & _ & _ & Hn & sy & Hsy & _).
    unfold blob_objects, held_at. by rewrite Hv, Hn, Hsy.
  - intros n b s s' Hok H. pose proof (disk_blob_refuses n b s s' Hok H) as Hn. pose proof (config_not_taken _ _ _ _ _ H (or_intror eq_refl)) as Hv. unfold blob_objects, held_at in *. rewrite Hv in *.
    erewrite put_keeps; [exact Hn|done| |exact H]. right. intros E. by rewrite E in Hn.
  - intros n b s r s' m Hok H Hm. unfold blob_objects, held_at in *. destruct (is_valid_object_name m) eqn:Hv; [|done]. erewrite put_keeps; [done|done| |exact H].
    destruct Hm as [|Hm]; [by left|right]. intros E. by rewrite E in Hm.
  - intros. by eapply put_ok.
  - intros n off len s out s' Hok [Hoff _] H. by destruct (blob_get_spec _ _ _ _ _ _ Hok Hoff H) as (_ & _ & ?).
  - intros n off len s s' Hok [Hoff _] H. by destruct (blob_get_spec _ _ _ _ _ _ Hok Hoff H) as (_ & _ & ?).
  - intros n off len s r s' Hok [Hoff _] H. by destruct (blob_get_spec _ _ _ _ _ _ Hok Hoff H) as (? & ? & _).
  - apply remove_gone.
  - apply remove_touches.
  - apply remove_keeps_ok.
  - intros ns s s' Hok H. destruct (remove_many_spec _ _ _ remove_gone remove_touches remove_keeps_ok _ _ _ _ Hok H) as (_ & Hg & _). by apply Hg.
  - intros ns s r s' m Hok H. by destruct (remove_many_spec _ _ _ remove_gone remove_touches remove_keeps_ok _ _ _ _ Hok H) as (_ & _ & ?).
  - intros ns s r s' Hok H. by destruct (remove_many_spec _ _ _ remove_gone remove_touches remove_keeps_ok _ _ _ _ Hok H).
  - intros p s ns s' Hok H. destruct (list_spec _ _ _ _ Hok H) as (_ & _ & Hl). by apply Hl.
  - intros p s r s' Hok H. by destruct (list_spec _ _ _ _ Hok H) as (? & ? & _).
Qed.
End Contract.
