(* ===== verification/BlobCrash.v ===== *)
(** * Objects on disk across a power cut

    An object the store of [src/blob/disk_blob_store.cpp] acknowledged with [sync_writes] set is there, byte
    for byte, after a power cut at any later point: through any calls that do not remove it, with calls that
    fail, are cut short or interrupted wherever the disk's script says. *)

From S2P Require Import Prelude Slice Names Blob FileSystem DiskCatalog DiskCrash DiskBlob.

(** ** Definitions *)

(** The calls of the interface, in the order they are made. *)
Inductive BlobOp : Type :=
  | OpPut (name b : bytes)
  | OpGet (name : bytes) (offset : Z) (len : option Z)
  | OpRemove (name : bytes)
  | OpList (prefix : bytes).

Definition run_op {S} {ops : BlobStore S} (s : S) (o : BlobOp) : S :=
  match o with
  | OpPut n b => (bs_put n b s).2
  | OpGet n off len => (bs_get n off len s).2
  | OpRemove n => (bs_remove n s).2
  | OpList p => (bs_list p s).2
  end.

(** Offsets are unsigned, and the object is not removed. *)
Definition leaves_be (n : bytes) (o : BlobOp) : bool :=
  match o with OpRemove m => negb (bool_decide (m = n)) | OpGet _ off _ => 0 <=? off | _ => true end.

(** The store a process opens: nothing is cached, and the temporary names start over. *)
Definition reopened (d : Disk) : DiskBlobStore := {| bd_disk := d; bd_temp_counter := 0; bd_files := no_files |}.

Lemma reopened_ok capacity hash d : (forall n, is_valid_object_name n = true -> dk_visible d !! [n] <> Some Dir) -> blob_ok capacity hash (reopened d).
Proof.
  intros Hd. split; cbn [bd_disk bd_files reopened]; [done| |right; unfold no_files; by apply Forall_replicate].
  intros i sh m c Hi Hin. unfold no_files in Hi. apply lookup_replicate in Hi as [-> _]. by apply elem_of_nil in Hin.
Qed.

(** ** Reads leave the disk alone *)

Definition same_files (d d' : Disk) : Prop := dk_visible d' = dk_visible d /\ dk_durable d' = dk_durable d.

#[local] Instance same_files_preorder : PreOrder same_files.
Proof. split; [done|]. intros d1 d2 d3 [] []. split; congruence. Qed.

Lemma read_fault_files d f d' : next_read_fault d = (f, d') -> same_files d d'.
Proof. intros H. apply next_read_fault_same in H as (? & ? & _). done. Qed.

Lemma open_content_files p d r d' : fs_open_content p d = (r, d') -> same_files d d'.
Proof. unfold fs_open_content. destruct (next_read_fault d) as [f d1] eqn:E. apply read_fault_files in E. by destruct f; intros [= <- <-]. Qed.

Lemma fstat_files d r d' : fs_fstat d = (r, d') -> same_files d d'.
Proof. unfold fs_fstat. destruct (next_read_fault d) as [f d1] eqn:E. apply read_fault_files in E. by destruct f; intros [= <- <-]. Qed.

Lemma pread_files c off size d r d' : fs_pread c off size d = (r, d') -> same_files d d'.
Proof. unfold fs_pread. destruct (next_read_fault d) as [f d1] eqn:E. apply read_fault_files in E. by destruct f; intros [= <- <-]. Qed.

Lemma pread_loop_files c off want : forall fuel out d r d', pread_loop fuel c off want out d = (r, d') -> same_files d d'.
Proof.
  induction fuel as [|fuel IH]; intros out d r d'; cbn [pread_loop]; destruct (want <=? length out)%nat; try by intros [= <- <-].
  destruct (fs_pread c (off + length out) (want - length out) d) as [q d1] eqn:E. apply pread_files in E.
  destruct q as [[]|[|x chunk]]; try (by intros [= <- <-]); intros H%IH; by etrans.
Qed.

Section Store.
Context (capacity : nat) (hash : bytes -> nat) (pid : Z).

Lemma open_for_read_files n s r s' : open_for_read capacity hash n s = (r, s') -> same_files (bd_disk s) (bd_disk s').
Proof.
  unfold open_for_read. destruct (cache_lookup capacity hash n (bd_files s)) as [[c|] files]; [by intros [= <- <-]|]. cbn [bd_disk with_files].
  assert (forall r0 s0, match r0 with
      | inl NoEntry => (Unexpected (if root_is_directory (bd_disk s0) then NotFound else Io), s0)
      | inl _ => (Unexpected Io, s0)
      | inr content => let '(stated, d) := fs_fstat (bd_disk s0) in let s1 := with_disk s0 d in
          if stated then (Value content, with_files s1 (cache_insert capacity hash n content (bd_files s1))) else (Unexpected Io, s1)
      end = (r, s') -> same_files (bd_disk s0) (bd_disk s')) as Hend.
  { intros r0 s0. destruct r0 as [[]|content]; try by intros [= <- <-]. destruct (fs_fstat (bd_disk s0)) as [st d] eqn:E. apply fstat_files in E. by destruct st; intros [= <- <-]. }
  destruct (fs_open_content [n] (bd_disk s)) as [r1 d1] eqn:E1. apply open_content_files in E1. intros H. etrans; [exact E1|]. cbn zeta in *.
  destruct r1 as [[]|content]; [exact (Hend (inl NoEntry) _ H)| |exact (Hend (inl OtherError) _ H)|exact (Hend (inr content) _ H)].
  cbn [bd_disk with_disk with_files] in H. destruct (fs_open_content [n] d1) as [r2 d2] eqn:E2. apply open_content_files in E2. etrans; [exact E2|]. exact (Hend r2 _ H).
Qed.

Lemma get_files n off len s r s' : do_get capacity hash n off len s = (r, s') -> same_files (bd_disk s) (bd_disk s').
Proof.
  unfold do_get. destruct (negb (is_valid_object_name n)); [by intros [= <- <-]|]. destruct (open_for_read capacity hash n s) as [[content|e] s1] eqn:E; apply open_for_read_files in E; [|by intros [= <- <-]].
  destruct (_ <=? off); [by intros [= <- <-]|]. set (want := Z.to_nat _).
  destruct (pread_loop (S (want + length (dk_read_faults (bd_disk s1)))) content (Z.to_nat off) want [] (bd_disk s1)) as [q d] eqn:Ep. apply pread_loop_files in Ep. intros [= <- <-]. by etrans.
Qed.

Lemma list_files p s r s' : do_list p s = (r, s') -> same_files (bd_disk s) (bd_disk s').
Proof. unfold do_list. destruct (next_read_fault (bd_disk s)) as [f d1] eqn:E. apply read_fault_files in E. by destruct f; intros [= <- <-]. Qed.

Lemma remove_files n s r s' : do_remove capacity hash n s = (r, s') -> dk_durable (bd_disk s') = dk_durable (bd_disk s) /\ forall q, q <> [n] -> dk_visible (bd_disk s') !! q = dk_visible (bd_disk s) !! q.
Proof.
  unfold do_remove. destruct (negb (is_valid_object_name n)); [by intros [= <- <-]|]. cbn zeta. destruct (fs_unlink [n] _) as [e d] eqn:E. intros H.
  assert (bd_disk s' = d) as -> by (destruct e as [[]|]; by injection H as _ <-). split; [|by destruct (unlink_frame _ _ _ _ E)].
  unfold fs_unlink in E. destruct (next_fault _) as [f d1] eqn:E1. apply next_fault_same in E1 as (_ & Ed & _). destruct f; try (injection E as <- <-; done); destruct (dk_visible d1 !! [n]); by injection E as <- <-.
Qed.

(** ** What stays *)

(** The store's directory is on the medium, which has no directory under the name of an object. *)
Record rooted (d : Disk) : Prop := {
  ro_visible : dk_visible d !! [] = Some Dir;
  ro_durable : dk_durable d !! [] = Some Dir;
  ro_flat : forall n, is_valid_object_name n = true -> dk_durable d !! [n] <> Some Dir
}.

Record kept (n b : bytes) (s : DiskBlobStore) : Prop := {
  ke_ok : blob_ok capacity hash s;
  ke_rooted : rooted (bd_disk s);
  ke_visible : dk_visible (bd_disk s) !! [n] = Some (File b true);
  ke_durable : dk_durable (bd_disk s) !! [n] = Some (File b true)
}.

Lemma rooted_same d d' : same_files d d' -> rooted d -> rooted d'.
Proof. intros [Ev Ed] [H1 H2 H3]. split; by rewrite ?Ev, ?Ed. Qed.

Lemma kept_same n b s s' : same_files (bd_disk s) (bd_disk s') -> blob_ok capacity hash s' -> kept n b s -> kept n b s'.
Proof. intros Hs Hok [_ Hr Hv Hd]. split; [done|by eapply rooted_same|by rewrite (proj1 Hs)|by rewrite (proj2 Hs)]. Qed.

Lemma put_rooted n b s r s' : blob_ok capacity hash s -> rooted (bd_disk s) -> do_put pid true n b s = (r, s') -> rooted (bd_disk s').
Proof.
  intros Hok [H1 H2 H3] H. pose proof (put_ok capacity hash pid true _ _ _ _ _ Hok H) as Hok'. destruct (put_disk pid true _ _ _ _ _ H) as (_ & Hf & Hd & _). split.
  - by rewrite Hf.
  - destruct (Hd []) as [-> |[Hc _]]; [done|]. by apply bool_decide_eq_true in Hc as [? _].
  - intros m Hm. destruct (Hd [m]) as [-> |[_ ->]]; [by apply H3|by apply Hok'].
Qed.

Lemma kept_step n b o s : is_valid_object_name n = true -> leaves_be n o = true -> kept n b s -> kept n b (run_op (ops := disk_blob_store capacity hash pid true) s o).
Proof.
  intros Hval Ho Hk. pose proof (ke_ok _ _ _ Hk) as Hok. destruct o as [m c|m off len|m|p]; cbn [run_op bs_put bs_get bs_remove bs_list disk_blob_store leaves_be] in *.
  - destruct (do_put pid true m c s) as [r s'] eqn:E. cbn [snd]. destruct (put_disk pid true _ _ _ _ _ E) as (_ & _ & Hd & _).
    assert (dk_visible (bd_disk s') !! [n] = Some (File b true)) as Hv.
    { rewrite (put_keeps pid true m c s r s' n Hval); [by apply Hk| |done]. right. by rewrite (ke_visible _ _ _ Hk). }
    split; [by eapply put_ok|by eapply put_rooted; [| apply Hk|]|done|]. destruct (Hd [n]) as [-> |[_ ->]]; [by apply Hk|done].
  - destruct (do_get capacity hash m off len s) as [r s'] eqn:E. cbn [snd]. apply Z.leb_le in Ho. destruct (blob_get_spec _ _ _ _ _ _ _ _ Hok Ho E) as (Hok' & _). apply get_files in E. by eapply kept_same.
  - destruct (do_remove capacity hash m s) as [r s'] eqn:E. cbn [snd]. destruct (blob_remove_spec _ _ _ _ _ _ Hok E) as (Hok' & _). apply remove_files in E as [Ed Ev].
    apply negb_true_iff, bool_decide_eq_false in Ho. destruct Hk as [_ [R1 R2 R3] Hv Hd]. split; [done|split|..]; rewrite ?Ed, ?Ev by congruence; done.
  - destruct (do_list p s) as [r s'] eqn:E. cbn [snd]. destruct (list_spec _ _ _ _ _ _ Hok E) as (Hok' & _). apply list_files in E. by eapply kept_same.
Qed.

Lemma kept_steps n b ops : forall s, is_valid_object_name n = true -> forallb (leaves_be n) ops = true -> kept n b s -> kept n b (fold_left (run_op (ops := disk_blob_store capacity hash pid true)) ops s).
Proof. induction ops as [|o ops IH]; intros s Hval; cbn [fold_left forallb]; [done|]. intros [Ho Hops]%andb_true_iff Hk. apply IH; [done|done|by apply kept_step]. Qed.

(** A power cut leaves a store that can be opened, with the object in it. *)
Lemma kept_crash n b s d' capacity' hash' : is_valid_object_name n = true -> kept n b s -> crash (bd_disk s) d' -> blob_ok capacity' hash' (reopened d') /\ blob_objects (reopened d') n = Some b.
Proof.
  intros Hval [Hok [R1 R2 R3] Hv Hd] (pick & Hp & Hvis & _).
  assert (pick [] = Some Dir) as Hroot by (destruct (Hp []) as [H|H]; [rewrite R1 in H|rewrite R2 in H]; exact H).
  assert (forall m, dk_visible d' !! [m] = pick [m]) as Hm by (intros m; rewrite Hvis; rewrite bool_decide_eq_true_2; [done|]; repeat constructor; done). split.
  - apply reopened_ok. intros m Hmv. rewrite Hm. destruct (Hp [m]) as [H|H]; intros E; rewrite E in H.
    + pose proof (bo_flat _ _ _ Hok m Hmv) as Hf. destruct (dk_visible (bd_disk s) !! [m]) as [[|c []]|]; simpl in H; [done|done| |done]. by destruct H.
    + pose proof (R3 m Hmv) as Hf. destruct (dk_durable (bd_disk s) !! [m]) as [[|c []]|]; simpl in H; [done|done| |done]. by destruct H.
  - unfold blob_objects, held_at. cbn [bd_disk reopened]. rewrite Hval, Hm. destruct (Hp [n]) as [H|H]; [rewrite Hv in H|rewrite Hd in H]; simpl in H; by rewrite H.
Qed.

(** C7: an object that a store with [sync_writes] acknowledged is never lost, changed or hidden: after any calls that do
    not remove it, failing wherever they may, and a power cut that loses whatever the file system may lose, a process that
    opens the directory reads the object's own bytes, or an error that is not [NotFound]. *)
Theorem stored_object_survives_power_loss n b s s1 history d' capacity' hash' off len r s2 :
  blob_ok capacity hash s -> rooted (bd_disk s) -> do_put pid true n b s = (Ok, s1) -> forallb (leaves_be n) history = true ->
  crash (bd_disk (fold_left (run_op (ops := disk_blob_store capacity hash pid true)) history s1)) d' ->
  0 <= off -> do_get capacity' hash' n off len (reopened d') = (r, s2) ->
  match r with Value out => out = read_slice b off len | Unexpected e => e <> NotFound end.
Proof.
  intros Hok Hr Hput Hh Hcrash Hoff Hget. pose proof (config_not_taken _ _ _ _ _ _ _ Hput (or_introl eq_refl)) as Hval.
  destruct (put_disk pid true _ _ _ _ _ Hput) as (_ & _ & _ & _ & sy & Hv & Hsync). destruct (Hsync eq_refl) as [-> Hd].
  assert (kept n b s1) as Hk by (split; [by eapply put_ok|by eapply put_rooted|done|done]).
  destruct (kept_crash n b _ d' capacity' hash' Hval (kept_steps _ _ _ _ Hval Hh Hk) Hcrash) as [Hok' Hobj].
  destruct (blob_get_spec _ _ _ _ _ _ _ _ Hok' Hoff Hget) as (_ & _ & Hres). destruct r as [out|e]; [destruct Hres as (c & Hc & ->); congruence|]. intros ->. congruence.
Qed.
End Store.

(** ** A directory in use *)

Module BlobExamples.
Import DiskExamples.

(** One object is there; the third call of the first put is interrupted. *)
Definition busy_disk : Disk :=
  let v := {[ [] := Dir; [[x61]] := File [x07] true ]} in
  {| dk_visible := v; dk_durable := v; dk_faults := [NoFault; Short 1; Interrupted]; dk_read_faults := []; dk_list_faults := [] |}.

Lemma busy_flat m : is_valid_object_name m = true -> dk_visible busy_disk !! [m] <> Some Dir.
Proof.
  intros _. unfold busy_disk. cbn [dk_visible]. intros [[H _]|[_ H]]%lookup_insert_Some; [done|]. by apply lookup_singleton_Some in H as [_ ?].
Qed.

Definition no_hash (_ : bytes) : nat := 0.

Lemma stored_object_survives_power_loss_witness :
  let store := disk_blob_store 4 no_hash 77 true in
  let put := do_put 77 true [x62] [x01; x02; x03] (reopened busy_disk) in
  let history := [OpGet [x62] 1 None; OpRemove [x61]; OpPut [x62] [x09]; OpPut [x63] []] in
  let d := bd_disk (fold_left run_op history put.2) in
  put.1 = Ok /\ (do_get 4 no_hash [x62] 1 None (reopened (bare_disk (flushed <$> dk_visible d)))).1 = Value [x02; x03].
Proof.
  cbv zeta. set (put := do_put 77 true [x62] [x01; x02; x03] (reopened busy_disk)). set (history := [OpGet [x62] 1 None; OpRemove [x61]; OpPut [x62] [x09]; OpPut [x63] []]).
  assert (put = (Ok, put.2)) as Hput by (apply (answered put Ok); vm_compute; reflexivity). split; [by rewrite Hput|].
  set (d := bd_disk _). set (d' := bare_disk _).
  assert (blob_ok 4 no_hash (reopened busy_disk)) as Hok by (apply reopened_ok, busy_flat).
  assert (rooted (bd_disk (reopened busy_disk))) as Hr by (split; [done|done|exact (bo_flat _ _ _ Hok)]).
  assert (crash d d') as Hc by (apply crash_lucky, (bool_decide_eq_true_1 _); by vm_compute).
  destruct (do_get 4 no_hash [x62] 1 None (reopened d')) as [r s2] eqn:Eg.
  pose proof (stored_object_survives_power_loss 4 no_hash 77 [x62] [x01; x02; x03] _ _ history d' 4 no_hash 1 None r s2 Hok Hr Hput eq_refl Hc ltac:(lia) Eg) as H.
  destruct r as [out|e]; [by rewrite H|]. assert ((do_get 4 no_hash [x62] 1 None (reopened d')).1 = Unexpected e) as E by (by rewrite Eg). exfalso. clear - E. vm_compute in E. discriminate.
Defined.
End BlobExamples.
