(* ===== verification/Budget.v ===== *)
(** * The memory budget and the arena

    [include/elysiumkv/memory_budget.hpp]: one counter a process's instances share; [src/memtable/arena.cpp]:
    the bump allocator under a memtable, which reports every block it takes. *)

From S2P Require Import Prelude.

(** ** The budget *)

Record MemoryBudget := { mb_total : Z; mb_used : Z }.

Definition try_acquire (n : Z) (b : MemoryBudget) : bool * MemoryBudget :=
  if mb_total b <? u64 (mb_used b + n) then (false, b) else (true, {| mb_total := mb_total b; mb_used := u64 (mb_used b + n) |}).

(** The answer is whether the budget still holds; the charge is made either way. *)
Definition try_acquire_over (n : Z) (b : MemoryBudget) : bool * MemoryBudget :=
  (u64 (mb_used b + n) <=? mb_total b, {| mb_total := mb_total b; mb_used := u64 (mb_used b + n) |}).

Definition release (n : Z) (b : MemoryBudget) : MemoryBudget := {| mb_total := mb_total b; mb_used := u64 (mb_used b - n) |}.

Definition overage (b : MemoryBudget) : Z := if mb_total b <? mb_used b then mb_used b - mb_total b else 0.

Lemma u64_add_l a b : u64 (u64 a + b) = u64 (a + b).
Proof. unfold u64. apply Zplus_mod_idemp_l. Qed.

Lemma u64_sub_l a b : u64 (u64 a - b) = u64 (a - b).
Proof. unfold u64. apply Zminus_mod_idemp_l. Qed.

Lemma u64_sub_r a b : u64 (a - u64 b) = u64 (a - b).
Proof. unfold u64. apply Zminus_mod_idemp_r. Qed.

Lemma u64_sub_add_l a b c : u64 (u64 a - b + c) = u64 (a - b + c).
Proof. rewrite <- (u64_add_l (u64 a - b)), u64_sub_l. by rewrite u64_add_l. Qed.

(** ** The arena

    An address is a block and an offset into it; blocks come from [operator new], which aligns them to
    [kAlignment], the platform's [alignof(std::max_align_t)]. *)

Definition kBlockBytes : Z := 4096.

Definition kAlignment : Z := 16.

(** The size of a pointer. *)
Definition kPointerBytes : Z := 8.

Record Arena := {
  ar_head : option (nat * Z);
  ar_remaining : Z;
  ar_blocks : list Z;
  ar_memory_usage : Z;
  ar_budget : option MemoryBudget
}.

Definition new_arena : Arena := {| ar_head := None; ar_remaining := 0; ar_blocks := []; ar_memory_usage := 0; ar_budget := None |}.

(** [set_budget]: what the budget before it is left with, and the arena. [same] is equality of the pointers. *)
Definition set_budget (same : bool) (budget : option MemoryBudget) (a : Arena) : option MemoryBudget * Arena :=
  if same then (ar_budget a, a)
  else
    let held := ar_memory_usage a in
    (release held <$> ar_budget a,
     {| ar_head := ar_head a; ar_remaining := ar_remaining a; ar_blocks := ar_blocks a; ar_memory_usage := held;
        ar_budget := (fun b => if 0 <? held then (try_acquire_over held b).2 else b) <$> budget |}).

(** The destructor: the budget it leaves. *)
Definition destroy_arena (a : Arena) : option MemoryBudget := release (ar_memory_usage a) <$> ar_budget a.

Definition allocate_new_block (block_bytes : Z) (a : Arena) : nat * Arena :=
  let charge := u64 (block_bytes + kPointerBytes) in
  (length (ar_blocks a),
   {| ar_head := ar_head a; ar_remaining := ar_remaining a; ar_blocks := ar_blocks a ++ [block_bytes]; ar_memory_usage := u64 (ar_memory_usage a + charge);
      ar_budget := (fun b => (try_acquire_over charge b).2) <$> ar_budget a |}).

Definition bump (head : option (nat * Z)) (remaining : Z) (a : Arena) : Arena :=
  {| ar_head := head; ar_remaining := remaining; ar_blocks := ar_blocks a; ar_memory_usage := ar_memory_usage a; ar_budget := ar_budget a |}.

Definition allocate_fallback (n : Z) (a : Arena) : option (nat * Z) * Arena :=
  if kBlockBytes / 4 <? n then let '(block, a) := allocate_new_block n a in (Some (block, 0), a)
  else
    let '(block, a) := allocate_new_block kBlockBytes a in
    (Some (block, 0), bump (Some (block, n)) (kBlockBytes - n) a).

Definition advance (head : option (nat * Z)) (n : Z) : option (nat * Z) := (fun h => (h.1, h.2 + n)) <$> head.

Definition allocate (n : Z) (a : Arena) : option (nat * Z) * Arena :=
  let n := if n =? 0 then 1 else n in
  if n <=? ar_remaining a then (ar_head a, bump (advance (ar_head a) n) (ar_remaining a - n) a) else allocate_fallback n a.

Definition allocate_aligned (n : Z) (a : Arena) : option (nat * Z) * Arena :=
  let slop := match ar_head a with Some (_, offset) => Z.land offset (kAlignment - 1) | None => 0 end in
  let padding := if slop =? 0 then 0 else kAlignment - slop in
  if u64 (n + padding) <=? ar_remaining a then
    (advance (ar_head a) padding, bump (advance (ar_head a) (u64 (n + padding))) (ar_remaining a - u64 (n + padding)) a)
  else allocate_fallback n a.

(** *** What was handed out *)

Record Region := { re_block : nat; re_offset : Z; re_size : Z; re_aligned : bool }.

Definition apart (x y : Region) : Prop := re_block x <> re_block y \/ re_offset x + re_size x <= re_offset y \/ re_offset y + re_size y <= re_offset x.

(** A request with its size and whether it wants alignment; the second component lists every address given. *)
Definition request (st : Arena * list Region) (q : bool * Z) : Arena * list Region :=
  let '(r, a) := if q.1 then allocate_aligned q.2 st.1 else allocate q.2 st.1 in
  (a, match r with Some (b, o) => {| re_block := b; re_offset := o; re_size := q.2; re_aligned := q.1 |} :: st.2 | None => st.2 end).

(** Each address lies in a block, aligned where it was asked to be; nothing above [ar_head] is given out. *)
Record arena_ok (a : Arena) (given : list Region) : Prop := {
  ao_inside : forall x, x ∈ given -> exists n, ar_blocks a !! re_block x = Some n /\ 0 <= re_offset x /\ re_offset x + re_size x <= n;
  ao_aligned : forall x, x ∈ given -> re_aligned x = true -> re_offset x mod kAlignment = 0;
  ao_apart : forall i j x y, given !! i = Some x -> given !! j = Some y -> i <> j -> apart x y;
  ao_head : match ar_head a with
            | None => ar_remaining a = 0
            | Some (b, h) => ar_blocks a !! b = Some kBlockBytes /\ 0 <= h /\ 0 <= ar_remaining a /\ h + ar_remaining a = kBlockBytes /\ forall x, x ∈ given -> re_block x = b -> re_offset x + re_size x <= h
            end
}.

Lemma arena_ok_new : arena_ok new_arena [].
Proof. split; cbn; [by intros x ?%elem_of_nil..|done|done]. Qed.

(** Handing out a region apart from the others. *)
Lemma arena_ok_more a a' given x : arena_ok a given -> ar_blocks a `prefix_of` ar_blocks a' ->
  (exists n, ar_blocks a' !! re_block x = Some n /\ 0 <= re_offset x /\ re_offset x + re_size x <= n) -> (re_aligned x = true -> re_offset x mod kAlignment = 0) ->
  (forall y, y ∈ given -> apart x y) ->
  match ar_head a' with
  | None => ar_remaining a' = 0
  | Some (b, h) => ar_blocks a' !! b = Some kBlockBytes /\ 0 <= h /\ 0 <= ar_remaining a' /\ h + ar_remaining a' = kBlockBytes /\ forall y, y ∈ x :: given -> re_block y = b -> re_offset y + re_size y <= h
  end -> arena_ok a' (x :: given).
Proof.
  intros [H1 H2 H3 H4] [k Hk] Hx Hal Hap Hh. split; [intros y [-> |Hy]%elem_of_cons; [done|]|intros y [-> |Hy]%elem_of_cons; [done|by apply H2]| |done].
  - destruct (H1 y Hy) as (n & Hn & ? & ?). exists n. split; [|done]. rewrite Hk. by apply lookup_app_l_Some.
  - intros [|i] [|j] y z; cbn; [done|intros [= <-] Hz _; by apply Hap, list_elem_of_lookup_2 with j|intros Hy [= <-] _|intros Hy Hz Hne; apply (H3 i j); [done|done|lia]].
    destruct (Hap y (list_elem_of_lookup_2 _ _ _ Hy)) as [?|[?|?]]; [left; congruence|right; right; lia|right; left; lia].
Qed.

Lemma fallback_ok n a given al m : arena_ok a given -> 0 <= m <= n -> match (allocate_fallback n a) with (Some (b, o), a') => arena_ok a' ({| re_block := b; re_offset := o; re_size := m; re_aligned := al |} :: given) | _ => False end.
Proof.
  intros Hok Hm. pose proof Hok as [H1 _ _ H4]. assert (forall y, y ∈ given -> re_block y <> length (ar_blocks a)) as Hfresh.
  { intros y Hy E. destruct (H1 y Hy) as (k & Hk & _). apply lookup_lt_Some in Hk. lia. }
  unfold allocate_fallback, allocate_new_block. destruct (Z.ltb_spec (kBlockBytes / 4) n).
  - apply (arena_ok_more a); cbn; [done|by eexists| |done|intros y Hy; left; cbn; by apply not_eq_sym, Hfresh|].
    + exists n. split; [by rewrite lookup_app_r, Nat.sub_diag by lia|lia].
    + destruct (ar_head a) as [[b h]|]; [|done]. destruct H4 as (Hb & ? & ? & ? & Hle). split; [by apply lookup_app_l_Some|]. split_and!; [done..|]. intros y [-> |Hy]%elem_of_cons Eb; [|by apply Hle].
      cbn in Eb. apply lookup_lt_Some in Hb. lia.
  - assert (n <= 1024) by (change (kBlockBytes / 4) with 1024 in *; lia). apply (arena_ok_more a); cbn; [done|by eexists| |done|intros y Hy; left; cbn; by apply not_eq_sym, Hfresh|].
    + exists kBlockBytes. split; [by rewrite lookup_app_r, Nat.sub_diag by lia|unfold kBlockBytes; lia].
    + split; [by rewrite lookup_app_r, Nat.sub_diag by lia|]. unfold kBlockBytes. split_and!; [lia..|]. intros y [-> |Hy]%elem_of_cons Eb; [cbn; lia|]. by apply Hfresh in Eb.
Qed.

(** From the block in hand, above everything given from it. *)
Lemma bump_ok a given b h o m t al : arena_ok a given -> ar_head a = Some (b, h) -> 0 <= m -> h <= o -> o + m <= t -> t <= kBlockBytes -> (al = true -> o mod kAlignment = 0) ->
  arena_ok (bump (Some (b, t)) (kBlockBytes - t) a) ({| re_block := b; re_offset := o; re_size := m; re_aligned := al |} :: given).
Proof.
  intros Hok Eh Hm Ho Ht Hb Hal. pose proof Hok as [_ _ _ H4]. rewrite Eh in H4. destruct H4 as (Hbl & H0 & Hr & Hs & Hle). apply (arena_ok_more a); cbn; [done|done| |done| |].
  - exists kBlockBytes. split; [done|lia].
  - intros y Hy. destruct (decide (re_block y = b)) as [E|Hne]; [|left; cbn; congruence]. right. right. cbn. specialize (Hle y Hy E). lia.
  - split; [done|]. split_and!; [lia..|]. intros y [-> |Hy]%elem_of_cons E; [cbn; lia|]. specialize (Hle y Hy E). lia.
Qed.

Lemma land_mod o : 0 <= o -> Z.land o (kAlignment - 1) = o mod kAlignment.
Proof. intros H. change (kAlignment - 1) with (Z.ones 4). by rewrite Z.land_ones. Qed.

Lemma request_ok st q : arena_ok st.1 st.2 -> 0 <= q.2 < 2 ^ 63 -> (q.1 = true -> 0 < q.2) -> arena_ok (request st q).1 (request st q).2.
Proof.
  destruct st as [a given], q as [al n]. cbn [fst snd]. intros Hok Hn Hpos. unfold request. cbn [fst snd]. pose proof (ao_head _ _ Hok) as Hh. destruct al.
  - specialize (Hpos eq_refl). unfold allocate_aligned. destruct (ar_head a) as [[b h]|] eqn:Eh.
    + destruct Hh as (Hb & H0 & Hr & Hs & Hle). rewrite land_mod by done. pose proof (Z.mod_pos_bound h kAlignment ltac:(done)) as Hm.
      set (padding := if h mod kAlignment =? 0 then 0 else kAlignment - h mod kAlignment).
      assert (0 <= padding < 16 /\ (h + padding) mod kAlignment = 0) as [Hpad Hmod].
      { unfold padding. unfold kAlignment in *. pose proof (Z.div_mod h 16 ltac:(done)). destruct (Z.eqb_spec (h mod 16) 0) as [E|E]; [split; [lia|by rewrite Z.add_0_r]|]. split; [lia|].
        replace (h + (16 - h mod 16)) with ((h / 16 + 1) * 16) by lia. by apply Z_mod_mult. }
      rewrite u64_small by (unfold is_u64; lia). destruct (Z.leb_spec (n + padding) (ar_remaining a)).
      * cbn [advance fmap option_fmap option_map fst snd]. replace (ar_remaining a - (n + padding)) with (kBlockBytes - (h + (n + padding))) by lia. by apply (bump_ok a given b h); try done; lia.
      * pose proof (fallback_ok n a given true n Hok ltac:(lia)) as Hf. destruct (allocate_fallback n a) as [[[b1 o1]|] a1]; [done|by destruct Hf].
    + rewrite Hh. cbn [Z.eqb]. rewrite Z.add_0_r, u64_small by (unfold is_u64; lia). destruct (Z.leb_spec n 0); [lia|].
      pose proof (fallback_ok n a given true n Hok ltac:(lia)) as Hf. destruct (allocate_fallback n a) as [[[b1 o1]|] a1]; [done|by destruct Hf].
  - unfold allocate. set (n' := if n =? 0 then 1 else n). assert (n <= n' /\ 0 < n') as [Hn1 Hn2] by (unfold n'; destruct (Z.eqb_spec n 0); lia). destruct (Z.leb_spec n' (ar_remaining a)).
    + destruct (ar_head a) as [[b h]|] eqn:Eh; [|lia]. destruct Hh as (Hb & H0 & Hr & Hs & Hle). cbn [advance fmap option_fmap option_map fst snd].
      replace (ar_remaining a - n') with (kBlockBytes - (h + n')) by lia. apply (bump_ok a given b h); try done; lia.
    + pose proof (fallback_ok n' a given false n Hok ltac:(lia)) as Hf. destruct (allocate_fallback n' a) as [[[b1 o1]|] a1]; [done|by destruct Hf].
Qed.

Lemma request_gives st q : arena_ok st.1 st.2 -> 0 <= q.2 < 2 ^ 63 -> (q.1 = true -> 0 < q.2) -> exists x, (request st q).2 = x :: st.2 /\ re_size x = q.2 /\ re_aligned x = q.1.
Proof.
  destruct st as [a given], q as [al n]. cbn [fst snd]. intros Hok Hn Hpos. pose proof (ao_head _ _ Hok) as Hh. unfold request. cbn [fst snd].
  assert (exists p, (if al then allocate_aligned n a else allocate n a).1 = Some p) as [[b o] E]; [|destruct (if al then _ else _) as [r a']; cbn in E; rewrite E; by eexists].
  assert (forall m, exists p, (allocate_fallback m a).1 = Some p) as Hf by (intros m; unfold allocate_fallback; destruct (_ <? m); by eexists). destruct al.
  - specialize (Hpos eq_refl). unfold allocate_aligned. destruct (ar_head a) as [[b h]|]; cbn [advance fmap option_fmap option_map].
    + cbv zeta. destruct (_ <=? ar_remaining a); [by eexists|apply Hf].
    + rewrite Hh, Z.eqb_refl, Z.add_0_r, u64_small by (unfold is_u64; lia). destruct (Z.leb_spec n 0); [lia|]. apply Hf.
  - unfold allocate. destruct (Z.leb_spec (if n =? 0 then 1 else n) (ar_remaining a)) as [Hle|]; [|apply Hf]. destruct (ar_head a) as [p|]; [by exists p|]. destruct (Z.eqb_spec n 0); lia.
Qed.

(** *** What the budget is told *)

Definition charged (a a' : Arena) : Prop :=
  match ar_budget a, ar_budget a' with
  | Some b, Some b' => u64 (mb_used b' - ar_memory_usage a') = u64 (mb_used b - ar_memory_usage a)
  | None, None => True
  | _, _ => False
  end.

Lemma u64_sub_add_same a b n : u64 (u64 (a + n) - u64 (b + n)) = u64 (a - b).
Proof. rewrite u64_sub_l. unfold u64. rewrite <- Zminus_mod_idemp_r, Z.mod_mod, Zminus_mod_idemp_r by done. f_equal. lia. Qed.

Lemma new_block_charged n a : charged a (allocate_new_block n a).2.
Proof. unfold charged, allocate_new_block. cbn. destruct (ar_budget a) as [b|]; [|done]. cbn. apply u64_sub_add_same. Qed.

Lemma fallback_charged n a : charged a (allocate_fallback n a).2.
Proof.
  unfold allocate_fallback. destruct (_ <? n).
  - pose proof (new_block_charged n a) as H. by destruct (allocate_new_block n a).
  - pose proof (new_block_charged kBlockBytes a) as H. by destruct (allocate_new_block kBlockBytes a).
Qed.

Lemma charged_refl a : charged a a.
Proof. unfold charged. by destruct (ar_budget a). Qed.

Lemma request_charged st q : charged st.1 (request st q).1.
Proof.
  destruct st as [a given], q as [al n]. unfold request. cbn [fst snd]. assert (charged a (if al then allocate_aligned n a else allocate n a).2) as H; [|by destruct (if al then _ else _) as [r a']].
  destruct al.
  - unfold allocate_aligned. destruct (ar_head a) as [[b h]|]; cbv zeta; (destruct (_ <=? ar_remaining a); [exact (charged_refl a)|apply fallback_charged]).
  - unfold allocate. destruct (_ <=? _); [exact (charged_refl a)|apply fallback_charged].
Qed.

Lemma charged_trans a b c : charged a b -> charged b c -> charged a c.
Proof. unfold charged. destruct (ar_budget a), (ar_budget b), (ar_budget c); try done. congruence. Qed.

Definition request_fits (q : bool * Z) : Prop := 0 <= q.2 < 2 ^ 63 /\ (q.1 = true -> 0 < q.2).

Lemma requests_ok l : forall st, Forall request_fits l -> arena_ok st.1 st.2 ->
  arena_ok (fold_left request l st).1 (fold_left request l st).2 /\ charged st.1 (fold_left request l st).1 /\ length (fold_left request l st).2 = (length l + length st.2)%nat.
Proof.
  induction l as [|q l IH]; intros st Hl Hok; cbn [fold_left length]; [split_and!; [done|apply charged_refl|done]|]. apply Forall_cons in Hl as [[Hq Hp] Hl].
  destruct (IH (request st q) Hl (request_ok st q Hok Hq Hp)) as (H1 & H2 & H3). split_and!; [done|eapply charged_trans; [apply request_charged|done]|].
  destruct (request_gives st q Hok Hq Hp) as (x & E & _). rewrite H3, E. cbn. lia.
Qed.

(** The arena hands out memory that is its own. For any sequence of requests, each gets an address; the
    addresses lie inside blocks the arena allocated, no two requests overlap, and an aligned request is
    aligned. *)
Theorem arena_regions_disjoint l :
  Forall request_fits l ->
  let '(a, given) := fold_left request l (new_arena, []) in
  length given = length l /\
  (forall x, x ∈ given -> (re_aligned x = true -> re_offset x mod kAlignment = 0) /\
    exists n, ar_blocks a !! re_block x = Some n /\ 0 <= re_offset x /\ re_offset x + re_size x <= n) /\
  (forall i j x y, given !! i = Some x -> given !! j = Some y -> i <> j -> apart x y).
Proof.
  intros Hl. destruct (requests_ok l (new_arena, []) Hl arena_ok_new) as ([H1 H2 H3 _] & _ & Hn). destruct (fold_left request l (new_arena, [])) as [a given]. cbn [fst snd length] in *.
  split; [lia|]. split; [|done]. intros x Hx. split; [by apply H2|by apply H1].
Qed.

(** An arena gives its budget back every byte it charged, wherever between two requests the budget was
    attached. *)
Lemma arena_charges_exactly l l' b :
  Forall request_fits l -> Forall request_fits l' -> is_u64 (mb_used b) ->
  let st := fold_left request l (new_arena, []) in
  let a := (set_budget false (Some b) st.1).2 in
  (mb_used <$> destroy_arena (fold_left request l' (a, st.2)).1) = Some (mb_used b).
Proof.
  intros Hl Hl' Hb st a. destruct (requests_ok l (new_arena, []) Hl arena_ok_new) as (Hok & _ & _). fold st in Hok.
  assert (exists x, ar_budget a = Some x /\ u64 (mb_used x - ar_memory_usage a) = mb_used b) as (x & Ex & Hx).
  { unfold a, set_budget. cbn. eexists. split; [done|]. destruct (Z.ltb_spec 0 (ar_memory_usage st.1)); cbn; [rewrite u64_sub_l, Z.add_simpl_r; by apply u64_small|].
    assert (is_u64 (ar_memory_usage st.1)) as [? _].
    { unfold st. clear. assert (forall l st, is_u64 (ar_memory_usage st.1) -> is_u64 (ar_memory_usage (fold_left request l st).1)) as H; [|by apply H].
      induction l0 as [|q l0 IH]; intros [a given] Ha; [done|]. cbn. apply IH. unfold request. cbn. assert (is_u64 (ar_memory_usage (if q.1 then allocate_aligned q.2 a else allocate q.2 a).2)) as H; [|by destruct (if q.1 then _ else _)].
      assert (forall n, is_u64 (ar_memory_usage (allocate_fallback n a).2)) as Hf by (intros n; unfold allocate_fallback, allocate_new_block; destruct (_ <? n); cbn; apply u64_range).
      destruct q.1; [unfold allocate_aligned|unfold allocate]; cbv zeta; (destruct (_ <=? ar_remaining a); [done|apply Hf]). }
    replace (ar_memory_usage st.1) with 0 by lia. rewrite Z.sub_0_r. by apply u64_small. }
  destruct (requests_ok l' (a, st.2) Hl') as (_ & Hc & _); [destruct Hok as [H1 H2 H3 H4]; split; done|]. cbn [fst] in Hc. unfold charged in Hc. rewrite Ex in Hc. unfold destroy_arena.
  destruct (ar_budget (fold_left request l' (a, st.2)).1) as [b'|]; [|done]. cbn [fmap option_fmap option_map mb_used release]. by rewrite Hc, Hx.
Qed.
