(* ===== verification/RangeCache.v ===== *)
(** * The bookkeeping of the cache layers

    [src/blob/range_cache.cpp]: which byte ranges of which objects a cache holds, and what goes next. Where the
    bytes are is a payload's business, memory in one cache and files in the other; the class [Payload] is the
    interface of [range_cache.hpp], and its laws let a payload lose what it holds at any moment. *)

From S2P Require Import Prelude Slice Blob.

(** ** Definitions *)

(** What a miss reads; [kReadToEnd] is [None]. *)
Record FetchPlan := { fp_offset : Z; fp_len : option Z }.

Definition plan_fetch (offset : Z) (len : option Z) (granularity : Z) : FetchPlan :=
  if granularity =? 0 then {| fp_offset := offset; fp_len := len |}
  else
    let aligned := offset - offset mod granularity in
    match len with
    | None => {| fp_offset := aligned; fp_len := None |}
    | Some len =>
        let end_ := u64 (offset + len) in
        let rounded_end := if end_ mod granularity =? 0 then end_ else u64 (end_ + (granularity - end_ mod granularity)) in
        let rounded_end := if rounded_end <? end_ then end_ else rounded_end in
        {| fp_offset := aligned; fp_len := Some (u64 (rounded_end - aligned)) |}
    end.

(** [RangeCacheCore::Payload]. A cache has several cores over one place for bytes; the first argument is the
    core that asks. *)
Class Payload (P : Type) := {
  pl_store : nat -> bytes -> Z -> bytes -> P -> bool * P;
  pl_load : nat -> bytes -> Z -> Z -> Z -> P -> option bytes * P;
  pl_drop : nat -> bytes -> P -> P
}.

Record Range := { rg_offset : Z; rg_size : Z; rg_to_end : bool }.

Record Object := { ob_ranges : list Range; ob_bytes : Z }.

(** The list is of names, the most recently used in front; an object's place in it is its name's. *)
Record RangeCacheCore := { rc_objects : gmap bytes Object; rc_recency : list bytes; rc_cached_bytes : Z }.

Definition empty_core : RangeCacheCore := {| rc_objects := ∅; rc_recency := []; rc_cached_bytes := 0 |}.

Definition erase_name (name : bytes) (l : list bytes) : list bytes := List.filter (fun n => negb (bool_decide (n = name))) l.

Definition touch (name : bytes) (c : RangeCacheCore) : RangeCacheCore :=
  {| rc_objects := rc_objects c; rc_recency := name :: erase_name name (rc_recency c); rc_cached_bytes := rc_cached_bytes c |}.

(** Whether a range answers a request: how far into it, and how much of it. *)
Definition answer_from (r : Range) (offset : Z) (len : option Z) : option (Z * Z) :=
  if offset <? rg_offset r then None
  else
    let skip := offset - rg_offset r in
    if (rg_size r <? skip) && negb (rg_to_end r) then None
    else
      let rest := rg_size r - Z.min skip (rg_size r) in
      match len with
      | None => if rg_to_end r then Some (skip, rest) else None
      | Some len =>
          if rg_size r <? u64 (skip + len) then if rg_to_end r then Some (skip, rest) else None
          else Some (skip, len)
      end.

Fixpoint find_answer (ranges : list Range) (offset : Z) (len : option Z) : option (Range * (Z * Z)) :=
  match ranges with
  | [] => None
  | r :: rest => match answer_from r offset len with Some a => Some (r, a) | None => find_answer rest offset len end
  end.

(** The range at an offset put in place of the one that is there. *)
Fixpoint replace_range (r : Range) (ranges : list Range) : list Range :=
  match ranges with
  | [] => []
  | s :: rest => if rg_offset s =? rg_offset r then r :: rest else s :: replace_range r rest
  end.

Section Core.
Context {P : Type} {ops : Payload P} (max_bytes : Z) (self : nat).

Definition drop_object (name : bytes) (c : RangeCacheCore) (p : P) : RangeCacheCore * P :=
  match rc_objects c !! name with
  | None => (c, p)
  | Some o =>
      ({| rc_objects := delete name (rc_objects c); rc_recency := erase_name name (rc_recency c);
          rc_cached_bytes := u64 (rc_cached_bytes c - ob_bytes o) |}, pl_drop self name p)
  end.

Definition lookup_range (name : bytes) (offset : Z) (len : option Z) (c : RangeCacheCore) (p : P) : option bytes * (RangeCacheCore * P) :=
  match rc_objects c !! name with
  | None => (None, (c, p))
  | Some o =>
      match find_answer (ob_ranges o) offset len with
      | None => (None, (c, p))
      | Some (r, (skip, wanted)) =>
          match pl_load self name (rg_offset r) skip wanted p with
          | (None, p) => (None, drop_object name c p)
          | (Some b, p) => (Some b, (touch name c, p))
          end
      end
  end.

(** The least recently used object that is not [keep]. *)
Definition victim (keep : bytes) (c : RangeCacheCore) : option bytes :=
  List.find (fun n => negb (bool_decide (n = keep))) (rev (rc_recency c)).

(** The loop drops one object a round, so there are no more rounds than objects. *)
Fixpoint make_room_loop (fuel : nat) (wanted : Z) (keep : bytes) (c : RangeCacheCore) (p : P) : bool * (RangeCacheCore * P) :=
  if max_bytes <? u64 (rc_cached_bytes c + wanted) then
    match fuel with
    | O => (false, (c, p))
    | S fuel =>
        match victim keep c with
        | None => (false, (c, p))
        | Some name => let '(c, p) := drop_object name c p in make_room_loop fuel wanted keep c p
        end
    end
  else (true, (c, p)).

Definition make_room (wanted : Z) (keep : bytes) (c : RangeCacheCore) (p : P) : bool * (RangeCacheCore * P) :=
  make_room_loop (length (rc_recency c)) wanted keep c p.

(** The index after the payload took the bytes. *)
Definition record_range (name : bytes) (r : Range) (c : RangeCacheCore) : RangeCacheCore :=
  let '(o, recency) :=
    match rc_objects c !! name with
    | Some o => (o, rc_recency c)
    | None => ({| ob_ranges := []; ob_bytes := 0 |}, name :: rc_recency c)
    end in
  let '(ranges, held, cached) :=
    match List.find (fun s => rg_offset s =? rg_offset r) (ob_ranges o) with
    | Some same => (replace_range r (ob_ranges o), u64 (ob_bytes o - rg_size same), u64 (rc_cached_bytes c - rg_size same))
    | None => (ob_ranges o ++ [r], ob_bytes o, rc_cached_bytes c)
    end in
  touch name
    {| rc_objects := <[name := {| ob_ranges := ranges; ob_bytes := u64 (held + rg_size r) |}]> (rc_objects c);
       rc_recency := recency; rc_cached_bytes := u64 (cached + rg_size r) |}.

Definition insert_range (name : bytes) (offset : Z) (b : bytes) (to_end : bool) (c : RangeCacheCore) (p : P) : RangeCacheCore * P :=
  if max_bytes <? zlen b then (c, p)
  else
    match make_room (zlen b) name c p with
    | (false, cp) => cp
    | (true, (c, p)) =>
        match pl_store self name offset b p with
        | (false, p) => (c, p)
        | (true, p) => (record_range name {| rg_offset := offset; rg_size := zlen b; rg_to_end := to_end |} c, p)
        end
    end.

Definition invalidate (name : bytes) (c : RangeCacheCore) (p : P) : RangeCacheCore * P :=
  match rc_objects c !! name with
  | None => (c, pl_drop self name p)
  | Some _ => drop_object name c p
  end.
End Core.

(** ** What a payload promises

    It keeps what it took under a name and an offset until it loses it, and never confuses two of them. *)

Class PayloadLaws {P} (ops : Payload P) (ok : P -> Prop) (held : P -> nat -> bytes -> Z -> option bytes) : Prop := {
  law_store_ok : forall i n o b p p', ok p -> is_valid_object_name n = true -> is_u64 o -> pl_store i n o b p = (true, p') -> held p' i n o = Some b;
  law_store_frame : forall i n o b p r p' j m o', ok p -> is_valid_object_name n = true -> is_u64 o -> is_valid_object_name m = true -> is_u64 o' -> pl_store i n o b p = (r, p') ->
    r = false \/ (m, o') <> (n, o) -> held p' j m o' = held p j m o';
  law_store_keeps : forall i n o b p r p', ok p -> pl_store i n o b p = (r, p') -> ok p';
  law_load_ok : forall i n o skip len p out p', ok p -> 0 <= skip -> 0 <= len -> pl_load i n o skip len p = (Some out, p') ->
    exists b, held p i n o = Some b /\ out = take (Z.to_nat len) (drop (Z.to_nat skip) b);
  law_load_frame : forall i n o skip len p r p', ok p -> pl_load i n o skip len p = (r, p') -> ok p' /\ forall j m o', held p' j m o' = held p j m o';
  law_drop : forall i n p, ok p -> ok (pl_drop i n p) /\ forall j m o b, held (pl_drop i n p) j m o = Some b -> held p j m o = Some b
}.

(** ** Accounting *)

Definition sizes (l : list Range) : Z := foldr (fun r acc => rg_size r + acc) 0 l.

Definition bytes_of (objects : gmap bytes Object) (n : bytes) : Z := match objects !! n with Some o => ob_bytes o | None => 0 end.

Definition total (objects : gmap bytes Object) (l : list bytes) : Z := foldr (fun n acc => bytes_of objects n + acc) 0 l.

Record object_ok (o : Object) : Prop := {
  oo_bytes : ob_bytes o = sizes (ob_ranges o);
  oo_sizes : Forall (fun r => 0 <= rg_size r /\ is_u64 (rg_offset r)) (ob_ranges o);
  oo_distinct : NoDup (map rg_offset (ob_ranges o))
}.

(** The counters are the sizes of what the index lists, within the bound; the recency list is the index. *)
Record core_ok (max_bytes : Z) (c : RangeCacheCore) : Prop := {
  co_distinct : NoDup (rc_recency c);
  co_listed : forall n, n ∈ rc_recency c <-> is_Some (rc_objects c !! n);
  co_objects : forall n o, rc_objects c !! n = Some o -> object_ok o;
  co_total : rc_cached_bytes c = total (rc_objects c) (rc_recency c);
  co_bound : 0 <= rc_cached_bytes c <= max_bytes
}.

Lemma elem_of_erase n m l : m ∈ erase_name n l <-> m ∈ l /\ m <> n.
Proof. unfold erase_name. rewrite elem_of_filter_bool, negb_true_iff, bool_decide_eq_false. done. Qed.

Lemma NoDup_erase n l : NoDup l -> NoDup (erase_name n l).
Proof.
  induction 1 as [|m l Hm Hl IH]; cbn; [constructor|]. case_bool_decide; cbn; [done|]. constructor; [|done]. intros [? _]%elem_of_erase. done.
Qed.

Lemma erase_absent n l : n ∉ l -> erase_name n l = l.
Proof. induction l as [|m l IH]; cbn; [done|]. intros [Hm Hl]%not_elem_of_cons. rewrite bool_decide_eq_false_2 by done. cbn. f_equal. by apply IH. Qed.

Lemma erase_length n l : NoDup l -> n ∈ l -> length l = S (length (erase_name n l)).
Proof.
  induction 1 as [|m l Hm Hl IH]; [by intros ?%elem_of_nil|]. intros [-> |Hn]%elem_of_cons; cbn.
  - rewrite bool_decide_eq_true_2 by done. cbn. fold (erase_name m l). by rewrite erase_absent.
  - rewrite bool_decide_eq_false_2 by (intros ->; done). cbn. f_equal. by apply IH.
Qed.

Lemma total_ext objects objects' l : (forall n, n ∈ l -> objects !! n = objects' !! n) -> total objects l = total objects' l.
Proof.
  induction l as [|m l IH]; intros H; [done|]. cbn. unfold bytes_of. rewrite H by (by left). f_equal. apply IH. intros n Hn. apply H. by right.
Qed.

Lemma total_split objects n l : NoDup l -> n ∈ l -> total objects l = bytes_of objects n + total objects (erase_name n l).
Proof.
  induction 1 as [|m l Hm Hl IH]; [by intros ?%elem_of_nil|]. intros [-> |Hn]%elem_of_cons; cbn.
  - rewrite bool_decide_eq_true_2 by done. cbn. fold (erase_name m l). by rewrite erase_absent.
  - rewrite bool_decide_eq_false_2 by (intros ->; done). cbn. fold (erase_name n l). unfold total in IH. rewrite (IH Hn). lia.
Qed.

Lemma sizes_nonneg l : Forall (fun r => 0 <= rg_size r /\ is_u64 (rg_offset r)) l -> 0 <= sizes l.
Proof. induction 1 as [|r l [H _] _ IH]; cbn; [done|]. unfold sizes in IH. lia. Qed.

Lemma total_nonneg objects l : (forall n o, objects !! n = Some o -> object_ok o) -> 0 <= total objects l.
Proof.
  intros H. induction l as [|m l IH]; cbn; [done|]. unfold total in IH. assert (0 <= bytes_of objects m); [|lia]. unfold bytes_of. destruct (objects !! m) as [o|] eqn:E; [|done].
  apply H in E as [-> Hs _]. by apply sizes_nonneg.
Qed.

Lemma empty_core_ok max_bytes : 0 <= max_bytes -> core_ok max_bytes empty_core.
Proof. intros H. split; cbn; [constructor| |done|done|lia]. intros n. rewrite lookup_empty, elem_of_nil. split; [done|by intros [? ?]]. Qed.

Lemma find_range o ranges s : List.find (fun s => rg_offset s =? o) ranges = Some s -> s ∈ ranges /\ rg_offset s = o.
Proof. intros H%List.find_some. rewrite Z.eqb_eq in H. by rewrite list_elem_of_In. Qed.

Lemma find_no_range o ranges : List.find (fun s => rg_offset s =? o) ranges = None -> o ∉ map rg_offset ranges.
Proof. intros H (s & -> & Hs)%list_elem_of_fmap. pose proof (List.find_none _ _ H s ltac:(by rewrite <- list_elem_of_In)) as E. cbn in E. lia. Qed.

Lemma replace_offsets r ranges : map rg_offset (replace_range r ranges) = map rg_offset ranges.
Proof. induction ranges as [|s l IH]; cbn; [done|]. destruct (rg_offset s =? rg_offset r) eqn:E; cbn; [|by rewrite IH]. apply Z.eqb_eq in E. by rewrite E. Qed.

Lemma replace_sizes r ranges s : List.find (fun s => rg_offset s =? rg_offset r) ranges = Some s -> sizes (replace_range r ranges) = sizes ranges - rg_size s + rg_size r.
Proof.
  induction ranges as [|x l IH]; cbn; [done|]. destruct (rg_offset x =? rg_offset r); [intros [= ->]; cbn; lia|]. intros H. cbn. unfold sizes in IH. rewrite IH by done. lia.
Qed.

Lemma elem_of_replace r ranges x : NoDup (map rg_offset ranges) -> x ∈ replace_range r ranges -> x = r \/ x ∈ ranges /\ rg_offset x <> rg_offset r.
Proof.
  induction ranges as [|s l IH]; cbn; [by intros _ ?%elem_of_nil|]. intros [Hs Hl]%NoDup_cons. destruct (rg_offset s =? rg_offset r) eqn:E.
  - apply Z.eqb_eq in E. intros [-> |Hx]%elem_of_cons; [by left|right]. split; [by right|]. intros Ex. apply Hs. rewrite E, <- Ex. by apply (list_elem_of_fmap_2 rg_offset).
  - apply Z.eqb_neq in E. intros [-> |Hx]%elem_of_cons; [right; split; [by left|done]|]. destruct (IH Hl Hx) as [-> |[H1 H2]]; [by left|right; split; [by right|done]].
Qed.

Lemma sizes_app l l' : sizes (l ++ l') = sizes l + sizes l'.
Proof. induction l as [|r l IH]; cbn; [done|]. unfold sizes in *. rewrite IH. lia. Qed.

Lemma size_in_object o r : object_ok o -> r ∈ ob_ranges o -> 0 <= rg_size r <= ob_bytes o.
Proof.
  intros [-> Hs _]. induction Hs as [|s l [H1 H2] Hl IH]; [by intros ?%elem_of_nil|]. pose proof (sizes_nonneg _ Hl) as Hn. intros [-> |H]%elem_of_cons; cbn; unfold sizes in *; [lia|].
  specialize (IH H). lia.
Qed.

Section Accounting.
Context {P : Type} {ops : Payload P} (max_bytes : Z) (self : nat) (Hmax : 0 <= max_bytes < 2 ^ 63).

Lemma object_in_core c n o : core_ok max_bytes c -> rc_objects c !! n = Some o -> 0 <= ob_bytes o <= rc_cached_bytes c.
Proof using Hmax.
  intros Hc Ho. assert (n ∈ rc_recency c) as Hn by (apply (co_listed _ _ Hc); by exists o). rewrite (co_total _ _ Hc), (total_split _ n _ (co_distinct _ _ Hc) Hn).
  unfold bytes_of. rewrite Ho. pose proof (total_nonneg (rc_objects c) (erase_name n (rc_recency c)) (co_objects _ _ Hc)). destruct (co_objects _ _ Hc n o Ho) as [E Hs _]. pose proof (sizes_nonneg _ Hs). lia.
Qed.

Lemma touch_ok n c : core_ok max_bytes c -> n ∈ rc_recency c -> core_ok max_bytes (touch n c).
Proof using.
  intros [H1 H2 H3 H4 H5] Hn. split; cbn; [|intros m|done| |done].
  - constructor; [|by apply NoDup_erase]. intros H%elem_of_erase. by destruct H.
  - rewrite elem_of_cons, elem_of_erase, <- H2. destruct (decide (m = n)) as [-> |Hne]; [split; [done|by left]|]. split; [by intros [?|[? _]]|by right].
  - rewrite H4. by apply total_split.
Qed.

Lemma drop_object_ok n c p c' p' : core_ok max_bytes c -> drop_object self n c p = (c', p') ->
  core_ok max_bytes c' /\ rc_objects c' = delete n (rc_objects c) /\ rc_recency c' = erase_name n (rc_recency c) /\ rc_cached_bytes c' = rc_cached_bytes c - bytes_of (rc_objects c) n.
Proof using Hmax.
  intros Hc. unfold drop_object. destruct (rc_objects c !! n) as [o|] eqn:Ho.
  - pose proof (object_in_core c n o Hc Ho) as Hb. intros [= <- <-]. cbn. destruct Hc as [H1 H2 H3 H4 H5]. assert (n ∈ rc_recency c) as Hn by (apply H2; by exists o).
    assert (u64 (rc_cached_bytes c - ob_bytes o) = rc_cached_bytes c - ob_bytes o) as -> by (unfold u64; rewrite Z.mod_small; lia). unfold bytes_of. rewrite Ho. split_and!; [|done..].
    split; cbn [rc_objects rc_recency rc_cached_bytes]; [by apply NoDup_erase|intros m|intros m x| |lia].
    + rewrite elem_of_erase, H2. destruct (decide (m = n)) as [-> |Hne]; [rewrite lookup_delete_eq; split; [by intros [_ ?]|by intros [? ?]]|rewrite lookup_delete_ne by done; tauto].
    + intros [_ H]%lookup_delete_Some. by apply (H3 m).
    + rewrite (total_ext (delete n (rc_objects c)) (rc_objects c)).
      * rewrite H4, (total_split _ n) by done. unfold bytes_of. rewrite Ho. lia.
      * intros m [_ Hm]%elem_of_erase. by rewrite lookup_delete_ne.
  - intros [= <- <-]. assert (n ∉ rc_recency c) as Hn by (rewrite (co_listed _ _ Hc), Ho; by intros [? ?]). split_and!; [done|by rewrite delete_id|by rewrite erase_absent|unfold bytes_of; rewrite Ho; lia].
Qed.

Lemma victim_spec keep c n : victim keep c = Some n -> n ∈ rc_recency c /\ n <> keep.
Proof using.
  intros H%List.find_some. destruct H as [H1 H2]. rewrite negb_true_iff, bool_decide_eq_false in H2. split; [|done]. rewrite list_elem_of_In. by apply List.in_rev.
Qed.

(** Making room drops whole objects other than the one that is to grow. *)
Lemma make_room_loop_ok fuel : forall wanted keep c p r c' p', core_ok max_bytes c -> 0 <= wanted <= max_bytes -> make_room_loop max_bytes self fuel wanted keep c p = (r, (c', p')) ->
  core_ok max_bytes c' /\ rc_objects c' ⊆ rc_objects c /\ rc_objects c' !! keep = rc_objects c !! keep /\ (r = true -> rc_cached_bytes c' + wanted <= max_bytes).
Proof using Hmax.
  induction fuel as [|fuel IH]; intros wanted keep c p r c' p' Hc Hw; cbn [make_room_loop]; pose proof (co_bound _ _ Hc) as Hb;
    assert (u64 (rc_cached_bytes c + wanted) = rc_cached_bytes c + wanted) as -> by (unfold u64; rewrite Z.mod_small; lia);
    (destruct (Z.ltb_spec max_bytes (rc_cached_bytes c + wanted)); [|intros [= <- <- <-]; split_and!; [done..|lia]]); [intros [= <- <- <-]; by split_and!|].
  destruct (victim keep c) as [n|] eqn:Ev; [|intros [= <- <- <-]; by split_and!]. apply victim_spec in Ev as [_ Hk].
  destruct (drop_object self n c p) as [c1 p1] eqn:Ed. apply drop_object_ok in Ed as (Hc1 & Ho & _); [|done]. intros (H1 & H2 & H3 & H4)%IH; [|done..].
  split_and!; [done| | |done]; [etrans; [exact H2|]; rewrite Ho; apply delete_subseteq|]. by rewrite H3, Ho, lookup_delete_ne.
Qed.

(** The loop ends because room was made or because nothing is left to drop, never for want of rounds. *)
Lemma make_room_total fuel : forall wanted keep c p c' p', core_ok max_bytes c -> 0 <= wanted <= max_bytes -> (length (rc_recency c) <= fuel)%nat ->
  make_room_loop max_bytes self fuel wanted keep c p = (false, (c', p')) -> max_bytes < rc_cached_bytes c' + wanted /\ victim keep c' = None.
Proof using Hmax.
  induction fuel as [|fuel IH]; intros wanted keep c p c' p' Hc Hw Hf; cbn [make_room_loop]; pose proof (co_bound _ _ Hc) as Hb;
    assert (u64 (rc_cached_bytes c + wanted) = rc_cached_bytes c + wanted) as -> by (unfold u64; rewrite Z.mod_small; lia);
    (destruct (Z.ltb_spec max_bytes (rc_cached_bytes c + wanted)); [|done]).
  - intros [= <- <-]. split; [lia|]. unfold victim. destruct (rc_recency c); [done|cbn in Hf; lia].
  - destruct (victim keep c) as [n|] eqn:Ev; [|intros [= <- <-]; split; [lia|done]]. pose proof (victim_spec _ _ _ Ev) as [Hn _].
    destruct (drop_object self n c p) as [c1 p1] eqn:Ed. apply drop_object_ok in Ed as (Hc1 & _ & Hr & _); [|done]. intros Hl. refine (IH _ _ _ _ _ _ Hc1 Hw _ Hl).
    rewrite Hr. rewrite (erase_length n _ (co_distinct _ _ Hc) Hn) in Hf. lia.
Qed.

Lemma regrown_ok objects recency cached n o o' : NoDup recency -> n ∈ recency -> (forall m, m ∈ recency <-> m = n \/ is_Some (objects !! m)) ->
  (forall m x, objects !! m = Some x -> object_ok x) -> total objects recency = cached -> bytes_of objects n = ob_bytes o -> object_ok o' -> 0 <= cached - ob_bytes o + ob_bytes o' <= max_bytes ->
  core_ok max_bytes (touch n {| rc_objects := <[n := o']> objects; rc_recency := recency; rc_cached_bytes := cached - ob_bytes o + ob_bytes o' |}).
Proof using.
  intros Hd Hn Hl Ho Ht Hb Ho' Hc. apply touch_ok; [|done]. split; cbn [rc_objects rc_recency rc_cached_bytes]; [done|intros m|intros m x| |done].
  - rewrite Hl. destruct (decide (m = n)) as [-> |Hne]; [rewrite lookup_insert_eq; split; [by exists o'|by left]|rewrite lookup_insert_ne by done; split; [by intros [?|?]|by right]].
  - intros [[<- <-]|[_ H]]%lookup_insert_Some; [done|by apply (Ho m)].
  - rewrite !(total_split _ n _ Hd Hn) in *. rewrite (total_ext (<[n := o']> objects) objects); [|intros m [_ Hm]%elem_of_erase; by rewrite lookup_insert_ne].
    unfold bytes_of at 1. rewrite lookup_insert_eq. lia.
Qed.

(** The index after an insertion lists the new range, once, and what it listed. *)
Lemma record_range_ok n r c : core_ok max_bytes c -> 0 <= rg_size r -> is_u64 (rg_offset r) -> rc_cached_bytes c + rg_size r <= max_bytes ->
  core_ok max_bytes (record_range n r c) /\ exists o', rc_objects (record_range n r c) = <[n := o']> (rc_objects c) /\
    forall x, x ∈ ob_ranges o' -> x = r \/ exists o, rc_objects c !! n = Some o /\ x ∈ ob_ranges o /\ rg_offset x <> rg_offset r.
Proof using Hmax.
  intros Hc Hr Hu Hroom. pose proof (co_bound _ _ Hc) as Hb. unfold record_range.
  set (start := match rc_objects c !! n with Some o => (o, rc_recency c) | None => ({| ob_ranges := []; ob_bytes := 0 |}, n :: rc_recency c) end).
  assert (object_ok start.1 /\ 0 <= ob_bytes start.1 <= rc_cached_bytes c /\ NoDup start.2 /\ n ∈ start.2 /\ (forall m, m ∈ start.2 <-> m = n \/ is_Some (rc_objects c !! m)) /\
    total (rc_objects c) start.2 = rc_cached_bytes c /\ bytes_of (rc_objects c) n = ob_bytes start.1 /\ (forall x, x ∈ ob_ranges start.1 -> exists o, rc_objects c !! n = Some o /\ x ∈ ob_ranges o))
    as (Hoo & Hle & Hd & Hin & Hl & Ht & Hbo & Hx).
  { unfold start, bytes_of. destruct (rc_objects c !! n) as [o|] eqn:Eo; cbn [fst snd ob_ranges ob_bytes].
    - pose proof (object_in_core c n o Hc Eo) as Ho. destruct Hc as [H1 H2 H3 H4 H5]. assert (n ∈ rc_recency c) as Hn by (apply H2; by exists o). split_and!; [by apply (H3 n)|lia|lia|done|done| |done|done|by eauto].
      intros m. rewrite H2. split; [by right|]. intros [-> |?]; [by exists o|done].
    - assert (n ∉ rc_recency c) as Hn by (rewrite (co_listed _ _ Hc), Eo; by intros [? ?]). destruct Hc as [H1 H2 H3 H4 H5]. split_and!; [split; cbn; [done|constructor..]|lia|lia|by constructor|by left| | |done|by intros ? ?%elem_of_nil].
      + intros m. by rewrite elem_of_cons, H2.
      + change (bytes_of (rc_objects c) n + total (rc_objects c) (rc_recency c) = rc_cached_bytes c). unfold bytes_of. rewrite Eo. lia. }
  destruct start as [o recency]. cbn [fst snd] in *. destruct Hoo as [O1 O2 O3].
  destruct (List.find (fun s => rg_offset s =? rg_offset r) (ob_ranges o)) as [same|] eqn:Ef.
  - pose proof (find_range _ _ _ Ef) as [Hs Es]. pose proof (size_in_object o same ltac:(by split) Hs) as Hsame.
    assert (u64 (u64 (ob_bytes o - rg_size same) + rg_size r) = ob_bytes o - rg_size same + rg_size r) as -> by (unfold u64; rewrite !Z.mod_small; rewrite ?Z.mod_small; lia).
    assert (u64 (u64 (rc_cached_bytes c - rg_size same) + rg_size r) = rc_cached_bytes c - ob_bytes o + (ob_bytes o - rg_size same + rg_size r)) as -> by (unfold u64; rewrite !Z.mod_small; rewrite ?Z.mod_small; lia).
    split; [eapply (regrown_ok _ _ _ n o {| ob_ranges := _; ob_bytes := _ |}); try done; [exact (co_objects _ _ Hc)| |cbn; lia]|].
    + split; cbn [ob_ranges ob_bytes]; [rewrite (replace_sizes _ _ _ Ef); lia| |by rewrite replace_offsets].
      apply Forall_forall. intros x [-> |[Hx' _]]%elem_of_replace; [done| |done]. by apply (proj1 (Forall_forall _ _) O2).
    + eexists. split; [done|]. cbn [ob_ranges]. intros x [-> |[H1 H2]]%elem_of_replace; [by left| |done]. right. destruct (Hx x H1) as (o1 & ? & ?). by exists o1.
  - apply find_no_range in Ef. assert (u64 (ob_bytes o + rg_size r) = ob_bytes o + rg_size r) as -> by (unfold u64; rewrite Z.mod_small; lia).
    assert (u64 (rc_cached_bytes c + rg_size r) = rc_cached_bytes c - ob_bytes o + (ob_bytes o + rg_size r)) as -> by (unfold u64; rewrite Z.mod_small; lia).
    split; [eapply (regrown_ok _ _ _ n o {| ob_ranges := _; ob_bytes := _ |}); try done; [exact (co_objects _ _ Hc)| |cbn; lia]|].
    + split; cbn [ob_ranges ob_bytes]; [rewrite sizes_app; cbn; lia| |].
      * apply Forall_app. split; [done|]. by apply Forall_singleton.
      * rewrite List.map_app. apply NoDup_app. split_and!; [done| |cbn; apply NoDup_singleton]. cbn. intros x H1 ->%list_elem_of_singleton. done.
    + eexists. split; [done|]. cbn [ob_ranges]. intros x [H1|H1]%elem_of_app; [|left; by apply list_elem_of_singleton]. right. destruct (Hx x H1) as (o1 & Ho1 & Hx1). exists o1. split_and!; [done..|].
      intros E. apply Ef. rewrite <- E. by apply (list_elem_of_fmap_2 rg_offset).
Qed.
End Accounting.

(** ** What the ranges say

    A range a cache lists is, as long as the payload has it, the bytes of the object below. *)

Definition range_true (content : option bytes) (r : Range) (b : bytes) : Prop :=
  zlen b = rg_size r /\ exists c, content = Some c /\ b = read_slice c (rg_offset r) (if rg_to_end r then None else Some (rg_size r)).

Record coherent {P} (held : P -> nat -> bytes -> Z -> option bytes) (view : bytes -> option bytes) (self : nat) (c : RangeCacheCore) (p : P) : Prop := {
  ch_named : forall n o, rc_objects c !! n = Some o -> is_valid_object_name n = true;
  ch_true : forall n o r b, rc_objects c !! n = Some o -> r ∈ ob_ranges o -> held p self n (rg_offset r) = Some b -> range_true (view n) r b
}.

Lemma find_answer_spec ranges offset len r skip wanted : find_answer ranges offset len = Some (r, (skip, wanted)) -> r ∈ ranges /\ answer_from r offset len = Some (skip, wanted).
Proof.
  induction ranges as [|x l IH]; cbn; [done|]. destruct (answer_from x offset len) as [a|] eqn:E; [intros [= <- ->]; split; [by left|done]|]. intros [H1 H2]%IH. split; [by right|done].
Qed.

Lemma answer_bounds r offset len skip wanted : readable offset len -> 0 <= rg_size r -> answer_from r offset len = Some (skip, wanted) -> 0 <= skip /\ 0 <= wanted.
Proof.
  intros [_ Hlen] Hs. unfold answer_from. destruct (Z.ltb_spec offset (rg_offset r)); [done|]. destruct (_ && _); [done|].
  destruct len as [n|]; [destruct (rg_size r <? _)|]; [destruct (rg_to_end r); [|done]| |destruct (rg_to_end r); [|done]]; intros [= <- <-]; lia.
Qed.

(** A range that answers a request answers it in full. *)
Lemma answer_exact content r b offset len skip wanted : readable offset len -> 0 <= rg_size r -> is_u64 (rg_offset r) -> range_true content r b -> answer_from r offset len = Some (skip, wanted) ->
  0 <= skip /\ 0 <= wanted /\ exists c, content = Some c /\ take (Z.to_nat wanted) (drop (Z.to_nat skip) b) = read_slice c offset len.
Proof.
  intros [Hoff Hlen] Hs Ho (Hb & c & -> & Eb). unfold answer_from. destruct (Z.ltb_spec offset (rg_offset r)); [done|]. unfold zlen in Hb.
  assert (drop (Z.to_nat (offset - rg_offset r)) (drop (Z.to_nat (rg_offset r)) c) = drop (Z.to_nat offset) c) as Edrop by (rewrite drop_drop; f_equal; unfold is_u64 in Ho; lia).
  assert (rg_to_end r = true -> drop (Z.to_nat (offset - rg_offset r)) b = drop (Z.to_nat offset) c) as Eto by (intros E; rewrite E in Eb; rewrite Eb; cbn; by rewrite Edrop).
  assert (Z.of_nat (length (drop (Z.to_nat (offset - rg_offset r)) b)) = rg_size r - Z.min (offset - rg_offset r) (rg_size r)) as Elen by (rewrite length_drop; lia).
  destruct ((rg_size r <? offset - rg_offset r) && negb (rg_to_end r)) eqn:Eend; [done|]. destruct len as [n|].
  - assert (u64 (offset - rg_offset r + n) = offset - rg_offset r + n) as -> by (unfold u64, is_u64 in *; rewrite Z.mod_small; lia).
    destruct (Z.ltb_spec (rg_size r) (offset - rg_offset r + n)).
    + destruct (rg_to_end r); [|done]. intros [= <- <-]. split; [lia|]. split; [lia|]. exists c. split; [done|]. cbn. rewrite <- Eto by done. rewrite !firstn_all2; [done| |]; lia.
    + intros [= <- <-]. split; [lia|]. split; [lia|]. exists c. split; [done|]. cbn. destruct (rg_to_end r); [by rewrite Eto|]. rewrite Eb. cbn. rewrite skipn_firstn_comm, take_take, Edrop. f_equal. lia.
  - destruct (rg_to_end r); [|done]. intros [= <- <-]. split; [lia|]. split; [lia|]. exists c. split; [done|]. cbn. rewrite <- Eto by done. apply firstn_all2. lia.
Qed.

Section Coherence.
Context {P : Type} {ops : Payload P} {ok : P -> Prop} {held : P -> nat -> bytes -> Z -> option bytes} {laws : PayloadLaws ops ok held}.
Context (max_bytes : Z) (self : nat) (Hmax : 0 <= max_bytes < 2 ^ 63).

(** Nothing the payload holds was changed, except under [n]; some of it may be lost. *)
Definition only_loses (except : bytes -> Prop) (p p' : P) : Prop :=
  forall j m o b, is_valid_object_name m = true -> is_u64 o -> ~ except m -> held p' j m o = Some b -> held p j m o = Some b.

Abbreviation nowhere := (fun _ : bytes => False).

Lemma only_loses_refl except p : only_loses except p p.
Proof using. by intros j m o b. Qed.

Lemma only_loses_trans except p1 p2 p3 : only_loses except p1 p2 -> only_loses except p2 p3 -> only_loses except p1 p3.
Proof using. intros H1 H2 j m o b Hv Hu He H. apply (H1 j m o b Hv Hu He), (H2 j m o b Hv Hu He H). Qed.

Lemma only_loses_weaken except p p' : only_loses nowhere p p' -> only_loses except p p'.
Proof using. intros H j m o b Hv Hu _. apply H; [done|done|by intros []]. Qed.

(** An index stays true when it shrinks, when the payload loses, and when the objects it lists are unchanged. *)
Lemma coherent_mono view view' c c' p p' : core_ok max_bytes c -> coherent held view self c p -> rc_objects c' ⊆ rc_objects c ->
  only_loses (fun m => rc_objects c' !! m = None) p p' -> (forall m x, is_Some (rc_objects c' !! m) -> view m = Some x -> view' m = Some x) -> coherent held view' self c' p'.
Proof using.
  intros Hc [H1 H2] Hsub Hp Hv. split.
  - intros n o Ho. apply (H1 n o). by eapply lookup_weaken.
  - intros n o r b Ho Hr Hb. pose proof (lookup_weaken _ _ _ _ Ho Hsub) as Ho'. destruct (co_objects _ _ Hc n o Ho') as [_ Hu _]. rewrite Forall_forall in Hu. pose proof (Hu _ Hr) as [_ Hr'].
    destruct (H2 n o r b Ho' Hr) as (Hl & x & Hx & ->); [apply Hp; [exact (H1 n o Ho')|exact Hr'|by rewrite Ho|done]|]. split; [done|]. exists x. split; [|done]. apply Hv; [by exists o|done].
Qed.

Lemma drop_object_payload n c p c' p' : ok p -> drop_object self n c p = (c', p') -> ok p' /\ only_loses nowhere p p'.
Proof using laws.
  intros Hp. unfold drop_object. destruct (rc_objects c !! n); intros [= <- <-]; [|split; [done|apply only_loses_refl]]. destruct (law_drop self n p Hp) as [H1 H2]. split; [done|]. intros j m y b _ _ _. apply H2.
Qed.

(** A lookup answers the bytes of the object or nothing. *)
Lemma lookup_range_ok view n offset len c p r c' p' : core_ok max_bytes c -> ok p -> coherent held view self c p -> readable offset len -> lookup_range self n offset len c p = (r, (c', p')) ->
  core_ok max_bytes c' /\ ok p' /\ rc_objects c' ⊆ rc_objects c /\ only_loses nowhere p p' /\ forall out, r = Some out -> exists x, view n = Some x /\ out = read_slice x offset len.
Proof using Hmax laws.
  intros Hc Hp Hch Hr. unfold lookup_range. destruct (rc_objects c !! n) as [o|] eqn:Eo; [|intros [= <- <- <-]; split_and!; [done|done|done|apply only_loses_refl|by intros ? [=]]].
  destruct (find_answer (ob_ranges o) offset len) as [[s [skip wanted]]|] eqn:Ef; [|intros [= <- <- <-]; split_and!; [done|done|done|apply only_loses_refl|by intros ? [=]]]. apply find_answer_spec in Ef as [Hs Ha].
  destruct (co_objects _ _ Hc n o Eo) as [_ Hu _]. rewrite Forall_forall in Hu. destruct (Hu _ Hs) as [Hsz Hso]. destruct (pl_load self n (rg_offset s) skip wanted p) as [[b|] p1] eqn:El.
  - destruct (law_load_frame _ _ _ _ _ _ _ _ Hp El) as [Hp1 Hh]. intros [= <- <- <-]. split_and!; [apply touch_ok; [done|]; apply (co_listed _ _ Hc); by exists o|done|done|intros j m x y _ _ _; rewrite Hh; done|].
    intros out [= <-]. destruct (answer_bounds _ _ _ _ _ Hr Hsz Ha) as [Hsk Hw]. destruct (law_load_ok _ _ _ _ _ _ _ _ Hp Hsk Hw El) as (x & Hx & ->). destruct (answer_exact (view n) s x offset len skip wanted Hr Hsz Hso) as (_ & _ & y & Hy & E); [exact (ch_true _ _ _ _ _ Hch n o s x Eo Hs Hx)|done|]. by exists y.
  - destruct (law_load_frame _ _ _ _ _ _ _ _ Hp El) as [Hp1 Hh]. destruct (drop_object self n c p1) as [c2 p2] eqn:Ed. intros [= <- <- <-]. destruct (drop_object_payload _ _ _ _ _ Hp1 Ed) as [Hp2 Hl].
    apply (drop_object_ok max_bytes self Hmax) in Ed as (Hc2 & E & _); [|done]. split_and!; [done|done|rewrite E; apply delete_subseteq| |done]. intros j m x y Hv Hux He H. rewrite <- Hh. by eapply Hl.
Qed.

Lemma make_room_payload fuel : forall wanted keep c p r c' p', ok p -> make_room_loop max_bytes self fuel wanted keep c p = (r, (c', p')) -> ok p' /\ only_loses nowhere p p'.
Proof using laws.
  induction fuel as [|fuel IH]; intros wanted keep c p r c' p' Hp; cbn [make_room_loop]; (destruct (max_bytes <? _); [|intros [= <- <- <-]; split; [done|apply only_loses_refl]]); [intros [= <- <- <-]; split; [done|apply only_loses_refl]|].
  destruct (victim keep c) as [n|]; [|intros [= <- <- <-]; split; [done|apply only_loses_refl]]. destruct (drop_object self n c p) as [c1 p1] eqn:Ed. apply drop_object_payload in Ed as [Hp1 H1]; [|done].
  intros [H2 H3]%IH; [|done]. split; [done|]. by eapply only_loses_trans.
Qed.

(** An insertion of bytes that are the object's keeps every listed range true, within the bound. *)
Lemma insert_range_ok view n offset b (to_end : bool) x c p c' p' : core_ok max_bytes c -> ok p -> coherent held view self c p -> is_valid_object_name n = true -> is_u64 offset ->
  view n = Some x -> b = read_slice x offset (if to_end then None else Some (zlen b)) -> insert_range max_bytes self n offset b to_end c p = (c', p') ->
  core_ok max_bytes c' /\ ok p' /\ coherent held view self c' p' /\ only_loses (eq n) p p' /\ forall m, m <> n -> is_Some (rc_objects c' !! m) -> is_Some (rc_objects c !! m).
Proof using Hmax laws.
  intros Hc Hp Hch Hv Hu Hx Hb. unfold insert_range. destruct (Z.ltb_spec max_bytes (zlen b)) as [|Hfit]; [intros [= <- <-]; split_and!; try done; by intros j m o y|].
  assert (0 <= zlen b) as Hpos by (unfold zlen; lia). unfold make_room. destruct (make_room_loop max_bytes self (length (rc_recency c)) (zlen b) n c p) as [r [c1 p1]] eqn:Er.
  destruct (make_room_payload _ _ _ _ _ _ _ _ Hp Er) as [Hp1 Hl1]. apply (make_room_loop_ok max_bytes self Hmax) in Er as (Hc1 & Hsub & _ & Hroom); [|done|done].
  assert (coherent held view self c1 p1) as Hch1 by (eapply coherent_mono; [exact Hc|exact Hch|done|by apply only_loses_weaken|done]).
  assert (forall m, is_Some (rc_objects c1 !! m) -> is_Some (rc_objects c !! m)) as Hsome by (intros m [o Ho]; exists o; by eapply lookup_weaken).
  destruct r; [|intros [= <- <-]; split_and!; [done..|by apply only_loses_weaken|by auto]]. destruct (pl_store self n offset b p1) as [[] p2] eqn:Es.
  - intros [= <- <-]. pose proof (law_store_keeps _ _ _ _ _ _ _ Hp1 Es) as Hp2. pose proof (law_store_ok _ _ _ _ _ _ Hp1 Hv Hu Es) as Hheld.
    destruct (record_range_ok max_bytes Hmax n {| rg_offset := offset; rg_size := zlen b; rg_to_end := to_end |} c1 Hc1 Hpos Hu (Hroom eq_refl)) as (Hc2 & o' & E & Hold).
    assert (only_loses (eq n) p1 p2) as Hl2.
    { intros j m o y Hvm Huo Hne H. rewrite <- (law_store_frame _ _ _ _ _ _ _ j m o Hp1 Hv Hu Hvm Huo Es); [done|]. right. congruence. }
    split_and!; [done|done| |eapply only_loses_trans; [by apply only_loses_weaken|done]|].
    + split; [intros m o; rewrite E; intros [[<- <-]|[_ H]]%lookup_insert_Some; [done|by eapply ch_named]|]. intros m o s y. rewrite E. intros [[<- <-]|[Hne Ho]]%lookup_insert_Some Hs Hy.
      * apply Hold in Hs as [-> |(o1 & Ho1 & Hs1 & Hoff)]; [cbn [rg_offset] in Hy; rewrite Hheld in Hy; injection Hy as <-; split; [done|]; by exists x|].
        destruct (co_objects _ _ Hc1 n o1 Ho1) as [_ Hsz _]. rewrite Forall_forall in Hsz. destruct (Hsz _ Hs1) as [_ Hus].
        rewrite (law_store_frame _ _ _ _ _ _ _ self n (rg_offset s) Hp1 Hv Hu Hv Hus Es) in Hy by (right; cbn in Hoff; congruence). by eapply ch_true.
      * pose proof (ch_named _ _ _ _ _ Hch1 m o Ho) as Hvm. destruct (co_objects _ _ Hc1 m o Ho) as [_ Hsz _]. rewrite Forall_forall in Hsz. destruct (Hsz _ Hs) as [_ Hus].
        eapply ch_true; [exact Hch1|exact Ho|exact Hs|]. by apply Hl2.
    + intros m Hne. rewrite E, lookup_insert_ne by done. apply Hsome.
  - intros [= <- <-]. pose proof (law_store_keeps _ _ _ _ _ _ _ Hp1 Es) as Hp2.
    assert (only_loses nowhere p1 p2) as Hl2 by (intros j m o y Hvm Huo _ H; rewrite <- (law_store_frame _ _ _ _ _ _ _ j m o Hp1 Hv Hu Hvm Huo Es); [done|by left]).
    split_and!; [done|done|eapply coherent_mono; [exact Hc1|exact Hch1|done|by apply only_loses_weaken|done]|apply only_loses_weaken; by eapply only_loses_trans|by auto].
Qed.

(** After an invalidation nothing is listed under the name. *)
Lemma invalidate_ok n c p c' p' : core_ok max_bytes c -> ok p -> invalidate self n c p = (c', p') ->
  core_ok max_bytes c' /\ ok p' /\ rc_objects c' = delete n (rc_objects c) /\ only_loses nowhere p p'.
Proof using Hmax laws.
  intros Hc Hp. unfold invalidate. destruct (rc_objects c !! n) as [o|] eqn:Eo.
  - intros Ed. destruct (drop_object_payload _ _ _ _ _ Hp Ed) as [Hp1 Hl]. apply (drop_object_ok max_bytes self Hmax) in Ed as (Hc1 & E & _); [|done]. done.
  - intros [= <- <-]. destruct (law_drop self n p Hp) as [H1 H2]. split_and!; [done|done|by rewrite delete_id|]. intros j m x b _ _ _. apply H2.
Qed.
End Coherence.

(** ** What a miss reads covers what was asked *)

Lemma plan_covers offset len granularity : readable offset len -> 0 <= granularity < 2 ^ 64 -> let plan := plan_fetch offset len granularity in
  readable (fp_offset plan) (fp_len plan) /\ fp_offset plan <= offset /\
  match len, fp_len plan with
  | Some n, Some m => offset + n <= fp_offset plan + m
  | None, None => True
  | _, _ => False
  end.
Proof.
  intros [Ho Hl] Hg. unfold plan_fetch. destruct (Z.eqb_spec granularity 0) as [|Hne]; cbn [fp_offset fp_len]; [split; [done|]; split; [lia|]; destruct len; [lia|done]|].
  pose proof (Z.mod_pos_bound offset granularity ltac:(lia)). pose proof (Z.mod_le offset granularity Ho ltac:(lia)). destruct len as [n|]; cbn [fp_offset fp_len]; [|split; [unfold readable; lia|]; split; [lia|done]].
  assert (u64 (offset + n) = offset + n) as -> by (unfold u64; rewrite Z.mod_small; lia). set (end_ := offset + n) in *.
  pose proof (Z.mod_pos_bound end_ granularity ltac:(lia)).
  set (up := if end_ mod granularity =? 0 then end_ else u64 (end_ + (granularity - end_ mod granularity))).
  assert (0 <= up < 2 ^ 64) as Hup by (unfold up; destruct (_ =? 0); [lia|apply Z.mod_pos_bound; lia]). set (top := if up <? end_ then end_ else up).
  assert (end_ <= top < 2 ^ 64) as Ht by (unfold top; destruct (Z.ltb_spec up end_); lia).
  assert (u64 (top - (offset - offset mod granularity)) = top - (offset - offset mod granularity)) as -> by (unfold u64; rewrite Z.mod_small; lia). unfold readable. lia.
Qed.
