(* ===== verification/CacheStore.v ===== *)
(** * Cache layers in front of a store

    [src/blob/memory_cache_blob_store.cpp] and [disk_cache_blob_store.cpp] are one protocol over two payloads:
    reads are answered from a cached range or fetched from the delegate and kept, writes go to the delegate
    first, removals forget before they remove. Modelled once over [RangeCache.Payload]; [MemoryCache] and
    [DiskCache] give the two payloads. *)

From S2P Require Import Prelude Slice Blob RangeCache.

(** ** Definitions *)

Definition kMaxShards : Z := 8.

Definition kMinBytesPerShard : Z := 2 ^ 20.

Definition shard_count (max_bytes : Z) : Z :=
  let affordable := max_bytes / kMinBytesPerShard in
  if affordable <? kMaxShards then if affordable =? 0 then 1 else affordable else kMaxShards.

Record CacheBlobStore (S P : Type) := { cs_delegate : S; cs_shards : list RangeCacheCore; cs_payload : P }.
Arguments cs_delegate {S P} _.
Arguments cs_shards {S P} _.
Arguments cs_payload {S P} _.

(** The part of a chunk the caller asked for. *)
Definition window (offset : Z) (len : option Z) (plan : FetchPlan) (fetched : bytes) : bytes :=
  let skip := offset - fp_offset plan in
  if zlen fetched <=? skip then []
  else
    let available := zlen fetched - skip in
    take (Z.to_nat (match len with Some n => Z.min available n | None => available end)) (drop (Z.to_nat skip) fetched).

(** A read the delegate cut short ran to the end of the object. *)
Definition reached_end (plan : FetchPlan) (fetched : bytes) : bool :=
  match fp_len plan with None => true | Some n => zlen fetched <? n end.

Section Store.
Context {S P : Type} {blob : BlobStore S} {pay : Payload P}.
Context (max_cache_bytes : Z) (cache_on_write : bool) (fetch_granularity : Z) (hash : bytes -> Z).

Definition shard_bytes : Z := max_cache_bytes / shard_count max_cache_bytes.

(** The constructor of [Impl], once its payload is there. *)
Definition new_cache (delegate : S) (payload : P) : CacheBlobStore S P :=
  {| cs_delegate := delegate; cs_shards := replicate (Z.to_nat (shard_count max_cache_bytes)) empty_core; cs_payload := payload |}.

Definition shard_for (name : bytes) (shards : list RangeCacheCore) : nat := Z.to_nat (hash name mod Z.of_nat (length shards)).

(** A call on the core of a name's shard, under its lock. *)
Definition on_shard {A} (name : bytes) (f : nat -> RangeCacheCore -> P -> A * (RangeCacheCore * P)) (s : CacheBlobStore S P) : A * CacheBlobStore S P :=
  let i := shard_for name (cs_shards s) in
  let '(a, (core, payload)) := f i (default empty_core (cs_shards s !! i)) (cs_payload s) in
  (a, {| cs_delegate := cs_delegate s; cs_shards := <[i := core]> (cs_shards s); cs_payload := payload |}).

(** [serve_get] takes the shard's lock twice, with the fetch between. *)
Definition serve_lookup (name : bytes) (offset : Z) (len : option Z) (s : CacheBlobStore S P) : option bytes * CacheBlobStore S P :=
  on_shard name (fun i core p => lookup_range i name offset len core p) s.

Definition serve_fetch (name : bytes) (plan : FetchPlan) (s : CacheBlobStore S P) : Result bytes * CacheBlobStore S P :=
  let '(r, d) := bs_get name (fp_offset plan) (fp_len plan) (cs_delegate s) in
  (r, {| cs_delegate := d; cs_shards := cs_shards s; cs_payload := cs_payload s |}).

Definition populate (name : bytes) (offset : Z) (b : bytes) (to_end : bool) (s : CacheBlobStore S P) : CacheBlobStore S P :=
  (on_shard name (fun i core p => (tt, insert_range shard_bytes i name offset b to_end core p)) s).2.

Definition serve_get (name : bytes) (offset : Z) (len : option Z) (s : CacheBlobStore S P) : Result bytes * CacheBlobStore S P :=
  match serve_lookup name offset len s with
  | (Some cached, s) => (Value cached, s)
  | (None, s) =>
      let plan := plan_fetch offset len fetch_granularity in
      match serve_fetch name plan s with
      | (Unexpected e, s) => (Unexpected e, s)
      | (Value fetched, s) => (Value (window offset len plan fetched), populate name (fp_offset plan) fetched (reached_end plan fetched) s)
      end
  end.

Definition cache_put (name b : bytes) (s : CacheBlobStore S P) : Status * CacheBlobStore S P :=
  let '(status, d) := bs_put name b (cs_delegate s) in
  let s := {| cs_delegate := d; cs_shards := cs_shards s; cs_payload := cs_payload s |} in
  if bool_decide (status <> Ok) then (status, s)
  else (Ok, if cache_on_write then populate name 0 b true s else s).

Definition cache_invalidate (name : bytes) (s : CacheBlobStore S P) : CacheBlobStore S P :=
  (on_shard name (fun i core p => (tt, invalidate i name core p)) s).2.

Definition cache_remove (name : bytes) (s : CacheBlobStore S P) : Status * CacheBlobStore S P :=
  let s := cache_invalidate name s in
  let '(status, d) := bs_remove name (cs_delegate s) in
  (status, {| cs_delegate := d; cs_shards := cs_shards s; cs_payload := cs_payload s |}).

Definition cache_remove_many (names : list bytes) (s : CacheBlobStore S P) : Status * CacheBlobStore S P :=
  let s := fold_left (fun s name => cache_invalidate name s) names s in
  let '(status, d) := bs_remove_many names (cs_delegate s) in
  (status, {| cs_delegate := d; cs_shards := cs_shards s; cs_payload := cs_payload s |}).

Definition cache_list (prefix : bytes) (s : CacheBlobStore S P) : Result (list bytes) * CacheBlobStore S P :=
  let '(r, d) := bs_list prefix (cs_delegate s) in
  (r, {| cs_delegate := d; cs_shards := cs_shards s; cs_payload := cs_payload s |}).

(** [cached_bytes]. *)
Definition cached_bytes (s : CacheBlobStore S P) : Z := foldr (fun c acc => rc_cached_bytes c + acc) 0 (cs_shards s).

#[export] Instance cache_store : BlobStore (CacheBlobStore S P) :=
  {| bs_put := cache_put; bs_get := serve_get; bs_remove := cache_remove; bs_remove_many := cache_remove_many; bs_list := cache_list |}.
End Store.

(** ** The window of a fetched chunk is what was asked *)

Lemma window_exact c offset len plan : readable offset len -> 0 <= fp_offset plan -> fp_offset plan <= offset ->
  match len, fp_len plan with Some n, Some m => offset + n <= fp_offset plan + m | None, None => True | _, _ => False end ->
  window offset len plan (read_slice c (fp_offset plan) (fp_len plan)) = read_slice c offset len.
Proof.
  intros [Ho Hl] Hp Hle Hc. unfold window. set (b := read_slice c (fp_offset plan) (fp_len plan)).
  assert (drop (Z.to_nat (offset - fp_offset plan)) (drop (Z.to_nat (fp_offset plan)) c) = drop (Z.to_nat offset) c) as Ed by (rewrite drop_drop; f_equal; lia).
  assert (take (Z.to_nat (match len with Some n => n | None => Z.of_nat (length c) end)) (drop (Z.to_nat (offset - fp_offset plan)) b) = read_slice c offset len) as E.
  { unfold b. destruct len as [n|], (fp_len plan) as [m|]; try done; cbn [read_slice].
    - rewrite skipn_firstn_comm, take_take, Ed. f_equal. lia.
    - rewrite Ed. apply firstn_all2. rewrite length_drop. lia. }
  rewrite <- E. unfold zlen. destruct (Z.leb_spec (Z.of_nat (length b)) (offset - fp_offset plan)).
  - rewrite (drop_ge b) by lia. by rewrite take_nil.
  - assert (length (drop (Z.to_nat (offset - fp_offset plan)) b) = length b - Z.to_nat (offset - fp_offset plan))%nat as El by apply length_drop.
    assert (length b <= length c)%nat. { unfold b, read_slice. destruct (fp_len plan); rewrite ?length_take, length_drop; lia. }
    destruct len as [n|]; [|rewrite !firstn_all2; [done|lia|lia]].
    destruct (Z.min_spec (Z.of_nat (length b) - (offset - fp_offset plan)) n) as [[? ->]|[? ->]]; [rewrite !firstn_all2; [done|lia|lia]|done].
Qed.

Lemma fetched_range c plan : 0 <= match fp_len plan with Some n => n | None => 0 end -> let b := read_slice c (fp_offset plan) (fp_len plan) in
  b = read_slice c (fp_offset plan) (if reached_end plan b then None else Some (zlen b)).
Proof.
  intros Hn. unfold reached_end, read_slice, zlen. destruct (fp_len plan) as [n|]; [|done]. destruct (Z.ltb_spec (Z.of_nat (length (take (Z.to_nat n) (drop (Z.to_nat (fp_offset plan)) c)))) n) as [H|H].
  - rewrite length_take in H. apply firstn_all2. lia.
  - rewrite length_take in *. f_equal. lia.
Qed.

(** ** The layer keeps the contract of the store under it *)

Section Laws.
Context {S P : Type} {blob : BlobStore S} {ok : S -> Prop} {objects : S -> bytes -> option bytes} {laws : BlobStoreLaws blob ok objects}.
Context {pay : Payload P} {pok : P -> Prop} {held : P -> nat -> bytes -> Z -> option bytes} {plaws : PayloadLaws pay pok held}.
Context (max_cache_bytes : Z) (cache_on_write : bool) (fetch_granularity : Z) (hash : bytes -> Z).
Context (Hmax : 0 <= max_cache_bytes < 2 ^ 63) (Hgran : 0 <= fetch_granularity < 2 ^ 64).

Lemma shard_count_pos : 0 < shard_count max_cache_bytes <= 8.
Proof using Hmax.
  unfold shard_count, kMaxShards. pose proof (Z.div_pos max_cache_bytes kMinBytesPerShard ltac:(lia) ltac:(done)). destruct (Z.ltb_spec (max_cache_bytes / kMinBytesPerShard) 8); [|lia].
  destruct (Z.eqb_spec (max_cache_bytes / kMinBytesPerShard) 0); lia.
Qed.

Lemma shard_bytes_fits : 0 <= shard_bytes max_cache_bytes < 2 ^ 63 /\ shard_bytes max_cache_bytes * shard_count max_cache_bytes <= max_cache_bytes.
Proof using Hmax.
  pose proof shard_count_pos. unfold shard_bytes. pose proof (Z.div_pos max_cache_bytes (shard_count max_cache_bytes) ltac:(lia) ltac:(lia)).
  pose proof (Z.mul_div_le max_cache_bytes (shard_count max_cache_bytes) ltac:(lia)). split; [|lia]. split; [done|]. eapply Z.le_lt_trans; [|apply Hmax]. apply Z.div_le_upper_bound; nia.
Qed.

(** Each shard is sound, lists only names that are its own, and says the truth about them. *)
Record shards_ok (view : bytes -> option bytes) (shards : list RangeCacheCore) (p : P) : Prop := {
  sh_count : length shards = Z.to_nat (shard_count max_cache_bytes);
  sh_core : forall i c, shards !! i = Some c -> core_ok (shard_bytes max_cache_bytes) c;
  sh_true : forall i c, shards !! i = Some c -> coherent held view i c p;
  sh_own : forall i c n, shards !! i = Some c -> is_Some (rc_objects c !! n) -> shard_for hash n shards = i
}.

Record cache_ok (s : CacheBlobStore S P) : Prop := {
  ck_delegate : ok (cs_delegate s);
  ck_payload : pok (cs_payload s);
  ck_shards : shards_ok (objects (cs_delegate s)) (cs_shards s) (cs_payload s)
}.

Definition cache_objects (s : CacheBlobStore S P) : bytes -> option bytes := objects (cs_delegate s).

Lemma shard_there view shards p n : shards_ok view shards p -> exists c, shards !! shard_for hash n shards = Some c.
Proof using Hmax.
  intros [Hn _ _ _]. pose proof shard_count_pos. apply lookup_lt_is_Some_2. unfold shard_for. pose proof (Z.mod_pos_bound (hash n) (Z.of_nat (length shards)) ltac:(lia)). lia.
Qed.

Lemma shards_view view view' shards p : shards_ok view shards p ->
  (forall i c m x, shards !! i = Some c -> is_Some (rc_objects c !! m) -> view m = Some x -> view' m = Some x) -> shards_ok view' shards p.
Proof using.
  intros [H1 H2 H3 H4] Hv. split; [done|done| |done]. intros i c Hi. eapply coherent_mono; [by apply (H2 i)|by apply H3|done|apply only_loses_refl|]. intros m x Hm. by apply (Hv i c).
Qed.

Lemma shards_update view shards p p' n c c' : shards_ok view shards p -> shards !! shard_for hash n shards = Some c -> core_ok (shard_bytes max_cache_bytes) c' ->
  coherent held view (shard_for hash n shards) c' p' -> (forall m, m <> n -> is_Some (rc_objects c' !! m) -> is_Some (rc_objects c !! m)) -> only_loses (held := held) (eq n) p p' ->
  shards_ok view (<[shard_for hash n shards := c']> shards) p'.
Proof using Hmax.
  intros [H1 H2 H3 H4] Hc Hc' Hch Hm Hl. assert (forall m, shard_for hash m (<[shard_for hash n shards := c']> shards) = shard_for hash m shards) as Hsame by (intros m; unfold shard_for; by rewrite length_insert).
  split; [by rewrite length_insert|intros i x Hi|intros i x Hi|intros i x m Hi Hs];
    apply list_lookup_insert_Some in Hi as [(<- & <- & _)|[Hne Hi]]; [done|by apply (H2 i)|done| | |].
  - eapply coherent_mono; [by apply (H2 i)|by apply H3|done| |done]. intros j m o b Hv Hu He. apply Hl; [done|done|]. intros <-. apply He.
    destruct (rc_objects x !! n) eqn:E; [|done]. exfalso. apply Hne. apply (H4 i x n Hi). by rewrite E.
  - rewrite Hsame. destruct (decide (m = n)) as [-> |Hne]; [done|]. apply (H4 _ c m Hc). by apply Hm.
  - rewrite Hsame. by apply (H4 i x m Hi).
Qed.

Lemma lookup_keeps n offset len s r s' : cache_ok s -> readable offset len -> serve_lookup hash n offset len s = (r, s') ->
  cache_ok s' /\ cs_delegate s' = cs_delegate s /\ forall out, r = Some out -> exists x, cache_objects s n = Some x /\ out = read_slice x offset len.
Proof using Hmax plaws.
  intros [H1 H2 H3] Hr. unfold serve_lookup, on_shard. destruct (shard_there _ _ _ n H3) as [c Hc]. rewrite Hc. cbn [from_option id].
  destruct (lookup_range (shard_for hash n (cs_shards s)) n offset len c (cs_payload s)) as [a [c' p']] eqn:E. intros [= <- <-]. cbn [cs_delegate cs_shards cs_payload].
  destruct (lookup_range_ok (shard_bytes max_cache_bytes) _ (proj1 shard_bytes_fits) (objects (cs_delegate s)) n offset len c (cs_payload s) _ _ _ (sh_core _ _ _ H3 _ _ Hc) H2 (sh_true _ _ _ H3 _ _ Hc) Hr E) as (Hc' & Hp' & Hsub & Hl & Hout).
  split; [|done]. split; [done|done|]. eapply shards_update; [exact H3|exact Hc|done| | |by apply only_loses_weaken].
  - eapply coherent_mono; [exact (sh_core _ _ _ H3 _ _ Hc)|exact (sh_true _ _ _ H3 _ _ Hc)|done|by apply only_loses_weaken|done].
  - intros m _ [o Ho]. exists o. by eapply lookup_weaken.
Qed.

Lemma populate_keeps n offset b (to_end : bool) s x : cache_ok s -> is_u64 offset -> cache_objects s n = Some x -> b = read_slice x offset (if to_end then None else Some (zlen b)) ->
  cache_ok (populate max_cache_bytes hash n offset b to_end s) /\ cs_delegate (populate max_cache_bytes hash n offset b to_end s) = cs_delegate s.
Proof using Hmax laws plaws.
  intros [H1 H2 H3] Hu Hx Hb. unfold cache_objects in Hx. unfold populate, on_shard. destruct (shard_there _ _ _ n H3) as [c Hc]. rewrite Hc. cbn [from_option id].
  destruct (insert_range (shard_bytes max_cache_bytes) (shard_for hash n (cs_shards s)) n offset b to_end c (cs_payload s)) as [c' p'] eqn:E. cbn [snd cs_delegate cs_shards cs_payload]. split; [|done].
  destruct (insert_range_ok (shard_bytes max_cache_bytes) _ (proj1 shard_bytes_fits) (objects (cs_delegate s)) n offset b to_end x c (cs_payload s) _ _ (sh_core _ _ _ H3 _ _ Hc) H2 (sh_true _ _ _ H3 _ _ Hc) (law_named n _ x H1 Hx) Hu Hx Hb E) as (Hc' & Hp' & Hch & Hl & Hm).
  split; [done|done|]. by eapply shards_update.
Qed.

Lemma invalidate_keeps n s : cache_ok s -> cache_ok (cache_invalidate hash n s) /\ cs_delegate (cache_invalidate hash n s) = cs_delegate s /\
  (forall i c m, cs_shards (cache_invalidate hash n s) !! i = Some c -> is_Some (rc_objects c !! m) -> m <> n /\ exists c', cs_shards s !! i = Some c' /\ is_Some (rc_objects c' !! m)).
Proof using Hmax plaws.
  intros [H1 H2 H3]. unfold cache_invalidate, on_shard. destruct (shard_there _ _ _ n H3) as [c Hc]. rewrite Hc. cbn [from_option id].
  destruct (invalidate (shard_for hash n (cs_shards s)) n c (cs_payload s)) as [c' p'] eqn:E. cbn [snd cs_delegate cs_shards cs_payload].
  apply (invalidate_ok (shard_bytes max_cache_bytes) _ (proj1 shard_bytes_fits)) in E as (Hc' & Hp' & Ho & Hl); [|exact (sh_core _ _ _ H3 _ _ Hc)|done]. split; [|split; [done|]].
  - split; [done|done|]. eapply shards_update; [exact H3|exact Hc|done| | |by apply only_loses_weaken].
    + eapply coherent_mono; [exact (sh_core _ _ _ H3 _ _ Hc)|exact (sh_true _ _ _ H3 _ _ Hc)|rewrite Ho; apply delete_subseteq|by apply only_loses_weaken|done].
    + intros m _. rewrite Ho. intros [o [_ Hm]%lookup_delete_Some]. by exists o.
  - intros i x m. rewrite list_lookup_insert_Some. intros [(<- & <- & _)|[Hne Hi]] Hm.
    + rewrite Ho in Hm. destruct Hm as [o [Hnm Hm]%lookup_delete_Some]. split; [done|]. exists c. split; [done|by exists o].
    + split; [|by exists x]. intros ->. apply Hne. by apply (sh_own _ _ _ H3 i x n Hi).
Qed.

Lemma fetch_keeps n plan s r s' : cache_ok s -> readable (fp_offset plan) (fp_len plan) -> serve_fetch n plan s = (r, s') ->
  cache_ok s' /\ (forall m, cache_objects s' m = cache_objects s m) /\
  match r with Value b => exists x, cache_objects s n = Some x /\ b = read_slice x (fp_offset plan) (fp_len plan) | Unexpected NotFound => cache_objects s n = None | Unexpected _ => True end.
Proof using laws.
  intros [H1 H2 H3] Hr. unfold serve_fetch. destruct (bs_get n _ _ (cs_delegate s)) as [a d] eqn:E. intros [= <- <-]. destruct (law_get_frame _ _ _ _ _ _ H1 Hr E) as [Hd Hsame]. split; [|split; [done|]].
  - split; [done|done|]. cbn. eapply shards_view; [exact H3|]. intros i c m x _ _. by rewrite Hsame.
  - destruct a as [b|e]; [exact (law_get_ok _ _ _ _ _ _ H1 Hr E)|]. destruct e; try done. exact (law_get_missing _ _ _ _ _ H1 Hr E).
Qed.

Lemma serve_get_spec n offset len s r s' : cache_ok s -> readable offset len -> serve_get max_cache_bytes fetch_granularity hash n offset len s = (r, s') ->
  cache_ok s' /\ (forall m, cache_objects s' m = cache_objects s m) /\
  match r with Value b => exists x, cache_objects s n = Some x /\ b = read_slice x offset len | Unexpected NotFound => cache_objects s n = None | Unexpected _ => True end.
Proof using Hmax Hgran laws plaws.
  intros Hs Hr. unfold serve_get. destruct (serve_lookup hash n offset len s) as [hit s1] eqn:E1. destruct (lookup_keeps _ _ _ _ _ _ Hs Hr E1) as (Hs1 & Ed & Hhit).
  assert (forall m, cache_objects s1 m = cache_objects s m) as Ev1 by (intros m; unfold cache_objects; by rewrite Ed). destruct hit as [out|]; [intros [= <- <-]; split_and!; [done..|by apply Hhit]|].
  destruct (plan_covers offset len fetch_granularity Hr Hgran) as (Hpr & Hle & Hcov). set (plan := plan_fetch offset len fetch_granularity) in *.
  destruct (serve_fetch n plan s1) as [f s2] eqn:E2. destruct (fetch_keeps _ _ _ _ _ Hs1 Hpr E2) as (Hs2 & Ev2 & Hf). destruct f as [b|e].
  - destruct Hf as (x & Hx & ->). intros [= <- <-]. assert (cache_objects s2 n = Some x) as Hx2 by (by rewrite Ev2).
    assert (is_u64 (fp_offset plan)) as Hu by (destruct Hr as [? Hl], Hpr as [Hpo Hpl]; unfold is_u64; destruct len, (fp_len plan); try done; lia).
    destruct (populate_keeps n (fp_offset plan) _ _ s2 x Hs2 Hu Hx2 (fetched_range x plan ltac:(destruct Hpr as [_ Hpl]; destruct (fp_len plan); lia))) as [Hs3 Ed3].
    split; [done|]. split; [intros m; unfold cache_objects at 1; rewrite Ed3; fold (cache_objects s2 m); by rewrite Ev2, Ev1|]. exists x. rewrite <- Ev1. split; [done|]. apply window_exact; [done|apply Hpr|done|done].
  - intros [= <- <-]. split; [done|]. split; [intros m; by rewrite Ev2, Ev1|]. destruct e; try done. by rewrite <- Ev1.
Qed.

Lemma put_keeps_cache n b s r s' : cache_ok s -> cache_put max_cache_bytes cache_on_write hash n b s = (r, s') -> exists d, bs_put n b (cs_delegate s) = (r, d) /\ cs_delegate s' = d /\ cache_ok s'.
Proof using Hmax laws plaws.
  intros [H1 H2 H3]. unfold cache_put. destruct (bs_put n b (cs_delegate s)) as [status d] eqn:E. pose proof (law_put_keeps _ _ _ _ _ H1 E) as Hd.
  assert (cache_ok {| cs_delegate := d; cs_shards := cs_shards s; cs_payload := cs_payload s |}) as Hs1.
  { split; [done|done|]. cbn. eapply shards_view; [exact H3|]. intros i c m x _ _ Hx. rewrite <- Hx. eapply law_put_frame; [exact H1|exact E|]. right. by rewrite Hx. }
  case_bool_decide as Hst; [intros [= <- <-]; by exists d|]. subst status. intros [= <- <-]. exists d. destruct cache_on_write; [|done].
  destruct (law_put_ok _ _ _ _ H1 E) as [_ Hx]. destruct (populate_keeps n 0 b true _ b Hs1 ltac:(done) Hx eq_refl) as [Hs2 Ed]. split; [done|]. by rewrite Ed.
Qed.

Lemma remove_keeps_cache n s r s' : cache_ok s -> cache_remove hash n s = (r, s') -> exists d, bs_remove n (cs_delegate s) = (r, d) /\ cs_delegate s' = d /\ cache_ok s'.
Proof using Hmax laws plaws.
  intros Hs. unfold cache_remove. destruct (invalidate_keeps n s Hs) as ([H1 H2 H3] & Ed & Hidx). rewrite Ed in *. destruct (bs_remove n (cs_delegate s)) as [status d] eqn:E. intros [= <- <-]. exists d. split; [done|]. split; [done|].
  pose proof (law_remove_keeps _ _ _ _ H1 E) as Hd. split; [done|done|]. cbn. eapply shards_view; [exact H3|]. intros i c m x Hi Hm Hx. destruct (Hidx i c m Hi Hm) as [Hne _]. rewrite <- Hx. by destruct (law_remove_frame _ _ _ _ m H1 E) as [|[? _]].
Qed.

Lemma invalidate_all_keeps names : forall s, cache_ok s -> let s' := fold_left (fun s n => cache_invalidate hash n s) names s in
  cache_ok s' /\ cs_delegate s' = cs_delegate s /\ (forall i c m, cs_shards s' !! i = Some c -> is_Some (rc_objects c !! m) -> m ∉ names /\ exists c', cs_shards s !! i = Some c' /\ is_Some (rc_objects c' !! m)).
Proof using Hmax plaws.
  induction names as [|n names IH]; intros s Hs; cbn [fold_left]; [split_and!; [done..|]; intros i c m Hi Hm; split; [apply not_elem_of_nil|by exists c]|].
  destruct (invalidate_keeps n s Hs) as (Hs1 & E1 & H1). destruct (IH _ Hs1) as (Hs2 & E2 & H2). split; [done|]. split; [by rewrite E2|]. intros i c m Hi Hm.
  destruct (H2 i c m Hi Hm) as (Hn & c1 & Hi1 & Hm1). destruct (H1 i c1 m Hi1 Hm1) as (Hne & c2 & ? & ?). split; [|by exists c2]. by apply not_elem_of_cons.
Qed.

Lemma remove_many_keeps_cache names s r s' : cache_ok s -> cache_remove_many hash names s = (r, s') -> bs_remove_many names (cs_delegate s) = (r, cs_delegate s') /\ cache_ok s'.
Proof using Hmax laws plaws.
  intros Hs. unfold cache_remove_many. destruct (invalidate_all_keeps names s Hs) as ([H1 H2 H3] & Ed & Hidx). rewrite Ed in *. destruct (bs_remove_many names (cs_delegate s)) as [status d] eqn:E. intros [= <- <-]. split; [done|].
  pose proof (law_remove_many_keeps _ _ _ _ H1 E) as Hd. split; [done|done|]. cbn. eapply shards_view; [exact H3|]. intros i c m x Hi Hm Hx. destruct (Hidx i c m Hi Hm) as [Hne _].
  rewrite <- Hx. by destruct (law_remove_many_frame _ _ _ _ m H1 E) as [|[? _]].
Qed.

(** A cache in front of a store keeps the store's contract: whatever was read, written and removed before, and
    whatever the payload lost, reads answer the objects below. *)
#[export] Instance cache_laws : BlobStoreLaws (cache_store max_cache_bytes cache_on_write fetch_granularity hash) cache_ok cache_objects.
Proof using Hmax Hgran laws plaws.
  split; cbn [bs_put bs_get bs_remove bs_remove_many bs_list cache_store].
  - intros n s c [H _ _]. exact (law_named n (cs_delegate s) c H).
  - intros n b s s' Hs (d & E & <- & _)%put_keeps_cache; [|done]. exact (law_put_ok _ _ _ _ (ck_delegate _ Hs) E).
  - intros n b s s' Hs (d & E & <- & _)%put_keeps_cache; [|done]. exact (law_put_taken _ _ _ _ (ck_delegate _ Hs) E).
  - intros n b s r s' m Hs (d & E & <- & _)%put_keeps_cache Hm; [|done]. exact (law_put_frame _ _ _ _ _ m (ck_delegate _ Hs) E Hm).
  - by intros n b s r s' Hs (d & _ & _ & H)%put_keeps_cache.
  - intros n off len s out s' Hs Hr H. by destruct (serve_get_spec _ _ _ _ _ _ Hs Hr H) as (_ & _ & ?).
  - intros n off len s s' Hs Hr H. by destruct (serve_get_spec _ _ _ _ _ _ Hs Hr H) as (_ & _ & ?).
  - intros n off len s r s' Hs Hr H. by destruct (serve_get_spec _ _ _ _ _ _ Hs Hr H) as (? & ? & _).
  - intros n s s' Hs (d & E & <- & _)%remove_keeps_cache; [|done]. exact (law_remove_ok _ _ _ (ck_delegate _ Hs) E).
  - intros n s r s' m Hs (d & E & <- & _)%remove_keeps_cache; [|done]. exact (law_remove_frame _ _ _ _ m (ck_delegate _ Hs) E).
  - by intros n s r s' Hs (d & _ & _ & H)%remove_keeps_cache.
  - intros ns s s' Hs [E _]%remove_many_keeps_cache; [|done]. exact (law_remove_many_ok _ _ _ (ck_delegate _ Hs) E).
  - intros ns s r s' m Hs [E _]%remove_many_keeps_cache; [|done]. exact (law_remove_many_frame _ _ _ _ m (ck_delegate _ Hs) E).
  - by intros ns s r s' Hs [_ ?]%remove_many_keeps_cache.
  - intros p s ns s' [H _ _]. unfold cache_list. destruct (bs_list p (cs_delegate s)) as [r d] eqn:E. intros [= -> <-]. exact (law_list_ok _ _ _ _ H E).
  - intros p s r s' [H1 H2 H3]. unfold cache_list. destruct (bs_list p (cs_delegate s)) as [r0 d] eqn:E. intros [= <- <-]. destruct (law_list_frame _ _ _ _ H1 E) as [Hd Hsame]. split; [|done].
    split; [done|done|]. cbn. eapply shards_view; [exact H3|]. intros i c m x _ _. by rewrite Hsame.
Qed.
End Laws.

(** ** Runs *)

Inductive CacheOp : Type :=
  | CPut (name content : bytes)
  | CGet (name : bytes) (offset : Z) (len : option Z)
  | CRemove (name : bytes)
  | CRemoveMany (names : list bytes)
  | CList (prefix : bytes)
  | CInvalidate (name : bytes).

Definition op_readable (o : CacheOp) : Prop := match o with CGet _ offset len => readable offset len | _ => True end.

Section Runs.
Context {S P : Type} {blob : BlobStore S} {ok : S -> Prop} {objects : S -> bytes -> option bytes} {laws : BlobStoreLaws blob ok objects}.
Context {pay : Payload P} {pok : P -> Prop} {held : P -> nat -> bytes -> Z -> option bytes} {plaws : PayloadLaws pay pok held}.
Context (max_cache_bytes : Z) (cache_on_write : bool) (fetch_granularity : Z) (hash : bytes -> Z).
Context (Hmax : 0 <= max_cache_bytes < 2 ^ 63) (Hgran : 0 <= fetch_granularity < 2 ^ 64).

Definition run_cache_op (s : CacheBlobStore S P) (o : CacheOp) : CacheBlobStore S P :=
  match o with
  | CPut n b => (cache_put max_cache_bytes cache_on_write hash n b s).2
  | CGet n offset len => (serve_get max_cache_bytes fetch_granularity hash n offset len s).2
  | CRemove n => (cache_remove hash n s).2
  | CRemoveMany names => (cache_remove_many hash names s).2
  | CList prefix => (cache_list prefix s).2
  | CInvalidate n => cache_invalidate hash n s
  end.

Abbreviation good := (cache_ok (ok := ok) (objects := objects) (pok := pok) (held := held) max_cache_bytes hash).

Lemma run_cache_op_ok s o : good s -> op_readable o -> good (run_cache_op s o).
Proof using Hmax Hgran laws plaws.
  intros Hs Ho. destruct o as [n b|n offset len|n|names|prefix|n]; cbn [run_cache_op op_readable] in *.
  - destruct (cache_put _ _ _ n b s) as [r s'] eqn:E. by apply (put_keeps_cache (laws := laws)) in E as (_ & _ & _ & ?).
  - destruct (serve_get _ _ _ n offset len s) as [r s'] eqn:E. by apply (serve_get_spec (laws := laws)) in E as [? _].
  - destruct (cache_remove _ n s) as [r s'] eqn:E. by apply (remove_keeps_cache (laws := laws) max_cache_bytes) in E as (_ & _ & _ & ?).
  - destruct (cache_remove_many _ names s) as [r s'] eqn:E. by apply (remove_many_keeps_cache (laws := laws) max_cache_bytes) in E as [_ ?].
  - destruct (cache_list prefix s) as [r s'] eqn:E.
    exact (proj1 (law_list_frame (BlobStoreLaws := cache_laws max_cache_bytes cache_on_write fetch_granularity hash Hmax Hgran) prefix s r s' Hs E)).
  - by apply (invalidate_keeps max_cache_bytes hash Hmax n s Hs).
Qed.

Lemma new_cache_ok d p : ok d -> pok p -> good (new_cache max_cache_bytes d p).
Proof using Hmax.
  intros Hd Hp. split; [done|done|]. cbn. assert (forall i c, replicate (Z.to_nat (shard_count max_cache_bytes)) empty_core !! i = Some c -> c = empty_core) as E by (by intros i c [? _]%lookup_replicate).
  split; [apply length_replicate|intros i c ->%E; apply empty_core_ok, shard_bytes_fits; done| |].
  - intros i c ->%E. split; [intros n o; cbn; by rewrite lookup_empty|intros n o r b; cbn; by rewrite lookup_empty].
  - intros i c n ->%E. cbn. rewrite lookup_empty. by intros [? ?].
Qed.

Lemma run_cache_ok l : forall s, good s -> Forall op_readable l -> good (fold_left run_cache_op l s).
Proof using Hmax Hgran laws plaws. induction l as [|o l IH]; intros s Hs Hl; [done|]. apply Forall_cons in Hl as [Ho Hl]. cbn. apply IH; [|done]. by apply run_cache_op_ok. Qed.

Lemma bounded_sum (l : list RangeCacheCore) b : (forall c, c ∈ l -> core_ok b c) -> 0 <= foldr (fun c acc => rc_cached_bytes c + acc) 0 l <= b * Z.of_nat (length l).
Proof using.
  induction l as [|c l IH]; intros H; cbn [foldr length]; [lia|]. pose proof (co_bound _ _ (H c ltac:(by left))). pose proof (IH ltac:(intros x Hx; apply H; by right)). lia.
Qed.

Lemma cached_within s : good s -> 0 <= cached_bytes s <= max_cache_bytes.
Proof using Hmax.
  intros [_ _ [Hn Hc _ _]]. pose proof (shard_count_pos max_cache_bytes Hmax). destruct (shard_bytes_fits max_cache_bytes Hmax) as [_ Hf]. unfold cached_bytes.
  pose proof (bounded_sum (cs_shards s) (shard_bytes max_cache_bytes)) as H1. rewrite Hn in H1. specialize (H1 ltac:(intros c [i Hi]%list_elem_of_lookup; by eapply Hc)). lia.
Qed.

(** C13: Reads through a cache layer answer what the store below holds. After any sequence of reads, writes,
    removals, listings and invalidations through the layer, over any store and any payload that keep their
    contracts (a payload may lose cached bytes whenever it likes), a read answers the object's own bytes for
    the whole request, and answers [NotFound] only when there is no object. *)
Theorem cache_transparent d p l n offset len :
  ok d -> pok p -> Forall op_readable l -> readable offset len ->
  let s := fold_left run_cache_op l (new_cache max_cache_bytes d p) in
  match (serve_get max_cache_bytes fetch_granularity hash n offset len s).1 with
  | Value b => exists content, objects (cs_delegate s) n = Some content /\ b = read_slice content offset len
  | Unexpected NotFound => objects (cs_delegate s) n = None
  | Unexpected _ => True
  end.
Proof using Hmax Hgran laws plaws.
  intros Hd Hp Hl Hr s. pose proof (run_cache_ok l _ (new_cache_ok d p Hd Hp) Hl) as Hs. fold s in Hs.
  destruct (serve_get _ _ _ n offset len s) as [r s'] eqn:E. by destruct (serve_get_spec max_cache_bytes fetch_granularity hash Hmax Hgran n offset len s r s' Hs Hr E) as (_ & _ & H).
Qed.

(** The sizes of all the ranges a core lists. *)
Definition listed_bytes (c : RangeCacheCore) : Z :=
  foldr (fun n acc => match rc_objects c !! n with Some o => sizes (ob_ranges o) | None => 0 end + acc) 0 (rc_recency c).

Lemma listed_exact b c : core_ok b c -> rc_cached_bytes c = listed_bytes c.
Proof using.
  intros [_ _ Ho -> _]. unfold listed_bytes, total. induction (rc_recency c) as [|n l IH]; cbn; [done|]. rewrite IH. f_equal. unfold bytes_of. destruct (rc_objects c !! n) as [o|] eqn:E; [|done]. by apply (Ho n o E).
Qed.

(** C35: A cache layer never holds more than it was given. After any sequence of calls, every shard's counter
    is the sum of the sizes of the ranges it lists, with no wrap-around, and together they are at most
    [max_cache_bytes]. *)
Theorem cache_bounded d p l :
  ok d -> pok p -> Forall op_readable l ->
  let s := fold_left run_cache_op l (new_cache max_cache_bytes d p) in
  Forall (fun c => rc_cached_bytes c = listed_bytes c) (cs_shards s) /\ 0 <= cached_bytes s <= max_cache_bytes.
Proof using Hmax Hgran laws plaws.
  intros Hd Hp Hl s. pose proof (run_cache_ok l _ (new_cache_ok d p Hd Hp) Hl) as Hs. fold s in Hs. split; [|by apply cached_within].
  apply Forall_forall. intros c [i Hi]%list_elem_of_lookup. eapply listed_exact, (sh_core _ _ _ _ _ (ck_shards _ _ _ Hs)), Hi.
Qed.
End Runs.

(** ** What every call on a payload keeps *)

Section Keeps.
Context {P : Type} {pay : Payload P} (n : nat) (Q : P -> Prop).
Context (Qstore : forall i name o b p r p', (i < n)%nat -> Q p -> pl_store i name o b p = (r, p') -> Q p').
Context (Qload : forall i name o skip len p r p', (i < n)%nat -> Q p -> pl_load i name o skip len p = (r, p') -> Q p').
Context (Qdrop : forall i name p, (i < n)%nat -> Q p -> Q (pl_drop i name p)).

Lemma drop_object_Q i name c p : (i < n)%nat -> Q p -> Q (drop_object i name c p).2.
Proof using Qdrop. intros Hi Hp. unfold drop_object. destruct (rc_objects c !! name); [by apply Qdrop|done]. Qed.

Lemma lookup_range_Q i name o len c p : (i < n)%nat -> Q p -> Q (lookup_range i name o len c p).2.2.
Proof using Qdrop Qload.
  intros Hi Hp. unfold lookup_range. destruct (rc_objects c !! name) as [x|]; [|done]. destruct (find_answer _ _ _) as [[r [skip wanted]]|]; [|done].
  destruct (pl_load i name (rg_offset r) skip wanted p) as [[b|] p1] eqn:E; apply Qload in E; [done|done|done|by apply drop_object_Q|done|done].
Qed.

Lemma make_room_Q max_bytes fuel : forall i wanted keep c p, (i < n)%nat -> Q p -> Q (make_room_loop max_bytes i fuel wanted keep c p).2.2.
Proof using Qdrop.
  induction fuel as [|fuel IH]; intros i wanted keep c p Hi Hp; cbn [make_room_loop]; (destruct (max_bytes <? _); [|done]); [done|]. destruct (victim keep c) as [name|]; [|done].
  pose proof (drop_object_Q i name c p Hi Hp) as H. destruct (drop_object i name c p) as [c1 p1]. by apply IH.
Qed.

Lemma insert_range_Q max_bytes i name o b to_end c p : (i < n)%nat -> Q p -> Q (insert_range max_bytes i name o b to_end c p).2.
Proof using Qdrop Qstore.
  intros Hi Hp. unfold insert_range. destruct (max_bytes <? zlen b); [done|]. unfold make_room. pose proof (make_room_Q max_bytes (length (rc_recency c)) i (zlen b) name c p Hi Hp) as H.
  destruct (make_room_loop _ _ _ _ _ _ _) as [[] [c1 p1]]; [|done]. destruct (pl_store i name o b p1) as [[] p2] eqn:E; by apply Qstore in E.
Qed.

Lemma invalidate_Q i name c p : (i < n)%nat -> Q p -> Q (invalidate i name c p).2.
Proof using Qdrop. intros Hi Hp. unfold invalidate. destruct (rc_objects c !! name); [by apply drop_object_Q|by apply Qdrop]. Qed.

Context {S : Type} {blob : BlobStore S} (max_cache_bytes : Z) (cache_on_write : bool) (fetch_granularity : Z) (hash : bytes -> Z).

Definition keeps_Q (s : CacheBlobStore S P) : Prop := length (cs_shards s) = n /\ Q (cs_payload s).

Lemma on_shard_Q {A} name (f : nat -> RangeCacheCore -> P -> A * (RangeCacheCore * P)) (s : CacheBlobStore S P) : (0 < n)%nat -> (forall i c p, (i < n)%nat -> Q p -> Q (f i c p).2.2) -> keeps_Q s -> keeps_Q (on_shard hash name f s).2.
Proof using.
  intros Hn Hf [Hl Hp]. unfold on_shard. assert (shard_for hash name (cs_shards s) < n)%nat as Hi by (unfold shard_for; rewrite Hl; pose proof (Z.mod_pos_bound (hash name) (Z.of_nat n) ltac:(lia)); lia).
  pose proof (Hf _ (default empty_core (cs_shards s !! shard_for hash name (cs_shards s))) _ Hi Hp) as H. destruct (f _ _ _) as [a [c p]]. split; cbn [snd cs_shards cs_payload]; [by rewrite length_insert|done].
Qed.

Lemma run_cache_op_Q s o : (0 < n)%nat -> keeps_Q s -> keeps_Q (run_cache_op (blob := blob) max_cache_bytes cache_on_write fetch_granularity hash s o).
Proof using Qstore Qload Qdrop.
  intros Hn Hs. assert (forall name x, keeps_Q x -> keeps_Q (cache_invalidate hash name x)) as Hinv by (intros name x; apply on_shard_Q; [done|]; intros; by apply invalidate_Q).
  assert (forall name off b e x, keeps_Q x -> keeps_Q (populate max_cache_bytes hash name off b e x)) as Hpop by (intros name off b e x; apply on_shard_Q; [done|]; intros; by apply insert_range_Q).
  assert (forall (x : CacheBlobStore S P) d, keeps_Q x -> keeps_Q {| cs_delegate := d; cs_shards := cs_shards x; cs_payload := cs_payload x |}) as Hdel by done.
  destruct o as [name b|name offset len|name|names|prefix|name]; cbn [run_cache_op].
  - unfold cache_put. destruct (bs_put name b (cs_delegate s)) as [status d]. case_bool_decide; [by apply Hdel|]. destruct cache_on_write; [|by apply Hdel]. by apply Hpop, Hdel.
  - unfold serve_get. assert (keeps_Q (serve_lookup hash name offset len s).2) as H by (apply on_shard_Q; [done|intros; by apply lookup_range_Q|done]). destruct (serve_lookup hash name offset len s) as [[out|] s1]; [done|].
    unfold serve_fetch. destruct (bs_get name _ _ (cs_delegate s1)) as [[b|e] d]; [|by apply Hdel]. by apply Hpop, Hdel.
  - unfold cache_remove. destruct (bs_remove name _) as [status d]. by apply Hdel, Hinv.
  - unfold cache_remove_many. destruct (bs_remove_many names _) as [status d]. apply Hdel. revert s Hs. induction names as [|m names IH]; intros s Hs; [done|]. cbn. by apply IH, Hinv.
  - unfold cache_list. destruct (bs_list prefix (cs_delegate s)) as [r d]. by apply Hdel.
  - by apply Hinv.
Qed.
End Keeps.
