(* ===== verification/MemoryCache.v ===== *)
(** * The cache in memory

    The payload of [src/blob/memory_cache_blob_store.cpp]: the bytes in a map per shard, charged to the
    process's budget, which may refuse. *)

From S2P Require Import Prelude Slice Blob RangeCache CacheStore Budget.

(** ** Definitions *)

Record MemoryShard := { ms_entries : gmap (bytes * Z) bytes; ms_held : Z }.

Definition empty_shard : MemoryShard := {| ms_entries := ∅; ms_held := 0 |}.

(** The shards by their index; one that was not used yet is empty. *)
Record MemoryPayload := { mp_shards : gmap nat MemoryShard; mp_budget : option MemoryBudget }.

Definition shard_at (p : MemoryPayload) (i : nat) : MemoryShard := default empty_shard (mp_shards p !! i).

Definition mem_store (i : nat) (name : bytes) (offset : Z) (b : bytes) (p : MemoryPayload) : bool * MemoryPayload :=
  let s := shard_at p i in
  let '(granted, budget) := match mp_budget p with Some x => let '(r, x) := try_acquire (zlen b) x in (r, Some x) | None => (true, None) end in
  if negb granted then (false, p)
  else
    let '(held, budget) :=
      match ms_entries s !! (name, offset) with
      | Some existing => (u64 (ms_held s - zlen existing), release (zlen existing) <$> budget)
      | None => (ms_held s, budget)
      end in
    (true, {| mp_shards := <[i := {| ms_entries := <[(name, offset) := b]> (ms_entries s); ms_held := u64 (held + zlen b) |}]> (mp_shards p); mp_budget := budget |}).

Definition mem_load (i : nat) (name : bytes) (offset skip len : Z) (p : MemoryPayload) : option bytes * MemoryPayload :=
  (match ms_entries (shard_at p i) !! (name, offset) with
   | None => None
   | Some b =>
       if zlen b <? skip then Some []
       else
         let available := zlen b - skip in
         Some (take (Z.to_nat (if len <? available then len else available)) (drop (Z.to_nat skip) b))
   end, p).

(** The loop of [drop] over the entries of a name. *)
Definition drop_entry (acc : MemoryShard * option MemoryBudget) (e : (bytes * Z) * bytes) : MemoryShard * option MemoryBudget :=
  let '(s, budget) := acc in
  ({| ms_entries := delete e.1 (ms_entries s); ms_held := u64 (ms_held s - zlen e.2) |}, release (zlen e.2) <$> budget).

Definition entries_under (name : bytes) (s : MemoryShard) : list ((bytes * Z) * bytes) :=
  List.filter (fun e => bool_decide (e.1.1 = name)) (map_to_list (ms_entries s)).

Definition mem_drop (i : nat) (name : bytes) (p : MemoryPayload) : MemoryPayload :=
  let '(s, budget) := fold_left drop_entry (entries_under name (shard_at p i)) (shard_at p i, mp_budget p) in
  {| mp_shards := <[i := s]> (mp_shards p); mp_budget := budget |}.

#[export] Instance memory_payload : Payload MemoryPayload := {| pl_store := mem_store; pl_load := mem_load; pl_drop := mem_drop |}.

(** The destructors of the shards, those below [n]. *)
Definition destroy_shard (p : MemoryPayload) (i : nat) (budget : option MemoryBudget) : option MemoryBudget :=
  if 0 <? ms_held (shard_at p i) then release (ms_held (shard_at p i)) <$> budget else budget.

Definition destroy_shards (n : nat) (p : MemoryPayload) : option MemoryBudget := foldr (destroy_shard p) (mp_budget p) (seq 0 n).

(** ** It keeps the contract of a payload *)

Definition mem_held (p : MemoryPayload) (i : nat) (name : bytes) (offset : Z) : option bytes := ms_entries (shard_at p i) !! (name, offset).

Lemma shard_at_insert p i s j budget : shard_at {| mp_shards := <[i := s]> (mp_shards p); mp_budget := budget |} j = if decide (i = j) then s else shard_at p j.
Proof. unfold shard_at. cbn. destruct (decide (i = j)) as [<- |Hne]; [by rewrite lookup_insert_eq|by rewrite lookup_insert_ne]. Qed.

Lemma drop_entries_spec l : forall s budget, (fold_left drop_entry l (s, budget)).1.(ms_entries) = foldl (fun m e => delete e.1 m) (ms_entries s) l.
Proof. induction l as [|e l IH]; intros s budget; [done|]. cbn. by rewrite IH. Qed.

Lemma deletes_only (l : list ((bytes * Z) * bytes)) : forall (m : gmap (bytes * Z) bytes) k b, foldl (fun m e => delete e.1 m) m l !! k = Some b -> m !! k = Some b.
Proof. induction l as [|e l IH]; intros m k b; cbn; [done|]. intros [_ H]%IH%lookup_delete_Some. done. Qed.

Lemma mem_drop_entries i n p j k b : ms_entries (shard_at (mem_drop i n p) j) !! k = Some b -> ms_entries (shard_at p j) !! k = Some b.
Proof.
  unfold mem_drop. destruct (fold_left drop_entry _ _) as [s budget] eqn:E. rewrite shard_at_insert. destruct (decide (i = j)) as [<- |]; [|done].
  assert (ms_entries s = ms_entries (s, budget).1) as -> by done. rewrite <- E, drop_entries_spec. apply deletes_only.
Qed.

#[export] Instance memory_payload_laws : PayloadLaws memory_payload (fun _ => True) mem_held.
Proof.
  split; cbn [pl_store pl_load pl_drop memory_payload]; unfold mem_held.
  - intros i n o b p p' _ _ _. unfold mem_store. destruct (match mp_budget p with Some _ => _ | None => _ end) as [[] budget]; cbn [negb]; [|done].
    destruct (match ms_entries (shard_at p i) !! (n, o) with Some _ => _ | None => _ end) as [held budget']. intros [= <-]. rewrite shard_at_insert, decide_True by done. cbn. by rewrite lookup_insert_eq.
  - intros i n o b p r p' j m o' _ _ _ _ _. unfold mem_store. destruct (match mp_budget p with Some _ => _ | None => _ end) as [[] budget]; cbn [negb]; [|by intros [= <- <-]].
    destruct (match ms_entries (shard_at p i) !! (n, o) with Some _ => _ | None => _ end) as [held budget']. intros [= <- <-] [?|Hne]; [done|]. rewrite shard_at_insert. destruct (decide (i = j)) as [<- |]; [|done].
    cbn. by rewrite lookup_insert_ne.
  - done.
  - intros i n o skip len p out p' _ Hs Hl. unfold mem_load. destruct (ms_entries (shard_at p i) !! (n, o)) as [b|]; [|done]. unfold zlen. intros [= E _]. exists b. split; [done|]. revert E.
    destruct (Z.ltb_spec (Z.of_nat (length b)) skip) as [H|H]; intros [= <-]; [by rewrite drop_ge, take_nil by lia|].
    destruct (Z.ltb_spec len (Z.of_nat (length b) - skip)); [done|]. rewrite !firstn_all2; [done|rewrite length_drop; lia|rewrite length_drop; lia].
  - by intros i n o skip len p r p' _ [= _ <-].
  - intros i n p _. split; [done|]. intros j m o b. apply mem_drop_entries.
Qed.

(** ** What the budget is told *)

Definition entry_bytes (m : gmap (bytes * Z) bytes) : Z := map_fold (fun _ b acc => zlen b + acc) 0 m.

Lemma entry_bytes_insert m k b : m !! k = None -> entry_bytes (<[k := b]> m) = zlen b + entry_bytes m.
Proof. intros H. unfold entry_bytes. rewrite map_fold_insert_L; [done| |done]. intros. lia. Qed.

Lemma entry_bytes_delete m k b : m !! k = Some b -> entry_bytes m = zlen b + entry_bytes (delete k m).
Proof. intros H. rewrite <- (insert_delete_id m k b H) at 1. apply entry_bytes_insert. apply lookup_delete_eq. Qed.

Lemma entry_bytes_replace m k b b' : m !! k = Some b -> entry_bytes (<[k := b']> m) = entry_bytes m - zlen b + zlen b'.
Proof. intros H. rewrite <- insert_delete_eq, entry_bytes_insert by apply lookup_delete_eq. rewrite (entry_bytes_delete m k b H). lia. Qed.

(** Each shard counts what it holds, and what the budget was charged is the sum of the counts. *)
Definition counted (s : MemoryShard) : Prop := ms_held s = u64 (entry_bytes (ms_entries s)).

Definition held_total (n : nat) (p : MemoryPayload) : Z := foldr (fun i acc => entry_bytes (ms_entries (shard_at p i)) + acc) 0 (seq 0 n).

Record charged_for (n : nat) (base : option Z) (p : MemoryPayload) : Prop := {
  cf_counted : forall i, counted (shard_at p i);
  cf_used : mb_used <$> mp_budget p = (fun u => u64 (u + held_total n p)) <$> base
}.

Lemma held_total_other k : forall l (f g : nat -> Z), k ∉ l -> (forall i, i <> k -> f i = g i) -> foldr (fun i acc => f i + acc) 0 l = foldr (fun i acc => g i + acc) 0 l.
Proof. induction l as [|j l IH]; intros f g Hk H; [done|]. apply not_elem_of_cons in Hk as [Hj Hk]. cbn. rewrite (IH f g Hk H). f_equal. apply H. congruence. Qed.

Lemma held_total_update k : forall l (f g : nat -> Z), NoDup l -> k ∈ l -> (forall i, i <> k -> f i = g i) ->
  foldr (fun i acc => f i + acc) 0 l = foldr (fun i acc => g i + acc) 0 l + (f k - g k).
Proof.
  induction l as [|j l IH]; intros f g Hd Hk H; [by apply elem_of_nil in Hk|]. apply NoDup_cons in Hd as [Hj Hd]. cbn. apply elem_of_cons in Hk as [-> |Hk].
  - rewrite (held_total_other j l f g Hj H). lia.
  - rewrite (IH f g Hd Hk H), (H j); [lia|]. by intros ->.
Qed.

Lemma held_total_insert n p i s budget : (i < n)%nat ->
  held_total n {| mp_shards := <[i := s]> (mp_shards p); mp_budget := budget |} = held_total n p + (entry_bytes (ms_entries s) - entry_bytes (ms_entries (shard_at p i))).
Proof.
  intros Hi. unfold held_total. rewrite (held_total_update i (seq 0 n) _ (fun j => entry_bytes (ms_entries (shard_at p j)))); [|apply NoDup_seq|by apply elem_of_seq; lia|].
  - rewrite shard_at_insert, decide_True by done. lia.
  - intros j Hj. rewrite shard_at_insert, decide_False; [done|congruence].
Qed.

Lemma held_total_empty n budget : held_total n {| mp_shards := ∅; mp_budget := budget |} = 0.
Proof. unfold held_total. induction (seq 0 n) as [|i l IH]; [done|]. cbn [foldr]. rewrite IH. unfold shard_at. cbn [mp_shards]. by rewrite lookup_empty. Qed.

Lemma mem_store_charged n base i name o b p r p' : (i < n)%nat -> charged_for n base p -> mem_store i name o b p = (r, p') -> charged_for n base p'.
Proof.
  intros Hi Hch. pose proof Hch as [Hc Hu]. unfold mem_store. destruct (match mp_budget p with Some _ => _ | None => _ end) as [granted budget] eqn:Eb. destruct granted; cbn [negb]; [|by intros [= <- <-]].
  assert (mb_used <$> budget = (fun u => u64 (u + zlen b)) <$> (mb_used <$> mp_budget p)) as Hb.
  { destruct (mp_budget p) as [x|]; [|by injection Eb as <-]. unfold try_acquire in Eb. destruct (_ <? _); [done|]. by injection Eb as <-. }
  rewrite Hu in Hb. pose proof (Hc i) as Hci. unfold counted in Hci. destruct (ms_entries (shard_at p i) !! (name, o)) as [old|] eqn:Eo; intros [= <- <-]; split.
  - intros j. rewrite shard_at_insert. destruct (decide (i = j)) as [<- |]; [|apply Hc]. unfold counted. cbn. rewrite (entry_bytes_replace _ _ _ _ Eo), Hci, u64_add_l, u64_sub_add_l. done.
  - rewrite held_total_insert by done. cbn. rewrite (entry_bytes_replace _ _ _ _ Eo). destruct budget as [x|], base as [u|]; cbn in *; try done. injection Hb as Hb. f_equal. rewrite Hb, ?u64_add_l, ?u64_sub_l. f_equal. lia.
  - intros j. rewrite shard_at_insert. destruct (decide (i = j)) as [<- |]; [|apply Hc]. unfold counted. cbn. rewrite (entry_bytes_insert _ _ _ Eo), Hci, u64_add_l. f_equal. lia.
  - rewrite held_total_insert by done. cbn. rewrite (entry_bytes_insert _ _ _ Eo). destruct budget as [x|], base as [u|]; cbn in *; try done. injection Hb as Hb. f_equal. rewrite Hb, u64_add_l. f_equal. lia.
Qed.

Definition sum_bytes_of (l : list ((bytes * Z) * bytes)) : Z := foldr (fun e acc => zlen e.2 + acc) 0 l.

Lemma drop_entries_counted l : forall s budget, NoDup (map fst l) -> (forall e, e ∈ l -> ms_entries s !! e.1 = Some e.2) -> counted s ->
  let r := fold_left drop_entry l (s, budget) in
  counted r.1 /\ entry_bytes (ms_entries r.1) = entry_bytes (ms_entries s) - sum_bytes_of l /\ mb_used <$> r.2 = (fun u => match l with [] => u | _ => u64 (u - sum_bytes_of l) end) <$> (mb_used <$> budget).
Proof.
  induction l as [|e l IH]; intros s budget Hd Hl Hs; cbn [fold_left]; [split_and!; [done|cbn; lia|by destruct budget]|]. cbn in Hd. apply NoDup_cons in Hd as [He Hd].
  pose proof (Hl e ltac:(by left)) as Ee. unfold drop_entry at 2 4 6. set (s1 := {| ms_entries := delete e.1 (ms_entries s); ms_held := u64 (ms_held s - zlen e.2) |}).
  assert (counted s1) as Hs1. { unfold counted in *. cbn. rewrite Hs, u64_sub_l, (entry_bytes_delete _ _ _ Ee). f_equal. lia. }
  destruct (IH s1 (release (zlen e.2) <$> budget) Hd) as (H1 & H2 & H3); [|done|].
  { intros x Hx. cbn. rewrite lookup_delete_ne; [by apply Hl; right|]. intros E. apply He. rewrite E. by apply (list_elem_of_fmap_2 fst). }
  split_and!; [done|rewrite H2; cbn [ms_entries s1 sum_bytes_of foldr]; rewrite (entry_bytes_delete _ _ _ Ee); unfold sum_bytes_of; lia|]. rewrite H3. destruct budget as [b|]; [|done]. cbn. f_equal.
  destruct l as [|e' l]; [cbn; f_equal; lia|]. cbn. rewrite u64_sub_l. f_equal. lia.
Qed.

Lemma mem_drop_charged n base i name p : (i < n)%nat -> charged_for n base p -> charged_for n base (mem_drop i name p).
Proof.
  intros Hi [Hc Hu]. unfold mem_drop. pose proof (drop_entries_counted (entries_under name (shard_at p i)) (shard_at p i) (mp_budget p)) as H. destruct (fold_left drop_entry _ _) as [s budget]. cbn [fst snd] in H.
  destruct H as (H1 & H2 & H3); [| |apply Hc|].
  - unfold entries_under. pose proof (NoDup_fst_map_to_list (ms_entries (shard_at p i))) as Hd. induction (map_to_list _) as [|e l IH]; cbn in *; [constructor|]. apply NoDup_cons in Hd as [He Hd].
    case_bool_decide; cbn; [|by apply IH]. constructor; [|by apply IH]. intros (x & Ex & Hx)%list_elem_of_fmap. apply elem_of_filter_bool in Hx as [Hx _]. apply He. rewrite Ex. by apply (list_elem_of_fmap_2 fst).
  - intros e He. apply elem_of_filter_bool in He as [He _]. apply elem_of_map_to_list. by destruct e.
  - split; [intros j; rewrite shard_at_insert; destruct (decide (i = j)); [done|apply Hc]|]. rewrite held_total_insert, H2 by done. cbn [mp_budget]. rewrite H3, Hu. destruct base as [u|]; [|done]. cbn. f_equal.
    destruct (entries_under name (shard_at p i)) as [|e l]; [f_equal; cbn; lia|]. rewrite u64_sub_l. f_equal. lia.
Qed.

(** Nothing else is charged and nothing stays charged: the budget's count is what it was, plus the bytes the
    shards hold; the destructors give those back. *)
Section Charged.
Context {S : Type} {blob : BlobStore S} (max_cache_bytes : Z) (cache_on_write : bool) (fetch_granularity : Z) (hash : bytes -> Z) (Hmax : 0 <= max_cache_bytes < 2 ^ 63).

Abbreviation count := (Z.to_nat (shard_count max_cache_bytes)).

Lemma run_charged base l : forall s : CacheBlobStore S MemoryPayload, keeps_Q count (charged_for count base) s ->
  keeps_Q count (charged_for count base) (fold_left (run_cache_op (blob := blob) max_cache_bytes cache_on_write fetch_granularity hash) l s).
Proof using Hmax.
  pose proof (shard_count_pos max_cache_bytes Hmax). induction l as [|o l IH]; intros s Hs; [done|]. cbn. apply IH. apply run_cache_op_Q; [| | |lia|done].
  - intros i name off b p r p' Hi Hp E. by eapply mem_store_charged.
  - intros i name off skip len p r p' Hi Hp [= _ <-]. done.
  - intros i name p Hi Hp. by apply mem_drop_charged.
Qed.

Lemma destroy_gives_back p (l : list nat) : forall b, (forall i, counted (shard_at p i)) -> mp_budget p = Some b -> is_u64 (mb_used b) ->
  exists x, foldr (destroy_shard p) (mp_budget p) l = Some x /\
    mb_used x = u64 (mb_used b - foldr (fun i acc => entry_bytes (ms_entries (shard_at p i)) + acc) 0 l).
Proof using.
  intros b Hc Hb Hu. induction l as [|i l (x & Ex & Hx)]; cbn [foldr]; [exists b; rewrite Z.sub_0_r, u64_small by done; done|]. rewrite Ex. unfold destroy_shard. pose proof (Hc i) as Hi. unfold counted in Hi.
  set (e := entry_bytes (ms_entries (shard_at p i))) in *. set (rest := foldr _ 0 l) in *. assert (u64 (mb_used b - (e + rest)) = u64 (mb_used x - ms_held (shard_at p i))) as E.
  { rewrite Hi, u64_sub_r, Hx, u64_sub_l. f_equal. lia. }
  rewrite E. destruct (Z.ltb_spec 0 (ms_held (shard_at p i))); [by eexists|]. exists x. split; [done|]. assert (ms_held (shard_at p i) = 0) as -> by (rewrite Hi in *; pose proof (u64_range e) as [? _]; lia).
  rewrite Z.sub_0_r, u64_small; [done|]. rewrite Hx. apply u64_range.
Qed.

(** A cache in memory charges the shared budget for the bytes it holds and for nothing else. After any
    sequence of calls the budget's counter is what it was before, plus the sizes of the cached entries; when
    the cache is destroyed it is what it was. *)
Theorem memory_cache_charges_exactly (d : S) b l : is_u64 (mb_used b) ->
  let s := fold_left (run_cache_op (blob := blob) max_cache_bytes cache_on_write fetch_granularity hash) l
    (new_cache max_cache_bytes d {| mp_shards := ∅; mp_budget := Some b |}) in
  (mb_used <$> mp_budget (cs_payload s) = Some (u64 (mb_used b + held_total count (cs_payload s)))) /\
  (mb_used <$> destroy_shards count (cs_payload s) = Some (mb_used b)).
Proof using Hmax.
  intros Hb s. assert (keeps_Q count (charged_for count (Some (mb_used b))) s) as [_ [Hc Hu]].
  { apply run_charged. split; [cbn; apply length_replicate|]. split; [done|]. unfold new_cache. cbn [cs_payload mp_budget fmap option_fmap option_map]. rewrite held_total_empty, Z.add_0_r. by rewrite u64_small. }
  cbn in Hu. split; [done|]. destruct (mp_budget (cs_payload s)) as [x|] eqn:Ex; [|done]. injection Hu as Hx. assert (is_u64 (mb_used x)) as Hr by (rewrite Hx; apply u64_range).
  destruct (destroy_gives_back (cs_payload s) (seq 0 count) x Hc Ex Hr) as (y & Ey & Hy). unfold destroy_shards. rewrite Ey. cbn. f_equal. rewrite Hy, Hx, u64_sub_l. fold (held_total count (cs_payload s)).
  rewrite Z.add_simpl_r. by apply u64_small.
Qed.
End Charged.
