(* ===== verification/DiskCache.v ===== *)
(** * The cache on disk

    The payload of [src/blob/disk_cache_blob_store.cpp]: a directory per object, a file per range, written to a
    temporary file and renamed. Nothing is synchronised: the bytes are somewhere else too. Over the file system
    of [FileSystem]; [root] is the cache's directory. *)

From S2P Require Import Prelude Slice Names Blob FileSystem DiskCatalog DiskBlob RangeCache CacheStore.

(** ** Definitions *)

(** *** Paths

    [operator/] of [std::filesystem::path], and how the system resolves what it makes: an absolute operand
    replaces, empty components and [.] stay, [..] goes up. *)

Fixpoint components (s : bytes) (current : bytes) : list bytes :=
  match s with
  | [] => [current]
  | c :: rest => if bool_decide (c = x2f) then current :: components rest [] else components rest (current ++ [c])
  end.

Definition step_into (p : path) (component : bytes) : path :=
  if bool_decide (component = [] \/ component = [x2e]) then p
  else if bool_decide (component = [x2e; x2e]) then parent_path p
  else p ++ [component].

Definition join_path (p : path) (name : bytes) : path :=
  fold_left step_into (components name []) (if starts_with name [x2f] then [] else p).

(** [%020llu]. *)
Definition padded20 (v : Z) : bytes := let s := to_string v in replicate (20 - length s) (digit 0) ++ s.

Definition kTmpSuffix : bytes := [x2e; x74; x6d; x70].

Section Payload.
Context (root : path).

Definition object_dir (name : bytes) : path := join_path root name.

Definition range_path (name : bytes) (offset : Z) : path := object_dir name ++ [padded20 offset].

Definition temp_of (name : bytes) (offset : Z) : path := object_dir name ++ [padded20 offset ++ kTmpSuffix].

(** [open(O_WRONLY | O_CREAT | O_TRUNC)]. *)
Definition fs_open_trunc (p : path) (d : Disk) : bool * Disk :=
  match next_fault d with
  | (Failing, d) => (false, d)
  | (_, d) =>
      match dk_visible d !! p with
      | Some Dir => (false, d)
      | Some (File _ _) => (true, with_visible d (<[p := File [] false]> (dk_visible d)))
      | None => if bool_decide (dk_visible d !! parent_path p = Some Dir) then (true, with_visible d (<[p := File [] false]> (dk_visible d))) else (false, d)
      end
  end.

Definition write_whole_file (name : bytes) (offset : Z) (b : bytes) (d : Disk) : bool * Disk :=
  let temp := temp_of name offset in
  match fs_open_trunc temp d with
  | (false, d) => (false, d)
  | (true, d) =>
      match write_loop (write_fuel b d) temp b d with
      | (false, d) => let '(_, d) := fs_close d in let '(_, d) := fs_remove temp d in (false, d)
      | (true, d) =>
          let '(_, d) := fs_close d in
          match fs_rename temp (range_path name offset) d with
          | (false, d) => let '(_, d) := fs_remove temp d in (false, d)
          | (true, d) => (true, d)
          end
      end
  end.

Definition disk_store (i : nat) (name : bytes) (offset : Z) (b : bytes) (d : Disk) : bool * Disk :=
  match fs_create_directories (object_dir name) d with
  | (None, d) => (false, d)
  | (Some _, d) => write_whole_file name offset b d
  end.

Definition disk_load (i : nat) (name : bytes) (offset skip len : Z) (d : Disk) : option bytes * Disk :=
  match fs_open_content (range_path name offset) d with
  | (inl _, d) => (None, d)
  | (inr content, d) =>
      match pread_loop (S (Z.to_nat len + length (dk_read_faults d))) content (Z.to_nat skip) (Z.to_nat len) [] d with
      | (Value out, d) => (Some out, d)
      | (Unexpected _, d) => (None, d)
      end
  end.

Definition disk_drop (i : nat) (name : bytes) (d : Disk) : Disk := (fs_remove_all (object_dir name) d).2.

#[export] Instance disk_payload : Payload Disk := {| pl_store := disk_store; pl_load := disk_load; pl_drop := disk_drop |}.

(** The constructor of [Impl] makes the directory and empties it, as far as the system lets it. *)
Definition wipe_entry (d : Disk) (e : bytes * Inode) : Disk := (fs_remove_all (root ++ [e.1]) d).2.

Definition open_cache_dir (d : Disk) : Disk :=
  let d := (fs_create_directories root d).2 in fold_left wipe_entry (entries_of root (dk_visible d)) d.

(** What the directory holds for a range. *)
Definition file_at (d : Disk) (i : nat) (name : bytes) (offset : Z) : option bytes :=
  match dk_visible d !! range_path name offset with Some (File c _) => Some c | _ => None end.
End Payload.

(** ** Paths do not collide *)

Lemma components_flat s : forall current, x2f ∉ s -> components s current = [current ++ s].
Proof.
  induction s as [|c s IH]; intros current H; cbn; [by rewrite app_nil_r|]. apply not_elem_of_cons in H as [Hc Hs]. rewrite bool_decide_eq_false_2 by congruence. rewrite IH by done. by rewrite <- app_assoc.
Qed.

(** A name of an object is one component below the root. *)
Lemma object_dir_valid root n : is_valid_object_name n = true -> object_dir root n = root ++ [n].
Proof.
  unfold is_valid_object_name, object_dir, join_path. destruct n as [|c n]; [done|]. rewrite !andb_true_iff, !negb_true_iff, !bool_decide_eq_false. intros [[[[_ Hdot] Hslash] _] _].
  rewrite components_flat by done. cbn [app fold_left].
  assert (starts_with (c :: n) [x2f] = false) as ->.
  { cbn. apply not_elem_of_cons in Hslash as [Hc _]. destruct (bool_decide_reflect (c = x2f)); [congruence|]. destruct (starts_with (c :: n) [x2f]) eqn:E; [|done]. exfalso. revert E. unfold starts_with. cbn. by destruct c. }
  unfold step_into. rewrite bool_decide_eq_false_2 by (intros [?|[= -> ->]]; done). by rewrite bool_decide_eq_false_2 by (intros [= -> ->]; done).
Qed.

Lemma padded20_spec v : is_u64 v -> digits_value (padded20 v) = v /\ length (padded20 v) = 20%nat.
Proof.
  intros Hv. destruct (to_string_spec v Hv) as (E & _ & Hl). unfold padded20. rewrite digits_value_zeros. split; [done|]. rewrite length_app, length_replicate. lia.
Qed.

Lemma range_path_inj root n o m o' : is_valid_object_name n = true -> is_valid_object_name m = true -> is_u64 o -> is_u64 o' -> range_path root n o = range_path root m o' -> (n, o) = (m, o').
Proof.
  intros Hn Hm Ho Ho'. unfold range_path. rewrite !object_dir_valid by done. rewrite <- !app_assoc. intros [= -> E]%app_inv_head. f_equal.
  rewrite <- (proj1 (padded20_spec o Ho)), E. by apply padded20_spec.
Qed.

Lemma temp_not_range root n o m o' : is_valid_object_name n = true -> is_valid_object_name m = true -> is_u64 o -> is_u64 o' -> temp_of root n o <> range_path root m o'.
Proof.
  intros Hn Hm Ho Ho'. unfold range_path, temp_of. rewrite !object_dir_valid by done. rewrite <- !app_assoc. intros [= _ E]%app_inv_head. apply (f_equal length) in E. rewrite length_app in E.
  rewrite (proj2 (padded20_spec o Ho)), (proj2 (padded20_spec o' Ho')) in E. by cbn in E.
Qed.

(** ** It keeps the contract of a payload *)

Lemma create_dirs_frame p d r d' : fs_create_directories p d = (r, d') -> forall q, dk_visible d' !! q = dk_visible d !! q \/ dk_visible d !! q = None /\ dk_visible d' !! q = Some Dir.
Proof.
  unfold fs_create_directories. destruct (next_fault d) as [f d0] eqn:E. destruct (next_fault_same d f d0 E) as (E1 & _).
  assert (forall budget, (let '(ok, v) := make_dirs budget (ancestors p ++ [p]) (dk_visible d0) in (if ok then Some (negb (bool_decide (dk_visible d0 !! p = Some Dir))) else None, with_visible d0 v)) = (r, d') ->
    forall q, dk_visible d' !! q = dk_visible d !! q \/ dk_visible d !! q = None /\ dk_visible d' !! q = Some Dir) as Hmk.
  { intros budget. destruct (make_dirs budget _ (dk_visible d0)) as [ok v] eqn:Em. destruct (make_dirs_spec _ _ _ _ _ Em) as (M1 & M2 & _). intros [= _ <-] q. cbn. rewrite E1 in M1, M2.
    destruct (dk_visible d !! q) as [n|] eqn:Eq; [left; by apply M1|]. destruct (v !! q) as [n|] eqn:Ev; [|by left]. destruct (M2 q n Ev) as [H|[_ ->]]; [congruence|by right]. }
  destruct f; [apply Hmk|intros [= _ <-] q; left; by rewrite E1|apply Hmk|apply Hmk].
Qed.

Lemma open_trunc_frame p d r d' : fs_open_trunc p d = (r, d') -> (forall q, q <> p -> dk_visible d' !! q = dk_visible d !! q) /\ (r = true -> dk_visible d' !! p = Some (File [] false)) .
Proof.
  unfold fs_open_trunc. destruct (next_fault d) as [f d1] eqn:E. apply next_fault_same in E as (Ev & _). rewrite Ev.
  assert (forall r d', (match dk_visible d !! p with Some Dir => (false, d1) | Some (File _ _) => (true, with_visible d1 (<[p := File [] false]> (dk_visible d)))
    | None => if bool_decide (dk_visible d !! parent_path p = Some Dir) then (true, with_visible d1 (<[p := File [] false]> (dk_visible d))) else (false, d1) end) = (r, d') ->
    (forall q, q <> p -> dk_visible d' !! q = dk_visible d !! q) /\ (r = true -> dk_visible d' !! p = Some (File [] false))) as H.
  { clear r d'. intros r d'. destruct (dk_visible d !! p) as [[|c sy]|]; [intros [= <- <-]; by rewrite Ev| |destruct (bool_decide _); [|intros [= <- <-]; by rewrite Ev]];
      intros [= <- <-]; cbn; (split; [intros q Hq; by rewrite lookup_insert_ne|intros _; apply lookup_insert_eq]). }
  destruct f; [apply H|intros [= <- <-]; by rewrite Ev|apply H|apply H].
Qed.

Lemma rename_frame from to d ok d' : from <> to -> fs_rename from to d = (ok, d') -> (forall q, q <> from -> q <> to -> dk_visible d' !! q = dk_visible d !! q) /\
  if ok then dk_visible d' !! to = dk_visible d !! from else dk_visible d' = dk_visible d.
Proof.
  intros Hne. unfold fs_rename. destruct (next_fault d) as [f d1] eqn:E. apply next_fault_same in E as (Ev & _).
  assert (forall ok d', (match dk_visible d1 !! from with Some n => (true, with_visible d1 (<[to := n]> (delete from (dk_visible d1)))) | None => (false, d1) end) = (ok, d') ->
    (forall q, q <> from -> q <> to -> dk_visible d' !! q = dk_visible d !! q) /\ if ok then dk_visible d' !! to = dk_visible d !! from else dk_visible d' = dk_visible d) as H.
  { clear ok d'. intros ok d'. rewrite Ev. destruct (dk_visible d !! from) as [n|] eqn:En; intros [= <- <-]; [|by rewrite Ev]. cbn. split; [intros q H1 H2; by rewrite lookup_insert_ne, lookup_delete_ne|by rewrite lookup_insert_eq]. }
  destruct f; [apply H|intros [= <- <-]; by rewrite Ev|apply H|apply H].
Qed.

(** Writing a range touches its two names, and succeeds only when the bytes are there. *)
Lemma write_whole_file_spec root n o b d r d' : temp_of root n o <> range_path root n o -> write_whole_file root n o b d = (r, d') ->
  (forall q, q <> temp_of root n o -> (r = false \/ q <> range_path root n o) -> dk_visible d' !! q = dk_visible d !! q) /\ (r = true -> exists sy, dk_visible d' !! range_path root n o = Some (File b sy)).
Proof.
  intros Hne. unfold write_whole_file. set (temp := temp_of root n o) in *. destruct (fs_open_trunc temp d) as [[] d1] eqn:E1; apply open_trunc_frame in E1 as [F1 R1]; [|intros [= <- <-]; split; [intros q Hq _; by apply F1|done]].
  destruct (write_loop (write_fuel b d1) temp b d1) as [written d2] eqn:E2. destruct (write_loop_spec temp _ _ _ _ _ [] false (R1 eq_refl) E2) as (k & sy & W1 & _ & _ & W4).
  assert (forall q, q <> temp -> dk_visible d2 !! q = dk_visible d !! q) as F2 by (intros q Hq; rewrite W1, lookup_insert_ne by done; by apply F1). destruct written.
  - destruct (fs_close d2) as [cl d3] eqn:E3. apply close_frame in E3 as [V3 _]. destruct (fs_rename temp (range_path root n o) d3) as [ok d4] eqn:E4. apply rename_frame in E4 as [F4 R4]; [|done]. rewrite V3 in *. destruct ok.
    + intros [= <- <-]. split; [intros q Hq [?|Hr]; [done|]; by rewrite F4, F2|]. intros _. exists sy. rewrite R4, W1, lookup_insert_eq. cbn. by rewrite W4.
    + destruct (fs_remove temp d4) as [rm d5] eqn:E5. apply remove_frame in E5 as [_ F5]. intros [= <- <-]. split; [intros q Hq _; by rewrite F5, R4, F2|done].
  - destruct (fs_close d2) as [cl d3] eqn:E3. apply close_frame in E3 as [V3 _]. destruct (fs_remove temp d3) as [rm d4] eqn:E4. apply remove_frame in E4 as [_ F4]. intros [= <- <-]. split; [intros q Hq _; by rewrite F4, V3, F2|done].
Qed.

Lemma remove_all_loses q d p n : dk_visible (fs_remove_all q d).2 !! p = Some n -> dk_visible d !! p = Some n.
Proof.
  unfold fs_remove_all. destruct (next_fault d) as [f d1] eqn:E. apply next_fault_same in E as (Ev & _). destruct f; cbn; rewrite ?lookup_remove_paths, ?Ev; try done; by case_bool_decide.
Qed.

Lemma file_at_same root d d' i n o : (dk_visible d' !! range_path root n o = dk_visible d !! range_path root n o \/ dk_visible d !! range_path root n o = None /\ dk_visible d' !! range_path root n o = Some Dir) ->
  file_at root d' i n o = file_at root d i n o.
Proof. unfold file_at. by intros [-> |[-> ->]]. Qed.

#[export] Instance disk_payload_laws root : PayloadLaws (disk_payload root) (fun _ => True) (file_at root).
Proof.
  split; cbn [pl_store pl_load pl_drop disk_payload].
  - intros i n o b d d' _ Hn Ho. unfold disk_store. destruct (fs_create_directories _ d) as [[made|] d1]; [|done]. intros [_ H]%write_whole_file_spec; [|by apply temp_not_range]. destruct (H eq_refl) as [sy E]. unfold file_at. by rewrite E.
  - intros i n o b d r d' j m o' _ Hn Ho Hm Ho'. unfold disk_store. destruct (fs_create_directories _ d) as [[made|] d1] eqn:E; pose proof (create_dirs_frame _ _ _ _ E) as F; [|intros [= <- <-] _; by apply file_at_same].
    intros [Hf _]%write_whole_file_spec; [|by apply temp_not_range]. intros Hne. etrans; [|by apply file_at_same, F]. apply file_at_same. left. apply Hf; [by apply not_eq_sym, temp_not_range|].
    destruct Hne as [?|Hne]; [by left|right]. intros Eq%range_path_inj; congruence.
  - done.
  - intros i n o skip len d out d' _ Hs Hl. unfold disk_load. destruct (fs_open_content _ d) as [[e|content] d1] eqn:E; apply open_content_frame in E as [_ Hc]; [done|]. destruct Hc as [sy Hc].
    destruct (pread_loop _ content _ _ [] d1) as [[x|e] d2] eqn:Ep; [|done]. destruct (pread_loop_spec content _ _ _ _ _ _ _ (prefix_nil _) Ep) as [_ ->]. intros [= <- _]. exists content. unfold file_at. by rewrite Hc.
  - intros i n o skip len d r d' _. unfold disk_load. destruct (fs_open_content _ d) as [[e|content] d1] eqn:E; apply open_content_frame in E as [Ev _]; [intros [= _ <-]; split; [done|]; intros j m o'; unfold file_at; by rewrite Ev|].
    destruct (pread_loop _ content _ _ [] d1) as [x d2] eqn:Ep. destruct (pread_loop_spec content _ _ _ _ _ _ _ (prefix_nil _) Ep) as [Ev2 _]. intros H. assert (d' = d2) as -> by (destruct x; congruence).
    split; [done|]. intros j m o'. unfold file_at. by rewrite Ev2, Ev.
  - intros i n d _. split; [done|]. intros j m o b. unfold file_at, disk_drop. destruct (dk_visible (fs_remove_all _ d).2 !! range_path root m o) as [[|c sy]|] eqn:E; try done. apply remove_all_loses in E. by rewrite E.
Qed.
