(* ===== verification/Windowed.v ===== *)
(** * Reading a store through a window

    [src/blob/windowed_blob_store.hpp]: the reads of a compaction's input, served out of one large read that
    moves forward, with the next one fetched ahead. The fetch ahead runs on a thread of its own; its read of the
    store is made when it is started. *)

From S2P Require Import Prelude Slice Blob.

(** ** Definitions *)

Record WindowedBlobStore (S : Type) := {
  wd_delegate : S;
  wd_name : bytes;
  wd_offset : Z;
  wd_window : bytes;
  wd_sequential : bool;
  wd_prefetch : option (Result bytes);
  wd_prefetch_offset : Z
}.
Arguments wd_delegate {S} _.
Arguments wd_name {S} _.
Arguments wd_offset {S} _.
Arguments wd_window {S} _.
Arguments wd_sequential {S} _.
Arguments wd_prefetch {S} _.
Arguments wd_prefetch_offset {S} _.

Definition new_window {S} (delegate : S) : WindowedBlobStore S :=
  {| wd_delegate := delegate; wd_name := []; wd_offset := 0; wd_window := []; wd_sequential := false; wd_prefetch := None; wd_prefetch_offset := 0 |}.

Definition window_end {S} (w : WindowedBlobStore S) : Z := u64 (wd_offset w + zlen (wd_window w)).

Section Window.
Context {S : Type} {blob : BlobStore S} (window_bytes object_bytes : Z).

(** The future is consumed whether or not its bytes are the ones wanted. *)
Definition take_prefetch (name : bytes) (at_ : Z) (w : WindowedBlobStore S) : option bytes * WindowedBlobStore S :=
  (match wd_prefetch w with
   | Some (Value fetched) => if bool_decide (name = wd_name w) && (at_ =? wd_prefetch_offset w) then Some fetched else None
   | _ => None
   end,
   {| wd_delegate := wd_delegate w; wd_name := wd_name w; wd_offset := wd_offset w; wd_window := wd_window w; wd_sequential := wd_sequential w;
      wd_prefetch := None; wd_prefetch_offset := wd_prefetch_offset w |}).

Definition start_prefetch (w : WindowedBlobStore S) : WindowedBlobStore S :=
  if negb (wd_sequential w) || (zlen (wd_window w) <? window_bytes) then w
  else
    let at_ := window_end w in
    let with_prefetch d p :=
      {| wd_delegate := d; wd_name := wd_name w; wd_offset := wd_offset w; wd_window := wd_window w; wd_sequential := wd_sequential w; wd_prefetch := p; wd_prefetch_offset := at_ |} in
    if negb (object_bytes =? 0) && (object_bytes <=? at_) then with_prefetch (wd_delegate w) (wd_prefetch w)
    else let '(r, d) := bs_get (wd_name w) at_ (Some window_bytes) (wd_delegate w) in with_prefetch d (Some r).

(** The status is the error of the read that failed, [None] when the window was moved. *)
Definition refill (name : bytes) (offset len : Z) (w : WindowedBlobStore S) : option Status * WindowedBlobStore S :=
  let want := Z.max window_bytes len in
  let current_end := window_end w in
  let forward := bool_decide (name = wd_name w) && (wd_offset w <=? offset) && (offset <=? current_end) in
  let '(fetched, w) := take_prefetch name current_end w in
  let joined :=
    match fetched with
    | Some fetched =>
        if forward then
          let keep := current_end - offset in
          if len <=? keep + zlen fetched then Some (drop (length (wd_window w) - Z.to_nat keep) (wd_window w) ++ fetched) else None
        else None
    | None => None
    end in
  let '(filled, d) :=
    match joined with
    | Some b => (Value b, wd_delegate w)
    | None => bs_get name offset (Some want) (wd_delegate w)
    end in
  match filled with
  | Unexpected e =>
      (Some e, {| wd_delegate := d; wd_name := wd_name w; wd_offset := wd_offset w; wd_window := wd_window w; wd_sequential := wd_sequential w;
                  wd_prefetch := wd_prefetch w; wd_prefetch_offset := wd_prefetch_offset w |})
  | Value filled =>
      (None, start_prefetch {| wd_delegate := d; wd_name := name; wd_offset := offset; wd_window := filled; wd_sequential := forward;
                               wd_prefetch := wd_prefetch w; wd_prefetch_offset := wd_prefetch_offset w |})
  end.

Definition windowed_get (name : bytes) (offset : Z) (len : option Z) (w : WindowedBlobStore S) : Result bytes * WindowedBlobStore S :=
  match len with
  | None =>
      let '(r, d) := bs_get name offset None (wd_delegate w) in
      (r, {| wd_delegate := d; wd_name := wd_name w; wd_offset := wd_offset w; wd_window := wd_window w; wd_sequential := wd_sequential w;
             wd_prefetch := wd_prefetch w; wd_prefetch_offset := wd_prefetch_offset w |})
  | Some len =>
      let missing := negb (bool_decide (name = wd_name w)) || (offset <? wd_offset w) || (window_end w <? u64 (offset + len)) in
      let '(failed, w) := if missing then refill name offset len w else (None, w) in
      match failed with
      | Some e => (Unexpected e, w)
      | None =>
          let start := offset - wd_offset w in
          let available := zlen (wd_window w) - Z.min start (zlen (wd_window w)) in
          (Value (take (Z.to_nat (Z.min len available)) (drop (Z.to_nat start) (wd_window w))), w)
      end
  end.
End Window.

(** ** Reads through the window are reads of the object *)

(** Requests of an input, with room for a window after them. *)
Definition reaches (offset : Z) (len : option Z) : Prop := 0 <= offset /\ match len with Some n => 0 <= n /\ offset + n < 2 ^ 63 | None => offset < 2 ^ 63 end.

Lemma take_own {A} m (l : list A) : take m l = take (length (take m l)) l.
Proof. rewrite length_take. destruct (Nat.min_spec m (length l)) as [[? ->]|[? ->]]; [done|]. rewrite !firstn_all2; done || lia. Qed.

Section Proofs.
Context {S : Type} {blob : BlobStore S} {ok : S -> Prop} {objects : S -> bytes -> option bytes} {laws : BlobStoreLaws blob ok objects}.
Context (window_bytes object_bytes : Z) (Hwin : 0 < window_bytes < 2 ^ 62).

(** The window and the bytes ahead are the object's own, where they say they are. *)
Record window_ok (w : WindowedBlobStore S) : Prop := {
  wo_delegate : ok (wd_delegate w);
  wo_range : 0 <= wd_offset w /\ wd_offset w + zlen (wd_window w) < 2 ^ 63 + window_bytes;
  wo_window : wd_window w = [] \/ exists c, objects (wd_delegate w) (wd_name w) = Some c /\ wd_window w = take (length (wd_window w)) (drop (Z.to_nat (wd_offset w)) c);
  wo_prefetch : forall b, wd_prefetch w = Some (Value b) -> exists c, objects (wd_delegate w) (wd_name w) = Some c /\ b = read_slice c (wd_prefetch_offset w) (Some window_bytes)
}.

Lemma window_end_exact w : window_ok w -> window_end w = wd_offset w + zlen (wd_window w).
Proof using Hwin. intros [_ [H1 H2] _ _]. unfold window_end. apply u64_small. unfold is_u64, zlen in *. lia. Qed.

Lemma start_prefetch_ok w : window_ok w -> wd_prefetch w = None -> let w' := start_prefetch window_bytes object_bytes w in
  window_ok w' /\ (forall m, objects (wd_delegate w') m = objects (wd_delegate w) m) /\ wd_offset w' = wd_offset w /\ wd_window w' = wd_window w.
Proof using Hwin laws.
  intros Hw Hn. unfold start_prefetch. destruct (negb (wd_sequential w) || _); [done|]. rewrite (window_end_exact w Hw). destruct Hw as [H1 H2 H3 H4].
  destruct (negb (object_bytes =? 0) && _); [split; [|done]; split; cbn; [done|done|done|by rewrite Hn]|].
  destruct (bs_get (wd_name w) _ _ (wd_delegate w)) as [r d] eqn:E. assert (readable (wd_offset w + zlen (wd_window w)) (Some window_bytes)) as Hr by (unfold readable, zlen in *; lia).
  destruct (law_get_frame _ _ _ _ _ _ H1 Hr E) as [Hd Hsame]. split; [|done]. split; cbn; [done|done| |].
  - destruct H3 as [->|(c & Hc & Hs)]; [by left|right]. exists c. by rewrite Hsame.
  - intros b [= ->]. destruct (law_get_ok _ _ _ _ _ _ H1 Hr E) as (c & Hc & ->). exists c. by rewrite Hsame.
Qed.

(** What a refill leaves: a window at the request, of the object's bytes, as long as the request unless the
    object ends. *)
Lemma refill_ok name offset len w r w' : window_ok w -> reaches offset (Some len) -> (name = wd_name w -> wd_offset w <= offset -> window_end w < offset + len) -> refill window_bytes object_bytes name offset len w = (r, w') ->
  window_ok w' /\ (forall m, objects (wd_delegate w') m = objects (wd_delegate w) m) /\
  match r with
  | None => wd_offset w' = offset /\ exists c, objects (wd_delegate w) name = Some c /\ take (Z.to_nat len) (wd_window w') = read_slice c offset (Some len)
  | Some e => e = NotFound -> objects (wd_delegate w) name = None
  end.
Proof using Hwin laws.
  intros Hw [Ho [Hl Hlen]] Hmiss. unfold refill. rewrite (window_end_exact w Hw) in *. pose proof Hw as [H1 [H2 H2'] H3 H4]. cbn [take_prefetch]. unfold take_prefetch. set (ce := wd_offset w + zlen (wd_window w)) in *.
  set (forward := bool_decide (name = wd_name w) && (wd_offset w <=? offset) && (offset <=? ce)). cbn [wd_delegate wd_window wd_prefetch wd_name wd_offset wd_sequential wd_prefetch_offset].
  set (fetched := match wd_prefetch w with Some (Value f) => if bool_decide (name = wd_name w) && (ce =? wd_prefetch_offset w) then Some f else None | _ => None end).
  set (joined := match fetched with Some f => if forward then if len <=? ce - offset + zlen f then Some (drop (length (wd_window w) - Z.to_nat (ce - offset)) (wd_window w) ++ f) else None else None | None => None end).
  assert (forall b d, ok d -> (forall m, objects d m = objects (wd_delegate w) m) -> offset + zlen b < 2 ^ 63 + window_bytes ->
    (exists c, objects (wd_delegate w) name = Some c /\ b = take (length b) (drop (Z.to_nat offset) c) /\ take (Z.to_nat len) b = read_slice c offset (Some len)) ->
    let w1 := start_prefetch window_bytes object_bytes {| wd_delegate := d; wd_name := name; wd_offset := offset; wd_window := b; wd_sequential := forward; wd_prefetch := None; wd_prefetch_offset := wd_prefetch_offset w |} in
    window_ok w1 /\ (forall m, objects (wd_delegate w1) m = objects (wd_delegate w) m) /\ wd_offset w1 = offset /\
    exists c, objects (wd_delegate w) name = Some c /\ take (Z.to_nat len) (wd_window w1) = read_slice c offset (Some len)) as Hend.
  { intros b d Hd Hsame Hb (c & Hc & Eb & Et). set (w0 := {| wd_delegate := d; wd_name := name; wd_offset := offset; wd_window := b; wd_sequential := forward; wd_prefetch := None; wd_prefetch_offset := wd_prefetch_offset w |}).
    assert (window_ok w0) as Hw0. { split; cbn; [done|done| |done]. right. exists c. by rewrite Hsame. }
    destruct (start_prefetch_ok w0 Hw0 eq_refl) as (K1 & K2 & K3 & K4). split; [done|]. split; [intros m; rewrite K2; apply Hsame|]. rewrite K3, K4. split; [done|]. by exists c. }
  destruct joined as [b|] eqn:Ej.
  - intros [= <- <-]. apply Hend; [done|done| |]; clear Hend; revert Ej; unfold joined; destruct fetched as [f|] eqn:Ef; try done; destruct forward eqn:Ew; try done;
      destruct (Z.leb_spec len (ce - offset + zlen f)) as [Hfit|]; try done; intros [= <-].
    all: unfold forward in Ew; rewrite !andb_true_iff, bool_decide_eq_true, !Z.leb_le in Ew; destruct Ew as [[-> Hge] Hle].
    all: assert (exists c, objects (wd_delegate w) (wd_name w) = Some c /\ f = read_slice c ce (Some window_bytes)) as (c & Hc & Hf)
      by (revert Ef; unfold fetched; destruct (wd_prefetch w) as [[x|]|] eqn:Ep; try done; destruct (Z.eqb_spec ce (wd_prefetch_offset w)) as [->|]; [|by rewrite andb_false_r]; rewrite bool_decide_eq_true_2 by done; intros [= <-]; by apply H4).
    all: specialize (Hmiss eq_refl Hge); assert (drop (length (wd_window w) - Z.to_nat (ce - offset)) (wd_window w) ++ f = take (Z.to_nat (ce - offset) + Z.to_nat window_bytes) (drop (Z.to_nat offset) c)) as Eb.
    1,3: assert (wd_window w = take (length (wd_window w)) (drop (Z.to_nat (wd_offset w)) c)) as Es by (destruct H3 as [->|(x & Hx & Hs)]; [done|rewrite Hc in Hx; by injection Hx as ->]);
      rewrite Es at 2; rewrite skipn_firstn_comm, drop_drop, <- take_take_drop, drop_drop, Hf; cbn [read_slice]; unfold ce, zlen in *; f_equal; [f_equal; [lia|f_equal; lia]|do 2 f_equal; lia].
    + rewrite Eb. unfold zlen. rewrite length_take. lia.
    + exists c. split; [done|]. rewrite Eb. split; [apply take_own|]. cbn. rewrite take_take. f_equal. rewrite Hf in Hfit. unfold zlen in Hfit. cbn in Hfit. rewrite length_take in Hfit. lia.
  - destruct (bs_get name offset (Some (Z.max window_bytes len)) (wd_delegate w)) as [r0 d] eqn:E. assert (readable offset (Some (Z.max window_bytes len))) as Hr by (unfold readable; lia).
    destruct (law_get_frame _ _ _ _ _ _ H1 Hr E) as [Hd Hsame]. destruct r0 as [b|e]; intros [= <- <-].
    + destruct (law_get_ok _ _ _ _ _ _ H1 Hr E) as (c & Hc & Eb). apply Hend; [done|done| |].
      * rewrite Eb. unfold zlen. cbn. rewrite length_take. lia.
      * exists c. split; [done|]. split; [rewrite Eb; cbn; apply take_own|]. rewrite Eb. cbn. rewrite take_take. f_equal. lia.
    + split; [|split; [done|]]. 
      * split; cbn; [done|done| |done]. destruct H3 as [->|(c & Hc & Hs)]; [by left|right]. exists c. by rewrite Hsame.
      * intros ->. exact (law_get_missing _ _ _ _ _ H1 Hr E).
Qed.

Lemma windowed_get_ok name offset len w r w' : window_ok w -> reaches offset len -> windowed_get window_bytes object_bytes name offset len w = (r, w') ->
  window_ok w' /\ (forall m, objects (wd_delegate w') m = objects (wd_delegate w) m) /\
  match r with
  | Value b => b = [] /\ len = Some 0 \/ exists c, objects (wd_delegate w) name = Some c /\ b = read_slice c offset len
  | Unexpected NotFound => objects (wd_delegate w) name = None
  | Unexpected _ => True
  end.
Proof using Hwin laws.
  intros Hw Hr. pose proof Hw as [H1 [H2 H2'] H3 H4]. unfold windowed_get. destruct len as [n|].
  - destruct Hr as [Ho [Hn Hlen]]. rewrite (window_end_exact w Hw), u64_small by (unfold is_u64; lia). destruct (negb (bool_decide (name = wd_name w)) || (offset <? wd_offset w) || (wd_offset w + zlen (wd_window w) <? offset + n)) eqn:Em.
    + destruct (refill _ _ name offset n w) as [e w1] eqn:E. destruct (refill_ok name offset n w e w1 Hw ltac:(done)) as (Hw1 & Hsame & Hres); [|done|].
      { intros -> Hge. rewrite (window_end_exact w Hw). rewrite bool_decide_eq_true_2, orb_true_iff, orb_true_iff, !Z.ltb_lt in Em by done. destruct Em as [[?|?]|?]; [done|lia|lia]. }
      destruct e as [e|]; intros [= <- <-]; [split_and!; [done|done|]; destruct e; try done; by apply Hres|]. split_and!; [done|done|]. right. destruct Hres as (E1 & c & Hc & Ht). exists c. split; [done|].
      rewrite E1, Z.sub_diag. cbn [drop Z.to_nat]. rewrite <- Ht. unfold zlen. rewrite drop_0. rewrite (Z.min_l 0) by lia. rewrite Z.sub_0_r.
      destruct (Z.min_spec n (Z.of_nat (length (wd_window w1)))) as [[? ->]|[? ->]]; [done|]. rewrite !firstn_all2; done || lia.
    + intros [= <- <-]. split_and!; [done|done|]. rewrite !orb_false_iff, negb_false_iff, bool_decide_eq_true, !Z.ltb_ge in Em. destruct Em as [[-> Hge] Hle].
      destruct H3 as [E|(c & Hc & Es)]; [left; unfold zlen in *; rewrite E in *; cbn [length] in *; split; [by rewrite drop_nil, take_nil|f_equal; lia]|right]. exists c. split; [done|]. unfold zlen in *. cbn [read_slice].
      assert (forall k, drop k (wd_window w) = take (length (wd_window w) - k) (drop (Z.to_nat (wd_offset w) + k) c)) as -> by (intros k; rewrite Es at 1; by rewrite skipn_firstn_comm, drop_drop).
      rewrite take_take. f_equal; [lia|f_equal; lia].
  - destruct (bs_get name offset None (wd_delegate w)) as [r0 d] eqn:E. intros [= <- <-]. assert (readable offset None) as Hr' by (destruct Hr; unfold readable; lia).
    destruct (law_get_frame _ _ _ _ _ _ H1 Hr' E) as [Hd Hsame]. split; [|split; [done|]].
    + split; cbn; [done|done| |]; [destruct H3 as [->|(c & Hc & Hs)]; [by left|right]; exists c; by rewrite Hsame|]. intros b Hb. destruct (H4 b Hb) as (c & Hc & ->). exists c. by rewrite Hsame.
    + destruct r0 as [b|e]; [right; exact (law_get_ok _ _ _ _ _ _ H1 Hr' E)|]. destruct e; try done. exact (law_get_missing _ _ _ _ _ H1 Hr' E).
Qed.

Lemma new_window_ok d : ok d -> window_ok (new_window d).
Proof using Hwin. intros Hd. split; cbn; [done|unfold zlen; cbn [length]; lia|by left|done]. Qed.

Definition run_reads (l : list (bytes * Z * option Z)) (w : WindowedBlobStore S) : WindowedBlobStore S :=
  fold_left (fun w q => (windowed_get window_bytes object_bytes q.1.1 q.1.2 q.2 w).2) l w.

Lemma run_reads_ok l : forall w, window_ok w -> Forall (fun q => reaches q.1.2 q.2) l -> window_ok (run_reads l w) /\ forall m, objects (wd_delegate (run_reads l w)) m = objects (wd_delegate w) m.
Proof using Hwin laws.
  induction l as [|q l IH]; intros w Hw Hl; [done|]. apply Forall_cons in Hl as [Hq Hl]. cbn [run_reads fold_left]. destruct (windowed_get window_bytes object_bytes q.1.1 q.1.2 q.2 w) as [r w1] eqn:E.
  destruct (windowed_get_ok _ _ _ _ _ _ Hw Hq E) as (Hw1 & Hsame & _). destruct (IH w1 Hw1 Hl) as [Hw2 Hsame2]. split; [done|]. intros m. etrans; [apply Hsame2|apply Hsame].
Qed.

(** C36: Reading through the window is reading the store. After any reads, forwards or not, of any objects, a
    bounded read of a byte or more, or a read to the end, answers the object's own bytes for the whole request
    (cut off where the object ends, as the store's own read is), or an error of the store; [NotFound] only when
    there is no object. *)
Theorem window_reads_exact d l n offset len :
  ok d -> Forall (fun q => reaches q.1.2 q.2) l -> reaches offset len -> len <> Some 0 ->
  match (windowed_get window_bytes object_bytes n offset len (run_reads l (new_window d))).1 with
  | Value b => exists c, objects d n = Some c /\ b = read_slice c offset len
  | Unexpected NotFound => objects d n = None
  | Unexpected _ => True
  end.
Proof using Hwin laws.
  intros Hd Hl Hr Hne. destruct (run_reads_ok l (new_window d) (new_window_ok d Hd) Hl) as [Hw Hsame]. destruct (windowed_get _ _ n offset len _) as [r w'] eqn:E.
  destruct (windowed_get_ok _ _ _ _ _ _ Hw Hr E) as (_ & _ & Hres). rewrite Hsame in Hres. cbn [fst]. destruct r as [b|e]; [by destruct Hres as [[_ ?]|?]|done].
Qed.
End Proofs.
