(* ===== verification/BlockCache.v ===== *)
(** * The block cache

    [src/cache/sharded_lru.cpp]: decoded blocks by file and offset, in sixteen shards, each a list with the most
    recently used in front. A shard's index finds in its list; here the list is searched. *)

From S2P Require Import Prelude Budget.

(** ** Definitions *)

Definition kCacheShards : nat := 16.

(** [sizeof(Entry)]: a key, a shared pointer and a charge. *)
Definition kEntryBytes : Z := 40.

Definition BlockKey : Type := Z * Z.

(** [KeyHash]. *)
Definition key_hash (k : BlockKey) : Z :=
  let h := u64 (k.1 * 0x9E3779B97F4A7C15 + k.2) in
  let h := Z.lxor h (Z.shiftr h 33) in
  let h := u64 (h * 0xFF51AFD7ED558CCD) in
  let h := Z.lxor h (Z.shiftr h 33) in
  let h := u64 (h * 0xC4CEB9FE1A85EC53) in
  Z.lxor h (Z.shiftr h 33).

Record Entry := { en_key : BlockKey; en_block : bytes; en_charge : Z }.

Record LruShard := { lr_lru : list Entry; lr_bytes : Z }.

Record BlockCache := { bc_shards : list LruShard; bc_budget : option MemoryBudget }.

Definition empty_lru : LruShard := {| lr_lru := []; lr_bytes := 0 |}.

Definition new_block_cache (budget : option MemoryBudget) : BlockCache := {| bc_shards := replicate kCacheShards empty_lru; bc_budget := budget |}.

Definition shard_of_key (k : BlockKey) : nat := Z.to_nat (key_hash k mod Z.of_nat kCacheShards).

Definition find_entry (k : BlockKey) (l : list Entry) : option Entry := List.find (fun e => bool_decide (en_key e = k)) l.

Definition without (k : BlockKey) (l : list Entry) : list Entry := List.filter (fun e => negb (bool_decide (en_key e = k))) l.

(** The victims are the list from its back. *)
Fixpoint evict_back (capacity : Z) (victims : list Entry) (held released : Z) : list Entry * Z * Z :=
  match victims with
  | [] => ([], held, released)
  | v :: rest => if capacity <? held then evict_back capacity rest (u64 (held - en_charge v)) (u64 (released + en_charge v)) else (v :: rest, held, released)
  end.

Definition evict_locked (capacity : Z) (s : LruShard) : LruShard * Z :=
  let '(kept, held, released) := evict_back capacity (rev (lr_lru s)) (lr_bytes s) 0 in ({| lr_lru := rev kept; lr_bytes := held |}, released).

(** One shard of [evict_file]: the walk over its list. *)
Fixpoint drop_file (file_number : Z) (l : list Entry) (held released : Z) : list Entry * Z * Z :=
  match l with
  | [] => ([], held, released)
  | e :: rest =>
      if negb ((en_key e).1 =? file_number) then let '(kept, held, released) := drop_file file_number rest held released in (e :: kept, held, released)
      else drop_file file_number rest (u64 (held - en_charge e)) (u64 (released + en_charge e))
  end.

Fixpoint evict_file_shards (file_number : Z) (shards : list LruShard) (released : Z) : list LruShard * Z :=
  match shards with
  | [] => ([], released)
  | s :: rest =>
      let '(kept, held, released) := drop_file file_number (lr_lru s) (lr_bytes s) released in
      let '(others, released) := evict_file_shards file_number rest released in
      ({| lr_lru := kept; lr_bytes := held |} :: others, released)
  end.

(** One pass of [evict_at_least] over the shards: the oldest entry of each, until enough is released. *)
Fixpoint shed_round (wanted : Z) (shards : list LruShard) (released : Z) (progress : bool) : list LruShard * Z * bool :=
  match shards with
  | [] => ([], released, progress)
  | s :: rest =>
      if wanted <=? released then (s :: rest, released, progress)
      else
        match rev (lr_lru s) with
        | [] => let '(others, released, progress) := shed_round wanted rest released progress in (s :: others, released, progress)
        | v :: older =>
            let '(others, released, progress) := shed_round wanted rest (u64 (released + en_charge v)) true in
            ({| lr_lru := rev older; lr_bytes := u64 (lr_bytes s - en_charge v) |} :: others, released, progress)
        end
  end.

(** Each round but the last removes an entry. *)
Fixpoint shed_loop (fuel : nat) (wanted : Z) (shards : list LruShard) (released : Z) (progress : bool) : list LruShard * Z :=
  if (released <? wanted) && progress then
    match fuel with
    | O => (shards, released)
    | S fuel => let '(shards, released, progress) := shed_round wanted shards released false in shed_loop fuel wanted shards released progress
    end
  else (shards, released).

Definition entry_count (shards : list LruShard) : nat := foldr (fun s n => (length (lr_lru s) + n)%nat) 0%nat shards.

Definition approximate_bytes (c : BlockCache) : Z := foldr (fun s acc => lr_bytes s + acc) 0 (bc_shards c).

Section Cache.
Context (capacity_bytes : Z).

Definition shard_capacity : Z := Z.max 1 (capacity_bytes / Z.of_nat kCacheShards).

Definition on_key_shard (k : BlockKey) (s : LruShard) (c : BlockCache) : BlockCache :=
  {| bc_shards := <[shard_of_key k := s]> (bc_shards c); bc_budget := bc_budget c |}.

Definition shard_here (k : BlockKey) (c : BlockCache) : LruShard := default empty_lru (bc_shards c !! shard_of_key k).

Definition block_get (k : BlockKey) (c : BlockCache) : option bytes * BlockCache :=
  let s := shard_here k c in
  match find_entry k (lr_lru s) with
  | None => (None, c)
  | Some e => (Some (en_block e), on_key_shard k {| lr_lru := e :: without k (lr_lru s); lr_bytes := lr_bytes s |} c)
  end.

Definition block_insert (k : BlockKey) (block : bytes) (c : BlockCache) : BlockCache :=
  let charge := u64 (zlen block + kEntryBytes) in
  let s := shard_here k c in
  match find_entry k (lr_lru s) with
  | Some e => on_key_shard k {| lr_lru := e :: without k (lr_lru s); lr_bytes := lr_bytes s |} c
  | None =>
      let '(s, released) := evict_locked shard_capacity {| lr_lru := {| en_key := k; en_block := block; en_charge := charge |} :: lr_lru s; lr_bytes := u64 (lr_bytes s + charge) |} in
      {| bc_shards := <[shard_of_key k := s]> (bc_shards c);
         bc_budget := (fun b => let b := (try_acquire_over charge b).2 in if 0 <? released then release released b else b) <$> bc_budget c |}
  end.

Definition evict_file (file_number : Z) (c : BlockCache) : BlockCache :=
  let '(shards, released) := evict_file_shards file_number (bc_shards c) 0 in
  {| bc_shards := shards; bc_budget := (fun b => if 0 <? released then release released b else b) <$> bc_budget c |}.

Definition evict_at_least (n : Z) (c : BlockCache) : Z * BlockCache :=
  if n =? 0 then (0, c)
  else
    let '(shards, released) := shed_loop (S (entry_count (bc_shards c))) n (bc_shards c) 0 true in
    (released, {| bc_shards := shards; bc_budget := (fun b => if 0 <? released then release released b else b) <$> bc_budget c |}).

(** The destructor: what the budget is left with. *)
Definition destroy_cache (c : BlockCache) : option MemoryBudget := foldl (fun budget s => release (lr_bytes s) <$> budget) (bc_budget c) (bc_shards c).
End Cache.

(** ** Shards *)

Definition charges (l : list Entry) : Z := foldr (fun e acc => en_charge e + acc) 0 l.

#[global] Arguments charges : simpl never.

Lemma charges_cons e l : charges (e :: l) = en_charge e + charges l.
Proof. done. Qed.

Definition entry_ok (e : Entry) : Prop := en_charge e = zlen (en_block e) + kEntryBytes.

(** A shard's counter is the sum of its charges, which is far from the width of the counter. *)
Record lru_ok (bound : Z) (s : LruShard) : Prop := {
  lo_entries : Forall entry_ok (lr_lru s);
  lo_bytes : lr_bytes s = charges (lr_lru s);
  lo_bound : lr_bytes s <= bound
}.

Lemma charges_app l l' : charges (l ++ l') = charges l + charges l'.
Proof. induction l as [|e l IH]; cbn [app]; [done|]. rewrite !charges_cons, IH. lia. Qed.

Lemma charges_rev l : charges (rev l) = charges l.
Proof. induction l as [|e l IH]; cbn [rev]; [done|]. rewrite charges_app, IH, !charges_cons. unfold charges at 2. cbn. lia. Qed.

Lemma charges_nonneg l : Forall entry_ok l -> 0 <= charges l.
Proof. induction 1 as [|e l He _ IH]; [done|]. rewrite charges_cons. unfold entry_ok, kEntryBytes, zlen in He. lia. Qed.

Lemma charges_filter (f : Entry -> bool) l : Forall entry_ok l -> charges (List.filter f l) <= charges l.
Proof. induction 1 as [|e k He _ IH]; cbn [List.filter]; [done|]. unfold entry_ok, kEntryBytes, zlen in He. destruct (f e); rewrite !charges_cons; lia. Qed.

Lemma without_absent k l : k ∉ map en_key l -> without k l = l.
Proof. induction l as [|y l IH]; cbn; [done|]. intros [Hy Hn]%not_elem_of_cons. rewrite bool_decide_eq_false_2 by congruence. cbn. f_equal. by apply IH. Qed.

Lemma charges_split k l e : find_entry k l = Some e -> NoDup (map en_key l) -> charges l = en_charge e + charges (without k l) /\ en_key e = k /\ e ∈ l.
Proof.
  induction l as [|x l IH]; cbn; [done|]. intros H [Hx Hl]%NoDup_cons. rewrite charges_cons. destruct (bool_decide_reflect (en_key x = k)) as [Ek|Ek]; cbn.
  - injection H as ->. fold (without k l). split_and!; [|done|by left]. f_equal. f_equal. symmetry. apply without_absent. by rewrite <- Ek.
  - destruct (IH H Hl) as (E1 & E2 & E3). fold (without k l). rewrite charges_cons, E1. split_and!; [lia|done|by right].
Qed.

(** Evicting from the back keeps the front: the fewest entries go that bring the shard under the bound. *)
Lemma evict_back_spec capacity victims : forall held released kept held' released', Forall entry_ok victims -> held = charges victims -> 0 <= released -> released + held < 2 ^ 64 -> 0 <= capacity ->
  evict_back capacity victims held released = (kept, held', released') ->
  exists gone, victims = gone ++ kept /\ held' = charges kept /\ released' = released + charges gone /\ held' <= capacity.
Proof.
  induction victims as [|v rest IH]; intros held released kept held' released' Hv Hh Hr Hb Hc; cbn [evict_back]; [intros [= <- <- <-]; exists []; unfold charges in *; cbn in *; split_and!; (done || lia)|].
  apply Forall_cons in Hv as [Hv Hrest]. pose proof (charges_nonneg _ Hrest) as Hn. rewrite charges_cons in Hh. assert (0 <= en_charge v) by (unfold entry_ok, kEntryBytes, zlen in Hv; lia).
  destruct (Z.ltb_spec capacity held); [|intros [= <- <- <-]; exists []; change (charges []) with 0; rewrite charges_cons; split_and!; (done || lia)].
  rewrite !u64_small by (unfold is_u64; lia). intros Hev. destruct (IH (held - en_charge v) (released + en_charge v) _ _ _ Hrest ltac:(lia) ltac:(lia) ltac:(lia) Hc Hev) as (gone & -> & -> & -> & Hle).
  exists (v :: gone). rewrite charges_cons. split_and!; (done || lia).
Qed.

Lemma drop_file_spec f l : forall held released kept held' released', Forall entry_ok l -> charges l <= held < 2 ^ 64 -> 0 <= released -> released + charges l < 2 ^ 64 -> drop_file f l held released = (kept, held', released') ->
  kept = List.filter (fun e => negb ((en_key e).1 =? f)) l /\ held' - charges kept = held - charges l /\ released' + charges kept = released + charges l.
Proof.
  induction l as [|e l IH]; intros held released kept held' released' Hl Hh Hr Hb; cbn [drop_file]; [intros [= <- <- <-]; change (charges []) with 0; split_and!; (done || lia)|].
  apply Forall_cons in Hl as [He Hl]. pose proof (charges_nonneg _ Hl) as Hn. rewrite charges_cons in *. assert (0 <= en_charge e) by (unfold entry_ok, kEntryBytes, zlen in He; lia). cbn [List.filter]. destruct (_ =? f); cbn [negb].
  - rewrite !u64_small by (unfold is_u64; lia). intros (-> & H1 & H2)%IH; [|done|lia|lia|lia]. split_and!; (done || lia).
  - destruct (drop_file f l held released) as [[kept0 held0] released0] eqn:E. intros [= <- <- <-]. apply IH in E as (-> & H1 & H2); [|done|lia|lia|lia]. rewrite charges_cons. split_and!; [done|lia|lia].
Qed.

Section Shards.
Context (capacity_bytes : Z) (Hcap : 0 <= capacity_bytes < 2 ^ 60).

Lemma shard_capacity_fits : 1 <= shard_capacity capacity_bytes < 2 ^ 60.
Proof using Hcap. unfold shard_capacity. pose proof (Z.div_pos capacity_bytes (Z.of_nat kCacheShards) ltac:(lia) ltac:(done)). pose proof (Z.div_le_upper_bound capacity_bytes (Z.of_nat kCacheShards) capacity_bytes ltac:(done) ltac:(unfold kCacheShards; lia)). lia. Qed.

(** Sixteen shards, each within its share, listing a key once and only where its hash puts it. *)
Record shards_fine (shards : list LruShard) : Prop := {
  sf_shard : forall i s, shards !! i = Some s -> lru_ok (shard_capacity capacity_bytes) s /\ NoDup (map en_key (lr_lru s)) /\ forall e, e ∈ lr_lru s -> shard_of_key (en_key e) = i;
  sf_count : length shards = kCacheShards
}.

Lemma shard_of_key_lt k : (shard_of_key k < kCacheShards)%nat.
Proof using. unfold shard_of_key. pose proof (Z.mod_pos_bound (key_hash k) (Z.of_nat kCacheShards) ltac:(done)). unfold kCacheShards in *. lia. Qed.

Lemma shard_here_spec k c : shards_fine (bc_shards c) -> bc_shards c !! shard_of_key k = Some (shard_here k c).
Proof using.
  intros [_ Hn]. unfold shard_here. destruct (bc_shards c !! shard_of_key k) eqn:E; [done|]. apply lookup_ge_None in E. pose proof (shard_of_key_lt k). lia.
Qed.

Definition held_in (shards : list LruShard) : Z := foldr (fun s acc => lr_bytes s + acc) 0 shards.

#[global] Arguments held_in : simpl never.

Definition lists (shards : list LruShard) (e : Entry) : Prop := exists i s, shards !! i = Some s /\ e ∈ lr_lru s.

Lemma held_in_update shards i s s' : shards !! i = Some s -> held_in (<[i := s']> shards) = held_in shards - lr_bytes s + lr_bytes s'.
Proof using.
  revert i. induction shards as [|x l IH]; intros [|i] H; [done|done|injection H as ->; change (lr_bytes s' + held_in l = lr_bytes s + held_in l - lr_bytes s + lr_bytes s'); lia|].
  change (<[S i := s']> (x :: l)) with (x :: <[i := s']> l). change (lr_bytes x + held_in (<[i := s']> l) = lr_bytes x + held_in l - lr_bytes s + lr_bytes s'). rewrite (IH i H). lia.
Qed.

Lemma fine_update shards i s s' : shards_fine shards -> shards !! i = Some s -> lru_ok (shard_capacity capacity_bytes) s' -> NoDup (map en_key (lr_lru s')) -> (forall e, e ∈ lr_lru s' -> shard_of_key (en_key e) = i) ->
  shards_fine (<[i := s']> shards).
Proof using.
  intros [H1 H2] Hi Hok Hd Hk. split; [|by rewrite length_insert]. intros j x [(<- & <- & _)|[_ Hj]]%list_lookup_insert_Some; [done|by apply H1].
Qed.

Lemma lists_update shards i s s' e : shards !! i = Some s -> lists (<[i := s']> shards) e -> e ∈ lr_lru s' \/ lists shards e.
Proof using. intros Hi (j & x & [(<- & <- & _)|[_ Hj]]%list_lookup_insert_Some & He); [by left|right; by exists j, x]. Qed.

Lemma elem_of_without k l e : e ∈ without k l <-> e ∈ l /\ en_key e <> k.
Proof using. unfold without. rewrite elem_of_filter_bool, negb_true_iff, bool_decide_eq_false. done. Qed.

Lemma NoDup_filter_keys (f : Entry -> bool) l : NoDup (map en_key l) -> NoDup (map en_key (List.filter f l)).
Proof using.
  induction l as [|x l IH]; cbn; [done|]. intros [Hx Hl]%NoDup_cons. destruct (f x); cbn; [|by apply IH]. constructor; [|by apply IH]. intros (y & E & Hy)%list_elem_of_fmap. apply Hx. rewrite E. apply elem_of_filter_bool in Hy as [Hy _].
  by apply (list_elem_of_fmap_2 en_key).
Qed.

Lemma Forall_filter_entries (P : Entry -> Prop) f l : Forall P l -> Forall P (List.filter f l).
Proof using. induction 1 as [|x l Hx _ IH]; cbn; [constructor|]. destruct (f x); [by constructor|done]. Qed.

(** Moving a found entry to the front changes the order only. *)
Lemma promote_fine k c e : shards_fine (bc_shards c) -> find_entry k (lr_lru (shard_here k c)) = Some e ->
  let s' := {| lr_lru := e :: without k (lr_lru (shard_here k c)); lr_bytes := lr_bytes (shard_here k c) |} in
  shards_fine (<[shard_of_key k := s']> (bc_shards c)) /\ held_in (<[shard_of_key k := s']> (bc_shards c)) = held_in (bc_shards c) /\ (forall x, lists (<[shard_of_key k := s']> (bc_shards c)) x -> lists (bc_shards c) x) /\ lists (bc_shards c) e /\ en_key e = k.
Proof using.
  intros Hf He s'. pose proof (shard_here_spec k c Hf) as Hi. destruct (sf_shard _ Hf _ _ Hi) as ([O1 O2 O3] & Hd & Hk). destruct (charges_split k _ e He Hd) as (Ec & Ek & Hin).
  assert (forall x, x ∈ lr_lru s' -> x ∈ lr_lru (shard_here k c)) as Hsub by (intros x [->|[Hx _]%elem_of_without]%elem_of_cons; done).
  split; [|split; [|split; [|split]]]; [|by rewrite (held_in_update _ _ _ _ Hi); cbn; lia| |by exists (shard_of_key k), (shard_here k c)|done].
  - eapply fine_update; [done|exact Hi| | |intros x Hx; by apply Hk, Hsub].
    + split; cbn [lr_lru lr_bytes s']; [|rewrite O2, Ec; done|done]. apply Forall_cons. split; [by apply (proj1 (Forall_forall _ _) O1)|by apply Forall_filter_entries].
    + cbn. constructor; [|by apply NoDup_filter_keys]. intros (y & E & Hy)%list_elem_of_fmap. apply elem_of_without in Hy as [_ Hy]. congruence.
  - intros x [Hx|?]%(lists_update _ _ _ _ _ Hi); [|done]. exists (shard_of_key k), (shard_here k c). split; [done|by apply Hsub].
Qed.

Lemma block_get_ok k c r c' : shards_fine (bc_shards c) -> block_get k c = (r, c') ->
  shards_fine (bc_shards c') /\ held_in (bc_shards c') = held_in (bc_shards c) /\ bc_budget c' = bc_budget c /\ (forall x, lists (bc_shards c') x -> lists (bc_shards c) x) /\
  forall b, r = Some b -> exists e, lists (bc_shards c) e /\ en_key e = k /\ en_block e = b.
Proof using.
  intros Hf. unfold block_get. destruct (find_entry k (lr_lru (shard_here k c))) as [e|] eqn:Ee; [|intros [= <- <-]; split_and!; done].
  destruct (promote_fine k c e Hf Ee) as (H1 & H2 & H3 & H4 & H5). intros [= <- <-]. split_and!; [done..|]. intros b [= <-]. by exists e.
Qed.

Lemma block_insert_ok k block c : shards_fine (bc_shards c) -> zlen block < 2 ^ 60 -> let c' := block_insert capacity_bytes k block c in
  shards_fine (bc_shards c') /\ (forall x, lists (bc_shards c') x -> lists (bc_shards c) x \/ en_key x = k /\ en_block x = block) /\
  match bc_budget c, bc_budget c' with Some b, Some b' => u64 (mb_used b' - held_in (bc_shards c')) = u64 (mb_used b - held_in (bc_shards c)) | None, None => True | _, _ => False end.
Proof using Hcap.
  intros Hf Hb. unfold block_insert. pose proof shard_capacity_fits as Hsc. pose proof (shard_here_spec k c Hf) as Hi. destruct (sf_shard _ Hf _ _ Hi) as ([O1 O2 O3] & Hd & Hk).
  destruct (find_entry k (lr_lru (shard_here k c))) as [e|] eqn:Ee.
  - destruct (promote_fine k c e Hf Ee) as (H1 & H2 & H3 & _). cbn. split_and!; [done|by left; apply H3|]. rewrite H2. by destruct (bc_budget c).
  - assert (0 <= zlen block) by (unfold zlen; lia). rewrite (u64_small (zlen block + kEntryBytes)) by (unfold is_u64, kEntryBytes; lia). set (e := {| en_key := k; en_block := block; en_charge := zlen block + kEntryBytes |}).
    pose proof (charges_nonneg _ O1) as Hnn. unfold kEntryBytes in *. rewrite (u64_small (lr_bytes _ + _)) by (unfold is_u64; lia). unfold evict_locked. cbn [lr_lru lr_bytes]. change (rev (e :: lr_lru (shard_here k c))) with (rev (lr_lru (shard_here k c)) ++ [e]).
    destruct (evict_back _ _ _ 0) as [[kept held] released] eqn:Ev. assert (Forall entry_ok (rev (lr_lru (shard_here k c)) ++ [e])) as Hall by (apply Forall_app; split; [by apply List.Forall_rev|by apply Forall_singleton]).
    apply evict_back_spec in Ev as (gone & Eg & -> & -> & Hle); [|done|rewrite charges_app, charges_rev, charges_cons; change (charges []) with 0; cbn; unfold kEntryBytes; lia|lia|lia|lia].
    pose proof (f_equal charges Eg) as Ecs. rewrite !charges_app, charges_rev, charges_cons in Ecs. change (charges []) with 0 in Ecs. cbn [e en_charge] in Ecs. unfold kEntryBytes in Ecs.
    assert (e :: lr_lru (shard_here k c) = rev kept ++ rev gone) as El by (rewrite <- rev_app_distr, <- Eg, rev_app_distr, rev_involutive; done).
    assert (forall x, x ∈ rev kept -> x = e \/ x ∈ lr_lru (shard_here k c)) as Hsub by (intros x Hx; apply elem_of_cons; rewrite El; apply elem_of_app; by left).
    set (s' := {| lr_lru := rev kept; lr_bytes := charges kept |}). split_and!; cbn [bc_shards].
    + eapply fine_update; [done|exact Hi| | |].
      * split; cbn; [|by rewrite charges_rev|done]. rewrite Eg in Hall. apply Forall_app in Hall as [_ Hall]. by apply List.Forall_rev.
      * cbn. assert (NoDup (map en_key (e :: lr_lru (shard_here k c)))) as Hd'.
        { cbn. constructor; [|done]. intros (y & E & Hy)%list_elem_of_fmap. pose proof (List.find_none _ _ Ee y ltac:(by apply list_elem_of_In)) as Hn. cbn in Hn. by rewrite bool_decide_eq_true_2 in Hn. }
        rewrite El, List.map_app in Hd'. by apply NoDup_app in Hd' as [? _].
      * intros x [->|Hx]%Hsub; [done|by apply Hk].
    + intros x [[->|Hx]%Hsub|?]%(lists_update _ _ _ _ _ Hi); [by right|left; by exists (shard_of_key k), (shard_here k c)|by left].
    + cbn [bc_shards bc_budget]. rewrite (held_in_update _ _ _ _ Hi). cbn [lr_bytes s']. destruct (bc_budget c) as [b|]; [|done]. cbn [fmap option_fmap option_map]. assert (0 <= charges gone) by (rewrite Eg in Hall; apply Forall_app in Hall as [Hg _]; by apply charges_nonneg).
      destruct (Z.ltb_spec 0 (0 + charges gone)); cbn [mb_used release try_acquire_over snd]; rewrite u64_sub_l; [rewrite <- Z.sub_add_distr, u64_sub_l|]; f_equal; lia.
Qed.

Lemma held_in_cons s l : held_in (s :: l) = lr_bytes s + held_in l.
Proof using. done. Qed.

Lemma shard_bytes_pos B s : lru_ok B s -> 0 <= lr_bytes s <= B.
Proof using. intros [H1 H2 H3]. split; [rewrite H2; by apply charges_nonneg|done]. Qed.

Lemma held_in_bound B shards : 0 <= B -> Forall (lru_ok B) shards -> 0 <= held_in shards <= B * Z.of_nat (length shards).
Proof using. intros HB. induction 1 as [|s l Hs _ IH]; [change (held_in []) with 0; cbn; lia|]. rewrite held_in_cons. pose proof (shard_bytes_pos _ _ Hs). cbn [length]. lia. Qed.

(** A shard without the entries of a file, and one without its oldest. *)
Definition keep_others (f : Z) (s : LruShard) : LruShard :=
  let l := List.filter (fun e => negb ((en_key e).1 =? f)) (lr_lru s) in {| lr_lru := l; lr_bytes := charges l |}.

Lemma evict_file_shards_spec B f shards : forall released shards' released', 0 <= B < 2 ^ 64 -> Forall (lru_ok B) shards -> 0 <= released -> released + held_in shards < 2 ^ 64 -> evict_file_shards f shards released = (shards', released') ->
  shards' = map (keep_others f) shards /\ released' + held_in shards' = released + held_in shards.
Proof using.
  induction shards as [|s l IH]; intros released shards' released' HB Hl Hr Hb; cbn [evict_file_shards]; [by intros [= <- <-]|]. apply Forall_cons in Hl as [Hs Hl]. pose proof (shard_bytes_pos _ _ Hs) as Hsb.
  pose proof (held_in_bound B l ltac:(lia) Hl) as Hlb. rewrite held_in_cons in *. destruct Hs as [O1 O2 O3].
  destruct (drop_file f (lr_lru s) (lr_bytes s) released) as [[kept held] rel] eqn:Ed. apply drop_file_spec in Ed as (-> & H1 & H2); [|done|lia|lia|lia].
  destruct (evict_file_shards f l rel) as [others rel'] eqn:Ee. intros [= <- <-]. assert (0 <= charges (List.filter (fun e => negb ((en_key e).1 =? f)) (lr_lru s)) <= charges (lr_lru s)) as Hc.
  { split; [by apply charges_nonneg, Forall_filter_entries|by apply charges_filter]. }
  apply IH in Ee as [-> H3]; [|done|done|lia|lia]. cbn [map]. split; [f_equal; unfold keep_others; f_equal; lia|]. rewrite held_in_cons. cbn [lr_bytes]. lia.
Qed.

Lemma fine_all shards : shards_fine shards -> Forall (lru_ok (shard_capacity capacity_bytes)) shards /\ 0 <= held_in shards < 2 ^ 64.
Proof using Hcap.
  intros [H1 H2]. assert (Forall (lru_ok (shard_capacity capacity_bytes)) shards) as Hall by (apply Forall_forall; intros s [i Hi]%list_elem_of_lookup; by apply (H1 i)). split; [done|].
  pose proof shard_capacity_fits as Hc. pose proof (held_in_bound (shard_capacity capacity_bytes) shards ltac:(lia) Hall) as Hb. rewrite H2 in Hb. unfold kCacheShards in Hb. lia.
Qed.

Lemma keep_others_fine f shards : shards_fine shards -> shards_fine (map (keep_others f) shards).
Proof using.
  intros [H1 H2]. split; [|by rewrite length_map]. intros i s' Hi. rewrite list_lookup_fmap in Hi. destruct (shards !! i) as [s|] eqn:Es; [|done]. injection Hi as <-. destruct (H1 i s Es) as ([O1 O2 O3] & Hd & Hk). split_and!.
  - split; cbn [keep_others lr_lru lr_bytes]; [by apply Forall_filter_entries|done|]. etrans; [|exact O3]. rewrite O2. by apply charges_filter.
  - by apply NoDup_filter_keys.
  - intros e [He _]%elem_of_filter_bool. by apply Hk.
Qed.

Lemma evict_file_ok f c : shards_fine (bc_shards c) -> let c' := evict_file f c in
  shards_fine (bc_shards c') /\ (forall x, lists (bc_shards c') x -> lists (bc_shards c) x /\ (en_key x).1 <> f) /\
  match bc_budget c, bc_budget c' with Some b, Some b' => u64 (mb_used b' - held_in (bc_shards c')) = u64 (mb_used b - held_in (bc_shards c)) | None, None => True | _, _ => False end.
Proof using Hcap.
  intros Hf. destruct (fine_all _ Hf) as [Hall Hb]. pose proof shard_capacity_fits as Hc. unfold evict_file. destruct (evict_file_shards f (bc_shards c) 0) as [shards' released] eqn:E.
  apply (evict_file_shards_spec (shard_capacity capacity_bytes)) in E as [-> Hrel]; [|lia|done|lia|lia]. cbn [bc_shards bc_budget]. split_and!; [by apply keep_others_fine| |].
  - intros x (i & s & Hi & Hx). rewrite list_lookup_fmap in Hi. destruct (bc_shards c !! i) as [s0|] eqn:Es; [|done]. injection Hi as <-. cbn [keep_others lr_lru] in Hx. apply elem_of_filter_bool in Hx as [Hx Hne].
    split; [by exists i, s0|]. rewrite negb_true_iff, Z.eqb_neq in Hne. done.
  - destruct (fine_all _ (keep_others_fine f _ Hf)) as [_ Hb']. destruct (bc_budget c) as [b|]; [|done]. cbn [fmap option_fmap option_map]. destruct (Z.ltb_spec 0 released); [cbn [mb_used release]; rewrite u64_sub_l; f_equal; lia|].
    assert (held_in (map (keep_others f) (bc_shards c)) <= held_in (bc_shards c)) as Hle.
    { clear - Hall. induction Hall as [|s l [O1 O2 _] _ IH]; [done|]. cbn [map]. rewrite !held_in_cons, O2. cbn [keep_others lr_bytes]. pose proof (charges_filter (fun e => negb ((en_key e).1 =? f)) _ O1). lia. }
    f_equal. lia.
Qed.

(** A shard with entries gone from its back. *)
Definition shorter (s s' : LruShard) : Prop := lr_bytes s' = charges (lr_lru s') /\ exists tail, lr_lru s = lr_lru s' ++ tail.

Lemma shorter_refl B s : lru_ok B s -> shorter s s.
Proof using. intros [_ H _]. split; [done|]. exists []. by rewrite app_nil_r. Qed.

Lemma shorter_ok B s s' : lru_ok B s -> shorter s s' -> lru_ok B s'.
Proof using.
  intros [O1 O2 O3] [E [tail Et]]. rewrite Et in O1, O2. apply Forall_app in O1 as [K1 K2]. split; [done|done|]. rewrite charges_app in O2. pose proof (charges_nonneg _ K2). lia.
Qed.

Lemma shed_round_spec B wanted shards : forall released progress shards' released' progress', 0 <= B -> Forall (lru_ok B) shards -> 0 <= released -> released + held_in shards < 2 ^ 64 ->
  shed_round wanted shards released progress = (shards', released', progress') ->
  Forall2 shorter shards shards' /\ released' + held_in shards' = released + held_in shards /\ released <= released' /\
  (entry_count shards' <= entry_count shards)%nat /\ (progress' = true -> progress = true \/ (entry_count shards' < entry_count shards)%nat) /\
  (progress' = false -> released' < wanted -> entry_count shards' = 0%nat) /\ (progress = true -> progress' = true).
Proof using.
  induction shards as [|s l IH]; intros released progress shards' released' progress' HB Hl Hr Hb; cbn [shed_round]; [intros [= <- <- <-]; split_and!; (done || lia || by constructor || by left)|].
  apply Forall_cons in Hl as [Hs Hl]. pose proof (shard_bytes_pos _ _ Hs) as Hsb. pose proof (held_in_bound B l HB Hl) as Hlb. rewrite held_in_cons in *. pose proof Hs as [O1 O2 O3].
  destruct (Z.leb_spec wanted released) as [Hw|Hw].
  - intros [= <- <- <-]. rewrite held_in_cons. split_and!; [|done|done|done|by left|lia|done]. constructor; [by eapply shorter_refl|]. clear - Hl. induction Hl; constructor; [by eapply shorter_refl|done].
  - destruct (rev (lr_lru s)) as [|v older] eqn:Er.
    + assert (lr_lru s = []) as Es by (rewrite <- (rev_involutive (lr_lru s)), Er; done). destruct (shed_round wanted l released progress) as [[others rel] prog] eqn:E. intros [= <- <- <-].
      apply IH in E as (K1 & K2 & K3 & K4 & K5 & K6 & K7); [|done|done|done|lia]. rewrite held_in_cons. cbn [entry_count foldr]. fold (entry_count others) (entry_count l). rewrite Es. cbn [length].
      split_and!; [constructor; [by eapply shorter_refl|done]|lia|done|lia|intros [?|?]%K5; [by left|right; lia]|done|done].
    + assert (lr_lru s = rev older ++ [v]) as Es by (rewrite <- (rev_involutive (lr_lru s)), Er; done). rewrite Es, charges_app, charges_cons in O2. change (charges []) with 0 in O2. rewrite Es in O1. apply Forall_app in O1 as [Q1 Q2].
      pose proof (charges_nonneg _ Q1). pose proof (charges_nonneg _ Q2) as Hv. rewrite charges_cons in Hv. change (charges []) with 0 in Hv. rewrite !u64_small by (unfold is_u64; lia).
      destruct (shed_round wanted l (released + en_charge v) true) as [[others rel] prog] eqn:E. intros [= <- <- <-]. apply IH in E as (K1 & K2 & K3 & K4 & K5 & K6 & K7); [|done|done|lia|lia].
      rewrite held_in_cons. cbn [lr_bytes entry_count foldr lr_lru]. fold (entry_count others) (entry_count l). rewrite Es, length_app. cbn [length].
      split_and!; [constructor; [|done]|lia|lia|lia|intros _; right; lia|intros Hp; by rewrite K7 in Hp|by intros _; apply K7].
      split; cbn [lr_bytes lr_lru]; [lia|by exists [v]].
Qed.

Lemma shorter_trans s1 s2 s3 : shorter s1 s2 -> shorter s2 s3 -> shorter s1 s3.
Proof using. intros [_ [t1 E1]] [H [t2 E2]]. split; [done|]. exists (t2 ++ t1). by rewrite E1, E2, app_assoc. Qed.

Lemma shorter_all_ok B shards shards' : Forall (lru_ok B) shards -> Forall2 shorter shards shards' -> Forall (lru_ok B) shards'.
Proof using. intros Hl H. induction H as [|s s' l l' Hs _ IH]; [done|]. apply Forall_cons in Hl as [H1 H2]. constructor; [by eapply shorter_ok|by apply IH]. Qed.

(** The rounds end with enough released or with nothing left. *)
Lemma shed_loop_spec B wanted : forall fuel shards released progress shards' released', 0 <= B -> Forall (lru_ok B) shards -> 0 <= released -> released + held_in shards < 2 ^ 64 ->
  (progress = true -> (entry_count shards < fuel)%nat) -> (progress = false -> released < wanted -> entry_count shards = 0%nat) -> shed_loop fuel wanted shards released progress = (shards', released') ->
  Forall2 shorter shards shards' /\ released' + held_in shards' = released + held_in shards /\ (released' < wanted -> entry_count shards' = 0%nat).
Proof using.
  assert (forall B l, Forall (lru_ok B) l -> Forall2 shorter l l) as Hrefl by (induction 1; constructor; [by eapply shorter_refl|done]).
  induction fuel as [|fuel IH]; intros shards released progress shards' released' HB Hl Hr Hb Hp Hq; cbn [shed_loop]; destruct (Z.ltb_spec released wanted) as [Hw|Hw]; cbn [andb].
  1: destruct progress; [specialize (Hp eq_refl); lia|]. 1,2,4: intros [= <- <-]; split_and!; [by eapply Hrefl|done|intros; first [by apply Hq|lia]].
  destruct progress; [|intros [= <- <-]; split_and!; [by eapply Hrefl|done|intros; by apply Hq]].
  destruct (shed_round wanted shards released false) as [[shards1 rel1] prog1] eqn:E. apply (shed_round_spec B) in E as (K1 & K2 & K3 & K4 & K5 & K6 & _); [|done|done|done|done].
  pose proof (shorter_all_ok _ _ _ Hl K1) as Hl1. specialize (Hp eq_refl). intros H. apply IH in H as (L1 & L2 & L3); [|done|done|lia|lia|intros [?|?]%K5; [done|lia]|done].
  split_and!; [|lia|done]. clear - K1 L1. revert shards' L1. induction K1 as [|s s1 l l1 Hs _ IH]; intros l' L1; inversion L1; subst; constructor; [by eapply shorter_trans|by apply IH].
Qed.

Lemma shorter_fine shards shards' : shards_fine shards -> Forall2 shorter shards shards' -> shards_fine shards' /\ forall x, lists shards' x -> lists shards x.
Proof using.
  intros [H1 H2] H. assert (forall i s', shards' !! i = Some s' -> exists s, shards !! i = Some s /\ shorter s s') as Hat.
  { intros i s' Hi. pose proof (Forall2_lookup_r _ _ _ _ _ H Hi) as (s & Hs & ?). by exists s. }
  split; [split; [|by rewrite <- (Forall2_length _ _ _ H)]|].
  - intros i s' Hi. destruct (Hat i s' Hi) as (s & Hs & Hsh). destruct (H1 i s Hs) as (Hok & Hd & Hk). split; [by eapply shorter_ok|]. destruct Hsh as [_ [tail Et]]. rewrite Et in Hd, Hk. split; [rewrite List.map_app in Hd; by apply NoDup_app in Hd as [? _]|].
    intros e He. apply Hk, elem_of_app. by left.
  - intros x (i & s' & Hi & Hx). destruct (Hat i s' Hi) as (s & Hs & _ & tail & Et). exists i, s. split; [done|]. rewrite Et. apply elem_of_app. by left.
Qed.

Lemma no_entries_no_bytes B shards : Forall (lru_ok B) shards -> entry_count shards = 0%nat -> held_in shards = 0.
Proof using.
  induction 1 as [|s l [_ O2 _] _ IH]; [done|]. cbn [entry_count foldr]. fold (entry_count l). intros H. rewrite held_in_cons, O2, IH by lia. destruct (lr_lru s); [done|cbn in H; lia].
Qed.

(** Shedding releases what was asked for, or everything there is. *)
Lemma evict_at_least_ok n c r c' : shards_fine (bc_shards c) -> 0 <= n -> evict_at_least n c = (r, c') ->
  shards_fine (bc_shards c') /\ (forall x, lists (bc_shards c') x -> lists (bc_shards c) x) /\ r + held_in (bc_shards c') = held_in (bc_shards c) /\ (n <= r \/ held_in (bc_shards c') = 0) /\
  match bc_budget c, bc_budget c' with Some b, Some b' => u64 (mb_used b' - held_in (bc_shards c')) = u64 (mb_used b - held_in (bc_shards c)) | None, None => True | _, _ => False end.
Proof using Hcap.
  intros Hf Hn. destruct (fine_all _ Hf) as [Hall Hb]. pose proof shard_capacity_fits as Hc. unfold evict_at_least. destruct (Z.eqb_spec n 0) as [->|Hne]; [intros [= <- <-]; split_and!; [done|done|done|left; lia|by destruct (bc_budget c)]|].
  destruct (shed_loop _ n (bc_shards c) 0 true) as [shards' released] eqn:E. intros [= <- <-]. apply (shed_loop_spec (shard_capacity capacity_bytes)) in E as (K1 & K2 & K3); [|lia|done|lia|lia|lia|done].
  destruct (shorter_fine _ _ Hf K1) as [Hf' Hlists]. destruct (fine_all _ Hf') as [Hall' Hb']. cbn [bc_shards bc_budget]. split_and!; [done|done|lia| |].
  - destruct (Z.leb_spec n released) as [|Hlt]; [by left|right]. eapply no_entries_no_bytes; [exact Hall'|by apply K3].
  - destruct (bc_budget c) as [b|]; [|done]. cbn [fmap option_fmap option_map]. destruct (Z.ltb_spec 0 released); [cbn [mb_used release]; rewrite u64_sub_l; f_equal; lia|]. f_equal.
    assert (held_in shards' <= held_in (bc_shards c)); [|lia]. clear - K1 Hall Hall'. induction K1 as [|s s' l l' [Eb [tail Et]] _ IH]; [done|]. apply Forall_cons in Hall as [[O1 O2 _] Hall], Hall' as [_ Hall']. rewrite !held_in_cons, Eb, O2, Et, charges_app. specialize (IH Hall Hall').
    rewrite Et in O1. apply Forall_app in O1 as [_ O1]. pose proof (charges_nonneg _ O1). lia.
Qed.

(** A shard never takes more than its share, also where the share rounds to nothing. *)
Lemma within_share s : lru_ok (shard_capacity capacity_bytes) s -> lr_bytes s <= capacity_bytes / Z.of_nat kCacheShards.
Proof using Hcap.
  intros [O1 O2 O3]. unfold shard_capacity in O3. destruct (Z.max_spec 1 (capacity_bytes / Z.of_nat kCacheShards)) as [[? E]|[? E]]; rewrite E in O3; [done|].
  pose proof (Z.div_pos capacity_bytes (Z.of_nat kCacheShards) ltac:(lia) ltac:(done)). destruct (lr_lru s) as [|e l]; [rewrite O2; done|]. apply Forall_cons in O1 as [He Hl]. pose proof (charges_nonneg _ Hl). rewrite charges_cons in O2.
  unfold entry_ok, kEntryBytes, zlen in He. lia.
Qed.

(** *** Runs *)

Inductive CacheCall : Type :=
  | BGet (k : BlockKey)
  | BInsert (k : BlockKey) (block : bytes)
  | BEvictFile (file_number : Z)
  | BShed (n : Z).

Definition call_fits (o : CacheCall) : Prop := match o with BInsert _ block => zlen block < 2 ^ 60 | BShed n => 0 <= n | _ => True end.

Definition run_call (c : BlockCache) (o : CacheCall) : BlockCache :=
  match o with
  | BGet k => (block_get k c).2
  | BInsert k block => block_insert capacity_bytes k block c
  | BEvictFile f => evict_file f c
  | BShed n => (evict_at_least n c).2
  end.

(** The block was inserted under the key, and its file was not dropped since. *)
Definition may_hold (l : list CacheCall) (k : BlockKey) (block : bytes) : Prop := exists l1 l2, l = l1 ++ BInsert k block :: l2 /\ BEvictFile k.1 ∉ l2.

Lemma may_hold_snoc l o k block : may_hold l k block -> o <> BEvictFile k.1 -> may_hold (l ++ [o]) k block.
Proof using.
  intros (l1 & l2 & -> & H) Ho. exists l1, (l2 ++ [o]). split; [by rewrite <- app_assoc|]. intros [Hin|Hin%list_elem_of_singleton]%elem_of_app; [done|congruence].
Qed.

Lemma run_calls_ok b l : Forall call_fits l -> is_u64 (mb_used b) -> let c := fold_left run_call l (new_block_cache (Some b)) in
  shards_fine (bc_shards c) /\ (forall x, lists (bc_shards c) x -> may_hold l (en_key x) (en_block x)) /\ exists b', bc_budget c = Some b' /\ u64 (mb_used b' - held_in (bc_shards c)) = mb_used b.
Proof using Hcap.
  intros Hl Hu. pose proof shard_capacity_fits as Hc. induction l as [|o l IH] using rev_ind.
  - cbn [fold_left new_block_cache bc_shards bc_budget]. split_and!.
    + split; [|done]. intros i s [-> _]%lookup_replicate. split_and!; [split; cbn; [constructor|done|lia]|constructor|by intros e ?%elem_of_nil].
    + intros x (i & s & [-> _]%lookup_replicate & Hx). by apply elem_of_nil in Hx.
    + exists b. split; [done|]. change (held_in (replicate kCacheShards empty_lru)) with 0. rewrite Z.sub_0_r. by apply u64_small.
  - apply Forall_app in Hl as [Hl Ho]. apply Forall_cons in Ho as [Ho _]. destruct (IH Hl) as (Hf & Hx & b' & Eb & Hb'). rewrite fold_left_app. cbn [fold_left]. set (c := fold_left run_call l (new_block_cache (Some b))) in *.
    assert (forall c', match bc_budget c, bc_budget c' with Some b, Some b' => u64 (mb_used b' - held_in (bc_shards c')) = u64 (mb_used b - held_in (bc_shards c)) | None, None => True | _, _ => False end ->
      exists b', bc_budget c' = Some b' /\ u64 (mb_used b' - held_in (bc_shards c')) = mb_used b) as Hbud by (intros c' H; rewrite Eb in H; destruct (bc_budget c') as [x|]; [|done]; exists x; split; [done|congruence]).
    destruct o as [k|k block|f|n]; cbn [run_call].
    + destruct (block_get k c) as [r c'] eqn:E. apply block_get_ok in E as (K1 & K2 & K3 & K4 & _); [|done]. cbn [snd]. split_and!; [done|intros x Hin; by apply may_hold_snoc; [apply Hx, K4|]|]. exists b'. split; [congruence|by rewrite K2].
    + destruct (block_insert_ok k block c Hf Ho) as (K1 & K2 & K3). split_and!; [done| |by apply Hbud]. intros x [Hin|[<- <-]]%K2; [by apply may_hold_snoc; [apply Hx|]|]. exists l, []. split; [done|]. by apply not_elem_of_nil.
    + destruct (evict_file_ok f c Hf) as (K1 & K2 & K3). split_and!; [done| |by apply Hbud]. intros x [Hin Hne]%K2. apply may_hold_snoc; [by apply Hx|congruence].
    + destruct (evict_at_least n c) as [r c'] eqn:E. apply evict_at_least_ok in E as (K1 & K2 & _ & _ & K5); [|done|done]. cbn [snd]. split_and!; [done|intros x Hin; by apply may_hold_snoc; [apply Hx, K2|]|by apply Hbud].
Qed.
End Shards.

(** ** What the cache promises *)

Definition budget_wide (c : BlockCache) : Prop := forall b, bc_budget c = Some b -> is_u64 (mb_used b).

Lemma run_call_wide capacity_bytes c o : budget_wide c -> budget_wide (run_call capacity_bytes c o).
Proof.
  intros Hc. assert (forall n b, is_u64 (mb_used b) -> is_u64 (mb_used (if 0 <? n then release n b else b))) as Hrel by (intros n b Hb; destruct (0 <? n); [apply u64_range|done]).
  destruct o as [k|k block|f|n]; cbn [run_call].
  - unfold block_get. by destruct (find_entry _ _).
  - unfold block_insert. destruct (find_entry _ _); [done|]. destruct (evict_locked _ _) as [s released]. intros b. cbn [bc_budget]. destruct (bc_budget c) as [x|]; [|done]. intros [= <-]. apply Hrel, u64_range.
  - unfold evict_file. destruct (evict_file_shards _ _ _) as [shards released]. intros b. cbn [bc_budget]. destruct (bc_budget c) as [x|] eqn:E; [|done]. intros [= <-]. by apply Hrel, Hc.
  - unfold evict_at_least. destruct (n =? 0); [done|]. destruct (shed_loop _ _ _ _ _) as [shards released]. intros b. cbn [bc_budget snd]. destruct (bc_budget c) as [x|] eqn:E; [|done]. intros [= <-]. by apply Hrel, Hc.
Qed.

Lemma destroy_releases (shards : list LruShard) : forall b, is_u64 (mb_used b) ->
  exists x, foldl (fun budget s => release (lr_bytes s) <$> budget) (Some b) shards = Some x /\ mb_used x = u64 (mb_used b - held_in shards).
Proof.
  induction shards as [|s l IH]; intros b Hb; cbn [foldl]; [exists b; change (held_in []) with 0; rewrite Z.sub_0_r, u64_small; done|]. cbn [fmap option_fmap option_map].
  destruct (IH (release (lr_bytes s) b) (u64_range _)) as (x & Ex & Hx). exists x. split; [done|]. rewrite Hx, held_in_cons. cbn [mb_used release]. rewrite u64_sub_l. f_equal. lia.
Qed.

Section Promise.
Context (capacity_bytes : Z) (Hcap : 0 <= capacity_bytes < 2 ^ 60).

(** C37: The block cache serves what was put in, stays within its capacity and keeps the shared budget's
    books. After any sequence of lookups, insertions, file evictions and sheddings: a lookup answers only a
    block that was inserted under its file and offset after the file was last dropped; the cache holds at most
    [capacity_bytes], its counters being the sums of its entries' charges; what the budget counts is what it
    counted before plus what the cache holds, and the destructor returns that; a shedding releases what was
    asked, or empties the cache. *)
Theorem block_cache_sound b l k n :
  Forall call_fits l -> is_u64 (mb_used b) -> 0 <= n ->
  let c := fold_left (run_call capacity_bytes) l (new_block_cache (Some b)) in
  (forall block, (block_get k c).1 = Some block -> may_hold l k block) /\
  (0 <= approximate_bytes c <= capacity_bytes /\ Forall (fun s => lr_bytes s = charges (lr_lru s)) (bc_shards c)) /\
  (mb_used <$> bc_budget c = Some (u64 (mb_used b + approximate_bytes c)) /\ mb_used <$> destroy_cache c = Some (mb_used b)) /\
  (let '(released, c') := evict_at_least n c in released = approximate_bytes c - approximate_bytes c' /\ (n <= released \/ approximate_bytes c' = 0)).
Proof using Hcap.
  intros Hl Hu Hn c. destruct (run_calls_ok capacity_bytes Hcap b l Hl Hu) as (Hf & Hx & b' & Eb & Hb). fold c in Hf, Hx, Eb, Hb. destruct (fine_all capacity_bytes Hcap _ Hf) as [Hall Hh].
  assert (budget_wide c) as Hwide.
  { unfold c. assert (forall l c, budget_wide c -> budget_wide (fold_left (run_call capacity_bytes) l c)) as Hrun by (induction l0 as [|o l0 IH]; intros c0 Hc0; [done|]; cbn; by apply IH, run_call_wide).
    apply Hrun. by intros x [= <-]. }
  change (approximate_bytes c) with (held_in (bc_shards c)). split; [|split; [split|split; [split|]]].
  - intros block. destruct (block_get k c) as [r c'] eqn:E. destruct (block_get_ok capacity_bytes k c r c' Hf E) as (_ & _ & _ & _ & Hr). cbn [fst]. intros H. destruct (Hr block H) as (e & He & <- & <-). by apply Hx.
  - assert (0 <= held_in (bc_shards c) <= capacity_bytes / Z.of_nat kCacheShards * Z.of_nat (length (bc_shards c))) as Hb'.
    { split; [lia|]. clear - Hall Hcap. induction Hall as [|s sl Hs _ IH]; [change (held_in []) with 0; cbn [length]; lia|]. rewrite held_in_cons. pose proof (within_share capacity_bytes Hcap s Hs). cbn [length]. lia. }
    rewrite (sf_count _ _ Hf) in Hb'. pose proof (Z.mul_div_le capacity_bytes (Z.of_nat kCacheShards) ltac:(done)). lia.
  - eapply Forall_impl; [exact Hall|]. by intros s [_ ? _].
  - rewrite Eb. cbn [fmap option_fmap option_map]. f_equal. rewrite <- Hb, u64_add_l, Z.sub_add. symmetry. apply u64_small. by apply Hwide.
  - unfold destroy_cache. rewrite Eb. destruct (destroy_releases (bc_shards c) b' (Hwide b' Eb)) as (x & -> & Hx'). cbn [fmap option_fmap option_map]. f_equal. by rewrite Hx'.
  - destruct (evict_at_least n c) as [released c'] eqn:E. destruct (evict_at_least_ok capacity_bytes Hcap n c released c' Hf Hn E) as (_ & _ & Hr & Hor & _). change (approximate_bytes c') with (held_in (bc_shards c')). split; [lia|done].
Qed.
End Promise.
