(* ===== verification/ReaderCache.v ===== *)
(** * The cache of open readers

    [src/sst/sst_reader_cache.cpp]: the readers whose footer, index and filter are resident, by file number. The
    entries are listed with the most recently used in front; a reader is what it is, with what it says it
    costs. *)

From S2P Require Import Prelude Budget.

Section ReaderCache.
Context {R : Type} (memory_bytes : R -> Z).

(** ** Definitions *)

Record ReaderEntry := { rd_file : Z; rd_reader : R; rd_bytes : Z }.

Record SstReaderCache := { rk_entries : list ReaderEntry; rk_bytes : Z; rk_budget : option MemoryBudget }.

Context (max_bytes : Z).

Definition new_reader_cache (budget : option MemoryBudget) : SstReaderCache := {| rk_entries := []; rk_bytes := 0; rk_budget := budget |}.

Definition find_reader (f : Z) (l : list ReaderEntry) : option ReaderEntry := List.find (fun e => rd_file e =? f) l.

Definition other_readers (f : Z) (l : list ReaderEntry) : list ReaderEntry := List.filter (fun e => negb (rd_file e =? f)) l.

Definition reader_get (f : Z) (c : SstReaderCache) : option R * SstReaderCache :=
  match find_reader f (rk_entries c) with
  | None => (None, c)
  | Some e => (Some (rd_reader e), {| rk_entries := e :: other_readers f (rk_entries c); rk_bytes := rk_bytes c; rk_budget := rk_budget c |})
  end.

Definition drop_locked (f : Z) (c : SstReaderCache) : SstReaderCache :=
  match find_reader f (rk_entries c) with
  | None => c
  | Some e => {| rk_entries := other_readers f (rk_entries c); rk_bytes := u64 (rk_bytes c - rd_bytes e); rk_budget := release (rd_bytes e) <$> rk_budget c |}
  end.

(** The loop drops an entry a round. *)
Fixpoint make_room_locked (fuel : nat) (wanted keep : Z) (c : SstReaderCache) : SstReaderCache :=
  if (max_bytes <? u64 (rk_bytes c + wanted)) && negb (bool_decide (rk_entries c = [])) then
    match fuel with
    | O => c
    | S fuel =>
        match List.find (fun e => negb (rd_file e =? keep)) (rev (rk_entries c)) with
        | None => c
        | Some v => make_room_locked fuel wanted keep (drop_locked (rd_file v) c)
        end
    end
  else c.

(** The reader comes back whether or not it stays. *)
Definition reader_insert (f : Z) (r : R) (c : SstReaderCache) : R * SstReaderCache :=
  let cost := memory_bytes r in
  match find_reader f (rk_entries c) with
  | Some _ => (r, c)
  | None =>
      let c := if max_bytes =? 0 then c else make_room_locked (length (rk_entries c)) cost f c in
      if negb (max_bytes =? 0) && (max_bytes <? u64 (rk_bytes c + cost)) then (r, c)
      else
        let '(granted, budget) := match rk_budget c with Some b => let '(ok, b) := try_acquire cost b in (ok, Some b) | None => (true, None) end in
        if negb granted then (r, c)
        else (r, {| rk_entries := {| rd_file := f; rd_reader := r; rd_bytes := cost |} :: rk_entries c; rk_bytes := u64 (rk_bytes c + cost); rk_budget := budget |})
  end.

Definition reader_forget (f : Z) (c : SstReaderCache) : SstReaderCache := drop_locked f c.

Definition reader_clear (c : SstReaderCache) : SstReaderCache :=
  {| rk_entries := []; rk_bytes := 0; rk_budget := if 0 <? rk_bytes c then release (rk_bytes c) <$> rk_budget c else rk_budget c |}.

(** ** What it promises *)

Definition costs (l : list ReaderEntry) : Z := foldr (fun e acc => rd_bytes e + acc) 0 l.

(** The counter is the sum of the costs, within the bound where there is one; a file is listed once. *)
Record readers_ok (c : SstReaderCache) : Prop := {
  ro_costs : Forall (fun e => rd_bytes e = memory_bytes (rd_reader e) /\ 0 <= rd_bytes e) (rk_entries c);
  ro_bytes : rk_bytes c = costs (rk_entries c);
  ro_bound : rk_bytes c <= max_bytes;
  ro_distinct : NoDup (map rd_file (rk_entries c))
}.

(** What the budget counts besides this cache. *)
Definition others_use (c : SstReaderCache) : option Z := (fun b => u64 (mb_used b - rk_bytes c)) <$> rk_budget c.

Context (Hmax : 0 < max_bytes < 2 ^ 63) (Hcost : forall r, 0 <= memory_bytes r < 2 ^ 63).

Lemma costs_nonneg l : Forall (fun e => rd_bytes e = memory_bytes (rd_reader e) /\ 0 <= rd_bytes e) l -> 0 <= costs l.
Proof using. induction 1 as [|e l [_ He] _ IH]; cbn; [done|]. unfold costs in IH. lia. Qed.

Lemma other_absent f l : f ∉ map rd_file l -> other_readers f l = l.
Proof using. induction l as [|e l IH]; cbn; [done|]. intros [He Hl]%not_elem_of_cons. destruct (Z.eqb_spec (rd_file e) f); [congruence|]. cbn. f_equal. by apply IH. Qed.

Lemma find_reader_split f l e : find_reader f l = Some e -> NoDup (map rd_file l) -> rd_file e = f /\ e ∈ l /\ costs l = rd_bytes e + costs (other_readers f l) /\ length l = S (length (other_readers f l)).
Proof using.
  induction l as [|x l IH]; cbn; [done|]. intros H [Hx Hl]%NoDup_cons. destruct (Z.eqb_spec (rd_file x) f) as [Ef|Ef]; cbn.
  - injection H as ->. fold (other_readers f l). rewrite other_absent by congruence. split_and!; [done|by left|done|done].
  - destruct (IH H Hl) as (E1 & E2 & E3 & E4). fold (other_readers f l). unfold costs in *. split_and!; [done|by right|rewrite E3; lia|lia].
Qed.

Lemma elem_of_others f l e : e ∈ other_readers f l <-> e ∈ l /\ rd_file e <> f.
Proof using. unfold other_readers. rewrite elem_of_filter_bool, negb_true_iff, Z.eqb_neq. done. Qed.

Lemma NoDup_others f l : NoDup (map rd_file l) -> NoDup (map rd_file (other_readers f l)).
Proof using.
  induction l as [|x l IH]; cbn; [done|]. intros [Hx Hl]%NoDup_cons. destruct (negb _); cbn; [|by apply IH]. constructor; [|by apply IH]. intros (y & E & [Hy _]%elem_of_others)%list_elem_of_fmap. apply Hx. rewrite E. by apply (list_elem_of_fmap_2 rd_file).
Qed.

Lemma Forall_others (P : ReaderEntry -> Prop) f l : Forall P l -> Forall P (other_readers f l).
Proof using. intros H. apply Forall_forall. intros e [He _]%elem_of_others. by apply (proj1 (Forall_forall _ _) H). Qed.

Lemma drop_locked_ok f c : readers_ok c -> let c' := drop_locked f c in
  readers_ok c' /\ others_use c' = others_use c /\ (forall e, e ∈ rk_entries c' -> e ∈ rk_entries c /\ rd_file e <> f) /\ (f ∈ map rd_file (rk_entries c) -> length (rk_entries c) = S (length (rk_entries c'))).
Proof using Hmax.
  intros [O1 O2 O3 O4]. unfold drop_locked. destruct (find_reader f (rk_entries c)) as [e|] eqn:Ee.
  - destruct (find_reader_split f _ e Ee O4) as (Ef & Hin & Ec & El). pose proof (costs_nonneg _ (Forall_others _ f _ O1)) as Hn. destruct (proj1 (Forall_forall _ _) O1 e Hin) as [_ He].
    rewrite (u64_small (rk_bytes c - rd_bytes e)) by (unfold is_u64; lia). split_and!.
    + split; cbn [rk_entries rk_bytes]; [by apply Forall_others|lia|lia|by apply NoDup_others].
    + unfold others_use. cbn [rk_budget rk_bytes]. destruct (rk_budget c) as [b|]; [|done]. cbn [fmap option_fmap option_map mb_used release]. f_equal. rewrite u64_sub_l. f_equal. lia.
    + by intros x [? ?]%elem_of_others.
    + done.
  - assert (f ∉ map rd_file (rk_entries c)) as Hn.
    { intros (x & -> & Hx)%list_elem_of_fmap. pose proof (List.find_none _ _ Ee x ltac:(by apply list_elem_of_In)) as H. cbn in H. by rewrite Z.eqb_refl in H. }
    split_and!; [done|done| |done]. intros x Hx. split; [done|]. intros <-. apply Hn. by apply (list_elem_of_fmap_2 rd_file).
Qed.

(** Room is made, or nothing is left but the entry that is to stay. *)
Lemma make_room_locked_ok : forall fuel wanted keep c, readers_ok c -> 0 <= wanted < 2 ^ 63 -> let c' := make_room_locked fuel wanted keep c in
  readers_ok c' /\ others_use c' = others_use c /\ (forall e, e ∈ rk_entries c' -> e ∈ rk_entries c) /\
  ((length (rk_entries c) <= fuel)%nat -> rk_bytes c' + wanted <= max_bytes \/ Forall (fun e => rd_file e = keep) (rk_entries c')).
Proof using Hmax.
  induction fuel as [|fuel IH]; intros wanted keep c Hc Hw; cbn [make_room_locked]; pose proof Hc as [O1 O2 O3 O4]; pose proof (costs_nonneg _ O1) as Hn;
    rewrite (u64_small (rk_bytes c + wanted)) by (unfold is_u64; lia); destruct (Z.ltb_spec max_bytes (rk_bytes c + wanted)); cbn [andb]; try (split_and!; [done|done|done|by left]);
    case_bool_decide as Ec; cbn [negb]; try (split_and!; [done|done|done|right; rewrite Ec; constructor]).
  - split_and!; [done|done|done|]. destruct (rk_entries c); [done|cbn; lia].
  - destruct (List.find (fun e => negb (rd_file e =? keep)) (rev (rk_entries c))) as [v|] eqn:Ev.
    + apply List.find_some in Ev as [Hin _]. apply List.in_rev in Hin. apply list_elem_of_In in Hin. destruct (drop_locked_ok (rd_file v) c Hc) as (K1 & K2 & K3 & K4). destruct (IH wanted keep _ K1 Hw) as (L1 & L2 & L3 & L4).
      split_and!; [done|by rewrite L2|intros e He; by apply K3, L3|]. intros Hf. apply L4. specialize (K4 ltac:(by apply (list_elem_of_fmap_2 rd_file))). lia.
    + split_and!; [done|done|done|]. intros _. right. apply Forall_forall. intros e He. pose proof (List.find_none _ _ Ev e ltac:(apply List.in_rev; rewrite rev_involutive; by apply list_elem_of_In)) as H0. cbn in H0. rewrite negb_false_iff, Z.eqb_eq in H0. done.
Qed.

Lemma reader_insert_ok f r c : readers_ok c -> let '(r', c') := reader_insert f r c in
  r' = r /\ readers_ok c' /\ others_use c' = others_use c /\ (forall e, e ∈ rk_entries c' -> e ∈ rk_entries c \/ rd_file e = f /\ rd_reader e = r).
Proof using Hmax Hcost.
  intros Hc. unfold reader_insert. destruct (find_reader f (rk_entries c)) as [e|] eqn:Ee; [split_and!; [done|done|done|by left]|]. destruct (Z.eqb_spec max_bytes 0) as [|_]; [lia|]. cbn [negb andb].
  destruct (make_room_locked_ok (length (rk_entries c)) (memory_bytes r) f c Hc (Hcost r)) as (K1 & K2 & K3 & _). set (c1 := make_room_locked _ _ f c) in *. pose proof K1 as [O1 O2 O3 O4]. pose proof (costs_nonneg _ O1) as Hn. pose proof (Hcost r) as Hr.
  rewrite !(u64_small (rk_bytes c1 + memory_bytes r)) by (unfold is_u64; lia). destruct (Z.ltb_spec max_bytes (rk_bytes c1 + memory_bytes r)); [split_and!; [done|done|done|by left; apply K3]|].
  destruct (match rk_budget c1 with Some _ => _ | None => _ end) as [granted budget] eqn:Eb. destruct granted; cbn [negb]; [|split_and!; [done|done|done|by left; apply K3]]. split_and!; [done| | |].
  - split; cbn [rk_entries rk_bytes]; [apply Forall_cons; split; [cbn; split; [done|lia]|done]|cbn; rewrite O2; unfold costs; lia|lia|]. cbn. constructor; [|done]. intros (x & E & Hx)%list_elem_of_fmap. pose proof (List.find_none _ _ Ee x ltac:(by apply list_elem_of_In, K3)) as H0. cbn in H0. lia.
  - rewrite <- K2. unfold others_use. cbn [rk_budget rk_bytes]. destruct (rk_budget c1) as [b|]; [|by injection Eb as <-]. unfold try_acquire in Eb. destruct (_ <? _); [done|]. injection Eb as <-. cbn [fmap option_fmap option_map mb_used]. f_equal.
    rewrite u64_sub_l. f_equal. lia.
  - intros e [->|He]%elem_of_cons; [by right|left; by apply K3].
Qed.

Inductive ReaderCall : Type := RGet (f : Z) | RInsert (f : Z) (r : R) | RForget (f : Z) | RClear.

Definition run_reader_call (c : SstReaderCache) (o : ReaderCall) : SstReaderCache :=
  match o with
  | RGet f => (reader_get f c).2
  | RInsert f r => (reader_insert f r c).2
  | RForget f => reader_forget f c
  | RClear => reader_clear c
  end.

Definition inserted_since (l : list ReaderCall) (f : Z) (r : R) : Prop := exists l1 l2, l = l1 ++ RInsert f r :: l2 /\ RForget f ∉ l2 /\ RClear ∉ l2.

Lemma inserted_snoc l o f r : inserted_since l f r -> o <> RForget f -> o <> RClear -> inserted_since (l ++ [o]) f r.
Proof using.
  intros (l1 & l2 & -> & H1 & H2) Ho Hc. exists l1, (l2 ++ [o]). split; [by rewrite <- app_assoc|]. split; intros [Hin|Hin%list_elem_of_singleton]%elem_of_app; congruence.
Qed.

Lemma run_readers_ok b l : is_u64 (mb_used b) -> let c := fold_left run_reader_call l (new_reader_cache (Some b)) in
  readers_ok c /\ others_use c = Some (mb_used b) /\ forall e, e ∈ rk_entries c -> inserted_since l (rd_file e) (rd_reader e).
Proof using Hmax Hcost.
  intros Hb. induction l as [|o l IH] using rev_ind.
  - cbn [fold_left]. split_and!; [split; cbn; [by apply Forall_nil|done|lia|apply NoDup_nil_2]|unfold others_use; cbn [new_reader_cache rk_budget rk_bytes fmap option_fmap option_map]; rewrite Z.sub_0_r, u64_small; done|by intros e ?%elem_of_nil].
  - destruct IH as (Hc & Hu & Hin). rewrite fold_left_app. cbn [fold_left]. set (c := fold_left run_reader_call l _) in *. destruct o as [f|f r|f|]; cbn [run_reader_call].
    + unfold reader_get. destruct (find_reader f (rk_entries c)) as [e|] eqn:Ee; [|split_and!; [done|done|intros e He; apply inserted_snoc; [by apply Hin|done|done]]]. pose proof Hc as [O1 O2 O3 O4]. destruct (find_reader_split f _ e Ee O4) as (Ef & Hine & Ec & _).
      cbn [snd]. split_and!; [|done|].
      * split; cbn [rk_entries rk_bytes]; [|rewrite O2, Ec; done|done|].
        -- apply Forall_cons. split; [by apply (proj1 (Forall_forall _ _) O1)|by apply Forall_others].
        -- cbn. constructor; [|by apply NoDup_others]. intros (x & E & [_ Hx]%elem_of_others)%list_elem_of_fmap. congruence.
      * intros x Hx. apply inserted_snoc; [|done|done]. apply Hin. apply elem_of_cons in Hx as [->|[Hx _]%elem_of_others]; done.
    + pose proof (reader_insert_ok f r c Hc) as H. destruct (reader_insert f r c) as [r' c']. destruct H as (-> & K1 & K2 & K3). cbn [snd]. split_and!; [done|by rewrite K2|].
      intros e [He|[<- <-]]%K3; [apply inserted_snoc; [by apply Hin|done|done]|]. exists l, []. split; [done|]. split; apply not_elem_of_nil.
    + destruct (drop_locked_ok f c Hc) as (K1 & K2 & K3 & _). unfold reader_forget. split_and!; [done|by rewrite K2|]. intros e [He Hne]%K3. apply inserted_snoc; [by apply Hin|congruence|done].
    + pose proof Hc as [O1 O2 O3 O4]. pose proof (costs_nonneg _ O1) as Hn. unfold reader_clear. split_and!; [split; cbn [rk_entries rk_bytes]; [by apply Forall_nil|done|lia|apply NoDup_nil_2]| |by intros e ?%elem_of_nil].
      rewrite <- Hu. unfold others_use. cbn [rk_budget rk_bytes]. destruct (Z.ltb_spec 0 (rk_bytes c)).
      * destruct (rk_budget c) as [x|]; [|done]. cbn [fmap option_fmap option_map mb_used release]. f_equal. rewrite u64_sub_l. f_equal. lia.
      * destruct (rk_budget c) as [x|]; [|done]. cbn [fmap option_fmap option_map]. do 2 f_equal. lia.
Qed.

(** The cache of readers serves, for a file, a reader that was inserted for it and not forgotten since, within
    its bound, and the budget counts exactly what is resident. *)
Lemma reader_cache_sound b l f : is_u64 (mb_used b) -> let c := fold_left run_reader_call l (new_reader_cache (Some b)) in
  (forall r, (reader_get f c).1 = Some r -> inserted_since l f r) /\ 0 <= rk_bytes c <= max_bytes /\ rk_bytes c = costs (rk_entries c) /\ others_use c = Some (mb_used b).
Proof using Hmax Hcost.
  intros Hb c. destruct (run_readers_ok b l Hb) as ([O1 O2 O3 O4] & Hu & Hin). fold c in O1, O2, O3, O4, Hu, Hin. split_and!; [|rewrite O2; by apply costs_nonneg|done|done|done].
  intros r. unfold reader_get. destruct (find_reader f (rk_entries c)) as [e|] eqn:Ee; [|done]. intros [= <-]. destruct (find_reader_split f _ e Ee O4) as (<- & He & _). by apply Hin.
Qed.
End ReaderCache.
