(* ===== verification/CacheExamples.v ===== *)
(** * Cache layers, run

    The layers at concrete states: a cache on disk in front of a store on disk, a reader that is overtaken by a
    removal, and a name the store refuses. *)

From S2P Require Import Prelude Slice Names Blob FileSystem DiskCatalog DiskBlob BlobCrash RangeCache CacheStore Budget MemoryCache DiskCache Windowed BlockCache.

Import BlobExamples.

#[local] Instance below : BlobStore DiskBlobStore := disk_blob_store 4 no_hash 77 true.
#[local] Instance below_laws : BlobStoreLaws below (blob_ok 4 no_hash) blob_objects := disk_blob_laws 4 no_hash 77 true.

Lemma busy_ok : blob_ok 4 no_hash (reopened busy_disk).
Proof. apply reopened_ok, busy_flat. Qed.

(** The directory of a cache, beside another file; the second write is cut short. *)
Definition cache_root : path := [[x63]].

Definition cache_disk : Disk :=
  let v := {[ [] := Dir; [[x63]] := Dir; [[x70]] := File [x07] true ]} in
  {| dk_visible := v; dk_durable := v; dk_faults := [NoFault; NoFault; Short 1; Interrupted]; dk_read_faults := [Short 1]; dk_list_faults := [] |}.

#[local] Instance on_disk : Payload Disk := disk_payload cache_root.
#[local] Instance on_disk_laws : PayloadLaws on_disk (fun _ => True) (file_at cache_root) := disk_payload_laws cache_root.

Definition zero_hash (_ : bytes) : Z := 0.

(** Chunks of four bytes; the cache holds ten. *)
Definition history : list CacheOp := [CPut [x62] [x01; x02; x03; x04; x05; x06]; CGet [x62] 1 (Some 2); CGet [x61] 0 None; CGet [x62] 4 (Some 1); CRemove [x61]].

Lemma history_readable : Forall op_readable history.
Proof. repeat (apply Forall_cons; split; [cbn; unfold readable; lia|]). by apply Forall_nil. Qed.

Lemma cache_transparent_witness :
  (serve_get 10 4 zero_hash [x62] 2 (Some 9) (fold_left (run_cache_op 10 false 4 zero_hash) history (new_cache 10 (reopened busy_disk) cache_disk))).1 = Value [x03; x04; x05; x06].
Proof.
  pose proof (cache_transparent (blob := below) (pay := on_disk) 10 false 4 zero_hash ltac:(lia) ltac:(lia) (reopened busy_disk) cache_disk history [x62] 2 (Some 9) busy_ok I history_readable ltac:(unfold readable; lia)) as H.
  cbv zeta in H. set (s := fold_left _ history _) in *. assert (exists b, (serve_get 10 4 zero_hash [x62] 2 (Some 9) s).1 = Value b) as [b Hb] by (eexists; vm_compute; reflexivity).
  rewrite Hb in *. destruct H as (c & Hc & ->). assert (blob_objects (cs_delegate s) [x62] = Some [x01; x02; x03; x04; x05; x06]) as E by (vm_compute; reflexivity). rewrite E in Hc. injection Hc as <-. reflexivity.
Defined.

Lemma cache_bounded_witness :
  let s := fold_left (run_cache_op 10 false 4 zero_hash) history (new_cache 10 (reopened busy_disk) cache_disk) in
  cached_bytes s = 6 /\ 0 <= cached_bytes s <= 10.
Proof.
  cbv zeta. split; [vm_compute; reflexivity|].
  exact (proj2 (cache_bounded (blob := below) (pay := on_disk) 10 false 4 zero_hash ltac:(lia) ltac:(lia) (reopened busy_disk) cache_disk history busy_ok I history_readable)).
Defined.

Lemma memory_cache_charges_exactly_witness :
  let b := {| mb_total := 100; mb_used := 50 |} in
  let s := fold_left (run_cache_op (blob := below) 10 true 4 zero_hash) history (new_cache 10 (reopened busy_disk) {| mp_shards := ∅; mp_budget := Some b |}) in
  (mb_used <$> mp_budget (cs_payload s) = Some 56) /\ (mb_used <$> destroy_shards 1 (cs_payload s) = Some 50).
Proof.
  cbv zeta. split; [vm_compute; reflexivity|].
  exact (proj2 (memory_cache_charges_exactly (blob := below) 10 true 4 zero_hash ltac:(lia) (reopened busy_disk) {| mb_total := 100; mb_used := 50 |} history ltac:(unfold is_u64; cbn; lia))).
Defined.

(** ** A reader overtaken by a removal *)

(** A reader that missed takes no lock while it fetches. A removal that runs between its fetch and its insertion
    forgets the name and removes the object, and then the reader caches it: from there on the layer answers
    bytes of an object that is gone. [remove] invalidates first so that no entry serves an object that is
    gone. *)
Theorem late_insert_serves_removed_object :
  let s0 := new_cache 1000 (reopened busy_disk) {| mp_shards := ∅; mp_budget := None |} in
  let plan := plan_fetch 0 None 0 in
  let '(hit, s1) := serve_lookup zero_hash [x61] 0 None s0 in
  let '(fetched, s2) := serve_fetch [x61] plan s1 in
  let '(removed, s3) := cache_remove zero_hash [x61] s2 in
  let s4 := populate 1000 zero_hash [x61] 0 [x07] true s3 in
  hit = None /\ fetched = Value [x07] /\ removed = Ok /\
  (serve_get 1000 0 zero_hash [x61] 0 None s4).1 = Value [x07] /\ (bs_get [x61] 0 None (cs_delegate s4)).1 = Unexpected NotFound.
Proof. vm_compute. repeat split. Qed.

(** ** A name the store refuses *)

(** [remove] drops the cached copies before the store below sees the name. The name [..] is refused with
    [Config], and the directory above the cache's has been emptied: the file beside the cache is gone. *)
Theorem refused_name_empties_parent :
  let s := new_cache 1000 (reopened busy_disk) cache_disk in
  let '(status, s') := cache_remove zero_hash [x2e; x2e] s in
  status = Config /\ dk_visible (cs_payload s) !! [[x70]] = Some (File [x07] true) /\ dk_visible (cs_payload s') !! [[x70]] = None.
Proof. vm_compute. repeat split. Qed.

(** ** The window, the block cache and the arena *)

(** A small object read forwards through a window of three bytes, with one step back. *)
Definition forward_reads : list (bytes * Z * option Z) := [([x62], 0, Some 2); ([x62], 2, Some 2); ([x62], 4, Some 1); ([x62], 1, Some 2)].

Lemma forward_reads_reach : Forall (fun q => reaches q.1.2 q.2) forward_reads.
Proof. repeat (apply Forall_cons; split; [cbn; unfold reaches; lia|]). by apply Forall_nil. Qed.

Definition written : DiskBlobStore := (bs_put [x62] [x01; x02; x03; x04; x05; x06] (reopened busy_disk)).2.

Lemma written_ok : blob_ok 4 no_hash written.
Proof. unfold written. destruct (bs_put _ _ _) as [r s'] eqn:E. exact (law_put_keeps _ _ _ _ _ busy_ok E). Qed.

Lemma window_reads_exact_witness : (windowed_get 3 6 [x62] 3 (Some 9) (run_reads 3 6 forward_reads (new_window written))).1 = Value [x04; x05; x06].
Proof.
  pose proof (window_reads_exact (blob := below) 3 6 ltac:(lia) written forward_reads [x62] 3 (Some 9) written_ok forward_reads_reach ltac:(unfold reaches; lia) ltac:(discriminate)) as H.
  set (r := (windowed_get 3 6 [x62] 3 (Some 9) _).1) in *. assert (exists b, r = Value b) as [b Hb] by (eexists; vm_compute; reflexivity). rewrite Hb in *. destruct H as (c & Hc & ->).
  assert (blob_objects written [x62] = Some [x01; x02; x03; x04; x05; x06]) as E by (vm_compute; reflexivity). rewrite E in Hc. injection Hc as <-. reflexivity.
Defined.

(** Files seven and eight, in a cache with room for many of them. *)
Definition block_calls : list CacheCall := [BInsert (7, 0) [x01]; BInsert (7, 64) [x02]; BInsert (8, 0) [x03]; BGet (7, 0); BInsert (7, 0) [x09]; BEvictFile 8].

Lemma block_calls_fit : Forall call_fits block_calls.
Proof. repeat (apply Forall_cons; split; [cbn; lia || done|]). by apply Forall_nil. Qed.

Lemma block_cache_sound_witness :
  let c := fold_left (run_call 16000) block_calls (new_block_cache (Some {| mb_total := 100; mb_used := 7 |})) in
  (block_get (7, 0) c).1 = Some [x01] /\ may_hold block_calls (7, 0) [x01] /\ mb_used <$> bc_budget c = Some 89 /\ (evict_at_least 50 c).1 = 82.
Proof.
  cbv zeta. destruct (block_cache_sound 16000 ltac:(lia) {| mb_total := 100; mb_used := 7 |} block_calls (7, 0) 50 block_calls_fit ltac:(unfold is_u64; cbn; lia) ltac:(lia)) as (H & _).
  split; [vm_compute; reflexivity|]. split; [apply H; vm_compute; reflexivity|]. split; vm_compute; reflexivity.
Defined.

Lemma arena_regions_disjoint_witness : length (fold_left request [(false, 0); (true, 40); (false, 5000); (false, 3); (true, 4000); (true, 16)] (new_arena, [])).2 = 6%nat.
Proof.
  pose proof (arena_regions_disjoint [(false, 0); (true, 40); (false, 5000); (false, 3); (true, 4000); (true, 16)] ltac:(repeat (apply Forall_cons; split; [unfold request_fits; cbn; lia|]); apply Forall_nil; exact I)) as H.
  destruct (fold_left request _ _) as [a given]. exact (proj1 H).
Defined.
