(* ===== verification/Kms.v ===== *)
(** * Data keys from AWS KMS

    [aws/aws_kms_encryption_key_manager.cpp]: the key manager whose data keys the service makes and opens.
    KMS is the class [Kms] of the two calls the manager makes, with the laws AWS documents: a data key of
    the spec [AES_256] has 32 bytes, and [Decrypt] answers the plaintext of any ciphertext that
    [GenerateDataKey] made, whichever key made it. The credentials, the endpoint and the timeouts of the
    client are left out. *)

From S2P Require Import Prelude Slice Format Crypto.

(** The error types the manager tells apart; every other one is [KMS_OTHER]. *)
Inductive KmsErrorType := THROTTLING | NETWORK_CONNECTION | DEPENDENCY_TIMEOUT | K_M_S_INTERNAL | KMS_OTHER.

Record KmsError := { kms_type : KmsErrorType; kms_should_retry : bool }.

(** The service: [random] is what it draws, and a call answers or fails with an error. *)
Class Kms := {
  GenerateDataKey : bytes -> bytes -> (bytes * bytes) + KmsError;
  Decrypt : bytes -> bytes + KmsError
}.

Definition retryable (error : KmsError) : bool :=
  kms_should_retry error ||
  match kms_type error with
  | THROTTLING | NETWORK_CONNECTION | DEPENDENCY_TIMEOUT | K_M_S_INTERNAL => true
  | KMS_OTHER => false
  end.

Definition kms_new_data_key {kms : Kms} (key_id random : bytes) : Result (bytes * bytes) :=
  match GenerateDataKey key_id random with
  | inr error => Unexpected (if retryable error then Io else Config)
  | inl (plaintext, wrapped) =>
      if negb (zlen plaintext =? kKeyBytes) then Unexpected Config else Value (plaintext, wrapped)
  end.

Definition kms_open_data_key {kms : Kms} (envelope : bytes) : Result bytes :=
  match Decrypt envelope with
  | inr error => Unexpected (if retryable error then Io else Config)
  | inl plaintext => if negb (zlen plaintext =? kKeyBytes) then Unexpected Corrupt else Value plaintext
  end.

Definition kms_key_manager {kms : Kms} (key_id : bytes) : KeyManager :=
  {| new_data_key := kms_new_data_key key_id; open_data_key := kms_open_data_key |}.

Definition kms_open {kms : Kms} (key_id : bytes) : Result KeyManager :=
  if bool_decide (key_id = []) then Unexpected Config else Value (kms_key_manager key_id).

(** ** What the service documents, while it can be reached and the keys exist *)

Class KmsLaws (kms : Kms) : Prop := {
  kms_inverse : forall key_id random plaintext wrapped,
    GenerateDataKey key_id random = inl (plaintext, wrapped) -> Decrypt wrapped = inl plaintext;
  kms_blob : forall key_id random plaintext wrapped,
    GenerateDataKey key_id random = inl (plaintext, wrapped) -> 1 <= zlen wrapped <= 6144
}.

Section Laws.
Context {kms : Kms} (laws : KmsLaws kms).

Lemma kms_key_opens key_id random key envelope :
  kms_new_data_key key_id random = Value (key, envelope) -> kms_open_data_key envelope = Value key /\ zlen envelope <= 6144.
Proof.
  unfold kms_new_data_key, kms_open_data_key. destruct (GenerateDataKey key_id random) as [[p w]|] eqn:E; [|done].
  destruct (zlen p =? kKeyBytes) eqn:El; [|done]. intros [= -> ->]. rewrite (kms_inverse _ _ _ _ E), El.
  split; [done|]. by apply (kms_blob _ _ _ _ E).
Qed.

(** The manager keeps the contract of a key manager, so an object sealed under it reads back. *)
#[export] Instance kms_key_laws key_id : KeyManagerLaws (kms_key_manager key_id).
Proof.
  split; intros random key envelope _ E; destruct (kms_key_opens key_id random key envelope E) as [Ho Hz]; [done|].
  pose proof (zlen_nonneg envelope). unfold is_u64. lia.
Qed.

(** Rotation: what was created under one key id is opened, with the same cipher, by a manager configured
    with any other. *)
Lemma rotated_key_still_opens {gcm : Gcm} old new chunk_bytes salt random object_id c metadata :
  0 <= salt < 2 ^ 32 -> 0 < chunk_bytes < 2 ^ 64 -> is_u64 object_id ->
  aes_create (keys := kms_key_manager old) chunk_bytes salt random object_id = Value (c, metadata) ->
  aes_open (keys := kms_key_manager new) object_id metadata = Value c.
Proof.
  intros Hs Hc Ho. unfold aes_create. cbn [new_data_key kms_key_manager].
  destruct (kms_new_data_key old random) as [[key envelope]|] eqn:E; simpl; [|done].
  destruct (zlen key =? kKeyBytes) eqn:El; simpl; [|done]. intros [= <- <-].
  destruct (kms_key_opens _ _ _ _ E) as [Hk Hz]. unfold aes_open.
  rewrite decode_encode_metadata by (first [done|unfold is_u64; pose proof (zlen_nonneg envelope); lia]).
  cbn [open_data_key kms_key_manager]. rewrite Hk. simpl. by rewrite El.
Qed.
End Laws.

(** An outage is told from a refusal: a failed call is answered [Io], to be retried, exactly when the error
    is one a repetition can cure, and [Config] otherwise; a failed call is never taken for corruption. *)
Lemma kms_failure_is_not_corruption {kms : Kms} envelope error : Decrypt envelope = inr error ->
  kms_open_data_key envelope = Unexpected (if retryable error then Io else Config) /\
  kms_open_data_key envelope <> Unexpected Corrupt.
Proof. intros E. unfold kms_open_data_key. rewrite E. by destruct (retryable error). Qed.

(** ** A service that keeps its contract *)

(** One that wraps a key by writing the key and then the id of the key that wraps it. *)
Definition plain_kms : Kms := {|
  GenerateDataKey key_id random :=
    if (zlen random <? kKeyBytes) || (2048 <? zlen key_id) then inr {| kms_type := KMS_OTHER; kms_should_retry := false |}
    else inl (take 32 random, take 32 random ++ key_id);
  Decrypt envelope := inl (take 32 envelope)
|}.

#[export] Instance plain_kms_laws : KmsLaws plain_kms.
Proof.
  assert (forall key_id random plaintext wrapped, GenerateDataKey (Kms := plain_kms) key_id random = inl (plaintext, wrapped) ->
    length (take 32 random) = 32%nat /\ zlen key_id <= 2048 /\ plaintext = take 32 random /\ wrapped = take 32 random ++ key_id) as H.
  { intros key_id random plaintext wrapped. cbn [GenerateDataKey plain_kms].
    destruct (Z.ltb_spec (zlen random) kKeyBytes); simpl; [done|]. destruct (Z.ltb_spec 2048 (zlen key_id)); simpl; [done|].
    intros [= <- <-]. rewrite length_take. unfold zlen, kKeyBytes in *. split; [lia|done]. }
  split; intros key_id random plaintext wrapped E; apply H in E as (Hl & Hk & -> & ->).
  - cbn [Decrypt plain_kms]. by rewrite take_app_le, (take_ge (take 32 random)) by lia.
  - rewrite zlen_app. unfold zlen in *. lia.
Qed.
