(* ===== verification/S3.v ===== *)
(** * S3

    The calls of Amazon S3 that [aws/s3_blob_store.cpp] and [aws/s3_manifest_catalog.cpp] make of one bucket, as a
    class, and what the service documents of them as laws: conditional writes, byte ranges, listings in pages, and
    uploads in parts. Any call may fail, also after it was applied. [mem_s3] is a bucket in memory with pages of two
    names, whose calls follow a script of failures. *)

From S2P Require Import Prelude Slice.

(** ** The calls *)

(** An object, with the write id its metadata carries. *)
Record S3Object := { so_body : bytes; so_write_id : option bytes; so_etag : bytes }.

Abbreviation Bucket := (gmap bytes S3Object).

(** An upload in parts that is not complete: each part with its tag. *)
Record Upload := { up_key : bytes; up_write_id : bytes; up_parts : gmap Z (bytes * bytes) }.

(** [NO_SUCH_KEY], and the answers 416 and 412 the code tells apart. *)
Inductive S3Error : Type := NoSuchKey | RangeNotSatisfiable | PreconditionFailed | OtherS3Error.

#[export] Instance S3Error_eq_dec : EqDecision S3Error.
Proof. solve_decision. Defined.

Inductive S3Outcome (A : Type) : Type := Success (a : A) | Failure (e : S3Error).
Arguments Success {A} a.
Arguments Failure {A} e.

Definition failure {A} (o : S3Outcome A) : option S3Error := match o with Success _ => None | Failure e => Some e end.

(** [If-None-Match: *] and [If-Match]. *)
Inductive Precondition : Type := IfNoneMatch | IfMatch (etag : bytes).

(** No range, [bytes=first-] and [bytes=first-last]. *)
Inductive ByteRange : Type := WholeObject | FromByte (first : Z) | FirstToLast (first last : Z).

Record ListPage := { pg_keys : list bytes; pg_prefixes : list bytes; pg_truncated : bool; pg_token : bytes }.

(** [HeadObject] answers the length and the write id; [DeleteObjects] the keys that failed; [ListObjectsV2] takes a prefix, whether [/]
    delimits, and a continuation token, empty for the first page. [s3_keys] is not a call: it bounds the number of objects, and with it
    how many pages a listing can have. *)
Class S3 (D : Type) := {
  s3_put : bytes -> Precondition -> option bytes -> bytes -> D -> S3Outcome bytes * D;
  s3_get : bytes -> ByteRange -> D -> S3Outcome (bytes * bytes) * D;
  s3_head : bytes -> D -> S3Outcome (Z * option bytes) * D;
  s3_delete : bytes -> D -> option S3Error * D;
  s3_delete_objects : list bytes -> D -> S3Outcome (list bytes) * D;
  s3_list : bytes -> bool -> bytes -> D -> S3Outcome ListPage * D;
  s3_create_upload : bytes -> bytes -> D -> S3Outcome bytes * D;
  s3_upload_part : bytes -> bytes -> Z -> bytes -> D -> S3Outcome bytes * D;
  s3_complete_upload : bytes -> bytes -> list (Z * bytes) -> Precondition -> D -> option S3Error * D;
  s3_abort_upload : bytes -> bytes -> D -> bool * D;
  s3_keys : D -> nat
}.

(** ** What is documented *)

Definition meets (p : Precondition) (o : option S3Object) : Prop :=
  match p with IfNoneMatch => o = None | IfMatch t => so_etag <$> o = Some t end.

#[export] Instance meets_dec p o : Decision (meets p o).
Proof. destruct p; simpl; apply _. Defined.

(** A range that starts inside the object is answered up to the object's end. *)
Definition in_range (r : ByteRange) (body out : bytes) : Prop :=
  match r with
  | WholeObject => out = body
  | FromByte a => a < zlen body /\ out = drop (Z.to_nat a) body
  | FirstToLast a b => a <= b -> a < zlen body /\ out = take (Z.to_nat (b - a + 1)) (drop (Z.to_nat a) body)
  end.

Definition past_end (r : ByteRange) (body : bytes) : Prop :=
  match r with WholeObject => False | FromByte a | FirstToLast a _ => zlen body <= a end.

(** The parts listed, each with its tag, one after the other. *)
Fixpoint assembled (stored : gmap Z (bytes * bytes)) (parts : list (Z * bytes)) : option bytes :=
  match parts with
  | [] => Some []
  | (n, t) :: rest =>
      match stored !! n with
      | Some (t', b) => if bool_decide (t' = t) then (fun tail => b ++ tail) <$> assembled stored rest else None
      | None => None
      end
  end.

(** The string up to the first slash and with it. *)
Fixpoint upto_slash (s : bytes) : option bytes :=
  match s with
  | [] => None
  | c :: rest => if bool_decide (c = x2f) then Some [c] else (fun t => c :: t) <$> upto_slash rest
  end.

(** What a listing shows for a key: itself, or the common prefix the delimiter makes of it. *)
Definition roll (prefix : bytes) (delimited : bool) (k : bytes) : bytes :=
  if delimited then match upto_slash (drop (length prefix) k) with Some u => prefix ++ u | None => k end else k.

Definition keys_under (prefix : bytes) (b : Bucket) : list bytes := List.filter (fun k => starts_with k prefix) (map fst (map_to_list b)).

Definition listed_names (prefix : bytes) (delimited : bool) (b : Bucket) : list bytes := map (roll prefix delimited) (keys_under prefix b).

Definition above (a : option bytes) (n : bytes) : Prop := match a with None => True | Some x => x <k n end.

Definition page_names (pg : ListPage) : list bytes := pg_keys pg ++ pg_prefixes pg.

(** A page has the names after its token in the order of their bytes, as many as it likes but at least one when it says there are more. *)
Record page_ok (after : bytes -> option bytes) (prefix : bytes) (delimited : bool) (token : bytes) (b : Bucket) (pg : ListPage) : Prop := {
  pk_sound : forall n, n ∈ page_names pg -> n ∈ listed_names prefix delimited b /\ above (after token) n;
  pk_complete : forall n, n ∈ listed_names prefix delimited b -> above (after token) n ->
    n ∈ page_names pg \/ pg_truncated pg = true /\ above (after (pg_token pg)) n;
  pk_keys : forall n, n ∈ pg_keys pg -> delimited = true -> upto_slash (drop (length prefix) n) = None;
  pk_prefixes : forall n, n ∈ pg_prefixes pg -> delimited = true /\ upto_slash (drop (length prefix) n) <> None;
  pk_nodup : NoDup (page_names pg);
  pk_more : pg_truncated pg = true -> pg_token pg <> [] /\
    exists n, n ∈ page_names pg /\ after (pg_token pg) = Some n /\ forall n', n' ∈ page_names pg -> ~ n <k n'
}.

Class S3Laws {D} (s3 : S3 D) (bucket : D -> Bucket) (uploads : D -> gmap bytes Upload) (after : bytes -> option bytes) : Prop := {
  law_s3_put : forall k p w b d r d', s3_put k p w b d = (r, d') ->
    let lands t := meets p (bucket d !! k) /\ bucket d' = <[k := {| so_body := b; so_write_id := w; so_etag := t |}]> (bucket d) in
    match r with
    | Success t => lands t
    | Failure PreconditionFailed => ~ meets p (bucket d !! k) /\ bucket d' = bucket d
    | Failure _ => bucket d' = bucket d \/ exists t, lands t
    end;
  law_s3_get : forall k rg d r d', s3_get k rg d = (r, d') -> bucket d' = bucket d /\
    match r with
    | Success (out, t) => exists o, bucket d !! k = Some o /\ t = so_etag o /\ in_range rg (so_body o) out
    | Failure NoSuchKey => bucket d !! k = None
    | Failure RangeNotSatisfiable => exists o, bucket d !! k = Some o /\ past_end rg (so_body o)
    | Failure _ => True
    end;
  law_s3_head : forall k d r d', s3_head k d = (r, d') -> bucket d' = bucket d /\
    forall n w, r = Success (n, w) -> exists o, bucket d !! k = Some o /\ n = zlen (so_body o) /\ w = so_write_id o;
  law_s3_delete : forall k d e d', s3_delete k d = (e, d') -> (bucket d' = bucket d \/ bucket d' = delete k (bucket d)) /\
    (e = None \/ e = Some NoSuchKey -> bucket d' !! k = None);
  law_s3_delete_objects : forall ks d r d', s3_delete_objects ks d = (r, d') ->
    (forall k, bucket d' !! k = bucket d !! k \/ k ∈ ks /\ bucket d' !! k = None) /\ (r = Success [] -> forall k, k ∈ ks -> bucket d' !! k = None);
  law_s3_list : forall prefix delimited token d r d', s3_list prefix delimited token d = (r, d') -> bucket d' = bucket d /\
    forall pg, r = Success pg -> page_ok after prefix delimited token (bucket d) pg;
  law_s3_first : after [] = None;
  law_s3_create : forall k w d r d', s3_create_upload k w d = (r, d') -> bucket d' = bucket d /\
    forall u, r = Success u -> uploads d' !! u = Some {| up_key := k; up_write_id := w; up_parts := ∅ |};
  law_s3_part : forall k u n b d r d' up, s3_upload_part k u n b d = (r, d') -> uploads d !! u = Some up -> bucket d' = bucket d /\
    forall t, r = Success t -> uploads d' !! u = Some {| up_key := up_key up; up_write_id := up_write_id up; up_parts := <[n := (t, b)]> (up_parts up) |};
  law_s3_complete : forall k u parts p d e d', s3_complete_upload k u parts p d = (e, d') ->
    (forall up, uploads d' !! u = Some up -> uploads d !! u = Some up) /\
    let completes := meets p (bucket d !! k) /\ exists up body t, uploads d !! u = Some up /\ up_key up = k /\ assembled (up_parts up) parts = Some body /\
      bucket d' = <[k := {| so_body := body; so_write_id := Some (up_write_id up); so_etag := t |}]> (bucket d) in
    match e with
    | None => completes
    | Some PreconditionFailed => ~ meets p (bucket d !! k) /\ bucket d' = bucket d
    | Some _ => bucket d' = bucket d \/ completes
    end;
  law_s3_abort : forall k u d r d', s3_abort_upload k u d = (r, d') -> bucket d' = bucket d;
  law_s3_keys : forall d, (size (bucket d) <= s3_keys d)%nat
}.

(** ** Pages *)

Section Pages.
Context {D : Type} {s3 : S3 D}.

(** The loop over the pages of a listing, which fails with any of them. *)
Fixpoint list_pages (fuel : nat) (prefix : bytes) (delimited : bool) (token : bytes) (d : D) : Result (list ListPage) * D :=
  match fuel with
  | O => (Value [], d)
  | S fuel =>
      match s3_list prefix delimited token d with
      | (Failure _, d) => (Unexpected Io, d)
      | (Success pg, d) =>
          if pg_truncated pg && negb (bool_decide (pg_token pg = [])) then
            match list_pages fuel prefix delimited (pg_token pg) d with
            | (Value rest, d) => (Value (pg :: rest), d)
            | (Unexpected s, d) => (Unexpected s, d)
            end
          else (Value [pg], d)
      end
  end.

Definition list_all (prefix : bytes) (delimited : bool) (d : D) : Result (list ListPage) * D := list_pages (S (s3_keys d)) prefix delimited [] d.

Context {bucket : D -> Bucket} {uploads : D -> gmap bytes Upload} {after : bytes -> option bytes} {laws : S3Laws s3 bucket uploads after}.

#[local] Instance above_dec a n : Decision (above a n).
Proof. destruct a; simpl; apply _. Defined.

Definition left_after (a : option bytes) (l : list bytes) : nat := length (filter (above a) l).

(** A truncated page leaves less to list. *)
Lemma page_progress prefix delimited token b pg : page_ok after prefix delimited token b pg -> pg_truncated pg = true ->
  (left_after (after (pg_token pg)) (listed_names prefix delimited b) < left_after (after token) (listed_names prefix delimited b))%nat /\ (forall n, above (after (pg_token pg)) n -> above (after token) n).
Proof.
  intros [Hs _ _ _ _ Hm] Ht. destruct (Hm Ht) as (_ & n & Hn & Ha & Hlast). destruct (Hs n Hn) as [Hin Hab]. rewrite Ha.
  assert (forall m, above (Some n) m -> above (after token) m) as Himp by (intros m Hm'; simpl in Hm'; destruct (after token) as [x|]; [|done]; simpl in *; by eapply key_lt_trans).
  split; [|done]. clear -Hin Hab Himp. unfold left_after. induction (listed_names prefix delimited b) as [|m l IH]; [by apply elem_of_nil in Hin|]. rewrite !filter_cons.
  assert (length (filter (above (Some n)) l) <= length (filter (above (after token)) l))%nat as Hle.
  { clear -Himp. induction l as [|y l IH]; [done|]. rewrite !filter_cons. destruct (decide (above (Some n) y)) as [H|H]; [rewrite decide_True by auto; simpl; lia|]. destruct (decide _); simpl; lia. }
  apply elem_of_cons in Hin as [->|Hin].
  - rewrite decide_False, decide_True by (try done; apply key_lt_irrefl). simpl. lia.
  - specialize (IH Hin). destruct (decide (above (Some n) m)) as [H|H]; [rewrite decide_True by auto; simpl; lia|]. destruct (decide _); simpl; lia.
Qed.

Lemma list_pages_spec prefix delimited fuel : forall token d r d', (left_after (after token) (listed_names prefix delimited (bucket d)) < fuel)%nat ->
  list_pages fuel prefix delimited token d = (r, d') -> bucket d' = bucket d /\ match r with
  | Value pgs => (forall n, n ∈ concat (map page_names pgs) <-> n ∈ listed_names prefix delimited (bucket d) /\ above (after token) n) /\ NoDup (concat (map page_names pgs)) /\
      Forall (fun pg => (forall n, n ∈ pg_keys pg -> delimited = true -> upto_slash (drop (length prefix) n) = None) /\ (forall n, n ∈ pg_prefixes pg -> delimited = true /\ upto_slash (drop (length prefix) n) <> None)) pgs
  | Unexpected s => s = Io
  end.
Proof using laws.
  induction fuel as [|fuel IH]; intros token d r d' Hf; [lia|]. cbn [list_pages]. destruct (s3_list prefix delimited token d) as [[pg|e] d1] eqn:E; [|intros [= <- <-]; by apply law_s3_list in E as [? _]].
  apply law_s3_list in E as [Hb Hpg]. specialize (Hpg pg eq_refl). destruct (pg_truncated pg) eqn:Et; cbn [andb].
  - destruct (pk_more _ _ _ _ _ _ Hpg Et) as (Htok & last & Hlast & Hal & Hmax). rewrite bool_decide_eq_false_2 by done. cbn [negb]. destruct (page_progress _ _ _ _ _ Hpg Et) as [Hless Himp].
    destruct (list_pages fuel prefix delimited (pg_token pg) d1) as [[rest|s] d2] eqn:E2; intros [= <- <-]; apply IH in E2 as [Hb2 H2]; try (rewrite Hb; lia); [|by rewrite Hb2, Hb]. split; [congruence|].
    destruct H2 as (Hin & Hnd & Hall). rewrite Hb in Hin. cbn [map concat]. split_and!.
    + intros n. rewrite elem_of_app, Hin. split.
      * intros [Hn|[Hn Hab]]; [by apply Hpg|]. split; [done|]. by apply Himp.
      * intros [Hn Hab]. destruct (pk_complete _ _ _ _ _ _ Hpg n Hn Hab) as [|[_ ?]]; [by left|by right].
    + apply NoDup_app. split; [by apply Hpg|]. split; [|done]. intros n Hn (_ & Hab)%Hin. rewrite Hal in Hab. by apply (Hmax n Hn).
    + constructor; [split; apply Hpg|done].
  - intros [= <- <-]. split; [done|]. cbn [map concat]. rewrite app_nil_r. split_and!.
    + intros n. split; [apply Hpg|]. intros [Hn Hab]. destruct (pk_complete _ _ _ _ _ _ Hpg n Hn Hab) as [|[? _]]; [done|congruence].
    + apply Hpg.
    + constructor; [split; apply Hpg|done].
Qed.

(** There is no more to list than the bucket has objects. *)
Lemma left_bound prefix delimited d : (left_after None (listed_names prefix delimited (bucket d)) <= s3_keys d)%nat.
Proof using laws.
  pose proof (law_s3_keys d) as Hk. unfold left_after. pose proof (length_filter (above None) (listed_names prefix delimited (bucket d))) as H1. unfold listed_names, keys_under in *. rewrite length_map in H1.
  pose proof (List.filter_length_le (fun k => starts_with k prefix) (map fst (map_to_list (bucket d)))) as H2. rewrite length_map, length_map_to_list in H2. lia.
Qed.

(** All pages together show every name once. *)
Lemma list_all_spec prefix delimited d r d' : list_all prefix delimited d = (r, d') -> bucket d' = bucket d /\ match r with
  | Value pgs => (forall n, n ∈ concat (map page_names pgs) <-> n ∈ listed_names prefix delimited (bucket d)) /\ NoDup (concat (map page_names pgs)) /\
      Forall (fun pg => (forall n, n ∈ pg_keys pg -> delimited = true -> upto_slash (drop (length prefix) n) = None) /\ (forall n, n ∈ pg_prefixes pg -> delimited = true /\ upto_slash (drop (length prefix) n) <> None)) pgs
  | Unexpected s => s = Io
  end.
Proof using laws.
  intros H. apply list_pages_spec in H as [Hb H].
  - split; [done|]. destruct r as [pgs|]; [|done]. destruct H as (H1 & H2 & H3). split; [|done]. intros n. rewrite H1, law_s3_first. simpl. tauto.
  - rewrite law_s3_first. pose proof (left_bound prefix delimited d). lia.
Qed.

(** Without a delimiter, the keys under the prefix. *)
Lemma list_all_keys prefix d pgs d' : list_all prefix false d = (Value pgs, d') -> bucket d' = bucket d /\ NoDup (concat (map pg_keys pgs)) /\
  forall k, k ∈ concat (map pg_keys pgs) <-> is_Some (bucket d !! k) /\ starts_with k prefix = true.
Proof using laws.
  intros H. apply list_all_spec in H as (Hb & Hin & Hnd & Hall). split; [done|]. assert (concat (map page_names pgs) = concat (map pg_keys pgs)) as E.
  { clear -Hall. induction Hall as [|pg pgs [_ H] _ IH]; [done|]. cbn. rewrite IH. unfold page_names. destruct (pg_prefixes pg) as [|p l]; [by rewrite app_nil_r|]. by destruct (H p ltac:(by left)). }
  rewrite E in *. split; [done|]. intros k. rewrite Hin. unfold listed_names, roll, keys_under. rewrite map_id, list_elem_of_In, filter_In, <- list_elem_of_In, list_elem_of_fmap. split.
  - intros [([k' o] & -> & Hk)%id H2]. apply elem_of_map_to_list in Hk. by split; [eexists|].
  - intros [[o Ho] H2]. split; [|done]. exists (k, o). split; [done|]. by apply elem_of_map_to_list.
Qed.
End Pages.

(** ** Clients *)

(** The service as one instance sees it, and how many write ids it has drawn. *)
Record S3Client (D : Type) := { sb_s3 : D; sb_ids : nat }.
Arguments sb_s3 {D} _.
Arguments sb_ids {D} _.

Definition on_s3 {D A} (f : D -> A * D) (s : S3Client D) : A * S3Client D := let '(r, d) := f (sb_s3 s) in (r, {| sb_s3 := d; sb_ids := sb_ids s |}).

Definition fresh_write_id {D} (ids : nat -> bytes) (s : S3Client D) : bytes * S3Client D := (ids (sb_ids s), {| sb_s3 := sb_s3 s; sb_ids := S (sb_ids s) |}).

Lemma on_s3_spec {D A} (f : D -> A * D) s r s' : on_s3 f s = (r, s') -> f (sb_s3 s) = (r, sb_s3 s') /\ sb_ids s' = sb_ids s.
Proof. unfold on_s3. destruct (f (sb_s3 s)) as [r0 d]. by intros [= <- <-]. Qed.

(** ** Writing once *)

Section Once.
Context {D : Type} {s3 : S3 D}.

(** Whether the object under a key is the one a write left, by the id in its metadata and its length. *)
Definition owns (key write_id : bytes) (size : Z) (d : D) : bool * D :=
  match s3_head key d with
  | (Success (n, w), d) => ((n =? size) && bool_decide (w = Some write_id), d)
  | (Failure _, d) => (false, d)
  end.

(** A write on condition that the key is free: made again when it failed for another reason, and then looked for. No error is success. *)
Definition write_once (attempt : D -> option S3Error * D) (key write_id : bytes) (size : Z) (d : D) : option S3Error * D :=
  match attempt d with
  | (None, d) => (None, d)
  | (Some PreconditionFailed, d) => (Some PreconditionFailed, d)
  | (Some _, d) =>
      match attempt d with
      | (None, d) => (None, d)
      | (Some e, d) =>
          match owns key write_id size d with
          | (true, d) => (None, d)
          | (false, d) => (Some e, d)
          end
      end
  end.

Definition put_new (key write_id b : bytes) (d : D) : option S3Error * D :=
  let '(r, d) := s3_put key IfNoneMatch (Some write_id) b d in (failure r, d).

Context {bucket : D -> Bucket} {uploads : D -> gmap bytes Upload} {after : bytes -> option bytes} {laws : S3Laws s3 bucket uploads after}.

Definition lands (key write_id b : bytes) (d d' : D) : Prop :=
  bucket d !! key = None /\ exists t, bucket d' = <[key := {| so_body := b; so_write_id := Some write_id; so_etag := t |}]> (bucket d).

(** What one attempt may do. *)
Definition attempted (key write_id b : bytes) (d : D) (e : option S3Error) (d' : D) : Prop :=
  match e with
  | None => lands key write_id b d d'
  | Some PreconditionFailed => bucket d !! key <> None /\ bucket d' = bucket d
  | Some _ => bucket d' = bucket d \/ lands key write_id b d d'
  end.

(** What [write_once] may do: a refusal may be of its own write. *)
Definition written_once (key write_id b : bytes) (d : D) (e : option S3Error) (d' : D) : Prop :=
  match e with
  | None => lands key write_id b d d'
  | Some e => (bucket d' = bucket d \/ lands key write_id b d d') /\ (e = PreconditionFailed -> bucket d' !! key <> None)
  end.

Lemma put_new_spec key write_id b d e d' : put_new key write_id b d = (e, d') -> attempted key write_id b d e d'.
Proof using laws.
  unfold put_new. destruct (s3_put key IfNoneMatch (Some write_id) b d) as [r d1] eqn:E. intros [= <- <-]. apply law_s3_put in E. unfold attempted, lands. destruct r as [t|[]]; cbn [failure] in *; try (destruct E as [E|(t & ? & E)]; [by left|right; split; [done|by exists t]]).
  - destruct E as [? ?]. split; [done|]. by exists t.
  - done.
Qed.

Lemma landed_there key write_id b d d' : lands key write_id b d d' -> bucket d' !! key <> None.
Proof. intros [_ [t ->]]. by rewrite lookup_insert_eq. Qed.

Lemma owns_spec key write_id size d r d' : owns key write_id size d = (r, d') -> bucket d' = bucket d /\ (r = true -> exists o, bucket d !! key = Some o /\ so_write_id o = Some write_id).
Proof using laws.
  unfold owns. destruct (s3_head key d) as [[[n w]|e] d1] eqn:E; apply law_s3_head in E as [Hb H]; intros [= <- <-]; (split; [done|]); [|done].
  intros [_ Hw%bool_decide_eq_true]%andb_prop. destruct (H n w eq_refl) as (o & Ho & _ & ->). by exists o.
Qed.

Lemma write_once_spec (I : D -> Prop) attempt key write_id b d e d' :
  (forall d e d', I d -> attempt d = (e, d') -> I d' /\ attempted key write_id b d e d') ->
  (forall o, bucket d !! key = Some o -> so_write_id o <> Some write_id) -> I d ->
  write_once attempt key write_id (zlen b) d = (e, d') -> written_once key write_id b d e d'.
Proof using laws.
  intros Hstep Hfresh HI. unfold write_once. destruct (attempt d) as [e1 d1] eqn:E1. destruct (Hstep _ _ _ HI E1) as [HI1 H1].
  assert (forall d2, bucket d2 = bucket d1 -> bucket d1 = bucket d \/ lands key write_id b d d1 -> bucket d2 = bucket d \/ lands key write_id b d d2) as Hsame.
  { intros d2 E [H|[H [t Ht]]]; [left; congruence|right]. split; [done|]. exists t. congruence. }
  assert (e1 <> None -> e1 <> Some PreconditionFailed ->
    match attempt d1 with
    | (None, d) => (None, d)
    | (Some e, d) => match owns key write_id (zlen b) d with (true, d) => (None, d) | (false, d) => (Some e, d) end
    end = (e, d') -> written_once key write_id b d e d') as Hretry.
  { intros Hn Hp. assert (bucket d1 = bucket d \/ lands key write_id b d d1) as Hd1 by (destruct e1 as [[]|]; done). destruct (attempt d1) as [e2 d2] eqn:E2. destruct (Hstep _ _ _ HI1 E2) as [_ H2].
    assert (lands key write_id b d1 d2 -> lands key write_id b d d2) as Hland.
    { intros [Hfree [t Ht]]. destruct Hd1 as [E|H]; [rewrite E in *; split; [done|by exists t]|]. by apply landed_there in H. }
    assert (bucket d2 = bucket d \/ lands key write_id b d d2) as Hd2.
    { destruct e2 as [[]|]; cbn in H2; try (destruct H2 as [H2|H2]; [by apply Hsame|right; by apply Hland]); [destruct H2; by apply Hsame|right; by apply Hland]. }
    destruct e2 as [e2|]; [|intros [= <- <-]; by apply Hland]. destruct (owns key write_id (zlen b) d2) as [mine d3] eqn:E3. apply owns_spec in E3 as [Hb3 H3].
    assert (bucket d3 = bucket d \/ lands key write_id b d d3) as Hd3 by (destruct Hd2 as [H|[H [t Ht]]]; [left; congruence|right; split; [done|exists t; congruence]]).
    destruct mine; intros [= <- <-].
    - destruct (H3 eq_refl) as (o & Ho & Hw). destruct Hd3 as [E|]; [|done]. exfalso. apply (Hfresh o); [congruence|done].
    - split; [done|]. intros ->. cbn in H2. destruct H2 as [Htaken Hb2]. rewrite Hb3, Hb2. done. }
  destruct e1 as [e1|]; [|by intros [= <- <-]]. destruct e1; try (by apply Hretry). intros [= <- <-]. cbn in H1. destruct H1 as [? E]. split; [by left|]. intros _. by rewrite E.
Qed.
End Once.
