(* ===== verification/S3Mem.v ===== *)
(** * A bucket in memory

    An implementation of the calls of [S3] that a script of failures drives, with pages of two names, and that it
    meets the documented laws. The examples run against it. *)

From S2P Require Import Prelude Slice S3.

(** A call works, is applied and reports a failure, or fails. *)
Inductive S3Fault : Type := S3Fine | S3Lost | S3Dropped.

Record MemS3 := { mm_bucket : Bucket; mm_uploads : gmap bytes Upload; mm_next : nat; mm_script : list S3Fault }.

Definition empty_bucket (script : list S3Fault) : MemS3 := {| mm_bucket := ∅; mm_uploads := ∅; mm_next := 0; mm_script := script |}.

Definition next_s3_fault (d : MemS3) : S3Fault * MemS3 :=
  match mm_script d with
  | [] => (S3Fine, d)
  | f :: rest => (f, {| mm_bucket := mm_bucket d; mm_uploads := mm_uploads d; mm_next := mm_next d; mm_script := rest |})
  end.

Definition with_bucket (d : MemS3) (b : Bucket) : MemS3 := {| mm_bucket := b; mm_uploads := mm_uploads d; mm_next := mm_next d; mm_script := mm_script d |}.
Definition with_uploads (d : MemS3) (u : gmap bytes Upload) : MemS3 := {| mm_bucket := mm_bucket d; mm_uploads := u; mm_next := mm_next d; mm_script := mm_script d |}.
Definition bumped (d : MemS3) : MemS3 := {| mm_bucket := mm_bucket d; mm_uploads := mm_uploads d; mm_next := S (mm_next d); mm_script := mm_script d |}.

(** A tag in quotes, as the service has it, and new each time. *)
Definition next_tag (d : MemS3) : bytes := x22 :: replicate (mm_next d) x31.

(** A call that changes the state and answers [a]. *)
Definition mem_call {A} (change : MemS3 -> MemS3) (a : A) (d : MemS3) : S3Outcome A * MemS3 :=
  match next_s3_fault d with
  | (S3Fine, d) => (Success a, change d)
  | (S3Lost, d) => (Failure OtherS3Error, change d)
  | (S3Dropped, d) => (Failure OtherS3Error, d)
  end.

Definition mem_put_object (k : bytes) (p : Precondition) (w : option bytes) (b : bytes) (d : MemS3) : S3Outcome bytes * MemS3 :=
  if decide (meets p (mm_bucket d !! k)) then
    let t := next_tag d in
    mem_call (fun d => bumped (with_bucket d (<[k := {| so_body := b; so_write_id := w; so_etag := t |}]> (mm_bucket d)))) t d
  else (Failure PreconditionFailed, d).

Definition serve_range (r : ByteRange) (body : bytes) : option bytes :=
  match r with
  | WholeObject => Some body
  | FromByte a => if zlen body <=? a then None else Some (drop (Z.to_nat a) body)
  | FirstToLast a b => if b <? a then Some body else if zlen body <=? a then None else Some (take (Z.to_nat (b - a + 1)) (drop (Z.to_nat a) body))
  end.

Definition mem_get_object (k : bytes) (r : ByteRange) (d : MemS3) : S3Outcome (bytes * bytes) * MemS3 :=
  match next_s3_fault d with
  | (S3Fine, d) =>
      (match mm_bucket d !! k with
       | None => Failure NoSuchKey
       | Some o => match serve_range r (so_body o) with Some out => Success (out, so_etag o) | None => Failure RangeNotSatisfiable end
       end, d)
  | (_, d) => (Failure OtherS3Error, d)
  end.

Definition mem_head (k : bytes) (d : MemS3) : S3Outcome (Z * option bytes) * MemS3 :=
  match next_s3_fault d with
  | (S3Fine, d) => (match mm_bucket d !! k with None => Failure NoSuchKey | Some o => Success (zlen (so_body o), so_write_id o) end, d)
  | (_, d) => (Failure OtherS3Error, d)
  end.

Definition mem_delete_object (k : bytes) (d : MemS3) : option S3Error * MemS3 :=
  let '(r, d) := mem_call (fun d => with_bucket d (delete k (mm_bucket d))) tt d in (failure r, d).

Definition mem_delete_objects (ks : list bytes) (d : MemS3) : S3Outcome (list bytes) * MemS3 :=
  mem_call (fun d => with_bucket d (foldr delete (mm_bucket d) ks)) [] d.

(** The token names the last name shown. *)
Definition token_after (token : bytes) : option bytes := match token with [] => None | _ :: n => Some n end.

#[local] Instance above_decision a n : Decision (above a n).
Proof. destruct a; simpl; apply _. Defined.

Definition mem_names (prefix : bytes) (delimited : bool) (token : bytes) (b : Bucket) : list bytes :=
  merge_sort key_le (remove_dups (filter (above (token_after token)) (listed_names prefix delimited b))).

Definition shown_as_prefix (prefix : bytes) (delimited : bool) (n : bytes) : bool :=
  delimited && match upto_slash (drop (length prefix) n) with Some _ => true | None => false end.

Definition mem_page (prefix : bytes) (delimited : bool) (names : list bytes) : ListPage :=
  let shown := take 2 names in
  {| pg_keys := List.filter (fun n => negb (shown_as_prefix prefix delimited n)) shown;
     pg_prefixes := List.filter (shown_as_prefix prefix delimited) shown;
     pg_truncated := (2 <? length names)%nat;
     pg_token := match last shown with Some n => x74 :: n | None => [] end |}.

Definition mem_list_objects (prefix : bytes) (delimited : bool) (token : bytes) (d : MemS3) : S3Outcome ListPage * MemS3 :=
  match next_s3_fault d with
  | (S3Fine, d) => (Success (mem_page prefix delimited (mem_names prefix delimited token (mm_bucket d))), d)
  | (_, d) => (Failure OtherS3Error, d)
  end.

Definition mem_create_upload (k w : bytes) (d : MemS3) : S3Outcome bytes * MemS3 :=
  let u := next_tag d in
  mem_call (fun d => bumped (with_uploads d (<[u := {| up_key := k; up_write_id := w; up_parts := ∅ |}]> (mm_uploads d)))) u d.

Definition mem_upload_part (k u : bytes) (n : Z) (b : bytes) (d : MemS3) : S3Outcome bytes * MemS3 :=
  match mm_uploads d !! u with
  | None => (Failure OtherS3Error, d)
  | Some up =>
      let t := next_tag d in
      mem_call (fun d => bumped (with_uploads d (<[u := {| up_key := up_key up; up_write_id := up_write_id up; up_parts := <[n := (t, b)]> (up_parts up) |}]> (mm_uploads d)))) t d
  end.

Definition mem_complete_upload (k u : bytes) (parts : list (Z * bytes)) (p : Precondition) (d : MemS3) : option S3Error * MemS3 :=
  if decide (meets p (mm_bucket d !! k)) then
    match mm_uploads d !! u with
    | None => (Some OtherS3Error, d)
    | Some up =>
        match assembled (up_parts up) parts with
        | Some body =>
            if bool_decide (up_key up = k) then
              let o := {| so_body := body; so_write_id := Some (up_write_id up); so_etag := next_tag d |} in
              let '(r, d) := mem_call (fun d => bumped (with_uploads (with_bucket d (<[k := o]> (mm_bucket d))) (delete u (mm_uploads d)))) tt d in (failure r, d)
            else (Some OtherS3Error, d)
        | None => (Some OtherS3Error, d)
        end
    end
  else (Some PreconditionFailed, d).

Definition mem_abort_upload (k u : bytes) (d : MemS3) : bool * MemS3 :=
  let '(r, d) := mem_call (fun d => with_uploads d (delete u (mm_uploads d))) tt d in (match r with Success _ => true | Failure _ => false end, d).

#[export] Instance mem_s3 : S3 MemS3 := {|
  s3_put := mem_put_object; s3_get := mem_get_object; s3_head := mem_head; s3_delete := mem_delete_object; s3_delete_objects := mem_delete_objects;
  s3_list := mem_list_objects; s3_create_upload := mem_create_upload; s3_upload_part := mem_upload_part; s3_complete_upload := mem_complete_upload;
  s3_abort_upload := mem_abort_upload; s3_keys d := size (mm_bucket d)
|}.

(** ** It meets the laws *)

Lemma next_s3_fault_same d f d' : next_s3_fault d = (f, d') -> mm_bucket d' = mm_bucket d /\ mm_uploads d' = mm_uploads d.
Proof. unfold next_s3_fault. destruct (mm_script d); intros [= <- <-]; done. Qed.

Lemma mem_call_spec {A} change (a : A) d r d' : mem_call change a d = (r, d') -> exists d1, mm_bucket d1 = mm_bucket d /\ mm_uploads d1 = mm_uploads d /\
  (r = Success a /\ d' = change d1 \/ r = Failure OtherS3Error /\ (d' = change d1 \/ d' = d1)).
Proof. unfold mem_call. destruct (next_s3_fault d) as [f d1] eqn:E. apply next_s3_fault_same in E as [Hb Hu]. intros H. exists d1. split; [done|]. split; [done|]. destruct f; injection H as <- <-; auto. Qed.

Lemma serve_range_spec r body : match serve_range r body with Some out => in_range r body out | None => past_end r body end.
Proof.
  destruct r as [|a|a b]; simpl; [done| |].
  - destruct (Z.leb_spec (zlen body) a); [done|]. by split.
  - destruct (Z.ltb_spec b a); [simpl; lia|]. destruct (Z.leb_spec (zlen body) a); [done|]. by split.
Qed.

Lemma strictly_sorted l : NoDup l -> StronglySorted key_le l -> StronglySorted key_lt l.
Proof.
  induction l as [|n l IH]; [constructor|]. intros [Hn Hnd]%NoDup_cons H. apply StronglySorted_inv in H as [Hs Hall]. constructor; [by apply IH|].
  rewrite Forall_forall in *. intros m Hm. destruct (proj1 (key_le_lteq n m) (Hall m Hm)) as [? | ->]; [done|]. by destruct Hn.
Qed.

Lemma elem_of_mem_names prefix delimited token b n : n ∈ mem_names prefix delimited token b <-> n ∈ listed_names prefix delimited b /\ above (token_after token) n.
Proof. unfold mem_names. rewrite (merge_sort_Permutation key_le), elem_of_remove_dups, list_elem_of_filter. tauto. Qed.

Lemma page_split prefix delimited names : page_names (mem_page prefix delimited names) ≡ₚ take 2 names.
Proof.
  unfold page_names. simpl. induction (take 2 names) as [|n l IH]; [done|]. simpl. destruct (shown_as_prefix prefix delimited n); simpl; [|by rewrite IH].
  rewrite <- Permutation_middle. by rewrite IH.
Qed.

Lemma elem_of_list_filter_bool {A} (f : A -> bool) l x : x ∈ List.filter f l <-> x ∈ l /\ f x = true.
Proof. by rewrite !list_elem_of_In, filter_In. Qed.

Lemma mem_page_ok prefix delimited token b : page_ok token_after prefix delimited token b (mem_page prefix delimited (mem_names prefix delimited token b)).
Proof.
  set (names := mem_names prefix delimited token b).
  assert (NoDup names) as Hnd by (unfold names, mem_names; rewrite (merge_sort_Permutation key_le); apply NoDup_remove_dups).
  assert (StronglySorted key_lt names) as Hs by (apply strictly_sorted; [done|]; apply (StronglySorted_merge_sort key_le)).
  assert (forall n, n ∈ page_names (mem_page prefix delimited names) <-> n ∈ take 2 names) as Hpg by (intros n; by rewrite page_split).
  assert (forall n, n ∈ take 2 names -> n ∈ names) as Hsub by (intros n Hn; rewrite <- (take_drop 2 names); apply elem_of_app; by left).
  split.
  - intros n Hn%Hpg%Hsub. by apply elem_of_mem_names.
  - intros n Hn Hab. assert (n ∈ names) as Hin by (by apply elem_of_mem_names). rewrite Hpg. cbn [mem_page pg_truncated pg_token]. clear -Hin Hs. destruct names as [|a [|c rest]]; [by left|by left|].
    cbn [take] in *. apply elem_of_cons in Hin as [-> |[-> |Hin]%elem_of_cons]; [left; by left|left; right; by left|right]. split; [destruct rest; [by apply elem_of_nil in Hin|done]|]. simpl.
    apply StronglySorted_inv in Hs as [Hs _]. apply StronglySorted_inv in Hs as [_ Hall]. rewrite Forall_forall in Hall. destruct rest; [by apply elem_of_nil in Hin|]. by apply Hall.
  - intros n [_ Hn]%elem_of_list_filter_bool ->. unfold shown_as_prefix in Hn. simpl in Hn. by destruct (upto_slash _).
  - intros n [_ Hn]%elem_of_list_filter_bool. unfold shown_as_prefix in Hn. apply andb_prop in Hn as [-> Hn]. split; [done|]. by destruct (upto_slash _).
  - rewrite page_split. rewrite <- (take_drop 2 names) in Hnd. by apply NoDup_app in Hnd as [? _].
  - cbn [mem_page pg_truncated pg_token]. intros Hlt. setoid_rewrite Hpg. clear Hpg Hsub. destruct names as [|a [|c rest]]; [done|done|]. simpl. split; [done|]. exists c. split; [right; by left|]. split; [done|].
    apply StronglySorted_inv in Hs as [_ Hall]. apply Forall_cons in Hall as [Hac _]. intros n [-> |[-> |Hn]%elem_of_cons]%elem_of_cons; [|apply key_lt_irrefl|by apply elem_of_nil in Hn].
    intros H. apply (key_lt_irrefl a). by eapply key_lt_trans.
Qed.

Lemma lookup_foldr_delete (ks : list bytes) (b : Bucket) k : foldr delete b ks !! k = if decide (k ∈ ks) then None else b !! k.
Proof.
  induction ks as [|x ks IH]; simpl; [done|]. destruct (decide (k = x)) as [-> |Hne].
  - rewrite lookup_delete_eq, decide_True by (by left). done.
  - rewrite lookup_delete_ne, IH by done. destruct (decide (k ∈ ks)), (decide (k ∈ x :: ks)) as [H|H]; try done; [by destruct H; right|]. by apply elem_of_cons in H as [? |?].
Qed.

#[export] Instance mem_s3_laws : S3Laws mem_s3 mm_bucket mm_uploads token_after.
Proof.
  split; cbn [s3_put s3_get s3_head s3_delete s3_delete_objects s3_list s3_create_upload s3_upload_part s3_complete_upload s3_abort_upload s3_keys mem_s3].
  - intros k p w b d r d'. unfold mem_put_object. destruct (decide _) as [Hm|Hm]; [|by intros [= <- <-]]. intros (d1 & E1 & _ & [[-> ->]|[-> [-> | -> ]]])%mem_call_spec; simpl; rewrite E1; [done| |by left]. right. by eexists.
  - intros k rg d r d'. unfold mem_get_object. destruct (next_s3_fault d) as [f d1] eqn:E. apply next_s3_fault_same in E as [<- _]. destruct f; intros [= <- <-]; (split; [done|]); try done.
    destruct (mm_bucket d1 !! k) as [o|]; [|done]. pose proof (serve_range_spec rg (so_body o)) as H. destruct (serve_range rg (so_body o)); by exists o.
  - intros k d r d'. unfold mem_head. destruct (next_s3_fault d) as [f d1] eqn:E. apply next_s3_fault_same in E as [<- _]. destruct f; intros [= <- <-]; (split; [done|]); try done.
    destruct (mm_bucket d1 !! k) as [o|]; [|done]. intros n w [= <- <-]. by exists o.
  - intros k d e d'. unfold mem_delete_object. destruct (mem_call _ _ d) as [r d0] eqn:E. intros [= <- <-]. apply mem_call_spec in E as (d1 & E1 & _ & [[-> ->]|[-> [-> | -> ]]]); simpl; rewrite E1.
    + split; [by right|]. intros _. by rewrite lookup_delete_eq.
    + split; [by right|]. by intros [|].
    + split; [by left|]. by intros [|].
  - intros ks d r d'. unfold mem_delete_objects. intros (d1 & E1 & _ & [[-> ->]|[-> [-> | -> ]]])%mem_call_spec; simpl; rewrite E1; (split; [|try done]); try (intros k; rewrite lookup_foldr_delete; destruct (decide _); [by right|by left]).
    + intros _ k Hk. by rewrite lookup_foldr_delete, decide_True.
    + by left.
  - intros prefix delimited token d r d'. unfold mem_list_objects. destruct (next_s3_fault d) as [f d1] eqn:E. apply next_s3_fault_same in E as [<- _]. destruct f; intros [= <- <-]; (split; [done|]); try done.
    intros pg [= <-]. apply mem_page_ok.
  - done.
  - intros k w d r d' (d1 & E1 & E2 & [[-> ->]|[-> [-> | -> ]]])%mem_call_spec; simpl; rewrite ?E1; (split; [done|]); try done. intros u [= <-]. by rewrite lookup_insert_eq.
  - intros k u n b d r d' up. unfold mem_upload_part. intros H Hup. rewrite Hup in H. apply mem_call_spec in H as (d1 & E1 & E2 & [[-> ->]|[-> [-> | -> ]]]); simpl; rewrite ?E1; (split; [done|]); try done. intros t [= <-]. by rewrite lookup_insert_eq.
  - intros k u parts p d e d'. unfold mem_complete_upload. destruct (decide _) as [Hm|Hm]; [|by intros [= <- <-]]. destruct (mm_uploads d !! u) as [up|] eqn:Eu; [|intros [= <- <-]; split; [intros ?; congruence|by left]].
    destruct (assembled (up_parts up) parts) as [body|] eqn:Ea; [|intros [= <- <-]; split; [intros ?; congruence|by left]]. case_bool_decide as Ek; [|intros [= <- <-]; split; [intros ?; congruence|by left]].
    destruct (mem_call _ _ d) as [r d0] eqn:E. intros [= <- <-]. apply mem_call_spec in E as (d1 & E1 & E2 & [[-> ->]|[-> [-> | -> ]]]); simpl; rewrite ?E1, ?E2, ?lookup_delete_eq; (split; [try done; intros up' H; congruence|]).
    + split; [done|]. by exists up, body, (next_tag d).
    + right. split; [done|]. by exists up, body, (next_tag d).
    + by left.
  - intros k u d r d'. unfold mem_abort_upload. destruct (mem_call _ _ d) as [r0 d0] eqn:E. intros [= <- <-]. by apply mem_call_spec in E as (d1 & E1 & E2 & [[-> ->]|[-> [-> | -> ]]]).
  - done.
Qed.
