(* ===== verification/S3Blob.v ===== *)
(** * The blob store on S3

    [aws/s3_blob_store.cpp]: every operation over the calls of [S3]. Objects below a threshold are written by one
    conditional put, larger ones in parts; a write whose answer was lost is made again and then recognised by the id
    in its metadata. The ids come from a supply ([fresh_write_id] draws random UUIDs). The bulk client and the point
    client differ in their timeouts only; counters and the client configuration are left out. *)

From S2P Require Import Prelude Slice Blob S3.

(** ** Definitions *)

Definition classify (e : S3Error) : Status := match e with NoSuchKey => NotFound | _ => Io end.

Definition classify_conditional_put (e : S3Error) : Status := match e with PreconditionFailed => Unusable | _ => Io end.

Definition kMinPartBytes : Z := 5 * 2 ^ 20.

Definition kDeleteBatch : nat := 1000.

(** [options.prefix] without its trailing slashes. *)
Fixpoint strip_slashes (reversed : bytes) : bytes :=
  match reversed with
  | c :: rest => if bool_decide (c = x2f) then strip_slashes rest else reversed
  | [] => []
  end.

Definition option_prefix (prefix : bytes) : bytes := rev (strip_slashes (rev prefix)).

(** ["s3://"]. *)
Definition kScheme : bytes := [x73; x33; x3a; x2f; x2f].

(** [open]: the prefix in use and the id the manifest records for the store. *)
Definition s3_open (bucket prefix id : bytes) : Result (bytes * bytes) :=
  if bool_decide (bucket = []) then Unexpected Config
  else
    let prefix := option_prefix prefix in
    Value (prefix, if bool_decide (id = []) then kScheme ++ bucket ++ (if bool_decide (prefix = []) then [] else x2f :: prefix) else id).

Section Store.
Context {D : Type} {s3 : S3 D} (ids : nat -> bytes) (prefix : bytes) (multipart_threshold_bytes multipart_part_bytes : Z).

Definition key_for (name : bytes) : bytes := if bool_decide (prefix = []) then name else prefix ++ x2f :: name.

Definition name_for (key : bytes) : option bytes :=
  if bool_decide (prefix = []) then Some key
  else let expected := prefix ++ [x2f] in
    if ((length key <=? length expected)%nat || negb (starts_with key expected)) then None else Some (drop (length expected) key).

(** The range header a read asks for. *)
Definition range_of (offset : Z) (len : option Z) : ByteRange :=
  match len with
  | Some n => FirstToLast offset (u64 (u64 (offset + n) - 1))
  | None => if offset =? 0 then WholeObject else FromByte offset
  end.

Definition s3_do_get (name : bytes) (offset : Z) (len : option Z) (s : S3Client D) : Result bytes * S3Client D :=
  if negb (is_valid_object_name name) then (Unexpected Config, s)
  else if bool_decide (len = Some 0) then (Value [], s)
  else match on_s3 (s3_get (key_for name) (range_of offset len)) s with
       | (Success (out, _), s) => (Value out, s)
       | (Failure RangeNotSatisfiable, s) => (Value [], s)
       | (Failure e, s) => (Unexpected (classify e), s)
       end.

(** The parts from [offset] on, with the tags they were given; the loop ends with the first that fails. *)
Fixpoint upload_parts (fuel : nat) (key upload part_source : bytes) (part_bytes offset part_number : Z) (d : D) : option (list (Z * bytes)) * D :=
  match fuel with
  | O => (Some [], d)
  | S fuel =>
      if offset <? zlen part_source then
        let len := Z.min part_bytes (zlen part_source - offset) in
        match s3_upload_part key upload part_number (take (Z.to_nat len) (drop (Z.to_nat offset) part_source)) d with
        | (Failure _, d) => (None, d)
        | (Success tag, d) =>
            match upload_parts fuel key upload part_source part_bytes (offset + part_bytes) (part_number + 1) d with
            | (Some rest, d) => (Some ((part_number, tag) :: rest), d)
            | (None, d) => (None, d)
            end
        end
      else (Some [], d)
  end.

Definition abort_upload (key upload : bytes) (s : S3Client D) : S3Client D := (on_s3 (s3_abort_upload key upload) s).2.

Definition multipart_put (name b : bytes) (s : S3Client D) : Status * S3Client D :=
  let key := key_for name in
  let '(write_id, s) := fresh_write_id ids s in
  let part_bytes := Z.max multipart_part_bytes kMinPartBytes in
  match on_s3 (s3_create_upload key write_id) s with
  | (Failure _, s) => (Io, s)
  | (Success upload, s) =>
      match on_s3 (upload_parts (S (length b)) key upload b part_bytes 0 1) s with
      | (None, s) => (Io, abort_upload key upload s)
      | (Some parts, s) =>
          match on_s3 (write_once (s3_complete_upload key upload parts IfNoneMatch) key write_id (zlen b)) s with
          | (None, s) => (Ok, s)
          | (Some e, s) => (classify_conditional_put e, abort_upload key upload s)
          end
      end
  end.

Definition s3_do_put (name b : bytes) (s : S3Client D) : Status * S3Client D :=
  if negb (is_valid_object_name name) then (Config, s)
  else if multipart_threshold_bytes <=? zlen b then multipart_put name b s
  else
    let key := key_for name in
    let '(write_id, s) := fresh_write_id ids s in
    match on_s3 (write_once (put_new key write_id b) key write_id (zlen b)) s with
    | (None, s) => (Ok, s)
    | (Some e, s) => (classify_conditional_put e, s)
    end.

Definition s3_do_remove (name : bytes) (s : S3Client D) : Status * S3Client D :=
  if negb (is_valid_object_name name) then (Config, s)
  else match on_s3 (s3_delete (key_for name)) s with
       | (None, s) => (Ok, s)
       | (Some e, s) => (if bool_decide (classify e = NotFound) then Ok else classify e, s)
       end.

(** Batches of a thousand; the first that cannot be sent or does not go through ends it. *)
Fixpoint remove_batches (fuel : nat) (names : list bytes) (s : S3Client D) : Status * S3Client D :=
  match names, fuel with
  | [], _ | _, O => (Ok, s)
  | _, S fuel =>
      let batch := take kDeleteBatch names in
      if negb (forallb is_valid_object_name batch) then (Config, s)
      else match on_s3 (s3_delete_objects (map key_for batch)) s with
           | (Success [], s) => remove_batches fuel (drop kDeleteBatch names) s
           | (_, s) => (Io, s)
           end
  end.

Definition s3_do_remove_many (names : list bytes) (s : S3Client D) : Status * S3Client D := remove_batches (length names) names s.

Definition list_prefix (p : bytes) : bytes := if bool_decide (p = []) && bool_decide (prefix = []) then [] else key_for p.

Definition s3_do_list (p : bytes) (s : S3Client D) : Result (list bytes) * S3Client D :=
  match on_s3 (list_all (list_prefix p) false) s with
  | (Value pgs, s) => (Value (merge_sort key_le (omap name_for (concat (map pg_keys pgs)))), s)
  | (Unexpected e, s) => (Unexpected e, s)
  end.

#[export] Instance s3_blob_store : BlobStore (S3Client D) :=
  {| bs_put := s3_do_put; bs_get := s3_do_get; bs_remove := s3_do_remove; bs_remove_many := s3_do_remove_many; bs_list := s3_do_list |}.
End Store.

(** ** Keys *)

Section Keys.
Context (prefix : bytes).

Lemma name_for_key name : name <> [] -> name_for prefix (key_for prefix name) = Some name.
Proof.
  intros Hn. unfold name_for, key_for. case_bool_decide as Hp; [done|]. replace (prefix ++ x2f :: name) with ((prefix ++ [x2f]) ++ name) by (by rewrite <- app_assoc).
  rewrite length_app. destruct name as [|c name]; [done|]. destruct (Nat.leb_spec (length (prefix ++ [x2f]) + length (c :: name)) (length (prefix ++ [x2f]))) as [H|H]; [simpl in H; lia|].
  rewrite (proj2 (starts_with_spec _ _)) by (by eexists). simpl. by rewrite drop_app_length.
Qed.

Lemma name_for_inv key name : name_for prefix key = Some name -> key = key_for prefix name.
Proof.
  unfold name_for, key_for. case_bool_decide as Hp; [by intros [= ->]|]. destruct (starts_with key (prefix ++ [x2f])) eqn:E; [|rewrite orb_true_r; done]. apply starts_with_spec in E as [t ->].
  rewrite orb_false_r. destruct (Nat.leb_spec (length ((prefix ++ [x2f]) ++ t)) (length (prefix ++ [x2f]))); [done|]. rewrite drop_app_length. intros [= ->]. by rewrite <- app_assoc.
Qed.

Lemma valid_nonempty n : is_valid_object_name n = true -> n <> [].
Proof. by destruct n. Qed.

Lemma key_for_inj n m : is_valid_object_name n = true -> is_valid_object_name m = true -> key_for prefix n = key_for prefix m -> n = m.
Proof. intros Hn%valid_nonempty Hm%valid_nonempty E. apply name_for_key in Hn. rewrite E, name_for_key in Hn by done. congruence. Qed.

Lemma key_for_starts n p : is_valid_object_name n = true -> starts_with (key_for prefix n) (list_prefix prefix p) = starts_with n p.
Proof.
  intros _. unfold list_prefix, key_for. apply eq_true_iff_eq. rewrite !starts_with_spec. destruct (bool_decide_reflect (prefix = [])) as [-> |Hp].
  - destruct (bool_decide_reflect (p = [])) as [-> |Hq]; simpl; [|done]. done.
  - rewrite andb_false_r. split; intros [t Ht].
    + rewrite <- app_assoc in Ht. apply app_inv_head in Ht. injection Ht as ->. by exists t.
    + exists t. by rewrite Ht, <- app_assoc.
Qed.
End Keys.

(** ** The contract *)

Section Contract.
Context {D : Type} {s3 : S3 D} {bucket : D -> Bucket} {uploads : D -> gmap bytes Upload} {after : bytes -> option bytes} {laws : S3Laws s3 bucket uploads after}.
Context (ids : nat -> bytes) (ids_inj : forall i j, ids i = ids j -> i = j) (prefix : bytes) (threshold part_bytes : Z).

Abbreviation contents s := (bucket (sb_s3 s)).

(** Nothing but objects of the store is under its prefix, and no write id of the future is in use. *)
Record s3_ok (s : S3Client D) : Prop := {
  sk_names : forall k n, is_Some (contents s !! k) -> name_for prefix k = Some n -> is_valid_object_name n = true;
  sk_ids : forall k o j, contents s !! k = Some o -> so_write_id o = Some (ids j) -> (j < sb_ids s)%nat
}.

Definition s3_objects (s : S3Client D) (n : bytes) : option bytes :=
  if is_valid_object_name n then so_body <$> contents s !! key_for prefix n else None.

Lemma s3_same s s' : s3_ok s -> contents s' = contents s -> (sb_ids s <= sb_ids s')%nat -> s3_ok s' /\ forall m, s3_objects s' m = s3_objects s m.
Proof.
  intros [H1 H2] E Hle. split; [split; rewrite E|intros m; unfold s3_objects; by rewrite E]; [exact H1|]. intros k o j Ho Hj. specialize (H2 k o j Ho Hj). lia.
Qed.

(** *** Reads *)

Lemma range_exact offset len body out : readable offset len -> in_range (range_of offset len) body out -> out = read_slice body offset len.
Proof.
  intros [Ho Hl]. unfold range_of, read_slice. destruct len as [n|]; simpl.
  - assert (u64 (u64 (offset + n) - 1) = offset + n - 1) as -> by (unfold u64; rewrite (Z.mod_small (offset + n)), Z.mod_small; lia). intros H. destruct H as [_ ->]; [lia|]. f_equal. lia.
  - destruct (Z.eqb_spec offset 0) as [-> |Hne]; simpl; [by intros ->|]. by intros [_ ->].
Qed.

Lemma range_past offset len body : readable offset len -> past_end (range_of offset len) body -> read_slice body offset len = [].
Proof.
  intros [Ho _]. unfold range_of, read_slice. assert (zlen body <= offset -> drop (Z.to_nat offset) body = []) as H by (intros H; apply drop_ge; unfold zlen in H; lia).
  destruct len as [n|]; simpl; [intros Hp; by rewrite H, take_nil|]. destruct (Z.eqb_spec offset 0); simpl; [done|]. exact H.
Qed.

Lemma s3_get_spec n offset len s r s' : s3_ok s -> readable offset len -> s3_do_get prefix n offset len s = (r, s') ->
  (s3_ok s' /\ forall m, s3_objects s' m = s3_objects s m) /\
  match r with
  | Value out => exists c, s3_objects s n = Some c /\ out = read_slice c offset len
  | Unexpected NotFound => s3_objects s n = None
  | Unexpected _ => True
  end.
Proof using laws.
  intros Hok Hr. unfold s3_do_get, s3_objects at 3 4. destruct (is_valid_object_name n) eqn:Hv; cbn [negb]; [|by intros [= <- <-]].
  rewrite bool_decide_eq_false_2 by (destruct Hr as [_ H]; intros ->; lia). destruct (on_s3 _ s) as [o s1] eqn:E. apply on_s3_spec in E as [E Hi]. apply law_s3_get in E as [Hb H].
  pose proof (s3_same s s1 Hok Hb ltac:(lia)) as Hsame. destruct o as [[out t]|e]; [|destruct e]; intros [= <- <-]; (split; [done|]); try done.
  - destruct H as (o & Ho & _ & Hin). exists (so_body o). rewrite Ho. split; [done|]. by eapply range_exact.
  - cbn. by rewrite H.
  - destruct H as (o & Ho & Hp). exists (so_body o). rewrite Ho. split; [done|]. symmetry. by eapply range_past.
Qed.

(** *** Uploads in parts *)

Lemma upload_parts_spec key u b pb fuel : 0 < pb -> forall offset number d r d' up, 0 <= offset -> (zlen b - offset < Z.of_nat fuel) -> uploads d !! u = Some up ->
  upload_parts fuel key u b pb offset number d = (r, d') -> bucket d' = bucket d /\
  forall parts, r = Some parts -> exists up', uploads d' !! u = Some up' /\ up_key up' = up_key up /\ up_write_id up' = up_write_id up /\
    (forall n, n < number -> up_parts up' !! n = up_parts up !! n) /\ assembled (up_parts up') parts = Some (drop (Z.to_nat offset) b).
Proof using laws.
  intros Hpb. induction fuel as [|fuel IH]; intros offset number d r d' up Ho Hf Hup; cbn [upload_parts].
  { intros [= <- <-]. split; [done|]. intros parts [= <-]. exists up. split_and!; try done. cbn. by rewrite drop_ge by (unfold zlen in Hf; lia). }
  destruct (Z.ltb_spec offset (zlen b)) as [Hlt|Hge].
  2:{ intros [= <- <-]. split; [done|]. intros parts [= <-]. exists up. split_and!; try done. cbn. by rewrite drop_ge by (unfold zlen in Hge; lia). }
  set (piece := take _ _). destruct (s3_upload_part key u number piece d) as [[tag|e] d1] eqn:E; pose proof (law_s3_part _ _ _ _ _ _ _ _ E Hup) as [Hb1 H1]; [|intros [= <- <-]; by split].
  specialize (H1 tag eq_refl). destruct (upload_parts fuel key u b pb (offset + pb) (number + 1) d1) as [r2 d2] eqn:E2. destruct (IH (offset + pb) (number + 1) d1 r2 d2 _ ltac:(lia) ltac:(lia) H1 E2) as [Hb2 H2].
  destruct r2 as [rest|]; intros [= <- <-]; (split; [congruence|]); [|done]. intros parts [= <-]. destruct (H2 rest eq_refl) as (up' & Hu' & Hk & Hw & Hold & Hasm). cbn [up_key up_write_id up_parts] in *.
  exists up'. split_and!; try done.
  - intros n Hn. rewrite Hold, lookup_insert_ne by lia. done.
  - cbn [assembled]. rewrite Hold, lookup_insert_eq, bool_decide_eq_true_2, Hasm by (done || lia). cbn. f_equal. unfold piece. rewrite <- (take_drop (Z.to_nat (Z.min pb (zlen b - offset))) (drop (Z.to_nat offset) b)) at 2.
    f_equal. rewrite drop_drop. destruct (Z.min_spec pb (zlen b - offset)) as [[? ->]|[? ->]]; [f_equal; lia|]. rewrite !drop_ge by (unfold zlen in *; lia). done.
Qed.

(** *** Writes *)

Definition s3_put_leaves (n b : bytes) (s : S3Client D) (r : Status) (s' : S3Client D) : Prop :=
  let same := contents s' = contents s in
  let landed := is_valid_object_name n = true /\ lands (bucket := bucket) (key_for prefix n) (ids (sb_ids s)) b (sb_s3 s) (sb_s3 s') in
  (sb_ids s <= sb_ids s')%nat /\ (same \/ landed /\ sb_ids s' = S (sb_ids s)) /\ (r = Ok -> landed) /\ (r = Unusable -> is_valid_object_name n = true /\ contents s' !! key_for prefix n <> None).

Lemma no_such_id s key o : s3_ok s -> contents s !! key = Some o -> so_write_id o <> Some (ids (sb_ids s)).
Proof. intros [_ H] Ho Hw. specialize (H _ _ _ Ho Hw). lia. Qed.

Lemma written_leaves n b s e s' : is_valid_object_name n = true -> sb_ids s' = S (sb_ids s) -> written_once (bucket := bucket) (key_for prefix n) (ids (sb_ids s)) b (sb_s3 s) e (sb_s3 s') ->
  s3_put_leaves n b s (match e with None => Ok | Some e => classify_conditional_put e end) s'.
Proof.
  intros Hv Hi H. split; [lia|]. destruct e as [e|]; cbn in H.
  - destruct H as [H Ht]. split; [destruct H as [H|H]; [by left|right; by split_and!]|]. split; [by destruct e|]. intros Hr. split; [done|]. apply Ht. by destruct e.
  - split; [right; by split_and!|]. by split.
Qed.

Lemma multipart_put_spec n b s r s' : s3_ok s -> is_valid_object_name n = true -> multipart_put ids prefix part_bytes n b s = (r, s') -> s3_put_leaves n b s r s'.
Proof using laws.
  intros Hok Hv. unfold multipart_put, fresh_write_id. set (wid := ids (sb_ids s)). set (s1 := {| sb_s3 := sb_s3 s; sb_ids := S (sb_ids s) |}).
  assert (forall s2, contents s2 = contents s -> sb_ids s2 = S (sb_ids s) -> s3_put_leaves n b s Io s2) as Hfail by (intros s2 E1 E2; split; [lia|]; split; [by left|done]).
  assert (forall key u s2 s3', abort_upload key u s2 = s3' -> contents s3' = contents s2 /\ sb_ids s3' = sb_ids s2) as Habort.
  { intros key u s2 s3'. unfold abort_upload. destruct (on_s3 _ s2) as [x s4] eqn:E. apply on_s3_spec in E as [E Hi]. intros <-. by apply law_s3_abort in E. }
  destruct (on_s3 _ s1) as [[u|e] s2] eqn:E1; apply on_s3_spec in E1 as [E1 I1]; apply law_s3_create in E1 as [Hb1 Hu1]; cbn [sb_s3 sb_ids s1] in *; [|intros [= <- <-]; by apply Hfail].
  specialize (Hu1 u eq_refl). destruct (on_s3 _ s2) as [parts s3'] eqn:E2. apply on_s3_spec in E2 as [E2 I2].
  destruct (upload_parts_spec _ u b (Z.max part_bytes kMinPartBytes) (S (length b)) ltac:(unfold kMinPartBytes; lia) 0 1 (sb_s3 s2) parts (sb_s3 s3') _ ltac:(lia) ltac:(unfold zlen; lia) Hu1 E2) as [Hb2 Hp].
  destruct parts as [parts|].
  2:{ intros [= <- <-]. destruct (Habort (key_for prefix n) u s3' _ eq_refl) as [? ?]. apply Hfail; congruence. }
  destruct (Hp parts eq_refl) as (up & Hup & Hk & Hw & _ & Hasm). cbn [up_key up_write_id drop Z.to_nat] in *. rewrite drop_0 in Hasm.
  destruct (on_s3 _ s3') as [e s4] eqn:E3. apply on_s3_spec in E3 as [E3 I3].
  assert (written_once (bucket := bucket) (key_for prefix n) wid b (sb_s3 s3') e (sb_s3 s4)) as Hwritten.
  { refine (write_once_spec (fun d => forall up', uploads d !! u = Some up' -> up' = up) _ _ _ _ _ _ _ _ _ _ E3).
    - intros d e0 d' HI E0. apply law_s3_complete in E0 as [Hstays H0]. split; [intros up' H'; by apply HI, Hstays|].
      assert (meets IfNoneMatch (bucket d !! key_for prefix n) /\ (exists up0 body t, uploads d !! u = Some up0 /\ up_key up0 = key_for prefix n /\ assembled (up_parts up0) parts = Some body /\
        bucket d' = <[key_for prefix n := {| so_body := body; so_write_id := Some (up_write_id up0); so_etag := t |}]> (bucket d)) -> lands (bucket := bucket) (key_for prefix n) wid b d d') as Hl.
      { intros [Hm (up0 & body & t & H1 & _ & H2 & H3)]. apply HI in H1 as ->. split; [exact Hm|]. exists t. rewrite H3, Hw. by rewrite Hasm in H2; injection H2 as ->. }
      destruct e0 as [[]|]; cbn; try (destruct H0 as [H0|H0]; [by left|right; by apply Hl]); [exact H0|by apply Hl].
    - intros o Ho. apply (no_such_id s (key_for prefix n) o Hok). by rewrite <- Hb1, <- Hb2.
    - intros up' H'. congruence. }
  assert (written_once (bucket := bucket) (key_for prefix n) wid b (sb_s3 s) e (sb_s3 s4)) as Hwritten' by (unfold written_once, lands in *; by rewrite <- Hb1, <- Hb2).
  assert (forall s5, contents s5 = contents s4 -> sb_ids s5 = sb_ids s4 -> s3_put_leaves n b s (match e with None => Ok | Some e => classify_conditional_put e end) s5) as Hdone.
  { intros s5 Ec Ei. apply written_leaves; [done|congruence|]. unfold written_once, lands in *. by rewrite Ec. }
  destruct e as [e|]; intros [= <- <-]; [|by apply Hdone]. destruct (Habort (key_for prefix n) u s4 _ eq_refl) as [? ?]. by apply Hdone.
Qed.

Lemma s3_put_spec n b s r s' : s3_ok s -> s3_do_put ids prefix threshold part_bytes n b s = (r, s') -> s3_put_leaves n b s r s'.
Proof using laws.
  intros Hok. unfold s3_do_put. destruct (is_valid_object_name n) eqn:Hv; cbn [negb]; [|intros [= <- <-]; split; [lia|]; split; [by left|done]].
  destruct (threshold <=? zlen b); [by apply multipart_put_spec|]. unfold fresh_write_id. destruct (on_s3 _ _) as [e s1] eqn:E. apply on_s3_spec in E as [E Hi]. cbn [sb_s3 sb_ids] in *.
  assert (written_once (bucket := bucket) (key_for prefix n) (ids (sb_ids s)) b (sb_s3 s) e (sb_s3 s1)) as Hw.
  { refine (write_once_spec (fun _ => True) _ _ _ _ _ _ _ _ _ I E); [|intros o Ho; by eapply no_such_id]. intros d e0 d' _ E0. split; [done|]. by apply put_new_spec. }
  intros H. replace r with (match e with None => Ok | Some e => classify_conditional_put e end) by (destruct e; by injection H). assert (s' = s1) as -> by (destruct e; by injection H). by apply written_leaves.
Qed.

Lemma s3_put_keeps n b s r s' : s3_ok s -> s3_put_leaves n b s r s' -> s3_ok s' /\ forall m, m <> n \/ s3_objects s m <> None -> s3_objects s' m = s3_objects s m.
Proof using ids_inj.
  intros Hok (Hle & H & _). destruct H as [E|[(Hv & Hfree & t & E) Hi]]; [destruct (s3_same s s' Hok E Hle) as [? Hs]; split; [done|intros m _; apply Hs]|]. split.
  - split; rewrite E.
    + intros k m Hk Hm. destruct (decide (k = key_for prefix n)) as [-> |Hne]; [|rewrite lookup_insert_ne in Hk by done; by apply (sk_names _ Hok k m)].
      rewrite name_for_key in Hm by (by apply valid_nonempty). by injection Hm as <-.
    + intros k o j. destruct (decide (k = key_for prefix n)) as [-> |Hne]; [rewrite lookup_insert_eq; intros [= <-] [= Hj]; apply ids_inj in Hj; lia|].
      rewrite lookup_insert_ne by done. intros Ho Hj. pose proof (sk_ids _ Hok k o j Ho Hj). lia.
  - intros m Hm. unfold s3_objects in *. destruct (is_valid_object_name m) eqn:Hvm; [|done]. rewrite E, lookup_insert_ne; [done|]. intros Ek. apply key_for_inj in Ek as <-; [|done|done].
    destruct Hm as [|Hm]; [done|]. by rewrite Hfree in Hm.
Qed.

(** *** Removals *)

Lemma s3_gone s s' (touched : list bytes) : s3_ok s -> sb_ids s' = sb_ids s -> Forall (fun n => is_valid_object_name n = true) touched ->
  (forall k, contents s' !! k = contents s !! k \/ k ∈ map (key_for prefix) touched /\ contents s' !! k = None) ->
  s3_ok s' /\ forall m, s3_objects s' m = s3_objects s m \/ m ∈ touched /\ s3_objects s' m = None.
Proof.
  intros Hok Hi Hval H. split.
  - split.
    + intros k n [o Ho]. destruct (H k) as [E|[_ E]]; [|congruence]. rewrite Ho in E. apply (sk_names _ Hok k n). by rewrite <- E.
    + intros k o j Ho. destruct (H k) as [E|[_ E]]; [|congruence]. rewrite Ho in E. rewrite Hi. by apply (sk_ids _ Hok k o j).
  - intros m. unfold s3_objects. destruct (is_valid_object_name m) eqn:Hv; [|by left]. destruct (H (key_for prefix m)) as [-> |[Hin ->]]; [by left|right]. split; [|done].
    apply list_elem_of_fmap in Hin as (n & E & Hn). rewrite Forall_forall in Hval. apply key_for_inj in E as ->; [done|done|by apply Hval].
Qed.

Lemma s3_remove_spec n s r s' : s3_ok s -> s3_do_remove prefix n s = (r, s') ->
  s3_ok s' /\ (r = Ok -> s3_objects s' n = None) /\ forall m, s3_objects s' m = s3_objects s m \/ m = n /\ s3_objects s' m = None.
Proof using laws.
  intros Hok. unfold s3_do_remove. destruct (is_valid_object_name n) eqn:Hv; cbn [negb]; [|intros [= <- <-]; split; [done|]; split; [done|by left]].
  destruct (on_s3 _ s) as [e s1] eqn:E. apply on_s3_spec in E as [E Hi]. apply law_s3_delete in E as [Hb Hg].
  assert (s' = s1 -> (e = None \/ e = Some NoSuchKey \/ r <> Ok) -> s3_ok s' /\ (r = Ok -> s3_objects s' n = None) /\ forall m, s3_objects s' m = s3_objects s m \/ m = n /\ s3_objects s' m = None) as Hdone.
  { intros -> He. destruct (s3_gone s s1 [n] Hok Hi) as [H1 H2]; [by constructor| |].
    - intros k. destruct Hb as [-> | ->]; [by left|]. destruct (decide (k = key_for prefix n)) as [-> |Hne]; [right; split; [by left|by rewrite lookup_delete_eq]|left; by rewrite lookup_delete_ne].
    - split; [done|]. split; [|intros m; destruct (H2 m) as [|[->%list_elem_of_singleton ?]]; auto]. intros ->. unfold s3_objects. rewrite Hv, Hg; [done|]. destruct He as [|[|]]; auto; done. }
  destruct e as [e|]; intros [= Hr Hs]; [|apply Hdone; auto]. apply Hdone; [done|]. destruct e; cbn [classify] in Hr; auto; right; right; rewrite bool_decide_eq_false_2 in Hr by done; by subst r.
Qed.

Lemma remove_batches_spec fuel : forall names s r s', (length names <= fuel)%nat -> s3_ok s -> remove_batches prefix fuel names s = (r, s') ->
  s3_ok s' /\ (r = Ok -> forall n, n ∈ names -> s3_objects s' n = None) /\ forall m, s3_objects s' m = s3_objects s m \/ m ∈ names /\ s3_objects s' m = None.
Proof using laws.
  induction fuel as [|fuel IH]; intros names s r s' Hlen Hok.
  { destruct names; [|cbn in Hlen; lia]. intros [= <- <-]. split; [done|]. split; [intros _ n Hn; by apply elem_of_nil in Hn|by left]. }
  destruct names as [|x names]; [intros [= <- <-]; split; [done|]; split; [intros _ n Hn; by apply elem_of_nil in Hn|by left]|]. set (l := x :: names) in *. change (remove_batches prefix (S fuel) l s) with
    (let batch := take kDeleteBatch l in if negb (forallb is_valid_object_name batch) then (Config, s) else match on_s3 (s3_delete_objects (map (key_for prefix) batch)) s with
       | (Success [], s) => remove_batches prefix fuel (drop kDeleteBatch l) s | (_, s) => (Io, s) end). cbv zeta.
  destruct (forallb is_valid_object_name (take kDeleteBatch l)) eqn:Hval; cbn [negb]; [|intros [= <- <-]; split; [done|]; split; [done|by left]].
  rewrite forallb_forall in Hval. assert (Forall (fun n => is_valid_object_name n = true) (take kDeleteBatch l)) as Hall by (apply Forall_forall; intros n Hn; by apply Hval, list_elem_of_In).
  assert (forall n, n ∈ take kDeleteBatch l -> n ∈ l) as Hsub by (intros n Hn; rewrite <- (take_drop kDeleteBatch l); apply elem_of_app; by left).
  destruct (on_s3 _ s) as [o s1] eqn:E. apply on_s3_spec in E as [E Hi]. apply law_s3_delete_objects in E as [Hf Hg]. destruct (s3_gone s s1 _ Hok Hi Hall Hf) as [Hok1 H1].
  assert ((Io, s1) = (r, s') -> s3_ok s' /\ (r = Ok -> forall n, n ∈ l -> s3_objects s' n = None) /\ forall m, s3_objects s' m = s3_objects s m \/ m ∈ l /\ s3_objects s' m = None) as Hfail.
  { intros [= <- <-]. split; [done|]. split; [done|]. intros m. destruct (H1 m) as [|[? ?]]; [by left|right; auto]. }
  destruct o as [[|? ?]|]; [|exact Hfail|exact Hfail]. intros H. apply IH in H as (Hok2 & Hgone & H2); [| |done].
  - split; [done|].
    assert (forall n, n ∈ take kDeleteBatch l -> s3_objects s' n = None) as Hfirst.
    { intros n Hn. assert (s3_objects s1 n = None) as Hnone by (unfold s3_objects; rewrite Hval by (by apply list_elem_of_In); rewrite (Hg eq_refl); [done|]; by apply list_elem_of_fmap_2). destruct (H2 n) as [-> |[_ ?]]; done. }
    split; [intros -> n Hn; rewrite <- (take_drop kDeleteBatch l) in Hn; apply elem_of_app in Hn as [Hn|Hn]; auto|]. intros m.
    destruct (H2 m) as [-> |[Hm ?]]; [|right; split; [|done]; rewrite <- (take_drop kDeleteBatch l); apply elem_of_app; by right]. destruct (H1 m) as [|[? ?]]; [by left|right; auto].
  - rewrite length_drop. unfold l, kDeleteBatch in *. cbn [length] in *. lia.
Qed.

(** *** Listings *)

Lemma s3_list_spec p s r s' : s3_ok s -> s3_do_list prefix p s = (r, s') -> (s3_ok s' /\ forall m, s3_objects s' m = s3_objects s m) /\
  forall ns, r = Value ns -> forall m, m ∈ ns <-> s3_objects s m <> None /\ starts_with m p = true.
Proof using laws.
  intros Hok. unfold s3_do_list. destruct (on_s3 _ s) as [o s1] eqn:E. apply on_s3_spec in E as [E Hi].
  destruct o as [pgs|e]; intros [= <- <-]; [|apply list_all_spec in E as [Hb _]; split; [by apply s3_same; [| |lia]|done]].
  apply list_all_keys in E as (Hb & _ & Hin). split; [by apply s3_same; [| |lia]|]. intros ns [= <-] m. rewrite (merge_sort_Permutation key_le), list_elem_of_omap. unfold s3_objects. split.
  - intros (k & Hk & En). apply Hin in Hk as [Ho Hst]. pose proof (sk_names _ Hok k m Ho En) as Hv. rewrite Hv. apply name_for_inv in En as ->. rewrite key_for_starts in Hst by done. split; [|done]. destruct Ho as [o ->]. done.
  - intros [Ho Hst]. destruct (is_valid_object_name m) eqn:Hv; [|done]. exists (key_for prefix m). split; [|apply name_for_key; by apply valid_nonempty]. apply Hin. rewrite key_for_starts by done. split; [|done].
    destruct (contents s !! key_for prefix m) eqn:Eo; [by eexists|done].
Qed.

(** The store on S3 keeps the contract of [BlobStore], so that everything proved of a store holds of it and of a
    cache in front of it. *)
#[export] Instance s3_blob_laws : BlobStoreLaws (s3_blob_store ids prefix threshold part_bytes) s3_ok s3_objects.
Proof using ids_inj laws.
  split; cbn [bs_put bs_get bs_remove bs_remove_many bs_list s3_blob_store].
  - intros n s c _. unfold s3_objects. by destruct (is_valid_object_name n).
  - intros n b s s' Hok H. apply s3_put_spec in H as (_ & _ & H & _); [|done]. destruct (H eq_refl) as (Hv & Hfree & t & E). unfold s3_objects. by rewrite Hv, Hfree, E, lookup_insert_eq.
  - intros n b s s' Hok H. apply s3_put_spec in H as (_ & _ & _ & H); [|done]. destruct (H eq_refl) as (Hv & Ht). unfold s3_objects. rewrite Hv. by destruct (contents s' !! _).
  - intros n b s r s' m Hok H Hm. apply s3_put_spec in H; [|done]. by apply (s3_put_keeps n b s r s').
  - intros n b s r s' Hok H. apply s3_put_spec in H; [|done]. by apply (s3_put_keeps n b s r s').
  - intros n off len s out s' Hok Hr H. by apply s3_get_spec in H as [_ ?].
  - intros n off len s s' Hok Hr H. by apply s3_get_spec in H as [_ ?].
  - intros n off len s r s' Hok Hr H. by apply s3_get_spec in H as [? _].
  - intros n s s' Hok H. apply s3_remove_spec in H as (_ & H & _); [|done]. by apply H.
  - intros n s r s' m Hok H. by apply s3_remove_spec in H as (_ & _ & ?).
  - intros n s r s' Hok H. by apply s3_remove_spec in H as (? & _).
  - intros ns s s' Hok H. apply remove_batches_spec in H as (_ & H & _); [by apply H|done|done].
  - intros ns s r s' m Hok H. by apply remove_batches_spec in H as (_ & _ & ?).
  - intros ns s r s' Hok H. by apply remove_batches_spec in H as (? & _).
  - intros p s ns s' Hok H. apply s3_list_spec in H as [_ H]; [|done]. by apply H.
  - intros p s r s' Hok H. by apply s3_list_spec in H as [? _].
Qed.
End Contract.
