(* ===== verification/S3Cached.v ===== *)
(** * Objects on S3 behind a cache

    The blob store of [S3Blob] under a cache layer of [CacheStore], composed by their contracts: an acknowledged
    object reads back. Then the layers on a bucket that loses answers, and two runs where the store does not do what
    its interface says. *)

From S2P Require Import Prelude Slice Blob RangeCache CacheStore Budget MemoryCache S3 S3Mem S3Blob.

(** A call that does not remove the object, with a range a request can carry. *)
Definition spares (n : bytes) (o : CacheOp) : Prop :=
  op_readable o /\ match o with CRemove m => m <> n | CRemoveMany names => n ∉ names | _ => True end.

(** ** Any store behind a cache *)

Section Behind.
Context {S P : Type} {blob : BlobStore S} {ok : S -> Prop} {objects : S -> bytes -> option bytes} {laws : BlobStoreLaws blob ok objects}.
Context {pay : Payload P} {pok : P -> Prop} {held : P -> nat -> bytes -> Z -> option bytes} {plaws : PayloadLaws pay pok held}.
Context (max_cache_bytes : Z) (cache_on_write : bool) (fetch_granularity : Z) (hash : bytes -> Z).
Context (Hmax : 0 <= max_cache_bytes < 2 ^ 63) (Hgran : 0 <= fetch_granularity < 2 ^ 64).

Abbreviation good := (cache_ok (ok := ok) (objects := objects) (pok := pok) (held := held) max_cache_bytes hash).
Abbreviation run := (run_cache_op max_cache_bytes cache_on_write fetch_granularity hash).
Abbreviation cache := (cache_store max_cache_bytes cache_on_write fetch_granularity hash).

#[local] Instance behind_laws : BlobStoreLaws cache good (cache_objects (objects := objects)) := cache_laws max_cache_bytes cache_on_write fetch_granularity hash Hmax Hgran.

Lemma spared_stays n b s o : good s -> spares n o -> cache_objects (objects := objects) s n = Some b -> good (run s o) /\ cache_objects (objects := objects) (run s o) n = Some b.
Proof using Hmax Hgran laws plaws.
  intros Hs [Hr Hn] Hb. split; [by apply run_cache_op_ok|]. destruct o as [m c|m offset len|m|names|p|m]; cbn [run_cache_op].
  - destruct (cache_put _ _ _ m c s) as [r s'] eqn:E. rewrite <- Hb. eapply (law_put_frame (BlobStoreLaws := behind_laws)); [exact Hs|exact E|right; by rewrite Hb].
  - destruct (serve_get _ _ _ m offset len s) as [r s'] eqn:E. rewrite <- Hb. by apply (law_get_frame (BlobStoreLaws := behind_laws) _ _ _ _ _ _ Hs Hr E).
  - destruct (cache_remove hash m s) as [r s'] eqn:E. rewrite <- Hb. by destruct (law_remove_frame (BlobStoreLaws := behind_laws) _ _ _ _ n Hs E) as [|[? _]].
  - destruct (cache_remove_many hash names s) as [r s'] eqn:E. rewrite <- Hb. by destruct (law_remove_many_frame (BlobStoreLaws := behind_laws) _ _ _ _ n Hs E) as [|[? _]].
  - destruct (cache_list p s) as [r s'] eqn:E. rewrite <- Hb. by apply (law_list_frame (BlobStoreLaws := behind_laws) _ _ _ _ Hs E).
  - unfold cache_objects. by rewrite (proj1 (proj2 (invalidate_keeps max_cache_bytes hash Hmax m s Hs))).
Qed.

Lemma spared_run n b l : forall s, good s -> Forall (spares n) l -> cache_objects (objects := objects) s n = Some b ->
  good (fold_left run l s) /\ cache_objects (objects := objects) (fold_left run l s) n = Some b.
Proof using Hmax Hgran laws plaws.
  induction l as [|o l IH]; intros s Hs Hl Hb; [done|]. apply Forall_cons in Hl as [Ho Hl]. cbn [fold_left]. destruct (spared_stays n b s o Hs Ho Hb). by apply IH.
Qed.

(** What was acknowledged is read back, or an error that does not say it is missing. *)
Lemma acknowledged_reads_back n b s s1 l offset len : good s -> cache_put max_cache_bytes cache_on_write hash n b s = (Ok, s1) -> Forall (spares n) l -> readable offset len ->
  match (serve_get max_cache_bytes fetch_granularity hash n offset len (fold_left run l s1)).1 with Value out => out = read_slice b offset len | Unexpected e => e <> NotFound end.
Proof using Hmax Hgran laws plaws.
  intros Hs Hput Hl Hr. pose proof (law_put_keeps (BlobStoreLaws := behind_laws) _ _ _ _ _ Hs Hput) as Hs1. pose proof (law_put_ok (BlobStoreLaws := behind_laws) _ _ _ _ Hs Hput) as [_ Hb].
  destruct (spared_run n b l s1 Hs1 Hl Hb) as [Hs2 Hb2]. destruct (serve_get _ _ _ n offset len _) as [r s'] eqn:E. cbn [fst]. destruct r as [out|e].
  - destruct (law_get_ok (BlobStoreLaws := behind_laws) _ _ _ _ _ _ Hs2 Hr E) as (c & Hc & ->). rewrite Hb2 in Hc. by injection Hc as ->.
  - intros ->. pose proof (law_get_missing (BlobStoreLaws := behind_laws) _ _ _ _ _ Hs2 Hr E). congruence.
Qed.
End Behind.

(** ** S3 behind a cache *)

Section OnS3.
Context {D : Type} {s3 : S3 D} {bucket : D -> Bucket} {uploads : D -> gmap bytes Upload} {after : bytes -> option bytes} {laws : S3Laws s3 bucket uploads after}.
Context {P : Type} {pay : Payload P} {pok : P -> Prop} {held : P -> nat -> bytes -> Z -> option bytes} {plaws : PayloadLaws pay pok held}.
Context (ids : nat -> bytes) (ids_inj : forall i j, ids i = ids j -> i = j) (prefix : bytes) (threshold part_bytes : Z).
Context (max_cache_bytes : Z) (cache_on_write : bool) (fetch_granularity : Z) (hash : bytes -> Z).
Context (Hmax : 0 <= max_cache_bytes < 2 ^ 63) (Hgran : 0 <= fetch_granularity < 2 ^ 64).

#[local] Instance remote : BlobStore (S3Client D) := s3_blob_store ids prefix threshold part_bytes.
#[local] Instance remote_laws : BlobStoreLaws remote (s3_ok (bucket := bucket) ids prefix) (s3_objects (bucket := bucket) prefix) := s3_blob_laws ids ids_inj prefix threshold part_bytes.

(** C15: An object put on S3, in one piece or in parts, through a cache layer, and acknowledged, reads back: after any
    further reads, writes, listings, invalidations and removals of other objects, whatever calls of the service
    fail, also after they were applied, and whatever the cache loses, a read of any range answers the bytes that
    were put, or an error that is not [NotFound]. *)
Theorem s3_object_reads_back d p before n b s1 l offset len :
  s3_ok (bucket := bucket) ids prefix d -> pok p -> Forall op_readable before ->
  let run := run_cache_op max_cache_bytes cache_on_write fetch_granularity hash in
  cache_put max_cache_bytes cache_on_write hash n b (fold_left run before (new_cache max_cache_bytes d p)) = (Ok, s1) ->
  Forall (spares n) l -> readable offset len ->
  match (serve_get max_cache_bytes fetch_granularity hash n offset len (fold_left run l s1)).1 with Value out => out = read_slice b offset len | Unexpected e => e <> NotFound end.
Proof using Hmax Hgran ids_inj laws plaws.
  intros Hd Hp Hb run Hput Hl Hr. eapply (acknowledged_reads_back (laws := remote_laws)); [exact Hmax|exact Hgran| |exact Hput|exact Hl|exact Hr].
  apply (run_cache_ok (laws := remote_laws)); [exact Hmax|exact Hgran| |exact Hb]. by apply new_cache_ok.
Qed.
End OnS3.

(** ** On a bucket that loses answers *)

Definition counted_ids (i : nat) : bytes := replicate i x31.

Lemma counted_ids_inj i j : counted_ids i = counted_ids j -> i = j.
Proof. intros H. apply (f_equal length) in H. unfold counted_ids in H. by rewrite !length_replicate in H. Qed.

Definition on_bucket (script : list S3Fault) : S3Client MemS3 := {| sb_s3 := empty_bucket script; sb_ids := 0 |}.

Lemma on_bucket_ok prefix script : s3_ok (bucket := mm_bucket) counted_ids prefix (on_bucket script).
Proof. split; cbn [on_bucket sb_s3 empty_bucket mm_bucket sb_ids]; [intros k n [o Ho]|intros k o j Ho]; by rewrite lookup_empty in Ho. Qed.

(** The answer to the first put is lost, and that to the completion of an upload; a removal fails. Objects of six bytes go up in parts. *)
Definition flaky : list S3Fault := [S3Lost; S3Fine; S3Fine; S3Fine; S3Fine; S3Lost; S3Fine; S3Dropped].

#[local] Instance on_mem_s3 : BlobStore (S3Client MemS3) := s3_blob_store counted_ids [x70] 6 1.

Lemma s3_object_reads_back_witness :
  let run := run_cache_op 100 false 4 (fun _ => 0) in
  let start := new_cache 100 (on_bucket flaky) {| mp_shards := ∅; mp_budget := None |} in
  let '(status, s1) := cache_put 100 false (fun _ => 0) [x62] [x01; x02; x03] start in
  let l := [CGet [x62] 1 (Some 1); CPut [x63] [x01; x02; x03; x04; x05; x06; x07]; CRemove [x61]; CRemoveMany [[x64]; [x65]]; CPut [x62] [x09]] in
  status = Ok /\ (serve_get 100 4 (fun _ => 0) [x62] 1 None (fold_left run l s1)).1 = Value [x02; x03] /\
  (serve_get 100 4 (fun _ => 0) [x63] 0 None (fold_left run l s1)).1 = Value [x01; x02; x03; x04; x05; x06; x07].
Proof.
  cbv zeta. set (start := new_cache _ _ _). destruct (cache_put 100 false (fun _ => 0) [x62] [x01; x02; x03] start) as [status s1] eqn:Hput. assert (status = Ok) as ->.
  { assert ((cache_put 100 false (fun _ => 0) [x62] [x01; x02; x03] start).1 = Ok) as E by (vm_compute; reflexivity). by rewrite Hput in E. }
  set (l := [_; _; _; _; _]). split; [done|].
  pose proof (s3_object_reads_back (laws := mem_s3_laws) (plaws := memory_payload_laws) counted_ids counted_ids_inj [x70] 6 1 100 false 4 (fun _ => 0) ltac:(lia) ltac:(lia) (on_bucket flaky) {| mp_shards := ∅; mp_budget := None |} [] [x62] [x01; x02; x03] s1 l 1 None
    (on_bucket_ok [x70] flaky) I ltac:(apply Forall_nil; exact I) Hput) as H.
  assert (Forall (spares [x62]) l) as Hl.
  { repeat apply Forall_cons_2; try (by apply Forall_nil); (split; [try exact I|try exact I]); [cbn; unfold readable; lia|discriminate|]. apply (bool_decide_unpack _). by vm_compute. }
  specialize (H Hl ltac:(unfold readable; lia)). cbv zeta in H. assert (s1 = (cache_put 100 false (fun _ => 0) [x62] [x01; x02; x03] start).2) as -> by (by rewrite Hput).
  split; [|vm_compute; reflexivity]. assert (exists b, (serve_get 100 4 (fun _ => 0) [x62] 1 None (fold_left (run_cache_op 100 false 4 (fun _ => 0)) l (cache_put 100 false (fun _ => 0) [x62] [x01; x02; x03] start).2)).1 = Value b) as [b Hb] by (eexists; vm_compute; reflexivity).
  change (remote counted_ids [x70] 6 1) with on_mem_s3 in H. rewrite Hb in H |- *. rewrite H. vm_compute. reflexivity.
Defined.

(** ** What the store does otherwise *)

(** A put is applied and its answer lost; the second finds the name taken, by the first, and the look at the object
    fails. The answer is that the name was taken, but what is under it is what was put. *)
Theorem own_write_reported_taken :
  let '(status, s) := bs_put [x62] [x01] (on_bucket [S3Lost; S3Dropped]) in
  status = Unusable /\ s3_objects (bucket := mm_bucket) [x70] (on_bucket []) [x62] = None /\ s3_objects (bucket := mm_bucket) [x70] s [x62] = Some [x01].
Proof. vm_compute. repeat split. Qed.

(** The interface attempts every name of a batch; here a malformed name shields the one before it. *)
Theorem malformed_name_shields_batch :
  let s := (bs_put [x62] [x01] (on_bucket [])).2 in
  (bs_remove_many [[x62]; [x2e]] s).1 = Config /\ s3_objects (bucket := mm_bucket) [x70] (bs_remove_many [[x62]; [x2e]] s).2 [x62] = Some [x01] /\
  s3_objects (bucket := mm_bucket) [x70] (remove_many bs_remove [[x62]; [x2e]] s).2 [x62] = None.
Proof. vm_compute. repeat split. Qed.
