(* ===== verification/S3Catalog.v ===== *)
(** * The manifest catalog on S3

    [aws/s3_manifest_catalog.cpp]: snapshots, compressed, and edits as objects that are written once, and a pointer
    object moved by conditional puts whose token is the object's tag. Each pointer carries an id of the write, so that
    a swap whose answer was lost is recognised. Over the calls of [S3]; Zstandard is the codec of [Framing]. *)

From S2P Require Import Prelude Slice Format Framing Names Catalog S3 S3Mem S3Blob.

(** ** Definitions *)

(** ["gen-"], ["/snapshot"], ["/edit-"], ["CURRENT"] and a new line. *)
Definition kGenDash : bytes := [x67; x65; x6e; x2d].
Definition kSnapshotSuffix : bytes := [x2f; x73; x6e; x61; x70; x73; x68; x6f; x74].
Definition kEditInfix : bytes := [x2f; x65; x64; x69; x74; x2d].
Definition kPointerName : bytes := [x43; x55; x52; x52; x45; x4e; x54].
Definition kNewline : byte := x0a.

Definition gen_prefix (g : Z) : bytes := kGenDash ++ padded g.

Definition kMaxSnapshotBytes : Z := 2 ^ 30.

(** The length, then the compressed bytes. *)
Definition pack_snapshot `{CodecOps} (content : bytes) : Result bytes :=
  match zstd_compress content with
  | None => Unexpected Io
  | Some out => Value (put_fixed64 (zlen content) ++ out)
  end.

Definition unpack_snapshot `{CodecOps} (raw : bytes) : Result bytes :=
  if zlen raw <? 8 then Unexpected Corrupt
  else
    let original := decode_fixed64 raw in
    if kMaxSnapshotBytes <? original then Unexpected Corrupt
    else if 0 <? original then
      match zstd_decompress (drop 8 raw) original with
      | Some out => if negb (zlen out =? original) then Unexpected Corrupt else Value out
      | None => Unexpected Corrupt
      end
    else Value [].

(** What is after the last occurrence of a word ([rfind]). *)
Fixpoint after_last (word s : bytes) : option bytes :=
  match s with
  | [] => None
  | _ :: rest =>
      match after_last word rest with
      | Some t => Some t
      | None => if starts_with s word then Some (drop (length word) s) else None
      end
  end.

(** The number [from_chars] reads after the last occurrence of a word. *)
Definition number_after (word s : bytes) : option Z :=
  let! digits := after_last word s in
  let! p := from_chars digits in
  Some p.1.

Section Catalog.
Context {D : Type} {s3 : S3 D} `{codec : CodecOps} (ids : nat -> bytes) (prefix : bytes).

Definition pointer_key : bytes := key_for prefix kPointerName.
Definition snapshot_key (g : Z) : bytes := key_for prefix (gen_prefix g ++ kSnapshotSuffix).
Definition edits_prefix (g : Z) : bytes := key_for prefix (gen_prefix g ++ kEditInfix).
Definition edit_key (g seq : Z) : bytes := key_for prefix (gen_prefix g ++ kEditInfix ++ padded seq).
Definition generations_prefix : bytes := key_for prefix kGenDash.
Definition objects_prefix (g : Z) : bytes := key_for prefix (gen_prefix g ++ [x2f]).

Definition s3_fetch (key : bytes) (s : S3Client D) : Result bytes * S3Client D :=
  match on_s3 (s3_get key WholeObject) s with
  | (Success (out, _), s) => (Value out, s)
  | (Failure e, s) => (Unexpected (classify e), s)
  end.

Definition s3_put_once (key b : bytes) (s : S3Client D) : Status * S3Client D :=
  let '(write_id, s) := fresh_write_id ids s in
  match on_s3 (write_once (put_new key write_id b) key write_id (zlen b)) s with
  | (None, s) => (Ok, s)
  | (Some PreconditionFailed, s) => (Config, s)
  | (Some _, s) => (Io, s)
  end.

Definition s3_read (s : S3Client D) : Result (option Entry) * S3Client D :=
  match on_s3 (s3_get pointer_key WholeObject) s with
  | (Failure e, s) => (if bool_decide (classify e = NotFound) then Value None else Unexpected Io, s)
  | (Success (body, etag), s) =>
      (match from_chars body with
       | None => Unexpected Corrupt
       | Some (g, _) => Value (Some {| generation := g; token := etag |})
       end, s)
  end.

Definition expectation (expected : option Entry) : Precondition := match expected with Some e => IfMatch (token e) | None => IfNoneMatch end.

Definition pointer_body (g : Z) (write_id : bytes) : bytes := to_string g ++ kNewline :: write_id ++ [kNewline].

Definition s3_compare_and_set (expected : option Entry) (g : Z) (s : S3Client D) : Result (option Entry) * S3Client D :=
  let '(write_id, s) := fresh_write_id ids s in
  let body := pointer_body g write_id in
  let attempt := s3_put pointer_key (expectation expected) None body in
  let installed etag := Value (Some {| generation := g; token := etag |}) in
  let lost e := match e with PreconditionFailed => Value None | _ => Unexpected Io end in
  match on_s3 attempt s with
  | (Success etag, s) => (installed etag, s)
  | (Failure PreconditionFailed, s) => (Value None, s)
  | (Failure _, s) =>
      match on_s3 attempt s with
      | (Success etag, s) => (installed etag, s)
      | (Failure e, s) =>
          match on_s3 (s3_get pointer_key WholeObject) s with
          | (Success (current, etag), s) => if bool_decide (current = body) then (installed etag, s) else (lost e, s)
          | (Failure _, s) => (lost e, s)
          end
      end
  end.

Definition s3_put_snapshot (g : Z) (b : bytes) (s : S3Client D) : Status * S3Client D :=
  match pack_snapshot b with
  | Unexpected e => (e, s)
  | Value packed => s3_put_once (snapshot_key g) packed s
  end.

Definition s3_get_snapshot (g : Z) (s : S3Client D) : Result bytes * S3Client D :=
  match s3_fetch (snapshot_key g) s with
  | (Value raw, s) => (unpack_snapshot raw, s)
  | (Unexpected e, s) => (Unexpected e, s)
  end.

Definition s3_put_edit (g seq : Z) (b : bytes) (s : S3Client D) : Status * S3Client D := s3_put_once (edit_key g seq) b s.

Definition s3_get_edit (g seq : Z) (s : S3Client D) : Result bytes * S3Client D := s3_fetch (edit_key g seq) s.

Definition s3_list_edits (g : Z) (s : S3Client D) : Result (list Z) * S3Client D :=
  match on_s3 (list_all (edits_prefix g) false) s with
  | (Value pgs, s) => (Value (merge_sort Z.le (omap (number_after [x2d]) (concat (map pg_keys pgs)))), s)
  | (Unexpected e, s) => (Unexpected e, s)
  end.

Definition s3_list_generations (s : S3Client D) : Result (list Z) * S3Client D :=
  match on_s3 (list_all generations_prefix true) s with
  | (Value pgs, s) => (Value (omap (number_after kGenDash) (concat (map pg_prefixes pgs))), s)
  | (Unexpected e, s) => (Unexpected e, s)
  end.

(** Each page is deleted before the next is asked for. *)
Fixpoint delete_pages (fuel : nat) (p token : bytes) (d : D) : Status * D :=
  match fuel with
  | O => (Ok, d)
  | S fuel =>
      match s3_list p false token d with
      | (Failure _, d) => (Io, d)
      | (Success pg, d) =>
          let next d := if pg_truncated pg && negb (bool_decide (pg_token pg = [])) then delete_pages fuel p (pg_token pg) d else (Ok, d) in
          if bool_decide (pg_keys pg = []) then next d
          else match s3_delete_objects (pg_keys pg) d with
               | (Success [], d) => next d
               | (_, d) => (Io, d)
               end
      end
  end.

Definition s3_delete_generation (g : Z) (s : S3Client D) : Status * S3Client D :=
  on_s3 (fun d => delete_pages (S (s3_keys d)) (objects_prefix g) [] d) s.

#[export] Instance s3_catalog : ManifestCatalog (S3Client D) := {|
  cat_read := s3_read; compare_and_set := s3_compare_and_set; put_snapshot := s3_put_snapshot; get_snapshot := s3_get_snapshot;
  put_edit := s3_put_edit; get_edit := s3_get_edit; list_edits := s3_list_edits; delete_generation := s3_delete_generation; list_generations := s3_list_generations
|}.
End Catalog.

Lemma NoDup_omap_inj {A B} (f : A -> option B) l : NoDup l -> (forall x y z, x ∈ l -> y ∈ l -> f x = Some z -> f y = Some z -> x = y) -> NoDup (omap f l).
Proof.
  induction l as [|x l IH]; intros Hnd Hinj; [constructor|]. apply NoDup_cons in Hnd as [Hx Hnd]. assert (NoDup (omap f l)) as H by (apply IH; [done|]; intros y y' z Hy Hy'; apply Hinj; by right).
  cbn. destruct (f x) as [b|] eqn:E; [|done]. constructor; [|done]. intros (y & Hy & Ey)%list_elem_of_omap. rewrite (Hinj x y b) in Hx; [done|by left|by right|done|done].
Qed.

(** ** Snapshots *)

Lemma unpack_pack `{ops : CodecOps} `{!CodecLaws ops} b packed : zlen b <= kMaxSnapshotBytes -> pack_snapshot b = Value packed -> unpack_snapshot packed = Value b.
Proof.
  intros Hb. unfold pack_snapshot, unpack_snapshot. destruct (zstd_compress b) as [out|] eqn:E; [|done]. intros H. assert (packed = put_fixed64 (zlen b) ++ out) as -> by congruence. unfold kMaxSnapshotBytes in *.
  assert (is_u64 (zlen b)) as Hu by (unfold is_u64, zlen in *; lia). cbv zeta. rewrite decode_put_fixed64, u64_small by done. rewrite (proj2 (Z.ltb_ge _ 8)) by (unfold zlen; rewrite length_app, length_put_fixed64; lia).
  rewrite (proj2 (Z.ltb_ge (2 ^ 30) (zlen b))) by lia. destruct (Z.ltb_spec 0 (zlen b)) as [Hp|Hz].
  - replace (drop 8 (put_fixed64 (zlen b) ++ out)) with out by (rewrite <- (length_put_fixed64 (zlen b)), drop_app_length; done). rewrite (zstd_inverse _ _ E), Z.eqb_refl. done.
  - destruct b; [done|]. unfold zlen in Hz. simpl in Hz. lia.
Qed.

(** ** Keys *)

Section Keys.
Context (prefix : bytes).

Lemma key_for_app a b : key_for prefix (a ++ b) = key_for prefix a ++ b.
Proof. unfold key_for. case_bool_decide; [done|]. by rewrite <- app_assoc. Qed.

Lemma key_for_cancel a b : key_for prefix a = key_for prefix b -> a = b.
Proof. unfold key_for. case_bool_decide; [done|]. intros E%app_inv_head. by injection E. Qed.

Lemma key_under a p : starts_with (key_for prefix a) (key_for prefix p) = starts_with a p.
Proof.
  apply eq_true_iff_eq. rewrite !starts_with_spec. split; intros [t Ht].
  - exists t. apply key_for_cancel. by rewrite Ht, key_for_app.
  - exists t. by rewrite Ht, key_for_app.
Qed.

Lemma padded_digits g : is_u64 g -> Forall (fun c => is_digit c = true) (padded g).
Proof. intros Hg. by apply padded_spec. Qed.

(** A slash ends the number of a generation. *)
Lemma gen_prefix_slash g g' t u : is_u64 g -> is_u64 g' -> gen_prefix g ++ x2f :: t = gen_prefix g' ++ x2f :: u -> g = g' /\ t = u.
Proof.
  unfold gen_prefix. rewrite <- !app_assoc. intros Hg Hg' E%app_inv_head. apply digits_separated in E as [E ->]; [|done|by apply padded_digits..]. split; [by apply padded_inj|done].
Qed.

Lemma snapshot_key_inj g g' : is_u64 g -> is_u64 g' -> snapshot_key prefix g = snapshot_key prefix g' -> g = g'.
Proof. unfold snapshot_key. intros Hg Hg' E%key_for_cancel. unfold kSnapshotSuffix in E. by apply gen_prefix_slash in E as [-> _]. Qed.

Lemma edit_key_inj g seq g' seq' : is_u64 g -> is_u64 g' -> is_u64 seq -> is_u64 seq' -> edit_key prefix g seq = edit_key prefix g' seq' -> g = g' /\ seq = seq'.
Proof. unfold edit_key. intros Hg Hg' Hs Hs' E%key_for_cancel. unfold kEditInfix in E. simpl in E. apply gen_prefix_slash in E as [-> E]; [|done|done]. simplify_eq. split; [done|by apply padded_inj]. Qed.

Lemma snapshot_key_not_edit g g' seq : is_u64 g -> is_u64 g' -> snapshot_key prefix g <> edit_key prefix g' seq.
Proof. unfold snapshot_key, edit_key. intros Hg Hg' E%key_for_cancel. unfold kSnapshotSuffix, kEditInfix in E. simpl in E. apply gen_prefix_slash in E as [_ E]; [|done|done]. simplify_eq. Qed.

Lemma generation_keys_there g : starts_with (snapshot_key prefix g) (generations_prefix prefix) = true /\ forall seq, starts_with (edit_key prefix g seq) (generations_prefix prefix) = true.
Proof. unfold snapshot_key, edit_key, generations_prefix. split; [|intros seq]; rewrite key_under; apply starts_with_spec; unfold gen_prefix; rewrite <- !app_assoc; by eexists. Qed.

Lemma pointer_elsewhere : starts_with (pointer_key prefix) (generations_prefix prefix) = false.
Proof. unfold pointer_key, generations_prefix. by rewrite key_under. Qed.

(** The objects a generation can have. *)
Definition generation_key (g : Z) (key : bytes) : Prop := key = snapshot_key prefix g \/ exists seq, is_u64 seq /\ key = edit_key prefix g seq.

Lemma generation_not_pointer g key : generation_key g key -> key <> pointer_key prefix.
Proof.
  intros Hkey ->. destruct (generation_keys_there g) as [K1 K2]. pose proof pointer_elsewhere as Hp. destruct Hkey as [Hk|(seq & _ & Hk)]; rewrite Hk in Hp; [congruence|]. by rewrite K2 in Hp.
Qed.

(** Which objects a prefix selects. *)
Lemma snapshot_under g g' : is_u64 g -> is_u64 g' -> starts_with (snapshot_key prefix g') (objects_prefix prefix g) = true <-> g' = g.
Proof.
  intros Hg Hg'. unfold snapshot_key, objects_prefix. rewrite key_under, starts_with_spec. unfold kSnapshotSuffix. split.
  - intros [t Ht]. rewrite <- app_assoc in Ht. simpl in Ht. by apply gen_prefix_slash in Ht as [-> _].
  - intros ->. eexists. by rewrite <- app_assoc.
Qed.

Lemma edit_under g g' seq : is_u64 g -> is_u64 g' -> starts_with (edit_key prefix g' seq) (objects_prefix prefix g) = true <-> g' = g.
Proof.
  intros Hg Hg'. unfold edit_key, objects_prefix. rewrite key_under, starts_with_spec. unfold kEditInfix. split.
  - intros [t Ht]. rewrite <- app_assoc in Ht. simpl in Ht. by apply gen_prefix_slash in Ht as [-> _].
  - intros ->. eexists. by rewrite <- app_assoc.
Qed.

Lemma snapshot_not_under_edits g g' : is_u64 g -> is_u64 g' -> starts_with (snapshot_key prefix g') (edits_prefix prefix g) = false.
Proof.
  intros Hg Hg'. apply not_true_is_false. unfold snapshot_key, edits_prefix. rewrite key_under, starts_with_spec. intros [t Ht]. rewrite <- app_assoc in Ht. unfold kSnapshotSuffix, kEditInfix in Ht. simpl in Ht.
  apply gen_prefix_slash in Ht as [_ Ht]; [|done|done]. simplify_eq.
Qed.

Lemma edit_under_edits g g' seq : is_u64 g -> is_u64 g' -> starts_with (edit_key prefix g' seq) (edits_prefix prefix g) = true <-> g' = g.
Proof.
  intros Hg Hg'. unfold edit_key, edits_prefix. rewrite key_under, starts_with_spec. unfold kEditInfix. split.
  - intros [t Ht]. rewrite <- app_assoc in Ht. simpl in Ht. by apply gen_prefix_slash in Ht as [-> _].
  - intros ->. exists (padded seq). by rewrite <- app_assoc.
Qed.

(** Numbers are read back out of keys. *)
Lemma after_last_none c w t : c ∉ t -> after_last (c :: w) t = None.
Proof.
  induction t as [|x t IH]; [done|]. intros [Hx Ht]%not_elem_of_cons. cbn [after_last]. rewrite IH by done. destruct (starts_with (x :: t) (c :: w)) eqn:E; [|done].
  apply starts_with_spec in E as [u [= -> _]]. done.
Qed.

Lemma after_last_app c w p t : c ∉ w ++ t -> after_last (c :: w) (p ++ (c :: w) ++ t) = Some t.
Proof.
  intros Hn. induction p as [|x p IH].
  - cbn [app after_last]. rewrite after_last_none by done. rewrite (proj2 (starts_with_spec (c :: w ++ t) (c :: w))) by (by exists t). cbn [length drop]. by rewrite drop_app_length.
  - cbn [app after_last] in *. by rewrite IH.
Qed.

Lemma from_chars_padded_app v rest : is_u64 v -> match rest with [] => True | c :: _ => is_digit c = false end -> from_chars (padded v ++ rest) = Some (v, rest).
Proof. intros Hv Hr. unfold from_chars. rewrite digit_run_app; [|by apply padded_spec|done]. by rewrite parse_padded. Qed.

Lemma not_digit_in c s : is_digit c = false -> Forall (fun c => is_digit c = true) s -> c ∉ s.
Proof. intros Hc Hs Hin. rewrite Forall_forall in Hs. rewrite (Hs c Hin) in Hc. done. Qed.

Lemma number_read word s digits v rest : after_last word s = Some digits -> from_chars digits = Some (v, rest) -> number_after word s = Some v.
Proof. intros E1 E2. unfold number_after. rewrite E1. simpl. by rewrite E2. Qed.

Lemma number_of_edit g seq : is_u64 seq -> number_after [x2d] (edit_key prefix g seq) = Some seq.
Proof.
  intros Hs. unfold edit_key. rewrite app_assoc, key_for_app. unfold kEditInfix. replace (gen_prefix g ++ [x2f; x65; x64; x69; x74; x2d]) with ((gen_prefix g ++ [x2f; x65; x64; x69; x74]) ++ [x2d]) by (by rewrite <- app_assoc).
  rewrite key_for_app, <- app_assoc. eapply number_read; [apply after_last_app|by apply from_chars_padded]. apply (not_digit_in x2d); [done|]. by apply padded_digits.
Qed.

Lemma number_of_generation g : is_u64 g -> number_after kGenDash (objects_prefix prefix g) = Some g.
Proof.
  intros Hg. unfold objects_prefix, gen_prefix. rewrite <- app_assoc. replace (key_for prefix (kGenDash ++ padded g ++ [x2f])) with (key_for prefix [] ++ kGenDash ++ padded g ++ [x2f]) by (by rewrite <- key_for_app).
  unfold kGenDash. eapply number_read; [apply after_last_app|by apply from_chars_padded_app].
  apply not_elem_of_app. split; [by apply (bool_decide_unpack _)|]. apply not_elem_of_app. split; [|by apply (bool_decide_unpack _)]. apply (not_digit_in x67); [done|]. by apply padded_digits.
Qed.

Lemma upto_slash_digits s t : Forall (fun c => is_digit c = true) s -> upto_slash (s ++ x2f :: t) = Some (s ++ [x2f]).
Proof.
  induction 1 as [|c s Hc _ IH]; [done|]. cbn [app upto_slash]. rewrite IH. case_bool_decide; [subst c; done|done].
Qed.

(** The delimiter makes one name of a generation. *)
Lemma rolled g t : is_u64 g -> let k := key_for prefix (gen_prefix g ++ x2f :: t) in
  roll (generations_prefix prefix) true k = objects_prefix prefix g /\ upto_slash (drop (length (generations_prefix prefix)) (objects_prefix prefix g)) <> None.
Proof.
  intros Hg k. assert (k = generations_prefix prefix ++ padded g ++ x2f :: t) as -> by (unfold k, generations_prefix, gen_prefix; rewrite <- app_assoc; apply key_for_app).
  assert (objects_prefix prefix g = generations_prefix prefix ++ padded g ++ [x2f]) as E by (unfold objects_prefix, generations_prefix, gen_prefix; rewrite <- app_assoc; apply key_for_app).
  unfold roll. rewrite E, !drop_app_length, !upto_slash_digits by (by apply padded_digits). done.
Qed.
End Keys.

(** ** The contract *)

Section Contract.
Context {D : Type} {s3 : S3 D} {bucket : D -> Bucket} {uploads : D -> gmap bytes Upload} {after : bytes -> option bytes} {laws : S3Laws s3 bucket uploads after}.
Context {codec : CodecOps} {codec_laws : CodecLaws codec} (ids : nat -> bytes) (ids_inj : forall i j, ids i = ids j -> i = j) (prefix : bytes).

Abbreviation contents s := (bucket (sb_s3 s)).

(** The objects of generations are the catalog's, the pointer is one it wrote, and no write id of the future is in use. *)
Record catalog_ok (s : S3Client D) : Prop := {
  co_keys : forall k, is_Some (contents s !! k) -> starts_with k (generations_prefix prefix) = true ->
    exists g, is_u64 g /\ generation_key prefix g k;
  co_pointer : forall o, contents s !! pointer_key prefix = Some o -> exists p, from_chars (so_body o) = Some p;
  co_ids : forall k o j, contents s !! k = Some o -> so_write_id o = Some (ids j) -> (j < sb_ids s)%nat;
  co_bodies : forall o g j, contents s !! pointer_key prefix = Some o -> is_u64 g -> so_body o = pointer_body g (ids j) -> (j < sb_ids s)%nat
}.

(** What the catalog holds: the pointer, the packed snapshots and the edits. *)
Definition s3_pointer (s : S3Client D) : option Entry :=
  let! o := contents s !! pointer_key prefix in
  let! p := from_chars (so_body o) in
  Some {| generation := p.1; token := so_etag o |}.

Definition body_at (s : S3Client D) (key : bytes) : option bytes := so_body <$> contents s !! key.

Lemma same_catalog s s' : catalog_ok s -> contents s' = contents s -> (sb_ids s <= sb_ids s')%nat -> catalog_ok s'.
Proof.
  intros [H1 H2 H3 H4] E Hle. split; rewrite E; [exact H1|exact H2| |].
  - intros k o j Ho Hj. specialize (H3 k o j Ho Hj). lia.
  - intros o g j Ho Hg Hb. specialize (H4 o g j Ho Hg Hb). lia.
Qed.

(** *** Reads *)

Lemma s3_fetch_spec key s r s' : catalog_ok s -> s3_fetch key s = (r, s') -> catalog_ok s' /\ contents s' = contents s /\
  match r with Value b => body_at s key = Some b | Unexpected NotFound => body_at s key = None | Unexpected e => e = Io end.
Proof using laws.
  intros Hok. unfold s3_fetch. destruct (on_s3 _ s) as [o s1] eqn:E. apply on_s3_spec in E as [E Hi]. apply law_s3_get in E as [Hb H]. unfold body_at. assert (catalog_ok s1) as Hok1 by (eapply same_catalog; [done|done|by rewrite Hi]).
  destruct o as [[out t]|e]; [|destruct e]; intros [= <- <-]; cbn [classify]; (split; [done|]); (split; [done|]); try done.
  - destruct H as (o & -> & _ & ->). done.
  - by rewrite H.
Qed.

Lemma s3_read_spec s r s' : catalog_ok s -> s3_read prefix s = (r, s') -> catalog_ok s' /\ contents s' = contents s /\
  match r with Value p => p = s3_pointer s | Unexpected e => e = Io end.
Proof using laws.
  intros Hok. unfold s3_read. destruct (on_s3 _ s) as [o s1] eqn:E. apply on_s3_spec in E as [E Hi]. apply law_s3_get in E as [Hb H]. assert (catalog_ok s1) as Hok1 by (eapply same_catalog; [done|done|by rewrite Hi]).
  destruct o as [[out t]|e]; [|destruct e]; intros [= <- <-]; (split; [done|]); (split; [done|]); try done.
  - destruct H as (o & Ho & -> & ->). unfold s3_pointer. rewrite Ho. simpl. destruct (co_pointer s Hok o Ho) as [[g rest] Ep]. by rewrite Ep.
  - unfold s3_pointer. by rewrite H.
Qed.

(** *** Objects that are written once *)

(** What a put may leave: the object is there, or it is not, and everything else is as it was. *)
Record stored_once (key b : bytes) (s : S3Client D) (r : Status) (s' : S3Client D) : Prop := {
  so_elsewhere : forall k, k <> key -> contents s' !! k = contents s !! k;
  so_done : r = Ok -> body_at s key = None /\ body_at s' key = Some b;
  so_taken : r = Config -> body_at s' key <> None;
  so_either : body_at s' key = body_at s key \/ body_at s key = None /\ body_at s' key = Some b
}.

Lemma s3_put_once_spec key b s r s' : catalog_ok s -> (exists g, is_u64 g /\ generation_key prefix g key) ->
  s3_put_once ids key b s = (r, s') -> catalog_ok s' /\ stored_once key b s r s'.
Proof using laws ids_inj.
  intros Hok Hkey. unfold s3_put_once, fresh_write_id. destruct (on_s3 _ _) as [e s1] eqn:E. apply on_s3_spec in E as [E Hi]. cbn [sb_s3 sb_ids] in *.
  assert (written_once (bucket := bucket) key (ids (sb_ids s)) b (sb_s3 s) e (sb_s3 s1)) as Hw.
  { refine (write_once_spec (fun _ => True) _ _ _ _ _ _ _ _ _ I E); [intros d e0 d' _ E0; split; [done|by apply put_new_spec]|]. intros o Ho Hid. pose proof (co_ids s Hok _ _ _ Ho Hid). lia. }
  intros H. assert (s' = s1) as -> by (destruct e as [[]|]; by injection H). assert (r = match e with None => Ok | Some PreconditionFailed => Config | Some _ => Io end) as Hr by (destruct e as [[]|]; by injection H). clear H.
  assert (contents s1 = contents s \/ lands (bucket := bucket) key (ids (sb_ids s)) b (sb_s3 s) (sb_s3 s1)) as Hcases by (destruct e as [e|]; [apply Hw|by right]).
  assert (key <> pointer_key prefix) as Hne by (destruct Hkey as (g & _ & H); by eapply generation_not_pointer).
  split.
  - destruct Hcases as [Es|[Hfree [t Es]]]; [eapply same_catalog; [done|done|lia]|]. split; rewrite Es.
    + intros k Hk Hst. destruct (decide (k = key)) as [-> |Hd]; [done|]. rewrite lookup_insert_ne in Hk by done. by apply (co_keys s Hok).
    + intros o. rewrite lookup_insert_ne by done. apply (co_pointer s Hok).
    + intros k o j. destruct (decide (k = key)) as [-> |Hd]; [rewrite lookup_insert_eq; intros [= <-] [= Hj]; apply ids_inj in Hj; lia|]. rewrite lookup_insert_ne by done. intros Ho Hj. pose proof (co_ids s Hok k o j Ho Hj). lia.
    + intros o g j. rewrite lookup_insert_ne by done. intros Ho Hg Hj. pose proof (co_bodies s Hok o g j Ho Hg Hj). lia.
  - assert (lands (bucket := bucket) key (ids (sb_ids s)) b (sb_s3 s) (sb_s3 s1) -> body_at s key = None /\ body_at s1 key = Some b) as Hl by (intros [Hfree [t Es]]; unfold body_at; by rewrite Hfree, Es, lookup_insert_eq). split.
    + intros k Hk. destruct Hcases as [-> |[_ [t ->]]]; [done|]. by rewrite lookup_insert_ne.
    + intros ->. destruct e as [[]|]; try done. by apply Hl.
    + intros ->. destruct e as [[]|]; try done. destruct Hw as [_ Hw]. specialize (Hw eq_refl). unfold body_at. by destruct (contents s1 !! key).
    + destruct Hcases as [Es|H]; [left; unfold body_at; by rewrite Es|right; by apply Hl].
Qed.

(** *** The pointer *)

Lemma pointer_body_inj g i g' j : is_u64 g -> is_u64 g' -> pointer_body g (ids i) = pointer_body g' (ids j) -> i = j.
Proof using ids_inj.
  unfold pointer_body. intros Hg Hg' E. apply digits_separated in E as [_ E]; [|done|by apply to_string_spec..]. apply ids_inj. by apply app_inv_tail in E.
Qed.

(** The pointer, whose tag was the one expected, moved to [g] under a new tag, and nothing else did. *)
Definition swapped (expected : option Entry) (g : Z) (s s' : S3Client D) (etag : bytes) : Prop :=
  token <$> s3_pointer s = token <$> expected /\ s3_pointer s' = Some {| generation := g; token := etag |} /\ forall k, k <> pointer_key prefix -> contents s' !! k = contents s !! k.

(** The condition of a swap is about the tag. *)
Lemma expectation_met expected s : catalog_ok s -> meets (expectation expected) (contents s !! pointer_key prefix) <-> token <$> s3_pointer s = token <$> expected.
Proof using.
  intros Hok. unfold s3_pointer. destruct (contents s !! pointer_key prefix) as [o|] eqn:Eo; simpl; [|by destruct expected].
  destruct (co_pointer s Hok o Eo) as [q Eq]. rewrite Eq. by destruct expected.
Qed.

(** The pointer's object was written under the id the swap drew. *)
Definition moved (expected : option Entry) (g : Z) (s s' : S3Client D) (etag : bytes) : Prop :=
  meets (expectation expected) (contents s !! pointer_key prefix) /\
  contents s' = <[pointer_key prefix := {| so_body := pointer_body g (ids (sb_ids s)); so_write_id := None; so_etag := etag |}]> (contents s).

Definition maybe_moved (expected : option Entry) (g : Z) (s s' : S3Client D) : Prop := contents s' = contents s \/ exists etag, moved expected g s s' etag.

Lemma moved_swapped expected g s s' etag : catalog_ok s -> is_u64 g -> moved expected g s s' etag -> swapped expected g s s' etag.
Proof using.
  intros Hok Hg [Hm E]. split; [by apply expectation_met|]. split; [|intros k Hk; by rewrite E, lookup_insert_ne]. unfold s3_pointer. rewrite E, lookup_insert_eq. simpl. unfold pointer_body. by rewrite from_chars_to_string.
Qed.

Lemma moved_ok expected g s s' : catalog_ok s -> is_u64 g -> sb_ids s' = S (sb_ids s) -> maybe_moved expected g s s' -> catalog_ok s'.
Proof using ids_inj.
  intros Hok Hg Hi [E|[t [_ E]]]; [eapply same_catalog; [done|done|lia]|]. split; rewrite E.
  - intros k Hk Hst. destruct (decide (k = pointer_key prefix)) as [-> |Hd]; [by rewrite pointer_elsewhere in Hst|]. rewrite lookup_insert_ne in Hk by done. by apply (co_keys s Hok).
  - intros o. rewrite lookup_insert_eq. intros [= <-]. eexists. by apply from_chars_to_string.
  - intros k o j. destruct (decide (k = pointer_key prefix)) as [-> |Hd]; [by rewrite lookup_insert_eq; intros [= <-]|]. rewrite lookup_insert_ne by done. intros Ho Hj. pose proof (co_ids s Hok k o j Ho Hj). lia.
  - intros o g' j. rewrite lookup_insert_eq. intros [= <-] Hg' Hj. cbn in Hj. apply pointer_body_inj in Hj; [lia|done|done].
Qed.

(** A further attempt: its success is the swap, and it may have happened where it fails. *)
Lemma attempt_again expected g s s1 o s2 : maybe_moved expected g s s1 ->
  on_s3 (s3_put (pointer_key prefix) (expectation expected) None (pointer_body g (ids (sb_ids s)))) s1 = (o, s2) -> sb_ids s2 = sb_ids s1 /\
  match o with
  | Success etag => moved expected g s s2 etag
  | Failure e => maybe_moved expected g s s2 /\ (e = PreconditionFailed -> contents s2 = contents s -> ~ meets (expectation expected) (contents s !! pointer_key prefix))
  end.
Proof using laws.
  intros Hs1 [E Hi]%on_s3_spec. split; [done|]. apply law_s3_put in E. cbv zeta in E.
  assert (forall t, meets (expectation expected) (contents s1 !! pointer_key prefix) /\
    contents s2 = <[pointer_key prefix := {| so_body := pointer_body g (ids (sb_ids s)); so_write_id := None; so_etag := t |}]> (contents s1) -> moved expected g s s2 t) as Hm.
  { intros t [Hm Ec]. destruct Hs1 as [Es|[t1 [Hm1 Es]]]; rewrite Es in *; [by split|]. split; [done|]. by rewrite Ec, insert_insert_eq. }
  assert (contents s2 = contents s1 -> maybe_moved expected g s s2) as Hsame by (intros Ec; destruct Hs1 as [Es|[t [? Es]]]; [left; congruence|right; exists t; split; [done|congruence]]).
  destruct o as [t|e]; [by apply Hm|]. destruct e; try (split; [|done]; destruct E as [E|[t E]]; [by apply Hsame|right; exists t; by apply Hm]).
  destruct E as [Hn E]. split; [by apply Hsame|]. intros _ Ec. by replace (contents s) with (contents s1) by congruence.
Qed.

(** What is read under the pointer's key is this swap's only if it happened. *)
Lemma own_body expected g s s1 o s2 : catalog_ok s -> is_u64 g -> maybe_moved expected g s s1 -> on_s3 (s3_get (pointer_key prefix) WholeObject) s1 = (o, s2) ->
  sb_ids s2 = sb_ids s1 /\ maybe_moved expected g s s2 /\ forall etag, o = Success (pointer_body g (ids (sb_ids s)), etag) -> moved expected g s s2 etag.
Proof using laws.
  intros Hok Hg Hs1 [E Hi]%on_s3_spec. apply law_s3_get in E as [Hb H]. split; [done|].
  split; [destruct Hs1 as [|[t [? ?]]]; [left; congruence|right; exists t; split; [done|congruence]]|]. intros etag ->. destruct H as (x & Hx & -> & Hbody). cbn in Hbody. destruct Hs1 as [Es|[t [Hm Es]]].
  - exfalso. rewrite Es in Hx. pose proof (co_bodies s Hok x g (sb_ids s) Hx Hg (eq_sym Hbody)). lia.
  - rewrite Es, lookup_insert_eq in Hx. injection Hx as <-. split; [done|by rewrite Hb, Es].
Qed.

Definition swap_answer (expected : option Entry) (g : Z) (s : S3Client D) (r : Result (option Entry)) (s' : S3Client D) : Prop :=
  match r with
  | Value (Some e) => generation e = g /\ swapped expected g s s' (token e)
  | Value None => token <$> s3_pointer s <> token <$> expected /\ contents s' = contents s \/ exists etag, swapped expected g s s' etag
  | Unexpected e => e = Io /\ (contents s' = contents s \/ exists etag, swapped expected g s s' etag)
  end.

Lemma s3_swap_spec expected g s r s' : catalog_ok s -> is_u64 g -> s3_compare_and_set ids prefix expected g s = (r, s') -> catalog_ok s' /\ swap_answer expected g s r s'.
Proof using laws ids_inj.
  intros Hok Hg. unfold s3_compare_and_set, fresh_write_id. set (s1 := {| sb_s3 := sb_s3 s; sb_ids := S (sb_ids s) |}).
  assert (forall s2 t, sb_ids s2 = S (sb_ids s) -> moved expected g s s2 t -> catalog_ok s2 /\ swap_answer expected g s (Value (Some {| generation := g; token := t |})) s2) as Hdone.
  { intros s2 t Hi Hm. split; [eapply moved_ok; [done|done|done|right; by exists t]|]. split; [done|]. by apply moved_swapped. }
  assert (forall s2 e, sb_ids s2 = S (sb_ids s) -> maybe_moved expected g s s2 -> (e = PreconditionFailed -> contents s2 = contents s -> ~ meets (expectation expected) (contents s !! pointer_key prefix)) ->
    catalog_ok s2 /\ swap_answer expected g s (match e with PreconditionFailed => Value None | _ => Unexpected Io end) s2) as Hlost.
  { intros s2 e Hi Hm He. split; [by eapply moved_ok|]. assert (contents s2 = contents s \/ exists etag, swapped expected g s s2 etag) as Hend by (destruct Hm as [|[t Ht]]; [by left|right; exists t; by apply moved_swapped]).
    destruct e; try done. destruct Hend as [Ec|]; [left|by right]. split; [|done]. rewrite <- expectation_met by done. by apply He. }
  destruct (on_s3 _ s1) as [o1 s2] eqn:E1. apply (attempt_again expected g s s1) in E1 as [I1 H1]; [|by left]. cbn [sb_ids s1] in I1. destruct o1 as [t|e1]; [intros [= <- <-]; by apply Hdone|]. destruct H1 as [Hm1 Hp1].
  destruct (decide (e1 = PreconditionFailed)) as [-> |Hne]; [intros [= <- <-]; exact (Hlost s2 PreconditionFailed I1 Hm1 Hp1)|]. intros H.
  destruct (on_s3 (s3_put _ _ _ _) s2) as [o2 s3'] eqn:E2. apply (attempt_again expected g s s2) in E2 as [I2 H2]; [|done].
  destruct o2 as [t|e2]; [assert ((Value (Some {| generation := g; token := t |}), s3') = (r, s')) as H' by (by destruct e1); injection H' as <- <-; apply Hdone; [congruence|done]|]. destruct H2 as [Hm2 Hp2].
  destruct (on_s3 (s3_get _ _) s3') as [o3 s4] eqn:E3. destruct (own_body expected g s s3' o3 s4 Hok Hg Hm2 E3) as (I3 & Hm3 & Hown).
  assert (contents s4 = contents s3') as Hsame by (apply on_s3_spec in E3 as [E3 _]; by apply law_s3_get in E3 as [? _]).
  destruct o3 as [[current t]|e3].
  - destruct (bool_decide_reflect (current = pointer_body g (ids (sb_ids s)))) as [-> |Hd].
    + assert ((Value (Some {| generation := g; token := t |}), s4) = (r, s')) as H' by (destruct e1; done). injection H' as <- <-. apply Hdone; [congruence|by apply Hown].
    + assert ((match e2 with PreconditionFailed => Value None | _ => Unexpected Io end, s4) = (r, s')) as H' by (destruct e1; done). injection H' as <- <-. apply Hlost; [congruence|done|]. rewrite Hsame. exact Hp2.
  - assert ((match e2 with PreconditionFailed => Value None | _ => Unexpected Io end, s4) = (r, s')) as H' by (destruct e1; done). injection H' as <- <-. apply Hlost; [congruence|done|]. rewrite Hsame. exact Hp2.
Qed.

(** *** Listings *)

Lemma s3_list_edits_spec g s r s' : catalog_ok s -> is_u64 g -> s3_list_edits prefix g s = (r, s') -> catalog_ok s' /\ contents s' = contents s /\
  match r with
  | Value l => NoDup l /\ forall seq, seq ∈ l <-> is_u64 seq /\ body_at s (edit_key prefix g seq) <> None
  | Unexpected e => e = Io
  end.
Proof using laws.
  intros Hok Hg. unfold s3_list_edits. destruct (on_s3 _ s) as [o s1] eqn:E. apply on_s3_spec in E as [E Hi]. destruct o as [pgs|e]; intros [= <- <-].
  2:{ apply list_all_spec in E as [Hb ->]. split; [eapply same_catalog; [done|done|by rewrite Hi]|done]. }
  apply list_all_keys in E as (Hb & Hnd & Hin). split; [eapply same_catalog; [done|done|by rewrite Hi]|]. split; [done|].
  assert (forall k, k ∈ concat (map pg_keys pgs) <-> exists seq, is_u64 seq /\ k = edit_key prefix g seq /\ is_Some (contents s !! k)) as Hkeys.
  { intros k. rewrite Hin. split.
    - intros [Ho Hst]. assert (starts_with k (generations_prefix prefix) = true) as Hgp.
      { apply starts_with_spec in Hst as [t ->]. apply starts_with_spec. unfold edits_prefix, generations_prefix, gen_prefix. rewrite <- app_assoc, key_for_app, <- app_assoc. by eexists. }
      destruct (co_keys s Hok k Ho Hgp) as (g' & Hg' & [-> |(seq & Hs & ->)]); [by rewrite snapshot_not_under_edits in Hst|]. apply edit_under_edits in Hst as ->; [|done|done]. by exists seq.
    - intros (seq & Hs & -> & Ho). split; [done|]. by apply edit_under_edits. }
  split.
  - rewrite (merge_sort_Permutation Z.le). apply NoDup_omap_inj; [done|]. intros x y z (q & Hq & -> & _)%Hkeys (q' & Hq' & -> & _)%Hkeys. rewrite !number_of_edit by done. congruence.
  - intros seq. rewrite (merge_sort_Permutation Z.le), list_elem_of_omap. unfold body_at. split.
    + intros (k & Hk & En). apply Hkeys in Hk as (q & Hq & -> & [o Ho]). rewrite number_of_edit in En by done. injection En as ->. split; [done|]. by rewrite Ho.
    + intros [Hs Ho]. exists (edit_key prefix g seq). split; [|by apply number_of_edit]. apply Hkeys. exists seq. split; [done|]. split; [done|]. destruct (contents s !! _) eqn:Eo; [by eexists|done].
Qed.

(** A name a listing of generations shows is the prefix of one. *)
Lemma generation_name_shown s n : catalog_ok s -> n ∈ listed_names (generations_prefix prefix) true (contents s) <->
  exists g, is_u64 g /\ n = objects_prefix prefix g /\ exists k, is_Some (contents s !! k) /\ starts_with k (objects_prefix prefix g) = true.
Proof using.
  intros Hok. assert (forall k, k ∈ keys_under (generations_prefix prefix) (contents s) <-> is_Some (contents s !! k) /\ starts_with k (generations_prefix prefix) = true) as Hk.
  { intros k. unfold keys_under. rewrite list_elem_of_In, filter_In, <- list_elem_of_In, list_elem_of_fmap. split; intros [H1 H2]; (split; [|done]).
    - destruct H1 as ([k' o] & -> & H1). apply elem_of_map_to_list in H1. by eexists.
    - destruct H1 as [o Ho]. exists (k, o). split; [done|]. by apply elem_of_map_to_list. }
  assert (forall k, is_Some (contents s !! k) -> starts_with k (generations_prefix prefix) = true -> exists g t, is_u64 g /\ k = key_for prefix (gen_prefix g ++ x2f :: t)) as Hshape.
  { intros k Ho Hst. destruct (co_keys s Hok k Ho Hst) as (g & Hg & [-> |(seq & _ & ->)]); exists g; eexists; (split; [done|reflexivity]). }
  unfold listed_names. rewrite list_elem_of_fmap. split.
  - intros (k & -> & [Ho Hst]%Hk). destruct (Hshape k Ho Hst) as (g & t & Hg & ->). exists g. split; [done|]. split; [by apply rolled|]. eexists. split; [exact Ho|]. unfold objects_prefix. rewrite key_under. apply starts_with_spec. exists t. by rewrite <- app_assoc.
  - intros (g & Hg & -> & k & Ho & Hst). assert (starts_with k (generations_prefix prefix) = true) as Hgp.
    { apply starts_with_spec in Hst as [t ->]. apply starts_with_spec. unfold objects_prefix, generations_prefix, gen_prefix. rewrite <- app_assoc, key_for_app, <- app_assoc. by eexists. }
    exists k. split; [|by apply Hk]. apply starts_with_spec in Hst as [t ->]. unfold objects_prefix. rewrite <- key_for_app, <- app_assoc. cbn [app]. symmetry. by apply rolled.
Qed.

Lemma s3_list_generations_spec s r s' : catalog_ok s -> s3_list_generations prefix s = (r, s') -> catalog_ok s' /\ contents s' = contents s /\
  match r with
  | Value l => NoDup l /\ forall g, g ∈ l <-> is_u64 g /\ exists k, is_Some (contents s !! k) /\ starts_with k (objects_prefix prefix g) = true
  | Unexpected e => e = Io
  end.
Proof using laws.
  intros Hok. unfold s3_list_generations. destruct (on_s3 _ s) as [o s1] eqn:E. apply on_s3_spec in E as [E Hi]. apply list_all_spec in E as [Hb H].
  destruct o as [pgs|e]; intros [= <- <-]; (split; [eapply same_catalog; [done|done|by rewrite Hi]|]); (split; [done|]); [|done]. destruct H as (Hin & Hnd & Hall).
  assert (concat (map page_names pgs) = concat (map pg_prefixes pgs)) as El.
  { assert (forall n, n ∈ concat (map page_names pgs) -> upto_slash (drop (length (generations_prefix prefix)) n) <> None) as Hs.
    { intros n Hn. apply Hin in Hn. apply generation_name_shown in Hn as (g & Hg & -> & _); [|done]. by apply (rolled prefix g []). }
    clear -Hall Hs. induction Hall as [|pg pgs [Hk _] _ IH]; [done|]. cbn [map concat] in *. rewrite IH by (intros n Hn; apply Hs, elem_of_app; by right). f_equal. unfold page_names in *.
    destruct (pg_keys pg) as [|x l]; [done|]. exfalso. apply (Hs x); [by left|]. apply Hk; [by left|done]. }
  rewrite El in *. assert (forall n, n ∈ concat (map pg_prefixes pgs) <-> exists g, is_u64 g /\ n = objects_prefix prefix g /\ exists k, is_Some (contents s !! k) /\ starts_with k (objects_prefix prefix g) = true) as Hnames
    by (intros n; rewrite Hin; by apply generation_name_shown).
  split.
  - apply NoDup_omap_inj; [done|]. intros x y z (g & Hg & -> & _)%Hnames (g' & Hg' & -> & _)%Hnames. rewrite !number_of_generation by done. congruence.
  - intros g. rewrite list_elem_of_omap. split.
    + intros (n & (g' & Hg' & -> & Hk)%Hnames & En). rewrite number_of_generation in En by done. injection En as ->. done.
    + intros [Hg Hk]. exists (objects_prefix prefix g). split; [|by apply number_of_generation]. apply Hnames. by exists g.
Qed.

(** *** Deletion *)

Lemma left_after_mono (a : option bytes) (p : bytes) (b b' : Bucket) : (forall k, is_Some (b' !! k) -> is_Some (b !! k)) -> (left_after a (listed_names p false b') <= left_after a (listed_names p false b))%nat.
Proof using.
  intros Hsub. unfold left_after, listed_names, roll. rewrite !map_id.
  assert (forall c : Bucket, NoDup (keys_under p c)) as Hnd.
  { intros c. unfold keys_under. apply NoDup_ListNoDup, List.NoDup_filter, NoDup_ListNoDup. apply (NoDup_fst_map_to_list c). }
  apply submseteq_length, NoDup_submseteq; [by apply NoDup_filter|]. intros k [Ha Hk]%list_elem_of_filter. apply list_elem_of_filter. split; [done|].
  unfold keys_under in *. rewrite list_elem_of_In, filter_In, <- list_elem_of_In, list_elem_of_fmap in *. destruct Hk as [([k' o] & -> & Hk) Hst]. split; [|done].
  apply elem_of_map_to_list in Hk. destruct (Hsub k' ltac:(by eexists)) as [o' Ho']. exists (k', o'). split; [done|]. by apply elem_of_map_to_list.
Qed.

Lemma delete_pages_spec (p : bytes) fuel : forall token d r d', (left_after (after token) (listed_names p false (bucket d)) < fuel)%nat ->
  (forall k, is_Some (bucket d !! k) -> starts_with k p = true -> above (after token) k) -> delete_pages fuel p token d = (r, d') ->
  (forall k, bucket d' !! k = bucket d !! k \/ starts_with k p = true /\ bucket d' !! k = None) /\
  (r = Ok -> forall k, starts_with k p = true -> bucket d' !! k = None) /\ (r = Ok \/ r = Io).
Proof using laws.
  induction fuel as [|fuel IH]; intros token d r d' Hf Hrest; [lia|]. cbn [delete_pages]. destruct (s3_list p false token d) as [[pg|e] d1] eqn:E; apply law_s3_list in E as [Hb Hpg].
  2:{ intros [= <- <-]. split; [intros k; left; by rewrite Hb|]. split; [done|by right]. }
  specialize (Hpg pg eq_refl). cbv zeta. rewrite <- Hb in *. clear Hb.
  assert (forall n, n ∈ listed_names p false (bucket d1) <-> is_Some (bucket d1 !! n) /\ starts_with n p = true) as Hl.
  { intros n. unfold listed_names, roll, keys_under. rewrite map_id, list_elem_of_In, filter_In, <- list_elem_of_In, list_elem_of_fmap. split; intros [H1 H2]; (split; [|done]).
    - destruct H1 as ([n' o] & -> & H1). apply elem_of_map_to_list in H1. by eexists.
    - destruct H1 as [o Ho]. exists (n, o). split; [done|]. by apply elem_of_map_to_list. }
  assert (pg_prefixes pg = []) as Hnp by (destruct (pg_prefixes pg) as [|x l] eqn:Ex; [done|]; destruct (pk_prefixes _ _ _ _ _ _ Hpg x) as [? _]; [rewrite Ex; by left|done]).
  assert (forall n, n ∈ page_names pg <-> n ∈ pg_keys pg) as Hnames by (intros n; unfold page_names; by rewrite Hnp, app_nil_r).
  (* once a page's keys are gone *)
  assert (forall d2 r0 d0, (forall k, bucket d2 !! k = bucket d1 !! k \/ k ∈ pg_keys pg /\ bucket d2 !! k = None) -> (forall k, k ∈ pg_keys pg -> bucket d2 !! k = None) ->
    (if pg_truncated pg && negb (bool_decide (pg_token pg = [])) then delete_pages fuel p (pg_token pg) d2 else (Ok, d2)) = (r0, d0) ->
    (forall k, bucket d0 !! k = bucket d1 !! k \/ starts_with k p = true /\ bucket d0 !! k = None) /\ (r0 = Ok -> forall k, starts_with k p = true -> bucket d0 !! k = None) /\ (r0 = Ok \/ r0 = Io)) as Hnext.
  { intros d2 r0 d0 Hd2 Hgone. assert (forall k, k ∈ pg_keys pg -> starts_with k p = true) as Hkp by (intros k Hk%Hnames; apply (pk_sound _ _ _ _ _ _ Hpg) in Hk as [Hk _]; by apply Hl in Hk as [_ ?]).
    assert (forall k, is_Some (bucket d2 !! k) -> is_Some (bucket d1 !! k)) as Hsub by (intros k [o Ho]; destruct (Hd2 k) as [Ek|[_ Ek]]; [by exists o; rewrite <- Ek|congruence]).
    assert (forall k, is_Some (bucket d2 !! k) -> starts_with k p = true -> pg_truncated pg = true /\ above (after (pg_token pg)) k) as Hleft.
    { intros k Ho Hk. destruct (pk_complete _ _ _ _ _ _ Hpg k) as [Hin|?]; [apply Hl; split; [by apply Hsub|done]|apply Hrest; [by apply Hsub|done]| |done]. apply Hnames in Hin. rewrite (Hgone k Hin) in Ho. by destruct Ho. }
    destruct (pg_truncated pg) eqn:Et; cbn [andb].
    - destruct (pk_more _ _ _ _ _ _ Hpg Et) as [Htok _]. rewrite bool_decide_eq_false_2 by done. cbn [negb]. intros H. destruct (page_progress _ _ _ _ _ Hpg Et) as [Hless _].
      pose proof (left_after_mono (after (pg_token pg)) p (bucket d1) (bucket d2) Hsub) as Hmono. apply IH in H as (H1 & H2 & H3); [|lia|intros k Ho Hk; by apply Hleft].
      split; [|done]. intros k. destruct (H1 k) as [-> |?]; [|by right]. destruct (Hd2 k) as [|[? ?]]; [by left|right; auto].
    - intros [= <- <-]. split; [intros k; destruct (Hd2 k) as [|[? ?]]; [by left|right; auto]|]. split; [|by left]. intros _ k Hk. destruct (bucket d2 !! k) eqn:Ek; [|done]. destruct (Hleft k) as [? _]; [by eexists|done|done]. }
  destruct (bool_decide_reflect (pg_keys pg = [])) as [Ek|Ek]; [apply Hnext; [by left|rewrite Ek; intros k Hk; by apply elem_of_nil in Hk]|].
  destruct (s3_delete_objects (pg_keys pg) d1) as [o d2] eqn:E2. apply law_s3_delete_objects in E2 as [Hd2 Hg2].
  assert ((Io, d2) = (r, d') -> (forall k, bucket d' !! k = bucket d1 !! k \/ starts_with k p = true /\ bucket d' !! k = None) /\ (r = Ok -> forall k, starts_with k p = true -> bucket d' !! k = None) /\ (r = Ok \/ r = Io)) as Hfail.
  { intros [= <- <-]. split; [|split; [done|by right]]. intros k. destruct (Hd2 k) as [|[Hk ?]]; [by left|right]. split; [|done]. apply Hnames, (pk_sound _ _ _ _ _ _ Hpg) in Hk as [Hk _]. by apply Hl in Hk as [_ ?]. }
  destruct o as [[|? ?]|]; [|exact Hfail|exact Hfail]. apply Hnext; [exact Hd2|]. by apply Hg2.
Qed.

Lemma s3_delete_generation_spec g s r s' : catalog_ok s -> s3_delete_generation prefix g s = (r, s') -> catalog_ok s' /\
  (forall k, contents s' !! k = contents s !! k \/ starts_with k (objects_prefix prefix g) = true /\ contents s' !! k = None) /\
  (r = Ok -> forall k, starts_with k (objects_prefix prefix g) = true -> contents s' !! k = None) /\ (r = Ok \/ r = Io).
Proof using laws.
  intros Hok. unfold s3_delete_generation. intros [E Hi]%on_s3_spec. apply delete_pages_spec in E as (H1 & H2 & H3).
  - split; [|done]. assert (forall k o, contents s' !! k = Some o -> contents s !! k = Some o) as Hsub by (intros k o Ho; destruct (H1 k) as [<- |[_ ?]]; congruence). split.
    + intros k [o Ho%Hsub]. apply (co_keys s Hok). by eexists.
    + intros o Ho%Hsub. by apply (co_pointer s Hok).
    + intros k o j Ho%Hsub. rewrite Hi. by apply (co_ids s Hok k o j).
    + intros o g' j Ho%Hsub. rewrite Hi. by apply (co_bodies s Hok o g' j).
  - rewrite law_s3_first. pose proof (left_bound (objects_prefix prefix g) false (sb_s3 s)). lia.
  - intros k _ _. by rewrite law_s3_first.
Qed.

(** ** Runs *)

Inductive CatalogCall : Type :=
  | KRead
  | KSwap (expected : option Entry) (g : Z)
  | KPutSnapshot (g : Z) (b : bytes)
  | KGetSnapshot (g : Z)
  | KPutEdit (g seq : Z) (b : bytes)
  | KGetEdit (g seq : Z)
  | KListEdits (g : Z)
  | KListGenerations
  | KDelete (g : Z).

Definition catalog_call_fits (c : CatalogCall) : Prop :=
  match c with
  | KRead | KListGenerations => True
  | KSwap _ g | KPutSnapshot g _ | KGetSnapshot g | KListEdits g | KDelete g => is_u64 g
  | KPutEdit g seq _ | KGetEdit g seq => is_u64 g /\ is_u64 seq
  end.

Definition run_catalog_call (s : S3Client D) (c : CatalogCall) : S3Client D :=
  match c with
  | KRead => (s3_read prefix s).2
  | KSwap expected g => (s3_compare_and_set ids prefix expected g s).2
  | KPutSnapshot g b => (s3_put_snapshot ids prefix g b s).2
  | KGetSnapshot g => (s3_get_snapshot prefix g s).2
  | KPutEdit g seq b => (s3_put_edit ids prefix g seq b s).2
  | KGetEdit g seq => (s3_get_edit prefix g seq s).2
  | KListEdits g => (s3_list_edits prefix g s).2
  | KListGenerations => (s3_list_generations prefix s).2
  | KDelete g => (s3_delete_generation prefix g s).2
  end.

Lemma put_snapshot_once g b s r s' : catalog_ok s -> is_u64 g -> s3_put_snapshot ids prefix g b s = (r, s') ->
  catalog_ok s' /\ exists packed, stored_once (snapshot_key prefix g) packed s r s' /\ (r = Ok -> pack_snapshot b = Value packed).
Proof using laws ids_inj.
  intros Hok Hg. unfold s3_put_snapshot. destruct (pack_snapshot b) as [packed|e] eqn:E.
  - intros H. apply s3_put_once_spec in H as [? ?]; [|done|exists g; split; [done|by left]]. split; [done|]. by exists packed.
  - intros [= <- <-]. split; [done|]. exists []. unfold pack_snapshot in E. destruct (zstd_compress b); [done|]. injection E as <-. split; [|done]. split; try done. by left.
Qed.

(** An object of a generation stays, byte for byte, through every call but the deletion of its generation. *)
Lemma object_stays key g b s c : catalog_ok s -> is_u64 g -> generation_key prefix g key -> catalog_call_fits c ->
  catalog_ok (run_catalog_call s c) /\ (c <> KDelete g -> body_at s key = Some b -> body_at (run_catalog_call s c) key = Some b).
Proof using laws ids_inj.
  intros Hok Hg Hkey Hc. assert (forall s', contents s' = contents s -> body_at s key = Some b -> body_at s' key = Some b) as Hsame by (intros s' E; unfold body_at; by rewrite E).
  assert (forall key' b' r s', stored_once key' b' s r s' -> body_at s key = Some b -> body_at s' key = Some b) as Hput.
  { intros key' b' r s' [He _ _ Hei] Hb. destruct (decide (key = key')) as [-> |Hne]; [destruct Hei as [-> |[? _]]; [done|congruence]|]. unfold body_at in *. by rewrite He. }
  destruct c as [|expected g'|g' b'|g'|g' seq b'|g' seq|g'| |g']; cbn [run_catalog_call].
  - destruct (s3_read prefix s) as [r s'] eqn:E. apply s3_read_spec in E as (? & ? & _); auto.
  - destruct (s3_compare_and_set ids prefix expected g' s) as [r s'] eqn:E. apply s3_swap_spec in E as [H1 H2]; [|done|done]. split; [done|]. intros _ Hb. unfold swap_answer in H2.
    assert (contents s' = contents s \/ exists t, swapped expected g' s s' t) as [|[t (_ & _ & He)]] by (destruct r as [[e|]|]; [right; exists (token e); apply H2|destruct H2 as [[_ ?]|?]; auto|by destruct H2]); [auto|].
    unfold body_at in *. cbn [snd]. rewrite He; [done|]. by eapply generation_not_pointer.
  - destruct (s3_put_snapshot ids prefix g' b' s) as [r s'] eqn:E. apply put_snapshot_once in E as (? & packed & Hs & _); [|done|done]. split; [done|]. intros _. by apply (Hput _ _ _ _ Hs).
  - unfold s3_get_snapshot. destruct (s3_fetch (snapshot_key prefix g') s) as [r s'] eqn:E. apply s3_fetch_spec in E as (? & ? & _); [|done]. destruct r; auto.
  - destruct Hc as [Hg' Hs']. destruct (s3_put_edit ids prefix g' seq b' s) as [r s'] eqn:E. apply s3_put_once_spec in E as [? Hs]; [|done|exists g'; split; [done|right; by exists seq]]. split; [done|]. intros _. by apply (Hput _ _ _ _ Hs).
  - unfold s3_get_edit. destruct (s3_fetch (edit_key prefix g' seq) s) as [r s'] eqn:E. apply s3_fetch_spec in E as (? & ? & _); auto.
  - destruct (s3_list_edits prefix g' s) as [r s'] eqn:E. apply s3_list_edits_spec in E as (? & ? & _); auto.
  - destruct (s3_list_generations prefix s) as [r s'] eqn:E. apply s3_list_generations_spec in E as (? & ? & _); auto.
  - destruct (s3_delete_generation prefix g' s) as [r s'] eqn:E. apply s3_delete_generation_spec in E as (? & Hd & _); [|done]. split; [done|]. intros Hne Hb. unfold body_at in *. cbn [snd].
    destruct (Hd key) as [-> |[Hst _]]; [done|]. exfalso. apply Hne. f_equal. destruct Hkey as [-> |(seq & _ & ->)]; [by apply snapshot_under in Hst as ->|by apply edit_under in Hst as ->].
Qed.

Lemma object_stays_run key g b l : is_u64 g -> generation_key prefix g key -> Forall catalog_call_fits l -> KDelete g ∉ l ->
  forall s, catalog_ok s -> body_at s key = Some b -> catalog_ok (fold_left run_catalog_call l s) /\ body_at (fold_left run_catalog_call l s) key = Some b.
Proof using laws ids_inj.
  intros Hg Hkey. induction l as [|c l IH]; intros Hl Hn s Hok Hb; [done|]. apply Forall_cons in Hl as [Hc Hl]. apply not_elem_of_cons in Hn as [Hd Hn]. cbn [fold_left].
  destruct (object_stays key g b s c Hok Hg Hkey Hc) as [H1 H2]. apply IH; [done|done|done|]. apply H2; [congruence|done].
Qed.

(** The pointer stays through every call but a swap. *)
Lemma pointer_stays s c : catalog_ok s -> catalog_call_fits c -> (forall expected g, c <> KSwap expected g) -> s3_pointer (run_catalog_call s c) = s3_pointer s.
Proof using laws ids_inj.
  intros Hok Hc Hn. assert (forall s', contents s' !! pointer_key prefix = contents s !! pointer_key prefix -> s3_pointer s' = s3_pointer s) as Hsame by (intros s' E; unfold s3_pointer; by rewrite E).
  apply Hsame. destruct c as [|expected g'|g' b'|g'|g' seq b'|g' seq|g'| |g']; cbn [run_catalog_call].
  - destruct (s3_read prefix s) as [r s'] eqn:E. apply s3_read_spec in E as (_ & E & _); [cbn [snd]; by rewrite E|done].
  - by destruct (Hn expected g').
  - destruct (s3_put_snapshot ids prefix g' b' s) as [r s'] eqn:E. apply put_snapshot_once in E as (_ & packed & [He _ _ _] & _); [|done|done]. apply He, not_eq_sym, (generation_not_pointer prefix g'). by left.
  - unfold s3_get_snapshot. destruct (s3_fetch (snapshot_key prefix g') s) as [r s'] eqn:E. apply s3_fetch_spec in E as (_ & E & _); [|done]. destruct r; cbn [snd]; by rewrite E.
  - destruct Hc as [Hg' Hs']. destruct (s3_put_edit ids prefix g' seq b' s) as [r s'] eqn:E. apply s3_put_once_spec in E as [_ [He _ _ _]]; [|done|exists g'; split; [done|right; by exists seq]]. apply He, not_eq_sym, (generation_not_pointer prefix g'). right. by exists seq.
  - unfold s3_get_edit. destruct (s3_fetch (edit_key prefix g' seq) s) as [r s'] eqn:E. apply s3_fetch_spec in E as (_ & E & _); [cbn [snd]; by rewrite E|done].
  - destruct (s3_list_edits prefix g' s) as [r s'] eqn:E. apply s3_list_edits_spec in E as (_ & E & _); [cbn [snd]; by rewrite E|done|done].
  - destruct (s3_list_generations prefix s) as [r s'] eqn:E. apply s3_list_generations_spec in E as (_ & E & _); [cbn [snd]; by rewrite E|done].
  - destruct (s3_delete_generation prefix g' s) as [r s'] eqn:E. apply s3_delete_generation_spec in E as (_ & Hd & _); [|done]. cbn [snd]. destruct (Hd (pointer_key prefix)) as [|[Hst _]]; [done|].
    exfalso. apply starts_with_spec in Hst as [t Ht]. pose proof (pointer_elsewhere prefix) as Hp. rewrite Ht in Hp. unfold objects_prefix, generations_prefix, gen_prefix in Hp. rewrite <- app_assoc, <- key_for_app, key_under, <- app_assoc in Hp.
    by rewrite (proj2 (starts_with_spec _ _)) in Hp by (by eexists).
Qed.

Lemma pointer_stays_run l : Forall catalog_call_fits l -> (forall expected g, KSwap expected g ∉ l) -> forall s, catalog_ok s ->
  catalog_ok (fold_left run_catalog_call l s) /\ s3_pointer (fold_left run_catalog_call l s) = s3_pointer s.
Proof using laws ids_inj.
  induction l as [|c l IH]; intros Hl Hn s Hok; [done|]. apply Forall_cons in Hl as [Hc Hl]. cbn [fold_left].
  destruct (object_stays (snapshot_key prefix 0) 0 [] s c Hok ltac:(done) ltac:(by left) Hc) as [H1 _].
  destruct (IH Hl ltac:(intros e g Hin; apply (Hn e g); by right) _ H1) as [H2 ->]. split; [done|]. apply pointer_stays; [done|done|]. intros e g ->. apply (Hn e g). by left.
Qed.

(** C8: What the catalog on S3 acknowledged is there until it is deleted. From any state of the bucket the catalog can
    leave, with calls of the service that fail, also after they were applied: an edit that was put, and a snapshot of at
    most 1 GiB, reads back byte for byte, and the edit is listed, after any calls but the deletion of its generation;
    a swap that was answered with an entry moved the pointer from the tag it expected, and a read answers that entry
    after any calls but another swap. Otherwise the answer is [Io]. *)
Theorem s3_manifest_reads_back s l : catalog_ok s -> Forall catalog_call_fits l ->
  (forall g seq b s1, is_u64 g -> is_u64 seq -> KDelete g ∉ l -> s3_put_edit ids prefix g seq b s = (Ok, s1) ->
    let s2 := fold_left run_catalog_call l s1 in
    match (s3_get_edit prefix g seq s2).1 with Value out => out = b | Unexpected e => e = Io end /\
    match (s3_list_edits prefix g s2).1 with Value seqs => seq ∈ seqs | Unexpected e => e = Io end) /\
  (forall g b s1, is_u64 g -> zlen b <= kMaxSnapshotBytes -> KDelete g ∉ l -> s3_put_snapshot ids prefix g b s = (Ok, s1) ->
    match (s3_get_snapshot prefix g (fold_left run_catalog_call l s1)).1 with Value out => out = b | Unexpected e => e = Io end) /\
  (forall expected g e s1, is_u64 g -> (forall expected g, KSwap expected g ∉ l) -> s3_compare_and_set ids prefix expected g s = (Value (Some e), s1) ->
    generation e = g /\ token <$> s3_pointer s = token <$> expected /\
    match (s3_read prefix (fold_left run_catalog_call l s1)).1 with Value p => p = Some e | Unexpected err => err = Io end).
Proof using laws codec_laws ids_inj.
  intros Hok Hl. split_and!.
  - intros g seq b s1 Hg Hs Hn E s2. assert (generation_key prefix g (edit_key prefix g seq)) as Hkey by (right; by exists seq). apply s3_put_once_spec in E as [Hok1 Hst]; [|done|by exists g].
    destruct (object_stays_run _ g b l Hg Hkey Hl Hn s1 Hok1 (proj2 (so_done _ _ _ _ _ Hst eq_refl))) as [Hok2 Hb]. fold s2 in Hok2, Hb. split.
    + unfold s3_get_edit. destruct (s3_fetch _ s2) as [r s3'] eqn:E. apply s3_fetch_spec in E as (_ & _ & H); [|done]. cbn [fst]. rewrite Hb in H. destruct r as [out|[]]; congruence.
    + destruct (s3_list_edits prefix g s2) as [r s3'] eqn:E. apply s3_list_edits_spec in E as (_ & _ & H); [|done|done]. cbn [fst]. destruct r as [seqs|]; [|done]. apply H. split; [done|]. by rewrite Hb.
  - intros g b s1 Hg Hb Hn E. apply put_snapshot_once in E as (Hok1 & packed & Hst & Hp); [|done|done].
    destruct (object_stays_run _ g packed l Hg ltac:(by left) Hl Hn s1 Hok1 (proj2 (so_done _ _ _ _ _ Hst eq_refl))) as [Hok2 Hb2]. set (s2 := fold_left _ l s1) in *.
    unfold s3_get_snapshot. destruct (s3_fetch _ s2) as [r s3'] eqn:E. apply s3_fetch_spec in E as (_ & _ & H); [|done]. rewrite Hb2 in H. destruct r as [raw|e]; cbn [fst]; [|by destruct e]. injection H as <-. by rewrite (unpack_pack b packed Hb (Hp eq_refl)).
  - intros expected g e s1 Hg Hn E. apply s3_swap_spec in E as (Hok1 & He & Hw & Hp & _); [|done|done]. split; [done|]. split; [done|]. destruct (pointer_stays_run l Hl Hn s1 Hok1) as [Hok2 Hp2].
    destruct (s3_read prefix _) as [r s3'] eqn:E. apply s3_read_spec in E as (_ & _ & H); [|done]. cbn [fst]. destruct r as [p|]; [|done]. rewrite H, Hp2, Hp. rewrite <- He. by destruct e.
Qed.
End Contract.

(** ** The catalog on S3, run

    Against the bucket of [S3Mem], with answers lost on the way; and the runs in which the catalog does not do what it
    means to. *)


#[local] Existing Instance copy_codec.
#[local] Existing Instance copy_codec_laws.

Definition numbered_ids (i : nat) : bytes := replicate i x31.

Lemma numbered_ids_inj i j : numbered_ids i = numbered_ids j -> i = j.
Proof. intros H. apply (f_equal length) in H. unfold numbered_ids in H. by rewrite !length_replicate in H. Qed.

Definition new_bucket (script : list S3Fault) : S3Client MemS3 := {| sb_s3 := empty_bucket script; sb_ids := 0 |}.

Lemma new_bucket_ok prefix script : catalog_ok (bucket := mm_bucket) numbered_ids prefix (new_bucket script).
Proof. split; cbn [new_bucket sb_s3 empty_bucket mm_bucket sb_ids]; [intros k [o Ho]|intros o Ho|intros k o j Ho|intros o g j Ho]; by rewrite lookup_empty in Ho. Qed.

(** The answer to every second call is lost. *)
Definition every_second : list S3Fault := [S3Lost; S3Fine; S3Lost; S3Fine].

Lemma s3_manifest_reads_back_witness :
  let start := new_bucket every_second in
  let l := [KSwap None 7; KPutSnapshot 7 [x01]; KDelete 6; KPutEdit 7 1 [x05]; KListGenerations] in
  let put := s3_put_edit numbered_ids [x70] 7 1 [x09; x08] start in
  put.1 = Ok /\ (s3_get_edit [x70] 7 1 (fold_left (run_catalog_call numbered_ids [x70]) l put.2)).1 = Value [x09; x08] /\
  (s3_list_edits [x70] 7 (fold_left (run_catalog_call numbered_ids [x70]) l put.2)).1 = Value [1].
Proof.
  cbv zeta. set (start := new_bucket every_second). set (l := [_; _; _; _; _]). set (put := s3_put_edit numbered_ids [x70] 7 1 [x09; x08] start).
  assert (Forall catalog_call_fits l) as Hl by (repeat apply Forall_cons_2; try (by apply Forall_nil); cbn; done).
  pose proof (s3_manifest_reads_back (laws := mem_s3_laws) numbered_ids numbered_ids_inj [x70] start l (new_bucket_ok _ _) Hl) as [H _].
  assert (put = (Ok, put.2)) as Hput by (vm_compute; reflexivity). destruct (H 7 1 [x09; x08] put.2 ltac:(done) ltac:(done) ltac:(unfold l; rewrite !not_elem_of_cons; split_and!; [discriminate..|apply not_elem_of_nil]) Hput) as [H1 H2].
  split; [by rewrite Hput|]. set (s2 := fold_left (run_catalog_call numbered_ids [x70]) l put.2) in *. split.
  - assert (exists b, (s3_get_edit [x70] 7 1 s2).1 = Value b) as [b Hb] by (eexists; vm_compute; reflexivity). rewrite Hb in *. by rewrite H1.
  - vm_compute. reflexivity.
Defined.

(** ** A swap that happened and is reported lost *)

(** The swap is applied and its answer lost; the second finds the tag changed, by the first, and the read that would
    recognise it fails. The answer is that another writer came first, but the pointer is the one this call wrote. *)
Theorem landed_swap_reported_lost :
  let '(r, s) := s3_compare_and_set numbered_ids [x70] None 1 (new_bucket [S3Lost; S3Dropped]) in
  r = Value None /\ generation <$> s3_pointer (bucket := mm_bucket) [x70] s = Some 1.
Proof. vm_compute. split; reflexivity. Qed.

(** A snapshot of more than 1 GiB is stored and acknowledged like any other, and never unpacked. *)
Lemma oversized_snapshot_unreadable {codec : CodecOps} b packed : kMaxSnapshotBytes < zlen b < 2 ^ 64 -> pack_snapshot b = Value packed -> unpack_snapshot packed = Unexpected Corrupt.
Proof.
  intros Hb. unfold pack_snapshot, unpack_snapshot. destruct (zstd_compress b) as [out|]; [|done]. intros H. assert (packed = put_fixed64 (zlen b) ++ out) as -> by congruence. cbv zeta.
  rewrite decode_put_fixed64, u64_small by (unfold is_u64, kMaxSnapshotBytes in *; lia). rewrite (proj2 (Z.ltb_ge _ 8)) by (unfold zlen; rewrite length_app, length_put_fixed64; lia).
  by rewrite (proj2 (Z.ltb_lt kMaxSnapshotBytes (zlen b))) by lia.
Qed.
