(* ===== verification/VersionSet.v ===== *)
(** * The version set

    [src/version/version_set.hpp] and [version_set.cpp]: the manifest protocol. The catalog
    ([include/elysiumkv/manifest_catalog.hpp]) is an interface, a class of operations over a state of its
    own, so that a caller threads it; its laws are in [Catalog]. Locks are not modelled: each operation holds the
    mutex throughout. A [std::weak_ptr] of [live_versions_] is a version with the number of its install, and
    whether somebody holds it is an argument. Error texts are left out. *)

From S2P Require Import Prelude Slice Format Framing Crypto Names ManifestPayload Watermark VersionEdit Version Catalog.

(** ** State *)

Record PendingDeletion := { pending_file : FileMetadata; unreferenced_since_ms : Z }.

Record VersionSet := {
  current_ : Version;
  entry_ : option Entry;
  next_seq_ : Z;
  file_counter_ : Z;  (* next_file_number_ *)
  fenced_ : bool;
  live_versions_ : list (nat * Version);
  pending_deletions_ : list PendingDeletion;
  file_counts_ : list Z;
  installs_ : nat;
  pending_reencryption_ : Z
}.

Definition kPublishedLevels : nat := 16.

(** The constructor: an empty version that was not installed. *)
Definition new_version_set : VersionSet :=
  {| current_ := empty_version; entry_ := None; next_seq_ := 1; file_counter_ := 1; fenced_ := false; live_versions_ := [];
     pending_deletions_ := []; file_counts_ := replicate kPublishedLevels 0; installs_ := 0; pending_reencryption_ := 0 |}.

Definition with_fenced (vs : VersionSet) : VersionSet :=
  {| current_ := current_ vs; entry_ := entry_ vs; next_seq_ := next_seq_ vs; file_counter_ := file_counter_ vs; fenced_ := true;
     live_versions_ := live_versions_ vs; pending_deletions_ := pending_deletions_ vs; file_counts_ := file_counts_ vs;
     installs_ := installs_ vs; pending_reencryption_ := pending_reencryption_ vs |}.

Definition with_counter (vs : VersionSet) (n : Z) : VersionSet :=
  {| current_ := current_ vs; entry_ := entry_ vs; next_seq_ := next_seq_ vs; file_counter_ := n; fenced_ := fenced_ vs;
     live_versions_ := live_versions_ vs; pending_deletions_ := pending_deletions_ vs; file_counts_ := file_counts_ vs;
     installs_ := installs_ vs; pending_reencryption_ := pending_reencryption_ vs |}.

Definition with_manifest (vs : VersionSet) (e : option Entry) (seq pending : Z) : VersionSet :=
  {| current_ := current_ vs; entry_ := e; next_seq_ := seq; file_counter_ := file_counter_ vs; fenced_ := fenced_ vs;
     live_versions_ := live_versions_ vs; pending_deletions_ := pending_deletions_ vs; file_counts_ := file_counts_ vs;
     installs_ := installs_ vs; pending_reencryption_ := pending |}.

Definition with_pending (vs : VersionSet) (live : list (nat * Version)) (pending : list PendingDeletion) : VersionSet :=
  {| current_ := current_ vs; entry_ := entry_ vs; next_seq_ := next_seq_ vs; file_counter_ := file_counter_ vs; fenced_ := fenced_ vs;
     live_versions_ := live; pending_deletions_ := pending; file_counts_ := file_counts_ vs;
     installs_ := installs_ vs; pending_reencryption_ := pending_reencryption_ vs |}.

(** ** Numbers, counts, installs *)

Definition allocate_file_number (vs : VersionSet) : Z * VersionSet := (file_counter_ vs, with_counter vs (u64 (file_counter_ vs + 1))).

Definition observe_file_number (vs : VersionSet) (number : Z) : VersionSet :=
  if file_counter_ vs <=? number then with_counter vs (u64 (number + 1)) else vs.

Definition mark_fenced (vs : VersionSet) : VersionSet := with_fenced vs.

Definition vs_generation (vs : VersionSet) : Z := match entry_ vs with Some e => generation e | None => 0 end.

Definition published_file_count (vs : VersionSet) (lvl : Z) : Z :=
  if (lvl <? 0) || (Z.of_nat kPublishedLevels <=? lvl) then 0 else default 0 (file_counts_ vs !! Z.to_nat lvl).

Definition published_counts (v : Version) : list Z :=
  map (fun lvl => if lvl <? num_levels v then u32 (file_count v lvl) else 0) (seqZ 0 (Z.of_nat kPublishedLevels)).

Definition install (vs : VersionSet) (v : Version) : VersionSet :=
  {| current_ := v; entry_ := entry_ vs; next_seq_ := next_seq_ vs; file_counter_ := file_counter_ vs; fenced_ := fenced_ vs;
     live_versions_ := live_versions_ vs ++ [(S (installs_ vs), v)]; pending_deletions_ := pending_deletions_ vs;
     file_counts_ := published_counts v; installs_ := S (installs_ vs); pending_reencryption_ := pending_reencryption_ vs |}.

Definition referenced_file_numbers (vs : VersionSet) : list Z := map file_number (all_files (current_ vs)).

Definition pending_file_numbers (vs : VersionSet) : list Z := map (fun p => file_number (pending_file p)) (pending_deletions_ vs).

(** ** Collecting obsolete files *)

(** [held]: the installs somebody other than [current_] still holds. *)
Definition alive (vs : VersionSet) (held : nat -> bool) (id : nat) : bool := (id =? installs_ vs)%nat || held id.

Definition referenced_by (live : list (nat * Version)) : list Z := concat (map (fun p => map file_number (all_files p.2)) live).

Definition retained (retention now : Z) (p : PendingDeletion) : bool :=
  (0 <? retention) && (unreferenced_since_ms p <=? now) && (now - unreferenced_since_ms p <? retention).

Definition still_pending (referenced : list Z) (retention now : Z) (p : PendingDeletion) : bool :=
  bool_decide (file_number (pending_file p) ∈ referenced) || retained retention now p.

(** [deleter]: what could not be deleted of what it was given; [None] where the set has none. Answers the
    files it was given, too. *)
Definition collect_obsolete (deleter : option (list FileMetadata -> list FileMetadata)) (retention now : Z) (held : nat -> bool)
    (vs : VersionSet) : list FileMetadata * VersionSet :=
  let live := List.filter (fun p => alive vs held p.1) (live_versions_ vs) in
  match deleter with
  | None => ([], with_pending vs live (pending_deletions_ vs))
  | Some delete =>
      if bool_decide (pending_deletions_ vs = []) then ([], with_pending vs live [])
      else
        let referenced := referenced_by live in
        let keep := List.filter (still_pending referenced retention now) (pending_deletions_ vs) in
        let collectable := map pending_file (List.filter (fun p => negb (still_pending referenced retention now p)) (pending_deletions_ vs)) in
        let failed := if bool_decide (collectable = []) then [] else delete collectable in
        (collectable, with_pending vs live (keep ++ map (fun f => {| pending_file := f; unreferenced_since_ms := 0 |}) failed))
  end.

(** What [apply] queues: the metadata of each deleted file that is not added again. *)
Definition queue_deletions (base : Version) (e : VersionEdit) (now : Z) : list PendingDeletion :=
  let re_added := map file_number (added e) in
  omap (fun r =>
      if bool_decide (ref_number r ∈ re_added) then None
      else match List.find (fun f => file_number f =? ref_number r) (files_at base (ref_level r)) with
           | Some f => Some {| pending_file := f; unreferenced_since_ms := now |}
           | None => None
           end)
    (deleted e).

(** ** Snapshots *)

(** The pointers in the order of a [std::map]. *)
Definition pointer_le (a b : Z * bytes) : Prop := a.1 <= b.1.

#[export] Instance pointer_le_dec : RelDecision pointer_le.
Proof. unfold pointer_le. intros a b. apply _. Defined.

Definition sorted_pointers (m : gmap Z bytes) : list (Z * bytes) := merge_sort pointer_le (map_to_list m).

Definition snapshot_of (v : Version) (counter : Z) : VersionSnapshot :=
  {| snap_next_file_number := counter; snap_files := all_files v; snap_compaction_pointers := sorted_pointers (compaction_pointers_ v);
     snap_truncation_point := truncation_point_ v; snap_watermark_floor := watermark_floor_ v |}.

(** The version a snapshot decodes to, before any edit. *)
Definition version_of_snapshot (s : VersionSnapshot) : Version :=
  apply
    (make_version [] (snap_next_file_number s) (fold_left (fun m p => <[p.1 := p.2]> m) (snap_compaction_pointers s) ∅)
       (snap_truncation_point s) (snap_watermark_floor s))
    {| next_file_number := 0; added := snap_files s; deleted := []; compaction_pointers := []; truncation_point := [];
       floor_update := Silent; watermark_floor := {| position := None |} |}.

Section Manifest.
Context {M : Type} {cat : ManifestCatalog M} {ops : CodecOps} (registry : ProviderRegistry) (edits_per_generation : Z).

Definition same_entry (a b : option Entry) : bool := bool_decide (a = b).

Definition kSnapshotAttempts : nat := 16.

(** The loop that finds a free generation: [attempts] are left. [Unexpected Fenced] is the only answer that
    also sets the flag, so it is returned beside the status. *)
Fixpoint place_snapshot (attempts : nat) (expected : option Entry) (g : Z) (snapshot : bytes) (m : M) : (Result Z * bool) * M :=
  match attempts with
  | O => ((Unexpected Unusable, false), m)
  | S left_ =>
      match payload_seal registry g (snapshot_address g) snapshot with
      | Unexpected s => ((Unexpected s, false), m)
      | Value framed =>
          let '(status, m) := put_snapshot g framed m in
          match status with
          | Ok => ((Value g, false), m)
          | Config =>
              let '(pointer, m) := cat_read m in
              match pointer with
              | Unexpected s => ((Unexpected s, false), m)
              | Value pointer =>
                  if negb (same_entry expected pointer) then ((Unexpected Fenced, true), m)
                  else
                    let '(generations, m) := list_generations m in
                    match (match generations with
                           | Value gs => Value (fold_left Z.max gs g)
                           | Unexpected s => if bool_decide (s = Unsupported) then Value g else Unexpected s
                           end) with
                    | Unexpected s => ((Unexpected s, false), m)
                    | Value g =>
                        if g =? 2 ^ 64 - 1 then ((Unexpected Unusable, false), m)
                        else if Nat.eqb left_ 0 then ((Unexpected Unusable, false), m)
                        else place_snapshot left_ expected (g + 1) snapshot m
                    end
              end
          | s => ((Unexpected s, false), m)
          end
      end
  end.

(** Past the commit point: the new entry is ours, and the generation before it goes. *)
Definition commit_generation (vs : VersionSet) (e : Entry) (m : M) : Status * VersionSet * M :=
  let vs' := with_manifest vs (Some e) (next_seq_ vs) 0 in
  match entry_ vs with
  | Some previous => let '(_, m) := delete_generation (generation previous) m in (Ok, vs', m)
  | None => (Ok, vs', m)
  end.

Definition write_snapshot_and_install (vs : VersionSet) (g : Z) (v : Version) (m : M) : Status * VersionSet * M :=
  let snapshot := encode_version_snapshot (snapshot_of v (file_counter_ vs)) in
  match place_snapshot kSnapshotAttempts (entry_ vs) g snapshot m with
  | ((Unexpected s, fence), m) => (s, if fence then with_fenced vs else vs, m)
  | ((Value g, _), m) =>
      let '(installed, m) := compare_and_set (entry_ vs) g m in
      match installed with
      | Value (Some e) => commit_generation vs e m
      | Value None => (Fenced, with_fenced vs, m)
      | Unexpected Io =>
          let '(observed, m) := cat_read m in
          match observed with
          | Unexpected s => (s, vs, m)
          | Value observed =>
              match observed with
              | Some e => if generation e =? g then commit_generation vs e m
                          else if same_entry (entry_ vs) observed then (Io, vs, m) else (Fenced, with_fenced vs, m)
              | None => if same_entry (entry_ vs) observed then (Io, vs, m) else (Fenced, with_fenced vs, m)
              end
          end
      | Unexpected s => (s, vs, m)
      end
  end.

Definition with_seq (vs : VersionSet) (seq : Z) : VersionSet := with_manifest vs (entry_ vs) seq (pending_reencryption_ vs).

Definition create (vs : VersionSet) (m : M) : Status * VersionSet * M :=
  match write_snapshot_and_install vs 1 empty_version m with
  | (Ok, vs, m) => (Ok, install (with_seq vs 1) empty_version, m)
  | r => r
  end.

(** ** Recovery *)

Definition refuses_plaintext (files : list FileMetadata) : bool :=
  negb (bool_decide (primary registry = [])) && negb (accept_plaintext registry) &&
  existsb (fun f => bool_decide (encryption_provider f = [])) files.

(** What replaying the edits of a generation comes to. *)
Inductive Replay : Type :=
  | Replayed (v : Version) (counter expected stale : Z)
  | Unreadable
  | MissingEdit
  | Refused (s : Status).

Fixpoint replay (g back : Z) (seqs : list Z) (v : Version) (counter expected stale : Z) (m : M) : Replay * M :=
  match seqs with
  | [] => (Replayed v counter expected stale, m)
  | seq :: rest =>
      if negb (seq =? expected) then (Replayed v counter expected stale, m)
      else
        let tail := seq =? back in
        let '(bytes_, m) := get_edit g seq m in
        match bytes_ with
        | Unexpected NotFound => (if tail then Replayed v counter expected stale else MissingEdit, m)
        | Unexpected _ => (Unreadable, m)
        | Value bytes_ =>
            match payload_open registry g (edit_address g seq) bytes_ with
            | Unexpected Config => (Refused Config, m)
            | Unexpected Unsupported => (Refused Unsupported, m)
            | Unexpected s => (if tail && bool_decide (s = Corrupt) then Replayed v counter expected stale else Refused Corrupt, m)
            | Value (plain, provider) =>
                match decode_version_edit plain with
                | Unexpected s =>
                    (if tail && bool_decide (s = Corrupt) then Replayed v counter expected stale
                     else Refused (if bool_decide (s = Unsupported) then Unsupported else Corrupt), m)
                | Value e =>
                    if refuses_plaintext (added e) then (Refused Config, m)
                    else replay g back rest (apply v e) (Z.max counter (next_file_number e)) (expected + 1)
                           (if slice_eqb provider (primary registry) then stale else stale + 1) m
                end
            end
        end
  end.

(** One attempt of the loop. [Undefined] is the dereference of a pointer read that failed. *)
Inductive Attempt : Type := Done (s : Status) (vs : VersionSet) | Again | Undefined.

Definition moved_on (pointer : option Entry) (g : Z) : bool :=
  match pointer with Some e => negb (generation e =? g) | None => false end.

Definition recover_once (vs : VersionSet) (m : M) : Attempt * M :=
  let '(pointer, m) := cat_read m in
  match pointer with
  | Unexpected s => (Done s vs, m)
  | Value None => (Done NotFound vs, m)
  | Value (Some entry) =>
      let g := generation entry in
      let '(snapshot_bytes, m) := get_snapshot g m in
      match snapshot_bytes with
      | Unexpected NotFound =>
          let '(moved, m) := cat_read m in
          match moved with
          | Unexpected s => (Done s vs, m)
          | Value moved => (if moved_on moved g then Again else Done Corrupt vs, m)
          end
      | Unexpected s => (Done s vs, m)
      | Value snapshot_bytes =>
          match payload_open registry g (snapshot_address g) snapshot_bytes with
          | Unexpected s => (Done s vs, m)
          | Value (snapshot_plain, provider) =>
              match decode_version_snapshot snapshot_plain with
              | Unexpected s => (Done s vs, m)
              | Value snapshot =>
                  if refuses_plaintext (snap_files snapshot) then (Done Config vs, m)
                  else
                    let '(seqs, m) := list_edits g m in
                    match seqs with
                    | Unexpected s => (Done s vs, m)
                    | Value seqs =>
                        let seqs := merge_sort Z.le seqs in
                        let stale := if slice_eqb provider (primary registry) then 0 else 1 in
                        let '(r, m) := replay g (default 0 (last seqs)) seqs (version_of_snapshot snapshot) (snap_next_file_number snapshot) 1 stale m in
                        match r with
                        | Refused s => (Done s vs, m)
                        | Unreadable =>
                            let '(moved, m) := cat_read m in
                            match moved with
                            | Unexpected _ => (Undefined, m)
                            | Value moved => (if moved_on moved g then Again else Done Io vs, m)
                            end
                        | MissingEdit =>
                            let '(moved, m) := cat_read m in
                            match moved with
                            | Unexpected s => (Done s vs, m)
                            | Value moved => (if moved_on moved g then Again else Done Corrupt vs, m)
                            end
                        | Replayed v counter expected stale =>
                            let '(after, m) := cat_read m in
                            match after with
                            | Unexpected s => (Done s vs, m)
                            | Value None => (Done NotFound vs, m)
                            | Value (Some after) =>
                                if negb (generation after =? g) then (Again, m)
                                else if match entry_ vs with
                                        | Some e => (g <? generation e) || ((g =? generation e) && (expected <? next_seq_ vs))
                                        | None => false
                                        end then (Done Corrupt vs, m)
                                else (Done Ok (install (with_counter (with_manifest vs (Some entry) expected stale) counter) v), m)
                            end
                        end
                    end
              end
          end
      end
  end.

Definition kRecoverAttempts : nat := 4.

Fixpoint recover_loop (attempts : nat) (vs : VersionSet) (m : M) : option (Status * VersionSet) * M :=
  match attempts with
  | O => (Some (Stale, vs), m)
  | S left_ =>
      match recover_once vs m with
      | (Done s vs, m) => (Some (s, vs), m)
      | (Again, m) => recover_loop left_ vs m
      | (Undefined, m) => (None, m)
      end
  end.

(** [None]: the program has no defined behaviour. *)
Definition recover (vs : VersionSet) (m : M) : option (Status * VersionSet) * M := recover_loop kRecoverAttempts vs m.

(** ** Edits *)

Definition with_number (e : VersionEdit) (n : Z) : VersionEdit :=
  {| next_file_number := n; added := added e; deleted := deleted e; compaction_pointers := compaction_pointers e;
     truncation_point := truncation_point e; floor_update := floor_update e; watermark_floor := watermark_floor e |}.

Definition maybe_roll_generation (vs : VersionSet) (v : Version) (m : M) : Status * VersionSet * M :=
  if next_seq_ vs <=? Z.max 1 edits_per_generation then (Ok, vs, m)
  else
    match write_snapshot_and_install vs (u64 (vs_generation vs + 1)) v m with
    | (Ok, vs, m) => (Ok, with_seq vs 1, m)
    | r => r
    end.

Definition roll_generation_now (vs : VersionSet) (m : M) : Status * VersionSet * M :=
  if fenced_ vs then (Fenced, vs, m)
  else match entry_ vs with
  | None => (Unusable, vs, m)
  | Some e =>
      if (next_seq_ vs =? 1) && (pending_reencryption_ vs =? 0) then (Ok, vs, m)
      else
        match write_snapshot_and_install vs (u64 (generation e + 1)) (current_ vs) m with
        | (Ok, vs, m) => (Ok, with_seq vs 1, m)
        | r => r
        end
  end.

Context (deleter : option (list FileMetadata -> list FileMetadata)) (retention : Z).

Definition vs_apply (vs : VersionSet) (e : VersionEdit) (now : Z) (held : nat -> bool) (m : M) : Status * VersionSet * M :=
  if fenced_ vs then (Fenced, vs, m)
  else match entry_ vs with
  | None => (Unusable, vs, m)
  | Some entry =>
      let e := with_number e (file_counter_ vs) in
      match payload_seal registry (generation entry) (edit_address (generation entry) (next_seq_ vs)) (encode_version_edit e) with
      | Unexpected s => (s, vs, m)
      | Value framed =>
          match put_edit (generation entry) (next_seq_ vs) framed m with
          | (Ok, m) =>
              let base := current_ vs in
              let vs := with_seq vs (next_seq_ vs + 1) in
              let vs := with_pending vs (live_versions_ vs) (pending_deletions_ vs ++ queue_deletions base e now) in
              let next := apply base e in
              let vs := install vs next in
              let '(_, vs, m) := maybe_roll_generation vs next m in
              (Ok, (collect_obsolete deleter retention now held vs).2, m)
          | (Config, m) => (Fenced, with_fenced vs, m)
          | (s, m) => (s, vs, m)
          end
      end
  end.

Definition manifest_advanced (vs : VersionSet) (m : M) : bool * M :=
  match entry_ vs with
  | None => (false, m)
  | Some e =>
      let '(pointer, m) := cat_read m in
      match pointer with
      | Value (Some p) =>
          if negb (generation p =? generation e) then (true, m)
          else
            let '(seqs, m) := list_edits (generation e) m in
            match seqs with
            | Value seqs => (existsb (fun seq => next_seq_ vs <=? seq) seqs, m)
            | Unexpected _ => (false, m)
            end
      | _ => (false, m)
      end
  end.
End Manifest.
