(* ===== verification/Open.v ===== *)
(** * Opening a store

    [src/db/db_impl.cpp]: resolving the encryption options, recovering the version, checking every store
    against it, discarding what a transient store lost, and choosing the position to resume after
    ([DbImpl::recover], [verify_stores_and_discard], [adopt_recovered_watermark],
    [mark_recovery_complete]). A store's listing is an argument: the names it holds, or the failure to look. The stores are
    in the order of the [std::map] they are kept in. *)

From S2P Require Import Prelude Slice Format Framing Crypto Names ManifestPayload Watermark VersionEdit Version Catalog VersionSet.

(** ** Configuration *)

(** The head of [DbImpl::recover]. [None] is a null provider. *)
Definition resolve_encryption (configured : list (bytes * option EncryptionProvider)) (primary_id : bytes) (plaintext : bool) : Result ProviderRegistry :=
  if existsb (fun p => slice_eqb p.1 []) configured then Unexpected Config
  else if existsb (fun p => match p.2 with None => true | Some _ => false end) configured then Unexpected Config
  else
    let ps := omap (fun p => match p.2 with Some q => Some (p.1, q) | None => None end) configured ++ [([], no_encryption_provider)] in
    match find_provider ps primary_id with
    | None => Unexpected Config
    | Some _ => Value {| providers := ps; primary := primary_id; accept_plaintext := plaintext |}
    end.

(** ** What is listed, and what is missing *)

Definition Listing : Type := bytes * Result (list bytes).

Definition observe_name (vs : VersionSet) (name : bytes) : VersionSet :=
  match sst_file_number name with Some n => observe_file_number vs n | None => vs end.

Definition observe_names (vs : VersionSet) (names : list bytes) : VersionSet := fold_left observe_name names vs.

(** The loop over the listings: numbers are stepped over, and the first store that could not be listed stops it. *)
Fixpoint step_over (stores : list Listing) (vs : VersionSet) : Status * VersionSet :=
  match stores with
  | [] => (Ok, vs)
  | (_, Unexpected s) :: _ => (if bool_decide (s = NotFound) then Io else s, vs)
  | (_, Value names) :: rest => step_over rest (observe_names vs names)
  end.

Fixpoint present_in (stores : list Listing) (id : bytes) : option (list bytes) :=
  match stores with
  | [] => None
  | (name, Value names) :: rest => if slice_eqb name id then Some names else present_in rest id
  | _ :: rest => present_in rest id
  end.

Definition file_missing (stores : list Listing) (f : FileMetadata) : bool :=
  match present_in stores (store_id f) with
  | Some names => negb (bool_decide (sst_object_name (file_number f) ∈ names))
  | None => false
  end.

Definition unknown_store (stores : list Listing) (f : FileMetadata) : bool :=
  match present_in stores (store_id f) with Some _ => false | None => true end.

(** ** Discarding a store *)

(** What the recovery has gathered. *)
Record Opening := {
  op_versions : VersionSet;
  op_watermark : RecoveryWatermark;
  op_discarded : list bytes;
  op_discarded_files : Z;
  op_requires_recovery : bool
}.

Definition on_store (id : bytes) (f : FileMetadata) : bool := slice_eqb (store_id f) id.

(** The files a loss takes, the loss folded in, and the edit that records both. *)
Definition lost_files (v : Version) (id : bytes) : list FileMetadata := List.filter (on_store id) (all_files v).

Definition observe_loss (r : RecoveryWatermark) (files : list FileMetadata) : RecoveryWatermark :=
  fold_left (fun r f => observe_discarded r (watermark f)) files r.

Definition recorded_floor (v : Version) (r : RecoveryWatermark) : WatermarkFloor :=
  lower_to (default {| position := discarded_lower_bound r |} (watermark_floor_ v)) (discarded_lower_bound r).

Definition discard_edit (v : Version) (id : bytes) (r : RecoveryWatermark) : VersionEdit :=
  {| next_file_number := 0; added := []; deleted := map (fun f => {| ref_level := level f; ref_number := file_number f |}) (lost_files v id);
     compaction_pointers := []; truncation_point := []; floor_update := SetFloor; watermark_floor := recorded_floor v r |}.

Section Open.
Context {M : Type} {cat : ManifestCatalog M} {ops : CodecOps} (registry : ProviderRegistry) (edits_per_generation : Z).
Context (deleter : option (list FileMetadata -> list FileMetadata)) (retention now : Z).

(** The loop over the stores with missing files: [missing] says which they were. *)
Fixpoint discard_stores (discardable missing : bytes -> bool) (read_only : bool) (ids : list bytes) (o : Opening) (m : M) : Status * Opening * M :=
  match ids with
  | [] => (Ok, o, m)
  | id :: rest =>
      if negb (missing id) then discard_stores discardable missing read_only rest o m
      else if read_only then (Corrupt, o, m)
      else if negb (discardable id) then (Corrupt, o, m)
      else
        let v := current_ (op_versions o) in
        let lost := lost_files v id in
        let r := observe_loss (op_watermark o) lost in
        match vs_apply registry edits_per_generation deleter retention (op_versions o) (discard_edit v id r) now (fun _ => false) m with
        | (Ok, vs, m) =>
            discard_stores discardable missing read_only rest
              {| op_versions := vs; op_watermark := r; op_discarded := op_discarded o ++ [id];
                 op_discarded_files := op_discarded_files o + Z.of_nat (length lost); op_requires_recovery := true |} m
        | (s, vs, m) => (s, {| op_versions := vs; op_watermark := r; op_discarded := op_discarded o; op_discarded_files := op_discarded_files o;
                               op_requires_recovery := op_requires_recovery o |}, m)
        end
  end.

Definition verify_stores_and_discard (stores : list Listing) (discardable : bytes -> bool) (read_only : bool) (vs : VersionSet) (m : M)
  : Status * Opening * M :=
  let start vs := {| op_versions := vs; op_watermark := recovery_start; op_discarded := []; op_discarded_files := 0; op_requires_recovery := false |} in
  match step_over stores vs with
  | (Ok, vs) =>
      let files := all_files (current_ vs) in
      if existsb (unknown_store stores) files then (Config, start vs, m)
      else
        let missing id := existsb (fun f => on_store id f && file_missing stores f) files in
        discard_stores discardable missing read_only (map fst stores) (start vs) m
  | (s, vs) => (s, start vs, m)
  end.

(** ** The position to resume after *)

Definition adopt_recovered_watermark (r : RecoveryWatermark) (v : Version) : option Z :=
  let recovered := resume_after (fold_left (fun r f => observe_survivor r (watermark f)) (all_files v) r) in
  match watermark_floor_ v with
  | None => recovered
  | Some floor =>
      match position floor with
      | None => None
      | Some p => match recovered with Some q => Some (Z.min q p) | None => Some p end
      end
  end.

(** ** [DbImpl::recover] *)

Record OpenedDb := {
  od_opening : Opening;
  od_recovered_watermark : option Z;
  od_write_floor : bytes
}.

Definition opened_empty (vs : VersionSet) : OpenedDb :=
  {| od_opening := {| op_versions := vs; op_watermark := recovery_start; op_discarded := []; op_discarded_files := 0; op_requires_recovery := false |};
     od_recovered_watermark := None; od_write_floor := [] |}.

(** A fresh store steps over what the directory already holds; a listing that failed is skipped here. *)
Definition step_over_all (stores : list Listing) (vs : VersionSet) : VersionSet :=
  fold_left (fun vs l => match l.2 with Value names => observe_names vs names | Unexpected _ => vs end) stores vs.

Definition open_store (stores : list Listing) (discardable : bytes -> bool) (read_only : bool) (m : M) : option (Status * OpenedDb) * M :=
  match recover registry new_version_set m with
  | (None, m) => (None, m)
  | (Some (NotFound, vs), m) =>
      if read_only then (Some (NotFound, opened_empty vs), m)
      else match create registry vs m with
           | (Ok, vs, m) => (Some (Ok, opened_empty (step_over_all stores vs)), m)
           | (s, vs, m) => (Some (s, opened_empty vs), m)
           end
  | (Some (Ok, vs), m) =>
      match verify_stores_and_discard stores discardable read_only vs m with
      | (Ok, o, m) =>
          let v := current_ (op_versions o) in
          (Some (Ok, {| od_opening := o; od_recovered_watermark := adopt_recovered_watermark (op_watermark o) v;
                        od_write_floor := truncation_point_ v |}), m)
      | (s, o, m) => (Some (s, {| od_opening := o; od_recovered_watermark := None; od_write_floor := [] |}), m)
      end
  | (Some (s, vs), m) => (Some (s, opened_empty vs), m)
  end.

(** ** Declaring a replay complete *)

Definition clear_edit : VersionEdit :=
  {| next_file_number := 0; added := []; deleted := []; compaction_pointers := []; truncation_point := []; floor_update := Clear;
     watermark_floor := {| position := None |} |}.

(** [mark_recovery_complete]; [requires_recovery_] is cleared whatever the status. *)
Definition mark_recovery_complete (read_only : bool) (vs : VersionSet) (m : M) : Status * VersionSet * M :=
  if read_only then (Ok, vs, m)
  else match watermark_floor_ (current_ vs) with
       | None => (Ok, vs, m)
       | Some _ => vs_apply registry edits_per_generation deleter retention vs clear_edit now (fun _ => false) m
       end.
End Open.
