(* ===== verification/WriteSst.v ===== *)
(** * Writing a new SST object

    [DbImpl::write_new_sst] and [list_all_stores] of [src/db/db_impl.cpp], against the contract of a blob store
    and the counter of the version set. A name that is taken is a numbering accident: the stores are listed,
    the counter steps over what they hold, and the object is sealed again under its new number. *)

From S2P Require Import Prelude Slice Crypto Names ManifestPayload FileSystem DiskCatalog DiskCrash Blob DiskBlob BlobCrash VersionSet Open.

(** ** Definitions *)

(** What was written: its number, and how it was sealed. *)
Record WrittenObject := { wo_file_number : Z; wo_encryption_provider : bytes; wo_encryption_metadata : bytes }.

Section Write.
Context {S : Type} {ops : BlobStore S}.

(** The stores of the configuration in the order of their identifiers, one of them to be written to. *)
Record Stores := { st_before : list (bytes * S); st_id : bytes; st_target : S; st_after : list (bytes * S) }.

Definition all_stores (w : Stores) : list (bytes * S) := st_before w ++ (st_id w, st_target w) :: st_after w.

Definition with_target (w : Stores) (s : S) : Stores := {| st_before := st_before w; st_id := st_id w; st_target := s; st_after := st_after w |}.

Definition list_store (p : bytes * S) : Listing * (bytes * S) := let '(r, s) := bs_list [] p.2 in ((p.1, r), (p.1, s)).

(** Every store's full listing, in order. *)
Definition list_all_stores (w : Stores) : list Listing * Stores :=
  let before := map list_store (st_before w) in
  let target := list_store (st_id w, st_target w) in
  let after := map list_store (st_after w) in
  (map fst before ++ target.1 :: map fst after,
   {| st_before := map snd before; st_id := st_id w; st_target := target.2.2; st_after := map snd after |}).

(** The counter steps over every number listed; a store that could not be listed ends it. *)
Fixpoint refresh (listings : list Listing) (vs : VersionSet) : option Status * VersionSet :=
  match listings with
  | [] => (None, vs)
  | (_, Unexpected e) :: _ => (Some (if bool_decide (e = NotFound) then Io else e), vs)
  | (_, Value names) :: rest => refresh rest (observe_names vs names)
  end.

Section Attempts.
Context (primary_id : bytes) (provider : EncryptionProvider) (seal : bool) (b : bytes).

(** The bytes to store under a number, and what the version records of them. *)
Definition payload_for (number : Z) : Result (bytes * WrittenObject) :=
  if seal then
    let? (c, metadata) := p_create provider number in
    let? sealed := seal_object c b in
    Value (sealed, {| wo_file_number := number; wo_encryption_provider := primary_id; wo_encryption_metadata := metadata |})
  else Value (b, {| wo_file_number := number; wo_encryption_provider := []; wo_encryption_metadata := [] |}).

Fixpoint write_attempts (attempts : nat) (vs : VersionSet) (w : Stores) : Result WrittenObject * (VersionSet * Stores) :=
  match attempts with
  | O => (Unexpected Unusable, (vs, w))
  | Datatypes.S attempts =>
      let '(number, vs) := allocate_file_number vs in
      match payload_for number with
      | Unexpected e => (Unexpected e, (vs, w))
      | Value (payload, written) =>
          let '(status, s) := bs_put (sst_object_name number) payload (st_target w) in
          let w := with_target w s in
          match status with
          | Ok => (Value written, (vs, w))
          | Unusable =>
              let '(listings, w) := list_all_stores w in
              match refresh listings vs with
              | (Some e, vs) => (Unexpected e, (vs, w))
              | (None, vs) => write_attempts attempts vs w
              end
          | _ => (Unexpected status, (vs, w))
          end
      end
  end.
End Attempts.

Definition kAttempts : nat := 16.

(** [write_new_sst]; the provider is resolved once. *)
Definition write_new_sst (registry : ProviderRegistry) (b : bytes) (seal : bool) (vs : VersionSet) (w : Stores) : Result WrittenObject * (VersionSet * Stores) :=
  match find_provider (providers registry) (primary registry) with
  | None => (Unexpected Config, (vs, w))
  | Some provider => write_attempts (primary registry) provider seal b kAttempts vs w
  end.
End Write.

Arguments Stores : clear implicits.

(** ** Numbers *)

Lemma digits_wrap_bound s : forall a n, 0 <= a -> (a + 1) * 10 ^ Z.of_nat (length s) <= 2 ^ 64 -> digits_wrap a s = Some n -> 0 <= n < (a + 1) * 10 ^ Z.of_nat (length s).
Proof.
  induction s as [|c s IH]; intros a n Ha Hb; cbn [digits_wrap length]; [intros [= <-]; change (Z.of_nat 0) with 0; lia|].
  destruct (is_digit c) eqn:Ec; [|done]. unfold is_digit in Ec. apply andb_true_iff in Ec as [E1%Z.leb_le E2%Z.leb_le].
  cbn [length] in Hb. rewrite Nat2Z.inj_succ, Z.pow_succ_r in * by lia. pose proof (Z.pow_pos_nonneg 10 (Z.of_nat (length s)) ltac:(lia) ltac:(lia)) as Hpow. set (P := 10 ^ Z.of_nat (length s)) in *.
  assert (u64 (u64 (a * 10) + (zb c - 48)) = a * 10 + (zb c - 48)) as -> by (unfold u64; rewrite (Z.mod_small (a * 10)) by nia; apply Z.mod_small; nia).
  intros H%IH; nia.
Qed.

Lemma sst_file_number_bound name n : sst_file_number name = Some n -> 0 <= n < 10 ^ 12.
Proof.
  unfold sst_file_number. destruct (negb _); [done|]. destruct (Nat.eqb_spec (length (take (length name - length kSstSuffix) name)) 12) as [E|]; [|done]. cbn [negb].
  intros H. assert ((0 + 1) * 10 ^ Z.of_nat 12 = 10 ^ 12) as Hp by done. rewrite <- E in Hp. rewrite <- Hp. apply (digits_wrap_bound _ 0); [lia|rewrite Hp; lia|done].
Qed.

(** Observing never lowers the counter, and puts it past every number seen. *)
Lemma observe_name_counter vs name : file_counter_ vs <= file_counter_ (observe_name vs name) <= Z.max (file_counter_ vs) (10 ^ 12) /\
  forall n, sst_file_number name = Some n -> n < file_counter_ (observe_name vs name).
Proof.
  unfold observe_name. destruct (sst_file_number name) as [n|] eqn:E; [|split; [lia|done]]. apply sst_file_number_bound in E. unfold observe_file_number.
  destruct (Z.leb_spec (file_counter_ vs) n); [|split; [lia|by intros ? [= <-]]]. cbn [file_counter_ with_counter]. unfold u64. rewrite Z.mod_small by lia. split; [lia|intros ? [= <-]; lia].
Qed.

Lemma observe_names_counter names : forall vs, file_counter_ vs <= file_counter_ (observe_names vs names) <= Z.max (file_counter_ vs) (10 ^ 12) /\
  forall name n, name ∈ names -> sst_file_number name = Some n -> n < file_counter_ (observe_names vs names).
Proof.
  unfold observe_names. induction names as [|name names IH]; intros vs; cbn [fold_left]; [split; [lia|by intros ? ? ?%elem_of_nil]|].
  destruct (observe_name_counter vs name) as [H1 H2]. destruct (IH (observe_name vs name)) as [H3 H4]. split; [lia|]. intros m n [-> |Hm]%elem_of_cons E; [specialize (H2 n E); lia|by eapply H4].
Qed.

Lemma refresh_counter listings : forall vs r vs', refresh listings vs = (r, vs') -> file_counter_ vs <= file_counter_ vs' <= Z.max (file_counter_ vs) (10 ^ 12) /\
  (r = None -> forall id l, (id, l) ∈ listings -> exists names, l = Value names /\ forall name n, name ∈ names -> sst_file_number name = Some n -> n < file_counter_ vs').
Proof.
  induction listings as [|[id [names|e]] rest IH]; intros vs r vs'; cbn [refresh].
  - intros [= <- <-]. split; [lia|by intros _ ? ? ?%elem_of_nil].
  - intros H. destruct (observe_names_counter names vs) as [H1 H2]. destruct (IH _ _ _ H) as [H3 H4]. split; [lia|]. intros Hr id' l [[= -> ->]|Hin]%elem_of_cons; [|by eapply H4].
    exists names. split; [done|]. intros name n Hname E. specialize (H2 name n Hname E). lia.
  - intros [= <- <-]. split; [lia|done].
Qed.

Lemma observe_names_upper B names : (forall name n, name ∈ names -> sst_file_number name = Some n -> n < B) -> forall vs, file_counter_ (observe_names vs names) <= Z.max (file_counter_ vs) B.
Proof.
  unfold observe_names. induction names as [|name names IH]; intros HB vs; cbn [fold_left]; [lia|]. etrans; [apply IH; intros m n Hm; apply HB; by right|].
  unfold observe_name. destruct (sst_file_number name) as [n|] eqn:E; [|lia]. pose proof (sst_file_number_bound _ _ E). pose proof (HB name n ltac:(by left) E). unfold observe_file_number.
  destruct (Z.leb_spec (file_counter_ vs) n); [|lia]. cbn [file_counter_ with_counter]. unfold u64. rewrite Z.mod_small by lia. lia.
Qed.

Lemma refresh_upper B listings : (forall id names, (id, Value names) ∈ listings -> forall name n, name ∈ names -> sst_file_number name = Some n -> n < B) ->
  forall vs r vs', refresh listings vs = (r, vs') -> file_counter_ vs' <= Z.max (file_counter_ vs) B.
Proof.
  induction listings as [|[id [names|e]] rest IH]; intros HB vs r vs'; cbn [refresh]; [intros [= <- <-]; lia| |intros [= <- <-]; lia].
  intros H. apply IH in H; [|intros i ns Hi; apply (HB i ns); by right]. pose proof (observe_names_upper B names (HB id names ltac:(by left)) vs). lia.
Qed.

(** ** Pairs of stores *)

Lemma Forall2_compose {A} (P Q R : A -> A -> Prop) ps qs rs : (forall p q r, P p q -> Q q r -> R p r) -> Forall2 P ps qs -> Forall2 Q qs rs -> Forall2 R ps rs.
Proof. intros HR H. revert rs. induction H as [|p q ps qs Hp _ IH]; intros rs Hr; inversion Hr; subst; constructor; eauto. Qed.

Lemma Forall2_map_diag {A} (P : A -> Prop) (R : A -> A -> Prop) (f : A -> A) ps : (forall p, P p -> R p (f p)) -> Forall P ps -> Forall2 R ps (map f ps).
Proof. intros HR. induction 1; constructor; auto. Qed.

(** ** Against the contract *)

Section Contract.
Context {S : Type} {ops : BlobStore S} {ok : S -> Prop} {objects : S -> bytes -> option bytes} {laws : BlobStoreLaws ops ok objects}.

(** A store that still has every object it had, and one that has exactly those. *)
Definition store_kept (p q : bytes * S) : Prop := q.1 = p.1 /\ ok q.2 /\ forall m, objects p.2 m <> None -> objects q.2 m = objects p.2 m.
Definition store_same (p q : bytes * S) : Prop := q.1 = p.1 /\ ok q.2 /\ forall m, objects q.2 m = objects p.2 m.

Definition stores_ok (w : Stores S) : Prop := Forall (fun p => ok p.2) (all_stores w).

Lemma stores_ok_target w : stores_ok w -> ok (st_target w).
Proof. unfold stores_ok, all_stores. intros [_ [H _]%Forall_cons]%Forall_app. exact H. Qed.

Lemma kept_trans ps qs rs : Forall2 store_kept ps qs -> Forall2 store_kept qs rs -> Forall2 store_kept ps rs.
Proof.
  intros H1 H2. eapply Forall2_compose; [|exact H1|exact H2]. intros p q r (E1 & _ & Hs) (E2 & Hok & Hk). split; [congruence|]. split; [done|].
  intros m Hm. rewrite Hk by (by rewrite Hs). by apply Hs.
Qed.

Lemma kept_then_same ps qs rs : Forall2 store_kept ps qs -> Forall2 store_same qs rs -> Forall2 store_kept ps rs.
Proof. intros H1 H2. eapply kept_trans; [exact H1|]. eapply Forall2_impl; [exact H2|]. intros p q (E & Hok & Hs). split; [done|]. split; [done|]. intros m _. apply Hs. Qed.

Lemma kept_ok ps qs : Forall2 store_kept ps qs -> Forall (fun p => ok p.2) qs.
Proof. induction 1 as [|? ? ? ? (_ & ? & _)]; by constructor. Qed.

Lemma kept_refl w : stores_ok w -> Forall2 store_kept (all_stores w) (all_stores w).
Proof. intros Hok. rewrite <- (map_id (all_stores w)) at 2. by apply (Forall2_map_diag (fun p => ok p.2)). Qed.

Lemma target_changed w s : stores_ok w -> ok s -> forall R : bytes * S -> bytes * S -> Prop, (forall p, ok p.2 -> R p p) -> R (st_id w, st_target w) (st_id w, s) ->
  Forall2 R (all_stores w) (all_stores (with_target w s)).
Proof.
  unfold stores_ok, all_stores. intros [Hb [_ Ha]%Forall_cons]%Forall_app Hs R Hrefl Hr. cbn [st_before st_target st_id st_after with_target].
  rewrite <- (map_id (st_before w)) at 2. rewrite <- (map_id (st_after w)) at 2.
  apply Forall2_app; [by apply (Forall2_map_diag (fun p => ok p.2))|constructor; [done|]]. by apply (Forall2_map_diag (fun p => ok p.2)).
Qed.

Lemma list_all_pairs w ls w' : list_all_stores w = (ls, w') -> ls = map (fun p => (list_store p).1) (all_stores w) /\ all_stores w' = map (fun p => (list_store p).2) (all_stores w).
Proof.
  unfold list_all_stores, all_stores. intros [= <- <-]. cbn [st_before st_target st_id st_after]. rewrite !map_app, !map_map. cbn [map]. split; [done|].
  do 2 f_equal. unfold list_store. by destruct (bs_list [] _).
Qed.

Lemma list_all_same w ls w' : stores_ok w -> list_all_stores w = (ls, w') -> Forall2 store_same (all_stores w) (all_stores w').
Proof.
  intros Hok H. apply list_all_pairs in H as [_ ->]. apply (Forall2_map_diag (fun p => ok p.2)); [|exact Hok]. intros p Hp.
  unfold list_store. destruct (bs_list [] p.2) as [r s] eqn:E. destruct (law_list_frame _ _ _ _ Hp E). done.
Qed.

Lemma target_same w w' : Forall2 store_same (all_stores w) (all_stores w') -> length (st_before w') = length (st_before w) -> forall m, objects (st_target w') m = objects (st_target w) m.
Proof.
  unfold all_stores. intros H E. apply Forall2_app_inv in H as [_ H]; [|done]. apply Forall2_cons_1 in H as [(_ & _ & H) _]. exact H.
Qed.

(** Every object of the store written to is in its listing. *)
Lemma target_listed w ls w' names : stores_ok w -> list_all_stores w = (ls, w') -> (forall id l, (id, l) ∈ ls -> exists ns, l = Value ns /\ names ns) ->
  exists ns, names ns /\ forall m, m ∈ ns <-> objects (st_target w) m <> None.
Proof.
  intros Hok H Hls. apply list_all_pairs in H as [-> _]. destruct (bs_list [] (st_target w)) as [l s] eqn:E.
  destruct (Hls (st_id w) l) as (ns & -> & Hns).
  { apply list_elem_of_fmap. exists (st_id w, st_target w). unfold list_store. cbn [fst snd]. rewrite E. split; [done|]. unfold all_stores. apply elem_of_app. right. by left. }
  exists ns. split; [done|]. intros m. rewrite (law_list_ok _ _ _ _ (stores_ok_target _ Hok) E). split; [by intros [? _]|]. intros Hm. split; [done|]. by apply starts_with_spec; exists m.
Qed.

Section Attempts.
Context (primary_id : bytes) (provider : EncryptionProvider) (seal : bool) (b : bytes).

Lemma payload_number number payload wo : payload_for primary_id provider seal b number = Value (payload, wo) -> wo_file_number wo = number.
Proof.
  unfold payload_for. destruct seal; [|by intros [= <- <-]]. destruct (p_create provider number) as [[c md]|]; cbn [result_bind]; [|done].
  destruct (seal_object c b); cbn [result_bind]; [|done]. by intros [= <- <-].
Qed.

(** A collision changes no object there is, and leaves the counter past every number the store holds. *)
Lemma collision vs w payload s ls w1 vs1 : stores_ok w -> 0 <= file_counter_ vs < 2 ^ 64 - 1 -> bs_put (sst_object_name (file_counter_ vs)) payload (st_target w) = (Unusable, s) ->
  list_all_stores (with_target w s) = (ls, w1) -> refresh ls (allocate_file_number vs).2 = (None, vs1) ->
  Forall2 store_kept (all_stores w) (all_stores w1) /\ (forall m, objects (st_target w1) m = objects s m) /\
  file_counter_ vs + 1 <= file_counter_ vs1 <= Z.max (file_counter_ vs + 1) (10 ^ 12) /\
  (forall m n, objects s m <> None -> sst_file_number m = Some n -> n < file_counter_ vs1).
Proof.
  intros Hok Hc Hput Hl Hr. pose proof (stores_ok_target _ Hok) as Ht. pose proof (law_put_keeps _ _ _ _ _ Ht Hput) as Hoks.
  assert (Forall2 store_kept (all_stores w) (all_stores (with_target w s))) as H1.
  { apply target_changed; [done|done|by split|]. split; [done|]. split; [done|]. intros m Hm. eapply law_put_frame; [done|exact Hput|by right]. }
  assert (stores_ok (with_target w s)) as Hok1 by exact (kept_ok _ _ H1). pose proof (list_all_same _ _ _ Hok1 Hl) as H2.
  assert (length (st_before w1) = length (st_before (with_target w s))) as Hlen by (unfold list_all_stores in Hl; injection Hl as _ <-; cbn [st_before]; by rewrite !length_map).
  destruct (refresh_counter _ _ _ _ Hr) as [Hb Hseen]. unfold allocate_file_number in Hb. cbn [snd file_counter_ with_counter] in Hb. unfold u64 in Hb. rewrite Z.mod_small in Hb by lia.
  split; [by eapply kept_then_same|]. split; [exact (target_same _ _ H2 Hlen)|]. split; [done|]. intros m n Hm Hn.
  destruct (target_listed _ _ _ (fun ns => forall name n, name ∈ ns -> sst_file_number name = Some n -> n < file_counter_ vs1) Hok1 Hl (Hseen eq_refl)) as (ns & Hns & Hin).
  apply (Hns m n); [|done]. by apply Hin.
Qed.

Lemma attempts_spec n : forall vs w r vs' w', stores_ok w -> 0 <= file_counter_ vs -> Z.max (file_counter_ vs) (10 ^ 12) + Z.of_nat n < 2 ^ 64 ->
  write_attempts primary_id provider seal b n vs w = (r, (vs', w')) -> Forall2 store_kept (all_stores w) (all_stores w') /\ file_counter_ vs <= file_counter_ vs' /\
  match r with
  | Value wo =>
      file_counter_ vs <= wo_file_number wo < file_counter_ vs' /\
      exists payload, payload_for primary_id provider seal b (wo_file_number wo) = Value (payload, wo) /\
        objects (st_target w) (sst_object_name (wo_file_number wo)) = None /\ objects (st_target w') (sst_object_name (wo_file_number wo)) = Some payload
  | Unexpected _ => True
  end.
Proof.
  induction n as [|n IH]; intros vs w r vs' w' Hok H0 Hb; cbn [write_attempts].
  - intros [= <- <- <-]. split; [by apply kept_refl|]. split; [lia|done].
  - assert (file_counter_ (allocate_file_number vs).2 = file_counter_ vs + 1) as Hc by (unfold allocate_file_number; cbn [snd file_counter_ with_counter]; apply Z.mod_small; lia).
    destruct (allocate_file_number vs) as [number vs1] eqn:Ea. assert (number = file_counter_ vs) as -> by (by injection Ea as <- _). cbn [snd] in Hc.
    destruct (payload_for primary_id provider seal b (file_counter_ vs)) as [[payload wo]|e] eqn:Ep.
    2: { intros [= <- <- <-]. split; [by apply kept_refl|]. split; [lia|done]. }
    destruct (bs_put _ payload (st_target w)) as [status s] eqn:Eput. pose proof (stores_ok_target _ Hok) as Ht.
    assert (Forall2 store_kept (all_stores w) (all_stores (with_target w s))) as Hkept.
    { apply target_changed; [done|by eapply law_put_keeps|by split|]. split; [done|]. split; [by eapply law_put_keeps|]. intros m Hm. eapply law_put_frame; [done|exact Eput|by right]. }
    destruct status; [| | |destruct (list_all_stores (with_target w s)) as [ls w1] eqn:El; destruct (refresh ls vs1) as [[e|] vs2] eqn:Er|..].
    all: try (intros [= <- <- <-]; split; [done|]; split; [lia|done]).
    + intros [= <- <- <-]. split; [done|]. split; [lia|]. rewrite (payload_number _ _ _ Ep). split; [lia|]. exists payload. split; [done|]. by apply (law_put_ok _ _ _ _ Ht Eput).
    + intros [= <- <- <-]. destruct (refresh_counter _ _ _ _ Er) as [Hr _]. split; [|split; [lia|done]].
      exact (kept_then_same _ _ _ Hkept (list_all_same _ _ _ (kept_ok _ _ Hkept) El)).
    + intros H. destruct (collision vs w payload s ls w1 vs2 Hok ltac:(lia) Eput El) as (Hsame & Htarget & Hcount & _); [by rewrite Ea|].
      destruct (IH vs2 w1 r vs' w' (kept_ok _ _ Hsame) ltac:(lia) ltac:(lia) H) as (Hk & Hle & Hr). split; [by eapply kept_trans|]. split; [lia|].
      destruct r as [wo'|]; [|done]. destruct Hr as (Hn & p' & Hp' & Hnone & Hsome). split; [lia|]. exists p'. split; [done|]. split; [|done]. rewrite Htarget in Hnone.
      destruct (objects (st_target w) (sst_object_name (wo_file_number wo'))) eqn:Eo; [|done]. rewrite (law_put_frame _ _ _ _ _ _ Ht Eput) in Hnone by (right; by rewrite Eo). congruence.
Qed.

(** The numbers in the stores leave room under twelve digits. *)
Definition numbers_below (B : Z) (w : Stores S) : Prop :=
  forall p m n, p ∈ all_stores w -> objects p.2 m <> None -> sst_file_number m = Some n -> n < B.

Lemma listed_below B w ls w' : stores_ok w -> numbers_below B w -> list_all_stores w = (ls, w') ->
  forall id names, (id, Value names) ∈ ls -> forall name n, name ∈ names -> sst_file_number name = Some n -> n < B.
Proof.
  intros Hok HB Hl id names Hin name n Hname Hn. apply list_all_pairs in Hl as [-> _]. apply list_elem_of_fmap in Hin as ([id' s] & E & Hp).
  unfold list_store in E. cbn [fst snd] in E. destruct (bs_list [] s) as [l s'] eqn:El. injection E as <- <-. unfold stores_ok in Hok. rewrite Forall_forall in Hok. pose proof (Hok _ Hp) as Hs.
  apply (HB _ name n Hp); [|done]. cbn [snd] in *. by apply (proj1 (law_list_ok _ _ _ _ Hs El name) Hname).
Qed.

(** After a listing the next name is free: two attempts are enough, so that running out of them is never why a write fails. *)
Lemma two_attempts {refuses : BlobStoreRefuses ops ok objects} n vs w : stores_ok w -> numbers_below (10 ^ 12 - 1) w -> 0 <= file_counter_ vs < 10 ^ 12 - 1 ->
  (forall number, payload_for primary_id provider seal b number <> Unexpected Unusable) -> (forall s, (bs_list [] s).1 <> Unexpected Unusable) ->
  (write_attempts primary_id provider seal b (2 + n) vs w).1 <> Unexpected Unusable.
Proof.
  intros Hok HB Hc Hpay Hlist. change (2 + n)%nat with (Datatypes.S (Datatypes.S n)).
  assert (forall ls v e vs', (exists w w', list_all_stores w = (ls, w')) -> refresh ls v = (Some e, vs') -> e <> Unusable) as Hrefresh.
  { intros ls v e vs' (w0 & w0' & Hl). apply list_all_pairs in Hl as [-> _]. revert v. induction (all_stores w0) as [|[id s] ps IH]; intros v; cbn [map refresh]; [done|].
    pose proof (Hlist s) as Hs. unfold list_store at 1. cbn [fst snd]. destruct (bs_list [] s) as [[names|e'] s'] eqn:E; cbn [fst snd] in *; [apply IH|]. intros [= <- _]. case_bool_decide; congruence. }
  cbn [write_attempts]. destruct (allocate_file_number vs) as [number vs1] eqn:Ea. assert (number = file_counter_ vs) as -> by (by injection Ea as <- _).
  destruct (payload_for _ _ _ _ (file_counter_ vs)) as [[payload wo]|e] eqn:Ep; [|cbn [fst]; intros [= ->]; by apply (Hpay (file_counter_ vs))].
  destruct (bs_put _ payload (st_target w)) as [status s] eqn:Eput. destruct status; try done.
  destruct (list_all_stores (with_target w s)) as [ls w1] eqn:El. destruct (refresh ls vs1) as [[e|] vs2] eqn:Er; [cbn [fst]; intros [= ->]; eapply Hrefresh; eauto|].
  assert (refresh ls (allocate_file_number vs).2 = (None, vs2)) as Er' by (by rewrite Ea).
  destruct (collision vs w payload s ls w1 vs2 Hok ltac:(lia) Eput El Er') as (Hsame & Htarget & Hcount & Hpast).
  assert (file_counter_ vs2 < 10 ^ 12) as Hsmall.
  { assert (stores_ok (with_target w s)) as Hok1.
    { unfold stores_ok, all_stores in *. apply Forall_app in Hok as [? [Ht ?]%Forall_cons]. apply Forall_app. split; [done|]. constructor; [|done]. by eapply law_put_keeps. }
    assert (numbers_below (10 ^ 12 - 1) (with_target w s)) as HB1.
    { intros p m k Hp Hm. unfold all_stores in Hp. cbn [st_before st_id st_target st_after with_target] in Hp. apply elem_of_app in Hp as [Hp|[-> |Hp]%elem_of_cons].
      - apply (HB p); [|done]. unfold all_stores. set_solver.
      - apply (HB (st_id w, st_target w)); [unfold all_stores; set_solver|]. cbn [snd] in *. pose proof (stores_ok_target _ Hok) as Ht. rewrite <- (law_put_frame _ _ _ _ _ m Ht Eput); [done|].
        destruct (decide (m = sst_object_name (file_counter_ vs))) as [-> |]; [right; exact (law_put_refused _ _ _ _ Ht Eput)|by left].
      - apply (HB p); [|done]. unfold all_stores. set_solver. }
    pose proof (refresh_upper _ _ (listed_below _ _ _ _ Hok1 HB1 El) _ _ _ Er') as Hu. unfold allocate_file_number in Hu. cbn [snd file_counter_ with_counter] in Hu. unfold u64 in Hu. rewrite Z.mod_small in Hu by lia. lia. }
  destruct (allocate_file_number vs2) as [number2 vs3] eqn:Ea2. assert (number2 = file_counter_ vs2) as -> by (by injection Ea2 as <- _).
  destruct (payload_for _ _ _ _ (file_counter_ vs2)) as [[payload2 wo2]|e] eqn:Ep2; [|cbn [fst]; intros [= ->]; by apply (Hpay (file_counter_ vs2))].
  destruct (bs_put _ payload2 (st_target w1)) as [status2 s2] eqn:Eput2. destruct status2; try done. exfalso.
  pose proof (law_put_refused _ _ _ _ (stores_ok_target _ (kept_ok _ _ Hsame)) Eput2) as Htaken. rewrite Htarget in Htaken.
  pose proof (Hpast _ (file_counter_ vs2) Htaken (sst_file_number_name (file_counter_ vs2) ltac:(lia))). lia.
Qed.
End Attempts.

(** C9: an object that [write_new_sst] reports was written is under a number the counter had not handed out before, was
    not there before the call, and holds the bytes given, sealed under that very number when they are to be sealed; and
    whatever the outcome, no object of any store is changed and the counter does not go back. *)
Theorem new_sst_never_overwrites registry b seal vs w r vs' w' :
  stores_ok w -> 0 <= file_counter_ vs < 2 ^ 63 -> write_new_sst registry b seal vs w = (r, (vs', w')) ->
  Forall2 store_kept (all_stores w) (all_stores w') /\ file_counter_ vs <= file_counter_ vs' /\
  match r with
  | Value wo =>
      file_counter_ vs <= wo_file_number wo < file_counter_ vs' /\
      exists provider payload, find_provider (providers registry) (primary registry) = Some provider /\
        payload_for (primary registry) provider seal b (wo_file_number wo) = Value (payload, wo) /\
        objects (st_target w) (sst_object_name (wo_file_number wo)) = None /\ objects (st_target w') (sst_object_name (wo_file_number wo)) = Some payload
  | Unexpected _ => True
  end.
Proof.
  intros Hok Hc. unfold write_new_sst. destruct (find_provider (providers registry) (primary registry)) as [provider|] eqn:Ef.
  - intros H. apply attempts_spec in H; [|done|lia|unfold kAttempts; lia]. destruct H as (H1 & H2 & H3). split; [done|]. split; [done|]. destruct r; [|done].
    destruct H3 as (H3 & payload & H4). split; [done|]. by exists provider, payload.
  - intros [= <- <- <-]. split; [by apply kept_refl|]. split; [lia|done].
Qed.

(** Over stores that refuse only names that were taken, a taken name never makes a write fail: after one collision the listing has put the counter past everything the
    stores hold, so the second attempt finds its name free, as long as the numbers in use leave room under the twelve
    digits of a name. *)
Theorem collision_never_fatal {refuses : BlobStoreRefuses ops ok objects} registry b seal vs w :
  stores_ok w -> numbers_below (10 ^ 12 - 1) w -> 0 <= file_counter_ vs < 10 ^ 12 - 1 ->
  (forall provider number, find_provider (providers registry) (primary registry) = Some provider -> payload_for (primary registry) provider seal b number <> Unexpected Unusable) -> (forall s, (bs_list [] s).1 <> Unexpected Unusable) ->
  (write_new_sst registry b seal vs w).1 <> Unexpected Unusable.
Proof.
  intros Hok HB Hc Hpay Hlist. unfold write_new_sst. destruct (find_provider (providers registry) (primary registry)) as [provider|] eqn:Ef; [|done].
  change kAttempts with (2 + 14)%nat. apply two_attempts; try done. intros number. by apply Hpay.
Qed.
End Contract.

(** ** Writing past crash residue

    [write_new_sst] over two directories on disk, one of which holds objects of a writer that crashed before it
    recorded them. *)


Import DiskExamples BlobExamples.

#[local] Instance hot_and_cold : BlobStore DiskBlobStore := disk_blob_store 4 no_hash 77 true.
#[local] Instance hot_and_cold_laws : BlobStoreLaws hot_and_cold (blob_ok 4 no_hash) blob_objects := disk_blob_laws 4 no_hash 77 true.

Definition plain_registry : ProviderRegistry := {| providers := [([], no_encryption_provider)]; primary := []; accept_plaintext := true |}.

Definition dir_with (names : list bytes) : Disk := bare_disk (list_to_map (([], Dir) :: map (fun n => ([n], File [x07] true)) names)).

Lemma dir_with_flat names m : is_valid_object_name m = true -> dk_visible (dir_with names) !! [m] <> Some Dir.
Proof.
  intros _. unfold dir_with, bare_disk. cbn [dk_visible list_to_map fst snd foldr]. intros [[? _]|[_ H]]%lookup_insert_Some; [done|]. 
  apply elem_of_list_to_map_2, list_elem_of_fmap in H as (n & [=] & _).
Qed.

(** A counter at 1; the hot directory holds 1 and 2, the cold one 4. *)
Definition low_counter : VersionSet := with_counter new_version_set 1.

Definition residue : Stores DiskBlobStore :=
  {| st_before := [([x63], reopened (dir_with [sst_object_name 4]))]; st_id := [x68]; st_target := reopened (dir_with [sst_object_name 1; sst_object_name 2]); st_after := [] |}.

Lemma dir_with_objects names m : blob_objects (reopened (dir_with names)) m <> None -> m ∈ names.
Proof.
  unfold blob_objects, held_at. destruct (is_valid_object_name m); [|done]. destruct (dk_visible _ !! [m]) as [i|] eqn:E; [|done]. intros _. revert E.
  unfold dir_with, bare_disk. cbn [bd_disk reopened dk_visible list_to_map fst snd foldr]. intros [[? _]|[_ H]]%lookup_insert_Some; [done|].
  apply elem_of_list_to_map_2, list_elem_of_fmap in H as (n & [= -> _] & Hn). exact Hn.
Qed.

Lemma residue_ok : stores_ok (ok := blob_ok 4 no_hash) residue.
Proof. unfold stores_ok, all_stores, residue. cbn [st_before st_id st_target st_after app]. do 2 (apply Forall_cons; split; [apply reopened_ok, dir_with_flat|]). by apply Forall_nil. Qed.

Lemma residue_below : numbers_below (objects := blob_objects) (10 ^ 12 - 1) residue.
Proof.
  assert (forall m n, m ∈ map sst_object_name [1; 2; 4] -> sst_file_number m = Some n -> n < 10 ^ 12 - 1) as H.
  { intros m n (k & -> & Hk)%list_elem_of_fmap. rewrite sst_file_number_name; [intros [= <-]|]; repeat (apply elem_of_cons in Hk as [-> |Hk]; [lia|]); by apply elem_of_nil in Hk. }
  intros p m n Hp Hm. apply H. unfold residue, all_stores in Hp. cbn [st_before st_id st_target st_after app] in Hp.
  apply elem_of_cons in Hp as [-> |Hp%list_elem_of_singleton]; [|subst p]; apply dir_with_objects in Hm; set_solver.
Qed.

Lemma list_not_unusable (s : DiskBlobStore) : (bs_list [] s).1 <> Unexpected Unusable.
Proof. cbn [bs_list hot_and_cold disk_blob_store]. unfold do_list. destruct (next_read_fault (bd_disk s)) as [[] d]; try done; by destruct (root_is_directory d). Qed.

Lemma new_sst_never_overwrites_witness :
  let r := write_new_sst plain_registry [x01; x02] true low_counter residue in
  (exists wo, r.1 = Value wo /\ wo_file_number wo = 5) /\ Forall2 (store_kept (ok := blob_ok 4 no_hash) (objects := blob_objects)) (all_stores residue) (all_stores r.2.2).
Proof.
  cbv zeta. destruct (write_new_sst plain_registry [x01; x02] true low_counter residue) as [r [vs' w']] eqn:E. cbn [fst snd].
  destruct (new_sst_never_overwrites plain_registry [x01; x02] true low_counter residue r vs' w' residue_ok ltac:(vm_compute; split; [discriminate|reflexivity]) E) as (Hk & _).
  split; [|exact Hk]. assert (match (write_new_sst plain_registry [x01; x02] true low_counter residue).1 with Value wo => Some (wo_file_number wo) | Unexpected _ => None end = Some 5) as H by (vm_compute; reflexivity).
  rewrite E in H. cbn [fst] in H. destruct r as [wo|]; [|discriminate]. exists wo. split; [reflexivity|]. by injection H.
Defined.

Lemma collision_never_fatal_witness : exists wo, (write_new_sst plain_registry [x01; x02] false low_counter residue).1 = Value wo /\ wo_file_number wo = 5.
Proof.
  pose proof (collision_never_fatal plain_registry [x01; x02] false low_counter residue residue_ok residue_below ltac:(vm_compute; split; [discriminate|reflexivity]) ltac:(by intros) list_not_unusable) as Hne.
  assert (match (write_new_sst plain_registry [x01; x02] false low_counter residue).1 with Value wo => Some (wo_file_number wo) | Unexpected _ => None end = Some 5) as H by (vm_compute; reflexivity).
  destruct (write_new_sst plain_registry [x01; x02] false low_counter residue).1 as [wo|]; [|discriminate]. exists wo. split; [reflexivity|]. by injection H.
Defined.
