(* ===== verification/Sweep.v ===== *)
(** * The orphan sweep

    [DbImpl::sweep_orphans] and [sweep_stale_generations] of [src/db/db_impl.cpp]: what no manifest names is
    removed from the stores once it was seen unnamed for long enough, and so are generations other than the live
    one. Over any blob stores and any catalog that keep their contracts. *)

From S2P Require Import Prelude Slice Format Framing Crypto Names ManifestPayload Watermark VersionEdit Version Catalog Blob VersionSet Open WriteSst.

(** ** Definitions *)

(** When each candidate was first seen, by store and name; and each generation. *)
Record SweepState := { orphan_first_seen_ : gmap bytes (gmap bytes Z); stale_generation_first_seen_ : gmap Z Z }.

Definition no_sightings : SweepState := {| orphan_first_seen_ := ∅; stale_generation_first_seen_ := ∅ |}.

Definition first_seen {K} `{Countable K} (seen : gmap K Z) (now : Z) (k : K) : Z := default now (seen !! k).

(** A candidate has been seen for long enough; the difference is unsigned, so the clock must not have gone back. *)
Definition is_due {K} `{Countable K} (seen : gmap K Z) (now retention : Z) (k : K) : bool :=
  (first_seen seen now k <=? now) && (retention <=? now - first_seen seen now k).

(** A name the manifest does not account for. *)
Definition is_candidate (referenced pending : list Z) (name : bytes) : bool :=
  match sst_file_number name with
  | None => false
  | Some n => negb (bool_decide (n ∈ referenced)) && negb (bool_decide (n ∈ pending))
  end.

(** The names to remove, and the candidates to remember; [emplace] keeps what is there. *)
Definition collectable (referenced pending : list Z) (seen : gmap bytes Z) (now retention : Z) (names : list bytes) : list bytes :=
  List.filter (fun name => is_candidate referenced pending name && is_due seen now retention name) names.

Definition keep_candidate (referenced pending : list Z) (seen : gmap bytes Z) (now retention : Z) (present : gmap bytes Z) (name : bytes) : gmap bytes Z :=
  if is_candidate referenced pending name && negb (is_due seen now retention name)
  then match present !! name with Some _ => present | None => <[name := first_seen seen now name]> present end
  else present.

Definition still_present (referenced pending : list Z) (seen : gmap bytes Z) (now retention : Z) (names : list bytes) : gmap bytes Z :=
  fold_left (keep_candidate referenced pending seen now retention) names ∅.

Section Stores.
Context {S : Type} {ops : BlobStore S}.

(** The stores in order, each with its listing; one that could not be listed ends the sweep. *)
Fixpoint sweep_stores (referenced pending : list Z) (now retention : Z) (listed : list (Listing * (bytes * S))) (seen : gmap bytes (gmap bytes Z))
  : option Status * gmap bytes (gmap bytes Z) * list (bytes * S) :=
  match listed with
  | [] => (None, seen, [])
  | ((_, Unexpected e), _) :: _ => (Some (if bool_decide (e = NotFound) then Io else e), seen, map snd listed)
  | ((_, Value names), (id, s)) :: rest =>
      let before := default ∅ (seen !! id) in
      let dead := collectable referenced pending before now retention names in
      let seen := <[id := still_present referenced pending before now retention names]> seen in
      let s := match dead with [] => s | _ => (bs_remove_many dead s).2 end in
      let '(r, seen, stores) := sweep_stores referenced pending now retention rest seen in
      (r, seen, (id, s) :: stores)
  end.
End Stores.

Section Generations.
Context {M : Type} {cat : ManifestCatalog M}.

Definition kProbeWindow : nat := 4.

(** The generations within the window that answer, each asked for in turn. *)
Fixpoint probe (gs : list Z) (m : M) : list Z * M :=
  match gs with
  | [] => ([], m)
  | g :: rest =>
      let '(r, m) := get_snapshot g m in
      let '(found, m) := probe rest m in
      (match r with Value _ => g :: found | Unexpected _ => found end, m)
  end.

(** [live - back] while it is above zero, and [live + ahead] while it is a number. *)
Definition probed (live : Z) : list Z :=
  List.filter (fun g => 0 <? g) (map (fun back => live - Z.of_nat back) (seq 1 kProbeWindow)) ++
  List.filter (fun g => g <? 2 ^ 64) (map (fun ahead => live + Z.of_nat ahead) (seq 1 kProbeWindow)).

Definition stale_candidates (live : Z) (m : M) : option (list Z) * M :=
  match list_generations m with
  | (Value gs, m) => (Some (List.filter (fun g => negb (g =? live)) gs), m)
  | (Unexpected Unsupported, m) => let '(gs, m) := probe (probed live) m in (Some gs, m)
  | (Unexpected _, m) => (None, m)
  end.

Definition sweep_generation (seen : gmap Z Z) (now retention : Z) (acc : Z * gmap Z Z * M) (g : Z) : Z * gmap Z Z * M :=
  let '(reclaimed, present, m) := acc in
  if is_due seen now retention g then
    let '(s, m) := delete_generation g m in (if bool_decide (s = Ok) then reclaimed + 1 else reclaimed, present, m)
  else (reclaimed, match present !! g with Some _ => present | None => <[g := first_seen seen now g]> present end, m).

(** [sweep_stale_generations]: how many went. *)
Definition sweep_stale_generations (obsolete_retention : option Z) (now : Z) (vs : VersionSet) (st : SweepState) (m : M) : Z * SweepState * M :=
  let live := vs_generation vs in
  if live =? 0 then (0, st, m)
  else
    match stale_candidates live m with
    | (None, m) => (0, st, m)
    | (Some gs, m) =>
        let seen := stale_generation_first_seen_ st in
        let '(reclaimed, present, m) := fold_left (sweep_generation seen now (default 0 obsolete_retention)) gs (0, ∅, m) in
        (reclaimed, {| orphan_first_seen_ := orphan_first_seen_ st; stale_generation_first_seen_ := present |}, m)
    end.
End Generations.

Section Sweep.
Context {S : Type} {ops : BlobStore S} {M : Type} {cat : ManifestCatalog M}.

(** [sweep_orphans] at the time [now]; [enabled] is whether [orphan_sweep_interval] is set. *)
Definition sweep_orphans (read_only enabled : bool) (orphan_retention : Z) (obsolete_retention : option Z) (now : Z) (vs : VersionSet) (m : M) (stores : list (bytes * S)) (st : SweepState)
  : Status * VersionSet * M * list (bytes * S) * SweepState :=
  if read_only || negb enabled then (Ok, vs, m, stores, st)
  else
    let '(advanced, m) := manifest_advanced vs m in
    if advanced then (Fenced, mark_fenced vs, m, stores, st)
    else
      let '(r, seen, stores) :=
        sweep_stores (referenced_file_numbers vs) (pending_file_numbers vs) now orphan_retention (map list_store stores) (orphan_first_seen_ st) in
      let st := {| orphan_first_seen_ := seen; stale_generation_first_seen_ := stale_generation_first_seen_ st |} in
      match r with
      | Some e => (e, vs, m, stores, st)
      | None => let '(_, st, m) := sweep_stale_generations obsolete_retention now vs st m in (Ok, vs, m, stores, st)
      end.
End Sweep.

(** ** The live generation is spared *)

(** What is kept of a manifest when other generations are deleted. *)
Definition spares (live : Z) (mf mf' : Manifest) : Prop :=
  mf_pointer mf' = mf_pointer mf /\ mf_snapshots mf' !! live = mf_snapshots mf !! live /\
  (forall seq, mf_edits mf' !! (live, seq) = mf_edits mf !! (live, seq)) /\
  (forall g seq, mf_edits mf !! (g, seq) = None -> mf_edits mf' !! (g, seq) = None).

#[local] Instance spares_preorder live : PreOrder (spares live).
Proof.
  split; [by intros mf|]. intros m1 m2 m3 (A1 & A2 & A3 & A4) (B1 & B2 & B3 & B4). split_and!; [congruence|congruence|intros seq; by rewrite B3|auto].
Qed.

Section Spared.
Context {M : Type} {cat : ManifestCatalog M} (view : M -> Manifest) (laws : CatalogLaws cat view).

Lemma probe_view gs : forall m found m', probe gs m = (found, m') -> view m' = view m /\ forall g, g ∈ found -> g ∈ gs.
Proof.
  induction gs as [|g gs IH]; intros m found m'; cbn [probe]; [intros [= <- <-]; split; [done|set_solver]|].
  destruct (get_snapshot g m) as [r m1] eqn:Eg. apply law_get_snapshot in Eg as [Hv _]. destruct (probe gs m1) as [found1 m2] eqn:E. apply IH in E as [Hv2 Hin]. intros [= <- <-]. split; [congruence|].
  intros g'. destruct r; set_solver.
Qed.

Lemma probed_other live g : g ∈ probed live -> g <> live.
Proof.
  unfold probed. rewrite elem_of_app, !elem_of_filter_bool, !list_elem_of_fmap. intros [[(k & -> & Hk) _]|[(k & -> & Hk) _]]; apply elem_of_seq in Hk; lia.
Qed.

Lemma stale_candidates_other live m gs m' : stale_candidates live m = (gs, m') -> view m' = view m /\ forall g, g ∈ default [] gs -> g <> live.
Proof.
  unfold stale_candidates. destruct (list_generations m) as [r m1] eqn:E. apply law_list_generations in E as [Hv _]. destruct r as [l|s].
  - intros [= <- <-]. split; [done|]. cbn [default]. intros g [_ Hg]%elem_of_filter_bool. apply negb_true_iff, Z.eqb_neq in Hg. done.
  - assert ((None, m1) = (gs, m') -> view m' = view m /\ forall g, g ∈ default [] gs -> g <> live) as Hnone by (intros [= <- <-]; split; [done|by intros ? ?%elem_of_nil]).
    destruct s; try exact Hnone. destruct (probe (probed live) m1) as [found m2] eqn:Ep. apply probe_view in Ep as [Hv2 Hin]. intros [= <- <-]. split; [congruence|].
    cbn [default]. intros g Hg. by apply probed_other, Hin.
Qed.

Lemma sweep_generations_spare live seen now retention gs : (forall g, g ∈ gs -> g <> live) -> forall acc, spares live (view acc.2) (view (fold_left (sweep_generation seen now retention) gs acc).2).
Proof.
  induction gs as [|g gs IH]; intros Hne [[k present] m]; cbn [fold_left]; [done|]. etrans; [|apply IH; intros g' Hg'; apply Hne; by right].
  unfold sweep_generation. destruct (is_due seen now retention g); [|done]. destruct (delete_generation g m) as [s m1] eqn:E. cbn [snd].
  apply law_delete_generation in E as (D1 & D2 & D3 & D4). assert (live <> g) by (intros ->; by apply (Hne g); [left|]). split_and!; [done|by apply D2|intros seq; by apply D3|done].
Qed.

Lemma sweep_stale_spares retention now vs st m k st' m' : sweep_stale_generations retention now vs st m = (k, st', m') -> spares (vs_generation vs) (view m) (view m').
Proof.
  unfold sweep_stale_generations. destruct (_ =? 0); [by intros [= <- <- <-]|]. destruct (stale_candidates (vs_generation vs) m) as [[gs|] m1] eqn:E; apply stale_candidates_other in E as [Hv Hne].
  - pose proof (sweep_generations_spare (vs_generation vs) (stale_generation_first_seen_ st) now (default 0 retention) gs Hne (0, ∅, m1)) as Hs.
    destruct (fold_left _ gs (0, ∅, m1)) as [[r present] m2]. intros [= <- <- <-]. cbn [snd] in Hs. by rewrite <- Hv.
  - intros [= <- <- <-]. by rewrite Hv.
Qed.
End Spared.

(** ** What is removed was seen for long enough *)

(** One sweep that looked at the stores: when, with which version, and what the stores it got to listed. *)
Record Sighting := { si_now : Z; si_version : VersionSet; si_listed : list (bytes * list bytes) }.

Definition orphaned (o : Sighting) (name : bytes) : bool :=
  is_candidate (referenced_file_numbers (si_version o)) (pending_file_numbers (si_version o)) name.

Fixpoint listed_in (listed : list (bytes * list bytes)) (id : bytes) : option (list bytes) :=
  match listed with
  | [] => None
  | (id', names) :: rest => if bool_decide (id' = id) then Some names else listed_in rest id
  end.

(** The name was an orphan of the store in the sweep at [t] and in every later one that listed the store, newest first. *)
Fixpoint sustained (history : list Sighting) (id name : bytes) (t : Z) : Prop :=
  match history with
  | [] => False
  | o :: history =>
      match listed_in (si_listed o) id with
      | None => sustained history id name t
      | Some names => name ∈ names /\ orphaned o name = true /\ (si_now o = t \/ sustained history id name t)
      end
  end.

(** The listings a sweep gets to. *)
Fixpoint looked {A} (listed : list (Listing * A)) : list (bytes * list bytes) :=
  match listed with
  | ((id, Value names), _) :: rest => (id, names) :: looked rest
  | _ => []
  end.

Lemma first_seen_cases {K} `{Countable K} (seen : gmap K Z) now k : first_seen seen now k = now \/ seen !! k = Some (first_seen seen now k).
Proof. unfold first_seen. destruct (seen !! k); auto. Qed.

Lemma still_present_spec referenced pending seen now retention names name t : still_present referenced pending seen now retention names !! name = Some t ->
  name ∈ names /\ is_candidate referenced pending name = true /\ t = first_seen seen now name.
Proof.
  unfold still_present. assert (forall present, fold_left (keep_candidate referenced pending seen now retention) names present !! name = Some t ->
    present !! name = Some t \/ name ∈ names /\ is_candidate referenced pending name = true /\ t = first_seen seen now name) as H; [|intros [?|?]%H; [set_solver|done]].
  induction names as [|n names IH]; intros present; cbn [fold_left]; [by left|]. intros [Hp|(H1 & H2 & H3)]%IH; [|right; split; [by right|done]]. revert Hp. unfold keep_candidate.
  destruct (is_candidate referenced pending n && negb (is_due seen now retention n)) eqn:E; [|by left]. destruct (present !! n) eqn:En; [by left|].
  intros [[<- <-]|[_ ?]]%lookup_insert_Some; [right|by left]. apply andb_true_iff in E as [E _]. split; [by left|done].
Qed.

(** The first times a sweep leaves are its own, or were there. *)
Definition remembers (history : list Sighting) (seen : gmap bytes (gmap bytes Z)) : Prop :=
  forall id names name t, seen !! id = Some names -> names !! name = Some t -> sustained history id name t.

Section Removed.
Context {S : Type} {ops : BlobStore S} {ok : S -> Prop} {objects : S -> bytes -> option bytes} {laws : BlobStoreLaws ops ok objects}.

Lemma sweep_stores_seen referenced pending now retention (listed : list (Listing * (bytes * S))) : forall seen r seen' stores,
  NoDup (map (fun p => p.1.1) listed) -> Forall (fun p => p.2.1 = p.1.1) listed -> sweep_stores referenced pending now retention listed seen = (r, seen', stores) ->
  forall id, seen' !! id = match listed_in (looked listed) id with
                          | Some names => Some (still_present referenced pending (default ∅ (seen !! id)) now retention names)
                          | None => seen !! id
                          end.
Proof.
  induction listed as [|[[id0 [names|e]] [id1 s]] rest IH]; intros seen r seen' stores Hn Hid; cbn [sweep_stores looked listed_in]; [by intros [= <- <- <-]| |by intros [= <- <- <-]].
  cbn [map fst] in Hn. apply NoDup_cons in Hn as [Hnew Hn]. apply Forall_cons in Hid as [E0 Hid]. cbn [fst snd] in *. subst id1.
  destruct (sweep_stores _ _ _ _ rest _) as [[r1 seen1] stores1] eqn:E. intros [= <- <- <-] id. rewrite (IH _ _ _ _ Hn Hid E). case_bool_decide as Eid.
  - subst id. assert (listed_in (looked rest) id0 = None) as ->; [|by rewrite lookup_insert_eq].
    clear -Hnew. induction rest as [|[[i [ns|]] q] rest IH]; [done| |done]. cbn [looked listed_in]. cbn [map fst] in Hnew. apply not_elem_of_cons in Hnew as [Hi Hnew].
    rewrite bool_decide_eq_false_2 by done. by apply IH.
  - rewrite lookup_insert_ne by done. done.
Qed.

Lemma remembers_sweep history seen now vs retention (listed : list (Listing * (bytes * S))) r seen' stores :
  remembers history seen -> NoDup (map (fun p => p.1.1) listed) -> Forall (fun p => p.2.1 = p.1.1) listed ->
  sweep_stores (referenced_file_numbers vs) (pending_file_numbers vs) now retention listed seen = (r, seen', stores) ->
  remembers ({| si_now := now; si_version := vs; si_listed := looked listed |} :: history) seen'.
Proof.
  intros Hr Hn Hid E id names name t Hs Ht. rewrite (sweep_stores_seen _ _ _ _ _ _ _ _ _ Hn Hid E) in Hs. cbn [sustained si_listed si_now].
  destruct (listed_in (looked listed) id) as [listing|]; [|by eapply Hr]. injection Hs as <-. apply still_present_spec in Ht as (H1 & H2 & ->). split; [done|]. split; [exact H2|].
  destruct (first_seen_cases (default ∅ (seen !! id)) now name) as [E1|E1]; [by left|right]. destruct (seen !! id) as [mp|] eqn:Em; cbn [default] in *; [by eapply Hr|]. by rewrite lookup_empty in E1.
Qed.

(** What may be gone from a store after a sweep. *)
Definition only_orphans (history : list Sighting) (now retention : Z) (vs : VersionSet) (p q : bytes * S) : Prop :=
  q.1 = p.1 /\ ok q.2 /\ (forall name, objects p.2 name = None -> objects q.2 name = None) /\
  forall name, objects q.2 name <> objects p.2 name -> exists n t,
    sst_file_number name = Some n /\ n ∉ referenced_file_numbers vs /\ n ∉ pending_file_numbers vs /\ sustained history p.1 name t /\ retention <= now - t.

Lemma removed_sustained (history : list Sighting) (seen : gmap bytes (gmap bytes Z)) id now retention vs names name : (forall mp n t, seen !! id = Some mp -> mp !! n = Some t -> sustained history id n t) -> 0 < retention ->
  name ∈ collectable (referenced_file_numbers vs) (pending_file_numbers vs) (default ∅ (seen !! id)) now retention names ->
  exists n t, sst_file_number name = Some n /\ n ∉ referenced_file_numbers vs /\ n ∉ pending_file_numbers vs /\ sustained history id name t /\ retention <= now - t.
Proof.
  intros Hr Hpos [Hin [Hc Hd]%andb_true_iff]%elem_of_filter_bool. unfold is_candidate in Hc. destruct (sst_file_number name) as [n|]; [|done].
  apply andb_true_iff in Hc as [H1%negb_true_iff%bool_decide_eq_false H2%negb_true_iff%bool_decide_eq_false]. apply andb_true_iff in Hd as [D1%Z.leb_le D2%Z.leb_le].
  set (t := first_seen (default ∅ (seen !! id)) now name) in *. exists n, t. split_and!; try done.
  destruct (first_seen_cases (default ∅ (seen !! id)) now name) as [E|E]; [fold t in E; lia|]. destruct (seen !! id) as [mp|] eqn:Em; cbn [default] in *; [by eapply Hr|]. by rewrite lookup_empty in E.
Qed.

Lemma sweep_stores_removes (history : list Sighting) now retention vs : 0 < retention -> forall (stores : list (bytes * S)) (seen : gmap bytes (gmap bytes Z)) r seen' stores',
  NoDup (map fst stores) -> Forall (fun p => ok p.2) stores ->
  (forall id, id ∈ map fst stores -> forall mp n t, seen !! id = Some mp -> mp !! n = Some t -> sustained history id n t) ->
  sweep_stores (referenced_file_numbers vs) (pending_file_numbers vs) now retention (map list_store stores) seen = (r, seen', stores') ->
  Forall2 (only_orphans history now retention vs) stores stores'.
Proof.
  intros Hpos. induction stores as [|[id s] stores IH]; intros seen r seen' stores' Hn Hok Hseen; cbn [map sweep_stores]; [intros [= <- <- <-]; constructor|].
  cbn [map fst] in *. apply NoDup_cons in Hn as [Hnew Hn]. apply Forall_cons in Hok as [Hs Hok]. cbn [snd] in Hs.
  assert (forall p : bytes * S, ok p.2 -> only_orphans history now retention vs p (list_store p).2) as Hlisted.
  { intros [i x] Hx. unfold list_store. cbn [fst snd] in *. destruct (bs_list [] x) as [l x'] eqn:El. destruct (law_list_frame _ _ _ _ Hx El) as [Hx' Hsame]. cbn [snd].
    split; [done|]. split; [done|]. cbn [snd]. split; intros name; rewrite Hsame; done. }
  pose proof (Hlisted (id, s) Hs) as Hfirst. unfold list_store in Hfirst. unfold list_store at 1. cbn [fst snd] in *. destruct (bs_list [] s) as [l s1] eqn:El. cbn [fst snd] in *.
  destruct (law_list_frame _ _ _ _ Hs El) as [Hs1 Hsame]. destruct l as [names|e].
  - set (dead := collectable _ _ _ _ _ _). destruct (sweep_stores _ _ _ _ (map list_store stores) _) as [[r1 seen1] stores1] eqn:E. intros [= <- <- <-]. constructor.
    + assert (exists q s2, match dead with [] => s1 | _ => (bs_remove_many dead s1).2 end = s2 /\ (dead = [] /\ s2 = s1 \/ bs_remove_many dead s1 = (q, s2))) as (q & s2 & -> & Hq).
      { destruct dead as [|d dead]; [by exists Ok, s1; split; [|left]|]. destruct (bs_remove_many (d :: dead) s1) as [q s2]. exists q, s2. split; [done|by right]. }
      assert (ok s2 /\ (forall m, m ∉ dead -> objects s2 m = objects s1 m) /\ (forall m, objects s1 m = None -> objects s2 m = None)) as (Hok2 & Hframe & Hnone).
      { destruct Hq as [[_ ->]|Hq]; [done|]. split; [by eapply law_remove_many_keeps|]. pose proof (fun m => law_remove_many_frame _ _ _ _ m Hs1 Hq) as Hf.
        split; intros m Hm; destruct (Hf m) as [E1|[? E1]]; [done|done|by rewrite E1|done]. }
      split; [done|]. split; [done|]. cbn [fst snd]. split; [intros name Hname; apply Hnone; by rewrite Hsame|]. intros name Hdiff.
      destruct (decide (name ∈ dead)) as [Hin|Hout]; [|exfalso; apply Hdiff; by rewrite Hframe, Hsame]. eapply removed_sustained; [|done|exact Hin]. apply Hseen. by left.
    + eapply IH; [done|done| |exact E]. intros id' Hid' mp n t. rewrite lookup_insert_ne by (intros ->; done). apply Hseen. by right.
  - intros [= <- <- <-]. rewrite map_map. constructor; [by apply (Hlisted (id, s))|].
    clear -Hlisted Hok. induction Hok as [|p stores Hp Hok IH]; [constructor|]. cbn [map]. constructor; [by apply Hlisted|exact IH].
Qed.

Section Sweeps.
Context {M : Type} {cat : ManifestCatalog M}.

(** What a sweep adds to the sightings: nothing when it does not get to the stores. *)
Definition sees (read_only enabled : bool) (now : Z) (vs : VersionSet) (m : M) (stores : list (bytes * S)) (history : list Sighting) : list Sighting :=
  if read_only || negb enabled || (manifest_advanced vs m).1 then history
  else {| si_now := now; si_version := vs; si_listed := looked (map list_store stores) |} :: history.

(** The sweeps of one instance, from the start of its process, with whatever happens in between. *)
Inductive Swept : list Sighting -> SweepState -> Prop :=
  | swept_none : Swept [] no_sightings
  | swept_again history st read_only enabled orphan_retention obsolete_retention now vs m stores r vs' m' stores' st' :
      Swept history st -> NoDup (map fst stores) ->
      sweep_orphans read_only enabled orphan_retention obsolete_retention now vs m stores st = (r, vs', m', stores', st') ->
      Swept (sees read_only enabled now vs m stores history) st'.

Lemma list_store_ids (stores : list (bytes * S)) : map (fun p => p.1.1) (map list_store stores) = map fst stores /\ Forall (fun p => p.2.1 = p.1.1) (map list_store stores).
Proof.
  induction stores as [|[id s] stores [IH1 IH2]]; [done|]. cbn [map]. unfold list_store at 1 3. cbn [fst snd]. destruct (bs_list [] s) as [l s']. cbn [fst snd]. split; [by rewrite IH1|by constructor].
Qed.

Lemma stale_keeps_orphans retention now vs st (m : M) k st' m' : sweep_stale_generations retention now vs st m = (k, st', m') -> orphan_first_seen_ st' = orphan_first_seen_ st.
Proof.
  unfold sweep_stale_generations. destruct (_ =? 0); [by intros [= <- <- <-]|]. destruct (stale_candidates _ m) as [[gs|] m1]; [|by intros [= <- <- <-]].
  destruct (fold_left _ _ _) as [[r present] m2]. by intros [= <- <- <-].
Qed.

Lemma swept_remembers history st : Swept history st -> remembers history (orphan_first_seen_ st).
Proof.
  induction 1 as [|history st ro en ret obs now vs m stores r vs' m' stores' st' _ IH Hn E]; [intros id mp name t H; cbn [orphan_first_seen_ no_sightings] in H; by rewrite lookup_empty in H|].
  unfold sweep_orphans in E. unfold sees. destruct (ro || negb en); [by injection E as <- <- <- <- <-|]. cbn [orb]. destruct (manifest_advanced vs m) as [adv m1]. cbn [fst].
  destruct adv; [by injection E as <- <- <- <- <-|]. destruct (sweep_stores _ _ _ _ _ _) as [[r1 seen1] stores1] eqn:Es. destruct (list_store_ids stores) as [H1 H2].
  assert (orphan_first_seen_ st' = seen1) as ->.
  { destruct r1; [by injection E as <- <- <- <- <-|]. destruct (sweep_stale_generations _ _ _ _ _) as [[k st2] m2] eqn:Eg. apply stale_keeps_orphans in Eg. by injection E as <- <- <- <- <-. }
  eapply remembers_sweep; [exact IH|by rewrite H1|done|exact Es].
Qed.

Context (view : M -> Manifest) (cat_laws : CatalogLaws cat view).

Lemma advanced_view vs m : view (manifest_advanced vs m).2 = view m.
Proof.
  unfold manifest_advanced. destruct (entry_ vs) as [e|]; [|done]. destruct (cat_read m) as [r m1] eqn:Er. apply law_read in Er as [Hv _]. destruct r as [[p|]|]; [|done|done].
  destruct (negb _); [done|]. destruct (list_edits (generation e) m1) as [l m2] eqn:El. apply law_list_edits in El as [Hv2 _]. destruct l; cbn [snd]; congruence.
Qed.

(** C11: the orphan sweep, with an orphan retention above zero, removes an object only when it is an SST that the version
    it runs with does not list and that is not queued for deletion, and when every sweep of this instance that listed the
    store, back to one at least [orphan_retention] ago, found it so; nothing else in the stores changes. In the manifest it
    moves neither the pointer nor anything of the generation this instance works on, whichever reads of the catalog fail;
    what it does to a generation that another writer made live is no part of this, and
    [blind_sweep_deletes_live_generation] shows that it can delete it. *)
Theorem sweep_removes_only_orphans history st read_only enabled orphan_retention obsolete_retention now vs m stores r vs' m' stores' st' :
  Swept history st -> NoDup (map fst stores) -> Forall (fun p => ok p.2) stores -> 0 < orphan_retention ->
  sweep_orphans read_only enabled orphan_retention obsolete_retention now vs m stores st = (r, vs', m', stores', st') ->
  Forall2 (only_orphans history now orphan_retention vs) stores stores' /\ spares (vs_generation vs) (view m) (view m').
Proof.
  intros Hs Hn Hok Hpos E. assert (Forall2 (only_orphans history now orphan_retention vs) stores stores) as Hsame.
  { rewrite <- (map_id stores) at 2. apply (Forall2_map_diag (fun p => ok p.2)); [|done]. intros p Hp. by split_and!. }
  unfold sweep_orphans in E. destruct (read_only || negb enabled); [by injection E as <- <- <- <- <-|]. pose proof (advanced_view vs m) as Hv. destruct (manifest_advanced vs m) as [adv m1]. cbn [snd] in Hv.
  destruct adv; [injection E as <- <- <- <- <-; rewrite Hv; done|]. destruct (sweep_stores _ _ _ _ _ _) as [[r1 seen1] stores1] eqn:Es.
  assert (stores' = stores1 /\ spares (vs_generation vs) (view m) (view m')) as [-> Hspare].
  { destruct r1; [injection E as <- <- <- <- <-; by rewrite Hv|]. destruct (sweep_stale_generations _ _ _ _ _) as [[k st2] m2] eqn:Eg.
    apply (sweep_stale_spares view cat_laws) in Eg. injection E as <- <- <- <- <-. by rewrite <- Hv. }
  split; [|done]. eapply sweep_stores_removes; [done|done|done| |exact Es]. intros id _ mp n t. by apply swept_remembers.
Qed.
End Sweeps.
End Removed.
