(* ===== verification/VersionSetProofs.v ===== *)
(** * The manifest protocol is durable

    The invariant between a version set and what its catalog holds, its preservation by every operation and
    every outcome the laws of [Catalog] admit, and what recovery reads back. Versions are compared up to the
    number of empty levels at the end ([≡]). *)

From S2P Require Import Prelude Slice Format Framing Crypto Names ManifestPayload Watermark VersionEdit Version Catalog VersionSet Sweep.

(** ** Versions up to empty levels *)

#[export] Instance version_equiv : Equiv Version := fun v w =>
  (forall lvl, files_at v lvl = files_at w lvl) /\ compaction_pointers_ v = compaction_pointers_ w /\
  truncation_point_ v = truncation_point_ w /\ watermark_floor_ v = watermark_floor_ w.

#[export] Instance version_equivalence : Equivalence (≡@{Version}).
Proof.
  split.
  - intros v. by split_and!.
  - intros v w (H1 & H2 & H3 & H4). by split_and!.
  - intros v w x (H1 & H2 & H3 & H4) (H5 & H6 & H7 & H8). split_and!; [intros lvl; by rewrite H1|congruence..].
Qed.

#[export] Instance files_at_proper : Proper ((≡@{Version}) ==> (=) ==> (=)) files_at.
Proof. intros v w (H & _) lvl ? <-. apply H. Qed.

#[export] Instance apply_proper : Proper ((≡@{Version}) ==> (=) ==> (≡)) apply.
Proof.
  intros v w (H1 & H2 & H3 & H4) e ? <-. split_and!; [|unfold apply; simpl; congruence|unfold apply; simpl; by rewrite H3|unfold apply; simpl; by rewrite H4].
  intros lvl. destruct (Z.lt_ge_cases lvl 0); [by rewrite !files_at_neg|]. by rewrite !apply_level, H1.
Qed.

(** Edits differ only in what they say of the versions, not in the counter they carry. *)
Lemma apply_number v e n : apply v (with_number e n) ≡ apply v e.
Proof. split_and!; [|done..]. intros lvl. destruct (Z.lt_ge_cases lvl 0); [by rewrite !files_at_neg|]. by rewrite !apply_level. Qed.

Lemma concat_levels_eq (ls ls' : list (list FileMetadata)) : (forall n, level_list ls n = level_list ls' n) -> concat ls = concat ls'.
Proof.
  revert ls'. induction ls as [|l ls IH]; intros ls' H.
  - induction ls' as [|l' ls' IH']; [done|]. simpl. rewrite <- IH'; [|intros n; apply (H (S n))].
    pose proof (H 0%nat) as H0. unfold level_list in H0. simpl in H0. by rewrite <- H0.
  - destruct ls' as [|l' ls'].
    + simpl. pose proof (H 0%nat) as H0. unfold level_list in H0. simpl in H0. rewrite H0. apply (IH []). intros n. apply (H (S n)).
    + simpl. f_equal; [apply (H 0%nat)|]. apply IH. intros n. apply (H (S n)).
Qed.

#[export] Instance all_files_proper : Proper ((≡@{Version}) ==> (=)) all_files.
Proof.
  intros v w (H & _). apply concat_levels_eq. intros n. pose proof (H (Z.of_nat n)) as Hn. rewrite !files_at_level_list in Hn by lia.
  by rewrite !Nat2Z.id in Hn.
Qed.

#[export] Instance snapshot_of_proper : Proper ((≡@{Version}) ==> (=) ==> (=)) snapshot_of.
Proof. intros v w E c ? <-. unfold snapshot_of. rewrite (all_files_proper _ _ E). destruct E as (_ & -> & -> & ->). done. Qed.

Definition distinct (v : Version) : Prop :=
  forall lvl f g, f ∈ files_at v lvl -> g ∈ files_at v lvl -> file_number f = file_number g -> f = g.

#[export] Instance distinct_proper : Proper ((≡) ==> iff) distinct.
Proof. intros v w E. unfold distinct. by setoid_rewrite E. Qed.

(** What a snapshot can bring back: levels in order, files under their own level, numbers unique. *)
Definition version_wf (v : Version) : Prop := ordered v /\ filed v /\ distinct v.

#[export] Instance version_wf_proper : Proper ((≡) ==> iff) version_wf.
Proof. intros v w E. unfold version_wf, ordered, filed. by setoid_rewrite E. Qed.

Lemma filter_concat_levels ls n : forall k,
  (forall i l f, ls !! i = Some l -> f ∈ l -> level f = k + Z.of_nat i) -> 0 <= n ->
  List.filter (fun f => level f =? k + n) (concat ls) = default [] (ls !! Z.to_nat n).
Proof.
  revert n. induction ls as [|l ls IH]; intros n k Hl Hn; [done|]. cbn [concat]. rewrite List.filter_app.
  destruct (Z.eq_dec n 0) as [->|Hne].
  - rewrite filter_all, filter_none; [by rewrite app_nil_r| |].
    + intros f Hf. apply list_elem_of_In, in_concat in Hf as (l' & Hl' & Hf). apply list_elem_of_In, list_elem_of_lookup in Hl' as [i Hi].
      specialize (Hl (S i) l' f Hi ltac:(by apply list_elem_of_In)). destruct (Z.eqb_spec (level f) (k + 0)); [lia|done].
    + intros f Hf. specialize (Hl 0%nat l f eq_refl Hf). destruct (Z.eqb_spec (level f) (k + 0)); [done|lia].
  - rewrite filter_none.
    2:{ intros f Hf. specialize (Hl 0%nat l f eq_refl Hf). destruct (Z.eqb_spec (level f) (k + n)); [lia|done]. }
    replace (Z.to_nat n) with (S (Z.to_nat (n - 1))) by lia. change ((l :: ls) !! S (Z.to_nat (n - 1))) with (ls !! Z.to_nat (n - 1)). cbn [app]. rewrite <- (IH (n - 1) (k + 1)).
    + f_equal. replace (k + 1 + (n - 1)) with (k + n) by lia. done.
    + intros i l' f Hi Hf. specialize (Hl (S i) l' f Hi Hf). lia.
    + lia.
Qed.

Lemma all_files_level v lvl : filed v -> 0 <= lvl -> List.filter (fun f => level f =? lvl) (all_files v) = files_at v lvl.
Proof.
  intros Hf Hlvl. rewrite files_at_level_list by done. unfold level_list. rewrite <- (filter_concat_levels (levels_ v) lvl 0); [done| |done].
  intros i l f Hi Hl. apply (Hf (Z.of_nat i) f). rewrite files_at_level_list by lia. unfold level_list. by rewrite Nat2Z.id, Hi.
Qed.

Lemma sort_level_ordered v lvl : ordered v -> distinct v -> 0 <= lvl -> sort_level (Z.to_nat lvl) (files_at v lvl) = files_at v lvl.
Proof.
  intros Ho Hd Hlvl. pose proof (Ho lvl) as Hs. pose proof (Hd lvl) as Hdl. clear Ho Hd. unfold level_order in Hs.
  destruct (Z.eqb_spec lvl 0) as [E|Hne].
  - rewrite E in *. apply (StronglySorted_unique_strong newer_first); [|by apply (StronglySorted_merge_sort newer_first)|done|apply merge_sort_Permutation].
    intros f g Hf Hg H1 H2. rewrite sort_level_perm in Hf. apply Hdl; [done|done|]. unfold newer_first in *. lia.
  - destruct (Z.to_nat lvl) as [|n] eqn:En; [lia|].
    apply (StronglySorted_unique_strong by_key); [|by apply (StronglySorted_merge_sort by_key)|done|apply merge_sort_Permutation].
    intros f g Hf Hg H1 H2. rewrite sort_level_perm in Hf. apply Hdl; [done|done|].
    destruct H1 as [H1|[E1 H1]], H2 as [H2|[E2 H2]]; [key_order|rewrite E2 in H1; key_order|rewrite E1 in H2; key_order|lia].
Qed.

Lemma fold_insert_list_to_map (l : list (Z * bytes)) : forall m : gmap Z bytes, NoDup (fst <$> l) ->
  fold_left (fun m p => <[p.1 := p.2]> m) l m = list_to_map l ∪ m.
Proof.
  induction l as [|[k b] l IH]; intros m Hn; simpl; [by rewrite map_empty_union|]. apply NoDup_cons in Hn as [Hk Hn].
  rewrite IH by done. rewrite <- insert_union_r by (by apply not_elem_of_list_to_map_1). by rewrite insert_union_l.
Qed.

Lemma sorted_pointers_map m : fold_left (fun m p => <[p.1 := p.2]> m) (sorted_pointers m) ∅ = m.
Proof.
  unfold sorted_pointers. pose proof (merge_sort_Permutation pointer_le (map_to_list m)) as Hp.
  rewrite fold_insert_list_to_map.
  - rewrite map_union_empty. rewrite (list_to_map_proper _ (map_to_list m)); [apply list_to_map_to_list| |done].
    rewrite Hp. apply NoDup_fst_map_to_list.
  - rewrite Hp. apply NoDup_fst_map_to_list.
Qed.

Lemma version_of_snapshot_of v counter : version_wf v -> version_of_snapshot (snapshot_of v counter) ≡ v.
Proof.
  intros (Ho & Hf & Hd). unfold version_of_snapshot, snapshot_of. cbn [snap_next_file_number snap_files snap_compaction_pointers snap_truncation_point snap_watermark_floor].
  rewrite sorted_pointers_map. split_and!.
  - intros lvl. destruct (Z.lt_ge_cases lvl 0); [by rewrite !files_at_neg|]. rewrite apply_level by done.
    cbn [deleted added]. assert (forall n c p t w, files_at (make_version [] c p t w) n = []) as Hnil.
    { intros n c p t w. unfold files_at. destruct (_ || _); [done|]. cbn [levels_ make_version]. done. }
    rewrite Hnil. cbn [List.filter app]. rewrite all_files_level by done. by apply sort_level_ordered.
  - done.
  - unfold apply. cbn [truncation_point_ make_version truncation_point]. by destruct (truncation_point_ v).
  - done.
Qed.

Lemma apply_wf v e : filed v -> distinct (apply v e) -> version_wf (apply v e).
Proof. intros Hf Hd. split; [apply apply_ordered|]. split; [by apply apply_filed|done]. Qed.

Lemma empty_version_wf : version_wf empty_version.
Proof.
  assert (forall lvl, files_at empty_version lvl = []) as E by (intros lvl; unfold files_at; by destruct (_ || _)).
  split; [intros lvl; rewrite E; constructor|]. split; [intros lvl f; rewrite E; by intros ?%elem_of_nil|].
  intros lvl f g. rewrite E. by intros ?%elem_of_nil.
Qed.

(** ** Payloads that come back *)

Lemma zlen_frame `{ops : CodecOps} content codec : zlen (frame content codec) <= zlen content + kBlockTrailerLength.
Proof.
  unfold frame, frame_block, kBlockTrailerLength. pose proof (zlen_nonneg content). change (zlen []) with 0. destruct (2 ^ 32 - 1 <? zlen content); [change (zlen []) with 0; lia|].
  match goal with |- context [result_bind ?p _] => destruct p as [payload|] eqn:Ep end; cbn [result_bind]; [|change (zlen []) with 0; lia].
  rewrite !zlen_app. assert (forall w, zlen (put_fixed32 w) = 4) as E4 by (intros w; unfold zlen; by rewrite length_put_fixed32). rewrite !E4.
  change (zlen [_]) with 1.
  destruct (negb (bool_decide (codec = NoCompression)) && (zlen content <=? zlen payload)) eqn:Ek; [lia|].
  apply andb_false_iff in Ek as [Ek|Ek].
  - apply negb_false_iff, bool_decide_eq_true_1 in Ek. subst codec. injection Ep as <-. lia.
  - zbool. lia.
Qed.

Section Protocol.
Context {M : Type} {cat : ManifestCatalog M} (view : M -> Manifest) (laws : CatalogLaws cat view) (settles : SettlesSwaps cat).
Context {ops : CodecOps} (codec_laws : CodecLaws ops) (lz4_small : lz4_max_input <= 2 ^ 31 - 1).
Context (zstd_total : forall d, zlen d <= kMaxManifestBytes -> exists c, zstd_compress d = Some c).
Context (registry : ProviderRegistry) (provider : EncryptionProvider) (has_primary : primary_provider registry = Some provider).
Context (provider_laws : ProviderLaws provider) (id_small : zlen (primary registry) < 2 ^ 16).
Context (provider_small : forall g c metadata, p_create provider g = Value (c, metadata) ->
  is_u32 (zlen metadata) /\ forall n, 0 <= n <= kMaxPayloadBytes -> object_small c n).
Context (seal_fails : forall g address plaintext s, payload_seal registry g address plaintext = Unexpected s -> s <> Ok).

Definition opens_edit (g seq : Z) (b : bytes) (e : VersionEdit) : Prop :=
  exists plain, payload_open registry g (edit_address g seq) b = Value (plain, primary registry) /\
    decode_version_edit plain = Value e /\ refuses_plaintext registry (added e) = false.

Definition opens_snapshot (g : Z) (b : bytes) (s : VersionSnapshot) : Prop :=
  exists plain, payload_open registry g (snapshot_address g) b = Value (plain, primary registry) /\
    decode_version_snapshot plain = Value s /\ refuses_plaintext registry (snap_files s) = false.

(** An edit whose record is in bounds, and a version whose snapshot will be. *)
Definition edit_fits (e : VersionEdit) : Prop :=
  edit_ok e /\ zlen (edit_content e) + kBlockTrailerLength <= kMaxManifestBytes /\ refuses_plaintext registry (added e) = false.

Definition version_fits (v : Version) : Prop :=
  forall counter, is_u64 counter ->
    snapshot_ok (snapshot_of v counter) /\ zlen (snapshot_content (snapshot_of v counter)) + kBlockTrailerLength <= kMaxManifestBytes /\
    refuses_plaintext registry (all_files v) = false.

Lemma sealed_opens g address plaintext framed : is_u64 g -> zlen plaintext <= kMaxPayloadBytes ->
  payload_seal registry g address plaintext = Value framed -> forall n,
  payload_open registry g address (take n framed) = if Nat.ltb n (length framed) then Unexpected Corrupt else Value (plaintext, primary registry).
Proof.
  intros Hg Hlen Hs n. apply (payload_prefix_open registry provider g address plaintext framed has_primary provider_laws id_small Hg); [|done|done].
  intros c metadata Ep. destruct (provider_small g c metadata Ep) as [H1 H2]. split; [done|]. intros k Hk. apply H2. lia.
Qed.

Lemma sealed_edit g seq e framed : is_u64 g -> edit_fits e ->
  payload_seal registry g (edit_address g seq) (encode_version_edit e) = Value framed ->
  opens_edit g seq framed e /\
  forall n, payload_open registry g (edit_address g seq) (take n framed) = Unexpected Corrupt \/ take n framed = framed.
Proof.
  intros Hg (Hok & Hlen & Hr) Hs.
  assert (zlen (encode_version_edit e) <= kMaxPayloadBytes) as Hl.
  { unfold encode_version_edit. pose proof (zlen_frame (edit_content e) NoCompression). unfold kMaxPayloadBytes, kMaxManifestBytes in *. lia. }
  pose proof (sealed_opens g _ _ framed Hg Hl Hs) as Ho. split.
  - exists (encode_version_edit e). specialize (Ho (length framed)). rewrite firstn_all, Nat.ltb_irrefl in Ho. split; [done|]. split; [|done].
    apply decode_edit_ok; [done|unfold kBlockTrailerLength in *; lia|done].
  - intros n. rewrite Ho. destruct (Nat.ltb_spec n (length framed)); [by left|]. right. by apply take_ge.
Qed.

Lemma sealed_snapshot g v counter framed : is_u64 g -> is_u64 counter -> version_fits v ->
  payload_seal registry g (snapshot_address g) (encode_version_snapshot (snapshot_of v counter)) = Value framed ->
  opens_snapshot g framed (snapshot_of v counter).
Proof.
  intros Hg Hcnt Hfit Hs. destruct (Hfit counter Hcnt) as (Hok & Hlen & Hr).
  assert (zlen (encode_version_snapshot (snapshot_of v counter)) <= kMaxPayloadBytes) as Hl.
  { unfold encode_version_snapshot. pose proof (zlen_frame (snapshot_content (snapshot_of v counter)) Zstd).
    unfold kMaxPayloadBytes, kMaxManifestBytes in *. lia. }
  pose proof (sealed_opens g _ _ framed Hg Hl Hs (length framed)) as Ho. rewrite firstn_all, Nat.ltb_irrefl in Ho.
  exists (encode_version_snapshot (snapshot_of v counter)). split; [done|]. split; [|done]. unfold kBlockTrailerLength in Hlen.
  destruct (zstd_total (snapshot_content (snapshot_of v counter))) as [out Ez]; [lia|].
  assert (exists raw, frame_block (snapshot_content (snapshot_of v counter)) Zstd = Value raw) as [raw Er].
  { unfold frame_block, compress_zstd. rewrite Ez. unfold kMaxManifestBytes in Hlen.
    destruct (Z.ltb_spec (2 ^ 32 - 1) (zlen (snapshot_content (snapshot_of v counter)))); [lia|]. cbn [result_bind]. by eexists. }
  eapply decode_snapshot_ok; [done|lia|done|exact Er].
Qed.

(** ** Placing a snapshot *)

(** Only snapshots at generations without one were added. *)
Definition adds (mf mf' : Manifest) : Prop :=
  mf_pointer mf' = mf_pointer mf /\ mf_edits mf' = mf_edits mf /\
  forall g b, mf_snapshots mf !! g = Some b -> mf_snapshots mf' !! g = Some b.

Lemma adds_refl mf : adds mf mf.
Proof. by split. Qed.

Lemma adds_trans a b c : adds a b -> adds b c -> adds a c.
Proof. intros (H1 & H2 & H3) (H4 & H5 & H6). split; [congruence|]. split; [congruence|]. auto. Qed.

Lemma adds_set mf g b : mf_snapshots mf !! g = None -> adds mf (set_snapshot mf g b).
Proof. intros H. split; [done|]. split; [done|]. intros g' b' Hg. simpl. rewrite lookup_insert_ne; [done|]. intros ->. congruence. Qed.

Lemma put_snapshot_adds g b m s m' : put_snapshot g b m = (s, m') -> adds (view m) (view m').
Proof.
  intros E. destruct (law_put_snapshot _ _ _ _ _ E) as [H1 H2]. destruct (decide (s = Ok)) as [->|Hs].
  - destruct (H1 eq_refl) as [Hn ->]. by apply adds_set.
  - destruct (H2 Hs) as [->|[Hn [n ->]]]; [apply adds_refl|by apply adds_set].
Qed.

Lemma fold_max_range gs : forall g, is_u64 g -> Forall is_u64 gs -> g <= fold_left Z.max gs g /\ is_u64 (fold_left Z.max gs g).
Proof.
  induction gs as [|x gs IH]; intros g Hg Hgs; simpl; [by split; [lia|]|]. apply Forall_cons in Hgs as [Hx Hgs].
  destruct (IH (Z.max g x)) as [H1 H2]; [unfold is_u64 in *; lia|done|]. split; [lia|done].
Qed.

Lemma place_snapshot_spec snapshot n : forall expected g m r fence m',
  place_snapshot registry n expected g snapshot m = ((r, fence), m') -> mf_pointer (view m) = expected -> is_u64 g ->
  fence = false /\ adds (view m) (view m') /\
  match r with
  | Value g' => g <= g' /\ is_u64 g' /\
      exists framed, payload_seal registry g' (snapshot_address g') snapshot = Value framed /\ mf_snapshots (view m') !! g' = Some framed
  | Unexpected s => s <> Ok
  end.
Proof.
  induction n as [|n IH]; intros expected g m r fence m' E Hp Hg; cbn [place_snapshot] in E.
  { injection E as <- <- <-. split; [done|]. split; [apply adds_refl|done]. }
  destruct (payload_seal registry g (snapshot_address g) snapshot) as [framed|s] eqn:Es.
  2:{ injection E as <- <- <-. split; [done|]. split; [apply adds_refl|]. by eapply seal_fails. }
  destruct (put_snapshot g framed m) as [s m1] eqn:Ep. pose proof (put_snapshot_adds _ _ _ _ _ Ep) as Ha.
  destruct (decide (s = Ok)) as [->|Hok].
  { injection E as <- <- <-. split; [done|]. split; [done|]. split; [lia|]. split; [done|]. exists framed. split; [done|].
    destruct (law_put_snapshot _ _ _ _ _ Ep) as [H _]. destruct (H eq_refl) as [_ ->]. simpl. by rewrite lookup_insert_eq. }
  destruct (decide (s = Config)) as [->|Hcfg].
  2:{ assert (r = Unexpected s /\ fence = false /\ m1 = m') as (-> & -> & ->) by (destruct s; simplify_eq; done). by split_and!. }
  destruct (cat_read m1) as [rp m2] eqn:Er. apply law_read in Er as [Hv2 [->|(s & -> & Hs & _)]].
  2:{ injection E as <- <- <-. split; [done|]. split; [by rewrite Hv2|done]. }
  pose proof Ha as (Hap & _ & _).
  replace (same_entry expected (mf_pointer (view m1))) with true in E by (symmetry; apply bool_decide_eq_true_2; congruence). cbn [negb] in E.
  destruct (list_generations m2) as [gens m3] eqn:Eg. destruct (law_list_generations _ _ _ Eg) as [Hv3 Hgens].
  assert (adds (view m) (view m3)) as Ha3 by (by rewrite Hv3, Hv2).
  destruct (match gens with Value gs => _ | Unexpected s => _ end) as [g1|s] eqn:Eg1.
  2:{ injection E as <- <- <-. split; [done|]. split; [done|]. destruct gens as [gs|s']; [done|]. case_bool_decide; [done|]. by injection Eg1 as <-. }
  assert (g <= g1 /\ is_u64 g1) as [Hg1 Hu1].
  { destruct gens as [gs|s]; [injection Eg1 as <-; by apply fold_max_range|].
    case_bool_decide; [injection Eg1 as <-; by split; [lia|]|done]. }
  destruct (Z.eqb_spec g1 (2 ^ 64 - 1)); [injection E as <- <- <-; by split_and!|].
  destruct (Nat.eqb n 0); [injection E as <- <- <-; by split_and!|].
  destruct (IH _ _ _ _ _ _ E) as (Hf & Ha' & Hv); [destruct Ha3 as (-> & _); done|unfold is_u64 in *; lia|].
  split; [done|]. split; [by eapply adds_trans|]. destruct r; [|done]. destruct Hv as (H1 & H2 & H3). split; [lia|done].
Qed.

(** Outside the previous generation nothing of [mf] is gone, and no edit appeared. *)
Definition moved_past (previous : option Entry) (mf mf' : Manifest) : Prop :=
  forall g seq, (forall e, previous = Some e -> generation e <> g) -> mf_edits mf' !! (g, seq) = mf_edits mf !! (g, seq).

(** A snapshot that is installed is the one just placed, at a later generation; one that is not changes
    nothing that counts. *)
Lemma write_snapshot_spec vs g v m s vs' m' :
  write_snapshot_and_install registry vs g v m = (s, vs', m') ->
  mf_pointer (view m) = entry_ vs -> is_u64 g -> (forall e, entry_ vs = Some e -> generation e < g) -> is_u64 (file_counter_ vs) -> version_fits v ->
  (s = Ok /\ exists e b, vs' = with_manifest vs (Some e) (next_seq_ vs) 0 /\ mf_pointer (view m') = Some e /\ g <= generation e /\ is_u64 (generation e) /\
     mf_snapshots (view m') !! generation e = Some b /\ opens_snapshot (generation e) b (snapshot_of v (file_counter_ vs)) /\
     moved_past (entry_ vs) (view m) (view m')) \/
  (s <> Ok /\ vs' = vs /\ adds (view m) (view m')).
Proof.
  intros E Hp Hg Hlt Hcnt Hfit. unfold write_snapshot_and_install in E.
  destruct (place_snapshot _ _ _ _ _ m) as [[r fence] m1] eqn:Epl. destruct (place_snapshot_spec _ _ _ _ _ _ _ _ Epl Hp Hg) as (-> & Ha & Hr).
  pose proof Ha as (Hap & Hae & Has).
  destruct r as [g1|s1]; [|right; injection E as <- <- <-; by split].
  destruct Hr as (Hg1 & Hu1 & framed & Eseal & Hsnap).
  assert (forall e m2, generation e = g1 -> view m2 = set_pointer (view m1) (Some e) -> commit_generation vs e m2 = (s, vs', m') ->
    s = Ok /\ exists e b, vs' = with_manifest vs (Some e) (next_seq_ vs) 0 /\ mf_pointer (view m') = Some e /\ g <= generation e /\ is_u64 (generation e) /\
     mf_snapshots (view m') !! generation e = Some b /\ opens_snapshot (generation e) b (snapshot_of v (file_counter_ vs)) /\
     moved_past (entry_ vs) (view m) (view m')) as Hfinish.
  { clear E. intros e m2 He Hv2 E. unfold commit_generation in E. pose proof (sealed_snapshot g1 v _ framed Hu1 Hcnt Hfit Eseal) as Ho.
    destruct (entry_ vs) as [previous|] eqn:Een.
    - destruct (delete_generation (generation previous) m2) as [s2 m3] eqn:Ed. injection E as <- <- <-.
      destruct (law_delete_generation _ _ _ _ Ed) as (D1 & D2 & D3 & _). specialize (Hlt previous eq_refl). split; [done|]. exists e, framed. rewrite He.
      rewrite D1, D2, Hv2 by lia. split_and!; try done. intros g' seq Hne. specialize (Hne previous eq_refl).
      rewrite D3, Hv2 by congruence. simpl. by rewrite Hae.
    - injection E as <- <- <-. split; [done|]. exists e, framed. rewrite He, Hv2. split_and!; try done.
      intros g' seq _. rewrite ?Hv2. simpl. by rewrite Hae. }
  destruct (compare_and_set (entry_ vs) g1 m1) as [installed m2] eqn:Ecas. pose proof (law_compare_and_set _ _ _ _ _ Ecas) as Hcas.
  destruct installed as [[e|]|sc].
  - destruct Hcas as (_ & He & Hv2). left. by apply (Hfinish e m2).
  - destruct Hcas as [Hne _]. exfalso. apply Hne. congruence.
  - destruct (decide (sc = Io)) as [->|Hio].
    + destruct (law_settles _ _ _ _ Ecas) as [p Hread]. destruct (cat_read m2) as [rp m3] eqn:Er. cbn [fst] in Hread. rewrite Hread in *.
      apply law_read in Er as [Hv3 [[= ->]|(? & [=] & _)]]. destruct Hcas as [[_ Hv2]|(_ & _ & e & He & Hv2)].
      * rewrite Hv2, Hap, Hp in E. right. destruct (entry_ vs) as [e|] eqn:Een.
        -- specialize (Hlt e eq_refl). destruct (Z.eqb_spec (generation e) g1); [lia|]. unfold same_entry in E. rewrite bool_decide_eq_true_2 in E by done.
           injection E as <- <- <-. split; [done|]. split; [done|]. by rewrite Hv3, Hv2.
        -- unfold same_entry in E. rewrite bool_decide_eq_true_2 in E by done. injection E as <- <- <-. split; [done|]. split; [done|]. by rewrite Hv3, Hv2.
      * rewrite Hv2 in E. cbn [mf_pointer set_pointer] in E. rewrite He, Z.eqb_refl in E. left. apply (Hfinish e m3); [done|by rewrite Hv3|done].
    + destruct Hcas as [[Hne Hv2]|(? & _)]; [|done]. right.
      assert ((sc, vs, m2) = (s, vs', m')) as E' by (destruct sc; done). injection E' as <- <- <-. split; [done|]. split; [done|]. by rewrite Hv2.
Qed.

(** ** Replaying a generation *)

Definition recorded (s : VersionSnapshot) (es : list VersionEdit) : Z :=
  fold_left (fun c e => Z.max c (next_file_number e)) es (snap_next_file_number s).

Definition holds_edits (mf : Manifest) (g k : Z) (es : list VersionEdit) : Prop :=
  forall i e, es !! i = Some e -> exists b, mf_edits mf !! (g, k + Z.of_nat i) = Some b /\ opens_edit g (k + Z.of_nat i) b e.

Lemma replay_prefix g back rest es : forall k v counter stale m, holds_edits (view m) g k es ->
  exists m', view m' = view m /\
    (replay registry g back (seqZ k (Z.of_nat (length es)) ++ rest) v counter k stale m =
       replay registry g back rest (fold_left apply es v) (fold_left (fun c e => Z.max c (next_file_number e)) es counter) (k + Z.of_nat (length es)) stale m' \/
     ~ ReadsAnswer cat /\ replay registry g back (seqZ k (Z.of_nat (length es)) ++ rest) v counter k stale m = (Unreadable, m')).
Proof.
  induction es as [|e es IH]; intros k v counter stale m H.
  - exists m. split; [done|]. left. cbn [length fold_left]. by rewrite Z.add_0_r.
  - cbn [length fold_left]. rewrite Nat2Z.inj_succ, seqZ_cons, Z.pred_succ by lia. cbn [app replay]. rewrite Z.eqb_refl. cbn [negb].
    destruct (H 0%nat e eq_refl) as (b & Hb & plain & Ho & Hd & Hr). rewrite Z.add_0_r in Hb, Ho.
    destruct (get_edit g k m) as [q m1] eqn:E1. destruct (law_get_edit _ _ _ _ _ E1) as [Hv1 Hq]. rewrite Hb in Hq. cbn [found] in Hq.
    destruct Hq as [->|(s & -> & _ & Hs)].
    2:{ exists m1. split; [done|]. right. split; [|by destruct s]. intros Hra. apply Hs, (ra_get_edit g k m). by rewrite E1. }
    rewrite Ho, Hd, Hr. rewrite (proj2 (slice_eqb_eq (primary registry) (primary registry)) eq_refl). unfold Z.succ.
    destruct (IH (k + 1) (apply v e) (Z.max counter (next_file_number e)) stale m1) as (m2 & Hv2 & E2).
    + intros i e' Hi. specialize (H (S i) e' Hi). rewrite Hv1. by replace (k + 1 + Z.of_nat i) with (k + Z.of_nat (S i)) by lia.
    + exists m2. split; [congruence|]. destruct E2 as [E2|[Hra E2]]; [left|by right]. rewrite E2. f_equal. lia.
Qed.

Lemma seqZ_sorted n : forall k, StronglySorted Z.le (seqZ k (Z.of_nat n)).
Proof.
  induction n as [|n IH]; intros k; [constructor|]. rewrite Nat2Z.inj_succ, seqZ_cons, Z.pred_succ by lia. constructor; [apply IH|].
  apply Forall_forall. intros x Hx%elem_of_seqZ. lia.
Qed.

Lemma sorted_numbers l n : NoDup l -> (forall x, x ∈ l <-> 1 <= x < 1 + Z.of_nat n) -> merge_sort Z.le l = seqZ 1 (Z.of_nat n).
Proof.
  intros Hn Hl. apply (StronglySorted_unique Z.le); [apply StronglySorted_merge_sort; apply _|apply seqZ_sorted|].
  rewrite merge_sort_Permutation. apply NoDup_Permutation; [done|apply NoDup_seqZ|]. intros x. by rewrite Hl, elem_of_seqZ.
Qed.

(** ** The invariant *)

(** An edit that may be applied to [v], by the engine or by a recovery. *)
Record edit_suits (v : Version) (e : VersionEdit) : Prop := {
  es_fits : edit_fits e;
  es_distinct : distinct (apply v e);
  es_snapshot : version_fits (apply v e);
  es_numbers : forall f, f ∈ added e -> file_number f < next_file_number e
}.

(** What may sit at the address of the next edit: nothing, the torn start of an edit, or a whole edit
    whose writer was told it had failed. *)
Definition tail_ok (failed : list VersionEdit) (v : Version) (mf : Manifest) (g seq : Z) : Prop :=
  forall b, mf_edits mf !! (g, seq) = Some b ->
    payload_open registry g (edit_address g seq) b = Unexpected Corrupt \/
    exists e, e ∈ failed /\ opens_edit g seq b e /\ edit_suits v e.

(** The generation [e] names: its snapshot, its edits, and nothing beyond the next. *)
Record generation_holds (failed : list VersionEdit) (vs : VersionSet) (mf : Manifest) (e : Entry) (s : VersionSnapshot) (es : list VersionEdit) : Prop := {
  gh_pointer : mf_pointer mf = Some e;
  gh_range : is_u64 (generation e);
  gh_snapshot : exists b, mf_snapshots mf !! generation e = Some b /\ opens_snapshot (generation e) b s;
  gh_edits : holds_edits mf (generation e) 1 es;
  gh_seq : next_seq_ vs = 1 + Z.of_nat (length es);
  gh_beyond : forall seq b, mf_edits mf !! (generation e, seq) = Some b -> 1 <= seq <= next_seq_ vs;
  gh_later : forall g seq, generation e < g -> mf_edits mf !! (g, seq) = None;
  gh_tail : tail_ok failed (current_ vs) mf (generation e) (next_seq_ vs);
  gh_version : fold_left apply es (version_of_snapshot s) ≡ current_ vs;
  gh_numbers : forall lvl f, f ∈ files_at (current_ vs) lvl -> file_number f < recorded s es;
  gh_counter : is_u64 (recorded s es) /\ recorded s es <= file_counter_ vs
}.

Record manifest_inv (failed : list VersionEdit) (vs : VersionSet) (mf : Manifest) : Prop := {
  mi_generation : exists e s es, entry_ vs = Some e /\ generation_holds failed vs mf e s es;
  mi_wf : version_wf (current_ vs);
  mi_fits : version_fits (current_ vs);
  mi_counter : is_u64 (file_counter_ vs)
}.

(** What replaying comes to: the acknowledged edits, or those and one whose writer was told it failed. *)
Definition replayed_to (failed : list VersionEdit) (vs : VersionSet) (mf : Manifest) (e : Entry) (s : VersionSnapshot) (es : list VersionEdit) (v : Version) (counter expected : Z) : Prop :=
  (v ≡ current_ vs /\ counter = recorded s es /\ expected = next_seq_ vs /\
    (forall b, mf_edits mf !! (generation e, next_seq_ vs) = Some b -> payload_open registry (generation e) (edit_address (generation e) (next_seq_ vs)) b = Unexpected Corrupt)) \/
  exists e', e' ∈ failed /\ edit_suits (current_ vs) e' /\ v ≡ apply (current_ vs) e' /\ counter = recorded s (es ++ [e']) /\ expected = next_seq_ vs + 1 /\
    holds_edits mf (generation e) 1 (es ++ [e']).

(** The numbers a generation lists: its edits, and the one after them where something is there. *)
Lemma listed_numbers failed vs e s es m l : generation_holds failed vs (view m) e s es -> NoDup l ->
  (forall seq, seq ∈ l <-> is_Some (mf_edits (view m) !! (generation e, seq))) ->
  merge_sort Z.le l = seqZ 1 (Z.of_nat (length es)) ++ match mf_edits (view m) !! (generation e, next_seq_ vs) with Some _ => [next_seq_ vs] | None => [] end.
Proof.
  intros H Hn Hl. pose proof (gh_seq _ _ _ _ _ _ H) as Hseq. set (g := generation e) in *.
  assert (forall x, 1 <= x < 1 + Z.of_nat (length es) -> x ∈ l) as Hin.
  { intros x Hx. apply Hl. destruct (lookup_lt_is_Some_2 es (Z.to_nat (x - 1)) ltac:(lia)) as [ed Hed].
    destruct (gh_edits _ _ _ _ _ _ H _ _ Hed) as (b & Hb & _). exists b. fold g in Hb. by replace (1 + Z.of_nat (Z.to_nat (x - 1))) with x in Hb by lia. }
  destruct (mf_edits (view m) !! (g, next_seq_ vs)) as [b|] eqn:Etail.
  - rewrite (sorted_numbers l (S (length es)) Hn).
    + by rewrite seqZ_S, Hseq.
    + intros x. split.
      * intros [b' Hb']%Hl. pose proof (gh_beyond _ _ _ _ _ _ H _ _ Hb'). lia.
      * intros Hx. destruct (Z.eq_dec x (next_seq_ vs)) as [->|]; [apply Hl; by exists b|apply Hin; lia].
  - rewrite app_nil_r. apply sorted_numbers; [done|]. intros x. split; [|apply Hin]. intros [b' Hb']%Hl. pose proof (gh_beyond _ _ _ _ _ _ H _ _ Hb').
    destruct (Z.eq_dec x (next_seq_ vs)) as [->|]; [congruence|lia].
Qed.

Lemma replay_generation failed vs e s es m l m1 :
  generation_holds failed vs (view m) e s es -> list_edits (generation e) m = (Value l, m1) ->
  exists r m2, view m2 = view m /\
    replay registry (generation e) (default 0 (last (merge_sort Z.le l))) (merge_sort Z.le l) (version_of_snapshot s) (snap_next_file_number s) 1 0 m1 = (r, m2) /\
    (r = Unreadable /\ ~ ReadsAnswer cat \/ exists v counter expected, r = Replayed v counter expected 0 /\ replayed_to failed vs (view m) e s es v counter expected).
Proof.
  intros H El. destruct (law_list_edits _ _ _ _ El) as (Hv1 & Hn & Hl). pose proof (listed_numbers _ _ _ _ _ _ _ H Hn Hl) as Es.
  pose proof (gh_seq _ _ _ _ _ _ H) as Hseq. set (g := generation e) in *.
  assert (holds_edits (view m1) g 1 es) as Hes by (rewrite Hv1; apply (gh_edits _ _ _ _ _ _ H)).
  set (back := default 0 (last (merge_sort Z.le l))). rewrite Es.
  set (tl := match mf_edits (view m) !! (g, next_seq_ vs) with Some _ => _ | None => _ end) in *.
  destruct (replay_prefix g back tl es 1 (version_of_snapshot s) (snap_next_file_number s) 0 m1 Hes) as (m2 & Hv2 & [E2|[Hra E2]]).
  2:{ exists Unreadable, m2. split; [congruence|]. split; [done|by left]. }
  rewrite E2, <- Hseq. destruct (mf_edits (view m) !! (g, next_seq_ vs)) as [b|] eqn:Etail; subst tl.
  2:{ eexists _, m2. split; [congruence|]. split; [done|]. right. eexists _, _, _. split; [done|]. left. split; [apply (gh_version _ _ _ _ _ _ H)|]. split; [done|]. split; [done|].
      intros b. fold g. by rewrite Etail. }
  cbn [replay]. rewrite Z.eqb_refl. cbn [negb]. destruct (get_edit g (next_seq_ vs) m2) as [q m3] eqn:E3. destruct (law_get_edit _ _ _ _ _ E3) as [Hv3 Hq].
  rewrite Hv2, Hv1, Etail in Hq. cbn [found] in Hq. destruct Hq as [->|(sx & -> & _ & Hs)].
  2:{ exists Unreadable, m3. split; [congruence|]. split; [by destruct sx|]. left. split; [done|]. intros Hra. apply Hs, (ra_get_edit g (next_seq_ vs) m2). by rewrite E3. }
  assert (back = next_seq_ vs) as -> by (unfold back; rewrite Es, last_snoc; done). rewrite Z.eqb_refl.
  destruct (gh_tail _ _ _ _ _ _ H b Etail) as [Hbad|(e' & Hf & (plain & Ho & Hd & Hr) & Hsuit)].
  - fold g in Hbad. rewrite Hbad. eexists _, m3. split; [congruence|]. split; [done|]. right. eexists _, _, _. split; [done|].
    left. split; [apply (gh_version _ _ _ _ _ _ H)|]. split; [done|]. split; [done|]. fold g. rewrite Etail. by intros b' [= <-].
  - fold g in Ho. rewrite Ho, Hd, Hr. rewrite (proj2 (slice_eqb_eq (primary registry) (primary registry)) eq_refl).
    eexists _, m3. split; [congruence|]. split; [done|]. right. eexists _, _, _. split; [done|].
    right. exists e'. split; [done|]. split; [done|]. split; [by rewrite (gh_version _ _ _ _ _ _ H)|]. split; [unfold recorded; by rewrite fold_left_app|].
    split; [done|]. intros i ed Hi. apply lookup_snoc_Some in Hi as [[Hlt Hi]|[-> <-]].
    + by apply (gh_edits _ _ _ _ _ _ H).
    + exists b. rewrite <- Hseq. split; [done|]. by exists plain.
Qed.

#[export] Instance version_fits_proper : Proper ((≡) ==> iff) version_fits.
Proof. intros v w E. unfold version_fits. by setoid_rewrite E. Qed.

Lemma recorded_snoc s es e : recorded s (es ++ [e]) = Z.max (recorded s es) (next_file_number e).
Proof. unfold recorded. by rewrite fold_left_app. Qed.

Definition tracks (vs : VersionSet) : Prop := (installs_ vs, current_ vs) ∈ live_versions_ vs.

Lemma tracks_install vs v : tracks (install vs v).
Proof. unfold tracks. simpl. apply elem_of_app. right. by apply list_elem_of_singleton. Qed.

(** A recovery that some read cut short: it fails, or reads through a pointer that was not answered. *)
Definition cut_short (r : option (Status * VersionSet)) : Prop :=
  ~ ReadsAnswer cat /\ (r = None \/ exists s, r = Some (s, new_version_set) /\ s <> Ok).

Lemma not_cut_short vs : ~ cut_short (Some (Ok, vs)).
Proof. by intros [_ [?|(s & [= <- _] & Hs)]]. Qed.

(** One attempt is enough, and it installs what the replay came to. *)
Lemma recover_reads failed vs m e s es r m' : generation_holds failed vs (view m) e s es -> recover registry new_version_set m = (r, m') ->
  view m' = view m /\
  (cut_short r \/ exists v counter expected, r = Some (Ok, install (with_counter (with_manifest new_version_set (Some e) expected 0) counter) v) /\
     replayed_to failed vs (view m) e s es v counter expected).
Proof.
  intros H. set (g := generation e). unfold recover. cbn [recover_loop kRecoverAttempts]. unfold recover_once.
  destruct (cat_read m) as [q1 m1] eqn:E1. destruct (law_read _ _ _ E1) as [Hv1 [->|(sx & -> & Hs & _)]].
  2:{ intros [= <- <-]. split; [done|]. left. split; [|right; by exists sx]. intros [Hra _ _ _]. destruct (Hra m) as [p Hp]. by rewrite E1 in Hp. }
  rewrite (gh_pointer _ _ _ _ _ _ H). fold g. destruct (gh_snapshot _ _ _ _ _ _ H) as (b & Hb & plain & Ho & Hd & Hr).
  destruct (get_snapshot g m1) as [q2 m2] eqn:E2. destruct (law_get_snapshot _ _ _ _ E2) as [Hv2 Hq2]. rewrite Hv1 in Hq2, Hv2. fold g in Hb, Ho. rewrite Hb in Hq2. cbn [found] in Hq2.
  destruct Hq2 as [->|(sx & -> & Hs & Hnf)].
  2:{ intros E. assert (r = Some (sx, new_version_set) /\ m' = m2) as [-> ->] by (destruct sx; by simplify_eq). split; [done|]. left. split; [|right; by exists sx].
      intros Hra. apply Hnf, (ra_get_snapshot g m1). by rewrite E2. }
  rewrite Ho, Hd, Hr. destruct (list_edits g m2) as [q3 m3] eqn:E3. destruct (law_list_edits _ _ _ _ E3) as [Hv3 Hl]. destruct q3 as [l|sx].
  2:{ intros [= <- <-]. split; [congruence|]. left. split; [|right; by exists sx]. intros Hra. destruct (ra_list_edits g m2) as [l Hl']. by rewrite E3 in Hl'. }
  assert (generation_holds failed vs (view m2) e s es) as H2 by (by rewrite Hv2).
  destruct (replay_generation failed vs e s es m2 l m3 H2 E3) as (rp & m4 & Hv4 & E4 & Hrp). fold g in E4. rewrite (proj2 (slice_eqb_eq (primary registry) (primary registry)) eq_refl), E4.
  destruct (cat_read m4) as [q5 m5] eqn:E5. destruct (law_read _ _ _ E5) as [Hv5 Hq5]. rewrite Hv4, Hv2, (gh_pointer _ _ _ _ _ _ H) in Hq5.
  destruct Hrp as [[-> Hra]|(v & counter & expected & -> & Hto)].
  - destruct Hq5 as [->|(sx & -> & _)]; [cbn [moved_on]; fold g; rewrite Z.eqb_refl; cbn [negb]|]; intros [= <- <-]; (split; [congruence|]); left; (split; [done|]); [right; by exists Io|by left].
  - destruct Hq5 as [->|(sx & -> & Hs & _)].
    + fold g. rewrite Z.eqb_refl. cbn [negb entry_ new_version_set]. intros [= <- <-]. split; [congruence|]. right. exists v, counter, expected. split; [done|]. by rewrite Hv2 in Hto.
    + intros [= <- <-]. split; [congruence|]. left. split; [|right; by exists sx]. intros [Hra _ _ _]. destruct (Hra m4) as [p Hp]. by rewrite E5 in Hp.
Qed.

(** A recovery meets what the acknowledged edits made, or that and one edit whose writer was told it failed. *)
Lemma recover_inv failed vs m r m' : manifest_inv failed vs (view m) -> recover registry new_version_set m = (r, m') ->
  view m' = view m /\
  (cut_short r \/ exists vs', r = Some (Ok, vs') /\ fenced_ vs' = false /\ tracks vs' /\ manifest_inv failed vs' (view m') /\
    (current_ vs' ≡ current_ vs \/ exists e, e ∈ failed /\ current_ vs' ≡ apply (current_ vs) e)).
Proof.
  intros [(e & s & es & Hentry & H) Hwf Hfits Hcnt] E.
  destruct (recover_reads failed vs m e s es r m' H E) as [Hv [Hcut|(v & counter & expected & -> & Hcase)]]; [split; [done|by left]|]. split; [done|]. right.
  set (vs' := install (with_counter (with_manifest new_version_set (Some e) expected 0) counter) v) in *.
  exists vs'. split; [done|]. split; [done|]. split; [apply tracks_install|]. rewrite Hv.
  pose proof (gh_counter _ _ _ _ _ _ H) as [Hru Hrc].
  destruct Hcase as [(Ev & -> & -> & Hbad)|(e' & Hf & Hsuit & Ev & -> & -> & Hes)].
  - split; [|left; exact Ev]. split; [|by change (current_ vs') with v; rewrite Ev|by change (current_ vs') with v; rewrite Ev|exact Hru].
    exists e, s, es. split; [done|]. destruct H. split; try done.
    + intros b' Hb'. left. by apply Hbad.
    + change (current_ vs') with v. rewrite Ev. done.
    + change (current_ vs') with v. intros lvl f. rewrite Ev. apply gh_numbers0.
  - split; [|right; exists e'; by split]. destruct Hsuit as [Hfit' Hdist Hsnap Hnum]. destruct Hwf as (Hord & Hfiled & Hdis).
    split; [|by change (current_ vs') with v; rewrite Ev; apply apply_wf|by change (current_ vs') with v; rewrite Ev|].
    2:{ change (file_counter_ vs') with (recorded s (es ++ [e'])). rewrite recorded_snoc. destruct Hfit' as ([Hn _] & _). unfold is_u64 in *. lia. }
    exists e, s, (es ++ [e']). split; [done|]. destruct H. split; try done.
    + change (next_seq_ vs') with (next_seq_ vs + 1). rewrite length_app. simpl. lia.
    + change (next_seq_ vs') with (next_seq_ vs + 1). intros seq b' Hb'. specialize (gh_beyond0 seq b' Hb'). lia.
    + change (next_seq_ vs') with (next_seq_ vs + 1). intros b' Hb'. specialize (gh_beyond0 _ b' Hb'). lia.
    + change (current_ vs') with v. rewrite Ev, fold_left_app. simpl. by rewrite gh_version0.
    + change (current_ vs') with v. intros lvl f. rewrite Ev, recorded_snoc. intros [[Hin _]|(Hin & _)]%elem_of_apply.
      * specialize (gh_numbers0 lvl f Hin). lia.
      * specialize (Hnum f Hin). lia.
    + change (file_counter_ vs') with (recorded s (es ++ [e'])). split; [|lia]. rewrite recorded_snoc. destruct Hfit' as ([Hn _] & _). unfold is_u64 in *. lia.
Qed.

(** Over a torn edit, recovery stops where the writer did. *)
Lemma recover_torn failed vs m e s es torn : ReadsAnswer cat -> entry_ vs = Some e -> generation_holds failed vs (view m) e s es ->
  mf_edits (view m) !! (vs_generation vs, next_seq_ vs) = Some torn ->
  payload_open registry (vs_generation vs) (edit_address (vs_generation vs) (next_seq_ vs)) torn = Unexpected Corrupt ->
  exists vs' m', recover registry new_version_set m = (Some (Ok, vs'), m') /\ view m' = view m /\ fenced_ vs' = false /\
    entry_ vs' = Some e /\ next_seq_ vs' = next_seq_ vs /\ current_ vs' ≡ current_ vs.
Proof.
  intros Hra He H Htorn Hbad. unfold vs_generation in *. rewrite He in *. set (g := generation e) in *.
  destruct (recover registry new_version_set m) as [r m'] eqn:E. destruct (recover_reads failed vs m e s es r m' H E) as [Hv [[Hn _]|(v & counter & expected & -> & Hcase)]]; [done|].
  exists (install (with_counter (with_manifest new_version_set (Some e) expected 0) counter) v), m'. split; [done|]. split; [done|]. split; [done|]. split; [done|].
  destruct Hcase as [(Ev & _ & -> & _)|(e' & _ & _ & _ & _ & _ & Hes)]; [done|]. exfalso.
  destruct (Hes (length es) e') as (b & Hb & plain & Ho & _); [by rewrite lookup_app_r, Nat.sub_diag by lia|].
  rewrite <- (gh_seq _ _ _ _ _ _ H) in Hb, Ho. fold g in Hb, Ho. rewrite Htorn in Hb. injection Hb as <-. congruence.
Qed.

(** ** Every operation keeps the invariant *)

Lemma generation_holds_adds failed vs mf mf' e s es : generation_holds failed vs mf e s es -> adds mf mf' -> generation_holds failed vs mf' e s es.
Proof.
  intros H (Hp & He & Hs). destruct H. split; try done; unfold tail_ok, holds_edits in *; rewrite ?He; try done; [congruence|].
  destruct gh_snapshot0 as (b & Hb & Ho). exists b. split; [by apply Hs|done].
Qed.

(** Deleting other generations leaves the live one. *)
Lemma generation_holds_spares failed vs mf mf' e s es : generation_holds failed vs mf e s es -> spares (generation e) mf mf' -> generation_holds failed vs mf' e s es.
Proof.
  intros H (Hp & Hs & He & Hn). destruct H. split; try done; unfold tail_ok, holds_edits in *; try (setoid_rewrite He; done); [congruence|by rewrite Hs|]. intros g seq Hg. by apply Hn, gh_later0.
Qed.

Lemma generation_holds_vs failed vs vs' mf e s es : generation_holds failed vs mf e s es ->
  next_seq_ vs' = next_seq_ vs -> current_ vs' = current_ vs -> file_counter_ vs <= file_counter_ vs' -> generation_holds failed vs' mf e s es.
Proof.
  intros H E1 E2 Hc. destruct H. split; unfold tail_ok in *; rewrite ?E1, ?E2; try done.
  destruct gh_counter0. split; [done|lia].
Qed.

(** States that agree on what the manifest is about. *)
Lemma manifest_inv_vs failed vs vs' mf : manifest_inv failed vs mf ->
  entry_ vs' = entry_ vs -> next_seq_ vs' = next_seq_ vs -> current_ vs' = current_ vs -> file_counter_ vs <= file_counter_ vs' -> is_u64 (file_counter_ vs') ->
  manifest_inv failed vs' mf.
Proof.
  intros [(e & s & es & He & H) Hwf Hf Hc] E0 E1 E2 E3 E4. split; rewrite ?E2; try done. exists e, s, es. split; [congruence|].
  by eapply generation_holds_vs.
Qed.

Lemma manifest_inv_failed failed failed' vs mf : (forall e, e ∈ failed -> e ∈ failed') -> manifest_inv failed vs mf -> manifest_inv failed' vs mf.
Proof.
  intros Hsub [(e & s & es & He & H) Hwf Hf Hc]. split; try done. exists e, s, es. split; [done|]. destruct H. split; try done.
  intros b Hb. destruct (gh_tail0 b Hb) as [|(e' & Hin & Ho)]; [by left|right]. exists e'. split; [by apply Hsub|done].
Qed.

Lemma roll_inv failed vs m e s vs' m' :
  manifest_inv failed vs (view m) -> entry_ vs = Some e -> generation e < 2 ^ 64 - 1 ->
  write_snapshot_and_install registry vs (u64 (generation e + 1)) (current_ vs) m = (s, vs', m') ->
  (s = Ok /\ manifest_inv failed (with_seq vs' 1) (view m') /\ current_ vs' = current_ vs /\ fenced_ vs' = fenced_ vs) \/
  (s <> Ok /\ vs' = vs /\ manifest_inv failed vs (view m')).
Proof.
  intros Hinv He Hroom E. destruct Hinv as [(e0 & s0 & es & He0 & H) Hwf Hf Hc]. assert (e0 = e) as -> by congruence.
  pose proof (gh_range _ _ _ _ _ _ H) as Hu. unfold is_u64 in Hu. rewrite u64_small in E by (split; lia).
  destruct (write_snapshot_spec _ _ _ _ _ _ _ E) as [(-> & e' & b & -> & Hp & Hg & Hu' & Hb & Ho & Hmoved)|(Hs & -> & Ha)].
  - rewrite He. apply (gh_pointer _ _ _ _ _ _ H).
  - split; lia.
  - intros e1 He1. rewrite He in He1. injection He1 as <-. lia.
  - done.
  - done.
  - left. split; [done|]. split; [|done]. split; try done. exists e', (snapshot_of (current_ vs) (file_counter_ vs)), [].
    assert (forall g seq, generation e < g -> mf_edits (view m') !! (g, seq) = None) as Hnone.
    { intros g seq Hlt. rewrite Hmoved; [by apply (gh_later _ _ _ _ _ _ H)|]. intros e1 He1. rewrite He in He1. injection He1 as <-. lia. }
    split; [done|]. split; try done.
    + by exists b.
    + intros seq b'. rewrite Hnone by lia. done.
    + intros g seq Hlt. apply Hnone. lia.
    + intros b'. change (next_seq_ (with_seq _ 1)) with 1. rewrite Hnone by lia. done.
    + simpl. by apply version_of_snapshot_of.
    + simpl. intros lvl f Hin. pose proof (gh_numbers _ _ _ _ _ _ H lvl f Hin). pose proof (gh_counter _ _ _ _ _ _ H) as [_ Hle]. unfold recorded. simpl. lia.
  - right. split; [done|]. split; [done|]. split; try done. exists e, s0, es. split; [done|]. by eapply generation_holds_adds.
Qed.

Context (edits_per_generation : Z) (deleter : option (list FileMetadata -> list FileMetadata)) (retention : Z).

Lemma maybe_roll_inv failed vs m s vs' m' :
  manifest_inv failed vs (view m) -> vs_generation vs < 2 ^ 64 - 1 ->
  maybe_roll_generation registry edits_per_generation vs (current_ vs) m = (s, vs', m') ->
  manifest_inv failed vs' (view m') /\ current_ vs' = current_ vs.
Proof.
  intros Hinv Hroom. unfold maybe_roll_generation. destruct (next_seq_ vs <=? _); [intros [= <- <- <-]; done|].
  pose proof Hinv as [(e & _ & _ & He & _) _ _ _]. unfold vs_generation in *. rewrite He in *.
  destruct (write_snapshot_and_install _ _ _ _ _) as [[s1 vs1] m1] eqn:E.
  destruct (roll_inv _ _ _ _ _ _ _ Hinv He Hroom E) as [(-> & Hi & Hc & _)|(Hs & -> & Hi)].
  - intros [= <- <- <-]. done.
  - intros E'. assert ((s1, vs, m1) = (s, vs', m')) as E2 by (destruct s1; done). injection E2 as <- <- <-. done.
Qed.

Lemma collect_same dl rt now held vs : let vs' := (collect_obsolete dl rt now held vs).2 in
  entry_ vs' = entry_ vs /\ next_seq_ vs' = next_seq_ vs /\ current_ vs' = current_ vs /\ file_counter_ vs' = file_counter_ vs /\ fenced_ vs' = fenced_ vs.
Proof. unfold collect_obsolete. destruct dl; [|done]. by case_bool_decide. Qed.

Lemma set_edit_inv failed vs mf n framed e :
  manifest_inv failed vs mf -> edit_suits (current_ vs) (with_number e (file_counter_ vs)) ->
  mf_edits mf !! (vs_generation vs, next_seq_ vs) = None ->
  payload_seal registry (vs_generation vs) (edit_address (vs_generation vs) (next_seq_ vs)) (encode_version_edit (with_number e (file_counter_ vs))) = Value framed ->
  manifest_inv (with_number e (file_counter_ vs) :: failed) vs (set_edit mf (vs_generation vs) (next_seq_ vs) (take n framed)).
Proof.
  intros [(en & s & es & He & H) Hwf Hf Hc] Hsuit Hnone Hseal. unfold vs_generation in *. rewrite He in *. split; try done. exists en, s, es. split; [done|].
  destruct (sealed_edit _ _ _ _ (gh_range _ _ _ _ _ _ H) (es_fits _ _ Hsuit) Hseal) as [Hopen Htorn]. destruct H. split; try done.
  - intros i e' Hi. destruct (gh_edits0 i e' Hi) as (b & Hb & Ho). exists b. split; [|done]. simpl. rewrite lookup_insert_ne; [done|]. intros [= E]. congruence.
  - intros seq b. simpl. destruct (decide (seq = next_seq_ vs)) as [->|Hne]; [lia|]. rewrite lookup_insert_ne by congruence. by apply gh_beyond0.
  - intros g seq Hg. simpl. rewrite lookup_insert_ne; [by apply gh_later0|]. intros [= E]. lia.
  - intros b. simpl. rewrite lookup_insert_eq. intros [= <-]. destruct (Htorn n) as [Ht|Ht]; [by left|right].
    exists (with_number e (file_counter_ vs)). rewrite Ht. split; [apply elem_of_cons; by left|done].
Qed.

Lemma append_edit_inv failed vs mf framed e vs' :
  manifest_inv failed vs mf -> edit_suits (current_ vs) (with_number e (file_counter_ vs)) ->
  mf_edits mf !! (vs_generation vs, next_seq_ vs) = None ->
  payload_seal registry (vs_generation vs) (edit_address (vs_generation vs) (next_seq_ vs)) (encode_version_edit (with_number e (file_counter_ vs))) = Value framed ->
  entry_ vs' = entry_ vs -> next_seq_ vs' = next_seq_ vs + 1 -> current_ vs' = apply (current_ vs) (with_number e (file_counter_ vs)) -> file_counter_ vs' = file_counter_ vs ->
  manifest_inv failed vs' (set_edit mf (vs_generation vs) (next_seq_ vs) framed).
Proof.
  intros [(en & s & es & He & H) (Hord & Hfiled & Hdis) Hf Hc] [Hfit Hdist Hsnap Hnum] Hnone Hseal E0 E1 E2 E3. unfold vs_generation in *. rewrite He in *.
  destruct (sealed_edit _ _ _ _ (gh_range _ _ _ _ _ _ H) Hfit Hseal) as [Hopen _].
  set (e' := with_number e (file_counter_ vs)) in *. destruct H.
  split; rewrite ?E2, ?E3; try done; [|by apply apply_wf]. exists en, s, (es ++ [e']). split; [done|]. split; rewrite ?E1, ?E2, ?E3; try done.
  - intros i e1 Hi. simpl. apply lookup_snoc_Some in Hi as [[Hlt Hi]|[-> <-]].
    + destruct (gh_edits0 i e1 Hi) as (b & Hb & Ho). exists b. split; [|done]. rewrite lookup_insert_ne; [done|]. intros [= E]. congruence.
    + exists framed. rewrite <- gh_seq0, lookup_insert_eq. by split.
  - rewrite length_app. simpl. lia.
  - intros seq b. simpl. destruct (decide (seq = next_seq_ vs)) as [->|Hne]; [lia|]. rewrite lookup_insert_ne by congruence. intros Hb. specialize (gh_beyond0 _ _ Hb). lia.
  - intros g seq Hg. simpl. rewrite lookup_insert_ne; [by apply gh_later0|]. intros [= E]. lia.
  - intros b. simpl. rewrite lookup_insert_ne by (intros [= E]; lia). intros Hb. specialize (gh_beyond0 _ _ Hb). lia.
  - rewrite fold_left_app. simpl. by rewrite gh_version0.
  - intros lvl f. rewrite recorded_snoc. intros [[Hin _]|(Hin & _)]%elem_of_apply; [specialize (gh_numbers0 lvl f Hin); lia|specialize (Hnum f Hin); lia].
  - rewrite recorded_snoc. simpl. destruct gh_counter0. unfold is_u64 in *. lia.
Qed.

Lemma vs_apply_inv failed vs e now held m s vs' m' :
  manifest_inv failed vs (view m) -> edit_suits (current_ vs) (with_number e (file_counter_ vs)) -> vs_generation vs < 2 ^ 64 - 1 ->
  vs_apply registry edits_per_generation deleter retention vs e now held m = (s, vs', m') ->
  (s = Ok /\ current_ vs' = apply (current_ vs) (with_number e (file_counter_ vs)) /\ manifest_inv failed vs' (view m')) \/
  (s <> Ok /\ current_ vs' = current_ vs /\ manifest_inv (with_number e (file_counter_ vs) :: failed) vs' (view m')).
Proof.
  intros Hinv Hsuit Hroom. assert (forall mf, manifest_inv failed vs mf -> manifest_inv (with_number e (file_counter_ vs) :: failed) vs mf) as Hmore.
  { intros mf. apply manifest_inv_failed. intros e1 He1. apply elem_of_cons. by right. }
  unfold vs_apply. destruct (fenced_ vs); [intros [= <- <- <-]; right; split; [done|]; split; [done|]; by apply Hmore|].
  pose proof Hinv as [(en & _ & _ & Hen & _) _ _ Hcu]. assert (vs_generation vs = generation en) as Hg by (unfold vs_generation; by rewrite Hen). rewrite Hen, <- Hg.
  destruct (payload_seal _ _ _ _) as [framed|s1] eqn:Es.
  2:{ intros [= <- <- <-]. right. split; [by eapply seal_fails|]. split; [done|]. by apply Hmore. }
  destruct (put_edit _ _ _ _) as [s1 m1] eqn:Ep. destruct (law_put_edit _ _ _ _ _ _ Ep) as [Hok Hbad].
  destruct (decide (s1 = Ok)) as [->|Hne].
  - destruct (Hok eq_refl) as [Hnone Hv1]. set (vs1 := install _ _).
    assert (manifest_inv failed vs1 (view m1)) as Hi1 by (rewrite Hv1; by eapply append_edit_inv).
    change (apply (current_ vs) (with_number e (file_counter_ vs))) with (current_ vs1).
    destruct (maybe_roll_generation _ _ _ _ _) as [[s2 vs2] m2] eqn:Er.
    destruct (maybe_roll_inv _ _ _ _ _ _ Hi1 Hroom Er) as [Hi2 Hc2]. intros [= <- <- <-]. left. split; [done|].
    destruct (collect_same deleter retention now held vs2) as (C0 & C1 & C2 & C3 & C4). split; [congruence|].
    apply (manifest_inv_vs failed vs2); [done|done|done|done|rewrite C3; done|rewrite C3; apply (mi_counter _ _ _ Hi2)].
  - assert (manifest_inv (with_number e (file_counter_ vs) :: failed) vs (view m1)) as Hi1.
    { destruct (Hbad Hne) as [->|[Hnone [n ->]]]; [by apply Hmore|by apply set_edit_inv]. }
    intros E. right. destruct (decide (s1 = Config)) as [->|Hnc].
    + injection E as <- <- <-. split; [done|]. split; [done|]. by eapply manifest_inv_vs.
    + assert ((s1, vs, m1) = (s, vs', m')) as E2 by (destruct s1; done). injection E2 as <- <- <-. done.
Qed.

Lemma empty_version_fits : version_fits empty_version.
Proof.
  intros counter Hc. assert (snapshot_of empty_version counter = {| snap_next_file_number := counter; snap_files := []; snap_compaction_pointers := [];
    snap_truncation_point := []; snap_watermark_floor := None |}) as ->.
  { unfold snapshot_of, sorted_pointers. cbn [compaction_pointers_ empty_version make_version]. by rewrite map_to_list_empty. }
  split_and!.
  - split; simpl; [done|split; [simpl; lia|constructor]|split; [simpl; lia|constructor]|done|done].
  - unfold snapshot_content. cbn [snap_next_file_number]. rewrite !zlen_app. unfold put_varint64 at 1.
    pose proof (length_put_varint_loop 9 counter) as Hl. unfold zlen at 2.
    change (zlen (put_varint32 kSnapshotFormatVersion)) with 1. change (zlen (put_counted put_file _)) with 1.
    change (zlen (put_pointers _)) with 1. change (zlen (put_string _)) with 1. change (zlen (put_floor _)) with 2.
    unfold kMaxManifestBytes, kBlockTrailerLength. lia.
  - unfold refuses_plaintext. simpl. by rewrite andb_false_r.
Qed.

Lemma create_inv m vs m' : mf_pointer (view m) = None -> (forall k, mf_edits (view m) !! k = None) ->
  create registry new_version_set m = (Ok, vs, m') -> manifest_inv [] vs (view m') /\ fenced_ vs = false.
Proof.
  intros Hp He. unfold create. destruct (write_snapshot_and_install _ _ _ _ _) as [[s vs1] m1] eqn:E.
  destruct (write_snapshot_spec _ _ _ _ _ _ _ E) as [(-> & e & b & -> & Hp' & Hg & Hu' & Hb & Ho & Hmoved)|(Hs & -> & Ha)];
    [done|split; lia|done|split; simpl; lia|apply empty_version_fits| |destruct s; [by destruct Hs|intros [=]..]].
  intros [= <- <-]. split; [|done].
  assert (forall k, mf_edits (view m1) !! k = None) as Hnone by (intros [g seq]; by rewrite Hmoved).
  split; [|apply empty_version_wf|apply empty_version_fits|split; simpl; lia].
  exists e, (snapshot_of empty_version 1), []. split; [done|]. split; try done.
  - by exists b.
  - intros seq b'. by rewrite Hnone.
  - intros b'. by rewrite Hnone.
  - intros lvl f Hin. assert (f ∈ all_files empty_version) as Hf by (apply elem_of_all_files; by exists lvl). by apply elem_of_nil in Hf.
Qed.

(** ** Whatever a store goes through *)

(** The states of a store from its creation on: edits and rolls with any outcome, numbers handed out and
    stepped over, collections, sweeps of stale generations, and reopening after the process is gone. [failed] are the edits whose
    writer was not told [Ok]. A crash between two calls of an operation is the outcome in which the later
    call fails without a trace, so stopping after a failed operation is crashing inside it. *)
Inductive Runs : VersionSet -> M -> list VersionEdit -> Prop :=
  | runs_create m vs m' : mf_pointer (view m) = None -> (forall k, mf_edits (view m) !! k = None) ->
      create registry new_version_set m = (Ok, vs, m') -> Runs vs m' []
  | runs_apply vs m failed e now held s vs' m' : Runs vs m failed ->
      edit_suits (current_ vs) (with_number e (file_counter_ vs)) -> vs_generation vs < 2 ^ 64 - 1 ->
      vs_apply registry edits_per_generation deleter retention vs e now held m = (s, vs', m') ->
      Runs vs' m' (if bool_decide (s = Ok) then failed else with_number e (file_counter_ vs) :: failed)
  | runs_roll vs m failed s vs' m' : Runs vs m failed -> vs_generation vs < 2 ^ 64 - 1 ->
      roll_generation_now registry vs m = (s, vs', m') -> Runs vs' m' failed
  | runs_allocate vs m failed : Runs vs m failed -> file_counter_ vs < 2 ^ 64 - 1 -> Runs (allocate_file_number vs).2 m failed
  | runs_observe vs m failed n : Runs vs m failed -> 0 <= n < 2 ^ 64 - 1 -> Runs (observe_file_number vs n) m failed
  | runs_collect vs m failed now held : Runs vs m failed -> Runs (collect_obsolete deleter retention now held vs).2 m failed
  | runs_sweep vs m failed obsolete_retention now st k st' m' : Runs vs m failed ->
      sweep_stale_generations obsolete_retention now vs st m = (k, st', m') -> Runs vs m' failed
  | runs_reopen vs m failed vs' m' : Runs vs m failed -> recover registry new_version_set m = (Some (Ok, vs'), m') -> Runs vs' m' failed
  | runs_reopen_failed vs m failed r m' : Runs vs m failed -> recover registry new_version_set m = (r, m') -> Runs vs m' failed.

Lemma runs_inv vs m failed : Runs vs m failed -> manifest_inv failed vs (view m).
Proof.
  induction 1 as [m vs m' Hp He Hc|vs m failed e now held s vs' m' _ IH Hsuit Hroom E|vs m failed s vs' m' _ IH Hroom E|vs m failed _ IH Hlt|
                  vs m failed n _ IH Hn|vs m failed now held _ IH|vs m failed obs now st k st' m' _ IH E|vs m failed vs' m' _ IH E|vs m failed r m' _ IH E].
  - by apply (create_inv m).
  - destruct (vs_apply_inv _ _ _ _ _ _ _ _ _ IH Hsuit Hroom E) as [(-> & _ & Hi)|(Hs & _ & Hi)].
    + by rewrite bool_decide_eq_true_2.
    + by rewrite bool_decide_eq_false_2.
  - unfold roll_generation_now in E. destruct (fenced_ vs); [by injection E as <- <- <-|]. pose proof IH as [(e & _ & _ & He & _) _ _ _].
    unfold vs_generation in Hroom. rewrite He in *. destruct (_ && _); [by injection E as <- <- <-|].
    destruct (write_snapshot_and_install _ _ _ _ _) as [[s1 vs1] m1] eqn:Ew.
    destruct (roll_inv _ _ _ _ _ _ _ IH He Hroom Ew) as [(-> & Hi & _)|(Hs & -> & Hi)]; [by injection E as <- <- <-|].
    assert ((s1, vs, m1) = (s, vs', m')) as E2 by (destruct s1; done). by injection E2 as <- <- <-.
  - pose proof (mi_counter _ _ _ IH) as Hc. unfold is_u64 in Hc. eapply manifest_inv_vs; [exact IH|done..| |]; simpl; rewrite u64_small; unfold is_u64; lia.
  - pose proof (mi_counter _ _ _ IH) as Hc. unfold observe_file_number. destruct (Z.leb_spec (file_counter_ vs) n); [|done].
    eapply manifest_inv_vs; [exact IH|done..| |]; simpl; rewrite u64_small; unfold is_u64; lia.
  - destruct (collect_same deleter retention now held vs) as (C0 & C1 & C2 & C3 & C4).
    eapply manifest_inv_vs; [exact IH|done..|rewrite C3; done|rewrite C3; apply (mi_counter _ _ _ IH)].
  - apply (sweep_stale_spares view laws) in E. destruct IH as [(e & s & es & He & H) Hwf Hf Hc]. split; try done. exists e, s, es. split; [done|].
    unfold vs_generation in E. rewrite He in E. by eapply generation_holds_spares.
  - destruct (recover_inv _ _ _ _ _ IH E) as [_ [[]%not_cut_short|(vs2 & [= <-] & _ & _ & Hi & _)]]. done.
  - destruct (recover_inv _ _ _ _ _ IH E) as [Hv _]. by rewrite Hv.
Qed.

(** ** The current version is tracked *)

Definition same_live (vs vs' : VersionSet) : Prop :=
  installs_ vs' = installs_ vs /\ current_ vs' = current_ vs /\ live_versions_ vs' = live_versions_ vs.

Lemma tracks_same vs vs' : same_live vs vs' -> tracks vs -> tracks vs'.
Proof. intros (H1 & H2 & H3). unfold tracks. by rewrite H1, H2, H3. Qed.

Lemma tracks_collect dl rt now held vs : tracks vs -> tracks (collect_obsolete dl rt now held vs).2.
Proof.
  intros H. assert (forall p, tracks (with_pending vs (List.filter (fun p => alive vs held p.1) (live_versions_ vs)) p)) as Hf.
  { intros p. unfold tracks. simpl. apply elem_of_filter_bool. split; [done|]. unfold alive. simpl. by rewrite Nat.eqb_refl. }
  unfold collect_obsolete. destruct dl; [|apply Hf]. case_bool_decide; apply Hf.
Qed.

Lemma write_snapshot_live vs g v m s vs' m' : write_snapshot_and_install registry vs g v m = (s, vs', m') -> same_live vs vs'.
Proof.
  unfold write_snapshot_and_install, commit_generation. intros E.
  repeat match type of E with context [match ?x with _ => _ end] => destruct x end; simplify_eq; done.
Qed.

Lemma maybe_roll_live vs v m s vs' m' : maybe_roll_generation registry edits_per_generation vs v m = (s, vs', m') -> same_live vs vs'.
Proof.
  unfold maybe_roll_generation. destruct (_ <=? _); [by intros [= <- <- <-]|].
  destruct (write_snapshot_and_install _ _ _ _ _) as [[s1 vs1] m1] eqn:E. apply write_snapshot_live in E.
  destruct s1; intros [= <- <- <-]; done.
Qed.

Lemma runs_tracks vs m failed : Runs vs m failed -> tracks vs.
Proof.
  induction 1 as [m vs m' Hp He Hc|vs m failed e now held s vs' m' _ IH Hsuit Hroom E|vs m failed s vs' m' _ IH Hroom E|vs m failed _ IH Hlt|
                  vs m failed n _ IH Hn|vs m failed now held _ IH|vs m failed obs now st k st' m' _ IH E|vs m failed vs' m' Hr IH E|vs m failed r m' Hr IH E].
  - unfold create in Hc. destruct (write_snapshot_and_install _ _ _ _ _) as [[s1 vs1] m1] eqn:E. destruct s1; simplify_eq. apply tracks_install.
  - unfold vs_apply in E. destruct (fenced_ vs); [by injection E as <- <- <-|]. destruct (entry_ vs); [|by injection E as <- <- <-].
    destruct (payload_seal _ _ _ _); [|by injection E as <- <- <-].
    destruct (put_edit _ _ _ _) as [[] m1]; try (by injection E as <- <- <-). set (vs1 := install _ _) in E.
    destruct (maybe_roll_generation _ _ vs1 _ _) as [[s2 vs2] m2] eqn:Er. injection E as <- <- <-.
    apply tracks_collect. eapply tracks_same; [by eapply maybe_roll_live|]. apply tracks_install.
  - unfold roll_generation_now in E. destruct (fenced_ vs); [by injection E as <- <- <-|]. destruct (entry_ vs); [|by injection E as <- <- <-].
    destruct (_ && _); [by injection E as <- <- <-|]. destruct (write_snapshot_and_install _ _ _ _ _) as [[s1 vs1] m1] eqn:Ew.
    apply write_snapshot_live in Ew. eapply tracks_same; [|exact IH]. destruct s1; injection E as <- <- <-; done.
  - done.
  - unfold observe_file_number. by destruct (_ <=? _).
  - by apply tracks_collect.
  - done.
  - destruct (recover_inv _ _ _ _ _ (runs_inv _ _ _ Hr) E) as [_ [[]%not_cut_short|(vs2 & [= <-] & _ & Ht & _)]]. done.
  - done.
Qed.

(** ** What a collection hands out *)

Lemma retained_false now p : retained retention now p = false <->
  (0 < retention -> unreferenced_since_ms p <= now -> retention <= now - unreferenced_since_ms p).
Proof.
  unfold retained. destruct (Z.ltb_spec 0 retention), (Z.leb_spec (unreferenced_since_ms p) now), (Z.ltb_spec (now - unreferenced_since_ms p) retention); simpl;
    split; intros; try done; try lia.
Qed.

Lemma elem_of_referenced live n : n ∈ referenced_by live <-> exists id v g, (id, v) ∈ live /\ g ∈ all_files v /\ file_number g = n.
Proof.
  unfold referenced_by. rewrite list_elem_of_In, in_concat. split.
  - intros (l & Hl & Hn). apply in_map_iff in Hl as ([id v] & <- & Hin). apply in_map_iff in Hn as (g & <- & Hg).
    exists id, v, g. by rewrite !list_elem_of_In.
  - intros (id & v & g & Hin & Hg & <-). exists (map file_number (all_files v)). apply list_elem_of_In in Hin. apply list_elem_of_In in Hg. split.
    + apply in_map_iff. by exists (id, v).
    + by apply in_map.
Qed.

Lemma collect_collected delete now held vs collected vs' : collect_obsolete (Some delete) retention now held vs = (collected, vs') ->
  forall f, f ∈ collected <-> exists p, p ∈ pending_deletions_ vs /\ pending_file p = f /\
     (0 < retention -> unreferenced_since_ms p <= now -> retention <= now - unreferenced_since_ms p) /\
     forall id v g, (id, v) ∈ live_versions_ vs -> alive vs held id = true -> g ∈ all_files v -> file_number g <> file_number f.
Proof.
  unfold collect_obsolete. case_bool_decide as Ep.
  { intros [= <- <-] f. rewrite Ep. split; [by intros ?%elem_of_nil|]. by intros (p & ?%elem_of_nil & _). }
  intros [= <- _] f. rewrite list_elem_of_In, in_map_iff. setoid_rewrite <- list_elem_of_In. setoid_rewrite elem_of_filter_bool.
  unfold still_pending. setoid_rewrite negb_true_iff. setoid_rewrite orb_false_iff. setoid_rewrite retained_false. setoid_rewrite bool_decide_eq_false.
  setoid_rewrite elem_of_referenced. setoid_rewrite elem_of_filter_bool. split.
  - intros (p & <- & Hp & Hn & Hret). exists p. split; [done|]. split; [done|]. split; [done|]. intros id v g Hin Hal Hg Heq. apply Hn. by exists id, v, g.
  - intros (p & Hp & <- & Hret & Hn). exists p. split; [done|]. split; [done|]. split; [|done]. intros (id & v & g & [Hin Hal] & Hg & Heq). by eapply Hn.
Qed.

Lemma collect_keeps delete now held vs collected vs' : collect_obsolete (Some delete) retention now held vs = (collected, vs') ->
  forall p, p ∈ pending_deletions_ vs -> p ∈ pending_deletions_ vs' \/ pending_file p ∈ collected.
Proof.
  unfold collect_obsolete. case_bool_decide as Ep; [intros [= <- <-] p; rewrite Ep; by intros ?%elem_of_nil|]. intros [= <- <-] p Hp. cbn [pending_deletions_ with_pending].
  set (keep := still_pending _ _ _). destruct (keep p) eqn:Ek.
  - left. apply elem_of_app. left. by apply elem_of_filter_bool.
  - right. apply list_elem_of_In, in_map, list_elem_of_In, elem_of_filter_bool. by rewrite Ek.
Qed.

(** ** Properties *)


(** A torn edit stops every later writer. Once the next edit's address holds the start of an edit, as a
    crash inside the write leaves it, the store opens, but every edit it is then asked for is refused as
    [Fenced] and changes nothing in the catalog, so reopening it does not help. *)
Theorem torn_edit_fences_every_writer vs m failed torn :
  CatalogRefuses cat view -> ReadsAnswer cat -> Runs vs m failed -> mf_edits (view m) !! (vs_generation vs, next_seq_ vs) = Some torn ->
  payload_open registry (vs_generation vs) (edit_address (vs_generation vs) (next_seq_ vs)) torn = Unexpected Corrupt ->
  exists vs' m', recover registry new_version_set m = (Some (Ok, vs'), m') /\ view m' = view m /\ current_ vs' ≡ current_ vs /\
    forall e now held framed,
      payload_seal registry (vs_generation vs') (edit_address (vs_generation vs') (next_seq_ vs')) (encode_version_edit (with_number e (file_counter_ vs'))) = Value framed ->
      exists vs2 m2, vs_apply registry edits_per_generation deleter retention vs' e now held m' = (Fenced, vs2, m2) /\ view m2 = view m.
Proof.
  intros Href Hra Hr Htorn Hbad. destruct (runs_inv _ _ _ Hr) as [(e & s & es & He & H) Hwf Hf Hc].
  destruct (recover_torn failed vs m e s es torn Hra He H Htorn Hbad) as (vs' & m' & E & Hv & Hfen & He' & Hseq & Hcur).
  exists vs', m'. split; [done|]. split; [done|]. split; [done|]. intros ed now held framed Hs.
  assert (vs_generation vs' = generation e) as Hg by (unfold vs_generation; by rewrite He'). rewrite Hg in Hs.
  assert (vs_generation vs = generation e) as Hg0 by (unfold vs_generation; by rewrite He). rewrite Hg0 in Htorn.
  unfold vs_apply. rewrite Hfen, He', Hs.
  destruct (law_put_edit_occupied (generation e) (next_seq_ vs') framed m') as (m2 & E2 & Hv2); [rewrite Hv, Hseq; by exists torn|].
  rewrite E2. eexists _, m2. split; [done|congruence].
Qed.

(** No file that is handed to the deleter is listed by what a recovery would install, unless an edit that was not
    acknowledged lists it again. *)
Theorem collected_not_recovered vs m failed delete now held collected vs1 f vs' m' g :
  Runs vs m failed -> collect_obsolete (Some delete) retention now held vs = (collected, vs1) -> f ∈ collected ->
  recover registry new_version_set m = (Some (Ok, vs'), m') -> g ∈ all_files (current_ vs') -> file_number g = file_number f ->
  exists e, e ∈ failed /\ g ∈ added e.
Proof.
  intros Hr E Hf Erec Hg Hnum. pose proof (collect_collected delete now held vs collected vs1 E) as Hcol.
  destruct (recover_inv _ _ _ _ _ (runs_inv _ _ _ Hr) Erec) as [_ [[]%not_cut_short|(vs2 & [= <-] & _ & _ & _ & Hc)]].
  assert (forall g, g ∈ all_files (current_ vs) -> file_number g <> file_number f) as Hcur.
  { intros g' Hg'. apply Hcol in Hf as (p & _ & _ & _ & Hlive). eapply Hlive; [apply (runs_tracks _ _ _ Hr)|unfold alive; by rewrite Nat.eqb_refl|done]. }
  destruct Hc as [Hc|(e & He & Hc)]; rewrite Hc in Hg; [by destruct (Hcur g Hg)|].
  apply elem_of_all_files in Hg as [lvl [[Hin _]|(Hin & _)]%elem_of_apply]; [|by exists e].
  exfalso. apply (Hcur g); [|done]. apply elem_of_all_files. by exists lvl.
Qed.
End Protocol.
