(* ===== verification/ManifestExamples.v ===== *)
(** * The manifest protocol, run

    Concrete stores over the catalog in memory: the witnesses of [VersionSetProofs], and the two ways an
    acknowledged edit is lost: a pointer swap whose outcome and whose check are both lost, and a second
    writer that rolled the generation away. *)

From S2P Require Import Prelude Slice Format Framing Crypto Names ManifestPayload Watermark VersionEdit Version Catalog FileSystem DiskCatalog DiskProofs DiskCrash Blob DiskBlob BlobCrash VersionSet Open WriteSst Sweep VersionSetProofs.

(** ** The hypotheses hold for a plain store *)

Lemma seal_plain_packed aad packed n : forall k, exists body, seal_packed no_encryption_cipher aad packed k n = Value body.
Proof.
  induction n as [|n IH]; intros k; [by exists []|]. cbn [seal_packed c_seal no_encryption_cipher result_bind].
  destruct (IH (k + 1)) as [body ->]. cbn [result_bind]. by eexists.
Qed.

Lemma plain_seals g address plaintext : exists framed, payload_seal (ops := copy_codec) passthrough_registry g address plaintext = Value framed.
Proof.
  unfold payload_seal. change (primary_provider passthrough_registry) with (Some no_encryption_provider). cbv iota.
  assert (exists codec packed, compress (ops := copy_codec) plaintext = Value (codec, packed)) as (codec & packed & ->).
  { unfold compress. cbn [zstd_compress copy_codec]. destruct (_ <=? _); by eexists _, _. }
  cbn [result_bind p_create no_encryption_provider].
  destruct (seal_plain_packed (fun k => payload_aad k address (payload_header (primary passthrough_registry) [] codec (zlen plaintext) (zlen packed))) packed
              (Z.to_nat (packed_chunk_count (zlen packed) (c_chunk_bytes no_encryption_cipher))) 0) as [body E].
  rewrite E. cbn [result_bind]. by eexists.
Qed.

Lemma plain_seal_fails g address plaintext s : payload_seal (ops := copy_codec) passthrough_registry g address plaintext = Unexpected s -> s <> Ok.
Proof. destruct (plain_seals g address plaintext) as [framed ->]. done. Qed.

Lemma plain_small g c metadata : p_create no_encryption_provider g = Value (c, metadata) ->
  is_u32 (zlen metadata) /\ forall n, 0 <= n <= kMaxPayloadBytes -> object_small c n.
Proof.
  intros [= <- <-]. split; [by vm_compute|]. intros n Hn. unfold object_small. cbn [c_chunk_bytes c_overhead no_encryption_cipher].
  unfold kMaxPayloadBytes in Hn. lia.
Qed.

Lemma copy_total d : zlen d <= kMaxManifestBytes -> exists c, zstd_compress (CodecOps := copy_codec) d = Some c.
Proof. intros _. by exists d. Qed.

(** One file added at level 0, others removed. *)
Definition swap_edit (dead : list FileRef) (n : Z) (a b : bytes) : VersionEdit :=
  {| next_file_number := 0; added := [sample_file n a b]; deleted := dead; compaction_pointers := []; truncation_point := [];
     floor_update := Silent; watermark_floor := {| position := None |} |}.

Definition add_edit : Z -> bytes -> bytes -> VersionEdit := swap_edit [].

Definition nobody : nat -> bool := fun _ => false.

(** The engine's calls over a catalog in memory, two edits to a generation. *)
Definition ex_create (flaky : bool) := create (cat := mem_catalog flaky) (ops := copy_codec) passthrough_registry new_version_set.
Definition ex_apply (flaky : bool) (vs : VersionSet) (e : VersionEdit) :=
  vs_apply (cat := mem_catalog flaky) (ops := copy_codec) passthrough_registry 2 None 0 vs e 0 nobody.
Definition ex_recover (flaky : bool) := recover (cat := mem_catalog flaky) (ops := copy_codec) passthrough_registry new_version_set.

Definition level0 (vs : VersionSet) : list Z := map file_number (files_at (current_ vs) 0).

(** ** A store whose second edit fails, whole or torn *)

Definition ex_start (last : Outcome) : MemCatalog := {| mem_view := empty_manifest; mem_script := [Fine; Fine; Fine; last] |}.
Definition ex1 (last : Outcome) := ex_create false (ex_start last).
Definition ex_vs1 (last : Outcome) : VersionSet := (allocate_file_number (ex1 last).1.2).2.
Definition ex2 (last : Outcome) := ex_apply false (ex_vs1 last) (add_edit 1 [x61] [x7a]) (ex1 last).2.
Definition ex_vs2 (last : Outcome) : VersionSet := (allocate_file_number (ex2 last).1.2).2.
Definition ex3 (last : Outcome) := ex_apply false (ex_vs2 last) (add_edit 2 [x62] [x63]) (ex2 last).2.

Lemma ex_runs_by_hand :
  (ex1 (Landed 400)).1.1 = Ok /\ (ex2 (Landed 400)).1.1 = Ok /\ (ex3 (Landed 400)).1.1 = Io /\ level0 (ex3 (Landed 400)).1.2 = [1] /\
  match (ex_recover false (ex3 (Landed 400)).2).1 with Some (s, vs) => (s, level0 vs) | None => (Io, []) end = (Ok, [2; 1]) /\
  match (ex_recover false (ex3 (Landed 20)).2).1 with Some (s, vs) => (s, level0 vs) | None => (Io, []) end = (Ok, [1]).
Proof. vm_compute. done. Qed.

(** ** Their hypotheses, by computation *)

Lemma distinct_nodup v : NoDup (map file_number (all_files v)) -> distinct v.
Proof.
  intros Hn lvl f g Hf Hg E.
  assert (f ∈ all_files v) as [i Hi]%list_elem_of_lookup by (apply elem_of_all_files; by exists lvl).
  assert (g ∈ all_files v) as [j Hj]%list_elem_of_lookup by (apply elem_of_all_files; by exists lvl).
  assert (i = j) as ->; [|congruence]. eapply NoDup_lookup; [exact Hn| |].
  - change (map file_number (all_files v)) with (file_number <$> all_files v). by rewrite list_lookup_fmap, Hi.
  - change (map file_number (all_files v)) with (file_number <$> all_files v). by rewrite list_lookup_fmap, Hj, E.
Qed.

Lemma version_fits_intro registry v : snapshot_ok (snapshot_of v 0) ->
  zlen (snapshot_content (snapshot_of v 0)) + 10 + kBlockTrailerLength <= kMaxManifestBytes -> refuses_plaintext registry (all_files v) = false ->
  version_fits registry v.
Proof.
  intros [H1 H2 H3 H4 H5] Hlen Hr counter Hc. split; [by split|]. split; [|done].
  unfold snapshot_content, snapshot_of in *. rewrite !zlen_app in *. cbn [snap_next_file_number snap_files snap_compaction_pointers snap_truncation_point snap_watermark_floor] in *.
  pose proof (length_put_varint_loop 9 counter) as Hl. pose proof (zlen_nonneg (put_varint64 0)).
  assert (zlen (put_varint64 counter) <= 10) by (unfold zlen, put_varint64; lia). lia.
Qed.

Lemma apply_files_ok v e : Forall file_ok (all_files v) -> Forall file_ok (added e) -> Forall file_ok (all_files (apply v e)).
Proof.
  rewrite !Forall_forall. intros Hv He f [lvl [[Hf _]|(Hf & _)]%elem_of_apply]%elem_of_all_files; [|by apply He]. apply Hv, elem_of_all_files. by exists lvl.
Qed.

(** The parts of a version a [swap_edit] does not touch are empty. *)
Definition bare (v : Version) : Prop :=
  Forall file_ok (all_files v) /\ compaction_pointers_ v = ∅ /\ truncation_point_ v = [] /\ watermark_floor_ v = None.

Lemma bare_apply v dead n a b counter : bare v -> file_ok (sample_file n a b) -> bare (apply v (with_number (swap_edit dead n a b) counter)).
Proof.
  intros (H1 & H2 & H3 & H4) Hf. split_and!; [apply apply_files_ok; [done|by apply Forall_singleton]|done| |done].
  unfold apply. cbn [truncation_point_ make_version truncation_point with_number swap_edit]. rewrite H3. done.
Qed.

Lemma sample_edit_suits registry v dead n a b counter :
  bare v -> list_ok ref_ok dead -> is_u64 n -> is_u64 counter -> n < counter -> str_ok a -> str_ok b ->
  let v' := apply v (with_number (swap_edit dead n a b) counter) in
  NoDup (map file_number (all_files v')) -> Z.of_nat (length (all_files v')) < 2 ^ 64 -> refuses_plaintext registry (all_files v') = false ->
  refuses_plaintext registry [sample_file n a b] = false ->
  zlen (snapshot_content (snapshot_of v' 0)) + 10 + kBlockTrailerLength <= kMaxManifestBytes ->
  zlen (edit_content (with_number (swap_edit dead n a b) counter)) + kBlockTrailerLength <= kMaxManifestBytes ->
  edit_suits registry v (with_number (swap_edit dead n a b) counter).
Proof.
  intros Hbare Hdead Hn Hc Hlt Ha Hb v' Hd Hlen Hr' Hr Hsz Hl. pose proof (sample_file_ok n a b Hn Ha Hb) as Hfile.
  destruct (bare_apply v dead n a b counter Hbare Hfile) as (B1 & B2 & B3 & B4).
  split; [|by apply distinct_nodup| |].
  - split; [|done]. split; simpl; [done|split; [simpl; lia|by apply Forall_singleton]|done|split; [simpl; lia|constructor]|done|intros ? [=]|done].
  - apply version_fits_intro; [|done|done]. split; [done|done| | |]; unfold snapshot_of; cbn [snap_compaction_pointers snap_truncation_point snap_watermark_floor].
    + rewrite B2. unfold sorted_pointers. rewrite map_to_list_empty. split; [simpl; lia|constructor].
    + by rewrite B3.
    + rewrite B4. done.
  - simpl. intros f ->%list_elem_of_singleton. done.
Qed.

Ltac suits_by_computation :=
  apply sample_edit_suits; [|repeat constructor; by vm_compute|unfold is_u64; lia|by vm_compute|by vm_compute|by vm_compute|by vm_compute
    |apply (bool_decide_eq_true_1 (NoDup _)); by vm_compute|by vm_compute|by vm_compute|by vm_compute|by vm_compute|by vm_compute].

Lemma bare_empty : bare empty_version.
Proof. split_and!; [constructor|done|done|done]. Qed.

Definition ex_Runs := Runs (cat := mem_catalog false) mem_view (ops := copy_codec) passthrough_registry 2 None 0.

Lemma ex_runs1 last : ex_Runs (ex_vs1 last) (ex1 last).2 [].
Proof.
  unfold ex_vs1. apply runs_allocate; [|by vm_compute]. eapply (runs_create _ _ _ _ _ (ex_start last)); [done|done|by vm_compute].
Qed.

Lemma ex_runs2 last : ex_Runs (ex_vs2 last) (ex2 last).2 [].
Proof.
  unfold ex_vs2. apply runs_allocate; [|by vm_compute].
  apply (runs_apply mem_view passthrough_registry 2 None 0 (ex_vs1 last) (ex1 last).2 [] (add_edit 1 [x61] [x7a]) 0 nobody Ok);
    [apply ex_runs1| |by vm_compute|by vm_compute].
  destruct last; suits_by_computation; apply bare_empty.
Qed.

Lemma ex_runs3 last : ex_Runs (ex3 last).1.2 (ex3 last).2 (if bool_decide ((ex3 last).1.1 = Ok) then [] else [with_number (add_edit 2 [x62] [x63]) 3]).
Proof.
  change 3 with (file_counter_ (ex_vs2 last)) at 1.
  apply (runs_apply mem_view passthrough_registry 2 None 0 (ex_vs2 last) (ex2 last).2 [] (add_edit 2 [x62] [x63]) 0 nobody (ex3 last).1.1);
    [apply ex_runs2| |by destruct last; vm_compute|unfold ex3, ex_apply; by destruct (vs_apply _ _ _ _ _ _ _ _ _) as [[? ?] ?]].
  destruct last; suits_by_computation; (apply bare_apply; [apply bare_empty|apply sample_file_ok; by vm_compute]).
Qed.

(** ** Witnesses *)


Lemma torn_edit_fences_every_writer_witness :
  exists vs' m', ex_recover false (ex3 (Landed 20)).2 = (Some (Ok, vs'), m') /\
    exists vs2 m2, ex_apply false vs' (add_edit 3 [x64] [x65]) m' = (Fenced, vs2, m2).
Proof.
  destruct (VersionSetProofs.torn_edit_fences_every_writer (cat := mem_catalog false) mem_view (mem_catalog_laws false) (reads_answer_settle _ mem_catalog_answers) (ops := copy_codec) copy_codec_laws ltac:(by vm_compute)
              copy_total passthrough_registry no_encryption_provider eq_refl no_encryption_laws ltac:(by vm_compute) plain_small plain_seal_fails 2 None 0
              (ex3 (Landed 20)).1.2 (ex3 (Landed 20)).2 _
              (take 20 (default [] (mf_edits (mem_view (ex3 (Landed 400)).2) !! (1, 2)))) (mem_catalog_refuses false) mem_catalog_answers (ex_runs3 (Landed 20)))
    as (vs' & m' & E & _ & _ & H); [by vm_compute|by vm_compute|].
  exists vs', m'. split; [exact E|].
  destruct (plain_seals (vs_generation vs') (edit_address (vs_generation vs') (next_seq_ vs'))
              (encode_version_edit (ops := copy_codec) (with_number (add_edit 3 [x64] [x65]) (file_counter_ vs')))) as [framed Hs].
  destruct (H (add_edit 3 [x64] [x65]) 0 nobody framed Hs) as (vs2 & m2 & E2 & _). exists vs2, m2. exact E2.
Defined.

(** The second edit replaces the first file. *)
Definition ex_swap : VersionEdit := swap_edit [{| ref_level := 0; ref_number := 1 |}] 2 [x62] [x63].
Definition ex3' := ex_apply false (ex_vs2 Fine) ex_swap (ex2 Fine).2.

Lemma ex_runs3' : ex_Runs ex3'.1.2 ex3'.2 [].
Proof.
  apply (runs_apply mem_view passthrough_registry 2 None 0 (ex_vs2 Fine) (ex2 Fine).2 [] ex_swap 0 nobody Ok); [apply ex_runs2| |by vm_compute|by vm_compute].
  suits_by_computation. apply bare_apply; [apply bare_empty|apply sample_file_ok; by vm_compute].
Qed.

(** The replaced file is handed to the deleter, and no recovery of that store lists it. *)
Lemma collected_not_recovered_example :
  map file_number (collect_obsolete (Some (fun _ => [])) 0 5 nobody ex3'.1.2).1 = [1] /\
  forall f vs' m' g, f ∈ (collect_obsolete (Some (fun _ => [])) 0 5 nobody ex3'.1.2).1 ->
    ex_recover false ex3'.2 = (Some (Ok, vs'), m') -> g ∈ all_files (current_ vs') -> file_number g <> file_number f.
Proof.
  split; [by vm_compute|]. unfold ex_recover. intros f vs' m' g Hf E Hg Hn.
  destruct (collect_obsolete (Some (fun _ => [])) 0 5 nobody ex3'.1.2) as [collected vs1] eqn:Ec.
  destruct (collected_not_recovered (cat := mem_catalog false) mem_view (mem_catalog_laws false) (reads_answer_settle _ mem_catalog_answers) (ops := copy_codec) copy_codec_laws ltac:(by vm_compute)
              copy_total passthrough_registry no_encryption_provider eq_refl no_encryption_laws ltac:(by vm_compute) plain_small plain_seal_fails 2 None 0
              _ _ _ _ _ _ _ _ f vs' m' g ex_runs3' Ec Hf E Hg Hn) as (e & He%elem_of_nil & _). done.
Qed.

(** ** Two ways to lose an acknowledged edit *)

(** The swap of the pointer at the first roll happens, but its answer and the read that checks it are lost. *)
Definition lost_start : MemCatalog :=
  {| mem_view := empty_manifest; mem_script := [Fine; Fine; Fine; Fine; Fine; Landed 0; Lost; Fine; Fine] |}.
Definition lost1 := ex_create true lost_start.
Definition lost2 := ex_apply true (allocate_file_number lost1.1.2).2 (add_edit 1 [x61] [x7a]) lost1.2.
Definition lost3 := ex_apply true (allocate_file_number lost2.1.2).2 (add_edit 2 [x62] [x63]) lost2.2.
Definition lost4 := ex_apply true (allocate_file_number lost3.1.2).2 (add_edit 3 [x64] [x65]) lost3.2.

(** A roll whose swap goes unanswered loses the next edit. The pointer moves, the answer and the read that
    would have found out are lost, and the writer stays on the old generation: the next edit is
    acknowledged with [Ok], although by then the writer is fenced, and a recovery does not find it. *)
Theorem unanswered_swap_loses_edit :
  lost3.1.1 = Ok /\ lost4.1.1 = Ok /\ fenced_ lost4.1.2 = true /\ level0 lost4.1.2 = [3; 2; 1] /\
  match (ex_recover true lost4.2).1 with Some (s, vs) => (s, level0 vs) | None => (Io, []) end = (Ok, [2; 1]).
Proof. vm_compute. done. Qed.

(** Two writers open the same store; the second one rolls to the next generation. *)
Definition two_start : MemCatalog := {| mem_view := empty_manifest; mem_script := [] |}.
Definition two_a := ex_create false two_start.
Definition two_b : VersionSet := match (ex_recover false two_a.2).1 with Some (_, vs) => vs | None => new_version_set end.
Definition two_b1 := ex_apply false (allocate_file_number two_b).2 (add_edit 1 [x61] [x62]) two_a.2.
Definition two_b2 := ex_apply false (allocate_file_number two_b1.1.2).2 (add_edit 2 [x63] [x64]) two_b1.2.
Definition two_a1 := ex_apply false (observe_file_number two_a.1.2 10) (add_edit 10 [x65] [x66]) two_b2.2.

(** A writer that was overtaken is not fenced at its next manifest write. When the other writer has
    rolled the generation, and with it removed the addresses this one writes to, its edit is acknowledged
    with [Ok], it is not fenced, and no recovery finds the edit. *)
Theorem overtaken_writer_is_acknowledged :
  vs_generation two_b2.1.2 = 2 /\ two_a1.1.1 = Ok /\ fenced_ two_a1.1.2 = false /\ level0 two_a1.1.2 = [10] /\
  match (ex_recover false two_a1.2).1 with Some (s, vs) => (s, level0 vs) | None => (Io, []) end = (Ok, [2; 1]).
Proof. vm_compute. done. Qed.

(** The read that follows an unreadable edit is used without being looked at. *)
Lemma recover_unchecked_read :
  (ex_recover true {| mem_view := mem_view two_b1.2; mem_script := [Fine; Fine; Fine; Lost; Lost] |}).1 = None.
Proof. vm_compute. done. Qed.

(** ** A directory that cannot be opened for a listing *)

(** [DiskCatalog] over any disk, not only those that [disk_ok] describes. *)
Definition raw_disk_catalog : ManifestCatalog Disk := {|
  cat_read := disk_read; compare_and_set := disk_cas; put_snapshot := disk_put_snapshot; get_snapshot := disk_get_snapshot;
  put_edit := disk_put_edit; get_edit := disk_get_edit; list_edits := disk_list_edits; delete_generation := disk_delete_generation;
  list_generations := disk_list_generations
|}.

Definition on_disk_create := create (cat := raw_disk_catalog) (ops := copy_codec) passthrough_registry new_version_set (DiskExamples.bare_disk {[ [] := Dir ]}).
Definition on_disk_apply :=
  vs_apply (cat := raw_disk_catalog) (ops := copy_codec) passthrough_registry 2 None 0 (allocate_file_number on_disk_create.1.2).2 (add_edit 1 [x61] [x7a]) 0 nobody on_disk_create.2.

(** The store opened again, with what happens to the calls that open a directory. *)
Definition on_disk_reopen (listings : list Fault) :=
  recover (cat := raw_disk_catalog) (ops := copy_codec) passthrough_registry new_version_set
    {| dk_visible := dk_visible on_disk_apply.2; dk_durable := dk_durable on_disk_apply.2; dk_faults := []; dk_read_faults := []; dk_list_faults := listings |}.

(** An edit that was acknowledged is not found when the generation's directory cannot be opened for the listing: the
    error (out of descriptors, say) is answered like a directory that is not there, so the recovery answers [Ok] with the
    snapshot alone. *)
Theorem unlisted_directory_loses_edits :
  on_disk_create.1.1 = Ok /\ on_disk_apply.1.1 = Ok /\ level0 on_disk_apply.1.2 = [1] /\
  match (on_disk_reopen []).1 with Some (s, vs) => (s, level0 vs) | None => (Io, []) end = (Ok, [1]) /\
  match (on_disk_reopen [Failing]).1 with Some (s, vs) => (s, level0 vs) | None => (Io, []) end = (Ok, []).
Proof. vm_compute. done. Qed.

(** ** Sweeps, run

    A store with an orphan that two sweeps see, and a sweep of stale generations that overlaps a roll. *)


Import DiskExamples BlobExamples.

#[local] Existing Instances hot_and_cold hot_and_cold_laws.

(** ** A generation swept away while it is rolled in *)

(** A store with one edit, about to roll to generation 2. *)
Definition before_roll := ex_apply false (allocate_file_number two_a.1.2).2 (add_edit 1 [x61] [x62]) two_a.2.

Definition roll_snapshot : bytes := encode_version_snapshot (ops := copy_codec) (snapshot_of (current_ before_roll.1.2) (file_counter_ before_roll.1.2)).

(** The three moments of the roll on the writer's thread ([write_snapshot_and_install]): the snapshot is placed, the pointer
    swapped, the old generation deleted. *)
Definition placed := place_snapshot (cat := mem_catalog false) (ops := copy_codec) passthrough_registry kSnapshotAttempts (entry_ before_roll.1.2) 2 roll_snapshot before_roll.2.

Definition finish_roll (m : MemCatalog) : Status * VersionSet * MemCatalog :=
  match compare_and_set (ManifestCatalog := mem_catalog false) (entry_ before_roll.1.2) 2 m with
  | (Value (Some e), m) => commit_generation (cat := mem_catalog false) before_roll.1.2 e m
  | (Value None, m) => (Fenced, before_roll.1.2, m)
  | (Unexpected s, m) => (s, before_roll.1.2, m)
  end.

(** The sweep of the maintenance thread in between, which read the live generation before the roll. *)
Definition swept_between (obsolete_retention : option Z) := sweep_stale_generations (cat := mem_catalog false) obsolete_retention 1000 before_roll.1.2 no_sightings placed.2.

Definition opened_after (m : MemCatalog) : Status * list Z := match (ex_recover false m).1 with Some (s, vs) => (s, level0 vs) | None => (Io, []) end.

(** the sweep of stale generations can delete the generation a concurrent roll is about to make live. With
    [obsolete_retention] unset a generation is deleted the first time it is seen; seen between the placement of its
    snapshot and the swap of the pointer, it is gone when the pointer names it. The roll and the writer report success, and
    the store can no longer be opened. Without the sweep, or with a retention, it opens. *)
Theorem sweep_destroys_generation_being_rolled :
  before_roll.1.1 = Ok /\ placed.1 = (Value 2, false) /\ (swept_between None).1.1 = 1 /\
  (finish_roll (swept_between None).2).1.1 = Ok /\ opened_after (finish_roll (swept_between None).2).2 = (Corrupt, []) /\
  opened_after (finish_roll placed.2).2 = (Ok, [1]) /\ opened_after (finish_roll (swept_between (Some 60)).2).2 = (Ok, [1]).
Proof. vm_compute. done. Qed.

(** ** A sweep that could not look *)

(** The second writer of [two_b2] has rolled to generation 2; the first one sweeps while its read of the pointer fails. *)
Definition blind_sweep := sweep_orphans (S := DiskBlobStore) (cat := mem_catalog true) false true 60 None 1000 two_a.1.2 {| mem_view := mem_view two_b2.2; mem_script := [Lost] |} [] no_sightings.

(** A read that fails counts as a manifest that did not move: the overtaken writer takes the live generation for a stale one. *)
Lemma blind_sweep_deletes_live_generation :
  blind_sweep.1.1.1.1 = Ok /\ opened_after {| mem_view := mem_view blind_sweep.1.1.2; mem_script := [] |} = (Corrupt, []) /\
  opened_after {| mem_view := mem_view two_b2.2; mem_script := [] |} = (Ok, [2; 1]).
Proof. vm_compute. done. Qed.

(** ** An orphan seen twice *)

Definition one_store : list (bytes * DiskBlobStore) := [([x68], reopened (dir_with [sst_object_name 1; sst_object_name 7]))].

Abbreviation sweep_at now stores st := (sweep_orphans (cat := mem_catalog false) false true 60 None now before_roll.1.2 before_roll.2 stores st).

Definition names_left (stores : list (bytes * DiskBlobStore)) : list (list Z) :=
  map (fun p => match (bs_list [] p.2).1 with Value names => omap sst_file_number names | Unexpected _ => [] end) stores.

Abbreviation first_sweep := (sweep_at 1000 one_store no_sightings).
Abbreviation second_sweep := (sweep_at 1060 first_sweep.1.2 first_sweep.2).
Abbreviation seen_once := (sees (cat := mem_catalog false) false true 1000 before_roll.1.2 before_roll.2 one_store []).

Lemma sweeps_by_hand : (names_left first_sweep.1.2, names_left second_sweep.1.2) = ([[1; 7]], [[1]]).
Proof. vm_compute. reflexivity. Qed.

Lemma one_store_ok : Forall (fun p : bytes * DiskBlobStore => blob_ok 4 no_hash p.2) one_store /\ NoDup (map fst one_store).
Proof. split; [apply Forall_singleton, reopened_ok, dir_with_flat|apply NoDup_singleton]. Qed.

Lemma split_sweep {A B C D E} (x : A * B * C * D * E) : x = (x.1.1.1.1, x.1.1.1.2, x.1.1.2, x.1.2, x.2).
Proof. by destruct x as [[[[? ?] ?] ?] ?]. Qed.

Lemma swept_once : Swept (cat := mem_catalog false) seen_once first_sweep.2.
Proof. exact (swept_again (cat := mem_catalog false) _ _ _ _ _ _ _ _ _ _ _ _ _ _ _ swept_none (proj2 one_store_ok) (split_sweep first_sweep)). Qed.

Lemma orphans_keep_ids history now retention vs (ps qs : list (bytes * DiskBlobStore)) :
  Forall2 (only_orphans (ok := blob_ok 4 no_hash) (objects := blob_objects) history now retention vs) ps qs -> map fst qs = map fst ps /\ Forall (fun p => blob_ok 4 no_hash p.2) qs.
Proof. induction 1 as [|p q ps qs (Hid & Hq & _) _ [IH1 IH2]]; [done|]. cbn [map]. split; [by rewrite Hid, IH1|by constructor]. Qed.

Lemma sweep_removes_only_orphans_witness :
  (names_left first_sweep.1.2, names_left second_sweep.1.2) = ([[1; 7]], [[1]]) /\
  Forall2 (only_orphans (ok := blob_ok 4 no_hash) (objects := blob_objects) seen_once 1060 60 before_roll.1.2) first_sweep.1.2 second_sweep.1.2.
Proof.
  split; [exact sweeps_by_hand|].
  destruct (sweep_removes_only_orphans mem_view (mem_catalog_laws false) [] no_sightings false true 60 None 1000 _ _ _ _ _ _ _ _ swept_none (proj2 one_store_ok) (proj1 one_store_ok) eq_refl (split_sweep first_sweep)) as [H1 _].
  destruct (orphans_keep_ids _ _ _ _ _ _ H1) as [Hids Hok1]. pose proof (proj2 one_store_ok) as Hn. rewrite <- Hids in Hn.
  exact (proj1 (sweep_removes_only_orphans mem_view (mem_catalog_laws false) seen_once first_sweep.2 false true 60 None 1060 _ _ _ _ _ _ _ _ swept_once Hn Hok1 eq_refl (split_sweep second_sweep))).
Defined.
