(* ===== verification/Obsolete.v ===== *)
(** * Deleting what no version lists

    [DbImpl::delete_obsolete] of [src/db/db_impl.cpp], the deleter the version set hands its collectable files to:
    the reader and the blocks of each file are dropped, its object is removed from the store it is recorded on, in one
    batch a store, and what could not be removed stays queued. *)

From S2P Require Import Prelude Slice Format Names Watermark VersionEdit Version FileSystem DiskCatalog Blob DiskBlob BlobCrash Budget BlockCache ReaderCache VersionSet Open VersionSetProofs.

Section Obsolete.
Context {S R : Type} {blob : BlobStore S}.

(** The configured stores in the order of a [std::map], and the two caches; each cache keeps the account of the budget
    they share. *)
Record Holdings := { ho_stores : list (bytes * S); ho_readers : SstReaderCache (R := R); ho_blocks : BlockCache }.

(** [by_store[id]]. *)
Definition names_on (id : bytes) (files : list FileMetadata) : list bytes :=
  map (fun f => sst_object_name (file_number f)) (List.filter (on_store id) files).

(** One bulk call a store that has a file to delete; what failed is the batch. *)
Fixpoint remove_by_store (files : list FileMetadata) (stores : list (bytes * S)) : list FileMetadata * list (bytes * S) :=
  match stores with
  | [] => ([], [])
  | (id, s) :: rest =>
      let '(failed_here, s) :=
        match names_on id files with
        | [] => ([], s)
        | names =>
            let '(status, s) := bs_remove_many names s in
            (if bool_decide (status = Ok) then [] else List.filter (on_store id) files, s)
        end in
      let '(failed, rest) := remove_by_store files rest in
      (failed_here ++ failed, (id, s) :: rest)
  end.

(** [delete_obsolete]: what could not be deleted. *)
Definition delete_obsolete (files : list FileMetadata) (h : Holdings) : list FileMetadata * Holdings :=
  let readers := fold_left (fun c f => reader_forget (file_number f) c) files (ho_readers h) in
  let blocks := fold_left (fun c f => evict_file (file_number f) c) files (ho_blocks h) in
  let '(failed, stores) := remove_by_store files (ho_stores h) in
  (failed, {| ho_stores := stores; ho_readers := readers; ho_blocks := blocks |}).

(** [VersionSet::collect_obsolete] with the deleter [DbImpl::recover] gives it. *)
Definition collect_and_delete (retention now : Z) (held : nat -> bool) (vs : VersionSet) (h : Holdings) : list FileMetadata * VersionSet * Holdings :=
  let '(collected, vs) := collect_obsolete (Some (fun files => (delete_obsolete files h).1)) retention now held vs in
  (collected, vs, if bool_decide (collected = []) then h else (delete_obsolete collected h).2).

(** ** What it removes *)

Context {ok : S -> Prop} {objects : S -> bytes -> option bytes} {laws : BlobStoreLaws blob ok objects}.

(** From a store to what is left of it: only objects named after the files given, on this store, are gone. *)
Definition trimmed (files : list FileMetadata) (p q : bytes * S) : Prop :=
  q.1 = p.1 /\ ok q.2 /\ forall name, objects q.2 name = objects p.2 name \/ name ∈ names_on p.1 files /\ objects q.2 name = None.

Lemma elem_of_names_on id files name : name ∈ names_on id files <-> exists f, f ∈ files /\ store_id f = id /\ name = sst_object_name (file_number f).
Proof.
  unfold names_on. rewrite list_elem_of_fmap. split.
  - intros (f & -> & [Hf Ho]%elem_of_filter_bool). exists f. split; [done|]. split; [|done]. by apply slice_eqb_eq.
  - intros (f & Hf & <- & ->). exists f. split; [done|]. apply elem_of_filter_bool. split; [done|]. by apply slice_eqb_eq.
Qed.

Lemma remove_by_store_spec files : forall stores failed stores', Forall (fun p => ok p.2) stores -> remove_by_store files stores = (failed, stores') ->
  Forall2 (trimmed files) stores stores' /\
  (forall f, f ∈ failed -> f ∈ files /\ exists s, (store_id f, s) ∈ stores) /\
  (forall f s, f ∈ files -> f ∉ failed -> (store_id f, s) ∈ stores' -> objects s (sst_object_name (file_number f)) = None).
Proof using laws.
  induction stores as [|[id s] stores IH]; intros failed stores' Hok; cbn [remove_by_store].
  { intros [= <- <-]. split; [constructor|]. split; [by intros f ?%elem_of_nil|by intros f s0 _ _ ?%elem_of_nil]. }
  apply Forall_cons in Hok as [Hs Hok]. cbn [snd] in Hs.
  assert (exists here s1, match names_on id files with [] => ([], s) | names => let '(status, s) := bs_remove_many names s in (if bool_decide (status = Ok) then [] else List.filter (on_store id) files, s) end = (here, s1) /\
    trimmed files (id, s) (id, s1) /\ (forall f, f ∈ here -> f ∈ files /\ store_id f = id) /\
    (forall f, f ∈ files -> f ∉ here -> store_id f = id -> objects s1 (sst_object_name (file_number f)) = None)) as (here & s1 & -> & Htrim & Hin & Hout).
  { destruct (names_on id files) as [|n ns] eqn:En.
    - exists [], s. split; [done|]. split; [split; [done|]; split; [done|]; intros name; by left|]. split; [by intros f ?%elem_of_nil|].
      intros f Hf _ Hid. exfalso. assert (sst_object_name (file_number f) ∈ names_on id files) as H by (apply elem_of_names_on; eauto). rewrite En in H. by apply elem_of_nil in H.
    - destruct (bs_remove_many (n :: ns) s) as [status s1] eqn:E. rewrite <- En in E. exists (if bool_decide (status = Ok) then [] else List.filter (on_store id) files), s1.
      split; [done|]. split; [split; [done|]; split; [by eapply law_remove_many_keeps|]; intros name; by eapply law_remove_many_frame|].
      case_bool_decide as Es.
      + subst status. split; [by intros f ?%elem_of_nil|]. intros f Hf _ Hid. eapply law_remove_many_ok; [done|exact E|]. apply elem_of_names_on. by eauto.
      + split; [intros f [Hf Ho]%elem_of_filter_bool; split; [done|by apply slice_eqb_eq]|]. intros f Hf Hn Hid. destruct Hn. apply elem_of_filter_bool. split; [done|by apply slice_eqb_eq]. }
  destruct (remove_by_store files stores) as [failed1 stores1] eqn:E. intros [= <- <-]. destruct (IH _ _ Hok eq_refl) as (H1 & H2 & H3).
  split; [by constructor|]. split.
  - intros f [Hf|Hf]%elem_of_app.
    + destruct (Hin f Hf) as [? Hid]. split; [done|]. exists s. rewrite Hid. by left.
    + destruct (H2 f Hf) as [? [s2 ?]]. split; [done|]. exists s2. by right.
  - intros f s2 Hf [Hn1 Hn2]%not_elem_of_app [[= Hid ->]|Hs2]%elem_of_cons; [by apply Hout|by eapply H3].
Qed.

Lemma forgotten (c : SstReaderCache (R := R)) f x : x ∈ rk_entries (reader_forget f c) -> x ∈ rk_entries c /\ rd_file x <> f.
Proof.
  unfold reader_forget, drop_locked. destruct (find_reader f (rk_entries c)) eqn:E; [by intros ?%elem_of_others|].
  intros Hx. split; [done|]. intros Hf. apply list_elem_of_In in Hx. pose proof (List.find_none _ _ E x Hx) as H. simpl in H. by rewrite Hf, Z.eqb_refl in H.
Qed.

Lemma forgotten_all files : forall (c : SstReaderCache (R := R)) x, x ∈ rk_entries (fold_left (fun c f => reader_forget (file_number f) c) files c) ->
  x ∈ rk_entries c /\ forall f, f ∈ files -> rd_file x <> file_number f.
Proof.
  induction files as [|g files IH]; intros c x; cbn [fold_left]; [intros Hx; split; [done|by intros f ?%elem_of_nil]|].
  intros [[Hx Hg]%forgotten Hall]%IH. split; [done|]. intros f [->|Hf]%elem_of_cons; [done|by apply Hall].
Qed.

Lemma evicted_all capacity files : 0 <= capacity < 2 ^ 60 -> forall c, shards_fine capacity (bc_shards c) ->
  let c' := fold_left (fun c f => evict_file (file_number f) c) files c in
  shards_fine capacity (bc_shards c') /\ forall x, lists (bc_shards c') x -> lists (bc_shards c) x /\ forall f, f ∈ files -> (en_key x).1 <> file_number f.
Proof.
  intros Hcap. induction files as [|g files IH]; intros c Hc; cbn [fold_left]; [split; [done|]; intros x Hx; split; [done|by intros f ?%elem_of_nil]|].
  destruct (evict_file_ok capacity Hcap (file_number g) c Hc) as (H1 & H2 & _). destruct (IH _ H1) as [H3 H4]. split; [done|].
  intros x Hx. destruct (H4 x Hx) as [Hx1 Hall]. destruct (H2 x Hx1) as [Hx2 Hg]. split; [done|]. intros f [->|Hf]%elem_of_cons; [done|by apply Hall].
Qed.

Lemma named_inj f g : is_u64 (file_number f) -> is_u64 (file_number g) ->
  sst_object_name (file_number f) = sst_object_name (file_number g) -> file_number f = file_number g.
Proof. intros Hf Hg. unfold sst_object_name. intros E. apply app_inv_tail in E. by apply padded_inj. Qed.

(** What is queued again is what could not be removed. *)
Lemma collect_requeues delete retention now held vs collected vs' : collect_obsolete (Some delete) retention now held vs = (collected, vs') ->
  forall f, collected <> [] -> f ∈ delete collected -> exists p, p ∈ pending_deletions_ vs' /\ pending_file p = f.
Proof.
  unfold collect_obsolete. case_bool_decide as Ep; [by intros [= <- <-]|]. intros [= <- <-] f Hne Hf. cbn [pending_deletions_ with_pending].
  rewrite bool_decide_eq_false_2 by done. exists {| pending_file := f; unreferenced_since_ms := 0 |}. split; [|done].
  apply elem_of_app. right. by apply (list_elem_of_fmap_2 (fun f => {| pending_file := f; unreferenced_since_ms := 0 |})).
Qed.

(** C10: The deletion of obsolete files, from the queue of the version set down to the stores. Whatever the stores
    answer, an object is removed only if it is that of a file waiting to be deleted, on the store the file is recorded
    on; every object that a version that is current or still held lists stays as it is; a file that left the queue has
    its object gone, unless its store is not configured, and one whose removal failed is queued again; and no reader
    and no cached block of a deleted file is left. File numbers are 64 bits wide. *)
Theorem obsolete_objects_removed_safely capacity retention now held vs h :
  0 <= capacity < 2 ^ 60 -> shards_fine capacity (bc_shards (ho_blocks h)) -> Forall (fun p => ok p.2) (ho_stores h) ->
  (forall p, p ∈ pending_deletions_ vs -> is_u64 (file_number (pending_file p))) ->
  let '(collected, vs', h') := collect_and_delete retention now held vs h in
  Forall2 (fun p q => q.1 = p.1 /\ ok q.2 /\
    (forall name, objects q.2 name <> objects p.2 name -> objects q.2 name = None /\
       exists d, d ∈ pending_deletions_ vs /\ store_id (pending_file d) = p.1 /\ name = sst_object_name (file_number (pending_file d))) /\
    (forall id v g, (id, v) ∈ live_versions_ vs -> alive vs held id = true -> g ∈ all_files v -> is_u64 (file_number g) ->
       objects q.2 (sst_object_name (file_number g)) = objects p.2 (sst_object_name (file_number g)))) (ho_stores h) (ho_stores h') /\
  (forall d, d ∈ pending_deletions_ vs -> (exists d', d' ∈ pending_deletions_ vs' /\ pending_file d' = pending_file d) \/
     forall s, (store_id (pending_file d), s) ∈ ho_stores h' -> objects s (sst_object_name (file_number (pending_file d))) = None) /\
  (forall f, f ∈ collected -> (forall x, x ∈ rk_entries (ho_readers h') -> rd_file x <> file_number f) /\
     forall x, lists (bc_shards (ho_blocks h')) x -> (en_key x).1 <> file_number f).
Proof using laws.
  intros Hcap Hfine Hok Hnum. unfold collect_and_delete. set (del := fun files => (delete_obsolete files h).1).
  destruct (collect_obsolete (Some del) retention now held vs) as [collected vs'] eqn:E.
  pose proof (collect_collected retention del now held vs collected vs' E) as Hcol. pose proof (collect_keeps retention del now held vs collected vs' E) as Hkeep.
  pose proof (collect_requeues del retention now held vs collected vs' E) as Hq.
  case_bool_decide as Ec.
  { subst collected. split; [|split; [|by intros f ?%elem_of_nil]].
    - clear -Hok. induction Hok as [|p l Hp _ IH]; constructor; [|done]. split; [done|]. split; [done|]. split; [intros name H; by destruct H|done].
    - intros d Hd. left. exists d. split; [|done]. destruct (Hkeep d Hd) as [?|?%elem_of_nil]; done. }
  unfold delete_obsolete. destruct (remove_by_store collected (ho_stores h)) as [failed stores'] eqn:Er. cbn [ho_stores ho_readers ho_blocks snd].
  destruct (remove_by_store_spec collected _ _ _ Hok Er) as (H1 & H2 & H3). split; [|split].
  - eapply Forall2_impl; [exact H1|]. intros p q (Hid & Hq2 & Hn). split; [done|]. split; [done|]. split.
    + intros name Hd. destruct (Hn name) as [?|[(f & Hf & Hs & ->)%elem_of_names_on Hg]]; [done|]. split; [done|].
      apply Hcol in Hf as (d & Hd1 & <- & _). by exists d.
    + intros id v g Hv Ha Hg Hu. destruct (Hn (sst_object_name (file_number g))) as [?|[(f & Hf & _ & Heq)%elem_of_names_on _]]; [done|]. exfalso.
      apply Hcol in Hf as (d & Hd1 & <- & _ & Hlive). apply named_inj in Heq; [|done|by apply Hnum]. by eapply Hlive.
  - intros d Hd. destruct (Hkeep d Hd) as [?|Hc]; [left; by exists d|]. destruct (decide (pending_file d ∈ failed)) as [Hf|Hf].
    + left. apply Hq; [done|]. unfold del, delete_obsolete. by rewrite Er.
    + right. intros s Hs. by eapply H3.
  - intros f Hf. split.
    + intros x Hx. by apply (forgotten_all collected _ x Hx).
    + intros x Hx. by apply (proj2 (evicted_all capacity collected Hcap _ Hfine) x Hx).
Qed.
End Obsolete.

(** ** Obsolete files, deleted from a store on disk

    A store with the objects of two files, of which the current version lists one. *)


Definition no_name_hash (_ : bytes) : nat := 0%nat.

#[local] Instance drive : BlobStore DiskBlobStore := disk_blob_store 4 no_name_hash 77 true.
#[local] Instance drive_laws : BlobStoreLaws drive (blob_ok 4 no_name_hash) blob_objects := disk_blob_laws 4 no_name_hash 77 true.

Definition two_objects : Disk :=
  let v := {[ [] := Dir; [sst_object_name 1] := File [x01] true; [sst_object_name 2] := File [x02] true ]} in
  {| dk_visible := v; dk_durable := v; dk_faults := []; dk_read_faults := []; dk_list_faults := [] |}.

Lemma two_objects_ok : blob_ok 4 no_name_hash (reopened two_objects).
Proof.
  apply reopened_ok. intros m _. unfold two_objects. cbn [dk_visible].
  intros [[H _]|[_ [[_ H]|[_ H]]%lookup_insert_Some]]%lookup_insert_Some; [done|done|]. by apply lookup_singleton_Some in H as [_ ?].
Qed.

Definition old_file : FileMetadata := sample_file 1 [x61] [x62].
Definition live_file : FileMetadata := sample_file 2 [x61] [x62].

(** The current version lists file 2; file 1 waits. *)
Definition one_pending : VersionSet :=
  with_pending new_version_set [(0%nat, make_version [[live_file]] 3 ∅ [] None)] [{| pending_file := old_file; unreferenced_since_ms := 0 |}].

Definition cached_blocks : list CacheCall := [BInsert (1, 0) [x01]; BInsert (2, 0) [x02]].

Definition two_held : Holdings :=
  {| ho_stores := [([x73], reopened two_objects)];
     ho_readers := {| rk_entries := [{| rd_file := 1; rd_reader := tt; rd_bytes := 5 |}; {| rd_file := 2; rd_reader := tt; rd_bytes := 5 |}]; rk_bytes := 10; rk_budget := None |};
     ho_blocks := fold_left (run_call 1000) cached_blocks (new_block_cache (Some {| mb_total := 10; mb_used := 0 |})) |}.

Lemma obsolete_objects_removed_safely_witness :
  let '(collected, vs', h') := collect_and_delete 0 5 (fun _ => false) one_pending two_held in
  collected = [old_file] /\ pending_deletions_ vs' = [] /\
  (forall s, ([x73], s) ∈ ho_stores h' -> blob_objects s (sst_object_name 1) = None /\ blob_objects s (sst_object_name 2) = Some [x02]) /\
  map rd_file (rk_entries (ho_readers h')) = [2].
Proof.
  pose proof (obsolete_objects_removed_safely (laws := drive_laws) 1000 0 5 (fun _ => false) one_pending two_held ltac:(lia)
    (proj1 (run_calls_ok 1000 ltac:(lia) {| mb_total := 10; mb_used := 0 |} cached_blocks ltac:(repeat constructor) ltac:(split; [done|reflexivity])))
    ltac:(apply Forall_singleton, two_objects_ok)
    ltac:(intros p Hp; apply list_elem_of_singleton in Hp; subst p; split; [done|reflexivity])) as H.
  destruct (collect_and_delete 0 5 (fun _ => false) one_pending two_held) as [[collected vs'] h'] eqn:E.
  assert (collected = [old_file] /\ pending_deletions_ vs' = [] /\ map rd_file (rk_entries (ho_readers h')) = [2]) as (Hc & Hp & Hr).
  { assert (let r := collect_and_delete 0 5 (fun _ => false) one_pending two_held in r.1.1 = [old_file] /\ pending_deletions_ r.1.2 = [] /\ map rd_file (rk_entries (ho_readers r.2)) = [2]) as Hrun by (vm_compute; repeat split; reflexivity).
    by rewrite E in Hrun. }
  split; [done|]. split; [done|]. split; [|done]. destruct H as (Hs & Hd & _). intros s Hin.
  destruct (Hd {| pending_file := old_file; unreferenced_since_ms := 0 |} ltac:(by apply list_elem_of_singleton)) as [(d & Hd1 & _)|Hgone]; [by rewrite Hp in Hd1; apply elem_of_nil in Hd1|].
  split; [by apply Hgone|]. inversion Hs as [|p q lp lq (_ & _ & _ & Hlive) Hnil Ep Eq]; subst. inversion Hnil; subst. rewrite <- Eq in Hin. apply list_elem_of_singleton in Hin as <-.
  change (sst_object_name 2) with (sst_object_name (file_number live_file)). cbn [snd] in Hlive.
  rewrite (Hlive 0%nat (make_version [[live_file]] 3 ∅ [] None) live_file); [vm_compute; reflexivity|by apply list_elem_of_singleton|done| |split; [done|reflexivity]].
  apply list_elem_of_In. vm_compute. by left.
Defined.
