(* ===== verification/Memtable.v ===== *)
(** * The memtable

    [src/memtable/skiplist_memtable.hpp] and [.cpp]: a skip list with one writer. The arena is a
    list of nodes that only grows; a [Node*] is an index into it, [head_] is index 0 and a null
    pointer is [None]. The atomics are plain fields: the file is about what one writer does, one
    operation at a time. The arena's byte accounting is not modelled. *)

From S2P Require Import Prelude Slice Format Watermark.

(** ** Definitions *)

(** [Entry] of [memtable.hpp]; also the [ValueRecord] a node points to. *)
Abbreviation Entry := (ValueType * bytes)%type.

Record Node := {
  n_key : bytes;
  n_value : option Entry;
  n_height : nat;
  n_next : list (option nat)
}.

Definition kMaxHeight : nat := 12.

Record SkiplistMemtable := {
  nodes : list Node;
  max_height_ : nat;
  entries_ : Z;
  tombstones_ : Z;
  ranges_ : list RangeTombstone;
  range_count_ : Z;
  creation_time_ms_ : Z;
  sealed_time_ms_ : Z;
  watermark_ : WatermarkInterval;
  rng_state_ : Z
}.

(** [new_node] before its value and links are stored. *)
Definition new_node (key : bytes) (height : nat) : Node :=
  {| n_key := key; n_value := None; n_height := height; n_next := replicate height None |}.

(** The constructor: the sentinel, and every counter at its default. *)
Definition new_memtable : SkiplistMemtable :=
  {| nodes := [new_node [] kMaxHeight]; max_height_ := 1; entries_ := 0; tombstones_ := 0;
     ranges_ := []; range_count_ := 0; creation_time_ms_ := 0; sealed_time_ms_ := 0;
     watermark_ := no_watermark; rng_state_ := 0x2545F491 |}.

Definition node_at (s : SkiplistMemtable) (id : nat) : Node := default (new_node [] 0) (nodes s !! id).
Definition key_of (s : SkiplistMemtable) (id : nat) : bytes := n_key (node_at s id).
Definition height_of (s : SkiplistMemtable) (id : nat) : nat := n_height (node_at s id).
Definition value_of (s : SkiplistMemtable) (id : nat) : option Entry := n_value (node_at s id).
Definition next_of (s : SkiplistMemtable) (id lvl : nat) : option nat := mjoin (n_next (node_at s id) !! lvl).

Definition with_nodes (s : SkiplistMemtable) (ns : list Node) : SkiplistMemtable :=
  {| nodes := ns; max_height_ := max_height_ s; entries_ := entries_ s; tombstones_ := tombstones_ s;
     ranges_ := ranges_ s; range_count_ := range_count_ s; creation_time_ms_ := creation_time_ms_ s;
     sealed_time_ms_ := sealed_time_ms_ s; watermark_ := watermark_ s; rng_state_ := rng_state_ s |}.

(** [node->value.store] and [node->next[lvl].store]. *)
Definition store_value (e : Entry) (n : Node) : Node :=
  {| n_key := n_key n; n_value := Some e; n_height := n_height n; n_next := n_next n |}.
Definition store_next (lvl : nat) (to : option nat) (n : Node) : Node :=
  {| n_key := n_key n; n_value := n_value n; n_height := n_height n; n_next := <[lvl := to]> (n_next n) |}.

(** xorshift32. *)
Definition xorshift32 (x : Z) : Z :=
  let x := Z.lxor x (u32 (Z.shiftl x 13)) in
  let x := Z.lxor x (Z.shiftr x 17) in
  Z.lxor x (u32 (Z.shiftl x 5)).

(** The [while] of [random_height], from the current height. *)
Fixpoint height_loop (fuel height : nat) (bits : Z) : nat :=
  match fuel with
  | O => height
  | S fuel' =>
      if Nat.ltb height kMaxHeight && (Z.land bits 3 =? 0)
      then height_loop fuel' (S height) (Z.shiftr bits 2) else height
  end.

Definition random_height (rng : Z) : nat * Z :=
  let rng := xorshift32 rng in (height_loop kMaxHeight 1 rng, rng).

(** The descent of [find_greater_or_equal]: [prev] is the array of predecessors, one per level. *)
Fixpoint find_loop (fuel : nat) (s : SkiplistMemtable) (key : bytes) (node lvl : nat) (prev : list nat)
  : option nat * list nat :=
  match fuel with
  | O => (None, prev)
  | S fuel' =>
      let next := next_of s node lvl in
      let descend :=
        let prev := <[lvl := node]> prev in
        match lvl with
        | O => (next, prev)
        | S lvl' => find_loop fuel' s key node lvl' prev
        end in
      match next with
      | Some m => if key_of s m <?k key then find_loop fuel' s key m lvl prev else descend
      | None => descend
      end
  end.

Definition find_fuel (s : SkiplistMemtable) : nat := (length (nodes s) + max_height_ s)%nat.

Definition find_greater_or_equal (s : SkiplistMemtable) (key : bytes) : option nat * list nat :=
  find_loop (find_fuel s) s key 0 (max_height_ s - 1) (replicate kMaxHeight 0%nat).

(** One round of the splice loop of [insert]. *)
Definition splice (id : nat) (prev : list nat) (s : SkiplistMemtable) (i : nat) : SkiplistMemtable :=
  let p := default 0%nat (prev !! i) in
  with_nodes s (alter (store_next i (Some id)) p (alter (store_next i (next_of s p i)) id (nodes s))).

Definition is_delete (t : ValueType) : bool := match t with Delete => true | Put => false end.

Definition insert (s : SkiplistMemtable) (key : bytes) (type : ValueType) (value : bytes)
  : SkiplistMemtable :=
  let '(next, prev) := find_greater_or_equal s key in
  let hit := match next with Some m => if slice_eqb (key_of s m) key then Some m else None | None => None end in
  match hit with
  | Some m =>
      let was_delete := match value_of s m with Some (t, _) => is_delete t | None => false end in
      let s := with_nodes s (alter (store_value (type, value)) m (nodes s)) in
      let tombs := if Bool.eqb was_delete (is_delete type) then tombstones_ s
                   else u64 (tombstones_ s + (if is_delete type then 1 else 2 ^ 64 - 1)) in
      {| nodes := nodes s; max_height_ := max_height_ s; entries_ := entries_ s; tombstones_ := tombs;
         ranges_ := ranges_ s; range_count_ := range_count_ s; creation_time_ms_ := creation_time_ms_ s;
         sealed_time_ms_ := sealed_time_ms_ s; watermark_ := watermark_ s; rng_state_ := rng_state_ s |}
  | None =>
      let '(height, rng) := random_height (rng_state_ s) in
      let previous_height := max_height_ s in
      let prev :=
        if Nat.ltb previous_height height
        then fold_left (fun p i => <[i := 0%nat]> p) (seq previous_height (height - previous_height)) prev
        else prev in
      let id := length (nodes s) in
      let s' :=
        {| nodes := nodes s ++ [store_value (type, value) (new_node key height)];
           max_height_ := Nat.max previous_height height;
           entries_ := u64 (entries_ s + 1);
           tombstones_ := if is_delete type then u64 (tombstones_ s + 1) else tombstones_ s;
           ranges_ := ranges_ s; range_count_ := range_count_ s; creation_time_ms_ := creation_time_ms_ s;
           sealed_time_ms_ := sealed_time_ms_ s; watermark_ := watermark_ s; rng_state_ := rng |} in
      fold_left (splice id prev) (seq 0 height) s'
  end.

Definition put (s : SkiplistMemtable) (key value : bytes) : SkiplistMemtable := insert s key Put value.
Definition remove (s : SkiplistMemtable) (key : bytes) : SkiplistMemtable := insert s key Delete [].

(** The walk of [delete_range]: from [at], turn every entry below [upper] into a point delete. *)
Fixpoint cover_loop (fuel : nat) (s : SkiplistMemtable) (at_ : option nat) (upper : bytes)
  : SkiplistMemtable :=
  match fuel, at_ with
  | S fuel', Some id =>
      if negb (key_of s id <?k upper) then s
      else
        let s := match value_of s id with
                 | Some (Delete, _) => s
                 | _ => insert s (key_of s id) Delete []
                 end in
        cover_loop fuel' s (next_of s id 0) upper
  | _, _ => s
  end.

Definition delete_range (s : SkiplistMemtable) (lower upper : bytes) : SkiplistMemtable :=
  if negb (lower <?k upper) then s
  else
    let s := cover_loop (S (length (nodes s))) s (find_greater_or_equal s lower).1 upper in
    {| nodes := nodes s; max_height_ := max_height_ s; entries_ := entries_ s; tombstones_ := tombstones_ s;
       ranges_ := mkRange lower upper :: ranges_ s; range_count_ := u64 (range_count_ s + 1);
       creation_time_ms_ := creation_time_ms_ s; sealed_time_ms_ := sealed_time_ms_ s;
       watermark_ := watermark_ s; rng_state_ := rng_state_ s |}.

Definition range_deletes (s : SkiplistMemtable) (key : bytes) : bool :=
  existsb (fun r => (lower r <=?k key) && (key <?k upper r)) (ranges_ s).

Definition range_tombstones (s : SkiplistMemtable) : list RangeTombstone := merge_ranges (ranges_ s).

Definition get (s : SkiplistMemtable) (key : bytes) : option Entry :=
  match (find_greater_or_equal s key).1 with
  | Some m => if negb (slice_eqb (key_of s m) key) then None else value_of s m
  | None => None
  end.

Definition empty (s : SkiplistMemtable) : bool := (entries_ s =? 0) && (range_count_ s =? 0).

(** Forward iteration from a node: what [SkiplistIterator] yields under [next]. *)
Fixpoint iterate (fuel : nat) (s : SkiplistMemtable) (at_ : option nat) : list (bytes * Entry) :=
  match fuel, at_ with
  | S fuel', Some id =>
      (key_of s id, match value_of s id with Some e => e | None => (Put, []) end)
        :: iterate fuel' s (next_of s id 0)
  | _, _ => []
  end.

Definition ascending (s : SkiplistMemtable) : list (bytes * Entry) :=
  iterate (length (nodes s)) s (next_of s 0 0).

Definition ascending_from (s : SkiplistMemtable) (key : bytes) : list (bytes * Entry) :=
  iterate (length (nodes s)) s (find_greater_or_equal s key).1.

(** [find_less_than]: the same descent, answering the predecessor. *)
Fixpoint find_less_loop (fuel : nat) (s : SkiplistMemtable) (key : bytes) (node lvl : nat) : nat :=
  match fuel with
  | O => node
  | S fuel' =>
      let descend := match lvl with O => node | S lvl' => find_less_loop fuel' s key node lvl' end in
      match next_of s node lvl with
      | Some m => if key_of s m <?k key then find_less_loop fuel' s key m lvl else descend
      | None => descend
      end
  end.

Definition find_less_than (s : SkiplistMemtable) (key : bytes) : nat :=
  find_less_loop (find_fuel s) s key 0 (max_height_ s - 1).

Fixpoint find_last_loop (fuel : nat) (s : SkiplistMemtable) (node lvl : nat) : nat :=
  match fuel with
  | O => node
  | S fuel' =>
      match next_of s node lvl with
      | Some m => find_last_loop fuel' s m lvl
      | None => match lvl with O => node | S lvl' => find_last_loop fuel' s node lvl' end
      end
  end.

Definition find_last (s : SkiplistMemtable) : nat :=
  find_last_loop (find_fuel s) s 0 (max_height_ s - 1).

(** ** The invariant

    [L] is the list of nodes in key order. A node of height [h] takes part in the chains of the
    levels below [h], and its link at a level is the next node of [L] tall enough for it. *)

Definition taller (s : SkiplistMemtable) (i : nat) (m : nat) : bool := Nat.ltb i (height_of s m).

Definition entry_ok (e : Entry) : Prop := e.1 = Delete -> e.2 = [].

Record wf (s : SkiplistMemtable) (L : list nat) : Prop := {
  wf_head : height_of s 0 = kMaxHeight;
  wf_max : (1 <= max_height_ s <= kMaxHeight)%nat;
  wf_nodes : L ≡ₚ seq 1 (length (nodes s) - 1);
  wf_some : (0 < length (nodes s))%nat;
  wf_heights : forall id, id ∈ L -> (1 <= height_of s id <= max_height_ s)%nat;
  wf_width : forall id, (id < length (nodes s))%nat -> length (n_next (node_at s id)) = height_of s id;
  wf_sorted : StronglySorted (fun a b => key_of s a <k key_of s b) L;
  wf_values : forall id, id ∈ L -> exists e, value_of s id = Some e /\ entry_ok e;
  wf_links : forall pre n post, 0%nat :: L = pre ++ n :: post ->
    forall i, (i < height_of s n)%nat -> next_of s n i = head (List.filter (taller s i) post)
}.

Lemma wf_bound s L id : wf s L -> id ∈ 0%nat :: L -> (id < length (nodes s))%nat.
Proof.
  intros Hw [->|Hin]%elem_of_cons; [apply Hw|]. rewrite (wf_nodes _ _ Hw), elem_of_seq in Hin. lia.
Qed.

Lemma wf_nodup s L : wf s L -> NoDup (0%nat :: L).
Proof.
  intros Hw. rewrite (wf_nodes _ _ Hw). apply NoDup_cons. split; [rewrite elem_of_seq; lia|apply NoDup_seq].
Qed.

(** A position in the chain starting at the sentinel. *)
Lemma split_head {A} (x : A) L pre n post :
  x :: L = pre ++ n :: post ->
  (pre = [] /\ n = x /\ post = L) \/ exists pre', pre = x :: pre' /\ L = pre' ++ n :: post.
Proof. destruct pre as [|y pre]; simpl; intros [= -> H]; [left|right]; eauto. Qed.

Lemma wf_sorted_post s L pre n post :
  wf s L -> 0%nat :: L = pre ++ n :: post ->
  StronglySorted (fun a b => key_of s a <k key_of s b) post /\
  (forall m, m ∈ post -> n <> 0%nat -> key_of s n <k key_of s m) /\
  (forall m, m ∈ pre -> m <> 0%nat -> n <> 0%nat -> key_of s m <k key_of s n).
Proof.
  intros Hw Hsplit. pose proof (wf_sorted _ _ Hw) as Hs.
  destruct (split_head _ _ _ _ _ Hsplit) as [(-> & -> & ->)|(pre' & -> & ->)].
  - split_and!; [done|done|set_solver].
  - pose proof Hs as Hall. apply StronglySorted_app_1_r in Hs. inversion_clear Hs as [|? ? Hs' Hf].
    rewrite Forall_forall in Hf. split_and!; [done|auto|].
    intros m [->|Hm]%elem_of_cons ??; [done|]. 
    apply (StronglySorted_app_1_elem_of (fun a b => key_of s a <k key_of s b) pre' (n :: post)); [done|done|set_solver].
Qed.

(** [n] is the last node tall enough for level [i] whose key is below [key]. *)
Definition is_pred (s : SkiplistMemtable) (L : list nat) (key : bytes) (i n : nat) : Prop :=
  exists pre post, 0%nat :: L = pre ++ n :: post /\ (i < height_of s n)%nat /\
    (n = 0%nat \/ key_of s n <k key) /\
    forall m, m ∈ post -> (i < height_of s m)%nat -> key <=k key_of s m.

Definition at_or_after (s : SkiplistMemtable) (key : bytes) (m : nat) : bool := negb (key_of s m <?k key).

(** Where a chain meets its first key at or above the target, every later node of it is too. *)
Lemma stop_pred s L key pre n post i :
  wf s L -> 0%nat :: L = pre ++ n :: post -> (i < height_of s n)%nat ->
  (n = 0%nat \/ key_of s n <k key) ->
  (forall m, next_of s n i = Some m -> key <=k key_of s m) -> is_pred s L key i n.
Proof.
  intros Hw Hsplit Hi Hn Hnext. exists pre, post. split_and!; [done..|]. intros m Hm Ht.
  destruct (wf_sorted_post _ _ _ _ _ Hw Hsplit) as (Hs & _ & _).
  rewrite (wf_links _ _ Hw _ _ _ Hsplit i Hi) in Hnext.
  apply (StronglySorted_filter_bool _ (taller s i)) in Hs.
  assert (m ∈ List.filter (taller s i) post) as Hmf.
  { apply elem_of_filter_bool. split; [done|]. by apply Nat.ltb_lt. }
  destruct (List.filter (taller s i) post) as [|a l]; [by apply elem_of_nil in Hmf|].
  specialize (Hnext a eq_refl). apply elem_of_cons in Hmf as [->|Hmf]; [done|].
  inversion_clear Hs as [|? ? _ Hf]. rewrite Forall_forall in Hf. specialize (Hf _ Hmf). simpl in Hf. key_order.
Qed.

(** At level 0 the predecessor splits the list: what follows it is what is at or after the key. *)
Lemma split_at_pred s L key pre n post :
  wf s L -> 0%nat :: L = pre ++ n :: post -> (n = 0%nat \/ key_of s n <k key) ->
  (forall m, m ∈ post -> key <=k key_of s m) -> List.filter (at_or_after s key) L = post.
Proof.
  intros Hw Hsplit Hn Hpost. destruct (wf_sorted_post _ _ _ _ _ Hw Hsplit) as (_ & _ & Hpre).
  assert (List.filter (at_or_after s key) post = post) as Epost.
  { apply filter_all. intros m Hm. apply Hpost in Hm. unfold at_or_after. key_order. }
  destruct (split_head _ _ _ _ _ Hsplit) as [(-> & -> & ->)|(pre' & -> & ->)]; [done|].
  pose proof (wf_nodup _ _ Hw) as [Hnot _]%NoDup_cons. rewrite elem_of_app, elem_of_cons in Hnot.
  destruct Hn as [->|Hn]; [tauto|]. rewrite List.filter_app, filter_none.
  - simpl. unfold at_or_after at 1. by rewrite (proj2 (key_ltb_lt _ _) Hn).
  - intros m Hm. unfold at_or_after. assert (key_of s m <k key_of s n); [|key_order].
    apply Hpre; [by right|intros ->; tauto|intros ->; tauto].
Qed.

Lemma pred_zero s L key n :
  wf s L -> is_pred s L key 0 n ->
  next_of s n 0 = head (List.filter (at_or_after s key) L) /\
  exists pre, 0%nat :: L = pre ++ n :: List.filter (at_or_after s key) L.
Proof.
  intros Hw (pre & post & Hsplit & Hi & Hn & Hpost).
  assert (forall m, m ∈ post -> (0 < height_of s m)%nat) as Hin.
  { intros m Hm. enough (1 <= height_of s m <= max_height_ s)%nat by lia. apply (wf_heights _ L Hw).
    destruct (split_head _ _ _ _ _ Hsplit) as [(-> & -> & ->)|(pre' & -> & ->)]; [done|].
    rewrite elem_of_app, elem_of_cons. auto. }
  rewrite (split_at_pred s L key pre n post) by eauto. split; [|by exists pre].
  rewrite (wf_links _ _ Hw _ _ _ Hsplit 0%nat Hi). f_equal. apply filter_all.
  intros m Hm. by apply Nat.ltb_lt, Hin.
Qed.

(** Following a link at a level moves along the list to a node tall enough for the level. *)
Lemma next_split s L pre node post lvl m :
  wf s L -> 0%nat :: L = pre ++ node :: post -> (lvl < height_of s node)%nat -> next_of s node lvl = Some m ->
  exists a b, post = a ++ m :: b /\ (lvl < height_of s m)%nat.
Proof.
  intros Hw Hsplit Hl Enext. rewrite (wf_links _ _ Hw _ _ _ Hsplit lvl Hl) in Enext.
  assert (m ∈ List.filter (taller s lvl) post) as [Hm Ht]%elem_of_filter_bool.
  { destruct (List.filter (taller s lvl) post); simplify_eq/=. by left. }
  apply Nat.ltb_lt in Ht. apply list_elem_of_split in Hm as (a & b & ->). by exists a, b.
Qed.

Lemma find_loop_spec s L key fuel node lvl prev pre post :
  wf s L -> 0%nat :: L = pre ++ node :: post -> (lvl < height_of s node)%nat ->
  (node = 0%nat \/ key_of s node <k key) -> (length post + lvl < fuel)%nat -> (lvl < length prev)%nat ->
  let r := find_loop fuel s key node lvl prev in
  r.1 = head (List.filter (at_or_after s key) L) /\ length r.2 = length prev /\
  (forall i, (lvl < i)%nat -> r.2 !! i = prev !! i) /\
  (forall i, (i <= lvl)%nat -> exists n, r.2 !! i = Some n /\ is_pred s L key i n).
Proof.
  intros Hw. revert node lvl prev pre post.
  induction fuel as [|fuel IH]; intros node lvl prev pre post Hsplit Hl Hn Hf Hp; [lia|].
  assert ((forall m, next_of s node lvl = Some m -> key <=k key_of s m) ->
    let r := match lvl with
             | O => (next_of s node lvl, <[lvl := node]> prev)
             | S lvl' => find_loop fuel s key node lvl' (<[lvl := node]> prev)
             end in
    r.1 = head (List.filter (at_or_after s key) L) /\ length r.2 = length prev /\
    (forall i, (lvl < i)%nat -> r.2 !! i = prev !! i) /\
    (forall i, (i <= lvl)%nat -> exists n, r.2 !! i = Some n /\ is_pred s L key i n)) as Hdesc.
  { intros Hstop. pose proof (stop_pred _ _ _ _ _ _ _ Hw Hsplit Hl Hn Hstop) as Hpred.
    destruct lvl as [|lvl]; cbn [fst snd].
    - destruct (pred_zero _ _ _ _ Hw Hpred) as [E _]. split_and!; [done|by rewrite length_insert| |].
      + intros i Hi. by rewrite list_lookup_insert_ne by lia.
      + intros i Hi. replace i with 0%nat by lia. exists node. by rewrite list_lookup_insert_eq.
    - destruct (IH node lvl (<[S lvl := node]> prev) pre post) as (E1 & E2 & E3 & E4); try done; try lia.
      { rewrite length_insert. lia. }
      rewrite length_insert in E2. split_and!; [done|done| |].
      + intros i Hi. rewrite E3 by lia. by rewrite list_lookup_insert_ne by lia.
      + intros i Hi. destruct (decide (i = S lvl)) as [->|]; [|apply E4; lia].
        exists node. rewrite E3 by lia. by rewrite list_lookup_insert_eq. }
  cbn [find_loop]. destruct (next_of s node lvl) as [m|] eqn:Enext; [|by apply Hdesc].
  destruct (key_of s m <?k key) eqn:Ek; [|apply Hdesc; intros ? [= <-]; key_order].
  destruct (next_split s L pre node post lvl m Hw Hsplit Hl Enext) as (a & b & -> & Ht).
  apply (IH m lvl prev (pre ++ node :: a) b); try done.
  - rewrite Hsplit. by rewrite <- app_assoc.
  - right. key_order.
  - rewrite length_app in Hf. simpl in Hf. lia.
Qed.

Lemma find_spec s L key :
  wf s L ->
  let r := find_greater_or_equal s key in
  r.1 = head (List.filter (at_or_after s key) L) /\ length r.2 = kMaxHeight /\
  (forall i, (i < max_height_ s)%nat -> exists n, r.2 !! i = Some n /\ is_pred s L key i n).
Proof.
  intros Hw. cbv zeta. unfold find_greater_or_equal. pose proof (wf_max _ _ Hw).
  assert (length L + 1 = length (nodes s))%nat.
  { rewrite (wf_nodes _ _ Hw), length_seq. pose proof (wf_some _ _ Hw). lia. }
  destruct (find_loop_spec s L key (find_fuel s) 0 (max_height_ s - 1) (replicate kMaxHeight 0%nat) [] L)
    as (E1 & E2 & _ & E4); try done.
  - rewrite (wf_head _ _ Hw). lia.
  - by left.
  - unfold find_fuel. lia.
  - rewrite length_replicate. lia.
  - split_and!; [done|by rewrite E2, length_replicate|]. intros i Hi. apply E4. lia.
Qed.

(** ** What the list holds *)

Definition pair_of (s : SkiplistMemtable) (id : nat) : bytes * Entry :=
  (key_of s id, default (Put, []) (value_of s id)).

Definition contents (s : SkiplistMemtable) (L : list nat) : list (bytes * Entry) := map (pair_of s) L.

Definition mt_map (s : SkiplistMemtable) (L : list nat) : gmap bytes Entry := list_to_map (contents s L).

Lemma wf_keys_nodup s L : wf s L -> NoDup ((contents s L).*1).
Proof.
  intros Hw. pose proof (wf_sorted _ _ Hw) as Hs. clear Hw. unfold contents.
  induction Hs as [|a L Hs IH Hf]; simpl; [constructor|]. apply NoDup_cons. split; [|done].
  intros (p & E & (id & -> & Hid)%list_elem_of_fmap)%list_elem_of_fmap. rewrite Forall_forall in Hf.
  apply Hf in Hid. simpl in E. rewrite E in Hid. simpl in Hid. key_order.
Qed.

Lemma mt_map_lookup s L k e :
  wf s L -> mt_map s L !! k = Some e <-> exists id, id ∈ L /\ key_of s id = k /\ value_of s id = Some e.
Proof.
  intros Hw. unfold mt_map. rewrite <- elem_of_list_to_map by (by apply wf_keys_nodup).
  unfold contents. rewrite list_elem_of_fmap. split.
  - intros (id & E & Hid). exists id. injection E as -> ->. split_and!; [done..|].
    by destruct (wf_values _ _ Hw id Hid) as (e & -> & _).
  - intros (id & Hid & <- & E). exists id. split; [|done]. unfold pair_of. by rewrite E.
Qed.

Lemma key_inj s L a b : wf s L -> a ∈ L -> b ∈ L -> key_of s a = key_of s b -> a = b.
Proof.
  intros Hw Ha Hb E. apply list_elem_of_lookup in Ha as [i Hi], Hb as [j Hj].
  pose proof (wf_sorted _ _ Hw) as Hs.
  destruct (Nat.lt_trichotomy i j) as [H|[->|H]]; [|congruence|].
  - pose proof (StronglySorted_lookup_lt _ _ _ _ _ _ Hs H Hi Hj) as Hlt. simpl in Hlt. key_order.
  - pose proof (StronglySorted_lookup_lt _ _ _ _ _ _ Hs H Hj Hi) as Hlt. simpl in Hlt. key_order.
Qed.

(** The node [find_greater_or_equal] answers holds the key, or no node does. *)
Lemma find_hit s L key m :
  wf s L -> head (List.filter (at_or_after s key) L) = Some m ->
  m ∈ L /\ (key_of s m = key \/ forall id, id ∈ L -> key_of s id <> key).
Proof.
  intros Hw Hh. pose proof (head_filter_Some _ _ _ Hh) as [Hm Ha]. split; [done|].
  destruct (decide (key_of s m = key)) as [|Hne]; [by left|right]. intros id Hid E.
  pose proof (wf_sorted _ _ Hw) as Hs. apply (StronglySorted_filter_bool _ (at_or_after s key)) in Hs.
  assert (id ∈ List.filter (at_or_after s key) L) as Hin.
  { apply elem_of_filter_bool. split; [done|]. unfold at_or_after. rewrite E. key_order. }
  destruct (List.filter (at_or_after s key) L) as [|a l]; simplify_eq/=.
  apply elem_of_cons in Hin as [->|Hin]; [done|]. inversion_clear Hs as [|? ? _ Hf].
  rewrite Forall_forall in Hf. specialize (Hf _ Hin). simpl in Hf. unfold at_or_after in Ha. key_order.
Qed.

Lemma find_miss s L key :
  head (List.filter (at_or_after s key) L) = None -> forall id, id ∈ L -> key_of s id <> key.
Proof.
  intros Hh id Hid E. assert (id ∈ List.filter (at_or_after s key) L) as Hin.
  { apply elem_of_filter_bool. split; [done|]. unfold at_or_after. rewrite E. key_order. }
  destruct (List.filter (at_or_after s key) L); [by apply elem_of_nil in Hin|done].
Qed.

Lemma get_map s L key : wf s L -> get s key = mt_map s L !! key.
Proof.
  intros Hw. unfold get. destruct (find_spec s L key Hw) as (-> & _ & _).
  apply option_eq. intros e. rewrite (mt_map_lookup _ _ _ _ Hw).
  destruct (head _) as [m|] eqn:E.
  - destruct (find_hit _ _ _ _ Hw E) as [Hm [Hk|Hno]].
    + rewrite Hk, (proj2 (slice_eqb_eq _ _) eq_refl). simpl. split; [intros ?; by exists m|].
      intros (id & Hid & Hk' & Hv). by rewrite (key_inj _ _ m id Hw Hm Hid) by congruence.
    + destruct (slice_eqb (key_of s m) key) eqn:Eq; simpl.
      * apply slice_eqb_eq in Eq. by apply Hno in Eq.
      * split; [done|]. intros (id & Hid & Hk & _). by apply Hno in Hk.
  - split; [done|]. intros (id & Hid & Hk & _). by eapply find_miss in E.
Qed.

(** *** Replacing a value *)

Definition same_shape (s s' : SkiplistMemtable) : Prop :=
  length (nodes s') = length (nodes s) /\ max_height_ s' = max_height_ s /\
  forall id, key_of s' id = key_of s id /\ height_of s' id = height_of s id /\
             n_next (node_at s' id) = n_next (node_at s id).

Lemma same_shape_wf s s' L :
  same_shape s s' -> (forall id, id ∈ L -> exists e, value_of s' id = Some e /\ entry_ok e) -> wf s L -> wf s' L.
Proof.
  intros (Hlen & Hmax & Hn) Hv Hw.
  assert (forall id, key_of s' id = key_of s id) as Hk by (intros; apply Hn).
  assert (forall id, height_of s' id = height_of s id) as Hh by (intros; apply Hn).
  split; rewrite ?Hlen, ?Hmax; try (by apply Hw); try done.
  - rewrite Hh. apply Hw.
  - intros id Hid. rewrite Hh. by apply Hw.
  - intros id Hid. rewrite Hh. rewrite (proj2 (proj2 (Hn id))). by apply Hw.
  - pose proof (wf_sorted _ _ Hw) as Hs. clear -Hs Hk. induction Hs as [|a l Hs IH Hf]; constructor; [done|].
    eapply Forall_impl; [exact Hf|]. simpl. intros b. by rewrite !Hk.
  - intros pre n post Hsplit i Hi. rewrite Hh in Hi. unfold next_of. rewrite (proj2 (proj2 (Hn n))).
    fold (next_of s n i). rewrite (wf_links _ _ Hw _ _ _ Hsplit i Hi). f_equal. apply filter_ext.
    intros m. unfold taller. by rewrite Hh.
Qed.

Lemma node_at_alter (f : Node -> Node) s s' m id :
  nodes s' = alter f m (nodes s) -> (m < length (nodes s))%nat ->
  node_at s' id = if decide (m = id) then f (node_at s id) else node_at s id.
Proof.
  intros E Hm. unfold node_at. rewrite E. case_decide as Hd.
  - subst id. rewrite list_lookup_alter_eq. by destruct (lookup_lt_is_Some_2 _ _ Hm) as [n ->].
  - by rewrite list_lookup_alter_ne.
Qed.

Lemma store_value_step s s' L m key e :
  wf s L -> m ∈ L -> key_of s m = key -> entry_ok e ->
  nodes s' = alter (store_value e) m (nodes s) -> max_height_ s' = max_height_ s ->
  wf s' L /\ mt_map s' L = <[key := e]> (mt_map s L).
Proof.
  intros Hw Hm Hk He Hn Hmax.
  assert (m < length (nodes s))%nat as Hlt by (eapply wf_bound; [done|by right]).
  assert (forall id, node_at s' id = if decide (m = id) then store_value e (node_at s id) else node_at s id) as Hat
    by (intros; by apply node_at_alter).
  assert (same_shape s s') as Hsh.
  { split_and!; [by rewrite Hn, length_alter|done|]. intros id. unfold key_of, height_of. rewrite Hat. by case_decide. }
  assert (forall id, value_of s' id = if decide (m = id) then Some e else value_of s id) as Hv
    by (intros id; unfold value_of; rewrite Hat; by case_decide).
  assert (wf s' L) as Hw'.
  { apply (same_shape_wf s); [done| |done]. intros id Hid. rewrite Hv. case_decide; [by exists e|by apply Hw]. }
  split; [done|]. destruct Hsh as (_ & _ & Hsh). apply map_eq. intros k. apply option_eq. intros e'.
  rewrite (mt_map_lookup _ _ _ _ Hw'), lookup_insert_Some, (mt_map_lookup _ _ _ _ Hw). split.
  - intros (id & Hid & <- & E). rewrite Hv in E. rewrite (proj1 (Hsh id)). case_decide; simplify_eq; [by left|].
    right. split; [|by exists id]. intros E'. eauto using key_inj.
  - intros [[<- <-]|[Hne (id & Hid & <- & E)]].
    + exists m. rewrite Hv, decide_True by done. by rewrite (proj1 (Hsh m)).
    + exists id. rewrite (proj1 (Hsh id)), Hv, decide_False by congruence. done.
Qed.

(** *** Splicing a node in *)

Lemma next_of_store s s' m x i j to :
  nodes s' = alter (store_next i to) m (nodes s) -> (m < length (nodes s))%nat ->
  (i < length (n_next (node_at s m)))%nat ->
  next_of s' x j = if decide (x = m /\ j = i) then to else next_of s x j.
Proof.
  intros E Hm Hi. unfold next_of. rewrite (node_at_alter _ _ _ _ x E Hm).
  destruct (decide (m = x)) as [<-|Hne]; simpl.
  - destruct (decide (j = i)) as [->|Hj].
    + rewrite list_lookup_insert_eq by done. by rewrite decide_True by done.
    + rewrite list_lookup_insert_ne by done. rewrite decide_False; [done|]. tauto.
  - rewrite decide_False; [done|]. intros [-> _]. done.
Qed.

(** Two states with the same nodes up to links. *)
Definition same_nodes (s s' : SkiplistMemtable) : Prop :=
  length (nodes s') = length (nodes s) /\ max_height_ s' = max_height_ s /\
  entries_ s' = entries_ s /\ tombstones_ s' = tombstones_ s /\ ranges_ s' = ranges_ s /\
  range_count_ s' = range_count_ s /\ watermark_ s' = watermark_ s /\
  forall id, key_of s' id = key_of s id /\ height_of s' id = height_of s id /\
             value_of s' id = value_of s id /\ length (n_next (node_at s' id)) = length (n_next (node_at s id)).

Lemma store_next_same s m i to :
  (m < length (nodes s))%nat -> same_nodes s (with_nodes s (alter (store_next i to) m (nodes s))).
Proof.
  intros Hm. unfold same_nodes. split_and!; try done; [simpl; by rewrite length_alter|].
  intros id. unfold key_of, height_of, value_of.
  rewrite (node_at_alter (store_next i to) s _ m id) by done.
  case_decide; simpl; [by rewrite length_insert|done].
Qed.

Lemma same_nodes_trans s1 s2 s3 : same_nodes s1 s2 -> same_nodes s2 s3 -> same_nodes s1 s3.
Proof.
  unfold same_nodes. intros (? & ? & ? & ? & ? & ? & ? & H) (? & ? & ? & ? & ? & ? & ? & H'). split_and!; try congruence.
  intros id. destruct (H id) as (? & ? & ? & ?), (H' id) as (? & ? & ? & ?). split_and!; congruence.
Qed.

Lemma splice_spec s id prev i p :
  prev !! i = Some p -> p <> id -> (p < length (nodes s))%nat -> (id < length (nodes s))%nat ->
  (i < length (n_next (node_at s p)))%nat -> (i < length (n_next (node_at s id)))%nat ->
  same_nodes s (splice id prev s i) /\
  forall x j, next_of (splice id prev s i) x j =
    if decide (j = i /\ x = p) then Some id
    else if decide (j = i /\ x = id) then next_of s p i else next_of s x j.
Proof.
  intros Hp Hne Hlp Hlid Hip Hiid. unfold splice. rewrite Hp. simpl.
  set (s1 := with_nodes s (alter (store_next i (next_of s p i)) id (nodes s))).
  assert (same_nodes s s1) as H1 by (by apply store_next_same).
  destruct (H1) as (Hlen & _ & _ & _ & _ & _ & _ & Hat). destruct (Hat p) as (_ & _ & _ & Hw).
  change (with_nodes s (alter (store_next i (Some id)) p (alter (store_next i (next_of s p i)) id (nodes s))))
    with (with_nodes s1 (alter (store_next i (Some id)) p (nodes s1))).
  split.
  - eapply same_nodes_trans; [exact H1|]. apply store_next_same. by rewrite Hlen.
  - intros x j. rewrite (next_of_store s1 _ p x i j (Some id)) by (done || congruence || lia).
    rewrite (next_of_store s s1 id x i j (next_of s p i)) by done.
    repeat case_decide; try tauto; naive_solver.
Qed.

(** The loop over the levels of the new node. *)
Lemma splice_loop_spec s id prev height k :
  (k <= height)%nat -> (id < length (nodes s))%nat -> length (n_next (node_at s id)) = height ->
  (forall i, (i < height)%nat -> exists p, prev !! i = Some p /\ p <> id /\ (p < length (nodes s))%nat /\
     (i < length (n_next (node_at s p)))%nat) ->
  let s' := fold_left (splice id prev) (seq 0 k) s in
  same_nodes s s' /\
  forall x j, next_of s' x j =
    if decide (j < k)%nat then
      if decide (prev !! j = Some x) then Some id
      else if decide (x = id) then next_of s (default 0%nat (prev !! j)) j else next_of s x j
    else next_of s x j.
Proof.
  intros Hk Hid Hw Hprev. cbv zeta. induction k as [|k IH].
  - split; [|intros; by rewrite decide_False by lia]. unfold same_nodes. by split_and!.
  - rewrite seq_S, fold_left_app, Nat.add_0_l. cbn [fold_left]. destruct IH as [Hsame Hnext]; [lia|].
    set (sk := fold_left (splice id prev) (seq 0 k) s) in *.
    destruct (Hprev k) as (p & Hp & Hne & Hlp & Hip); [lia|].
    destruct Hsame as (Hlen & Hrest). pose proof (proj2 (proj2 (proj2 (proj2 (proj2 (proj2 Hrest)))))) as Hat.
    destruct (splice_spec sk id prev k p) as [Hs Hn]; try done; try (rewrite Hlen; done).
    { destruct (Hat p) as (_ & _ & _ & ->). done. } { destruct (Hat id) as (_ & _ & _ & ->). lia. }
    split; [eapply same_nodes_trans; [exact (conj Hlen Hrest)|done]|].
    intros x j. rewrite Hn, !Hnext. destruct (decide (j = k)) as [->|Hj].
    + rewrite (decide_True (P := (k < S k)%nat)), Hp by lia. simpl.
      rewrite !(decide_False (P := (k < k)%nat)) by lia. repeat case_decide; try tauto; naive_solver.
    + rewrite !(decide_False (P := j = k /\ _)) by tauto.
      destruct (decide (j < k)%nat), (decide (j < S k)%nat); try lia; done.
Qed.

(** What follows a level's predecessor, as far as that level is concerned, is what is at or after
    the key. *)
Lemma pred_filter s L key i n pre post :
  wf s L -> 0%nat :: L = pre ++ n :: post -> (n = 0%nat \/ key_of s n <k key) ->
  (forall m, m ∈ post -> (i < height_of s m)%nat -> key <=k key_of s m) ->
  List.filter (taller s i) post = List.filter (taller s i) (List.filter (at_or_after s key) L).
Proof.
  intros Hw Hsplit Hn Hpost.
  assert (List.filter (at_or_after s key) L = List.filter (at_or_after s key) post) as ->.
  { destruct (split_head _ _ _ _ _ Hsplit) as [(-> & -> & ->)|(pre' & -> & HL)]; [done|].
    pose proof (wf_nodup _ _ Hw) as [Hnot _]%NoDup_cons. rewrite HL, elem_of_app, elem_of_cons in Hnot.
    destruct Hn as [->|Hn]; [tauto|]. destruct (wf_sorted_post _ _ _ _ _ Hw Hsplit) as (_ & _ & Hpre).
    rewrite HL, List.filter_app, (filter_none _ pre').
    - simpl. unfold at_or_after at 1. by rewrite (proj2 (key_ltb_lt _ _) Hn).
    - intros m Hm. unfold at_or_after. assert (key_of s m <k key_of s n); [|key_order].
      apply Hpre; [by right|intros ->; tauto|intros ->; tauto]. }
  rewrite filter_filter. apply filter_ext_in. intros m Hm%list_elem_of_In.
  destruct (taller s i m) eqn:Et; [|by rewrite andb_false_r]. apply Nat.ltb_lt in Et.
  unfold at_or_after. specialize (Hpost m Hm Et). destruct (key_of s m <?k key) eqn:?; [key_order|done].
Qed.

(** The new list of nodes, [id] placed between the smaller and the larger keys. *)
Section Splice.
Context (s s' : SkiplistMemtable) (L : list nat) (key : bytes) (id height : nat) (prev : list nat).

Hypothesis (Hw : wf s L).
Hypothesis (Hid : id = length (nodes s)).
Hypothesis (Hlen : length (nodes s') = S (length (nodes s))).
Hypothesis (Hold : forall x, x <> id -> key_of s' x = key_of s x /\ height_of s' x = height_of s x /\
  value_of s' x = value_of s x).
Hypothesis (Hnew : key_of s' id = key /\ height_of s' id = height).
Hypothesis (Habsent : forall x, x ∈ L -> key_of s x <> key).
Hypothesis (Hprev : forall i, (i < height)%nat -> exists p, prev !! i = Some p /\ is_pred s L key i p).
Hypothesis (Hnext : forall x j, next_of s' x j =
  if decide (j < height)%nat then
    if decide (prev !! j = Some x) then Some id
    else if decide (x = id) then next_of s (default 0%nat (prev !! j)) j else next_of s x j
  else next_of s x j).

Definition Lt_part : list nat := List.filter (fun m => key_of s m <?k key) L.
Definition Ge_part : list nat := List.filter (at_or_after s key) L.
Definition L_new : list nat := Lt_part ++ id :: Ge_part.

Lemma id_fresh : id ∉ 0%nat :: L.
Proof. intros Hin%(wf_bound _ _ _ Hw). rewrite Hid in Hin. by apply Nat.lt_irrefl in Hin. Qed.

Lemma parts_split : L = Lt_part ++ Ge_part.
Proof.
  unfold Lt_part, Ge_part. pose proof (wf_sorted _ _ Hw) as Hs.
  assert (partitioned (fun m => key_of s m <?k key) L) as Hp.
  { eapply partitioned_sorted; [exact Hs|]. simpl. intros; key_order. }
  destruct (partitioned_filter _ _ Hp) as [E1 E2]. unfold at_or_after. rewrite E1, E2. by rewrite take_drop.
Qed.

Lemma elem_Lt x : x ∈ Lt_part <-> x ∈ L /\ key_of s x <k key.
Proof. unfold Lt_part. by rewrite elem_of_filter_bool, key_ltb_lt. Qed.

Lemma elem_Ge x : x ∈ Ge_part <-> x ∈ L /\ key <=k key_of s x.
Proof. unfold Ge_part, at_or_after. by rewrite elem_of_filter_bool, negb_true_iff, key_ltb_ge. Qed.

Lemma elem_ne x : x ∈ 0%nat :: L -> x <> id.
Proof. intros H ->. by apply id_fresh. Qed.

Lemma taller_old i l : (forall x, x ∈ l -> x ∈ 0%nat :: L) ->
  List.filter (taller s' i) l = List.filter (taller s i) l.
Proof.
  intros Hl. apply filter_ext_in. intros x Hx%list_elem_of_In. unfold taller.
  by destruct (Hold x (elem_ne x (Hl x Hx))) as (_ & -> & _).
Qed.

Lemma Lt_in x : x ∈ Lt_part -> x ∈ 0%nat :: L.
Proof. rewrite elem_Lt, elem_of_cons. tauto. Qed.

Lemma Ge_in x : x ∈ Ge_part -> x ∈ 0%nat :: L.
Proof. rewrite elem_Ge, elem_of_cons. tauto. Qed.

(** The links of a node before the insertion point. *)
Lemma links_before pre n post1 i :
  0%nat :: Lt_part = pre ++ n :: post1 -> (i < height_of s n)%nat ->
  next_of s' n i = head (List.filter (taller s' i) (post1 ++ id :: Ge_part)).
Proof.
  intros Hsplit Hi.
  assert (0%nat :: L = pre ++ n :: (post1 ++ Ge_part)) as Hs0.
  { rewrite parts_split at 1. rewrite app_comm_cons, Hsplit. by rewrite <- app_assoc. }
  assert (n ∈ 0%nat :: L) as Hn0 by (rewrite Hs0, elem_of_app, elem_of_cons; auto).
  assert (forall x, x ∈ post1 -> x ∈ Lt_part) as Hp1.
  { intros x Hx. destruct (split_head _ _ _ _ _ Hsplit) as [(-> & -> & ->)|(p' & -> & ->)]; [done|].
    rewrite elem_of_app, elem_of_cons. auto. }
  rewrite Hnext, List.filter_app. simpl. rewrite (taller_old i post1) by (intros; by apply Lt_in, Hp1).
  rewrite (taller_old i Ge_part) by apply Ge_in. unfold taller at 2. destruct Hnew as [_ ->].
  pose proof (wf_links _ _ Hw _ _ _ Hs0 i Hi) as Hlink. rewrite List.filter_app in Hlink.
  destruct (decide (i < height)%nat) as [Hih|Hih]; [rewrite (proj2 (Nat.ltb_lt _ _) Hih)
    |by rewrite (proj2 (Nat.ltb_ge i height)) by lia].
  destruct (Hprev i Hih) as (p & Hp & pre_p & post_p & Hsp & Htp & Hkp & Hpp). rewrite Hp.
  destruct (decide (Some p = Some n)) as [[= ->]|Hne].
  - destruct (NoDup_split_unique n pre (post1 ++ Ge_part) pre_p post_p) as [<- <-].
    { rewrite <- Hs0. by apply (wf_nodup _ _ Hw). } { by rewrite <- Hs0, <- Hsp. }
    rewrite (filter_none _ post1); [done|]. intros x Hx. apply Nat.ltb_ge, Nat.le_ngt. intros Hti.
    specialize (Hpp x). rewrite elem_of_app in Hpp. specialize (Hpp ltac:(auto) Hti).
    apply Hp1, elem_Lt in Hx as [_ ?]. key_order.
  - rewrite decide_False by (by apply elem_ne). rewrite Hlink.
    assert (p ∈ List.filter (taller s i) post1) as Hin; [|by destruct (List.filter (taller s i) post1); [apply elem_of_nil in Hin|]].
    apply elem_of_filter_bool. split; [|by apply Nat.ltb_lt].
    assert (p ∈ pre ++ n :: (post1 ++ Ge_part)) as Hpin by (rewrite <- Hs0, Hsp, elem_of_app, elem_of_cons; auto).
    rewrite elem_of_app, elem_of_cons, elem_of_app in Hpin. destruct Hpin as [Hpre|[->|[?|Hge]]]; [|done|done|].
    + exfalso. apply list_elem_of_split in Hpre as (a & b & ->).
      rewrite <- app_assoc in Hs0. simpl in Hs0.
      destruct (NoDup_split_unique p a (b ++ n :: post1 ++ Ge_part) pre_p post_p) as [<- <-].
      { rewrite <- Hs0. by apply (wf_nodup _ _ Hw). } { by rewrite <- Hs0, <- Hsp. }
      assert (n ∈ b ++ n :: post1 ++ Ge_part) as Hnb by (rewrite elem_of_app, elem_of_cons; auto).
      specialize (Hpp n Hnb Hi). assert (n ∈ Lt_part) as [_ ?]%elem_Lt; [|key_order].
      destruct a; simpl in Hsplit; injection Hsplit as _ ->; rewrite ?elem_of_app, ?elem_of_cons; auto.
    + exfalso. apply elem_Ge in Hge as [Hpl ?]. pose proof (wf_nodup _ _ Hw) as [Hnot _]%NoDup_cons.
      destruct Hkp as [->|?]; [done|key_order].
Qed.

(** The links of the new node itself: those of its predecessors. *)
Lemma links_new i :
  (i < height)%nat -> next_of s' id i = head (List.filter (taller s' i) Ge_part).
Proof.
  intros Hih. destruct (Hprev i Hih) as (p & Hp & pre_p & post_p & Hsp & Htp & Hkp & Hpp).
  rewrite Hnext, decide_True, Hp by done.
  assert (p <> id) as Hne by (apply elem_ne; rewrite Hsp, elem_of_app, elem_of_cons; auto).
  rewrite decide_False by congruence. rewrite decide_True by done. simpl.
  rewrite (wf_links _ _ Hw _ _ _ Hsp i Htp), (taller_old i) by apply Ge_in.
  f_equal. by eapply pred_filter.
Qed.

(** The links of a node after it are what they were. *)
Lemma links_after g1 n post i :
  Ge_part = g1 ++ n :: post -> (i < height_of s n)%nat ->
  next_of s' n i = head (List.filter (taller s' i) post).
Proof.
  intros Hsplit Hi. assert (n ∈ Ge_part) as Hn by (rewrite Hsplit, elem_of_app, elem_of_cons; auto).
  assert (0%nat :: L = (0%nat :: Lt_part ++ g1) ++ n :: post) as Hs0.
  { rewrite parts_split at 1. by rewrite Hsplit, <- app_comm_cons, app_assoc. }
  rewrite taller_old by (intros x Hx; apply Ge_in; rewrite Hsplit, elem_of_app, elem_of_cons; auto).
  rewrite <- (wf_links _ _ Hw _ _ _ Hs0 i Hi), Hnext.
  destruct (decide (i < height)%nat) as [Hih|]; [|done].
  destruct (Hprev i Hih) as (p & Hp & pre_p & post_p & Hsp & _ & Hkp & _). rewrite Hp.
  apply elem_Ge in Hn as [HnL HnK]. pose proof (wf_nodup _ _ Hw) as [Hnot _]%NoDup_cons.
  rewrite decide_False.
  2:{ intros [= ->]. destruct Hkp as [->|?]; [done|key_order]. }
  by rewrite decide_False by (apply elem_ne; by right).
Qed.

Lemma elem_L_new x : x ∈ L_new <-> x = id \/ x ∈ L.
Proof.
  unfold L_new. rewrite parts_split at 1. rewrite !elem_of_app, elem_of_cons. tauto.
Qed.

Lemma sorted_L_new : StronglySorted (fun a b => key_of s' a <k key_of s' b) L_new.
Proof.
  assert (forall a b, a ∈ L -> b ∈ L -> key_of s a <k key_of s b -> key_of s' a <k key_of s' b) as Hkk.
  { intros a b Ha Hb. by rewrite (proj1 (Hold a (elem_ne a ltac:(by right)))), (proj1 (Hold b (elem_ne b ltac:(by right)))). }
  assert (forall l, (forall x, x ∈ l -> x ∈ L) -> StronglySorted (fun a b => key_of s a <k key_of s b) l ->
    StronglySorted (fun a b => key_of s' a <k key_of s' b) l) as Hsub.
  { intros l Hl. induction 1 as [|a l Hs IH Hf]; constructor.
    - apply IH. intros; apply Hl; by right.
    - rewrite Forall_forall in *. intros b Hb. apply Hkk; [apply Hl; by left|apply Hl; by right|by apply Hf]. }
  pose proof (wf_sorted _ _ Hw) as Hs. unfold L_new, Lt_part, Ge_part. destruct Hnew as [Hk _].
  assert (forall x, x ∈ L -> key_of s' x = key_of s x) as Ex by (intros x Hx; apply Hold, elem_ne; by right).
  apply StronglySorted_app_2.
  - intros a b [HaL Ha]%elem_Lt Hb. apply elem_of_cons in Hb as [->|[HbL Hb]%elem_Ge]; rewrite ?Hk, !Ex by done; key_order.
  - apply Hsub; [by intros x [? _]%elem_of_filter_bool|by apply StronglySorted_filter_bool].
  - constructor; [apply Hsub; [by intros x [? _]%elem_of_filter_bool|by apply StronglySorted_filter_bool]|].
    rewrite Forall_forall. intros b [HbL Hb]%elem_Ge. rewrite Hk, Ex by done.
    specialize (Habsent b HbL). key_order.
Qed.

Lemma links_L_new pre n post : 0%nat :: L_new = pre ++ n :: post ->
  forall i, (i < height_of s' n)%nat -> next_of s' n i = head (List.filter (taller s' i) post).
Proof.
  intros Hsplit i Hi. unfold L_new in Hsplit. rewrite app_comm_cons in Hsplit.
  assert (n ∈ 0%nat :: L -> (i < height_of s n)%nat) as Hi'.
  { intros Hn. by destruct (Hold n (elem_ne n Hn)) as (_ & <- & _). }
  apply app_eq_inv in Hsplit as [(k & Hpre & Hpost)|(k & Hpre & Hpost)].
  - destruct k as [|x k]; simpl in Hpost; injection Hpost as En Ep.
    + rewrite En, Ep in *. apply links_new. by rewrite (proj2 Hnew) in Hi.
    + rewrite Ep. subst x. apply (links_before pre); [done|]. apply Hi'.
      assert (n ∈ 0%nat :: Lt_part) as [->|Hx]%elem_of_cons by (rewrite Hpre, elem_of_app, elem_of_cons; auto);
        [by left|by apply Lt_in].
  - destruct k as [|x k]; simpl in Hpost; injection Hpost as En Ep.
    + rewrite <- En, <- Ep in *. apply links_new. by rewrite (proj2 Hnew) in Hi.
    + apply (links_after k); [done|]. apply Hi', Ge_in. rewrite Ep, elem_of_app, elem_of_cons. auto.
Qed.

Lemma wf_L_new e :
  (1 <= height <= kMaxHeight)%nat -> max_height_ s' = Nat.max (max_height_ s) height ->
  (forall x, length (n_next (node_at s' x)) = if decide (x = id) then height else length (n_next (node_at s x))) ->
  value_of s' id = Some e -> entry_ok e ->
  wf s' L_new /\ mt_map s' L_new = <[key := e]> (mt_map s L).
Proof.
  intros Hh Hmax Hwd Hv He. destruct Hnew as [Hk Hhid]. pose proof (wf_max _ _ Hw) as Hm.
  assert (wf s' L_new) as Hw'.
  { split.
    - rewrite (proj1 (proj2 (Hold 0%nat (elem_ne 0%nat ltac:(by left))))). apply Hw.
    - rewrite Hmax. lia.
    - rewrite Hlen. unfold L_new. rewrite <- Permutation_middle, <- parts_split, (wf_nodes _ _ Hw).
      pose proof (wf_some _ _ Hw). replace (S (length (nodes s)) - 1)%nat with (S (length (nodes s) - 1)) by lia.
      rewrite seq_S. replace (1 + (length (nodes s) - 1))%nat with id by lia. by rewrite Permutation_app_comm.
    - lia.
    - intros x [->|Hx]%elem_L_new; rewrite Hmax; [lia|].
      rewrite (proj1 (proj2 (Hold x (elem_ne x ltac:(by right))))). pose proof (wf_heights _ _ Hw x Hx). lia.
    - intros x Hx. rewrite Hwd. case_decide as E; [by subst x|].
      rewrite (proj1 (proj2 (Hold x E))). apply Hw. lia.
    - apply sorted_L_new.
    - intros x [->|Hx]%elem_L_new; [by exists e|]. destruct (wf_values _ _ Hw x Hx) as (e' & He' & ?).
      exists e'. by rewrite (proj2 (proj2 (Hold x (elem_ne x ltac:(by right))))).
    - apply links_L_new. }
  split; [done|]. apply map_eq. intros k. apply option_eq. intros e'.
  rewrite (mt_map_lookup _ _ _ _ Hw'), lookup_insert_Some, (mt_map_lookup _ _ _ _ Hw).
  assert (forall x, x ∈ L -> key_of s' x = key_of s x /\ value_of s' x = value_of s x) as Ex.
  { intros x Hx. destruct (Hold x (elem_ne x ltac:(by right))) as (? & _ & ?). done. }
  split.
  - intros (x & [->|Hx]%elem_L_new & <- & E); [rewrite Hk; left; by simplify_eq|].
    destruct (Ex x Hx) as [Ek Ev]. rewrite Ek, Ev in *. right. split; [|by exists x].
    intros E'. by apply (Habsent x Hx).
  - intros [[<- <-]|[Hne (x & Hx & <- & E)]].
    + exists id. rewrite elem_L_new. auto.
    + exists x. destruct (Ex x Hx) as [-> ->]. rewrite elem_L_new. auto.
Qed.
End Splice.

(** ** [insert] *)

Lemma height_loop_range fuel h bits :
  (1 <= h <= kMaxHeight)%nat -> (1 <= height_loop fuel h bits <= kMaxHeight)%nat.
Proof.
  revert h bits. induction fuel as [|fuel IH]; intros h bits Hh; simpl; [done|].
  destruct (Nat.ltb_spec h kMaxHeight); simpl; [|done]. destruct (_ =? 0); [|done]. apply IH. lia.
Qed.

Lemma fold_set_zero (prev : list nat) a n i :
  fold_left (fun p i => <[i := 0%nat]> p) (seq a n) prev !! i =
  if decide (a <= i < a + n /\ i < length prev)%nat then Some 0%nat else prev !! i.
Proof.
  revert a prev. induction n as [|n IH]; intros a prev; cbn [seq fold_left]; [by rewrite decide_False by lia|].
  rewrite IH, length_insert. destruct (decide (i = a)) as [->|Hne].
  - rewrite decide_False by lia. destruct (decide (a < length prev)%nat).
    + rewrite list_lookup_insert_eq by done. by rewrite decide_True by lia.
    + rewrite decide_False by lia. by rewrite list_insert_ge by lia.
  - rewrite list_lookup_insert_ne by done. repeat case_decide; try done; lia.
Qed.

(** The predecessors [insert] splices behind, the levels above the old height included. *)
Lemma insert_prev s L key height i :
  wf s L -> (1 <= height <= kMaxHeight)%nat -> (i < height)%nat ->
  let prev := (find_greater_or_equal s key).2 in
  let prev' := if Nat.ltb (max_height_ s) height
               then fold_left (fun p i => <[i := 0%nat]> p) (seq (max_height_ s) (height - max_height_ s)) prev
               else prev in
  exists p, prev' !! i = Some p /\ is_pred s L key i p.
Proof.
  intros Hw Hh Hi. cbv zeta. destruct (find_spec s L key Hw) as (_ & Hlen & Hpred).
  destruct (decide (i < max_height_ s)%nat) as [Hlt|Hge].
  - destruct (Hpred i Hlt) as (p & Hp & Hip). exists p. split; [|done].
    case_match; [|done]. rewrite fold_set_zero. by rewrite decide_False by lia.
  - destruct (Nat.ltb_spec (max_height_ s) height); [|lia]. exists 0%nat.
    rewrite fold_set_zero, decide_True by lia. split; [done|]. exists [], L. split_and!; [done| |by left|].
    + rewrite (wf_head _ _ Hw). lia.
    + intros m Hm Ht. pose proof (wf_heights _ _ Hw m Hm). lia.
Qed.

(** What an insertion leaves alone. *)
Definition same_ranges (s s' : SkiplistMemtable) : Prop :=
  ranges_ s' = ranges_ s /\ range_count_ s' = range_count_ s /\ watermark_ s' = watermark_ s.

Definition hit_of (s : SkiplistMemtable) (key : bytes) : option nat :=
  match (find_greater_or_equal s key).1 with
  | Some m => if slice_eqb (key_of s m) key then Some m else None
  | None => None
  end.

Lemma hit_of_spec s L key :
  wf s L ->
  match hit_of s key with
  | Some m => m ∈ L /\ key_of s m = key
  | None => forall id, id ∈ L -> key_of s id <> key
  end.
Proof.
  intros Hw. unfold hit_of. destruct (find_spec s L key Hw) as (-> & _ & _).
  destruct (head _) as [m|] eqn:E; [|by eapply find_miss].
  destruct (find_hit _ _ _ _ Hw E) as [Hm Hor]. destruct (slice_eqb (key_of s m) key) eqn:Eq.
  - by apply slice_eqb_eq in Eq.
  - destruct Hor as [Hk|?]; [|done]. by rewrite Hk, (proj2 (slice_eqb_eq _ _) eq_refl) in Eq.
Qed.

(** The key is there: its value is replaced and nothing else moves. *)
Lemma insert_replace s L key type value m :
  wf s L -> entry_ok (type, value) -> hit_of s key = Some m ->
  let s' := insert s key type value in
  wf s' L /\ mt_map s' L = <[key := (type, value)]> (mt_map s L) /\ same_ranges s s' /\ same_shape s s'.
Proof.
  intros Hw He Hhit. pose proof (hit_of_spec s L key Hw) as Hm. rewrite Hhit in Hm. destruct Hm as [Hm Hk].
  cbv zeta. unfold insert. unfold hit_of in Hhit. destruct (find_greater_or_equal s key) as [next prev].
  cbn [fst] in Hhit. rewrite Hhit. cbn [nodes max_height_ with_nodes entries_ tombstones_ ranges_ range_count_].
  match goal with |- wf ?t _ /\ _ => set (s' := t) end.
  destruct (store_value_step s s' L m key (type, value)) as [Hw' Hmap]; try done.
  split; [done|]. split; [done|]. split; [done|].
  split; [by unfold s'; simpl; rewrite length_alter|]. split; [done|]. intros id. unfold key_of, height_of. rewrite (node_at_alter (store_value (type, value)) s s' m id); [by case_decide|done|].
  eapply wf_bound; [done|by right].
Qed.

(** The key is new: a node is spliced in. *)
Lemma insert_new s L key type value :
  wf s L -> entry_ok (type, value) -> hit_of s key = None ->
  let s' := insert s key type value in
  exists L', wf s' L' /\ mt_map s' L' = <[key := (type, value)]> (mt_map s L) /\ same_ranges s s' /\
    entries_ s' = u64 (entries_ s + 1) /\
    tombstones_ s' = (if is_delete type then u64 (tombstones_ s + 1) else tombstones_ s).
Proof.
  intros Hw He Hhit. pose proof (hit_of_spec s L key Hw) as Habs. rewrite Hhit in Habs.
  cbv zeta. unfold insert. unfold hit_of in Hhit. unfold random_height.
  set (height := height_loop _ _ _).
  assert (1 <= height <= kMaxHeight)%nat as Hh by (apply height_loop_range; unfold kMaxHeight; lia).
  pose proof (insert_prev s L key height) as Hprev. cbv zeta in Hprev.
  destruct (find_greater_or_equal s key) as [next prev]. cbn [fst snd] in *. rewrite Hhit.
  set (prev' := if Nat.ltb _ _ then _ else prev) in *.
  match goal with |- context [fold_left (splice ?i prev') _ ?t] => set (id := i); set (s1 := t) end.
  assert (forall x, node_at s1 x = if decide (x = id) then store_value (type, value) (new_node key height) else node_at s x) as Hat.
  { intros x. unfold node_at, s1, id. simpl. case_decide as E; [subst x; by rewrite list_lookup_middle|].
    destruct (decide (x < length (nodes s))%nat); [by rewrite lookup_app_l|].
    by rewrite !lookup_ge_None_2 by (rewrite ?length_app; simpl; lia). }
  assert (length (nodes s1) = S (length (nodes s))) as Hlen1 by (unfold s1; simpl; rewrite length_app; simpl; lia).
  assert (node_at s1 id = store_value (type, value) (new_node key height)) as Hatid by (by rewrite Hat, decide_True).
  assert (forall x, x <> id -> node_at s1 x = node_at s x) as Hatx by (intros x Hx; by rewrite Hat, decide_False).
  assert (forall i p, is_pred s L key i p -> p <> id /\ (p < length (nodes s))%nat /\ (i < length (n_next (node_at s p)))%nat) as Hpb.
  { intros i p (pre & post & Hsp & Hi & _). assert (p ∈ 0%nat :: L) as Hp by (rewrite Hsp, elem_of_app, elem_of_cons; auto).
    pose proof (wf_bound _ _ _ Hw Hp). split_and!; [unfold id; lia|done|]. by rewrite (wf_width _ _ Hw). }
  destruct (splice_loop_spec s1 id prev' height height) as [Hsame Hnext]; try lia.
  { rewrite Hatid. simpl. by rewrite length_replicate. }
  { intros i Hi. destruct (Hprev i Hw Hh Hi) as (p & Hp & Hip). destruct (Hpb _ _ Hip) as (? & ? & ?).
    exists p. rewrite Hatx, Hlen1 by done. split_and!; [done..|lia|done]. }
  set (s' := fold_left (splice id prev') (seq 0 height) s1) in *.
  destruct Hsame as (Hlen' & Hmax' & He' & Ht' & Hr' & Hrc' & Hwm' & Hnodes).
  exists (L_new s L key id). assert (forall x, x <> id ->
    key_of s' x = key_of s x /\ height_of s' x = height_of s x /\ value_of s' x = value_of s x) as Hold.
  { intros x Hx. destruct (Hnodes x) as (-> & -> & -> & _). unfold key_of, height_of, value_of. by rewrite Hatx. }
  assert (key_of s' id = key /\ height_of s' id = height /\ value_of s' id = Some (type, value)) as (Hk & Hhid & Hv).
  { destruct (Hnodes id) as (-> & -> & -> & _). unfold key_of, height_of, value_of. by rewrite Hatid. }
  destruct (wf_L_new s s' L key id height prev') with (e := (type, value)) as [Hw' Hmap]; try done.
  - by rewrite Hlen'.
  - intros i Hi. by apply Hprev.
  - intros x j. rewrite Hnext. repeat case_decide; try done.
    + destruct (Hprev j Hw Hh ltac:(done)) as (p & Hp & Hip). rewrite Hp. simpl. unfold next_of.
      by rewrite Hatx by (by eapply Hpb).
    + unfold next_of. by rewrite Hatx.
    + unfold next_of. destruct (decide (x = id)) as [->|]; [|by rewrite Hatx].
      rewrite Hatid. simpl. rewrite lookup_ge_None_2 by (rewrite length_replicate; lia). simpl. symmetry.
      unfold id, node_at. by rewrite (lookup_ge_None_2 (nodes s)) by lia.
  - intros x. destruct (Hnodes x) as (_ & _ & _ & ->). case_decide as E; [|by rewrite Hatx].
    rewrite E, Hatid. simpl. by rewrite length_replicate.
Qed.

(** ** Counters

    [entries_] and [tombstones_] are exact, modulo their width. *)

Definition is_tomb (kv : bytes * Entry) : Prop := kv.2.1 = Delete.

#[export] Instance is_tomb_dec kv : Decision (is_tomb kv).
Proof. unfold is_tomb. apply _. Defined.

Definition tombs (m : gmap bytes Entry) : Z := Z.of_nat (size (filter is_tomb m)).
Definition counted (s : SkiplistMemtable) (m : gmap bytes Entry) : Prop :=
  entries_ s = u64 (Z.of_nat (size m)) /\ tombstones_ s = u64 (tombs m).

Lemma tombs_insert_None m k e :
  m !! k = None -> tombs (<[k := e]> m) = tombs m + (if is_delete e.1 then 1 else 0).
Proof.
  intros Hk. unfold tombs. destruct (is_delete e.1) eqn:Ee.
  - rewrite map_filter_insert_True by (unfold is_tomb; simpl; by destruct e as [[] ?]).
    rewrite map_size_insert_None; [lia|]. apply map_lookup_filter_None. by left.
  - rewrite map_filter_insert_False by (unfold is_tomb; simpl; by destruct e as [[] ?]).
    rewrite delete_id by done. lia.
Qed.

Lemma tombs_insert m k e e0 :
  m !! k = Some e0 ->
  tombs (<[k := e]> m) = tombs m - (if is_delete e0.1 then 1 else 0) + (if is_delete e.1 then 1 else 0).
Proof.
  intros Hk. rewrite <- (insert_delete_id m k e0 Hk) at 2.
  rewrite <- insert_delete_eq, !tombs_insert_None by apply lookup_delete_eq. lia.
Qed.

Lemma insert_spec s L key type value :
  wf s L -> entry_ok (type, value) -> counted s (mt_map s L) ->
  let s' := insert s key type value in
  exists L', wf s' L' /\ mt_map s' L' = <[key := (type, value)]> (mt_map s L) /\ same_ranges s s' /\
    counted s' (mt_map s' L').
Proof.
  intros Hw He [Hc1 Hc2]. cbv zeta. pose proof (hit_of_spec s L key Hw) as Hspec.
  destruct (hit_of s key) as [m|] eqn:Hhit.
  - destruct (insert_replace s L key type value m Hw He Hhit) as (Hw' & Hmap & Hr & _). exists L. split_and!; try done.
    destruct Hspec as [Hm Hk]. destruct (wf_values _ _ Hw m Hm) as (e0 & He0 & _).
    assert (mt_map s L !! key = Some e0) as Hl by (apply mt_map_lookup; [done|by exists m]).
    rewrite Hmap. split.
    + rewrite map_size_insert_Some by (by eexists). rewrite <- Hc1.
      unfold insert. unfold hit_of in Hhit. destruct (find_greater_or_equal s key) as [next prev].
      cbn [fst] in Hhit. by rewrite Hhit.
    + rewrite (tombs_insert _ _ _ e0) by done. unfold insert. unfold hit_of in Hhit.
      destruct (find_greater_or_equal s key) as [next prev]. cbn [fst] in Hhit. rewrite Hhit.
      cbn [tombstones_ with_nodes]. rewrite He0. destruct e0 as [t0 v0]. cbn [fst].
      destruct (is_delete t0), (is_delete type); cbn [Bool.eqb]; rewrite Hc2; unfold u64;
        rewrite ?Zplus_mod_idemp_l; [f_equal; lia| |f_equal; lia|f_equal; lia].
      replace (tombs (mt_map s L) + (2 ^ 64 - 1)) with (tombs (mt_map s L) - 1 + 0 + 1 * 2 ^ 64) by lia.
      by rewrite Z.mod_add.
  - destruct (insert_new s L key type value Hw He Hhit) as (L' & Hw' & Hmap & Hr & Hes & Hts).
    exists L'. split_and!; try done. rewrite Hmap.
    assert (mt_map s L !! key = None) as Hl.
    { apply eq_None_not_Some. intros [e (id & Hid & Hk & _)%mt_map_lookup]; [|done]. by apply (Hspec id). }
    split.
    + rewrite Hes, Hc1, map_size_insert_None by done. unfold u64. rewrite Zplus_mod_idemp_l. f_equal. lia.
    + rewrite Hts, Hc2, tombs_insert_None by done. cbn [fst]. unfold u64. destruct (is_delete type).
      * by rewrite Zplus_mod_idemp_l.
      * by rewrite Z.add_0_r.
Qed.

(** ** Walks *)

Lemma next_zero s L pre n post : wf s L -> 0%nat :: L = pre ++ n :: post -> next_of s n 0 = head post.
Proof.
  intros Hw Hsplit.
  assert (forall m, m ∈ L -> (0 < height_of s m)%nat) as Hpos by (intros m Hm; pose proof (wf_heights _ _ Hw m Hm); lia).
  destruct (split_head _ _ _ _ _ Hsplit) as [(-> & -> & ->)|(pre' & -> & HL)].
  - rewrite (wf_links _ _ Hw [] 0%nat L eq_refl 0%nat) by (rewrite (wf_head _ _ Hw); unfold kMaxHeight; lia).
    rewrite filter_all; [done|]. intros m Hm. by apply Nat.ltb_lt, Hpos.
  - rewrite (wf_links _ _ Hw _ _ _ Hsplit 0%nat) by (apply Hpos; rewrite HL, elem_of_app, elem_of_cons; auto).
    rewrite filter_all; [done|]. intros m Hm. apply Nat.ltb_lt, Hpos. rewrite HL, elem_of_app, elem_of_cons. auto.
Qed.

Lemma next_in s L a id b : wf s L -> L = a ++ id :: b -> next_of s id 0 = head b.
Proof. intros Hw HL. apply (next_zero s L (0%nat :: a)); [done|]. simpl. by rewrite <- HL. Qed.

Lemma iterate_spec s L a b fuel :
  wf s L -> L = a ++ b -> (length b <= fuel)%nat -> iterate fuel s (head b) = contents s b.
Proof.
  intros Hw. revert a fuel. induction b as [|id b IH]; intros a fuel HL Hf; [by destruct fuel|].
  destruct fuel as [|fuel]; [simpl in Hf; lia|]. cbn [iterate head contents map].
  rewrite (next_in s L a id b Hw HL), (IH (a ++ [id])); [done|by rewrite <- app_assoc|simpl in Hf; lia].
Qed.

Lemma length_L s L : wf s L -> length (nodes s) = S (length L).
Proof. intros Hw. rewrite (wf_nodes _ _ Hw), length_seq. pose proof (wf_some _ _ Hw). lia. Qed.

Lemma ascending_spec s L : wf s L -> ascending s = contents s L.
Proof.
  intros Hw. unfold ascending. rewrite (next_zero s L [] 0%nat L Hw eq_refl).
  apply (iterate_spec s L []); [done..|]. rewrite (length_L _ _ Hw). lia.
Qed.

(** *** [delete_range] *)

Definition delete_part (P : bytes -> bool) (m : gmap bytes Entry) : gmap bytes Entry :=
  map_imap (fun k e => Some (if P k then (Delete, []) else e)) m.

Lemma delete_part_lookup P m k :
  delete_part P m !! k = (fun e => if P k then (Delete, []) else e) <$> (m !! k).
Proof. unfold delete_part. rewrite map_lookup_imap. by destruct (m !! k). Qed.

(** Turning one present key into a point delete, as the walk does. *)
Lemma cover_step s L id :
  wf s L -> id ∈ L -> counted s (mt_map s L) ->
  let s' := match value_of s id with
            | Some (Delete, _) => s
            | _ => insert s (key_of s id) Delete []
            end in
  wf s' L /\ mt_map s' L = <[key_of s id := (Delete, [])]> (mt_map s L) /\ same_ranges s s' /\
  counted s' (mt_map s' L) /\ same_shape s s'.
Proof.
  intros Hw Hid Hc. cbv zeta. destruct (wf_values _ _ Hw id Hid) as (e & He & Hok).
  assert (mt_map s L !! key_of s id = Some e) as Hl by (apply mt_map_lookup; [done|by exists id]).
  rewrite He. destruct e as [[] v].
  - specialize (Hok eq_refl). simpl in Hok. subst v. split_and!; try done. by rewrite insert_id.
  - assert (exists m, hit_of s (key_of s id) = Some m) as [m Hhit].
    { pose proof (hit_of_spec s L (key_of s id) Hw). destruct (hit_of s (key_of s id)) as [m|]; [by exists m|].
      exfalso. by eapply H. }
    destruct (insert_replace s L (key_of s id) Delete [] m Hw) as (Hw' & Hmap & Hr & Hsh); try done.
    destruct (insert_spec s L (key_of s id) Delete [] Hw) as (L' & Hw'' & Hmap' & _ & Hc'); try done.
    split_and!; try done. by rewrite Hmap, <- Hmap'.
Qed.

Lemma cover_loop_spec s0 L upper fuel s a b :
  wf s L -> counted s (mt_map s L) -> L = a ++ b -> (length b <= fuel)%nat ->
  same_shape s0 s -> same_ranges s0 s ->
  let s' := cover_loop fuel s (head b) upper in
  wf s' L /\ counted s' (mt_map s' L) /\ same_ranges s0 s' /\
  mt_map s' L = delete_part (fun k => existsb (fun id => slice_eqb (key_of s0 id) k) b && (k <?k upper)) (mt_map s L).
Proof.
  intros Hw. revert fuel s a Hw. induction b as [|id b IH]; intros fuel s a Hw Hc HL Hf Hsh Hr; cbv zeta.
  - replace (cover_loop fuel s (head []) upper) with s by (by destruct fuel). split_and!; [done..|].
    apply map_eq. intros k. rewrite delete_part_lookup. by destruct (mt_map s L !! k).
  - destruct fuel as [|fuel]; [simpl in Hf; lia|]. cbn [cover_loop head].
    assert (id ∈ L) as Hid by (rewrite HL, elem_of_app, elem_of_cons; auto).
    assert (key_of s id = key_of s0 id) as Hk by apply Hsh.
    destruct (key_of s id <?k upper) eqn:Eu; cbn [negb].
    + destruct (cover_step s L id Hw Hid Hc) as (Hw1 & Hmap1 & Hr1 & Hc1 & Hsh1).
      set (s1 := match value_of s id with Some (Delete, _) => s | _ => _ end) in *.
      rewrite (next_in s1 L a id b Hw1 HL).
      destruct (IH fuel s1 (a ++ [id])) as (Hw' & Hc' & Hr' & Hmap'); try done.
      { by rewrite <- app_assoc. } { simpl in Hf. lia. }
      { destruct Hsh as (? & ? & Hs), Hsh1 as (? & ? & Hs1). split_and!; try congruence.
        intros x. destruct (Hs x) as (? & ? & ?), (Hs1 x) as (? & ? & ?). split_and!; congruence. }
      { destruct Hr as (? & ? & ?), Hr1 as (? & ? & ?). split_and!; congruence. }
      split_and!; [done..|]. rewrite Hmap', Hmap1. apply map_eq. intros k. rewrite !delete_part_lookup. cbn [existsb].
      destruct (decide (key_of s id = k)) as [<-|Hne].
      * rewrite lookup_insert_eq. rewrite Hk, (proj2 (slice_eqb_eq _ _) eq_refl), <- Hk, Eu. simpl.
        destruct (wf_values _ _ Hw id Hid) as (e & He & _).
        rewrite (proj2 (mt_map_lookup s L (key_of s id) e Hw)) by (by exists id). simpl. by destruct (existsb _ b).
      * rewrite lookup_insert_ne by done. destruct (slice_eqb (key_of s0 id) k) eqn:Es; [|done].
        apply slice_eqb_eq in Es. congruence.
    + split_and!; try done. apply map_eq. intros k. rewrite delete_part_lookup.
      destruct (mt_map s L !! k) eqn:E; [|done]. simpl. f_equal.
      destruct (_ && _) eqn:Eb; [|done]. apply andb_true_iff in Eb as [Eb Eku]. exfalso.
      apply (existsb_elem (fun x => slice_eqb (key_of s0 x) k) (id :: b)) in Eb as (x & Hx & Ex).
      apply slice_eqb_eq in Ex. subst k.
      pose proof (wf_sorted _ _ Hw) as Hs. rewrite HL in Hs. apply StronglySorted_app_1_r in Hs.
      apply elem_of_cons in Hx as [->|Hx]; [rewrite <- Hk in Eku; key_order|].
      inversion_clear Hs as [|? ? _ Hfa]. rewrite Forall_forall in Hfa. specialize (Hfa x Hx). simpl in Hfa.
      rewrite <- (proj1 (proj2 (proj2 Hsh) x)) in Eku. key_order.
Qed.

Lemma delete_range_spec s L lo up :
  wf s L -> counted s (mt_map s L) ->
  let s' := delete_range s lo up in
  wf s' L /\ counted s' (mt_map s' L) /\ watermark_ s' = watermark_ s /\
  mt_map s' L = delete_part (fun k => covers (mkRange lo up) k) (mt_map s L) /\
  ranges_ s' = (if lo <?k up then mkRange lo up :: ranges_ s else ranges_ s).
Proof.
  intros Hw Hc. cbv zeta. unfold delete_range. destruct (lo <?k up) eqn:Elu; cbn [negb].
  - destruct (find_spec s L lo Hw) as (-> & _ & _).
    pose proof (parts_split s L lo Hw) as HL. unfold Ge_part in HL.
    destruct (cover_loop_spec s L up (S (length (nodes s))) s (Lt_part s L lo) (List.filter (at_or_after s lo) L))
      as (Hw' & Hc' & Hr' & Hmap'); try done.
    { etrans; [apply (filter_length_le (at_or_after s lo) L)|]. rewrite (length_L _ _ Hw). lia. }
    set (s1 := cover_loop _ _ _ _) in *. destruct Hr' as (Hr1 & Hr2 & Hr3).
    match goal with |- wf ?t _ /\ _ => set (s' := t) end.
    assert (mt_map s' L = mt_map s1 L) as Em by done. rewrite Em. split_and!; try done.
    + apply (same_shape_wf s1); [done| |done]. intros id Hid. apply (wf_values _ _ Hw' id Hid).
    + rewrite Hmap'. apply map_eq. intros k. rewrite !delete_part_lookup.
      destruct (mt_map s L !! k) as [e|] eqn:E; [|done]. simpl. f_equal. unfold covers. simpl.
      apply mt_map_lookup in E as (id & Hid & <- & _); [|done].
      assert (existsb (fun x => slice_eqb (key_of s x) (key_of s id)) (List.filter (at_or_after s lo) L) = (lo <=?k key_of s id)) as ->; [|done].
      apply eq_true_iff_eq. rewrite existsb_elem. split.
      * intros (x & [Hx Ha]%elem_of_filter_bool & Ex%slice_eqb_eq). rewrite <- Ex. unfold at_or_after in Ha. key_order.
      * intros Hle. exists id. split; [|by apply slice_eqb_eq]. apply elem_of_filter_bool. split; [done|].
        unfold at_or_after. key_order.
    + by unfold s'; simpl; rewrite Hr1.
  - split_and!; try done. apply map_eq. intros k. rewrite delete_part_lookup.
    destruct (mt_map s L !! k); [|done]. simpl. f_equal. unfold covers. simpl.
    destruct (lo <=?k k) eqn:?, (k <?k up) eqn:?; try done. exfalso. key_order.
Qed.

Lemma wf_new : wf new_memtable [].
Proof.
  split.
  - done.
  - unfold kMaxHeight. simpl. lia.
  - done.
  - simpl. lia.
  - by intros id ?%elem_of_nil.
  - intros id Hid. simpl in Hid. by replace id with 0%nat by lia.
  - constructor.
  - by intros id ?%elem_of_nil.
  - intros pre n post Hsplit i Hi.
    destruct (split_head _ _ _ _ _ Hsplit) as [(-> & -> & ->)|(pre' & -> & Hp)]; [|by destruct pre'].
    unfold next_of, node_at. simpl. by do 12 (destruct i as [|i]; [done|]).
Qed.

(** ** Refinement

    A memtable is a finite map and a set of ranges. *)

Inductive MemOp : Type :=
  | OpPut (key value : bytes)
  | OpRemove (key : bytes)
  | OpDeleteRange (lower upper : bytes).

Definition run_op (s : SkiplistMemtable) (op : MemOp) : SkiplistMemtable :=
  match op with
  | OpPut k v => put s k v
  | OpRemove k => remove s k
  | OpDeleteRange lo up => delete_range s lo up
  end.

Definition run (ops : list MemOp) : SkiplistMemtable := fold_left run_op ops new_memtable.

(** The abstract memtable. *)
Definition spec_op (m : gmap bytes Entry * list RangeTombstone) (op : MemOp)
  : gmap bytes Entry * list RangeTombstone :=
  match op with
  | OpPut k v => (<[k := (Put, v)]> m.1, m.2)
  | OpRemove k => (<[k := (Delete, [])]> m.1, m.2)
  | OpDeleteRange lo up =>
      (delete_part (covers (mkRange lo up)) m.1, if lo <?k up then mkRange lo up :: m.2 else m.2)
  end.

Definition spec_run (ops : list MemOp) : gmap bytes Entry * list RangeTombstone :=
  fold_left spec_op ops (∅, []).

(** What a reachable skip list stands for. *)
Definition models (s : SkiplistMemtable) (m : gmap bytes Entry * list RangeTombstone) : Prop :=
  exists L, wf s L /\ mt_map s L = m.1 /\ ranges_ s = m.2 /\ counted s m.1.

Lemma models_new : models new_memtable (∅, []).
Proof. exists []. split_and!; [apply wf_new|done..]. Qed.

Lemma models_step s m op : models s m -> models (run_op s op) (spec_op m op).
Proof.
  intros (L & Hw & Hm & Hr & Hc). rewrite <- Hm in Hc.
  destruct op as [k v|k|lo up]; simpl.
  - destruct (insert_spec s L k Put v Hw) as (L' & Hw' & Hm' & (Hr' & _) & Hc'); [by intros ?|done|].
    exists L'. unfold put. rewrite Hm' in Hc'. simpl. split_and!; [done|by rewrite Hm', Hm|by rewrite Hr'|by rewrite <- Hm].
  - destruct (insert_spec s L k Delete [] Hw) as (L' & Hw' & Hm' & (Hr' & _) & Hc'); [by intros ?|done|].
    exists L'. unfold remove. rewrite Hm' in Hc'. simpl. split_and!; [done|by rewrite Hm', Hm|by rewrite Hr'|by rewrite <- Hm].
  - destruct (delete_range_spec s L lo up Hw Hc) as (Hw' & Hc' & _ & Hm' & Hr').
    exists L. simpl. rewrite Hm' in Hc'. split_and!; [done|by rewrite Hm', Hm|by rewrite Hr', Hr|by rewrite <- Hm].
Qed.

Lemma models_run ops : models (run ops) (spec_run ops).
Proof.
  unfold run, spec_run. generalize models_new. generalize new_memtable (∅ : gmap bytes Entry, @nil RangeTombstone).
  induction ops as [|op ops IH]; intros s m Hm; simpl; [done|]. by apply IH, models_step.
Qed.

(** Everything a reader sees of a memtable that stands for [m]. *)
Lemma models_reads s m :
  models s m ->
  (forall k, get s k = m.1 !! k) /\
  (forall k, range_deletes s k = any_covers m.2 k) /\
  (forall k, any_covers (range_tombstones s) k = any_covers m.2 k) /\
  ascending s ≡ₚ map_to_list m.1 /\
  StronglySorted (fun a b => a.1 <k b.1) (ascending s) /\
  counted s m.1.
Proof.
  intros (L & Hw & Hm & Hr & Hc). split_and!; try done.
  - intros k. by rewrite (get_map _ _ _ Hw), Hm.
  - intros k. unfold range_deletes. by rewrite Hr.
  - intros k. unfold range_tombstones. rewrite Hr. apply merge_ranges_ok.
  - rewrite (ascending_spec _ _ Hw), <- Hm. unfold mt_map. by rewrite map_to_list_to_map by (by apply wf_keys_nodup).
  - rewrite (ascending_spec _ _ Hw). pose proof (wf_sorted _ _ Hw) as Hs. unfold contents. clear -Hs.
    induction Hs as [|a L Hs IH Hf]; simpl; constructor; [done|]. rewrite Forall_map. by eapply Forall_impl.
Qed.

(** ** Properties *)

(** C18: the skip list is a map. After any sequence of puts, removes and range deletes, started from
    a new memtable, [get] is the lookup of the map those operations build, the ranges cover exactly
    the keys deleted by range, an ascending scan visits the map's entries once each in key order, and
    the counters are the map's size and its number of deletes. *)
Theorem memtable_refines_map ops :
  let s := run ops in
  let m := spec_run ops in
  (forall k, get s k = m.1 !! k) /\
  (forall k, range_deletes s k = any_covers m.2 k) /\
  (forall k, any_covers (range_tombstones s) k = any_covers m.2 k) /\
  ascending s ≡ₚ map_to_list m.1 /\
  StronglySorted (fun a b => a.1 <k b.1) (ascending s) /\
  entries_ s = u64 (Z.of_nat (size m.1)) /\ tombstones_ s = u64 (tombs m.1).
Proof. cbv zeta. apply (models_reads (run ops) (spec_run ops)), models_run. Qed.
