(* ===== verification/Merging.v ===== *)
(** * The merging iterator

    [src/compact/merging_iterator.cpp]: the merge every scan and every compaction reads through. A
    child is the list of the entries it has left, in the direction of the scan ([InternalIterator]
    runs in one direction); [valid()] is "not empty", [key()] is the head and [next()] or [prev()]
    drops it. The two directions differ in the comparison that picks a child only, so one model
    serves both, over the class [Direction]. Child statuses are not modelled: a child that fails
    stops the caller. *)

From S2P Require Import Prelude Slice Format Memtable.

(** One entry of a source. *)
Abbreviation KV := (bytes * Entry)%type.

(** The order a scan visits keys in: a strict total order. *)
Class Direction (better : bytes -> bytes -> bool) : Prop := {
  better_irrefl : forall a, better a a = false;
  better_trans : forall a b c, better a b = true -> better b c = true -> better a c = true;
  better_total : forall a b, better a b = true \/ a = b \/ better b a = true
}.

(** [key() < key()] picks forward, [key() > key()] backward. *)
Definition forward (a b : bytes) : bool := a <?k b.
Definition backward (a b : bytes) : bool := b <?k a.

#[export] Instance forward_direction : Direction forward.
Proof.
  unfold forward. split.
  - intros a. key_order.
  - intros a b c ??. key_order.
  - intros a b. rewrite !key_ltb_lt. apply key_trichotomy.
Qed.

#[export] Instance backward_direction : Direction backward.
Proof.
  unfold backward. split.
  - intros a. key_order.
  - intros a b c ??. key_order.
  - intros a b. rewrite !key_ltb_lt. destruct (key_trichotomy a b) as [?|[?|?]]; auto.
Qed.

(** ** Definitions *)

Record Carrier := { child : nat; carrier_ranges : list RangeTombstone }.

(** The constructor keeps only the children that carry tombstones. *)
Definition make_carriers (child_ranges : list (list RangeTombstone)) : list Carrier :=
  List.filter (fun c => negb (bool_decide (carrier_ranges c = [])))
    (imap (fun i rs => {| child := i; carrier_ranges := rs |}) child_ranges).

Definition head_key (c : list KV) : option bytes := fst <$> head c.

Section Merge.
Context (better : bytes -> bytes -> bool).

(** [pick_smallest_raw] and [pick_largest_raw]: one round of the scan over the children. *)
Definition pick_step (ch : list (list KV)) (current : option nat) (ic : nat * list KV) : option nat :=
  match head_key ic.2 with
  | None => current
  | Some k =>
      match current with
      | None => Some ic.1
      | Some j =>
          match ch !! j ≫= head_key with
          | Some kj => if better k kj then Some ic.1 else current
          | None => current
          end
      end
  end.

Definition pick_raw (ch : list (list KV)) : option nat :=
  fold_left (pick_step ch) (imap pair ch) None.

(** [step_forward] and [step_backward]: every child on the emitted key moves. *)
Definition step (ch : list (list KV)) (current : nat) : list (list KV) :=
  match ch !! current ≫= head_key with
  | None => ch
  | Some key =>
      imap (fun i c =>
              if Nat.eqb i current then tail c
              else match head_key c with
                   | Some k => if slice_eqb k key then tail c else c
                   | None => c
                   end) ch
  end.

(** The [std::upper_bound] probe of one carrier. *)
Definition carrier_covers (ranges : list RangeTombstone) (key : bytes) : bool :=
  match lower_bound (fun r => negb (key <?k lower r)) ranges with
  | O => false
  | S at_ => match ranges !! at_ with Some r => key <?k upper r | None => false end
  end.

Fixpoint shadowed_loop (carriers : list Carrier) (current : nat) (key : bytes) : bool :=
  match carriers with
  | [] => false
  | c :: rest =>
      if Nat.leb current (child c) then false
      else if carrier_covers (carrier_ranges c) key then true
      else shadowed_loop rest current key
  end.

Definition shadowed (carriers : list Carrier) (ch : list (list KV)) (current : nat) : bool :=
  match ch !! current ≫= head_key with
  | Some key => shadowed_loop carriers current key
  | None => false
  end.

(** [pick_smallest] and [pick_largest]: skip what a newer child's range covers. *)
Fixpoint pick_loop (fuel : nat) (carriers : list Carrier) (ch : list (list KV))
  : list (list KV) * option nat :=
  match pick_raw ch with
  | None => (ch, None)
  | Some cur =>
      if shadowed carriers ch cur then
        match fuel with
        | O => (ch, None)
        | S fuel' => pick_loop fuel' carriers (step ch cur)
        end
      else (ch, Some cur)
  end.

Definition remaining (ch : list (list KV)) : nat := sum_list_with length ch.

Definition pick (carriers : list Carrier) (ch : list (list KV)) : list (list KV) * option nat :=
  pick_loop (remaining ch) carriers ch.

(** The merge's position: its children and the child it stands on. *)
Definition MergingIterator : Type := list (list KV) * option nat.

Definition merge_next (carriers : list Carrier) (m : MergingIterator) : MergingIterator :=
  match m.2 with
  | None => m
  | Some cur => pick carriers (step m.1 cur)
  end.

Definition merge_entry (m : MergingIterator) : option KV := m.2 ≫= (fun cur => m.1 !! cur ≫= head).

(** [for (seek; valid(); next())]: everything the merge yields. *)
Fixpoint drain_loop (fuel : nat) (carriers : list Carrier) (m : MergingIterator) : list KV :=
  match fuel, merge_entry m with
  | S fuel', Some kv => kv :: drain_loop fuel' carriers (merge_next carriers m)
  | _, _ => []
  end.

Definition drain (carriers : list Carrier) (ch : list (list KV)) : list KV :=
  drain_loop (S (remaining ch)) carriers (pick carriers ch).
End Merge.

(** ** What the merge should yield *)

Fixpoint assoc (k : bytes) (c : list KV) : option Entry :=
  match c with
  | [] => None
  | (k', e) :: c' => if slice_eqb k' k then Some e else assoc k c'
  end.

(** The newest child holding the key, children counted from [i]. *)
Fixpoint winner (i : nat) (ch : list (list KV)) (k : bytes) : option (nat * Entry) :=
  match ch with
  | [] => None
  | c :: ch' => match assoc k c with Some e => Some (i, e) | None => winner (S i) ch' k end
  end.

(** A key some newer child's ranges delete. *)
Definition range_shadowed (child_ranges : list (list RangeTombstone)) (i : nat) (k : bytes) : bool :=
  existsb (fun rs => any_covers rs k) (take i child_ranges).

(** The entry the merge keeps for a key. *)
Definition merged_entry (child_ranges : list (list RangeTombstone)) (ch : list (list KV)) (k : bytes)
  : option Entry :=
  match winner 0 ch k with
  | Some (i, e) => if range_shadowed child_ranges i k then None else Some e
  | None => None
  end.

(** ** Lemmas *)

Lemma carrier_covers_any rs k : canonical rs -> carrier_covers rs k = any_covers rs k.
Proof.
  intros Hc. unfold carrier_covers.
  assert (forall r, negb (k <?k lower r) = (lower r <=?k k)) as Eneg.
  { intros r. destruct (k <?k lower r) eqn:?, (lower r <=?k k) eqn:?; try done; exfalso; key_order. }
  pose proof (canonical_partitioned rs k Hc) as Hp.
  assert (partitioned (fun r => negb (k <?k lower r)) rs) as Hp'.
  { intros i j x y. rewrite !Eneg. apply Hp. }
  apply lower_bound_spec in Hp' as [Hn Hspec]. destruct (lower_bound _ rs) as [|at_].
  - symmetry. apply not_true_iff_false. rewrite any_covers_spec. intros (r & Hr & Hlo & _).
    apply list_elem_of_lookup in Hr as [i Hi]. pose proof (proj1 (Hspec i r Hi)) as H. rewrite Eneg, key_leb_le in H.
    specialize (H Hlo). lia.
  - destruct (lookup_lt_is_Some_2 rs at_) as [r Hr]; [lia|]. rewrite Hr. symmetry.
    apply (canonical_lookup rs k at_ r Hc Hr). intros j s Hs. rewrite <- key_leb_le, <- Eneg. by apply Hspec.
Qed.

Lemma shadowed_loop_shift crs n cur k :
  Forall canonical crs ->
  shadowed_loop (List.filter (fun c => negb (bool_decide (carrier_ranges c = [])))
                   (imap (fun i rs => {| child := n + i; carrier_ranges := rs |}) crs)) cur k =
  existsb (fun rs => any_covers rs k) (take (cur - n) crs).
Proof.
  intros Hc. revert n. induction Hc as [|rs crs Hrs Hc IH]; intros n; [by rewrite take_nil|].
  cbn [imap]. specialize (IH (S n)).
  replace (imap ((fun i rs => {| child := n + i; carrier_ranges := rs |}) ∘ S) crs)
    with (imap (fun i rs => {| child := S n + i; carrier_ranges := rs |}) crs)
    by (apply imap_ext; intros i x _; simpl; f_equal; lia).
  cbn [List.filter carrier_ranges]. destruct (bool_decide_reflect (rs = [])) as [->|Hne]; cbn [negb].
  - rewrite IH. destruct (cur - n)%nat as [|m] eqn:E; simpl.
    + by replace (cur - S n)%nat with 0%nat by lia.
    + by replace (cur - S n)%nat with m by lia.
  - cbn [shadowed_loop child carrier_ranges]. destruct (Nat.leb_spec cur (n + 0)).
    + by replace (cur - n)%nat with 0%nat by lia.
    + rewrite IH, carrier_covers_any by done. destruct (cur - n)%nat as [|m] eqn:E; [lia|]. simpl.
      replace (cur - S n)%nat with m by lia. by destruct (any_covers rs k).
Qed.

Lemma shadowed_loop_spec crs cur k :
  Forall canonical crs -> shadowed_loop (make_carriers crs) cur k = range_shadowed crs cur k.
Proof.
  intros Hc. unfold make_carriers, range_shadowed. pose proof (shadowed_loop_shift crs 0 cur k Hc) as E.
  by rewrite Nat.sub_0_r in E.
Qed.

Lemma assoc_None k c : assoc k c = None <-> forall e, (k, e) ∉ c.
Proof.
  induction c as [|[k' e'] c IH]; simpl; [set_solver|]. destruct (slice_eqb k' k) eqn:E.
  - apply slice_eqb_eq in E as ->. split; [done|]. intros H. exfalso. apply (H e'). by left.
  - rewrite IH. split; intros H e; [|intros Hin; apply (H e); by right].
    intros [[= -> ->]|Hin]%elem_of_cons; [|by apply (H e)].
    by rewrite (proj2 (slice_eqb_eq _ _) eq_refl) in E.
Qed.

Section MergeProofs.
Context (better : bytes -> bytes -> bool) `{!Direction better}.

Definition sorted_kvs (c : list KV) : Prop := StronglySorted (fun a b => better a.1 b.1 = true) c.

Lemma better_asym a b : better a b = true -> better b a = false.
Proof.
  intros H. destruct (better b a) eqn:E; [|done]. pose proof (better_trans _ _ _ H E) as Haa.
  by rewrite better_irrefl in Haa.
Qed.

(** What the scan over the children has established so far. *)
Definition picked (l : list (list KV)) (acc : option nat) : Prop :=
  match acc with
  | None => forall c, c ∈ l -> c = []
  | Some cur => exists k e rest, l !! cur = Some ((k, e) :: rest) /\
      forall j c k', l !! j = Some c -> head_key c = Some k' ->
        better k' k = false /\ ((j < cur)%nat -> better k k' = true)
  end.

Lemma pick_step_picked ch l1 c l2 acc :
  ch = l1 ++ c :: l2 -> picked l1 acc -> picked (l1 ++ [c]) (pick_step better ch acc (length l1, c)).
Proof.
  intros Hch Hp. unfold pick_step. cbn [fst snd].
  assert (forall j x k', (l1 ++ [c]) !! j = Some x -> head_key x = Some k' ->
    l1 !! j = Some x \/ (j = length l1 /\ x = c)) as Hcase.
  { intros j x k' Hj _. apply lookup_app_Some in Hj as [?|[? Hj]]; [by left|right].
    apply list_lookup_singleton_Some in Hj as [??]. split; [lia|done]. }
  destruct c as [|[k e] rest]; cbn [head_key head fmap option_fmap option_map fst].
  - destruct acc as [cur|]; simpl in *.
    + destruct Hp as (k & e & rest & Hcur & Hall). exists k, e, rest.
      split; [by apply lookup_app_l_Some|]. intros j c k' Hj Hk.
      destruct (Hcase j c k' Hj Hk) as [?|[_ ->]]; [by eapply Hall|done].
    + intros c [?|?%list_elem_of_singleton]%elem_of_app; [by apply Hp|done].
  - destruct acc as [cur|]; simpl in Hp.
    + destruct Hp as (kc & ec & rc & Hcur & Hall). rewrite Hch, (lookup_app_l_Some _ _ _ _ Hcur). simpl.
      destruct (better k kc) eqn:Eb; simpl.
      * exists k, e, rest. split; [by rewrite list_lookup_middle|]. intros j c k' Hj Hk.
        destruct (Hcase j c k' Hj Hk) as [Hj'|[-> ->]].
        -- destruct (Hall _ _ _ Hj' Hk) as [H1 _]. assert (better k k' = true) as Hkk.
           { destruct (better_total kc k') as [H|[->|H]]; [by eapply better_trans|done|congruence]. }
           split; [by apply better_asym|done].
        -- simpl in Hk. injection Hk as <-. split; [apply better_irrefl|lia].
      * exists kc, ec, rc. split; [by apply lookup_app_l_Some|]. intros j c k' Hj Hk.
        destruct (Hcase j c k' Hj Hk) as [Hj'|[-> ->]]; [by eapply Hall|]. simpl in Hk. injection Hk as <-.
        split; [done|]. apply lookup_lt_Some in Hcur. lia.
    + exists k, e, rest. split; [by rewrite list_lookup_middle|]. intros j c k' Hj Hk.
      destruct (Hcase j c k' Hj Hk) as [Hj'|[-> ->]].
      * assert (c = []) as -> by (apply Hp; by eapply list_elem_of_lookup_2). done.
      * simpl in Hk. injection Hk as <-. split; [apply better_irrefl|lia].
Qed.

Lemma pick_raw_picked ch : picked ch (pick_raw better ch).
Proof.
  unfold pick_raw.
  assert (forall l2 l1 acc, ch = l1 ++ l2 -> picked l1 acc ->
    picked ch (fold_left (pick_step better ch) (imap (fun i c => ((length l1 + i)%nat, c)) l2) acc)) as Hgen.
  { induction l2 as [|c l2 IH]; intros l1 acc Hch Hp; simpl; [by rewrite Hch, app_nil_r|].
    rewrite Nat.add_0_r.
    replace (imap ((fun i c => ((length l1 + i)%nat, c)) ∘ S) l2)
      with (imap (fun i c0 => ((length (l1 ++ [c]) + i)%nat, c0)) l2)
      by (apply imap_ext; intros i x _; simpl; rewrite length_app; simpl; f_equal; lia).
    apply IH; [by rewrite <- app_assoc|]. by eapply pick_step_picked. }
  apply (Hgen ch [] None); [done|]. simpl. set_solver.
Qed.

(** A sorted child whose head is not before [k] holds [k] at its head or not at all. *)
Lemma assoc_head c k :
  sorted_kvs c -> (forall k', head_key c = Some k' -> better k' k = false) ->
  assoc k c = match c with (k', e) :: _ => if slice_eqb k' k then Some e else None | [] => None end.
Proof.
  intros Hs Hh. destruct c as [|[k' e] c]; [done|]. simpl. destruct (slice_eqb k' k) eqn:E; [done|].
  apply assoc_None. intros e' Hin. inversion_clear Hs as [|? ? _ Hf]. rewrite Forall_forall in Hf.
  specialize (Hf _ Hin). simpl in Hf. specialize (Hh k' eq_refl). congruence.
Qed.

(** What stepping over [k0] leaves of a child. *)
Definition advance (k0 : bytes) (c : list KV) : list KV :=
  match head_key c with
  | Some k => if slice_eqb k k0 then tail c else c
  | None => c
  end.

Lemma advance_spec k0 c :
  sorted_kvs c -> (forall k', head_key c = Some k' -> better k' k0 = false) ->
  sorted_kvs (advance k0 c) /\
  (forall k, assoc k (advance k0 c) = if slice_eqb k0 k then None else assoc k c) /\
  (forall kv, kv ∈ advance k0 c -> better k0 kv.1 = true) /\
  (length (advance k0 c) <= length c)%nat.
Proof.
  intros Hs Hh. unfold advance. destruct c as [|[k e] c].
  { simpl. split_and!; [done|intros; by destruct (slice_eqb k0 k)|set_solver|lia]. }
  cbn [head_key head fmap option_fmap option_map fst]. specialize (Hh k eq_refl). pose proof Hs as Hs'.
  inversion_clear Hs as [|? ? Ht Hf]. rewrite Forall_forall in Hf. destruct (slice_eqb k k0) eqn:E.
  - apply slice_eqb_eq in E as ->. simpl. split_and!; [done| |intros kv Hkv; by apply Hf|lia].
    intros k. destruct (slice_eqb k0 k) eqn:E; [|done]. apply slice_eqb_eq in E as ->.
    apply assoc_None. intros e' Hin. specialize (Hf _ Hin). simpl in Hf. by rewrite better_irrefl in Hf.
  - assert (better k0 k = true) as Hk.
    { destruct (better_total k0 k) as [?|[->|?]]; [done| |congruence].
      by rewrite (proj2 (slice_eqb_eq _ _) eq_refl) in E. }
    split_and!; [done| | |done].
    + intros k1. destruct (slice_eqb k0 k1) eqn:E1; [|done]. apply slice_eqb_eq in E1 as ->.
      rewrite assoc_head by (done || (intros ? [= <-]; done)). by rewrite E.
    + intros kv [->|Hkv]%elem_of_cons; [done|]. specialize (Hf _ Hkv). simpl in Hf. by eapply better_trans.
Qed.

(** Where the raw pick landed. *)
Definition landed (ch : list (list KV)) (cur : nat) (k0 : bytes) (e0 : Entry) : Prop :=
  (exists rest, ch !! cur = Some ((k0, e0) :: rest)) /\
  forall j c k', ch !! j = Some c -> head_key c = Some k' ->
    better k' k0 = false /\ ((j < cur)%nat -> better k0 k' = true).

Lemma step_advance ch cur k0 e0 : landed ch cur k0 e0 -> step ch cur = map (advance k0) ch.
Proof.
  intros [(rest & Hcur) _]. unfold step. rewrite Hcur. simpl.
  apply list_eq. intros i. rewrite list_lookup_imap.
  change (map (advance k0) ch) with (advance k0 <$> ch). rewrite list_lookup_fmap.
  destruct (ch !! i) as [c|] eqn:Hi; [|done]. simpl. f_equal.
  destruct (Nat.eqb_spec i cur) as [->|Hne]; [|done].
  rewrite Hcur in Hi. injection Hi as <-. unfold advance. simpl. by rewrite (proj2 (slice_eqb_eq _ _) eq_refl).
Qed.

Definition sorted_children (ch : list (list KV)) : Prop := Forall sorted_kvs ch.

Lemma landed_head ch cur k0 e0 c :
  landed ch cur k0 e0 -> c ∈ ch -> forall k', head_key c = Some k' -> better k' k0 = false.
Proof. intros [_ H] [j Hj]%list_elem_of_lookup k' Hk. by eapply H. Qed.

Lemma winner_step ch i k0 k :
  (forall c, c ∈ ch -> sorted_kvs c /\ forall k', head_key c = Some k' -> better k' k0 = false) ->
  winner i (map (advance k0) ch) k = if slice_eqb k0 k then None else winner i ch k.
Proof.
  revert i. induction ch as [|c ch IH]; intros i Hc; simpl; [by destruct (slice_eqb k0 k)|].
  destruct (Hc c) as [Hs Hh]; [by left|]. destruct (advance_spec k0 c Hs Hh) as (_ & -> & _ & _).
  rewrite IH by (intros; apply Hc; by right). by destruct (slice_eqb k0 k), (assoc k c).
Qed.

(** The landing key's newest holder is the child it landed on. *)
Lemma winner_landed ch cur k0 e0 :
  sorted_children ch -> landed ch cur k0 e0 -> winner 0 ch k0 = Some (cur, e0).
Proof.
  intros Hs [(rest & Hcur) Hall].
  assert (forall i l1 l2, ch = l1 ++ l2 -> i = length l1 -> (i <= cur)%nat -> winner i l2 k0 = Some (cur, e0)) as Hgen.
  { intros i l1 l2. revert i l1. induction l2 as [|c l2 IH]; intros i l1 Hch -> Hle.
    { rewrite Hch, app_nil_r in Hcur. apply lookup_lt_Some in Hcur. lia. }
    assert (ch !! length l1 = Some c) as Hc by (rewrite Hch; by apply list_lookup_middle).
    assert (sorted_kvs c) as Hsc by (eapply Forall_lookup_1; [exact Hs|exact Hc]).
    simpl. rewrite assoc_head; [|done|intros; by eapply Hall].
    destruct (decide (length l1 = cur)) as [E|Hne].
    - rewrite E, Hcur in Hc. injection Hc as <-. rewrite (proj2 (slice_eqb_eq _ _) eq_refl). by rewrite E.
    - replace (match c with [] => None | (k', e) :: _ => if slice_eqb k' k0 then Some e else None end)
        with (@None Entry).
      + apply (IH (S (length l1)) (l1 ++ [c])); [by rewrite <- app_assoc|rewrite length_app; simpl; lia|lia].
      + destruct c as [|[k e] c]; [done|]. destruct (slice_eqb k k0) eqn:E; [|done].
        apply slice_eqb_eq in E as ->. destruct (Hall _ _ _ Hc eq_refl) as [_ H].
        rewrite better_irrefl in H. by specialize (H ltac:(lia)). }
  by apply (Hgen 0%nat [] ch); [| |lia].
Qed.

Lemma remaining_map (f : list KV -> list KV) ch :
  (forall c, c ∈ ch -> (length (f c) <= length c)%nat) ->
  (remaining (map f ch) <= remaining ch)%nat /\
  forall cur c, ch !! cur = Some c -> (length (f c) < length c)%nat -> (remaining (map f ch) < remaining ch)%nat.
Proof.
  unfold remaining. induction ch as [|c ch IH]; intros Hle; simpl; [done|].
  destruct IH as [IH1 IH2]; [intros; apply Hle; by right|]. specialize (Hle c ltac:(by left)).
  split; [lia|]. intros [|cur] c' Hcur Hlt; simpl in Hcur; [simplify_eq; lia|]. specialize (IH2 _ _ Hcur Hlt). lia.
Qed.

Lemma landed_sorted ch cur k0 e0 :
  sorted_children ch -> landed ch cur k0 e0 ->
  forall c, c ∈ ch -> sorted_kvs c /\ forall k', head_key c = Some k' -> better k' k0 = false.
Proof.
  intros Hs Hl c Hc. split; [|by eapply landed_head]. unfold sorted_children in Hs.
  rewrite Forall_forall in Hs. by apply Hs.
Qed.

Lemma remaining_step ch cur k0 e0 :
  sorted_children ch -> landed ch cur k0 e0 -> (remaining (map (advance k0) ch) < remaining ch)%nat.
Proof.
  intros Hs Hl. pose proof Hl as [(rest & Hcur) _].
  refine (proj2 (remaining_map (advance k0) ch _) cur _ Hcur _).
  - intros c Hc. destruct (landed_sorted _ _ _ _ Hs Hl c Hc). by apply advance_spec.
  - unfold advance. simpl. rewrite (proj2 (slice_eqb_eq _ _) eq_refl). simpl. lia.
Qed.

(** The merge, entry by entry. [crs] are the ranges of the children. *)
Section Drain.
Context (crs : list (list RangeTombstone)) (Hcrs : Forall canonical crs).

(** What a fully drained merge yields for given children. *)
Definition yields (ch : list (list KV)) (out : list KV) : Prop :=
  sorted_kvs out /\ (forall k, assoc k out = merged_entry crs ch k) /\
  (forall kv, kv ∈ out -> exists c, c ∈ ch /\ kv ∈ c).

Lemma yields_nil ch : (forall c, c ∈ ch -> c = []) -> yields ch [].
Proof.
  intros Hn. split_and!; [constructor| |set_solver]. intros k. unfold merged_entry. simpl.
  enough (forall i, winner i ch k = None) as -> by done. clear Hcrs. induction ch as [|c ch IH]; intros i; [done|].
  simpl. rewrite (Hn c) by (by left). simpl. apply IH. intros; apply Hn; by right.
Qed.

Lemma sorted_advance ch cur k0 e0 :
  sorted_children ch -> landed ch cur k0 e0 -> sorted_children (map (advance k0) ch).
Proof.
  intros Hs Hl. unfold sorted_children. rewrite Forall_map, Forall_forall. intros c Hc.
  destruct (landed_sorted _ _ _ _ Hs Hl c Hc) as [Hsc Hh]. simpl. by apply advance_spec.
Qed.

Lemma merged_entry_step ch cur k0 e0 k :
  sorted_children ch -> landed ch cur k0 e0 ->
  merged_entry crs ch k =
  if slice_eqb k0 k then (if range_shadowed crs cur k0 then None else Some e0)
  else merged_entry crs (map (advance k0) ch) k.
Proof.
  intros Hs Hl. unfold merged_entry at 1. destruct (slice_eqb k0 k) eqn:E.
  - apply slice_eqb_eq in E as <-. by rewrite (winner_landed _ _ _ _ Hs Hl).
  - unfold merged_entry. rewrite (winner_step ch 0 k0 k (landed_sorted _ _ _ _ Hs Hl)). by rewrite E.
Qed.

Lemma elem_advance k0 c kv : kv ∈ advance k0 c -> kv ∈ c.
Proof.
  unfold advance. destruct c as [|[k e] c]; [done|]. simpl. case_match; [by right|done].
Qed.

(** Entries the step leaves out. *)
Lemma yields_skip ch cur k0 e0 out :
  sorted_children ch -> landed ch cur k0 e0 -> range_shadowed crs cur k0 = true ->
  yields (map (advance k0) ch) out -> yields ch out.
Proof.
  intros Hs Hl Hsh (Ho & Ha & Hin). split_and!; [done| |].
  - intros k. rewrite (merged_entry_step _ _ _ _ _ Hs Hl), Hsh, Ha.
    destruct (slice_eqb k0 k) eqn:E; [|done]. unfold merged_entry.
    rewrite (winner_step ch 0 k0 k (landed_sorted _ _ _ _ Hs Hl)), E. done.
  - intros kv Hkv. destruct (Hin kv Hkv) as (c & (c0 & -> & Hc0)%list_elem_of_fmap & Hk). exists c0.
    split; [done|by eapply elem_advance].
Qed.

Lemma yields_cons ch cur k0 e0 out :
  sorted_children ch -> landed ch cur k0 e0 -> range_shadowed crs cur k0 = false ->
  yields (map (advance k0) ch) out -> yields ch ((k0, e0) :: out).
Proof.
  intros Hs Hl Hsh (Ho & Ha & Hin). split_and!.
  - constructor; [done|]. rewrite Forall_forall. intros kv Hkv.
    destruct (Hin kv Hkv) as (c & (c0 & -> & Hc0)%list_elem_of_fmap & Hk). simpl.
    destruct (landed_sorted _ _ _ _ Hs Hl c0 Hc0) as [Hsc Hh]. by apply (advance_spec k0 c0 Hsc Hh).
  - intros k. rewrite (merged_entry_step _ _ _ _ _ Hs Hl), Hsh. simpl. destruct (slice_eqb k0 k); [done|apply Ha].
  - intros kv [->|Hkv]%elem_of_cons.
    + destruct Hl as [(rest & Hcur) _]. exists ((k0, e0) :: rest). split; [by eapply list_elem_of_lookup_2|by left].
    + destruct (Hin kv Hkv) as (c & (c0 & -> & Hc0)%list_elem_of_fmap & Hk). exists c0.
      split; [done|by eapply elem_advance].
Qed.

Lemma pick_landed ch :
  match pick_raw better ch with
  | None => forall c, c ∈ ch -> c = []
  | Some cur => exists k0 e0, landed ch cur k0 e0 /\
      shadowed (make_carriers crs) ch cur = range_shadowed crs cur k0
  end.
Proof.
  pose proof (pick_raw_picked ch) as H. destruct (pick_raw better ch) as [cur|]; [|done].
  destruct H as (k & e & rest & Hcur & Hall). exists k, e. split; [split; [by exists rest|done]|].
  unfold shadowed. rewrite Hcur. simpl. by apply shadowed_loop_spec.
Qed.

Lemma drain_yields_gen n ch :
  (remaining ch <= n)%nat -> sorted_children ch ->
  forall f1 f2, (remaining ch <= f1)%nat -> (remaining ch < f2)%nat ->
  yields ch (drain_loop better f2 (make_carriers crs) (pick_loop better f1 (make_carriers crs) ch)).
Proof.
  revert ch. induction n as [n IH] using lt_wf_ind. intros ch Hn Hs f1 f2 Hf1 Hf2.
  pose proof (pick_landed ch) as Hp. destruct f1 as [|f1]; cbn [pick_loop].
  - destruct (pick_raw better ch) as [cur|].
    + destruct Hp as (k0 & e0 & Hl & _). pose proof (remaining_step _ _ _ _ Hs Hl). lia.
    + destruct f2; simpl; by apply yields_nil.
  - destruct (pick_raw better ch) as [cur|]; [|destruct f2; simpl; by apply yields_nil].
    destruct Hp as (k0 & e0 & Hl & ->). pose proof (remaining_step _ _ _ _ Hs Hl) as Hlt.
    pose proof (sorted_advance _ _ _ _ Hs Hl) as Hs'. destruct (range_shadowed crs cur k0) eqn:Esh.
    + apply (yields_skip _ cur k0 e0); [done..|]. rewrite (step_advance _ _ _ _ Hl).
      apply (IH (remaining (map (advance k0) ch))); lia || done.
    + destruct f2 as [|f2]; [lia|]. cbn [drain_loop]. destruct (Hl) as [(rest & Hcur) _].
      unfold merge_entry. simpl. rewrite Hcur. simpl. apply (yields_cons _ cur); [done..|].
      unfold merge_next. cbn [fst snd]. unfold pick. rewrite (step_advance _ _ _ _ Hl).
      apply (IH (remaining (map (advance k0) ch))); lia || done.
Qed.

Lemma drain_yields ch : sorted_children ch -> yields ch (drain better (make_carriers crs) ch).
Proof. intros Hs. apply (drain_yields_gen (remaining ch)); [done|done|done|lia]. Qed.
End Drain.
End MergeProofs.

(** ** Properties *)

(** C19: the merge yields, for each key, the entry of the newest child that holds it, unless a newer
    child's range tombstone covers the key; every key once, in the scan's order, in either direction,
    and nothing that no child holds. *)
Theorem merge_yields_newest (descending : bool) crs ch :
  let better := if descending then backward else forward in
  Forall canonical crs -> Forall (sorted_kvs better) ch ->
  sorted_kvs better (drain better (make_carriers crs) ch) /\
  (forall k, assoc k (drain better (make_carriers crs) ch) = merged_entry crs ch k) /\
  (forall kv, kv ∈ drain better (make_carriers crs) ch -> exists c, c ∈ ch /\ kv ∈ c).
Proof.
  cbv zeta. intros Hc Hs. destruct descending.
  - by apply (drain_yields backward crs Hc ch).
  - by apply (drain_yields forward crs Hc ch).
Qed.

Lemma merge_yields_newest_witness :
  assoc [x62] (drain forward (make_carriers [[mkRange [x62] [x63]]; []]) [[([x61], (Put, [x31]))]; [([x62], (Put, [x32]))]]) =
  merged_entry [[mkRange [x62] [x63]]; []] [[([x61], (Put, [x31]))]; [([x62], (Put, [x32]))]] [x62].
Proof.
  apply (merge_yields_newest false [[mkRange [x62] [x63]]; []] [[([x61], (Put, [x31]))]; [([x62], (Put, [x32]))]]).
  - repeat constructor.
  - repeat constructor.
Defined.
