(* ===== verification/Sst.v ===== *)
(** * Sorted string tables: what a file says

    The logical content of a file, the bookkeeping of [SstWriter] ([src/sst/sst_writer.cpp]) that
    turns into the manifest's [FileMetadata], and what a reader of the file promises to the engine
    ([SstReaderLaws], the contract of [src/sst/sst_reader.cpp] its clients rely on). *)

From S2P Require Import Prelude Slice Format Framing Watermark VersionEdit Version Memtable Merging.

(** ** Definitions *)

(** Entries in key order, and the disjoint sorted ranges the file deletes. *)
Record Sst := { entries : list KV; ranges : list RangeTombstone }.

(** [SstWriter]: the entries and ranges added so far, the last first, with the counters kept beside
    them. Blocks, filter and footer are the encoding of these two lists. *)
Record SstWriter := {
  w_entries : list KV;
  w_ranges : list RangeTombstone;
  w_smallest_key : bytes;
  w_largest_key : bytes;
  w_num_entries : Z;
  w_num_tombstones : Z;
  w_num_range_tombstones : Z;
  w_smallest_range_key : bytes;
  w_largest_range_key : bytes
}.

Definition new_writer : SstWriter :=
  {| w_entries := []; w_ranges := []; w_smallest_key := []; w_largest_key := []; w_num_entries := 0;
     w_num_tombstones := 0; w_num_range_tombstones := 0; w_smallest_range_key := [];
     w_largest_range_key := [] |}.

Definition writer_add (w : SstWriter) (kv : KV) : SstWriter :=
  {| w_entries := kv :: w_entries w;
     w_ranges := w_ranges w;
     w_smallest_key := if w_num_entries w =? 0 then kv.1 else w_smallest_key w;
     w_largest_key := kv.1;
     w_num_entries := u64 (w_num_entries w + 1);
     w_num_tombstones := if is_delete kv.2.1 then u64 (w_num_tombstones w + 1) else w_num_tombstones w;
     w_num_range_tombstones := w_num_range_tombstones w;
     w_smallest_range_key := w_smallest_range_key w;
     w_largest_range_key := w_largest_range_key w |}.

Definition writer_add_range_tombstone (w : SstWriter) (r : RangeTombstone) : SstWriter :=
  {| w_entries := w_entries w;
     w_ranges := r :: w_ranges w;
     w_smallest_key := w_smallest_key w;
     w_largest_key := w_largest_key w;
     w_num_entries := w_num_entries w;
     w_num_tombstones := w_num_tombstones w;
     w_num_range_tombstones := u64 (w_num_range_tombstones w + 1);
     w_smallest_range_key := if w_num_range_tombstones w =? 0 then lower r else w_smallest_range_key w;
     w_largest_range_key := upper r |}.

(** The part of [SstBuildResult] the engine records, and the content it stands for. *)
Definition writer_content (w : SstWriter) : Sst :=
  {| entries := rev (w_entries w); ranges := rev (w_ranges w) |}.

(** [build_sst]: the ranges first, then the entries of the source. *)
Definition build_sst (source : list KV) (drop_tombstones : bool) (rs : list RangeTombstone) : SstWriter :=
  let w := fold_left writer_add_range_tombstone rs new_writer in
  fold_left (fun w kv => if drop_tombstones && is_delete kv.2.1 then w else writer_add w kv) source w.

(** What the caller of the writer adds to make the file's manifest record. *)
Record Placement := {
  p_level : Z;
  p_number : Z;
  p_store : bytes;
  p_bytes : Z;
  p_compression : Compression;
  p_min_time : Z;
  p_max_time : Z;
  p_watermark : WatermarkInterval;
  p_provider : bytes;
  p_metadata : bytes
}.

(** The [FileMetadata] filled in by [flush_memtable] and by [finish_output] of
    [write_compaction_outputs], field by field. *)
Definition file_of (p : Placement) (w : SstWriter) : FileMetadata :=
  {| level := p_level p; file_number := p_number p; store_id := p_store p;
     smallest_key := w_smallest_key w; largest_key := w_largest_key w; file_bytes := p_bytes p;
     num_entries := w_num_entries w; num_tombstones := w_num_tombstones w;
     num_range_tombstones := w_num_range_tombstones w;
     smallest_range_key := w_smallest_range_key w; largest_range_key := w_largest_range_key w;
     compression := p_compression p; min_write_time_ms := p_min_time p;
     max_write_time_ms := p_max_time p; watermark := p_watermark p;
     encryption_provider := p_provider p; encryption_metadata := p_metadata p |}.

(** [file_may_contain] of [src/db/db_impl.cpp]. *)
Definition file_may_contain (f : FileMetadata) (key : bytes) : bool :=
  negb (key <?k smallest_key f) && negb (largest_key f <?k key).

(** The reader a file is read through: point lookups, the covering test, the ranges, a full scan. *)
Class SstReaderOps (R : Type) := {
  sr_get : R -> bytes -> Result (option Entry);
  sr_range_deletes : R -> bytes -> Result bool;
  sr_range_tombstones : R -> Result (list RangeTombstone);
  sr_entries : R -> Result (list KV)
}.

(** A reader that answers for the content [c]. *)
Class SstReaderLaws {R} (ops : SstReaderOps R) (r : R) (c : Sst) : Prop := {
  law_get : forall k, sr_get r k = Value (assoc k (entries c));
  law_range_deletes : forall k, sr_range_deletes r k = Value (any_covers (ranges c) k);
  law_range_tombstones : sr_range_tombstones r = Value (ranges c);
  law_entries : sr_entries r = Value (entries c)
}.

(** A file's content is its own reader. *)
#[export] Instance sst_content_reader : SstReaderOps Sst := {
  sr_get c k := Value (assoc k (entries c));
  sr_range_deletes c k := Value (any_covers (ranges c) k);
  sr_range_tombstones c := Value (ranges c);
  sr_entries c := Value (entries c)
}.

#[export] Instance sst_content_reader_laws c : SstReaderLaws sst_content_reader c c.
Proof. by split. Qed.

(** ** What a file decides about a key *)

Definition verdict_of (found : option Entry) (covered : bool) : option Entry :=
  match found with
  | Some e => Some e
  | None => if covered then Some (Delete, []) else None
  end.

Definition sst_verdict (c : Sst) (k : bytes) : option Entry :=
  verdict_of (assoc k (entries c)) (any_covers (ranges c) k).

(** ** The manifest record describes the content *)

Definition key_sorted (l : list KV) : Prop := StronglySorted (fun a b => a.1 <k b.1) l.

Record describes (f : FileMetadata) (c : Sst) : Prop := {
  d_sorted : key_sorted (entries c);
  d_canonical : canonical (ranges c);
  d_entries : num_entries f = Z.of_nat (length (entries c));
  d_ranges : num_range_tombstones f = Z.of_nat (length (ranges c));
  d_tombstones : num_tombstones f = 0 -> forall kv, kv ∈ entries c -> kv.2.1 = Put;
  d_no_data : entries c = [] -> smallest_key f = [] /\ largest_key f = [];
  d_first : forall kv, head (entries c) = Some kv -> smallest_key f = kv.1;
  d_last : forall kv, last (entries c) = Some kv -> largest_key f = kv.1;
  d_range_first : forall r, head (ranges c) = Some r -> smallest_range_key f = lower r;
  d_range_last : forall r, last (ranges c) = Some r -> largest_range_key f = upper r;
  d_some : entries c <> [] \/ ranges c <> []
}.

(** *** Spans bound what the file decides *)

Lemma sorted_bounds {A} (le : A -> A -> Prop) `{!Reflexive le} (l : list A) x :
  StronglySorted le l -> x ∈ l ->
  (forall h, head l = Some h -> le h x) /\ (forall t, last l = Some t -> le x t).
Proof.
  intros Hs Hx. split.
  - intros h Hh. destruct l as [|a l]; simplify_eq/=. inversion_clear Hs as [|? ? _ Hf].
    apply elem_of_cons in Hx as [->|Hx]; [done|]. rewrite Forall_forall in Hf. by apply Hf.
  - intros t Ht. apply last_Some in Ht as [l' ->]. apply elem_of_app in Hx as [Hx|Hx].
    + apply (StronglySorted_app_1_elem_of le l' [t]); [done|done|by left].
    + apply list_elem_of_singleton in Hx as ->. done.
Qed.

Lemma key_sorted_le l : key_sorted l -> StronglySorted (fun a b : KV => a.1 <=k b.1) l.
Proof.
  induction 1 as [|a l _ IH Hf]; constructor; [done|]. eapply Forall_impl; [exact Hf|]. simpl. intros; key_order.
Qed.

Lemma assoc_app k l1 l2 : assoc k (l1 ++ l2) = match assoc k l1 with Some e => Some e | None => assoc k l2 end.
Proof. induction l1 as [|[k' e] l1 IH]; simpl; [done|]. by destruct (slice_eqb k' k). Qed.

Lemma assoc_elem l k e : key_sorted l -> assoc k l = Some e <-> (k, e) ∈ l.
Proof.
  induction 1 as [|[k' e'] l Hs IH Hf]; simpl; [set_solver|]. rewrite Forall_forall in Hf.
  destruct (slice_eqb k' k) eqn:E.
  - apply slice_eqb_eq in E as ->. rewrite elem_of_cons. split; [intros [= ->]; by left|].
    intros [[= ->]|Hin]; [done|]. specialize (Hf _ Hin). simpl in Hf. exfalso. key_order.
  - rewrite IH, elem_of_cons. split; [auto|]. intros [[= -> ->]|?]; [|done].
    by rewrite (proj2 (slice_eqb_eq _ _) eq_refl) in E.
Qed.

Lemma describes_hold f c k e :
  describes f c -> assoc k (entries c) = Some e ->
  num_entries f <> 0 /\ smallest_key f <=k k /\ k <=k largest_key f.
Proof.
  intros Hd Ha. pose proof (d_sorted _ _ Hd) as Hs. apply assoc_elem in Ha; [|done].
  assert (Reflexive (fun a b : KV => a.1 <=k b.1)) by (intros x; key_order).
  destruct (sorted_bounds _ _ _ (key_sorted_le _ Hs) Ha) as [Hh Hl].
  split; [|split].
  - rewrite (d_entries _ _ Hd). destruct (entries c); [by apply elem_of_nil in Ha|simpl; lia].
  - destruct (head (entries c)) as [kv|] eqn:E; [|by destruct (entries c); [apply elem_of_nil in Ha|]].
    rewrite (d_first _ _ Hd kv E). by apply (Hh kv).
  - destruct (last (entries c)) as [kv|] eqn:E; [|apply last_None in E; rewrite E in Ha; by apply elem_of_nil in Ha].
    rewrite (d_last _ _ Hd kv E). by apply (Hl kv).
Qed.

Lemma canonical_le rs : canonical rs -> StronglySorted (fun a b => lower a <=k lower b /\ upper a <=k upper b) rs.
Proof.
  intros [Hs Hf]. induction Hs as [|r rs Hs IH Hr]; constructor.
  - apply IH. by apply Forall_cons in Hf as [_ ?].
  - apply Forall_cons in Hf as [H1 H2]. rewrite Forall_forall in *. intros x Hx. specialize (Hr x Hx).
    specialize (H2 x Hx). unfold ranges_apart in Hr. split; key_order.
Qed.

Lemma describes_range_bounds f c r :
  describes f c -> r ∈ ranges c ->
  num_range_tombstones f <> 0 /\ smallest_range_key f <=k lower r /\ upper r <=k largest_range_key f.
Proof.
  intros Hd Hr. pose proof (canonical_le _ (d_canonical _ _ Hd)) as Hs.
  assert (Reflexive (fun a b => lower a <=k lower b /\ upper a <=k upper b)) by (intros x; split; key_order).
  destruct (sorted_bounds _ _ _ Hs Hr) as [Hh Hl]. split_and!.
  - rewrite (d_ranges _ _ Hd). destruct (ranges c); [by apply elem_of_nil in Hr|simpl; lia].
  - destruct (head (ranges c)) as [x|] eqn:E; [|by destruct (ranges c); [apply elem_of_nil in Hr|]].
    rewrite (d_range_first _ _ Hd x E). by apply (Hh x).
  - destruct (last (ranges c)) as [x|] eqn:E; [|apply last_None in E; rewrite E in Hr; by apply elem_of_nil in Hr].
    rewrite (d_range_last _ _ Hd x E). by apply (Hl x).
Qed.

Lemma describes_cover f c k :
  describes f c -> any_covers (ranges c) k = true ->
  num_range_tombstones f <> 0 /\ smallest_range_key f <=k k /\ k <k largest_range_key f.
Proof.
  intros Hd (r & Hr & Hlo & Hhi)%any_covers_spec.
  destruct (describes_range_bounds _ _ _ Hd Hr) as (? & ? & ?). split_and!; [done|key_order|key_order].
Qed.

(** Pruning by the manifest loses nothing. *)
Lemma may_contain_false f c k :
  describes f c -> file_may_contain f k = false -> assoc k (entries c) = None.
Proof.
  intros Hd Hm. destruct (assoc k (entries c)) as [e|] eqn:E; [|done]. exfalso.
  destruct (describes_hold _ _ _ _ Hd E) as (_ & ? & ?). unfold file_may_contain in Hm.
  destruct (k <?k smallest_key f) eqn:?, (largest_key f <?k k) eqn:?; try done; key_order.
Qed.

Lemma may_cover_false f c k :
  describes f c -> range_may_cover f k = false -> any_covers (ranges c) k = false.
Proof.
  intros Hd Hm. destruct (any_covers (ranges c) k) eqn:E; [|done]. exfalso.
  destruct (describes_cover _ _ _ Hd E) as (? & ? & ?). unfold range_may_cover in Hm.
  destruct (Z.eqb_spec (num_range_tombstones f) 0); [done|]. simpl in Hm.
  destruct (smallest_range_key f <=?k k) eqn:?, (k <?k largest_range_key f) eqn:?; try done; key_order.
Qed.

(** Whatever a file decides lies in its effective span. *)
Lemma verdict_effective f c k :
  describes f c -> sst_verdict c k <> None -> effective_smallest f <=k k /\ k <=k effective_largest f.
Proof.
  intros Hd Hv. unfold sst_verdict, verdict_of in Hv. unfold effective_smallest, effective_largest, key_min, key_max.
  destruct (assoc k (entries c)) as [e|] eqn:E.
  - destruct (describes_hold _ _ _ _ Hd E) as (Hn & ? & ?).
    destruct (Z.eqb_spec (num_range_tombstones f) 0); [done|]. destruct (Z.eqb_spec (num_entries f) 0); [done|].
    split; case_match; key_order.
  - destruct (any_covers (ranges c) k) eqn:Ec; [|done]. destruct (describes_cover _ _ _ Hd Ec) as (Hn & ? & ?).
    destruct (Z.eqb_spec (num_range_tombstones f) 0); [done|]. destruct (Z.eqb_spec (num_entries f) 0); [split; key_order|].
    split; case_match; key_order.
Qed.

(** *** What the writer records describes what it was given *)

Definition count_deletes (l : list KV) : Z := Z.of_nat (length (List.filter (fun kv => is_delete kv.2.1) l)).

Record writer_ok (w : SstWriter) : Prop := {
  wo_entries : w_num_entries w = Z.of_nat (length (w_entries w));
  wo_ranges : w_num_range_tombstones w = Z.of_nat (length (w_ranges w));
  wo_tombstones : w_num_tombstones w = count_deletes (w_entries w);
  wo_smallest : w_smallest_key w = default [] (fst <$> last (w_entries w));
  wo_largest : w_largest_key w = default [] (fst <$> head (w_entries w));
  wo_range_smallest : w_smallest_range_key w = default [] (lower <$> last (w_ranges w));
  wo_range_largest : w_largest_range_key w = default [] (upper <$> head (w_ranges w))
}.

Lemma writer_ok_new : writer_ok new_writer.
Proof. by split. Qed.

Lemma last_cons_nonempty {A} (x : A) l : l <> [] -> last (x :: l) = last l.
Proof. by destruct l. Qed.

Lemma writer_ok_add w kv :
  writer_ok w -> Z.of_nat (length (w_entries w)) + 1 < 2 ^ 64 -> writer_ok (writer_add w kv).
Proof.
  intros Hw Hlen. pose proof (filter_length_le (fun kv => is_delete kv.2.1) (w_entries w)) as Hle.
  split; simpl; try apply Hw; try done.
  - rewrite (wo_entries _ Hw), u64_small by (unfold is_u64; lia). lia.
  - rewrite (wo_tombstones _ Hw). unfold count_deletes. simpl.
    destruct (is_delete kv.2.1); [|done]. rewrite u64_small by (unfold is_u64; lia). simpl. lia.
  - rewrite (wo_entries _ Hw). destruct (w_entries w) as [|x l] eqn:E; [done|].
    rewrite last_cons_nonempty by done. rewrite <- E, <- (wo_smallest _ Hw). by rewrite E.
Qed.

Lemma writer_ok_add_range w r :
  writer_ok w -> Z.of_nat (length (w_ranges w)) + 1 < 2 ^ 64 -> writer_ok (writer_add_range_tombstone w r).
Proof.
  intros Hw Hlen. split; simpl; try apply Hw; try done.
  - rewrite (wo_ranges _ Hw), u64_small by (unfold is_u64; lia). lia.
  - rewrite (wo_ranges _ Hw). destruct (w_ranges w) as [|x l] eqn:E; [done|].
    rewrite last_cons_nonempty by done. rewrite <- E, <- (wo_range_smallest _ Hw). by rewrite E.
Qed.

Lemma head_rev {A} (l : list A) : head (rev l) = last l.
Proof. rewrite rev_alt. apply head_reverse. Qed.

Lemma last_rev {A} (l : list A) : last (rev l) = head l.
Proof. rewrite rev_alt. apply last_reverse. Qed.

Lemma writer_describes p w :
  writer_ok w -> key_sorted (rev (w_entries w)) -> canonical (rev (w_ranges w)) ->
  w_entries w <> [] \/ w_ranges w <> [] -> describes (file_of p w) (writer_content w).
Proof.
  intros Hw Hs Hc Hne. split; simpl; try done.
  - by rewrite length_rev, (wo_entries _ Hw).
  - by rewrite length_rev, (wo_ranges _ Hw).
  - rewrite (wo_tombstones _ Hw). unfold count_deletes. intros H0 kv Hkv. rewrite elem_of_rev in Hkv.
    destruct kv as [k [[] v]]; simpl; [|done].
    assert ((k, (Delete, v)) ∈ List.filter (fun kv : KV => is_delete kv.2.1) (w_entries w)) as Hin
      by (apply (elem_of_filter_bool (fun kv : KV => is_delete kv.2.1)); done).
    destruct (List.filter _ _); [by apply elem_of_nil in Hin|simpl in H0; lia].
  - intros H. rewrite (wo_smallest _ Hw), (wo_largest _ Hw).
    assert (w_entries w = []) as -> by (rewrite <- (rev_involutive (w_entries w)), H; done). done.
  - intros kv. rewrite head_rev, (wo_smallest _ Hw). by intros ->.
  - intros kv. rewrite last_rev, (wo_largest _ Hw). by intros ->.
  - intros r. rewrite head_rev, (wo_range_smallest _ Hw). by intros ->.
  - intros r. rewrite last_rev, (wo_range_largest _ Hw). by intros ->.
  - destruct Hne as [H|H]; [left|right]; intros E; apply H; by rewrite <- (rev_involutive _), E.
Qed.

(** Adding in bulk. *)
Lemma writer_adds es w :
  writer_ok w -> Z.of_nat (length (w_entries w)) + Z.of_nat (length es) < 2 ^ 64 ->
  let w' := fold_left writer_add es w in
  writer_ok w' /\ w_entries w' = rev es ++ w_entries w /\ w_ranges w' = w_ranges w.
Proof.
  cbv zeta. revert w. induction es as [|e es IH]; intros w Hw Hlen; simpl; [done|].
  destruct (IH (writer_add w e)) as (H1 & H2 & H3); [apply writer_ok_add; [done|simpl in Hlen; lia]|simpl in *; lia|].
  split_and!; [done|by rewrite H2, <- app_assoc|done].
Qed.

Lemma writer_add_ranges rs w :
  writer_ok w -> Z.of_nat (length (w_ranges w)) + Z.of_nat (length rs) < 2 ^ 64 ->
  let w' := fold_left writer_add_range_tombstone rs w in
  writer_ok w' /\ w_ranges w' = rev rs ++ w_ranges w /\ w_entries w' = w_entries w.
Proof.
  cbv zeta. revert w. induction rs as [|r rs IH]; intros w Hw Hlen; simpl; [done|].
  destruct (IH (writer_add_range_tombstone w r)) as (H1 & H2 & H3);
    [apply writer_ok_add_range; [done|simpl in Hlen; lia]|simpl in *; lia|].
  split_and!; [done|by rewrite H2, <- app_assoc|done].
Qed.

(** ** Effective spans *)

Lemma describes_data_le f c : describes f c -> num_entries f <> 0 -> smallest_key f <=k largest_key f.
Proof.
  intros Hd Hn. rewrite (d_entries _ _ Hd) in Hn. destruct (entries c) as [|[k e] l] eqn:E; [done|].
  assert (assoc k (entries c) = Some e) as Ha by (rewrite E; simpl; by rewrite (proj2 (slice_eqb_eq _ _) eq_refl)).
  destruct (describes_hold _ _ _ _ Hd Ha) as (_ & ? & ?). key_order.
Qed.

Lemma describes_range_lt f c :
  describes f c -> num_range_tombstones f <> 0 -> smallest_range_key f <k largest_range_key f.
Proof.
  intros Hd Hn. rewrite (d_ranges _ _ Hd) in Hn. destruct (ranges c) as [|r l] eqn:E; [done|].
  assert (r ∈ ranges c) as Hr by (rewrite E; by left).
  destruct (describes_range_bounds _ _ _ Hd Hr) as (_ & ? & ?).
  pose proof (d_canonical _ _ Hd) as [_ Hf]. rewrite Forall_forall in Hf. specialize (Hf r Hr). key_order.
Qed.

(** The effective bounds, without the case analysis on what the file carries. *)
Lemma effective_spec f c :
  describes f c ->
  (num_entries f <> 0 -> effective_smallest f <=k smallest_key f /\ largest_key f <=k effective_largest f) /\
  (num_range_tombstones f <> 0 ->
     effective_smallest f <=k smallest_range_key f /\ largest_range_key f <=k effective_largest f) /\
  ((num_entries f <> 0 /\ effective_smallest f = smallest_key f) \/
   (num_range_tombstones f <> 0 /\ effective_smallest f = smallest_range_key f)) /\
  ((num_entries f <> 0 /\ effective_largest f = largest_key f) \/
   (num_range_tombstones f <> 0 /\ effective_largest f = largest_range_key f)).
Proof.
  intros Hd. assert (num_entries f <> 0 \/ num_range_tombstones f <> 0) as Hsome.
  { rewrite (d_entries _ _ Hd), (d_ranges _ _ Hd). destruct (d_some _ _ Hd) as [H|H]; [left|right].
    - destruct (entries c); [done|simpl; lia].
    - destruct (ranges c); [done|simpl; lia]. }
  unfold effective_smallest, effective_largest, key_min, key_max.
  destruct (Z.eqb_spec (num_range_tombstones f) 0) as [E|E], (Z.eqb_spec (num_entries f) 0) as [E'|E']; try tauto.
  - split_and!; try done; intros; try (split; key_order); left; done.
  - split_and!; try done; intros; try (split; key_order); right; done.
  - split_and!; intros; try (split; case_match; key_order);
      case_match; (first [left; done | right; done]).
Qed.

Lemma effective_le f c : describes f c -> effective_smallest f <=k effective_largest f.
Proof.
  intros Hd. destruct (effective_spec _ _ Hd) as (H1 & H2 & [[Hn _]|[Hn _]] & _).
  - destruct (H1 Hn). pose proof (describes_data_le _ _ Hd Hn). key_order.
  - destruct (H2 Hn). pose proof (describes_range_lt _ _ Hd Hn). key_order.
Qed.

(** *** The bounds a file records are attained *)

Lemma describes_largest f c :
  describes f c -> num_entries f <> 0 -> exists e, (largest_key f, e) ∈ entries c.
Proof.
  intros Hd Hn. rewrite (d_entries _ _ Hd) in Hn. destruct (last (entries c)) as [[k e]|] eqn:E.
  - exists e. rewrite (d_last _ _ Hd _ E). simpl. by apply last_Some_elem_of.
  - apply last_None in E. by rewrite E in Hn.
Qed.

Lemma describes_range_largest f c :
  describes f c -> num_range_tombstones f <> 0 -> exists r, r ∈ ranges c /\ largest_range_key f = upper r.
Proof.
  intros Hd Hn. rewrite (d_ranges _ _ Hd) in Hn. destruct (last (ranges c)) as [r|] eqn:E.
  - exists r. split; [by apply last_Some_elem_of|by apply (d_range_last _ _ Hd)].
  - apply last_None in E. by rewrite E in Hn.
Qed.

(** A file decides the first key of its effective span. *)
Lemma effective_touched f c : describes f c -> sst_verdict c (effective_smallest f) <> None.
Proof.
  intros Hd. destruct (effective_spec _ _ Hd) as (_ & _ & [[Hn ->]|[Hn ->]] & _).
  - rewrite (d_entries _ _ Hd) in Hn. destruct (entries c) as [|[k e] l] eqn:E; [done|].
    rewrite (d_first _ _ Hd (k, e)) by (by rewrite E). unfold sst_verdict. rewrite E. simpl.
    by rewrite (proj2 (slice_eqb_eq _ _) eq_refl).
  - rewrite (d_ranges _ _ Hd) in Hn. destruct (ranges c) as [|r l] eqn:E; [done|].
    rewrite (d_range_first _ _ Hd r) by (by rewrite E). unfold sst_verdict.
    assert (any_covers (ranges c) (lower r) = true) as ->; [|by destruct (assoc _ _)].
    apply any_covers_spec. exists r. assert (r ∈ ranges c) as Hr by (rewrite E; by left). split; [done|].
    pose proof (d_canonical _ _ Hd) as [_ Hf]. rewrite Forall_forall in Hf. specialize (Hf r Hr). split; key_order.
Qed.

(** ** Several sources, newest first *)

(** The first source with something to say. *)
Fixpoint ssts_verdict (ss : list Sst) (k : bytes) : option Entry :=
  match ss with
  | [] => None
  | c :: rest => match sst_verdict c k with Some e => Some e | None => ssts_verdict rest k end
  end.

Lemma ssts_verdict_app a b k :
  ssts_verdict (a ++ b) k = match ssts_verdict a k with Some e => Some e | None => ssts_verdict b k end.
Proof. induction a as [|c a IH]; simpl; [done|]. by destruct (sst_verdict c k). Qed.

(** The merge keeps the newest verdict. *)
Lemma merged_ssts_verdict ss k :
  verdict_of (merged_entry (map ranges ss) (map entries ss) k) (any_covers (concat (map ranges ss)) k) = ssts_verdict ss k.
Proof.
  unfold merged_entry.
  assert (forall ss' pre i, i = length pre -> (forall c, c ∈ pre -> assoc k (entries c) = None) ->
    verdict_of
      match winner i (map entries ss') k with
      | Some (j, e) => if range_shadowed (map ranges (pre ++ ss')) j k then None else Some e
      | None => None
      end (any_covers (concat (map ranges (pre ++ ss'))) k) =
    if existsb (fun c => any_covers (ranges c) k) pre then Some (Delete, []) else ssts_verdict ss' k) as Hgen;
    [|apply (Hgen ss [] 0%nat); [done|by intros f ?%elem_of_nil]].
  assert (forall l, any_covers (concat (map ranges l)) k = existsb (fun c => any_covers (ranges c) k) l) as Hany.
  { induction l as [|c l IH]; simpl; [done|]. by rewrite any_covers_app, IH. }
  induction ss' as [|c ss' IH]; intros pre i Hi Hpre; cbn [map winner ssts_verdict].
  - rewrite app_nil_r, Hany. by destruct (existsb _ pre).
  - unfold sst_verdict, verdict_of at 2. destruct (assoc k (entries c)) as [e|] eqn:Ea.
    + assert (range_shadowed (map ranges (pre ++ c :: ss')) i k = existsb (fun c => any_covers (ranges c) k) pre) as ->.
      { unfold range_shadowed. rewrite map_app, take_app_le by (rewrite length_map; lia).
        rewrite take_ge by (rewrite length_map; lia). clear. induction pre as [|g pre IH]; simpl; [done|]. by rewrite IH. }
      destruct (existsb _ pre) eqn:Ex; simpl; [|done].
      by rewrite Hany, existsb_app, Ex.
    + specialize (IH (pre ++ [c]) (S i)). rewrite <- app_assoc in IH. simpl in IH. rewrite IH.
      * rewrite existsb_app. simpl. rewrite orb_false_r. destruct (existsb _ pre); [done|]. simpl.
        by destruct (any_covers (ranges c) k).
      * rewrite length_app. simpl. lia.
      * intros g [Hg|Hg]%elem_of_app; [by apply Hpre|]. by apply list_elem_of_singleton in Hg as ->.
Qed.
