(* ===== verification/Iterators.v ===== *)
(** * Internal iterators

    [src/sst/internal_iterator.hpp]: the interface every source of entries is scanned through, as a
    class of operations, and what the merge relies on, as laws. [SkiplistIterator]
    ([src/memtable/skiplist_memtable.cpp]) is the first source that meets them.

    The laws speak of the sorted list of the entries a source holds. As keys are distinct, the entry an
    iterator stands on says where it stands; every move lands on the first or the last entry on one side
    of a key. A move may also fail, and then says so: the iterator holds no entry and its status is not
    [Ok]. *)

From S2P Require Import Prelude Slice Format Memtable Merging Sst.

(** ** Operations *)

(** [it_entry] is [valid()], [key()], [type()] and [value()] together. *)
Class InternalIterator (It : Type) := {
  it_entry : It -> option KV;
  it_status : It -> Status;
  it_seek_to_first : It -> It;
  it_seek_to_last : It -> It;
  it_seek : bytes -> It -> It;
  it_seek_for_prev : bytes -> It -> It;
  it_next : It -> It;
  it_prev : It -> It
}.

(** A reader's [iterator()]. *)
Class SstScanOps (R It : Type) := {
  scan_ops :: InternalIterator It;
  sr_iterator : R -> It
}.

(** [SkiplistIterator]: the table and the node it stands on. *)
Record SkiplistIterator := { sk_table : SkiplistMemtable; sk_node : option nat }.

Definition sk_at (it : SkiplistIterator) (node : option nat) : SkiplistIterator :=
  {| sk_table := sk_table it; sk_node := node |}.

(** [set]: the sentinel before the first key ends the scan. *)
Definition sk_set (it : SkiplistIterator) (node : nat) : SkiplistIterator :=
  sk_at it (if Nat.eqb node 0 then None else Some node).

#[export] Instance skiplist_iterator_ops : InternalIterator SkiplistIterator := {
  it_entry it := (fun id => (key_of (sk_table it) id, default (Put, []) (value_of (sk_table it) id))) <$> sk_node it;
  it_status it := Ok;
  it_seek_to_first it := sk_at it (next_of (sk_table it) 0 0);
  it_seek_to_last it := sk_set it (find_last (sk_table it));
  it_seek target it := sk_at it (find_greater_or_equal (sk_table it) target).1;
  it_seek_for_prev target it :=
    match (find_greater_or_equal (sk_table it) target).1 with
    | Some m => if slice_eqb (key_of (sk_table it) m) target then sk_set it m
                else sk_set it (find_less_than (sk_table it) target)
    | None => sk_set it (find_less_than (sk_table it) target)
    end;
  it_next it := match sk_node it with Some id => sk_at it (next_of (sk_table it) id 0) | None => it end;
  it_prev it := match sk_node it with
                | Some id => sk_set it (find_less_than (sk_table it) (key_of (sk_table it) id))
                | None => it
                end
}.

(** [ErrorIterator] of [src/db/db_impl.cpp]: it yields nothing and says why. *)
Record ErrorIterator := { ei_status : Status }.

#[export] Instance error_iterator_ops : InternalIterator ErrorIterator := {
  it_entry _ := None;
  it_status it := ei_status it;
  it_seek_to_first it := it;
  it_seek_to_last it := it;
  it_seek _ it := it;
  it_seek_for_prev _ it := it;
  it_next it := it;
  it_prev it := it
}.

(** ** Laws *)

(** A failed iterator. *)
Definition broken {It} `{InternalIterator It} (it : It) : Prop := it_entry it = None /\ it_status it <> Ok.

(** The first and the last entry a test holds of. *)
Definition first_such (p : bytes -> bool) (kvs : list KV) : option KV := head (List.filter (fun kv => p kv.1) kvs).
Definition last_such (p : bytes -> bool) (kvs : list KV) : option KV := last (List.filter (fun kv => p kv.1) kvs).

Section Laws.
(** [may_fail] is whether failures are possible at all. *)
Context {It : Type} `{InternalIterator It} (may_fail : Prop).

Definition lands (on : It -> option KV -> Prop) (it : It) (o : option KV) : Prop := on it o \/ (may_fail /\ broken it).

(** [on it o]: the iterator stands on [o] among the entries [kvs]. *)
Record walks (kvs : list KV) (on : It -> option KV -> Prop) : Prop := {
  wk_entry : forall it o, on it o -> it_entry it = o /\ it_status it = Ok;
  wk_member : forall it kv, on it (Some kv) -> kv ∈ kvs;
  wk_first : forall it o, on it o -> lands on (it_seek_to_first it) (head kvs);
  wk_last : forall it o, on it o -> lands on (it_seek_to_last it) (last kvs);
  wk_seek : forall it o t, on it o -> lands on (it_seek t it) (first_such (fun k => t <=?k k) kvs);
  wk_seek_for_prev : forall it o t, on it o -> lands on (it_seek_for_prev t it) (last_such (fun k => k <=?k t) kvs);
  wk_next : forall it kv, on it (Some kv) -> lands on (it_next it) (first_such (fun k => kv.1 <?k k) kvs);
  wk_prev : forall it kv, on it (Some kv) -> lands on (it_prev it) (last_such (fun k => k <?k kv.1) kvs)
}.
End Laws.

(** A reader whose iterators scan the content [c]. *)
Class SstScanLaws {R It} (ops : SstScanOps R It) (may_fail : Prop) (r : R) (c : Sst) : Prop := {
  scan_law : exists on : It -> option KV -> Prop, walks may_fail (entries c) on /\ on (sr_iterator r) None
}.

(** ** Filters of a sorted list *)

Lemma last_such_rev p kvs : last_such p kvs = head (List.filter (fun kv => p kv.1) (rev kvs)).
Proof.
  unfold last_such. rewrite List.filter_rev. generalize (List.filter (fun kv => p kv.1) kvs) as l.
  intros l. rewrite rev_alt. change (rev_append l []) with (reverse l). by rewrite head_reverse.
Qed.

Lemma sorted_split_after pre kv post : key_sorted (pre ++ kv :: post) ->
  List.filter (fun x => kv.1 <?k x.1) (pre ++ kv :: post) = post /\
  List.filter (fun x => x.1 <?k kv.1) (pre ++ kv :: post) = pre.
Proof.
  intros (Hx & Hl & Hr)%StronglySorted_app. apply StronglySorted_inv in Hr as [_ Hp]. rewrite Forall_forall in Hp.
  assert (forall x, x ∈ pre -> x.1 <k kv.1) as Hpre by (intros x Hx'; apply (Hx x kv); [done|by left]).
  rewrite !List.filter_app. cbn [List.filter]. assert ((kv.1 <?k kv.1) = false) as -> by key_order.
  rewrite (filter_none _ pre), (filter_all _ post), (filter_all _ pre), (filter_none _ post), app_nil_r; [done| | | |];
    intros x Hin; first [specialize (Hp x Hin)|specialize (Hpre x Hin)]; key_order.
Qed.

Lemma sorted_next pre kv post : key_sorted (pre ++ kv :: post) ->
  first_such (fun k => kv.1 <?k k) (pre ++ kv :: post) = head post.
Proof. intros Hs. unfold first_such. by rewrite (proj1 (sorted_split_after _ _ _ Hs)). Qed.

Lemma sorted_prev pre kv post : key_sorted (pre ++ kv :: post) ->
  last_such (fun k => k <?k kv.1) (pre ++ kv :: post) = last pre.
Proof. intros Hs. unfold last_such. by rewrite (proj2 (sorted_split_after _ _ _ Hs)). Qed.

(** ** The skip list *)

Section Skiplist.
Context (may_fail : Prop) (s : SkiplistMemtable) (L : list nat) (Hw : wf s L).

Lemma find_less_loop_spec key fuel node lvl pre post :
  0%nat :: L = pre ++ node :: post -> (lvl < height_of s node)%nat ->
  (node = 0%nat \/ key_of s node <k key) -> (length post + lvl < fuel)%nat ->
  is_pred s L key 0 (find_less_loop fuel s key node lvl).
Proof.
  revert node lvl pre post. induction fuel as [|fuel IH]; intros node lvl pre post Hsplit Hl Hn Hf; [lia|].
  assert ((forall m, next_of s node lvl = Some m -> key <=k key_of s m) ->
    is_pred s L key 0 (match lvl with O => node | S lvl' => find_less_loop fuel s key node lvl' end)) as Hdesc.
  { intros Hstop. destruct lvl as [|lvl]; [by eapply stop_pred|]. apply (IH node lvl pre post); try done; lia. }
  cbn [find_less_loop]. destruct (next_of s node lvl) as [m|] eqn:Enext; [|by apply Hdesc].
  destruct (key_of s m <?k key) eqn:Ek; [|apply Hdesc; intros ? [= <-]; key_order].
  destruct (next_split s L pre node post lvl m Hw Hsplit Hl Enext) as (a & b & -> & Ht).
  apply (IH m lvl (pre ++ node :: a) b); try done.
  - rewrite Hsplit. by rewrite <- app_assoc.
  - right. key_order.
  - rewrite length_app in Hf. simpl in Hf. lia.
Qed.

Lemma find_last_loop_spec fuel node lvl pre post :
  0%nat :: L = pre ++ node :: post -> (lvl < height_of s node)%nat -> (length post + lvl < fuel)%nat ->
  exists pre', 0%nat :: L = pre' ++ [find_last_loop fuel s node lvl].
Proof.
  revert node lvl pre post. induction fuel as [|fuel IH]; intros node lvl pre post Hsplit Hl Hf; [lia|].
  cbn [find_last_loop]. destruct (next_of s node lvl) as [m|] eqn:Enext.
  - destruct (next_split s L pre node post lvl m Hw Hsplit Hl Enext) as (a & b & -> & Ht).
    apply (IH m lvl (pre ++ node :: a) b); [by rewrite Hsplit, <- app_assoc|done|rewrite length_app in Hf; simpl in Hf; lia].
  - destruct lvl as [|lvl]; [|apply (IH node lvl pre post); [done|lia|lia]].
    rewrite (next_zero s L pre node post Hw Hsplit) in Enext. destruct post; [|done]. by exists pre.
Qed.

Definition below (key : bytes) (m : nat) : bool := key_of s m <?k key.

Lemma find_less_spec key :
  sk_node (sk_set {| sk_table := s; sk_node := None |} (find_less_than s key)) = last (List.filter (below key) L).
Proof.
  pose proof (wf_max _ _ Hw) as Hm. pose proof (length_L _ _ Hw) as HL.
  assert (is_pred s L key 0 (find_less_than s key)) as Hp.
  { apply (find_less_loop_spec _ _ _ _ [] L); [done|rewrite (wf_head _ _ Hw); lia|by left|unfold find_fuel; lia]. }
  destruct (pred_zero _ _ _ _ Hw Hp) as [_ (pre & Hsplit)]. set (n := find_less_than s key) in *.
  assert (List.filter (below key) (List.filter (at_or_after s key) L) = []) as Enone.
  { apply filter_none. intros m [_ Hm']%elem_of_filter_bool. unfold at_or_after in Hm'. unfold below. by destruct (key_of s m <?k key). }
  destruct (split_head _ _ _ _ _ Hsplit) as [(-> & -> & E)|(pre' & -> & E)].
  - rewrite E in Enone. by rewrite Enone.
  - assert (n ∈ L) as Hn by (rewrite E; set_solver).
    assert (n <> 0%nat) as Hn0 by (pose proof (wf_nodup _ _ Hw) as [? _]%NoDup_cons; congruence).
    unfold sk_set. rewrite (proj2 (Nat.eqb_neq _ _) Hn0). simpl.
    destruct Hp as (p1 & p2 & _ & _ & [?|Hk] & _); [done|].
    rewrite E, List.filter_app. cbn [List.filter]. unfold below at 2. rewrite (proj2 (key_ltb_lt _ _) Hk).
    rewrite E in Enone. rewrite <- E in Enone at 1. rewrite Enone. by rewrite last_snoc.
Qed.

Lemma find_last_spec : sk_node (sk_set {| sk_table := s; sk_node := None |} (find_last s)) = last L.
Proof.
  pose proof (wf_max _ _ Hw) as Hm. pose proof (length_L _ _ Hw) as HL.
  destruct (find_last_loop_spec (find_fuel s) 0 (max_height_ s - 1) [] L) as (pre & E);
    [done|rewrite (wf_head _ _ Hw); lia|unfold find_fuel; lia|]. fold (find_last s) in E. set (n := find_last s) in *.
  destruct (split_head _ _ _ _ _ E) as [(-> & -> & EL)|(pre' & -> & EL)]; [by rewrite <- EL|].
  assert (n <> 0%nat) as Hn0.
  { pose proof (wf_nodup _ _ Hw) as [Hnot _]%NoDup_cons. intros Hz. apply Hnot. rewrite EL, Hz. set_solver. }
  unfold sk_set. rewrite (proj2 (Nat.eqb_neq _ _) Hn0). simpl. by rewrite EL, last_snoc.
Qed.

(** Standing on the entry of a node. *)
Definition sk_on (it : SkiplistIterator) (o : option KV) : Prop :=
  sk_table it = s /\ (forall id, sk_node it = Some id -> id ∈ L) /\ o = pair_of s <$> sk_node it.

Lemma filter_contents (p : bytes -> bool) l :
  List.filter (fun kv => p kv.1) (contents s l) = contents s (List.filter (fun id => p (key_of s id)) l).
Proof. induction l as [|id l IH]; simpl; [done|]. rewrite IH. by destruct (p (key_of s id)). Qed.

Lemma first_contents p : first_such p (contents s L) = pair_of s <$> head (List.filter (fun id => p (key_of s id)) L).
Proof. unfold first_such. rewrite filter_contents. by destruct (List.filter _ L). Qed.

Lemma last_contents p : last_such p (contents s L) = pair_of s <$> last (List.filter (fun id => p (key_of s id)) L).
Proof. unfold last_such. rewrite filter_contents. unfold contents. by rewrite fmap_last. Qed.

Lemma sk_on_node it node o :
  sk_table it = s -> sk_node it = node -> (forall id, node = Some id -> id ∈ L) -> o = pair_of s <$> node -> lands may_fail sk_on it o.
Proof. intros Ht <- Hin ->. by left. Qed.

Lemma head_in {A} (l : list A) x : head l = Some x -> x ∈ l.
Proof. destruct l; intros [= ->]. by left. Qed.

Lemma head_filter_in p id : head (List.filter p L) = Some id -> id ∈ L.
Proof. by intros [? _]%head_in%elem_of_filter_bool. Qed.

Lemma last_filter_in p id : last (List.filter p L) = Some id -> id ∈ L.
Proof. by intros [? _]%last_Some_elem_of%elem_of_filter_bool. Qed.

Lemma set_less it key : sk_table it = s ->
  lands may_fail sk_on (sk_set it (find_less_than s key)) (last_such (fun k => k <?k key) (contents s L)).
Proof.
  intros Ht. eapply sk_on_node; [by destruct it|exact (find_less_spec key)|apply last_filter_in|by rewrite last_contents].
Qed.

(** [seek_for_prev] on a key the table holds. *)
Lemma hit_is_last target m : head (List.filter (at_or_after s target) L) = Some m -> key_of s m = target ->
  last (List.filter (fun id => key_of s id <=?k target) L) = Some m.
Proof.
  intros Hh Ek. pose proof (head_filter_in _ _ Hh) as Hm. apply list_elem_of_split in Hm as (a & b & E).
  pose proof (wf_sorted _ _ Hw) as Hs. rewrite E in *. apply StronglySorted_app in Hs as (_ & _ & [_ Hb]%StronglySorted_inv).
  rewrite Forall_forall in Hb. rewrite List.filter_app. cbn [List.filter]. assert ((key_of s m <=?k target) = true) as -> by key_order.
  rewrite (filter_none _ b), last_snoc; [done|]. intros x Hx. specialize (Hb x Hx). simpl in Hb. key_order.
Qed.

Lemma miss_is_less target : (forall id, id ∈ L -> key_of s id <> target) ->
  last_such (fun k => k <=?k target) (contents s L) = last_such (fun k => k <?k target) (contents s L).
Proof.
  intros Hno. rewrite !last_contents. do 2 f_equal. apply filter_ext_in. intros id Hid%list_elem_of_In.
  specialize (Hno id Hid). destruct (key_of s id <=?k target) eqn:E1, (key_of s id <?k target) eqn:E2; try done; exfalso; [|key_order].
  apply Hno. key_order.
Qed.

Lemma skiplist_seek_for_prev it o t : sk_on it o ->
  lands may_fail sk_on (it_seek_for_prev t it) (last_such (fun k => k <=?k t) (contents s L)).
Proof.
  intros (Ht & _ & _). cbn [it_seek_for_prev skiplist_iterator_ops]. rewrite Ht.
  destruct (find_spec s L t Hw) as (-> & _ & _). destruct (head _) as [m|] eqn:E.
  - destruct (slice_eqb (key_of s m) t) eqn:Ek.
    + apply slice_eqb_eq in Ek. pose proof (head_filter_in _ _ E) as Hm.
      assert (m <> 0%nat) as Hm0 by (pose proof (wf_nodup _ _ Hw) as [? _]%NoDup_cons; congruence).
      apply (sk_on_node _ (Some m)); [done|unfold sk_set; by rewrite (proj2 (Nat.eqb_neq _ _) Hm0)|by intros ? [= <-]|].
      by rewrite last_contents, (hit_is_last _ _ E Ek).
    + rewrite miss_is_less; [by apply set_less|]. destruct (find_hit _ _ _ _ Hw E) as [_ [Hk|Hno]]; [|done].
      rewrite Hk in Ek. assert (slice_eqb t t = true) by (by apply slice_eqb_eq). congruence.
  - rewrite miss_is_less; [by apply set_less|]. by apply find_miss.
Qed.

Lemma contents_sorted : key_sorted (contents s L).
Proof.
  pose proof (wf_sorted _ _ Hw) as Hs. unfold contents, key_sorted. clear -Hs.
  induction Hs as [|id l Hs IH Hf]; simpl; [constructor|]. constructor; [done|]. by apply (proj2 (List.Forall_map _ _ l)).
Qed.

(** The skip list's iterator walks the entries of the table. *)
Lemma skiplist_walks : walks may_fail (contents s L) sk_on.
Proof.
  split.
  - by intros it o (<- & _ & ->).
  - intros it kv (_ & Hin & E). destruct (sk_node it) as [id|] eqn:En; [|done]. injection E as ->.
    apply list_elem_of_fmap. exists id. split; [done|by apply Hin].
  - intros it o (Ht & _ & _). eapply sk_on_node; [done|simpl; rewrite Ht; exact (next_zero s L [] 0%nat L Hw eq_refl)|apply head_in|].
    unfold contents. by destruct L.
  - intros it o (Ht & _ & _). cbn [it_seek_to_last skiplist_iterator_ops]. rewrite Ht.
    eapply sk_on_node; [by destruct it|exact find_last_spec|by intros ? ?%last_Some_elem_of|]. unfold contents. by rewrite fmap_last.
  - intros it o t (Ht & _ & _). destruct (find_spec s L t Hw) as (E & _ & _).
    eapply sk_on_node; [done|simpl; rewrite Ht; exact E|apply head_filter_in|]. rewrite first_contents. do 2 f_equal.
    apply filter_ext_in. intros id _. unfold at_or_after. destruct (key_of s id <?k t) eqn:E1, (t <=?k key_of s id) eqn:E2; try done; exfalso; key_order.
  - intros it o t Ho. by eapply skiplist_seek_for_prev.
  - intros it kv (Ht & Hin & E). destruct (sk_node it) as [id|] eqn:En; [|done]. injection E as ->.
    cbn [it_next skiplist_iterator_ops]. rewrite En, Ht. specialize (Hin id eq_refl). apply list_elem_of_split in Hin as (a & b & EL).
    pose proof (next_in s L a id b Hw EL) as Hn. eapply sk_on_node; [done|simpl; exact Hn| |].
    + intros x Hx%head_in. rewrite EL. set_solver.
    + pose proof contents_sorted as Hs. rewrite EL in *. unfold contents in *. rewrite map_app, map_cons in *.
      rewrite (sorted_next _ _ _ Hs). by destruct b.
  - intros it kv (Ht & Hin & E). destruct (sk_node it) as [id|] eqn:En; [|done]. injection E as ->.
    cbn [it_prev skiplist_iterator_ops]. rewrite En, Ht. by apply set_less.
Qed.
End Skiplist.

(** A memtable of the engine, as a source: its entries are those of the map it stands for. *)
Lemma memtable_source may_fail s m : models s m ->
  exists on : SkiplistIterator -> option KV -> Prop,
    walks may_fail (ascending s) on /\ on {| sk_table := s; sk_node := None |} None /\ key_sorted (ascending s) /\
    forall k, assoc k (ascending s) = m.1 !! k.
Proof.
  intros (L & Hw & Hm & _). exists (sk_on s L). rewrite (ascending_spec _ _ Hw).
  split; [by apply skiplist_walks|]. split; [done|]. pose proof (contents_sorted _ _ Hw) as Hs. split; [done|].
  intros k. rewrite <- Hm. unfold mt_map. apply option_eq. intros e.
  rewrite <- elem_of_list_to_map by (by apply wf_keys_nodup). by apply assoc_elem.
Qed.

(** ** The reference iterator

    A sorted list as a source: every move computes what the laws ask for. *)

Record ListIterator := { li_kvs : list KV; li_on : option KV }.

Definition li_at (it : ListIterator) (o : option KV) : ListIterator := {| li_kvs := li_kvs it; li_on := o |}.

#[export] Instance list_iterator_ops : InternalIterator ListIterator := {
  it_entry it := li_on it;
  it_status it := Ok;
  it_seek_to_first it := li_at it (head (li_kvs it));
  it_seek_to_last it := li_at it (last (li_kvs it));
  it_seek t it := li_at it (first_such (fun k => t <=?k k) (li_kvs it));
  it_seek_for_prev t it := li_at it (last_such (fun k => k <=?k t) (li_kvs it));
  it_next it := match li_on it with Some kv => li_at it (first_such (fun k => kv.1 <?k k) (li_kvs it)) | None => it end;
  it_prev it := match li_on it with Some kv => li_at it (last_such (fun k => k <?k kv.1) (li_kvs it)) | None => it end
}.

#[export] Instance sst_content_scan : SstScanOps Sst ListIterator := {
  sr_iterator c := {| li_kvs := entries c; li_on := None |}
}.

Definition list_on (kvs : list KV) (it : ListIterator) (o : option KV) : Prop :=
  li_kvs it = kvs /\ li_on it = o /\ forall kv, o = Some kv -> kv ∈ kvs.

Lemma list_walks may_fail kvs : walks may_fail kvs (list_on kvs).
Proof.
  assert (forall p kv, first_such p kvs = Some kv -> kv ∈ kvs) as Hf by (by intros p kv [? _]%head_in%elem_of_filter_bool).
  assert (forall p kv, last_such p kvs = Some kv -> kv ∈ kvs) as Hl by (by intros p kv [? _]%last_Some_elem_of%elem_of_filter_bool).
  split.
  - by intros it o (_ & <- & _).
  - intros it kv (_ & _ & H). by apply H.
  - intros it o (E & _ & _). left. simpl. rewrite E. split_and!; [done|done|]. intros kv. apply head_in.
  - intros it o (E & _ & _). left. simpl. rewrite E. split_and!; [done|done|]. by intros kv ?%last_Some_elem_of.
  - intros it o t (E & _ & _). left. simpl. rewrite E. split_and!; [done|done|]. apply Hf.
  - intros it o t (E & _ & _). left. simpl. rewrite E. split_and!; [done|done|]. apply Hl.
  - intros it kv (E & Eo & _). left. simpl. rewrite E, Eo. split_and!; [done|done|]. apply Hf.
  - intros it kv (E & Eo & _). left. simpl. rewrite E, Eo. split_and!; [done|done|]. apply Hl.
Qed.

#[export] Instance sst_content_scan_laws may_fail c : SstScanLaws sst_content_scan may_fail c c.
Proof. split. exists (list_on (entries c)). split; [apply list_walks|done]. Qed.
