(* ===== verification/Block.v ===== *)
(** * Data blocks

    [src/sst/block_builder.cpp] and [src/sst/block_reader.cpp]: entries with prefix-compressed keys and
    a restart point every so many entries, and the iterator that seeks and walks such a block in both
    directions. The index of a file and its range tombstones are blocks of the same format.

    A position in a block ([size_t]) is a [nat]; the pointer pair [p], [limit] of a decoder is the list
    of bytes between them. [KeyBuffer] ([src/sst/key_buffer.hpp]) is the byte string it holds. *)

From S2P Require Import Prelude Slice Format Framing Watermark VersionEdit Version Memtable Merging Sst.

(** ** The builder *)

Record BlockBuilder := {
  bb_buffer : bytes;
  bb_restarts : list Z;
  bb_last_key : bytes;
  bb_restart_interval : Z;
  bb_since_restart : Z;
  bb_entries : Z;
  bb_finished : bool
}.

Definition new_builder (restart_interval : Z) : BlockBuilder :=
  {| bb_buffer := []; bb_restarts := [0]; bb_last_key := []; bb_restart_interval := restart_interval;
     bb_since_restart := 0; bb_entries := 0; bb_finished := false |}.

Definition builder_reset (b : BlockBuilder) : BlockBuilder :=
  {| bb_buffer := []; bb_restarts := [0]; bb_last_key := []; bb_restart_interval := bb_restart_interval b;
     bb_since_restart := 0; bb_entries := 0; bb_finished := false |}.

Definition builder_empty (b : BlockBuilder) : bool := bb_entries b =? 0.

Definition size_estimate (b : BlockBuilder) : Z :=
  zlen (bb_buffer b) + Z.of_nat (length (bb_restarts b)) * 4 + 4.

(** The loop that counts the bytes two keys start with in common. *)
Fixpoint shared_prefix (a b : bytes) : nat :=
  match a, b with
  | x :: a', y :: b' => if bool_decide (x = y) then S (shared_prefix a' b') else O
  | _, _ => O
  end.

(** The bytes one entry appends to the buffer. *)
Definition encode_entry (shared : nat) (key : bytes) (type : ValueType) (value : bytes) : bytes :=
  put_varint32 (u32 (Z.of_nat shared)) ++
  put_varint32 (u32 (zlen key - Z.of_nat shared)) ++
  [bz (value_type_byte type)] ++
  put_varint32 (match type with Delete => 0 | Put => u32 (zlen value) end) ++
  drop shared key ++
  match type with Delete => [] | Put => value end.

Definition builder_add (b : BlockBuilder) (key : bytes) (type : ValueType) (value : bytes) : BlockBuilder :=
  let sharing := bb_since_restart b <? bb_restart_interval b in
  let shared := if sharing then shared_prefix (bb_last_key b) key else O in
  {| bb_buffer := bb_buffer b ++ encode_entry shared key type value;
     bb_restarts := if sharing then bb_restarts b else bb_restarts b ++ [u32 (zlen (bb_buffer b))];
     bb_last_key := key;
     bb_restart_interval := bb_restart_interval b;
     bb_since_restart := (if sharing then bb_since_restart b else 0) + 1;
     bb_entries := u64 (bb_entries b + 1);
     bb_finished := bb_finished b |}.

(** [finish]: the builder with the restart array behind its entries; the block is its buffer. *)
Definition builder_finish (b : BlockBuilder) : BlockBuilder :=
  {| bb_buffer := bb_buffer b ++ concat (map put_fixed32 (bb_restarts b)) ++
                  put_fixed32 (u32 (Z.of_nat (length (bb_restarts b))));
     bb_restarts := bb_restarts b; bb_last_key := bb_last_key b;
     bb_restart_interval := bb_restart_interval b; bb_since_restart := bb_since_restart b;
     bb_entries := bb_entries b; bb_finished := true |}.

(** ** The iterator *)

Record BlockIterator := {
  bi_data : option bytes;
  bi_entries_end : nat;
  bi_restart_array : nat;
  bi_num_restarts : Z;
  bi_current_offset : nat;
  bi_next_offset : nat;
  bi_key : bytes;
  bi_value : bytes;
  bi_type : ValueType;
  bi_valid : bool;
  bi_status : Status
}.

(** The default constructor. *)
Definition no_block : BlockIterator :=
  {| bi_data := None; bi_entries_end := 0; bi_restart_array := 0; bi_num_restarts := 0;
     bi_current_offset := 0; bi_next_offset := 0; bi_key := []; bi_value := []; bi_type := Put;
     bi_valid := false; bi_status := Ok |}.

Definition with_key (it : BlockIterator) (key : bytes) : BlockIterator :=
  {| bi_data := bi_data it; bi_entries_end := bi_entries_end it; bi_restart_array := bi_restart_array it;
     bi_num_restarts := bi_num_restarts it; bi_current_offset := bi_current_offset it;
     bi_next_offset := bi_next_offset it; bi_key := key; bi_value := bi_value it; bi_type := bi_type it;
     bi_valid := bi_valid it; bi_status := bi_status it |}.

Definition with_status (it : BlockIterator) (s : Status) : BlockIterator :=
  {| bi_data := bi_data it; bi_entries_end := bi_entries_end it; bi_restart_array := bi_restart_array it;
     bi_num_restarts := bi_num_restarts it; bi_current_offset := bi_current_offset it;
     bi_next_offset := bi_next_offset it; bi_key := bi_key it; bi_value := bi_value it;
     bi_type := bi_type it; bi_valid := bi_valid it; bi_status := s |}.

Definition invalidate (it : BlockIterator) : BlockIterator :=
  {| bi_data := bi_data it; bi_entries_end := bi_entries_end it; bi_restart_array := bi_restart_array it;
     bi_num_restarts := bi_num_restarts it; bi_current_offset := bi_current_offset it;
     bi_next_offset := bi_next_offset it; bi_key := []; bi_value := []; bi_type := bi_type it;
     bi_valid := false; bi_status := bi_status it |}.

Definition restart_offset_in (data : bytes) (restart_array : nat) (index : Z) : Z :=
  decode_fixed32 (drop (restart_array + Z.to_nat index * 4) data).

Definition restart_offset (it : BlockIterator) (index : Z) : Z :=
  match bi_data it with
  | Some data => restart_offset_in data (bi_restart_array it) index
  | None => 0
  end.

(** The constructor over a block. *)
Definition block_iterator (content : bytes) : BlockIterator :=
  if zlen content <? 4 then with_status no_block Corrupt
  else
    let num := decode_fixed32 (drop (length content - 4) content) in
    let opened data array st :=
      {| bi_data := data; bi_entries_end := array; bi_restart_array := array; bi_num_restarts := num;
         bi_current_offset := 0; bi_next_offset := 0; bi_key := []; bi_value := []; bi_type := Put;
         bi_valid := false; bi_status := st |} in
    if (num =? 0) || (zlen content <? num * 4 + 4) then opened None 0%nat Corrupt
    else
      let array := Z.to_nat (zlen content - 4 - num * 4) in
      if negb (restart_offset_in content array 0 =? 0) then opened None array Corrupt
      else opened (Some content) array Ok.

(** [parse_entry]: whether it succeeded, and the iterator it leaves. *)
Definition parse_entry (it : BlockIterator) (offset : nat) : bool * BlockIterator :=
  match bi_data it with
  | None => (false, it)
  | Some data =>
      if (bi_entries_end it <=? offset)%nat then (false, it)
      else
        let corrupt := (false, with_status it Corrupt) in
        match get_varint32 (drop offset (take (bi_entries_end it) data)) with
        | None => corrupt
        | Some (shared, p) =>
        match get_varint32 p with
        | None => corrupt
        | Some (unshared, p) =>
        match p with
        | [] => corrupt
        | raw_type :: p =>
            if negb (is_known_value_type (zb raw_type)) then corrupt
            else
              match get_varint32 p with
              | None => corrupt
              | Some (value_len, p) =>
                  if (zlen (bi_key it) <? shared) || (zlen p <? unshared) || (zlen p - unshared <? value_len)
                  then corrupt
                  else
                    let rest := drop (Z.to_nat unshared) p in
                    let p' := drop (Z.to_nat value_len) rest in
                    (true,
                     {| bi_data := bi_data it; bi_entries_end := bi_entries_end it;
                        bi_restart_array := bi_restart_array it; bi_num_restarts := bi_num_restarts it;
                        bi_current_offset := offset; bi_next_offset := bi_entries_end it - length p';
                        bi_key := take (Z.to_nat shared) (bi_key it) ++ take (Z.to_nat unshared) p;
                        bi_value := take (Z.to_nat value_len) rest;
                        bi_type := value_type_of (zb raw_type); bi_valid := true;
                        bi_status := bi_status it |})
              end
        end end end
  end.

(** [if (!parse_entry(offset)) invalidate();]. *)
Definition parse_or_invalidate (it : BlockIterator) (offset : nat) : BlockIterator :=
  match parse_entry it offset with
  | (true, it') => it'
  | (false, it') => invalidate it'
  end.

(** [status_ != Status::Ok || data_ == nullptr]: every seek gives up on it. *)
Definition unusable (it : BlockIterator) : bool :=
  negb (bool_decide (bi_status it = Ok)) || bool_decide (bi_data it = None).

Definition block_seek_to_first (it : BlockIterator) : BlockIterator :=
  if unusable it then it else parse_or_invalidate (with_key it []) 0.

Definition block_next (it : BlockIterator) : BlockIterator :=
  if negb (bi_valid it) then it else parse_or_invalidate it (bi_next_offset it).

Definition seek_to_restart (it : BlockIterator) (index : Z) : BlockIterator :=
  parse_or_invalidate (with_key it []) (Z.to_nat (restart_offset it index)).

(** [while (valid_ && going(...)) next();]. Each round moves [next_offset_] up, below the end of the
    entries, so that many rounds are enough. *)
Fixpoint next_while (fuel : nat) (going : BlockIterator -> bool) (it : BlockIterator) : BlockIterator :=
  match fuel with
  | O => it
  | S fuel' => if bi_valid it && going it then next_while fuel' going (block_next it) else it
  end.

Definition scan_fuel (it : BlockIterator) : nat := S (bi_entries_end it).

(** The binary search of [restart_before]; the interval shrinks in every round. *)
Fixpoint restart_before_loop (fuel : nat) (it : BlockIterator) (offset : nat) (low high : Z) : Z :=
  match fuel with
  | O => low
  | S fuel' =>
      if low <? high then
        let mid := low + (high - low + 1) / 2 in
        if restart_offset it mid <? Z.of_nat offset then restart_before_loop fuel' it offset mid high
        else restart_before_loop fuel' it offset low (mid - 1)
      else low
  end.

Definition restart_before (it : BlockIterator) (offset : nat) : Z :=
  restart_before_loop (Z.to_nat (bi_num_restarts it)) it offset 0 (bi_num_restarts it - 1).

Definition block_seek_to_last (it : BlockIterator) : BlockIterator :=
  if unusable it then it
  else
    next_while (scan_fuel it) (fun i => (bi_next_offset i <? bi_entries_end i)%nat)
      (seek_to_restart it (bi_num_restarts it - 1)).

Definition block_prev (it : BlockIterator) : BlockIterator :=
  if negb (bi_valid it) then it
  else
    let target := bi_current_offset it in
    if (target =? 0)%nat then invalidate it
    else
      let it := next_while (scan_fuel it) (fun i => (bi_next_offset i <? target)%nat)
                  (seek_to_restart it (restart_before it target)) in
      if negb (bi_valid it) || negb (bi_next_offset it =? target)%nat then
        invalidate (if bool_decide (bi_status it = Ok) then with_status it Corrupt else it)
      else it.

(** The binary search of [seek], which reads the restart keys as it goes; [None] is the early return. *)
Fixpoint seek_loop (fuel : nat) (it : BlockIterator) (target : bytes) (low high : Z)
  : BlockIterator * option Z :=
  match fuel with
  | O => (it, Some low)
  | S fuel' =>
      if low <? high then
        let mid := low + (high - low + 1) / 2 in
        let it := seek_to_restart it mid in
        if negb (bi_valid it) then (it, None)
        else if bi_key it <=?k target then seek_loop fuel' it target mid high
        else seek_loop fuel' it target low (mid - 1)
      else (it, Some low)
  end.

Definition block_seek (it : BlockIterator) (target : bytes) : BlockIterator :=
  if unusable it then it
  else
    match seek_loop (Z.to_nat (bi_num_restarts it)) it target 0 (bi_num_restarts it - 1) with
    | (it, None) => it
    | (it, Some low) =>
        next_while (scan_fuel it) (fun i => bi_key i <?k target) (seek_to_restart it low)
    end.

Definition block_seek_for_prev (it : BlockIterator) (target : bytes) : BlockIterator :=
  if unusable it then it
  else
    let it := block_seek it target in
    if negb (bi_valid it) then
      if negb (bool_decide (bi_status it = Ok)) then it else block_seek_to_last it
    else if slice_eqb (bi_key it) target then it
    else block_prev it.

(** What an iterator stands on. *)
Definition block_entry (it : BlockIterator) : option KV :=
  if bi_valid it then Some (bi_key it, (bi_type it, bi_value it)) else None.

(** ** The layout of a block

    What the builder wrote, entry by entry: a cell is an entry with the length of the prefix it shares
    with the one before. *)

Record Cell := { cl_shared : nat; cl_kv : KV }.

Definition cl_key (c : Cell) : bytes := (cl_kv c).1.
Definition encode_cell (c : Cell) : bytes :=
  encode_entry (cl_shared c) (cl_key c) (cl_kv c).2.1 (cl_kv c).2.2.

(** A deletion is stored without a value. *)
Definition stored (kv : KV) : KV :=
  (kv.1, (kv.2.1, match kv.2.1 with Delete => [] | Put => kv.2.2 end)).

Definition entry_small (kv : KV) : Prop := is_u32 (zlen kv.1) /\ is_u32 (zlen kv.2.2).

Definition encoded (cells : list Cell) : bytes := concat (map encode_cell cells).
Definition cell_offset (cells : list Cell) (i : nat) : nat := length (encoded (take i cells)).

(** A key can be rebuilt from any key that starts with the shared bytes. *)
Definition extends (key : bytes) (c : Cell) : Prop :=
  (cl_shared c <= length key)%nat /\ take (cl_shared c) key = take (cl_shared c) (cl_key c).

(** The cells [cells] with restart points at the cells [ris]. *)
Record laid_out (cells : list Cell) (ris : list nat) : Prop := {
  lo_small : Forall (fun c => entry_small (cl_kv c)) cells;
  lo_within : Forall (fun c => (cl_shared c <= length (cl_key c))%nat) cells;
  lo_first : forall c, head cells = Some c -> cl_shared c = O;
  lo_chain : forall i c c', cells !! i = Some c -> cells !! S i = Some c' -> extends (cl_key c) c';
  lo_zero : head ris = Some O;
  lo_ascending : StronglySorted lt ris;
  lo_restart : forall i, i ∈ ris -> (i = O \/ exists c, cells !! i = Some c /\ cl_shared c = O)
}.

(** The block of a layout. *)
Definition block_of (cells : list Cell) (ris : list nat) : bytes :=
  encoded cells ++ concat (map (fun i => put_fixed32 (u32 (Z.of_nat (cell_offset cells i)))) ris) ++
  put_fixed32 (u32 (Z.of_nat (length ris))).

Lemma encoded_app cs ds : encoded (cs ++ ds) = encoded cs ++ encoded ds.
Proof. unfold encoded. by rewrite map_app, concat_app. Qed.

Lemma encoded_cons c cs : encoded (c :: cs) = encode_cell c ++ encoded cs.
Proof. done. Qed.

Lemma encode_cell_nonempty c : (0 < length (encode_cell c))%nat.
Proof.
  unfold encode_cell, encode_entry, put_varint32. rewrite length_app.
  pose proof (length_put_varint_loop 4 (u32 (Z.of_nat (cl_shared c)))). lia.
Qed.

Lemma cell_offset_0 cells : cell_offset cells 0 = O.
Proof. done. Qed.

Lemma cell_offset_S cells i c :
  cells !! i = Some c -> cell_offset cells (S i) = (cell_offset cells i + length (encode_cell c))%nat.
Proof.
  intros Hc. unfold cell_offset. rewrite (take_S_r _ _ _ Hc), encoded_app, length_app, encoded_cons.
  by rewrite app_nil_r.
Qed.

Lemma cell_offset_end cells i : (length cells <= i)%nat -> cell_offset cells i = length (encoded cells).
Proof. intros H. unfold cell_offset. by rewrite take_ge. Qed.

Lemma cell_offset_lt cells i j : (i < j)%nat -> (j <= length cells)%nat -> (cell_offset cells i < cell_offset cells j)%nat.
Proof.
  intros Hij Hj. induction Hij as [|j Hij IH].
  - destruct (lookup_lt_is_Some_2 cells i) as [c Hc]; [lia|]. rewrite (cell_offset_S _ _ _ Hc).
    pose proof (encode_cell_nonempty c). lia.
  - destruct (lookup_lt_is_Some_2 cells j) as [c Hc]; [lia|]. rewrite (cell_offset_S _ _ _ Hc).
    specialize (IH ltac:(lia)). lia.
Qed.

Lemma cell_offset_le_end cells i : (cell_offset cells i <= length (encoded cells))%nat.
Proof.
  unfold cell_offset. rewrite <- (take_drop i cells) at 2. rewrite encoded_app, length_app. lia.
Qed.

Lemma length_restart_array {A} (f : A -> Z) l : length (concat (map (fun x => put_fixed32 (f x)) l)) = (length l * 4)%nat.
Proof. induction l as [|x l IH]; [done|]. rewrite map_cons, concat_cons, length_app, IH, length_put_fixed32. simpl. lia. Qed.

(** ** Reading one entry *)

Definition parsed (it : BlockIterator) (cells : list Cell) (i : nat) (c : Cell) : BlockIterator :=
  {| bi_data := bi_data it; bi_entries_end := bi_entries_end it; bi_restart_array := bi_restart_array it;
     bi_num_restarts := bi_num_restarts it; bi_current_offset := cell_offset cells i;
     bi_next_offset := cell_offset cells (S i); bi_key := cl_key c; bi_value := (stored (cl_kv c)).2.2;
     bi_type := (cl_kv c).2.1; bi_valid := true; bi_status := bi_status it |}.

Lemma read_entry shared key type value rest :
  is_u32 (zlen key) -> is_u32 (zlen value) -> (shared <= length key)%nat ->
  exists p1 p2 p3,
    get_varint32 (encode_entry shared key type value ++ rest) = Some (Z.of_nat shared, p1) /\
    get_varint32 p1 = Some (zlen key - Z.of_nat shared, p2) /\
    p2 = bz (value_type_byte type) :: p3 /\
    let stored_value := match type with Delete => [] | Put => value end in
    get_varint32 p3 = Some (zlen stored_value, drop shared key ++ stored_value ++ rest).
Proof.
  intros Hk Hv Hs. unfold encode_entry. unfold is_u32, zlen in *.
  rewrite !u32_small by (unfold is_u32; lia).
  rewrite <- !app_assoc.
  rewrite get_put_varint32 by (unfold is_u32; lia). do 3 eexists. split; [done|].
  rewrite get_put_varint32 by (unfold is_u32; lia). split; [done|]. split; [done|].
  destruct type; cbv zeta iota.
  - by rewrite (get_put_varint32 0).
  - rewrite get_put_varint32 by (unfold is_u32; lia). done.
Qed.

Lemma parse_cell it cells tail i c :
  cells !! i = Some c -> entry_small (cl_kv c) -> (cl_shared c <= length (cl_key c))%nat ->
  bi_data it = Some (encoded cells ++ tail) -> bi_entries_end it = length (encoded cells) ->
  extends (bi_key it) c ->
  parse_entry it (cell_offset cells i) = (true, parsed it cells i c).
Proof.
  intros Hc [Hk Hv] Hw Hd He [Hs Ht]. unfold parse_entry. rewrite Hd, He.
  pose proof (cell_offset_S _ _ _ Hc) as Hnext. pose proof (cell_offset_le_end cells (S i)) as Hle.
  pose proof (encode_cell_nonempty c) as Hpos.
  rewrite (proj2 (Nat.leb_gt _ _)) by lia. rewrite take_app_length.
  assert (encoded cells = encoded (take i cells) ++ encode_cell c ++ encoded (drop (S i) cells)) as Hsplit.
  { rewrite <- encoded_cons, <- encoded_app. by rewrite (take_drop_middle _ _ _ Hc). }
  rewrite Hsplit at 1. unfold cell_offset at 1. rewrite drop_app_length.
  assert (length (encoded cells) = (cell_offset cells (S i) + length (encoded (drop (S i) cells)))%nat) as Hlen.
  { rewrite Hsplit, !length_app, Hnext. unfold cell_offset. lia. }
  unfold encode_cell. destruct (read_entry (cl_shared c) (cl_key c) (cl_kv c).2.1 (cl_kv c).2.2 (encoded (drop (S i) cells)) Hk Hv Hw)
    as (p1 & p2 & p3 & -> & -> & -> & E3).
  assert (is_known_value_type (zb (bz (value_type_byte (cl_kv c).2.1))) = true /\
          value_type_of (zb (bz (value_type_byte (cl_kv c).2.1))) = (cl_kv c).2.1) as [-> Hvt]
    by (by destruct ((cl_kv c).2.1)).
  simpl negb. rewrite E3. clear E3.
  set (sv := match (cl_kv c).2.1 with Delete => [] | Put => (cl_kv c).2.2 end) in *.
  rewrite !zlen_app. unfold zlen in *. rewrite length_drop.
  assert ((Z.of_nat (length (bi_key it)) <? Z.of_nat (cl_shared c)) = false) as -> by (apply Z.ltb_ge; lia).
  assert ((Z.of_nat (length (cl_key c) - cl_shared c) + (Z.of_nat (length sv) + Z.of_nat (length (encoded (drop (S i) cells)))) <?
            Z.of_nat (length (cl_key c)) - Z.of_nat (cl_shared c)) = false) as -> by (apply Z.ltb_ge; lia).
  assert ((Z.of_nat (length (cl_key c) - cl_shared c) + (Z.of_nat (length sv) + Z.of_nat (length (encoded (drop (S i) cells)))) -
            (Z.of_nat (length (cl_key c)) - Z.of_nat (cl_shared c)) <? Z.of_nat (length sv)) = false) as -> by (apply Z.ltb_ge; lia).
  simpl orb. cbv beta iota zeta.
  replace (Z.to_nat (Z.of_nat (length (cl_key c)) - Z.of_nat (cl_shared c))) with (length (drop (cl_shared c) (cl_key c)))
    by (rewrite length_drop; lia).
  rewrite !Nat2Z.id, !drop_app_length, !take_app_length, Ht, take_drop, Hvt, Hlen.
  unfold parsed. rewrite Hd, He, Hlen. do 2 f_equal. lia.
Qed.

(** ** Positions *)

Section OnBlock.
Context (cells : list Cell) (ris : list nat) (LO : laid_out cells ris).
Context (small : Z.of_nat (length (encoded cells)) + 4 * Z.of_nat (length ris) < 2 ^ 32).

Let content := block_of cells ris.
Let n := length cells.

(** An iterator over the block, in no error, wherever it stands. *)
Record on_block (it : BlockIterator) : Prop := {
  ob_data : bi_data it = Some content;
  ob_end : bi_entries_end it = length (encoded cells);
  ob_array : bi_restart_array it = length (encoded cells);
  ob_num : bi_num_restarts it = Z.of_nat (length ris);
  ob_status : bi_status it = Ok
}.

(** It stands on cell [i]. *)
Record at_cell (it : BlockIterator) (i : nat) : Prop := {
  ac_on : on_block it;
  ac_valid : bi_valid it = true;
  ac_current : bi_current_offset it = cell_offset cells i;
  ac_next : bi_next_offset it = cell_offset cells (S i);
  ac_cell : exists c, cells !! i = Some c /\ bi_key it = cl_key c /\ block_entry it = Some (stored (cl_kv c))
}.

(** It stands nowhere. *)
Definition nowhere (it : BlockIterator) : Prop := on_block it /\ bi_valid it = false.

Lemma at_cell_key it i c : at_cell it i -> cells !! i = Some c -> bi_key it = cl_key c.
Proof. intros [_ _ _ _ (c' & Hc' & Hk & _)] Hc. congruence. Qed.

Lemma at_cell_lt it i : at_cell it i -> (i < n)%nat.
Proof. intros [_ _ _ _ (c & Hc & _)]. by eapply lookup_lt_Some. Qed.

Lemma usable_on_block it : on_block it -> unusable it = false.
Proof. intros [Hd _ _ _ Hs]. unfold unusable. by rewrite Hd, Hs. Qed.

Lemma with_key_on_block it k : on_block it -> on_block (with_key it k).
Proof. by intros [? ? ? ? ?]. Qed.

Lemma invalidate_nowhere it : on_block it -> nowhere (invalidate it).
Proof. by intros [? ? ? ? ?]. Qed.

Lemma parse_at it i c :
  on_block it -> cells !! i = Some c -> extends (bi_key it) c ->
  at_cell (parse_or_invalidate it (cell_offset cells i)) i.
Proof.
  intros [Hd He Ha Hn Hs] Hc Hx. unfold parse_or_invalidate.
  erewrite parse_cell; [|done| | | |done|done]; [..|exact Hd].
  - split; try done. exists c. split; [done|]. split; [done|]. by destruct c as [? [? [[] ?]]].
  - exact (proj1 (Forall_lookup _ _) (lo_small _ _ LO) _ _ Hc).
  - exact (proj1 (Forall_lookup _ _) (lo_within _ _ LO) _ _ Hc).
Qed.

Lemma parse_end it o :
  on_block it -> (length (encoded cells) <= o)%nat -> nowhere (parse_or_invalidate it o).
Proof.
  intros H Ho. unfold parse_or_invalidate, parse_entry. rewrite (ob_data _ H), (ob_end _ H).
  rewrite (proj2 (Nat.leb_le _ _) Ho). by apply invalidate_nowhere.
Qed.

Lemma extends_zero key c : cl_shared c = O -> extends key c.
Proof. intros E. unfold extends. rewrite E. split; [lia|done]. Qed.

Lemma next_at it i : at_cell it i -> (S i < n)%nat -> at_cell (block_next it) (S i).
Proof.
  intros H Hi. unfold block_next. rewrite (ac_valid _ _ H), (ac_next _ _ H). simpl.
  destruct (lookup_lt_is_Some_2 cells (S i) Hi) as [c' Hc'].
  eapply parse_at; [apply H|exact Hc'|].
  destruct (ac_cell _ _ H) as (c & Hc & -> & _). by eapply (lo_chain _ _ LO).
Qed.

Lemma next_end it i : at_cell it i -> S i = n -> nowhere (block_next it).
Proof.
  intros H Hi. unfold block_next. rewrite (ac_valid _ _ H), (ac_next _ _ H). simpl.
  apply parse_end; [apply H|]. rewrite cell_offset_end; [done|]. unfold n in *. lia.
Qed.

Lemma next_nowhere it : nowhere it -> block_next it = it.
Proof. intros [_ H]. unfold block_next. by rewrite H. Qed.

(** *** Restart points *)

Lemma restart_at it j i : on_block it -> ris !! j = Some i -> restart_offset it (Z.of_nat j) = Z.of_nat (cell_offset cells i).
Proof.
  intros [Hd _ Ha _ _] Hj. unfold restart_offset, restart_offset_in. rewrite Hd, Ha, Nat2Z.id. unfold content, block_of.
  rewrite <- drop_drop, drop_app_length.
  rewrite <- (take_drop_middle _ _ _ Hj), map_app, concat_app, <- app_assoc, map_cons.
  rewrite drop_app_length'.
  - rewrite concat_cons, <- app_assoc, decode_put_fixed32. pose proof (cell_offset_le_end cells i).
    rewrite !u32_small; [done| |]; rewrite ?u32_small; unfold is_u32; lia.
  - rewrite (length_restart_array (fun i => u32 (Z.of_nat (cell_offset cells i)))).
    apply lookup_lt_Some in Hj. rewrite length_take_le by lia. lia.
Qed.

Lemma seek_to_restart_at it j i :
  on_block it -> ris !! j = Some i -> (0 < n)%nat -> at_cell (seek_to_restart it (Z.of_nat j)) i.
Proof.
  intros H Hj Hn. unfold seek_to_restart. rewrite (restart_at _ _ _ H Hj), Nat2Z.id.
  destruct (lo_restart _ _ LO i) as [-> | (c & Hc & Hz)]; [by eapply list_elem_of_lookup_2| |].
  - destruct (lookup_lt_is_Some_2 cells 0 Hn) as [c Hc].
    eapply parse_at; [by apply with_key_on_block|exact Hc|]. apply extends_zero, (lo_first _ _ LO). by rewrite head_lookup.
  - eapply parse_at; [by apply with_key_on_block|exact Hc|]. by apply extends_zero.
Qed.

Lemma seek_to_restart_empty it j i :
  on_block it -> ris !! j = Some i -> n = O -> nowhere (seek_to_restart it (Z.of_nat j)).
Proof.
  intros H Hj Hn. unfold seek_to_restart. apply parse_end; [by apply with_key_on_block|].
  unfold n in Hn. apply nil_length_inv in Hn. rewrite Hn. unfold encoded. simpl. lia.
Qed.

Lemma ris_pos : (0 < length ris)%nat.
Proof. pose proof (lo_zero _ _ LO) as H. destruct ris; [done|]. simpl. lia. Qed.

Lemma ris_first : ris !! O = Some O.
Proof. rewrite <- head_lookup. apply (lo_zero _ _ LO). Qed.

Lemma open_block : nowhere (block_iterator content).
Proof.
  pose proof ris_pos as Hpos.
  assert (length content = (length (encoded cells) + length ris * 4 + 4)%nat) as Hlen.
  { unfold content, block_of. rewrite !length_app, length_put_fixed32, length_restart_array. lia. }
  unfold block_iterator. unfold zlen. rewrite Hlen.
  assert (forall a, a = Z.of_nat (length (encoded cells) + length ris * 4 + 4) -> (a <? 4) = false) as -> by (intros; apply Z.ltb_ge; lia); [|done].
  replace (length (encoded cells) + length ris * 4 + 4 - 4)%nat with
    (length (encoded cells ++ concat (map (fun i => put_fixed32 (u32 (Z.of_nat (cell_offset cells i)))) ris)))
    by (rewrite length_app, length_restart_array; lia).
  assert (decode_fixed32 (drop (length (encoded cells ++ concat (map (fun i => put_fixed32 (u32 (Z.of_nat (cell_offset cells i)))) ris))) content)
          = Z.of_nat (length ris)) as ->.
  { unfold content, block_of. rewrite app_assoc, drop_app_length, <- (app_nil_r (put_fixed32 _)), decode_put_fixed32.
    rewrite !u32_small; [done| |]; rewrite ?u32_small; unfold is_u32; lia. }
  cbv zeta.
  assert ((Z.of_nat (length ris) =? 0) = false) as -> by (apply Z.eqb_neq; lia).
  assert ((Z.of_nat (length (encoded cells) + length ris * 4 + 4) <? Z.of_nat (length ris) * 4 + 4) = false) as -> by (apply Z.ltb_ge; lia).
  simpl orb. cbv iota.
  replace (Z.to_nat (Z.of_nat (length (encoded cells) + length ris * 4 + 4) - 4 - Z.of_nat (length ris) * 4)) with (length (encoded cells)) by lia.
  set (it := {| bi_data := Some content; bi_entries_end := length (encoded cells); bi_restart_array := length (encoded cells);
                bi_num_restarts := Z.of_nat (length ris); bi_current_offset := 0; bi_next_offset := 0; bi_key := []; bi_value := [];
                bi_type := Put; bi_valid := false; bi_status := Ok |}).
  assert (on_block it) as Hon by done.
  pose proof (restart_at it 0 0 Hon ris_first) as H0. simpl in H0. unfold restart_offset in H0. simpl in H0.
  change (restart_offset_in content (length (encoded cells)) 0 = 0) in H0. rewrite H0. done.
Qed.

(** *** Walking forward *)

Lemma cells_le_bytes : (n <= length (encoded cells))%nat.
Proof.
  unfold n. clear. induction cells as [|c l IH]; [simpl; lia|]. rewrite encoded_cons, length_app.
  pose proof (encode_cell_nonempty c). simpl. lia.
Qed.

Lemma next_while_at going (g : nat -> bool) fuel it i :
  (forall it i, at_cell it i -> going it = g i) ->
  at_cell it i -> (n - i < fuel)%nat ->
  let it' := next_while fuel going it in
  (exists j, (i <= j)%nat /\ at_cell it' j /\ g j = false /\ forall m, (i <= m < j)%nat -> g m = true) \/
  (nowhere it' /\ forall m, (i <= m < n)%nat -> g m = true).
Proof.
  intros Hg. revert it i. induction fuel as [|fuel IH]; intros it i Hit Hf; [lia|]. simpl.
  rewrite (ac_valid _ _ Hit), (Hg _ _ Hit). simpl. destruct (g i) eqn:Egi.
  2: { left. exists i. split; [done|]. split; [done|]. split; [done|]. intros; lia. }
  pose proof (at_cell_lt _ _ Hit) as Hi.
  destruct (decide (S i = n)) as [Hend|Hmore].
  - right. pose proof (next_end _ _ Hit Hend) as Hno. split.
    + destruct fuel; [done|]. simpl. by rewrite (proj2 Hno).
    + intros m Hm. assert (m = i) as -> by lia. done.
  - destruct (IH (block_next it) (S i)) as [(j & Hj & Hat & Hgj & Hm)|[Hno Hm]]; [apply next_at; [done|lia]|lia|left|right].
    + exists j. split; [lia|]. split; [done|]. split; [done|]. intros m ?. destruct (decide (m = i)) as [-> |]; [done|apply Hm; lia].
    + split; [done|]. intros m ?. destruct (decide (m = i)) as [-> |]; [done|apply Hm; lia].
Qed.

Lemma next_while_nowhere going fuel it : nowhere it -> next_while fuel going it = it.
Proof. intros [_ H]. destruct fuel; [done|]. simpl. by rewrite H. Qed.

Lemma scan_fuel_enough it i : on_block it -> (n - i < scan_fuel it)%nat.
Proof. intros H. unfold scan_fuel. rewrite (ob_end _ H). pose proof cells_le_bytes. lia. Qed.

Lemma seek_to_first_spec it : on_block it ->
  let it' := block_seek_to_first it in ((0 < n)%nat /\ at_cell it' 0) \/ (n = O /\ nowhere it').
Proof.
  intros H. unfold block_seek_to_first. rewrite usable_on_block by done. simpl.
  destruct (decide (n = O)) as [Hn|Hn]; [right|left]; (split; [lia|]).
  - apply parse_end; [by apply with_key_on_block|]. unfold n in Hn. apply nil_length_inv in Hn. rewrite Hn. done.
  - destruct (lookup_lt_is_Some_2 cells 0) as [c Hc]; [unfold n in *; lia|].
    rewrite <- (cell_offset_0 cells). eapply parse_at; [by apply with_key_on_block|exact Hc|].
    apply extends_zero, (lo_first _ _ LO). by rewrite head_lookup.
Qed.

Lemma seek_to_last_spec it : on_block it ->
  let it' := block_seek_to_last it in ((0 < n)%nat /\ at_cell it' (n - 1)) \/ (n = O /\ nowhere it').
Proof.
  intros H. unfold block_seek_to_last. rewrite usable_on_block by done. cbv zeta.
  pose proof ris_pos as Hpos. rewrite (ob_num _ H).
  replace (Z.of_nat (length ris) - 1) with (Z.of_nat (length ris - 1)) by lia.
  destruct (lookup_lt_is_Some_2 ris (length ris - 1)) as [i Hi]; [lia|].
  destruct (decide (n = O)) as [Hn|Hn]; [right|left]; (split; [lia|]).
  - rewrite next_while_nowhere; by eapply seek_to_restart_empty.
  - pose proof (seek_to_restart_at _ _ _ H Hi ltac:(lia)) as Hat.
    edestruct (next_while_at (fun i => (bi_next_offset i <? bi_entries_end i)%nat) (fun i => (S i <? n)%nat))
      as [(j & Hj & Hat' & Hg & _)|[_ Hm]]; [|exact Hat|by apply scan_fuel_enough| |].
    + intros it' m Hm. rewrite (ac_next _ _ Hm), (ob_end _ (ac_on _ _ Hm)). pose proof (at_cell_lt _ _ Hm) as Hlt.
      destruct (Nat.ltb_spec (S m) n) as [Hl|Hl].
      * apply Nat.ltb_lt. rewrite <- (cell_offset_end cells n) by done. apply cell_offset_lt; [done|done].
      * apply Nat.ltb_ge. rewrite cell_offset_end; [done|]. unfold n in *. lia.
    + apply Nat.ltb_ge in Hg. pose proof (at_cell_lt _ _ Hat') as Hlt. by replace (n - 1)%nat with j by lia.
    + pose proof (at_cell_lt _ _ Hat) as Hlt. specialize (Hm (n - 1)%nat ltac:(lia)). apply Nat.ltb_lt in Hm. lia.
Qed.

(** *** Walking backward *)

Lemma ris_lt j i j' i' : ris !! j = Some i -> ris !! j' = Some i' -> (j < j')%nat -> (i < i')%nat.
Proof. intros Hi Hi' Hlt. exact (StronglySorted_lookup_lt _ _ _ _ _ _ (lo_ascending _ _ LO) Hlt Hi Hi'). Qed.

Lemma restart_before_spec it i fuel (low high : nat) :
  on_block it -> (0 < i < n)%nat -> (low <= high < length ris)%nat ->
  (forall r, ris !! low = Some r -> (r < i)%nat) -> (high - low <= fuel)%nat ->
  exists j r, restart_before_loop fuel it (cell_offset cells i) (Z.of_nat low) (Z.of_nat high) = Z.of_nat j /\
              ris !! j = Some r /\ (r < i)%nat.
Proof.
  intros H Hi. revert low high. induction fuel as [|fuel IH]; intros low high Hlh Hlow Hf; simpl.
  - destruct (lookup_lt_is_Some_2 ris low) as [r Hr]; [lia|]. exists low, r. auto.
  - destruct (Z.ltb_spec (Z.of_nat low) (Z.of_nat high)) as [Hlt|Hge].
    2: { destruct (lookup_lt_is_Some_2 ris low) as [r Hr]; [lia|]. exists low, r. auto. }
    set (mid := (low + (high - low + 1) / 2)%nat).
    assert (Z.of_nat low + (Z.of_nat high - Z.of_nat low + 1) / 2 = Z.of_nat mid) as ->.
    { unfold mid. rewrite Nat2Z.inj_add, Nat2Z.inj_div. do 2 f_equal. lia. }
    assert (low < mid <= high)%nat as Hmid by (unfold mid; pose proof (Nat.div_mod_eq (high - low + 1) 2);
      pose proof (Nat.mod_upper_bound (high - low + 1) 2); lia).
    destruct (lookup_lt_is_Some_2 ris mid) as [r Hr]; [lia|]. rewrite (restart_at _ _ _ H Hr).
    destruct (Z.ltb_spec (Z.of_nat (cell_offset cells r)) (Z.of_nat (cell_offset cells i))) as [Ho|Ho].
    + apply IH; [lia| |lia]. intros r' Hr'. assert (r' = r) as -> by congruence.
      destruct (decide (r < i)%nat); [done|]. destruct (decide (r = i)) as [-> |]; [lia|].
      assert (r < n)%nat by (destruct (lo_restart _ _ LO r) as [-> | (c & Hc & _)];
        [by eapply list_elem_of_lookup_2|lia|by apply lookup_lt_Some in Hc]).
      pose proof (cell_offset_lt cells i r ltac:(lia) ltac:(unfold n in *; lia)). lia.
    + replace (Z.of_nat mid - 1) with (Z.of_nat (mid - 1)) by lia. apply IH; [lia|done|lia].
Qed.

Lemma prev_at it i : at_cell it (S i) -> at_cell (block_prev it) i.
Proof.
  intros Hat. pose proof (at_cell_lt _ _ Hat) as Hlt. pose proof (ac_on _ _ Hat) as H. pose proof ris_pos as Hpos.
  unfold block_prev. rewrite (ac_valid _ _ Hat), (ac_current _ _ Hat). change (negb true) with false. cbv iota zeta.
  pose proof (cell_offset_lt cells 0 (S i) ltac:(lia) ltac:(unfold n in *; lia)) as Hz. rewrite cell_offset_0 in Hz.
  rewrite (proj2 (Nat.eqb_neq _ _)) by lia. unfold restart_before. rewrite (ob_num _ H), Nat2Z.id.
  replace (Z.of_nat (length ris) - 1) with (Z.of_nat (length ris - 1)) by lia.
  destruct (restart_before_spec it (S i) (length ris) 0 (length ris - 1) H) as (j & r & Ej & Hr & Hri);
    [lia|lia| |lia|]. { rewrite ris_first. intros r [= <-]. lia. }
  change (Z.of_nat 0) with 0 in Ej. rewrite Ej. clear Ej.
  pose proof (seek_to_restart_at _ _ _ H Hr ltac:(lia)) as Hstart.
  edestruct (next_while_at (fun x => (bi_next_offset x <? cell_offset cells (S i))%nat) (fun m => (m <? i)%nat))
    as [(m & Hm & Hat' & Hg & Hbefore)|[_ Hm]]; [|exact Hstart|by apply scan_fuel_enough| |].
  - intros it' m Hm. rewrite (ac_next _ _ Hm). pose proof (at_cell_lt _ _ Hm).
    destruct (Nat.ltb_spec m i) as [Hl|Hl]; [apply Nat.ltb_lt, cell_offset_lt; unfold n in *; lia|].
    apply Nat.ltb_ge. destruct (decide (m = i)) as [-> |]; [done|].
    pose proof (cell_offset_lt cells (S i) (S m) ltac:(lia) ltac:(unfold n in *; lia)). lia.
  - assert (m = i) as -> by (apply Nat.ltb_ge in Hg; destruct (decide (m = i)); [done|];
      specialize (Hbefore i ltac:(lia)); apply Nat.ltb_lt in Hbefore; lia).
    rewrite (ac_valid _ _ Hat'), (ac_next _ _ Hat'), Nat.eqb_refl. done.
  - specialize (Hm i ltac:(lia)). apply Nat.ltb_lt in Hm. lia.
Qed.

Lemma prev_first it : at_cell it 0 -> nowhere (block_prev it).
Proof.
  intros Hat. unfold block_prev. rewrite (ac_valid _ _ Hat), (ac_current _ _ Hat). simpl.
  apply invalidate_nowhere, Hat.
Qed.

(** *** Seeking *)

Context (sorted : StronglySorted (fun a b => cl_key a <k cl_key b) cells).

Lemma cells_lt i j c d : cells !! i = Some c -> cells !! j = Some d -> (i < j)%nat -> cl_key c <k cl_key d.
Proof. intros Hc Hd Hlt. exact (StronglySorted_lookup_lt _ _ _ _ _ _ sorted Hlt Hc Hd). Qed.

Lemma seek_loop_spec target fuel it (low high : nat) :
  on_block it -> (0 < n)%nat -> (low <= high < length ris)%nat -> (high - low <= fuel)%nat ->
  (low = O \/ forall r c, ris !! low = Some r -> cells !! r = Some c -> cl_key c <=k target) ->
  exists it' j, seek_loop fuel it target (Z.of_nat low) (Z.of_nat high) = (it', Some (Z.of_nat j)) /\ on_block it' /\
    (j < length ris)%nat /\ (j = O \/ forall r c, ris !! j = Some r -> cells !! r = Some c -> cl_key c <=k target).
Proof.
  intros H Hn. revert it low high H. induction fuel as [|fuel IH]; intros it low high H Hlh Hf Hlow; simpl.
  - exists it, low. split; [done|]. split; [done|]. split; [lia|done].
  - destruct (Z.ltb_spec (Z.of_nat low) (Z.of_nat high)) as [Hlt|Hge].
    2: { exists it, low. split; [done|]. split; [done|]. split; [lia|done]. }
    set (mid := (low + (high - low + 1) / 2)%nat).
    assert (Z.of_nat low + (Z.of_nat high - Z.of_nat low + 1) / 2 = Z.of_nat mid) as ->.
    { unfold mid. rewrite Nat2Z.inj_add, Nat2Z.inj_div. do 2 f_equal. lia. }
    assert (low < mid <= high)%nat as Hmid by (unfold mid; pose proof (Nat.div_mod_eq (high - low + 1) 2);
      pose proof (Nat.mod_upper_bound (high - low + 1) 2); lia).
    destruct (lookup_lt_is_Some_2 ris mid) as [r Hr]; [lia|].
    pose proof (seek_to_restart_at _ _ _ H Hr Hn) as Hat. rewrite (ac_valid _ _ Hat). simpl.
    destruct (bi_key (seek_to_restart it (Z.of_nat mid)) <=?k target) eqn:Ek.
    + apply IH; [apply Hat|lia|lia|]. right. intros r' c' Hr' Hc'. assert (r' = r) as -> by congruence.
      rewrite (at_cell_key _ _ _ Hat Hc') in Ek. key_order.
    + replace (Z.of_nat mid - 1) with (Z.of_nat (mid - 1)) by lia. apply IH; [apply Hat|lia|lia|done].
Qed.

Lemma seek_loop_empty target fuel it (high : nat) : on_block it -> n = O -> (high < length ris)%nat ->
  exists it', (seek_loop fuel it target 0 (Z.of_nat high) = (it', Some 0) /\ on_block it') \/
              (seek_loop fuel it target 0 (Z.of_nat high) = (it', None) /\ nowhere it').
Proof.
  intros H Hn Hh. destruct fuel as [|fuel]; [exists it; by left|]. simpl.
  destruct (0 <? Z.of_nat high) eqn:Elt; [|exists it; by left]. apply Z.ltb_lt in Elt.
  set (m := (Z.of_nat high - 0 + 1) / 2). assert (0 <= m <= Z.of_nat high) as Hm by (unfold m; mlia).
  destruct (lookup_lt_is_Some_2 ris (Z.to_nat m)) as [r Hr]; [lia|].
  pose proof (seek_to_restart_empty it _ _ H Hr Hn) as Hno. rewrite Z2Nat.id in Hno by lia.
  change (0 + m) with m. rewrite (proj2 Hno). eexists. by right.
Qed.

(** The first cell not below the target, or none. *)
Lemma seek_spec it target : on_block it ->
  let it' := block_seek it target in
  (exists i c, at_cell it' i /\ cells !! i = Some c /\ target <=k cl_key c /\
               forall j d, cells !! j = Some d -> (j < i)%nat -> cl_key d <k target) \/
  (nowhere it' /\ forall j d, cells !! j = Some d -> cl_key d <k target).
Proof.
  intros H. unfold block_seek. rewrite usable_on_block by done. cbv zeta. pose proof ris_pos as Hpos.
  rewrite (ob_num _ H), Nat2Z.id. replace (Z.of_nat (length ris) - 1) with (Z.of_nat (length ris - 1)) by lia.
  destruct (decide (n = O)) as [Hn|Hn].
  { right. split; [|intros j d Hd; apply lookup_lt_Some in Hd; unfold n in Hn; lia].
    destruct (seek_loop_empty target (length ris) it (length ris - 1) H Hn ltac:(lia)) as (it' & [[-> Hon]|[-> Hno]]).
    - pose proof (seek_to_restart_empty it' 0 0 Hon ris_first Hn) as Hno.
      by rewrite next_while_nowhere.
    - done. }
  destruct (seek_loop_spec target (length ris) it 0 (length ris - 1) H ltac:(lia) ltac:(lia) ltac:(lia) ltac:(by left))
    as (it' & j & Ej & Hon & Hj & Hle).
  change (Z.of_nat 0) with 0 in Ej. rewrite Ej. clear Ej.
  destruct (lookup_lt_is_Some_2 ris j Hj) as [r Hr].
  pose proof (seek_to_restart_at _ _ _ Hon Hr ltac:(lia)) as Hat.
  assert (forall m d, cells !! m = Some d -> (m < r)%nat -> cl_key d <k target) as Hbefore.
  { intros m d Hd Hm. destruct Hle as [-> | Hle]; [rewrite ris_first in Hr; injection Hr as <-; lia|].
    destruct (lookup_lt_is_Some_2 cells r (at_cell_lt _ _ Hat)) as [c Hc].
    specialize (Hle _ _ Hr Hc). pose proof (cells_lt _ _ _ _ Hd Hc Hm). key_order. }
  edestruct (next_while_at (fun i => bi_key i <?k target)
               (fun m => match cells !! m with Some d => cl_key d <?k target | None => true end))
    as [(m & Hm & Hat' & Hg & Hlt)|[Hno Hm]]; [|exact Hat|by apply scan_fuel_enough| |].
  - intros x m Hm. destruct (ac_cell _ _ Hm) as (c & Hc & Hk & _). by rewrite Hc, Hk.
  - left. destruct (lookup_lt_is_Some_2 cells m (at_cell_lt _ _ Hat')) as [c Hc]. rewrite Hc in Hg.
    exists m, c. split; [done|]. split; [done|]. split; [key_order|].
    intros x d Hd Hx. destruct (decide (x < r)%nat); [by eapply Hbefore|].
    specialize (Hlt x ltac:(lia)). rewrite Hd in Hlt. key_order.
  - right. split; [done|]. intros x d Hd. destruct (decide (x < r)%nat); [by eapply Hbefore|].
    specialize (Hm x ltac:(split; [lia|by eapply lookup_lt_Some])). rewrite Hd in Hm. key_order.
Qed.

(** The last cell not above the target, or none. *)
Lemma seek_for_prev_spec it target : on_block it ->
  let it' := block_seek_for_prev it target in
  (exists i c, at_cell it' i /\ cells !! i = Some c /\ cl_key c <=k target /\
               forall j d, cells !! j = Some d -> (i < j)%nat -> target <k cl_key d) \/
  (nowhere it' /\ forall j d, cells !! j = Some d -> target <k cl_key d).
Proof.
  intros H. unfold block_seek_for_prev. rewrite usable_on_block by done. cbv zeta.
  destruct (seek_spec it target H) as [(i & c & Hat & Hc & Hge & Hlt)|[Hno Hlt]].
  - rewrite (ac_valid _ _ Hat), (at_cell_key _ _ _ Hat Hc). change (negb true) with false. cbv iota.
    destruct (slice_eqb (cl_key c) target) eqn:Eq.
    + apply slice_eqb_eq in Eq. left. exists i, c. split; [done|]. split; [done|]. split; [key_order|].
      intros j d Hd Hj. pose proof (cells_lt _ _ _ _ Hc Hd Hj). key_order.
    + assert (target <k cl_key c) as Hgt.
      { assert (cl_key c <> target) by (intros E; apply slice_eqb_eq in E; congruence). key_order. }
      assert (forall j d, cells !! j = Some d -> (i <= j)%nat -> target <k cl_key d) as Habove.
      { intros j d Hd Hj. destruct (decide (j = i)) as [-> |]; [congruence|].
        pose proof (cells_lt _ _ _ _ Hc Hd ltac:(lia)). key_order. }
      destruct i as [|i]; [right|left].
      * split; [by apply prev_first|]. intros j d Hd. apply (Habove j d Hd). lia.
      * destruct (lookup_lt_is_Some_2 cells i) as [c' Hc']; [apply lookup_lt_Some in Hc; lia|].
        exists i, c'. split; [by apply prev_at|]. split; [done|]. specialize (Hlt _ _ Hc' ltac:(lia)).
        split; [key_order|]. intros j d Hd Hj. apply (Habove j d Hd). lia.
  - rewrite (proj2 Hno), (ob_status _ (proj1 Hno)), bool_decide_eq_true_2 by done.
    change (negb true) with false. change (negb false) with true. cbv iota.
    destruct (seek_to_last_spec _ (proj1 Hno)) as [[Hn Hat]|[Hn Hno']]; [left|right].
    + destruct (lookup_lt_is_Some_2 cells (n - 1)) as [c Hc]; [unfold n in *; lia|]. exists (n - 1)%nat, c.
      split; [done|]. split; [done|]. split; [specialize (Hlt _ _ Hc); key_order|].
      intros j d Hd Hj. apply lookup_lt_Some in Hd. unfold n in *. lia.
    + split; [done|]. intros j d Hd. apply lookup_lt_Some in Hd. unfold n in *. lia.
Qed.
End OnBlock.

(** ** What the builder lays out *)

Lemma shared_prefix_extends a b : (shared_prefix a b <= length a)%nat /\ (shared_prefix a b <= length b)%nat /\
  take (shared_prefix a b) a = take (shared_prefix a b) b.
Proof.
  revert b. induction a as [|x a IH]; intros [|y b]; simpl; try (split; [lia|split; [lia|done]]).
  case_bool_decide as E; simpl; [|split; [lia|split; [lia|done]]]. subst y. destruct (IH b) as (? & ? & ->). split; [lia|split; [lia|done]].
Qed.

Definition last_key_of (cells : list Cell) : bytes :=
  match last cells with Some c => cl_key c | None => [] end.

Record built (interval : Z) (b : BlockBuilder) (cells : list Cell) (ris : list nat) : Prop := {
  bu_buffer : bb_buffer b = encoded cells;
  bu_restarts : bb_restarts b = map (fun i => u32 (Z.of_nat (cell_offset cells i))) ris;
  bu_last : bb_last_key b = last_key_of cells;
  bu_interval : bb_restart_interval b = interval;
  bu_since : cells = [] -> bb_since_restart b = 0;
  bu_laid : laid_out cells ris
}.

Lemma laid_out_nil : laid_out [] [O].
Proof.
  split; try done; [repeat constructor|]. intros i ->%list_elem_of_singleton. by left.
Qed.

Lemma built_new interval : built interval (new_builder interval) [] [O].
Proof. split; try done. apply laid_out_nil. Qed.

Lemma built_reset interval b cells ris : built interval b cells ris -> built interval (builder_reset b) [] [O].
Proof. intros H. split; try done; [apply H|apply laid_out_nil]. Qed.

Lemma restart_le cells ris i : laid_out cells ris -> i ∈ ris -> (i <= length cells)%nat.
Proof. intros LO Hi. destruct (lo_restart _ _ LO i Hi) as [-> | (c & Hc & _)]; [lia|]. apply lookup_lt_Some in Hc. lia. Qed.

Lemma cell_offset_app cells c i : (i <= length cells)%nat -> cell_offset (cells ++ [c]) i = cell_offset cells i.
Proof. intros Hi. unfold cell_offset. by rewrite take_app_le. Qed.

Lemma laid_out_snoc cells ris c restart :
  laid_out cells ris -> entry_small (cl_kv c) -> (cl_shared c <= length (cl_key c))%nat ->
  extends (last_key_of cells) c -> (restart = true -> cl_shared c = O /\ cells <> []) ->
  laid_out (cells ++ [c]) (if restart then ris ++ [length cells] else ris).
Proof.
  intros LO Hs Hw Hx Hr.
  assert (forall i d, (cells ++ [c]) !! i = Some d -> cells !! i = Some d \/ (i = length cells /\ d = c)) as Hlook.
  { intros i d. intros [H|[Hge H]]%lookup_app_Some; [by left|right]. apply list_lookup_singleton_Some in H as [? ?]. split; [lia|done]. }
  split.
  - apply Forall_app. split; [apply LO|by constructor].
  - apply Forall_app. split; [apply LO|by constructor].
  - intros d Hd. destruct cells as [|c0 cs]; [|by apply (lo_first _ _ LO)]. simpl in Hd. injection Hd as <-.
    destruct Hx as [Hx _]. simpl in Hx. lia.
  - intros i d d' Hd Hd'. destruct (Hlook _ _ Hd') as [Hd1|[Hi ->]].
    + assert (cells !! i = Some d) as Hd0 by (destruct (Hlook _ _ Hd) as [|[-> _]]; [done|]; apply lookup_lt_Some in Hd1; lia).
      by eapply (lo_chain _ _ LO).
    + assert (last_key_of cells = cl_key d) as <-; [|done]. unfold last_key_of. rewrite last_lookup.
      rewrite <- Hi. simpl. rewrite lookup_app_l in Hd by lia. by rewrite Hd.
  - pose proof (lo_zero _ _ LO). destruct restart; [|done]. by destruct ris.
  - destruct restart; [|apply LO]. apply StronglySorted_app. split; [|split; [apply LO|repeat constructor]].
    intros i j Hi ->%list_elem_of_singleton. destruct (Hr eq_refl) as [_ Hne].
    destruct (lo_restart _ _ LO i Hi) as [-> | (d & Hd & _)]; [destruct cells; [done|simpl; lia]|by eapply lookup_lt_Some].
  - intros i Hi. assert (i ∈ ris \/ (restart = true /\ i = length cells)) as [Hi'|[-> ->]].
    { destruct restart; [|by left]. apply elem_of_app in Hi as [|Hi%list_elem_of_singleton]; [by left|by right]. }
    + destruct (lo_restart _ _ LO i Hi') as [-> | (d & Hd & Hz)]; [by left|right]. exists d. split; [|done].
      apply lookup_app_Some. by left.
    + right. exists c. split; [|by apply Hr]. by rewrite lookup_app_r, Nat.sub_diag by lia.
Qed.

Lemma built_add interval b cells ris kv :
  0 < interval -> built interval b cells ris -> entry_small kv ->
  exists c ris', cl_kv c = kv /\ built interval (builder_add b kv.1 kv.2.1 kv.2.2) (cells ++ [c]) ris'.
Proof.
  intros Hint [Hb Hr Hl Hi Hs LO] Hsm.
  set (sharing := bb_since_restart b <? bb_restart_interval b).
  set (c := {| cl_shared := if sharing then shared_prefix (bb_last_key b) kv.1 else O; cl_kv := kv |}).
  destruct (shared_prefix_extends (bb_last_key b) kv.1) as (Ha & Hb' & Ht).
  assert (laid_out (cells ++ [c]) (if negb sharing then ris ++ [length cells] else ris)) as LO'.
  { apply laid_out_snoc; [done|done| | |].
    - unfold c. simpl. destruct sharing; [exact Hb'|lia].
    - rewrite <- Hl. unfold c, extends. simpl. destruct sharing; [done|]. split; [lia|done].
    - unfold c. simpl. destruct sharing eqn:Es; [done|]. intros _. split; [done|]. intros Hnil. unfold sharing in Es. apply Z.ltb_ge in Es. rewrite Hs in Es by done. lia. }
  exists c, (if negb sharing then ris ++ [length cells] else ris). split; [done|].
  assert (map (fun i => u32 (Z.of_nat (cell_offset (cells ++ [c]) i))) ris = map (fun i => u32 (Z.of_nat (cell_offset cells i))) ris) as Hmap.
  { apply map_ext_in. intros i Hin%list_elem_of_In. rewrite cell_offset_app; [done|by eapply restart_le]. }
  split; simpl; try fold sharing.
  - by rewrite Hb, encoded_app, encoded_cons, app_nil_r.
  - rewrite Hr. destruct sharing; simpl; [by rewrite Hmap|].
    by rewrite map_app, Hmap, Hb, map_cons, cell_offset_app, cell_offset_end by lia.
  - unfold last_key_of. by rewrite last_snoc.
  - done.
  - by intros []%app_nil.
  - exact LO'.
Qed.

Definition add_all (b : BlockBuilder) (kvs : list KV) : BlockBuilder :=
  fold_left (fun b kv => builder_add b kv.1 kv.2.1 kv.2.2) kvs b.

Lemma built_add_all interval b cells ris kvs :
  0 < interval -> built interval b cells ris -> Forall entry_small kvs ->
  exists cs ris', map cl_kv cs = kvs /\ built interval (add_all b kvs) (cells ++ cs) ris'.
Proof.
  intros Hint. revert b cells ris. induction kvs as [|kv kvs IH]; intros b cells ris Hb Hs.
  - exists [], ris. by rewrite app_nil_r.
  - inversion_clear Hs as [|? ? Hk Hrest].
    destruct (built_add interval b cells ris kv Hint Hb Hk) as (c & ris1 & Hc & Hb1).
    destruct (IH _ _ _ Hb1 Hrest) as (cs & ris2 & Hcs & Hb2).
    exists (c :: cs), ris2. rewrite <- Hc, <- Hcs at 1. split; [done|]. by rewrite <- app_assoc in Hb2.
Qed.

Lemma built_finish interval b cells ris : built interval b cells ris -> bb_buffer (builder_finish b) = block_of cells ris.
Proof.
  intros [Hb Hr _ _ _ _]. simpl. unfold block_of. rewrite Hb, Hr, length_map, map_map. done.
Qed.

(** ** Blocks and lists *)

(** The entries an iterator meets, walking with [step]; one round per entry and one to find the end. *)
Fixpoint walk (fuel : nat) (step : BlockIterator -> BlockIterator) (it : BlockIterator) : list KV :=
  match fuel with
  | O => []
  | S fuel' => match block_entry it with Some kv => kv :: walk fuel' step (step it) | None => [] end
  end.

(** The block of a list of entries. *)
Definition block_content (interval : Z) (kvs : list KV) : bytes :=
  bb_buffer (builder_finish (add_all (new_builder interval) kvs)).

Lemma nowhere_entry cells ris it : nowhere cells ris it -> block_entry it = None.
Proof. intros [_ H]. unfold block_entry. by rewrite H. Qed.

Lemma block_size_layout cells ris :
  zlen (block_of cells ris) < 2 ^ 32 -> Z.of_nat (length (encoded cells)) + 4 * Z.of_nat (length ris) < 2 ^ 32.
Proof. unfold block_of, zlen. rewrite !length_app, length_restart_array. lia. Qed.

(** ** An iterator on a list

    What clients of [BlockIterator] need: the iterator over [content] stands on entry [o] of the sorted
    list [kvs], or on none, and has met no error. *)

Definition first_at {A} (p : A -> bool) (l : list A) (o : option nat) : Prop :=
  match o with
  | Some i => (exists x, l !! i = Some x /\ p x = true) /\ forall j y, l !! j = Some y -> (j < i)%nat -> p y = false
  | None => forall j y, l !! j = Some y -> p y = false
  end.

Definition last_at {A} (p : A -> bool) (l : list A) (o : option nat) : Prop :=
  match o with
  | Some i => (exists x, l !! i = Some x /\ p x = true) /\ forall j y, l !! j = Some y -> (i < j)%nat -> p y = false
  | None => forall j y, l !! j = Some y -> p y = false
  end.

Lemma first_at_head {A} (p : A -> bool) l o : first_at p l o -> (o ≫= fun i => l !! i) = head (List.filter p l).
Proof.
  destruct o as [i|]; simpl.
  - intros [(x & Hx & Hp) Hb]. rewrite Hx. symmetry. by eapply head_filter_at.
  - intros H. rewrite filter_none; [done|]. intros x (j & Hj)%list_elem_of_lookup. by eapply H.
Qed.

Lemma last_at_last {A} (p : A -> bool) l o : last_at p l o -> (o ≫= fun i => l !! i) = last (List.filter p l).
Proof.
  destruct o as [i|]; simpl.
  - intros [(x & Hx & Hp) Ha]. rewrite Hx. symmetry. by eapply last_filter_at.
  - intros H. rewrite filter_none; [done|]. intros x (j & Hj)%list_elem_of_lookup. by eapply H.
Qed.

Inductive stands (content : bytes) (kvs : list KV) (it : BlockIterator) : option nat -> Prop :=
  | stands_intro cells ris o :
      laid_out cells ris -> Z.of_nat (length (encoded cells)) + 4 * Z.of_nat (length ris) < 2 ^ 32 ->
      content = block_of cells ris -> kvs = map stored (map cl_kv cells) ->
      match o with Some i => at_cell cells ris it i | None => nowhere cells ris it end ->
      stands content kvs it o.

Section Stands.
Context (content : bytes) (kvs : list KV).

Lemma stands_entry it o : stands content kvs it o ->
  block_entry it = (o ≫= fun i => kvs !! i) /\ bi_valid it = bool_decide (is_Some o) /\ bi_status it = Ok /\
  (forall i, o = Some i -> (i < length kvs)%nat).
Proof.
  intros [cells ris o' LO Hsm -> -> Hat]. destruct o' as [i|]; simpl.
  - destruct (ac_cell _ _ _ _ Hat) as (c & Hc & _ & ->). rewrite map_map, list_lookup_fmap, Hc.
    split; [done|]. split; [apply Hat|]. split; [apply Hat|].
    intros j [= <-]. rewrite length_map. by eapply lookup_lt_Some.
  - split; [by eapply nowhere_entry|]. split; [apply Hat|]. split; [apply Hat|done].
Qed.

Lemma stands_next it i : stands content kvs it (Some i) ->
  stands content kvs (block_next it) (if (S i <? length kvs)%nat then Some (S i) else None).
Proof.
  intros H. inversion_clear H as [cells ris ? LO Hsm -> -> Hat]. econstructor; [done|done|done|done|].
  rewrite !length_map. pose proof (at_cell_lt _ _ _ _ Hat) as Hlt.
  destruct (Nat.ltb_spec (S i) (length cells)); [by apply next_at|]. apply (next_end _ _ _ _ Hat). lia.
Qed.

Lemma stands_prev it i : stands content kvs it (Some i) ->
  stands content kvs (block_prev it) (match i with S i' => Some i' | O => None end).
Proof.
  intros H. inversion_clear H as [cells ris ? LO Hsm -> -> Hat]. econstructor; [done|done|done|done|].
  destruct i; [by apply prev_first|by apply prev_at].
Qed.

Lemma stands_on it o : stands content kvs it o -> exists cells ris,
  laid_out cells ris /\ Z.of_nat (length (encoded cells)) + 4 * Z.of_nat (length ris) < 2 ^ 32 /\
  content = block_of cells ris /\ kvs = map stored (map cl_kv cells) /\ on_block cells ris it.
Proof.
  intros [cells ris o' LO Hsm -> -> Hat]. exists cells, ris. do 4 (split; [done|]). destruct o'; apply Hat.
Qed.

Lemma stands_seek_to_first it o : stands content kvs it o ->
  stands content kvs (block_seek_to_first it) (if (0 <? length kvs)%nat then Some O else None).
Proof.
  intros (cells & ris & LO & Hsm & -> & -> & Hon)%stands_on. econstructor; [done|done|done|done|].
  rewrite !length_map. destruct (seek_to_first_spec _ _ LO _ Hon) as [[Hn Hat]|[Hn Hno]].
  - by rewrite (proj2 (Nat.ltb_lt _ _) Hn).
  - by rewrite Hn.
Qed.

Lemma stands_seek_to_last it o : stands content kvs it o ->
  stands content kvs (block_seek_to_last it) (if (0 <? length kvs)%nat then Some (length kvs - 1)%nat else None).
Proof.
  intros (cells & ris & LO & Hsm & -> & -> & Hon)%stands_on. econstructor; [done|done|done|done|].
  rewrite !length_map. destruct (seek_to_last_spec _ _ LO Hsm _ Hon) as [[Hn Hat]|[Hn Hno]].
  - by rewrite (proj2 (Nat.ltb_lt _ _) Hn).
  - by rewrite Hn.
Qed.

Context (sorted : key_sorted kvs).

Lemma cells_sorted cells : kvs = map stored (map cl_kv cells) -> StronglySorted (fun a b => cl_key a <k cl_key b) cells.
Proof.
  intros E. pose proof sorted as Hs. rewrite E, map_map in Hs. clear -Hs. unfold key_sorted in Hs.
  induction cells as [|c l IH]; [constructor|]. rewrite map_cons in Hs.
  apply StronglySorted_inv in Hs as [Hs Hf]. constructor; [by apply IH|].
  exact (proj1 (List.Forall_map _ _ l) Hf).
Qed.

Lemma stored_lookup cells i kv : map stored (map cl_kv cells) !! i = Some kv ->
  exists c, cells !! i = Some c /\ kv = stored (cl_kv c).
Proof. rewrite map_map, list_lookup_fmap. destruct (cells !! i) as [c|]; simpl; [|done]. intros [= <-]. by exists c. Qed.

Lemma stands_seek it o target : stands content kvs it o ->
  exists o', stands content kvs (block_seek it target) o' /\ first_at (fun kv => target <=?k kv.1) kvs o'.
Proof.
  intros (cells & ris & LO & Hsm & -> & Ek & Hon)%stands_on. pose proof (cells_sorted _ Ek) as Hsort.
  destruct (seek_spec _ _ LO Hsm Hsort _ target Hon) as [(i & c & Hat & Hc & Hge & Hlt)|[Hno Hlt]].
  - exists (Some i). split; [by econstructor|]. split.
    + exists (stored (cl_kv c)). split; [by rewrite Ek, map_map, list_lookup_fmap, Hc|]. simpl. fold (cl_key c). key_order.
    + intros j y Hj Hji. rewrite Ek in Hj. apply stored_lookup in Hj as (d & Hd & ->). specialize (Hlt _ _ Hd Hji). simpl. fold (cl_key d). key_order.
  - exists None. split; [by econstructor|]. intros j y Hj. rewrite Ek in Hj.
    apply stored_lookup in Hj as (d & Hd & ->). specialize (Hlt _ _ Hd). simpl. fold (cl_key d). key_order.
Qed.

Lemma stands_seek_for_prev it o target : stands content kvs it o ->
  exists o', stands content kvs (block_seek_for_prev it target) o' /\ last_at (fun kv => kv.1 <=?k target) kvs o'.
Proof.
  intros (cells & ris & LO & Hsm & -> & Ek & Hon)%stands_on. pose proof (cells_sorted _ Ek) as Hsort.
  destruct (seek_for_prev_spec _ _ LO Hsm Hsort _ target Hon) as [(i & c & Hat & Hc & Hle & Hgt)|[Hno Hgt]].
  - exists (Some i). split; [by econstructor|]. split.
    + exists (stored (cl_kv c)). split; [by rewrite Ek, map_map, list_lookup_fmap, Hc|]. simpl. fold (cl_key c). key_order.
    + intros j y Hj Hji. rewrite Ek in Hj. apply stored_lookup in Hj as (d & Hd & ->). specialize (Hgt _ _ Hd Hji). simpl. fold (cl_key d). key_order.
  - exists None. split; [by econstructor|]. intros j y Hj. rewrite Ek in Hj.
    apply stored_lookup in Hj as (d & Hd & ->). specialize (Hgt _ _ Hd). simpl. fold (cl_key d). key_order.
Qed.

Lemma stands_walk fuel it i : stands content kvs it (Some i) -> (length kvs - i < fuel)%nat ->
  walk fuel block_next it = drop i kvs.
Proof.
  revert it i. induction fuel as [|fuel IH]; intros it i Hst Hf; [lia|].
  destruct (stands_entry _ _ Hst) as (He & _ & _ & Hlt). specialize (Hlt i eq_refl).
  destruct (lookup_lt_is_Some_2 kvs i Hlt) as [kv Hkv]. cbn [walk]. rewrite He. simpl. rewrite Hkv, (drop_S _ _ _ Hkv). f_equal.
  pose proof (stands_next _ _ Hst) as Hn. destruct (Nat.ltb_spec (S i) (length kvs)); [apply IH; [done|lia]|].
  rewrite drop_ge by lia. destruct fuel; [done|]. cbn [walk]. by rewrite (proj1 (stands_entry _ _ Hn)).
Qed.

Lemma stands_walk_back fuel it i : stands content kvs it (Some i) -> (i < fuel)%nat ->
  walk fuel block_prev it = rev (take (S i) kvs).
Proof.
  revert it i. induction fuel as [|fuel IH]; intros it i Hst Hf; [lia|].
  destruct (stands_entry _ _ Hst) as (He & _ & _ & Hlt). specialize (Hlt i eq_refl).
  destruct (lookup_lt_is_Some_2 kvs i Hlt) as [kv Hkv]. cbn [walk]. rewrite He. simpl mbind. rewrite Hkv, (take_S_r _ _ _ Hkv), rev_app_distr.
  change (rev [kv]) with [kv]. cbn [app]. f_equal.
  pose proof (stands_prev _ _ Hst) as Hn. destruct i as [|i]; [|apply IH; [done|lia]].
  destruct fuel; [done|]. cbn [walk]. by rewrite (proj1 (stands_entry _ _ Hn)).
Qed.
End Stands.

Lemma stands_open interval kvs :
  0 < interval -> Forall entry_small kvs -> zlen (block_content interval kvs) < 2 ^ 32 ->
  stands (block_content interval kvs) (map stored kvs) (block_iterator (block_content interval kvs)) None.
Proof.
  intros Hint Hsmall Hlen.
  destruct (built_add_all interval _ _ _ kvs Hint (built_new interval) Hsmall) as (cells & ris & <- & Hb).
  unfold block_content in *. rewrite (built_finish _ _ _ _ Hb) in *.
  econstructor; [apply Hb|by apply block_size_layout|done|done|]. apply open_block; [apply Hb|by apply block_size_layout].
Qed.

Lemma stored_sorted kvs : key_sorted kvs -> key_sorted (map stored kvs).
Proof.
  induction 1 as [|kv l Hs IH Hf]; [constructor|]. simpl. constructor; [done|].
  by apply (proj2 (List.Forall_map stored _ l)).
Qed.

Record reads_as (content : bytes) (kvs : list KV) : Prop := {
  ra_forward : forall fuel, (length kvs < fuel)%nat ->
    walk fuel block_next (block_seek_to_first (block_iterator content)) = kvs;
  ra_backward : forall fuel, (length kvs < fuel)%nat ->
    walk fuel block_prev (block_seek_to_last (block_iterator content)) = rev kvs;
  ra_seek : forall target, block_entry (block_seek (block_iterator content) target) =
    head (List.filter (fun kv => target <=?k kv.1) kvs);
  ra_seek_for_prev : forall target, block_entry (block_seek_for_prev (block_iterator content) target) =
    last (List.filter (fun kv => kv.1 <=?k target) kvs);
  ra_status : forall target,
    bi_status (block_iterator content) = Ok /\
    bi_status (block_seek (block_iterator content) target) = Ok /\
    bi_status (block_seek_for_prev (block_iterator content) target) = Ok
}.

Lemma stands_reads content kvs : key_sorted kvs -> stands content kvs (block_iterator content) None -> reads_as content kvs.
Proof.
  intros Hs Hst. split.
  - intros fuel Hf. pose proof (stands_seek_to_first _ _ _ _ Hst) as H. destruct (Nat.ltb_spec 0 (length kvs)).
    + rewrite (stands_walk _ _ _ _ _ H) by lia. by rewrite drop_0.
    + destruct kvs; [|simpl in *; lia]. destruct fuel; [done|]. cbn [walk]. by rewrite (proj1 (stands_entry _ _ _ _ H)).
  - intros fuel Hf. pose proof (stands_seek_to_last _ _ _ _ Hst) as H. destruct (Nat.ltb_spec 0 (length kvs)).
    + rewrite (stands_walk_back _ _ _ _ _ H) by lia. by rewrite take_ge by lia.
    + destruct kvs; [|simpl in *; lia]. destruct fuel; [done|]. cbn [walk]. by rewrite (proj1 (stands_entry _ _ _ _ H)).
  - intros t. destruct (stands_seek _ _ Hs _ _ t Hst) as (o & Ho & Hf). rewrite (proj1 (stands_entry _ _ _ _ Ho)). by apply first_at_head.
  - intros t. destruct (stands_seek_for_prev _ _ Hs _ _ t Hst) as (o & Ho & Hl). rewrite (proj1 (stands_entry _ _ _ _ Ho)). by apply last_at_last.
  - intros t. destruct (stands_seek _ _ Hs _ _ t Hst) as (o & Ho & _), (stands_seek_for_prev _ _ Hs _ _ t Hst) as (o' & Ho' & _).
    split; [apply (stands_entry _ _ _ _ Hst)|]. split; [apply (stands_entry _ _ _ _ Ho)|apply (stands_entry _ _ _ _ Ho')].
Qed.

Lemma block_content_reads interval kvs :
  0 < interval -> key_sorted kvs -> Forall entry_small kvs -> zlen (block_content interval kvs) < 2 ^ 32 ->
  reads_as (block_content interval kvs) (map stored kvs).
Proof. intros Hint Hs Hsm Hlen. apply stands_reads; [by apply stored_sorted|by apply stands_open]. Qed.

(** ** Untrusted bytes *)

Lemma parse_entry_moves it o it' :
  parse_entry it o = (true, it') ->
  bi_entries_end it' = bi_entries_end it /\ (o < bi_next_offset it' <= bi_entries_end it)%nat.
Proof.
  unfold parse_entry. intros H. destruct (bi_data it) as [data|]; [|done].
  destruct (Nat.leb_spec (bi_entries_end it) o) as [|Ho]; [done|].
  set (p0 := drop o (take (bi_entries_end it) data)) in *.
  destruct (get_varint32 p0) as [[shared p1]|] eqn:E1; [|done].
  destruct (get_varint32 p1) as [[unshared p2]|] eqn:E2; [|done].
  destruct p2 as [|ty p3]; [done|]. destruct (negb (is_known_value_type (zb ty))); [done|].
  destruct (get_varint32 p3) as [[vlen p4]|] eqn:E3; [|done].
  destruct (_ || _ || _); [done|]. injection H as <-. simpl. split; [done|].
  apply get_varint32_suffix in E1 as (q1 & E1 & Hq1), E2 as (q2 & E2 & Hq2), E3 as (q3 & E3 & Hq3).
  rewrite !length_drop. assert (length p0 <= bi_entries_end it - o)%nat.
  { unfold p0. rewrite length_drop, length_take. lia. }
  apply (f_equal length) in E1, E2, E3. rewrite ?length_app in *. simpl in *. lia.
Qed.

Lemma block_next_moves it :
  bi_valid (block_next it) = true ->
  bi_entries_end (block_next it) = bi_entries_end it /\
  (bi_next_offset it < bi_next_offset (block_next it) <= bi_entries_end it)%nat.
Proof.
  unfold block_next. destruct (bi_valid it) eqn:Ev; simpl; [|congruence].
  unfold parse_or_invalidate. destruct (parse_entry it (bi_next_offset it)) as [[] it'] eqn:E; [|done].
  intros _. by apply parse_entry_moves.
Qed.

Lemma block_next_valid it : bi_valid (block_next it) = true -> bi_valid it = true.
Proof. unfold block_next. destruct (bi_valid it) eqn:E; [done|]. simpl. congruence. Qed.

Lemma next_iter_moves n it :
  bi_valid (Nat.iter n block_next it) = true ->
  bi_entries_end (Nat.iter n block_next it) = bi_entries_end it /\
  (bi_next_offset it + n <= bi_next_offset (Nat.iter n block_next it))%nat.
Proof.
  induction n as [|n IH]; [simpl; lia|].
  change (Nat.iter (S n) block_next it) with (block_next (Nat.iter n block_next it)). intros Hv.
  destruct (block_next_moves _ Hv) as [He Hlt]. pose proof (block_next_valid _ Hv) as Hv'.
  destruct (IH Hv') as [He' Hle]. split; [congruence|lia].
Qed.

Lemma block_entries_end content : (bi_entries_end (block_iterator content) <= length content)%nat.
Proof.
  unfold block_iterator, zlen. pose proof (decode_fixed32_range (drop (length content - 4) content)) as [Hr _].
  repeat case_match; simpl; zbool; lia.
Qed.

(** ** Properties *)

(** A block is the sorted list of entries it was built from. Whatever the restart interval, walking
    forward or backward meets every entry once and in order, [seek] lands on the first key at or above
    its target and [seek_for_prev] on the last at or below, with no error; deletions read back without
    their value. Prefix compression and restart points are invisible. *)
Theorem block_reads_back interval kvs :
  0 < interval -> key_sorted kvs -> Forall entry_small kvs -> zlen (block_content interval kvs) < 2 ^ 32 ->
  reads_as (block_content interval kvs) (map stored kvs).
Proof. apply block_content_reads. Qed.

Definition sample_entries : list KV :=
  [([x61], (Put, [x31])); ([x61; x62], (Delete, [])); ([x61; x62; x63], (Put, [x32])); ([x62], (Put, []))].

Lemma block_reads_back_witness :
  block_entry (block_seek (block_iterator (block_content 2 sample_entries)) [x61; x62; x00]) =
  Some ([x61; x62; x63], (Put, [x32])).
Proof.
  rewrite (ra_seek _ _ (block_reads_back 2 sample_entries ltac:(lia)
    ltac:(repeat constructor; vm_compute; reflexivity) ltac:(repeat constructor; vm_compute; congruence)
    ltac:(vm_compute; reflexivity))).
  reflexivity.
Defined.

(** Walking any byte string ends. Whatever the bytes claim to be, a forward walk over them as a block
    is over after at most as many steps as there are bytes. *)
Theorem block_walk_ends content :
  bi_valid (Nat.iter (S (length content)) block_next (block_seek_to_first (block_iterator content))) = false.
Proof.
  set (it := block_seek_to_first (block_iterator content)).
  assert (bi_entries_end it = bi_entries_end (block_iterator content)) as He.
  { unfold it, block_seek_to_first. destruct (unusable _); [done|]. unfold parse_or_invalidate.
    destruct (parse_entry _ 0) as [[] it'] eqn:E; [by apply parse_entry_moves in E as [-> _]|].
    unfold parse_entry in E. repeat case_match; by simplify_eq/=. }
  destruct (bi_valid _) eqn:Ev; [|done]. exfalso.
  pose proof (block_entries_end content) as Hend.
  change (bi_valid (block_next (Nat.iter (length content) block_next it)) = true) in Ev.
  destruct (next_iter_moves (length content) it (block_next_valid _ Ev)) as [He' Hle].
  apply block_next_moves in Ev as [_ Hlt]. lia.
Qed.

(** A restart offset past the entries ends a [seek] without an error: the walk meets the key and the
    seek, whose status is [Ok], does not. *)
Definition bad_restart_block : bytes :=
  let good := block_content 1 [([x61], (Put, [x31])); ([x62], (Put, [x32]))] in
  take 16 good ++ [xff] ++ drop 17 good.

Lemma bad_restart_hides_key :
  ([x62], (Put, [x32])) ∈ walk 3 block_next (block_seek_to_first (block_iterator bad_restart_block)) /\
  block_entry (block_seek (block_iterator bad_restart_block) [x62]) = None /\
  bi_status (block_seek (block_iterator bad_restart_block) [x62]) = Ok.
Proof. vm_compute. split; [right; left|split; reflexivity]. Qed.
