(* ===== verification/SstFile.v ===== *)
(** * Sorted string tables: the bytes of a file

    [src/sst/sst_writer.cpp] and [src/sst/sst_reader.cpp], byte for byte: data blocks, one index entry per
    block, the bloom filter, the range tombstones as a block of their own, and the footer; and the reader
    that opens such an object, answers point reads and iterates over it. The theorem of the file is that
    the reader meets [SstReaderLaws], the contract the engine is proved against.

    The object a reader reads is behind [BlobStore]: what the store the reader was given answers, what the
    authority below its caches answers when there is one, and what the block cache holds. The filter and
    the decoded range tombstones are read where they are used; the source keeps them after the first
    use. *)

From S2P Require Import Prelude Slice Format Crc32c Framing Footer Bloom Watermark VersionEdit Version Memtable Merging Sst Iterators Block.

(** ** The writer *)

Record SstOptions := {
  o_block_bytes : Z;
  o_restart_interval : Z;
  o_bloom_bits_per_key : Z;
  o_bloom_probes : Z;
  o_compression : Compression
}.

Definition encode_handle (h : BlockHandle) : bytes := put_varint64 (bh_offset h) ++ put_varint64 (bh_length h).

(** [SstWriter] with its builders. [fw_book] holds its counters and key bounds, with what was added. *)
Record FileWriter := {
  fw_options : SstOptions;
  fw_data_block : BlockBuilder;
  fw_index_block : BlockBuilder;
  fw_range_del_block : BlockBuilder;
  fw_bloom : Bloom.BloomBuilder;
  fw_file : bytes;
  fw_book : SstWriter
}.

Definition new_file_writer (o : SstOptions) : FileWriter :=
  {| fw_options := o;
     fw_data_block := new_builder (o_restart_interval o);
     fw_index_block := new_builder (o_restart_interval o);
     fw_range_del_block := new_builder (o_restart_interval o);
     fw_bloom := Bloom.make (o_bloom_bits_per_key o) (o_bloom_probes o);
     fw_file := []; fw_book := new_writer |}.

Definition estimated_bytes (w : FileWriter) : Z :=
  zlen (fw_file w) + size_estimate (fw_data_block w) + size_estimate (fw_index_block w) + kFooterLengthV1.

Section Writer.
Context `{codec : CodecOps}.

Definition flush_data_block (w : FileWriter) : Status * FileWriter :=
  if builder_empty (fw_data_block w) then (Ok, w)
  else
    let last_key := bb_last_key (fw_data_block w) in
    let finished := builder_finish (fw_data_block w) in
    match frame_block (bb_buffer finished) (o_compression (fw_options w)) with
    | Unexpected s =>
        (s, {| fw_options := fw_options w; fw_data_block := finished; fw_index_block := fw_index_block w;
               fw_range_del_block := fw_range_del_block w; fw_bloom := fw_bloom w; fw_file := fw_file w;
               fw_book := fw_book w |})
    | Value raw =>
        let handle := mkHandle (zlen (fw_file w)) (u32 (zlen raw)) in
        (Ok, {| fw_options := fw_options w; fw_data_block := builder_reset finished;
                fw_index_block := builder_add (fw_index_block w) last_key Put (encode_handle handle);
                fw_range_del_block := fw_range_del_block w; fw_bloom := fw_bloom w;
                fw_file := fw_file w ++ raw; fw_book := fw_book w |})
    end.

(** [add]; the status of the flush it may cause is dropped. *)
Definition file_add (w : FileWriter) (kv : KV) : FileWriter :=
  let w := {| fw_options := fw_options w;
              fw_data_block := builder_add (fw_data_block w) kv.1 kv.2.1 kv.2.2;
              fw_index_block := fw_index_block w; fw_range_del_block := fw_range_del_block w;
              fw_bloom := Bloom.add (fw_bloom w) kv.1; fw_file := fw_file w;
              fw_book := writer_add (fw_book w) kv |} in
  if o_block_bytes (fw_options w) <=? size_estimate (fw_data_block w) then (flush_data_block w).2 else w.

Definition file_add_range_tombstone (w : FileWriter) (r : RangeTombstone) : FileWriter :=
  {| fw_options := fw_options w; fw_data_block := fw_data_block w; fw_index_block := fw_index_block w;
     fw_range_del_block := builder_add (fw_range_del_block w) (lower r) Put (upper r);
     fw_bloom := fw_bloom w; fw_file := fw_file w;
     fw_book := writer_add_range_tombstone (fw_book w) r |}.

(** A framed block behind the bytes so far, and where it lies. *)
Definition append_block (file content : bytes) (c : Compression) : Result (bytes * BlockHandle) :=
  let? raw := frame_block content c in
  Value (file ++ raw, mkHandle (zlen file) (u32 (zlen raw))).

Definition file_finish (w : FileWriter) : Result bytes :=
  match flush_data_block w with
  | (Ok, w) =>
      let? (file, filter) := append_block (fw_file w) (Bloom.finish (fw_bloom w)) NoCompression in
      let? (file, index) :=
        append_block file (bb_buffer (builder_finish (fw_index_block w))) (o_compression (fw_options w)) in
      let? (file, range_del) :=
        if negb (w_num_range_tombstones (fw_book w) =? 0)
        then append_block file (bb_buffer (builder_finish (fw_range_del_block w))) (o_compression (fw_options w))
        else Value (file, zero_handle) in
      let footer := mkFooter filter index (w_num_entries (fw_book w)) 3 range_del 0 in
      Value (file ++ Footer.encode footer)
  | (s, _) => Unexpected s
  end.

(** [build_sst] down to the bytes. *)
Definition build_sst_bytes (o : SstOptions) (source : list KV) (drop_tombstones : bool) (rs : list RangeTombstone)
  : Result bytes :=
  let w := fold_left file_add_range_tombstone rs (new_file_writer o) in
  file_finish (fold_left (fun w kv => if drop_tombstones && is_delete kv.2.1 then w else file_add w kv) source w).

(** ** The reader *)

(** The object as the reader sees it. *)
Class BlobStore := {
  get_sync : Z -> Z -> Result bytes;
  authority_get : option (Z -> Z -> Result bytes);
  cache_get : Z -> option bytes
}.

Record SstReader := {
  rd_footer : Footer;
  rd_index_block : bytes;
  rd_file_size : Z;
  rd_block_bytes : Z
}.

Definition handle_fits (h : BlockHandle) (file_size : Z) : bool :=
  (bh_length h <=? file_size) && (bh_offset h <=? file_size - bh_length h).

Definition decode_handle (s : bytes) : option BlockHandle :=
  let! (offset, p) := get_varint64 s in
  let! (len, p) := get_varint64 p in
  if 2 ^ 32 - 1 <? len then None else Some (mkHandle offset len).

Definition max_uncompressed (block_bytes : Z) : Z := Z.max (16 * block_bytes) (kMaxEntryBlockBytes + block_bytes).

Definition kSpeculativeTailBytes : Z := 256 * 2 ^ 10.
Definition kMaxFooterLength : Z := kFooterLengthV3.

Section Reader.
Context {store : BlobStore}.

(** [invalidate] of the cache layers, which the code calls before it fetches again, does not change what this read answers:
    the second fetch goes to the store below the caches. *)
Definition fetch_content (file_size : Z) (h : BlockHandle) (prefetched : bytes) (max : Z) : Result bytes :=
  if (bh_length h <? kBlockTrailerLength) || negb (handle_fits h file_size) then Unexpected Corrupt
  else
    let? framed := if negb (zlen prefetched =? bh_length h) then get_sync (bh_offset h) (bh_length h)
                   else Value prefetched in
    match (if zlen framed =? bh_length h then unframe_block framed max else Unexpected Corrupt) with
    | Value content => Value content
    | Unexpected e =>
        match authority_get with
        | None => Unexpected e
        | Some get =>
            match get (bh_offset h) (bh_length h) with
            | Value retried =>
                if zlen retried =? bh_length h then
                  match unframe_block retried max with Value fresh => Value fresh | Unexpected _ => Unexpected e end
                else Unexpected e
            | Unexpected _ => Unexpected e
            end
        end
    end.

Definition load_block (file_size block_bytes : Z) (h : BlockHandle) (prefetched : bytes) : Result bytes :=
  match cache_get (bh_offset h) with
  | Some cached => Value cached
  | None => fetch_content file_size h prefetched (max_uncompressed block_bytes)
  end.

Definition sst_open (file_size block_bytes : Z) : Result SstReader :=
  if file_size <? kFooterLengthV1 then Unexpected Corrupt
  else
    let tail_len := Z.min file_size (Z.max kSpeculativeTailBytes kMaxFooterLength) in
    let tail_start := file_size - tail_len in
    let? tail := get_sync tail_start tail_len in
    if negb (zlen tail =? tail_len) then Unexpected Corrupt
    else
      let footer_window := Z.min tail_len kMaxFooterLength in
      let tail_slice := drop (Z.to_nat (tail_len - footer_window)) tail in
      let? footer_length := footer_length_from_trailer tail_slice in
      if file_size <? footer_length then Unexpected Corrupt
      else
        let? footer := Footer.decode tail_slice in
        let h := f_index footer in
        let index_bytes :=
          if (tail_start <=? bh_offset h) && handle_fits h file_size
          then take (Z.to_nat (bh_length h)) (drop (Z.to_nat (bh_offset h - tail_start)) tail)
          else [] in
        let? index := load_block file_size block_bytes h index_bytes in
        Value {| rd_footer := footer; rd_index_block := index; rd_file_size := file_size;
                 rd_block_bytes := block_bytes |}.

Definition reader_load (r : SstReader) (h : BlockHandle) : Result bytes :=
  load_block (rd_file_size r) (rd_block_bytes r) h [].

(** [ensure_filter]: the filter is bounded by its own recorded length. *)
Definition reader_filter (r : SstReader) : Result bytes :=
  fetch_content (rd_file_size r) (f_filter (rd_footer r)) [] (bh_length (f_filter (rd_footer r))).

Definition reader_get (r : SstReader) (key : bytes) : Result (option Entry) :=
  let? filter := reader_filter r in
  if negb (Bloom.bloom_may_contain filter key) then Value None
  else
    let index := block_seek (block_iterator (rd_index_block r)) key in
    if negb (bi_valid index) then
      if negb (bool_decide (bi_status index = Ok)) then Unexpected (bi_status index) else Value None
    else
      match decode_handle (bi_value index) with
      | None => Unexpected Corrupt
      | Some h =>
          match reader_load r h with
          | Unexpected s => Unexpected (if bool_decide (s = NotFound) then Corrupt else s)
          | Value block =>
              let entries := block_seek (block_iterator block) key in
              if negb (bi_valid entries) then
                if negb (bool_decide (bi_status entries = Ok)) then Unexpected (bi_status entries) else Value None
              else if negb (slice_eqb (bi_key entries) key) then Value None
              else Value (Some (bi_type entries, bi_value entries))
          end
      end.

Definition has_range_tombstones (r : SstReader) : bool := negb (bh_length (f_range_del (rd_footer r)) =? 0).

Definition reader_range_deletes (r : SstReader) (key : bytes) : Result bool :=
  if negb (has_range_tombstones r) then Value false
  else
    let? block := reader_load r (f_range_del (rd_footer r)) in
    let it := block_seek_for_prev (block_iterator block) key in
    if negb (bi_valid it) then
      if bool_decide (bi_status it = Ok) then Value false else Unexpected (bi_status it)
    else Value (key <?k bi_value it).

(** The loop [for (it.seek_to_first(); it.valid(); it.next())], one round per byte at most
    ([Block.block_walk_ends]). *)
Fixpoint collect_ranges (fuel : nat) (it : BlockIterator) : list RangeTombstone * BlockIterator :=
  match fuel with
  | O => ([], it)
  | S fuel' =>
      if bi_valid it then
        let '(out, last) := collect_ranges fuel' (block_next it) in
        (mkRange (bi_key it) (bi_value it) :: out, last)
      else ([], it)
  end.

Definition reader_range_tombstones (r : SstReader) : Result (list RangeTombstone) :=
  if negb (has_range_tombstones r) then Value []
  else
    let? block := reader_load r (f_range_del (rd_footer r)) in
    let '(out, it) := collect_ranges (S (length block)) (block_seek_to_first (block_iterator block)) in
    if negb (bool_decide (bi_status it = Ok)) then Unexpected (bi_status it) else Value out.

(** *** [SstIterator] *)

Record SstIterator := {
  si_index : BlockIterator;
  si_data : BlockIterator;
  si_status : Status
}.

Inductive Edge := First | Last.

Definition sst_iterator (r : SstReader) : SstIterator :=
  {| si_index := block_iterator (rd_index_block r); si_data := no_block; si_status := Ok |}.

Definition si_valid (it : SstIterator) : bool := bi_valid (si_data it).

Definition si_final_status (it : SstIterator) : Status :=
  if negb (bool_decide (si_status it = Ok)) then si_status it
  else if negb (bool_decide (bi_status (si_index it) = Ok)) then bi_status (si_index it)
  else bi_status (si_data it).

Definition load_current_block (r : SstReader) (edge : Edge) (it : SstIterator) : SstIterator :=
  let it := {| si_index := si_index it; si_data := no_block; si_status := si_status it |} in
  if negb (bi_valid (si_index it)) then it
  else
    match decode_handle (bi_value (si_index it)) with
    | None => {| si_index := si_index it; si_data := si_data it; si_status := Corrupt |}
    | Some h =>
        match reader_load r h with
        | Unexpected s => {| si_index := si_index it; si_data := si_data it; si_status := s |}
        | Value block =>
            {| si_index := si_index it;
               si_data := match edge with
                          | First => block_seek_to_first (block_iterator block)
                          | Last => block_seek_to_last (block_iterator block)
                          end;
               si_status := si_status it |}
        end
    end.

Definition absorb_data_status (it : SstIterator) : SstIterator :=
  {| si_index := si_index it; si_data := si_data it;
     si_status := if bool_decide (si_status it = Ok) && negb (bool_decide (bi_status (si_data it) = Ok))
                  then bi_status (si_data it) else si_status it |}.

Definition with_index (it : SstIterator) (index : BlockIterator) : SstIterator :=
  {| si_index := index; si_data := si_data it; si_status := si_status it |}.

Definition with_data (it : SstIterator) (data : BlockIterator) : SstIterator :=
  {| si_index := si_index it; si_data := data; si_status := si_status it |}.

(** [advance_block] and [retreat_block] differ in the step of the index and the edge only. *)
Fixpoint change_block (fuel : nat) (step : BlockIterator -> BlockIterator) (edge : Edge) (r : SstReader)
    (it : SstIterator) : SstIterator :=
  match fuel with
  | O => it
  | S fuel' =>
      if negb (bool_decide (si_status it = Ok)) then it
      else
        let it := absorb_data_status it in
        if negb (bool_decide (si_status it = Ok)) || negb (bi_valid (si_index it)) then it
        else
          let it := with_index it (step (si_index it)) in
          if negb (bi_valid (si_index it)) then it
          else
            let it := load_current_block r edge it in
            if bi_valid (si_data it) then it else change_block fuel' step edge r it
  end.

Definition block_fuel (r : SstReader) : nat := S (length (rd_index_block r)).

Definition advance_block (r : SstReader) (it : SstIterator) : SstIterator := change_block (block_fuel r) block_next First r it.
Definition retreat_block (r : SstReader) (it : SstIterator) : SstIterator := change_block (block_fuel r) block_prev Last r it.

(** [while (!data_.valid() && index_.valid() && status_ == Status::Ok) ...]. *)
Fixpoint while_no_data (fuel : nat) (move : SstIterator -> SstIterator) (it : SstIterator) : SstIterator :=
  match fuel with
  | O => it
  | S fuel' =>
      if negb (bi_valid (si_data it)) && bi_valid (si_index it) && bool_decide (si_status it = Ok)
      then while_no_data fuel' move (move it) else it
  end.

Definition sst_seek_to_first (r : SstReader) (it : SstIterator) : SstIterator :=
  let it := load_current_block r First (with_index it (block_seek_to_first (si_index it))) in
  if bi_valid (si_data it) then it else advance_block r it.

Definition sst_seek_to_last (r : SstReader) (it : SstIterator) : SstIterator :=
  let it := load_current_block r Last (with_index it (block_seek_to_last (si_index it))) in
  if bi_valid (si_data it) then it else retreat_block r it.

Definition sst_seek (r : SstReader) (target : bytes) (it : SstIterator) : SstIterator :=
  let it := load_current_block r First (with_index it (block_seek (si_index it) target)) in
  let it := if bi_valid (si_data it) then with_data it (block_seek (si_data it) target) else it in
  while_no_data (block_fuel r) (advance_block r) it.

Definition sst_seek_for_prev (r : SstReader) (target : bytes) (it : SstIterator) : SstIterator :=
  let it := with_index it (block_seek (si_index it) target) in
  if negb (bi_valid (si_index it)) then sst_seek_to_last r it
  else
    let it := load_current_block r First it in
    let it := if bi_valid (si_data it) then with_data it (block_seek_for_prev (si_data it) target) else it in
    while_no_data (block_fuel r) (retreat_block r) it.

Definition sst_next (r : SstReader) (it : SstIterator) : SstIterator :=
  if negb (bi_valid (si_data it)) then it
  else
    let it := with_data it (block_next (si_data it)) in
    if bi_valid (si_data it) then it else advance_block r it.

Definition sst_prev (r : SstReader) (it : SstIterator) : SstIterator :=
  if negb (bi_valid (si_data it)) then it
  else
    let it := with_data it (block_prev (si_data it)) in
    if bi_valid (si_data it) then it else retreat_block r it.

(** A scan from one end: the entries met and the iterator it ends on. *)
Fixpoint sst_walk (fuel : nat) (step : SstIterator -> SstIterator) (it : SstIterator) : list KV * SstIterator :=
  match fuel with
  | O => ([], it)
  | S fuel' =>
      match block_entry (si_data it) with
      | Some kv => let '(rest, last) := sst_walk fuel' step (step it) in (kv :: rest, last)
      | None => ([], it)
      end
  end.

(** Every entry of the file, as a merge or a compaction reads it; the footer counts the rounds. *)
Definition reader_entries (r : SstReader) : Result (list KV) :=
  let '(kvs, it) := sst_walk (S (Z.to_nat (f_num_entries (rd_footer r)))) (sst_next r) (sst_seek_to_first r (sst_iterator r)) in
  if negb (bool_decide (si_final_status it = Ok)) then Unexpected (si_final_status it) else Value kvs.

(** The operations the engine reads files through. *)
#[global] Instance sst_reader_ops : SstReaderOps SstReader := {
  sr_get := reader_get;
  sr_range_deletes := reader_range_deletes;
  sr_range_tombstones := reader_range_tombstones;
  sr_entries := reader_entries
}.

(** [SstReader::iterator()]: the iterator keeps the reader it came from. *)
#[global] Instance sst_iterator_ops : InternalIterator (SstReader * SstIterator) := {
  it_entry it := block_entry (si_data it.2);
  it_status it := si_final_status it.2;
  it_seek_to_first it := (it.1, sst_seek_to_first it.1 it.2);
  it_seek_to_last it := (it.1, sst_seek_to_last it.1 it.2);
  it_seek target it := (it.1, sst_seek it.1 target it.2);
  it_seek_for_prev target it := (it.1, sst_seek_for_prev it.1 target it.2);
  it_next it := (it.1, sst_next it.1 it.2);
  it_prev it := (it.1, sst_prev it.1 it.2)
}.

#[global] Instance sst_scan_ops : SstScanOps SstReader (SstReader * SstIterator) := {
  sr_iterator r := (r, sst_iterator r)
}.
End Reader.
End Writer.
