(* ===== verification/SstFileProofs.v ===== *)
(** * A file reads back as what was written

    The layout [SstWriter] gives a file ([written]), and that [SstReader] over the bytes of such a file
    meets [SstReaderLaws] for the entries and the range tombstones that were added. *)

From S2P Require Import Prelude Slice Format Crc32c Framing Footer Bloom Watermark VersionEdit Version Memtable Merging Sst Iterators Block SstFile.

(** ** Sizes *)

(** What the write path admits ([check_entry_size]), with the values deletions carry: none. *)
Definition entry_fits (kv : KV) : Prop :=
  zlen kv.1 <= kMaxKeyBytes /\ zlen kv.2.2 <= kMaxValueBytes /\ stored kv = kv.

Definition range_fits (r : RangeTombstone) : Prop := zlen (lower r) <= kMaxKeyBytes /\ zlen (upper r) <= kMaxKeyBytes.

Definition range_kv (r : RangeTombstone) : KV := (lower r, (Put, upper r)).

Lemma entry_fits_small kv : entry_fits kv -> entry_small kv.
Proof. intros (Hk & Hv & _). unfold entry_small, is_u32, kMaxKeyBytes, kMaxValueBytes in *. pose proof (zlen_nonneg kv.1). pose proof (zlen_nonneg kv.2.2). lia. Qed.

Lemma range_fits_small r : range_fits r -> entry_small (range_kv r).
Proof. intros [Hk Hv]. unfold entry_small, is_u32, kMaxKeyBytes in *. simpl. pose proof (zlen_nonneg (lower r)). pose proof (zlen_nonneg (upper r)). lia. Qed.

Lemma stored_fits kvs : Forall entry_fits kvs -> map stored kvs = kvs.
Proof. induction 1 as [|kv l (_ & _ & E) _ IH]; [done|]. simpl. by rewrite E, IH. Qed.

Lemma zlen_varint32 z : zlen (put_varint32 z) <= 5.
Proof. unfold put_varint32, zlen. pose proof (length_put_varint_loop 4 z). lia. Qed.

Lemma zlen_varint64 z : zlen (put_varint64 z) <= 10.
Proof. unfold put_varint64, zlen. pose proof (length_put_varint_loop 9 z). lia. Qed.

Lemma encode_entry_length shared key type value :
  (shared <= length key)%nat -> zlen (encode_entry shared key type value) <= 16 + zlen key + zlen value.
Proof.
  intros Hs. unfold encode_entry. rewrite !zlen_app.
  pose proof (zlen_varint32 (u32 (Z.of_nat shared))). pose proof (zlen_varint32 (u32 (zlen key - Z.of_nat shared))).
  assert (zlen (drop shared key) <= zlen key) by (unfold zlen; rewrite length_drop; lia).
  assert (zlen [bz (value_type_byte type)] = 1) by done. pose proof (zlen_nonneg value).
  destruct type.
  - pose proof (zlen_varint32 0). change (zlen []) with 0. lia.
  - pose proof (zlen_varint32 (u32 (zlen value))). lia.
Qed.

Lemma size_estimate_add b key type value :
  size_estimate (builder_add b key type value) <= size_estimate b + 20 + zlen key + zlen value.
Proof.
  unfold size_estimate, builder_add. simpl. rewrite zlen_app.
  destruct (bb_since_restart b <? bb_restart_interval b).
  - pose proof (encode_entry_length (shared_prefix (bb_last_key b) key) key type value ltac:(apply shared_prefix_extends)). lia.
  - pose proof (encode_entry_length 0 key type value ltac:(lia)). rewrite length_app. simpl. lia.
Qed.

(** [size_estimate] is the size of the finished block. *)
Lemma size_estimate_finish b : zlen (bb_buffer (builder_finish b)) = size_estimate b.
Proof.
  unfold size_estimate, builder_finish. simpl. rewrite !zlen_app. unfold zlen at 2 3.
  rewrite length_put_fixed32. rewrite <- (map_id (bb_restarts b)) at 1. rewrite map_map.
  rewrite (length_restart_array (fun x => x)). lia.
Qed.

Lemma frame_block_length `{codec : CodecOps} content c raw :
  frame_block content c = Value raw -> zlen raw <= zlen content + kBlockTrailerLength /\ kBlockTrailerLength <= zlen raw /\
  zlen content < 2 ^ 32 /\ (c = NoCompression -> zlen raw = zlen content + kBlockTrailerLength).
Proof.
  unfold frame_block. destruct (Z.ltb_spec (2 ^ 32 - 1) (zlen content)); [done|].
  destruct (match c with NoCompression => _ | Lz4 => _ | Zstd => _ end) as [p|] eqn:Ep; [|done].
  cbn [result_bind]. intros [= <-]. unfold zlen in *. rewrite !length_app, !length_put_fixed32.
  assert (kBlockTrailerLength = 9) as -> by done. simpl (length [_]).
  case_bool_decide as Ec; cbn [negb andb].
  - subst c. injection Ep as <-. cbv zeta iota. simpl. lia.
  - destruct (Z.leb_spec (Z.of_nat (length content)) (Z.of_nat (length p))); cbv iota; simpl; split_and!; try lia; done.
Qed.

Lemma frame_none `{codec : CodecOps} content : zlen content < 2 ^ 32 -> exists raw, frame_block content NoCompression = Value raw.
Proof. intros H. unfold frame_block. destruct (Z.ltb_spec (2 ^ 32 - 1) (zlen content)); [lia|]. eauto. Qed.

(** A frame whose recorded length is above the reader's bound is refused, whatever it holds. *)
Lemma unframe_too_long `{codec : CodecOps} payload len st max :
  0 <= len < 2 ^ 32 -> max < len ->
  let framed := payload ++ put_fixed32 len ++ [bz (compression_byte st)] in
  unframe_block (framed ++ put_fixed32 (crc32c framed)) max = Unexpected Corrupt.
Proof.
  intros Hl Hbig framed. destruct (frame_fields payload len (compression_byte st) (crc32c framed)) as (Hlen & Htake & Hcrc & Hcodec & Hulen & _).
  fold framed in Hlen, Htake, Hcrc, Hcodec, Hulen.
  unfold unframe_block. rewrite Htake, Hcrc, Hcodec, Hulen, Hlen. pose proof (zlen_nonneg payload).
  unfold kBlockTrailerLength. replace (zlen payload + 9 <? 9) with false by lia.
  rewrite (u32_small (crc32c _)), (u32_small len), Z.eqb_refl by (eauto with ekv; unfold is_u32; lia).
  replace (compression_byte st mod 256) with (compression_byte st) by (by destruct st).
  rewrite is_known_compression_byte. cbn [negb]. by replace (max <? len) with true by lia.
Qed.

Lemma unframe_oversized `{codec : CodecOps} content c raw max :
  frame_block content c = Value raw -> max < zlen content -> unframe_block raw max = Unexpected Corrupt.
Proof.
  unfold frame_block. intros Hf Hbig. destruct (Z.ltb_spec (2 ^ 32 - 1) (zlen content)); [done|].
  destruct (match c with NoCompression => _ | Lz4 => _ | Zstd => _ end) as [p|] eqn:Ep; [|done].
  injection Hf as <-. apply unframe_too_long; [pose proof (zlen_nonneg content); lia|done].
Qed.

(** ** The writer's state *)

Lemma add_all_snoc b kvs kv : add_all b (kvs ++ [kv]) = builder_add (add_all b kvs) kv.1 kv.2.1 kv.2.2.
Proof. unfold add_all. by rewrite fold_left_app. Qed.

Lemma builder_add_all_fields ri kvs :
  bb_restart_interval (add_all (new_builder ri) kvs) = ri /\
  bb_entries (add_all (new_builder ri) kvs) = u64 (Z.of_nat (length kvs)) /\
  bb_last_key (add_all (new_builder ri) kvs) = match last kvs with Some kv => kv.1 | None => [] end.
Proof.
  induction kvs as [|kv kvs (IH1 & IH2 & _)] using rev_ind; [done|].
  rewrite add_all_snoc, last_snoc. simpl. rewrite IH1, IH2, length_app. split_and!; [done| |done].
  unfold u64. rewrite Zplus_mod_idemp_l. simpl. f_equal. lia.
Qed.

(** A data block on disk. *)
Record FileBlock := { fb_kvs : list KV; fb_raw : bytes }.

Definition fb_last (b : FileBlock) : bytes := match last (fb_kvs b) with Some kv => kv.1 | None => [] end.
Definition raws (bs : list FileBlock) : bytes := concat (map fb_raw bs).
Definition block_kvs (bs : list FileBlock) : list KV := concat (map fb_kvs bs).

(** The index entries of blocks that start at [off]. *)
Fixpoint index_kvs (off : Z) (bs : list FileBlock) : list KV :=
  match bs with
  | [] => []
  | b :: rest => (fb_last b, (Put, encode_handle (mkHandle off (u32 (zlen (fb_raw b)))))) :: index_kvs (off + zlen (fb_raw b)) rest
  end.

Lemma raws_app bs cs : raws (bs ++ cs) = raws bs ++ raws cs.
Proof. unfold raws. by rewrite map_app, concat_app. Qed.

Lemma block_kvs_app bs cs : block_kvs (bs ++ cs) = block_kvs bs ++ block_kvs cs.
Proof. unfold block_kvs. by rewrite map_app, concat_app. Qed.

Lemma block_kvs_cons b bs : block_kvs (b :: bs) = fb_kvs b ++ block_kvs bs.
Proof. done. Qed.

Lemma index_kvs_app off bs cs : index_kvs off (bs ++ cs) = index_kvs off bs ++ index_kvs (off + zlen (raws bs)) cs.
Proof.
  revert off. induction bs as [|b bs IH]; intros off; simpl.
  - unfold raws, zlen. simpl. by rewrite Z.add_0_r.
  - rewrite IH. f_equal. f_equal. f_equal. unfold raws. simpl. rewrite zlen_app. lia.
Qed.

Lemma length_index_kvs off bs : length (index_kvs off bs) = length bs.
Proof. revert off. induction bs as [|b bs IH]; intros off; simpl; [done|by rewrite IH]. Qed.

Section Written.
Context `{codec : CodecOps} (o : SstOptions).
Context (interval_pos : 0 < o_restart_interval o) (block_bytes_ok : 0 <= o_block_bytes o < 2 ^ 27).
Context (accepts : forall c, zlen c <= max_uncompressed (o_block_bytes o) -> exists raw, frame_block c (o_compression o) = Value raw).

Let ri := o_restart_interval o.

Definition block_written (b : FileBlock) : Prop :=
  fb_kvs b <> [] /\ zlen (block_content ri (fb_kvs b)) <= max_uncompressed (o_block_bytes o) /\
  frame_block (block_content ri (fb_kvs b)) (o_compression o) = Value (fb_raw b).

(** The writer after the ranges [rs] and the entries of the blocks [bs] and then [pending]. *)
Record writing (w : FileWriter) (rs : list RangeTombstone) (bs : list FileBlock) (pending : list KV) : Prop := {
  wr_options : fw_options w = o;
  wr_data : fw_data_block w = add_all (new_builder ri) pending;
  wr_index : fw_index_block w = add_all (new_builder ri) (index_kvs 0 bs);
  wr_ranges : fw_range_del_block w = add_all (new_builder ri) (map range_kv rs);
  wr_bloom : fw_bloom w = Bloom.add_all (Bloom.make (o_bloom_bits_per_key o) (o_bloom_probes o)) (map fst (block_kvs bs ++ pending));
  wr_file : fw_file w = raws bs;
  wr_entries : w_num_entries (fw_book w) = u64 (Z.of_nat (length (block_kvs bs ++ pending)));
  wr_range_count : w_num_range_tombstones (fw_book w) = u64 (Z.of_nat (length rs));
  wr_blocks : Forall block_written bs
}.

(** A block that is still being filled is below the size that cuts it. *)
Definition filling (pending : list KV) : Prop :=
  pending = [] \/ size_estimate (add_all (new_builder ri) pending) < o_block_bytes o.

Lemma max_uncompressed_bound : max_uncompressed (o_block_bytes o) < 2 ^ 31 + 2 ^ 30.
Proof. unfold max_uncompressed, kMaxEntryBlockBytes, kMaxValueBytes, kMaxKeyBytes. lia. Qed.

Lemma writing_new : writing (new_file_writer o) [] [] [].
Proof. by split. Qed.

Lemma writing_range w rs bs pending r :
  writing w rs bs pending -> writing (file_add_range_tombstone w r) (rs ++ [r]) bs pending.
Proof.
  intros H. destruct H. split; try done; simpl.
  - rewrite wr_ranges0, map_app. change (map range_kv [r]) with [range_kv r]. by rewrite add_all_snoc.
  - rewrite wr_range_count0, length_app. unfold u64. rewrite Zplus_mod_idemp_l. simpl. f_equal. lia.
Qed.

(** A flush of the pending entries. *)
Lemma writing_flush w rs bs pending :
  Z.of_nat (length pending) < 2 ^ 64 ->
  zlen (block_content ri pending) <= max_uncompressed (o_block_bytes o) ->
  writing w rs bs pending ->
  exists bs', (flush_data_block w).1 = Ok /\ writing (flush_data_block w).2 rs bs' [] /\ block_kvs bs' = block_kvs bs ++ pending.
Proof.
  intros Hlen Hsize H. unfold flush_data_block, builder_empty. destruct (builder_add_all_fields ri pending) as (Hri & He & Hl).
  rewrite (wr_data _ _ _ _ H), He, u64_small by (unfold is_u64; lia).
  destruct (Z.eqb_spec (Z.of_nat (length pending)) 0) as [E|E].
  - assert (pending = []) as -> by (destruct pending; [done|simpl in E; lia]). exists bs. by rewrite app_nil_r.
  - fold (block_content ri pending). rewrite (wr_options _ _ _ _ H). destruct (accepts _ Hsize) as [raw Hraw].
    change (bb_buffer (builder_finish (add_all (new_builder ri) pending))) with (block_content ri pending). rewrite Hraw.
    set (b := {| fb_kvs := pending; fb_raw := raw |}).
    exists (bs ++ [b]). split; [done|].
    assert (block_kvs (bs ++ [b]) = block_kvs bs ++ pending) as Hk.
    { by rewrite block_kvs_app, block_kvs_cons, app_nil_r. }
    split; [|done]. destruct H. split; cbn [fw_options fw_data_block fw_index_block fw_range_del_block fw_bloom fw_file fw_book]; rewrite ?Hk, ?app_nil_r; try done.
    + unfold builder_reset. simpl. by rewrite Hri.
    + rewrite wr_index0, index_kvs_app. cbn [index_kvs]. rewrite add_all_snoc, Hl, wr_file0. done.
    + rewrite wr_file0, raws_app. f_equal. unfold raws. simpl. by rewrite app_nil_r.
    + apply Forall_app. split; [done|]. constructor; [|done]. split; [|done]. simpl. by intros ->.
Qed.

Lemma writing_add w rs bs pending kv :
  Z.of_nat (length pending) + 1 < 2 ^ 64 -> entry_fits kv -> filling pending ->
  writing w rs bs pending ->
  exists bs' pending', writing (file_add w kv) rs bs' pending' /\ filling pending' /\
    block_kvs bs' ++ pending' = (block_kvs bs ++ pending) ++ [kv].
Proof.
  intros Hlen Hfit Hfill H. unfold file_add.
  set (w1 := {| fw_options := fw_options w; fw_data_block := _ |}).
  assert (writing w1 rs bs (pending ++ [kv])) as H1.
  { destruct H. split; try done; simpl.
    - by rewrite wr_data0, add_all_snoc.
    - rewrite wr_bloom0, app_assoc, (map_app _ _ [kv]). unfold Bloom.add_all. by rewrite fold_left_app.
    - rewrite wr_entries0, app_assoc, (length_app _ [kv]). unfold u64. rewrite Zplus_mod_idemp_l. simpl. f_equal. lia. }
  assert (size_estimate (add_all (new_builder ri) (pending ++ [kv])) <= max_uncompressed (o_block_bytes o)) as Hsz.
  { rewrite add_all_snoc. pose proof (size_estimate_add (add_all (new_builder ri) pending) kv.1 kv.2.1 kv.2.2).
    destruct Hfit as (Hk & Hv & _). unfold max_uncompressed, kMaxEntryBlockBytes in *. unfold kMaxKeyBytes, kMaxValueBytes in *.
    destruct Hfill as [-> | Hp]; [change (size_estimate (add_all (new_builder ri) [])) with 8 in *|]; lia. }
  rewrite (wr_options _ _ _ _ H1), (wr_data _ _ _ _ H1).
  destruct (Z.leb_spec (o_block_bytes o) (size_estimate (add_all (new_builder ri) (pending ++ [kv])))) as [Hfull|Hroom].
  - destruct (writing_flush w1 rs bs (pending ++ [kv])) as (bs' & _ & Hw & Hk); [rewrite length_app; simpl; lia| |done|].
    + by rewrite <- size_estimate_finish in Hsz.
    + exists bs', []. split; [done|]. split; [by left|]. by rewrite app_nil_r, Hk, app_assoc.
  - exists bs, (pending ++ [kv]). split; [done|]. split; [by right|]. by rewrite app_assoc.
Qed.

Lemma writing_ranges w rs0 rs bs pending :
  writing w rs0 bs pending -> writing (fold_left file_add_range_tombstone rs w) (rs0 ++ rs) bs pending.
Proof.
  revert w rs0. induction rs as [|r rs IH]; intros w rs0 H; simpl; [by rewrite app_nil_r|].
  replace (rs0 ++ r :: rs) with ((rs0 ++ [r]) ++ rs) by (by rewrite <- app_assoc). by apply IH, writing_range.
Qed.

Lemma writing_entries w rs bs pending kvs :
  Z.of_nat (length (block_kvs bs ++ pending)) + Z.of_nat (length kvs) < 2 ^ 64 -> Forall entry_fits kvs -> filling pending ->
  writing w rs bs pending ->
  exists bs' pending', writing (fold_left file_add kvs w) rs bs' pending' /\ filling pending' /\
    block_kvs bs' ++ pending' = (block_kvs bs ++ pending) ++ kvs.
Proof.
  revert w bs pending. induction kvs as [|kv kvs IH]; intros w bs pending Hlen Hf Hfill H; simpl.
  - exists bs, pending. by rewrite app_nil_r.
  - inversion_clear Hf as [|? ? Hkv Hrest].
    destruct (writing_add w rs bs pending kv) as (bs1 & p1 & H1 & Hf1 & E1); [rewrite length_app in Hlen; simpl in Hlen; lia|done..|].
    destruct (IH _ _ _ ltac:(rewrite E1, (length_app _ [kv]); simpl in *; lia) Hrest Hf1 H1) as (bs2 & p2 & H2 & Hf2 & E2).
    exists bs2, p2. split; [done|]. split; [done|]. rewrite E2, E1. by rewrite <- app_assoc.
Qed.

(** ** The finished file *)

Definition filter_of (kvs : list KV) : bytes :=
  Bloom.finish (Bloom.add_all (Bloom.make (o_bloom_bits_per_key o) (o_bloom_probes o)) (map fst kvs)).

Definition footer_of (bs : list FileBlock) (F I R : bytes) (n : Z) : Footer :=
  let at_ := zlen (raws bs) in
  let f := mkFooter (mkHandle at_ (zlen F)) (mkHandle (at_ + zlen F) (zlen I)) n 3
             (if decide (R = []) then zero_handle else mkHandle (at_ + zlen F + zlen I) (zlen R)) 0 in
  mkFooter (f_filter f) (f_index f) n 3 (f_range_del f) (crc32c (footer_body f)).

(** The bytes of a file that holds the entries [kvs] and the ranges [rs]. *)
Record sst_layout (file : bytes) (kvs : list KV) (rs : list RangeTombstone) (bs : list FileBlock) (F I R : bytes) : Prop := {
  sl_bytes : file = raws bs ++ F ++ I ++ R ++ Footer.encode (footer_of bs F I R (Z.of_nat (length kvs)));
  sl_kvs : block_kvs bs = kvs;
  sl_blocks : Forall block_written bs;
  sl_filter : frame_block (filter_of kvs) NoCompression = Value F;
  sl_index : frame_block (block_content ri (index_kvs 0 bs)) (o_compression o) = Value I;
  sl_index_small : zlen I < 2 ^ 32;
  sl_ranges : match rs with
              | [] => R = []
              | _ => frame_block (block_content ri (map range_kv rs)) (o_compression o) = Value R /\
                     zlen (block_content ri (map range_kv rs)) <= max_uncompressed (o_block_bytes o)
              end
}.

Lemma encode_crc a b n v r c c' : Footer.encode (mkFooter a b n v r c) = Footer.encode (mkFooter a b n v r c').
Proof. reflexivity. Qed.

Lemma append_block_ok file content c raw : frame_block content c = Value raw -> zlen raw < 2 ^ 32 ->
  append_block file content c = Value (file ++ raw, mkHandle (zlen file) (zlen raw)).
Proof. intros E Hl. unfold append_block. rewrite E. simpl. pose proof (zlen_nonneg raw). by rewrite u32_small by (unfold is_u32; lia). Qed.

Lemma framed_small content c raw :
  frame_block content c = Value raw -> zlen content <= max_uncompressed (o_block_bytes o) -> zlen raw < 2 ^ 32.
Proof. intros (H & _)%frame_block_length Hc. pose proof max_uncompressed_bound. unfold kBlockTrailerLength in *. lia. Qed.

Lemma finish_layout w kvs rs bs pending :
  writing w rs bs pending -> filling pending -> block_kvs bs ++ pending = kvs ->
  Z.of_nat (length kvs) < 2 ^ 64 -> Z.of_nat (length rs) < 2 ^ 64 ->
  zlen (filter_of kvs) < 2 ^ 32 - kBlockTrailerLength ->
  let index := bb_buffer (builder_finish (fw_index_block (flush_data_block w).2)) in
  (exists I, frame_block index (o_compression o) = Value I /\ zlen I < 2 ^ 32) ->
  zlen (block_content ri (map range_kv rs)) <= max_uncompressed (o_block_bytes o) ->
  exists file bs' F I R, file_finish w = Value file /\ sst_layout file kvs rs bs' F I R /\
                         block_content ri (index_kvs 0 bs') = index.
Proof.
  intros Hw Hfill Hkvs Hlen Hlrs Hfilter index Hidx Hrng. unfold index in *. clear index.
  assert (zlen (block_content ri pending) <= max_uncompressed (o_block_bytes o)) as Hp.
  { unfold block_content. rewrite size_estimate_finish. unfold max_uncompressed, kMaxEntryBlockBytes, kMaxValueBytes, kMaxKeyBytes.
    destruct Hfill as [-> | Hp]; [change (size_estimate (add_all (new_builder ri) [])) with 8|]; lia. }
  assert (Z.of_nat (length pending) < 2 ^ 64) as Hlp by (rewrite <- Hkvs, length_app in Hlen; lia).
  destruct (writing_flush w rs bs pending Hlp Hp Hw) as (bs' & Hok & Hw' & Hk). rewrite Hkvs in Hk.
  unfold file_finish. destruct (flush_data_block w) as [st w']. simpl in Hok, Hw', Hidx. subst st.
  rewrite (wr_index _ _ _ _ Hw') in Hidx. rewrite (wr_index _ _ _ _ Hw').
  rewrite (wr_bloom _ _ _ _ Hw'), (wr_file _ _ _ _ Hw'), (wr_options _ _ _ _ Hw'), (wr_range_count _ _ _ _ Hw'), (wr_entries _ _ _ _ Hw'), (wr_ranges _ _ _ _ Hw').
  rewrite app_nil_r, Hk. change (Bloom.finish _) with (filter_of kvs).
  change (bb_buffer (builder_finish (add_all (new_builder ri) (index_kvs 0 bs')))) with (block_content ri (index_kvs 0 bs')).
  change (bb_buffer (builder_finish (add_all (new_builder ri) (map range_kv rs)))) with (block_content ri (map range_kv rs)).
  destruct (frame_none (filter_of kvs) ltac:(unfold kBlockTrailerLength in *; lia)) as [F HF].
  destruct Hidx as (I & HI & HIl). destruct (accepts _ Hrng) as [R0 HR].
  destruct (frame_block_length _ _ _ HF) as (_ & _ & _ & HFl). specialize (HFl eq_refl).
  rewrite (append_block_ok _ _ _ F HF) by lia. cbn [result_bind].
  rewrite (append_block_ok _ _ _ I HI HIl). cbn [result_bind].
  rewrite !u64_small by (unfold is_u64; lia).
  set (R := if decide (rs = []) then [] else R0).
  assert ((if negb (Z.of_nat (length rs) =? 0) then append_block ((raws bs' ++ F) ++ I) (block_content ri (map range_kv rs)) (o_compression o)
           else Value ((raws bs' ++ F) ++ I, zero_handle)) =
          Value (((raws bs' ++ F) ++ I) ++ R, if decide (R = []) then zero_handle else mkHandle (zlen ((raws bs' ++ F) ++ I)) (zlen R))) as ->.
  { unfold R. destruct (frame_block_length _ _ _ HR) as (_ & HRl & _). destruct rs as [|r rs].
    - simpl. by rewrite app_nil_r.
    - rewrite (append_block_ok _ _ _ R0 HR (framed_small _ _ _ HR Hrng)). simpl.
      destruct (decide (R0 = [])) as [-> |]; [|done]. by vm_compute in HRl. }
  cbn [result_bind]. eexists _, bs', F, I, R. split; [reflexivity|]. split; [|simpl; by rewrite (wr_index _ _ _ _ Hw')]. split; try done.
  - unfold footer_of. cbn [f_filter f_index f_range_del]. rewrite (encode_crc _ _ _ _ _ (crc32c _) 0).
    rewrite !zlen_app, <- !app_assoc. done.
  - apply Hw'.
  - unfold R. by destruct rs.
Qed.
End Written.

(** ** Reading it back *)

Definition slice (file : bytes) (off len : Z) : bytes := take (Z.to_nat len) (drop (Z.to_nat off) file).

(** A store that answers for the object [file], and a block cache that holds only what was read there. *)
Class Serves (store : BlobStore) `{codec : CodecOps} (file : bytes) (block_bytes : Z) : Prop := {
  sv_get : forall off len, 0 <= off -> 0 <= len -> off + len <= zlen file -> get_sync off len = Value (slice file off len);
  sv_cache : forall h c c', cache_get (bh_offset h) = Some c ->
    unframe_block (slice file (bh_offset h) (bh_length h)) (max_uncompressed block_bytes) = Value c' -> c = c'
}.

Lemma slice_middle A X B : slice (A ++ X ++ B) (zlen A) (zlen X) = X.
Proof. unfold slice, zlen. by rewrite !Nat2Z.id, drop_app_length, take_app_length. Qed.

Lemma decode_encode_handle h : handle_ok h -> decode_handle (encode_handle h) = Some h.
Proof.
  intros [Ho Hl]. unfold decode_handle, encode_handle. rewrite get_put_varint64 by done.
  rewrite <- (app_nil_r (put_varint64 (bh_length h))), get_put_varint64 by (unfold is_u32, is_u64 in *; lia).
  unfold is_u32 in Hl. destruct (Z.ltb_spec (2 ^ 32 - 1) (bh_length h)); [lia|]. by destruct h.
Qed.

Section Fetch.
Context `{codec : CodecOps} {store : BlobStore} (file : bytes) (bb : Z) `{SV : !Serves store file bb}.

Lemma fetch_ok A raw B prefetched max c :
  file = A ++ raw ++ B -> unframe_block raw max = Value c -> kBlockTrailerLength <= zlen raw ->
  prefetched = raw \/ zlen prefetched <> zlen raw ->
  fetch_content (zlen file) (mkHandle (zlen A) (zlen raw)) prefetched max = Value c.
Proof.
  intros Hf Hu Hl Hp. unfold fetch_content, handle_fits. simpl.
  pose proof (zlen_nonneg A). pose proof (zlen_nonneg B). pose proof (zlen_nonneg raw).
  assert (zlen file = zlen A + (zlen raw + zlen B)) as Hz by (by rewrite Hf, !zlen_app).
  rewrite (proj2 (Z.ltb_ge _ _)) by lia. rewrite (proj2 (Z.leb_le _ _)) by lia. rewrite (proj2 (Z.leb_le _ _)) by lia. simpl.
  assert ((if negb (zlen prefetched =? zlen raw) then get_sync (zlen A) (zlen raw) else Value prefetched) = Value raw) as ->.
  { destruct (Z.eqb_spec (zlen prefetched) (zlen raw)) as [E|E]; simpl.
    - destruct Hp as [-> | ?]; done.
    - rewrite sv_get by lia. by rewrite Hf, slice_middle. }
  cbn [result_bind]. by rewrite Z.eqb_refl, Hu.
Qed.

Lemma fetch_fails A raw B prefetched max :
  file = A ++ raw ++ B -> unframe_block raw max = Unexpected Corrupt -> kBlockTrailerLength <= zlen raw ->
  prefetched = raw \/ zlen prefetched <> zlen raw -> authority_get = None ->
  fetch_content (zlen file) (mkHandle (zlen A) (zlen raw)) prefetched max = Unexpected Corrupt.
Proof.
  intros Hf Hu Hl Hp Ha. unfold fetch_content, handle_fits. simpl.
  pose proof (zlen_nonneg A). pose proof (zlen_nonneg B). pose proof (zlen_nonneg raw).
  assert (zlen file = zlen A + (zlen raw + zlen B)) as Hz by (by rewrite Hf, !zlen_app).
  rewrite (proj2 (Z.ltb_ge _ _)) by lia. rewrite (proj2 (Z.leb_le _ _)) by lia. rewrite (proj2 (Z.leb_le _ _)) by lia. simpl.
  assert ((if negb (zlen prefetched =? zlen raw) then get_sync (zlen A) (zlen raw) else Value prefetched) = Value raw) as ->.
  { destruct (Z.eqb_spec (zlen prefetched) (zlen raw)) as [E|E]; simpl.
    - destruct Hp as [-> | ?]; done.
    - rewrite sv_get by lia. by rewrite Hf, slice_middle. }
  cbn [result_bind]. by rewrite Z.eqb_refl, Hu, Ha.
Qed.

Lemma load_ok A raw B prefetched c :
  file = A ++ raw ++ B -> unframe_block raw (max_uncompressed bb) = Value c -> kBlockTrailerLength <= zlen raw ->
  prefetched = raw \/ zlen prefetched <> zlen raw ->
  load_block (zlen file) bb (mkHandle (zlen A) (zlen raw)) prefetched = Value c.
Proof.
  intros Hf Hu Hl Hp. unfold load_block. destruct (cache_get _) as [cached|] eqn:E; [|by eapply fetch_ok].
  f_equal. eapply (sv_cache (mkHandle (zlen A) (zlen raw))); [exact E|]. simpl. by rewrite Hf, slice_middle.
Qed.
End Fetch.

Section Reading.
Context `{codec : CodecOps} `{laws : !CodecLaws codec} (lz4_ok : lz4_max_input <= 2 ^ 31 - 1).
Context {store : BlobStore} (o : SstOptions) (interval_pos : 0 < o_restart_interval o) (block_bytes_ok : 0 <= o_block_bytes o < 2 ^ 27).
Context (file : bytes) (kvs : list KV) (rs : list RangeTombstone) (bs : list FileBlock) (F I R : bytes).
Context (HL : sst_layout o file kvs rs bs F I R) `{SV : !Serves store file (o_block_bytes o)}.
Context (sorted : key_sorted kvs) (fits : Forall entry_fits kvs) (canon : canonical rs) (rfits : Forall range_fits rs).
Context (file_small : zlen file < 2 ^ 63) (count : Z.of_nat (length kvs) * Z.max 1 (o_bloom_bits_per_key o) < 2 ^ 40).
Context (filter_small : zlen (filter_of o kvs) < 2 ^ 32 - kBlockTrailerLength).

Let ri := o_restart_interval o.
Let bb := o_block_bytes o.
Let footer := footer_of bs F I R (Z.of_nat (length kvs)).
Let r := {| rd_footer := footer; rd_index_block := block_content ri (index_kvs 0 bs); rd_file_size := zlen file; rd_block_bytes := bb |}.

Lemma raw_small content raw : frame_block content (o_compression o) = Value raw -> zlen content <= max_uncompressed bb ->
  zlen raw < 2 ^ 32 /\ kBlockTrailerLength <= zlen raw /\ unframe_block raw (max_uncompressed bb) = Value content.
Proof.
  intros Hf Hc. split; [by eapply framed_small|]. destruct (frame_block_length _ _ _ Hf) as (_ & Hl & _).
  split; [done|]. by eapply unframe_frame_block.
Qed.

Lemma range_block_small : zlen R < 2 ^ 32.
Proof.
  pose proof (sl_ranges _ _ _ _ _ _ _ _ HL) as H. destruct rs as [|x l]; [rewrite H; by vm_compute|].
  destruct H as [H1 H2]. by apply (raw_small _ _ H1 H2).
Qed.

Lemma filter_raw : zlen F < 2 ^ 32 /\ kBlockTrailerLength <= zlen F /\ zlen F = zlen (filter_of o kvs) + kBlockTrailerLength.
Proof.
  destruct (frame_block_length _ _ _ (sl_filter _ _ _ _ _ _ _ _ HL)) as (_ & Hl & _ & He). specialize (He eq_refl). lia.
Qed.

Lemma file_length : zlen file = zlen (raws bs) + zlen F + zlen I + zlen R + kFooterLengthV3.
Proof.
  rewrite (sl_bytes _ _ _ _ _ _ _ _ HL), !zlen_app. assert (zlen (Footer.encode (footer_of bs F I R (Z.of_nat (length kvs)))) = kFooterLengthV3) as ->; [|lia].
  unfold Footer.encode, footer_of, footer_body. reflexivity.
Qed.

Lemma footer_is_ok : footer_ok footer.
Proof.
  pose proof file_length as Hl. pose proof filter_raw as (HF & HF9 & _). pose proof range_block_small as HR.
  pose proof (sl_index_small _ _ _ _ _ _ _ _ HL) as HI.
  pose proof (zlen_nonneg (raws bs)). pose proof (zlen_nonneg F). pose proof (zlen_nonneg I). pose proof (zlen_nonneg R).
  unfold footer, footer_of, footer_ok, handle_ok, is_u64, is_u32. unfold kFooterLengthV3 in Hl.
  cbn [f_filter f_index f_range_del f_num_entries f_format_version f_crc bh_offset bh_length].
  split_and!; try lia.
  - destruct (decide (R = [])); simpl; lia.
  - destruct (decide (R = [])); simpl; lia.
  - destruct (decide (R = [])); simpl; lia.
  - destruct (decide (R = [])); simpl; lia.
  - right. right. split; done.
Qed.

(** Opening reads the footer and then the index block, from the tail where it lies in it. *)
Lemma open_steps : exists prefetched, (prefetched = I \/ zlen prefetched <> zlen I) /\
  sst_open (zlen file) bb =
    (let? index := load_block (zlen file) bb (mkHandle (zlen (raws bs ++ F)) (zlen I)) prefetched in
     Value {| rd_footer := footer; rd_index_block := index; rd_file_size := zlen file; rd_block_bytes := bb |}).
Proof.
  pose proof file_length as Hl. pose proof filter_raw as (HF & HF9 & _). pose proof (zlen_nonneg R) as HR.
  destruct (frame_block_length _ _ _ (sl_index _ _ _ _ _ _ _ _ HL)) as (_ & HI9 & _).
  pose proof (zlen_nonneg (raws bs)) as HD. unfold kFooterLengthV3, kBlockTrailerLength in *.
  unfold sst_open. unfold kFooterLengthV1 at 1. rewrite (proj2 (Z.ltb_ge _ _)) by lia.
  set (tl := Z.min (zlen file) (Z.max kSpeculativeTailBytes kMaxFooterLength)).
  assert (60 <= tl <= zlen file) as Htl by (unfold tl, kSpeculativeTailBytes, kMaxFooterLength, kFooterLengthV3; lia).
  rewrite sv_get by lia. cbn [result_bind].
  set (tail := slice file (zlen file - tl) tl).
  assert (tail = drop (Z.to_nat (zlen file - tl)) file) as Htail.
  { unfold tail, slice. rewrite take_ge; [done|]. rewrite length_drop. unfold zlen. lia. }
  assert (zlen tail = tl) as Htz by (rewrite Htail; unfold zlen; rewrite length_drop; unfold zlen in *; lia).
  rewrite Htz, Z.eqb_refl. cbn [negb].
  assert (Z.min tl kMaxFooterLength = 60) as -> by (unfold kMaxFooterLength, kFooterLengthV3; lia).
  set (pre := raws bs ++ F ++ I ++ R).
  assert (file = pre ++ Footer.encode footer) as Hfile by (rewrite (sl_bytes _ _ _ _ _ _ _ _ HL); unfold pre; by rewrite <- !app_assoc).
  assert (zlen (Footer.encode footer) = 60) as Hfl by reflexivity.
  assert (drop (Z.to_nat (tl - 60)) tail = [] ++ Footer.encode footer) as ->.
  { rewrite Htail, drop_drop. rewrite Hfile at 2. rewrite drop_app_length'; [done|].
    assert (zlen file = zlen pre + 60) by (rewrite Hfile at 1; rewrite zlen_app; lia). unfold zlen in *. lia. }
  rewrite footer_length_encode by apply footer_is_ok. cbn [result_bind]. change (zlen (Footer.encode footer)) with 60.
  rewrite (proj2 (Z.ltb_ge _ _)) by lia. rewrite decode_encode by apply footer_is_ok. cbn [result_bind].
  assert (f_index footer = mkHandle (zlen (raws bs ++ F)) (zlen I)) as Hix by (unfold footer, footer_of; cbn [f_index]; by rewrite zlen_app).
  rewrite Hix. cbn [bh_offset bh_length]. 
  eexists. split; [|reflexivity].
  destruct (zlen file - tl <=? zlen (raws bs ++ F)) eqn:E; simpl; [|right; unfold zlen at 1; simpl; lia].
    destruct (handle_fits _ _); [left|right; unfold zlen at 1; simpl; lia].
    apply Z.leb_le in E. rewrite Htail, drop_drop.
    replace (Z.to_nat (zlen file - tl) + Z.to_nat (zlen (raws bs ++ F) - (zlen file - tl)))%nat with (Z.to_nat (zlen (raws bs ++ F))) by lia.
    rewrite <- (slice_middle (raws bs ++ F) I (R ++ Footer.encode footer)) at 2. unfold slice. do 2 f_equal.
    rewrite (sl_bytes _ _ _ _ _ _ _ _ HL). by rewrite <- !app_assoc.
Qed.

Lemma index_position : file = (raws bs ++ F) ++ I ++ R ++ Footer.encode footer.
Proof. rewrite (sl_bytes _ _ _ _ _ _ _ _ HL). by rewrite <- !app_assoc. Qed.

(** An index above the bound of a data block: the object cannot be opened. *)
Lemma oversized_index_unreadable :
  cache_get (zlen (raws bs ++ F)) = None -> authority_get = None ->
  max_uncompressed bb < zlen (block_content ri (index_kvs 0 bs)) ->
  sst_open (zlen file) bb = Unexpected Corrupt.
Proof.
  intros Hc Ha Hbig. destruct open_steps as (prefetched & Hp & ->). unfold load_block. cbn [bh_offset]. rewrite Hc.
  destruct (frame_block_length _ _ _ (sl_index _ _ _ _ _ _ _ _ HL)) as (_ & HI9 & _).
  rewrite (fetch_fails file bb (raws bs ++ F) I (R ++ Footer.encode footer) _ _ index_position); [done| |done|done|done].
  by eapply unframe_oversized; [exact (sl_index _ _ _ _ _ _ _ _ HL)|].
Qed.

Context (index_fits : zlen (block_content ri (index_kvs 0 bs)) <= max_uncompressed bb).

Lemma open_ok : sst_open (zlen file) bb = Value r.
Proof.
  destruct open_steps as (prefetched & Hp & ->).
  destruct (raw_small _ _ (sl_index _ _ _ _ _ _ _ _ HL) index_fits) as (_ & HI9 & HIu).
  by rewrite (load_ok file bb (raws bs ++ F) I (R ++ Footer.encode footer) _ (block_content ri (index_kvs 0 bs)) index_position).
Qed.

(** *** The blocks *)

Lemma block_lookup i b : bs !! i = Some b ->
  kvs = block_kvs (take i bs) ++ fb_kvs b ++ block_kvs (drop (S i) bs) /\
  raws bs = raws (take i bs) ++ fb_raw b ++ raws (drop (S i) bs) /\ block_written o b.
Proof.
  intros Hb. split_and!.
  - rewrite <- (sl_kvs _ _ _ _ _ _ _ _ HL), <- (take_drop_middle _ _ _ Hb) at 1. by rewrite block_kvs_app, block_kvs_cons.
  - rewrite <- (take_drop_middle _ _ _ Hb) at 1. by rewrite raws_app.
  - exact (proj1 (Forall_lookup _ _) (sl_blocks _ _ _ _ _ _ _ _ HL) _ _ Hb).
Qed.

Lemma block_sorted i b : bs !! i = Some b -> key_sorted (fb_kvs b) /\ Forall entry_fits (fb_kvs b).
Proof.
  intros Hb. destruct (block_lookup _ _ Hb) as (E & _). pose proof sorted as Hs. pose proof fits as Hf. unfold key_sorted in Hs.
  rewrite E in Hs. rewrite E in Hf. apply StronglySorted_app in Hs as (_ & _ & Hs). apply StronglySorted_app in Hs as (_ & Hs & _).
  rewrite !Forall_app in Hf. by destruct Hf as (_ & Hf & _).
Qed.

Lemma block_last i b : bs !! i = Some b -> exists kv, last (fb_kvs b) = Some kv /\ fb_last b = kv.1 /\ kv ∈ fb_kvs b.
Proof.
  intros Hb. destruct (block_lookup _ _ Hb) as (_ & _ & Hne & _). unfold fb_last.
  destruct (last (fb_kvs b)) as [kv|] eqn:E; [|by apply last_None in E].
  exists kv. split; [done|]. split; [done|]. by apply last_Some_elem_of.
Qed.

Lemma block_le_last i b kv : bs !! i = Some b -> kv ∈ fb_kvs b -> kv.1 <=k fb_last b.
Proof.
  intros Hb Hin. destruct (block_last _ _ Hb) as (l & Hl & -> & _). destruct (block_sorted _ _ Hb) as [Hs _].
  apply last_Some in Hl as [init Hl]. rewrite Hl in *. apply elem_of_app in Hin as [Hin| ->%list_elem_of_singleton]; [|key_order].
  apply StronglySorted_app in Hs as (Hs & _). specialize (Hs kv l Hin ltac:(by left)). simpl in Hs. key_order.
Qed.

Lemma blocks_lt i j b c kv kv' : bs !! i = Some b -> bs !! j = Some c -> (i < j)%nat -> kv ∈ fb_kvs b -> kv' ∈ fb_kvs c -> kv.1 <k kv'.1.
Proof.
  intros Hb Hc Hij Hk Hk'. destruct (block_lookup _ _ Hb) as (E & _). pose proof sorted as Hs. unfold key_sorted in Hs. rewrite E in Hs.
  apply StronglySorted_app in Hs as (_ & _ & Hs). apply StronglySorted_app in Hs as (Hs & _). apply Hs; [done|].
  unfold block_kvs. apply list_elem_of_In, in_concat. exists (fb_kvs c). split; [|by apply list_elem_of_In].
  apply in_map, list_elem_of_In, (list_elem_of_lookup_2 _ (j - S i)%nat). rewrite lookup_drop. replace (S i + (j - S i))%nat with j by lia. done.
Qed.

Lemma block_raw i b : bs !! i = Some b -> zlen (fb_raw b) < 2 ^ 32 /\ kBlockTrailerLength <= zlen (fb_raw b) /\
  unframe_block (fb_raw b) (max_uncompressed bb) = Value (block_content ri (fb_kvs b)).
Proof. intros Hb. destruct (block_lookup _ _ Hb) as (_ & _ & _ & Hsz & Hf). by apply raw_small. Qed.

Definition block_handle (i : nat) (b : FileBlock) : BlockHandle := mkHandle (zlen (raws (take i bs))) (zlen (fb_raw b)).

Lemma index_lookup i b : bs !! i = Some b ->
  index_kvs 0 bs !! i = Some (fb_last b, (Put, encode_handle (block_handle i b))) /\ handle_ok (block_handle i b).
Proof.
  intros Hb. destruct (block_raw _ _ Hb) as (Hs & _ & _). pose proof (zlen_nonneg (fb_raw b)). split.
  - rewrite <- (take_drop_middle _ _ _ Hb) at 1. rewrite index_kvs_app, lookup_app_r; rewrite length_index_kvs, length_take_le by (apply lookup_lt_Some in Hb; lia); [|done].
    rewrite Nat.sub_diag. simpl. by rewrite u32_small by (unfold is_u32; lia).
  - destruct (block_lookup _ _ Hb) as (_ & Hr & _). pose proof file_length as Hl. rewrite Hr, !zlen_app in Hl.
    pose proof (zlen_nonneg (raws (take i bs))). pose proof (zlen_nonneg (raws (drop (S i) bs))). pose proof (zlen_nonneg F). pose proof (zlen_nonneg I). pose proof (zlen_nonneg R).
    unfold handle_ok, block_handle, is_u64, is_u32. unfold kFooterLengthV3 in Hl. simpl. lia.
Qed.

Lemma load_nth i b : bs !! i = Some b -> reader_load r (block_handle i b) = Value (block_content ri (fb_kvs b)).
Proof.
  intros Hb. destruct (block_raw _ _ Hb) as (Hs & H9 & Hu). destruct (block_lookup _ _ Hb) as (_ & Hr & _).
  unfold reader_load, block_handle. simpl.
  eapply (load_ok file bb (raws (take i bs)) (fb_raw b) (raws (drop (S i) bs) ++ F ++ I ++ R ++ Footer.encode footer)); [|done|done|].
  - rewrite (sl_bytes _ _ _ _ _ _ _ _ HL), Hr. by rewrite <- !app_assoc.
  - right. unfold zlen at 1. simpl. unfold kBlockTrailerLength in *. lia.
Qed.

Lemma data_stands i b : bs !! i = Some b -> stands (block_content ri (fb_kvs b)) (fb_kvs b) (block_iterator (block_content ri (fb_kvs b))) None.
Proof.
  intros Hb. destruct (block_sorted _ _ Hb) as [_ Hf]. destruct (block_lookup _ _ Hb) as (_ & _ & _ & Hsz & _).
  rewrite <- (stored_fits _ Hf) at 2. apply stands_open; [done|by eapply Forall_impl, entry_fits_small|].
  pose proof (max_uncompressed_bound o block_bytes_ok). unfold ri in *. lia.
Qed.

Lemma index_sorted : key_sorted (index_kvs 0 bs).
Proof.
  assert (forall n, (n <= length bs)%nat -> key_sorted (index_kvs 0 (take n bs))) as H.
  { induction n as [|n IH]; intros Hn; [constructor|].
    destruct (lookup_lt_is_Some_2 bs n) as [b Hb]; [lia|]. rewrite (take_S_r _ _ _ Hb), index_kvs_app. simpl.
    apply StronglySorted_app. split_and!; [|apply IH; lia|repeat constructor].
    intros x y Hx ->%list_elem_of_singleton. simpl. apply list_elem_of_lookup in Hx as [j Hj].
    pose proof (lookup_lt_Some _ _ _ Hj) as Hlt. rewrite length_index_kvs, length_take_le in Hlt by lia.
    destruct (lookup_lt_is_Some_2 bs j) as [c Hc]; [lia|].
    assert (x.1 = fb_last c) as ->.
    { assert (index_kvs 0 bs !! j = Some x) as Hj'.
      { rewrite <- (take_drop n bs), index_kvs_app. apply lookup_app_Some. by left. }
      rewrite (proj1 (index_lookup _ _ Hc)) in Hj'. by injection Hj' as <-. }
    destruct (block_last _ _ Hc) as (kc & _ & -> & Hkc), (block_last _ _ Hb) as (kb & _ & -> & Hkb). exact (blocks_lt j n _ _ _ _ Hc Hb ltac:(lia) Hkc Hkb). }
  specialize (H (length bs) ltac:(lia)). by rewrite take_ge in H by lia.
Qed.

Lemma index_entries_small : Forall entry_small (index_kvs 0 bs) /\ map stored (index_kvs 0 bs) = index_kvs 0 bs.
Proof.
  assert (forall i x, index_kvs 0 bs !! i = Some x -> entry_small x /\ stored x = x) as H.
  { intros i x Hx. destruct (lookup_lt_is_Some_2 bs i) as [b Hb].
    { apply lookup_lt_Some in Hx. by rewrite length_index_kvs in Hx. }
    rewrite (proj1 (index_lookup _ _ Hb)) in Hx. injection Hx as <-. split; [|done]. unfold entry_small, is_u32. simpl.
    destruct (block_last _ _ Hb) as (kv & _ & -> & Hkv). destruct (block_sorted _ _ Hb) as [_ Hf].
    rewrite Forall_forall in Hf. destruct (Hf _ Hkv) as (Hk & _). unfold encode_handle. rewrite zlen_app.
    pose proof (zlen_varint64 (bh_offset (block_handle i b))). pose proof (zlen_varint64 (bh_length (block_handle i b))).
    unfold kMaxKeyBytes in Hk. pose proof (zlen_nonneg kv.1). pose proof (zlen_nonneg (put_varint64 (bh_offset (block_handle i b)))).
    pose proof (zlen_nonneg (put_varint64 (bh_length (block_handle i b)))). lia. }
  split; [apply Forall_lookup; intros i x Hx; by apply (H i)|].
  apply list_eq. intros i. rewrite list_lookup_fmap. destruct (index_kvs 0 bs !! i) as [x|] eqn:E; [|done].
  simpl. by rewrite (proj2 (H i x E)).
Qed.

Lemma index_stands : stands (rd_index_block r) (index_kvs 0 bs) (block_iterator (rd_index_block r)) None.
Proof.
  destruct index_entries_small as [Hs He]. rewrite <- He at 1. apply stands_open; [done|done|].
  pose proof (max_uncompressed_bound o block_bytes_ok). unfold bb in index_fits. lia.
Qed.

(** *** Point reads *)

Lemma sorted_assoc_at l k i : key_sorted l -> first_at (fun kv => k <=?k kv.1) l i ->
  assoc k l = match i ≫= (fun i => l !! i) with Some kv => if slice_eqb kv.1 k then Some kv.2 else None | None => None end.
Proof.
  intros Hs Hf. destruct (assoc k l) as [e|] eqn:Ea.
  - apply assoc_elem in Ea; [|done]. apply list_elem_of_lookup in Ea as [j Hj].
    destruct i as [i|]; simpl in *; [|specialize (Hf _ _ Hj); simpl in Hf; key_order].
    destruct Hf as [(x & Hx & Hp) Hb]. rewrite Hx.
    assert (i = j) as ->.
    { destruct (decide (i = j)); [done|]. destruct (decide (j < i)%nat); [specialize (Hb _ _ Hj ltac:(done)); simpl in Hb; key_order|].
      assert (i < j)%nat as Hij by lia. pose proof (StronglySorted_lookup_lt _ _ _ _ _ _ Hs Hij Hx Hj) as Hlt. simpl in *. key_order. }
    simplify_eq. simpl. by rewrite (proj2 (slice_eqb_eq _ _) eq_refl).
  - destruct i as [i|]; simpl in *; [|done]. destruct Hf as [(x & Hx & _) _]. rewrite Hx.
    destruct (slice_eqb x.1 k) eqn:E; [|done]. apply slice_eqb_eq in E. rewrite assoc_None in Ea. destruct (Ea x.2).
    apply (list_elem_of_lookup_2 _ i). by rewrite Hx, <- E, <- surjective_pairing.
Qed.

(** A search of the blocks is a search of the entries. *)
Lemma first_at_blocks p i b c :
  bs !! i = Some b -> first_at p (fb_kvs b) (Some c) ->
  (forall j b' kv, bs !! j = Some b' -> (j < i)%nat -> kv ∈ fb_kvs b' -> p kv = false) ->
  first_at p kvs (Some (length (block_kvs (take i bs)) + c)%nat).
Proof.
  intros Hb [(x & Hx & Hp) Hbefore] Hblocks. destruct (block_lookup _ _ Hb) as (E & _). rewrite E. split.
  - exists x. split; [|done]. rewrite lookup_app_r by lia. rewrite Nat.add_comm, Nat.add_sub.
    apply lookup_app_Some. by left.
  - intros j y Hj Hlt. apply lookup_app_Some in Hj as [Hj|[Hge Hj]].
    + apply list_elem_of_lookup_2 in Hj. unfold block_kvs in Hj. apply list_elem_of_In, in_concat in Hj as (l & Hl & Hy).
      apply in_map_iff in Hl as (b' & <- & Hb'). apply list_elem_of_In, list_elem_of_lookup in Hb' as [m Hm].
      apply lookup_take_Some in Hm as [Hm Hmi]. apply (Hblocks m b'); [done|done|by apply list_elem_of_In].
    + apply (Hbefore (j - length (block_kvs (take i bs)))%nat); [|lia].
      rewrite lookup_app_l in Hj; [done|]. apply lookup_lt_Some in Hx. lia.
Qed.

Lemma first_at_no_block p :
  (forall j b' kv, bs !! j = Some b' -> kv ∈ fb_kvs b' -> p kv = false) -> first_at p kvs None.
Proof.
  intros Hblocks j y Hj. apply list_elem_of_lookup_2 in Hj. rewrite <- (sl_kvs _ _ _ _ _ _ _ _ HL) in Hj. unfold block_kvs in Hj.
  apply list_elem_of_In, in_concat in Hj as (l & Hl & Hy). apply in_map_iff in Hl as (b' & <- & Hb').
  apply list_elem_of_In, list_elem_of_lookup in Hb' as [m Hm]. eapply Hblocks; [exact Hm|by apply list_elem_of_In].
Qed.

(** What a seek in the index finds: the block that holds the first key at or above the target. *)
Lemma index_seek_block it i0 t : stands (rd_index_block r) (index_kvs 0 bs) it i0 ->
  exists i, stands (rd_index_block r) (index_kvs 0 bs) (block_seek it t) i /\
  match i with
  | Some i => exists b, bs !! i = Some b /\ t <=k fb_last b /\
                        forall j b' kv, bs !! j = Some b' -> (j < i)%nat -> kv ∈ fb_kvs b' -> kv.1 <k t
  | None => forall j b' kv, bs !! j = Some b' -> kv ∈ fb_kvs b' -> kv.1 <k t
  end.
Proof.
  intros Hst. destruct (stands_seek _ _ index_sorted _ _ t Hst) as (i & Hi & Hf). exists i. split; [done|].
  assert (forall j b', bs !! j = Some b' -> (match i with Some i => (j < i)%nat | None => True end) -> fb_last b' <k t) as Hlt.
  { intros j b' Hb' Hji. destruct (index_lookup _ _ Hb') as [Hx _]. destruct i as [i|].
    - destruct Hf as [_ Hf]. specialize (Hf _ _ Hx Hji). simpl in Hf. key_order.
    - specialize (Hf _ _ Hx). simpl in Hf. key_order. }
  destruct i as [i|].
  - destruct Hf as [(x & Hx & Hp) _]. destruct (lookup_lt_is_Some_2 bs i) as [b Hb].
    { apply lookup_lt_Some in Hx. by rewrite length_index_kvs in Hx. }
    rewrite (proj1 (index_lookup _ _ Hb)) in Hx. injection Hx as <-. exists b. split; [done|]. split; [simpl in Hp; key_order|].
    intros j b' kv Hb' Hji Hkv. pose proof (block_le_last _ _ _ Hb' Hkv). pose proof (Hlt _ _ Hb' Hji). key_order.
  - intros j b' kv Hb' Hkv. pose proof (block_le_last _ _ _ Hb' Hkv). pose proof (Hlt _ _ Hb' Logic.I). key_order.
Qed.

Lemma filter_ok : reader_filter r = Value (filter_of o kvs).
Proof.
  destruct filter_raw as (HF & HF9 & HFe). unfold reader_filter.
  change (f_filter (rd_footer r)) with (mkHandle (zlen (raws bs)) (zlen F)). cbn [bh_length rd_file_size r].
  eapply (fetch_ok file bb (raws bs) F (I ++ R ++ Footer.encode footer)).
  - exact (sl_bytes _ _ _ _ _ _ _ _ HL).
  - eapply unframe_frame_block; [exact (sl_filter _ _ _ _ _ _ _ _ HL)|unfold kBlockTrailerLength in *; lia|done].
  - done.
  - right. unfold zlen at 1. simpl. unfold kBlockTrailerLength in *. lia.
Qed.

Lemma index_value it i b : stands (rd_index_block r) (index_kvs 0 bs) it (Some i) -> bs !! i = Some b ->
  bi_valid it = true /\ bi_status it = Ok /\ decode_handle (bi_value it) = Some (block_handle i b).
Proof.
  intros Hst Hb. destruct (stands_entry _ _ _ _ Hst) as (He & Hv & Hs & _). destruct (index_lookup _ _ Hb) as [Hx Hok].
  simpl in He. rewrite Hx in He. unfold block_entry in He. rewrite bool_decide_eq_true_2 in Hv by eauto. rewrite Hv in He.
  injection He as _ _ Hval. rewrite Hval. split; [done|]. split; [done|]. by apply decode_encode_handle.
Qed.

Lemma get_ok k : reader_get r k = Value (assoc k kvs).
Proof.
  unfold reader_get. rewrite filter_ok. cbn [result_bind].
  destruct (Bloom.bloom_may_contain (filter_of o kvs) k) eqn:Ebl; cbn [negb].
  2: { f_equal. symmetry. apply assoc_None. intros e Hin. unfold filter_of in Ebl.
       rewrite Bloom.bloom_no_false_negative in Ebl; [done| |by rewrite length_map].
       apply (list_elem_of_fmap_2 fst kvs (k, e)) in Hin. exact Hin. }
  destruct (index_seek_block _ _ k index_stands) as (i & Hi & Hblock).
  set (it := block_seek (block_iterator (rd_index_block r)) k) in *.
  destruct i as [i|].
  - destruct Hblock as (b & Hb & Hle & Hbefore). destruct (index_value _ _ _ Hi Hb) as (-> & _ & ->). cbn [negb].
    rewrite (load_nth _ _ Hb). destruct (block_sorted _ _ Hb) as [Hbs _].
    destruct (stands_seek _ _ Hbs _ _ k (data_stands _ _ Hb)) as (c & Hc & Hf).
    destruct (stands_entry _ _ _ _ Hc) as (He & Hv & _ & _). destruct c as [c|].
    2: { destruct (block_last _ _ Hb) as (kv & _ & El & Hkv). apply list_elem_of_lookup in Hkv as [j Hj].
         specialize (Hf _ _ Hj). simpl in Hf. rewrite El in Hle. key_order. }
    assert (first_at (fun kv => k <=?k kv.1) kvs (Some (length (block_kvs (take i bs)) + c)%nat)) as Hg.
    { eapply first_at_blocks; [done|done|]. intros j b' kv Hb' Hji Hkv. specialize (Hbefore _ _ _ Hb' Hji Hkv). key_order. }
    rewrite (sorted_assoc_at _ _ _ sorted Hg). destruct Hf as [(x & Hx & _) _]. simpl in He. rewrite Hx in He.
    assert (kvs !! (length (block_kvs (take i bs)) + c)%nat = Some x) as Hgx.
    { destruct (block_lookup _ _ Hb) as (E & _). rewrite E. rewrite lookup_app_r by lia. rewrite Nat.add_comm, Nat.add_sub.
      apply lookup_app_Some. by left. }
    simpl. rewrite Hgx. rewrite bool_decide_eq_true_2 in Hv by eauto. unfold block_entry in He. rewrite Hv in He. rewrite Hv. injection He as <-.
    cbn [negb fst snd]. by destruct (slice_eqb _ _).
  - destruct (stands_entry _ _ _ _ Hi) as (_ & -> & -> & _). simpl. f_equal. symmetry.
    rewrite (sorted_assoc_at _ _ None sorted); [done|]. apply first_at_no_block. intros j b' kv Hb' Hkv. specialize (Hblock _ _ _ Hb' Hkv). key_order.
Qed.

(** *** Range tombstones *)

Lemma range_kvs_sorted : key_sorted (map range_kv rs).
Proof.
  destruct canon as [Hs Hf]. clear -Hs Hf. induction Hs as [|x l Hs IH Hx]; [constructor|].
  apply Forall_cons in Hf as [Hf1 Hf]. simpl. constructor; [by apply IH|].
  apply (proj2 (List.Forall_map range_kv _ l)). eapply Forall_impl; [exact Hx|]. unfold ranges_apart. intros y Hy. simpl. key_order.
Qed.

Lemma range_stored : map stored (map range_kv rs) = map range_kv rs.
Proof. rewrite map_map. done. Qed.

Lemma range_block : rs <> [] -> has_range_tombstones r = true /\
  reader_load r (f_range_del footer) = Value (block_content ri (map range_kv rs)) /\
  stands (block_content ri (map range_kv rs)) (map range_kv rs) (block_iterator (block_content ri (map range_kv rs))) None.
Proof.
  intros Hne. pose proof (sl_ranges _ _ _ _ _ _ _ _ HL) as H.
  assert (frame_block (block_content ri (map range_kv rs)) (o_compression o) = Value R /\ zlen (block_content ri (map range_kv rs)) <= max_uncompressed (o_block_bytes o))
    as [Hfr Hsz] by (by destruct rs).
  destruct (raw_small _ _ Hfr Hsz) as (HR & HR9 & HRu). unfold kBlockTrailerLength in HR9.
  assert (f_range_del footer = mkHandle (zlen (raws bs ++ F ++ I)) (zlen R)) as Hh.
  { unfold footer, footer_of. cbn [f_range_del]. destruct (decide (R = [])) as [E|]; [rewrite E in HR9; by vm_compute in HR9|].
    rewrite !zlen_app. f_equal. lia. }
  split_and!.
  - unfold has_range_tombstones. change (rd_footer r) with footer. rewrite Hh. simpl. apply negb_true_iff, Z.eqb_neq. lia.
  - rewrite Hh. unfold reader_load. simpl.
    eapply (load_ok file bb (raws bs ++ F ++ I) R (Footer.encode footer)); [|done|done|right; unfold zlen at 1; simpl; lia].
    rewrite (sl_bytes _ _ _ _ _ _ _ _ HL). by rewrite <- !app_assoc.
  - rewrite <- range_stored at 2. apply stands_open; [done| |].
    + apply (proj2 (List.Forall_map range_kv _ rs)). eapply Forall_impl; [exact rfits|]. intros x. apply range_fits_small.
    + pose proof (max_uncompressed_bound o block_bytes_ok). lia.
Qed.

Lemma no_ranges : rs = [] -> has_range_tombstones r = false.
Proof.
  intros E. pose proof (sl_ranges _ _ _ _ _ _ _ _ HL) as H. rewrite E in H. unfold has_range_tombstones. change (rd_footer r) with footer.
  unfold footer, footer_of. cbn [f_range_del]. by rewrite decide_True.
Qed.

Lemma range_deletes_ok k : reader_range_deletes r k = Value (any_covers rs k).
Proof.
  unfold reader_range_deletes. destruct (decide (rs = [])) as [E|Hne]; [rewrite no_ranges by done; by rewrite E|].
  destruct (range_block Hne) as (-> & Hload & Hst). cbn [negb]. change (rd_footer r) with footer. rewrite Hload. cbn [result_bind].
  destruct (stands_seek_for_prev _ _ range_kvs_sorted _ _ k Hst) as (i & Hi & Hl).
  destruct (stands_entry _ _ _ _ Hi) as (He & Hv & Hs & _). rewrite Hs. destruct i as [i|].
  - rewrite bool_decide_eq_true_2 in Hv by eauto. rewrite Hv. cbn [negb].
    destruct Hl as [(x & Hx & Hp) Hafter]. simpl in He. rewrite Hx in He. unfold block_entry in He. rewrite Hv in He. injection He as <-.
    rewrite list_lookup_fmap in Hx. destruct (rs !! i) as [ri'|] eqn:Er; [|done]. simpl in Hx.
    change (range_kv ri') with (lower ri', (Put, upper ri')) in Hx. injection Hx as Ek Et Ev.
    rewrite <- Ev. f_equal. symmetry. eapply canonical_lookup; [exact canon|exact Er|]. intros j s' Hj. simpl in Hp. rewrite <- Ek in Hp. split.
    + intros Hle. destruct (decide (j < S i)%nat); [done|]. specialize (Hafter j (range_kv s')). rewrite list_lookup_fmap, Hj in Hafter.
      specialize (Hafter eq_refl ltac:(lia)). simpl in Hafter. key_order.
    + intros Hji. destruct (decide (j = i)) as [-> |]; [simplify_eq; key_order|].
      destruct canon as [Hc Hf]. assert (j < i)%nat as Hji' by lia.
      pose proof (StronglySorted_lookup_lt _ _ _ _ _ _ Hc Hji' Hj Er) as Hlt. unfold ranges_apart in Hlt.
      rewrite Forall_lookup in Hf. specialize (Hf _ _ Hj). key_order.
  - rewrite Hv. simpl. f_equal. symmetry. apply not_true_iff_false. rewrite any_covers_spec. intros (x & Hx & Hlo & _).
    apply list_elem_of_lookup in Hx as [j Hj]. specialize (Hl j (range_kv x)). rewrite list_lookup_fmap, Hj in Hl. specialize (Hl eq_refl). simpl in Hl. key_order.
Qed.

Lemma collect_ok content l it i fuel : stands content (map range_kv l) it i ->
  (length l - default (length l) i < fuel)%nat ->
  (collect_ranges fuel it).1 = drop (default (length l) i) l /\ bi_status (collect_ranges fuel it).2 = Ok.
Proof.
  revert it i. induction fuel as [|fuel IH]; intros it i Hst Hf; [lia|]. simpl.
  destruct (stands_entry _ _ _ _ Hst) as (He & Hv & Hs & Hlt). rewrite Hv. destruct i as [i|]; simpl in *.
  - specialize (Hlt i eq_refl). rewrite length_map in Hlt. destruct (lookup_lt_is_Some_2 l i Hlt) as [x Hx].
    pose proof (stands_next _ _ _ _ Hst) as Hn. rewrite length_map in Hn.
    rewrite list_lookup_fmap, Hx in He. unfold block_entry in He. rewrite Hv in He. injection He as Ek _ Ev.
    destruct (collect_ranges fuel (block_next it)) as [out last] eqn:Ec. rewrite Ek, Ev, (drop_S _ _ _ Hx). simpl.
    destruct (Nat.ltb_spec (S i) (length l)).
    + destruct (IH _ _ Hn) as [Ho Hst']; [simpl; lia|]. rewrite Ec in Ho, Hst'. simpl in Ho, Hst'. split; [|done]. rewrite Ho. by destruct x.
    + destruct (IH _ _ Hn) as [Ho Hst']; [simpl; lia|]. rewrite Ec in Ho, Hst'. simpl in Ho, Hst'. split; [|done].
      rewrite Ho, !drop_ge by lia. by destruct x.
  - by rewrite drop_ge by lia.
Qed.

Lemma stands_length content l it i : stands content l it i -> (length l <= length content)%nat.
Proof.
  intros (cells & ris & _ & _ & -> & -> & _)%stands_on. rewrite !length_map. unfold block_of. rewrite length_app.
  pose proof (cells_le_bytes cells). lia.
Qed.

Lemma range_tombstones_ok : reader_range_tombstones r = Value rs.
Proof.
  unfold reader_range_tombstones. destruct (decide (rs = [])) as [E|Hne]; [rewrite no_ranges by done; by rewrite E|].
  destruct (range_block Hne) as (-> & Hload & Hst). cbn [negb]. change (rd_footer r) with footer. rewrite Hload. cbn [result_bind].
  pose proof (stands_seek_to_first _ _ _ _ Hst) as Hf. pose proof (stands_length _ _ _ _ Hst) as Hlen. rewrite length_map in *.
  destruct (collect_ok _ rs _ _ (S (length (block_content ri (map range_kv rs)))) Hf) as [Ho Hs]; [lia|].
  destruct (collect_ranges _ _) as [out last]. simpl in *. rewrite Hs. simpl. rewrite Ho.
  destruct rs; [done|]. done.
Qed.

(** *** The two-level iterator *)

Let index_at it i := stands (rd_index_block r) (index_kvs 0 bs) it i.
Let data_at it b c := stands (block_content ri (fb_kvs b)) (fb_kvs b) it c.

(** It stands on entry [c] of block [i], or on none, and has met no error. *)
Inductive sits (it : SstIterator) : option (nat * nat) -> Prop :=
  | sits_at i b c : bs !! i = Some b -> index_at (si_index it) (Some i) -> data_at (si_data it) b (Some c) ->
      si_status it = Ok -> sits it (Some (i, c))
  | sits_none i : index_at (si_index it) i -> bi_valid (si_data it) = false -> bi_status (si_data it) = Ok ->
      si_status it = Ok -> sits it None.

Lemma sits_valid it p : sits it p -> bi_valid (si_data it) = bool_decide (is_Some p) /\ si_final_status it = Ok.
Proof.
  intros H. destruct H as [i b c Hb Hi Hd Hs|i Hi Hd Hds Hs].
  - destruct (stands_entry _ _ _ _ Hd) as (_ & -> & Hds & _). destruct (stands_entry _ _ _ _ Hi) as (_ & _ & His & _).
    split; [done|]. unfold si_final_status. by rewrite Hs, His, Hds.
  - destruct (stands_entry _ _ _ _ Hi) as (_ & _ & His & _). split; [done|]. unfold si_final_status. by rewrite Hs, His, Hds.
Qed.

Lemma sits_inv it i b c : bs !! i = Some b -> sits it (Some (i, c)) ->
  index_at (si_index it) (Some i) /\ data_at (si_data it) b (Some c) /\ si_status it = Ok.
Proof. intros Hb H. inversion H as [i' b' c' Hb' Hi Hd Hs E|]; subst. assert (b' = b) as -> by congruence. done. Qed.

Lemma sits_some_valid it p : sits it (Some p) -> bi_valid (si_data it) = true.
Proof. intros [H _]%sits_valid. exact H. Qed.

Lemma sits_none_valid it : sits it None -> bi_valid (si_data it) = false.
Proof. intros [H _]%sits_valid. exact H. Qed.

Lemma change_block_no_index fuel step edge it : sits it None -> index_at (si_index it) None ->
  sits (change_block (S fuel) step edge r it) None /\ index_at (si_index (change_block (S fuel) step edge r it)) None.
Proof.
  intros Hsit Hix. destruct (stands_entry _ _ _ _ Hix) as (_ & Hv & _). pose proof (sits_none_valid _ Hsit) as Hdv.
  assert (bi_status (si_data it) = Ok /\ si_status it = Ok) as [Hds Hst] by (by inversion Hsit).
  cbn [change_block]. unfold absorb_data_status. rewrite Hst, Hds. simpl. rewrite Hv. simpl. split; [|done].
  by apply (sits_none _ None).
Qed.

Lemma block_nonempty i b : bs !! i = Some b -> (0 < length (fb_kvs b))%nat.
Proof. intros Hb. destruct (block_lookup _ _ Hb) as (_ & _ & Hne & _). destruct (fb_kvs b); [done|simpl; lia]. Qed.

Lemma load_current_ok it i b edge : index_at (si_index it) (Some i) -> bs !! i = Some b -> si_status it = Ok ->
  sits (load_current_block r edge it) (Some (i, match edge with First => O | Last => (length (fb_kvs b) - 1)%nat end)) /\
  data_at (si_data (load_current_block r edge it)) b (Some match edge with First => O | Last => (length (fb_kvs b) - 1)%nat end).
Proof.
  intros Hi Hb Hs. destruct (index_value _ _ _ Hi Hb) as (Hv & _ & Hd). pose proof (block_nonempty _ _ Hb) as Hne.
  unfold load_current_block. simpl. rewrite Hv, Hd. cbn [negb]. rewrite (load_nth _ _ Hb).
  assert (data_at (match edge with First => block_seek_to_first (block_iterator (block_content ri (fb_kvs b)))
                   | Last => block_seek_to_last (block_iterator (block_content ri (fb_kvs b))) end) b
            (Some match edge with First => O | Last => (length (fb_kvs b) - 1)%nat end)) as Hat.
  { destruct edge.
    - pose proof (stands_seek_to_first _ _ _ _ (data_stands _ _ Hb)) as H. by rewrite (proj2 (Nat.ltb_lt _ _) Hne) in H.
    - pose proof (stands_seek_to_last _ _ _ _ (data_stands _ _ Hb)) as H. by rewrite (proj2 (Nat.ltb_lt _ _) Hne) in H. }
  split; [|exact Hat]. by eapply sits_at.
Qed.

Lemma load_current_none it edge : index_at (si_index it) None -> si_status it = Ok ->
  sits (load_current_block r edge it) None /\ index_at (si_index (load_current_block r edge it)) None.
Proof.
  intros Hi Hs. destruct (stands_entry _ _ _ _ Hi) as (_ & Hv & _). unfold load_current_block. simpl. rewrite Hv. simpl.
  split; [by eapply sits_none|done].
Qed.

(** The block the iterator moves to, forward or backward. *)
Lemma change_block_ok fuel step edge it i j :
  index_at (si_index it) (Some i) -> bi_status (si_data it) = Ok -> bi_valid (si_data it) = false -> si_status it = Ok ->
  index_at (step (si_index it)) j ->
  let it' := change_block (S fuel) step edge r it in
  match j with
  | Some j => exists b, bs !! j = Some b /\ sits it' (Some (j, match edge with First => O | Last => (length (fb_kvs b) - 1)%nat end))
  | None => sits it' None /\ index_at (si_index it') None
  end.
Proof.
  intros Hi Hds Hdv Hs Hj. destruct (stands_entry _ _ _ _ Hi) as (_ & Hv & _). cbn [change_block].
  rewrite Hs. cbn [negb bool_decide]. unfold absorb_data_status. rewrite Hs, Hds. simpl. rewrite Hv. simpl.
  destruct (stands_entry _ _ _ _ Hj) as (_ & Hjv & _ & Hjlt). rewrite Hjv. destruct j as [j|].
  - rewrite bool_decide_eq_true_2 by eauto. simpl.
    destruct (lookup_lt_is_Some_2 bs j) as [b Hb]; [specialize (Hjlt j eq_refl); by rewrite length_index_kvs in Hjlt|].
    set (it1 := with_index _ _). destruct (load_current_ok it1 j b edge Hj Hb eq_refl) as [Hsits Hd].
    destruct (sits_valid _ _ Hsits) as [Hvd _]. rewrite Hvd. simpl. by exists b.
  - simpl. split; [|done]. by eapply sits_none.
Qed.

Lemma advance_ok it i :
  index_at (si_index it) (Some i) -> bi_status (si_data it) = Ok -> bi_valid (si_data it) = false -> si_status it = Ok ->
  sits (advance_block r it) (if (S i <? length bs)%nat then Some (S i, O) else None).
Proof.
  intros Hi Hds Hdv Hs. pose proof (stands_next _ _ _ _ Hi) as Hj. rewrite length_index_kvs in Hj.
  pose proof (change_block_ok (length (rd_index_block r)) block_next First it i _ Hi Hds Hdv Hs Hj) as H. cbv zeta in H.
  unfold advance_block, block_fuel. destruct (S i <? length bs)%nat; [destruct H as (b & _ & H)|destruct H as [H _]]; exact H.
Qed.

Lemma retreat_ok it i :
  index_at (si_index it) (Some i) -> bi_status (si_data it) = Ok -> bi_valid (si_data it) = false -> si_status it = Ok ->
  match i with
  | S i' => exists b, bs !! i' = Some b /\ sits (retreat_block r it) (Some (i', length (fb_kvs b) - 1)%nat)
  | O => sits (retreat_block r it) None /\ index_at (si_index (retreat_block r it)) None
  end.
Proof.
  intros Hi Hds Hdv Hs. pose proof (stands_prev _ _ _ _ Hi) as Hj.
  pose proof (change_block_ok (length (rd_index_block r)) block_prev Last it i _ Hi Hds Hdv Hs Hj) as H. cbv zeta in H.
  unfold retreat_block, block_fuel. destruct i as [|i]; exact H.
Qed.

Lemma next_ok it i b c : bs !! i = Some b -> sits it (Some (i, c)) ->
  sits (sst_next r it) (if (S c <? length (fb_kvs b))%nat then Some (i, S c)
                        else if (S i <? length bs)%nat then Some (S i, O) else None).
Proof.
  intros Hb H. destruct (sits_inv _ _ _ _ Hb H) as (Hi & Hd & Hs).
  destruct (stands_entry _ _ _ _ Hd) as (_ & Hv & _). unfold sst_next. rewrite Hv. simpl.
  pose proof (stands_next _ _ _ _ Hd) as Hn. destruct (stands_entry _ _ _ _ Hn) as (_ & Hnv & Hns & _). rewrite Hnv.
  destruct (S c <? length (fb_kvs b))%nat eqn:Ec; [rewrite bool_decide_eq_true_2 by eauto; by eapply sits_at|].
  apply advance_ok; done.
Qed.

Lemma prev_ok it i b c : bs !! i = Some b -> sits it (Some (i, c)) ->
  match c, i with
  | S c', _ => sits (sst_prev r it) (Some (i, c'))
  | O, S i' => exists b', bs !! i' = Some b' /\ sits (sst_prev r it) (Some (i', length (fb_kvs b') - 1)%nat)
  | O, O => sits (sst_prev r it) None
  end.
Proof.
  intros Hb H. destruct (sits_inv _ _ _ _ Hb H) as (Hi & Hd & Hs).
  destruct (stands_entry _ _ _ _ Hd) as (_ & Hv & _). unfold sst_prev. rewrite Hv. simpl.
  pose proof (stands_prev _ _ _ _ Hd) as Hn. destruct (stands_entry _ _ _ _ Hn) as (_ & Hnv & Hns & _). rewrite Hnv.
  destruct c as [|c]; [simpl|by eapply sits_at].
  pose proof (retreat_ok (with_data it (block_prev (si_data it))) i Hi Hns Hnv Hs) as Hr.
  destruct i as [|i]; [apply Hr|exact Hr].
Qed.

Lemma sits_entry it i b c : bs !! i = Some b -> sits it (Some (i, c)) -> exists kv, fb_kvs b !! c = Some kv /\ block_entry (si_data it) = Some kv.
Proof.
  intros Hb H. destruct (sits_inv _ _ _ _ Hb H) as (Hi & Hd & Hs).
  destruct (stands_entry _ _ _ _ Hd) as (He & _ & _ & Hlt). destruct (lookup_lt_is_Some_2 _ _ (Hlt c eq_refl)) as [kv Hkv].
  exists kv. split; [done|]. rewrite He. simpl. done.
Qed.

Lemma sits_none_entry it : sits it None -> block_entry (si_data it) = None.
Proof. intros [Hv _]%sits_valid. unfold block_entry. by rewrite Hv. Qed.

Lemma walk_none fuel step it : sits it None -> sst_walk fuel step it = ([], it).
Proof. intros H. destruct fuel; [done|]. cbn [sst_walk]. by rewrite sits_none_entry. Qed.

Lemma sst_walk_next fuel it i b c : bs !! i = Some b -> sits it (Some (i, c)) ->
  (length (drop c (fb_kvs b) ++ block_kvs (drop (S i) bs)) < fuel)%nat ->
  exists last, sst_walk fuel (sst_next r) it = (drop c (fb_kvs b) ++ block_kvs (drop (S i) bs), last) /\ sits last None.
Proof.
  revert it i b c. induction fuel as [|fuel IH]; intros it i b c Hb Hsit Hf; [lia|].
  destruct (sits_entry _ _ _ _ Hb Hsit) as (kv & Hkv & He). cbn [sst_walk]. rewrite He.
  pose proof (next_ok _ _ _ _ Hb Hsit) as Hn. rewrite (drop_S _ _ _ Hkv) in *. rewrite <- app_comm_cons in *. simpl in Hf.
  destruct (Nat.ltb_spec (S c) (length (fb_kvs b))) as [Hc|Hc].
  - destruct (IH _ _ _ _ Hb Hn ltac:(lia)) as (last & -> & Hl). by exists last.
  - rewrite (drop_ge (fb_kvs b)) in * by lia. simpl in *. destruct (Nat.ltb_spec (S i) (length bs)) as [Hi|Hi].
    + destruct (lookup_lt_is_Some_2 bs (S i) Hi) as [b' Hb']. rewrite (drop_S _ _ _ Hb'), block_kvs_cons in *.
      destruct (IH _ _ _ _ Hb' Hn) as (last & -> & Hl); [rewrite drop_0; lia|]. exists last. by rewrite drop_0.
    + rewrite (walk_none _ _ _ Hn). rewrite drop_ge by lia. by eexists.
Qed.

Lemma sst_walk_prev fuel it i b c : bs !! i = Some b -> sits it (Some (i, c)) ->
  (length (block_kvs (take i bs) ++ take (S c) (fb_kvs b)) < fuel)%nat ->
  exists last, sst_walk fuel (sst_prev r) it = (rev (block_kvs (take i bs) ++ take (S c) (fb_kvs b)), last) /\ sits last None.
Proof.
  revert it i b c. induction fuel as [|fuel IH]; intros it i b c Hb Hsit Hf; [lia|].
  destruct (sits_entry _ _ _ _ Hb Hsit) as (kv & Hkv & He). cbn [sst_walk]. rewrite He.
  pose proof (prev_ok _ _ _ _ Hb Hsit) as Hn. rewrite (take_S_r _ _ _ Hkv), app_assoc in *. rewrite rev_app_distr. change (rev [kv]) with [kv].
  rewrite (length_app _ [kv]) in Hf. simpl in Hf. destruct c as [|c].
  - rewrite take_0, app_nil_r in *. destruct i as [|i].
    + rewrite (walk_none _ _ _ Hn). by eexists.
    + destruct Hn as (b' & Hb' & Hn). pose proof (block_nonempty _ _ Hb') as Hne.
      assert (block_kvs (take (S i) bs) = block_kvs (take i bs) ++ take (S (length (fb_kvs b') - 1)) (fb_kvs b')) as E.
      { rewrite (take_S_r _ _ _ Hb'), block_kvs_app, block_kvs_cons, app_nil_r. rewrite (take_ge (fb_kvs b')) by lia. done. }
      rewrite E in *. destruct (IH _ _ _ _ Hb' Hn ltac:(lia)) as (last & -> & Hl). by exists last.
  - destruct (IH _ _ _ _ Hb Hn ltac:(lia)) as (last & -> & Hl). by exists last.
Qed.

Lemma sits_new : index_at (si_index (sst_iterator r)) None /\ si_status (sst_iterator r) = Ok.
Proof. split; [apply index_stands|done]. Qed.

Lemma first_block : bs <> [] -> exists b, bs !! O = Some b /\ drop 0 (fb_kvs b) ++ block_kvs (drop 1 bs) = kvs.
Proof.
  intros Hne. destruct (lookup_lt_is_Some_2 bs 0) as [b Hb]; [by destruct bs; [done|simpl; lia]|].
  exists b. split; [done|]. destruct (block_lookup _ _ Hb) as (E & _). rewrite drop_0, E, take_0. done.
Qed.

Lemma seek_to_first_ok it i : index_at (si_index it) i -> si_status it = Ok ->
  sits (sst_seek_to_first r it) (if decide (bs = []) then None else Some (O, O)).
Proof.
  intros Hi Hs. unfold sst_seek_to_first. pose proof (stands_seek_to_first _ _ _ _ Hi) as Hf. rewrite length_index_kvs in Hf.
  set (it1 := with_index it (block_seek_to_first (si_index it))). destruct (decide (bs = [])) as [E|E].
  - assert ((0 <? length bs)%nat = false) as Hz by (by rewrite E). rewrite Hz in Hf.
    destruct (load_current_none it1 First Hf Hs) as [Hsit Hix]. rewrite (sits_none_valid _ Hsit). by apply change_block_no_index.
  - destruct (first_block E) as (b & Hb & _).
    assert ((0 <? length bs)%nat = true) as Hlt by (apply Nat.ltb_lt; by eapply lookup_lt_Some). rewrite Hlt in Hf.
    destruct (load_current_ok it1 O b First Hf Hb Hs) as [Hsit _]. by rewrite (sits_some_valid _ _ Hsit).
Qed.

Lemma seek_to_last_ok it i : index_at (si_index it) i -> si_status it = Ok ->
  match last bs with
  | Some b => sits (sst_seek_to_last r it) (Some (length bs - 1, length (fb_kvs b) - 1)%nat)
  | None => sits (sst_seek_to_last r it) None
  end.
Proof.
  intros Hi Hs. unfold sst_seek_to_last. pose proof (stands_seek_to_last _ _ _ _ Hi) as Hf. rewrite length_index_kvs in Hf.
  set (it1 := with_index it (block_seek_to_last (si_index it))). destruct (last bs) as [b|] eqn:El.
  - assert (bs !! (length bs - 1)%nat = Some b) as Hb by (rewrite last_lookup in El; by replace (length bs - 1)%nat with (pred (length bs)) by lia).
    assert ((0 <? length bs)%nat = true) as Hlt by (apply lookup_lt_Some in Hb; apply Nat.ltb_lt; lia). rewrite Hlt in Hf.
    destruct (load_current_ok it1 _ b Last Hf Hb Hs) as [Hsit _]. by rewrite (sits_some_valid _ _ Hsit).
  - apply last_None in El. assert ((0 <? length bs)%nat = false) as Hz by (by rewrite El). rewrite Hz in Hf.
    destruct (load_current_none it1 Last Hf Hs) as [Hsit Hix]. rewrite (sits_none_valid _ Hsit). by apply change_block_no_index.
Qed.

Lemma while_done fuel move it p : sits it (Some p) -> while_no_data fuel move it = it.
Proof. intros [Hv _]%sits_valid. destruct fuel; [done|]. simpl. by rewrite Hv. Qed.

Lemma while_no_index fuel move it : index_at (si_index it) None -> while_no_data fuel move it = it.
Proof. intros H. destruct (stands_entry _ _ _ _ H) as (_ & Hv & _). destruct fuel; [done|]. simpl. by rewrite Hv, andb_false_r. Qed.

Lemma seek_ok it i t : index_at (si_index it) i -> si_status it = Ok ->
  exists p, sits (sst_seek r t it) p /\ block_entry (si_data (sst_seek r t it)) = head (List.filter (fun kv => t <=?k kv.1) kvs).
Proof.
  intros Hi Hs. unfold sst_seek. destruct (index_seek_block _ _ t Hi) as (j & Hj & Hblock).
  set (it1 := with_index it (block_seek (si_index it) t)). destruct j as [j|].
  - destruct Hblock as (b & Hb & Hle & Hbefore). destruct (load_current_ok it1 j b First Hj Hb Hs) as [Hsit Hdat].
    rewrite (sits_some_valid _ _ Hsit). cbv zeta iota. set (it2 := load_current_block r First it1) in *.
    destruct (block_sorted _ _ Hb) as [Hbs _]. destruct (stands_seek _ _ Hbs _ _ t Hdat) as (c & Hc & Hf).
    destruct c as [c|].
    2: { destruct (block_last _ _ Hb) as (kv & _ & El & Hkv). apply list_elem_of_lookup in Hkv as [m Hm].
         specialize (Hf _ _ Hm). simpl in Hf. rewrite El in Hle. key_order. }
    destruct (sits_inv _ _ _ _ Hb Hsit) as (Hi' & _ & Hst).
    assert (sits (with_data it2 (block_seek (si_data it2) t)) (Some (j, c))) as Hsit2
      by exact (sits_at (with_data it2 (block_seek (si_data it2) t)) j b c Hb Hi' Hc Hst).
    rewrite (while_done _ _ _ _ Hsit2). exists (Some (j, c)). split; [done|].
    destruct (sits_entry _ _ _ _ Hb Hsit2) as (kv & Hkv & ->). symmetry.
    rewrite <- (first_at_head _ kvs (Some (length (block_kvs (take j bs)) + c)%nat)).
    + simpl. destruct (block_lookup _ _ Hb) as (E & _). rewrite E. rewrite lookup_app_r by lia. rewrite Nat.add_comm, Nat.add_sub.
      apply lookup_app_Some. by left.
    + eapply first_at_blocks; [done|done|]. intros m b2 kv2 Hb2 Hji Hkv2. specialize (Hbefore _ _ _ Hb2 Hji Hkv2). key_order.
  - destruct (load_current_none it1 First Hj Hs) as [Hsit Hix]. rewrite (sits_none_valid _ Hsit). cbv zeta iota.
    rewrite (while_no_index _ _ _ Hix). exists None. split; [done|]. rewrite (sits_none_entry _ Hsit), filter_none; [done|].
    intros x (m & Hm)%list_elem_of_lookup. refine (first_at_no_block (fun kv => t <=?k kv.1) _ _ _ Hm). intros m' b2 kv2 Hb2 Hkv2. specialize (Hblock _ _ _ Hb2 Hkv2). key_order.
Qed.

Lemma last_at_blocks p i b c :
  bs !! i = Some b -> last_at p (fb_kvs b) (Some c) ->
  (forall j b' kv, bs !! j = Some b' -> (i < j)%nat -> kv ∈ fb_kvs b' -> p kv = false) ->
  exists kv, fb_kvs b !! c = Some kv /\ last (List.filter p kvs) = Some kv.
Proof.
  intros Hb Hl Hblocks. destruct (block_lookup _ _ Hb) as (E & _). pose proof Hl as [(x & Hx & Hp) _]. exists x. split; [done|].
  pose proof (last_at_last _ _ _ Hl) as Hh. simpl in Hh. rewrite Hx in Hh.
  rewrite E, app_assoc, List.filter_app, (filter_none p (block_kvs (drop (S i) bs))), app_nil_r, List.filter_app, last_app; [by rewrite <- Hh|].
  intros y Hy. unfold block_kvs in Hy. apply list_elem_of_In, in_concat in Hy as (l & Hl' & Hy). apply in_map_iff in Hl' as (b' & <- & Hb').
  apply list_elem_of_In, list_elem_of_lookup in Hb' as [m Hm]. rewrite lookup_drop in Hm. eapply Hblocks; [exact Hm|lia|by apply list_elem_of_In].
Qed.

Lemma seek_for_prev_ok it i t : index_at (si_index it) i -> si_status it = Ok ->
  exists p, sits (sst_seek_for_prev r t it) p /\
            block_entry (si_data (sst_seek_for_prev r t it)) = last (List.filter (fun kv => kv.1 <=?k t) kvs).
Proof.
  intros Hi Hs. unfold sst_seek_for_prev. destruct (index_seek_block _ _ t Hi) as (j & Hj & Hblock).
  set (it1 := with_index it (block_seek (si_index it) t)).
  change (bi_valid (si_index it1)) with (bi_valid (block_seek (si_index it) t)). destruct (stands_entry _ _ _ _ Hj) as (_ & -> & _).
  assert (forall j b kv, bs !! j = Some b -> last (fb_kvs b) = Some kv -> kv.1 <=k t -> last_at (fun kv => kv.1 <=?k t) (fb_kvs b) (Some (length (fb_kvs b) - 1)%nat)) as Hwhole.
  { intros m b kv Hb Hl Hle. rewrite last_lookup in Hl. replace (pred (length (fb_kvs b))) with (length (fb_kvs b) - 1)%nat in Hl by lia. split.
    - exists kv. split; [done|]. key_order.
    - intros x y Hx Hlt. apply lookup_lt_Some in Hx. lia. }
  destruct j as [j|]; [change (negb (bool_decide (is_Some (Some j)))) with false|change (negb (bool_decide (is_Some None))) with true]; cbv iota.
  - destruct Hblock as (b & Hb & Hle & Hbefore). destruct (load_current_ok it1 j b First Hj Hb Hs) as [Hsit Hdat].
    rewrite (sits_some_valid _ _ Hsit). cbv zeta iota. set (it2 := load_current_block r First it1) in *.
    destruct (block_sorted _ _ Hb) as [Hbs _]. destruct (stands_seek_for_prev _ _ Hbs _ _ t Hdat) as (c & Hc & Hf).
    destruct (sits_inv _ _ _ _ Hb Hsit) as (Hi' & _ & Hst).
    assert (forall m b2 kv, bs !! m = Some b2 -> (j < m)%nat -> kv ∈ fb_kvs b2 -> (kv.1 <=?k t) = false) as Hafter.
    { intros m b2 kv Hb2 Hjm Hkv. destruct (block_last _ _ Hb) as (lk & _ & El & Hlk). pose proof (blocks_lt _ _ _ _ _ _ Hb Hb2 Hjm Hlk Hkv). rewrite El in Hle. key_order. }
    destruct c as [c|].
    + assert (sits (with_data it2 (block_seek_for_prev (si_data it2) t)) (Some (j, c))) as Hsit2
        by exact (sits_at (with_data it2 (block_seek_for_prev (si_data it2) t)) j b c Hb Hi' Hc Hst).
      rewrite (while_done _ _ _ _ Hsit2). exists (Some (j, c)). split; [done|].
      destruct (sits_entry _ _ _ _ Hb Hsit2) as (kv & Hkv & ->).
      destruct (last_at_blocks _ _ _ _ Hb Hf Hafter) as (kv' & Hkv' & ->). congruence.
    + set (it3 := with_data it2 (block_seek_for_prev (si_data it2) t)).
      destruct (stands_entry _ _ _ _ Hc) as (_ & Hcv & Hcs & _).
      pose proof (retreat_ok it3 j Hi' Hcs Hcv Hst) as Hr. unfold block_fuel. cbn [while_no_data].
      change (si_data it3) with (block_seek_for_prev (si_data it2) t). change (si_index it3) with (si_index it2).
      rewrite Hcv. destruct (stands_entry _ _ _ _ Hi') as (_ & -> & _). change (si_status it3) with (si_status it2). rewrite Hst. simpl.
      assert (forall x, x ∈ fb_kvs b -> (x.1 <=?k t) = false) as Hall by (intros x (m & Hm)%list_elem_of_lookup; by eapply Hf).
      destruct j as [|j].
      * destruct Hr as [Hr Hix]. rewrite (while_no_index _ _ _ Hix). exists None. split; [done|]. rewrite (sits_none_entry _ Hr), filter_none; [done|].
        intros x (m & Hm)%list_elem_of_lookup. refine (first_at_no_block (fun kv => kv.1 <=?k t) _ _ _ Hm). intros m' b2 kv2 Hb2 Hkv2.
        destruct (decide (m' = O)) as [-> |]; [apply Hall; congruence|apply (Hafter m' b2); [done|lia|done]].
      * destruct Hr as (b0 & Hb0 & Hr). rewrite (while_done _ _ _ _ Hr). eexists. split; [done|].
        destruct (sits_entry _ _ _ _ Hb0 Hr) as (kv & Hkv & ->).
        destruct (block_last _ _ Hb0) as (lk & Hlk & _ & Hin).
        assert (lk.1 <=k t) as Hlt by (specialize (Hbefore _ _ _ Hb0 ltac:(lia) Hin); key_order).
        destruct (last_at_blocks _ _ _ _ Hb0 (Hwhole j b0 lk Hb0 Hlk Hlt)) as (kv' & Hkv' & ->); [|congruence].
        intros m b2 kv2 Hb2 Hjm Hkv2. destruct (decide (m = S j)) as [-> |]; [apply Hall; congruence|apply (Hafter m b2); [done|lia|done]].
  - pose proof (seek_to_last_ok it1 None Hj Hs) as Hl. destruct (last bs) as [b|] eqn:El.
    + eexists. split; [done|]. assert (bs !! (length bs - 1)%nat = Some b) as Hb by (rewrite last_lookup in El; by replace (length bs - 1)%nat with (pred (length bs)) by lia).
      destruct (sits_entry _ _ _ _ Hb Hl) as (kv & Hkv & ->). destruct (block_last _ _ Hb) as (lk & Hlk & _ & Hin).
      assert (lk.1 <=k t) as Hlt by (specialize (Hblock _ _ _ Hb Hin); key_order).
      destruct (last_at_blocks _ _ _ _ Hb (Hwhole _ b lk Hb Hlk Hlt)) as (kv' & Hkv' & ->); [|congruence].
      intros m b2 kv2 Hb2 Hm. apply lookup_lt_Some in Hb2. lia.
    + exists None. split; [done|]. rewrite (sits_none_entry _ Hl). apply last_None in El.
      assert (kvs = []) as E0 by (by rewrite <- (sl_kvs _ _ _ _ _ _ _ _ HL), El). by rewrite E0.
Qed.

(** *** The iterator meets the laws of [InternalIterator] *)

Definition sst_on (it : SstReader * SstIterator) (kv : option KV) : Prop :=
  it.1 = r /\ exists p, sits it.2 p /\ block_entry (si_data it.2) = kv.

Lemma sits_index it p : sits it p -> exists i, index_at (si_index it) i /\ si_status it = Ok.
Proof. destruct 1 as [i b c|i]; eauto. Qed.

Lemma sst_on_at it p b c : bs !! p = Some b -> it.1 = r -> sits it.2 (Some (p, c)) -> sst_on it (fb_kvs b !! c).
Proof. intros Hb Hr Hs. split; [done|]. exists (Some (p, c)). split; [done|]. destruct (sits_entry _ _ _ _ Hb Hs) as (kv & -> & ->). done. Qed.

Lemma sst_on_none it : it.1 = r -> sits it.2 None -> sst_on it None.
Proof. intros Hr Hs. split; [done|]. exists None. split; [done|]. by apply sits_none_entry. Qed.

(** Where an iterator stands, as a split of the entries. *)
Lemma sst_on_split it kv : sst_on it (Some kv) -> exists i b c,
  bs !! i = Some b /\ fb_kvs b !! c = Some kv /\ sits it.2 (Some (i, c)) /\
  kvs = (block_kvs (take i bs) ++ take c (fb_kvs b)) ++ kv :: (drop (S c) (fb_kvs b) ++ block_kvs (drop (S i) bs)).
Proof.
  intros (Hr & p & Hs & He). destruct p as [[i c]|]; [|rewrite (sits_none_entry _ Hs) in He; done].
  assert (exists b, bs !! i = Some b) as [b Hb] by (inversion Hs; eauto).
  destruct (sits_entry _ _ _ _ Hb Hs) as (kv' & Hkv & He'). assert (kv' = kv) as -> by congruence.
  exists i, b, c. do 3 (split; [done|]). destruct (block_lookup _ _ Hb) as (E & _). rewrite E at 1.
  rewrite <- (take_drop_middle _ _ _ Hkv) at 1. by rewrite <- !app_assoc.
Qed.

Lemma head_block_kvs l b : l !! O = Some b -> fb_kvs b <> [] -> head (block_kvs l) = head (fb_kvs b).
Proof. destruct l as [|x l]; intros [= ->] Hne. rewrite block_kvs_cons. by destruct (fb_kvs b). Qed.

Lemma sst_next_on it kv : sst_on it (Some kv) -> sst_on (it_next it) (first_such (fun k => kv.1 <?k k) kvs).
Proof.
  intros Hon. destruct (sst_on_split _ _ Hon) as (i & b & c & Hb & Hkv & Hs & E). destruct Hon as [Hr _].
  pose proof (next_ok _ _ _ _ Hb Hs) as Hn. pose proof sorted as Hk. rewrite E in Hk. rewrite E at 1. rewrite (sorted_next _ _ _ Hk).
  change (it_next it) with (it.1, sst_next it.1 it.2). rewrite Hr. destruct (Nat.ltb_spec (S c) (length (fb_kvs b))) as [Hc|Hc].
  - destruct (lookup_lt_is_Some_2 _ _ Hc) as [kv' Hkv']. rewrite (drop_S _ _ _ Hkv'). simpl head.
    pose proof (sst_on_at (r, sst_next r it.2) i b (S c) Hb eq_refl Hn) as H. by rewrite Hkv' in H.
  - rewrite (drop_ge (fb_kvs b)) by lia. simpl app. destruct (Nat.ltb_spec (S i) (length bs)) as [Hi|Hi].
    + destruct (lookup_lt_is_Some_2 _ _ Hi) as [b' Hb']. rewrite (drop_S _ _ _ Hb'), block_kvs_cons.
      pose proof (sst_on_at (r, sst_next r it.2) (S i) b' 0 Hb' eq_refl Hn) as H. pose proof (block_nonempty _ _ Hb').
      by destruct (fb_kvs b'); [simpl in *; lia|].
    + rewrite (drop_ge bs) by lia. by apply sst_on_none.
Qed.

Lemma sst_prev_on it kv : sst_on it (Some kv) -> sst_on (it_prev it) (last_such (fun k => k <?k kv.1) kvs).
Proof.
  intros Hon. destruct (sst_on_split _ _ Hon) as (i & b & c & Hb & Hkv & Hs & E). destruct Hon as [Hr _].
  pose proof (prev_ok _ _ _ _ Hb Hs) as Hn. pose proof sorted as Hk. rewrite E in Hk. rewrite E at 1. rewrite (sorted_prev _ _ _ Hk).
  change (it_prev it) with (it.1, sst_prev it.1 it.2). rewrite Hr. pose proof (lookup_lt_Some _ _ _ Hkv) as Hc. destruct c as [|c].
  - rewrite take_0, app_nil_r. destruct i as [|i]; [by apply sst_on_none|]. destruct Hn as (b' & Hb' & Hn).
    rewrite (take_S_r _ _ _ Hb'), block_kvs_app, block_kvs_cons, app_nil_r.
    pose proof (sst_on_at (r, sst_prev r it.2) i b' _ Hb' eq_refl Hn) as H. pose proof (block_nonempty _ _ Hb').
    rewrite last_app, last_lookup. replace (pred (length (fb_kvs b'))) with (length (fb_kvs b') - 1)%nat by lia.
    destruct (lookup_lt_is_Some_2 (fb_kvs b') (length (fb_kvs b') - 1)) as [x Hx]; [lia|]. rewrite Hx in *. done.
  - destruct (lookup_lt_is_Some_2 (fb_kvs b) c ltac:(lia)) as [x Hx]. rewrite (take_S_r _ _ _ Hx), app_assoc, last_snoc.
    pose proof (sst_on_at (r, sst_prev r it.2) i b c Hb eq_refl Hn) as H. by rewrite Hx in H.
Qed.

Lemma sst_walks may_fail : walks may_fail kvs sst_on.
Proof.
  split.
  - intros it o' (Hr & p & Hs & He). split; [done|]. apply (sits_valid _ _ Hs).
  - intros it kv (i & b & c & _ & _ & _ & E)%sst_on_split. rewrite E, elem_of_app, elem_of_cons. auto.
  - intros it o' (Hr & p & Hs & He). destruct (sits_index _ _ Hs) as (i & Hi & Hst). left. change (it_seek_to_first it) with (it.1, sst_seek_to_first it.1 it.2). rewrite Hr.
    pose proof (seek_to_first_ok _ _ Hi Hst) as Hf. destruct (decide (bs = [])) as [E|E].
    + rewrite <- (sl_kvs _ _ _ _ _ _ _ _ HL), E. by apply sst_on_none.
    + destruct (first_block E) as (b & Hb & Ek). rewrite <- Ek at 1. pose proof (sst_on_at (r, sst_seek_to_first r it.2) 0 b 0 Hb eq_refl Hf) as H.
      pose proof (block_nonempty _ _ Hb). rewrite drop_0. by destruct (fb_kvs b); [simpl in *; lia|].
  - intros it o' (Hr & p & Hs & He). destruct (sits_index _ _ Hs) as (i & Hi & Hst). left. change (it_seek_to_last it) with (it.1, sst_seek_to_last it.1 it.2). rewrite Hr.
    pose proof (seek_to_last_ok _ _ Hi Hst) as Hf. destruct (last bs) as [b|] eqn:El.
    + assert (bs !! (length bs - 1)%nat = Some b) as Hb by (rewrite last_lookup in El; by replace (length bs - 1)%nat with (pred (length bs)) by lia).
      pose proof (sst_on_at (r, sst_seek_to_last r it.2) _ b _ Hb eq_refl Hf) as H. destruct (block_last _ _ Hb) as (lk & Hlk & _).
      destruct (block_lookup _ _ Hb) as (E & _). rewrite E at 1. rewrite (drop_ge bs) by (apply lookup_lt_Some in Hb; lia).
      simpl. rewrite app_nil_r, last_app, Hlk. rewrite last_lookup in Hlk. replace (pred (length (fb_kvs b))) with (length (fb_kvs b) - 1)%nat in Hlk by lia.
      by rewrite Hlk in H.
    + apply last_None in El. rewrite <- (sl_kvs _ _ _ _ _ _ _ _ HL), El. by apply sst_on_none.
  - intros it o' t (Hr & p & Hs & He). destruct (sits_index _ _ Hs) as (i & Hi & Hst). left. change (it_seek t it) with (it.1, sst_seek it.1 t it.2). rewrite Hr.
    destruct (seek_ok _ _ t Hi Hst) as (q & Hq & Hb). split; [done|]. by exists q.
  - intros it o' t (Hr & p & Hs & He). destruct (sits_index _ _ Hs) as (i & Hi & Hst). left. change (it_seek_for_prev t it) with (it.1, sst_seek_for_prev it.1 t it.2). rewrite Hr.
    destruct (seek_for_prev_ok _ _ t Hi Hst) as (q & Hq & Hb). split; [done|]. by exists q.
  - intros it kv Hon. left. by apply sst_next_on.
  - intros it kv Hon. left. by apply sst_prev_on.
Qed.

Lemma scan_laws may_fail : SstScanLaws sst_scan_ops may_fail r {| entries := kvs; ranges := rs |}.
Proof.
  split. exists sst_on. split; [apply sst_walks|]. apply sst_on_none; [done|]. destruct sits_new as [Hi Hs]. by apply (sits_none _ None).
Qed.

Lemma entries_ok : reader_entries r = Value kvs.
Proof.
  unfold reader_entries. destruct sits_new as [Hi Hs]. pose proof (seek_to_first_ok _ _ Hi Hs) as Hf.
  change (f_num_entries (rd_footer r)) with (Z.of_nat (length kvs)). rewrite Nat2Z.id.
  destruct (decide (bs = [])) as [E|E].
  - rewrite (walk_none _ _ _ Hf). destruct (sits_valid _ _ Hf) as [_ ->]. simpl. by rewrite <- (sl_kvs _ _ _ _ _ _ _ _ HL), E.
  - destruct (first_block E) as (b & Hb & Hk).
    destruct (sst_walk_next (S (length kvs)) _ _ _ _ Hb Hf) as (last & -> & Hl); [rewrite Hk; lia|].
    destruct (sits_valid _ _ Hl) as [_ ->]. simpl. by rewrite Hk.
Qed.

Lemma iterator_ok target :
  (sst_walk (S (length kvs)) (sst_next r) (sst_seek_to_first r (sst_iterator r))).1 = kvs /\
  (sst_walk (S (length kvs)) (sst_prev r) (sst_seek_to_last r (sst_iterator r))).1 = rev kvs /\
  block_entry (si_data (sst_seek r target (sst_iterator r))) = head (List.filter (fun kv => target <=?k kv.1) kvs) /\
  block_entry (si_data (sst_seek_for_prev r target (sst_iterator r))) = last (List.filter (fun kv => kv.1 <=?k target) kvs) /\
  si_final_status (sst_seek r target (sst_iterator r)) = Ok /\ si_final_status (sst_seek_for_prev r target (sst_iterator r)) = Ok.
Proof.
  destruct sits_new as [Hi Hs]. destruct (seek_ok _ _ target Hi Hs) as (p & Hp & ->), (seek_for_prev_ok _ _ target Hi Hs) as (q & Hq & ->).
  destruct (sits_valid _ _ Hp) as [_ ->], (sits_valid _ _ Hq) as [_ ->]. split; [|split; [|done]].
  - pose proof (seek_to_first_ok _ _ Hi Hs) as Hf. destruct (decide (bs = [])) as [E|E].
    + rewrite (walk_none _ _ _ Hf). simpl. by rewrite <- (sl_kvs _ _ _ _ _ _ _ _ HL), E.
    + destruct (first_block E) as (b & Hb & Hk). destruct (sst_walk_next (S (length kvs)) _ _ _ _ Hb Hf) as (last & -> & _); [rewrite Hk; lia|done].
  - pose proof (seek_to_last_ok _ _ Hi Hs) as Hf. destruct (last bs) as [b|] eqn:El.
    + assert (bs !! (length bs - 1)%nat = Some b) as Hb by (rewrite last_lookup in El; by replace (length bs - 1)%nat with (pred (length bs)) by lia).
      pose proof (block_nonempty _ _ Hb) as Hne.
      assert (block_kvs (take (length bs - 1) bs) ++ take (S (length (fb_kvs b) - 1)) (fb_kvs b) = kvs) as Hk.
      { destruct (block_lookup _ _ Hb) as (E & _). rewrite (take_ge (fb_kvs b)) by lia. rewrite E, (drop_ge bs) by (apply lookup_lt_Some in Hb; lia).
        by rewrite app_nil_r. }
      destruct (sst_walk_prev (S (length kvs)) _ _ _ _ Hb Hf) as (last & -> & _); [rewrite Hk; lia|]. simpl. by rewrite Hk.
    + rewrite (walk_none _ _ _ Hf). simpl. apply last_None in El. assert (kvs = []) as E0 by (by rewrite <- (sl_kvs _ _ _ _ _ _ _ _ HL), El). by rewrite E0.
Qed.

Lemma reader_laws : sst_open (zlen file) bb = Value r /\ SstReaderLaws sst_reader_ops r {| entries := kvs; ranges := rs |} /\
  SstScanLaws sst_scan_ops False r {| entries := kvs; ranges := rs |}.
Proof.
  split; [apply open_ok|]. split; [|apply scan_laws]. split; simpl.
  - apply get_ok.
  - apply range_deletes_ok.
  - apply range_tombstones_ok.
  - apply entries_ok.
Qed.
End Reading.

(** ** From what is added to what is read *)

Section BuildAndRead.
Context `{codec : CodecOps} `{laws : !CodecLaws codec} (lz4_ok : lz4_max_input <= 2 ^ 31 - 1).

(** The finished index block of a file. *)
Definition index_content (o : SstOptions) (kvs : list KV) (rs : list RangeTombstone) : bytes :=
  bb_buffer (builder_finish (fw_index_block
    (flush_data_block (fold_left file_add kvs (fold_left file_add_range_tombstone rs (new_file_writer o)))).2)).

(** The options a store is opened with, and a compressor that takes any block of a size the reader accepts. *)
Record options_ok (o : SstOptions) : Prop := {
  op_interval : 0 < o_restart_interval o;
  op_block_bytes : 0 <= o_block_bytes o < 2 ^ 27;
  op_accepts : forall c, zlen c <= max_uncompressed (o_block_bytes o) -> exists raw, frame_block c (o_compression o) = Value raw
}.

(** What a flush or a compaction adds: sorted entries of admitted sizes, disjoint sorted ranges. *)
Record sst_input (o : SstOptions) (kvs : list KV) (rs : list RangeTombstone) : Prop := {
  in_sorted : key_sorted kvs;
  in_fits : Forall entry_fits kvs;
  in_canonical : canonical rs;
  in_rfits : Forall range_fits rs;
  in_count : Z.of_nat (length kvs) * Z.max 1 (o_bloom_bits_per_key o) < 2 ^ 40;
  in_rcount : Z.of_nat (length rs) < 2 ^ 64;
  in_filter : zlen (filter_of o kvs) < 2 ^ 32 - kBlockTrailerLength;
  in_range_block : zlen (block_content (o_restart_interval o) (map range_kv rs)) <= max_uncompressed (o_block_bytes o)
}.

Lemma build_bytes_false o kvs rs :
  build_sst_bytes o kvs false rs = file_finish (fold_left file_add kvs (fold_left file_add_range_tombstone rs (new_file_writer o))).
Proof. done. Qed.

Lemma build_layout o kvs rs : options_ok o -> sst_input o kvs rs ->
  (exists I, frame_block (index_content o kvs rs) (o_compression o) = Value I /\ zlen I < 2 ^ 32) ->
  exists file bs F I R, build_sst_bytes o kvs false rs = Value file /\ sst_layout o file kvs rs bs F I R /\
    block_content (o_restart_interval o) (index_kvs 0 bs) = index_content o kvs rs.
Proof.
  intros [Hi Hb Ha] [Hs Hf _ _ Hc Hrc Hfl Hrb] Hix. rewrite build_bytes_false.
  assert (Z.of_nat (length kvs) < 2 ^ 64) as Hlen.
  { pose proof (Z.mul_le_mono_nonneg_l 1 (Z.max 1 (o_bloom_bits_per_key o)) (Z.of_nat (length kvs))). lia. }
  pose proof (writing_ranges o _ _ rs _ _ (writing_new o)) as Hw0. simpl in Hw0.
  destruct (writing_entries o Hb Ha _ rs [] [] kvs ltac:(simpl; lia) Hf ltac:(by left) Hw0) as (bs & pending & Hw & Hfill & Hk).
  apply (finish_layout o Hb Ha _ _ _ _ _ Hw Hfill Hk Hlen Hrc Hfl Hix Hrb).
Qed.

Lemma index_frame o kvs rs : options_ok o -> zlen (index_content o kvs rs) <= max_uncompressed (o_block_bytes o) ->
  exists I, frame_block (index_content o kvs rs) (o_compression o) = Value I /\ zlen I < 2 ^ 32.
Proof.
  intros [Hi Hb Ha] Hix. destruct (Ha _ Hix) as [I HI]. exists I. split; [done|]. by eapply framed_small.
Qed.

Lemma accepts_uncompressed o : 0 <= o_block_bytes o < 2 ^ 27 -> o_compression o = NoCompression ->
  forall c, zlen c <= max_uncompressed (o_block_bytes o) -> exists raw, frame_block c (o_compression o) = Value raw.
Proof. intros Hb -> c Hc. apply frame_none. pose proof (max_uncompressed_bound o Hb). lia. Qed.
End BuildAndRead.

(** What the engine's bookkeeping says of the same additions. *)
Lemma build_sst_content kvs rs : writer_content (build_sst kvs false rs) = {| entries := kvs; ranges := rs |}.
Proof.
  assert (forall kvs w, w_entries (fold_left writer_add kvs w) = rev kvs ++ w_entries w /\ w_ranges (fold_left writer_add kvs w) = w_ranges w) as Hk.
  { intros l. induction l as [|kv l IH]; intros w; simpl; [done|]. destruct (IH (writer_add w kv)) as [-> ->]. by rewrite <- app_assoc. }
  assert (forall rs w, w_ranges (fold_left writer_add_range_tombstone rs w) = rev rs ++ w_ranges w /\
                       w_entries (fold_left writer_add_range_tombstone rs w) = w_entries w) as Hr.
  { intros l. induction l as [|x l IH]; intros w; simpl; [done|]. destruct (IH (writer_add_range_tombstone w x)) as [-> ->]. by rewrite <- app_assoc. }
  unfold build_sst, writer_content. cbv zeta. change (fun w kv => if false && is_delete kv.2.1 then w else writer_add w kv) with writer_add.
  destruct (Hk kvs (fold_left writer_add_range_tombstone rs new_writer)) as [-> ->]. destruct (Hr rs new_writer) as [-> ->].
  simpl. by rewrite !app_nil_r, !rev_involutive.
Qed.

(** A store that reads from the object, with no cache in front of it. *)
Definition object_store (file : bytes) : BlobStore :=
  {| get_sync off len := Value (slice file off len); authority_get := None; cache_get _ := None |}.

Lemma object_store_serves `{codec : CodecOps} file bb : Serves (object_store file) file bb.
Proof. by split. Qed.

(** ** Properties *)

(** What is written of a source: everything, or everything but the point tombstones. *)
Definition kept (drop_tombstones : bool) (source : list KV) : list KV := List.filter (fun kv => negb (drop_tombstones && is_delete kv.2.1)) source.

Lemma fold_kept {W} (add : W -> KV -> W) drop source w :
  fold_left (fun w kv => if drop && is_delete kv.2.1 then w else add w kv) source w = fold_left add (kept drop source) w.
Proof. revert w. induction source as [|kv source IH]; intros w; [done|]. cbn [fold_left kept List.filter]. fold (kept drop source). destruct (drop && _); cbn [negb fold_left]; by rewrite IH. Qed.

Lemma kept_all source : kept false source = source.
Proof. induction source as [|kv source IH]; [done|]. change (kept false (kv :: source)) with (kv :: kept false source). by rewrite IH. Qed.

Lemma build_kept drop source rs : build_sst source drop rs = build_sst (kept drop source) false rs.
Proof. unfold build_sst. by rewrite !fold_kept, kept_all. Qed.

Lemma build_bytes_kept `{codec : CodecOps} o drop source rs : build_sst_bytes o source drop rs = build_sst_bytes o (kept drop source) false rs.
Proof. unfold build_sst_bytes. by rewrite !fold_kept, kept_all. Qed.

(** C23: a file reads back as what was written, within the reader's bounds. For any block size below 2^27, any restart
    interval and filter setting, with or without point tombstones, and a codec that accepts every block up to the reader's
    bound ([op_accepts]; [SstWriter::add] goes on after a refusal), the writer turns sorted entries and disjoint ranges of
    admitted sizes into bytes the reader opens; the reader then answers every point read, every covering test, the list of
    ranges and a full scan as the content says, which is the content the engine's bookkeeping describes. No data block is
    too large for the reader; the index and the range block are taken to stay below the same bound, which the writer does
    not see to. *)
Theorem sst_file_reads_back (codec : CodecOps) o source drop_tombstones rs :
  let kvs := kept drop_tombstones source in
  CodecLaws codec -> lz4_max_input <= 2 ^ 31 - 1 -> options_ok o -> sst_input o kvs rs ->
  zlen (index_content o kvs rs) <= max_uncompressed (o_block_bytes o) ->
  exists file, build_sst_bytes o source drop_tombstones rs = Value file /\
    forall store : BlobStore, Serves store file (o_block_bytes o) -> zlen file < 2 ^ 63 ->
      exists r, sst_open (zlen file) (o_block_bytes o) = Value r /\
                SstReaderLaws sst_reader_ops r (writer_content (build_sst source drop_tombstones rs)) /\
                SstScanLaws sst_scan_ops False r (writer_content (build_sst source drop_tombstones rs)).
Proof.
  cbv zeta. rewrite build_kept, build_bytes_kept. generalize (kept drop_tombstones source). intros kvs.
  intros Hl Hlz Hop Hin Hix. destruct (build_layout o kvs rs Hop Hin (index_frame _ _ _ Hop Hix)) as (file & bs & F & I & R & Hb & HL & Hic).
  exists file. split; [done|]. intros store SV Hsmall. rewrite <- Hic in Hix. destruct Hop, Hin. eexists.
  rewrite build_sst_content. by eapply reader_laws.
Qed.

Definition sample_options : SstOptions :=
  {| o_block_bytes := 24; o_restart_interval := 2; o_bloom_bits_per_key := 10; o_bloom_probes := 6; o_compression := NoCompression |}.

Definition sample_ranges : list RangeTombstone := [mkRange [x61] [x61; x62]; mkRange [x70] [x71]].

Lemma sample_options_ok : options_ok (codec := copy_codec) sample_options.
Proof. split; [simpl; lia|simpl; lia|]. apply accepts_uncompressed; [simpl; lia|done]. Qed.

Lemma sample_input : sst_input sample_options sample_entries sample_ranges.
Proof.
  split.
  - repeat constructor; vm_compute; reflexivity.
  - repeat constructor; vm_compute; congruence.
  - split; repeat constructor; vm_compute; reflexivity.
  - repeat constructor; vm_compute; congruence.
  - simpl. lia.
  - simpl. lia.
  - vm_compute. reflexivity.
  - vm_compute. congruence.
Qed.

Lemma sst_file_reads_back_witness :
  exists file, build_sst_bytes (codec := copy_codec) sample_options sample_entries false sample_ranges = Value file /\
    forall store : BlobStore, Serves store (codec := copy_codec) file 24 -> zlen file < 2 ^ 63 ->
      exists r, sst_open (codec := copy_codec) (zlen file) 24 = Value r /\
                SstReaderLaws (sst_reader_ops (codec := copy_codec)) r (writer_content (build_sst sample_entries false sample_ranges)) /\
                SstScanLaws (sst_scan_ops (codec := copy_codec)) False r (writer_content (build_sst sample_entries false sample_ranges)).
Proof.
  apply (sst_file_reads_back copy_codec sample_options sample_entries false sample_ranges);
    [apply copy_codec_laws|simpl; lia|apply sample_options_ok|rewrite kept_all; apply sample_input|vm_compute; congruence].
Defined.

(** The iterator of a file walks its entries. Over the blocks the index names, a forward scan meets
    every entry in order and a backward scan the same entries from the other end, [seek] lands on the
    first key at or above its target and [seek_for_prev] on the last at or below, across block
    boundaries, and no error is reported. *)
Theorem sst_iterator_walks (codec : CodecOps) o kvs rs (store : BlobStore) file target :
  CodecLaws codec -> lz4_max_input <= 2 ^ 31 - 1 -> options_ok o -> sst_input o kvs rs ->
  zlen (index_content o kvs rs) <= max_uncompressed (o_block_bytes o) ->
  build_sst_bytes o kvs false rs = Value file -> Serves store file (o_block_bytes o) -> zlen file < 2 ^ 63 ->
  exists r, sst_open (zlen file) (o_block_bytes o) = Value r /\
    let scan step it := (sst_walk (S (length kvs)) step it).1 in
    let seek := sst_seek r target (sst_iterator r) in
    let seek_back := sst_seek_for_prev r target (sst_iterator r) in
    scan (sst_next r) (sst_seek_to_first r (sst_iterator r)) = kvs /\
    scan (sst_prev r) (sst_seek_to_last r (sst_iterator r)) = rev kvs /\
    block_entry (si_data seek) = head (List.filter (fun kv => target <=?k kv.1) kvs) /\
    block_entry (si_data seek_back) = last (List.filter (fun kv => kv.1 <=?k target) kvs) /\
    si_final_status seek = Ok /\ si_final_status seek_back = Ok.
Proof.
  intros Hl Hlz Hop Hin Hix Hbuild SV Hsmall.
  destruct (build_layout o kvs rs Hop Hin (index_frame _ _ _ Hop Hix)) as (file' & bs & F & I & R & Hb & HL & Hic).
  assert (file' = file) as -> by congruence. rewrite <- Hic in Hix. destruct Hop, Hin. eexists. split; [by eapply open_ok|].
  cbv zeta. eapply iterator_ok; done.
Qed.

Lemma sst_iterator_walks_witness :
  let file := match build_sst_bytes (codec := copy_codec) sample_options sample_entries false sample_ranges with
              | Value f => f | Unexpected _ => [] end in
  exists r, sst_open (codec := copy_codec) (store := object_store file) (zlen file) 24 = Value r /\
    block_entry (si_data (sst_seek (codec := copy_codec) (store := object_store file) r [x61; x62; x00] (sst_iterator r))) =
    Some ([x61; x62; x63], (Put, [x32])).
Proof.
  intros file.
  destruct (sst_iterator_walks copy_codec sample_options sample_entries sample_ranges (object_store file) file [x61; x62; x00])
    as (r & Hr & H); [apply copy_codec_laws|simpl; lia|apply sample_options_ok|apply sample_input|vm_compute; congruence
                     |vm_compute; reflexivity|apply object_store_serves|vm_compute; reflexivity|].
  exists r. split; [exact Hr|]. exact (proj1 (proj2 (proj2 H))).
Defined.

(** C24: a damaged cache is repaired. When a cache layer answers a read with bytes of the wrong length or
    with up to four consecutive bytes changed, the block is fetched again from the authority below the
    caches and the caller gets the content; the damage is not reported and not served. *)
Theorem rotted_cache_repaired (codec : CodecOps) (store : BlobStore) A raw B content c max damaged get :
  CodecLaws codec -> lz4_max_input <= 2 ^ 31 - 1 ->
  frame_block content c = Value raw -> zlen content <= max ->
  get_sync (zlen A) (zlen raw) = Value damaged ->
  zlen damaged <> zlen raw \/
    (exists p w1 w2 q, raw = p ++ w1 ++ q /\ damaged = p ++ w2 ++ q /\ length w2 = length w1 /\ (length w1 <= 4)%nat /\ w1 <> w2) ->
  authority_get = Some get -> get (zlen A) (zlen raw) = Value raw ->
  fetch_content (zlen (A ++ raw ++ B)) (mkHandle (zlen A) (zlen raw)) [] max = Value content.
Proof.
  intros Hl Hlz Hfr Hmax Hget Hdam Hauth Hag. destruct (frame_block_length _ _ _ Hfr) as (_ & H9 & _).
  pose proof (unframe_frame_block content c raw max Hfr Hmax Hlz) as Hu. unfold kBlockTrailerLength in *.
  pose proof (zlen_nonneg A). pose proof (zlen_nonneg B).
  unfold fetch_content, handle_fits, kBlockTrailerLength. cbn [bh_offset bh_length]. rewrite !zlen_app.
  rewrite (proj2 (Z.ltb_ge _ _)) by lia. rewrite (proj2 (Z.leb_le _ _)) by lia. rewrite (proj2 (Z.leb_le _ _)) by lia.
  change (zlen []) with 0. rewrite (proj2 (Z.eqb_neq _ _)) by lia. cbn [negb orb andb]. rewrite Hget. cbn [result_bind].
  assert ((if zlen damaged =? zlen raw then unframe_block damaged max else Unexpected Corrupt) = Unexpected Corrupt) as ->.
  { destruct (Z.eqb_spec (zlen damaged) (zlen raw)) as [E|]; [|done]. destruct Hdam as [|(p & w1 & w2 & q & Er & -> & Hlw & H4 & Hne)]; [done|].
    rewrite Er in Hu. by eapply unframe_detects_burst. }
  by rewrite Hauth, Hag, Z.eqb_refl, Hu.
Qed.

Lemma rotted_cache_repaired_witness :
  let raw := match frame_block (ops := copy_codec) [x61; x62; x63] NoCompression with Value raw => raw | Unexpected _ => [] end in
  let store := {| get_sync _ _ := Value ([x00] ++ drop 1 raw); authority_get := Some (fun _ _ => Value raw); cache_get _ := None |} in
  fetch_content (codec := copy_codec) (store := store) (zlen ([x10; x11] ++ raw ++ [x12])) (mkHandle 2 (zlen raw)) [] 64 =
  Value [x61; x62; x63].
Proof.
  intros raw store.
  apply (rotted_cache_repaired copy_codec store [x10; x11] raw [x12] [x61; x62; x63] NoCompression 64 ([x00] ++ drop 1 raw) (fun _ _ => Value raw));
    [apply copy_codec_laws|simpl; lia|reflexivity|vm_compute; congruence|reflexivity| |reflexivity|reflexivity].
  right. exists [], [x61], [x00], (drop 1 raw). split; [reflexivity|]. split; [reflexivity|]. split; [reflexivity|]. split; [simpl; lia|discriminate].
Defined.

(** ** A failed compression goes unnoticed

    [SstWriter::add] drops the status of the flush it causes. A block the compressor refuses stays in the
    builder with its restart array already appended, later entries are put behind that array, and
    [finish] reports success over a block that cannot be scanned. *)

(** A copying codec that refuses one block size. *)
Definition refusing_codec : CodecOps :=
  {| lz4_max_input := 2 ^ 31 - 1; lz4_bound := fun n => n + 16;
     lz4_compress := fun d => Some d; lz4_decompress := fun c _ => Some c;
     zstd_compress := fun d => if zlen d =? 24 then None else Some d; zstd_decompress := fun c _ => Some c |}.

Lemma refused_block_corrupts_file :
  let o := {| o_block_bytes := 24; o_restart_interval := 2; o_bloom_bits_per_key := 10; o_bloom_probes := 6; o_compression := Zstd |} in
  let kvs := [([x61], (Put, [x31])); ([x62], (Put, [x32; x33; x34; x35; x36])); ([x63], (Put, [x37]))] in
  match build_sst_bytes (codec := refusing_codec) o kvs false [] with
  | Value file =>
      match sst_open (codec := refusing_codec) (store := object_store file) (zlen file) 24 with
      | Value r => reader_entries (codec := refusing_codec) (store := object_store file) r
      | Unexpected s => Value []
      end
  | Unexpected s => Value []
  end = Unexpected Corrupt.
Proof. vm_compute. reflexivity. Qed.
