(* ===== verification/Concat.v ===== *)
(** * One level as one iterator

    [src/sst/concat_iterator.cpp]: the files of a level below L0 that carries no range tombstones, read
    one after the other, one file open at a time. [concat_walks] shows that it meets the laws of
    [InternalIterator] over the concatenation of the files' entries, whatever may fail on the way: a file
    that cannot be opened or read ends the iterator with its error, and is never stepped over. *)

From S2P Require Import Prelude Slice Format Framing Watermark VersionEdit Version Memtable Merging Sst Iterators.

(** ** Definitions *)

Record ConcatIterator (It : Type) := {
  cc_files : list FileMetadata;
  cc_begin : nat;
  cc_end : nat;
  cc_index : nat;
  cc_inner : option It;
  cc_status : Status
}.
Arguments cc_files {It}. Arguments cc_begin {It}. Arguments cc_end {It}. Arguments cc_index {It}.
Arguments cc_inner {It}. Arguments cc_status {It}.

Section Concat.
Context {R It : Type} `{ops : SstScanOps R It} (open_ : FileMetadata -> Result R).

Definition make_concat_iterator (files : list FileMetadata) (range : nat * nat) : ConcatIterator It :=
  {| cc_files := files; cc_begin := range.1; cc_end := range.2; cc_index := 0; cc_inner := None; cc_status := Ok |}.

Definition cc_at (c : ConcatIterator It) (index : nat) (inner : option It) (status : Status) : ConcatIterator It :=
  {| cc_files := cc_files c; cc_begin := cc_begin c; cc_end := cc_end c; cc_index := index; cc_inner := inner;
     cc_status := status |}.

Definition cc_entry (c : ConcatIterator It) : option KV := cc_inner c ≫= it_entry.

Definition cc_final_status (c : ConcatIterator It) : Status :=
  if negb (bool_decide (cc_status c = Ok)) then cc_status c
  else match cc_inner c with Some inner => it_status inner | None => Ok end.

Definition leave (c : ConcatIterator It) : ConcatIterator It := cc_at c (cc_index c) None (cc_status c).

(** [enter]: false when the file cannot be opened. *)
Definition enter (c : ConcatIterator It) (at_ : nat) : bool * ConcatIterator It :=
  match cc_files c !! at_ with
  | None => (false, c)
  | Some file =>
      match open_ file with
      | Unexpected e => (false, cc_at c at_ None e)
      | Value reader => (true, cc_at c at_ (Some (sr_iterator reader)) (cc_status c))
      end
  end.

Definition positioning_failed (c : ConcatIterator It) : bool * ConcatIterator It :=
  match cc_inner c with
  | None => (false, c)
  | Some inner =>
      match it_entry inner with
      | Some _ => (false, c)
      | None => if bool_decide (it_status inner = Ok) then (false, c)
                else (true, cc_at c (cc_index c) (Some inner) (it_status inner))
      end
  end.

(** The loops of [seek_to_first] and [seek], from the file [index_] is at. *)
Fixpoint position_up (fuel : nat) (position : It -> It) (c : ConcatIterator It) : ConcatIterator It :=
  match fuel with
  | O => c
  | S fuel' =>
      if (cc_index c <? cc_end c)%nat then
        let '(entered, c) := enter c (cc_index c) in
        if negb entered then c
        else
          let c := cc_at c (cc_index c) (position <$> cc_inner c) (cc_status c) in
          match cc_entry c with
          | Some _ => c
          | None =>
              let '(failed, c) := positioning_failed c in
              if failed then c else position_up fuel' position (cc_at c (S (cc_index c)) (cc_inner c) (cc_status c))
          end
      else leave c
  end.

(** The loops of [seek_to_last] and [seek_for_prev]. *)
Fixpoint position_down (fuel : nat) (position : It -> It) (c : ConcatIterator It) : ConcatIterator It :=
  match fuel with
  | O => c
  | S fuel' =>
      let '(entered, c) := enter c (cc_index c) in
      if negb entered then c
      else
        let c := cc_at c (cc_index c) (position <$> cc_inner c) (cc_status c) in
        match cc_entry c with
        | Some _ => c
        | None =>
            let '(failed, c) := positioning_failed c in
            if failed then c
            else if Nat.eqb (cc_index c) (cc_begin c) then leave c
            else position_down fuel' position (cc_at c (cc_index c - 1) (cc_inner c) (cc_status c))
        end
  end.

Definition cc_fuel (c : ConcatIterator It) : nat := S (cc_end c - cc_begin c).

Definition cc_seek_to_first (c : ConcatIterator It) : ConcatIterator It :=
  position_up (cc_fuel c) it_seek_to_first (cc_at c (cc_begin c) (cc_inner c) (cc_status c)).

Definition cc_seek_to_last (c : ConcatIterator It) : ConcatIterator It :=
  if (cc_end c <=? cc_begin c)%nat then leave c
  else position_down (cc_fuel c) it_seek_to_last (cc_at c (cc_end c - 1) (cc_inner c) (cc_status c)).

Definition cc_window (c : ConcatIterator It) : list FileMetadata := slice_files (cc_files c) (cc_begin c, cc_end c).

Definition cc_seek (target : bytes) (c : ConcatIterator It) : ConcatIterator It :=
  let found := (cc_begin c + lower_bound (fun f => largest_key f <?k target) (cc_window c))%nat in
  position_up (cc_fuel c) (it_seek target) (cc_at c found (cc_inner c) (cc_status c)).

Definition cc_seek_for_prev (target : bytes) (c : ConcatIterator It) : ConcatIterator It :=
  let after := (cc_begin c + lower_bound (fun f => negb (target <?k smallest_key f)) (cc_window c))%nat in
  if Nat.eqb after (cc_begin c) then leave c
  else position_down (cc_fuel c) (it_seek_for_prev target) (cc_at c (after - 1) (cc_inner c) (cc_status c)).

(** The [while] loops of [next] and [prev]: on to the neighbouring file until one holds an entry. *)
Fixpoint next_file (fuel : nat) (c : ConcatIterator It) : ConcatIterator It :=
  match fuel, cc_inner c with
  | S fuel', Some inner =>
      match it_entry inner with
      | Some _ => c
      | None =>
          if negb (bool_decide (it_status inner = Ok)) then c
          else if (cc_end c <=? cc_index c + 1)%nat then leave c
          else
            let '(entered, c) := enter c (S (cc_index c)) in
            if negb entered then c
            else next_file fuel' (cc_at c (cc_index c) (it_seek_to_first <$> cc_inner c) (cc_status c))
      end
  | _, _ => c
  end.

Fixpoint prev_file (fuel : nat) (c : ConcatIterator It) : ConcatIterator It :=
  match fuel, cc_inner c with
  | S fuel', Some inner =>
      match it_entry inner with
      | Some _ => c
      | None =>
          if negb (bool_decide (it_status inner = Ok)) then c
          else if Nat.eqb (cc_index c) (cc_begin c) then leave c
          else
            let '(entered, c) := enter c (cc_index c - 1) in
            if negb entered then c
            else prev_file fuel' (cc_at c (cc_index c) (it_seek_to_last <$> cc_inner c) (cc_status c))
      end
  | _, _ => c
  end.

Definition cc_next (c : ConcatIterator It) : ConcatIterator It :=
  match cc_inner c with
  | None => c
  | Some inner => next_file (cc_fuel c) (cc_at c (cc_index c) (Some (it_next inner)) (cc_status c))
  end.

Definition cc_prev (c : ConcatIterator It) : ConcatIterator It :=
  match cc_inner c with
  | None => c
  | Some inner => prev_file (cc_fuel c) (cc_at c (cc_index c) (Some (it_prev inner)) (cc_status c))
  end.

#[export] Instance concat_iterator_ops : InternalIterator (ConcatIterator It) := {
  it_entry := cc_entry;
  it_status := cc_final_status;
  it_seek_to_first := cc_seek_to_first;
  it_seek_to_last := cc_seek_to_last;
  it_seek := cc_seek;
  it_seek_for_prev := cc_seek_for_prev;
  it_next := cc_next;
  it_prev := cc_prev
}.
End Concat.

(** ** The laws *)

Section Proofs.
Context {R It : Type} `{ops : SstScanOps R It} (may_fail : Prop) (open_ : FileMetadata -> Result R) (content : FileMetadata -> Sst).
Context (files : list FileMetadata) (begin_ end_ : nat).

#[local] Instance level_ops : InternalIterator (ConcatIterator It) := concat_iterator_ops open_.
Let W : list FileMetadata := slice_files files (begin_, end_).
Definition file_kvs (f : FileMetadata) : list KV := entries (content f).
Definition level_kvs (fs : list FileMetadata) : list KV := concat (map file_kvs fs).

(** A file opens to a reader of its content, or fails to. *)
Definition opens (f : FileMetadata) : Prop :=
  match open_ f with
  | Value r => SstScanLaws ops may_fail r (content f)
  | Unexpected e => may_fail /\ e <> Ok
  end.

Context (in_range : (end_ <= length files)%nat).
Context (all_open : forall f, f ∈ W -> opens f).
Context (increasing : StronglySorted (fun a b => largest_key a <k smallest_key b) W).
Context (bounded : forall f kv, f ∈ W -> kv ∈ file_kvs f -> smallest_key f <=k kv.1 /\ kv.1 <=k largest_key f).
Context (sorted : forall f, f ∈ W -> key_sorted (file_kvs f)).

Definition shaped (c : ConcatIterator It) : Prop :=
  cc_files c = files /\ cc_begin c = begin_ /\ cc_end c = end_ /\ cc_status c = Ok.

(** The open file, and the entry its iterator stands on. *)
Inductive inside (c : ConcatIterator It) (n : nat) (o : option KV) : Prop :=
  | inside_intro f on it : W !! n = Some f -> cc_index c = (begin_ + n)%nat -> cc_inner c = Some it ->
      walks may_fail (file_kvs f) on -> on it o -> inside c n o.

Definition cc_on (c : ConcatIterator It) (o : option KV) : Prop :=
  shaped c /\ match o with None => cc_inner c = None | Some kv => exists n, inside c n (Some kv) end.

Lemma W_length : length W = (end_ - begin_)%nat.
Proof. unfold W, slice_files. cbn [fst snd]. rewrite length_take, length_drop. lia. Qed.

Lemma W_lookup n f : W !! n = Some f -> files !! (begin_ + n)%nat = Some f /\ (begin_ + n < end_)%nat /\ f ∈ W.
Proof.
  intros Hf. pose proof (lookup_lt_Some _ _ _ Hf) as Hn. rewrite W_length in Hn. split; [|split; [lia|by eapply list_elem_of_lookup_2]].
  unfold W, slice_files in Hf. cbn [fst snd] in Hf. by rewrite lookup_take_lt, lookup_drop in Hf by lia.
Qed.

(** Entering a file: a fresh iterator, or the error of the open. *)
Lemma enter_spec c n f : shaped c -> W !! n = Some f ->
  (exists on it, enter open_ c (begin_ + n) = (true, cc_at c (begin_ + n) (Some it) Ok) /\ walks may_fail (file_kvs f) on /\ on it None) \/
  (exists e, enter open_ c (begin_ + n) = (false, cc_at c (begin_ + n) None e) /\ may_fail /\ e <> Ok).
Proof.
  intros (Hfs & _ & _ & Hst) Hf. destruct (W_lookup _ _ Hf) as (Hl & _ & Hin). unfold enter. rewrite Hfs, Hl, Hst.
  pose proof (all_open f Hin) as Ho. unfold opens in Ho. destruct (open_ f) as [r|e]; [left|right; by exists e].
  destruct Ho as [(on & Hw & Hn)]. by exists on, (sr_iterator r).
Qed.

Lemma enter_failed c i e o : may_fail /\ e <> Ok -> lands may_fail cc_on (cc_at c i None e) o.
Proof. intros [Hm He]. right. split; [done|]. split; [done|]. unfold it_status. simpl. unfold cc_final_status. simpl. by rewrite bool_decide_eq_false_2. Qed.

(** What a positioned inner iterator means for the level. *)
Lemma landed_on c n f on it kv : shaped c -> W !! n = Some f -> walks may_fail (file_kvs f) on -> on it (Some kv) ->
  cc_entry (cc_at c (begin_ + n) (Some it) Ok) = Some kv /\ cc_on (cc_at c (begin_ + n) (Some it) Ok) (Some kv).
Proof.
  intros (Hfs & Hb & He & Hst) Hf Hw Hon. split; [exact (proj1 (wk_entry _ _ _ Hw _ _ Hon))|].
  split; [by repeat split|]. exists n. by eapply inside_intro.
Qed.

Lemma first_such_app p a b : first_such p (a ++ b) = match first_such p a with Some kv => Some kv | None => first_such p b end.
Proof. unfold first_such. rewrite List.filter_app. by destruct (List.filter _ a). Qed.

Lemma last_such_app p a b : last_such p (a ++ b) = match last_such p b with Some kv => Some kv | None => last_such p a end.
Proof. unfold last_such. rewrite List.filter_app, last_app. by destruct (last _). Qed.

Lemma level_kvs_cons f fs : level_kvs (f :: fs) = file_kvs f ++ level_kvs fs.
Proof. done. Qed.

Lemma level_kvs_app a b : level_kvs (a ++ b) = level_kvs a ++ level_kvs b.
Proof. unfold level_kvs. by rewrite map_app, concat_app. Qed.

Lemma level_kvs_snoc fs f : level_kvs (fs ++ [f]) = level_kvs fs ++ file_kvs f.
Proof. rewrite level_kvs_app. unfold level_kvs at 2. simpl. by rewrite app_nil_r. Qed.

Lemma head_app {A} (a b : list A) : head (a ++ b) = match head a with Some x => Some x | None => head b end.
Proof. by destruct a. Qed.

(** An inner iterator that fails to position is reported, in both loops. *)
Lemma position_failed (c : ConcatIterator It) i it (k : ConcatIterator It -> ConcatIterator It) o :
  may_fail /\ broken it ->
  lands may_fail cc_on (match cc_entry (cc_at c i (Some it) Ok) with
               | Some _ => cc_at c i (Some it) Ok
               | None => let '(failed, c) := positioning_failed (cc_at c i (Some it) Ok) in if failed then c else k c
               end) o.
Proof.
  intros [Hm [He Hs]]. unfold cc_entry. simpl mbind. rewrite He. unfold positioning_failed. simpl cc_inner. cbv iota.
  rewrite He, bool_decide_eq_false_2 by done. right. do 2 (split; [done|]). unfold it_status. simpl. unfold cc_final_status. simpl.
  by rewrite bool_decide_eq_false_2.
Qed.

(** One file at a time, upwards. *)
Lemma position_up_spec p position :
  (forall f on it, f ∈ W -> walks may_fail (file_kvs f) on -> on it None -> lands may_fail on (position it) (first_such p (file_kvs f))) ->
  forall fuel c n, shaped c -> cc_index c = (begin_ + n)%nat -> (n <= length W)%nat -> (length W - n < fuel)%nat ->
  (begin_ <= end_)%nat -> lands may_fail cc_on (position_up open_ fuel position c) (first_such p (level_kvs (drop n W))).
Proof.
  intros Hpos. induction fuel as [|fuel IH]; intros c n Hc Hi Hn Hf Hbe; [lia|]. cbn [position_up].
  pose proof W_length as HW. pose proof Hc as (Hfs & Hb & He & Hst). rewrite He. destruct (Nat.ltb_spec (cc_index c) end_) as [Hlt|Hge].
  - destruct (lookup_lt_is_Some_2 W n) as [f Hf']; [lia|]. rewrite Hi. destruct (W_lookup _ _ Hf') as (_ & _ & Hin).
    destruct (enter_spec c n f Hc Hf') as [(on & it & -> & Hw & Hon)|(e & -> & Hne)]; [|by apply enter_failed].
    cbn [negb]. rewrite (drop_S _ _ _ Hf'). rewrite level_kvs_cons, first_such_app.
    change (cc_at (cc_at c (begin_ + n) (Some it) Ok) (cc_index (cc_at c (begin_ + n) (Some it) Ok))
              (position <$> cc_inner (cc_at c (begin_ + n) (Some it) Ok)) (cc_status (cc_at c (begin_ + n) (Some it) Ok)))
      with (cc_at c (begin_ + n) (Some (position it)) Ok).
    destruct (Hpos f on it Hin Hw Hon) as [Hl|Hbr].
    + destruct (wk_entry _ _ _ Hw _ _ Hl) as [Hent Hok]. destruct (first_such p (file_kvs f)) as [kv|].
      * destruct (landed_on c n f on _ kv Hc Hf' Hw Hl) as [-> Hon']. by left.
      * unfold cc_entry. simpl mbind. rewrite Hent. unfold positioning_failed. simpl cc_inner. cbv iota. rewrite Hent, Hok. simpl.
        apply IH; [by repeat split|simpl; lia|lia|lia|done].
    + by apply position_failed.
  - assert (n = length W) as -> by lia. rewrite drop_all. left. split; [by repeat split|done].
Qed.

(** One file at a time, downwards. *)
Lemma position_down_spec p position :
  (forall f on it, f ∈ W -> walks may_fail (file_kvs f) on -> on it None -> lands may_fail on (position it) (last_such p (file_kvs f))) ->
  forall fuel c n, shaped c -> cc_index c = (begin_ + n)%nat -> (n < length W)%nat -> (n < fuel)%nat ->
  lands may_fail cc_on (position_down open_ fuel position c) (last_such p (level_kvs (take (S n) W))).
Proof.
  intros Hpos. induction fuel as [|fuel IH]; intros c n Hc Hi Hn Hf; [lia|]. cbn [position_down].
  pose proof Hc as (Hfs & Hb & He & Hst). destruct (lookup_lt_is_Some_2 W n) as [f Hf']; [lia|]. rewrite Hi.
  destruct (W_lookup _ _ Hf') as (_ & _ & Hin).
  destruct (enter_spec c n f Hc Hf') as [(on & it & -> & Hw & Hon)|(e & -> & Hne)]; [|by apply enter_failed].
  cbn [negb]. rewrite (take_S_r _ _ _ Hf'), level_kvs_snoc, last_such_app.
  change (cc_at (cc_at c (begin_ + n) (Some it) Ok) (cc_index (cc_at c (begin_ + n) (Some it) Ok))
            (position <$> cc_inner (cc_at c (begin_ + n) (Some it) Ok)) (cc_status (cc_at c (begin_ + n) (Some it) Ok)))
    with (cc_at c (begin_ + n) (Some (position it)) Ok).
  destruct (Hpos f on it Hin Hw Hon) as [Hl|Hbr].
  - destruct (wk_entry _ _ _ Hw _ _ Hl) as [Hent Hok]. destruct (last_such p (file_kvs f)) as [kv|].
    + destruct (landed_on c n f on _ kv Hc Hf' Hw Hl) as [-> Hon']. by left.
    + unfold cc_entry. simpl mbind. rewrite Hent. unfold positioning_failed. simpl cc_inner. cbv iota. rewrite Hent, Hok. simpl.
      rewrite Hb. destruct (Nat.eqb_spec (begin_ + n) begin_) as [E|E].
      * assert (n = 0)%nat as -> by lia. left. split; [by repeat split|done].
      * destruct n as [|n]; [lia|]. replace (begin_ + S n - 1)%nat with (begin_ + n)%nat by lia.
        apply IH; [by repeat split|done|lia|lia].
  - by apply position_failed.
Qed.

(** Leaving an exhausted file upwards. *)
Lemma next_file_spec fuel c n f on it o :
  shaped c -> cc_index c = (begin_ + n)%nat -> W !! n = Some f -> cc_inner c = Some it -> walks may_fail (file_kvs f) on ->
  lands may_fail on it o -> (length W - n < fuel)%nat ->
  lands may_fail cc_on (next_file open_ fuel c) (match o with Some kv => Some kv | None => head (level_kvs (drop (S n) W)) end).
Proof.
  revert c n f on it o. induction fuel as [|fuel IH]; intros c n f on it o Hc Hi Hf Hit Hw Hl Hfu; [lia|].
  cbn [next_file]. rewrite Hit. pose proof Hc as (Hfs & Hb & He & Hst). pose proof W_length as HW. pose proof (lookup_lt_Some _ _ _ Hf) as Hn.
  destruct Hl as [Hl|(Hm & Hbe1 & Hbs)].
  - destruct (wk_entry _ _ _ Hw _ _ Hl) as [-> ->]. destruct o as [kv|].
    + left. split; [done|]. exists n. by eapply inside_intro.
    + cbn [negb bool_decide]. rewrite Hi, He. destruct (Nat.leb_spec end_ (begin_ + n + 1)) as [Hle|Hgt].
      * rewrite drop_ge by lia. left. split; [by repeat split|done].
      * destruct (lookup_lt_is_Some_2 W (S n)) as [g Hg]; [lia|]. rewrite <- Nat.add_succ_r.
        destruct (enter_spec c (S n) g Hc Hg) as [(on' & it' & -> & Hw' & Hon')|(e & -> & Hne)]; [|by apply enter_failed].
        cbn [negb]. rewrite (drop_S _ _ _ Hg), level_kvs_cons, head_app.
        pose proof (wk_first _ _ _ Hw' _ _ Hon') as Hl'.
        pose proof (IH (cc_at c (begin_ + S n) (Some (it_seek_to_first it')) Ok) (S n) g on' _ _
                      ltac:(by repeat split) eq_refl Hg eq_refl Hw' Hl' ltac:(lia)) as H.
        exact H.
  - rewrite Hbe1, bool_decide_eq_false_2 by done. right. split; [done|]. split; [unfold it_entry; simpl; unfold cc_entry; by rewrite Hit|].
    unfold it_status. simpl. unfold cc_final_status. by rewrite Hst, Hit.
Qed.

Lemma prev_file_spec fuel c n f on it o :
  shaped c -> cc_index c = (begin_ + n)%nat -> W !! n = Some f -> cc_inner c = Some it -> walks may_fail (file_kvs f) on ->
  lands may_fail on it o -> (n < fuel)%nat ->
  lands may_fail cc_on (prev_file open_ fuel c) (match o with Some kv => Some kv | None => last (level_kvs (take n W)) end).
Proof.
  revert c n f on it o. induction fuel as [|fuel IH]; intros c n f on it o Hc Hi Hf Hit Hw Hl Hfu; [lia|].
  cbn [prev_file]. rewrite Hit. pose proof Hc as (Hfs & Hb & He & Hst). pose proof (lookup_lt_Some _ _ _ Hf) as Hn.
  destruct Hl as [Hl|(Hm & Hbe1 & Hbs)].
  - destruct (wk_entry _ _ _ Hw _ _ Hl) as [-> ->]. destruct o as [kv|].
    + left. split; [done|]. exists n. by eapply inside_intro.
    + cbn [negb bool_decide]. rewrite Hi, Hb. destruct (Nat.eqb_spec (begin_ + n) begin_) as [E|E].
      * assert (n = 0)%nat as -> by lia. left. split; [by repeat split|done].
      * destruct n as [|n]; [lia|]. replace (begin_ + S n - 1)%nat with (begin_ + n)%nat by lia.
        destruct (lookup_lt_is_Some_2 W n) as [g Hg]; [lia|].
        destruct (enter_spec c n g Hc Hg) as [(on' & it' & -> & Hw' & Hon')|(e & -> & Hne)]; [|by apply enter_failed].
        cbn [negb]. rewrite (take_S_r _ _ _ Hg), level_kvs_snoc, last_app.
        pose proof (wk_last _ _ _ Hw' _ _ Hon') as Hl'.
        pose proof (IH (cc_at c (begin_ + n) (Some (it_seek_to_last it')) Ok) n g on' _ _
                      ltac:(by repeat split) eq_refl Hg eq_refl Hw' Hl' ltac:(lia)) as H.
        exact H.
  - rewrite Hbe1, bool_decide_eq_false_2 by done. right. split; [done|]. split; [unfold it_entry; simpl; unfold cc_entry; by rewrite Hit|].
    unfold it_status. simpl. unfold cc_final_status. by rewrite Hst, Hit.
Qed.

Lemma elem_level kv fs : kv ∈ level_kvs fs <-> exists f, f ∈ fs /\ kv ∈ file_kvs f.
Proof.
  unfold level_kvs. rewrite list_elem_of_In, in_concat. split.
  - intros (l & (f & <- & Hf)%in_map_iff & Hk). exists f. by rewrite !list_elem_of_In.
  - intros (f & Hf & Hk). exists (file_kvs f). split; [|by apply list_elem_of_In]. by apply in_map, list_elem_of_In.
Qed.

Lemma level_sorted : key_sorted (level_kvs W).
Proof.
  pose proof increasing as Hs. pose proof sorted as Hk. pose proof bounded as Hb. clear all_open increasing sorted bounded. induction Hs as [|f fs Hs IH Hf]; [constructor|].
  rewrite level_kvs_cons. apply StronglySorted_app. split_and!.
  - intros a b Ha (g & Hg & Hbg)%elem_level. rewrite Forall_forall in Hf. specialize (Hf g Hg).
    destruct (Hb f a) as [_ ?]; [by left|done|]. destruct (Hb g b) as [? _]; [by right|done|]. key_order.
  - apply Hk. by left.
  - apply IH; [intros g Hg; apply Hk; by right|intros g kv Hg; apply Hb; by right].
Qed.

Lemma level_split n f : W !! n = Some f -> level_kvs W = level_kvs (take n W) ++ file_kvs f ++ level_kvs (drop (S n) W).
Proof. intros Hf. rewrite <- (take_drop_middle _ _ _ Hf) at 1. by rewrite level_kvs_app, level_kvs_cons. Qed.

Lemma first_such_none p l : (forall kv, kv ∈ l -> p kv.1 = false) -> first_such p l = None.
Proof. intros H. unfold first_such. by rewrite filter_none. Qed.

Lemma last_such_none p l : (forall kv, kv ∈ l -> p kv.1 = false) -> last_such p l = None.
Proof. intros H. unfold last_such. by rewrite filter_none. Qed.

Lemma first_such_all p l : (forall kv, kv ∈ l -> p kv.1 = true) -> first_such p l = head l.
Proof. intros H. unfold first_such. by rewrite filter_all. Qed.

Lemma last_such_all p l : (forall kv, kv ∈ l -> p kv.1 = true) -> last_such p l = last l.
Proof. intros H. unfold last_such. by rewrite filter_all. Qed.

Lemma around n f kv : W !! n = Some f -> kv ∈ file_kvs f ->
  (forall x, x ∈ level_kvs (take n W) -> x.1 <k kv.1) /\ (forall x, x ∈ level_kvs (drop (S n) W) -> kv.1 <k x.1).
Proof.
  intros Hf Hkv. pose proof level_sorted as Hs. rewrite (level_split _ _ Hf) in Hs.
  apply StronglySorted_app in Hs as (H1 & _ & (H2 & _)%StronglySorted_app). split; intros x Hx; [apply H1|apply H2]; try done.
  apply elem_of_app. by left.
Qed.

Context (nonempty : (begin_ < end_)%nat) (filled : forall f, f ∈ W -> file_kvs f <> []).

Lemma cc_next_on c kv : cc_on c (Some kv) -> lands may_fail cc_on (cc_next open_ c) (first_such (fun k => kv.1 <?k k) (level_kvs W)).
Proof.
  intros (Hc & n & [f on it Hf Hi Hit Hw Hon]). unfold cc_next. rewrite Hit. pose proof Hc as (Hfs & Hb & He & Hst).
  pose proof (wk_member _ _ _ Hw _ _ Hon) as Hm. destruct (around n f kv Hf Hm) as [Hbefore Hafter]. pose proof W_length.
  pose proof (next_file_spec (cc_fuel c) (cc_at c (cc_index c) (Some (it_next it)) (cc_status c)) n f on _ _
                ltac:(by repeat split) Hi Hf eq_refl Hw (wk_next _ _ _ Hw _ _ Hon)) as H'.
  unfold cc_fuel in *. rewrite Hb, He in *. specialize (H' ltac:(lia)).
  rewrite (level_split _ _ Hf), !first_such_app.
  rewrite (first_such_none (fun k => kv.1 <?k k) (level_kvs (take n W))) by (intros x Hx; specialize (Hbefore x Hx); cbv beta; key_order).
  by rewrite (first_such_all (fun k => kv.1 <?k k) (level_kvs (drop (S n) W))) by (intros x Hx; specialize (Hafter x Hx); cbv beta; key_order).
Qed.

Lemma cc_prev_on c kv : cc_on c (Some kv) -> lands may_fail cc_on (cc_prev open_ c) (last_such (fun k => k <?k kv.1) (level_kvs W)).
Proof.
  intros (Hc & n & [f on it Hf Hi Hit Hw Hon]). unfold cc_prev. rewrite Hit. pose proof Hc as (Hfs & Hb & He & Hst).
  pose proof (wk_member _ _ _ Hw _ _ Hon) as Hm. destruct (around n f kv Hf Hm) as [Hbefore Hafter]. pose proof W_length.
  pose proof (lookup_lt_Some _ _ _ Hf) as Hn.
  pose proof (prev_file_spec (cc_fuel c) (cc_at c (cc_index c) (Some (it_prev it)) (cc_status c)) n f on _ _
                ltac:(by repeat split) Hi Hf eq_refl Hw (wk_prev _ _ _ Hw _ _ Hon)) as H'.
  unfold cc_fuel in *. rewrite Hb, He in *. specialize (H' ltac:(lia)).
  rewrite (level_split _ _ Hf), !last_such_app.
  rewrite (last_such_none (fun k => k <?k kv.1) (level_kvs (drop (S n) W))) by (intros x Hx; specialize (Hafter x Hx); cbv beta; key_order).
  by rewrite (last_such_all (fun k => k <?k kv.1) (level_kvs (take n W))) by (intros x Hx; specialize (Hbefore x Hx); cbv beta; key_order).
Qed.

(** What the binary searches skip lies on the other side of the target. *)
Lemma seek_skips t : let n := lower_bound (fun f => largest_key f <?k t) W in
  (n <= length W)%nat /\
  first_such (fun k => t <=?k k) (level_kvs W) = first_such (fun k => t <=?k k) (level_kvs (drop n W)).
Proof.
  intros n. assert (partitioned (fun f => largest_key f <?k t) W) as Hp.
  { intros i j f g Hij Hf Hg Hlt. pose proof (StronglySorted_lookup_lt _ _ _ _ _ _ increasing Hij Hf Hg) as Hfg. simpl in Hfg.
    destruct (W_lookup _ _ Hg) as (_ & _ & Hin). destruct (file_kvs g) as [|kv l] eqn:E.
    - pose proof (filled g Hin). congruence.
    - destruct (bounded g kv Hin) as [? ?]; [rewrite E; by left|]. key_order. }
  apply lower_bound_spec in Hp as [Hn Hspec]. split; [done|]. rewrite <- (take_drop n W) at 1. rewrite level_kvs_app, first_such_app.
  rewrite (first_such_none _ (level_kvs (take n W))); [done|].
  intros kv (f & (i & Hi & Hlt)%elem_of_take & Hkv)%elem_level. apply Hspec in Hi as Hb. apply Hb in Hlt. simpl.
  destruct (bounded f kv) as [_ ?]; [by eapply list_elem_of_lookup_2|done|]. key_order.
Qed.

Lemma seek_for_prev_skips t : let n := lower_bound (fun f => negb (t <?k smallest_key f)) W in
  (n <= length W)%nat /\
  last_such (fun k => k <=?k t) (level_kvs W) = last_such (fun k => k <=?k t) (level_kvs (take n W)).
Proof.
  intros n. assert (partitioned (fun f => negb (t <?k smallest_key f)) W) as Hp.
  { intros i j f g Hij Hf Hg Hlt. pose proof (StronglySorted_lookup_lt _ _ _ _ _ _ increasing Hij Hf Hg) as Hfg. simpl in Hfg.
    destruct (W_lookup _ _ Hf) as (_ & _ & Hin). destruct (file_kvs f) as [|kv l] eqn:E.
    - pose proof (filled f Hin). congruence.
    - destruct (bounded f kv Hin) as [? ?]; [rewrite E; by left|]. key_order. }
  apply lower_bound_spec in Hp as [Hn Hspec]. split; [done|]. rewrite <- (take_drop n W) at 1. rewrite level_kvs_app, last_such_app.
  rewrite (last_such_none _ (level_kvs (drop n W))); [done|].
  intros kv (f & (i & Hi)%list_elem_of_lookup & Hkv)%elem_level. rewrite lookup_drop in Hi. destruct (Hspec _ _ Hi) as [Hb _]. simpl.
  destruct (bounded f kv) as [? _]; [by eapply list_elem_of_lookup_2|done|].
  destruct (t <?k smallest_key f) eqn:E; [key_order|]. specialize (Hb eq_refl). lia.
Qed.

(** The level walks the entries of its files. *)
Lemma concat_walks : walks may_fail (level_kvs W) cc_on /\ cc_on (make_concat_iterator files (begin_, end_)) None.
Proof.
  pose proof W_length as HW. split; [|by repeat split]. split.
  - intros c o [(_ & _ & _ & Hst) Ho]. unfold it_entry, it_status. simpl. unfold cc_entry, cc_final_status. rewrite Hst. simpl.
    destruct o as [kv|]; [|by rewrite Ho]. destruct Ho as (n & [f on it Hf Hi Hit Hw Hon]). rewrite Hit. exact (wk_entry _ _ _ Hw _ _ Hon).
  - intros c kv (_ & n & [f on it Hf Hi Hit Hw Hon]). apply elem_level. exists f.
    split; [by eapply list_elem_of_lookup_2|exact (wk_member _ _ _ Hw _ _ Hon)].
  - intros c o (Hc & _). pose proof Hc as (Hfs & Hb & He & Hst). rewrite <- (first_such_all (fun _ => true) (level_kvs W)) by done.
    apply (position_up_spec (fun _ => true) it_seek_to_first) with (n := 0%nat); try (unfold cc_fuel; simpl; rewrite ?Hb, ?He; lia); [|by repeat split].
    intros f on it _ Hw Hon. pose proof (wk_first _ _ _ Hw _ _ Hon) as Hl. by rewrite first_such_all.
  - intros c o (Hc & _). pose proof Hc as (Hfs & Hb & He & Hst). rewrite <- (last_such_all (fun _ => true) (level_kvs W)) by done.
    unfold it_seek_to_last. simpl. unfold cc_seek_to_last. rewrite Hb, He. destruct (Nat.leb_spec end_ begin_); [lia|].
    rewrite <- (take_ge W (S (end_ - 1 - begin_))) at 1 by lia.
    apply (position_down_spec (fun _ => true) it_seek_to_last); try (unfold cc_fuel; simpl; rewrite ?Hb, ?He; lia); [|by repeat split].
    intros f on it _ Hw Hon. pose proof (wk_last _ _ _ Hw _ _ Hon) as Hl. by rewrite last_such_all.
  - intros c o t (Hc & _). pose proof Hc as (Hfs & Hb & He & Hst). destruct (seek_skips t) as [Hn ->].
    unfold it_seek. simpl. unfold cc_seek, cc_window. rewrite Hfs, Hb, He. fold W.
    apply (position_up_spec _ (it_seek t)); try (unfold cc_fuel; simpl; rewrite ?Hb, ?He; lia); [|by repeat split].
    intros f on it _ Hw Hon. exact (wk_seek _ _ _ Hw _ _ t Hon).
  - intros c o t (Hc & _). pose proof Hc as (Hfs & Hb & He & Hst). destruct (seek_for_prev_skips t) as [Hn ->].
    unfold it_seek_for_prev. simpl. unfold cc_seek_for_prev, cc_window. rewrite Hfs, Hb, He. fold W.
    set (n := lower_bound _ W) in *. destruct (Nat.eqb_spec (begin_ + n) begin_) as [E|E].
    + assert (n = 0)%nat as -> by lia. left. split; [by repeat split|done].
    + destruct n as [|n]; [lia|].
      apply (position_down_spec _ (it_seek_for_prev t)); try (unfold cc_fuel; simpl; rewrite ?Hb, ?He; lia); [|by repeat split].
      intros f on it _ Hw Hon. exact (wk_seek_for_prev _ _ _ Hw _ _ t Hon).
  - apply cc_next_on.
  - apply cc_prev_on.
Qed.
End Proofs.
