(* ===== verification/Lsm.v ===== *)
(** * The log-structured merge tree: recency and point reads

    [DbImpl::get] of [src/db/db_impl.cpp], and the order-free description of what a version says
    about a key that every later theorem rests on: among the files that decide the key, the newest
    one in the engine's only order (a lower level, then at L0 a higher file number). *)

From S2P Require Import Prelude Slice Format Framing Watermark VersionEdit Version Memtable Merging Sst.

(** ** [DbImpl::get] *)

Section Get.
Context {R : Type} `{ops : SstReaderOps R} (reader_for : FileMetadata -> Result R).

(** One file of the inner loop: [None] falls through to the next file. *)
Definition get_file (f : FileMetadata) (key : bytes) : Result (option Entry) :=
  let may_hold := file_may_contain f key in
  let may_cover := range_may_cover f key in
  if negb may_hold && negb may_cover then Value None
  else
    let? reader := reader_for f in
    let? found := if may_hold then sr_get reader key else Value None in
    match found with
    | Some e => Value (Some e)
    | None =>
        if may_cover then
          let? covered := sr_range_deletes reader key in
          Value (if covered then Some (Delete, []) else None)
        else Value None
    end.

Fixpoint get_files (files : list FileMetadata) (key : bytes) : Result (option Entry) :=
  match files with
  | [] => Value None
  | f :: rest =>
      let? found := get_file f key in
      match found with Some e => Value (Some e) | None => get_files rest key end
  end.

(** The files of a level the loop visits: all of them, or the one a binary search lands on. *)
Definition level_window (v : Version) (lvl : Z) (key : bytes) : list FileMetadata :=
  let files := files_at v lvl in
  if (0 <? lvl) && negb (carries_ranges v lvl) then
    let first := lower_bound (fun f => largest_key f <?k key) files in
    slice_files files (first, Nat.min (length files) (first + 1))
  else files.

Fixpoint get_levels (v : Version) (levels : list Z) (key : bytes) : Result (option Entry) :=
  match levels with
  | [] => Value None
  | lvl :: rest =>
      let? found := get_files (level_window v lvl key) key in
      match found with Some e => Value (Some e) | None => get_levels v rest key end
  end.

(** A memtable's part: the point entry is asked about before the range. *)
Definition get_memtable (m : SkiplistMemtable) (key : bytes) : option Entry :=
  match get m key with
  | Some e => Some e
  | None => if range_deletes m key then Some (Delete, []) else None
  end.

Fixpoint get_memtables (ms : list SkiplistMemtable) (key : bytes) : option Entry :=
  match ms with
  | [] => None
  | m :: rest => match get_memtable m key with Some e => Some e | None => get_memtables rest key end
  end.

(** A delete is an absence. *)
Definition answer_of (e : option Entry) : Result bytes :=
  match e with
  | Some (Put, value) => Value value
  | _ => Unexpected NotFound
  end.

Definition db_get (blocked : bool) (memtables : list SkiplistMemtable) (v : Version) (key : bytes)
  : Result bytes :=
  if blocked then Unexpected RecoveryRequired
  else if truncated v key then Unexpected NotFound
  else
    match get_memtables memtables key with
    | Some e => answer_of (Some e)
    | None =>
        let? found := get_levels v (seqZ 0 (num_levels v)) key in
        answer_of found
    end.
End Get.

(** ** What a version says *)

(** [a] lies wholly before [b]: entries below, tombstones up to, where [b] starts to matter. *)
Definition precedes (a b : FileMetadata) : Prop :=
  (num_entries a <> 0 -> largest_key a <k effective_smallest b) /\
  (num_range_tombstones a <> 0 -> largest_range_key a <=k effective_smallest b).

Definition apart (a b : FileMetadata) : Prop := precedes a b \/ precedes b a.

Section Content.
Context (content : FileMetadata -> Sst).

Definition verdict (f : FileMetadata) (k : bytes) : option Entry := sst_verdict (content f) k.

(** The file has something to say about the key. *)
Definition touches (f : FileMetadata) (k : bytes) : Prop := verdict f k <> None.

Record version_ok (v : Version) : Prop := {
  vo_filed : filed v;
  vo_ordered : ordered v;
  vo_describes : forall f, f ∈ all_files v -> describes f (content f);
  vo_apart : forall lvl a b, 0 < lvl -> a ∈ files_at v lvl -> b ∈ files_at v lvl -> a <> b -> apart a b;
  vo_numbers : forall lvl, NoDup (file_number <$> files_at v lvl);
  vo_unique : forall f g, f ∈ all_files v -> g ∈ all_files v -> file_number f = file_number g -> f = g;
  vo_carries : forall lvl, carries_ranges v lvl = existsb carries_range (files_at v lvl)
}.

Fixpoint first_verdict (files : list FileMetadata) (k : bytes) : option Entry :=
  match files with
  | [] => None
  | f :: rest => match verdict f k with Some e => Some e | None => first_verdict rest k end
  end.

(** What the files of a version say about a key, read in order. *)
Definition resolve (v : Version) (k : bytes) : option Entry := first_verdict (all_files v) k.

(** [f] outranks every other file of [v] that decides [k]. *)
Definition decides (v : Version) (k : bytes) (f : FileMetadata) (e : Entry) : Prop :=
  f ∈ all_files v /\ verdict f k = Some e /\
  forall g, g ∈ all_files v -> touches g k -> g = f \/ newer_than f g = true.

(** *** Lemmas *)

Lemma precedes_touches a b k :
  describes a (content a) -> describes b (content b) -> precedes a b -> touches a k -> touches b k -> False.
Proof.
  intros Ha Hb [H1 H2] Hta Htb. destruct (verdict_effective _ _ _ Hb Htb) as [Hlo _].
  unfold touches, verdict, sst_verdict, verdict_of in Hta. destruct (assoc k (entries (content a))) as [e|] eqn:E.
  - destruct (describes_hold _ _ _ _ Ha E) as (Hn & _ & ?). specialize (H1 Hn). key_order.
  - destruct (any_covers (ranges (content a)) k) eqn:Ec; [|done].
    destruct (describes_cover _ _ _ Ha Ec) as (Hn & _ & ?). specialize (H2 Hn). key_order.
Qed.

Lemma apart_touches a b k :
  describes a (content a) -> describes b (content b) -> apart a b -> touches a k -> touches b k -> False.
Proof. intros Ha Hb [H|H] Hta Htb; [by eapply (precedes_touches a b)|by eapply (precedes_touches b a)]. Qed.

Lemma in_all v lvl f : f ∈ files_at v lvl -> f ∈ all_files v.
Proof. intros. apply elem_of_all_files. by exists lvl. Qed.

Lemma in_level v f : filed v -> f ∈ all_files v -> f ∈ files_at v (level f).
Proof. intros Hf (lvl & Hin)%elem_of_all_files. by rewrite (Hf _ _ Hin). Qed.

Lemma NoDup_fmap_inj {A B} (f : A -> B) (l : list A) a b :
  NoDup (f <$> l) -> a ∈ l -> b ∈ l -> f a = f b -> a = b.
Proof.
  induction l as [|x l IH]; simpl; [by intros _ ?%elem_of_nil|]. intros [Hnot Hnd]%NoDup_cons Ha Hb E.
  apply elem_of_cons in Ha as [->|Ha], Hb as [->|Hb]; [done| | |by apply IH].
  - exfalso. apply Hnot. rewrite E. by apply list_elem_of_fmap_2.
  - exfalso. apply Hnot. rewrite <- E. by apply list_elem_of_fmap_2.
Qed.

(** Below L0 at most one file of a level decides a key. *)
Lemma level_exclusive v lvl a b k :
  version_ok v -> 0 < lvl -> a ∈ files_at v lvl -> b ∈ files_at v lvl -> touches a k -> touches b k -> a = b.
Proof.
  intros Hv Hl Ha Hb Hta Htb. destruct (decide (a = b)) as [|Hne]; [done|exfalso].
  eapply apart_touches; [| |by eapply (vo_apart _ Hv lvl a b)|exact Hta|exact Htb];
    eapply (vo_describes _ Hv), in_all; done.
Qed.

(** At most one file decides. *)
Lemma newer_than_asym f g : newer_than f g = true -> newer_than g f = false.
Proof.
  unfold newer_than. destruct (Z.ltb_spec (level f) (level g)), (Z.eqb_spec (level f) (level g)),
    (Z.ltb_spec (file_number g) (file_number f)), (Z.ltb_spec (level g) (level f)),
    (Z.eqb_spec (level g) (level f)), (Z.ltb_spec (file_number f) (file_number g)); simpl; try lia; done.
Qed.

Lemma decides_unique v k f e g e' : decides v k f e -> decides v k g e' -> f = g /\ e = e'.
Proof.
  intros (Hf & Hvf & Hmf) (Hg & Hvg & Hmg). assert (f = g) as ->; [|split; congruence].
  assert (touches f k) as Htf by (unfold touches; congruence).
  assert (touches g k) as Htg by (unfold touches; congruence).
  destruct (Hmf g Hg Htg) as [?|H1]; [done|]. destruct (Hmg f Hf Htf) as [?|H2]; [done|].
  apply newer_than_asym in H1. congruence.
Qed.

Lemma first_verdict_app l1 l2 k :
  first_verdict (l1 ++ l2) k = match first_verdict l1 k with Some e => Some e | None => first_verdict l2 k end.
Proof. induction l1 as [|f l1 IH]; simpl; [done|]. by destruct (verdict f k). Qed.

Lemma first_verdict_None l k : first_verdict l k = None <-> forall f, f ∈ l -> verdict f k = None.
Proof.
  induction l as [|f l IH]; simpl; [set_solver|]. destruct (verdict f k) eqn:E.
  - split; [done|]. intros H. rewrite (H f) in E by (by left). done.
  - rewrite IH. split; [intros H g [->|?]%elem_of_cons; auto|]. intros H g Hg. apply H. by right.
Qed.

Lemma first_verdict_Some l k e :
  first_verdict l k = Some e ->
  exists l1 f l2, l = l1 ++ f :: l2 /\ verdict f k = Some e /\ forall g, g ∈ l1 -> verdict g k = None.
Proof.
  induction l as [|f l IH]; simpl; [done|]. destruct (verdict f k) eqn:E.
  - intros [= ->]. exists [], f, l. split_and!; [done|done|set_solver].
  - intros H. destruct (IH H) as (l1 & g & l2 & -> & Hg & Hn). exists (f :: l1), g, l2. split_and!; [done|done|].
    intros x [->|?]%elem_of_cons; auto.
Qed.

(** The list order and the recency order agree on files that decide the same key. *)
Lemma all_files_recency v l1 f l2 g k :
  version_ok v -> all_files v = l1 ++ f :: l2 -> g ∈ l2 -> touches f k -> touches g k ->
  g = f \/ newer_than f g = true.
Proof.
  intros Hv Hsplit Hg Htf Htg.
  assert (forall ls i0, (forall i l, ls !! i = Some l -> files_at v (Z.of_nat (i0 + i)) = l) ->
    forall l1 f l2 g, concat ls = l1 ++ f :: l2 -> g ∈ l2 -> touches f k -> touches g k ->
    g = f \/ newer_than f g = true) as Hgen.
  { clear Hsplit Hg Htf Htg l1 l2 f g. induction ls as [|l ls IH]; intros i0 Hls l1 f l2 g Hsplit Hg Htf Htg;
      [by destruct l1|].
    simpl in Hsplit. pose proof (Hls 0%nat l eq_refl) as Hl0. rewrite Nat.add_0_r in Hl0.
    apply app_eq_inv in Hsplit as [(x & El & Er)|(x & El & Er)].
    - destruct x as [|y x].
      + simpl in Er. apply (IH (S i0)) with (l1 := []) (l2 := l2); try done.
        intros i l' Hi. replace (S i0 + i)%nat with (i0 + S i)%nat by lia. by apply (Hls (S i)).
      + simpl in Er. injection Er as <- ->. assert (f ∈ files_at v (Z.of_nat i0)) as Hf
          by (rewrite Hl0, El, elem_of_app, elem_of_cons; auto).
        pose proof (vo_filed _ Hv _ _ Hf) as Ef. apply elem_of_app in Hg as [Hgx|Hgr].
        * assert (g ∈ files_at v (Z.of_nat i0)) as Hgi by (rewrite Hl0, El, elem_of_app, elem_of_cons; auto).
          destruct (decide (i0 = 0%nat)) as [->|Hi0].
          -- pose proof (vo_ordered _ Hv 0) as Ho. unfold level_order in Ho. change (Z.of_nat 0) with 0 in *. simpl in Ho. rewrite Hl0, El in Ho.
             apply StronglySorted_app_1_r in Ho. inversion_clear Ho as [|? ? _ Hfa]. rewrite Forall_forall in Hfa.
             specialize (Hfa g Hgx). unfold newer_first in Hfa. pose proof (vo_filed _ Hv _ _ Hgi) as Eg.
             destruct (decide (file_number g = file_number f)) as [En|Hne]; [left; by eapply (NoDup_fmap_inj file_number _ _ _ (vo_numbers _ Hv 0))|right].
             unfold newer_than. rewrite Ef, Eg. simpl. lia.
          -- left. eapply level_exclusive; [done| |exact Hgi|exact Hf|done|done]. lia.
        * right. apply list_elem_of_In, in_concat in Hgr as (l' & Hl' & Hgl).
          rewrite <- list_elem_of_In in Hl'. rewrite <- list_elem_of_In in Hgl.
          apply list_elem_of_lookup in Hl' as [i Hi]. pose proof (Hls (S i) l' Hi) as Hli. rewrite <- Hli in Hgl.
          apply (vo_filed _ Hv) in Hgl. unfold newer_than. rewrite Ef, Hgl.
          rewrite (proj2 (Z.ltb_lt (Z.of_nat i0) (Z.of_nat (i0 + S i)))) by lia. done.
    - apply (IH (S i0)) with (l1 := x) (l2 := l2); try done.
      intros i l' Hi. replace (S i0 + i)%nat with (i0 + S i)%nat by lia. by apply (Hls (S i)). }
  apply (Hgen (levels_ v) 0%nat) with (l1 := l1) (l2 := l2); try done.
  intros i l Hi. rewrite files_at_level_list by lia. unfold level_list. simpl. by rewrite Nat2Z.id, Hi.
Qed.

(** Reading in order finds the newest file that decides. *)
Lemma resolve_decides v k e : version_ok v -> resolve v k = Some e <-> exists f, decides v k f e.
Proof.
  intros Hv. unfold resolve. split.
  - intros (l1 & f & l2 & Hsplit & Hvf & Hn)%first_verdict_Some. exists f. split_and!; [|done|].
    + rewrite Hsplit, elem_of_app, elem_of_cons. auto.
    + intros g Hg Htg. assert (touches f k) as Htf by (unfold touches; congruence).
      rewrite Hsplit, elem_of_app, elem_of_cons in Hg. destruct Hg as [Hg|[->|Hg]]; [|by left|].
      * exfalso. by apply Htg, Hn.
      * by eapply all_files_recency.
  - intros (f & Hd). destruct (first_verdict (all_files v) k) as [e'|] eqn:E.
    + apply first_verdict_Some in E as (l1 & g & l2 & Hsplit & Hvg & Hn). f_equal. symmetry.
      apply (decides_unique v k f e g e'); [done|]. split_and!; [|done|].
      * rewrite Hsplit, elem_of_app, elem_of_cons. auto.
      * intros h Hh Hth. assert (touches g k) as Htg by (unfold touches; congruence).
        rewrite Hsplit, elem_of_app, elem_of_cons in Hh. destruct Hh as [Hh|[->|Hh]]; [|by left|].
        -- exfalso. by apply Hth, Hn.
        -- by eapply all_files_recency.
    + destruct Hd as (Hf & Hvf & _). rewrite first_verdict_None in E. rewrite (E f Hf) in Hvf. done.
Qed.

Lemma resolve_None v k : resolve v k = None <-> forall f, f ∈ all_files v -> verdict f k = None.
Proof. apply first_verdict_None. Qed.
End Content.

Lemma first_verdict_ssts (content : FileMetadata -> Sst) fs k : first_verdict content fs k = ssts_verdict (map content fs) k.
Proof. induction fs as [|f fs IH]; simpl; [done|]. unfold verdict. by rewrite IH. Qed.

(** ** [get] reads what the files say *)

Section GetProofs.
Context (content : FileMetadata -> Sst).
Context {R : Type} `{ops : SstReaderOps R} (reader_for : FileMetadata -> Result R).

(** Every file of the version can be opened, and its reader answers for its content. *)
Definition readable (v : Version) : Prop :=
  forall f, f ∈ all_files v -> exists r, reader_for f = Value r /\ SstReaderLaws ops r (content f).

Lemma get_file_spec f k r :
  describes f (content f) -> reader_for f = Value r -> SstReaderLaws ops r (content f) ->
  get_file reader_for f k = Value (verdict content f k).
Proof.
  intros Hd Hr Hl. unfold get_file, verdict, sst_verdict, verdict_of. rewrite Hr. simpl.
  destruct (file_may_contain f k) eqn:Eh, (range_may_cover f k) eqn:Ec; simpl;
    rewrite ?law_get, ?law_range_deletes; simpl;
    rewrite ?(may_contain_false f (content f) k Hd Eh), ?(may_cover_false f (content f) k Hd Ec);
    try done; by destruct (assoc k (entries (content f))), (any_covers (ranges (content f)) k).
Qed.

Lemma get_files_spec fs k :
  (forall f, f ∈ fs -> describes f (content f) /\ exists r, reader_for f = Value r /\ SstReaderLaws ops r (content f)) ->
  get_files reader_for fs k = Value (first_verdict content fs k).
Proof.
  induction fs as [|f fs IH]; intros H; simpl; [done|].
  destruct (H f) as (Hd & r & Hr & Hl); [by left|]. rewrite (get_file_spec f k r) by done. simpl.
  destruct (verdict content f k); [done|]. apply IH. intros g Hg. apply H. by right.
Qed.

(** A searchable level is strictly increasing. *)
Lemma level_increasing v lvl :
  version_ok content v -> 0 < lvl -> carries_ranges v lvl = false ->
  StronglySorted (fun a b => largest_key a <k smallest_key b) (files_at v lvl) /\
  Forall (fun f => num_entries f <> 0 /\ smallest_key f <=k largest_key f) (files_at v lvl).
Proof.
  intros Hv Hl Hc. rewrite (vo_carries _ _ Hv) in Hc.
  assert (forall f, f ∈ files_at v lvl -> num_range_tombstones f = 0 /\ num_entries f <> 0 /\ smallest_key f <=k largest_key f) as Hf.
  { intros f Hf. assert (carries_range f = false) as Hr.
    { destruct (carries_range f) eqn:E; [|done]. rewrite <- Hc. symmetry. apply existsb_elem. by exists f. }
    unfold carries_range in Hr. zbool. pose proof (vo_describes _ _ Hv f (in_all _ _ _ Hf)) as Hd.
    assert (num_entries f <> 0) as Hn by (destruct (effective_spec _ _ Hd) as (_ & _ & [[? _]|[? _]] & _); [done|lia]).
    split_and!; [done|done|by eapply describes_data_le]. }
  split; [|rewrite Forall_forall; intros f Hin; by apply Hf].
  pose proof (vo_ordered _ _ Hv lvl) as Ho. unfold level_order in Ho. destruct (Z.eqb_spec lvl 0); [lia|].
  assert (forall a b, a ∈ files_at v lvl -> b ∈ files_at v lvl -> a <> b -> apart a b) as Hap
    by (intros; by eapply (vo_apart _ _ Hv lvl)).
  assert (NoDup (files_at v lvl)) as Hnd by (eapply NoDup_fmap_1, (vo_numbers _ _ Hv lvl)).
  clear Hc Hv. induction Ho as [|a l Ho IH Hfa]; constructor.
  - apply IH; [intros; apply Hf; by right|intros; apply Hap; [by right|by right|done]|by apply NoDup_cons in Hnd as [_ ?]].
  - rewrite Forall_forall in Hfa. rewrite Forall_forall. intros b Hb. apply NoDup_cons in Hnd as [Hnot _].
    destruct (Hf a) as (Ea & Hna & ?); [by left|]. destruct (Hf b) as (Eb & Hnb & ?); [by right|].
    assert (effective_smallest a = smallest_key a /\ effective_smallest b = smallest_key b) as [Esa Esb]
      by (unfold effective_smallest; by rewrite Ea, Eb).
    destruct (Hap a b) as [[H1 _]|[H1 _]]; [by left|by right|by intros ->| |].
    + specialize (H1 Hna). by rewrite <- Esb.
    + specialize (H1 Hnb). rewrite Esa in H1. specialize (Hfa b Hb). unfold by_key in Hfa.
      exfalso. destruct Hfa as [?|[? _]]; key_order.
Qed.

Lemma increasing_monotone fs :
  StronglySorted (fun a b => largest_key a <k smallest_key b) fs ->
  Forall (fun f => num_entries f <> 0 /\ smallest_key f <=k largest_key f) fs -> spans_monotone fs.
Proof.
  induction 1 as [|a l Hs IH Hf]; intros Ha; [constructor|]. apply Forall_cons in Ha as [[_ Ha] Hl].
  constructor; [by apply IH|]. rewrite Forall_forall in *. intros b Hb. specialize (Hf b Hb).
  destruct (Hl b Hb) as [_ ?]. split; key_order.
Qed.

(** What the binary search skips says nothing about the key. *)
Lemma level_window_spec v lvl k :
  version_ok content v ->
  first_verdict content (level_window v lvl k) k = first_verdict content (files_at v lvl) k.
Proof.
  intros Hv. unfold level_window. destruct ((0 <? lvl) && negb (carries_ranges v lvl)) eqn:E; [|done].
  apply andb_true_iff in E as [Hl Hc]. zbool. destruct (level_increasing v lvl Hv Hl Hc) as [Hs Hf].
  set (fs := files_at v lvl) in *. pose proof (increasing_monotone _ Hs Hf) as Hm.
  pose proof (spans_partitioned_largest fs k Hm) as [Hn Hspec]%lower_bound_spec.
  set (n := lower_bound _ fs) in *. unfold slice_files. cbn [fst snd].
  assert (forall f, f ∈ fs -> largest_key f <k k \/ k <k smallest_key f -> verdict content f k = None) as Hnone.
  { intros f Hin Hor. destruct (verdict content f k) eqn:E; [|done]. exfalso.
    pose proof (vo_describes _ _ Hv f (in_all _ _ _ Hin)) as Hd.
    assert (num_range_tombstones f = 0) as Er.
    { rewrite (vo_carries _ _ Hv) in Hc. destruct (Z.eqb_spec (num_range_tombstones f) 0) as [|Hne]; [done|].
      assert (existsb carries_range (files_at v lvl) = true); [|congruence].
      apply existsb_elem. exists f. split; [done|]. unfold carries_range. by apply negb_true_iff, Z.eqb_neq. }
    assert (touches content f k) as Ht by (unfold touches; congruence).
    destruct (verdict_effective _ _ _ Hd Ht) as [H1 H2]. unfold effective_smallest, effective_largest in *.
    rewrite Er in *. simpl in *. destruct Hor; key_order. }
  assert (forall l, (forall f, f ∈ l -> verdict content f k = None) -> first_verdict content l k = None) as Hfv
    by (intros; by apply first_verdict_None).
  rewrite <- (take_drop n fs) at 3. rewrite first_verdict_app, (Hfv (take n fs)).
  2:{ intros f Hin. apply Hnone; [by eapply subseteq_take|left].
      apply elem_of_take in Hin as (i & Hi & Hlt). apply Hspec in Hi. by apply key_ltb_lt, Hi. }
  destruct (drop n fs) as [|f rest] eqn:Ed; [by rewrite take_nil|].
  assert (fs !! n = Some f) as Hfn by (rewrite <- (Nat.add_0_r n), <- lookup_drop, Ed; done).
  pose proof (lookup_lt_Some _ _ _ Hfn). replace (Nat.min (length fs) (n + 1) - n)%nat with 1%nat by lia.
  cbn [take first_verdict]. destruct (verdict content f k); [done|]. symmetry. apply Hfv.
  intros g Hg. apply Hnone.
  { rewrite <- (take_drop n fs), Ed, elem_of_app, elem_of_cons. auto. }
  right. assert (k <=k largest_key f) as Hkf.
  { destruct (largest_key f <?k k) eqn:Ek; [|key_order]. apply (Hspec n f Hfn) in Ek. lia. }
  assert (largest_key f <k smallest_key g); [|key_order].
  rewrite <- (take_drop n fs), Ed in Hs. apply StronglySorted_app_1_r in Hs.
  inversion_clear Hs as [|? ? _ Hfa]. rewrite Forall_forall in Hfa. by apply Hfa.
Qed.

Lemma level_window_subset v lvl k f : f ∈ level_window v lvl k -> f ∈ files_at v lvl.
Proof.
  unfold level_window. case_match; [|done]. unfold slice_files. cbn [fst snd]. intros Hin.
  apply subseteq_take in Hin. rewrite <- (take_drop (lower_bound (fun f => largest_key f <?k k) (files_at v lvl)) (files_at v lvl)).
  apply elem_of_app. by right.
Qed.

Lemma resolve_levels v k :
  version_ok content v ->
  resolve content v k = first_verdict content (concat (map (files_at v) (seqZ 0 (num_levels v)))) k.
Proof.
  intros Hv. unfold resolve, all_files. f_equal. f_equal. unfold num_levels.
  apply list_eq. intros i. change (map (files_at v)) with (fmap (M := list) (files_at v)). rewrite list_lookup_fmap.
  destruct (levels_ v !! i) as [l|] eqn:E.
  - pose proof (lookup_lt_Some _ _ _ E). rewrite lookup_seqZ_lt by lia. cbn [fmap option_fmap option_map].
    rewrite Z.add_0_l, files_at_level_list by lia. unfold level_list. by rewrite Nat2Z.id, E.
  - apply lookup_ge_None in E. by rewrite lookup_seqZ_ge by lia.
Qed.

Lemma get_levels_spec v lvls k :
  version_ok content v -> readable v ->
  get_levels reader_for v lvls k = Value (first_verdict content (concat (map (files_at v) lvls)) k).
Proof.
  intros Hv Hr. induction lvls as [|lvl lvls IH]; simpl; [done|].
  rewrite get_files_spec.
  - simpl. rewrite level_window_spec, first_verdict_app by done.
    by destruct (first_verdict content (files_at v lvl) k).
  - intros f Hf%level_window_subset%in_all. split; [by apply (vo_describes _ _ Hv)|by apply Hr].
Qed.

(** The memtables' part of the answer. *)
Definition mem_verdict (m : gmap bytes Entry * list RangeTombstone) (k : bytes) : option Entry :=
  verdict_of (m.1 !! k) (any_covers m.2 k).

Fixpoint mem_verdicts (ms : list (gmap bytes Entry * list RangeTombstone)) (k : bytes) : option Entry :=
  match ms with
  | [] => None
  | m :: rest => match mem_verdict m k with Some e => Some e | None => mem_verdicts rest k end
  end.

Lemma get_memtables_spec ss ms k : Forall2 models ss ms -> get_memtables ss k = mem_verdicts ms k.
Proof.
  induction 1 as [|s m ss ms Hm _ IH]; simpl; [done|]. unfold get_memtable, mem_verdict, verdict_of.
  destruct (models_reads s m Hm) as (-> & -> & _). rewrite IH. by destruct (m.1 !! k), (any_covers m.2 k).
Qed.

(** The whole of [get]. *)
Lemma db_get_spec ss ms v k :
  version_ok content v -> readable v -> Forall2 models ss ms ->
  db_get reader_for false ss v k =
  if truncated v k then Unexpected NotFound
  else answer_of (match mem_verdicts ms k with Some e => Some e | None => resolve content v k end).
Proof.
  intros Hv Hr Hm. unfold db_get. destruct (truncated v k); [done|]. rewrite (get_memtables_spec _ _ _ Hm).
  destruct (mem_verdicts ms k); [done|]. rewrite get_levels_spec by done. simpl. by rewrite resolve_levels.
Qed.
End GetProofs.

(** ** Properties *)

(** C17: a point read answers what the newest source says. [get] consults the memtables and then the
    files level by level, pruning by the manifest's bounds and by a binary search below L0; on a
    well-formed version its answer is the first memtable verdict or else the verdict of the file that
    outranks every other file with something to say about the key, and a delete is an absence. *)
Theorem get_reads_newest {R} (ops : SstReaderOps R) (content : FileMetadata -> Sst)
    (reader_for : FileMetadata -> Result R) ss ms v k :
  version_ok content v -> readable content reader_for v -> Forall2 models ss ms ->
  db_get reader_for false ss v k =
    (if truncated v k then Unexpected NotFound
     else answer_of (match mem_verdicts ms k with Some e => Some e | None => resolve content v k end)) /\
  (forall e, resolve content v k = Some e <-> exists f, decides content v k f e).
Proof. intros Hv Hr Hm. split; [by apply db_get_spec|]. intros e. by apply resolve_decides. Qed.
