(* ===== verification/ReadPath.v ===== *)
(** * From a file of a version to a reader

    [DbImpl::reader_for], [classify_read_failure] and [refresh] of [src/db/db_impl.cpp]: how a read gets at a file,
    and what an object that is missing is called. A key that is absent is answered [NotFound]; an object that is
    absent must never be. *)

From S2P Require Import Prelude Slice Format Framing Footer Bloom Block Crypto Names ManifestPayload Watermark VersionEdit Version Budget ReaderCache Memtable Merging Sst SstFile SstFileProofs Lsm.

Section Readers.
Context {R C : Type} (memory_bytes : R -> Z) (max_bytes : Z).
(* the store of an id, whether losing it is survivable, the cipher of a file, and [SstReader::open] through it *)
Context (store_known : bytes -> bool) (discardable : bytes -> bool) (cipher_for : FileMetadata -> Result C)
        (open_reader : FileMetadata -> C -> Result R).

(** The readers that are open, and whether the instance was marked unusable. *)
Record ReadState := { rs_readers : SstReaderCache (R := R); rs_unusable : bool }.

(** [reader_for]; [advanced] is what [manifest_has_advanced] answers. *)
Definition reader_for (read_only advanced : bool) (f : FileMetadata) (s : ReadState) : Result R * ReadState :=
  let '(resident, c) := ReaderCache.reader_get (file_number f) (rs_readers s) in
  let s := {| rs_readers := c; rs_unusable := rs_unusable s |} in
  match resident with
  | Some r => (Value r, s)
  | None =>
      if negb (store_known (store_id f)) then (Unexpected Corrupt, s)
      else
        match cipher_for f with
        | Unexpected e => (Unexpected e, s)
        | Value cipher =>
            match open_reader f cipher with
            | Value r =>
                let '(r, c) := reader_insert memory_bytes max_bytes (file_number f) r c in
                (Value r, {| rs_readers := c; rs_unusable := rs_unusable s |})
            | Unexpected NotFound =>
                if read_only && advanced then (Unexpected Stale, s)
                else (Unexpected (if discardable (store_id f) then Unusable else Corrupt), {| rs_readers := c; rs_unusable := true |})
            | Unexpected e => (Unexpected e, s)
            end
        end
  end.

(** An object that is missing is never a key that is missing: it is [Stale] on an instance the writer has left
    behind, and otherwise terminal, with the instance marked unusable. *)
Lemma missing_object_is_no_missing_key read_only advanced f s :
  (forall e, cipher_for f = Unexpected e -> e <> NotFound) ->
  (reader_for read_only advanced f s).1 <> Unexpected NotFound.
Proof.
  intros Hc. unfold reader_for. destruct (ReaderCache.reader_get _ _) as [[r|] c]; [done|]. destruct (store_known _); [|done]. cbn [negb].
  destruct (cipher_for f) as [cipher|e]; [|intros [= ->]; by apply (Hc NotFound)]. destruct (open_reader f cipher) as [r|e]; [by destruct (reader_insert _ _ _ _ _)|].
  destruct e; try done. destruct (read_only && advanced); [done|]. by destruct (discardable _).
Qed.

Lemma vanished_object_marks_unusable advanced f s cipher :
  (ReaderCache.reader_get (file_number f) (rs_readers s)).1 = None -> store_known (store_id f) = true -> cipher_for f = Value cipher ->
  open_reader f cipher = Unexpected NotFound ->
  let '(r, s') := reader_for false advanced f s in
  r = Unexpected (if discardable (store_id f) then Unusable else Corrupt) /\ rs_unusable s' = true.
Proof. intros Hr Hs Hc Ho. unfold reader_for. destruct (ReaderCache.reader_get _ _) as [o c]. cbn [fst] in Hr. by rewrite Hr, Hs, Hc, Ho. Qed.
End Readers.

(** ** Failures past the reader *)

(** [classify_read_failure]. *)
Definition classify_read_failure (read_only advanced : bool) (status : Status) : Status :=
  if negb read_only then status
  else match status with NotFound | Corrupt => if advanced then Stale else status | _ => status end.

Definition classified {A} (read_only advanced : bool) (r : Result A) : Result A :=
  match r with Value a => Value a | Unexpected s => Unexpected (classify_read_failure read_only advanced s) end.

(** The reader as [get] sees it: what its lookups fail with is relabelled. *)
Definition classified_reader {R} (ops : SstReaderOps R) (read_only advanced : bool) : SstReaderOps R :=
  {| sr_get r k := classified read_only advanced (sr_get r k);
     sr_range_deletes r k := classified read_only advanced (sr_range_deletes r k);
     sr_range_tombstones r := sr_range_tombstones r; sr_entries r := sr_entries r |}.

(** Relabelling changes no answer, only errors; a reader that keeps its contract keeps it. *)
#[export] Instance classified_laws {R} (ops : SstReaderOps R) read_only advanced r c :
  SstReaderLaws ops r c -> SstReaderLaws (classified_reader ops read_only advanced) r c.
Proof. intros [H1 H2 H3 H4]. split; simpl; [intros k; by rewrite H1|intros k; by rewrite H2|done|done]. Qed.

(** On an instance that is behind, neither a missing nor a damaged object is reported as such. *)
Lemma behind_is_stale {A} (r : Result A) s : classified true true r = Unexpected s -> s <> NotFound /\ s <> Corrupt.
Proof. destruct r as [a|e]; [done|]. intros [= <-]. by destruct e. Qed.

(** [refresh]: [recovered] is what [VersionSet::recover] answers. *)
Definition refresh_status (unusable read_only : bool) (recovered : Status) : Status :=
  if unusable then Unusable else if negb read_only then Ok else recovered.

(** ** An object that vanishes under a resident reader *)

(** A store that has lost the object. *)
Definition vanished : BlobStore := {| get_sync := fun _ _ => Unexpected NotFound; authority_get := None; cache_get := fun _ => None |}.

Section Vanished.
Context {codec : CodecOps}.

Lemma vanished_fetch file_size h max : (bh_length h <? kBlockTrailerLength) || negb (handle_fits h file_size) = false ->
  0 < bh_length h -> fetch_content (store := vanished) file_size h [] max = Unexpected NotFound.
Proof. intros H Hl. unfold fetch_content. rewrite H. change (zlen []) with 0. by replace (0 =? bh_length h) with false by lia. Qed.

(** The lookup reports what the filter's fetch failed with: [NotFound], as for a key that is not there. Only the data
    block's failure is relabelled. *)
Lemma vanished_filter_leaks r k : let h := f_filter (rd_footer r) in
  (bh_length h <? kBlockTrailerLength) || negb (handle_fits h (rd_file_size r)) = false -> 0 < bh_length h ->
  sr_get (SstReaderOps := sst_reader_ops (store := vanished)) r k = Unexpected NotFound.
Proof. intros h H Hl. cbn [sr_get sst_reader_ops]. unfold reader_get, reader_filter. by rewrite vanished_fetch. Qed.
End Vanished.

(** A file of four entries, its reader, and a version that lists it. *)
Definition sample_bytes : bytes :=
  match build_sst_bytes (codec := copy_codec) sample_options sample_entries false sample_ranges with Value f => f | Unexpected _ => [] end.

Definition opened_sample : Result SstReader := sst_open (codec := copy_codec) (store := object_store sample_bytes) (zlen sample_bytes) 24.

Definition listed_sample : FileMetadata :=
  {| level := 0; file_number := 1; store_id := [x73]; smallest_key := [x61]; largest_key := [x62]; file_bytes := zlen sample_bytes;
     num_entries := 4; num_tombstones := 1; num_range_tombstones := 2; smallest_range_key := [x61]; largest_range_key := [x71];
     compression := NoCompression; min_write_time_ms := 0; max_write_time_ms := 0; watermark := {| low := None; high := None |};
     encryption_provider := []; encryption_metadata := [] |}.

(** The reader is resident and its filter not loaded yet, as after a scan; then the object is lost. While it was there
    [get] answered the value; now it answers that the key is absent, and the instance is not marked. *)
Lemma vanished_object_reads_as_absent : let v := make_version [[listed_sample]] 2 ∅ [] None in
  let resident (_ : FileMetadata) := opened_sample in
  let ask store k := db_get (ops := sst_reader_ops (codec := copy_codec) (store := store)) resident false [] v k in
  ask (object_store sample_bytes) [x61; x62; x63] = Value [x32] /\
  ask vanished [x61; x62; x63] = Unexpected NotFound /\
  ask (object_store sample_bytes) [x61; x63] = Unexpected NotFound.
Proof. vm_compute. repeat split; reflexivity. Qed.
