(* ===== verification/Invariants.v ===== *)
(** * The self-check of a store

    [DbImpl::check_invariants] of [src/db/db_impl.cpp]: every file of the current version is in the store it is
    recorded on, holds as many entries as recorded, from the recorded first to the recorded last key, and a level
    below 0 does not overlap. What it accepts, and what it wrongly rejects. *)

From S2P Require Import Prelude Slice Format Framing Names Watermark VersionEdit Version Blob Memtable Merging Sst Lsm.

Inductive Invariant : Type := NoInvariant | StoreMissing | ObjectMissing | EntryCount | KeyRange | LevelOverlap.

Section Check.
Context {S St R : Type} {blob : BlobStore S} `{ops : SstReaderOps R}.
(* [reader_for], which keeps the readers it opens *)
Context (reader_for : FileMetadata -> St -> Result R * St).

(** One [list] a store. *)
Fixpoint list_each (stores : list (bytes * S)) : Result (list (bytes * list bytes)) * list (bytes * S) :=
  match stores with
  | [] => (Value [], [])
  | (id, s) :: rest =>
      let '(names, s) := bs_list [] s in
      match names with
      | Unexpected e => (Unexpected e, (id, s) :: rest)
      | Value names =>
          let '(listings, rest) := list_each rest in
          ((let? l := listings in Value ((id, names) :: l)), (id, s) :: rest)
      end
  end.

Definition listing_of (listings : list (bytes * list bytes)) (id : bytes) : option (list bytes) :=
  snd <$> List.find (fun l => slice_eqb l.1 id) listings.

(** The checks of one file: [None] where it passes, or the status and which invariant; [previous] is the file before
    it at the level. *)
Definition check_file (listings : list (bytes * list bytes)) (lvl : Z) (previous : option FileMetadata) (f : FileMetadata) (st : St)
  : option (Status * Invariant) * St :=
  match listing_of listings (store_id f) with
  | None => (Some (Corrupt, StoreMissing), st)
  | Some names =>
      if negb (bool_decide (sst_object_name (file_number f) ∈ names)) then (Some (Corrupt, ObjectMissing), st)
      else
        let '(reader, st) := reader_for f st in
        match reader with
        | Unexpected e => (Some (e, NoInvariant), st)
        | Value r =>
            match sr_entries r with
            | Unexpected e => (Some (e, NoInvariant), st)
            | Value kvs =>
                if negb (u64 (Z.of_nat (length kvs)) =? num_entries f) then (Some (Corrupt, EntryCount), st)
                else if match head kvs, last kvs with
                        | Some first, Some last => negb (slice_eqb first.1 (smallest_key f)) || negb (slice_eqb last.1 (largest_key f))
                        | _, _ => false
                        end then (Some (Corrupt, KeyRange), st)
                else
                  match previous with
                  | Some p => if (0 <? lvl) && negb (largest_key p <?k smallest_key f) then (Some (Corrupt, LevelOverlap), st) else (None, st)
                  | None => (None, st)
                  end
            end
        end
  end.

Fixpoint check_level (listings : list (bytes * list bytes)) (lvl : Z) (previous : option FileMetadata) (files : list FileMetadata) (st : St)
  : option (Status * Invariant) * St :=
  match files with
  | [] => (None, st)
  | f :: rest =>
      let '(answer, st) := check_file listings lvl previous f st in
      match answer with None => check_level listings lvl (Some f) rest st | _ => (answer, st) end
  end.

Fixpoint check_levels (listings : list (bytes * list bytes)) (v : Version) (levels : list Z) (st : St) : option (Status * Invariant) * St :=
  match levels with
  | [] => (None, st)
  | lvl :: rest =>
      let '(answer, st) := check_level listings lvl None (files_at v lvl) st in
      match answer with None => check_levels listings v rest st | _ => (answer, st) end
  end.

(** [check_invariants]: [None] is [Ok]. *)
Definition check_invariants (v : Version) (stores : list (bytes * S)) (st : St) : option (Status * Invariant) * (list (bytes * S) * St) :=
  let '(listings, stores) := list_each stores in
  match listings with
  | Unexpected e => (Some (e, NoInvariant), (stores, st))
  | Value listings => let '(answer, st) := check_levels listings v (seqZ 0 (num_levels v)) st in (answer, (stores, st))
  end.

(** ** What it means to pass *)

Context {ok : S -> Prop} {objects : S -> bytes -> option bytes} {laws : BlobStoreLaws blob ok objects}.

Lemma list_each_spec stores : forall listings stores', Forall (fun p => ok p.2) stores -> list_each stores = (Value listings, stores') ->
  Forall2 (fun p l => l.1 = p.1 /\ forall n, n ∈ l.2 <-> objects p.2 n <> None) stores listings.
Proof using laws.
  induction stores as [|[id s] stores IH]; intros listings stores' Hok; cbn [list_each]; [by intros [= <- _]; constructor|].
  apply Forall_cons in Hok as [Hs Hok]. destruct (bs_list [] s) as [[names|e] s1] eqn:E; [|done]. destruct (list_each stores) as [[l|e] rest] eqn:Er; [|done].
  intros [= <- _]. constructor; [|by eapply IH]. split; [done|]. intros n. cbn [snd]. rewrite (law_list_ok _ _ _ _ Hs E n). split; [by intros [? _]|]. intros H. split; [done|]. by destruct n.
Qed.

Lemma listing_found stores listings id names : Forall2 (fun p l => l.1 = p.1 /\ forall n, n ∈ l.2 <-> objects p.2 n <> None) stores listings ->
  listing_of listings id = Some names -> exists s, (id, s) ∈ stores /\ forall n, n ∈ names <-> objects s n <> None.
Proof.
  intros H. unfold listing_of. induction H as [|[i s] [j ns] stores listings [Hj Hn] _ IH]; [done|]. cbn [List.find fst]. destruct (slice_eqb j id) eqn:E.
  - intros [= <-]. apply slice_eqb_eq in E. cbn [fst snd] in *. subst. exists s. split; [by left|done].
  - intros Hf. destruct (IH Hf) as (s' & Hs & Hn'). exists s'. split; [by right|done].
Qed.

(** What is true of a file that passed. *)
Definition checked (stores : list (bytes * S)) (f : FileMetadata) : Prop :=
  (exists s, (store_id f, s) ∈ stores /\ objects s (sst_object_name (file_number f)) <> None) /\
  exists r st st' kvs, reader_for f st = (Value r, st') /\ sr_entries r = Value kvs /\ num_entries f = u64 (Z.of_nat (length kvs)) /\
    (forall kv, head kvs = Some kv -> smallest_key f = kv.1) /\ (forall kv, last kvs = Some kv -> largest_key f = kv.1).

Lemma check_file_spec stores listings lvl previous f st st' :
  Forall2 (fun p l => l.1 = p.1 /\ forall n, n ∈ l.2 <-> objects p.2 n <> None) stores listings ->
  check_file listings lvl previous f st = (None, st') ->
  checked stores f /\ (forall p, previous = Some p -> 0 < lvl -> largest_key p <k smallest_key f).
Proof.
  intros Hl. unfold check_file. destruct (listing_of listings (store_id f)) as [names|] eqn:El; [|done]. case_bool_decide as Hin; [|done]. cbn [negb].
  destruct (reader_for f st) as [[r|e] st1] eqn:Er; [|done]. destruct (sr_entries r) as [kvs|e] eqn:Ee; [|done].
  destruct (Z.eqb_spec (u64 (Z.of_nat (length kvs))) (num_entries f)) as [En|]; [|done]. cbn [negb].
  destruct (match head kvs with Some _ => _ | None => _ end) eqn:Ek; [done|]. intros Hp. split.
  - split; [destruct (listing_found _ _ _ _ Hl El) as (s & Hs & Hn); exists s; split; [done|by apply Hn]|]. exists r, st, st1, kvs. split_and!; try done.
    + intros kv Hh. rewrite Hh in Ek. destruct (last kvs) as [kv'|] eqn:Ela; [|apply last_None in Ela; by subst].
      apply orb_false_iff in Ek as [Ek _]. apply negb_false_iff, slice_eqb_eq in Ek. done.
    + intros kv Hh. rewrite Hh in Ek. destruct (head kvs) as [kv'|] eqn:Ehe; [|by destruct kvs]. apply orb_false_iff in Ek as [_ Ek]. apply negb_false_iff, slice_eqb_eq in Ek. done.
  - intros p -> Hlvl. replace (0 <? lvl) with true in Hp by lia. destruct (largest_key p <?k smallest_key f) eqn:E; [by apply key_ltb_lt|done].
Qed.

(** Neighbours at a level. *)
Fixpoint apart_from (previous : option FileMetadata) (files : list FileMetadata) : Prop :=
  match files with
  | [] => True
  | f :: rest => (forall p, previous = Some p -> largest_key p <k smallest_key f) /\ apart_from (Some f) rest
  end.

Lemma check_level_spec stores listings lvl : Forall2 (fun p l => l.1 = p.1 /\ forall n, n ∈ l.2 <-> objects p.2 n <> None) stores listings ->
  forall files previous st st', check_level listings lvl previous files st = (None, st') ->
  (forall f, f ∈ files -> checked stores f) /\ (0 < lvl -> apart_from previous files).
Proof.
  intros Hl. induction files as [|f files IH]; intros previous st st'; cbn [check_level]; [intros _; split; [by intros f ?%elem_of_nil|done]|].
  destruct (check_file listings lvl previous f st) as [[a|] st1] eqn:E; [done|]. intros H.
  destruct (check_file_spec _ _ _ _ _ _ _ Hl E) as [H1 H2]. destruct (IH _ _ _ H) as [H3 H4].
  split; [intros g [->|Hg]%elem_of_cons; [done|by apply H3]|]. intros Hlvl. split; [intros p Hp; by apply H2|by apply H4].
Qed.

Lemma check_levels_spec stores listings v : Forall2 (fun p l => l.1 = p.1 /\ forall n, n ∈ l.2 <-> objects p.2 n <> None) stores listings ->
  forall levels st st', check_levels listings v levels st = (None, st') ->
  forall lvl, lvl ∈ levels -> (forall f, f ∈ files_at v lvl -> checked stores f) /\ (0 < lvl -> apart_from None (files_at v lvl)).
Proof.
  intros Hl. induction levels as [|l levels IH]; intros st st'; cbn [check_levels]; [by intros _ lvl ?%elem_of_nil|].
  destruct (check_level listings l None (files_at v l) st) as [[a|] st1] eqn:E; [done|]. intros H lvl [->|Hin]%elem_of_cons; [by eapply check_level_spec|by eapply IH].
Qed.

(** A store that passes: every file of the version has its object on the store it is recorded on, and reads as it is
    recorded; neighbours below level 0 do not overlap. *)
Theorem check_invariants_sound v stores st rest : Forall (fun p => ok p.2) stores ->
  check_invariants v stores st = (None, rest) ->
  (forall f, f ∈ all_files v -> checked stores f) /\ (forall lvl, 0 < lvl -> apart_from None (files_at v lvl)).
Proof using laws.
  intros Hok. unfold check_invariants. destruct (list_each stores) as [[listings|e] stores'] eqn:El; [|done].
  pose proof (list_each_spec stores listings stores' Hok El) as Hl. destruct (check_levels listings v (seqZ 0 (num_levels v)) st) as [[a|] st'] eqn:Ec; [done|]. intros _.
  pose proof (check_levels_spec stores listings v Hl _ _ _ Ec) as H.
  assert (forall lvl f, f ∈ files_at v lvl -> lvl ∈ seqZ 0 (num_levels v)) as Hin.
  { intros lvl f. unfold files_at. destruct ((lvl <? 0) || _) eqn:E; [by intros ?%elem_of_nil|]. intros _. apply elem_of_seqZ. lia. }
  split.
  - intros f [lvl Hf]%elem_of_all_files. by apply (H lvl (Hin lvl f Hf)).
  - intros lvl Hlvl. destruct (files_at v lvl) as [|f fs] eqn:Ef; [done|]. rewrite <- Ef. apply (H lvl); [|done]. apply (Hin lvl f). rewrite Ef. by left.
Qed.

(** ** What passes *)

Context (content : FileMetadata -> Sst).
Context (reads : forall f st, exists r st', reader_for f st = (Value r, st') /\ SstReaderLaws ops r (content f)).

Lemma effective_below f : num_entries f <> 0 -> effective_smallest f <=k smallest_key f.
Proof. intros Hn. unfold effective_smallest. destruct (num_range_tombstones f =? 0); [key_order|]. replace (num_entries f =? 0) with false by lia. destruct (key_min_spec (smallest_key f) (smallest_range_key f)); key_order. Qed.

Lemma neighbours_apart v lvl : version_ok content v -> 0 < lvl -> (forall f, f ∈ files_at v lvl -> num_entries f <> 0) ->
  apart_from None (files_at v lvl).
Proof.
  intros Hv Hlvl Hdata. pose proof (vo_ordered _ _ Hv lvl) as Hs. unfold level_order in Hs. replace (lvl =? 0) with false in Hs by lia.
  assert (forall p a, (forall x, p = Some x -> x ∈ files_at v lvl /\ a = x) -> forall fs, (forall f, f ∈ fs -> f ∈ files_at v lvl) ->
    NoDup (file_number <$> (option_list p ++ fs)) -> StronglySorted by_key (option_list p ++ fs) -> apart_from p fs) as H.
  { intros p a Hp fs. revert p a Hp. induction fs as [|f fs IH]; intros p a Hp Hin Hnd Hso; [done|]. split.
    - intros x ->. destruct (Hp x eq_refl) as [Hx ->]. simpl in Hnd, Hso. apply NoDup_cons in Hnd as [Hne _]. apply StronglySorted_inv in Hso as [_ Hso]. apply Forall_cons in Hso as [Hxf _].
      assert (f ∈ files_at v lvl) as Hf by (apply Hin; by left).
      assert (x <> f) as Hd by (intros ->; apply Hne; by left).
      pose proof (effective_below x (Hdata x Hx)). pose proof (effective_below f (Hdata f Hf)).
      pose proof (describes_data_le x _ (vo_describes _ _ Hv x (in_all _ _ _ Hx)) (Hdata x Hx)). pose proof (describes_data_le f _ (vo_describes _ _ Hv f (in_all _ _ _ Hf)) (Hdata f Hf)).
      destruct (vo_apart _ _ Hv lvl x f Hlvl Hx Hf Hd) as [[Hpr _]|[Hpr _]]; [specialize (Hpr (Hdata x Hx)); key_order|].
      specialize (Hpr (Hdata f Hf)). exfalso. destruct Hxf as [Hxf|[Hxf _]]; [key_order|]. rewrite Hxf in *. key_order.
    - apply (IH (Some f) f); [intros y [= <-]; split; [apply Hin; by left|done]|intros g Hg; apply Hin; by right| |].
      + destruct p as [x|]; simpl in *; [by apply NoDup_cons in Hnd as [_ ?]|done].
      + destruct p as [x|]; simpl in *; [by apply StronglySorted_inv in Hso as [? _]|done]. }
  apply (H None (sample_file 0 [] [])); [done|done|apply (vo_numbers _ _ Hv)|done].
Qed.

Lemma check_file_passes listings lvl previous f st names : listing_of listings (store_id f) = Some names -> sst_object_name (file_number f) ∈ names ->
  describes f (content f) -> num_entries f < 2 ^ 64 -> (forall p, previous = Some p -> 0 < lvl -> largest_key p <k smallest_key f) ->
  exists st', check_file listings lvl previous f st = (None, st').
Proof using reads.
  intros Hl Hn Hd Hs Hp. unfold check_file. rewrite Hl. rewrite bool_decide_eq_true_2 by done. cbn [negb]. destruct (reads f st) as (r & st1 & -> & Hr).
  rewrite (law_entries (SstReaderLaws := Hr)). rewrite (d_entries _ _ Hd) in Hs. rewrite u64_small by (unfold is_u64; lia). rewrite (d_entries _ _ Hd), Z.eqb_refl. cbn [negb].
  assert (match head (entries (content f)), last (entries (content f)) with
    | Some first, Some last => negb (slice_eqb first.1 (smallest_key f)) || negb (slice_eqb last.1 (largest_key f)) | _, _ => false end = false) as ->.
  { destruct (head (entries (content f))) as [a|] eqn:Ea; [|done]. destruct (last (entries (content f))) as [b|] eqn:Eb; [|done].
    rewrite (d_first _ _ Hd a Ea), (d_last _ _ Hd b Eb). by rewrite !(proj2 (slice_eqb_eq _ _) eq_refl). }
  destruct previous as [p|]; [|by eauto]. destruct (0 <? lvl) eqn:El; [|by eauto]. specialize (Hp p eq_refl ltac:(lia)). apply key_ltb_lt in Hp. rewrite Hp. by eauto.
Qed.

(** A well-formed version passes, when its objects are there and every file below level 0 has entries. *)
Theorem check_invariants_accepts v stores st listings stores' :
  version_ok content v -> Forall (fun p => ok p.2) stores -> list_each stores = (Value listings, stores') ->
  (forall f, f ∈ all_files v -> num_entries f < 2 ^ 64 /\ (0 < level f -> num_entries f <> 0) /\
     exists names, listing_of listings (store_id f) = Some names /\ sst_object_name (file_number f) ∈ names) ->
  exists st', check_invariants v stores st = (None, (stores', st')).
Proof using reads.
  intros Hv Hok El Hf. unfold check_invariants. rewrite El.
  assert (forall lvl, forall fs previous st, (forall f, f ∈ fs -> f ∈ files_at v lvl) -> (0 < lvl -> apart_from previous fs) ->
    exists st', check_level listings lvl previous fs st = (None, st')) as Hlevel.
  { intros lvl. induction fs as [|f fs IH]; intros previous st0 Hin Ha; cbn [check_level]; [by eauto|].
    assert (f ∈ all_files v) as Hall by (eapply in_all, Hin; by left). destruct (Hf f Hall) as (Hs & _ & names & Hl & Hn).
    destruct (check_file_passes listings lvl previous f st0 names Hl Hn (vo_describes _ _ Hv f Hall) Hs) as [st1 ->]; [intros p Hp Hlvl; by apply (Ha Hlvl)|].
    apply IH; [intros g Hg; apply Hin; by right|]. intros Hlvl. by apply (Ha Hlvl). }
  assert (forall levels st, exists st', check_levels listings v levels st = (None, st')) as Hlevels.
  { induction levels as [|lvl levels IH]; intros st0; cbn [check_levels]; [by eauto|].
    destruct (Hlevel lvl (files_at v lvl) None st0) as [st1 ->]; [done| |apply IH]. intros Hlvl. apply neighbours_apart; [done|done|].
    intros f Hin. apply (Hf f (in_all _ _ _ Hin)). by rewrite (vo_filed _ _ Hv lvl f Hin). }
  destruct (Hlevels (seqZ 0 (num_levels v)) st) as [st' ->]. by exists st'.
Qed.
End Check.

(** ** What is wrongly rejected *)

(** A file at level 1 that deletes [lo, up) and holds no entry. *)
Definition range_only (number : Z) (lo up : bytes) : FileMetadata :=
  {| level := 1; file_number := number; store_id := [x73]; smallest_key := []; largest_key := []; file_bytes := 100;
     num_entries := 0; num_tombstones := 0; num_range_tombstones := 1; smallest_range_key := lo; largest_range_key := up;
     compression := NoCompression; min_write_time_ms := 0; max_write_time_ms := 0; watermark := {| low := None; high := None |};
     encryption_provider := []; encryption_metadata := [] |}.

Definition two_ranges : Version := make_version [[]; [range_only 1 [x61] [x62]; range_only 2 [x63] [x64]]] 3 ∅ [] None.

Definition range_content (f : FileMetadata) : Sst := {| entries := []; ranges := [mkRange (smallest_range_key f) (largest_range_key f)] |}.

(** The version is well formed and each file is as recorded; the check reports an overlap, since both have empty data
    bounds and the empty key is not below itself. *)
Theorem range_only_neighbours_rejected :
  version_ok range_content two_ranges /\
  (check_level (R := Sst) (fun f (st : unit) => (Value (range_content f), st)) [([x73], [sst_object_name 1; sst_object_name 2])] 1 None (files_at two_ranges 1) tt).1 = Some (Corrupt, LevelOverlap).
Proof.
  split; [|vm_compute; reflexivity].
  assert (forall lvl f, f ∈ files_at two_ranges lvl -> lvl = 1 /\ (f = range_only 1 [x61] [x62] \/ f = range_only 2 [x63] [x64])) as Hin.
  { intros lvl f. destruct (decide (lvl = 1)) as [->|Hne]; [intros [->|[->|[]%elem_of_nil]%elem_of_cons]%elem_of_cons; by auto|].
    unfold files_at. destruct ((lvl <? 0) || (num_levels two_ranges <=? lvl)) eqn:E; [by intros ?%elem_of_nil|].
    change (num_levels two_ranges) with 2 in E. assert (lvl = 0) as -> by lia. by intros ?%elem_of_nil. }
  assert (forall f, f ∈ all_files two_ranges -> f = range_only 1 [x61] [x62] \/ f = range_only 2 [x63] [x64]) as Hall by (intros f [lvl Hf]%elem_of_all_files; by apply (Hin lvl)).
  split.
  - intros lvl f Hf. by destruct (Hin lvl f Hf) as [-> [->| ->]].
  - intros lvl. destruct (files_at two_ranges lvl) as [|f fs] eqn:E; [constructor|]. destruct (Hin lvl f) as [-> _]; [rewrite E; by left|]. rewrite <- E.
    constructor; [repeat constructor|]. constructor; [|constructor]. right. split; [done|]. simpl. lia.
  - intros f Hf. assert (canonical (ranges (range_content f))) as Hc by (destruct (Hall f Hf) as [->| ->]; split; repeat constructor; vm_compute; reflexivity).
    destruct (Hall f Hf) as [->| ->]; (split; [constructor|done|done|done|by intros _ kv ?%elem_of_nil|done|done|done|by intros r [= <-]|by intros r [= <-]|by right]).
  - intros lvl a b _ Ha Hb Hne. destruct (Hin lvl a Ha) as [_ [->| ->]], (Hin lvl b Hb) as [_ [->| ->]]; try done; [left|right]; split; try done; intros _; vm_compute; congruence.
  - intros lvl. destruct (files_at two_ranges lvl) as [|f fs] eqn:E; [constructor|]. destruct (Hin lvl f) as [-> _]; [rewrite E; by left|]. rewrite <- E. apply (bool_decide_unpack _). by vm_compute.
  - intros f g Hf Hg. by destruct (Hall f Hf) as [->| ->], (Hall g Hg) as [->| ->].
  - intros lvl. apply carries_ranges_make.
Qed.
