(* ===== verification/Scan.v ===== *)
(** * Scans

    The iterators of the public interface: [MergingIterator] of [src/compact/merging_iterator.cpp] over
    children that can fail, [DbIterator], [ErrorIterator] and [make_iterator] of [src/db/db_impl.cpp],
    and the entry points built on them. [Merging] has the same merge over children that are plain lists;
    here a child is an [InternalIterator] and that model is what the merge refines.

    Every loop takes its bound from one fuel argument; a bound above the number of entries in the sources
    is enough. The memtables do not change while a scan runs. *)

From S2P Require Import Prelude Slice Format Framing Watermark VersionEdit Version Memtable Merging Sst Iterators Concat Lsm.

(** ** The merge *)

Section MergeIterators.
Context {It : Type} `{InternalIterator It} (reverse_ : bool).

Definition entry_key (it : It) : option bytes := fst <$> it_entry it.

(** The direction of the scan: the comparison that picks, and the move. *)
Definition better_ : bytes -> bytes -> bool := if reverse_ then backward else forward.
Definition it_step (it : It) : It := if reverse_ then it_prev it else it_next it.

Record MergeIter := { mi_children : list It; mi_carriers : list Carrier; mi_current : option nat }.

Definition mi_at (m : MergeIter) (children : list It) (current : option nat) : MergeIter :=
  {| mi_children := children; mi_carriers := mi_carriers m; mi_current := current |}.

Definition mi_pick_step (children : list It) (current : option nat) (ic : nat * It) : option nat :=
  match entry_key ic.2 with
  | None => current
  | Some k =>
      match current with
      | None => Some ic.1
      | Some j =>
          match children !! j ≫= entry_key with
          | Some kj => if better_ k kj then Some ic.1 else current
          | None => current
          end
      end
  end.

Definition mi_pick_raw (children : list It) : option nat :=
  fold_left (mi_pick_step children) (imap pair children) None.

Definition mi_step (children : list It) (current : nat) : list It :=
  match children !! current ≫= entry_key with
  | None => children
  | Some key =>
      imap (fun i c =>
              if Nat.eqb i current then it_step c
              else match entry_key c with
                   | Some k => if slice_eqb k key then it_step c else c
                   | None => c
                   end) children
  end.

Definition mi_shadowed (carriers : list Carrier) (children : list It) (current : nat) : bool :=
  match children !! current ≫= entry_key with
  | Some key => shadowed_loop carriers current key
  | None => false
  end.

Fixpoint mi_pick (fuel : nat) (carriers : list Carrier) (children : list It) : list It * option nat :=
  match mi_pick_raw children with
  | None => (children, None)
  | Some cur =>
      if mi_shadowed carriers children cur then
        match fuel with
        | O => (children, None)
        | S fuel' => mi_pick fuel' carriers (mi_step children cur)
        end
      else (children, Some cur)
  end.

Definition mi_repick (fuel : nat) (m : MergeIter) (children : list It) : MergeIter :=
  let '(children, current) := mi_pick fuel (mi_carriers m) children in mi_at m children current.

(** [next] and [prev]. *)
Definition mi_advance (fuel : nat) (m : MergeIter) : MergeIter :=
  match mi_current m with
  | None => m
  | Some cur => mi_repick fuel m (mi_step (mi_children m) cur)
  end.

Definition mi_entry (m : MergeIter) : option KV := mi_current m ≫= fun cur => mi_children m !! cur ≫= it_entry.

(** [status]: the first child that failed. *)
Definition mi_status (m : MergeIter) : Status :=
  match List.find (fun c => negb (bool_decide (it_status c = Ok))) (mi_children m) with
  | Some c => it_status c
  | None => Ok
  end.

Definition make_merging_iterator (children : list It) (child_ranges : list (list RangeTombstone)) : MergeIter :=
  {| mi_children := children; mi_carriers := make_carriers child_ranges; mi_current := None |}.
End MergeIterators.
Arguments MergeIter : clear implicits.

(** ** [DbIterator] *)

Section DbIter.
Context {It : Type} `{InternalIterator It}.

Record DbIterator := {
  di_merged : MergeIter It;
  di_lower : bytes;
  di_upper : bytes;
  di_has_upper : bool;
  di_reverse : bool;
  di_started : bool
}.

Definition di_at (d : DbIterator) (m : MergeIter It) : DbIterator :=
  {| di_merged := m; di_lower := di_lower d; di_upper := di_upper d; di_has_upper := di_has_upper d;
     di_reverse := di_reverse d; di_started := true |}.

(** [start]: where the scan begins, in either direction. *)
Definition di_start (fuel : nat) (d : DbIterator) : DbIterator :=
  let m := di_merged d in
  let repick := mi_repick (di_reverse d) fuel m in
  if negb (di_reverse d) then
    if bool_decide (di_lower d = []) then di_at d (repick (map it_seek_to_first (mi_children m)))
    else di_at d (repick (map (it_seek (di_lower d)) (mi_children m)))
  else if negb (di_has_upper d) then di_at d (repick (map it_seek_to_last (mi_children m)))
  else
    let m := repick (map (it_seek_for_prev (di_upper d)) (mi_children m)) in
    match mi_entry m with
    | Some kv => if negb (kv.1 <?k di_upper d) then di_at d (mi_advance (di_reverse d) fuel m) else di_at d m
    | None => di_at d m
    end.

Definition di_step (fuel : nat) (d : DbIterator) : DbIterator := di_at d (mi_advance (di_reverse d) fuel (di_merged d)).

Definition out_of_range (d : DbIterator) (key : bytes) : bool :=
  if di_reverse d then key <?k di_lower d else di_has_upper d && negb (key <?k di_upper d).

(** The [while] of [next]: deletions are skipped, the end of the range ends the scan. *)
Fixpoint skip_deletes (n fuel : nat) (d : DbIterator) : bool * DbIterator :=
  match mi_entry (di_merged d) with
  | None => (false, d)
  | Some (key, (type, _)) =>
      if out_of_range d key then (false, d)
      else if negb (is_delete type) then (true, d)
      else match n with O => (false, d) | S n' => skip_deletes n' fuel (di_step fuel d) end
  end.

Definition di_next (fuel : nat) (d : DbIterator) : bool * DbIterator :=
  let d :=
    if negb (di_started d) then di_start fuel d
    else match mi_entry (di_merged d) with Some _ => di_step fuel d | None => d end in
  skip_deletes fuel fuel d.

Definition di_key (d : DbIterator) : option bytes := fst <$> mi_entry (di_merged d).
Definition di_value (d : DbIterator) : option bytes := (fun kv => kv.2.2) <$> mi_entry (di_merged d).
Definition di_status (d : DbIterator) : Status := mi_status (di_merged d).

(** A caller's loop: [while (it.next())], collecting key and value. *)
Fixpoint scan (n fuel : nat) (d : DbIterator) : list (bytes * bytes) * DbIterator :=
  match n with
  | O => ([], d)
  | S n' =>
      let '(more, d) := di_next fuel d in
      if negb more then ([], d)
      else
        let '(rest, last) := scan n' fuel d in
        match mi_entry (di_merged d) with
        | Some kv => ((kv.1, kv.2.2) :: rest, last)
        | None => (rest, last)
        end
  end.
End DbIter.
Arguments DbIterator : clear implicits.

(** ** [make_iterator] *)

Section MakeIterator.
Context {R It : Type} `{rops : SstReaderOps R} `{ops : SstScanOps R It} (reader_for : FileMetadata -> Result R).

(** The sources a scan merges. *)
Inductive Child :=
  | MemtableChild (it : SkiplistIterator)
  | FileChild (it : It)
  | LevelChild (it : ConcatIterator It)
  | ErrorChild (it : ErrorIterator).

#[local] Existing Instance concat_iterator_ops.

Definition on_child (fm : SkiplistIterator -> SkiplistIterator) (ff : It -> It)
    (fl : ConcatIterator It -> ConcatIterator It) (fe : ErrorIterator -> ErrorIterator) (c : Child) : Child :=
  match c with
  | MemtableChild it => MemtableChild (fm it)
  | FileChild it => FileChild (ff it)
  | LevelChild it => LevelChild (fl it)
  | ErrorChild it => ErrorChild (fe it)
  end.

#[export] Instance child_ops : InternalIterator Child := {
  it_entry c := match c with
                | MemtableChild it => it_entry it
                | FileChild it => it_entry it
                | LevelChild it => cc_entry it
                | ErrorChild it => it_entry it
                end;
  it_status c := match c with
                 | MemtableChild it => it_status it
                 | FileChild it => it_status it
                 | LevelChild it => cc_final_status it
                 | ErrorChild it => it_status it
                 end;
  it_seek_to_first := on_child it_seek_to_first it_seek_to_first (cc_seek_to_first reader_for) it_seek_to_first;
  it_seek_to_last := on_child it_seek_to_last it_seek_to_last (cc_seek_to_last reader_for) it_seek_to_last;
  it_seek t := on_child (it_seek t) (it_seek t) (cc_seek reader_for t) (it_seek t);
  it_seek_for_prev t :=
    on_child (it_seek_for_prev t) (it_seek_for_prev t) (cc_seek_for_prev reader_for t) (it_seek_for_prev t);
  it_next := on_child it_next it_next (cc_next reader_for) it_next;
  it_prev := on_child it_prev it_prev (cc_prev reader_for) it_prev
}.

Definition memtable_child (reverse : bool) (m : SkiplistMemtable) : Child * list RangeTombstone :=
  let it := {| sk_table := m; sk_node := None |} in
  (MemtableChild (if reverse then it_seek_to_last it else it_seek_to_first it), range_tombstones m).

Definition file_child (classify : Status -> Status) (file : FileMetadata) : Child * list RangeTombstone :=
  match reader_for file with
  | Unexpected e => (ErrorChild {| ei_status := e |}, [])
  | Value reader =>
      match sr_range_tombstones reader with
      | Unexpected e => (ErrorChild {| ei_status := classify e |}, [])
      | Value ranges => (FileChild (sr_iterator reader), ranges)
      end
  end.

Definition level_children (classify : Status -> Status) (v : Version) (lower upper : bytes) (lvl : Z)
  : list (Child * list RangeTombstone) :=
  if (0 <? lvl) && negb (carries_ranges v lvl) then
    let '(begin_, end_) := overlapping_index_range v lvl lower upper in
    if (begin_ <? end_)%nat then [(LevelChild (make_concat_iterator (files_at v lvl) (begin_, end_)), [])] else []
  else map (file_child classify) (overlapping_half_open v lvl lower upper).

(** The truncation point raises the lower bound. *)
Definition clamped_lower (v : Version) (lower : bytes) : bytes :=
  if negb (bool_decide (truncation_point_ v = [])) && (bool_decide (lower = []) || (lower <?k truncation_point_ v))
  then truncation_point_ v else lower.

Definition make_iterator (blocked : bool) (classify : Status -> Status) (memtables : list SkiplistMemtable) (v : Version)
    (lower upper : bytes) (has_upper reverse : bool) : DbIterator Child :=
  if blocked then
    {| di_merged := make_merging_iterator [ErrorChild {| ei_status := RecoveryRequired |}] []; di_lower := []; di_upper := [];
       di_has_upper := false; di_reverse := reverse; di_started := false |}
  else
    let lower := clamped_lower v lower in
    let children := map (memtable_child reverse) memtables ++
                    concat (map (level_children classify v lower upper) (seqZ 0 (num_levels v))) in
    {| di_merged := make_merging_iterator (map fst children) (map snd children); di_lower := lower; di_upper := upper;
       di_has_upper := has_upper; di_reverse := reverse; di_started := false |}.
End MakeIterator.
Arguments Child : clear implicits.

(** ** The entry points *)

Section EntryPoints.
Context {R It : Type} `{rops : SstReaderOps R} `{ops : SstScanOps R It} (reader_for : FileMetadata -> Result R).
Context (blocked : bool) (classify : Status -> Status) (memtables : list SkiplistMemtable) (v : Version).

Let make := make_iterator reader_for blocked classify memtables v.

(** [iterator] and [reverse_iterator], by the bounds they are given. *)
Definition iterator_all (reverse : bool) : DbIterator (Child It) := make [] [] false reverse.
Definition iterator_from (reverse : bool) (lower : bytes) : DbIterator (Child It) := make lower [] false reverse.
Definition iterator_between (reverse : bool) (lower upper : bytes) : DbIterator (Child It) := make lower upper true reverse.

(** [prefix_iterator] and [reverse_prefix_iterator]. *)
Definition prefix_iterator (reverse : bool) (prefix : bytes) : DbIterator (Child It) :=
  match prefix_upper_bound prefix with
  | Some upper => make prefix upper true reverse
  | None => make prefix [] false reverse
  end.
End EntryPoints.
