(* ===== verification/ScanProofs.v ===== *)
(** * Scans yield what point reads answer

    The proof that [make_iterator] and [DbIterator] ([Scan]) yield, in either direction, exactly the keys
    of the range that [get] finds, each with the value [get] answers; and that a scan whose status is
    [Ok] at the end missed nothing, whatever files failed to open or to read. *)

From S2P Require Import Prelude Slice Format Framing Watermark VersionEdit Version Memtable Merging Sst Iterators Concat Lsm Scan.

#[export] Instance better_direction reverse_ : Direction (better_ reverse_).
Proof. unfold better_. destruct reverse_; apply _. Qed.

(** ** What a child has left *)

Section Views.
Context (reverse_ : bool).
Local Abbreviation better := (better_ reverse_).

(** The entries of a source in the order of the scan. *)
Definition view (kvs : list KV) : list KV := if reverse_ then rev kvs else kvs.

Lemma view_sorted kvs : key_sorted kvs -> sorted_kvs better (view kvs).
Proof.
  intros Hs. unfold view, sorted_kvs, better_. destruct reverse_; [apply StronglySorted_rev in Hs|];
    (induction Hs as [|a l Hs IH Hf]; constructor; [done|]); eapply Forall_impl; [exact Hf| |exact Hf|];
    intros b Hb; simpl in Hb; unfold backward, forward; key_order.
Qed.

Lemma view_elem kvs kv : kv ∈ view kvs <-> kv ∈ kvs.
Proof. unfold view. destruct reverse_; [|done]. by rewrite !list_elem_of_In, <- in_rev. Qed.

(** From an entry on. *)
Definition rest_from (l : list KV) (o : option KV) : list KV :=
  match o with Some kv => List.filter (fun x => negb (better x.1 kv.1)) l | None => [] end.

Lemma sorted_middle pre kv post : sorted_kvs better (pre ++ kv :: post) ->
  (forall x, x ∈ pre -> better x.1 kv.1 = true) /\ (forall x, x ∈ post -> better kv.1 x.1 = true).
Proof.
  intros (Hx & _ & [_ Hp]%StronglySorted_inv)%StronglySorted_app. rewrite Forall_forall in Hp.
  split; [|done]. intros x Hin. apply (Hx x kv); [done|by left].
Qed.

Lemma rest_split pre kv post : sorted_kvs better (pre ++ kv :: post) ->
  rest_from (pre ++ kv :: post) (Some kv) = kv :: post /\
  List.filter (fun x => better kv.1 x.1) (pre ++ kv :: post) = post.
Proof.
  intros Hs. destruct (sorted_middle _ _ _ Hs) as [Hpre Hpost]. unfold rest_from. rewrite !List.filter_app. cbn [List.filter].
  rewrite better_irrefl. cbn [negb].
  rewrite (filter_none _ pre), (filter_all _ post), (filter_none (fun x => better kv.1 x.1) pre), (filter_all _ post); [done|done| | |].
  - intros x Hx. by apply better_asym; [apply _|apply Hpre].
  - intros x Hx. by rewrite (better_asym _ _ _ (Hpost x Hx)).
  - intros x Hx. by rewrite (Hpre x Hx).
Qed.

(** Where a test that stays true lands. *)
Lemma rest_start (p : bytes -> bool) l : sorted_kvs better l ->
  (forall a b, p a = true -> better a b = true -> p b = true) ->
  rest_from l (head (List.filter (fun kv => p kv.1) l)) = List.filter (fun kv => p kv.1) l.
Proof.
  intros Hs Hp. destruct (List.filter (fun kv => p kv.1) l) as [|kv r] eqn:E; [done|]. change (head (kv :: r)) with (Some kv).
  assert (kv ∈ List.filter (fun kv => p kv.1) l) as Hkv by (rewrite E; by left).
  apply elem_of_filter_bool in Hkv as [Hin Hpk]. apply list_elem_of_split in Hin as (pre & post & ->).
  destruct (rest_split _ _ _ Hs) as [-> _]. destruct (sorted_middle _ _ _ Hs) as [Hpre Hpost].
  rewrite List.filter_app in E. cbn [List.filter] in E. rewrite Hpk in E.
  rewrite (filter_all _ post) in E by (intros x Hx; by eapply Hp, Hpost). destruct (List.filter _ pre) as [|y r'] eqn:Ep; [by simplify_eq/=|].
  simplify_eq/=. assert (kv ∈ List.filter (fun kv => p kv.1) pre) as [Hbad _]%elem_of_filter_bool by (rewrite Ep; by left).
  specialize (Hpre _ Hbad). by rewrite better_irrefl in Hpre.
Qed.

Context {It : Type} `{InternalIterator It} (may_fail : Prop).

Record Source := {
  src_kvs : list KV;
  src_on : It -> option KV -> Prop;
  src_walks : walks may_fail src_kvs src_on;
  src_sorted : key_sorted src_kvs
}.

(** The iterator of a source with [rem] left to yield. *)
Definition tracks (s : Source) (it : It) (rem : list KV) : Prop :=
  exists o, src_on s it o /\ (forall kv, o = Some kv -> kv ∈ view (src_kvs s)) /\ rem = rest_from (view (src_kvs s)) o.

Definition tracked (it : It) (rem : list KV) : Prop := exists s, tracks s it rem.

Lemma tracked_entry it rem : tracked it rem -> it_entry it = head rem /\ it_status it = Ok /\ sorted_kvs better rem.
Proof.
  intros (s & o & Hon & Hin & ->). destruct (wk_entry _ _ _ (src_walks s) _ _ Hon) as [-> ->].
  pose proof (view_sorted _ (src_sorted s)) as Hs. destruct o as [kv|]; [|by split; [|split; [|constructor]]].
  specialize (Hin kv eq_refl). apply list_elem_of_split in Hin as (pre & post & E). rewrite E in *.
  destruct (rest_split _ _ _ Hs) as [-> _]. apply StronglySorted_app in Hs as (_ & _ & Hs). done.
Qed.

(** A move lands on what follows. *)
Lemma step_lands (s : Source) it kv : src_on s it (Some kv) ->
  lands may_fail (src_on s) (it_step reverse_ it) (head (List.filter (fun x => better kv.1 x.1) (view (src_kvs s)))).
Proof.
  intros Hon. unfold it_step, better_, view. destruct reverse_.
  - pose proof (wk_prev _ _ _ (src_walks s) _ _ Hon) as Hl. rewrite last_such_rev in Hl. exact Hl.
  - exact (wk_next _ _ _ (src_walks s) _ _ Hon).
Qed.

Lemma tracked_step it kv rem : tracked it (kv :: rem) -> tracked (it_step reverse_ it) rem \/ (may_fail /\ broken (it_step reverse_ it)).
Proof.
  intros (s & o & Hon & Hin & E). destruct o as [kv'|]; [|done]. specialize (Hin kv' eq_refl).
  pose proof (view_sorted _ (src_sorted s)) as Hs. apply list_elem_of_split in Hin as (pre & post & Ev). rewrite Ev in E, Hs.
  destruct (rest_split _ _ _ Hs) as [Er En]. rewrite Er in E. injection E as -> ->.
  destruct (step_lands s it kv' Hon) as [Hl|Hb]; [left|by right]. rewrite Ev, En in Hl.
  exists s, (head post). split; [done|]. rewrite Ev. split.
  - intros x Hx%head_in. rewrite elem_of_app, elem_of_cons. auto.
  - destruct post as [|x post]; [done|]. change (head (x :: post)) with (Some x). 
    assert (pre ++ kv' :: x :: post = (pre ++ [kv']) ++ x :: post) as Ea by (by rewrite <- app_assoc).
    rewrite Ea in *. by rewrite (proj1 (rest_split _ _ _ Hs)).
Qed.

(** Positioning a source. *)
Lemma start_tracked (s : Source) it' p : (forall a b, p a = true -> better a b = true -> p b = true) ->
  lands may_fail (src_on s) it' (head (List.filter (fun kv => p kv.1) (view (src_kvs s)))) ->
  tracked it' (List.filter (fun kv => p kv.1) (view (src_kvs s))) \/ (may_fail /\ broken it').
Proof.
  intros Hp [Hl|Hb]; [left|by right]. exists s. eexists. split; [exact Hl|]. split.
  - intros kv [Hk _]%head_in%elem_of_filter_bool. done.
  - symmetry. apply rest_start; [by apply view_sorted, src_sorted|done].
Qed.
End Views.

(** ** The merge over iterators refines the merge over lists *)

Section Streams.
Context (reverse_ : bool) {It : Type} `{InternalIterator It} (may_fail : Prop) (fuel : nat).
Local Abbreviation better := (better_ reverse_).
Local Abbreviation tracked := (tracked reverse_ may_fail).

(** Some child has failed. *)
Definition failed (children : list It) : Prop := may_fail /\ Exists broken children.

Lemma tracked_key it rem : tracked it rem -> entry_key it = head_key rem.
Proof. intros (He & _)%tracked_entry. unfold entry_key, head_key. by rewrite He. Qed.

Lemma lookup_keys children rems j : Forall2 tracked children rems ->
  (children !! j ≫= entry_key) = (rems !! j ≫= head_key).
Proof.
  intros HF. destruct (children !! j) as [c|] eqn:E.
  - destruct (Forall2_lookup_l _ _ _ _ _ HF E) as (rem & -> & Ht). simpl. by apply tracked_key.
  - rewrite (proj2 (lookup_ge_None rems j)); [done|]. apply lookup_ge_None in E. by rewrite <- (Forall2_length _ _ _ HF).
Qed.

Lemma fold_imap_rel {A B C} (P : A -> B -> Prop) (f : C -> nat * A -> C) (g : C -> nat * B -> C) l1 l2 n acc :
  Forall2 P l1 l2 -> (forall acc i x y, P x y -> f acc (i, x) = g acc (i, y)) ->
  fold_left f (imap (fun i x => ((n + i)%nat, x)) l1) acc = fold_left g (imap (fun i x => ((n + i)%nat, x)) l2) acc.
Proof.
  intros HF Hfg. revert n acc. induction HF as [|x y l1 l2 Hxy HF IH]; intros n acc; simpl; [done|].
  rewrite (Hfg _ _ x y Hxy). rewrite (imap_ext _ (fun i x => ((S n + i)%nat, x)) l1), (imap_ext _ (fun i x => ((S n + i)%nat, x)) l2).
  - apply IH.
  - intros i z _. simpl. f_equal. lia.
  - intros i z _. simpl. f_equal. lia.
Qed.

Lemma pick_raw_refines children rems : Forall2 tracked children rems -> mi_pick_raw reverse_ children = pick_raw better rems.
Proof.
  intros HF. unfold mi_pick_raw, pick_raw. apply (fold_imap_rel tracked _ _ children rems 0 None HF).
  intros acc i c rem Ht. unfold mi_pick_step, pick_step. cbn [fst snd]. rewrite (tracked_key _ _ Ht).
  destruct (head_key rem); [|done]. destruct acc as [j|]; [|done]. by rewrite (lookup_keys _ _ _ HF).
Qed.

Lemma shadowed_refines carriers children rems cur : Forall2 tracked children rems ->
  mi_shadowed carriers children cur = shadowed carriers rems cur.
Proof. intros HF. unfold mi_shadowed, shadowed. by rewrite (lookup_keys _ _ _ HF). Qed.

Lemma Forall2_or_Exists {A B} (P : A -> B -> Prop) (Q : A -> Prop) l1 l2 :
  Forall2 (fun a b => P a b \/ Q a) l1 l2 -> Forall2 P l1 l2 \/ Exists Q l1.
Proof.
  induction 1 as [|a b l1 l2 [Hp|Hq] _ IH]; [by left| |right; by constructor].
  destruct IH; [left; by constructor|right; by constructor 2].
Qed.

Lemma step_refines children rems cur : Forall2 tracked children rems ->
  Forall2 tracked (mi_step reverse_ children cur) (step rems cur) \/ failed (mi_step reverse_ children cur).
Proof.
  intros HF. unfold mi_step, step. rewrite (lookup_keys _ _ cur HF). destruct (rems !! cur ≫= head_key) as [key|] eqn:Ek; [|by left].
  set (f := fun i c => _). set (g := fun i c => _).
  assert (Forall2 (fun c rem => tracked c rem \/ (may_fail /\ broken c)) (imap f children) (imap g rems)) as HF'.
  { apply Forall2_same_length_lookup. split; [by rewrite !length_imap, (Forall2_length _ _ _ HF)|].
    intros i c' rem' Hc Hr. apply list_lookup_imap_Some in Hc as (c & Hc & ->). apply list_lookup_imap_Some in Hr as (rem & Hr & ->).
    pose proof (Forall2_lookup_lr _ _ _ _ _ _ HF Hc Hr) as Ht. unfold f, g. rewrite (tracked_key _ _ Ht). destruct (Nat.eqb_spec i cur) as [->|Hne].
    - rewrite Hr in Ek. simpl in Ek. destruct rem as [|kv rem]; [done|]. by apply tracked_step with (kv := kv).
    - destruct (head_key rem) as [k|] eqn:Eh; [|by left]. destruct (slice_eqb k key); [|by left]. destruct rem as [|kv rem]; [done|].
      by apply tracked_step with (kv := kv). }
  destruct (Forall2_or_Exists _ _ _ _ HF') as [?|Hex]; [by left|right]. rewrite Exists_exists in Hex.
  destruct Hex as (c & Hc & Hm & Hb). split; [done|]. apply Exists_exists. by exists c.
Qed.

(** A failed child stays where it is. *)
Lemma step_failed children cur : failed children -> failed (mi_step reverse_ children cur).
Proof.
  intros [Hm (c & Hc & Hb)%Exists_exists]. split; [done|]. unfold mi_step. destruct (children !! cur ≫= entry_key) as [key|] eqn:Ek.
  - apply list_elem_of_lookup in Hc as [i Hi]. apply Exists_exists. exists c. split; [|done].
    apply (list_elem_of_lookup_2 _ i). rewrite list_lookup_imap, Hi. simpl.
    assert (entry_key c = None) as Hnone by (unfold entry_key; by rewrite (proj1 Hb)). rewrite Hnone.
    destruct (Nat.eqb_spec i cur) as [->|]; [|done]. rewrite Hi in Ek. simpl in Ek. congruence.
  - apply Exists_exists. by exists c.
Qed.

Lemma pick_failed n carriers children : failed children -> failed (mi_pick reverse_ n carriers children).1.
Proof.
  revert children. induction n as [|n IH]; intros children Hf; cbn [mi_pick]; destruct (mi_pick_raw _ _) as [cur|]; try done;
    destruct (mi_shadowed _ _ _); try done. by apply IH, step_failed.
Qed.

(** What a merge has left to yield, unless a child has failed. *)
Inductive streams : MergeIter It -> list KV -> Prop :=
  | streams_failed m out : failed (mi_children m) -> streams m out
  | streams_end m : mi_entry m = None -> mi_status m = Ok -> streams m []
  | streams_next m kv out : mi_entry m = Some kv -> mi_status m = Ok ->
      streams (mi_advance reverse_ fuel m) out -> streams m (kv :: out).

Lemma tracked_status m rems : Forall2 tracked (mi_children m) rems -> mi_status m = Ok.
Proof.
  intros HF. unfold mi_status. destruct (List.find _ _) as [c|] eqn:E; [|done]. apply List.find_some in E as [Hc Hs].
  apply list_elem_of_In, list_elem_of_lookup in Hc as [i Hi]. destruct (Forall2_lookup_l _ _ _ _ _ HF Hi) as (rem & _ & Ht).
  destruct (tracked_entry _ _ _ _ Ht) as (_ & -> & _). done.
Qed.

Context (crs : list (list RangeTombstone)) (canonical_ranges : Forall canonical crs).

Lemma tracked_sorted children rems : Forall2 tracked children rems -> sorted_children better rems.
Proof.
  intros HF. unfold sorted_children. apply Forall_forall. intros rem [i Hi]%list_elem_of_lookup.
  destruct (Forall2_lookup_r _ _ _ _ _ HF Hi) as (c & _ & Ht). by apply (tracked_entry _ _ _ _ Ht).
Qed.

(** After picking, the merge yields for every key what the newest child with something to say says. *)
Lemma pick_streams n : forall f children rems m, (remaining rems <= n)%nat -> (remaining rems <= f)%nat -> (remaining rems <= fuel)%nat ->
  Forall2 tracked children rems -> mi_carriers m = make_carriers crs ->
  exists out, yields better crs rems out /\
    streams (let '(ch, cur) := mi_pick reverse_ f (make_carriers crs) children in mi_at m ch cur) out.
Proof.
  induction n as [n IH] using lt_wf_ind. intros f children rems m Hn Hf Hfuel HF Hm. pose proof (tracked_sorted _ _ HF) as Hs.
  pose proof (pick_landed better crs canonical_ranges rems) as Hp.
  assert (forall cur k0 e0, landed better rems cur k0 e0 -> (remaining (step rems cur) < remaining rems)%nat) as Hdec.
  { intros cur k0 e0 Hl. rewrite (step_advance _ _ _ _ _ Hl). by apply (remaining_step better _ _ _ _ Hs Hl). }
  destruct f as [|f]; cbn [mi_pick]; rewrite (pick_raw_refines _ _ HF); destruct (pick_raw better rems) as [cur|].
  - destruct Hp as (k0 & e0 & Hl & _). specialize (Hdec _ _ _ Hl). lia.
  - exists []. split; [exact (yields_nil better crs canonical_ranges rems Hp)|]. apply streams_end; [done|]. by eapply tracked_status.
  - destruct Hp as (k0 & e0 & Hl & Esh). specialize (Hdec _ _ _ Hl). rewrite (shadowed_refines _ _ _ _ HF), Esh.
    pose proof (step_advance _ _ _ _ _ Hl) as Est. pose proof (step_refines _ _ cur HF) as Hst.
    destruct (range_shadowed crs cur k0) eqn:Er.
    + destruct Hst as [HF'|Hbad].
      * destruct (IH (remaining (step rems cur)) ltac:(lia) f (mi_step reverse_ children cur) (step rems cur) m ltac:(lia) ltac:(lia) ltac:(lia) HF' Hm) as (out & Hy & Hstr).
        exists out. split; [|done]. rewrite Est in Hy. exact (yields_skip better _ _ _ _ _ _ Hs Hl Er Hy).
      * exists (drain better (make_carriers crs) rems). split; [exact (drain_yields better crs canonical_ranges rems Hs)|]. apply streams_failed.
        pose proof (pick_failed f (make_carriers crs) _ Hbad) as Hb. by destruct (mi_pick _ _ _ _).
    + assert (exists out, yields better crs (step rems cur) out /\
                streams (mi_advance reverse_ fuel (mi_at m children (Some cur))) out) as (out & Hy & Hstr).
      { unfold mi_advance. simpl mi_current. cbv iota. simpl mi_children. unfold mi_repick. simpl mi_carriers. rewrite Hm.
        destruct Hst as [HF'|Hbad].
        - destruct (IH (remaining (step rems cur)) ltac:(lia) fuel (mi_step reverse_ children cur) (step rems cur) (mi_at m children (Some cur)) ltac:(lia) ltac:(lia) ltac:(lia) HF' Hm)
            as (out & Hy & Hstr). by exists out.
        - exists (drain better (make_carriers crs) (step rems cur)). split.
          + apply (drain_yields better crs canonical_ranges). rewrite Est. by apply (sorted_advance better _ _ _ _ Hs Hl).
          + apply streams_failed. pose proof (pick_failed fuel (make_carriers crs) _ Hbad) as Hb. by destruct (mi_pick _ _ _ _). }
      exists ((k0, e0) :: out). split; [rewrite Est in Hy; exact (yields_cons better _ _ _ _ _ _ Hs Hl Er Hy)|].
      apply streams_next; [|by eapply tracked_status|done]. unfold mi_entry. simpl.
      destruct Hl as [(rest & Hcur) _]. destruct (Forall2_lookup_r _ _ _ _ _ HF Hcur) as (c & Hc & Ht). rewrite Hc. simpl.
      by rewrite (proj1 (tracked_entry _ _ _ _ Ht)).
  - exists []. split; [exact (yields_nil better crs canonical_ranges rems Hp)|]. apply streams_end; [done|]. by eapply tracked_status.
Qed.
End Streams.

(** ** [DbIterator] *)

(** What a scan makes of the entries the merge yields: deletions are skipped, the bound ends it. *)
Fixpoint visible (stop : bytes -> bool) (out : list KV) : list (bytes * bytes) :=
  match out with
  | [] => []
  | (k, (type, value)) :: out' =>
      if stop k then [] else if is_delete type then visible stop out' else (k, value) :: visible stop out'
  end.

Section DbScan.
Context {It : Type} `{InternalIterator It} (may_fail : Prop) (fuel : nat).

Definition di_failed (d : DbIterator It) : Prop := failed may_fail (mi_children (di_merged d)).

Lemma failed_status m : failed may_fail (mi_children m) -> mi_status (It := It) m <> Ok.
Proof.
  intros [_ (c & Hc & Hb)%Exists_exists]. unfold mi_status. destruct (List.find _ _) as [c'|] eqn:E.
  - apply List.find_some in E as [_ Hs]. intros E. by rewrite E in Hs.
  - apply list_elem_of_In in Hc. pose proof (List.find_none _ _ E c Hc) as Hn. simpl in Hn.
    rewrite negb_false_iff, bool_decide_eq_true in Hn. by destruct Hb.
Qed.

Lemma advance_failed reverse_ m : failed may_fail (mi_children m) -> failed may_fail (mi_children (mi_advance reverse_ fuel m)).
Proof.
  intros Hf. unfold mi_advance. destruct (mi_current m) as [cur|]; [|done]. unfold mi_repick.
  pose proof (pick_failed reverse_ may_fail fuel (mi_carriers m) _ (step_failed reverse_ may_fail _ cur Hf)) as Hp. by destruct (mi_pick _ _ _ _).
Qed.

Lemma skip_failed n d : di_failed d -> di_failed (skip_deletes n fuel d).2.
Proof.
  revert d. induction n as [|n IH]; intros d Hf; cbn [skip_deletes]; destruct (mi_entry (di_merged d)) as [[k [t v]]|]; try done;
    destruct (out_of_range d k); try done; destruct (negb (is_delete t)); try done. apply IH. by apply advance_failed.
Qed.

Lemma next_failed d : di_started d = true -> di_failed d -> di_failed (di_next fuel d).2.
Proof.
  intros Hs Hf. unfold di_next. rewrite Hs. cbn [negb]. apply skip_failed. destruct (mi_entry _); [|done]. by apply advance_failed.
Qed.

(** What a scan keeps from call to call. *)
Definition same_scan (d d' : DbIterator It) : Prop :=
  di_lower d' = di_lower d /\ di_upper d' = di_upper d /\ di_has_upper d' = di_has_upper d /\ di_reverse d' = di_reverse d.

Lemma same_out_of_range d d' k : same_scan d d' -> out_of_range d' k = out_of_range d k.
Proof. intros (El & Eu & Eh & Er). unfold out_of_range. by rewrite El, Eu, Eh, Er. Qed.

Lemma skip_started n d : di_started d = true ->
  di_started (skip_deletes n fuel d).2 = true /\ same_scan d (skip_deletes n fuel d).2.
Proof.
  revert d. induction n as [|n IH]; intros d Hs; cbn [skip_deletes]; destruct (mi_entry (di_merged d)) as [[k [t v]]|]; try done;
    destruct (out_of_range d k); try done; destruct (negb (is_delete t)); try done. destruct (IH (di_step fuel d) eq_refl) as [? Hsame]. done.
Qed.

Local Abbreviation streams_of d := (streams (di_reverse d) may_fail fuel (di_merged d)).

(** One call of [next], once the merge is positioned. *)
Lemma skip_spec n d out : streams_of d out -> (length out <= n)%nat -> di_started d = true ->
  let '(more, d') := skip_deletes n fuel d in
  di_failed d' \/
  (di_status d' = Ok /\
   match visible (out_of_range d) out with
   | [] => more = false
   | (k, v) :: vs => more = true /\ exists out', streams_of d' ((k, (Put, v)) :: out') /\ mi_entry (di_merged d') = Some (k, (Put, v)) /\
                     visible (out_of_range d) out' = vs /\ (length out' < length out)%nat
   end).
Proof.
  revert d out. induction n as [|n IH]; intros d out Hst Hn Hs.
  - inversion Hst as [m out' Hf E1 E2|m He Hok E1 E2|m kv out' He Hok Hst' E1 E2]; subst; simpl in Hn; [| |lia].
    + pose proof (skip_failed 0 d Hf) as Hsk. destruct (skip_deletes 0 fuel d). by left.
    + cbn [skip_deletes]. rewrite He. cbv iota. by right.
  - inversion Hst as [m out' Hf E1 E2|m He Hok E1 E2|m kv out' He Hok Hst' E1 E2]; subst.
    + pose proof (skip_failed (S n) d Hf) as Hsk. destruct (skip_deletes (S n) fuel d). by left.
    + cbn [skip_deletes]. rewrite He. cbv iota. by right.
    + cbn [skip_deletes]. rewrite He. destruct kv as [k [t v]]. cbn [visible length] in *. destruct (out_of_range d k); [cbv iota; by right|].
      destruct t; cbn [is_delete negb]; [|cbv iota; right; split; [done|]; split; [done|]; exists out'; split_and!; [done|done|done|lia]].
      specialize (IH (di_step fuel d) out' Hst' ltac:(lia) eq_refl). destruct (skip_deletes n fuel (di_step fuel d)) as [more d'].
      destruct IH as [Hf|[Hok' IH]]; [by left|right]. split; [done|]. change (out_of_range (di_step fuel d)) with (out_of_range d) in IH.
      destruct (visible (out_of_range d) out') as [|[k1 v1] vs]; [done|]. destruct IH as [-> (o & H1 & H2 & H3 & H4)].
      split; [done|]. exists o. split_and!; [done|done|done|lia].
Qed.

Lemma scan_failed n d : di_started d = true -> di_failed d -> di_failed (scan n fuel d).2.
Proof.
  revert d. induction n as [|n IH]; intros d Hs Hf; cbn [scan]; [done|]. pose proof (next_failed d Hs Hf) as Hn.
  assert (di_started (di_next fuel d).2 = true) as Hs'.
  { unfold di_next. rewrite Hs. cbn [negb]. apply skip_started. by destruct (mi_entry _). }
  destruct (di_next fuel d) as [[] d'] eqn:E; cbn [negb snd] in *; [|done]. specialize (IH d' Hs' Hn).
  destruct (scan n fuel d') as [rest last]. by destruct (mi_entry (di_merged d')).
Qed.

(** The whole loop. [d1] is where the first call of [next] starts to look. *)
Lemma scan_spec n d d1 out : di_next fuel d = skip_deletes fuel fuel d1 -> streams_of d1 out -> di_started d1 = true ->
  (length out < n)%nat -> (length out <= fuel)%nat ->
  let '(found, last) := scan n fuel d in
  di_failed last \/ (found = visible (out_of_range d1) out /\ di_status last = Ok).
Proof.
  revert d d1 out. induction n as [|n IH]; intros d d1 out En Hst Hs Hn Hf; [lia|]. cbn [scan]. rewrite En.
  pose proof (skip_spec fuel d1 out Hst Hf Hs) as Hsk. destruct (skip_started fuel d1 Hs) as [Hs' Hsame].
  destruct (skip_deletes fuel fuel d1) as [more d'] eqn:E. cbn [snd] in *. destruct Hsk as [Hbad|[Hok Hsk]].
  - destruct more; cbn [negb]; [|by left]. pose proof (scan_failed n d' Hs' Hbad) as Hl.
    destruct (scan n fuel d') as [rest last]. destruct (mi_entry (di_merged d')); by left.
  - destruct (visible (out_of_range d1) out) as [|[k v] vs]; [subst; simpl; by right|].
    destruct Hsk as (-> & out' & Hst' & He & Hv & Hlt). cbn [negb].
    assert (out_of_range d' = out_of_range d1) as Eor.
    { destruct Hsame as (El & Eu & Eh & Er). unfold out_of_range. by rewrite El, Eu, Eh, Er. }
    inversion Hst' as [m o Hbad E1 E2|m He' Hok' E1 E2|m kv o He' Hok' Hst'' E1 E2]; subst.
    + pose proof (scan_failed n d' Hs' Hbad) as Hl. destruct (scan n fuel d') as [rest last]. rewrite He. by left.
    + specialize (IH d' (di_step fuel d') out'). destruct (scan n fuel d') as [rest last]. rewrite He.
      destruct IH as [?|[-> ?]]; [|done|done|lia|lia|by left|right].
      * unfold di_next. by rewrite Hs', He.
      * split; [|done]. change (out_of_range (di_step fuel d')) with (out_of_range d'). by rewrite Eor.
Qed.
End DbScan.

(** ** Where a scan starts *)

Section Elements.
Context (better : bytes -> bytes -> bool) `{!Direction better}.

Lemma sorted_assoc l k e : sorted_kvs better l -> assoc k l = Some e <-> (k, e) ∈ l.
Proof.
  induction 1 as [|[k' e'] l Hs IH Hf]; simpl; [set_solver|]. rewrite Forall_forall in Hf. rewrite elem_of_cons.
  destruct (slice_eqb k' k) eqn:E.
  - apply slice_eqb_eq in E as ->. split; [intros [= ->]; by left|]. intros [[= ->]|Hin]; [done|].
    specialize (Hf _ Hin). simpl in Hf. by rewrite better_irrefl in Hf.
  - rewrite IH. split; [by right|]. intros [[= -> ->]|]; [|done]. by rewrite (proj2 (slice_eqb_eq _ _) eq_refl) in E.
Qed.

Lemma sorted_nodup l : sorted_kvs better l -> NoDup l.
Proof.
  induction 1 as [|kv l Hs IH Hf]; constructor; [|done]. intros Hin. rewrite Forall_forall in Hf.
  specialize (Hf _ Hin). simpl in Hf. by rewrite better_irrefl in Hf.
Qed.

Lemma winner_ext i ch ch' k : Forall2 (fun c c' => assoc k c = assoc k c') ch ch' -> winner i ch k = winner i ch' k.
Proof. intros HF. revert i. induction HF as [|c c' ch ch' E _ IH]; intros i; simpl; [done|]. rewrite E. by destruct (assoc k c'). Qed.

Lemma winner_none i ch k : Forall (fun c => assoc k c = None) ch -> winner i ch k = None.
Proof. intros HF. revert i. induction HF as [|c ch E _ IH]; intros i; simpl; [done|]. by rewrite E. Qed.

Lemma remaining_concat ch : remaining ch = length (concat ch).
Proof. unfold remaining. induction ch as [|c ch IH]; simpl; [done|]. by rewrite length_app, IH. Qed.

Lemma yields_length crs ch out : yields better crs ch out -> (length out <= remaining ch)%nat.
Proof.
  intros (Hs & _ & Hin). rewrite remaining_concat. apply submseteq_length, NoDup_submseteq; [by apply sorted_nodup|].
  intros kv (c & Hc & Hkv)%Hin. apply list_elem_of_In, in_concat. exists c. by rewrite <- !list_elem_of_In.
Qed.
End Elements.

Section Start.
Context {It : Type} `{InternalIterator It} (may_fail : Prop) (fuel : nat) (reverse_ : bool).
Local Abbreviation better := (better_ reverse_).

(** A child that reads a source, or one that has failed for good. *)
Definition reads (c : It) (kvs : list KV) : Prop :=
  exists s : Source may_fail, src_kvs may_fail s = kvs /\ exists o, src_on may_fail s c o.

Definition stuck (c : It) : Prop :=
  may_fail /\ broken c /\ it_seek_to_first c = c /\ it_seek_to_last c = c /\
  forall t, it_seek t c = c /\ it_seek_for_prev t c = c.

Context (children : list It) (kvss : list (list KV)) (crs : list (list RangeTombstone)).
Context (ready : Forall2 (fun c kvs => reads c kvs \/ stuck c) children kvss).
Context (canonical_ranges : Forall canonical crs) (enough : (remaining kvss <= fuel)%nat).

(** The entries of a source from the starting point on, in the order of the scan. *)
Definition part (p : bytes -> bool) (kvs : list KV) : list KV := List.filter (fun kv => p kv.1) (view reverse_ kvs).

Lemma part_length p kvs : (length (part p kvs) <= length kvs)%nat.
Proof.
  unfold part, view. etransitivity; [apply List.filter_length_le|]. destruct reverse_; [by rewrite length_rev|done].
Qed.

Lemma parts_remaining p : (remaining (map (part p) kvss) <= remaining kvss)%nat.
Proof. apply remaining_map. intros c _. apply part_length. Qed.

Lemma part_assoc p kvs k : key_sorted kvs -> assoc k (part p kvs) = if p k then assoc k kvs else None.
Proof.
  intros Hs. pose proof (view_sorted reverse_ _ Hs) as Hv.
  assert (sorted_kvs better (part p kvs)) as Hp by (by apply StronglySorted_filter_bool).
  apply option_eq. intros e. rewrite (sorted_assoc better) by done. unfold part. rewrite elem_of_filter_bool, view_elem. simpl.
  destruct (p k); [|by split; [intros [_ ?]|]]. rewrite (assoc_elem _ _ _ Hs). naive_solver.
Qed.

(** Positioning every child: the merge starts at the entries the test holds of. *)
Lemma positioned (p : bytes -> bool) (op : It -> It) m :
  (forall a b, p a = true -> better a b = true -> p b = true) ->
  (forall (s : Source may_fail) it o, src_on may_fail s it o ->
     lands may_fail (src_on may_fail s) (op it) (head (part p (src_kvs may_fail s)))) ->
  (forall c, stuck c -> op c = c) -> mi_carriers m = make_carriers crs -> (forall kvs, kvs ∈ kvss -> key_sorted kvs) ->
  exists out, sorted_kvs better out /\ (length out <= fuel)%nat /\
    (forall k e, (k, e) ∈ out <-> p k = true /\ merged_entry crs kvss k = Some e) /\
    streams reverse_ may_fail fuel (mi_repick reverse_ fuel m (map op children)) out.
Proof.
  intros Hp Hop Hst Hm Hsort.
  assert (exists out, yields better crs (map (part p) kvss) out /\
            streams reverse_ may_fail fuel (mi_repick reverse_ fuel m (map op children)) out) as (out & Hy & Hstr).
  { assert (Forall2 (fun c rem => tracked reverse_ may_fail c rem \/ (may_fail /\ broken c)) (map op children) (map (part p) kvss)) as HF.
    { apply Forall2_fmap. eapply Forall2_impl; [exact ready|]. simpl. intros c kvs [(s & <- & o & Hon)|Hs].
      - apply (start_tracked reverse_ may_fail s); [done|]. by eapply Hop.
      - right. rewrite (Hst c Hs). by destruct Hs as (? & ? & _). }
    pose proof (parts_remaining p) as Hrem. unfold mi_repick. rewrite Hm.
    destruct (Forall2_or_Exists _ _ _ _ HF) as [HT|(c & Hc & Hmf & Hb)%Exists_exists].
    - destruct (pick_streams reverse_ may_fail fuel crs canonical_ranges (remaining (map (part p) kvss)) fuel
                  (map op children) (map (part p) kvss) m
                  ltac:(lia) ltac:(lia) ltac:(lia) HT Hm) as (out & Hy & Hs'). by exists out.
    - exists (drain better (make_carriers crs) (map (part p) kvss)). split.
      + apply (drain_yields better crs canonical_ranges). unfold sorted_children. apply Forall_fmap, Forall_forall.
        intros kvs Hin. simpl. apply StronglySorted_filter_bool, view_sorted. by apply Hsort.
      + apply streams_failed.
        assert (failed may_fail (map op children)) as Hf by (split; [done|]; apply Exists_exists; by exists c).
        pose proof (pick_failed reverse_ may_fail fuel (make_carriers crs) _ Hf) as Hpf. by destruct (mi_pick _ _ _ _). }
  exists out. pose proof Hy as (Ho & Ha & _). split; [done|]. split; [|split; [|done]].
  - pose proof (yields_length better _ _ _ Hy). pose proof (parts_remaining p). lia.
  - intros k e. rewrite <- (sorted_assoc better _ _ _ Ho), Ha. unfold merged_entry. destruct (p k) eqn:Epk.
    + rewrite (winner_ext 0 (map (part p) kvss) kvss k); [naive_solver|]. apply Forall2_fmap_l, Forall_Forall2_diag, Forall_forall.
      intros kvs Hin. simpl. rewrite part_assoc by (by apply Hsort). by rewrite Epk.
    + rewrite winner_none; [naive_solver|]. apply Forall_fmap, Forall_forall. intros kvs Hin. simpl.
      rewrite part_assoc by (by apply Hsort). by rewrite Epk.
Qed.

Context (sorted_sources : forall kvs, kvs ∈ kvss -> key_sorted kvs).

(** The bound a scan starts at. *)
Definition starts (d : DbIterator It) (k : bytes) : bool :=
  if di_reverse d then negb (di_has_upper d) || (k <?k di_upper d) else di_lower d <=?k k.

Lemma head_part_all kvs : head (part (fun _ => true) kvs) = if reverse_ then last kvs else head kvs.
Proof.
  unfold part, view. rewrite filter_all by done. destruct reverse_; [|done]. rewrite rev_alt. apply head_reverse.
Qed.

Lemma start_forward d : di_reverse d = false -> reverse_ = false -> di_merged d = make_merging_iterator children crs ->
  exists out, sorted_kvs better out /\ (length out <= fuel)%nat /\
    (forall k e, (k, e) ∈ out <-> starts d k = true /\ merged_entry crs kvss k = Some e) /\
    streams reverse_ may_fail fuel (di_merged (di_start fuel d)) out.
Proof.
  intros Er E Em. unfold di_start, starts. rewrite Er, Em. cbn [negb]. set (m := make_merging_iterator children crs).
  assert (forall a b, (di_lower d <=?k a) = true -> better a b = true -> (di_lower d <=?k b) = true) as Hp
    by (intros a b Ha Hb; unfold better_ in Hb; rewrite E in Hb; unfold forward in Hb; key_order).
  destruct (bool_decide (di_lower d = [])) eqn:El; rewrite <- E.
  - apply bool_decide_eq_true in El. apply (positioned (fun k => di_lower d <=?k k) it_seek_to_first m); [done| |by intros c (_ & _ & ? & _)|done|done].
    intros s it o Hon. pose proof (wk_first _ _ _ (src_walks _ s) _ _ Hon) as Hl.
    assert (forall k, (di_lower d <=?k k) = true) as Hall by (intros k; rewrite El; by destruct k).
    unfold part, view. rewrite filter_all by (intros; apply Hall). by rewrite E.
  - apply (positioned (fun k => di_lower d <=?k k) (it_seek (di_lower d)) m); [done| |intros c (_ & _ & _ & _ & Hs); apply Hs|done|done].
    intros s it o Hon. pose proof (wk_seek _ _ _ (src_walks _ s) _ _ (di_lower d) Hon) as Hl. unfold part, view. rewrite E. exact Hl.
Qed.

Lemma start_backward d : di_reverse d = true -> reverse_ = true -> di_merged d = make_merging_iterator children crs ->
  exists out, sorted_kvs better out /\ (length out <= fuel)%nat /\
    (forall k e, (k, e) ∈ out <-> starts d k = true /\ merged_entry crs kvss k = Some e) /\
    streams reverse_ may_fail fuel (di_merged (di_start fuel d)) out.
Proof.
  intros Er E Em. unfold di_start, starts. rewrite Er, Em. cbn [negb]. set (m := make_merging_iterator children crs).
  destruct (di_has_upper d); cbn [negb orb].
  - assert (forall a b, (a <=?k di_upper d) = true -> better a b = true -> (b <=?k di_upper d) = true) as Hp
      by (intros a b Ha Hb; unfold better_ in Hb; rewrite E in Hb; unfold backward in Hb; key_order).
    destruct (positioned (fun k => k <=?k di_upper d) (it_seek_for_prev (di_upper d)) m Hp) as (out & Hs & Hlen & Hin & Hstr);
      [|intros c (_ & _ & _ & _ & Hst); apply Hst|done|done|].
    { intros s it o Hon. pose proof (wk_seek_for_prev _ _ _ (src_walks _ s) _ _ (di_upper d) Hon) as Hl.
      rewrite last_such_rev in Hl. unfold part, view. rewrite E. exact Hl. }
    exists (List.filter (fun kv => kv.1 <?k di_upper d) out). split; [by apply StronglySorted_filter_bool|].
    split; [etransitivity; [apply List.filter_length_le|done]|]. split.
    { intros k e. rewrite elem_of_filter_bool, Hin. simpl. destruct (k <?k di_upper d) eqn:Ek, (k <=?k di_upper d) eqn:Ek';
        [naive_solver|exfalso; key_order|naive_solver|naive_solver]. }
    rewrite E in *. set (m1 := mi_repick true fuel m _) in *.
    inversion Hstr as [m' o Hf E1 E2|m' He Hok E1 E2|m' kv o He Hok Hst E1 E2]; subst.
    + destruct (mi_entry m1) as [kv|]; [|by apply streams_failed]. destruct (negb (kv.1 <?k di_upper d)); apply streams_failed; simpl.
      * by apply advance_failed.
      * done.
    + rewrite He. done.
    + rewrite He. cbn [List.filter]. apply StronglySorted_inv in Hs as [_ Hs]. rewrite Forall_forall in Hs.
      destruct (kv.1 <?k di_upper d) eqn:Ek; cbn [negb].
      * rewrite filter_all; [done|]. intros x Hx. specialize (Hs x Hx). unfold better_, backward in Hs. simpl in Hs. key_order.
      * rewrite filter_all; [done|]. intros x Hx. specialize (Hs x Hx). unfold better_, backward in Hs. simpl in Hs.
        destruct kv as [k e]. assert ((k <=?k di_upper d) = true) as Hle by (apply (Hin k e); by left). simpl in *. key_order.
  - destruct (positioned (fun _ => true) it_seek_to_last m) as (out & H1 & H2 & H3 & H4);
      [done| |by intros c (_ & _ & _ & ? & _)|done|done|exists out; by rewrite E in *].
    intros s it o Hon. pose proof (wk_last _ _ _ (src_walks _ s) _ _ Hon) as Hl. rewrite head_part_all, E. exact Hl.
Qed.

Lemma visible_elem stop out k v : sorted_kvs better out -> (forall a b, stop a = true -> better a b = true -> stop b = true) ->
  (k, v) ∈ visible stop out <-> (k, (Put, v)) ∈ out /\ stop k = false.
Proof.
  intros Hs Hstop. induction Hs as [|[k' [t v']] out Hs IH Hf]; simpl; [set_solver|]. rewrite Forall_forall in Hf.
  rewrite elem_of_cons. destruct (stop k') eqn:Ek.
  - split; [by intros ?%elem_of_nil|]. intros [[E|Hin] Hk]; [simplify_eq; congruence|].
    pose proof (Hstop _ _ Ek (Hf _ Hin)) as Hk'. simpl in Hk'. congruence.
  - destruct t; simpl; [rewrite IH; naive_solver|]. rewrite elem_of_cons, IH. naive_solver.
Qed.

Lemma visible_sorted stop out : sorted_kvs better out ->
  StronglySorted (fun a b => better a.1 b.1 = true) (visible stop out).
Proof.
  induction 1 as [|[k [t v]] out Hs IH Hf]; simpl; [constructor|]. destruct (stop k); [constructor|].
  destruct (is_delete t); [done|]. constructor; [done|]. rewrite Forall_forall in Hf. apply Forall_forall. intros [k' v'] Hin. simpl.
  assert (forall l, (k', v') ∈ visible stop l -> exists t', (k', (t', v')) ∈ l) as Hsub.
  { induction l as [|[k1 [t1 v1]] l IHl]; simpl; [by intros ?%elem_of_nil|]. destruct (stop k1); [by intros ?%elem_of_nil|].
    destruct (is_delete t1); [intros [t' ?]%IHl; exists t'; by right|]. intros [[= -> ->]|[t' ?]%IHl]%elem_of_cons; eexists; [by left|by right]. }
  destruct (Hsub out Hin) as [t' Ht]. exact (Hf _ Ht).
Qed.

Definition within (d : DbIterator It) (k : bytes) : Prop :=
  di_lower d <=k k /\ (di_has_upper d = true -> k <k di_upper d).

Lemma within_bounds d k : starts d k = true /\ out_of_range d k = false <-> within d k.
Proof.
  unfold starts, out_of_range, within. destruct (di_reverse d), (di_has_upper d); simpl;
    rewrite ?negb_false_iff, ?key_ltb_lt, ?key_leb_le; (split; [intros [? ?]; split; [key_order|intros ?; try done; key_order]|
      intros [? Hu]; try specialize (Hu eq_refl); split; try done; key_order]).
Qed.

(** A whole scan: sorted, and exactly the live keys within the bounds. *)
Lemma scan_children n d : di_reverse d = reverse_ -> di_merged d = make_merging_iterator children crs -> di_started d = false ->
  (fuel < n)%nat ->
  let '(found, last) := scan n fuel d in
  di_failed may_fail last \/
  (di_status last = Ok /\ StronglySorted (fun a b => better a.1 b.1 = true) found /\
   forall k v, (k, v) ∈ found <-> within d k /\ merged_entry crs kvss k = Some (Put, v)).
Proof.
  intros Er Em Est Hn.
  assert (exists out, sorted_kvs better out /\ (length out <= fuel)%nat /\
    (forall k e, (k, e) ∈ out <-> starts d k = true /\ merged_entry crs kvss k = Some e) /\
    streams reverse_ may_fail fuel (di_merged (di_start fuel d)) out) as (out & Hs & Hlen & Hin & Hstr).
  { destruct (di_reverse d) eqn:E; [by apply start_backward|by apply start_forward]. }
  assert (di_started (di_start fuel d) = true /\ same_scan d (di_start fuel d)) as [Hst Hsame].
  { unfold di_start. repeat case_match; by repeat split. }
  assert (di_next fuel d = skip_deletes fuel fuel (di_start fuel d)) as En by (unfold di_next; by rewrite Est).
  assert (di_reverse (di_start fuel d) = reverse_) as Er' by (destruct Hsame as (_ & _ & _ & ->); done).
  pose proof (scan_spec may_fail fuel n d (di_start fuel d) out En) as Hscan. rewrite Er' in Hscan.
  specialize (Hscan Hstr Hst ltac:(lia) Hlen). destruct (scan n fuel d) as [found last].
  destruct Hscan as [Hf|[-> Hok]]; [by left|right]. split; [done|].
  assert (forall k, out_of_range (di_start fuel d) k = out_of_range d k) as Eor by (intros k; by apply same_out_of_range).
  assert (forall a b, out_of_range (di_start fuel d) a = true -> better a b = true -> out_of_range (di_start fuel d) b = true) as Hmono.
  { intros a b. rewrite !Eor. unfold out_of_range, better_. rewrite Er. destruct reverse_; unfold forward, backward.
    - intros. key_order.
    - destruct (di_has_upper d); simpl; [|done]. intros. key_order. }
  split; [by apply visible_sorted|]. intros k v. rewrite visible_elem by done. rewrite Hin, Eor, <- within_bounds. naive_solver.
Qed.
End Start.

(** ** The children of [make_iterator] *)

(** A source seen through a constructor of the children's type. *)
Lemma walks_through {A B} `{InternalIterator A} `{InternalIterator B} (f : A -> B) may_fail kvs on :
  (forall a, it_entry (f a) = it_entry a /\ it_status (f a) = it_status a) ->
  (forall a, it_seek_to_first (f a) = f (it_seek_to_first a) /\ it_seek_to_last (f a) = f (it_seek_to_last a)) ->
  (forall t a, it_seek t (f a) = f (it_seek t a) /\ it_seek_for_prev t (f a) = f (it_seek_for_prev t a)) ->
  (forall a, it_next (f a) = f (it_next a) /\ it_prev (f a) = f (it_prev a)) ->
  walks may_fail kvs on -> walks may_fail kvs (fun b o => exists a, b = f a /\ on a o).
Proof.
  intros He Hse Hsk Hmv Hw.
  assert (forall a o, lands may_fail on a o -> lands may_fail (fun b o => exists a, b = f a /\ on a o) (f a) o) as Hl.
  { intros a o [Ho|(Hm & He1 & Hs1)]; [left; by exists a|right]. destruct (He a) as [E1 E2].
    split; [done|]. split; [by rewrite E1|by rewrite E2]. }
  split.
  - intros b o (a & -> & Ho). destruct (He a) as [-> ->]. exact (wk_entry _ _ _ Hw _ _ Ho).
  - intros b kv (a & -> & Ho). exact (wk_member _ _ _ Hw _ _ Ho).
  - intros b o (a & -> & Ho). destruct (Hse a) as [-> _]. by eapply Hl, wk_first.
  - intros b o (a & -> & Ho). destruct (Hse a) as [_ ->]. by eapply Hl, wk_last.
  - intros b o t (a & -> & Ho). destruct (Hsk t a) as [-> _]. by eapply Hl, wk_seek.
  - intros b o t (a & -> & Ho). destruct (Hsk t a) as [_ ->]. by eapply Hl, wk_seek_for_prev.
  - intros b kv (a & -> & Ho). destruct (Hmv a) as [-> _]. by eapply Hl, wk_next.
  - intros b kv (a & -> & Ho). destruct (Hmv a) as [_ ->]. by eapply Hl, wk_prev.
Qed.

Lemma clamped_spec v lower k : clamped_lower v lower <=k k <-> lower <=k k /\ truncated v k = false.
Proof.
  unfold clamped_lower, truncated. destruct (bool_decide (truncation_point_ v = [])) eqn:Et; simpl; [naive_solver|].
  destruct (bool_decide (lower = [])) eqn:El; simpl.
  - apply bool_decide_eq_true in El as ->. split; [|intros [_ ?]; key_order]. intros ?. split; [by destruct k|key_order].
  - destruct (lower <?k truncation_point_ v) eqn:E.
    + split; [intros ?; split; key_order|intros [? ?]; key_order].
    + split; [intros ?; split; key_order|by intros [? _]].
Qed.

Section Make.
Context {R It : Type} `{rops : SstReaderOps R} `{ops : SstScanOps R It} (reader_for : FileMetadata -> Result R).
Context (may_fail : Prop) (classify : Status -> Status) (content : FileMetadata -> Sst).
Context (ss : list SkiplistMemtable) (ms : list (gmap bytes Entry * list RangeTombstone)) (v : Version).

#[local] Instance scan_child_ops : InternalIterator (Child It) := child_ops reader_for.

(** A file is scanned for what it holds, or the failure is reported. *)
Definition scannable (f : FileMetadata) : Prop :=
  match reader_for f with
  | Unexpected e => may_fail /\ e <> Ok
  | Value r =>
      SstScanLaws ops may_fail r (content f) /\
      match sr_range_tombstones r with
      | Value rs => rs = ranges (content f)
      | Unexpected e => may_fail /\ classify e <> Ok
      end
  end.

Context (v_ok : version_ok content v) (memtables_ok : Forall2 models ss ms).
Context (files_ok : forall f, f ∈ all_files v -> scannable f).

Definition mem_sst (m : SkiplistMemtable) : Sst := {| entries := ascending m; ranges := range_tombstones m |}.

Definition level_ssts (lower upper : bytes) (lvl : Z) : list Sst :=
  if (0 <? lvl) && negb (carries_ranges v lvl) then
    let range := overlapping_index_range v lvl lower upper in
    if (range.1 <? range.2)%nat then [ {| entries := level_kvs content (slice_files (files_at v lvl) range); ranges := [] |} ] else []
  else map content (overlapping_half_open v lvl lower upper).

Definition child_ssts (lower upper : bytes) : list Sst :=
  map mem_sst ss ++ concat (map (level_ssts lower upper) (seqZ 0 (num_levels v))).

(** A child and its ranges, against the content it stands for. *)
Definition sound_child (cr : Child It * list RangeTombstone) (c : Sst) : Prop :=
  reads may_fail cr.1 (entries c) /\ cr.2 = ranges c.
Definition stuck_child (cr : Child It * list RangeTombstone) : Prop := stuck may_fail cr.1.

Lemma reads_intro (c : Child It) kvs on o : walks may_fail kvs on -> key_sorted kvs -> on c o -> reads may_fail c kvs.
Proof. intros Hw Hs Ho. exists {| src_kvs := kvs; src_on := on; src_walks := Hw; src_sorted := Hs |}. split; [done|by exists o]. Qed.

Lemma error_stuck e : may_fail /\ e <> Ok -> stuck may_fail (ErrorChild {| ei_status := e |} : Child It).
Proof. intros [Hm He]. split; [done|]. split; [by split|]. by repeat split. Qed.

Lemma memtable_child_ok reverse m mm : models m mm -> sound_child (memtable_child reverse m) (mem_sst m).
Proof.
  intros Hm. split; [|done]. destruct (memtable_source may_fail m mm Hm) as (on & Hw & Ho & Hs & _).
  assert (exists o, on (if reverse then it_seek_to_last {| sk_table := m; sk_node := None |}
                        else it_seek_to_first {| sk_table := m; sk_node := None |}) o) as [o Ho'].
  { destruct reverse; [destruct (wk_last _ _ _ Hw _ _ Ho) as [?|(_ & _ & Hbad)]|destruct (wk_first _ _ _ Hw _ _ Ho) as [?|(_ & _ & Hbad)]];
      by eauto || (exfalso; by apply Hbad). }
  eapply (reads_intro _ _ (fun b o => exists a, b = MemtableChild a /\ on a o)); [by apply walks_through|done|]. by eexists.
Qed.

Lemma file_child_ok f : f ∈ all_files v -> sound_child (file_child reader_for classify f) (content f) \/ stuck_child (file_child reader_for classify f).
Proof.
  intros Hf. pose proof (files_ok f Hf) as Hsc. unfold scannable in Hsc. unfold file_child.
  destruct (reader_for f) as [r|e]; [|right; by apply error_stuck]. destruct Hsc as [[(on & Hw & Ho)] Hr].
  destruct (sr_range_tombstones r) as [rs|e]; [left|right; by apply error_stuck]. split; [|done].
  apply (reads_intro _ _ (fun b o => exists a, b = FileChild a /\ on a o) None); [by apply walks_through| |by eexists].
  apply (vo_describes _ _ v_ok f Hf).
Qed.

Lemma slice_files_subset fs r f : f ∈ slice_files fs r -> f ∈ fs.
Proof. unfold slice_files. intros Hin%subseteq_take. by apply subseteq_drop in Hin. Qed.

Lemma no_range_tombstones lvl f : carries_ranges v lvl = false -> f ∈ files_at v lvl -> num_range_tombstones f = 0 /\ ranges (content f) = [].
Proof.
  intros Hc Hf. pose proof (vo_describes _ _ v_ok f (in_all _ _ _ Hf)) as Hd.
  assert (num_range_tombstones f = 0) as E.
  { rewrite (vo_carries _ _ v_ok) in Hc. destruct (Z.eqb_spec (num_range_tombstones f) 0) as [|Hne]; [done|].
    assert (existsb carries_range (files_at v lvl) = true); [|congruence].
    apply existsb_elem. exists f. split; [done|]. unfold carries_range. by apply negb_true_iff, Z.eqb_neq. }
  split; [done|]. rewrite (d_ranges _ _ Hd) in E. destruct (ranges (content f)); [done|simpl in E; lia].
Qed.

Lemma assoc_level lvl fs k : carries_ranges v lvl = false -> (forall f, f ∈ fs -> f ∈ files_at v lvl) ->
  assoc k (level_kvs content fs) = first_verdict content fs k.
Proof.
  intros Hc. induction fs as [|f fs IH]; intros Hsub; [done|]. rewrite level_kvs_cons, assoc_app. cbn [first_verdict].
  rewrite IH by (intros; apply Hsub; by right). unfold verdict, sst_verdict, verdict_of, file_kvs.
  rewrite (proj2 (no_range_tombstones lvl f Hc (Hsub f ltac:(by left)))). simpl. by destruct (assoc k (entries (content f))).
Qed.

Lemma first_verdict_filter (p : FileMetadata -> bool) fs k :
  (forall f, f ∈ fs -> p f = false -> verdict content f k = None) ->
  first_verdict content (List.filter p fs) k = first_verdict content fs k.
Proof.
  induction fs as [|f fs IH]; intros H; simpl; [done|]. destruct (p f) eqn:E; simpl.
  - rewrite IH; [done|]. intros; apply H; [by right|done].
  - rewrite (H f) by (done || by left). apply IH. intros; apply H; [by right|done].
Qed.

Lemma StronglySorted_slice {A} (P : A -> A -> Prop) l n k : StronglySorted P l -> StronglySorted P (take k (drop n l)).
Proof.
  intros Hs. rewrite <- (take_drop n l) in Hs. apply StronglySorted_app in Hs as (_ & _ & Hs).
  rewrite <- (take_drop k (drop n l)) in Hs. by apply StronglySorted_app in Hs as (_ & Hs & _).
Qed.

Lemma level_child_ok lvl lower upper : 0 < lvl -> carries_ranges v lvl = false ->
  let range := overlapping_index_range v lvl lower upper in (range.1 < range.2)%nat ->
  sound_child (LevelChild (make_concat_iterator (files_at v lvl) (range.1, range.2)), [])
    {| entries := level_kvs content (slice_files (files_at v lvl) range); ranges := [] |}.
Proof.
  intros Hl Hc range Hne. split; [|done]. destruct (level_increasing content v lvl v_ok Hl Hc) as [Hinc Hfill].
  rewrite Forall_forall in Hfill. rewrite (surjective_pairing range). set (b := range.1) in *. set (e := range.2) in *. cbn [entries fst].
  assert (forall f, f ∈ slice_files (files_at v lvl) (b, e) -> f ∈ files_at v lvl /\ f ∈ all_files v /\ describes f (content f)) as Hsub.
  { intros f Hf%slice_files_subset. split; [done|]. split; [by eapply in_all|]. by eapply (vo_describes _ _ v_ok), in_all. }
  assert (forall f kv, f ∈ slice_files (files_at v lvl) (b, e) -> kv ∈ file_kvs content f -> smallest_key f <=k kv.1 /\ kv.1 <=k largest_key f) as Hbound.
  { intros f [k en] Hf Hkv. destruct (Hsub f Hf) as (_ & _ & Hd). apply (assoc_elem _ _ _ (d_sorted _ _ Hd)) in Hkv.
    by destruct (describes_hold _ _ _ _ Hd Hkv) as (_ & ? & ?). }
  assert (forall f, f ∈ slice_files (files_at v lvl) (b, e) -> key_sorted (file_kvs content f)) as Hsorted
    by (intros f Hf; destruct (Hsub f Hf) as (_ & _ & Hd); apply Hd).
  assert (StronglySorted (fun a b => largest_key a <k smallest_key b) (slice_files (files_at v lvl) (b, e))) as Hinc'
    by (by apply StronglySorted_slice).
  assert (e <= length (files_at v lvl))%nat as Hend.
  { unfold e, range, overlapping_index_range. cbn [snd]. destruct (negb (unbounded upper)); [|done].
    pose proof (increasing_monotone _ Hinc (proj2 (Forall_forall _ _) Hfill)) as Hm.
    pose proof (proj1 (lower_bound_spec _ _ (spans_partitioned_largest _ lower Hm))) as H2. set (first := lower_bound _ (files_at v lvl)) in *.
    pose proof (proj1 (lower_bound_spec _ _ (partitioned_drop _ _ first (spans_partitioned_smallest _ upper Hm)))) as H1.
    rewrite length_drop in H1. lia. }
  destruct (concat_walks may_fail reader_for content (files_at v lvl) b e Hend) as [Hw Ho]; [|done|done|done|done| |].
  - intros f Hf. destruct (Hsub f Hf) as (_ & Hall & _). pose proof (files_ok f Hall) as Hsc. unfold scannable in Hsc. unfold opens.
    destruct (reader_for f); [by destruct Hsc|done].
  - intros f Hf. destruct (Hsub f Hf) as (Hin & _ & Hd). destruct (Hfill f Hin) as [Hn _]. unfold file_kvs.
    rewrite (d_entries _ _ Hd) in Hn. by destruct (entries (content f)).
  - eapply (reads_intro _ _ (fun b o => exists a, b = LevelChild a /\ cc_on may_fail content (files_at v lvl) _ _ a o) None);
      [|by apply level_sorted|by eexists].
    by apply (@walks_through _ _ (concat_iterator_ops reader_for) _ LevelChild).
Qed.

Lemma level_children_ok lower upper lvl : 
  Forall2 (fun cr c => sound_child cr c \/ stuck_child cr) (level_children reader_for classify v lower upper lvl) (level_ssts lower upper lvl).
Proof.
  unfold level_children, level_ssts. destruct ((0 <? lvl) && negb (carries_ranges v lvl)) eqn:E.
  - apply andb_true_iff in E as [Hl Hc]. zbool. pose proof (level_child_ok lvl lower upper Hl Hc) as Hok.
    destruct (overlapping_index_range v lvl lower upper) as [b e]. cbn [fst snd] in *. destruct (Nat.ltb_spec b e); constructor; [|constructor].
    left. by apply Hok.
  - apply Forall2_fmap, Forall_Forall2_diag, Forall_forall. intros f [Hf _]%elem_of_filter_bool. by eapply file_child_ok, in_all.
Qed.

Lemma children_ok reverse lower upper :
  Forall2 (fun cr c => sound_child cr c \/ stuck_child cr)
    (map (memtable_child reverse) ss ++ concat (map (level_children reader_for classify v lower upper) (seqZ 0 (num_levels v))))
    (child_ssts lower upper).
Proof.
  unfold child_ssts. apply Forall2_app.
  - apply Forall2_fmap, Forall_Forall2_diag, Forall_forall. intros m [i Hi]%list_elem_of_lookup.
    destruct (Forall2_lookup_l _ _ _ _ _ memtables_ok Hi) as (mm & _ & Hm). left. by eapply memtable_child_ok.
  - induction (seqZ 0 (num_levels v)) as [|lvl lvls IH]; simpl; [constructor|]. apply Forall2_app; [apply level_children_ok|done].
Qed.

(** What the sources say. *)
Lemma level_verdict lower upper lvl k : lower <=k k -> (unbounded upper = false -> k <k upper) ->
  ssts_verdict (level_ssts lower upper lvl) k = first_verdict content (files_at v lvl) k.
Proof.
  intros Hlo Hup.
  assert (first_verdict content (overlapping_half_open v lvl lower upper) k = first_verdict content (files_at v lvl) k) as Eov.
  { unfold overlapping_half_open. apply first_verdict_filter. intros f Hf Hno. destruct (verdict content f k) eqn:Ev; [|done]. exfalso.
    pose proof (vo_describes _ _ v_ok f (in_all _ _ _ Hf)) as Hd. unfold overlaps_half_open in Hno. apply orb_false_iff in Hno as [Hd1 Hr1].
    unfold verdict, sst_verdict, verdict_of in Ev. destruct (assoc k (entries (content f))) as [en|] eqn:Ea.
    - destruct (describes_hold _ _ _ _ Hd Ea) as (_ & H1 & H2). destruct (unbounded upper); simpl in *; [|specialize (Hup eq_refl)];
        rewrite ?andb_true_r, ?andb_false_iff, ?negb_false_iff in Hd1; [|destruct Hd1]; key_order.
    - destruct (any_covers (ranges (content f)) k) eqn:Ec; [|done]. destruct (describes_cover _ _ _ Hd Ec) as (Hn & H1 & H2).
      unfold carries_range in Hr1. rewrite (proj2 (Z.eqb_neq _ _) Hn) in Hr1. simpl in Hr1.
      destruct (unbounded upper); simpl in *; [|specialize (Hup eq_refl)];
        rewrite ?andb_true_r, ?andb_false_iff, ?negb_false_iff in Hr1; [|destruct Hr1]; key_order. }
  unfold level_ssts. destruct ((0 <? lvl) && negb (carries_ranges v lvl)) eqn:E; [|by rewrite <- first_verdict_ssts].
  apply andb_true_iff in E as [Hl Hc]. zbool. destruct (level_increasing content v lvl v_ok Hl Hc) as [Hinc Hfill].
  rewrite <- Eov, <- index_range_scan.
  - destruct (Nat.ltb_spec (overlapping_index_range v lvl lower upper).1 (overlapping_index_range v lvl lower upper).2).
    + cbn [ssts_verdict]. unfold sst_verdict. cbn [entries ranges]. unfold verdict_of. simpl any_covers.
      rewrite <- (assoc_level lvl); [by destruct (assoc k _)|done|]. intros f. apply slice_files_subset.
    + unfold slice_files. replace (_ - _)%nat with 0%nat by lia. done.
  - by apply increasing_monotone.
  - apply Forall_forall. intros f Hf. unfold carries_range. rewrite (proj1 (no_range_tombstones lvl f Hc Hf)). done.
Qed.

Lemma mem_ssts_verdict k : ssts_verdict (map mem_sst ss) k = mem_verdicts ms k.
Proof.
  pose proof memtables_ok as HF. clear memtables_ok files_ok. induction HF as [|m mm ss' ms' Hm _ IH]; simpl; [done|]. unfold mem_verdict, sst_verdict. cbn [entries ranges mem_sst].
  destruct (memtable_source may_fail m mm Hm) as (_ & _ & _ & _ & ->). destruct (models_reads m mm Hm) as (_ & _ & -> & _). by rewrite IH.
Qed.

Lemma child_verdict lower upper k : lower <=k k -> (unbounded upper = false -> k <k upper) ->
  ssts_verdict (child_ssts lower upper) k =
  match mem_verdicts ms k with Some e => Some e | None => resolve content v k end.
Proof.
  intros Hlo Hup. unfold child_ssts. rewrite ssts_verdict_app, mem_ssts_verdict, (resolve_levels content v k v_ok).
  destruct (mem_verdicts ms k); [done|]. induction (seqZ 0 (num_levels v)) as [|lvl lvls IH]; simpl; [done|].
  by rewrite ssts_verdict_app, first_verdict_app, level_verdict, IH.
Qed.

Lemma merged_put ssts k value :
  merged_entry (map ranges ssts) (map entries ssts) k = Some (Put, value) <-> ssts_verdict ssts k = Some (Put, value).
Proof.
  rewrite <- merged_ssts_verdict. unfold verdict_of. destruct (merged_entry _ _ k); [done|]. by destruct (any_covers _ k).
Qed.

Lemma file_ssts_canonical lower upper c : c ∈ child_ssts lower upper -> canonical (ranges c) /\ key_sorted (entries c).
Proof.
  unfold child_ssts. rewrite elem_of_app. intros [(m & -> & Hm)%list_elem_of_fmap|Hc].
  - apply list_elem_of_lookup in Hm as [i Hi]. destruct (Forall2_lookup_l _ _ _ _ _ memtables_ok Hi) as (mm & _ & Hmm). simpl.
    split; [apply merge_ranges_ok|]. by destruct (memtable_source may_fail m mm Hmm) as (_ & _ & _ & ? & _).
  - apply list_elem_of_In, in_concat in Hc as (l & (lvl & <- & _)%in_map_iff & Hc). apply list_elem_of_In in Hc.
    unfold level_ssts in Hc. destruct ((0 <? lvl) && negb (carries_ranges v lvl)) eqn:E.
    + apply andb_true_iff in E as [Hl Hcr]. zbool. destruct (level_increasing content v lvl v_ok Hl Hcr) as [Hinc Hfill].
      destruct (_ <? _)%nat; [|by apply elem_of_nil in Hc]. apply list_elem_of_singleton in Hc as ->. split; [by split; constructor|].
      apply level_sorted; [by apply StronglySorted_slice| |].
      * intros f [kk en] Hf%slice_files_subset Hkv. pose proof (vo_describes _ _ v_ok f (in_all _ _ _ Hf)) as Hd.
        apply (assoc_elem _ _ _ (d_sorted _ _ Hd)) in Hkv. by destruct (describes_hold _ _ _ _ Hd Hkv) as (_ & ? & ?).
      * intros f Hf%slice_files_subset. apply (vo_describes _ _ v_ok f (in_all _ _ _ Hf)).
    + apply list_elem_of_fmap in Hc as (f & -> & [Hf _]%elem_of_filter_bool). pose proof (vo_describes _ _ v_ok f (in_all _ _ _ Hf)) as Hd.
      split; apply Hd.
Qed.

(** A child that cannot be read makes the whole scan report it. *)
Lemma scan_stuck fuel n (d : DbIterator (Child It)) : Exists (stuck may_fail) (mi_children (di_merged d)) -> di_started d = false -> (0 < n)%nat ->
  di_failed may_fail (scan n fuel d).2.
Proof.
  intros (c & Hc & Hst)%Exists_exists Hs Hn. destruct n as [|n]; [lia|]. cbn [scan].
  assert (forall op, op c = c -> failed may_fail (map op (mi_children (di_merged d)))) as Hmap.
  { intros op Hop. destruct Hst as (Hm & Hb & _). split; [done|]. apply Exists_exists. exists c. split; [|done].
    apply list_elem_of_fmap. by exists c. }
  assert (forall op, op c = c -> failed may_fail (mi_children (mi_repick (di_reverse d) fuel (di_merged d) (map op (mi_children (di_merged d)))))) as Hrep.
  { intros op Hop. unfold mi_repick. pose proof (pick_failed (di_reverse d) may_fail fuel (mi_carriers (di_merged d)) _ (Hmap op Hop)) as H.
    by destruct (mi_pick _ _ _ _). }
  destruct Hst as (Hm & Hb & H1 & H2 & H3).
  assert (di_failed may_fail (di_start fuel d) /\ di_started (di_start fuel d) = true) as [Hf Hs'].
  { unfold di_start, di_failed. destruct (di_reverse d) eqn:Er; cbn [negb].
    - destruct (di_has_upper d); cbn [negb]; [|split; [by apply Hrep|done]].
      pose proof (Hrep (it_seek_for_prev (di_upper d)) (proj2 (H3 _))) as H. destruct (mi_entry _); [|done].
      destruct (negb _); [|done]. split; [|done]. by apply advance_failed.
    - destruct (bool_decide _); split; try done; apply Hrep; [done|apply H3]. }
  assert (di_next fuel d = skip_deletes fuel fuel (di_start fuel d)) as -> by (unfold di_next; by rewrite Hs).
  pose proof (skip_failed may_fail fuel fuel _ Hf) as Hsk. destruct (skip_started fuel fuel _ Hs') as [Hs'' _].
  destruct (skip_deletes fuel fuel (di_start fuel d)) as [[] d']; cbn [negb snd] in *; [|done].
  pose proof (scan_failed may_fail fuel n d' Hs'' Hsk) as Hl. destruct (scan n fuel d') as [rest last]. by destruct (mi_entry _).
Qed.

(** The whole of [make_iterator]: a scan fails, and says so, or it yields the live keys of the range. *)
Lemma make_scan lower upper has_upper reverse fuel n :
  (has_upper = false -> upper = []) ->
  (remaining (map entries (child_ssts (clamped_lower v lower) upper)) <= fuel)%nat -> (fuel < n)%nat ->
  let '(found, last) := scan n fuel (make_iterator reader_for false classify ss v lower upper has_upper reverse) in
  (may_fail /\ di_status last <> Ok) \/
  (di_status last = Ok /\
   StronglySorted (fun a b => better_ reverse a.1 b.1 = true) found /\
   forall k value, (k, value) ∈ found <->
     lower <=k k /\ (has_upper = true -> k <k upper) /\ truncated v k = false /\
     match mem_verdicts ms k with Some e => Some e | None => resolve content v k end = Some (Put, value)).
Proof.
  intros Hup Hfuel Hn. unfold make_iterator. set (lo := clamped_lower v lower) in *.
  set (children := map (memtable_child reverse) ss ++ _). set (d := {| di_merged := _ |}).
  pose proof (children_ok reverse lo upper) as Hch. fold children in Hch.
  destruct (Forall2_or_Exists _ _ _ _ Hch) as [Hall|Hbad].
  - assert (map snd children = map ranges (child_ssts lo upper)) as Ecrs.
    { clear -Hall. induction Hall as [|cr c l1 l2 [_ Hr] _ IH]; simpl; [done|]. by rewrite Hr, IH. }
    assert (Forall2 (fun c kvs => reads may_fail c kvs \/ stuck may_fail c) (map fst children) (map entries (child_ssts lo upper))) as Hready.
    { apply Forall2_fmap. eapply Forall2_impl; [exact Hall|]. intros cr c [Hr _]. by left. }
    assert (Forall canonical (map snd children)) as Hcan.
    { rewrite Ecrs. apply Forall_fmap, Forall_forall. intros c Hc. by apply (file_ssts_canonical lo upper). }
    assert (forall kvs, kvs ∈ map entries (child_ssts lo upper) -> key_sorted kvs) as Hsorted.
    { intros kvs (c & -> & Hc)%list_elem_of_fmap. by apply (file_ssts_canonical lo upper). }
    pose proof (scan_children may_fail fuel reverse (map fst children) (map entries (child_ssts lo upper)) (map snd children)
                  Hready Hcan Hfuel Hsorted n d eq_refl eq_refl eq_refl Hn) as Hscan.
    destruct (scan n fuel d) as [found last]. destruct Hscan as [Hf|(Hok & Hs & Hin)].
    + left. split; [apply Hf|]. by eapply failed_status.
    + right. split; [done|]. split; [done|]. intros k value. rewrite Hin, Ecrs, merged_put. unfold within. cbn [di_lower di_upper di_has_upper d].
      split.
      * intros [[Hlo Hu] Hv]. rewrite child_verdict in Hv; [|done|].
        2:{ unfold unbounded. intros Hne%bool_decide_eq_false. destruct has_upper; [by apply Hu|]. by specialize (Hup eq_refl). }
        apply clamped_spec in Hlo as [? ?]. done.
      * intros (Hlo & Hu & Ht & Hv). assert (lo <=k k) as Hlo' by (by apply clamped_spec). split; [done|].
        rewrite child_verdict; [done|done|]. unfold unbounded. intros Hne%bool_decide_eq_false. destruct has_upper; [by apply Hu|].
        by specialize (Hup eq_refl).
  - pose proof (scan_stuck fuel n d) as Hst. destruct (scan n fuel d) as [found last]. left.
    assert (di_failed may_fail last) as Hf; [|split; [apply Hf|by eapply failed_status]].
    apply Hst; [|done|lia]. apply Exists_exists in Hbad as (cr & Hcr & Hs). apply Exists_exists. exists cr.1. split; [|done].
    apply list_elem_of_fmap. by exists cr.
Qed.
End Make.

Lemma scan_get {R It} (rops : SstReaderOps R) (ops : SstScanOps R It) (content : FileMetadata -> Sst)
    (reader_for : FileMetadata -> Result R) classify ss ms v lower upper has_upper reverse :
  version_ok content v -> readable content reader_for v -> Forall2 models ss ms ->
  (forall f r, f ∈ all_files v -> reader_for f = Value r -> SstScanLaws ops False r (content f)) ->
  (has_upper = false -> upper = []) ->
  exists bound, forall fuel n, (bound <= fuel < n)%nat ->
    exists found last,
      scan (H := child_ops reader_for) n fuel (make_iterator reader_for false classify ss v lower upper has_upper reverse) = (found, last) /\
      di_status (H := child_ops reader_for) last = Ok /\
      StronglySorted (fun a b => better_ reverse a.1 b.1 = true) found /\
      forall k value, (k, value) ∈ found <->
        lower <=k k /\ (has_upper = true -> k <k upper) /\ db_get reader_for false ss v k = Value value.
Proof.
  intros Hv Hr Hm Hs Hu. eexists. intros fuel n [Hf Hn].
  assert (forall f, f ∈ all_files v -> scannable reader_for False classify content f) as Hsc.
  { intros f Hin. destruct (Hr f Hin) as (r & E & Hl). unfold scannable. rewrite E. split; [by apply Hs|]. by rewrite law_range_tombstones. }
  pose proof (make_scan reader_for False classify content ss ms v Hv Hm Hsc lower upper has_upper reverse fuel n Hu Hf Hn) as H.
  destruct (scan n fuel _) as [found last]. exists found, last. split; [done|]. destruct H as [[[] _]|(Hok & Hsort & Hin)].
  split; [done|]. split; [done|]. intros k value. rewrite Hin, (db_get_spec content reader_for ss ms v k Hv Hr Hm).
  set (e := match mem_verdicts ms k with Some e => Some e | None => resolve content v k end).
  destruct (truncated v k); [naive_solver|]. destruct e as [[[] w]|]; simpl; naive_solver.
Qed.

(** ** Properties *)

(** C25: a scan yields what point reads answer. Whatever the memtables, the files and the bounds, in
    either direction, the keys a scan yields are in order, and they are exactly the keys within the
    bounds that [get] finds, each with the value [get] answers; the scan ends, with status [Ok]. Covers
    the merge, the level iterators, the pruning of files by the bounds, deletions, range tombstones and
    the truncation point. *)
Theorem scan_matches_get {R It} (rops : SstReaderOps R) (ops : SstScanOps R It) (content : FileMetadata -> Sst)
    (reader_for : FileMetadata -> Result R) classify ss ms v lower upper has_upper reverse :
  version_ok content v -> readable content reader_for v -> Forall2 models ss ms ->
  (forall f r, f ∈ all_files v -> reader_for f = Value r -> SstScanLaws ops False r (content f)) ->
  (has_upper = false -> upper = []) ->
  exists bound, forall fuel n, (bound <= fuel < n)%nat ->
    exists found last,
      scan (H := child_ops reader_for) n fuel (make_iterator reader_for false classify ss v lower upper has_upper reverse) = (found, last) /\
      di_status (H := child_ops reader_for) last = Ok /\
      StronglySorted (fun a b => better_ reverse a.1 b.1 = true) found /\
      forall k value, (k, value) ∈ found <->
        lower <=k k /\ (has_upper = true -> k <k upper) /\ db_get reader_for false ss v k = Value value.
Proof. apply scan_get. Qed.


(** A prefix scan yields exactly the keys that start with the prefix. In either direction it yields
    every key [get] finds that starts with the prefix, with its value, and never runs on past them; a
    prefix of 0xFF bytes, or none, scans to the end of the key space. *)
Theorem prefix_scan_matches_get {R It} (rops : SstReaderOps R) (ops : SstScanOps R It) (content : FileMetadata -> Sst)
    (reader_for : FileMetadata -> Result R) classify ss ms v prefix reverse :
  version_ok content v -> readable content reader_for v -> Forall2 models ss ms ->
  (forall f r, f ∈ all_files v -> reader_for f = Value r -> SstScanLaws ops False r (content f)) ->
  exists bound, forall fuel n, (bound <= fuel < n)%nat ->
    exists found last,
      scan (H := child_ops reader_for) n fuel (prefix_iterator reader_for false classify ss v reverse prefix) = (found, last) /\
      di_status (H := child_ops reader_for) last = Ok /\
      forall k value, (k, value) ∈ found <-> starts_with k prefix = true /\ db_get reader_for false ss v k = Value value.
Proof.
  intros Hv Hr Hm Hs. unfold prefix_iterator. destruct (prefix_upper_bound prefix) as [upper|] eqn:E.
  - destruct (scan_get rops ops content reader_for classify ss ms v prefix upper true reverse Hv Hr Hm Hs ltac:(done)) as (bound & H).
    exists bound. intros fuel n Hb. destruct (H fuel n Hb) as (found & last & Es & Hok & _ & Hin). exists found, last.
    split; [done|]. split; [done|]. intros k value. rewrite Hin, (prefix_upper_bound_exact _ _ k E). naive_solver.
  - destruct (scan_get rops ops content reader_for classify ss ms v prefix [] false reverse Hv Hr Hm Hs ltac:(done)) as (bound & H).
    exists bound. intros fuel n Hb. destruct (H fuel n Hb) as (found & last & Es & Hok & _ & Hin). exists found, last.
    split; [done|]. split; [done|]. intros k value. rewrite Hin, (prefix_upper_bound_none _ k E). naive_solver.
Qed.
