(* ===== verification/Picker.v ===== *)
(** * Choosing a compaction

    [src/compact/picker.cpp] and [picker.hpp]. The scores only decide which level is compacted: they
    are in [Scores], and [pick_compaction] here takes the chosen level as an argument; what it then
    selects is modelled line by line. *)

From S2P Require Import Prelude Slice Format Framing Watermark VersionEdit Version.

(** ** Definitions *)

(** [ResolvedLevel] of [src/db/level_config.hpp]. *)
Record ResolvedLevel := {
  rl_level : Z;
  rl_compression : Compression;
  rl_max_bytes : option Z;
  rl_max_files : option Z;
  rl_slowdown_at : option Z;
  rl_stop_at : option Z;
  rl_target_file_bytes : Z
}.

(** [ResolvedLevels::last]. *)
Definition last_level (config : list ResolvedLevel) : Z := Z.of_nat (length config) - 1.

Record Compaction := {
  c_level : Z;
  c_output_level : Z;
  c_inputs : list FileMetadata;
  c_overlaps : list FileMetadata;
  c_grandparents : list FileMetadata;
  c_output_is_bottommost : bool;
  c_trivial_move : bool;
  c_inputs_trimmed : bool
}.

Definition is_overlapping_level (lvl : Z) (config : ResolvedLevel) : bool :=
  (lvl =? 0) || bool_decide (is_Some (rl_max_files config)).

(** One round of [widen]: an empty bound is read as "not set yet". *)
Definition widen_step (bounds : bytes * bytes) (f : FileMetadata) : bytes * bytes :=
  let '(lo, up) := bounds in
  let file_low := effective_smallest f in
  let file_high := effective_largest f in
  (if bool_decide (lo = []) || (file_low <?k lo) then file_low else lo,
   if bool_decide (up = []) || (up <?k file_high) then file_high else up).

Definition widen (files : list FileMetadata) (bounds : bytes * bytes) : bytes * bytes :=
  fold_left widen_step files bounds.

(** The [while (true)] of [transitive_overlap]. *)
Fixpoint transitive_loop (fuel : nat) (v : Version) (lvl : Z) (lo up : bytes)
    (selected : list FileMetadata) : list FileMetadata :=
  match fuel with
  | O => selected
  | S fuel' =>
      let found := overlapping_inclusive v lvl lo up in
      if Nat.eqb (length found) (length selected) then found
      else
        let '(lo', up') := widen found (lo, up) in
        if bool_decide (lo' = lo) && bool_decide (up' = up) then found
        else transitive_loop fuel' v lvl lo' up' found
  end.

Definition transitive_overlap (v : Version) (lvl : Z) (lo up : bytes) : list FileMetadata :=
  transitive_loop (S (S (length (files_at v lvl)))) v lvl lo up [].

(** The loop of [trim_to_budget] over the file numbers, oldest first. *)
Fixpoint keep_loop (by_age : list Z) (inputs : list FileMetadata) (budget : Z) (keep : list Z) (total : Z)
  : list Z :=
  match by_age with
  | [] => keep
  | number :: rest =>
      match List.find (fun f => file_number f =? number) inputs with
      | None => keep
      | Some f =>
          if negb (bool_decide (keep = [])) && (budget <? u64 (total + file_bytes f)) then keep
          else keep_loop rest inputs budget (number :: keep) (u64 (total + file_bytes f))
      end
  end.

(** [trim_to_budget]: what is left of the inputs, and whether anything was cut. *)
Definition trim_to_budget (inputs : list FileMetadata) (budget : Z) : list FileMetadata * bool :=
  if (budget =? 0) || (sum_bytes inputs <=? budget) then (inputs, false)
  else
    let by_age := merge_sort Z.le (file_number <$> inputs) in
    let keep := keep_loop by_age inputs budget [] 0 in
    (List.filter (fun f => bool_decide (file_number f ∈ keep)) inputs, true).

Definition seed_after_pointer (files : list FileMetadata) (pointer : bytes) : option FileMetadata :=
  match List.find (fun f => bool_decide (pointer = []) || (pointer <?k largest_key f)) files with
  | Some f => Some f
  | None => head files
  end.

Definition max_grandparent_overlap_bytes (output_level : ResolvedLevel) : Z :=
  u64 (rl_target_file_bytes output_level * 10).

Definition all_inputs (c : Compaction) : list FileMetadata := c_inputs c ++ c_overlaps c.

(** [Compaction::min_write_time_ms] and [max_write_time_ms]. *)
Definition compaction_min_time (c : Compaction) : Z :=
  fold_left (fun oldest f => if (oldest =? 0) || (min_write_time_ms f <? oldest) then min_write_time_ms f else oldest)
    (all_inputs c) 0.

Definition compaction_max_time (c : Compaction) : Z :=
  fold_left (fun newest f => if newest <? max_write_time_ms f then max_write_time_ms f else newest)
    (all_inputs c) 0.

(** [Compaction::watermark]. *)
Definition merge_watermarks (ws : list WatermarkInterval) : WatermarkInterval :=
  match ws with
  | [] => no_watermark
  | w :: rest => fold_left merge rest w
  end.

Definition compaction_watermark (c : Compaction) : WatermarkInterval :=
  merge_watermarks (watermark <$> all_inputs c).

Definition effective_hull (c : Compaction) : bytes * bytes := widen (all_inputs c) ([], []).

(** [Compaction::largest_key]. *)
Definition compaction_largest_key (c : Compaction) : bytes :=
  fold_left (fun largest f => if bool_decide (largest = []) || (largest <?k largest_key f) then largest_key f else largest)
    (all_inputs c) [].

Definition is_bottommost_for_range (v : Version) (output_level last : Z) (lo up : bytes) : bool :=
  forallb (fun lvl => bool_decide (overlapping_inclusive v lvl lo up = []))
    (seqZ (output_level + 1) (last - output_level)).

(** The oldest file of a level: the first of the smallest numbers. *)
Definition oldest_file (files : list FileMetadata) : option FileMetadata :=
  match files with
  | [] => None
  | f :: _ => Some (fold_left (fun seed cand => if file_number cand <? file_number seed then cand else seed) files f)
  end.

(** The attempt to grow the inputs back into the source level. *)
Definition expand_inputs (v : Version) (chosen output_level max_compaction_bytes : Z)
    (inputs overlaps : list FileMetadata) (bounds : bytes * bytes) : list FileMetadata :=
  let '(elo, eup) := widen overlaps bounds in
  let expanded := overlapping_inclusive v chosen elo eup in
  if Nat.ltb (length inputs) (length expanded) &&
     (u64 (sum_bytes expanded + sum_bytes overlaps) <=? max_compaction_bytes)
  then
    let '(clo, cup) := widen expanded (elo, eup) in
    let reoverlap := overlapping_inclusive v output_level clo cup in
    if Nat.eqb (length reoverlap) (length overlaps) then expanded else inputs
  else inputs.

(** [pick_compaction] from the level the scores chose. *)
Definition pick_compaction (v : Version) (config : list ResolvedLevel) (max_compaction_bytes chosen : Z)
  : option Compaction :=
  let last := last_level config in
  if last <? 1 then None
  else
    let! source := config !! Z.to_nat chosen in
    let! target := config !! Z.to_nat (chosen + 1) in
    let files := files_at v chosen in
    let output_level := chosen + 1 in
    let overlapping := is_overlapping_level chosen source in
    let! seed := if overlapping then oldest_file files
                 else seed_after_pointer files (default [] (compaction_pointers_ v !! chosen)) in
    let '(inputs, trimmed) :=
      if overlapping
      then trim_to_budget (transitive_overlap v chosen (effective_smallest seed) (effective_largest seed))
             max_compaction_bytes
      else ([seed], false) in
    let front := if overlapping then default seed (head inputs) else seed in
    let '(lo, up) := widen inputs (effective_smallest front, effective_largest front) in
    let overlaps := overlapping_inclusive v output_level lo up in
    let inputs :=
      if negb (bool_decide (overlaps = [])) && negb overlapping
      then expand_inputs v chosen output_level max_compaction_bytes inputs overlaps (lo, up)
      else inputs in
    let '(lo, up) := widen (inputs ++ overlaps) ([], []) in
    let grandparents := if output_level + 1 <=? last then overlapping_inclusive v (output_level + 1) lo up else [] in
    let bottommost := is_bottommost_for_range v output_level last lo up in
    let first := default seed (head inputs) in
    let drops_nothing := negb bottommost || ((num_tombstones first =? 0) && (num_range_tombstones first =? 0)) in
    let trivial := Nat.eqb (length inputs) 1 && bool_decide (overlaps = []) && drops_nothing &&
                   (sum_bytes grandparents <? max_grandparent_overlap_bytes target) in
    Some {| c_level := chosen; c_output_level := output_level; c_inputs := inputs; c_overlaps := overlaps;
            c_grandparents := grandparents; c_output_is_bottommost := bottommost;
            c_trivial_move := trivial; c_inputs_trimmed := trimmed |}.
