(* ===== verification/Outputs.v ===== *)
(** * Writing the outputs of a compaction

    [DbImpl::write_compaction_outputs] of [src/compact/compactor.cpp], from the merged entries on:
    what is dropped, where the outputs are cut, and which part of the carried range tombstones each
    of them takes. The size test [writer->estimated_bytes() >= target_file_bytes] is the parameter
    [full]; every theorem holds whatever it answers. *)

From S2P Require Import Prelude Slice Format Framing Watermark VersionEdit Version Memtable Merging Sst.

(** ** Definitions *)

Record OutState := {
  os_lower : option bytes;
  os_cut_pending : bool;
  os_writer : option SstWriter;
  os_grandparents : list FileMetadata;
  os_grandparent_bytes : Z;
  os_outputs : list SstWriter
}.

Definition out_start (grandparents : list FileMetadata) : OutState :=
  {| os_lower := None; os_cut_pending := false; os_writer := None; os_grandparents := grandparents;
     os_grandparent_bytes := 0; os_outputs := [] |}.

Section Outputs.
Context (carried : list RangeTombstone) (full : SstWriter -> bool) (grandparent_limit : Z).

(** [finish_output], given the key that opens the next output. *)
Definition finish_output (st : OutState) (output_upper : option bytes) : OutState :=
  match os_writer st with
  | None => st
  | Some w =>
      let w := fold_left writer_add_range_tombstone (clip_ranges carried (os_lower st) output_upper) w in
      {| os_lower := os_lower st; os_cut_pending := os_cut_pending st; os_writer := None;
         os_grandparents := os_grandparents st; os_grandparent_bytes := os_grandparent_bytes st;
         os_outputs := if (w_num_entries w =? 0) && (w_num_range_tombstones w =? 0) then os_outputs st
                       else w :: os_outputs st |}
  end.

(** The grandparents the key has passed. *)
Fixpoint pass_grandparents (key : bytes) (gs : list FileMetadata) (total : Z) : list FileMetadata * Z :=
  match gs with
  | g :: rest => if largest_key g <?k key then pass_grandparents key rest (u64 (total + file_bytes g))
                 else (gs, total)
  | [] => (gs, total)
  end.

(** One round of the loop over the merge. *)
Definition out_step (drop_tombstones : bool) (truncation_point : bytes) (st : OutState) (kv : KV) : OutState :=
  if drop_tombstones && is_delete kv.2.1 then st
  else if negb (bool_decide (truncation_point = [])) && (kv.1 <?k truncation_point) then st
  else
    let st :=
      if os_cut_pending st then
        let st := finish_output st (Some kv.1) in
        {| os_lower := Some kv.1; os_cut_pending := false; os_writer := os_writer st;
           os_grandparents := os_grandparents st; os_grandparent_bytes := os_grandparent_bytes st;
           os_outputs := os_outputs st |}
      else st in
    let w := writer_add (default new_writer (os_writer st)) kv in
    let '(gs, total) := pass_grandparents kv.1 (os_grandparents st) (os_grandparent_bytes st) in
    let cut := full w || (grandparent_limit <? total) in
    {| os_lower := os_lower st; os_cut_pending := if cut then true else os_cut_pending st;
       os_writer := Some w; os_grandparents := gs;
       os_grandparent_bytes := if cut then 0 else total; os_outputs := os_outputs st |}.

(** The whole loop, and the file the tombstones get when no entry was left to carry them. *)
Definition write_outputs (drop_tombstones : bool) (truncation_point : bytes)
    (grandparents : list FileMetadata) (merged : list KV) : list SstWriter :=
  let st := fold_left (out_step drop_tombstones truncation_point) merged (out_start grandparents) in
  let st :=
    match os_writer st with
    | None =>
        if bool_decide (carried = []) then st
        else {| os_lower := os_lower st; os_cut_pending := os_cut_pending st; os_writer := Some new_writer;
                os_grandparents := os_grandparents st; os_grandparent_bytes := os_grandparent_bytes st;
                os_outputs := os_outputs st |}
    | Some _ => st
    end in
  rev (os_outputs (finish_output st None)).

(** ** The shape of the result

    The kept entries fall into consecutive groups; each output holds one group and the part of the
    carried ranges between its first key and the next group's, unbounded at the two ends. *)

Record OutSlice := { sl_lower : option bytes; sl_upper : option bytes; sl_entries : list KV }.

Definition first_key (g : list KV) : option bytes := fst <$> head g.

Fixpoint slices (lo : option bytes) (groups : list (list KV)) (last_upper : option bytes) : list OutSlice :=
  match groups with
  | [] => []
  | g :: rest =>
      let up := match rest with [] => last_upper | g' :: _ => first_key g' end in
      {| sl_lower := lo; sl_upper := up; sl_entries := g |} :: slices up rest last_upper
  end.

Definition slice_sst (s : OutSlice) : Sst :=
  {| entries := sl_entries s; ranges := clip_ranges carried (sl_lower s) (sl_upper s) |}.

(** The entries the loop keeps. *)
Definition kept (drop_tombstones : bool) (truncation_point : bytes) (kv : KV) : bool :=
  negb (drop_tombstones && is_delete kv.2.1) &&
  negb (negb (bool_decide (truncation_point = [])) && (kv.1 <?k truncation_point)).

Lemma slices_snoc lo gs g up : slices lo (gs ++ [g]) up =
  slices lo gs (first_key g) ++ [{| sl_lower := match gs with [] => lo | _ => first_key g end;
                                    sl_upper := up; sl_entries := g |}].
Proof.
  revert lo. induction gs as [|h gs IH]; intros lo; [done|]. cbn [slices app].
  rewrite IH. by destruct gs as [|h' gs].
Qed.

(** What the loop has done after the kept entries [concat gs ++ cur]. *)
Definition out_inv (st : OutState) (gs : list (list KV)) (cur : list KV) : Prop :=
  Forall (fun g => g <> []) gs /\ Forall writer_ok (os_outputs st) /\
  match os_writer st with
  | None => gs = [] /\ cur = [] /\ os_lower st = None /\ os_cut_pending st = false /\ os_outputs st = []
  | Some w => cur <> [] /\ w_entries w = rev cur /\ w_ranges w = [] /\ writer_ok w /\
      os_lower st = match gs with [] => None | _ => first_key cur end /\
      map writer_content (rev (os_outputs st)) = map slice_sst (slices None gs (first_key cur))
  end.

Context (Hsmall : Z.of_nat (length carried) < 2 ^ 64).

Lemma clip_length lo up : Z.of_nat (length (clip_ranges carried lo up)) < 2 ^ 64.
Proof.
  unfold clip_ranges. enough (length (filter (fun r => lower r <?k upper r) (map (clip_one lo up) carried)) <= length carried)%nat by lia.
  etrans; [apply length_filter|]. by rewrite length_map.
Qed.

(** Closing the current output. *)
Lemma finish_inv st gs cur up :
  out_inv st gs cur -> cur <> [] ->
  os_writer (finish_output st up) = None /\
  os_grandparents (finish_output st up) = os_grandparents st /\
  Forall writer_ok (os_outputs (finish_output st up)) /\
  map writer_content (rev (os_outputs (finish_output st up))) = map slice_sst (slices None (gs ++ [cur]) up).
Proof.
  intros (Hgs & Hok & Hst) Hcur. unfold finish_output. destruct (os_writer st) as [w|].
  2:{ destruct Hst as (_ & ? & _). done. }
  destruct Hst as (_ & He & Hr & Hw & Hlo & Hout).
  destruct (writer_add_ranges (clip_ranges carried (os_lower st) up) w Hw) as (Hw' & Hr' & He').
  { rewrite Hr. simpl. apply clip_length. }
  set (w' := fold_left writer_add_range_tombstone _ w) in *. cbn [os_writer os_outputs os_grandparents].
  rewrite (wo_entries _ Hw'), He', He, length_rev. destruct (Z.eqb_spec (Z.of_nat (length cur)) 0) as [E|_].
  { destruct cur; [done|simpl in E; lia]. }
  cbn [andb rev]. split_and!; [done|done|by constructor|].
  cbn [rev]. rewrite map_app, Hout, slices_snoc, map_app. f_equal. unfold writer_content, slice_sst. simpl.
  rewrite He', Hr', Hr, He, app_nil_r, !rev_involutive, Hlo. by destruct gs.
Qed.

Lemma out_step_inv drop tp st gs cur kv :
  out_inv st gs cur -> Z.of_nat (length cur) + 1 < 2 ^ 64 -> exists gs' cur', out_inv (out_step drop tp st kv) gs' cur' /\
    concat gs' ++ cur' = concat gs ++ cur ++ (if kept drop tp kv then [kv] else []).
Proof.
  intros Hinv Hlen. unfold out_step, kept. destruct (drop && is_delete kv.2.1).
  { exists gs, cur. simpl. by rewrite app_nil_r. }
  simpl. destruct (negb (bool_decide (tp = [])) && (kv.1 <?k tp)); [exists gs, cur; simpl; by rewrite app_nil_r|].
  simpl. pose proof Hinv as (Hgs & Hok & Hst). destruct (os_cut_pending st) eqn:Ecut.
  - (* the current output is closed at this key *)
    assert (cur <> []) as Hcur by (destruct (os_writer st); [tauto|]; destruct Hst as (_ & _ & _ & ? & _); congruence).
    destruct (finish_inv st gs cur (Some kv.1) Hinv Hcur) as (Hwn & Hgp & Hok' & Hout).
    rewrite Hwn. cbn [os_lower os_writer os_grandparents os_grandparent_bytes os_outputs default from_option].
    destruct (pass_grandparents _ _ _) as [gps total].
    exists (gs ++ [cur]), [kv]. split; [|by rewrite concat_app; cbn [concat]; rewrite app_nil_r, app_assoc].
    split; [apply Forall_app; split; [done|by constructor]|]. split; [done|]. simpl.
    split_and!; try done.
    + apply writer_ok_add; [apply writer_ok_new|simpl; lia].
    + by destruct gs.
  - cbv zeta. destruct (pass_grandparents _ _ _) as [gps total].
    exists gs, (cur ++ [kv]). split; [|done].
    split; [done|]. split; [done|]. cbn [os_writer os_lower os_outputs].
    destruct (os_writer st) as [w|]; cbn [default from_option id].
    + destruct Hst as (Hc & He & Hr & Hw & Hlo & Hout).
      assert (first_key (cur ++ [kv]) = first_key cur) as Efk by (by destruct cur).
      rewrite Efk. split_and!; [by destruct cur| | |apply writer_ok_add; [done|rewrite He, length_rev; lia]|done|done].
      * simpl. by rewrite He, rev_app_distr.
      * simpl. done.
    + destruct Hst as (-> & -> & Hlo & _ & ->). simpl. split_and!; try done.
      apply writer_ok_add; [apply writer_ok_new|simpl; lia].
Qed.

Lemma out_loop_inv drop tp merged st gs cur :
  out_inv st gs cur -> Z.of_nat (length (concat gs ++ cur)) + Z.of_nat (length merged) < 2 ^ 64 ->
  exists gs' cur', out_inv (fold_left (out_step drop tp) merged st) gs' cur' /\
    concat gs' ++ cur' = (concat gs ++ cur) ++ List.filter (kept drop tp) merged.
Proof.
  revert st gs cur. induction merged as [|kv merged IH]; intros st gs cur Hinv Hlen; simpl.
  - exists gs, cur. by rewrite app_nil_r.
  - destruct (out_step_inv drop tp st gs cur kv Hinv) as (gs1 & cur1 & Hinv1 & E1).
    { rewrite length_app in Hlen. simpl in Hlen. lia. }
    destruct (IH _ gs1 cur1 Hinv1) as (gs2 & cur2 & Hinv2 & E2).
    { rewrite E1. rewrite !length_app in *. simpl in Hlen. destruct (kept drop tp kv); simpl; lia. }
    exists gs2, cur2. split; [done|]. rewrite E2, E1, <- !app_assoc. by destruct (kept drop tp kv).
Qed.

(** The outputs are the slices of the kept entries, in order. *)
Lemma write_outputs_slices drop tp gps merged :
  Z.of_nat (length merged) < 2 ^ 64 -> canonical carried ->
  let K := List.filter (kept drop tp) merged in
  let outs := write_outputs drop tp gps merged in
  Forall writer_ok outs /\
  ((K = [] /\ carried = [] /\ outs = []) \/
   (K = [] /\ carried <> [] /\ map writer_content outs = [ {| entries := []; ranges := clip_ranges carried None None |} ]) \/
   (K <> [] /\ exists groups, groups <> [] /\ Forall (fun g => g <> []) groups /\ concat groups = K /\
      map writer_content outs = map slice_sst (slices None groups None))).
Proof.
  intros Hlen Hcan K outs. destruct (out_loop_inv drop tp merged (out_start gps) [] []) as (gs & cur & Hinv & E).
  { split_and!; [constructor|constructor|done]. } { simpl. lia. }
  simpl in E. fold K in E. subst outs. unfold write_outputs.
  set (st := fold_left (out_step drop tp) merged (out_start gps)) in *.
  destruct (decide (cur = [])) as [->|Hcur].
  - destruct Hinv as (Hgs & Hok & Hst). destruct (os_writer st) as [w|] eqn:Ew; [tauto|].
    destruct Hst as (-> & _ & Hlo & _ & Ho). simpl in E. rewrite <- E.
    destruct (bool_decide_reflect (carried = [])) as [Hc|Hc].
    + unfold finish_output. rewrite Ew, Ho. simpl. split; [constructor|]. by left.
    + unfold finish_output. simpl. rewrite Ho, Hlo.
      destruct (writer_add_ranges (clip_ranges carried None None) new_writer writer_ok_new) as (Hw' & Hr' & He').
      { simpl. apply clip_length. }
      set (w' := fold_left writer_add_range_tombstone _ new_writer) in *.
      rewrite (wo_entries _ Hw'), (wo_ranges _ Hw'), He', Hr'. simpl. rewrite app_nil_r, length_rev.
      assert (clip_ranges carried None None = carried) as Hclip.
      { unfold clip_ranges. destruct Hcan as [_ Hf]. clear -Hf. induction Hf as [|r rs Hr Hf IH]; [done|].
        simpl. destruct r as [l u]. unfold clip_one at 1. simpl. rewrite filter_cons_True by (by apply Is_true_true, key_ltb_lt).
        by rewrite IH. }
      destruct (Z.eqb_spec (Z.of_nat (length (clip_ranges carried None None))) 0) as [E0|_].
      { rewrite Hclip in E0. destruct carried; [done|simpl in E0; lia]. }
      simpl. split; [constructor; [done|constructor]|]. right; left. split_and!; [done|done|].
      unfold writer_content. rewrite He', Hr'. simpl. by rewrite app_nil_r, rev_involutive.
  - assert (os_writer st <> None) as Hwn.
    { destruct Hinv as (_ & _ & Hst). destruct (os_writer st); [done|]. destruct Hst as (_ & ? & _). done. }
    destruct (finish_inv st gs cur None Hinv Hcur) as (_ & _ & Hok' & Hout).
    destruct (os_writer st) as [w|]; [|done]. split; [by apply Forall_rev|]. right; right. split.
    { rewrite <- E. intros [_ ?]%app_eq_nil. done. }
    exists (gs ++ [cur]). split_and!; [by destruct gs| |by rewrite concat_app; simpl; rewrite app_nil_r|done].
    apply Forall_app. split; [apply Hinv|by constructor].
Qed.
End Outputs.

(** ** The slices tile the keyspace *)

Definition at_least (lo : option bytes) (k : bytes) : Prop :=
  match lo with Some l => l <=k k | None => True end.

Definition slice_before (a b : OutSlice) : Prop :=
  exists u l, sl_upper a = Some u /\ sl_lower b = Some l /\ u <=k l.

Record tiles (lo : option bytes) (K : list KV) (ss : list OutSlice) : Prop := {
  t_sorted : forall s, s ∈ ss -> key_sorted (sl_entries s);
  t_inside : forall s kv, s ∈ ss -> kv ∈ sl_entries s -> in_bounds (sl_lower s) (sl_upper s) kv.1 = true;
  t_subset : forall s kv, s ∈ ss -> kv ∈ sl_entries s -> kv ∈ K;
  t_ordered : StronglySorted slice_before ss;
  t_above : forall s l, s ∈ ss -> lo = Some l -> exists l', sl_lower s = Some l' /\ l <=k l';
  t_covers : forall k, at_least lo k ->
    exists s, s ∈ ss /\ in_bounds (sl_lower s) (sl_upper s) k = true /\ assoc k (sl_entries s) = assoc k K;
  t_upper : forall s u, s ∈ ss -> sl_upper s = Some u -> exists e, (u, e) ∈ K;
  t_lower : forall s l, s ∈ ss -> sl_lower s = Some l -> lo = Some l \/ exists e, (l, e) ∈ K
}.

Lemma in_bounds_intro lo up k :
  at_least lo k -> (forall u, up = Some u -> k <k u) -> in_bounds lo up k = true.
Proof.
  unfold in_bounds, at_least. intros Hlo Hup. apply andb_true_iff. split.
  - destruct lo; [by apply key_leb_le|done].
  - destruct up; [by apply key_ltb_lt, Hup|done].
Qed.

Lemma in_bounds_elim lo up k :
  in_bounds lo up k = true -> at_least lo k /\ (forall u, up = Some u -> k <k u).
Proof.
  unfold in_bounds, at_least. intros [H1 H2]%andb_true_iff. split.
  - destruct lo; [by apply key_leb_le|done].
  - intros u ->. by apply key_ltb_lt.
Qed.

Lemma slices_tile lo groups :
  groups <> [] -> Forall (fun g => g <> []) groups -> key_sorted (concat groups) ->
  (forall kv, kv ∈ concat groups -> at_least lo kv.1) -> tiles lo (concat groups) (slices lo groups None).
Proof.
  revert lo. induction groups as [|g rest IH]; intros lo Hne Hgs Hs Hlo; [done|].
  apply Forall_cons in Hgs as [Hg Hrest]. simpl in Hs, Hlo.
  assert (key_sorted g) as Hsg by (by eapply StronglySorted_app_1_l).
  assert (forall x y, x ∈ g -> y ∈ concat rest -> x.1 <k y.1) as Hlt
    by (intros x y Hx Hy; by apply (StronglySorted_app_1_elem_of (fun a b : KV => a.1 <k b.1) g (concat rest))).
  destruct rest as [|g' rest].
  { simpl. rewrite app_nil_r in *. split; simpl.
    - intros s ->%list_elem_of_singleton. done.
    - intros s kv ->%list_elem_of_singleton Hkv. simpl in *. apply in_bounds_intro; [by apply Hlo|done].
    - by intros s kv ->%list_elem_of_singleton Hkv.
    - repeat constructor.
    - intros s l ->%list_elem_of_singleton ->. exists l. split; [done|key_order].
    - intros k Hk. eexists. split; [by left|]. simpl. split; [by apply in_bounds_intro|done].
    - by intros s u ->%list_elem_of_singleton ?.
    - intros s l ->%list_elem_of_singleton Hl. by left. }
  destruct g' as [|[k1 e1] g']; [by apply Forall_cons in Hrest as [? _]|].
  assert ((k1, e1) ∈ concat (((k1, e1) :: g') :: rest)) as Hk1 by (simpl; by left).
  assert (key_sorted (concat (((k1, e1) :: g') :: rest))) as Hsr by (by eapply StronglySorted_app_1_r).
  destruct (IH (Some k1)) as [I1 I2 I3 I4 I5 I6 I7 I8]; try done.
  { simpl. intros kv [->|Hkv]%elem_of_cons; [simpl; key_order|]. simpl in Hsr. inversion_clear Hsr as [|? ? _ Hf].
    rewrite Forall_forall in Hf. specialize (Hf kv Hkv). simpl in Hf. key_order. }
  change (slices lo (g :: ((k1, e1) :: g') :: rest) None) with
    ({| sl_lower := lo; sl_upper := Some k1; sl_entries := g |} :: slices (Some k1) (((k1, e1) :: g') :: rest) None).
  set (R := ((k1, e1) :: g') :: rest) in *. set (s0 := {| sl_lower := lo; sl_upper := Some k1; sl_entries := g |}).
  change (concat (g :: R)) with (g ++ concat R) in *.
  assert (forall kv, kv ∈ concat R -> at_least (Some k1) kv.1) as Hk1le.
  { simpl. intros kv [->|Hkv]%elem_of_cons; [simpl; key_order|]. simpl in Hsr. inversion_clear Hsr as [|? ? _ Hf].
    rewrite Forall_forall in Hf. specialize (Hf kv Hkv). simpl in Hf. key_order. }
  split.
  - intros s [->|Hin]%elem_of_cons; [done|by apply I1].
  - intros s kv [->|Hin]%elem_of_cons Hkv; [|by apply I2]. simpl in *. apply in_bounds_intro.
    + apply Hlo, elem_of_app. by left.
    + intros u [= <-]. by apply (Hlt kv (k1, e1)).
  - intros s kv [->|Hin]%elem_of_cons Hkv; apply elem_of_app; [by left|right; by eapply I3].
  - constructor; [done|]. rewrite Forall_forall. intros s Hin. destruct (I5 s k1 Hin eq_refl) as (l' & El & ?).
    exists k1, l'. done.
  - intros s l [->|Hin]%elem_of_cons ->; [exists l; split; [done|key_order]|].
    destruct (I5 s k1 Hin eq_refl) as (l' & El & ?). exists l'. split; [done|].
    assert (at_least (Some l) k1) by (apply (Hlo (k1, e1)), elem_of_app; by right). simpl in *. key_order.
  - intros k Hk. destruct (decide (k <k k1)) as [Hlt1|Hge].
    + exists s0. split; [by left|]. split; [apply in_bounds_intro; [done|by intros u [= <-]]|].
      rewrite assoc_app. cbn [sl_entries s0]. destruct (assoc k g) as [e|]; [done|]. symmetry. apply assoc_None.
      intros e Hin. apply Hk1le in Hin. cbn [at_least fst] in Hin. key_order.
    + apply key_not_lt in Hge. destruct (I6 k Hge) as (s & Hin & Hb & Ha). exists s. split; [by right|]. split; [done|].
      rewrite Ha, assoc_app. destruct (assoc k g) as [e|] eqn:Eg; [|done].
      apply assoc_elem in Eg; [|done]. specialize (Hlt _ _ Eg Hk1). simpl in Hlt. exfalso. key_order.
  - intros s u [->|Hin]%elem_of_cons Hu; [simpl in Hu; injection Hu as <-; exists e1; apply elem_of_app; by right|].
    destruct (I7 s u Hin Hu) as [e He]. exists e. apply elem_of_app. by right.
  - intros s l [->|Hin]%elem_of_cons Hl; [by left|]. right. destruct (I8 s l Hin Hl) as [[= ->]|[e He]].
    + exists e1. apply elem_of_app. by right.
    + exists e. apply elem_of_app. by right.
Qed.

(** ** Properties *)

(** The outputs of a compaction lose nothing and overlap nowhere. Wherever the size test cuts,
    the outputs' contents are slices that tile the keyspace: each key kept is in the one output whose
    bounds hold it, and each carried range tombstone is cut at exactly those bounds. When no entry is
    kept, one file carries the tombstones, and when there are none either nothing is written. *)
Theorem outputs_tile_keyspace carried full limit drop_tombstones tp grandparents merged :
  Z.of_nat (length carried) < 2 ^ 64 -> Z.of_nat (length merged) < 2 ^ 64 ->
  canonical carried -> key_sorted merged ->
  let K := List.filter (kept drop_tombstones tp) merged in
  let outs := write_outputs carried full limit drop_tombstones tp grandparents merged in
  (K = [] /\ carried = [] /\ outs = []) \/
  (K = [] /\ carried <> [] /\
   map writer_content outs = [ {| entries := []; ranges := clip_ranges carried None None |} ]) \/
  (exists ss, tiles None K ss /\ map writer_content outs = map (slice_sst carried) ss).
Proof.
  intros Hc Hm Hcan Hs. cbv zeta.
  destruct (write_outputs_slices carried full limit Hc drop_tombstones tp grandparents merged Hm Hcan)
    as (_ & [H|[H|(HK & groups & Hg0 & Hg & HC & E)]]); [by left|by right; left|right; right].
  exists (slices None groups None). split; [|done]. rewrite <- HC.
  apply slices_tile; [done|done| |done]. rewrite HC. by apply StronglySorted_filter_bool.
Qed.

Lemma outputs_tile_keyspace_witness :
  let merged := [([x61], (Put, [x31])); ([x62], (Delete, [])); ([x63], (Put, [x33]))] in
  let K := List.filter (kept true []) merged in
  let outs := write_outputs [] (fun _ => true) 100 true [] [] merged in
  (K = [] /\ @nil RangeTombstone = [] /\ outs = []) \/
  (K = [] /\ @nil RangeTombstone <> [] /\
   map writer_content outs = [ {| entries := []; ranges := clip_ranges [] None None |} ]) \/
  (exists ss, tiles None K ss /\ map writer_content outs = map (slice_sst []) ss).
Proof.
  apply (outputs_tile_keyspace [] (fun _ => true) 100 true [] []
           [([x61], (Put, [x31])); ([x62], (Delete, [])); ([x63], (Put, [x33]))]); [simpl; lia|simpl; lia| |].
  - split; constructor.
  - repeat constructor.
Defined.
