(* ===== verification/Compact.v ===== *)
(** * Running a compaction

    [DbImpl::write_compaction_outputs] and [DbImpl::run_compaction] of [src/compact/compactor.cpp]:
    reading the inputs, merging them, writing the outputs and installing the edit; and the theorem
    that a compaction chosen soundly ([compaction_ok]) changes no answer.

    A file's content is found by its number: [store n] is what object [n] holds. Numbers are never
    reused, so writing an output extends the store at a fresh number ([store_put]). *)

From S2P Require Import Prelude Slice Format Framing Watermark VersionEdit Version Memtable Merging Sst Lsm Picker Outputs.

(** ** Definitions *)

Definition Store : Type := Z -> Sst.
Definition store_content (store : Store) (f : FileMetadata) : Sst := store (file_number f).
Definition store_put (store : Store) (number : Z) (c : Sst) : Store :=
  fun n => if n =? number then c else store n.

(** What [write_new_sst] answers for one output. *)
Record Written := {
  wr_number : Z;
  wr_store : bytes;
  wr_bytes : Z;
  wr_provider : bytes;
  wr_metadata : bytes
}.

(** The outputs, each under the number it was given. *)
Definition store_puts (written : nat -> Written) (store : Store) (ws : list (nat * SstWriter)) : Store :=
  fold_left (fun s iw => store_put s (wr_number (written iw.1)) (writer_content iw.2)) ws store.

Section Run.
Context {R : Type} `{ops : SstReaderOps R} (reader_for : FileMetadata -> Result R).

(** The loop that opens every input, in recency order. *)
Fixpoint read_inputs (files : list FileMetadata) : Result (list (list KV) * list (list RangeTombstone)) :=
  match files with
  | [] => Value ([], [])
  | f :: rest =>
      let? reader := reader_for f in
      let? kvs := sr_entries reader in
      let? rs := sr_range_tombstones reader in
      let? (children, child_ranges) := read_inputs rest in
      Value (kvs :: children, rs :: child_ranges)
  end.

Definition output_file (c : Compaction) (target : ResolvedLevel) (wr : Written) (w : SstWriter) : FileMetadata :=
  file_of {| p_level := c_output_level c; p_number := wr_number wr; p_store := wr_store wr;
             p_bytes := wr_bytes wr; p_compression := rl_compression target;
             p_min_time := compaction_min_time c; p_max_time := compaction_max_time c;
             p_watermark := compaction_watermark c; p_provider := wr_provider wr;
             p_metadata := wr_metadata wr |} w.

Definition carried_ranges (c : Compaction) (child_ranges : list (list RangeTombstone)) : list RangeTombstone :=
  if c_output_is_bottommost c then [] else merge_ranges (concat child_ranges).

(** [write_compaction_outputs], up to the writers; [target] is the output level's configuration. *)
Definition compaction_writers (full : SstWriter -> bool) (tp : bytes) (c : Compaction) (target : ResolvedLevel)
    (children : list (list KV)) (child_ranges : list (list RangeTombstone)) : list SstWriter :=
  write_outputs (carried_ranges c child_ranges) full (max_grandparent_overlap_bytes target)
    (c_output_is_bottommost c) tp (c_grandparents c)
    (drain forward (make_carriers child_ranges) children).

(** The copy of a file's record a trivial move files one level down. *)
Definition moved_to (lvl : Z) (f : FileMetadata) : FileMetadata :=
  {| level := lvl; file_number := file_number f; store_id := store_id f;
     smallest_key := smallest_key f; largest_key := largest_key f; file_bytes := file_bytes f;
     num_entries := num_entries f; num_tombstones := num_tombstones f;
     num_range_tombstones := num_range_tombstones f;
     smallest_range_key := smallest_range_key f; largest_range_key := largest_range_key f;
     compression := compression f; min_write_time_ms := min_write_time_ms f;
     max_write_time_ms := max_write_time_ms f; watermark := watermark f;
     encryption_provider := encryption_provider f; encryption_metadata := encryption_metadata f |}.

(** The edits [run_compaction] installs. *)
Definition move_edit (c : Compaction) (f : FileMetadata) : VersionEdit :=
  {| next_file_number := 0;
     added := [moved_to (c_output_level c) f];
     deleted := [ {| ref_level := c_level c; ref_number := file_number f |} ];
     compaction_pointers := [(c_level c, compaction_largest_key c)];
     truncation_point := []; floor_update := Silent; watermark_floor := {| position := None |} |}.

Definition merge_edit (c : Compaction) (outputs : list FileMetadata) : VersionEdit :=
  {| next_file_number := 0;
     added := outputs;
     deleted := map (fun f => {| ref_level := c_level c; ref_number := file_number f |}) (c_inputs c) ++
                map (fun f => {| ref_level := c_output_level c; ref_number := file_number f |}) (c_overlaps c);
     compaction_pointers := [(c_level c, compaction_largest_key c)];
     truncation_point := []; floor_update := Silent; watermark_floor := {| position := None |} |}.

(** [run_compaction] up to the manifest: the edit it installs, and the store with the outputs in it.
    [tp] is the truncation point of the version [write_compaction_outputs] reads. *)
Definition compaction_edit (full : SstWriter -> bool) (written : nat -> Written) (target : ResolvedLevel)
    (tp : bytes) (store : Store) (c : Compaction) : Result (VersionEdit * Store) :=
  if c_trivial_move c then
    match c_inputs c with
    | f :: _ => Value (move_edit c f, store)
    | [] => Unexpected Corrupt
    end
  else
    let? (children, child_ranges) := read_inputs (all_inputs c) in
    let ws := compaction_writers full tp c target children child_ranges in
    let files := imap (fun i w => output_file c target (written i) w) ws in
    Value (merge_edit c files, store_puts written store (imap pair ws)).

(** The whole of it: the new version. *)
Definition run_compaction (full : SstWriter -> bool) (written : nat -> Written) (target : ResolvedLevel)
    (v : Version) (store : Store) (c : Compaction) : Result (Version * Store) :=
  let? (e, store') := compaction_edit full written target (truncation_point_ v) store c in
  Value (apply v e, store').
End Run.

(** ** What makes a compaction sound *)

Section Sound.
Context (content : FileMetadata -> Sst).

Record compaction_ok (v : Version) (c : Compaction) : Prop := {
  co_levels : 0 <= c_level c /\
    (c_output_level c = c_level c + 1 \/ (c_output_level c = c_level c /\ 0 < c_level c));
  co_inputs : forall f, f ∈ c_inputs c -> f ∈ files_at v (c_level c);
  co_overlaps : forall f, f ∈ c_overlaps c -> f ∈ files_at v (c_output_level c);
  co_some : c_inputs c <> [];
  (* whatever stays at the output level lies on one side of everything rewritten *)
  co_apart : forall p, p ∈ files_at v (c_output_level c) -> p ∉ all_inputs c ->
    (forall g, g ∈ all_inputs c -> precedes p g) \/ (forall g, g ∈ all_inputs c -> precedes g p);
  (* whatever stays at the source level outranks what goes down *)
  co_oldest : forall g f k, g ∈ files_at v (c_level c) -> g ∉ c_inputs c -> f ∈ c_inputs c ->
    touches content g k -> touches content f k -> newer_than g f = true;
  (* the merge reads the inputs newest first *)
  co_recency : forall i j a b k, (i < j)%nat -> all_inputs c !! i = Some a -> all_inputs c !! j = Some b ->
    touches content a k -> touches content b k -> newer_than a b = true;
  (* nothing below can be uncovered *)
  co_bottom : c_output_is_bottommost c = true -> forall p g k, p ∈ all_files v ->
    c_output_level c < level p -> g ∈ all_inputs c -> touches content p k -> touches content g k -> False;
  co_trivial : c_trivial_move c = true -> exists f, c_inputs c = [f] /\ c_overlaps c = []
}.
End Sound.

(** ** The merge keeps the newest verdict *)

Lemma merged_first_verdict (content : FileMetadata -> Sst) fs k :
  verdict_of (merged_entry (map (fun f => ranges (content f)) fs) (map (fun f => entries (content f)) fs) k)
    (any_covers (concat (map (fun f => ranges (content f)) fs)) k) = first_verdict content fs k.
Proof. rewrite first_verdict_ssts, <- merged_ssts_verdict. by rewrite !map_map. Qed.

(** *** Bounds of merged ranges come from the ranges merged *)

Lemma merge_step_bounds (P Q : bytes -> Prop) merged r :
  Forall (fun x => P (lower x) /\ Q (upper x)) merged -> P (lower r) -> Q (upper r) ->
  Forall (fun x => P (lower x) /\ Q (upper x)) (merge_step merged r).
Proof.
  intros Hm HP HQ. unfold merge_step. destruct (upper r <=?k lower r); [done|].
  destruct merged as [|back rest]; [by repeat constructor|]. apply Forall_cons in Hm as [[Hb1 Hb2] Hr].
  destruct (lower r <=?k upper back); [|by repeat constructor].
  constructor; [|done]. by destruct (upper back <?k upper r).
Qed.

Lemma merge_ranges_bounds rs r :
  r ∈ merge_ranges rs -> (exists a, a ∈ rs /\ lower r = lower a) /\ (exists b, b ∈ rs /\ upper r = upper b).
Proof.
  unfold merge_ranges. rewrite elem_of_rev.
  set (P := fun k => exists a, a ∈ rs /\ k = lower a). set (Q := fun k => exists b, b ∈ rs /\ k = upper b).
  assert (forall l merged, (forall x, x ∈ l -> x ∈ rs) -> Forall (fun x => P (lower x) /\ Q (upper x)) merged ->
    Forall (fun x => P (lower x) /\ Q (upper x)) (fold_left merge_step l merged)) as Hf.
  { induction l as [|x l IH]; intros merged Hl Hm; simpl; [done|]. apply IH; [intros; apply Hl; by right|].
    assert (x ∈ rs) by (apply Hl; by left). apply merge_step_bounds; [done|by exists x|by exists x]. }
  intros Hr. specialize (Hf (merge_sort range_le rs) []).
  assert (Forall (fun x => P (lower x) /\ Q (upper x)) (fold_left merge_step (merge_sort range_le rs) [])) as Hall.
  { apply Hf; [|constructor]. intros x Hx. by rewrite merge_sort_Permutation in Hx. }
  rewrite Forall_forall in Hall. by apply Hall.
Qed.

(** ** What the outputs hold *)

Lemma sorted_kvs_forward l : sorted_kvs forward l <-> key_sorted l.
Proof.
  unfold sorted_kvs, key_sorted, forward. split; induction 1 as [|a l Hs IH Hfa]; constructor; try done;
    (eapply Forall_impl; [exact Hfa|]); intros b; simpl; by rewrite key_ltb_lt.
Qed.

Lemma assoc_filter (p : KV -> bool) l k :
  key_sorted l ->
  assoc k (List.filter p l) = match assoc k l with Some e => if p (k, e) then Some e else None | None => None end.
Proof.
  intros Hs. assert (key_sorted (List.filter p l)) as Hs' by (by apply StronglySorted_filter_bool).
  apply option_eq. intros e. rewrite (assoc_elem _ _ _ Hs'), elem_of_filter_bool, <- (assoc_elem _ _ _ Hs).
  destruct (assoc k l) as [e'|]; [|naive_solver]. split.
  - intros [[= ->] Hp]. by rewrite Hp.
  - destruct (p (k, e')) eqn:E; [|done]. intros [= ->]. done.
Qed.

(** What is left of a verdict when tombstones are dropped. *)
Definition drop_verdict (drop : bool) (e : option Entry) : option Entry :=
  if drop then match e with Some (Put, v) => Some (Put, v) | _ => None end else e.

Definition below_point (tp k : bytes) : bool := negb (bool_decide (tp = [])) && (k <?k tp).

Section OutputFacts.
Context (content : FileMetadata -> Sst) (full : SstWriter -> bool) (tp : bytes) (c : Compaction) (target : ResolvedLevel).

Abbreviation ins := (all_inputs c).
Abbreviation chs := (map (fun f => entries (content f)) ins).
Abbreviation crs := (map (fun f => ranges (content f)) ins).
Abbreviation carried := (carried_ranges c crs).
Abbreviation merged := (drain forward (make_carriers crs) chs).
Abbreviation drop := (c_output_is_bottommost c).
Abbreviation K := (List.filter (kept drop tp) merged).
Abbreviation outs := (compaction_writers full tp c target chs crs).

Context (Hdesc : forall f, f ∈ ins -> describes f (content f)).
Context (Hsize : Z.of_nat (length merged) < 2 ^ 64 /\ Z.of_nat (length carried) < 2 ^ 64).

Lemma crs_canonical : Forall canonical crs.
Proof. rewrite Forall_map, Forall_forall. intros f Hf. by apply (d_canonical _ _ (Hdesc f Hf)). Qed.

Lemma merged_yields : yields forward crs chs merged.
Proof.
  apply drain_yields; [apply _|apply crs_canonical|]. unfold sorted_children. rewrite Forall_map, Forall_forall.
  intros f Hf. apply sorted_kvs_forward. by apply (d_sorted _ _ (Hdesc f Hf)).
Qed.

Lemma merged_sorted : key_sorted merged.
Proof. destruct merged_yields as (Hs & _ & _). by apply sorted_kvs_forward. Qed.

Lemma merged_from kv : kv ∈ merged -> exists g, g ∈ ins /\ kv ∈ entries (content g).
Proof.
  destruct merged_yields as (_ & _ & Hin). intros (cx & (g & -> & Hg)%list_elem_of_fmap & Hkv)%Hin. by exists g.
Qed.

Lemma carried_canonical : canonical carried.
Proof. unfold carried_ranges. destruct drop; [split; constructor|apply merge_ranges_ok]. Qed.

(** The outputs' entries and ranges together say what the inputs said. *)
Lemma kept_verdict k :
  below_point tp k = false ->
  verdict_of (assoc k K) (any_covers carried k) = drop_verdict drop (first_verdict content ins k).
Proof.
  intros Htp. destruct merged_yields as (_ & Ha & _).
  rewrite assoc_filter by apply merged_sorted. rewrite Ha.
  rewrite <- (merged_first_verdict content ins k).
  unfold kept. simpl. change (negb (bool_decide (tp = [])) && (k <?k tp)) with (below_point tp k). rewrite Htp.
  unfold carried_ranges, drop_verdict. destruct drop; simpl.
  - destruct (merged_entry crs chs k) as [[[] v]|]; simpl; [done|done|].
    by destruct (any_covers (concat crs) k).
  - rewrite (proj2 (merge_ranges_ok (concat crs)) k). by destruct (merged_entry crs chs k).
Qed.

(** Either nothing was left, or the outputs are the tiles of what was kept. *)
Lemma outs_tiles :
  Forall writer_ok outs /\
  ((K = [] /\ carried = [] /\ outs = []) \/
   exists ss, tiles None K ss /\ map writer_content outs = map (slice_sst carried) ss /\
     forall s, s ∈ ss -> sl_entries s <> [] \/ ranges (slice_sst carried s) <> []).
Proof.
  destruct Hsize as [Hm Hc].
  destruct (write_outputs_slices carried full (max_grandparent_overlap_bytes target) Hc drop tp (c_grandparents c)
              merged Hm carried_canonical) as (Hok & Hcases).
  split; [done|]. destruct Hcases as [H|[(HK & Hne & E)|(HK & groups & Hg0 & Hg & HC & E)]]; [by left|right|right].
  - exists [ {| sl_lower := None; sl_upper := None; sl_entries := [] |} ]. split_and!.
    + rewrite HK. split; try done.
      * intros s ->%list_elem_of_singleton. constructor.
      * by intros s kv ->%list_elem_of_singleton ?%elem_of_nil.
      * by intros s kv ->%list_elem_of_singleton ?%elem_of_nil.
      * repeat constructor.
      * intros k _. eexists. split; [by left|done].
      * by intros s u ->%list_elem_of_singleton.
      * by intros s u ->%list_elem_of_singleton.
    + done.
    + intros s ->%list_elem_of_singleton. right. simpl. intros Hclip.
      assert (exists r, r ∈ carried) as [r Hr] by (destruct carried as [|r ?]; [done|exists r; by left]).
      pose proof carried_canonical as [_ Hf]. rewrite Forall_forall in Hf. specialize (Hf r Hr).
      assert (any_covers (clip_ranges carried None None) (lower r) = true) as Hcov; [|by rewrite Hclip in Hcov].
      rewrite clip_ranges_covers, andb_true_r. apply any_covers_spec. exists r. split_and!; [done|key_order|done].
  - exists (slices None groups None). rewrite <- HC. split_and!.
    + apply slices_tile; [done|done| |done]. rewrite HC. apply StronglySorted_filter_bool, merged_sorted.
    + done.
    + intros s Hs. left. clear -Hs Hg. revert Hs. generalize (@None bytes) at 1. revert Hg.
      induction groups as [|g rest IH]; intros Hg lo Hs; [by apply elem_of_nil in Hs|].
      apply Forall_cons in Hg as [? ?]. simpl in Hs. apply elem_of_cons in Hs as [->|Hs]; [done|by eapply IH].
Qed.

Lemma slice_verdict s k :
  sst_verdict (slice_sst carried s) k =
  verdict_of (assoc k (sl_entries s)) (any_covers carried k && in_bounds (sl_lower s) (sl_upper s) k).
Proof. unfold sst_verdict. simpl. by rewrite clip_ranges_covers. Qed.

Lemma slice_touch_bounds K' s ss k :
  tiles None K' ss -> s ∈ ss -> sst_verdict (slice_sst carried s) k <> None ->
  in_bounds (sl_lower s) (sl_upper s) k = true.
Proof.
  intros Ht Hs. rewrite slice_verdict. unfold verdict_of. destruct (assoc k (sl_entries s)) as [e|] eqn:E.
  - intros _. apply assoc_elem in E; [|by eapply t_sorted]. by apply (t_inside _ _ _ Ht s (k, e)).
  - destruct (in_bounds _ _ k); [done|]. by rewrite andb_false_r.
Qed.

(** The verdict of the outputs, key by key. *)
Lemma outs_verdict k e :
  below_point tp k = false ->
  (exists w, w ∈ outs /\ sst_verdict (writer_content w) k = Some e) <->
  drop_verdict drop (first_verdict content ins k) = Some e.
Proof.
  intros Htp. rewrite <- kept_verdict by done. destruct outs_tiles as (_ & [(-> & -> & ->)|(ss & Ht & E & _)]).
  { simpl. split; [by intros (w & ?%elem_of_nil & _)|done]. }
  assert (forall P : Sst -> Prop, (exists w, w ∈ outs /\ P (writer_content w)) <-> exists s, s ∈ ss /\ P (slice_sst carried s)) as HP.
  { intros P. transitivity (exists x, x ∈ map writer_content outs /\ P x).
    - split; [intros (w & Hw & H); exists (writer_content w); split; [by apply list_elem_of_fmap_2|done]|].
      intros (x & (w & -> & Hw)%list_elem_of_fmap & H). by exists w.
    - rewrite E. split; [intros (x & (s & -> & Hs)%list_elem_of_fmap & H); by exists s|].
      intros (s & Hs & H). exists (slice_sst carried s). split; [by apply list_elem_of_fmap_2|done]. }
  rewrite (HP (fun x => sst_verdict x k = Some e)). clear HP. split.
  - intros (s & Hs & Hv). assert (in_bounds (sl_lower s) (sl_upper s) k = true) as Hb
      by (eapply (slice_touch_bounds K); [done|done|congruence]).
    destruct (t_covers _ _ _ Ht k I) as (s' & Hs' & Hb' & Ha').
    assert (s = s') as ->.
    { apply list_elem_of_lookup in Hs as [i Hi], Hs' as [j Hj]. pose proof (t_ordered _ _ _ Ht) as Ho.
      apply in_bounds_elim in Hb as [Hb1 Hb2], Hb' as [Hb1' Hb2'].
      destruct (Nat.lt_trichotomy i j) as [Hij|[->|Hij]]; [exfalso|congruence|exfalso].
      - destruct (StronglySorted_lookup_lt _ _ _ _ _ _ Ho Hij Hi Hj) as (u & l & Eu & El & ?).
        rewrite El in Hb1'. simpl in Hb1'. specialize (Hb2 u Eu). key_order.
      - destruct (StronglySorted_lookup_lt _ _ _ _ _ _ Ho Hij Hj Hi) as (u & l & Eu & El & ?).
        rewrite El in Hb1. simpl in Hb1. specialize (Hb2' u Eu). key_order. }
    rewrite slice_verdict, Ha', Hb', andb_true_r in Hv. done.
  - intros Hv. destruct (t_covers _ _ _ Ht k I) as (s & Hs & Hb & Ha). exists s. split; [done|].
    by rewrite slice_verdict, Ha, Hb, andb_true_r.
Qed.

(** Each output is one of the tiles. *)
Lemma outs_at :
  exists ss, (outs <> [] -> tiles None K ss) /\ forall i w, outs !! i = Some w ->
    exists s, ss !! i = Some s /\ writer_content w = slice_sst carried s /\ writer_ok w /\
      (w_entries w <> [] \/ w_ranges w <> []).
Proof.
  destruct outs_tiles as (Hok & [(_ & _ & E)|(ss & Ht & E & Hne)]).
  { exists []. rewrite E. split; [done|]. by intros i w ?%list_elem_of_lookup_2%elem_of_nil. }
  exists ss. split; [done|]. intros i w Hw. assert (map writer_content outs !! i = Some (writer_content w)) as Hi
    by (change (map writer_content) with (fmap (M := list) writer_content); by rewrite list_lookup_fmap, Hw).
  rewrite E in Hi. change (map (slice_sst carried)) with (fmap (M := list) (slice_sst carried)) in Hi.
  rewrite list_lookup_fmap in Hi. apply fmap_Some in Hi as (s & Es & Hi).
  exists s. split_and!; [done|done| |].
  - rewrite Forall_forall in Hok. apply Hok. by eapply list_elem_of_lookup_2.
  - destruct (Hne s) as [H|H]; [by eapply list_elem_of_lookup_2|left|right]; intros E0; apply H.
    + change (sl_entries s) with (entries (slice_sst carried s)). rewrite <- Hi. simpl. by rewrite E0.
    + rewrite <- Hi. simpl. by rewrite E0.
Qed.

Lemma outs_describes w pl : w ∈ outs -> describes (file_of pl w) (writer_content w).
Proof.
  intros Hw. destruct outs_at as (ss & Ht & Hat). pose proof Hw as [i Hi]%list_elem_of_lookup.
  destruct (Hat i w Hi) as (s & Hs & E & Hok & Hne). injection E as Ee Er.
  apply writer_describes; [done| | |done].
  - rewrite Ee. eapply t_sorted; [apply Ht; by intros E0; rewrite E0 in Hw; apply elem_of_nil in Hw|].
    by eapply list_elem_of_lookup_2.
  - rewrite Er. apply clip_ranges_canonical, carried_canonical.
Qed.

Lemma outs_entry w kv : w ∈ outs -> kv ∈ entries (writer_content w) -> exists g, g ∈ ins /\ kv ∈ entries (content g).
Proof.
  intros Hw Hkv. destruct outs_at as (ss & Ht & Hat). pose proof Hw as [i Hi]%list_elem_of_lookup.
  destruct (Hat i w Hi) as (s & Hs & E & _). rewrite E in Hkv. simpl in Hkv.
  assert (kv ∈ K) as [Hm _]%elem_of_filter_bool; [|by apply merged_from].
  eapply t_subset; [apply Ht; by intros E0; rewrite E0 in Hw; apply elem_of_nil in Hw| |done].
  by eapply list_elem_of_lookup_2.
Qed.

Lemma carried_from r : r ∈ carried -> r ∈ merge_ranges (concat crs).
Proof. unfold carried_ranges. destruct drop; [by intros ?%elem_of_nil|done]. Qed.

Lemma range_from r : r ∈ concat crs -> exists g, g ∈ ins /\ r ∈ ranges (content g).
Proof.
  intros (l & Hl & Hr)%list_elem_of_In%in_concat. rewrite <- list_elem_of_In in Hr.
  apply list_elem_of_In, list_elem_of_fmap in Hl as (g & -> & Hg). by exists g.
Qed.

Lemma outs_range w r :
  w ∈ outs -> r ∈ ranges (writer_content w) ->
  exists g b, g ∈ ins /\ b ∈ ranges (content g) /\ upper r <=k upper b.
Proof.
  intros Hw Hr. destruct outs_at as (ss & Ht & Hat). pose proof Hw as [i Hi]%list_elem_of_lookup.
  destruct (Hat i w Hi) as (s & Hs & E & _). rewrite E in Hr. simpl in Hr. unfold clip_ranges in Hr.
  apply list_elem_of_filter in Hr as [_ (x & -> & Hx)%list_elem_of_fmap].
  destruct (merge_ranges_bounds _ _ (carried_from _ Hx)) as [_ (b & (g & Hg & Hb)%range_from & Eb)].
  exists g, b. split_and!; [done|done|]. rewrite <- Eb. apply clip_one_narrow.
Qed.

(** Whatever an output decides, some input decided. *)
Lemma outs_touch w k : w ∈ outs -> sst_verdict (writer_content w) k <> None -> exists g, g ∈ ins /\ touches content g k.
Proof.
  intros Hw Ht. unfold sst_verdict, verdict_of in Ht. destruct (assoc k (entries (writer_content w))) as [e|] eqn:Ea.
  - apply assoc_elem in Ea; [|apply (d_sorted _ _ (outs_describes w {| p_level := 0; p_number := 0; p_store := [];
      p_bytes := 0; p_compression := NoCompression; p_min_time := 0; p_max_time := 0; p_watermark := no_watermark;
      p_provider := []; p_metadata := [] |} Hw))].
    destruct (outs_entry w _ Hw Ea) as (g & Hg & Hin). exists g. split; [done|].
    unfold touches, verdict, sst_verdict. by rewrite (proj2 (assoc_elem _ _ _ (d_sorted _ _ (Hdesc g Hg))) Hin).
  - destruct (any_covers (ranges (writer_content w)) k) eqn:Ec; [|done]. clear Ht Ea.
    destruct outs_at as (ss & Ht & Hat). pose proof Hw as [i Hi]%list_elem_of_lookup.
    destruct (Hat i w Hi) as (s & Hs & E & _). rewrite E in Ec. simpl in Ec.
    rewrite clip_ranges_covers in Ec. apply andb_true_iff in Ec as [Ec _].
    assert (any_covers (concat crs) k = true) as (r & (g & Hg & Hr)%range_from & Hlo & Hhi)%any_covers_spec.
    { rewrite <- (proj2 (merge_ranges_ok (concat crs)) k). apply any_covers_spec in Ec as (r & Hr & ?).
      apply any_covers_spec. exists r. split; [by apply carried_from|done]. }
    exists g. split; [done|]. unfold touches, verdict, sst_verdict, verdict_of.
    destruct (assoc k (entries (content g))); [done|]. by rewrite (proj2 (any_covers_spec _ _)) by (by exists r).
Qed.

(** An output lies on the side its inputs lie on. *)
Lemma outs_after p w pl : w ∈ outs -> (forall g, g ∈ ins -> precedes p g) -> precedes p (file_of pl w).
Proof.
  intros Hw Hp. destruct (outs_touch w _ Hw (effective_touched _ _ (outs_describes w pl Hw))) as (g & Hg & Ht).
  destruct (verdict_effective _ _ _ (Hdesc g Hg) Ht) as [Hle _]. destruct (Hp g Hg) as [H1 H2].
  split; intros Hn; [specialize (H1 Hn)|specialize (H2 Hn)]; key_order.
Qed.

Lemma outs_before p w pl : w ∈ outs -> (forall g, g ∈ ins -> precedes g p) -> precedes (file_of pl w) p.
Proof.
  intros Hw Hp. pose proof (outs_describes w pl Hw) as Hd. split; intros Hn.
  - destruct (describes_largest _ _ Hd Hn) as (e & He). destruct (outs_entry w _ Hw He) as (g & Hg & Hin).
    apply assoc_elem in Hin; [|apply (d_sorted _ _ (Hdesc g Hg))].
    destruct (describes_hold _ _ _ _ (Hdesc g Hg) Hin) as (Hng & _ & ?). pose proof (proj1 (Hp g Hg) Hng). key_order.
  - destruct (describes_range_largest _ _ Hd Hn) as (r & Hr & ->). destruct (outs_range w r Hw Hr) as (g & b & Hg & Hb & ?).
    destruct (describes_range_bounds _ _ _ (Hdesc g Hg) Hb) as (Hng & _ & ?). pose proof (proj2 (Hp g Hg) Hng). key_order.
Qed.

(** The outputs follow one another. *)
Lemma outs_ordered i j wi wj pi pj :
  (i < j)%nat -> outs !! i = Some wi -> outs !! j = Some wj -> precedes (file_of pi wi) (file_of pj wj).
Proof.
  intros Hij Hi Hj. destruct outs_at as (ss & Ht & Hat).
  destruct (Hat i wi Hi) as (si & Hsi & Ei & _), (Hat j wj Hj) as (sj & Hsj & Ej & _).
  apply list_elem_of_lookup_2 in Hi, Hj. pose proof (outs_describes wi pi Hi) as Hdi. pose proof (outs_describes wj pj Hj) as Hdj.
  assert (outs <> []) as Hne by (intros E0; rewrite E0 in Hi; by apply elem_of_nil in Hi). specialize (Ht Hne).
  destruct (StronglySorted_lookup_lt _ _ _ _ _ _ (t_ordered _ _ _ Ht) Hij Hsi Hsj) as (u & l & Eu & El & Hul).
  assert (l <=k effective_smallest (file_of pj wj)) as Hl.
  { pose proof (effective_touched _ _ Hdj) as Htj. rewrite Ej in Htj.
    apply (slice_touch_bounds K sj ss) in Htj; [|done|by eapply list_elem_of_lookup_2].
    apply in_bounds_elim in Htj as [Htj _]. by rewrite El in Htj. }
  split; intros Hn.
  - destruct (describes_largest _ _ Hdi Hn) as (e & He). rewrite Ei in He. simpl in He.
    apply (t_inside _ _ _ Ht) in He; [|by eapply list_elem_of_lookup_2].
    apply in_bounds_elim in He as [_ He]. specialize (He u Eu). simpl in He. key_order.
  - destruct (describes_range_largest _ _ Hdi Hn) as (r & Hr & Er). rewrite Ei in Hr. simpl in Hr. unfold clip_ranges in Hr.
    apply list_elem_of_filter in Hr as [_ (x & -> & Hx)%list_elem_of_fmap].
    assert (upper (clip_one (sl_lower si) (sl_upper si) x) <=k u) as Hu by (rewrite Eu; apply clip_one_upper).
    rewrite Er. key_order.
Qed.
End OutputFacts.
