(* ===== verification/CompactProofs.v ===== *)
(** * Compactions preserve reads

    An edit that replaces files keeps a version well formed ([replace_ok]); a compaction chosen
    soundly ([compaction_ok]) changes no answer ([preserve_answer]); both for the edits
    [run_compaction] installs. *)

From S2P Require Import Prelude Slice Format Framing Watermark VersionEdit Version Memtable Merging Sst Lsm Picker Outputs Compact.

(** ** Replacing files *)

(** An edit that takes the files [I] out of a version and puts [outs] in their place. *)
Record replaces (v : Version) (e : VersionEdit) (I outs : list FileMetadata) : Prop := {
  rp_added : added e = outs;
  rp_deleted : forall lvl g, g ∈ files_at v lvl -> deletes (deleted e) (Z.to_nat lvl) g = true <-> g ∈ I;
  rp_numbers : NoDup (file_number <$> outs);
  rp_fresh : forall w g, w ∈ outs -> g ∈ all_files v -> g ∉ I -> file_number w <> file_number g;
  rp_levels : forall w, w ∈ outs -> 0 <= level w
}.

Section Replace.
Context (content content' : FileMetadata -> Sst) (v : Version) (e : VersionEdit) (I outs : list FileMetadata).
Context (Hv : version_ok content v) (Hr : replaces v e I outs).
Abbreviation v' := (apply v e).

Lemma replace_files lvl g :
  g ∈ files_at v' lvl <-> (g ∈ files_at v lvl /\ g ∉ I) \/ (g ∈ outs /\ level g = lvl).
Proof.
  rewrite elem_of_apply, (rp_added _ _ _ _ Hr). split.
  - intros [[Hg Hd]|(Hg & ? & _)]; [left|by right]. split; [done|]. rewrite <- (rp_deleted _ _ _ _ Hr lvl g Hg). congruence.
  - intros [[Hg Hn]|[Hg <-]]; [left|right; split_and!; [done|done|by eapply rp_levels]]. split; [done|].
    apply not_true_iff_false. by rewrite (rp_deleted _ _ _ _ Hr lvl g Hg).
Qed.

Lemma replace_all g : g ∈ all_files v' <-> (g ∈ all_files v /\ g ∉ I) \/ g ∈ outs.
Proof.
  rewrite !elem_of_all_files. split.
  - intros (lvl & [[? ?]|[? ?]]%replace_files); [left|by right]. split; [by exists lvl|done].
  - intros [[(lvl & ?) ?]|?]; [exists lvl|exists (level g)]; apply replace_files; auto.
Qed.

Lemma replace_numbers lvl : NoDup (file_number <$> files_at v' lvl).
Proof.
  destruct (Z.lt_ge_cases lvl 0); [rewrite files_at_neg by done; constructor|].
  rewrite apply_level by done. rewrite sort_level_perm, fmap_app, (rp_added _ _ _ _ Hr). apply NoDup_app. split_and!.
  - eapply sublist_NoDup; [apply (vo_numbers _ _ Hv lvl)|apply fmap_sublist, sublist_filter_bool].
  - intros n (g & -> & [Hg Hd]%elem_of_filter_bool)%list_elem_of_fmap (w & E & [Hw _]%elem_of_filter_bool)%list_elem_of_fmap.
    apply negb_true_iff in Hd. eapply (rp_fresh _ _ _ _ Hr w g); [done|by eapply in_all| |done].
    rewrite <- (rp_deleted _ _ _ _ Hr lvl g Hg). congruence.
  - eapply sublist_NoDup; [apply (rp_numbers _ _ _ _ Hr)|apply fmap_sublist, sublist_filter_bool].
Qed.

Lemma replace_unique f g : f ∈ all_files v' -> g ∈ all_files v' -> file_number f = file_number g -> f = g.
Proof.
  intros [[Hf Hfi]|Hf]%replace_all [[Hg Hgi]|Hg]%replace_all E.
  - by apply (vo_unique _ _ Hv).
  - exfalso. by eapply (rp_fresh _ _ _ _ Hr g f).
  - exfalso. by eapply (rp_fresh _ _ _ _ Hr f g).
  - by eapply (NoDup_fmap_inj file_number); [apply (rp_numbers _ _ _ _ Hr)| | |].
Qed.

(** The version stays well formed when the new files describe their contents and keep apart. *)
Lemma replace_ok :
  (forall g, g ∈ all_files v -> g ∉ I -> content' g = content g) ->
  (forall w, w ∈ outs -> describes w (content' w)) ->
  (forall w g, w ∈ outs -> 0 < level w -> g ∈ files_at v (level w) -> g ∉ I -> apart g w) ->
  (forall w w', w ∈ outs -> w' ∈ outs -> 0 < level w -> level w = level w' -> w <> w' -> apart w w') ->
  version_ok content' v'.
Proof.
  intros Hold Hdesc Hap Hap'. split.
  - apply apply_filed, (vo_filed _ _ Hv).
  - apply apply_ordered.
  - intros f [[Hf Hn]|Hf]%replace_all; [rewrite Hold by done; by apply (vo_describes _ _ Hv)|by apply Hdesc].
  - intros lvl a b Hl [[Ha Hna]|[Ha La]]%replace_files [[Hb Hnb]|[Hb Lb]]%replace_files Hne.
    + by eapply (vo_apart _ _ Hv lvl).
    + subst lvl. by apply Hap.
    + subst lvl. destruct (Hap a b Ha Hl Hb Hnb); [by right|by left].
    + apply Hap'; [done|done|congruence|congruence|done].
  - apply replace_numbers.
  - apply replace_unique.
  - intros lvl. apply carries_ranges_make.
Qed.
End Replace.

(** ** A sound compaction changes no answer *)

Section Preserve.
Context (content content' : FileMetadata -> Sst) (v : Version) (e : VersionEdit) (c : Compaction).
Context (outs : list FileMetadata) (dropped : bool).
Abbreviation I := (all_inputs c).
Abbreviation v' := (apply v e).
Context (Hv : version_ok content v) (Hv' : version_ok content' v') (Hr : replaces v e I outs).
Context (Hc : compaction_ok content v c).
Context (Hold : forall g, g ∈ all_files v -> g ∉ I -> content' g = content g).
Context (Hlvl : forall w, w ∈ outs -> level w = c_output_level c).
Context (Hdrop : dropped = true -> c_output_is_bottommost c = true).
Context (k : bytes).
Context (Hk : forall en, (exists w, w ∈ outs /\ verdict content' w k = Some en) <->
                         drop_verdict dropped (first_verdict content I k) = Some en).

Lemma output_positive : 0 < c_output_level c.
Proof. destruct (co_levels _ _ _ Hc) as [? [->|[-> ?]]]; lia. Qed.

Lemma input_level f : f ∈ I -> f ∈ all_files v /\
  ((f ∈ c_inputs c /\ level f = c_level c) \/ (f ∈ c_overlaps c /\ level f = c_output_level c)) /\
  c_level c <= level f <= c_output_level c.
Proof.
  pose proof (co_levels _ _ _ Hc) as [? Hor]. intros [Hf|Hf]%elem_of_app.
  - pose proof (co_inputs _ _ _ Hc f Hf) as Hin. pose proof (vo_filed _ _ Hv _ _ Hin).
    split; [by eapply in_all|]. split; [by left|lia].
  - pose proof (co_overlaps _ _ _ Hc f Hf) as Hin. pose proof (vo_filed _ _ Hv _ _ Hin).
    split; [by eapply in_all|]. split; [by right|lia].
Qed.

Lemma old_verdict g : g ∈ all_files v -> g ∉ I -> verdict content' g k = verdict content g k.
Proof. intros. unfold verdict. by rewrite Hold. Qed.

Lemma old_touches g : g ∈ all_files v -> g ∉ I -> touches content' g k <-> touches content g k.
Proof. intros. unfold touches. by rewrite old_verdict. Qed.

Lemma newer_level f g : newer_than f g = true -> level f <= level g.
Proof. unfold newer_than. intros [?|[? _]%andb_true_iff]%orb_true_iff; zbool; lia. Qed.

(** A file that stays and is decided over by an input lies strictly below the outputs. *)
Lemma stays_below f g :
  f ∈ I -> g ∈ all_files v -> g ∉ I -> touches content f k -> touches content g k -> newer_than f g = true ->
  c_output_level c < level g.
Proof.
  intros Hf Hg Hgi Htf Htg Hn. destruct (input_level f Hf) as (Hfv & Hfl & Hfb).
  pose proof (newer_level _ _ Hn) as Hle. pose proof (in_level _ _ (vo_filed _ _ Hv) Hg) as Hgl.
  destruct (Z.lt_trichotomy (level g) (c_output_level c)) as [Hlt|[Heq|?]]; [exfalso|exfalso|done].
  - assert (level g = c_level c /\ level f = c_level c) as [Eg Ef]
      by (destruct (co_levels _ _ _ Hc) as [? [?|?]]; lia).
    assert (f ∈ c_inputs c) as Hfi by (destruct Hfl as [[? _]|[_ ?]]; [done|lia]).
    assert (newer_than g f = true) as Hn'.
    { eapply (co_oldest _ _ _ Hc g f k); [by rewrite <- Eg| |done|done|done]. intros ?. apply Hgi, elem_of_app. by left. }
    apply newer_than_asym in Hn'. congruence.
  - rewrite Heq in Hgl. destruct (co_apart _ _ _ Hc g Hgl Hgi) as [H|H]; specialize (H f Hf).
    + eapply (precedes_touches content g f k); try done; by apply (vo_describes _ _ Hv).
    + eapply (precedes_touches content f g k); try done; by apply (vo_describes _ _ Hv).
Qed.

(** An input that decides the key in the version is what the merge finds first. *)
Lemma decides_first f en :
  decides content v k f en -> f ∈ I -> first_verdict content I k = Some en.
Proof.
  intros (Hf & Hvf & Hmax) Hin. destruct (first_verdict content I k) as [en'|] eqn:E.
  2:{ rewrite first_verdict_None in E. rewrite (E f Hin) in Hvf. done. }
  apply first_verdict_Some in E as (l1 & a & l2 & Hsplit & Hva & Hnone). f_equal.
  destruct (decide (a = f)) as [->|Hne]; [congruence|exfalso].
  assert (touches content f k) as Htf by (unfold touches; congruence).
  assert (touches content a k) as Hta by (unfold touches; congruence).
  assert (a ∈ I) as Ha by (rewrite Hsplit; set_solver).
  destruct (Hmax a (proj1 (input_level a Ha)) Hta) as [->|Hn]; [done|].
  rewrite Hsplit in Hin. apply elem_of_app in Hin as [Hin|Hin]; [by apply Htf, Hnone|].
  apply elem_of_cons in Hin as [->|Hin]; [done|]. apply list_elem_of_lookup in Hin as [j Hj].
  assert (newer_than a f = true) as Hn'.
  { eapply (co_recency _ _ _ Hc (length l1) (length l1 + S j) a f k); [lia| | |done|done].
    - by rewrite Hsplit, list_lookup_middle.
    - rewrite Hsplit, lookup_app_r by lia. by replace (length l1 + S j - length l1)%nat with (S j) by lia. }
  apply newer_than_asym in Hn'. congruence.
Qed.

Lemma touched_input w : w ∈ outs -> touches content' w k -> exists h, h ∈ I /\ touches content h k.
Proof.
  intros Hw Ht. unfold touches in Ht. destruct (verdict content' w k) as [en|] eqn:E; [|done].
  assert (drop_verdict dropped (first_verdict content I k) = Some en) as Hd by (apply Hk; by exists w).
  destruct (first_verdict content I k) as [en'|] eqn:Ef; [|by destruct dropped].
  apply first_verdict_Some in Ef as (l1 & h & l2 & -> & Hvh & _). exists h. split; [set_solver|].
  unfold touches. congruence.
Qed.

(** A file that stays decides as before. *)
Lemma decides_stays f en : decides content v k f en -> f ∉ I -> decides content' v' k f en.
Proof.
  intros (Hf & Hvf & Hmax) Hfi. split_and!; [apply (replace_all v e I outs Hr); auto|by rewrite old_verdict|].
  intros g Hg Htg. apply (replace_all v e I outs Hr) in Hg as [[Hg Hgi]|Hg]; [|right].
  { apply Hmax; [done|]. by apply old_touches. }
  destruct (touched_input g Hg Htg) as (h & Hh & Hth). destruct (input_level h Hh) as (Hhv & _ & Hhb).
  assert (newer_than f h = true) as Hn by (destruct (Hmax h Hhv Hth) as [->|?]; done).
  pose proof (newer_level _ _ Hn). pose proof (Hlvl g Hg) as Eg.
  destruct (Z.lt_trichotomy (level f) (c_output_level c)) as [Hlt|[Heq|?]]; [|exfalso|lia].
  { unfold newer_than. rewrite Eg. apply orb_true_iff. left. by apply Z.ltb_lt. }
  assert (f = h) as ->; [|done].
  apply (level_exclusive content v (c_output_level c) f h k); [done|apply output_positive| | |unfold touches; congruence|done].
  - rewrite <- Heq. by apply in_level; [apply Hv|].
  - replace (c_output_level c) with (level h) by lia. by apply in_level; [apply Hv|].
Qed.

Lemma preserve_answer : answer_of (resolve content' v' k) = answer_of (resolve content v k).
Proof.
  destruct (resolve content v k) as [en|] eqn:E.
  2:{ rewrite resolve_None in E. enough (resolve content' v' k = None) as -> by done. apply resolve_None.
      intros g [[Hg Hgi]|Hg]%(replace_all v e I outs Hr); [rewrite old_verdict by done; by apply E|].
      destruct (verdict content' g k) eqn:Eg; [exfalso|done].
      destruct (touched_input g Hg) as (h & Hh & Hth); [unfold touches; congruence|].
      apply Hth, E. by apply input_level. }
  apply (resolve_decides content v k en Hv) in E as [f Hf].
  destruct (decide (f ∈ I)) as [Hfi|Hfi].
  2:{ enough (resolve content' v' k = Some en) as -> by done. apply resolve_decides; [done|].
      exists f. by apply decides_stays. }
  pose proof (decides_first f en Hf Hfi) as Efirst. destruct Hf as (Hfv & Hvf & Hmax).
  assert (touches content f k) as Htf by (unfold touches; congruence).
  assert (forall g, g ∈ all_files v -> g ∉ I -> touches content' g k -> c_output_level c < level g) as Hbelow.
  { intros g Hg Hgi Htg. rewrite old_touches in Htg by done.
    eapply (stays_below f g); [done|done|done|done|done|]. destruct (Hmax g Hg Htg) as [->|?]; done. }
  destruct (drop_verdict dropped (Some en)) as [en'|] eqn:Ed.
  - assert (en' = en) as -> by (unfold drop_verdict in Ed; destruct dropped, en as [[] ?]; congruence).
    rewrite Efirst in Hk. destruct (proj2 (Hk en) Ed) as (w & Hw & Hvw).
    enough (resolve content' v' k = Some en) as -> by done. apply resolve_decides; [done|]. exists w.
    assert (w ∈ all_files v') as Hwv by (apply (replace_all v e I outs Hr); auto).
    split_and!; [done|done|]. intros g Hg Htg. pose proof Hg as Hg'.
    apply (replace_all v e I outs Hr) in Hg as [[Hg Hgi]|Hg]; [right|].
    + specialize (Hbelow g Hg Hgi Htg). unfold newer_than. rewrite (Hlvl w Hw). apply orb_true_iff. left.
      by apply Z.ltb_lt.
    + left. apply (level_exclusive content' v' (c_output_level c) g w k); [done|apply output_positive| | |done|unfold touches; congruence].
      * rewrite <- (Hlvl g Hg). by apply in_level; [apply Hv'|].
      * rewrite <- (Hlvl w Hw). by apply in_level; [apply Hv'|].
  - assert (dropped = true /\ exists val, en = (Delete, val)) as (Ht & val & ->)
      by (unfold drop_verdict in Ed; destruct dropped, en as [[] ?]; naive_solver).
    enough (resolve content' v' k = None) as -> by done. apply resolve_None.
    intros g [[Hg Hgi]|Hg]%(replace_all v e I outs Hr); [|].
    + destruct (verdict content' g k) eqn:Eg; [exfalso|done].
      assert (touches content' g k) as Htg by (unfold touches; congruence).
      eapply (co_bottom _ _ _ Hc (Hdrop Ht) g f k); [done|by apply Hbelow|done|by apply old_touches|done].
    + destruct (verdict content' g k) as [en'|] eqn:Eg; [exfalso|done].
      assert (drop_verdict dropped (first_verdict content I k) = Some en') as Hd by (apply Hk; by exists g).
      rewrite Efirst in Hd. congruence.
Qed.
End Preserve.

(** ** [run_compaction] *)

(** The numbers the outputs are written under are new and distinct. *)
Record fresh_numbers (written : nat -> Written) (v : Version) : Prop := {
  fn_new : forall i g, g ∈ all_files v -> wr_number (written i) <> file_number g;
  fn_distinct : forall i j, wr_number (written i) = wr_number (written j) -> i = j
}.

Definition input_size (content : FileMetadata -> Sst) (c : Compaction) : Z :=
  Z.of_nat (length (concat (map (fun f => entries (content f)) (all_inputs c)))) +
  Z.of_nat (length (concat (map (fun f => ranges (content f)) (all_inputs c)))).

Lemma store_puts_other written store ws n :
  (forall iw, iw ∈ ws -> wr_number (written iw.1) <> n) -> store_puts written store ws n = store n.
Proof.
  revert store. induction ws as [|iw ws IH]; intros store H; [done|]. unfold store_puts in *. simpl. rewrite IH.
  - unfold store_put. destruct (Z.eqb_spec n (wr_number (written iw.1))) as [->|]; [|done].
    exfalso. by apply (H iw); [left|].
  - intros x Hx. apply H. by right.
Qed.

Lemma store_puts_at written store ws i w :
  (forall i j, wr_number (written i) = wr_number (written j) -> i = j) -> NoDup ws.*1 -> (i, w) ∈ ws ->
  store_puts written store ws (wr_number (written i)) = writer_content w.
Proof.
  intros Hinj. revert store. induction ws as [|iw ws IH]; intros store Hnd Hin; [by apply elem_of_nil in Hin|].
  simpl in Hnd. apply NoDup_cons in Hnd as [Hnot Hnd]. apply elem_of_cons in Hin as [<-|Hin].
  - change (store_puts written store ((i, w) :: ws)) with
      (store_puts written (store_put store (wr_number (written i)) (writer_content w)) ws).
    rewrite store_puts_other; [unfold store_put; by rewrite Z.eqb_refl|].
    intros [j w'] Hj E. simpl in E. apply Hinj in E as ->. apply Hnot. by apply (list_elem_of_fmap_2 fst _ (i, w')).
  - by apply IH.
Qed.

Lemma imap_pair_fst {A} (l : list A) n : NoDup (imap (fun i x => ((n + i)%nat, x)) l).*1.
Proof.
  revert n. induction l as [|x l IH]; intros n; simpl; [constructor|]. constructor.
  - intros ([j y] & E & (i & a & Hi & Ha)%elem_of_lookup_imap)%list_elem_of_fmap. simpl in *. injection Hi as -> ->. lia.
  - specialize (IH (S n)). erewrite imap_ext; [exact IH|]. intros i y _. simpl. f_equal. lia.
Qed.

Section RunProofs.
Context {R : Type} `{ops : SstReaderOps R} (reader_for : FileMetadata -> Result R).

Lemma read_inputs_spec content fs :
  (forall f, f ∈ fs -> exists r, reader_for f = Value r /\ SstReaderLaws ops r (content f)) ->
  read_inputs reader_for fs =
  Value (map (fun f => entries (content f)) fs, map (fun f => ranges (content f)) fs).
Proof.
  induction fs as [|f fs IH]; intros H; simpl; [done|]. destruct (H f) as (r & Hr & Hl); [by left|].
  rewrite Hr. simpl. rewrite law_entries. simpl. rewrite law_range_tombstones. simpl.
  rewrite IH; [done|]. intros g Hg. apply H. by right.
Qed.
End RunProofs.

Lemma merge_step_length merged r : (length (merge_step merged r) <= S (length merged))%nat.
Proof. unfold merge_step. repeat case_match; simpl; lia. Qed.

Lemma merge_ranges_length rs : (length (merge_ranges rs) <= length rs)%nat.
Proof.
  unfold merge_ranges. rewrite length_rev.
  assert (forall l acc, (length (fold_left merge_step l acc) <= length l + length acc)%nat) as H.
  { induction l as [|r l IH]; intros acc; simpl; [lia|]. specialize (IH (merge_step acc r)).
    pose proof (merge_step_length acc r). lia. }
  specialize (H (merge_sort range_le rs) []). simpl in H.
  rewrite <- (Permutation_length (merge_sort_Permutation range_le rs)). lia.
Qed.

Lemma input_size_enough content c :
  (forall f, f ∈ all_inputs c -> describes f (content f)) -> input_size content c < 2 ^ 64 ->
  Z.of_nat (length (drain forward (make_carriers (map (fun f => ranges (content f)) (all_inputs c)))
                      (map (fun f => entries (content f)) (all_inputs c)))) < 2 ^ 64 /\
  Z.of_nat (length (carried_ranges c (map (fun f => ranges (content f)) (all_inputs c)))) < 2 ^ 64.
Proof.
  intros Hd Hsz. unfold input_size in Hsz. split.
  - pose proof (merged_sorted content c Hd) as Hs. pose proof (merged_from content c Hd) as Hfrom.
    set (m := drain _ _ _) in *. enough (length m <= length (concat (map (fun f => entries (content f)) (all_inputs c))))%nat by lia.
    apply submseteq_length, NoDup_submseteq.
    + clear -Hs. induction Hs as [|a l Hs IH Hf]; constructor; [|done]. rewrite Forall_forall in Hf.
      intros Hin. specialize (Hf a Hin). key_order.
    + intros kv (g & Hg & Hin)%Hfrom. apply list_elem_of_In, in_concat. exists (entries (content g)).
      rewrite <- !list_elem_of_In. split; [by apply (list_elem_of_fmap_2 (fun f => entries (content f)))|done].
  - unfold carried_ranges. destruct (c_output_is_bottommost c); [simpl; lia|].
    pose proof (merge_ranges_length (concat (map (fun f => ranges (content f)) (all_inputs c)))). lia.
Qed.

(** *** The two edits replace the inputs *)

Section Edits.
Context (content : FileMetadata -> Sst) (v : Version) (c : Compaction).
Context (Hv : version_ok content v) (Hc : compaction_ok content v c).

Lemma input_file f : f ∈ all_inputs c -> f ∈ all_files v.
Proof. intros Hf. by eapply input_level. Qed.

Lemma deletes_inputs lvl g refs :
  (forall r, r ∈ refs -> exists f, f ∈ all_inputs c /\ ref_number r = file_number f) ->
  (forall f, f ∈ all_inputs c -> {| ref_level := level f; ref_number := file_number f |} ∈ refs) ->
  g ∈ files_at v lvl -> deletes refs (Z.to_nat lvl) g = true <-> g ∈ all_inputs c.
Proof.
  intros Hfrom Hto Hg. pose proof (files_at_bounds _ _ _ Hg). pose proof (vo_filed _ _ Hv _ _ Hg) as El.
  unfold deletes. rewrite existsb_elem. unfold is_ref. split.
  - intros (r & Hr & [_ En]%andb_true_iff). zbool. destruct (Hfrom r Hr) as (f & Hf & Ef).
    assert (g = f) as ->; [|done]. apply (vo_unique _ _ Hv); [by eapply in_all|by apply input_file|congruence].
  - intros Hin. exists {| ref_level := level g; ref_number := file_number g |}. split; [by apply Hto|]. simpl.
    apply andb_true_iff. split; apply Z.eqb_eq; [lia|done].
Qed.

Lemma moved_describes lvl f s : describes f s -> describes (moved_to lvl f) s.
Proof. intros Hd. split; simpl; apply Hd. Qed.

Lemma move_replaces f :
  c_inputs c = [f] -> c_overlaps c = [] ->
  replaces v (move_edit c f) (all_inputs c) [moved_to (c_output_level c) f].
Proof.
  intros Ei Eo.
  pose proof (co_levels _ _ _ Hc) as [? Hor]. assert (all_inputs c = [f]) as Ea by (unfold all_inputs; by rewrite Ei, Eo).
  assert (f ∈ all_inputs c) as Hfa by (rewrite Ea; by left).
  assert (level f = c_level c) as El by (apply (vo_filed _ _ Hv), (co_inputs _ _ _ Hc); rewrite Ei; by left).
  split.
  - done.
  - intros lvl g Hg. apply deletes_inputs; [| |done].
    + intros r ->%list_elem_of_singleton. by exists f.
    + rewrite Ea. intros x ->%list_elem_of_singleton. rewrite El. by left.
  - apply NoDup_singleton.
  - intros w g ->%list_elem_of_singleton Hg Hn. simpl. intros E. apply Hn.
    rewrite <- (vo_unique _ _ Hv f g (input_file _ Hfa) Hg E). done.
  - intros w ->%list_elem_of_singleton. simpl. lia.
Qed.

Lemma merge_replaces written target ws :
  fresh_numbers written v ->
  replaces v (merge_edit c (imap (fun i w => output_file c target (written i) w) ws)) (all_inputs c)
    (imap (fun i w => output_file c target (written i) w) ws).
Proof.
  intros [Hnew Hdist]. pose proof (co_levels _ _ _ Hc) as [? Hor]. split; [done| | | |].
  - intros lvl g Hg. apply deletes_inputs; [| |done].
    + intros r [(f & -> & Hf)%list_elem_of_fmap|(f & -> & Hf)%list_elem_of_fmap]%elem_of_app; exists f; simpl;
        (split; [apply elem_of_app; auto|done]).
    + intros f Hf. destruct (input_level content v c Hv Hc f Hf) as (_ & [[Hin ->]|[Hin ->]] & _); apply elem_of_app;
        [left|right].
      * by apply (list_elem_of_fmap_2 (fun f => {| ref_level := c_level c; ref_number := file_number f |})).
      * by apply (list_elem_of_fmap_2 (fun f => {| ref_level := c_output_level c; ref_number := file_number f |})).
  - rewrite fmap_imap. apply NoDup_alt. intros i j n. rewrite !list_lookup_imap.
    destruct (ws !! i), (ws !! j); simpl; try done. intros [= <-] [= E]. by apply Hdist.
  - intros w g (i & x & -> & _)%elem_of_lookup_imap Hg _. simpl. by apply Hnew.
  - intros w (i & x & -> & _)%elem_of_lookup_imap. simpl. lia.
Qed.
End Edits.

(** *** The theorems *)

Lemma edit_no_floor {R} `{ops : SstReaderOps R} full written target tp store c e store' (reader : FileMetadata -> Result R) :
  compaction_edit reader full written target tp store c = Value (e, store') -> truncation_point e = [].
Proof.
  unfold compaction_edit. destruct (c_trivial_move c).
  - destruct (c_inputs c); [done|]. by intros [= <- <-].
  - destruct (read_inputs reader (all_inputs c)) as [[ch cr]|]; [|done]. simpl. by intros [= <- <-].
Qed.


Lemma truncated_apply v e k : truncation_point e = [] -> truncated (apply v e) k = truncated v k.
Proof.
  intros E. unfold truncated, apply. simpl. rewrite E.
  by replace (truncation_point_ v <?k []) with false by (symmetry; apply key_ltb_ge, key_empty_le).
Qed.

Definition same_answers (store : Store) (v : Version) (store' : Store) (v' : Version) : Prop :=
  forall k, truncated v k = false ->
    answer_of (resolve (store_content store') v' k) = answer_of (resolve (store_content store) v k).

Section RunSound.
Context {R : Type} `{ops : SstReaderOps R} (reader_for : FileMetadata -> Result R).
Context (full : SstWriter -> bool) (written : nat -> Written) (target : ResolvedLevel).
Context (v : Version) (store : Store) (c : Compaction).
Abbreviation content := (store_content store).
Context (Hv : version_ok content v) (Hc : compaction_ok content v c).

Lemma run_move_sound tp :
  c_trivial_move c = true -> exists e,
    compaction_edit reader_for full written target tp store c = Value (e, store) /\
    version_ok content (apply v e) /\ same_answers store v store (apply v e).
Proof.
  intros Ht. destruct (co_trivial _ _ _ Hc Ht) as (f & Ei & Eo). unfold compaction_edit. rewrite Ht, Ei.
  exists (move_edit c f). split; [done|].
  pose proof (move_replaces content v c Hv Hc f Ei Eo) as Hr. set (f' := moved_to (c_output_level c) f) in *.
  assert (all_inputs c = [f]) as Ea by (unfold all_inputs; by rewrite Ei, Eo).
  assert (f ∈ all_inputs c) as Hfa by (rewrite Ea; by left).
  assert (content f' = content f) as Ec by done.
  assert (version_ok content (apply v (move_edit c f))) as Hv'.
  { eapply (replace_ok content content v _ (all_inputs c) [f']); [done|done|done| | |].
    - intros w ->%list_elem_of_singleton. rewrite Ec. apply (moved_describes _ f), (vo_describes _ _ Hv). by eapply input_file.
    - intros w g ->%list_elem_of_singleton _ Hg Hn.
      destruct (co_apart _ _ _ Hc g Hg Hn) as [H|H]; [left|right]; by apply (H f).
    - by intros w w' ->%list_elem_of_singleton ->%list_elem_of_singleton. }
  split; [done|]. intros k _. eapply (preserve_answer content content v _ c [f'] false); try done.
  - by intros w ->%list_elem_of_singleton.
  - intros en. rewrite Ea. simpl. assert (verdict content f' k = verdict content f k) as Ev by (unfold verdict; by rewrite Ec).
    split.
    + intros (w & ->%list_elem_of_singleton & Hw). rewrite Ev in Hw. by rewrite Hw.
    + intros Hw. exists f'. split; [by left|]. rewrite Ev. by destruct (verdict content f k).
Qed.

Context (Hread : readable content reader_for v) (Hfresh : fresh_numbers written v).
Context (Hsize : input_size content c < 2 ^ 64).

(** The outputs may have been written under an older truncation point. *)
Lemma run_merge_sound tp :
  (forall k, truncated v k = false -> below_point tp k = false) ->
  c_trivial_move c = false -> exists e store',
    compaction_edit reader_for full written target tp store c = Value (e, store') /\
    version_ok (store_content store') (apply v e) /\ same_answers store v store' (apply v e).
Proof.
  intros Htp Ht. assert (forall f, f ∈ all_inputs c -> f ∈ all_files v) as Hin by (by eapply input_file).
  assert (forall f, f ∈ all_inputs c -> describes f (content f)) as Hd
    by (intros f Hf; by apply (vo_describes _ _ Hv), Hin).
  destruct (input_size_enough content c Hd Hsize) as [Hs1 Hs2].
  unfold compaction_edit. rewrite Ht, (read_inputs_spec reader_for content) by (intros f Hf; by apply Hread, Hin). simpl.
  set (ws := compaction_writers _ _ _ _ _ _). set (files := imap _ ws). set (store' := store_puts _ _ _).
  eexists _, store'. split; [done|].
  pose proof (merge_replaces content v c Hv Hc written target ws Hfresh) as Hr. fold files in Hr.
  assert (forall i w, ws !! i = Some w -> store_content store' (output_file c target (written i) w) = writer_content w) as Hat.
  { intros i w Hi. unfold store_content. simpl. apply store_puts_at; [apply Hfresh|apply (imap_pair_fst ws 0)|].
    apply elem_of_lookup_imap. by exists i, w. }
  assert (forall g, g ∈ all_files v -> store_content store' g = content g) as Hold.
  { intros g Hg. unfold store_content. apply store_puts_other. intros iw _. by apply Hfresh. }
  assert (version_ok (store_content store') (apply v (merge_edit c files))) as Hv'.
  { eapply (replace_ok content _ v _ (all_inputs c) files); [done|done|by auto| | |].
    - intros w (i & x & -> & Hi)%elem_of_lookup_imap. rewrite (Hat i x Hi).
      eapply (outs_describes content); [done|done|]. by eapply list_elem_of_lookup_2.
    - intros w g (i & x & -> & Hi)%elem_of_lookup_imap _ Hg Hn. apply list_elem_of_lookup_2 in Hi.
      destruct (co_apart _ _ _ Hc g Hg Hn) as [H|H]; [left|right].
      + by eapply (outs_after content).
      + by eapply (outs_before content).
    - intros w w' (i & x & -> & Hi)%elem_of_lookup_imap (j & y & -> & Hj)%elem_of_lookup_imap _ _ Hne.
      destruct (Nat.lt_trichotomy i j) as [Hij|[->|Hij]]; [left|congruence|right]; by eapply (outs_ordered content). }
  split; [done|]. intros k Hk.
  eapply (preserve_answer content _ v _ c files (c_output_is_bottommost c)); try done.
  - intros g Hg _. by apply Hold.
  - by intros w (i & x & -> & Hi)%elem_of_lookup_imap.
  - intros en. rewrite <- (outs_verdict content full tp c target Hd (conj Hs1 Hs2) k en (Htp k Hk)). fold ws. split.
    + intros (w & (i & x & -> & Hi)%elem_of_lookup_imap & Hw). unfold verdict in Hw. rewrite (Hat i x Hi) in Hw.
      exists x. split; [by eapply list_elem_of_lookup_2|done].
    + intros (x & [i Hi]%list_elem_of_lookup & Hx). exists (output_file c target (written i) x). split.
      * apply elem_of_lookup_imap. by exists i, x.
      * unfold verdict. by rewrite (Hat i x Hi).
Qed.

Lemma compaction_edit_sound tp :
  (forall k, truncated v k = false -> below_point tp k = false) -> exists e store',
    compaction_edit reader_for full written target tp store c = Value (e, store') /\
    version_ok (store_content store') (apply v e) /\ same_answers store v store' (apply v e).
Proof.
  intros Htp. destruct (c_trivial_move c) eqn:Ht; [|by apply run_merge_sound].
  destruct (run_move_sound tp Ht) as (e & ? & ? & ?). by exists e, store.
Qed.

(** Where the files of the new version come from. *)
Lemma compaction_edit_files tp e store' w :
  compaction_edit reader_for full written target tp store c = Value (e, store') ->
  w ∈ all_files (apply v e) ->
  (exists g, g ∈ all_files v /\ effective_smallest g <=k effective_smallest w) /\
  (w ∈ all_files v \/ level w = c_output_level c).
Proof.
  intros E Hw. assert (forall f, f ∈ all_inputs c -> f ∈ all_files v) as Hin by (by eapply input_file).
  assert (forall f, f ∈ all_inputs c -> describes f (content f)) as Hd
    by (intros f Hf; by apply (vo_describes _ _ Hv), Hin).
  unfold compaction_edit in E. destruct (c_trivial_move c) eqn:Ht.
  - destruct (co_trivial _ _ _ Hc Ht) as (f & Ei & Eo). rewrite Ei in E. injection E as <- <-.
    apply (replace_all _ _ _ _ (move_replaces content v c Hv Hc f Ei Eo)) in Hw as [[Hw _]| ->%list_elem_of_singleton].
    + split; [exists w; split; [done|key_order]|by left].
    + split; [|by right]. exists f. split; [apply Hin, elem_of_app; left; rewrite Ei; by left|].
      unfold effective_smallest. simpl. key_order.
  - rewrite (read_inputs_spec reader_for content) in E by (intros f Hf; by apply Hread, Hin). simpl in E.
    injection E as <- <-. destruct (input_size_enough content c Hd Hsize) as [Hs1 Hs2].
    apply (replace_all _ _ _ _ (merge_replaces content v c Hv Hc written target _ Hfresh)) in Hw as [[Hw _]|Hw].
    + split; [exists w; split; [done|key_order]|by left].
    + apply elem_of_lookup_imap in Hw as (i & x & -> & Hi). split; [|by right]. apply list_elem_of_lookup_2 in Hi.
      set (f := output_file _ _ _ _). assert (describes f (writer_content x)) as Hdx by (by eapply (outs_describes content)).
      destruct (outs_touch content full tp c target Hd (conj Hs1 Hs2) x _ Hi (effective_touched _ _ Hdx)) as (g & Hg & Htg).
      exists g. split; [by apply Hin|]. by apply (verdict_effective _ _ _ (Hd g Hg)) in Htg as [? _].
Qed.

Lemma run_compaction_sound : exists v' store',
  run_compaction reader_for full written target v store c = Value (v', store') /\
  version_ok (store_content store') v' /\ same_answers store v store' v'.
Proof.
  destruct (compaction_edit_sound (truncation_point_ v)) as (e & store' & E & ? & ?); [done|].
  exists (apply v e), store'. unfold run_compaction. by rewrite E.
Qed.
End RunSound.

(** ** Properties *)

(** C12: a compaction changes no answer. A compaction that meets [compaction_ok], run on a
    well-formed version — merged through the iterator, dropping tombstones at the bottom and keys
    below the truncation point, cut into outputs, or moved without a read — succeeds, leaves a
    well-formed version, and [get] answers every key as before, whatever the memtables hold. *)
Theorem compaction_preserves_reads {R} (ops : SstReaderOps R) (reader_for reader_for' : FileMetadata -> Result R)
    full written target v store c :
  version_ok (store_content store) v -> compaction_ok (store_content store) v c ->
  readable (store_content store) reader_for v -> fresh_numbers written v ->
  input_size (store_content store) c < 2 ^ 64 ->
  exists v' store',
    run_compaction reader_for full written target v store c = Value (v', store') /\
    version_ok (store_content store') v' /\
    forall ss ms k, Forall2 models ss ms -> readable (store_content store') reader_for' v' ->
      db_get reader_for' false ss v' k = db_get reader_for false ss v k.
Proof.
  intros Hv Hc Hr Hf Hs.
  destruct (run_compaction_sound reader_for full written target v store c Hv Hc Hr Hf Hs) as (v' & store' & E & Hv' & Hsame).
  exists v', store'. split_and!; [done|done|]. intros ss ms k Hm Hr'.
  rewrite (db_get_spec (store_content store') reader_for' ss ms), (db_get_spec (store_content store) reader_for ss ms) by done.
  assert (truncated v' k = truncated v k) as ->.
  { unfold run_compaction in E. destruct (compaction_edit reader_for full written target (truncation_point_ v) store c) as [[e st]|] eqn:Ee; [|done].
    simpl in E. injection E as <- <-. by apply truncated_apply, (edit_no_floor _ _ _ _ _ _ _ _ _ Ee). }
  destruct (truncated v k) eqn:Et; [done|]. destruct (mem_verdicts ms k); [done|]. by apply Hsame.
Qed.
