(* ===== verification/PickerProofs.v ===== *)
(** * What the picker selects is a sound compaction

    [pick_compaction] meets [compaction_ok]: the inputs of an overlapping level are closed under
    overlap and trimmed from the new end, the overlaps are all the files of the next level in the
    inputs' hull, and the bottommost test looks at that hull.

    [widen] reads an empty bound as "not set". Where a stored key is empty the hull can come out too
    small, so the theorems carry the hypothesis [starts_nonempty]; [widen_loses_empty_key] shows what
    happens without it. *)

From S2P Require Import Prelude Slice Format Framing Watermark VersionEdit Version Memtable Merging Sst Lsm Picker Outputs Compact CompactProofs.

(** The hull covers the files. *)
Definition in_hull (bounds : bytes * bytes) (f : FileMetadata) : Prop :=
  bounds.1 <=k effective_smallest f /\ effective_largest f <=k bounds.2.

Definition starts_nonempty (v : Version) : Prop :=
  forall f, f ∈ all_files v -> effective_smallest f <> [].

Definition real_span (f : FileMetadata) : Prop :=
  effective_smallest f <> [] /\ effective_smallest f <=k effective_largest f.

(** ** [widen] *)

Lemma nonempty_lt k : k <> [] <-> [] <k k.
Proof.
  split.
  - intros Hne. destruct (key_trichotomy [] k) as [?|[E|?]]; [done|by subst|exfalso; by eapply key_lt_empty].
  - intros H ->. by apply key_lt_irrefl in H.
Qed.

Lemma widen_step_spec lo up f :
  lo <> [] -> up <> [] -> real_span f ->
  (widen_step (lo, up) f).1 <=k lo /\ up <=k (widen_step (lo, up) f).2 /\
  in_hull (widen_step (lo, up) f) f /\ (widen_step (lo, up) f).1 <> [] /\ (widen_step (lo, up) f).2 <> [].
Proof.
  intros Hlo Hup [Hs Hle]. unfold widen_step, in_hull. rewrite !bool_decide_false by done. simpl.
  assert (effective_largest f <> []) as Hl by (rewrite nonempty_lt in *; key_order).
  destruct (effective_smallest f <?k lo) eqn:?, (up <?k effective_largest f) eqn:?; split_and!; try done; key_order.
Qed.

Lemma widen_spec fs lo up :
  lo <> [] -> up <> [] -> Forall real_span fs ->
  (widen fs (lo, up)).1 <=k lo /\ up <=k (widen fs (lo, up)).2 /\ Forall (in_hull (widen fs (lo, up))) fs /\
  (widen fs (lo, up)).1 <> [] /\ (widen fs (lo, up)).2 <> [].
Proof.
  unfold widen. revert lo up. induction fs as [|f fs IH]; intros lo up Hlo Hup Hfs; cbn [fold_left].
  { simpl. split_and!; [key_order|key_order|constructor|done|done]. }
  apply Forall_cons in Hfs as [Hf Hfs]. destruct (widen_step_spec lo up f Hlo Hup Hf) as (H1 & H2 & [H3 H3'] & H4 & H5).
  destruct (widen_step (lo, up) f) as [lo' up']. simpl in *.
  destruct (IH lo' up' H4 H5 Hfs) as (I1 & I2 & I3 & I4 & I5). split_and!; try done; [key_order|key_order|].
  constructor; [|done]. split; key_order.
Qed.

Lemma widen_unset fs :
  fs <> [] -> Forall real_span fs -> Forall (in_hull (widen fs ([], []))) fs.
Proof.
  destruct fs as [|f fs]; [done|]. intros _ [Hf Hfs]%Forall_cons. unfold widen. cbn [fold_left widen_step].
  rewrite !bool_decide_true by done. simpl. destruct Hf as [Hs Hle].
  assert (effective_largest f <> []) as Hl by (rewrite nonempty_lt in *; key_order).
  destruct (widen_spec fs _ _ Hs Hl Hfs) as (I1 & I2 & I3 & _). constructor; [done|done].
Qed.

(** ** Overlaps *)

Lemma overlapping_mono v lvl lo up lo' up' :
  lo' <=k lo -> up <=k up' ->
  (length (overlapping_inclusive v lvl lo up) <= length (overlapping_inclusive v lvl lo' up'))%nat /\
  (length (overlapping_inclusive v lvl lo' up') = length (overlapping_inclusive v lvl lo up) ->
   overlapping_inclusive v lvl lo' up' = overlapping_inclusive v lvl lo up).
Proof.
  intros Hlo Hup. apply filter_weaken. intros f _. unfold overlaps_inclusive. intros [H1 H2]%andb_true_iff.
  apply andb_true_iff. split; key_order.
Qed.

Lemma elem_of_overlapping v lvl lo up f :
  f ∈ overlapping_inclusive v lvl lo up <->
  f ∈ files_at v lvl /\ lo <=k effective_largest f /\ effective_smallest f <=k up.
Proof.
  unfold overlapping_inclusive. rewrite elem_of_filter_bool. unfold overlaps_inclusive.
  rewrite andb_true_iff, !negb_true_iff, !key_ltb_ge. done.
Qed.

(** Closed under overlap: whatever shares a key with a selected file is selected. *)
Definition closed (v : Version) (lvl : Z) (T : list FileMetadata) : Prop :=
  exists lo up, T = overlapping_inclusive v lvl lo up /\ Forall (in_hull (lo, up)) T.

Section Closure.
Context (v : Version) (lvl : Z) (Hspan : Forall real_span (files_at v lvl)).

Lemma overlapping_real lo up : Forall real_span (overlapping_inclusive v lvl lo up).
Proof.
  rewrite Forall_forall in *. intros f [Hf _]%elem_of_overlapping. by apply Hspan.
Qed.

Lemma transitive_loop_closed fuel lo up lo0 up0 :
  lo <> [] -> up <> [] -> lo <=k lo0 -> up0 <=k up ->
  Forall (in_hull (lo, up)) (overlapping_inclusive v lvl lo0 up0) ->
  (length (files_at v lvl) - length (overlapping_inclusive v lvl lo0 up0) < fuel)%nat ->
  let T := transitive_loop fuel v lvl lo up (overlapping_inclusive v lvl lo0 up0) in
  closed v lvl T /\ (forall f, f ∈ overlapping_inclusive v lvl lo up -> f ∈ T).
Proof.
  cbv zeta. revert lo up lo0 up0. induction fuel as [|fuel IH]; intros lo up lo0 up0 Hlo Hup H1 H2 Hin Hfuel; [lia|].
  cbn [transitive_loop]. destruct (overlapping_mono v lvl lo0 up0 lo up H1 H2) as [Hlen Heq].
  destruct (Nat.eqb_spec (length (overlapping_inclusive v lvl lo up)) (length (overlapping_inclusive v lvl lo0 up0))) as [E|E].
  { split; [|done]. exists lo, up. split; [done|]. by rewrite (Heq E). }
  destruct (widen_spec _ _ _ Hlo Hup (overlapping_real lo up)) as (I1 & I2 & I3 & I4 & I5).
  destruct (widen (overlapping_inclusive v lvl lo up) (lo, up)) as [lo' up']. simpl in *.
  destruct (bool_decide_reflect (lo' = lo)) as [->|], (bool_decide_reflect (up' = up)) as [->|]; simpl.
  1:{ split; [by exists lo, up|done]. }
  all: destruct (IH _ _ lo up I4 I5 I1 I2 I3) as [HC HS];
    [assert (length (overlapping_inclusive v lvl lo up) <= length (files_at v lvl))%nat by apply filter_length_le; lia|];
    (split; [done|]); intros f Hf; apply HS; rewrite elem_of_overlapping in *; split_and!; [naive_solver| |];
    destruct Hf as (_ & ? & ?); key_order.
Qed.

Lemma transitive_overlap_closed seed :
  seed ∈ files_at v lvl ->
  let T := transitive_overlap v lvl (effective_smallest seed) (effective_largest seed) in
  closed v lvl T /\ seed ∈ T.
Proof.
  intros Hseed. cbv zeta. pose proof Hspan as Hreal. rewrite Forall_forall in Hreal.
  destruct (Hreal seed Hseed) as [Hs Hle].
  assert (effective_largest seed <> []) as Hl by (rewrite nonempty_lt in *; key_order).
  assert (seed ∈ overlapping_inclusive v lvl (effective_smallest seed) (effective_largest seed)) as Hin
    by (apply elem_of_overlapping; done).
  unfold transitive_overlap. cbn [transitive_loop].
  set (found := overlapping_inclusive v lvl (effective_smallest seed) (effective_largest seed)) in *.
  destruct (Nat.eqb_spec (length found) (length (@nil FileMetadata))) as [E|_].
  { destruct found; [by apply elem_of_nil in Hin|done]. }
  destruct (widen_spec found _ _ Hs Hl (overlapping_real _ _)) as (I1 & I2 & I3 & I4 & I5).
  destruct (widen found _) as [lo' up'] eqn:Ew. simpl in *.
  destruct (bool_decide_reflect (lo' = effective_smallest seed)) as [->|], (bool_decide_reflect (up' = effective_largest seed)) as [->|];
    cbn [andb].
  { split; [by exists (effective_smallest seed), (effective_largest seed)|done]. }
  all: destruct (transitive_loop_closed (S (length (files_at v lvl))) _ _ _ _ I4 I5 I1 I2 I3) as [HC HS]; [lia|];
    (split; [exact HC|]); apply HS, elem_of_overlapping; apply elem_of_overlapping in Hin as (? & ? & ?); split_and!; try done; key_order.
Qed.
End Closure.

(** ** Trimming keeps the oldest *)

Lemma keep_loop_prefix by_age inputs budget keep total :
  (forall n, n ∈ by_age -> exists f, f ∈ inputs /\ file_number f = n) ->
  exists n, keep_loop by_age inputs budget keep total = rev (take n by_age) ++ keep /\
    (keep = [] -> by_age <> [] -> (0 < n)%nat).
Proof.
  revert keep total. induction by_age as [|a rest IH]; intros keep total Hall; cbn [keep_loop].
  { by exists 0%nat. }
  destruct (List.find (fun f => file_number f =? a) inputs) as [f|] eqn:Ef.
  2:{ exfalso. destruct (Hall a) as (f & Hf & E); [by left|].
      pose proof (find_none _ _ Ef f) as Hn. rewrite <- list_elem_of_In in Hn. specialize (Hn Hf). simpl in Hn. lia. }
  destruct (negb (bool_decide (keep = [])) && (budget <? u64 (total + file_bytes f))) eqn:E.
  - exists 0%nat. split; [done|]. intros -> _. by rewrite bool_decide_true in E by done.
  - destruct (IH (a :: keep) (u64 (total + file_bytes f))) as (n & -> & _); [intros m Hm; apply Hall; by right|].
    exists (S n). simpl. split; [by rewrite <- app_assoc|lia].
Qed.

Lemma trim_spec inputs budget :
  inputs <> [] ->
  let T := (trim_to_budget inputs budget).1 in
  T `sublist_of` inputs /\ T <> [] /\
  (forall f g, f ∈ T -> g ∈ inputs -> g ∉ T -> file_number f < file_number g).
Proof.
  intros Hne. cbv zeta. unfold trim_to_budget. destruct (_ || _); simpl.
  { split_and!; [done|done|]. intros f g _ Hg Hn. done. }
  set (by_age := merge_sort Z.le (file_number <$> inputs)).
  assert (by_age ≡ₚ file_number <$> inputs) as Hperm by apply merge_sort_Permutation.
  assert (StronglySorted Z.le by_age) as Hsort by (apply StronglySorted_merge_sort; apply _).
  destruct (keep_loop_prefix by_age inputs budget [] 0) as (n & E & Hn).
  { intros m Hm. rewrite Hperm in Hm. apply list_elem_of_fmap in Hm as (f & -> & Hf). by exists f. }
  rewrite E, app_nil_r. assert (by_age <> []) as Hba.
  { intros E0. rewrite E0 in Hperm. apply Permutation_nil_l in Hperm. by destruct inputs. }
  specialize (Hn eq_refl Hba). split_and!.
  - apply sublist_filter_bool.
  - destruct by_age as [|a rest] eqn:Eb; [done|]. assert (a ∈ file_number <$> inputs) as (f & Ea & Hf)%list_elem_of_fmap
      by (rewrite <- Hperm; by left).
    intros E0. assert (f ∈ @nil FileMetadata) as Hin; [|by apply elem_of_nil in Hin]. rewrite <- E0.
    apply elem_of_filter_bool. split; [done|]. apply bool_decide_eq_true, elem_of_rev. destruct n; [lia|]. simpl. rewrite <- Ea. by left.
  - intros f g [Hf Hkf]%elem_of_filter_bool Hg Hng. apply bool_decide_eq_true in Hkf. rewrite elem_of_rev in Hkf.
    assert (file_number g ∉ take n by_age) as Hkg.
    { intros Hk. apply Hng, elem_of_filter_bool. split; [done|]. apply bool_decide_eq_true. by rewrite elem_of_rev. }
    assert (file_number g ∈ drop n by_age) as Hdg.
    { assert (file_number g ∈ by_age) as Hb by (rewrite Hperm; by apply list_elem_of_fmap_2).
      rewrite <- (take_drop n by_age) in Hb. by apply elem_of_app in Hb as [?|?]. }
    rewrite <- (take_drop n by_age) in Hsort.
    assert (file_number f <= file_number g) by (by eapply (StronglySorted_app_1_elem_of Z.le)). enough (file_number f <> file_number g) by lia.
    intros En. apply Hkg. by rewrite <- En.
Qed.

(** ** Selections *)

(** The two files' effective spans share a key. *)
Definition spans_meet (f g : FileMetadata) : Prop :=
  effective_smallest f <=k effective_largest g /\ effective_smallest g <=k effective_largest f.

Section Selection.
Context (content : FileMetadata -> Sst) (v : Version).
Context (Hv : version_ok content v) (Hne : starts_nonempty v).

Lemma real_all f : f ∈ all_files v -> real_span f.
Proof. intros Hf. split; [by apply Hne|]. by eapply effective_le, (vo_describes _ _ Hv). Qed.

Lemma real_level lvl : Forall real_span (files_at v lvl).
Proof. rewrite Forall_forall. intros f Hf. by eapply real_all, in_all. Qed.

Lemma touches_meet f g k :
  f ∈ all_files v -> g ∈ all_files v -> touches content f k -> touches content g k -> spans_meet f g.
Proof.
  intros Hf Hg Htf Htg. destruct (verdict_effective _ _ _ (vo_describes _ _ Hv f Hf) Htf) as [? ?].
  destruct (verdict_effective _ _ _ (vo_describes _ _ Hv g Hg) Htg) as [? ?]. split; key_order.
Qed.

Lemma precedes_largest a b : a ∈ all_files v -> precedes a b -> effective_largest a <=k effective_smallest b.
Proof.
  intros Ha [H1 H2]. destruct (effective_spec _ _ (vo_describes _ _ Hv a Ha)) as (_ & _ & _ & [[Hn ->]|[Hn ->]]).
  - specialize (H1 Hn). key_order.
  - by apply H2.
Qed.

Lemma below_precedes a b : a ∈ all_files v -> effective_largest a <k effective_smallest b -> precedes a b.
Proof.
  intros Ha Hlt. destruct (effective_spec _ _ (vo_describes _ _ Hv a Ha)) as (H1 & H2 & _ & _).
  split; intros Hn; [destruct (H1 Hn)|destruct (H2 Hn)]; key_order.
Qed.

(** What stays at the output level lies on one side of the inputs and of their overlaps. *)
Lemma overlaps_one_side lvl lo up (ins : list FileMetadata) p :
  0 < lvl -> ins <> [] -> (forall f, f ∈ ins -> f ∈ all_files v) -> Forall (in_hull (lo, up)) ins ->
  p ∈ files_at v lvl -> p ∉ overlapping_inclusive v lvl lo up ->
  (forall g, g ∈ ins ++ overlapping_inclusive v lvl lo up -> precedes p g) \/
  (forall g, g ∈ ins ++ overlapping_inclusive v lvl lo up -> precedes g p).
Proof.
  intros Hl Hne' Hin Hhull Hp Hn. rewrite Forall_forall in Hhull. pose proof (in_all _ _ _ Hp) as Hpa.
  destruct (real_all p Hpa) as [_ Hple].
  assert (lo <=k up) as Hlu.
  { destruct ins as [|f ins]; [done|]. destruct (Hhull f) as [? ?]; [by left|]. destruct (real_all f) as [_ ?]; [apply Hin; by left|].
    simpl in *. key_order. }
  assert (effective_largest p <k lo \/ up <k effective_smallest p) as Hside.
  { destruct (decide (effective_largest p <k lo)) as [|H1]; [by left|]. destruct (decide (up <k effective_smallest p)) as [|H2]; [by right|].
    exfalso. apply Hn, elem_of_overlapping. split_and!; [done|by apply key_not_lt|by apply key_not_lt]. }
  assert (forall g, g ∈ overlapping_inclusive v lvl lo up -> apart p g) as Hap.
  { intros g Hg. apply elem_of_overlapping in Hg as (Hg & H1 & H2). eapply (vo_apart _ _ Hv lvl); [done|done|done|].
    intros ->. destruct Hside; key_order. }
  destruct Hside as [Hs|Hs]; [left|right]; intros g [Hg|Hg]%elem_of_app.
  - destruct (Hhull g Hg) as [? ?]. apply below_precedes; [done|]. simpl in *. key_order.
  - destruct (Hap g Hg) as [?|Hpr]; [done|exfalso]. apply elem_of_overlapping in Hg as (Hg & H1 & H2).
    pose proof (precedes_largest g p (in_all _ _ _ Hg) Hpr). key_order.
  - destruct (Hhull g Hg) as [? ?]. apply below_precedes; [by apply Hin|]. simpl in *. key_order.
  - destruct (Hap g Hg) as [Hpr|?]; [exfalso|done]. apply elem_of_overlapping in Hg as (Hg & H1 & H2).
    pose proof (precedes_largest p g Hpa Hpr). key_order.
Qed.

(** Reading one level in its own order is reading it newest first. *)
Lemma level_recency lvl fs i j a b k :
  fs `sublist_of` files_at v lvl -> (i < j)%nat -> fs !! i = Some a -> fs !! j = Some b ->
  touches content a k -> touches content b k -> newer_than a b = true.
Proof.
  intros Hsub Hij Hi Hj Hta Htb.
  assert (NoDup (file_number <$> fs)) as Hnd by (eapply sublist_NoDup; [apply (vo_numbers _ _ Hv lvl)|by apply fmap_sublist]).
  assert (file_number a <> file_number b) as Hnum.
  { intros E. assert (i = j); [|lia]. eapply (NoDup_lookup (file_number <$> fs)); [done| |].
    - by rewrite list_lookup_fmap, Hi.
    - by rewrite list_lookup_fmap, Hj, E. }
  assert (a ∈ files_at v lvl) as Ha by (eapply elem_of_sublist; [by eapply list_elem_of_lookup_2|done]).
  assert (b ∈ files_at v lvl) as Hb by (eapply elem_of_sublist; [by eapply list_elem_of_lookup_2|done]).
  pose proof (files_at_bounds _ _ _ Ha). destruct (decide (lvl = 0)) as [->|Hl].
  - assert (StronglySorted newer_first fs) as Hs by (eapply sublist_StronglySorted; [exact (vo_ordered _ _ Hv 0)|done]).
    pose proof (StronglySorted_lookup_lt _ _ _ _ _ _ Hs Hij Hi Hj) as Hnf. unfold newer_first in Hnf.
    unfold newer_than. rewrite (vo_filed _ _ Hv _ _ Ha), (vo_filed _ _ Hv _ _ Hb). simpl. lia.
  - exfalso. apply Hnum. f_equal. eapply (level_exclusive content v lvl); try done. lia.
Qed.

Lemma selection_ok c :
  0 <= c_level c -> c_output_level c = c_level c + 1 ->
  c_inputs c `sublist_of` files_at v (c_level c) -> c_inputs c <> [] ->
  (exists lo up, c_overlaps c = overlapping_inclusive v (c_output_level c) lo up /\ Forall (in_hull (lo, up)) (c_inputs c)) ->
  (c_level c = 0 -> forall g f, g ∈ files_at v 0 -> g ∉ c_inputs c -> f ∈ c_inputs c -> spans_meet g f ->
     file_number f < file_number g) ->
  (c_output_is_bottommost c = true -> forall p, p ∈ all_files v -> c_output_level c < level p ->
     p ∉ overlapping_inclusive v (level p) (effective_hull c).1 (effective_hull c).2) ->
  (c_trivial_move c = true -> length (c_inputs c) = 1%nat /\ c_overlaps c = []) ->
  compaction_ok content v c.
Proof.
  intros Hl Ho Hsub Hsome (lo & up & Eov & Hhull) Holdest Hbot Htriv.
  assert (forall f, f ∈ c_inputs c -> f ∈ files_at v (c_level c)) as Hins by (intros f Hf; by eapply elem_of_sublist).
  assert (forall f, f ∈ c_overlaps c -> f ∈ files_at v (c_output_level c)) as Hovs.
  { intros f. rewrite Eov. by intros [? _]%elem_of_overlapping. }
  assert (forall f, f ∈ all_inputs c -> f ∈ all_files v) as Hall by (intros f [?|?]%elem_of_app; eapply in_all; auto).
  split; try done.
  - split; [done|by left].
  - intros p Hp Hn. unfold all_inputs in *. rewrite Eov in *. apply overlaps_one_side; try done; [lia| |].
    + intros f Hf. by eapply in_all, Hins.
    + intros Hi. apply Hn, elem_of_app. by right.
  - intros g f k Hg Hn Hf Htg Htf. pose proof (Hins f Hf) as Hf'. destruct (decide (c_level c = 0)) as [E|E].
    + rewrite E in *. assert (file_number f < file_number g) as Hlt by (apply Holdest; try done; eapply touches_meet; eauto using in_all).
      unfold newer_than. rewrite (vo_filed _ _ Hv _ _ Hg), (vo_filed _ _ Hv _ _ Hf'). simpl. by apply Z.ltb_lt.
    + exfalso. apply Hn. assert (g = f) as ->; [|done]. eapply (level_exclusive content v (c_level c)); try done. lia.
  - intros i j a b k Hij Hi Hj Hta Htb. unfold all_inputs in *.
    destruct (Nat.lt_ge_cases j (length (c_inputs c))) as [Hjl|Hjl].
    + rewrite lookup_app_l in Hi by lia. rewrite lookup_app_l in Hj by lia.
      by apply (level_recency (c_level c) (c_inputs c) i j a b k).
    + rewrite (lookup_app_r _ _ j) in Hj by lia. destruct (Nat.lt_ge_cases i (length (c_inputs c))) as [Hil|Hil].
      * rewrite lookup_app_l in Hi by lia. apply list_elem_of_lookup_2 in Hi, Hj.
        unfold newer_than. rewrite (vo_filed _ _ Hv _ _ (Hins a Hi)), (vo_filed _ _ Hv _ _ (Hovs b Hj)), Ho.
        apply orb_true_iff. left. apply Z.ltb_lt. lia.
      * rewrite lookup_app_r in Hi by lia. eapply (level_recency (c_output_level c) (c_overlaps c)); [|idtac|exact Hi|exact Hj|done|done]; [|lia].
        rewrite Eov. apply sublist_filter_bool.
  - intros Hb p g k Hp Hlp Hg Htp Htg. apply (Hbot Hb p Hp Hlp). apply elem_of_overlapping.
    split; [by apply in_level; [apply Hv|]|].
    assert (Forall (in_hull (effective_hull c)) (all_inputs c)) as Hh.
    { apply widen_unset; [intros E; apply Hsome; by apply app_eq_nil in E as [? _]|]. rewrite Forall_forall. intros f Hf. by apply real_all, Hall. }
    rewrite Forall_forall in Hh. destruct (Hh g Hg) as [? ?]. destruct (touches_meet p g k Hp (Hall g Hg) Htp Htg) as [? ?].
    split; key_order.
  - intros Ht. destruct (Htriv Ht) as [Hlen E]. destruct (c_inputs c) as [|f [|? ?]]; try done. by exists f.
Qed.
End Selection.

(** ** [pick_compaction] *)

Lemma bottommost_spec v out last lo up :
  is_bottommost_for_range v out last lo up = true ->
  forall p, out < level p -> level p <= last -> p ∉ overlapping_inclusive v (level p) lo up.
Proof.
  unfold is_bottommost_for_range. rewrite forallb_forall. intros H p Hout Hlast Hp.
  assert (level p ∈ seqZ (out + 1) (last - out)) as Hin by (apply elem_of_seqZ; lia).
  apply list_elem_of_In, H, bool_decide_eq_true in Hin. rewrite Hin in Hp. by apply elem_of_nil in Hp.
Qed.

Lemma seed_elem files pointer seed : seed_after_pointer files pointer = Some seed -> seed ∈ files.
Proof.
  unfold seed_after_pointer. destruct (List.find _ files) as [f|] eqn:E.
  - intros [= <-]. apply find_some in E as [? _]. by apply list_elem_of_In.
  - destruct files; [done|]. intros [= <-]. by left.
Qed.

Lemma oldest_elem files seed : oldest_file files = Some seed -> seed ∈ files.
Proof.
  destruct files as [|f files]; [done|]. cbn [oldest_file]. intros [= <-].
  assert (forall l x, x ∈ f :: files -> (forall y, y ∈ l -> y ∈ f :: files) ->
    fold_left (fun seed cand => if file_number cand <? file_number seed then cand else seed) l x ∈ f :: files) as H.
  { induction l as [|y l IH]; intros x Hx Hl; simpl; [done|]. apply IH; [|intros z Hz; apply Hl; by right].
    destruct (_ <? _); [apply Hl; by left|done]. }
  apply (H (f :: files) f); [by left|done].
Qed.

(** A set closed under overlap and trimmed from the new end leaves only newer files behind. *)
Lemma trimmed_oldest v lvl T budget g f :
  closed v lvl T -> T <> [] -> g ∈ files_at v lvl -> g ∉ (trim_to_budget T budget).1 ->
  f ∈ (trim_to_budget T budget).1 -> spans_meet g f -> file_number f < file_number g.
Proof.
  intros (lo & up & E & Hh) Hne Hg Hn Hf [H1 H2]. destruct (trim_spec T budget Hne) as (Hsub & _ & Hold).
  apply Hold; [done| |done]. pose proof (elem_of_sublist _ _ _ Hf Hsub) as HfT.
  rewrite Forall_forall in Hh. destruct (Hh f HfT) as [Hh1 Hh2]. simpl in *.
  rewrite E. apply elem_of_overlapping. split_and!; [done|key_order|key_order].
Qed.

Section Pick.
Context (content : FileMetadata -> Sst) (v : Version) (config : list ResolvedLevel) (max_bytes chosen : Z).
Context (Hv : version_ok content v) (Hne : starts_nonempty v) (Hchosen : 0 <= chosen).

(** The overlaps of a hull of the inputs, and the inputs grown back, are as the selection needs them. *)
Lemma expand_ok ins lo up :
  lo <> [] -> up <> [] -> ins <> [] -> ins `sublist_of` files_at v chosen -> Forall (in_hull (lo, up)) ins ->
  let overlaps := overlapping_inclusive v (chosen + 1) lo up in
  let ins' := expand_inputs v chosen (chosen + 1) max_bytes ins overlaps (lo, up) in
  ins' <> [] /\ ins' `sublist_of` files_at v chosen /\
  exists lo' up', overlaps = overlapping_inclusive v (chosen + 1) lo' up' /\ Forall (in_hull (lo', up')) ins'.
Proof.
  intros Hlo Hup Hi Hsub Hh. cbv zeta. set (ov := overlapping_inclusive v (chosen + 1) lo up). unfold expand_inputs.
  assert (Forall real_span ov) as Hov by (apply overlapping_real; by eapply real_level).
  destruct (widen_spec ov lo up Hlo Hup Hov) as (W1 & W2 & W3 & W4 & W5).
  destruct (widen ov (lo, up)) as [elo eup]. simpl in *.
  destruct (_ && _) eqn:E; [|split_and!; [done|done|by exists lo, up]].
  apply andb_true_iff in E as [E _]. apply Nat.ltb_lt in E.
  set (ex := overlapping_inclusive v chosen elo eup) in *.
  assert (Forall real_span ex) as Hex by (apply overlapping_real; by eapply real_level).
  destruct (widen_spec ex elo eup W4 W5 Hex) as (X1 & X2 & X3 & X4 & X5).
  destruct (widen ex (elo, eup)) as [clo cup]. simpl in *.
  destruct (Nat.eqb_spec (length (overlapping_inclusive v (chosen + 1) clo cup)) (length ov)) as [El|_];
    [|split_and!; [done|done|by exists lo, up]].
  split_and!; [by intros E0; rewrite E0 in E; simpl in E; lia|apply sublist_filter_bool|].
  exists clo, cup. split; [|done]. symmetry.
  apply overlapping_mono; [key_order|key_order|done].
Qed.

Lemma pick_compaction_ok c :
  (forall f, f ∈ all_files v -> level f <= last_level config) ->
  pick_compaction v config max_bytes chosen = Some c -> compaction_ok content v c.
Proof.
  intros Hlast Hpick. unfold pick_compaction in Hpick. destruct (_ <? 1); [done|].
  destruct (config !! Z.to_nat chosen) as [source|]; [|done]. cbn [mbind option_bind] in Hpick.
  destruct (config !! Z.to_nat (chosen + 1)) as [target|]; [|done]. cbn [mbind option_bind] in Hpick.
  set (files := files_at v chosen) in *. set (ovl := is_overlapping_level chosen source) in *.
  destruct (if ovl then _ else _) as [seed|] eqn:Eseed; [|done]. cbn [mbind option_bind] in Hpick.
  assert (seed ∈ files) as Hseed by (destruct ovl; [by apply oldest_elem|by eapply seed_elem]).
  assert (Forall real_span files) as Hreal by (by eapply real_level).
  destruct (if ovl then trim_to_budget _ _ else _) as [ins trimmed] eqn:Eins.
  (* the inputs before they are grown back *)
  assert (ins `sublist_of` files /\ ins <> [] /\ (ovl = false -> ins = [seed]) /\
          (ovl = true -> forall g f, g ∈ files -> g ∉ ins -> f ∈ ins -> spans_meet g f -> file_number f < file_number g))
    as (Hsub & Hins & Hsingle & Holdest).
  { destruct ovl; injection Eins as Eins _ || idtac.
    - destruct (transitive_overlap_closed v chosen Hreal seed Hseed) as [HC HT].
      set (T := transitive_overlap _ _ _ _) in *. assert (T <> []) as HTne by (intros E0; rewrite E0 in HT; by apply elem_of_nil in HT).
      assert (ins = (trim_to_budget T max_bytes).1) as -> by (by rewrite Eins).
      destruct (trim_spec T max_bytes HTne) as (Ht1 & Ht2 & _). split_and!; [|done|done|].
      + etrans; [exact Ht1|]. destruct HC as (lo & up & -> & _). apply sublist_filter_bool.
      + intros _ g f. by apply (trimmed_oldest v chosen).
    - subst ins. split_and!; [|done|done|done]. by apply singleton_sublist_l. }
  set (front := if ovl then default seed (head ins) else seed) in *.
  assert (front ∈ ins) as Hfront.
  { destruct ovl; simpl in *; [|rewrite (Hsingle eq_refl); by left]. subst front. destruct ins; [done|by left]. }
  assert (real_span front) as Hrf.
  { rewrite Forall_forall in Hreal. apply Hreal. by eapply elem_of_sublist. }
  assert (effective_largest front <> []) as Hfl by (destruct Hrf; rewrite nonempty_lt in *; key_order).
  assert (Forall real_span ins) as Hri by (rewrite Forall_forall in *; intros f Hf; apply Hreal; by eapply elem_of_sublist).
  destruct (widen_spec ins _ _ (proj1 Hrf) Hfl Hri) as (_ & _ & Wh & Wlo & Wup).
  destruct (widen ins _) as [lo up]. simpl in Wlo, Wup.
  set (ov := overlapping_inclusive v (chosen + 1) lo up) in *.
  set (ins' := if negb (bool_decide (ov = [])) && negb ovl then _ else ins) in *.
  assert (ins' <> [] /\ ins' `sublist_of` files /\
    exists lo' up', ov = overlapping_inclusive v (chosen + 1) lo' up' /\ Forall (in_hull (lo', up')) ins') as (Hi1 & Hi2 & Hi3).
  { subst ins'. destruct (_ && _); [by apply expand_ok|]. split_and!; [done|done|by exists lo, up]. }
  destruct (widen (ins' ++ ov) ([], [])) as [hlo hup] eqn:Ehull. injection Hpick as <-.
  apply selection_ok; simpl; try done.
  - intros E g f Hg Hng Hf Hm. assert (ovl = true) as Eo by (subst ovl; unfold is_overlapping_level; by rewrite E).
    assert (ins' = ins) as Ei by (subst ins'; by rewrite Eo, andb_false_r). rewrite Ei in *.
    apply Holdest; try done. subst files. by rewrite E.
  - intros Hb p Hp Hout. unfold effective_hull, all_inputs. simpl. rewrite Ehull. simpl.
    apply (bottommost_spec v (chosen + 1) (last_level config)); [done|done|by apply Hlast].
  - intros [[[Hlen Hov]%andb_true_iff _]%andb_true_iff _]%andb_true_iff. apply Nat.eqb_eq in Hlen.
    by apply bool_decide_eq_true in Hov.
Qed.
End Pick.

(** ** Properties *)

(** C14: what the picker selects may be compacted, on a store whose files all lie on configured levels and have no empty
    key. Whatever level the scores choose, the inputs, overlaps and flags [pick_compaction] returns meet every condition the
    merge relies on: the inputs are the oldest of their overlapping group, the overlaps are all the files of the next level
    the inputs reach, what stays keeps its rank, and tombstones are dropped only where nothing lies below. Both conditions
    are needed and neither is checked by the code: [widen] misreads an empty key ([starts_nonempty]), and a store opened
    with fewer levels has files below the last one ([fewer_levels_revert_removal]). *)
Theorem pick_compaction_sound content v config max_bytes chosen c :
  version_ok content v -> starts_nonempty v -> 0 <= chosen ->
  (forall f, f ∈ all_files v -> level f <= last_level config) ->
  pick_compaction v config max_bytes chosen = Some c -> compaction_ok content v c.
Proof. intros Hv Hne Hch Hl Hp. by eapply pick_compaction_ok. Qed.

(** The fixpoint of [transitive_overlap] is reached within the bound of one round per file: the
    result holds the seed and every file of the level that meets, directly or through others, a file
    of the result. *)
Theorem transitive_overlap_complete v lvl seed :
  Forall real_span (files_at v lvl) -> seed ∈ files_at v lvl ->
  let T := transitive_overlap v lvl (effective_smallest seed) (effective_largest seed) in
  seed ∈ T /\ (forall f, f ∈ T -> f ∈ files_at v lvl) /\
  (forall g f, g ∈ files_at v lvl -> f ∈ T -> spans_meet g f -> g ∈ T).
Proof.
  intros Hr Hs. cbv zeta. destruct (transitive_overlap_closed v lvl Hr seed Hs) as [(lo & up & E & Hh) Hin].
  split; [done|]. rewrite E in *. split; [by intros f [? _]%elem_of_overlapping|].
  intros g f Hg Hf [H1 H2]. rewrite Forall_forall in Hh. destruct (Hh f Hf) as [? ?]. simpl in *.
  apply elem_of_overlapping. split_and!; [done|key_order|key_order].
Qed.

(** A budget cuts from the new end. What [trim_to_budget] keeps is never empty, keeps its order,
    and is older, file number by file number, than everything it leaves behind. *)
Theorem trim_keeps_oldest inputs budget :
  inputs <> [] ->
  let T := (trim_to_budget inputs budget).1 in
  T `sublist_of` inputs /\ T <> [] /\
  (forall f g, f ∈ T -> g ∈ inputs -> g ∉ T -> file_number f < file_number g).
Proof. apply trim_spec. Qed.

Lemma trim_keeps_oldest_witness :
  let T := (trim_to_budget [sample_file 3 [x61] [x62]; sample_file 2 [x61] [x63]; sample_file 1 [x61] [x64]] 150).1 in
  T `sublist_of` [sample_file 3 [x61] [x62]; sample_file 2 [x61] [x63]; sample_file 1 [x61] [x64]] /\ T <> [] /\
  (forall f g, f ∈ T -> g ∈ [sample_file 3 [x61] [x62]; sample_file 2 [x61] [x63]; sample_file 1 [x61] [x64]] ->
     g ∉ T -> file_number f < file_number g).
Proof. apply (trim_keeps_oldest [sample_file 3 [x61] [x62]; sample_file 2 [x61] [x63]; sample_file 1 [x61] [x64]] 150). congruence. Defined.

Lemma transitive_overlap_complete_witness :
  sample_file 4 [x61] [x7a] ∈ transitive_overlap sample_version 0 [x61] [x7a].
Proof.
  refine (proj1 (transitive_overlap_complete sample_version 0 (sample_file 4 [x61] [x7a]) _ _)).
  - apply Forall_singleton. split; vm_compute; congruence.
  - by apply list_elem_of_singleton.
Defined.
