(* ===== verification/Tiers.v ===== *)
(** * Tiers and placement

    [src/blob/tier.hpp], [src/blob/placement.cpp] and [src/util/jitter.hpp]: the validated list of tiers, and
    the tier a file's age puts it on; and the deadlines at which the maintenance loop wakes for them
    ([DbImpl::next_time_transition], [publish_transient_stall] and the gate of [reconcile] in
    [src/db/db_impl.cpp]).

    A [double] is a significand and an exponent, so that its rounding is computed; a duration is the signed
    count of milliseconds it holds, converted to [uint64_t] where the source converts it. *)

From S2P Require Import Prelude Slice VersionEdit Version Picker.

(** ** Definitions *)

(** *** Doubles, as far as the jitter uses them *)

Inductive Double : Type :=
  | Nan
  | Infinity (negative : bool)
  | Finite (significand exponent : Z).

(** [significand * 2 ^ exponent] against an integer. *)
Definition scaled_cmp (m e n : Z) : comparison :=
  if 0 <=? e then (m * 2 ^ e ?= n) else (m ?= n * 2 ^ (- e)).

Definition double_gt (d : Double) (n : Z) : bool :=
  match d with
  | Nan => false
  | Infinity negative => negb negative
  | Finite m e => match scaled_cmp m e n with Gt => true | _ => false end
  end.

Definition double_ge (d : Double) (n : Z) : bool :=
  match d with
  | Nan => false
  | Infinity negative => negb negative
  | Finite m e => match scaled_cmp m e n with Lt => false | _ => true end
  end.

(** Round to nearest, ties to even, of a positive integer to a multiple of [2 ^ k]. *)
Definition round_even (n k : Z) : Z :=
  let q := n / 2 ^ k in
  let twice := 2 * (n mod 2 ^ k) in
  if (2 ^ k <? twice) || ((twice =? 2 ^ k) && Z.odd q) then q + 1 else q.

(** A positive value rounded to the 53 bits of a [double]. *)
Definition round_double (me : Z * Z) : Z * Z :=
  let k := Z.max 0 (Z.log2 me.1 + 1 - 53) in (round_even me.1 k, me.2 + k).

Definition double_of_u64 (n : Z) : Z * Z := round_double (n, 0).

Definition double_mul (a b : Z * Z) : Z * Z := round_double (a.1 * b.1, a.2 + b.2).

(** [static_cast<uint64_t>] of a positive value below [2 ^ 64]: the part before the point. *)
Definition truncate_double (me : Z * Z) : Z :=
  if 0 <=? me.2 then me.1 * 2 ^ me.2 else me.1 / 2 ^ (- me.2).

(** *** Jitter *)

Definition jitter_window_ms (span : Z) (fraction : Double) : Z :=
  if negb (double_gt fraction 0) || (span =? 0) then 0
  else
    let fraction := if double_gt fraction 1 then Finite 1 0 else fraction in
    match fraction with
    | Finite m e => truncate_double (double_mul (double_of_u64 span) (m, e))
    | _ => 0 (* neither is greater than zero and at most one *)
    end.

Definition jitter_offset (seed_a seed_b window : Z) : Z :=
  if window =? 0 then 0
  else
    let x := u64 (u64 (seed_a * 0x9e3779b97f4a7c15) + seed_b) in
    let x := Z.lxor x (Z.shiftr x 30) in
    let x := u64 (x * 0xbf58476d1ce4e5b9) in
    let x := Z.lxor x (Z.shiftr x 27) in
    let x := u64 (x * 0x94d049bb133111eb) in
    let x := Z.lxor x (Z.shiftr x 31) in
    x mod window.

(** *** Stores and tiers *)

(** A store, and a cache in front of one: [CacheBlobStore] has its delegate's id. *)
Inductive BlobChain : Type :=
  | Authority (id : bytes)
  | CacheOf (delegate : BlobChain).

Fixpoint chain_id (s : BlobChain) : bytes :=
  match s with Authority id => id | CacheOf d => chain_id d end.

Definition as_cache (s : BlobChain) : option BlobChain :=
  match s with Authority _ => None | CacheOf d => Some d end.

Fixpoint authoritative_store (s : BlobChain) : BlobChain :=
  match s with Authority id => Authority id | CacheOf d => authoritative_store d end.

Inductive Durability : Type := Durable | Transient.

#[export] Instance Durability_eq_dec : EqDecision Durability.
Proof. solve_decision. Defined.

Record Tier := {
  t_store : option BlobChain;
  t_durability : Durability;
  t_max_age : option Z;
  t_max_bytes : option Z;
  t_stall_age : option Z
}.

(** [tier.store->id()]; a validated tier has a store. *)
Definition tier_id (t : Tier) : bytes := match t_store t with Some s => chain_id s | None => [] end.

Record ResolvedTiers := {
  rt_tiers : list Tier;
  rt_stores : gmap bytes BlobChain;
  rt_age_jitter : Double
}.

Definition last_tier (r : ResolvedTiers) : Z := Z.of_nat (length (rt_tiers r)) - 1.

Definition is_transient (t : Tier) : bool := bool_decide (t_durability t = Transient).

Definition any_transient (r : ResolvedTiers) : bool := existsb is_transient (rt_tiers r).

Fixpoint tier_of_store_from (i : Z) (ts : list Tier) (id : bytes) : Z :=
  match ts with
  | [] => -1
  | t :: rest => if bool_decide (tier_id t = id) then i else tier_of_store_from (i + 1) rest id
  end.

Definition tier_of_store (r : ResolvedTiers) (id : bytes) : Z := tier_of_store_from 0 (rt_tiers r) id.

(** The loop of [store_is_discardable], with the flag it carries. *)
Fixpoint discardable_from (named : bool) (ts : list Tier) (id : bytes) : bool :=
  match ts with
  | [] => named
  | t :: rest =>
      if bool_decide (tier_id t <> id) then discardable_from named rest id
      else if negb (is_transient t) then false else discardable_from true rest id
  end.

Definition store_is_discardable (r : ResolvedTiers) (id : bytes) : bool := discardable_from false (rt_tiers r) id.

(** *** Placement *)

Definition tier_age_jitter_ms (r : ResolvedTiers) (number min_time span : Z) : Z :=
  if number =? 0 then 0 else jitter_offset number min_time (jitter_window_ms span (rt_age_jitter r)).

(** The age up to which a file stays on a tier. *)
Definition tier_bound (r : ResolvedTiers) (number min_time : Z) (t : Tier) : option Z :=
  (fun a => let span := u64 a in u64 (span - tier_age_jitter_ms r number min_time span)) <$> t_max_age t.

Fixpoint placement_from (r : ResolvedTiers) (number min_time age i : Z) (ts : list Tier) : option Z :=
  match ts with
  | [] => None
  | t :: rest =>
      match tier_bound r number min_time t with
      | Some bound => if bound <? age then placement_from r number min_time age (i + 1) rest else Some i
      | None => Some i
      end
  end.

Definition age_at (min_time now : Z) : Z := if min_time <? now then now - min_time else 0.

Definition placement (r : ResolvedTiers) (number min_time now : Z) : Z :=
  default (last_tier r) (placement_from r number min_time (age_at min_time now) 0 (rt_tiers r)).

(** *** Validation *)

Definition with_stall (t : Tier) (s : Z) : Tier :=
  {| t_store := t_store t; t_durability := t_durability t; t_max_age := t_max_age t; t_max_bytes := t_max_bytes t;
     t_stall_age := Some s |}.

(** What a transient tier must set. *)
Definition check_transient (t : Tier) : Result Tier :=
  if is_transient t then
    match t_max_age t with
    | None => Unexpected Config
    | Some age =>
        let stall := default (age * 2) (t_stall_age t) in
        if stall <=? age then Unexpected Config else Value (with_stall t stall)
    end
  else Value t.

(** The bounds must not decrease. *)
Definition age_decreases (previous t : Tier) : bool :=
  match t_max_age previous, t_max_age t with
  | Some p, Some a => a <? p
  | None, Some _ => true
  | _, None => false
  end.

(** One round of the loop of [resolve_tiers]. *)
Definition check_tier (previous : option Tier) (is_last : bool) (t : Tier) : Result (Tier * BlobChain) :=
  match t_store t with
  | None => Unexpected Config
  | Some s =>
      if bool_decide (is_Some (as_cache (authoritative_store s))) then Unexpected Config
      else if bool_decide (chain_id s = []) then Unexpected Config
      else
        let? t := check_transient t in
        if match previous with Some p => age_decreases p t | None => false end then Unexpected Config
        else if is_last && bool_decide (is_Some (t_max_age t)) then Unexpected Config
        else if is_last && is_transient t then Unexpected Config
        else Value (t, s)
  end.

(** [std::map::emplace]: an entry that is there stays. *)
Definition emplace (id : bytes) (s : BlobChain) (m : gmap bytes BlobChain) : gmap bytes BlobChain :=
  match m !! id with Some _ => m | None => <[id := s]> m end.

Fixpoint check_tiers (previous : option Tier) (stores : gmap bytes BlobChain) (ts : list Tier)
  : Result (list Tier * gmap bytes BlobChain) :=
  match ts with
  | [] => Value ([], stores)
  | t :: rest =>
      let? (t, s) := check_tier previous (bool_decide (rest = [])) t in
      let? (resolved, stores) := check_tiers (Some t) (emplace (chain_id s) s stores) rest in
      Value (t :: resolved, stores)
  end.

Fixpoint transient_after (seen_durable : bool) (ts : list Tier) : bool :=
  match ts with
  | [] => false
  | t :: rest => (is_transient t && seen_durable) || transient_after (seen_durable || negb (is_transient t)) rest
  end.

Definition resolve_tiers (tiers : list Tier) (age_jitter : Double) : Result ResolvedTiers :=
  if bool_decide (tiers = []) then Unexpected Config
  else if negb (double_ge age_jitter 0) || double_gt age_jitter 1 then Unexpected Config
  else
    let? (resolved, stores) := check_tiers None ∅ tiers in
    if transient_after false resolved then Unexpected Config
    else Value {| rt_tiers := resolved; rt_stores := stores; rt_age_jitter := age_jitter |}.

(** ** The window never exceeds the span *)

Lemma round_even_mono a b k : 0 <= k -> a <= b -> round_even a k <= round_even b k.
Proof.
  intros Hk Hab. assert (0 < 2 ^ k) as Hp by (apply Z.pow_pos_nonneg; lia). unfold round_even.
  pose proof (Z.div_le_mono a b (2 ^ k) Hp Hab) as Hq. pose proof (Z.mod_pos_bound a (2 ^ k) Hp). pose proof (Z.mod_pos_bound b (2 ^ k) Hp).
  pose proof (Z.div_mod a (2 ^ k) ltac:(lia)) as Ea. pose proof (Z.div_mod b (2 ^ k) ltac:(lia)) as Eb.
  destruct (Z.eq_dec (a / 2 ^ k) (b / 2 ^ k)) as [E|Hne].
  - rewrite E in *. assert (a mod 2 ^ k <= b mod 2 ^ k) by lia.
    destruct (2 ^ k <? 2 * (a mod 2 ^ k)) eqn:Ha; simpl.
    + rewrite (proj2 (Z.ltb_lt (2 ^ k) (2 * (b mod 2 ^ k)))) by (apply Z.ltb_lt in Ha; lia). simpl. lia.
    + apply Z.ltb_ge in Ha. destruct (2 * (a mod 2 ^ k) =? 2 ^ k) eqn:Hh; simpl.
      * apply Z.eqb_eq in Hh. destruct (2 ^ k <? 2 * (b mod 2 ^ k)) eqn:Hb; simpl; [destruct (Z.odd _); lia|]. apply Z.ltb_ge in Hb.
        rewrite (proj2 (Z.eqb_eq (2 * (b mod 2 ^ k)) (2 ^ k))) by lia. simpl. lia.
      * destruct ((2 ^ k <? 2 * (b mod 2 ^ k)) || ((2 * (b mod 2 ^ k) =? 2 ^ k) && Z.odd (b / 2 ^ k))); lia.
  - destruct ((2 ^ k <? 2 * (a mod 2 ^ k)) || ((2 * (a mod 2 ^ k) =? 2 ^ k) && Z.odd (a / 2 ^ k)));
      destruct ((2 ^ k <? 2 * (b mod 2 ^ k)) || ((2 * (b mod 2 ^ k) =? 2 ^ k) && Z.odd (b / 2 ^ k))); lia.
Qed.

Lemma round_even_exact c k : 0 <= k -> round_even (c * 2 ^ k) k = c.
Proof.
  intros Hk. assert (0 < 2 ^ k) as Hp by (apply Z.pow_pos_nonneg; lia). unfold round_even. rewrite Z.mod_mul, Z.div_mul by lia.
  rewrite (proj2 (Z.ltb_ge (2 ^ k) (2 * 0))) by lia. simpl. destruct (2 ^ k) eqn:E; [lia|done|lia].
Qed.

(** A span of at most 53 bits is a [double] as it is. *)
Lemma span_exact n : 0 < n <= 2 ^ 53 -> double_of_u64 n = (n, 0) \/ double_of_u64 n = (2 ^ 52, 1) /\ n = 2 ^ 53.
Proof.
  intros Hn. unfold double_of_u64, round_double. cbn [fst snd]. destruct (Z.eq_dec n (2 ^ 53)) as [->|Hne]; [by right|left].
  assert (Z.log2 n < 53) by (apply Z.log2_lt_pow2; lia). rewrite Z.max_l by lia.
  pose proof (round_even_exact n 0 ltac:(lia)) as E. rewrite Z.pow_0_r, Z.mul_1_r in E. by rewrite E.
Qed.

Lemma pow_split a b : 0 <= a -> a <= b -> 2 ^ b = 2 ^ (b - a) * 2 ^ a.
Proof. intros. rewrite <- Z.pow_add_r by lia. f_equal. lia. Qed.

(** Rounding a product with a fraction of at most one does not lift it above the span. *)
Lemma round_product s d m e : 0 < s <= 2 ^ 53 -> 0 <= d -> 0 < m -> scaled_cmp m e 1 <> Gt ->
  truncate_double (round_double (s * m, d + e)) <= s * 2 ^ d.
Proof.
  intros Hs Hd Hm Hle. assert (e <= 0 /\ m <= 2 ^ (- e)) as [He Hme].
  { unfold scaled_cmp in Hle. destruct (Z.leb_spec 0 e) as [H0|H0].
    - rewrite Z.compare_gt_iff in Hle. assert (2 ^ e <= m * 2 ^ e) by nia. destruct (Z.eq_dec e 0) as [->|]; [simpl in *; lia|].
      assert (2 ^ 1 <= 2 ^ e) by (apply Z.pow_le_mono_r; lia). simpl in *. lia.
    - rewrite Z.compare_gt_iff in Hle. lia. }
  set (P := s * m). set (k := Z.max 0 (Z.log2 P + 1 - 53)). set (B := s * 2 ^ (- e)).
  assert (0 < P <= B) as HP by (unfold P, B; nia). assert (0 <= k) as Hk by lia.
  assert (exists c, B = c * 2 ^ k) as [c Hc].
  { destruct (Z.le_gt_cases k (- e)) as [Hke|Hke]; [exists (s * 2 ^ (- e - k)); unfold B; rewrite (pow_split k (- e)) by lia; lia|].
    assert (2 ^ (52 + k) <= P) as Hlow by (replace (52 + k) with (Z.log2 P) by lia; apply Z.log2_spec; lia).
    assert (B <= 2 ^ (52 + k)) as Hup.
    { unfold B. transitivity (2 ^ 53 * 2 ^ (- e)); [apply Z.mul_le_mono_nonneg_r; [apply Z.pow_nonneg; lia|lia]|]. rewrite <- Z.pow_add_r by lia. apply Z.pow_le_mono_r; lia. }
    exists (2 ^ 52). rewrite <- Z.pow_add_r by lia. lia. }
  assert (round_even P k * 2 ^ k <= B) as Hround.
  { pose proof (round_even_mono P B k Hk ltac:(lia)) as H. rewrite Hc in H. rewrite round_even_exact in H by lia. rewrite Hc. apply Z.mul_le_mono_nonneg_r; [apply Z.pow_nonneg; lia|lia]. }
  assert (0 < 2 ^ (- e) /\ 0 < 2 ^ k /\ 0 < 2 ^ d) as (Hpe & Hpk & Hpd) by (split_and!; apply Z.pow_pos_nonneg; lia).
  unfold truncate_double, round_double. cbn [fst snd]. fold k. destruct (Z.leb_spec 0 (d + e + k)) as [H0|H0].
  - apply (Z.mul_le_mono_pos_r _ _ _ Hpe). rewrite <- Z.mul_assoc, <- Z.pow_add_r by lia. replace (d + e + k + - e) with (k + d) by lia.
    rewrite Z.pow_add_r, Z.mul_assoc by lia. replace (s * 2 ^ d * 2 ^ (- e)) with (B * 2 ^ d) by (unfold B; lia). by apply Z.mul_le_mono_nonneg_r; [lia|].
  - apply Z.div_le_upper_bound; [apply Z.pow_pos_nonneg; lia|]. apply (Z.mul_le_mono_pos_r _ _ _ Hpk). transitivity B; [done|]. unfold B.
    rewrite (pow_split (d + k) (- e)), (Z.pow_add_r 2 d k) by lia. replace (- (d + e + k)) with (- e - (d + k)) by lia. lia.
Qed.

Lemma truncate_nonneg me : 0 <= me.1 -> 0 <= truncate_double me.
Proof.
  intros H. unfold truncate_double. destruct (Z.leb_spec 0 me.2); [apply Z.mul_nonneg_nonneg; [done|apply Z.pow_nonneg; lia]|].
  apply Z.div_pos; [done|apply Z.pow_pos_nonneg; lia].
Qed.

Lemma round_double_nonneg me : 0 <= me.1 -> 0 <= (round_double me).1.
Proof.
  intros H. unfold round_double. cbn [fst]. set (k := Z.max _ _). pose proof (round_even_mono 0 me.1 k ltac:(lia) H) as Hm.
  pose proof (round_even_exact 0 k ltac:(lia)) as E. rewrite Z.mul_0_l in E. lia.
Qed.

Lemma jitter_window_range span fraction : 0 <= span <= 2 ^ 53 -> 0 <= jitter_window_ms span fraction <= span.
Proof.
  intros Hs. unfold jitter_window_ms. destruct (negb (double_gt fraction 0) || (span =? 0)) eqn:E; [lia|].
  apply orb_false_iff in E as [E0 Ez]. apply negb_false_iff in E0. apply Z.eqb_neq in Ez. cbv zeta.
  assert (forall m e, 0 < m -> scaled_cmp m e 1 <> Gt -> 0 <= truncate_double (double_mul (double_of_u64 span) (m, e)) <= span) as H.
  { intros m e Hm Hle. unfold double_mul. cbn [fst snd]. split.
    - apply truncate_nonneg, round_double_nonneg. cbn [fst]. apply Z.mul_nonneg_nonneg; [apply round_double_nonneg; simpl; lia|lia].
    - destruct (span_exact span ltac:(lia)) as [-> | [-> ->]]; cbn [fst snd].
      + pose proof (round_product span 0 m e ltac:(lia) ltac:(lia) Hm Hle) as H. by rewrite Z.pow_0_r, Z.mul_1_r in H.
      + exact (round_product (2 ^ 52) 1 m e ltac:(lia) ltac:(lia) Hm Hle). }
  destruct (double_gt fraction 1) eqn:E1; [by apply H|]. destruct fraction as [|b|m e]; [lia|lia|]. apply H.
  - simpl in E0. unfold scaled_cmp in E0. destruct (Z.leb_spec 0 e); [|destruct (Z.compare_spec m (0 * 2 ^ (- e))); [done|done|lia]].
    assert (0 < 2 ^ e) by (apply Z.pow_pos_nonneg; lia). destruct (Z.compare_spec (m * 2 ^ e) 0); [done|done|nia].
  - simpl in E1. by destruct (scaled_cmp m e 1).
Qed.

Lemma jitter_offset_range a b window : 0 < window -> 0 <= jitter_offset a b window < window.
Proof. intros. unfold jitter_offset. destruct (Z.eqb_spec window 0); [lia|]. by apply Z.mod_pos_bound. Qed.

(** A file's share is at most the bound, so that the subtraction in [placement] does not wrap. *)
Lemma tier_jitter_range r number min_time span : 0 <= span <= 2 ^ 53 ->
  0 <= tier_age_jitter_ms r number min_time span <= span.
Proof.
  intros Hs. unfold tier_age_jitter_ms. destruct (number =? 0); [lia|]. pose proof (jitter_window_range span (rt_age_jitter r) Hs) as Hw.
  destruct (Z.eq_dec (jitter_window_ms span (rt_age_jitter r)) 0) as [-> |Hne]; [unfold jitter_offset; simpl; lia|].
  pose proof (jitter_offset_range number min_time (jitter_window_ms span (rt_age_jitter r)) ltac:(lia)). lia.
Qed.

(** ** Placement *)

(** Every bound is a number of milliseconds a [double] holds exactly. *)
Definition ages_small (ts : list Tier) : Prop := Forall (fun t => forall a, t_max_age t = Some a -> 0 <= a <= 2 ^ 53) ts.

Lemma tier_bound_spec r number min_time t : (forall a, t_max_age t = Some a -> 0 <= a <= 2 ^ 53) ->
  match t_max_age t with
  | None => tier_bound r number min_time t = None
  | Some a => exists b, tier_bound r number min_time t = Some b /\ 0 <= b <= a /\ b = a - tier_age_jitter_ms r number min_time a
  end.
Proof.
  intros H. unfold tier_bound. destruct (t_max_age t) as [a|] eqn:E; [|done]. specialize (H a eq_refl). simpl.
  rewrite (u64_small a) by (unfold is_u64; lia). pose proof (tier_jitter_range r number min_time a H).
  exists (a - tier_age_jitter_ms r number min_time a). rewrite u64_small by (unfold is_u64; lia). split; [done|]. lia.
Qed.

(** A tier a file of this age may be on. *)
Definition fits (r : ResolvedTiers) (number min_time age : Z) (t : Tier) : bool :=
  match tier_bound r number min_time t with Some b => age <=? b | None => true end.

(** The loop answers the first tier that fits. *)
Lemma placement_first r number min_time age ts i :
  match placement_from r number min_time age i ts with
  | Some j => exists n t, j = i + Z.of_nat n /\ ts !! n = Some t /\ fits r number min_time age t = true /\
      forall m u, (m < n)%nat -> ts !! m = Some u -> fits r number min_time age u = false
  | None => Forall (fun t => fits r number min_time age t = false) ts
  end.
Proof.
  revert i. induction ts as [|t ts IH]; intros i; [constructor|]. simpl.
  destruct (tier_bound r number min_time t) as [b|] eqn:Eb.
  - destruct (Z.ltb_spec b age).
    + specialize (IH (i + 1)). destruct (placement_from r number min_time age (i + 1) ts) as [j|].
      * destruct IH as (n & u & -> & Hu & Hf & Hb). exists (S n), u. split_and!; [lia|done|done|]. intros [|m] w Hm; simpl; [|apply Hb; lia].
        intros [= <-]. unfold fits. rewrite Eb. by apply Z.leb_gt.
      * constructor; [unfold fits; rewrite Eb; by apply Z.leb_gt|done].
    + exists 0%nat, t. split_and!; [lia|done|unfold fits; rewrite Eb; by apply Z.leb_le|lia].
  - exists 0%nat, t. split_and!; [lia|done|unfold fits; by rewrite Eb|lia].
Qed.

Lemma placement_spec r number min_time now : rt_tiers r <> [] ->
  exists n t, placement r number min_time now = Z.of_nat n /\ rt_tiers r !! n = Some t /\
    (fits r number min_time (age_at min_time now) t = true \/ (S n = length (rt_tiers r) /\ t_max_age t <> None)) /\
    forall m u, (m < n)%nat -> rt_tiers r !! m = Some u -> fits r number min_time (age_at min_time now) u = false.
Proof.
  intros Hne. unfold placement. pose proof (placement_first r number min_time (age_at min_time now) (rt_tiers r) 0) as H.
  destruct (placement_from _ _ _ _ _ _) as [j|]; simpl.
  - destruct H as (n & t & -> & Ht & Hf & Hb). exists n, t. split; [lia|]. auto.
  - destruct (rt_tiers r) as [|t0 ts] eqn:E; [done|]. destruct (lookup_lt_is_Some_2 (t0 :: ts) (length ts)) as [t Ht]; [simpl; lia|].
    rewrite Forall_forall in H. exists (length ts), t. unfold last_tier. rewrite E. split_and!; [simpl; lia|done| |].
    + right. split; [done|]. intros Ha. pose proof (H t (list_elem_of_lookup_2 _ _ _ Ht)) as Hf. unfold fits, tier_bound in Hf. by rewrite Ha in Hf.
    + intros m u _ Hu. apply H. by eapply list_elem_of_lookup_2.
Qed.

Lemma fits_mono r number min_time age age' t : age <= age' -> fits r number min_time age' t = true -> fits r number min_time age t = true.
Proof. unfold fits. destruct (tier_bound _ _ _ t); [|done]. rewrite !Z.leb_le. lia. Qed.

(** The larger of two first positions, by what fails before them. *)
Lemma placement_le r n1 m1 now1 r' n2 m2 now2 : rt_tiers r' = rt_tiers r -> rt_tiers r <> [] ->
  (forall t, t ∈ rt_tiers r -> fits r' n2 m2 (age_at m2 now2) t = true -> fits r n1 m1 (age_at m1 now1) t = true) ->
  placement r n1 m1 now1 <= placement r' n2 m2 now2.
Proof.
  intros Er Hne Himp. destruct (placement_spec r n1 m1 now1 Hne) as (a & ta & -> & Ha & _ & Hba).
  destruct (placement_spec r' n2 m2 now2) as (b & tb & -> & Hb & Hfb & _); [congruence|]. rewrite Er in Hb, Hfb.
  destruct (Nat.le_gt_cases a b) as [|Hlt]; [lia|]. exfalso. destruct Hfb as [Hfb|[Hlast _]].
  - specialize (Hba b tb Hlt Hb). rewrite Himp in Hba; [done|by eapply list_elem_of_lookup_2|done].
  - apply lookup_lt_Some in Ha. lia.
Qed.

Lemma age_at_mono min_time now now' : now <= now' -> age_at min_time now <= age_at min_time now'.
Proof. intros. unfold age_at. destruct (Z.ltb_spec min_time now), (Z.ltb_spec min_time now'); lia. Qed.

Lemma age_at_nonneg min_time now : 0 <= age_at min_time now.
Proof. unfold age_at. destruct (Z.ltb_spec min_time now); lia. Qed.

(** C32: placement stays within its bounds. For any tiers whose ages are at most 2^53 milliseconds, placement is
    an index of the list; it never moves hotter as the clock advances; a file is never left on a bounded tier
    past that tier's [max_age], jitter included, unless that tier is the last; jitter only ever moves a file
    earlier than the exact bounds would; and an output that has no number yet sits on the exact bounds, every
    hotter tier being one it has outlived. *)
Theorem placement_within_bounds r number min_time now :
  rt_tiers r <> [] -> ages_small (rt_tiers r) ->
  0 <= placement r number min_time now <= last_tier r /\
  (forall now', now <= now' -> placement r number min_time now <= placement r number min_time now') /\
  (forall t a, rt_tiers r !! Z.to_nat (placement r number min_time now) = Some t -> t_max_age t = Some a ->
     now - min_time <= a \/ placement r number min_time now = last_tier r) /\
  placement r 0 min_time now <= placement r number min_time now /\
  (forall n t, Z.of_nat n < placement r 0 min_time now -> rt_tiers r !! n = Some t -> exists a, t_max_age t = Some a /\ a < now - min_time).
Proof.
  intros Hne Hs. assert (forall n t, rt_tiers r !! n = Some t -> forall a, t_max_age t = Some a -> 0 <= a <= 2 ^ 53) as Hages.
  { intros n t Ht. unfold ages_small in Hs. rewrite Forall_forall in Hs. apply Hs. by eapply list_elem_of_lookup_2. }
  split_and!.
  - destruct (placement_spec r number min_time now Hne) as (n & t & -> & Ht & _). lia.
  - destruct (placement_spec r number min_time now Hne) as (n & t & -> & Ht & _). apply lookup_lt_Some in Ht. unfold last_tier. lia.
  - intros now' Hnow. apply placement_le; [done|done|]. intros t _. by apply fits_mono, age_at_mono.
  - intros t a Ht Ea. destruct (placement_spec r number min_time now Hne) as (n & u & En & Hu & Hf & _). rewrite En in Ht |- *. rewrite Nat2Z.id, Hu in Ht. injection Ht as <-.
    destruct Hf as [Hf|[Hl _]]; [left|right; unfold last_tier; lia]. pose proof (tier_bound_spec r number min_time u (Hages n u Hu)) as Hb. rewrite Ea in Hb.
    destruct Hb as (b & Eb & Hba & _). unfold fits in Hf. rewrite Eb in Hf. apply Z.leb_le in Hf. unfold age_at in Hf. destruct (Z.ltb_spec min_time now); lia.
  - apply placement_le; [done|done|]. intros t Ht. apply list_elem_of_lookup in Ht as [n Ht]. unfold fits.
    pose proof (tier_bound_spec r number min_time t (Hages n t Ht)) as Hb. pose proof (tier_bound_spec r 0 min_time t (Hages n t Ht)) as Hb0.
    destruct (t_max_age t) as [a|]; [|by rewrite Hb0]. destruct Hb as (b & -> & ? & _), Hb0 as (b0 & -> & _ & ->). rewrite !Z.leb_le. unfold tier_age_jitter_ms. simpl. lia.
  - intros n t Hn Ht. destruct (placement_spec r 0 min_time now Hne) as (p & u & Ep & _ & _ & Hb). rewrite Ep in Hn. specialize (Hb n t ltac:(lia) Ht).
    pose proof (tier_bound_spec r 0 min_time t (Hages n t Ht)) as Hb0. unfold fits in Hb. destruct (t_max_age t) as [a|]; [|by rewrite Hb0 in Hb].
    destruct Hb0 as (b0 & E0 & Hr & Ed). rewrite E0 in Hb. unfold tier_age_jitter_ms in Ed. simpl in Ed. apply Z.leb_gt in Hb. exists a. split; [done|]. unfold age_at in Hb.
    destruct (Z.ltb_spec min_time now); lia.
Qed.

(** ** Validation accepts exactly the documented configurations *)

(** An age bound, no bound being the largest. *)
Definition age_le (a b : option Z) : Prop :=
  match a, b with Some x, Some y => x <= y | None, Some _ => False | _, None => True end.

(** The rules of [tier.hpp], one by one. *)
Record tiers_ok (ts : list Tier) : Prop := {
  to_some : ts <> [];
  to_stores : forall t, t ∈ ts -> tier_id t <> [];
  to_transient : forall t, t ∈ ts -> t_durability t = Transient ->
    exists a, t_max_age t = Some a /\ a < default (a * 2) (t_stall_age t);
  to_ages : forall i j t u, (i < j)%nat -> ts !! i = Some t -> ts !! j = Some u -> age_le (t_max_age t) (t_max_age u);
  to_last : forall t, last ts = Some t -> t_max_age t = None /\ t_durability t = Durable;
  to_prefix : forall i j t u, (i < j)%nat -> ts !! i = Some t -> ts !! j = Some u ->
    t_durability u = Transient -> t_durability t = Transient
}.

(** A transient tier gets twice its [max_age] as the default for [stall_age]. *)
Definition resolved_tier (t : Tier) : Tier :=
  match t_durability t, t_max_age t with
  | Transient, Some a => with_stall t (default (a * 2) (t_stall_age t))
  | _, _ => t
  end.

Lemma resolved_same t : t_store (resolved_tier t) = t_store t /\ t_durability (resolved_tier t) = t_durability t /\
  t_max_age (resolved_tier t) = t_max_age t /\ t_max_bytes (resolved_tier t) = t_max_bytes t.
Proof. unfold resolved_tier. destruct (t_durability t) eqn:Ed, (t_max_age t) eqn:E; simpl; by rewrite ?Ed, ?E. Qed.

Lemma authority_is_no_cache s : as_cache (authoritative_store s) = None.
Proof. by induction s. Qed.

Lemma transient_cases t : is_transient t = true /\ t_durability t = Transient \/ is_transient t = false /\ t_durability t = Durable.
Proof. unfold is_transient. destruct (t_durability t); [right|left]; split; reflexivity. Qed.

(** What one round asks. *)
Definition tier_checks (previous : option Tier) (is_last : bool) (t : Tier) : Prop :=
  tier_id t <> [] /\
  (t_durability t = Transient -> exists a, t_max_age t = Some a /\ a < default (a * 2) (t_stall_age t)) /\
  (forall p, previous = Some p -> age_le (t_max_age p) (t_max_age t)) /\
  (is_last = true -> t_max_age t = None /\ t_durability t = Durable).

Lemma decreases_spec p t : age_decreases p t = false <-> age_le (t_max_age p) (t_max_age t).
Proof. unfold age_decreases, age_le. destruct (t_max_age p), (t_max_age t); rewrite ?Z.ltb_ge; done. Qed.

Lemma check_transient_spec t :
  (t_durability t = Transient -> exists a, t_max_age t = Some a /\ a < default (a * 2) (t_stall_age t)) /\ check_transient t = Value (resolved_tier t) \/
  ~ (t_durability t = Transient -> exists a, t_max_age t = Some a /\ a < default (a * 2) (t_stall_age t)) /\ check_transient t = Unexpected Config.
Proof.
  unfold check_transient, resolved_tier. destruct (transient_cases t) as [[-> Ed]|[-> Ed]]; rewrite Ed; [|left; split; done].
  destruct (t_max_age t) as [a|] eqn:Ea; [|right; split; [|done]; by intros (a & ? & _)].
  cbv zeta. destruct (Z.leb_spec (default (a * 2) (t_stall_age t)) a) as [H|H].
  - right. split; [|done]. intros Hx. destruct (Hx eq_refl) as (a' & [= <-] & ?). lia.
  - left. split; [|done]. intros _. by exists a.
Qed.

Lemma check_tier_spec previous is_last t :
  (tier_checks previous is_last t /\ exists s, t_store t = Some s /\ check_tier previous is_last t = Value (resolved_tier t, s)) \/
  (~ tier_checks previous is_last t /\ check_tier previous is_last t = Unexpected Config).
Proof.
  unfold check_tier, tier_checks. destruct (t_store t) as [s|] eqn:Es; [|right; split; [intros [H _]; by unfold tier_id in H; rewrite Es in H|done]].
  assert (tier_id t = chain_id s) as -> by (unfold tier_id; by rewrite Es). rewrite authority_is_no_cache. simpl.
  case_bool_decide as Hid; [right; split; [tauto|done]|].
  destruct (check_transient_spec t) as [[Ht ->]|[Ht ->]]; [|right; split; [tauto|done]]. simpl. destruct (resolved_same t) as (_ & Ed & Ea & _).
  assert ((match previous with Some p => age_decreases p (resolved_tier t) | None => false end = false) <-> (forall p, previous = Some p -> age_le (t_max_age p) (t_max_age t))) as Hp.
  { destruct previous as [p|]; [rewrite decreases_spec, Ea; naive_solver|naive_solver]. }
  destruct (match previous with Some p => _ | None => false end) eqn:Edec; [right; split; [naive_solver|done]|].
  destruct is_last; simpl; [|left; split; [naive_solver|eauto]]. rewrite Ea. destruct (t_max_age t) as [a|] eqn:Eage; simpl; [right; split; [naive_solver|done]|].
  unfold is_transient. rewrite Ed. case_bool_decide as Hd; [right; split; [intros (_ & _ & _ & Hl); by destruct (Hl eq_refl); congruence|done]|].
  left. split; [|eauto]. split_and!; [done|done|naive_solver|]. intros _. split; [done|]. by destruct (t_durability t).
Qed.

Fixpoint all_checks (previous : option Tier) (ts : list Tier) : Prop :=
  match ts with
  | [] => True
  | t :: rest => tier_checks previous (bool_decide (rest = [])) t /\ all_checks (Some t) rest
  end.

Definition add_store (m : gmap bytes BlobChain) (t : Tier) : gmap bytes BlobChain :=
  match t_store t with Some s => emplace (chain_id s) s m | None => m end.

Lemma checks_previous p p' ts : t_max_age p = t_max_age p' -> all_checks (Some p) ts -> all_checks (Some p') ts.
Proof.
  destruct ts as [|t ts]; [done|]. intros E [(H1 & H2 & H3 & H4) Hr]. split; [|done]. split_and!; [done|done| |done].
  intros q [= <-]. rewrite <- E. by apply H3.
Qed.

Lemma check_tiers_spec ts : forall previous stores,
  (all_checks previous ts /\ check_tiers previous stores ts = Value (map resolved_tier ts, fold_left add_store ts stores)) \/
  (~ all_checks previous ts /\ check_tiers previous stores ts = Unexpected Config).
Proof.
  induction ts as [|t ts IH]; intros previous stores; [by left|]. cbn [check_tiers all_checks map fold_left].
  destruct (check_tier_spec previous (bool_decide (ts = [])) t) as [(Hc & s & Es & ->)|(Hc & ->)]; [|right; split; [tauto|done]]. simpl.
  destruct (resolved_same t) as (_ & _ & Ea & _).
  assert (add_store stores t = emplace (chain_id s) s stores) as -> by (unfold add_store; by rewrite Es).
  destruct (IH (Some (resolved_tier t)) (emplace (chain_id s) s stores)) as [[Hr ->]|[Hr ->]]; simpl.
  - left. split; [|done]. split; [done|]. by eapply checks_previous.
  - right. split; [|done]. intros [_ Hr']. apply Hr. by eapply checks_previous; [symmetry|].
Qed.

Lemma age_le_trans a b c : age_le a b -> age_le b c -> age_le a c.
Proof. unfold age_le. destruct a, b, c; try done; lia. Qed.

(** The checks against the tier before give the order of every two. *)
Lemma checks_ages ts : forall previous, all_checks previous ts ->
  (forall p t, previous = Some p -> t ∈ ts -> age_le (t_max_age p) (t_max_age t)) /\
  (forall i j t u, (i < j)%nat -> ts !! i = Some t -> ts !! j = Some u -> age_le (t_max_age t) (t_max_age u)).
Proof.
  induction ts as [|t ts IH]; intros previous H; [split; [intros ???; set_solver|done]|]. destruct H as [(_ & _ & Hp & _) Hr].
  destruct (IH _ Hr) as [Hhead Hrest]. split.
  - intros p u -> [-> |Hu]%elem_of_cons; [by apply Hp|]. eapply age_le_trans; [by apply Hp|by apply Hhead].
  - intros [|i] [|j] a b Hij Ha Hb; [lia| |lia|]; simpl in *; [|by apply (Hrest i j); [lia| |]].
    injection Ha as <-. apply Hhead; [done|by eapply list_elem_of_lookup_2].
Qed.

Lemma checks_each ts : forall previous, all_checks previous ts ->
  (forall t, t ∈ ts -> tier_id t <> [] /\ (t_durability t = Transient -> exists a, t_max_age t = Some a /\ a < default (a * 2) (t_stall_age t))) /\
  (forall t, last ts = Some t -> t_max_age t = None /\ t_durability t = Durable).
Proof.
  induction ts as [|t ts IH]; intros previous H; [split; [set_solver|done]|]. destruct H as [(H1 & H2 & _ & H4) Hr]. destruct (IH _ Hr) as [He Hl]. split.
  - intros u [-> |Hu]%elem_of_cons; [done|by apply He].
  - intros u. rewrite last_cons. destruct (last ts) as [w|] eqn:E; [intros [= <-]; by apply Hl|]. apply last_None in E. subst ts. intros [= <-]. by apply H4.
Qed.

Lemma checks_from ts previous :
  (forall t, t ∈ ts -> tier_id t <> []) -> (forall t, t ∈ ts -> t_durability t = Transient -> exists a, t_max_age t = Some a /\ a < default (a * 2) (t_stall_age t)) ->
  (forall p t, previous = Some p -> head ts = Some t -> age_le (t_max_age p) (t_max_age t)) ->
  (forall i t u, ts !! i = Some t -> ts !! S i = Some u -> age_le (t_max_age t) (t_max_age u)) ->
  (forall t, last ts = Some t -> t_max_age t = None /\ t_durability t = Durable) -> all_checks previous ts.
Proof.
  revert previous. induction ts as [|t ts IH]; intros previous Hs Ht Hh Ha Hl; [done|]. split.
  - split_and!; [apply Hs; by left|apply Ht; by left|intros p Hp; by apply Hh|]. rewrite bool_decide_eq_true. intros ->. by apply Hl.
  - apply IH; [intros; apply Hs; by right|intros; apply Ht; [by right|done]| | |].
    + intros p u [= <-] Hu. apply (Ha 0%nat); [done|]. by destruct ts.
    + intros i a b. apply (Ha (S i)).
    + intros u Hu. apply Hl. rewrite last_cons. by rewrite Hu.
Qed.

Lemma transient_after_spec ts : forall seen, transient_after seen ts = false <->
  (seen = true -> forall t, t ∈ ts -> t_durability t = Durable) /\
  (forall i j t u, (i < j)%nat -> ts !! i = Some t -> ts !! j = Some u -> t_durability u = Transient -> t_durability t = Transient).
Proof.
  induction ts as [|t ts IH]; intros seen; simpl; [split; [intros _; split; [set_solver|done]|done]|]. rewrite orb_false_iff, IH.
  destruct (transient_cases t) as [[-> Et]|[-> Et]]; rewrite ?orb_false_r, ?orb_true_r; simpl.
  - split.
    + intros [Hs [Hd Hr]]. split; [by rewrite Hs|]. intros [|i] [|j] a b Hij Ha Hb; [lia| |lia|]; simpl in *; [by injection Ha as <-|apply (Hr i j a b); [lia|done|done]].
    + intros [Hd Hr]. destruct seen; [specialize (Hd eq_refl t (list_elem_of_here _ _)); congruence|]. split; [done|]. split; [done|].
      intros i j a b Hij Ha Hb. apply (Hr (S i) (S j) a b); [lia|done|done].
  - split.
    + intros [_ [Hd Hr]]. specialize (Hd eq_refl). split; [intros _ u [-> |Hu]%elem_of_cons; [done|by apply Hd]|].
      intros [|i] [|j] a b Hij Ha Hb Hb'; [lia| |lia|]; simpl in *; [|by apply (Hr i j a b); [lia| | |]].
      rewrite (Hd b) in Hb'; [done|by eapply list_elem_of_lookup_2].
    + intros [Hd Hr]. split; [done|]. split; [|intros i j a b Hij Ha Hb; apply (Hr (S i) (S j) a b); [lia|done|done]].
      intros _ u Hu. apply list_elem_of_lookup in Hu as [j Hu]. destruct (t_durability u) eqn:Eu; [done|].
      rewrite (Hr 0%nat (S j) t u) in Et; [done|lia|done|done|done].
Qed.

Lemma transient_after_resolved seen ts : transient_after seen (map resolved_tier ts) = transient_after seen ts.
Proof.
  revert seen. induction ts as [|t ts IH]; intros seen; [done|]. simpl. unfold is_transient. destruct (resolved_same t) as (_ & -> & _). by rewrite IH.
Qed.

Lemma tiers_ok_checks ts : tiers_ok ts <-> ts <> [] /\ all_checks None ts /\ transient_after false ts = false.
Proof.
  split.
  - intros [Hne Hs Ht Ha Hl Hp]. split_and!; [done| |by apply transient_after_spec]. apply checks_from; [done|done|done| |done].
    intros i t u Hi Hj. by apply (Ha i (S i)); [lia| |].
  - intros (Hne & Hc & Hp). destruct (checks_each _ _ Hc) as [He Hl], (checks_ages _ _ Hc) as [_ Ha]. apply transient_after_spec in Hp as [_ Hp].
    constructor; [done|naive_solver|naive_solver|done|done|done].
Qed.

(** The jitter fraction lies between zero and one. *)
Definition jitter_ok (d : Double) : Prop := double_ge d 0 = true /\ double_gt d 1 = false.

Lemma resolve_tiers_cases ts jitter :
  (tiers_ok ts /\ jitter_ok jitter /\
   resolve_tiers ts jitter = Value {| rt_tiers := map resolved_tier ts; rt_stores := fold_left add_store ts ∅; rt_age_jitter := jitter |}) \/
  (~ (tiers_ok ts /\ jitter_ok jitter) /\ resolve_tiers ts jitter = Unexpected Config).
Proof.
  rewrite tiers_ok_checks. unfold resolve_tiers, jitter_ok. case_bool_decide as Hne; [right; split; [tauto|done]|].
  destruct (double_ge jitter 0), (double_gt jitter 1); simpl; try (right; split; [naive_solver|done]).
  destruct (check_tiers_spec ts None ∅) as [[Hc ->]|[Hc ->]]; simpl; [|right; split; [tauto|done]].
  rewrite transient_after_resolved. destruct (transient_after false ts); [right; split; [naive_solver|done]|left; tauto].
Qed.

(** A resolved list keeps the rules it was checked against. *)
Lemma resolved_tiers_ok ts jitter r : resolve_tiers ts jitter = Value r -> tiers_ok (rt_tiers r) /\ rt_age_jitter r = jitter.
Proof.
  intros E. destruct (resolve_tiers_cases ts jitter) as [([Hne Hs Ht Ha Hl Hp] & _ & E')|[_ E']]; rewrite E' in E; [|done]. injection E as <-. simpl. split; [|done].
  assert (forall t, t ∈ map resolved_tier ts -> exists u, t = resolved_tier u /\ u ∈ ts) as Hmap by (by intros t ?%list_elem_of_fmap).
  assert (forall n t, map resolved_tier ts !! n = Some t -> exists u, t = resolved_tier u /\ ts !! n = Some u) as Hat.
  { intros n t H. rewrite list_lookup_fmap in H. destruct (ts !! n) as [u|]; [|done]. injection H as <-. by exists u. }
  constructor.
  - by destruct ts.
  - intros t (u & -> & Hu)%Hmap. unfold tier_id. destruct (resolved_same u) as (-> & _). by apply Hs.
  - intros t (u & -> & Hu)%Hmap Hd. destruct (resolved_same u) as (_ & Ed & Ea & _). rewrite Ed in Hd. destruct (Ht u Hu Hd) as (a & Eu & Hlt).
    exists a. rewrite Ea. split; [done|]. unfold resolved_tier. by rewrite Hd, Eu.
  - intros i j t u Hij (t' & -> & Ht')%Hat (u' & -> & Hu')%Hat. destruct (resolved_same t') as (_ & _ & -> & _), (resolved_same u') as (_ & _ & -> & _). by eapply Ha.
  - intros t. rewrite fmap_last. destruct (last ts) as [u|] eqn:El; [|done]. intros [= <-]. destruct (resolved_same u) as (_ & -> & -> & _). by apply Hl.
  - intros i j t u Hij (t' & -> & Ht')%Hat (u' & -> & Hu')%Hat. destruct (resolved_same t') as (_ & -> & _), (resolved_same u') as (_ & -> & _). by eapply Hp.
Qed.

(** [resolve_tiers] accepts exactly what [tier.hpp] documents. It answers the tiers as given, with twice
    [max_age] where a transient tier sets no [stall_age], the first store under each id, and the jitter, when
    every rule holds: at least one tier, stores with ids, bounds that never decrease, a last tier that is
    durable and unbounded, transient tiers first and each bounded with a later stall, a jitter from zero to
    one. It answers [Config] whenever one fails, for a jitter that is not a number too. *)
Theorem resolve_tiers_exact ts jitter :
  (tiers_ok ts /\ jitter_ok jitter /\
   resolve_tiers ts jitter = Value {| rt_tiers := map resolved_tier ts; rt_stores := fold_left add_store ts ∅; rt_age_jitter := jitter |}) \/
  (~ (tiers_ok ts /\ jitter_ok jitter) /\ resolve_tiers ts jitter = Unexpected Config).
Proof. apply resolve_tiers_cases. Qed.
