(* ===== verification/Scores.v ===== *)
(** * Which level is compacted

    The scores of [src/compact/picker.cpp] and the loop of [pick_compaction] that chooses a level by them. They are
    [double]s: a significand and an exponent ([Tiers.Double]), divided with one rounding to nearest, ties to even. *)

From S2P Require Import Prelude Slice Format Framing Watermark VersionEdit Version Picker Tiers.

(** ** Doubles that are not negative *)

Definition kPrecision : Z := 53.
Definition kMinExponent : Z := -1074.
Definition kMaxExponent : Z := 1024.

(** The nearest [double] of [m * 2 ^ e]: 53 bits, fewer below the smallest exponent, infinite above the largest. *)
Definition nearest (me : Z * Z) : Double :=
  let k := Z.max (Z.max 0 (Z.log2 me.1 + 1 - kPrecision)) (kMinExponent - me.2) in
  let r := round_even me.1 k in
  if kMaxExponent <=? Z.log2 r + (me.2 + k) then Infinity false else Finite r (me.2 + k).

(** A quotient with two bits more than a [double] holds, the last of them set when the division is not exact. *)
Definition quotient (a b : Z * Z) : Z * Z :=
  let s := Z.max 0 (55 + Z.log2 b.1 - Z.log2 a.1) in
  let n := a.1 * 2 ^ s in
  (2 * (n / b.1) + (if n mod b.1 =? 0 then 0 else 1), a.2 - b.2 - s - 1).

Definition double_div (a b : Double) : Double :=
  match a, b with
  | Nan, _ | _, Nan | Infinity _, Infinity _ => Nan
  | Infinity n, _ => Infinity n
  | _, Infinity _ => Finite 0 0
  | Finite m e, Finite m' e' =>
      if m' =? 0 then (if m =? 0 then Nan else Infinity false) else if m =? 0 then Finite 0 0 else nearest (quotient (m, e) (m', e'))
  end.

Definition double_lt (a b : Double) : bool :=
  match a, b with
  | Nan, _ | _, Nan => false
  | Infinity n, Infinity n' => n && negb n'
  | Infinity n, Finite _ _ => n
  | Finite _ _, Infinity n => negb n
  | Finite m e, Finite m' e' => m * 2 ^ (e - Z.min e e') <? m' * 2 ^ (e' - Z.min e e')
  end.

Definition is_nan (d : Double) : bool := match d with Nan => true | _ => false end.

Definition double_le (a b : Double) : bool := negb (is_nan a || is_nan b || double_lt b a).

(** [std::max]: the second only where the first is less. *)
Definition double_max (a b : Double) : Double := if double_lt a b then b else a.

Definition of_u64 (n : Z) : Double := let '(m, e) := double_of_u64 n in Finite m e.

(** ** Scores *)

Record TombstoneDensity := { td_trigger : Double; td_min_entries : Z }.

(** The ratio of one file against the trigger; [None] where the loop goes on. *)
Definition file_density (density : TombstoneDensity) (f : FileMetadata) : option Double :=
  if num_entries f <? td_min_entries density then None
  else if num_tombstones f =? 0 then None
  else Some (double_div (double_div (of_u64 (num_tombstones f)) (of_u64 (num_entries f))) (td_trigger density)).

Definition tombstone_density_score (v : Version) (config : ResolvedLevel) (density : TombstoneDensity) : Double :=
  if double_le (td_trigger density) (Finite 0 0) then Finite 0 0
  else
    fold_left (fun worst f => match file_density density f with Some d => double_max worst d | None => worst end)
      (files_at v (rl_level config)) (Finite 0 0).

(** One term of [level_score]. *)
Definition limit_score (score : Double) (count : Z) (limit : option Z) : Double :=
  match limit with
  | Some limit => if 0 <? limit then double_max score (double_div (of_u64 count) (of_u64 limit)) else score
  | None => score
  end.

Definition level_score (v : Version) (config : ResolvedLevel) : Double :=
  limit_score (limit_score (Finite 0 0) (file_count v (rl_level config)) (rl_max_files config))
    (total_bytes v (rl_level config)) (rl_max_bytes config).

(** What the loop remembers: the level, its score, and whether the tombstones alone decided. *)
Record Choice := { ch_level : Z; ch_score : Double; ch_by_density : bool }.

Definition score_of (v : Version) (config : ResolvedLevel) (density : TombstoneDensity) : Double :=
  double_max (level_score v config) (tombstone_density_score v config density).

Definition consider_level (v : Version) (density : TombstoneDensity) (chosen : option Choice) (entry : Z * ResolvedLevel) : option Choice :=
  let '(level, config) := entry in
  if file_count v level =? 0 then chosen
  else
    let by_size := level_score v config in
    let by_density := tombstone_density_score v config density in
    let score := double_max by_size by_density in
    if double_le score (Finite 1 0) then chosen
    else if match chosen with None => true | Some c => double_lt (ch_score c) score end
    then Some {| ch_level := level; ch_score := score; ch_by_density := double_lt by_size by_density |}
    else chosen.

(** Every level but the last. *)
Definition candidates (config : list ResolvedLevel) : list (Z * ResolvedLevel) :=
  zip (seqZ 0 (last_level config)) config.

Definition choose_level (v : Version) (config : list ResolvedLevel) (density : TombstoneDensity) : option Choice :=
  fold_left (consider_level v density) (candidates config) None.

(** [pick_compaction], scores and all. *)
Definition pick_by_score (v : Version) (config : list ResolvedLevel) (max_compaction_bytes : Z) (density : TombstoneDensity)
  : option (Compaction * Choice) :=
  if last_level config <? 1 then None
  else
    let! chosen := choose_level v config density in
    let! c := pick_compaction v config max_compaction_bytes (ch_level chosen) in
    Some (c, chosen).

(** ** The order of doubles *)

Lemma lt_at_scale m e m' e' x : x <= e -> x <= e' -> double_lt (Finite m e) (Finite m' e') = (m * 2 ^ (e - x) <? m' * 2 ^ (e' - x)).
Proof.
  intros He He'. cbn [double_lt]. set (y := Z.min e e'). assert (0 < 2 ^ (y - x)) as Hp by (apply Z.pow_pos_nonneg; lia).
  replace (e - x) with (e - y + (y - x)) by lia. replace (e' - x) with (e' - y + (y - x)) by lia. rewrite !Z.pow_add_r, !Z.mul_assoc by lia.
  apply eq_true_iff_eq. rewrite !Z.ltb_lt. by apply Z.mul_lt_mono_pos_r.
Qed.

(** What is less than one of two doubles that are not apart the other way is less than the other. *)
Lemma lt_trans_weak a b c : is_nan b = false -> is_nan c = false -> double_lt a b = true -> double_lt c b = false -> double_lt a c = true.
Proof.
  intros Hb Hc. destruct a as [|n|m e], b as [|n'|m' e'], c as [|n''|m'' e'']; try done.
  all: try (cbn; repeat match goal with x : bool |- _ => destruct x end; done).
  set (x := Z.min e (Z.min e' e'')). rewrite (lt_at_scale _ _ _ _ x), (lt_at_scale m'' _ _ _ x), (lt_at_scale _ _ m'' _ x) by lia.
  rewrite !Z.ltb_lt, Z.ltb_ge. lia.
Qed.

Lemma lt_numbers a b : double_lt a b = true -> is_nan a = false /\ is_nan b = false.
Proof. by destruct a, b. Qed.

Lemma lt_asym a b : double_lt a b = true -> double_lt b a = false.
Proof.
  destruct a as [|n|m e], b as [|n'|m' e']; try done; try (cbn; repeat match goal with x : bool |- _ => destruct x end; done).
  rewrite (lt_at_scale _ _ _ _ (Z.min e e')), (lt_at_scale m' _ _ _ (Z.min e e')) by lia. rewrite Z.ltb_lt, Z.ltb_ge. lia.
Qed.

Lemma max_number a b : is_nan a = false -> is_nan (double_max a b) = false.
Proof. intros H. unfold double_max. destruct (double_lt a b) eqn:E; [by apply lt_numbers in E as [_ ?]|done]. Qed.

Lemma max_above t a b : is_nan a = false -> double_lt t (double_max a b) = double_lt t a || double_lt t b.
Proof.
  intros Ha. unfold double_max. destruct (double_lt a b) eqn:E.
  - destruct (double_lt t a) eqn:Et; [|done]. apply (lt_trans_weak t a b); [done|by apply lt_numbers in E as [_ ?]|done|by apply lt_asym].
  - destruct (double_lt t b) eqn:Et; [|by rewrite orb_false_r]. rewrite orb_true_r. apply (lt_trans_weak t b a); [by apply lt_numbers in Et as [_ ?]|done..].
Qed.

(** ** A quotient is above one exactly when it should be *)

Lemma round_even_above c k n : 0 < k -> c * 2 ^ k + 2 ^ (k - 1) < n -> c + 1 <= round_even n k.
Proof.
  intros Hk Hn. assert (2 ^ k = 2 * 2 ^ (k - 1)) as E by (rewrite <- Z.pow_succ_r by lia; f_equal; lia).
  assert (0 < 2 ^ (k - 1)) as Hp by (apply Z.pow_pos_nonneg; lia). unfold round_even. pose proof (Z.div_mod n (2 ^ k) ltac:(lia)) as Hd.
  pose proof (Z.mod_pos_bound n (2 ^ k) ltac:(lia)) as Hm. set (q := n / 2 ^ k) in *. set (r := n mod 2 ^ k) in *.
  destruct (Z.le_gt_cases (c + 1) q) as [Hq|Hq]; [destruct (_ || _); lia|]. assert (q = c) as -> by nia.
  rewrite (proj2 (Z.ltb_lt _ _)) by lia. cbn [orb]. lia.
Qed.

Section Quotient.
Variables n m : Z.
Hypothesis Hn : 0 <= n < 2 ^ 53.
Hypothesis Hm : 0 < m < 2 ^ 53.

Let s := Z.max 0 (55 + Z.log2 m - Z.log2 n).
Let N := n * 2 ^ s.
Let X := 2 * (N / m) + (if N mod m =? 0 then 0 else 1).

Lemma shift_range : 3 <= s <= 107.
Proof using Hn Hm.
  assert (Z.log2 n < 53) by (destruct (Z.eq_dec n 0) as [->|]; [cbn; lia|apply Z.log2_lt_pow2; lia]).
  assert (Z.log2 m < 53) by (apply Z.log2_lt_pow2; lia). pose proof (Z.log2_nonneg n). pose proof (Z.log2_nonneg m). unfold s. lia.
Qed.

Lemma quotient_bound t : N <= m * t -> X <= 2 * t.
Proof using Hm.
  intros H. unfold X. pose proof (Z.div_mod N m ltac:(lia)) as Hd. pose proof (Z.mod_pos_bound N m ltac:(lia)) as Hr.
  assert (N / m <= t) as Hq by nia. destruct (Z.eqb_spec (N mod m) 0); [lia|]. assert (N / m <> t) by nia. lia.
Qed.

Lemma quotient_above t : m * t < N -> 2 * t < X.
Proof using Hm.
  intros H. unfold X. pose proof (Z.div_mod N m ltac:(lia)) as Hd. pose proof (Z.mod_pos_bound N m ltac:(lia)) as Hr.
  assert (t <= N / m) as Hq by nia. destruct (Z.eqb_spec (N mod m) 0); [|lia]. assert (N / m <> t) by nia. lia.
Qed.

(** The quotient fits the bits it is computed with. *)
Lemma quotient_log : Z.log2 X <= 56.
Proof using Hn Hm.
  pose proof shift_range as Hs. assert (X < 2 ^ 57) as Hx.
  { assert (N < m * 2 ^ 56) as H; [|].
    - unfold N. destruct (Z.eq_dec n 0) as [->|H0]; [nia|]. pose proof (Z.log2_spec n ltac:(lia)) as [_ Hl]. pose proof (Z.log2_spec m ltac:(lia)) as [Hl' _].
      assert (n * 2 ^ s < 2 ^ Z.succ (Z.log2 n) * 2 ^ s) as H1 by (apply Z.mul_lt_mono_pos_r; [apply Z.pow_pos_nonneg; lia|done]).
      rewrite <- Z.pow_add_r in H1 by (pose proof (Z.log2_nonneg n); lia).
      assert (2 ^ (Z.succ (Z.log2 n) + s) <= 2 ^ (Z.log2 m + 56)) as H2 by (apply Z.pow_le_mono_r; [lia|]; pose proof (Z.log2_nonneg m); assert (Z.log2 n < 53) by (apply Z.log2_lt_pow2; lia); unfold s; lia).
      rewrite (Z.pow_add_r 2 (Z.log2 m) 56) in H2 by (pose proof (Z.log2_nonneg m); lia). nia.
    - pose proof (quotient_bound (2 ^ 56 - 1)) as Hb. destruct (Z.le_gt_cases N (m * (2 ^ 56 - 1))) as [Hle|Hgt]; [specialize (Hb Hle); lia|].
      unfold X. pose proof (Z.div_lt_upper_bound N m (2 ^ 56) ltac:(lia) H). destruct (_ =? 0); lia. }
  destruct (Z.le_gt_cases X 0) as [H0|H0]; [rewrite Z.log2_nonpos by done; lia|]. apply Z.log2_lt_pow2 in Hx; lia.
Qed.

Let k := Z.max 0 (Z.log2 X + 1 - kPrecision).

(** Twice the limit or more: the quotient is far from the unit at its scale. *)
Lemma far_above : 2 * m <= n -> 2 ^ (s + 1) + 2 ^ (k - 1) < X /\ 0 < k.
Proof using Hn Hm.
  intros H2. pose proof shift_range as Hs. pose proof quotient_log as Hl.
  assert (2 ^ (s + 2) <= X) as Hx.
  { assert (2 ^ (s + 1) <= N / m) as H.
    { apply Z.div_le_lower_bound; [lia|]. unfold N. rewrite (Z.pow_add_r 2 s 1) by lia. change (2 ^ 1) with 2.
      pose proof (Z.mul_le_mono_nonneg_r (2 * m) n (2 ^ s) ltac:(apply Z.pow_nonneg; lia) H2). lia. }
    replace (s + 2) with (s + 1 + 1) by lia. rewrite (Z.pow_add_r 2 (s + 1) 1) by lia. unfold X. destruct (_ =? 0); lia. }
  assert (s + 2 <= Z.log2 X) as Hg by (apply Z.log2_le_pow2; [pose proof (Z.pow_pos_nonneg 2 (s + 2) ltac:(lia) ltac:(lia)); lia|done]).
  assert (2 ^ 54 <= X) as Hbig.
  { assert (2 ^ 53 <= N / m) as H; [|unfold X; destruct (_ =? 0); lia]. apply Z.div_le_lower_bound; [lia|].
    unfold N. assert (s = 55 + Z.log2 m - Z.log2 n \/ s = 0) as [Es|Es] by (unfold s; lia); [|lia].
    pose proof (Z.log2_spec n ltac:(lia)) as [Hl' _]. pose proof (Z.log2_spec m ltac:(lia)) as [_ Hl''].
    assert (2 ^ Z.log2 n * 2 ^ s <= n * 2 ^ s) as H1 by (apply Z.mul_le_mono_nonneg_r; [apply Z.pow_nonneg; lia|done]).
    rewrite <- Z.pow_add_r in H1 by (pose proof (Z.log2_nonneg n); lia). replace (Z.log2 n + s) with (Z.succ (Z.log2 m) + 54) in H1 by lia.
    rewrite Z.pow_add_r in H1 by (pose proof (Z.log2_nonneg m); lia). nia. }
  assert (54 <= Z.log2 X) by (apply Z.log2_le_pow2; lia). assert (0 < k) by (unfold k, kPrecision; lia). split; [|done].
  assert (2 ^ (k - 1) < 2 ^ (s + 1)) by (apply Z.pow_lt_mono_r; unfold k, kPrecision in *; lia). replace (s + 2) with (s + 1 + 1) in Hx by lia.
  rewrite (Z.pow_add_r 2 (s + 1) 1) in Hx by lia. lia.
Qed.

(** Less than twice: it is more than half a unit in the last place away, since the limit has fewer than 54 bits. *)
Lemma just_above : m < n -> n < 2 * m -> 2 ^ (s + 1) + 2 ^ (k - 1) < X /\ 0 < k.
Proof using Hn Hm.
  intros Hlt H2. pose proof shift_range as Hs.
  assert (54 <= s) as Hs'.
  { assert (Z.log2 n <= Z.log2 (2 * m)) as H by (apply Z.log2_le_mono; lia). rewrite Z.log2_double in H by lia. unfold s. lia. }
  assert (2 * (2 ^ s + 2 ^ (s - 53)) < X) as Hx.
  { apply quotient_above. unfold N. assert (2 ^ s = 2 ^ 53 * 2 ^ (s - 53)) as E by (rewrite <- Z.pow_add_r by lia; f_equal; lia).
    assert (0 < 2 ^ (s - 53)) by (apply Z.pow_pos_nonneg; lia). nia. }
  assert (X <= 2 ^ (s + 2)) as Hx'.
  { replace (2 ^ (s + 2)) with (2 * (2 ^ (s + 1))) by (rewrite <- Z.pow_succ_r by lia; f_equal; lia). apply quotient_bound. unfold N. rewrite (Z.pow_add_r 2 s 1) by lia. change (2 ^ 1) with 2.
    pose proof (Z.mul_le_mono_nonneg_r n (2 * m) (2 ^ s) ltac:(apply Z.pow_nonneg; lia) ltac:(lia)). lia. }
  assert (X < 2 ^ (s + 2)) as Hx''.
  { apply Z.le_neq. split; [done|]. intros E. assert (N <= m * (2 ^ (s + 1)) - 1) as H.
    { unfold N. rewrite (Z.pow_add_r 2 s 1) by lia. change (2 ^ 1) with 2.
      pose proof (Z.mul_lt_mono_pos_r (2 ^ s) n (2 * m) ltac:(apply Z.pow_pos_nonneg; lia)) as [Hmul _]. specialize (Hmul H2). lia. }
    assert (N / m < 2 ^ (s + 1)) as Hq by (apply Z.div_lt_upper_bound; lia). replace (s + 2) with (s + 1 + 1) in E by lia. rewrite (Z.pow_add_r 2 (s + 1) 1) in E by lia.
    unfold X in E. destruct (_ =? 0); lia. }
  assert (Z.log2 X = s + 1) as El.
  { assert (0 < 2 ^ s /\ 0 < 2 ^ (s - 53)) as [? ?] by (split; apply Z.pow_pos_nonneg; lia). apply Z.log2_unique; [lia|]. replace (Z.succ (s + 1)) with (s + 2) by lia.
    rewrite (Z.pow_add_r 2 s 1) by lia. lia. }
  assert (k = s - 51) as Ek by (unfold k, kPrecision; lia). split; [|lia]. rewrite Ek. replace (s - 51 - 1) with (s - 53 + 1) by lia. rewrite !Z.pow_add_r by lia. lia.
Qed.

(** Above one: the rounded quotient exceeds the unit at its scale. *)
Lemma rounds_above : m < n -> 2 ^ (s + 1 - k) < round_even X k /\ k <= s + 1.
Proof using Hn Hm.
  intros Hlt. pose proof shift_range as Hs. pose proof quotient_log as Hl.
  assert (2 ^ (s + 1) + 2 ^ (k - 1) < X /\ 0 < k) as [Hx Hk] by (destruct (Z.le_gt_cases (2 * m) n); [by apply far_above|by apply just_above]).
  assert (k <= s + 1) as Hks by (unfold k, kPrecision; lia). split; [|done].
  pose proof (round_even_above (2 ^ (s + 1 - k)) k X Hk) as H. rewrite <- Z.pow_add_r in H by lia. replace (s + 1 - k + k) with (s + 1) in H by lia. specialize (H Hx). lia.
Qed.

Lemma rounds_below : n <= m -> 0 <= round_even X k <= 2 ^ (s + 1 - k) /\ k <= s + 1.
Proof using Hn Hm.
  intros Hle. pose proof shift_range as Hs. assert (X <= 2 ^ (s + 1)) as Hx.
  { replace (2 ^ (s + 1)) with (2 * 2 ^ s) by (rewrite <- Z.pow_succ_r by lia; f_equal; lia). apply quotient_bound. unfold N. apply Z.mul_le_mono_nonneg_r; [apply Z.pow_nonneg|]; lia. }
  assert (Z.log2 X <= s + 1) as Hl by (rewrite <- (Z.log2_pow2 (s + 1)) by lia; by apply Z.log2_le_mono).
  assert (k <= s + 1) as Hk by (unfold k, kPrecision; lia). assert (0 <= k) by (unfold k; lia). split; [|done]. split.
  - pose proof (round_even_mono 0 X k ltac:(lia)) as H0. pose proof (round_even_exact 0 k ltac:(lia)) as E. rewrite Z.mul_0_l in E. rewrite E in H0. apply H0.
    unfold X, N. pose proof (Z.div_pos (n * 2 ^ s) m ltac:(pose proof (Z.pow_nonneg 2 s); nia) ltac:(lia)). destruct (_ =? 0); lia.
  - pose proof (round_even_mono X (2 ^ (s + 1)) k ltac:(lia) Hx) as H1. rewrite (pow_split k (s + 1)), round_even_exact in H1 by lia. done.
Qed.
End Quotient.

Lemma of_u64_exact n : 0 <= n < 2 ^ 53 -> of_u64 n = Finite n 0.
Proof.
  intros Hn. unfold of_u64. destruct (Z.eq_dec n 0) as [->|]; [done|].
  destruct (span_exact n ltac:(lia)) as [->|[_ ?]]; [done|lia].
Qed.

(** The comparison with one of [level_score], on counts of at most 53 bits, is the comparison of the integers. *)
Lemma quotient_exceeds_one n m : 0 <= n < 2 ^ 53 -> 0 < m < 2 ^ 53 -> is_nan (double_div (of_u64 n) (of_u64 m)) = false /\
  double_lt (Finite 1 0) (double_div (of_u64 n) (of_u64 m)) = (m <? n).
Proof.
  intros Hn Hm. rewrite !of_u64_exact by lia. cbn [double_div]. rewrite (proj2 (Z.eqb_neq m 0)) by lia.
  destruct (Z.eqb_spec n 0) as [->|H0]; [split; [done|]; cbn; symmetry; apply Z.ltb_ge; lia|]. unfold nearest, quotient. cbn [fst snd].
  pose proof (shift_range n m Hn Hm) as Hs. pose proof (quotient_log n m Hn Hm) as Hl. pose proof (rounds_above n m Hn Hm) as Ha. pose proof (rounds_below n m Hn Hm) as Hb.
  set (s := Z.max 0 (55 + Z.log2 m - Z.log2 n)) in *. set (X := 2 * _ + _) in *. set (k := Z.max 0 (Z.log2 X + 1 - kPrecision)) in *.
  rewrite (Z.max_l k) by (unfold kMinExponent, k; lia). replace (0 - 0 - s - 1 + k) with (k - (s + 1)) by lia. assert (0 <= k) by (unfold k; lia). set (r := round_even X k) in *.
  assert (k <= s + 1) as Hk by (destruct (Z.lt_ge_cases m n); [by apply Ha|by apply Hb]). destruct (Z.leb_spec kMaxExponent (Z.log2 r + (k - (s + 1)))) as [Hi|Hi].
  - split; [done|]. cbn [double_lt negb]. symmetry. apply Z.ltb_lt. destruct (Z.lt_ge_cases m n) as [|Hle]; [done|]. destruct (Hb Hle) as [[_ Hr] _].
    apply Z.log2_le_mono in Hr. rewrite Z.log2_pow2 in Hr by lia. unfold kMaxExponent in Hi. lia.
  - split; [done|]. rewrite (lt_at_scale _ _ _ _ (k - (s + 1))) by lia. replace (0 - (k - (s + 1))) with (s + 1 - k) by lia. rewrite Z.sub_diag, Z.pow_0_r, Z.mul_1_r, Z.mul_1_l.
    destruct (Z.ltb_spec m n) as [Hlt|Hle]; [apply Z.ltb_lt; by apply Ha|apply Z.ltb_ge; by apply Hb].
Qed.

(** ** Rounding does not cross a double *)

(** A finite [double]: 53 bits of significand, an exponent in range. *)
Definition double_ok (m e : Z) : Prop := m < 2 ^ 53 /\ kMinExponent <= e /\ Z.log2 m + e < kMaxExponent.

(** [a / b <= m * 2 ^ e], at any scale fine enough. *)
Definition at_most (a b : Z * Z) (m e : Z) : Prop := forall x, x <= a.2 -> x <= b.2 + e -> a.1 * 2 ^ (a.2 - x) <= b.1 * m * 2 ^ (b.2 + e - x).

Section Nearest.
Variables (a b : Z * Z) (m e : Z).
Hypothesis (Ha : 0 < a.1) (Hb : 0 < b.1) (Hm : 0 < m) (Hd : double_ok m e) (Hle : at_most a b m e).

Let s := Z.max 0 (55 + Z.log2 b.1 - Z.log2 a.1).
Let E := a.2 - b.2 - s - 1.
Let X := (quotient a b).1.

(** The quotient has more bits than the double has, so that the double is on its grid. *)
Lemma double_on_grid : 0 <= e - E - 1.
Proof using Ha Hb Hm Hd Hle.
  destruct (Z.le_gt_cases 0 (e - E - 1)) as [|Hlt]; [done|exfalso]. specialize (Hle (b.2 + e) ltac:(unfold E in *; lia) ltac:(lia)).
  rewrite Z.sub_diag, Z.pow_0_r, Z.mul_1_r in Hle. destruct Hd as (Hm53 & _). pose proof (Z.log2_nonneg a.1) as Hla. pose proof (Z.log2_nonneg b.1) as Hlb.
  assert (s <= a.2 - (b.2 + e)) as Hs by (unfold E in *; lia). assert (0 <= s /\ 55 + Z.log2 b.1 - Z.log2 a.1 <= s) as [Hs0 Hs'] by (unfold s; lia). clearbody s.
  pose proof (Z.log2_spec a.1 Ha) as [Hl _]. pose proof (Z.log2_spec b.1 Hb) as [_ Hl'].
  assert (2 ^ (Z.succ (Z.log2 b.1) + 54) <= a.1 * 2 ^ (a.2 - (b.2 + e))) as H1.
  { trans (2 ^ Z.log2 a.1 * 2 ^ (a.2 - (b.2 + e))); [|apply Z.mul_le_mono_nonneg_r; [apply Z.pow_nonneg; lia|done]].
    rewrite <- Z.pow_add_r by lia. apply Z.pow_le_mono_r; lia. }
  rewrite Z.pow_add_r in H1 by lia. assert (b.1 * m < 2 ^ Z.succ (Z.log2 b.1) * 2 ^ 54); [|lia]. apply Z.mul_lt_mono_nonneg; lia.
Qed.

Lemma quotient_on_grid : 0 <= X <= m * 2 ^ (e - E).
Proof using Ha Hb Hm Hd Hle.
  pose proof double_on_grid as Hg. assert (0 <= s) by (unfold s; lia). split.
  - unfold X, quotient. cbn [fst]. pose proof (Z.div_pos (a.1 * 2 ^ s) b.1 ltac:(pose proof (Z.pow_nonneg 2 s); nia) Hb). fold s. destruct (_ =? 0); lia.
  - specialize (Hle (a.2 - s) ltac:(lia) ltac:(unfold E in *; lia)). replace (a.2 - (a.2 - s)) with s in Hle by lia. replace (b.2 + e - (a.2 - s)) with (e - E - 1) in Hle by (unfold E; lia).
    assert (2 ^ (e - E) = 2 * 2 ^ (e - E - 1)) as Ep by (rewrite <- Z.pow_succ_r by lia; f_equal; lia).
    rewrite Ep, (Z.mul_comm 2), Z.mul_assoc, (Z.mul_comm _ 2). clear Ep.
    unfold X, quotient. cbn [fst]. fold s. rewrite <- Z.mul_assoc in Hle. generalize dependent (m * 2 ^ (e - E - 1)). intros t Ht. set (N := a.1 * 2 ^ s) in *.
    pose proof (Z.div_mod N b.1 ltac:(lia)). pose proof (Z.mod_pos_bound N b.1 Hb). assert (N / b.1 <= t) by nia. destruct (Z.eqb_spec (N mod b.1) 0); [lia|]. assert (N / b.1 <> t) by nia. lia.
Qed.

(** What is at most a double rounds to at most that double. *)
Lemma nearest_at_most : double_lt (Finite m e) (nearest (quotient a b)) = false.
Proof using Ha Hb Hm Hd Hle.
  pose proof double_on_grid as Hg. pose proof quotient_on_grid as [HX0 HX]. destruct Hd as (Hm53 & He & Hmax).
  unfold nearest. change ((quotient a b).1) with X. change ((quotient a b).2) with E. set (k := Z.max (Z.max 0 (Z.log2 X + 1 - kPrecision)) (kMinExponent - E)).
  assert (0 <= k <= e - E) as Hk.
  { split; [unfold k; lia|]. assert (Z.log2 X + 1 - kPrecision <= e - E); [|unfold k, kMinExponent in *; lia]. unfold kPrecision.
    destruct (Z.eq_dec X 0) as [->|]; [change (Z.log2 0) with 0; lia|]. assert (X < 2 ^ (53 + (e - E))) as HX'; [|apply Z.log2_lt_pow2 in HX'; lia].
    rewrite Z.pow_add_r by lia. eapply Z.le_lt_trans; [exact HX|]. apply Z.mul_lt_mono_pos_r; [apply Z.pow_pos_nonneg; lia|done]. }
  assert (round_even X k <= m * 2 ^ (e - E - k)) as Hr.
  { rewrite <- (round_even_exact (m * 2 ^ (e - E - k)) k) by lia. apply round_even_mono; [lia|]. rewrite <- Z.mul_assoc, <- Z.pow_add_r by lia. by replace (e - E - k + k) with (e - E) by lia. }
  destruct (Z.leb_spec kMaxExponent (Z.log2 (round_even X k) + (E + k))) as [Hi|Hi].
  - exfalso. apply Z.log2_le_mono in Hr. rewrite Z.log2_mul_pow2 in Hr by lia. lia.
  - rewrite (lt_at_scale _ _ _ _ (E + k)) by lia. apply Z.ltb_ge. rewrite Z.sub_diag, Z.pow_0_r, Z.mul_1_r. by replace (e - (E + k)) with (e - E - k) by lia.
Qed.
End Nearest.

(** ** A density above the trigger *)

Lemma double_div_at_most m e m' e' M F : 0 <= m -> 0 < m' -> 0 < M -> double_ok M F -> at_most (m, e) (m', e') M F ->
  double_lt (Finite M F) (double_div (Finite m e) (Finite m' e')) = false.
Proof.
  intros H0 H1 H2 H3 H4. cbn [double_div]. rewrite (proj2 (Z.eqb_neq m' 0)) by lia. destruct (Z.eqb_spec m 0) as [->|Hne]; [|apply nearest_at_most; cbn; [lia|done..]].
  rewrite (lt_at_scale _ _ _ _ (Z.min F 0)) by lia. apply Z.ltb_ge. rewrite Z.mul_0_l. apply Z.mul_nonneg_nonneg; [lia|apply Z.pow_nonneg; lia].
Qed.

Lemma double_div_shape m e m' e' : 0 <= m -> 0 < m' -> double_div (Finite m e) (Finite m' e') = Infinity false \/
  exists r f, double_div (Finite m e) (Finite m' e') = Finite r f /\ 0 <= r.
Proof.
  intros H0 H1. cbn [double_div]. rewrite (proj2 (Z.eqb_neq m' 0)) by lia. destruct (m =? 0); [right; by eexists _, _|]. unfold nearest, quotient. cbn [fst snd].
  set (s := Z.max 0 _). set (X := 2 * _ + _). set (k := Z.max (Z.max _ _) _). destruct (_ <=? _); [by left|right]. eexists _, _. split; [done|].
  assert (0 <= k) by (unfold k; lia). pose proof (round_even_exact 0 k ltac:(lia)) as Hz. rewrite Z.mul_0_l in Hz. rewrite <- Hz. apply round_even_mono; [lia|].
  unfold X. pose proof (Z.div_pos (m * 2 ^ s) m' ltac:(pose proof (Z.pow_nonneg 2 s); nia) H1). destruct (_ =? 0); lia.
Qed.

(** The exact comparison: more tombstones than the trigger's share of the entries. *)
Definition denser_than (trigger : Double) (f : FileMetadata) : bool :=
  match trigger with
  | Finite m e => m * num_entries f * 2 ^ (e - Z.min e 0) <? num_tombstones f * 2 ^ (0 - Z.min e 0)
  | _ => false
  end.

Definition trigger_ok (trigger : Double) : Prop := match trigger with Finite m e => double_ok m e | _ => True end.

Definition counted (f : FileMetadata) : Prop := 0 <= num_entries f < 2 ^ 53 /\ 0 <= num_tombstones f < 2 ^ 53.

Lemma pow_sum x y z : 0 <= x -> 0 <= y -> z = x + y -> 2 ^ z = 2 ^ x * 2 ^ y.
Proof. intros ? ? ->. by apply Z.pow_add_r. Qed.

(** The rounded ratio is above one only where the file is denser than the trigger. *)
Lemma density_sound density f d : trigger_ok (td_trigger density) -> double_le (td_trigger density) (Finite 0 0) = false -> counted f ->
  file_density density f = Some d -> double_lt (Finite 1 0) d = true -> denser_than (td_trigger density) f = true /\ td_min_entries density <= num_entries f.
Proof.
  intros Hok Hoff [He Ht]. unfold file_density. destruct (Z.ltb_spec (num_entries f) (td_min_entries density)) as [|Hmin]; [done|]. destruct (Z.eqb_spec (num_tombstones f) 0) as [|Ht0]; [done|]. rewrite !of_u64_exact by lia. intros Hd Hlt.
  assert (d = double_div (double_div (Finite (num_tombstones f) 0) (Finite (num_entries f) 0)) (td_trigger density)) as -> by congruence. clear Hd.
  split; [|done]. destruct (td_trigger density) as [|n|m e]; cbn [denser_than trigger_ok] in *.
  - exfalso. cbn [double_div] in Hlt. destruct (num_entries f =? 0); [destruct (_ =? 0); cbn in Hlt; done|]. destruct (_ =? 0); [done|]. unfold nearest in Hlt. by destruct (_ <=? _).
  - exfalso. destruct n; [done|]. cbn [double_div] in Hlt. destruct (num_entries f =? 0); [destruct (_ =? 0); cbn in Hlt; done|]. destruct (_ =? 0); [done|]. unfold nearest in Hlt. by destruct (_ <=? _).
  - apply Z.ltb_lt. destruct (Z.lt_ge_cases (m * num_entries f * 2 ^ (e - Z.min e 0)) (num_tombstones f * 2 ^ (0 - Z.min e 0))) as [|Hge]; [done|exfalso].
    assert (0 < m) as Hm.
    { unfold double_le in Hoff. cbn [is_nan orb] in Hoff. rewrite (lt_at_scale _ _ _ _ (Z.min 0 e)) in Hoff by lia. rewrite Z.mul_0_l in Hoff.
      apply negb_false_iff, Z.ltb_lt in Hoff. pose proof (Z.pow_nonneg 2 (e - Z.min 0 e)). nia. }
    assert (0 < num_entries f) as Hn0.
    { destruct (Z.eq_dec (num_entries f) 0) as [E|]; [|lia]. rewrite E in Hge. pose proof (Z.pow_pos_nonneg 2 (0 - Z.min e 0) ltac:(lia) ltac:(lia)). nia. }
    assert (double_lt (Finite m e) (double_div (Finite (num_tombstones f) 0) (Finite (num_entries f) 0)) = false) as H1.
    { apply double_div_at_most; [lia|lia|lia|done|]. intros x Hx Hx'. cbn [fst snd] in *. rewrite Z.add_0_l in *.
      rewrite (pow_sum (0 - Z.min e 0) (Z.min e 0 - x) (0 - x)), (pow_sum (e - Z.min e 0) (Z.min e 0 - x) (e - x)) by lia. rewrite !Z.mul_assoc. apply Z.mul_le_mono_nonneg_r; [apply Z.pow_nonneg; lia|].
      by rewrite (Z.mul_comm (num_entries f) m). }
    destruct (double_div_shape (num_tombstones f) 0 (num_entries f) 0 ltac:(lia) Hn0) as [E|(r & g & E & Hr)]; rewrite E in *; [done|].
    rewrite (double_div_at_most r g m e 1 0) in Hlt; [done|lia|lia|lia|unfold double_ok, kMinExponent, kMaxExponent; cbn; lia|]. intros x Hx Hx'. cbn [fst snd] in *. rewrite Z.add_0_r in *. rewrite Z.mul_1_r.
    rewrite (lt_at_scale _ _ _ _ x) in H1 by lia. by apply Z.ltb_ge in H1.
Qed.

(** ** When a level is due *)

(** What the documents say: a count above a limit that is set, or a file denser than the trigger. *)
Definition over (count : Z) (limit : option Z) : bool :=
  match limit with Some limit => (0 <? limit) && (limit <? count) | None => false end.

Definition over_limit (v : Version) (config : ResolvedLevel) : bool :=
  over (file_count v (rl_level config)) (rl_max_files config) || over (total_bytes v (rl_level config)) (rl_max_bytes config).

Definition too_dense (density : TombstoneDensity) (f : FileMetadata) : bool :=
  negb (double_le (td_trigger density) (Finite 0 0)) && match file_density density f with Some d => double_lt (Finite 1 0) d | None => false end.

Definition due (v : Version) (density : TombstoneDensity) (config : ResolvedLevel) : bool :=
  over_limit v config || existsb (too_dense density) (files_at v (rl_level config)).

Lemma over_zero limit : over 0 limit = false.
Proof. destruct limit as [l|]; [|done]. cbn [over]. destruct (Z.ltb_spec 0 l); [apply Z.ltb_ge; lia|done]. Qed.

(** Limits and counts of at most 53 bits, nine petabytes. *)
Definition within (limit : option Z) : Prop := match limit with Some limit => limit < 2 ^ 53 | None => True end.

Definition countable (v : Version) (config : ResolvedLevel) : Prop :=
  file_count v (rl_level config) < 2 ^ 53 /\ total_bytes v (rl_level config) < 2 ^ 53 /\ within (rl_max_files config) /\ within (rl_max_bytes config).

Lemma limit_score_exact score count limit : is_nan score = false -> 0 <= count < 2 ^ 53 -> within limit ->
  is_nan (limit_score score count limit) = false /\ double_lt (Finite 1 0) (limit_score score count limit) = double_lt (Finite 1 0) score || over count limit.
Proof.
  intros Hs Hc Hw. destruct limit as [l|]; cbn [limit_score over]; [|by rewrite orb_false_r]. cbn in Hw. destruct (Z.ltb_spec 0 l); [|by rewrite orb_false_r].
  destruct (quotient_exceeds_one count l) as [Hn E]; [lia..|]. split; [by apply max_number|]. by rewrite max_above, E.
Qed.

Lemma total_bytes_nonneg v l : 0 <= total_bytes v l.
Proof. unfold total_bytes, sum_bytes. generalize (files_at v l). intros fs. rewrite <- (rev_involutive fs). destruct (rev fs) as [|f fs']; [done|]. cbn [rev]. rewrite fold_left_app. apply u64_range. Qed.

Lemma level_score_exact v config : countable v config ->
  is_nan (level_score v config) = false /\ double_lt (Finite 1 0) (level_score v config) = over_limit v config.
Proof.
  intros (Hf & Hb & Hw1 & Hw2). pose proof (total_bytes_nonneg v (rl_level config)). assert (0 <= file_count v (rl_level config)) by (unfold file_count; lia).
  destruct (limit_score_exact (Finite 0 0) (file_count v (rl_level config)) (rl_max_files config)) as [Hn1 E1]; [done|lia|done|].
  destruct (limit_score_exact _ (total_bytes v (rl_level config)) (rl_max_bytes config) Hn1) as [Hn2 E2]; [lia|done|].
  unfold level_score, over_limit. by rewrite E2, E1.
Qed.

Lemma density_score_exact v config density : is_nan (tombstone_density_score v config density) = false /\
  double_lt (Finite 1 0) (tombstone_density_score v config density) = existsb (too_dense density) (files_at v (rl_level config)).
Proof.
  unfold tombstone_density_score, too_dense. destruct (double_le _ _); cbn [negb andb].
  { split; [done|]. by induction (files_at v (rl_level config)). }
  assert (forall fs worst, is_nan worst = false ->
    let score := fold_left (fun worst f => match file_density density f with Some d => double_max worst d | None => worst end) fs worst in
    is_nan score = false /\ double_lt (Finite 1 0) score =
      double_lt (Finite 1 0) worst || existsb (fun f => match file_density density f with Some d => double_lt (Finite 1 0) d | None => false end) fs) as H; [|by apply H].
  induction fs as [|f fs IH]; intros worst Hw; cbn [fold_left existsb]; [by rewrite orb_false_r|].
  destruct (file_density density f) as [d|]; [|by apply IH]. destruct (IH (double_max worst d) (max_number _ _ Hw)) as [Hn E].
  split; [done|]. by rewrite E, max_above, orb_assoc.
Qed.

Lemma score_exact v config density : countable v config ->
  is_nan (score_of v config density) = false /\ double_lt (Finite 1 0) (score_of v config density) = due v density config.
Proof.
  intros Hc. destruct (level_score_exact v config Hc) as [Hn E]. destruct (density_score_exact v config density) as [_ E'].
  split; [by apply max_number|]. unfold score_of, due. by rewrite max_above, E, E'.
Qed.

(** ** The choice *)

(** A level that holds files and is due, as the loop finds it. *)
Definition eligible (v : Version) (density : TombstoneDensity) (entry : Z * ResolvedLevel) : bool :=
  negb (file_count v entry.1 =? 0) && due v density entry.2.

(** The best among the entries seen: none of them is eligible, or one of the greatest score. *)
Definition best_of (v : Version) (density : TombstoneDensity) (seen : list (Z * ResolvedLevel)) (chosen : option Choice) : Prop :=
  match chosen with
  | None => forall entry, entry ∈ seen -> eligible v density entry = false
  | Some c => (exists config, (ch_level c, config) ∈ seen /\ eligible v density (ch_level c, config) = true /\ ch_score c = score_of v config density) /\
      forall entry, entry ∈ seen -> eligible v density entry = true -> double_lt (ch_score c) (score_of v entry.2 density) = false
  end.

Lemma consider_level_best v density seen chosen entry : countable v entry.2 -> best_of v density seen chosen ->
  best_of v density (seen ++ [entry]) (consider_level v density chosen entry).
Proof.
  destruct entry as [level config]. intros Hc Hb. destruct (score_exact v config density Hc) as [Hn E]. unfold consider_level. fold (score_of v config density).
  assert (eligible v density (level, config) = false -> best_of v density (seen ++ [(level, config)]) chosen) as Hskip.
  { intros He. destruct chosen as [c|]; cbn in Hb |- *.
    - destruct Hb as [(cf & Hin & H1 & H2) Hmax]. split; [exists cf; set_solver|]. intros x [Hx| ->%list_elem_of_singleton]%elem_of_app; [by apply Hmax|congruence].
    - intros x [Hx| ->%list_elem_of_singleton]%elem_of_app; [by apply Hb|done]. }
  destruct (file_count v level =? 0) eqn:E0; [apply Hskip; unfold eligible; cbn [fst snd]; by rewrite E0|].
  unfold double_le. rewrite Hn. cbn [is_nan orb]. rewrite E. destruct (due v density config) eqn:Ed; cbn [negb]; [|apply Hskip; unfold eligible; cbn [fst snd]; by rewrite Ed, andb_false_r].
  assert (eligible v density (level, config) = true) as Hel by (unfold eligible; cbn [fst snd]; by rewrite E0, Ed). destruct chosen as [c|]; cbn in Hb.
  - destruct Hb as [(cf & Hin & H1 & H2) Hmax]. destruct (double_lt (ch_score c) (score_of v config density)) eqn:Elt; cbn.
    + split; [exists config; split_and!; [set_solver|done..]|]. intros x [Hx| ->%list_elem_of_singleton]%elem_of_app Hex; cbn [snd].
      * apply not_true_is_false. intros Hlt. specialize (Hmax x Hx Hex). pose proof (lt_numbers _ _ Elt) as [Hc' _]. apply lt_numbers in Hlt as Hx'.
        pose proof (lt_trans_weak _ _ _ (proj2 Hx') Hc' Hlt Hmax) as Hcontra. apply lt_asym in Hcontra. congruence.
      * destruct (double_lt (score_of v config density) (score_of v config density)) eqn:Er; [|done]. apply lt_asym in Er as Er'. congruence.
    + split; [exists cf; set_solver|]. intros x [Hx| ->%list_elem_of_singleton]%elem_of_app Hex; [by apply Hmax|done].
  - cbn. split; [exists config; split_and!; [set_solver|done..]|]. intros x [Hx| ->%list_elem_of_singleton]%elem_of_app Hex; cbn [snd]; [by rewrite Hb in Hex|].
    destruct (double_lt (score_of v config density) (score_of v config density)) eqn:Er; [|done]. apply lt_asym in Er as Er'. congruence.
Qed.

Lemma choose_level_best v config density : Forall (countable v) config -> best_of v density (candidates config) (choose_level v config density).
Proof.
  intros Hc. assert (Forall (fun entry => countable v entry.2) (candidates config)) as Hs.
  { apply Forall_forall. intros [i rl] Hin. apply elem_of_zip_r in Hin. by apply (Forall_forall _ _) with (x := rl) in Hc. }
  unfold choose_level. induction (candidates config) as [|x l IH] using rev_ind; [by intros ? ?%not_elem_of_nil|].
  apply Forall_app in Hs as [Hl Hx]. rewrite fold_left_app. cbn [fold_left]. apply consider_level_best; [by inversion Hx|by apply IH].
Qed.

Lemma elem_of_candidates config i rl : (i, rl) ∈ candidates config <-> config !! Z.to_nat i = Some rl /\ 0 <= i < last_level config.
Proof.
  unfold candidates. rewrite list_elem_of_lookup. setoid_rewrite lookup_zip_with_Some. split.
  - intros (n & x & y & [= -> ->] & Hx & Hy). apply lookup_seqZ in Hx as [-> Hn]. split; [by replace (Z.to_nat (0 + Z.of_nat n)) with n by lia|lia].
  - intros [Hr Hi]. exists (Z.to_nat i), i, rl. split_and!; [done|apply lookup_seqZ; lia|done].
Qed.

(** Why a level is due. *)
Lemma due_reason v density rl : trigger_ok (td_trigger density) -> (forall f, f ∈ all_files v -> counted f) -> due v density rl = true ->
  over_limit v rl = true \/ exists f, f ∈ files_at v (rl_level rl) /\ td_min_entries density <= num_entries f /\ denser_than (td_trigger density) f = true.
Proof.
  intros Ht Hc. unfold due. intros [Ho|Hd]%orb_true_iff; [by left|right]. apply existsb_exists in Hd as (f & Hf%list_elem_of_In & Hd). unfold too_dense in Hd. apply andb_true_iff in Hd as [Hoff%negb_true_iff Hd].
  destruct (file_density density f) as [d|] eqn:Ed; [|done]. exists f. split; [done|]. destruct (density_sound density f d Ht Hoff (Hc f ltac:(apply elem_of_all_files; by eexists)) Ed Hd). done.
Qed.

(** A level that holds files gives a compaction. *)
Lemma pick_from_level v config max_bytes chosen : 0 <= chosen < last_level config -> files_at v chosen <> [] ->
  exists c, pick_compaction v config max_bytes chosen = Some c /\ c_level c = chosen.
Proof.
  intros Hc Hf. unfold pick_compaction. rewrite (proj2 (Z.ltb_ge _ _)) by lia. unfold last_level in Hc.
  destruct (lookup_lt_is_Some_2 config (Z.to_nat chosen) ltac:(lia)) as [source ->]. destruct (lookup_lt_is_Some_2 config (Z.to_nat (chosen + 1)) ltac:(lia)) as [target ->].
  destruct (files_at v chosen) as [|f fs] eqn:Ef; [done|].
  assert (exists seed, (if is_overlapping_level chosen source then oldest_file (f :: fs) else seed_after_pointer (f :: fs) (default [] (compaction_pointers_ v !! chosen))) = Some seed) as [seed ->].
  { destruct (is_overlapping_level chosen source); [by eexists|]. unfold seed_after_pointer. destruct (List.find _ _); by eexists. }
  destruct (if is_overlapping_level chosen source then _ else _) as [inputs trimmed]. destruct (widen inputs _) as [lo up]. destruct (widen _ ([], [])) as [lo' up']. by eexists.
Qed.

(** C40: A compaction is picked when a limit is exceeded, and only when it should be. On levels numbered from zero, with
    counts and limits below 2^53 and a trigger that is a double: when a level but the last has more files or bytes than its
    limit, the picker answers a compaction, and when it answers none, no level does, although it compares quotients of
    rounded doubles. The level it compacts is over a limit, or holds a file of at least [min_entries] entries that is denser
    in tombstones than the trigger, as exact numbers compare; and no level that is due has a greater score. The converse for
    tombstones holds only up to the rounding of two divisions ([rounding_hides_a_dense_file]). *)
Theorem compaction_picked_when_due v config max_bytes density :
  1 <= last_level config -> Forall (countable v) config -> (forall i rl, config !! i = Some rl -> rl_level rl = Z.of_nat i) ->
  trigger_ok (td_trigger density) -> (forall f, f ∈ all_files v -> counted f) ->
  match pick_by_score v config max_bytes density with
  | None => forall i rl, config !! i = Some rl -> Z.of_nat i < last_level config -> over_limit v rl = false
  | Some (c, ch) => pick_compaction v config max_bytes (c_level c) = Some c /\ 0 <= c_level c < last_level config /\
      exists rl, config !! Z.to_nat (c_level c) = Some rl /\
        (over_limit v rl = true \/
         exists f, f ∈ files_at v (c_level c) /\ td_min_entries density <= num_entries f /\ denser_than (td_trigger density) f = true) /\
        ch_score ch = score_of v rl density /\
        forall i rl', config !! i = Some rl' -> Z.of_nat i < last_level config -> due v density rl' = true -> double_lt (ch_score ch) (score_of v rl' density) = false
  end.
Proof.
  intros Hlast Hc Hnum Htrig Hcnt. unfold pick_by_score. rewrite (proj2 (Z.ltb_ge _ _)) by lia. pose proof (choose_level_best v config density Hc) as Hb.
  assert (forall i rl, config !! i = Some rl -> Z.of_nat i < last_level config -> due v density rl = true -> eligible v density (Z.of_nat i, rl) = true) as Hel.
  { intros i rl Hi Hl Hd. unfold eligible. cbn [fst snd]. rewrite Hd, andb_true_r. apply negb_true_iff, Z.eqb_neq. unfold due, over_limit, total_bytes, file_count in *. rewrite (Hnum _ _ Hi) in Hd.
    destruct (files_at v (Z.of_nat i)); [|cbn [length]; lia]. change (sum_bytes []) with 0 in Hd. cbn [length Z.of_nat existsb] in Hd. by rewrite !over_zero in Hd. }
  assert (forall i rl, config !! i = Some rl -> Z.of_nat i < last_level config -> (Z.of_nat i, rl) ∈ candidates config) as Hin.
  { intros i rl Hi Hl. apply elem_of_candidates. rewrite Nat2Z.id. split; [done|lia]. }
  destruct (choose_level v config density) as [ch|]; cbn in Hb.
  - destruct Hb as [(rl & Hcand & Hrl & Hs) Hmax]. apply elem_of_candidates in Hcand as [Hi Hl]. unfold eligible in Hrl. cbn [fst snd] in Hrl. apply andb_true_iff in Hrl as [Hf Hd].
    apply negb_true_iff, Z.eqb_neq in Hf. destruct (pick_from_level v config max_bytes (ch_level ch) Hl) as (c & E & El); [intros E; unfold file_count in Hf; by rewrite E in Hf|].
    rewrite E. rewrite El. split_and!; [done|lia..|]. exists rl. split_and!; [done| |done|].
    + rewrite <- (Z2Nat.id (ch_level ch)) by lia. rewrite <- (Hnum _ _ Hi). by apply due_reason.
    + intros i rl' Hi' Hl' Hd'. apply (Hmax (Z.of_nat i, rl')); by auto.
  - intros i rl Hi Hl. assert (due v density rl = false) as Hd by (apply not_true_is_false; intros Hd; pose proof (Hb _ (Hin _ _ Hi Hl)); rewrite (Hel _ _ Hi Hl Hd) in *; done).
    unfold due in Hd. by apply orb_false_iff in Hd as [Ho _].
Qed.

(** ** At concrete levels *)

Module ScoreExamples.
Definition table (number entries tombstones : Z) : FileMetadata :=
  {| level := 0; file_number := number; store_id := []; smallest_key := [x61]; largest_key := [x62]; file_bytes := 100; num_entries := entries;
     num_tombstones := tombstones; num_range_tombstones := 0; smallest_range_key := []; largest_range_key := []; compression := NoCompression;
     min_write_time_ms := 0; max_write_time_ms := 0; watermark := no_watermark; encryption_provider := []; encryption_metadata := [] |}.

Definition limited (lvl : Z) (max_files max_bytes : option Z) : ResolvedLevel :=
  {| rl_level := lvl; rl_compression := NoCompression; rl_max_bytes := max_bytes; rl_max_files := max_files; rl_slowdown_at := None; rl_stop_at := None;
     rl_target_file_bytes := 1000 |}.

(** Two files may be in level 0, three thousand bytes in level 1. *)
Definition levels : list ResolvedLevel := [limited 0 (Some 2) None; limited 1 None (Some 3000); limited 2 None None].

Definition holding (l0 l1 : list FileMetadata) : Version := make_version [l0; l1] 10 ∅ [] None.

(** One half of the entries may be tombstones, in files of ten entries and more. *)
Definition half : TombstoneDensity := {| td_trigger := Finite 1 (-1); td_min_entries := 10 |}.

Definition crowded : Version := holding [table 3 4 0; table 2 4 0; table 1 4 0] [].
End ScoreExamples.
Import ScoreExamples.

Example compaction_picked_when_due_witness :
  match pick_by_score crowded levels 10000 half with
  | None => over_limit crowded (limited 0 (Some 2) None) = false
  | Some (c, ch) => c_level c = 0 /\ ch_score ch = score_of crowded (limited 0 (Some 2) None) half
  end.
Proof.
  pose proof (compaction_picked_when_due crowded levels 10000 half ltac:(vm_compute; discriminate)) as H.
  assert (Forall (countable crowded) levels) as Hc by (repeat constructor; vm_compute; try done).
  assert (forall i rl, levels !! i = Some rl -> rl_level rl = Z.of_nat i) as Hn.
  { intros [|[|[|i]]] rl [= <-]; reflexivity. }
  assert (trigger_ok (td_trigger half)) as Ht by (split; vm_compute; [reflexivity|split; congruence]).
  assert (forall f, f ∈ all_files crowded -> counted f) as Hf.
  { apply Forall_forall. repeat constructor; vm_compute; congruence. }
  specialize (H Hc Hn Ht Hf). destruct (pick_by_score crowded levels 10000 half) as [[c ch]|] eqn:E; [|by apply (H 0%nat _ eq_refl)].
  assert (c_level c = 0) as Ec by (vm_compute in E; injection E as <- _; reflexivity). split; [done|]. destruct H as (_ & _ & rl & Hl & _ & Hs & _).
  rewrite Ec in Hl. cbn in Hl. by injection Hl as <-.
Defined.

(** 60 of 200 entries against a trigger of 0.3, the double just below three tenths: denser, and the two rounded quotients
    make it exactly one. *)
Definition three_tenths : TombstoneDensity := {| td_trigger := Finite 5404319552844595 (-54); td_min_entries := 10 |}.

Example rounding_hides_a_dense_file :
  denser_than (td_trigger three_tenths) (table 1 200 60) = true /\
  option_map (double_lt (Finite 1 0)) (file_density three_tenths (table 1 200 60)) = Some false /\
  pick_by_score (holding [] [table 1 200 60]) levels 10000 three_tenths = None.
Proof. split_and!; vm_compute; reflexivity. Qed.

(** At the limit nothing is due; a file of tombstones makes its level due, and only above the trigger. *)
Example scores_at_the_limit :
  pick_by_score (holding [table 2 4 0; table 1 4 0] [table 3 40 20]) levels 10000 half = None /\
  option_map (fun p => (c_level p.1, ch_by_density p.2)) (pick_by_score (holding [table 2 4 0] [table 3 40 21]) levels 10000 half) = Some (1, true) /\
  option_map (fun p => (c_level p.1, ch_by_density p.2)) (pick_by_score crowded levels 10000 half) = Some (0, false).
Proof. split_and!; vm_compute; reflexivity. Qed.
