(* ===== verification/Levels.v ===== *)
(** * Resolving the levels

    [src/db/level_config.cpp]: the sparse map of level options an embedder gives becomes one entry per level,
    each gap taking the nearest shallower entry; and [LevelOptions::geometric], which writes such a map. *)

From S2P Require Import Prelude Slice Format Framing Watermark VersionEdit Version Picker.

(** ** Definitions *)

Record LevelOptions := {
  lo_compression : Compression;
  lo_max_bytes : option Z;
  lo_max_files : option Z;
  lo_slowdown_at : option Z;
  lo_stop_at : option Z;
  lo_target_file_bytes : Z
}.

Definition default_level : LevelOptions :=
  {| lo_compression := NoCompression; lo_max_bytes := None; lo_max_files := None; lo_slowdown_at := None; lo_stop_at := None;
     lo_target_file_bytes := 16 * 2 ^ 20 |}.

Definition level_zero : LevelOptions :=
  {| lo_compression := NoCompression; lo_max_bytes := None; lo_max_files := Some 4; lo_slowdown_at := Some 8; lo_stop_at := Some 12;
     lo_target_file_bytes := 16 * 2 ^ 20 |}.

(** A level of a geometric map: no capacity on the last. *)
Definition with_capacity (capacity : option Z) : LevelOptions :=
  {| lo_compression := NoCompression; lo_max_bytes := capacity; lo_max_files := None; lo_slowdown_at := None; lo_stop_at := None;
     lo_target_file_bytes := 16 * 2 ^ 20 |}.

(** The loop of [geometric] over the levels from [level] to [count - 1], [n] of them. *)
Fixpoint geometric_from (n : nat) (level count capacity multiplier : Z) (m : gmap Z LevelOptions) : gmap Z LevelOptions :=
  match n with
  | O => m
  | S n' =>
      if level =? count - 1 then geometric_from n' (level + 1) count capacity multiplier (<[level := with_capacity None]> m)
      else geometric_from n' (level + 1) count (u64 (capacity * multiplier)) multiplier (<[level := with_capacity (Some capacity)]> m)
  end.

Definition geometric (base multiplier count : Z) : gmap Z LevelOptions :=
  geometric_from (Z.to_nat (count - 1)) 1 count base multiplier {[ 0 := level_zero ]}.

Definition resolved_level (level : Z) (o : LevelOptions) : ResolvedLevel :=
  {| rl_level := level; rl_compression := lo_compression o; rl_max_bytes := lo_max_bytes o; rl_max_files := lo_max_files o;
     rl_slowdown_at := lo_slowdown_at o; rl_stop_at := lo_stop_at o; rl_target_file_bytes := lo_target_file_bytes o |}.

(** The loop of [resolve_levels], carrying the entry inherited. *)
Fixpoint resolve_from (m : gmap Z LevelOptions) (n : nat) (level : Z) (inherited : option LevelOptions) : Result (list ResolvedLevel) :=
  match n with
  | O => Value []
  | S n' =>
      match (match m !! level with Some o => Some o | None => inherited end) with
      | None => Unexpected Config
      | Some o => let? rest := resolve_from m n' (level + 1) (Some o) in Value (resolved_level level o :: rest)
      end
  end.

(** The keys of the map, as [std::map] orders them. *)
Definition level_keys (m : gmap Z LevelOptions) : list Z := merge_sort Z.le (map_to_list m).*1.

Definition resolve_levels (m : gmap Z LevelOptions) : Result (list ResolvedLevel) :=
  match head (level_keys m), last (level_keys m) with
  | Some lowest, Some highest =>
      if (highest <? 0) || (lowest <? 0) then Unexpected Config
      else
        let? levels := resolve_from m (Z.to_nat (highest + 1)) 0 None in
        match last levels with
        | Some l => if bool_decide (is_Some (rl_max_bytes l)) then Unexpected Config else Value levels
        | None => Value levels
        end
  | _, _ => Unexpected Config
  end.

(** ** What a resolved list looks like *)

(** The entry a level takes: its own, or that of the nearest shallower level that has one. *)
Fixpoint inherited_entry (m : gmap Z LevelOptions) (n : nat) : option LevelOptions :=
  match m !! Z.of_nat n with
  | Some o => Some o
  | None => match n with O => None | S n' => inherited_entry m n' end
  end.

Lemma resolve_from_spec m n : forall i levels, resolve_from m n (Z.of_nat i) (match i with O => None | S i' => inherited_entry m i' end) = Value levels ->
  length levels = n /\ forall k l, levels !! k = Some l -> exists o, inherited_entry m (i + k) = Some o /\ l = resolved_level (Z.of_nat (i + k)) o.
Proof.
  induction n as [|n IH]; intros i levels; simpl; [by intros [= <-]|]. intros H.
  assert ((match m !! Z.of_nat i with Some o => Some o | None => match i with O => None | S i' => inherited_entry m i' end end) = inherited_entry m i) as E by (by destruct i).
  rewrite E in H. destruct (inherited_entry m i) as [o|] eqn:Eo; [|done]. replace (Z.of_nat i + 1) with (Z.of_nat (S i)) in H by lia.
  specialize (IH (S i)). cbn iota in IH. rewrite Eo in IH. destruct (resolve_from m n (Z.of_nat (S i)) (Some o)) as [rest|]; [|done]. injection H as <-. destruct (IH rest eq_refl) as [Hlen Hr].
  split; [simpl; lia|]. intros [|k] l Hl; simpl in Hl; [injection Hl as <-; exists o; by rewrite Nat.add_0_r|]. destruct (Hr k l Hl) as (o' & Ho & ->). exists o'.
  by replace (i + S k)%nat with (S i + k)%nat by lia.
Qed.

(** Every level of a resolved list carries its number and the entry it inherits, and the last has no capacity. *)
Lemma resolve_levels_spec m levels : resolve_levels m = Value levels ->
  (forall k l, levels !! k = Some l -> exists o, inherited_entry m k = Some o /\ l = resolved_level (Z.of_nat k) o) /\
  (forall l, last levels = Some l -> rl_max_bytes l = None) /\ levels <> [].
Proof.
  unfold resolve_levels. destruct (head (level_keys m)) as [lowest|]; [|done]. destruct (last (level_keys m)) as [highest|]; [|done].
  destruct (Z.ltb_spec highest 0); [done|]. destruct (lowest <? 0); [done|]. simpl orb. cbn iota.
  destruct (resolve_from m (Z.to_nat (highest + 1)) 0 None) as [ls|] eqn:E; [|done]. cbn [result_bind]. intros H'.
  destruct (resolve_from_spec m (Z.to_nat (highest + 1)) 0 ls E) as [Hlen Hr].
  assert (levels = ls /\ forall l, last ls = Some l -> rl_max_bytes l = None) as [-> Hl].
  { destruct (last ls) as [l|] eqn:El; [|by injection H' as ->]. destruct (rl_max_bytes l) eqn:Eb; simpl in H'; [done|]. injection H' as ->. split; [done|]. by intros ? [= <-]. }
  split_and!; [done|done|]. intros ->. simpl in Hlen. lia.
Qed.

Lemma geometric_resolves : exists levels, resolve_levels (geometric 100 10 4) = Value levels /\
  map rl_max_bytes levels = [None; Some 100; Some 1000; None] /\ map rl_max_files levels = [Some 4; None; None; None].
Proof. eexists. split; [by vm_compute|]. by vm_compute. Qed.
