(* ===== verification/OpenOptions.v ===== *)
(** * What may be opened

    The checks at the head of [DbImpl::open] of [src/db/db_impl.cpp], for the three ways in ([DB::open],
    [open_with_result], [open_read_only]): levels, tiers, jitters, windows and retentions. *)

From S2P Require Import Prelude Slice Format Framing Watermark VersionEdit Version Memtable Merging Sst Lsm Picker Tiers Levels.

(** The members of [Options] the checks read; durations are counts of milliseconds. *)
Record OpenOptions := {
  oo_levels : gmap Z LevelOptions;
  oo_tiers : list Tier;
  oo_age_jitter : Double;
  oo_flush_interval_jitter : Double;
  oo_has_catalog : bool;
  oo_compaction_window_bytes : Z;
  oo_orphan_sweep_interval : option Z;
  oo_orphan_retention : Z;
  oo_obsolete_retention : option Z
}.

(** [open], up to the construction of the instance. *)
Definition check_options (require_all_durable : bool) (o : OpenOptions) : Result (list ResolvedLevel * ResolvedTiers) :=
  match resolve_levels (oo_levels o) with
  | Unexpected _ => Unexpected Config
  | Value config =>
      match resolve_tiers (oo_tiers o) (oo_age_jitter o) with
      | Unexpected _ => Unexpected Config
      | Value tiers =>
          if negb (double_ge (oo_flush_interval_jitter o) 0) || double_gt (oo_flush_interval_jitter o) 1 then Unexpected Config
          else if negb (oo_has_catalog o) then Unexpected Config
          else if (oo_compaction_window_bytes o =? 0) || ((2 ^ 64 - 1) / 2 <? oo_compaction_window_bytes o) then Unexpected Config
          else if require_all_durable && any_transient tiers then Unexpected Config
          else if any_transient tiers && (last_level config <? 1) then Unexpected Config
          else if match oo_orphan_sweep_interval o with Some _ => oo_orphan_retention o =? 0 | None => false end then Unexpected Config
          else if match oo_obsolete_retention o with Some r => oo_orphan_retention o <? r | None => false end then Unexpected Config
          else Value (config, tiers)
      end
  end.

(** [DB::open], [DB::open_with_result] and [DB::open_read_only]; a reader sweeps nothing. *)
Definition open_durable (o : OpenOptions) : Result (list ResolvedLevel * ResolvedTiers) := check_options true o.
Definition open_with_result (o : OpenOptions) : Result (list ResolvedLevel * ResolvedTiers) := check_options false o.
Definition open_read_only (o : OpenOptions) : Result (list ResolvedLevel * ResolvedTiers) :=
  check_options false
    {| oo_levels := oo_levels o; oo_tiers := oo_tiers o; oo_age_jitter := oo_age_jitter o; oo_flush_interval_jitter := oo_flush_interval_jitter o;
       oo_has_catalog := oo_has_catalog o; oo_compaction_window_bytes := oo_compaction_window_bytes o; oo_orphan_sweep_interval := None;
       oo_orphan_retention := oo_orphan_retention o; oo_obsolete_retention := oo_obsolete_retention o |}.

(** ** Levels *)

(** The rules of [level_config.hpp]: level 0 is configured, no level is negative, the deepest one is unbounded. *)
Record levels_ok (m : gmap Z LevelOptions) : Prop := {
  lo_zero : is_Some (m !! 0);
  lo_positive : forall k, is_Some (m !! k) -> 0 <= k;
  lo_bottom : forall k o, m !! k = Some o -> (forall j, is_Some (m !! j) -> j <= k) -> lo_max_bytes o = None
}.

Lemma elem_of_level_keys m k : k ∈ level_keys m <-> is_Some (m !! k).
Proof.
  unfold level_keys. rewrite merge_sort_Permutation, list_elem_of_fmap. split.
  - intros ([j o] & -> & H%elem_of_map_to_list). by exists o.
  - intros [o H]. exists (k, o). split; [done|]. by apply elem_of_map_to_list.
Qed.

Lemma level_keys_sorted m : StronglySorted Z.le (level_keys m).
Proof. apply StronglySorted_merge_sort; apply _. Qed.

Lemma resolve_from_total m n : forall lvl inherited, is_Some inherited \/ is_Some (m !! lvl) -> exists l, resolve_from m n lvl inherited = Value l.
Proof.
  induction n as [|n IH]; intros lvl inherited H; cbn [resolve_from]; [by eauto|].
  assert (exists o, match m !! lvl with Some o => Some o | None => inherited end = Some o) as [o ->] by (destruct (m !! lvl); [by eauto|destruct H as [[o ->]|[? ?]]; [by eauto|done]]).
  destruct (IH (lvl + 1) (Some o)) as [l ->]; [left; by eauto|]. by eauto.
Qed.

Lemma resolve_levels_cases m :
  (levels_ok m /\ exists levels, resolve_levels m = Value levels) \/ (~ levels_ok m /\ resolve_levels m = Unexpected Config).
Proof.
  unfold resolve_levels. pose proof (level_keys_sorted m) as Hs. pose proof (elem_of_level_keys m) as Hk.
  destruct (head (level_keys m)) as [lowest|] eqn:Eh.
  2:{ right. split; [|done]. intros [H0 _ _]. apply Hk in H0. destruct (level_keys m); [by apply elem_of_nil in H0|done]. }
  destruct (last (level_keys m)) as [highest|] eqn:El; [|apply last_None in El; by rewrite El in Eh].
  assert (forall k, is_Some (m !! k) -> lowest <= k <= highest) as Hb.
  { intros k H%Hk. destruct (sorted_bounds Z.le (level_keys m) k Hs H) as [H1 H2]. split; [by apply H1|by apply H2]. }
  assert (is_Some (m !! lowest) /\ is_Some (m !! highest)) as [Hlow [o Ho]].
  { split; apply Hk; [by apply head_Some_elem_of|by apply last_Some_elem_of]. }
  destruct ((highest <? 0) || (lowest <? 0)) eqn:Eneg.
  { right. split; [|done]. intros [_ Hpos _]. pose proof (Hpos lowest Hlow). pose proof (Hpos highest ltac:(by exists o)). lia. }
  destruct (decide (is_Some (m !! 0))) as [H0|H0].
  2:{ right. split; [by intros [? _ _]|]. replace (Z.to_nat (highest + 1)) with (S (Z.to_nat highest)) by lia. cbn [resolve_from].
      destruct (m !! 0) as [x|]; [by destruct H0; eauto|done]. }
  destruct (resolve_from_total m (Z.to_nat (highest + 1)) 0 None (or_intror H0)) as [ls E]. rewrite E. cbn [result_bind].
  destruct (resolve_from_spec m (Z.to_nat (highest + 1)) 0 ls E) as [Hlen Hr].
  assert (exists l, last ls = Some l /\ rl_max_bytes l = lo_max_bytes o) as (l & -> & Hl).
  { destruct (last ls) as [l|] eqn:Els; [|apply last_None in Els; subst; simpl in Hlen; lia]. exists l. split; [done|].
    rewrite last_lookup, Hlen in Els. replace (Nat.pred (Z.to_nat (highest + 1))) with (Z.to_nat highest) in Els by lia.
    destruct (Hr _ l Els) as (o' & Ho' & ->). simpl in Ho'. assert (o' = o) as ->; [|done]. destruct (Z.to_nat highest) eqn:En; simpl in Ho'.
    - assert (highest = 0) as Hz by lia. rewrite Hz in Ho. change (Z.of_nat 0) with 0 in Ho'. rewrite Ho in Ho'. congruence.
    - change (Z.pos (Pos.of_succ_nat n)) with (Z.of_nat (S n)) in Ho'. rewrite <- En, Z2Nat.id in Ho' by lia. rewrite Ho in Ho'. congruence. }
  rewrite Hl. destruct (lo_max_bytes o) as [x|] eqn:Ex.
  - right. split; [|by rewrite bool_decide_eq_true_2 by eauto]. intros [_ _ Hbot]. specialize (Hbot highest o Ho (fun j Hj => proj2 (Hb j Hj))). congruence.
  - left. rewrite bool_decide_eq_false_2 by (by intros [? ?]). split; [|by eauto]. split; [done|intros k Hk'; destruct (Hb k Hk'); lia|].
    intros k o' Hk' Hmax. assert (k = highest) as -> by (pose proof (Hmax highest ltac:(by eauto)); pose proof (Hb k ltac:(by eauto)); lia). congruence.
Qed.

(** ** What is accepted *)

(** The rules of [options.hpp] and [level_config.hpp] that [open] enforces. *)
Record acceptable (require_all_durable : bool) (o : OpenOptions) : Prop := {
  ac_levels : levels_ok (oo_levels o);
  ac_tiers : tiers_ok (oo_tiers o);
  ac_age_jitter : jitter_ok (oo_age_jitter o);
  ac_flush_jitter : jitter_ok (oo_flush_interval_jitter o);
  ac_catalog : oo_has_catalog o = true;
  ac_window : oo_compaction_window_bytes o <> 0 /\ 2 * oo_compaction_window_bytes o < 2 ^ 64;
  ac_durable : require_all_durable = true -> forall t, t ∈ oo_tiers o -> t_durability t = Durable;
  ac_two_levels : forall t, t ∈ oo_tiers o -> t_durability t = Transient -> exists k, 0 < k /\ is_Some (oo_levels o !! k);
  ac_sweep : is_Some (oo_orphan_sweep_interval o) -> oo_orphan_retention o <> 0;
  ac_retentions : forall r, oo_obsolete_retention o = Some r -> r <= oo_orphan_retention o
}.

Lemma any_transient_spec ts jitter stores : any_transient {| rt_tiers := map resolved_tier ts; rt_stores := stores; rt_age_jitter := jitter |} = true <->
  exists t, t ∈ ts /\ t_durability t = Transient.
Proof.
  unfold any_transient, is_transient. cbn [rt_tiers]. rewrite existsb_exists. split.
  - intros (t' & H%list_elem_of_In & Ht%bool_decide_eq_true). apply list_elem_of_fmap in H as (t & -> & H). exists t. split; [done|]. by destruct (resolved_same t) as (_ & <- & _).
  - intros (t & H & Ht). exists (resolved_tier t). split; [by apply list_elem_of_In, list_elem_of_fmap_2|]. apply bool_decide_eq_true. by destruct (resolved_same t) as (_ & -> & _).
Qed.

Lemma two_levels m levels : resolve_levels m = Value levels -> (1 <= last_level levels <-> exists k, 0 < k /\ is_Some (m !! k)).
Proof.
  unfold resolve_levels. pose proof (level_keys_sorted m) as Hs. pose proof (elem_of_level_keys m) as Hk.
  destruct (head (level_keys m)) as [lowest|] eqn:Eh; [|done]. destruct (last (level_keys m)) as [highest|] eqn:El; [|done].
  destruct ((highest <? 0) || (lowest <? 0)) eqn:Eneg; [done|]. destruct (resolve_from m (Z.to_nat (highest + 1)) 0 None) as [ls|] eqn:E; [|done]. cbn [result_bind]. intros H.
  assert (levels = ls) as -> by (destruct (last ls); [case_bool_decide; congruence|congruence]).
  destruct (resolve_from_spec m (Z.to_nat (highest + 1)) 0 ls E) as [Hlen _]. unfold last_level. rewrite Hlen. split.
  - intros Hh. exists highest. split; [lia|]. apply Hk. by apply last_Some_elem_of.
  - intros (k & Hpos & Hk'%Hk). destruct (sorted_bounds Z.le (level_keys m) k Hs Hk') as [_ H2]. specialize (H2 highest El). lia.
Qed.

(** C39: What [open] accepts, exactly: levels that start at 0 and end unbounded, tiers that are named, ordered by age, the
    transient ones first and with their bounds, the last one durable and without bound, jitters from zero to one, a catalog,
    a compaction window that is not zero and whose double does not wrap around, no transient tier where the caller asked for
    durable ones only, two levels where there is a transient one, an orphan window that is not zero while the sweep runs and
    not shorter than the window of readers. Every other configuration, a jitter that is not a number too, is answered
    [Config]. Of what the headers document this leaves out one rule that [open] does not enforce, a window two of which
    exceed the memory budget; that a cache may not be the innermost store of a tier is checked and never refuses, since a
    chain of caches ends in a store ([authority_is_no_cache]). *)
Theorem open_accepts_exactly require_all_durable o :
  (acceptable require_all_durable o /\ exists levels, resolve_levels (oo_levels o) = Value levels /\
   check_options require_all_durable o =
     Value (levels, {| rt_tiers := map resolved_tier (oo_tiers o); rt_stores := fold_left add_store (oo_tiers o) ∅; rt_age_jitter := oo_age_jitter o |})) \/
  (~ acceptable require_all_durable o /\ check_options require_all_durable o = Unexpected Config).
Proof.
  unfold check_options. destruct (resolve_levels_cases (oo_levels o)) as [[Hl [levels El]]|[Hl ->]]; [rewrite El|right; split; [by intros [? _ _ _ _ _ _ _ _ _]|done]].
  destruct (resolve_tiers_cases (oo_tiers o) (oo_age_jitter o)) as [(Ht & Ha & ->)|[Ht ->]]; [|right; split; [intros [? ? ? _ _ _ _ _ _ _]; by apply Ht|done]].
  pose proof (any_transient_spec (oo_tiers o) (oo_age_jitter o) (fold_left add_store (oo_tiers o) ∅)) as Htr. set (tiers := {| rt_tiers := _ |}) in *.
  pose proof (two_levels _ _ El) as H2. set (w := oo_compaction_window_bytes o).
  destruct (negb (double_ge (oo_flush_interval_jitter o) 0) || double_gt (oo_flush_interval_jitter o) 1) eqn:Ej.
  { right. split; [|done]. intros [_ _ _ [Hj1 Hj2] _ _ _ _ _ _]. by rewrite Hj1, Hj2 in Ej. }
  apply orb_false_iff in Ej as [Ej1%negb_false_iff Ej2].
  destruct (oo_has_catalog o) eqn:Ec; cbn [negb]; [|right; split; [intros [_ _ _ _ ? _ _ _ _ _]; congruence|done]].
  destruct ((w =? 0) || ((2 ^ 64 - 1) / 2 <? w)) eqn:Ew.
  { right. split; [|done]. intros [_ _ _ _ _ [Hw1 Hw2] _ _ _ _]. fold w in Hw1, Hw2. change ((2 ^ 64 - 1) / 2) with (2 ^ 63 - 1) in Ew. lia. }
  change ((2 ^ 64 - 1) / 2) with (2 ^ 63 - 1) in Ew.
  destruct (require_all_durable && any_transient tiers) eqn:Ed.
  { right. split; [|done]. apply andb_true_iff in Ed as [-> Hx]. apply Htr in Hx as (t & Hin & Hx). intros [_ _ _ _ _ _ Hd _ _ _]. specialize (Hd eq_refl t Hin). congruence. }
  destruct (any_transient tiers && (last_level levels <? 1)) eqn:E2.
  { right. split; [|done]. apply andb_true_iff in E2 as [Hx E2]. apply Htr in Hx as (t & Hin & Hx). intros [_ _ _ _ _ _ _ Hd _ _]. specialize (Hd t Hin Hx). apply H2 in Hd. lia. }
  destruct (match oo_orphan_sweep_interval o with Some _ => _ | None => false end) eqn:Es.
  { right. split; [|done]. destruct (oo_orphan_sweep_interval o) as [i|] eqn:Ei; [|done]. intros [_ _ _ _ _ _ _ _ Hd _]. specialize (Hd ltac:(rewrite Ei; by eauto)). lia. }
  destruct (match oo_obsolete_retention o with Some r => _ | None => false end) eqn:Eo.
  { right. split; [|done]. destruct (oo_obsolete_retention o) as [r|] eqn:Er; [|done]. intros [_ _ _ _ _ _ _ _ _ Hd]. specialize (Hd r Er). lia. }
  left. split; [|by exists levels]. split; try done.
  - fold w. lia.
  - intros -> t Hin. destruct (t_durability t) eqn:Ex; [done|]. rewrite (proj2 Htr) in Ed; [done|by eauto].
  - intros t Hin Hx. apply H2. rewrite (proj2 Htr) in E2; [|by eauto]. simpl in E2. lia.
  - intros [i Ei]. rewrite Ei in Es. lia.
  - intros r Er. rewrite Er in Eo. lia.
Qed.
