(* ===== verification/Deadlines.v ===== *)
(** * When maintenance looks again

    [DbImpl::next_time_transition], [publish_transient_stall], the gate of [reconcile] and
    [flush_interval_for] of [src/db/db_impl.cpp]: the store sleeps until the clock can have made
    something due. Nothing is missed while it sleeps, without jitter and off the exact
    millisecond; the cases in which a crossing is forgotten are shown as the code has them. *)

From S2P Require Import Prelude Slice Format Framing Watermark VersionEdit Version Picker Tiers.

(** ** Definitions *)

(** [consider]: strictly in the future, and the earliest of them. *)
Definition consider (now earliest at_ : Z) : Z := if (now <? at_) && (at_ <? earliest) then at_ else earliest.

(** The tier a file is on, with its index. *)
Definition tier_of_file (r : ResolvedTiers) (f : FileMetadata) : option (Z * Tier) :=
  let i := tier_of_store r (store_id f) in
  if i <? 0 then None else (pair i) <$> rt_tiers r !! Z.to_nat i.

(** The moment a file outgrows its tier, and the moment it stalls writes. *)
Definition age_deadline (r : ResolvedTiers) (f : FileMetadata) (t : Tier) : option Z :=
  (fun a => let span := u64 a in
     u64 (u64 (min_write_time_ms f + span) - tier_age_jitter_ms r (file_number f) (min_write_time_ms f) span)) <$> t_max_age t.

Definition stall_deadline (f : FileMetadata) (t : Tier) : option Z :=
  if is_transient t then (fun s => u64 (min_write_time_ms f + u64 s)) <$> t_stall_age t else None.

Definition file_deadlines (r : ResolvedTiers) (f : FileMetadata) : list Z :=
  match tier_of_file r f with
  | None => []
  | Some (_, t) => option_list (age_deadline r f t) ++ option_list (stall_deadline f t)
  end.

(** [sweep] is the time of the next orphan sweep, when the option is set. *)
Definition next_time_transition (r : ResolvedTiers) (sweep : option Z) (v : Version) (now : Z) : Z :=
  fold_left (consider now) (option_list sweep ++ flat_map (file_deadlines r) (all_files v)) (2 ^ 64 - 1).

(** The oldest write time per store; zero reads as none yet. *)
Definition note_oldest (m : gmap bytes Z) (f : FileMetadata) : gmap bytes Z :=
  let oldest := default 0 (m !! store_id f) in
  <[store_id f := if (oldest =? 0) || (min_write_time_ms f <? oldest) then min_write_time_ms f else oldest]> m.

Definition oldest_by_store (v : Version) : gmap bytes Z := fold_left note_oldest (all_files v) ∅.

Definition tier_stalled (oldest : gmap bytes Z) (now : Z) (t : Tier) : bool :=
  match is_transient t, t_stall_age t, oldest !! tier_id t with
  | true, Some s, Some o => negb (o =? 0) && (o <? now) && (u64 s <? now - o)
  | _, _, _ => false
  end.

(** [publish_transient_stall]: the flag it stores. *)
Definition transient_stalled (r : ResolvedTiers) (v : Version) (now : Z) : bool :=
  existsb (tier_stalled (oldest_by_store v) now) (rt_tiers r).

(** What [reconcile] remembers between passes. *)
Record Gate := { last_reconciled_epoch : Z; next_transition : Z; gate_stalled : bool }.

(** [reconcile] past the memtable: whether maintenance is dispatched, and what it remembers. [timed] is false
    when a test suppresses the clock. *)
Definition reconcile (r : ResolvedTiers) (sweep : option Z) (v : Version) (force_full timed : bool) (epoch now : Z) (g : Gate)
  : bool * Gate :=
  if (force_full && timed) || negb (epoch =? last_reconciled_epoch g) || (timed && (next_transition g <=? now)) then
    (true, {| last_reconciled_epoch := epoch; next_transition := next_time_transition r sweep v now;
              gate_stalled := transient_stalled r v now |})
  else (false, g).

(** [flush_interval_for]: the age at which a memtable is flushed. *)
Definition flush_interval_for (interval : Z) (jitter : Double) (created : Z) : Z :=
  let interval := u64 interval in
  let window := jitter_window_ms interval jitter in
  if window =? 0 then interval
  else u64 (interval - window + jitter_offset created 0 (u64 (2 * window + 1))).

(** [memtable_flush_due]. *)
Definition memtable_flush_due (force : bool) (approximate_bytes memtable_bytes : Z) (flush_interval : option Z)
    (jitter : Double) (is_empty : bool) (born now : Z) : bool :=
  force || (memtable_bytes <=? approximate_bytes) ||
  match flush_interval with
  | None => false
  | Some interval =>
      if is_empty then false
      else if now <=? born then false
      else flush_interval_for interval jitter born <=? now - born
  end.

(** ** What is due *)

(** A file that placement would have on a colder tier than it is on. *)
Definition file_due (r : ResolvedTiers) (f : FileMetadata) (now : Z) : bool :=
  match tier_of_file r f with
  | None => false
  | Some (i, _) => i <? placement r (file_number f) (min_write_time_ms f) now
  end.

(** A file that keeps writes waiting. *)
Definition file_stalls (r : ResolvedTiers) (f : FileMetadata) (now : Z) : bool :=
  match tier_of_file r f with
  | Some (_, t) =>
      match is_transient t, t_stall_age t with
      | true, Some s => (min_write_time_ms f <? now) && (u64 s <? now - min_write_time_ms f)
      | _, _ => false
      end
  | None => false
  end.

(** ** Sleeping until the next transition *)

Lemma consider_le now e a : consider now e a <= e /\ (now < a -> consider now e a <= a).
Proof. unfold consider. destruct (Z.ltb_spec now a), (Z.ltb_spec a e); simpl; lia. Qed.

Lemma considered now l : forall e, fold_left (consider now) l e <= e /\ forall a, a ∈ l -> now < a -> fold_left (consider now) l e <= a.
Proof.
  induction l as [|x l IH]; intros e; simpl; [split; [lia|set_solver]|]. destruct (IH (consider now e x)) as [H1 H2], (consider_le now e x) as [C1 C2].
  split; [lia|]. intros a [-> |Ha]%elem_of_cons Hlt; [specialize (C2 Hlt); lia|by apply H2].
Qed.

Lemma transition_le r sweep v now f a : f ∈ all_files v -> a ∈ file_deadlines r f -> now < a -> next_time_transition r sweep v now <= a.
Proof.
  intros Hf Ha Hlt. unfold next_time_transition. apply considered; [|done]. apply elem_of_app. right. apply list_elem_of_In, in_flat_map. exists f.
  split; by apply list_elem_of_In.
Qed.

(** A deadline is the first moment at which the bound is reached. *)
Lemma crossing_not_missed r sweep v now t f a bound : f ∈ all_files v -> a ∈ file_deadlines r f -> a = min_write_time_ms f + bound -> now <> a ->
  now <= t <= next_time_transition r sweep v now -> now - min_write_time_ms f <= bound -> t - min_write_time_ms f <= bound.
Proof. intros Hf Ha -> Hne Ht Hb. pose proof (transition_le r sweep v now f _ Hf Ha ltac:(lia)). lia. Qed.

Lemma tier_of_store_spec id ts : forall i, 0 <= i -> tier_of_store_from i ts id = -1 \/
  exists n t, tier_of_store_from i ts id = i + Z.of_nat n /\ ts !! n = Some t /\ tier_id t = id.
Proof.
  induction ts as [|t ts IH]; intros i Hi; [by left|]. simpl. case_bool_decide as E; [right; exists 0%nat, t; split_and!; [lia|done|done]|].
  destruct (IH (i + 1) ltac:(lia)) as [->|(n & u & -> & Hu & Eu)]; [by left|right]. exists (S n), u. split_and!; [lia|done|done].
Qed.

Lemma tier_of_file_spec r f i t : tier_of_file r f = Some (i, t) -> 0 <= i /\ rt_tiers r !! Z.to_nat i = Some t /\ tier_id t = store_id f.
Proof.
  unfold tier_of_file, tier_of_store. destruct (tier_of_store_spec (store_id f) (rt_tiers r) 0 ltac:(lia)) as [->|(n & u & -> & Hu & Eu)]; [done|].
  destruct (Z.ltb_spec (0 + Z.of_nat n) 0); [lia|]. rewrite Z.add_0_l, Nat2Z.id, Hu. intros [= <- <-]. rewrite Nat2Z.id. split_and!; [lia|done|done].
Qed.

Section Asleep.
Context (r : ResolvedTiers) (v : Version) (f : FileMetadata) (i : Z) (tier : Tier).
Context (Hf : f ∈ all_files v) (Hon : tier_of_file r f = Some (i, tier)).
Context (Hages : ages_small (rt_tiers r)) (Hborn : 0 <= min_write_time_ms f <= 2 ^ 63).

(** For this file no hotter tier keeps it longer than its own does: with jitter this can fail. *)
Definition own_bound_last : Prop := forall n t, (n < Z.to_nat i)%nat -> rt_tiers r !! n = Some t ->
  age_le (tier_bound r (file_number f) (min_write_time_ms f) t) (tier_bound r (file_number f) (min_write_time_ms f) tier).

Lemma on_tier : rt_tiers r !! Z.to_nat i = Some tier /\ 0 <= i.
Proof. destruct (tier_of_file_spec _ _ _ _ Hon) as (H0 & H1 & _). done. Qed.

Lemma own_age_small a : t_max_age tier = Some a -> 0 <= a <= 2 ^ 53.
Proof. unfold ages_small in Hages. rewrite Forall_forall in Hages. apply Hages. destruct on_tier as [H _]. by eapply list_elem_of_lookup_2. Qed.

(** A file that fits its own tier is not due. *)
Lemma fits_not_due now : fits r (file_number f) (min_write_time_ms f) (age_at (min_write_time_ms f) now) tier = true -> file_due r f now = false.
Proof.
  intros Hfit. unfold file_due. rewrite Hon. apply Z.ltb_ge. destruct on_tier as [Ht Hi].
  destruct (placement_spec r (file_number f) (min_write_time_ms f) now) as (n & u & -> & _ & _ & Hb); [by destruct (rt_tiers r)|].
  destruct (Nat.le_gt_cases n (Z.to_nat i)) as [|Hlt]; [lia|]. specialize (Hb _ _ Hlt Ht). congruence.
Qed.

Lemma not_due_fits now : own_bound_last -> (S (Z.to_nat i) = length (rt_tiers r) -> t_max_age tier = None) -> file_due r f now = false ->
  fits r (file_number f) (min_write_time_ms f) (age_at (min_write_time_ms f) now) tier = true.
Proof.
  intros Hlast Hl Hd. unfold file_due in Hd. rewrite Hon in Hd. apply Z.ltb_ge in Hd. destruct on_tier as [Ht Hi].
  destruct (placement_spec r (file_number f) (min_write_time_ms f) now) as (n & u & En & Hu & Hfit & _); [by destruct (rt_tiers r)|]. rewrite En in Hd.
  pose proof (lookup_lt_Some _ _ _ Ht) as Hlen. destruct (decide (n = Z.to_nat i)) as [-> |Hne].
  - rewrite Ht in Hu. injection Hu as <-. destruct Hfit as [|[Hs Hb]]; [done|]. by rewrite Hl in Hb.
  - destruct Hfit as [Hfit|[Hs _]]; [|lia]. assert (n < Z.to_nat i)%nat as Hn by lia. specialize (Hlast n u Hn Hu). unfold fits in *.
    destruct (tier_bound _ _ _ u) as [b|], (tier_bound _ _ _ tier) as [b'|]; simpl in Hlast; [|done|done|done]. rewrite !Z.leb_le in *. lia.
Qed.

Lemma age_deadline_value a : t_max_age tier = Some a -> exists b, tier_bound r (file_number f) (min_write_time_ms f) tier = Some b /\ 0 <= b /\
  age_deadline r f tier = Some (min_write_time_ms f + b).
Proof.
  intros Ea. pose proof (own_age_small a Ea) as Ha. pose proof (tier_bound_spec r (file_number f) (min_write_time_ms f) tier own_age_small) as Hb. rewrite Ea in Hb.
  destruct Hb as (b & Eb & Hr & Ed). exists b. split; [done|]. split; [lia|]. unfold age_deadline. rewrite Ea. simpl. rewrite (u64_small a) by (unfold is_u64; lia).
  rewrite (u64_small (min_write_time_ms f + a)) by (unfold is_u64; lia). rewrite u64_small by (unfold is_u64; lia). f_equal. lia.
Qed.

Lemma not_due_until sweep now t : own_bound_last -> (S (Z.to_nat i) = length (rt_tiers r) -> t_max_age tier = None) ->
  now <= t <= next_time_transition r sweep v now -> now ∉ file_deadlines r f -> file_due r f now = false -> file_due r f t = false.
Proof.
  intros Hlast Hl Ht Hnot Hd. pose proof (not_due_fits now Hlast Hl Hd) as Hfit. apply fits_not_due. unfold fits in *. destruct (t_max_age tier) as [a|] eqn:Ea.
  - destruct (age_deadline_value a Ea) as (b & Eb & Hb0 & Edl). rewrite Eb in *. rewrite Z.leb_le in *.
    assert (min_write_time_ms f + b ∈ file_deadlines r f) as Hin by (unfold file_deadlines; rewrite Hon, Edl; simpl; by left).
    assert (now <> min_write_time_ms f + b) as Hne by congruence. pose proof (crossing_not_missed r sweep v now t f _ b Hf Hin eq_refl Hne Ht) as Hc.
    unfold age_at in *. destruct (Z.ltb_spec (min_write_time_ms f) now), (Z.ltb_spec (min_write_time_ms f) t); lia.
  - assert (tier_bound r (file_number f) (min_write_time_ms f) tier = None) as -> by (unfold tier_bound; by rewrite Ea). done.
Qed.

Lemma not_stalled_until sweep now t : (forall s, t_stall_age tier = Some s -> 0 <= s <= 2 ^ 53) ->
  now <= t <= next_time_transition r sweep v now -> now ∉ file_deadlines r f -> file_stalls r f now = false -> file_stalls r f t = false.
Proof.
  intros Hsmall Ht Hnot. unfold file_stalls. rewrite Hon. destruct (is_transient tier) eqn:Etr; [|done]. destruct (t_stall_age tier) as [s|] eqn:Es; [|done].
  specialize (Hsmall s eq_refl). rewrite (u64_small s) by (unfold is_u64; lia).
  assert (min_write_time_ms f + s ∈ file_deadlines r f) as Hin.
  { unfold file_deadlines, stall_deadline. rewrite Hon, Etr, Es. simpl. rewrite (u64_small s), u64_small by (unfold is_u64; lia). apply elem_of_app. right. by left. }
  assert (now <> min_write_time_ms f + s) as Hne by congruence. pose proof (crossing_not_missed r sweep v now t f _ s Hf Hin eq_refl Hne Ht) as Hc.
  destruct (Z.ltb_spec (min_write_time_ms f) now), (Z.ltb_spec (min_write_time_ms f) t), (Z.ltb_spec s (now - min_write_time_ms f)), (Z.ltb_spec s (t - min_write_time_ms f)); simpl; try done; lia.
Qed.
End Asleep.

Lemma no_jitter_offset r n m span : double_gt (rt_age_jitter r) 0 = false -> tier_age_jitter_ms r n m span = 0.
Proof. intros E. unfold tier_age_jitter_ms, jitter_window_ms. rewrite E. simpl. by destruct (n =? 0). Qed.

Lemma ordered_without_jitter r f i tier : tiers_ok (rt_tiers r) -> ages_small (rt_tiers r) -> double_gt (rt_age_jitter r) 0 = false ->
  tier_of_file r f = Some (i, tier) -> own_bound_last r f i tier.
Proof.
  intros Hok Hs Hj Hon n t Hn Ht. destruct (tier_of_file_spec _ _ _ _ Hon) as (_ & Hi & _). pose proof (to_ages _ Hok n (Z.to_nat i) t tier Hn Ht Hi) as Hle.
  unfold ages_small in Hs. rewrite Forall_forall in Hs. pose proof (Hs t (list_elem_of_lookup_2 _ _ _ Ht)) as H1. pose proof (Hs tier (list_elem_of_lookup_2 _ _ _ Hi)) as H2.
  unfold tier_bound. destruct (t_max_age t) as [a|], (t_max_age tier) as [b|]; simpl in *; [|done|done|done].
  specialize (H1 a eq_refl). specialize (H2 b eq_refl). rewrite (u64_small a), (u64_small b) by (unfold is_u64; lia). rewrite !no_jitter_offset by done. rewrite !Z.sub_0_r, !u64_small by (unfold is_u64; lia). done.
Qed.

(** Nothing comes due while the store sleeps. Under validated tiers without jitter, with times and bounds
    far from the end of their width, a file that is neither due for a colder tier nor holding up writes at the
    time of a pass stays so until the time [next_time_transition] answers, provided that the pass did not run
    at the very millisecond of one of that file's deadlines. *)
Theorem sleep_misses_nothing ts jitter r sweep v now t f :
  resolve_tiers ts jitter = Value r -> double_gt jitter 0 = false -> ages_small (rt_tiers r) ->
  (forall u s, u ∈ rt_tiers r -> t_stall_age u = Some s -> 0 <= s <= 2 ^ 53) ->
  f ∈ all_files v -> 0 <= min_write_time_ms f <= 2 ^ 63 -> now ∉ file_deadlines r f ->
  now <= t <= next_time_transition r sweep v now ->
  (file_due r f now = false -> file_due r f t = false) /\ (file_stalls r f now = false -> file_stalls r f t = false).
Proof.
  intros Er Hj Hs Hst Hf Hb Hnot Ht. destruct (resolved_tiers_ok _ _ _ Er) as [Hok Ej]. rewrite <- Ej in Hj.
  destruct (tier_of_file r f) as [[i tier]|] eqn:Hon; [|unfold file_due, file_stalls; by rewrite Hon].
  destruct (tier_of_file_spec _ _ _ _ Hon) as (Hi0 & Hi & _). split.
  - eapply not_due_until; [done|done|done|done|by apply ordered_without_jitter| |done|done]. intros Hlen. apply (to_last _ Hok). rewrite last_lookup. by rewrite <- Hlen.
  - eapply not_stalled_until; try done. intros s Es. eapply Hst; [|done]. by eapply list_elem_of_lookup_2.
Qed.

(** ** Crossings that are forgotten *)

Module DeadlineExamples.
Definition durable_tier (name : byte) (max_age : option Z) : Tier :=
  {| t_store := Some (Authority [name]); t_durability := Durable; t_max_age := max_age; t_max_bytes := None; t_stall_age := None |}.

Definition hot_and_cold : ResolvedTiers :=
  {| rt_tiers := [durable_tier x61 (Some 10); durable_tier x62 None];
     rt_stores := <[[x62] := Authority [x62]]> {[ [x61] := Authority [x61] ]}; rt_age_jitter := Finite 0 0 |}.

Definition jittered : ResolvedTiers :=
  {| rt_tiers := [durable_tier x61 (Some 1000); durable_tier x62 (Some 1200); durable_tier x63 None];
     rt_stores := <[[x63] := Authority [x63]]> (<[[x62] := Authority [x62]]> {[ [x61] := Authority [x61] ]}); rt_age_jitter := Finite 1 (-1) |}.

Definition old_file (number : Z) (store : byte) (written : Z) : FileMetadata :=
  {| level := 1; file_number := number; store_id := [store]; smallest_key := [x61]; largest_key := [x62]; file_bytes := 100; num_entries := 1;
     num_tombstones := 0; num_range_tombstones := 0; smallest_range_key := []; largest_range_key := []; compression := NoCompression;
     min_write_time_ms := written; max_write_time_ms := written; watermark := no_watermark;
     encryption_provider := []; encryption_metadata := [] |}.

Definition one_file (f : FileMetadata) : Version :=
  {| levels_ := [[]; [f]]; carries_ranges_ := [false; false]; next_file_number_ := 20; compaction_pointers_ := ∅; truncation_point_ := []; watermark_floor_ := None |}.
End DeadlineExamples.
Import DeadlineExamples.

(** A file past the bound of every tier up to its own is due. *)
Lemma outgrown_due r f i t now : tier_of_file r f = Some (i, t) ->
  (forall n u, (n <= Z.to_nat i)%nat -> rt_tiers r !! n = Some u -> fits r (file_number f) (min_write_time_ms f) (age_at (min_write_time_ms f) now) u = false) ->
  (S (Z.to_nat i) < length (rt_tiers r))%nat -> file_due r f now = true.
Proof.
  intros Hon Hout Hlen. unfold file_due. rewrite Hon. apply Z.ltb_lt. destruct (tier_of_file_spec _ _ _ _ Hon) as (Hi & _ & _).
  destruct (placement_spec r (file_number f) (min_write_time_ms f) now) as (n & u & -> & Hu & Hf & _); [by destruct (rt_tiers r); simpl in Hlen; [lia|]|].
  destruct (Nat.le_gt_cases n (Z.to_nat i)) as [Hle|]; [|lia]. destruct Hf as [Hf|[Hl _]]; [by rewrite (Hout n u Hle Hu) in Hf|lia].
Qed.

(** The gate stays shut when nothing but the clock could open it and nothing is scheduled. *)
Lemma gate_shut r sweep v now g : now < next_transition g -> reconcile r sweep v false true (last_reconciled_epoch g) now g = (false, g).
Proof. intros H. unfold reconcile. rewrite Z.eqb_refl. simpl. by destruct (Z.leb_spec (next_transition g) now); [lia|]. Qed.

(** Two ways a crossing is forgotten. Placement moves a file when its age is above the bound, the
    deadline is the moment the age equals it, and a deadline that is not in the future is dropped: a pass
    that runs at that very millisecond finds nothing due, and every later tick, until a write or a forced
    pass, leaves the file where it is although it is due. With jitter the bound of a hotter tier can
    exceed that of the tier a file is on, and the deadline looks at the latter only: after it has passed, no
    pass is scheduled for the time at which the file becomes due. *)
Theorem deadline_forgotten :
  (exists g1 g2, let f := old_file 5 x61 100 in let pass := reconcile hot_and_cold None (one_file f) false true 7 in
     pass 105 {| last_reconciled_epoch := 6; next_transition := 0; gate_stalled := false |} = (true, g1) /\
     pass 110 g1 = (true, g2) /\ file_due hot_and_cold f 110 = false /\
     forall t, 110 < t < 2 ^ 64 - 1 -> file_due hot_and_cold f t = true /\ pass t g2 = (false, g2)) /\
  (exists g1, let f := old_file 10 x62 5000 in let pass := reconcile jittered None (one_file f) false true 7 in
     pass 5800 {| last_reconciled_epoch := 6; next_transition := 0; gate_stalled := false |} = (true, g1) /\
     file_due jittered f 5800 = false /\
     forall t, 5977 < t < 2 ^ 64 - 1 -> file_due jittered f t = true /\ pass t g1 = (false, g1)).
Proof.
  split.
  - exists {| last_reconciled_epoch := 7; next_transition := 110; gate_stalled := false |}, {| last_reconciled_epoch := 7; next_transition := 2 ^ 64 - 1; gate_stalled := false |}.
    cbv zeta. split; [by vm_compute|]. split; [by vm_compute|]. split; [by vm_compute|]. intros t Ht. split; [|apply (gate_shut _ _ _ t {| last_reconciled_epoch := 7; next_transition := 2 ^ 64 - 1; gate_stalled := false |}); simpl; lia].
    apply (outgrown_due _ _ 0 (durable_tier x61 (Some 10))); [by vm_compute| |simpl; lia]. intros [|n] u Hn Hu; [|simpl in Hn; lia]. injection Hu as <-. unfold fits.
    assert (tier_bound hot_and_cold 5 100 (durable_tier x61 (Some 10)) = Some 10) as E by (by vm_compute). simpl file_number. simpl min_write_time_ms. rewrite E. apply Z.leb_gt. unfold age_at.
    destruct (Z.ltb_spec 100 t); lia.
  - exists {| last_reconciled_epoch := 7; next_transition := 2 ^ 64 - 1; gate_stalled := false |}.
    cbv zeta. split; [by vm_compute|]. split; [by vm_compute|]. intros t Ht. split; [|apply (gate_shut _ _ _ t {| last_reconciled_epoch := 7; next_transition := 2 ^ 64 - 1; gate_stalled := false |}); simpl; lia].
    apply (outgrown_due _ _ 1 (durable_tier x62 (Some 1200))); [by vm_compute| |simpl; lia].
    assert (tier_bound jittered 10 5000 (durable_tier x61 (Some 1000)) = Some 977 /\ tier_bound jittered 10 5000 (durable_tier x62 (Some 1200)) = Some 777) as [E0 E1] by (by vm_compute).
    intros [|[|n]] u Hn Hu; [injection Hu as <-|injection Hu as <-|simpl in Hn; lia]; unfold fits; simpl file_number; simpl min_write_time_ms; rewrite ?E0, ?E1; apply Z.leb_gt; unfold age_at;
      destruct (Z.ltb_spec 5000 t); lia.
Qed.

Lemma sleep_misses_nothing_witness :
  next_time_transition hot_and_cold None (one_file (old_file 5 x61 100)) 105 = 110 /\
  file_due hot_and_cold (old_file 5 x61 100) 105 = false /\ file_due hot_and_cold (old_file 5 x61 100) 109 = false.
Proof.
  split; [by vm_compute|]. split; [by vm_compute|].
  refine (proj1 (sleep_misses_nothing (rt_tiers hot_and_cold) (Finite 0 0) hot_and_cold None (one_file (old_file 5 x61 100)) 105 109 (old_file 5 x61 100) _ _ _ _ _ _ _ _) _).
  - by vm_compute.
  - by vm_compute.
  - repeat apply Forall_cons_2; [| |apply Forall_nil_2]; simpl; intros a Ha; first [injection Ha as <-; lia|discriminate Ha].
  - intros u s Hu Hs. simpl in Hu. repeat (apply elem_of_cons in Hu as [-> |Hu]; [discriminate Hs|]). by apply not_elem_of_nil in Hu.
  - simpl. by left.
  - simpl. lia.
  - vm_compute. intros Hin. repeat (apply elem_of_cons in Hin as [H|Hin]; [discriminate H|]). by apply not_elem_of_nil in Hin.
  - assert (next_time_transition hot_and_cold None (one_file (old_file 5 x61 100)) 105 = 110) as -> by (by vm_compute). lia.
  - by vm_compute.
Defined.

Lemma placement_within_bounds_witness :
  placement jittered 10 5000 5800 = 0 /\ placement jittered 10 5000 5978 = 2 /\ placement jittered 10 5000 5800 <= placement jittered 10 5000 5978.
Proof.
  split; [by vm_compute|]. split; [by vm_compute|].
  refine (proj1 (proj2 (placement_within_bounds jittered 10 5000 5800 _ _)) 5978 _); [done| |lia].
  unfold ages_small; simpl. repeat apply Forall_cons_2; try apply Forall_nil_2; simpl; intros a Ha; first [injection Ha as <-; lia|discriminate Ha].
Defined.
