(* ===== verification/Migration.v ===== *)
(** * Moving files between tiers, and sealing them anew

    [src/compact/migrator.cpp], and of [src/compact/compactor.cpp] the tasks that rewrite one file without
    merging it: [run_migration], [run_reencryption] and what chooses their files. A task answers the edit
    it installs; [write_new_sst], the reads and the providers are arguments. *)

From S2P Require Import Prelude Slice Format Framing Crypto Names Watermark VersionEdit Version Memtable Merging Sst Lsm Picker Outputs Compact CompactProofs PickerProofs Tiers Deadlines.

(** ** Definitions *)

(** *** Choosing a file to move *)

Record TierContents := { tc_files : list FileMetadata; tc_bytes : Z }.

(** What [group_by_tier] files under one tier. *)
Definition on_tier_index (r : ResolvedTiers) (i : Z) (f : FileMetadata) : bool :=
  negb (level f =? 0) && (tier_of_store r (store_id f) =? i).

(** [group_by_tier]: the tiers that hold something, in order, as the [std::map] yields them. *)
Definition group_by_tier (v : Version) (r : ResolvedTiers) : list (Z * TierContents) :=
  omap (fun i =>
    let files := List.filter (on_tier_index r i) (all_files v) in
    if bool_decide (files = []) then None
    else Some (i, {| tc_files := files; tc_bytes := fold_left (fun b f => u64 (b + file_bytes f)) files 0 |}))
    (seqZ 0 (Z.of_nat (length (rt_tiers r)))).

(** [oldest], and the same search among the files that satisfy a test. *)
Definition older (found : option FileMetadata) (f : FileMetadata) : option FileMetadata :=
  match found with
  | None => Some f
  | Some g => if min_write_time_ms f <? min_write_time_ms g then Some f else Some g
  end.

Definition oldest (files : list FileMetadata) : option FileMetadata := fold_left older files None.

Record Migration := {
  m_file : FileMetadata;
  m_from_tier : Z;
  m_to_tier : Z;
  m_leaves_transient : bool;
  m_capacity_eviction : bool
}.

Definition tier_at (r : ResolvedTiers) (i : Z) : option Tier := rt_tiers r !! Z.to_nat i.

(** Whether tier [i] keeps its files on the store [id]. *)
Definition same_store (r : ResolvedTiers) (i : Z) (id : bytes) : bool :=
  match tier_at r i with Some t => bool_decide (tier_id t = id) | None => false end.

Definition place (r : ResolvedTiers) (f : FileMetadata) (now : Z) : Z := placement r (file_number f) (min_write_time_ms f) now.

(** Evicting the oldest file of a tier that is over its capacity. *)
Definition evict (r : ResolvedTiers) (i : Z) (c : TierContents) (transient : bool) : option Migration :=
  match oldest (tc_files c) with
  | Some victim =>
      if i <? last_tier r then
        if same_store r (i + 1) (store_id victim) then None
        else Some {| m_file := victim; m_from_tier := i; m_to_tier := i + 1; m_leaves_transient := transient; m_capacity_eviction := true |}
      else None
  | None => None
  end.

Definition over_capacity (t : Tier) (c : TierContents) : bool :=
  match t_max_bytes t with Some cap => cap <? tc_bytes c | None => false end.

(** The three rounds over the tiers. *)
Definition pick_transient (r : ResolvedTiers) (now : Z) (g : Z * TierContents) : option Migration :=
  let '(i, c) := g in
  match tier_at r i with
  | None => None
  | Some t =>
      if negb (is_transient t) then None
      else
        match oldest (List.filter (fun f => i <? place r f now) (tc_files c)) with
        | Some candidate =>
            let target := place r candidate now in
            if same_store r target (store_id candidate) then None
            else Some {| m_file := candidate; m_from_tier := i; m_to_tier := target; m_leaves_transient := true; m_capacity_eviction := false |}
        | None => if over_capacity t c then evict r i c true else None
        end
  end.

Definition pick_capacity (r : ResolvedTiers) (g : Z * TierContents) : option Migration :=
  let '(i, c) := g in
  match tier_at r i with
  | None => None
  | Some t => if over_capacity t c then evict r i c false else None
  end.

Definition pick_age (r : ResolvedTiers) (now : Z) (g : Z * TierContents) : option Migration :=
  let '(i, c) := g in
  match List.find (fun f => (i <? place r f now) && negb (same_store r (place r f now) (store_id f))) (tc_files c) with
  | Some f => Some {| m_file := f; m_from_tier := i; m_to_tier := place r f now; m_leaves_transient := false; m_capacity_eviction := false |}
  | None => None
  end.

(** The first answer of a loop that returns from its body. *)
Fixpoint first_of {A B} (f : A -> option B) (l : list A) : option B :=
  match l with
  | [] => None
  | x :: rest => match f x with Some y => Some y | None => first_of f rest end
  end.

Definition pick_migration (v : Version) (r : ResolvedTiers) (now : Z) : option Migration :=
  if (Z.of_nat (length (rt_tiers r)) <? 2) then None
  else
    let groups := group_by_tier v r in
    match first_of (pick_transient r now) groups with
    | Some m => Some m
    | None =>
        match first_of (pick_capacity r) groups with
        | Some m => Some m
        | None => first_of (pick_age r now) groups
        end
    end.

(** *** Moving it *)

(** The record of the copy: another number and store, or another number and envelope. *)
Definition moved_file (f : FileMetadata) (number : Z) (store : bytes) : FileMetadata :=
  {| level := level f; file_number := number; store_id := store;
     smallest_key := smallest_key f; largest_key := largest_key f; file_bytes := file_bytes f;
     num_entries := num_entries f; num_tombstones := num_tombstones f; num_range_tombstones := num_range_tombstones f;
     smallest_range_key := smallest_range_key f; largest_range_key := largest_range_key f;
     compression := compression f; min_write_time_ms := min_write_time_ms f; max_write_time_ms := max_write_time_ms f;
     watermark := watermark f; encryption_provider := encryption_provider f; encryption_metadata := encryption_metadata f |}.

Definition resealed_file (f : FileMetadata) (number : Z) (provider metadata : bytes) : FileMetadata :=
  {| level := level f; file_number := number; store_id := store_id f;
     smallest_key := smallest_key f; largest_key := largest_key f; file_bytes := file_bytes f;
     num_entries := num_entries f; num_tombstones := num_tombstones f; num_range_tombstones := num_range_tombstones f;
     smallest_range_key := smallest_range_key f; largest_range_key := largest_range_key f;
     compression := compression f; min_write_time_ms := min_write_time_ms f; max_write_time_ms := max_write_time_ms f;
     watermark := watermark f; encryption_provider := provider; encryption_metadata := metadata |}.

Definition swap_file_edit (f f' : FileMetadata) : VersionEdit :=
  {| next_file_number := 0; added := [f'];
     deleted := [ {| ref_level := level f; ref_number := file_number f |} ];
     compaction_pointers := []; truncation_point := []; floor_update := Silent; watermark_floor := {| position := None |} |}.

Section Tasks.
Context (registry : ProviderRegistry).
(** [get_sync] to the end of an object, [get_sync] of a range, and [write_new_sst], each on the store named. *)
Context (read_all : bytes -> bytes -> Result bytes) (read_range : bytes -> bytes -> Z -> Z -> Result bytes).
Context (write_new_sst : bytes -> bytes -> bool -> Result Written).

(** The physical layout of a file's object, asked of its provider without its key where that is possible. *)
Definition object_layout (p : EncryptionProvider) (f : FileMetadata) : Result (Z * Z) :=
  match p_layout p (encryption_metadata f) with
  | Unexpected Unsupported =>
      let? c := p_open p (file_number f) (encryption_metadata f) in Value (c_chunk_bytes c, c_overhead c)
  | answer => answer
  end.

(** The edit, or [None] when the file already is where it should go. *)
Definition run_migration (r : ResolvedTiers) (m : Migration) : Result (option VersionEdit) :=
  let f := m_file m in
  match rt_stores r !! store_id f, tier_at r (m_to_tier m) with
  | None, _ | _, None => Unexpected Corrupt
  | Some _, Some target =>
      if bool_decide (tier_id target = store_id f) then Value None
      else
        let? bytes_ := read_all (store_id f) (sst_object_name (file_number f)) in
        match find_provider (providers registry) (encryption_provider f) with
        | None => Unexpected Config
        | Some p =>
            let? (chunk, overhead) := object_layout p f in
            if negb (zlen bytes_ =? physical_size (file_bytes f) chunk overhead) then Unexpected Corrupt
            else
              let? w := write_new_sst (tier_id target) bytes_ false in
              Value (Some (swap_file_edit f (moved_file f (wr_number w) (tier_id target))))
        end
  end.

(** [cipher_for]. *)
Definition cipher_for (f : FileMetadata) : Result ObjectCipher :=
  if bool_decide (encryption_provider f = []) && negb (bool_decide (primary registry = [])) && negb (accept_plaintext registry) then Unexpected Config
  else
    match find_provider (providers registry) (encryption_provider f) with
    | None => Unexpected Config
    | Some p => p_open p (file_number f) (encryption_metadata f)
    end.

(** [decrypting_view], read to the end. *)
Definition read_plain (f : FileMetadata) : Result bytes :=
  let? c := cipher_for f in
  let name := sst_object_name (file_number f) in
  eo_read {| eo_cipher := c; eo_name := name; eo_logical := file_bytes f |} (read_range (store_id f) name) name 0 kReadToEnd.

Definition run_reencryption (r : ResolvedTiers) (f : FileMetadata) : Result VersionEdit :=
  match rt_stores r !! store_id f with
  | None => Unexpected Corrupt
  | Some _ =>
      let? bytes_ := read_plain f in
      if negb (zlen bytes_ =? file_bytes f) then Unexpected Corrupt
      else
        let? w := write_new_sst (store_id f) bytes_ true in
        Value (swap_file_edit f (resealed_file f (wr_number w) (wr_provider w) (wr_metadata w)))
  end.

(** The file [run_one_reencryption] rewrites: none of level 0. *)
Definition stale_file (v : Version) : option FileMetadata :=
  List.find (fun f => negb (level f =? 0) && negb (bool_decide (encryption_provider f = primary registry))) (all_files v).

Definition count_pending_reencryption (v : Version) : Z :=
  Z.of_nat (length (List.filter (fun f => negb (bool_decide (encryption_provider f = primary registry))) (all_files v))).
End Tasks.

(** *** Leaving level 0 *)

(** [compact_l0_file_off_its_tier], up to running it: level 0 orders by number, so a file that must leave its
    tier or its provider is merged into level 1, the oldest of the level first. [now] is read once. *)
Definition must_leave (r : ResolvedTiers) (primary_id : bytes) (rewrite : bool) (now : Z) (f : FileMetadata) : bool :=
  let tier := tier_of_store r (store_id f) in
  ((0 <=? tier) && (tier <? place r f now)) || (rewrite && negb (bool_decide (encryption_provider f = primary_id))).

Definition l0_escape (config : list ResolvedLevel) (r : ResolvedTiers) (primary_id : bytes) (rewrite : bool) (now : Z) (v : Version)
  : option Compaction :=
  if last_level config <? 1 then None
  else if negb (existsb (must_leave r primary_id rewrite now) (files_at v 0)) then None
  else
    match oldest_file (files_at v 0) with
    | None => None
    | Some seed =>
        let lo := effective_smallest seed in
        let up := effective_largest seed in
        if existsb (fun other => file_number other <? file_number seed) (overlapping_inclusive v 0 lo up) then None
        else
          let chosen grandparents bottommost :=
            {| c_level := 0; c_output_level := 1; c_inputs := [seed]; c_overlaps := overlapping_inclusive v 1 lo up;
               c_grandparents := grandparents; c_output_is_bottommost := bottommost; c_trivial_move := false; c_inputs_trimmed := false |} in
          let '(span_low, span_high) := effective_hull (chosen [] false) in
          Some (chosen (if 2 <=? last_level config then overlapping_inclusive v 2 span_low span_high else [])
                       (is_bottommost_for_range v 1 (last_level config) span_low span_high))
    end.

(** *** One round, and the loop that drains *)

Inductive MaintenanceTask : Type := CapacityEviction | TransientRescue | DurableAgeMigration.

Definition task_of (m : Migration) : MaintenanceTask :=
  if m_capacity_eviction m then CapacityEviction else if m_leaves_transient m then TransientRescue else DurableAgeMigration.

(** [true], with the state it left; or [false], with the status it left. *)
Inductive Progress (A : Type) : Type := Worked (a : A) | Idle (s : Status).
Arguments Worked {A} _.
Arguments Idle {A} _.

Section Loop.
Context {R : Type} `{ops : SstReaderOps R} (reader_for : Store -> FileMetadata -> Result R).
Context (config : list ResolvedLevel) (r : ResolvedTiers) (registry : ProviderRegistry) (rewrite_to_primary : bool).
Context (suppressed : MaintenanceTask -> bool).
(** What the world answers in round [i]: the clock, the reads, the writes, the compaction's outputs. *)
Context (clock : nat -> Z) (read_all : nat -> bytes -> bytes -> Result bytes) (write_new_sst : nat -> bytes -> bytes -> bool -> Result Written).
Context (full : SstWriter -> bool) (outputs : nat -> nat -> Written).

(** [run_one_migration], past the checks that the store can still be written. *)
Definition run_one_migration (i : nat) (st : Version * Store) : Progress (Version * Store) :=
  let '(v, store) := st in
  match pick_migration v r (clock i) with
  | Some m =>
      if suppressed (task_of m) then Idle Ok
      else
        match run_migration registry (read_all i) (write_new_sst i) r m with
        | Unexpected s => Idle s
        | Value None => Worked (v, store)
        | Value (Some e) =>
            Worked (apply v e, match added e with f' :: _ => store_put store (file_number f') (store (file_number (m_file m))) | [] => store end)
        end
  | None =>
      match l0_escape config r (primary registry) rewrite_to_primary (clock i) v with
      | None => Idle Ok
      | Some c =>
          match config !! 1%nat with
          | None => Idle Ok
          | Some target =>
              match run_compaction (reader_for store) full (outputs i) target v store c with
              | Value (v', store') => Worked (v', store')
              | Unexpected s => Idle s
              end
          end
      end
  end.

(** [while (run_one_migration(status)) worked = true;] of [compact_until_quiet]: [None] is a loop still running. *)
Fixpoint migrate_while (fuel i : nat) (st : Version * Store) : option (Version * Store * Status) :=
  match fuel with
  | O => None
  | S fuel' =>
      match run_one_migration i st with
      | Worked st' => migrate_while fuel' (S i) st'
      | Idle s => Some (st, s)
      end
  end.
End Loop.
