(* ===== verification/MigrationProofs.v ===== *)
(** * What migration guarantees

    A file the migrator picks is below level 0, leaves its store for one of a strictly colder tier and has a
    reason to; the loop that drains migrations ends when no two tiers share a store, and need not end
    otherwise; neither a migration nor a re-encryption changes an answer. *)

From S2P Require Import Prelude Slice Format Framing Crypto Names ManifestPayload WriteSst Watermark VersionEdit Version Memtable Merging Sst Lsm Picker Outputs Compact CompactProofs PickerProofs Tiers Deadlines Migration.

(** ** What is picked *)

Lemma first_of_spec {A B} (f : A -> option B) l y : first_of f l = Some y -> exists x, x ∈ l /\ f x = Some y.
Proof.
  induction l as [|x l IH]; simpl; [done|]. destruct (f x) eqn:E; [intros [= <-]; exists x; split; [by left|done]|].
  intros (x' & ? & ?)%IH. exists x'. split; [by right|done].
Qed.

Lemma older_spec l : forall found f, fold_left older l found = Some f ->
  (found = Some f \/ f ∈ l) /\ (forall g, found = Some g -> min_write_time_ms f <= min_write_time_ms g) /\ forall g, g ∈ l -> min_write_time_ms f <= min_write_time_ms g.
Proof.
  induction l as [|x l IH]; intros found f; simpl; [intros ->; split_and!; [by left|by intros g [= <-]|set_solver]|].
  intros (Hin & Hfound & Hl)%IH. destruct found as [g0|]; simpl in *.
  - destruct (Z.ltb_spec (min_write_time_ms x) (min_write_time_ms g0)) as [Hlt|Hge].
    + specialize (Hfound x eq_refl). split_and!; [destruct Hin as [[= <-]|]; right; [by left|by right]|intros g [= <-]; lia|intros g [-> |Hg]%elem_of_cons; [done|by apply Hl]].
    + specialize (Hfound g0 eq_refl). split_and!; [destruct Hin as [[= <-]|]; [by left|right; by right]|by intros g [= <-]|intros g [-> |Hg]%elem_of_cons; [lia|by apply Hl]].
  - specialize (Hfound x eq_refl). split_and!; [destruct Hin as [[= <-]|]; right; [by left|by right]|done|intros g [-> |Hg]%elem_of_cons; [done|by apply Hl]].
Qed.

Lemma oldest_spec l f : oldest l = Some f -> f ∈ l /\ forall g, g ∈ l -> min_write_time_ms f <= min_write_time_ms g.
Proof. intros H. destruct (older_spec _ _ _ H) as ([|Hin] & _ & Hl); done. Qed.

Lemma group_spec v r i c : (i, c) ∈ group_by_tier v r ->
  0 <= i <= last_tier r /\ tc_files c = List.filter (on_tier_index r i) (all_files v) /\
  tc_bytes c = fold_left (fun b f => u64 (b + file_bytes f)) (tc_files c) 0.
Proof.
  unfold group_by_tier. intros (j & Hj & E)%list_elem_of_omap. apply elem_of_seqZ in Hj. cbv zeta in E. destruct (bool_decide _); [done|].
  injection E as <- <-. unfold last_tier. simpl. split; [lia|done].
Qed.

(** Why a file may be moved: its tier is over capacity and it is the oldest there, or its age calls for the tier it goes to. *)
Inductive migration_reason (v : Version) (r : ResolvedTiers) (now : Z) (m : Migration) : Prop :=
  | over_full t cap : m_capacity_eviction m = true -> m_to_tier m = m_from_tier m + 1 -> tier_at r (m_from_tier m) = Some t -> t_max_bytes t = Some cap ->
      cap < fold_left (fun b f => u64 (b + file_bytes f)) (List.filter (on_tier_index r (m_from_tier m)) (all_files v)) 0 ->
      (forall g, g ∈ all_files v -> on_tier_index r (m_from_tier m) g = true -> min_write_time_ms (m_file m) <= min_write_time_ms g) -> migration_reason v r now m
  | outgrown : m_capacity_eviction m = false -> m_to_tier m = place r (m_file m) now -> migration_reason v r now m.

Record migration_sound (v : Version) (r : ResolvedTiers) (now : Z) (m : Migration) : Prop := {
  ms_file : m_file m ∈ all_files v;
  ms_level : level (m_file m) <> 0;
  ms_from : tier_of_store r (store_id (m_file m)) = m_from_tier m;
  ms_colder : 0 <= m_from_tier m < m_to_tier m /\ m_to_tier m <= last_tier r;
  ms_target : exists t, tier_at r (m_to_tier m) = Some t /\ tier_id t <> store_id (m_file m);
  ms_transient : m_leaves_transient m = true -> exists t, tier_at r (m_from_tier m) = Some t /\ t_durability t = Transient;
  ms_reason : migration_reason v r now m
}.

Section Picked.
Context (v : Version) (r : ResolvedTiers) (now : Z) (Htwo : rt_tiers r <> []).

Lemma tier_at_some i : 0 <= i <= last_tier r -> exists t, tier_at r i = Some t.
Proof. intros H. unfold last_tier in H. destruct (lookup_lt_is_Some_2 (rt_tiers r) (Z.to_nat i)) as [t Ht]; [lia|]. by exists t. Qed.

Lemma place_range f : 0 <= place r f now <= last_tier r.
Proof.
  unfold place. destruct (placement_spec r (file_number f) (min_write_time_ms f) now Htwo) as (n & t & -> & Ht & _). apply lookup_lt_Some in Ht. unfold last_tier. lia.
Qed.

Lemma member_spec i c f : (i, c) ∈ group_by_tier v r -> f ∈ tc_files c -> f ∈ all_files v /\ level f <> 0 /\ tier_of_store r (store_id f) = i.
Proof.
  intros (_ & -> & _)%group_spec. rewrite elem_of_filter_bool. intros [Hf H]. apply andb_true_iff in H as [H1 H2]. apply negb_true_iff, Z.eqb_neq in H1.
  apply Z.eqb_eq in H2. done.
Qed.

Lemma other_store i id : same_store r i id = false -> 0 <= i <= last_tier r -> exists t, tier_at r i = Some t /\ tier_id t <> id.
Proof.
  intros H Hi. destruct (tier_at_some i Hi) as [t Ht]. exists t. split; [done|]. unfold same_store in H. rewrite Ht in H. by apply bool_decide_eq_false in H.
Qed.

Lemma evict_sound i c t transient m : (i, c) ∈ group_by_tier v r -> tier_at r i = Some t -> over_capacity t c = true -> (transient = true -> t_durability t = Transient) ->
  evict r i c transient = Some m -> migration_sound v r now m.
Proof.
  intros Hg Ht Hover Htr. destruct (group_spec _ _ _ _ Hg) as (Hi & Hfiles & Hbytes). unfold evict. destruct (oldest (tc_files c)) as [victim|] eqn:Eo; [|done].
  apply oldest_spec in Eo as [Hin Hold]. destruct (member_spec i c victim Hg Hin) as (Hf & Hl & Hts). destruct (Z.ltb_spec i (last_tier r)); [|done].
  destruct (same_store r (i + 1) (store_id victim)) eqn:Es; [done|]. intros [= <-]. constructor; simpl; [done|done|done|lia|apply other_store; [done|lia]|intros ->; by exists t; split; [|apply Htr]|].
  unfold over_capacity in Hover. destruct (t_max_bytes t) as [cap|] eqn:Ecap; [|done]. apply Z.ltb_lt in Hover.
  eapply over_full; simpl; [done|done|done|done| |].
  - by rewrite <- Hfiles, <- Hbytes.
  - intros g Hg' Hon. apply Hold. rewrite Hfiles. apply elem_of_filter_bool. done.
Qed.

Lemma pick_sound m : pick_migration v r now = Some m -> migration_sound v r now m.
Proof.
  unfold pick_migration. destruct (_ <? 2); [done|]. cbv zeta. destruct (first_of (pick_transient r now) (group_by_tier v r)) as [m1|] eqn:E1.
  { intros [= <-]. apply first_of_spec in E1 as ([i c] & Hg & E). simpl in E. destruct (tier_at r i) as [t|] eqn:Et; [|done].
    destruct (transient_cases t) as [[Htr Hd]|[Htr Hd]]; rewrite Htr in E; simpl in E; [|done]. destruct (group_spec _ _ _ _ Hg) as (Hi & Hfiles & _).
    destruct (oldest _) as [cand|] eqn:Eo.
    - apply oldest_spec in Eo as [Hin _]. apply elem_of_filter_bool in Hin as [Hin Hlt]. apply Z.ltb_lt in Hlt. destruct (member_spec i c cand Hg Hin) as (Hf & Hl & Hts).
      destruct (same_store r (place r cand now) (store_id cand)) eqn:Es; [done|]. injection E as <-. pose proof (place_range cand).
      constructor; simpl; [done|done|done|lia|by apply other_store|intros _; by exists t|]. by apply outgrown.
    - destruct (over_capacity t c) eqn:Eov; [|done]. by eapply (evict_sound i c t true). }
  destruct (first_of (pick_capacity r) (group_by_tier v r)) as [m2|] eqn:E2.
  { intros [= <-]. apply first_of_spec in E2 as ([i c] & Hg & E). simpl in E. destruct (tier_at r i) as [t|] eqn:Et; [|done].
    destruct (over_capacity t c) eqn:Eov; [|done]. by eapply (evict_sound i c t false). }
  intros ([i c] & Hg & E)%first_of_spec. simpl in E. destruct (group_spec _ _ _ _ Hg) as (Hi & _). destruct (List.find _ _) as [f|] eqn:Ef; [|done]. injection E as <-.
  apply find_some in Ef as [Hin Hc]. apply list_elem_of_In in Hin. apply andb_true_iff in Hc as [Hlt Hs]. apply Z.ltb_lt in Hlt. apply negb_true_iff in Hs.
  destruct (member_spec i c f Hg Hin) as (Hf & Hl & Hts). pose proof (place_range f). constructor; simpl; [done|done|done|lia|by apply other_store|done|]. by apply outgrown.
Qed.
End Picked.

(** ** Weighing a version *)

Section Weight.
Context (w : FileMetadata -> nat).

Definition weigh (levels : list (list FileMetadata)) : nat := sum_list_with w (concat levels).

Lemma weigh_cons l ls : weigh (l :: ls) = (sum_list_with w l + weigh ls)%nat.
Proof. unfold weigh. simpl. apply sum_list_with_app. Qed.

Lemma weigh_app a b : weigh (a ++ b) = (weigh a + weigh b)%nat.
Proof. unfold weigh. rewrite concat_app. apply sum_list_with_app. Qed.

Lemma weigh_alter g n levels l : levels !! n = Some l -> (weigh (alter g n levels) + sum_list_with w l = weigh levels + sum_list_with w (g l))%nat.
Proof.
  revert n. induction levels as [|x levels IH]; intros [|n] H; simpl in H; [done|done| |].
  - injection H as ->. change (alter g 0%nat (l :: levels)) with (g l :: levels). rewrite !weigh_cons. lia.
  - change (alter g (S n) (x :: levels)) with (x :: alter g n levels). rewrite !weigh_cons. specialize (IH n H). lia.
Qed.

Lemma weigh_empty n : weigh (replicate n []) = 0%nat.
Proof. induction n; simpl; [done|]. by rewrite weigh_cons. Qed.

Lemma weigh_add levels f : 0 <= level f -> weigh (add_file levels f) = (weigh levels + w f)%nat.
Proof.
  intros Hl. unfold add_file. destruct (Z.ltb_spec (level f) 0); [lia|]. set (grown := if Z.of_nat (length levels) <=? level f then grow (Z.to_nat (level f + 1)) levels else levels).
  assert (weigh grown = weigh levels /\ (Z.to_nat (level f) < length grown)%nat) as [<- Hlen].
  { unfold grown, grow. destruct (Z.leb_spec (Z.of_nat (length levels)) (level f)).
    - rewrite weigh_app, weigh_empty, length_app, length_replicate. lia.
    - lia. }
  destruct (lookup_lt_is_Some_2 _ _ Hlen) as [l Hl']. pose proof (weigh_alter (fun files => files ++ [f]) _ _ _ Hl') as Hw. cbv beta in Hw. rewrite sum_list_with_app in Hw. simpl in Hw.
  cbv beta zeta in *. lia.
Qed.

Lemma weigh_add_all fs : forall levels, Forall (fun f => 0 <= level f) fs -> weigh (fold_left add_file fs levels) = (weigh levels + sum_list_with w fs)%nat.
Proof.
  induction fs as [|f fs IH]; intros levels H; simpl; [lia|]. apply Forall_cons in H as [Hf Hfs]. rewrite IH, weigh_add by done. lia.
Qed.

Lemma sum_filter (p : FileMetadata -> bool) l : (sum_list_with w (List.filter p l) <= sum_list_with w l)%nat.
Proof. induction l as [|x l IH]; simpl; [lia|]. destruct (p x); simpl; lia. Qed.

Lemma sum_filter_out (p : FileMetadata -> bool) l f : f ∈ l -> p f = false -> (sum_list_with w (List.filter p l) + w f <= sum_list_with w l)%nat.
Proof.
  intros Hf Hp. induction l as [|x l IH]; [by apply elem_of_nil in Hf|]. simpl. apply elem_of_cons in Hf as [<- |Hf].
  - rewrite Hp. pose proof (sum_filter p l). lia.
  - specialize (IH Hf). destruct (p x); simpl; lia.
Qed.

Lemma weigh_erase_le levels ref : (weigh (erase_ref levels ref) <= weigh levels)%nat.
Proof.
  unfold erase_ref. destruct (_ || _) eqn:E; [done|]. apply orb_false_iff in E as [E1 E2]. apply Z.ltb_ge in E1. apply Z.leb_gt in E2.
  destruct (lookup_lt_is_Some_2 levels (Z.to_nat (ref_level ref))) as [l Hl]; [lia|]. pose proof (weigh_alter (List.filter (fun f => negb (file_number f =? ref_number ref))) _ _ _ Hl).
  pose proof (sum_filter (fun f => negb (file_number f =? ref_number ref)) l). lia.
Qed.

Lemma weigh_erase_all refs : forall levels, (weigh (fold_left erase_ref refs levels) <= weigh levels)%nat.
Proof. induction refs as [|ref refs IH]; intros levels; simpl; [lia|]. specialize (IH (erase_ref levels ref)). pose proof (weigh_erase_le levels ref). lia. Qed.

Lemma weigh_erase levels ref f : f ∈ level_list levels (Z.to_nat (ref_level ref)) -> 0 <= ref_level ref -> ref_number ref = file_number f ->
  (weigh (erase_ref levels ref) + w f <= weigh levels)%nat.
Proof.
  intros Hf H0 En. unfold level_list in Hf. destruct (levels !! Z.to_nat (ref_level ref)) as [l|] eqn:El; simpl in Hf; [|by apply elem_of_nil in Hf].
  pose proof (lookup_lt_Some _ _ _ El). unfold erase_ref. destruct (Z.ltb_spec (ref_level ref) 0); [lia|]. destruct (Z.leb_spec (Z.of_nat (length levels)) (ref_level ref)); [lia|]. simpl.
  pose proof (weigh_alter (List.filter (fun f => negb (file_number f =? ref_number ref))) _ _ _ El).
  pose proof (sum_filter_out (fun f => negb (file_number f =? ref_number ref)) l f Hf ltac:(by rewrite En, Z.eqb_refl)). lia.
Qed.

Lemma weigh_imap_sort levels : forall g, (forall n l, g n l ≡ₚ l) -> weigh (imap g levels) = weigh levels.
Proof.
  induction levels as [|l levels IH]; intros g Hg; [done|]. cbn [imap]. rewrite !weigh_cons. rewrite (IH (g ∘ S)); [|intros n; apply Hg].
  f_equal. by rewrite (Hg 0%nat l).
Qed.

(** The first reference takes a file out; the rest take nothing back. *)
Lemma weigh_apply v e ref refs f : deleted e = ref :: refs -> f ∈ files_at v (ref_level ref) -> 0 <= ref_level ref -> ref_number ref = file_number f ->
  Forall (fun g => 0 <= level g) (added e) -> (weigh (levels_ (apply v e)) + w f <= weigh (levels_ v) + sum_list_with w (added e))%nat.
Proof.
  intros Ed Hf Hl En Ha. unfold apply. cbn [levels_ make_version]. rewrite weigh_imap_sort by (intros; apply sort_level_perm). rewrite weigh_add_all by done. rewrite Ed. cbn [fold_left].
  pose proof (weigh_erase_all refs (erase_ref (levels_ v) ref)). rewrite files_at_level_list in Hf by done. pose proof (weigh_erase (levels_ v) ref f Hf Hl En). lia.
Qed.
End Weight.

(** ** The loop ends *)

(** How far a file is from the last tier; level 0 does not migrate. *)
Definition rank (r : ResolvedTiers) (f : FileMetadata) : nat :=
  if level f =? 0 then 0%nat else let i := tier_of_store r (store_id f) in if i <? 0 then 0%nat else Z.to_nat (last_tier r - i).

Definition in_level_zero (f : FileMetadata) : nat := if level f =? 0 then 1%nat else 0%nat.

Lemma tier_of_store_distinct id ts : NoDup (tier_id <$> ts) -> forall n t i, ts !! n = Some t -> tier_id t = id -> tier_of_store_from i ts id = i + Z.of_nat n.
Proof.
  intros Hnd n t i Hn Hid. revert n i Hn Hnd. induction ts as [|u ts IH]; intros n i Hn Hnd; [done|]. simpl. apply NoDup_cons in Hnd as [Hnot Hnd].
  destruct n as [|n]; simpl in Hn.
  - injection Hn as ->. rewrite bool_decide_eq_true_2 by done. lia.
  - case_bool_decide as E; [|rewrite (IH n (i + 1) Hn Hnd); lia]. exfalso. apply Hnot. rewrite E, <- Hid. apply list_elem_of_fmap. exists t. split; [done|by eapply list_elem_of_lookup_2].
Qed.

Section Drain.
Context {R : Type} `{ops : SstReaderOps R} (reader_for : Store -> FileMetadata -> Result R).
Context (config : list ResolvedLevel) (r : ResolvedTiers) (registry : ProviderRegistry) (rewrite_to_primary : bool).
Context (suppressed : MaintenanceTask -> bool).
Context (clock : nat -> Z) (read_all : nat -> bytes -> bytes -> Result bytes) (write_new_sst : nat -> bytes -> bytes -> bool -> Result Written).
Context (full : SstWriter -> bool) (outputs : nat -> nat -> Written).
Context (Hids : NoDup (tier_id <$> rt_tiers r)).

Abbreviation round := (run_one_migration reader_for config r registry rewrite_to_primary suppressed clock read_all write_new_sst full outputs).
Abbreviation draining := (migrate_while reader_for config r registry rewrite_to_primary suppressed clock read_all write_new_sst full outputs).

Definition shape (v : Version) : nat * nat := (weigh in_level_zero (levels_ v), weigh (rank r) (levels_ v)).

Definition shorter (a b : nat * nat) : Prop := (a.1 < b.1)%nat \/ (a.1 = b.1 /\ (a.2 < b.2)%nat).

Lemma shorter_wf : well_founded shorter.
Proof.
  intros [a b]. revert b. induction (lt_wf a) as [a _ IHa]. intros b. induction (lt_wf b) as [b _ IHb]. constructor. intros [c d] [H|[E H]]; simpl in *; [by apply IHa|].
  subst c. by apply IHb.
Qed.

(** A move lowers the rank of the file it replaces, and level 0 stays as it is. *)
Lemma move_shorter v i m e : filed v -> pick_migration v r (clock i) = Some m -> run_migration registry (read_all i) (write_new_sst i) r m = Value (Some e) ->
  filed (apply v e) /\ shorter (shape (apply v e)) (shape v).
Proof.
  intros Hfiled Hpick Hrun. assert (rt_tiers r <> []) as Hne by (intros E; unfold pick_migration in Hpick; by rewrite E in Hpick).
  destruct (pick_sound v r (clock i) Hne m Hpick) as [Hf Hlevel Hfrom Hcold (t & Ht & Hother) _ _]. unfold run_migration in Hrun.
  destruct (rt_stores r !! _) as [s|]; [|done]. rewrite Ht in Hrun. rewrite bool_decide_eq_false_2 in Hrun by done.
  destruct (read_all i _ _) as [bytes_|]; [|done]. simpl in Hrun. destruct (find_provider _ _) as [p|]; [|done]. destruct (object_layout p (m_file m)) as [[chunk overhead]|]; [|done]. simpl in Hrun.
  destruct (negb _); [done|]. destruct (write_new_sst i _ _ _) as [wr|]; [|done]. simpl in Hrun. injection Hrun as <-.
  set (f := m_file m) in *. set (f' := moved_file f (wr_number wr) (tier_id t)). apply elem_of_all_files in Hf as [lvl Hf]. pose proof (Hfiled _ _ Hf) as El. pose proof (files_at_bounds _ _ _ Hf) as Hb.
  assert (tier_of_store r (tier_id t) = m_to_tier m) as Hto by (unfold tier_of_store; rewrite (tier_of_store_distinct (tier_id t) _ Hids (Z.to_nat (m_to_tier m)) t 0 Ht eq_refl); lia).
  split; [by apply apply_filed|].
  assert (forall w, (weigh w (levels_ (apply v (swap_file_edit f f'))) + w f <= weigh w (levels_ v) + w f')%nat) as Hw.
  { intros w. rewrite <- El in Hf, Hb. assert (Forall (fun g => 0 <= level g) [f']) as Hnn by (repeat constructor; simpl; lia).
    pose proof (weigh_apply w v (swap_file_edit f f') {| ref_level := level f; ref_number := file_number f |} [] f eq_refl Hf (proj1 Hb) eq_refl Hnn) as H.
    change (sum_list_with w (added (swap_file_edit f f'))) with (w f' + 0)%nat in H. lia. }
  pose proof (Hw in_level_zero) as H0. pose proof (Hw (rank r)) as H1. unfold shorter, shape. cbn [fst snd].
  assert (in_level_zero f' = in_level_zero f) by done. assert (rank r f' < rank r f)%nat.
  { unfold rank. simpl level. simpl store_id. rewrite Hto, Hfrom. destruct (Z.eqb_spec (level f) 0); [done|]. destruct (Z.ltb_spec (m_to_tier m) 0); [lia|]. destruct (Z.ltb_spec (m_from_tier m) 0); lia. }
  lia.
Qed.

(** Taking a file out of level 0 shortens the version whatever the outputs. *)
Lemma escape_shorter v i c target store v' store' : filed v -> l0_escape config r (primary registry) rewrite_to_primary (clock i) v = Some c ->
  run_compaction (reader_for store) full (outputs i) target v store c = Value (v', store') -> filed v' /\ shorter (shape v') (shape v).
Proof.
  intros Hfiled Hesc Hrun. unfold l0_escape in Hesc. destruct (_ <? 1); [done|]. destruct (negb _); [done|]. destruct (oldest_file (files_at v 0)) as [seed|] eqn:Es; [|done].
  apply oldest_elem in Es. cbv zeta in Hesc. destruct (existsb _ _); [done|]. destruct (effective_hull _) as [lo up]. injection Hesc as <-.
  unfold run_compaction, compaction_edit in Hrun. cbn [c_trivial_move] in Hrun. destruct (read_inputs _ _) as [[children child_ranges]|]; [|done]. simpl in Hrun. injection Hrun as <- <-.
  split; [by apply apply_filed|]. left. unfold shape. cbn [fst]. set (outs := imap _ _). assert (Forall (fun g => level g = 1) outs) as Hlv.
  { rewrite Forall_forall. intros g (n & w & -> & _)%elem_of_lookup_imap. done. }
  match goal with |- (weigh _ (levels_ (apply v ?e)) < _)%nat => pose proof (weigh_apply in_level_zero v e {| ref_level := 0; ref_number := file_number seed |} (map (fun f => {| ref_level := 1; ref_number := file_number f |}) (overlapping_inclusive v 1 (effective_smallest seed) (effective_largest seed))) seed eq_refl Es) as H end.
  specialize (H (Z.le_refl 0) eq_refl). cbn [added merge_edit] in H. specialize (H ltac:(eapply Forall_impl; [exact Hlv|]; simpl; intros; lia)).
  assert (sum_list_with in_level_zero outs = 0%nat) as Hz.
  { clear H. induction outs as [|g outs IH]; [done|]. apply Forall_cons in Hlv as [Hg Hr]. simpl. rewrite (IH Hr). unfold in_level_zero. by rewrite Hg. }
  rewrite Hz in H. assert (in_level_zero seed = 1%nat) by (unfold in_level_zero; by rewrite (Hfiled _ _ Es)). lia.
Qed.

Lemma round_shorter v store i v' store' : filed v -> round i (v, store) = Worked (v', store') -> filed v' /\ shorter (shape v') (shape v).
Proof.
  intros Hf H. unfold run_one_migration in H. destruct (pick_migration v r (clock i)) as [m|] eqn:Ep.
  - destruct (suppressed (task_of m)); [done|]. destruct (run_migration _ _ _ _ m) as [[e|]|s] eqn:Er; [| |done].
    + injection H as <- _. by eapply move_shorter.
    + exfalso. assert (rt_tiers r <> []) as Hne by (intros E; unfold pick_migration in Ep; by rewrite E in Ep).
      destruct (pick_sound v r (clock i) Hne m Ep) as [_ _ _ _ (t & Ht & Hother) _ _]. unfold run_migration in Er. destruct (rt_stores r !! _); [|done].
      rewrite Ht, bool_decide_eq_false_2 in Er by done. destruct (read_all i _ _); [|done]. simpl in Er. destruct (find_provider _ _); [|done]. destruct (object_layout _ _) as [[? ?]|]; [|done]. simpl in Er.
      destruct (negb _); [done|]. by destruct (write_new_sst i _ _ _).
  - destruct (l0_escape _ _ _ _ _ _) as [c|] eqn:Ee; [|done]. destruct (config !! 1%nat) as [target|]; [|done].
    destruct (run_compaction _ _ _ _ _ _ _) as [[v1 store1]|s] eqn:Ec; [|done]. injection H as <- <-. by eapply escape_shorter.
Qed.

Lemma drain_ends v store i : filed v -> exists fuel, forall more, (fuel <= more)%nat -> exists answer, draining more i (v, store) = Some answer.
Proof.
  intros Hf. remember (shape v) as s eqn:Es. revert v store i Hf Es. induction (shorter_wf s) as [s _ IH]. intros v store i Hf ->.
  destruct (round i (v, store)) as [[v' store']|st] eqn:E.
  - destruct (round_shorter _ _ _ _ _ Hf E) as [Hf' Hs]. destruct (IH _ Hs v' store' (S i) Hf' eq_refl) as [fuel H]. exists (S fuel). intros [|more] Hm; [lia|]. cbn [migrate_while]. rewrite E. apply H. lia.
  - exists 1%nat. intros [|more] Hm; [lia|]. cbn [migrate_while]. rewrite E. by eexists.
Qed.
End Drain.

(** C30: draining the migrations ends. When no two tiers share a store, the loop that runs one migration after
    another, and merges level 0 files down that must leave their tier, stops after finitely many rounds,
    whatever the clock reads in each, whichever reads and writes fail, and whatever numbers and outputs the
    writes answer: a move takes a file strictly colder, and a merge takes a file out of level 0. *)
Theorem migrations_terminate {R} (ops : SstReaderOps R) (reader_for : Store -> FileMetadata -> Result R) config r registry rewrite suppressed
    clock read_all write_new_sst full outputs v store :
  NoDup (tier_id <$> rt_tiers r) -> filed v ->
  exists fuel, forall more, (fuel <= more)%nat ->
    exists answer, migrate_while reader_for config r registry rewrite suppressed clock read_all write_new_sst full outputs more 0 (v, store) = Some answer.
Proof. intros Hids Hf. by apply drain_ends. Qed.

(** ** Answers stay *)

(** [f'] describes the same content as [f] at the same level. *)
Record same_description (f f' : FileMetadata) : Prop := {
  sd_level : level f' = level f;
  sd_keys : smallest_key f' = smallest_key f /\ largest_key f' = largest_key f;
  sd_range_keys : smallest_range_key f' = smallest_range_key f /\ largest_range_key f' = largest_range_key f;
  sd_counts : num_entries f' = num_entries f /\ num_tombstones f' = num_tombstones f /\ num_range_tombstones f' = num_range_tombstones f
}.

Lemma same_describes f f' s : same_description f f' -> describes f s -> describes f' s.
Proof. intros [_ [E1 E2] [E3 E4] (E5 & E6 & E7)] Hd. split; rewrite ?E1, ?E2, ?E3, ?E4, ?E5, ?E6, ?E7; apply Hd. Qed.

Lemma same_precedes f f' g : same_description f f' -> (precedes f g -> precedes f' g) /\ (precedes g f -> precedes g f').
Proof.
  intros [_ [E1 E2] [E3 E4] (E5 & E6 & E7)]. unfold precedes, effective_smallest, carries_range. by rewrite E1, E2, E3, E4, E5, E7.
Qed.

Section Rehome.
Context (content content' : FileMetadata -> Sst) (v : Version) (f f' : FileMetadata).
Abbreviation e := (swap_file_edit f f').
Context (Hv : version_ok content v) (Hf : f ∈ all_files v) (Hlevel : level f <> 0).
Context (Hsame : same_description f f') (Hfresh : forall g, g ∈ all_files v -> file_number g <> file_number f').
(* the files that stay read as before, the copy as the original *)
Context (rehomed_content : forall g, g ∈ all_files v -> content' g = content g) (copy_content : content' f' = content f).

(** The rewrite, seen as a compaction of one file within its level. *)
Definition in_place : Compaction :=
  {| c_level := level f; c_output_level := level f; c_inputs := [f]; c_overlaps := []; c_grandparents := [];
     c_output_is_bottommost := false; c_trivial_move := false; c_inputs_trimmed := false |}.

Lemma at_level : f ∈ files_at v (level f) /\ 0 < level f.
Proof.
  apply elem_of_all_files in Hf as [lvl Hin]. pose proof (vo_filed _ _ Hv _ _ Hin) as E. pose proof (files_at_bounds _ _ _ Hin). subst lvl. split; [done|lia].
Qed.

Lemma in_place_ok : compaction_ok content v in_place.
Proof.
  destruct at_level as [Hin Hpos]. split; simpl; try done.
  - split; [lia|right; done].
  - by intros g ->%list_elem_of_singleton.
  - by intros g ?%elem_of_nil.
  - intros p Hp Hn. assert (p <> f) as Hne by (intros ->; apply Hn; by left).
    destruct (vo_apart _ _ Hv (level f) p f Hpos Hp Hin Hne) as [H|H]; [left|right]; by intros g ->%list_elem_of_singleton.
  - intros g h k Hg Hn ->%list_elem_of_singleton Htg Htf. exfalso. apply Hn. assert (g = f) as -> by (by eapply (level_exclusive content v (level f))). by left.
  - intros i j a b k Hij Ha Hb. apply lookup_lt_Some in Hb. simpl in Hb. assert (j = 0)%nat by lia. lia.
Qed.

Lemma swap_replaces : replaces v e [f] [f'].
Proof.
  destruct at_level as [Hin Hpos]. split.
  - done.
  - intros lvl g Hg. cbn [deleted swap_file_edit]. unfold deletes. cbn [existsb]. rewrite orb_false_r. unfold is_ref. cbn [ref_level ref_number].
    pose proof (files_at_bounds _ _ _ Hg) as Hb. rewrite Z2Nat.id by lia. rewrite andb_true_iff, !Z.eqb_eq. split.
    + intros [_ E]. apply list_elem_of_singleton. apply (vo_unique _ _ Hv); [by eapply in_all|done|done].
    + intros ->%list_elem_of_singleton. split; [by apply (vo_filed _ _ Hv)|done].
  - apply NoDup_singleton.
  - intros w g ->%list_elem_of_singleton Hg _. by apply not_eq_sym, Hfresh.
  - intros w ->%list_elem_of_singleton. rewrite (sd_level _ _ Hsame). lia.
Qed.

Lemma rehome_ok : version_ok content' (apply v e).
Proof.
  destruct at_level as [Hin Hpos]. eapply (replace_ok content _ v e [f] [f']); [done|apply swap_replaces|intros g Hg _; by apply rehomed_content| | |].
  - intros w ->%list_elem_of_singleton. rewrite copy_content. apply (same_describes f); [done|]. by apply (vo_describes _ _ Hv).
  - intros w g ->%list_elem_of_singleton _ Hg Hn. rewrite (sd_level _ _ Hsame) in Hg. assert (g <> f) as Hne by (intros ->; apply Hn; by left).
    destruct (vo_apart _ _ Hv (level f) g f Hpos Hg Hin Hne) as [H|H]; [left|right]; by apply (same_precedes f f' g Hsame).
  - intros w w' ->%list_elem_of_singleton ->%list_elem_of_singleton. done.
Qed.

Lemma rehome_answers k : answer_of (resolve content' (apply v e) k) = answer_of (resolve content v k).
Proof.
  eapply (preserve_answer content _ v e in_place [f'] false); [done|apply rehome_ok|apply swap_replaces|apply in_place_ok|intros g Hg _; by apply rehomed_content| |done|].
  - intros w ->%list_elem_of_singleton. apply (sd_level _ _ Hsame).
  - intros en. simpl. assert (verdict content' f' k = verdict content f k) as E by (unfold verdict; by rewrite copy_content). split.
    + intros (w & ->%list_elem_of_singleton & Hw). rewrite E in Hw. by rewrite Hw.
    + intros Hw. exists f'. split; [by left|]. rewrite E. by destruct (verdict content f k).
Qed.
End Rehome.

(** ** The bytes of a file *)

(** What the stores hold: by the store's id and the object's name. *)
Definition Objects : Type := bytes -> bytes -> option bytes.

Definition read_whole (os : Objects) (id name : bytes) : Result bytes := match os id name with Some b => Value b | None => Unexpected NotFound end.

(** A read past the end is cut to what exists. *)
Definition read_part (os : Objects) (id name : bytes) (offset len : Z) : Result bytes := let? b := read_whole os id name in Value (sub_bytes b offset len).

(** A read through [decrypting_view]. *)
Definition read_at (registry : ProviderRegistry) (os : Objects) (f : FileMetadata) (offset len : Z) : Result bytes :=
  let? c := cipher_for registry f in
  let name := sst_object_name (file_number f) in
  eo_read {| eo_cipher := c; eo_name := name; eo_logical := file_bytes f |} (read_part os (store_id f) name) name offset len.

(** The file's object is there, and every read of it answers that part of [b]. *)
Definition reads_as (registry : ProviderRegistry) (os : Objects) (f : FileMetadata) (b : bytes) : Prop :=
  os (store_id f) (sst_object_name (file_number f)) <> None /\ zlen b = file_bytes f /\
  forall offset len, 0 <= offset -> 0 <= len < 2 ^ 64 -> read_at registry os f offset len = Value (sub_bytes b offset len).

Lemma sub_bytes_to_end b : zlen b < 2 ^ 64 -> sub_bytes b 0 kReadToEnd = b.
Proof. intros H. unfold sub_bytes, kReadToEnd. rewrite drop_0, take_ge; [done|]. unfold zlen in H. lia. Qed.

Lemma reads_whole registry os f b : reads_as registry os f b -> zlen b < 2 ^ 64 -> read_plain registry (read_part os) f = Value b.
Proof. intros (_ & _ & H) Hb. rewrite <- (sub_bytes_to_end b Hb). apply H; unfold kReadToEnd; lia. Qed.

(** A read depends on the cipher, the length and the object alone. *)
Lemma eo_read_same c n name name' get get' offset len : (forall off k, get' off k = get off k) ->
  eo_read {| eo_cipher := c; eo_name := name'; eo_logical := n |} get' name' offset len = eo_read {| eo_cipher := c; eo_name := name; eo_logical := n |} get name offset len.
Proof. intros H. unfold eo_read. cbn [eo_cipher eo_name eo_logical]. rewrite !(proj2 (slice_eqb_eq _ _) eq_refl). cbn [negb]. by rewrite H. Qed.

Lemma read_part_found os id name B off k : os id name = Some B -> read_part os id name off k = Value (sub_bytes B off k).
Proof. intros E. unfold read_part, read_whole. by rewrite E. Qed.

(** Providers that open an object whatever number it has now: the metadata alone gives the cipher back. *)
Definition opens_renumbered (registry : ProviderRegistry) : Prop :=
  forall id p n n' metadata, find_provider (providers registry) id = Some p -> p_open p n metadata = p_open p n' metadata.

(** A copy of the object under another number and store reads as the file did. *)
Lemma moved_reads_as registry os os' f number id b B : opens_renumbered registry -> reads_as registry os f b ->
  os (store_id f) (sst_object_name (file_number f)) = Some B -> os' id (sst_object_name number) = Some B -> reads_as registry os' (moved_file f number id) b.
Proof.
  intros Hop (Hthere & Hlen & H) EB EB'. split; [cbn [store_id file_number moved_file]; by rewrite EB'|]. split; [done|]. intros offset len H0 H1. rewrite <- (H offset len H0 H1). unfold read_at.
  assert (cipher_for registry (moved_file f number id) = cipher_for registry f) as ->.
  { unfold cipher_for. cbn [encryption_provider encryption_metadata file_number moved_file]. destruct (_ && _); [done|]. destruct (find_provider _ _) as [p|] eqn:Ep; [|done]. by eapply Hop. }
  destruct (cipher_for registry f) as [c|]; [|done]. cbn [result_bind file_bytes store_id file_number moved_file]. apply eo_read_same. intros off k.
  by rewrite (read_part_found _ _ _ _ _ _ EB), (read_part_found _ _ _ _ _ _ EB').
Qed.

(** What was read, sealed anew under the primary provider, reads as the file did. *)
Lemma resealed_reads_as registry provider os' f number b payload wo : find_provider (providers registry) (primary registry) = Some provider -> ProviderLaws provider ->
  is_u64 number -> (forall c metadata, p_create provider number = Value (c, metadata) -> object_small c (zlen b)) -> zlen b = file_bytes f ->
  payload_for (primary registry) provider true b number = Value (payload, wo) -> os' (store_id f) (sst_object_name number) = Some payload ->
  reads_as registry os' (resealed_file f number (wo_encryption_provider wo) (wo_encryption_metadata wo)) b.
Proof.
  intros Hp Hlaws Hn Hsm Hlen Hpay Hos. split; [cbn [store_id file_number resealed_file]; by rewrite Hos|]. split; [done|]. intros offset len H0 H1. unfold payload_for in Hpay.
  destruct (p_create provider number) as [[c metadata]|] eqn:Ec; [|done]. cbn [result_bind] in Hpay. destruct (seal_object c b) as [sealed|] eqn:Es; [|done]. cbn [result_bind] in Hpay. injection Hpay as <- <-.
  unfold read_at, cipher_for. cbn [encryption_provider encryption_metadata file_number resealed_file wo_encryption_provider wo_encryption_metadata].
  assert (bool_decide (primary registry = []) && negb (bool_decide (primary registry = [])) && negb (accept_plaintext registry) = false) as -> by (by destruct (bool_decide (primary registry = []))).
  rewrite Hp, (provider_inverse _ _ _ Hn Ec). cbn [result_bind file_bytes store_id resealed_file]. rewrite <- Hlen. apply (eo_read_spec c b sealed); [exact (provider_cipher number c metadata Hn Ec)|by eapply Hsm|done| |done|done].
  intros off k. by apply read_part_found.
Qed.

(** An edit a task installed: a migration the migrator picked, or a re-encryption, with the file it replaces. *)
Inductive rewrites (registry : ProviderRegistry) (read_all : bytes -> bytes -> Result bytes) (read_range : bytes -> bytes -> Z -> Z -> Result bytes)
    (write_new_sst : bytes -> bytes -> bool -> Result Written) (r : ResolvedTiers) (now : Z) (v : Version) : FileMetadata -> VersionEdit -> Prop :=
  | rewrites_moving m e : pick_migration v r now = Some m -> run_migration registry read_all write_new_sst r m = Value (Some e) ->
      rewrites registry read_all read_range write_new_sst r now v (m_file m) e
  | rewrites_sealing f e : stale_file registry v = Some f -> run_reencryption registry read_range write_new_sst r f = Value e ->
      rewrites registry read_all read_range write_new_sst r now v f e.

(** What [write_new_sst] keeps towards its callers ([WriteSst.new_sst_never_overwrites]), [os'] being what the stores hold
    after the call: the number is new, the object there holds the bytes, sealed under that number where that was asked for,
    and no object that was there has changed. *)
Record writes_new (registry : ProviderRegistry) (provider : EncryptionProvider) (os os' : Objects) (v : Version)
    (write_new_sst : bytes -> bytes -> bool -> Result Written) : Prop := {
  wn_number : forall id b seal w, write_new_sst id b seal = Value w -> is_u64 (wr_number w) /\ forall g, g ∈ all_files v -> file_number g <> wr_number w;
  wn_object : forall id b seal w, write_new_sst id b seal = Value w -> exists payload wo,
    payload_for (primary registry) provider seal b (wr_number w) = Value (payload, wo) /\ wr_provider w = wo_encryption_provider wo /\
    wr_metadata w = wo_encryption_metadata wo /\ os' id (sst_object_name (wr_number w)) = Some payload;
  wn_frame : forall id name, os id name <> None -> os' id name = os id name
}.

Section Rewrites.
Context (registry : ProviderRegistry) (provider : EncryptionProvider) (os os' : Objects) (write_new_sst : bytes -> bytes -> bool -> Result Written).
Context (r : ResolvedTiers) (now : Z) (v : Version).
Context (Hprimary : find_provider (providers registry) (primary registry) = Some provider) (Hlaws : ProviderLaws provider) (Hopens : opens_renumbered registry).
Context (Hsmall : forall n c metadata g, p_create provider n = Value (c, metadata) -> g ∈ all_files v -> object_small c (file_bytes g)).
Context (Hwrites : writes_new registry provider os os' v write_new_sst).

Lemma rewrites_spec f e b : reads_as registry os f b -> zlen b < 2 ^ 63 -> rewrites registry (read_whole os) (read_part os) write_new_sst r now v f e ->
  f ∈ all_files v /\ level f <> 0 /\ exists f', e = swap_file_edit f f' /\ same_description f f' /\ reads_as registry os' f' b /\
    forall g, g ∈ all_files v -> file_number g <> file_number f'.
Proof using Hprimary Hlaws Hopens Hsmall Hwrites.
  intros Hb Hlt Hrw. destruct Hrw as [m e' Hpick Hrun|f0 e' Hstale Hrun].
  - assert (rt_tiers r <> []) as Hne by (intros E; unfold pick_migration in Hpick; by rewrite E in Hpick).
    destruct (pick_sound v r now Hne m Hpick) as [Hf Hl _ _ (t & Ht & Hother) _ _]. split; [done|]. split; [done|]. unfold run_migration in Hrun.
    destruct (rt_stores r !! _) as [chain|]; [|done]. rewrite Ht, bool_decide_eq_false_2 in Hrun by done. unfold read_whole in Hrun.
    destruct (os _ _) as [B|] eqn:EB; [|done]. simpl in Hrun.
    destruct (find_provider _ (encryption_provider (m_file m))) as [p|]; [|done]. destruct (object_layout p (m_file m)) as [[chunk overhead]|]; [|done]. simpl in Hrun. destruct (negb _); [done|].
    destruct (write_new_sst _ B false) as [wr|] eqn:Ew; [|done]. simpl in Hrun. injection Hrun as <-. eexists. split; [done|]. split; [done|].
    destruct (wn_object _ _ _ _ _ _ Hwrites _ _ _ _ Ew) as (payload & wo & [= <- <-] & _ & _ & Hos). split; [|by apply (wn_number _ _ _ _ _ _ Hwrites _ _ _ _ Ew)].
    by apply (moved_reads_as registry os os' (m_file m) (wr_number wr) (tier_id t) b B).
  - unfold stale_file in Hstale. apply find_some in Hstale as [Hin Hc]. apply andb_true_iff in Hc as [Hl _]. apply negb_true_iff, Z.eqb_neq in Hl. apply list_elem_of_In in Hin.
    split; [done|]. split; [done|]. unfold run_reencryption in Hrun. destruct (rt_stores r !! _) as [chain|]; [|done]. rewrite (reads_whole _ _ _ _ Hb ltac:(lia)) in Hrun. simpl in Hrun. destruct (negb _); [done|].
    destruct (write_new_sst _ b true) as [wr|] eqn:Ew; [|done]. simpl in Hrun. injection Hrun as <-. eexists. split; [done|]. split; [done|].
    destruct (wn_number _ _ _ _ _ _ Hwrites _ _ _ _ Ew) as [Hu Hfresh]. split; [|done]. destruct (wn_object _ _ _ _ _ _ Hwrites _ _ _ _ Ew) as (payload & wo & Hpay & -> & -> & Hos).
    apply (resealed_reads_as registry provider os' f0 (wr_number wr) b payload wo); try done; [|by destruct Hb as (_ & ? & _)].
    intros c metadata Ec. destruct Hb as (_ & -> & _). by eapply Hsmall.
Qed.

(** A file that stays reads as it did. *)
Lemma stays_read g offset len : os (store_id g) (sst_object_name (file_number g)) <> None -> read_at registry os' g offset len = read_at registry os g offset len.
Proof using Hwrites.
  intros H. unfold read_at. destruct (cipher_for registry g) as [c|]; [|done]. cbn [result_bind]. apply eo_read_same. intros off k. unfold read_part, read_whole. by rewrite (wn_frame _ _ _ _ _ _ Hwrites).
Qed.
End Rewrites.

(** The content of a file: what its bytes decode to, read whole through the provider it is recorded under. *)
Definition file_content (decode : bytes -> Sst) (registry : ProviderRegistry) (os : Objects) (f : FileMetadata) : Sst :=
  decode (match read_plain registry (read_part os) f with Value b => b | Unexpected _ => [] end).

(** C29: neither a migration nor a re-encryption changes an answer. The content of a file is what its bytes decode to, for
    any decoder, read from the stores and opened with the provider and metadata its record names. When every file of a
    well-formed version reads (shorter than 2^63 bytes, below 2^64 when sealed), the providers open an object by its metadata whatever its number,
    the primary one gives its ciphers back, and the write keeps what [new_sst_never_overwrites] says: the new record's every
    read, at any offset and length, answers the same plaintext as the old one's did, over the bytes the rewrite stored - the
    object as it was for a migration, sealed anew for a re-encryption -, the version stays well formed and [get] answers
    every key as before; the file was not one of level 0, whose recency its number is; and a migration the migrator picked
    leaves its store for one of a strictly colder tier, because its tier is over capacity and it is the oldest there, or
    because its age calls for that tier. *)
Theorem rewrites_preserve_reads {R} (ops : SstReaderOps R) (reader_for reader_for' : FileMetadata -> Result R) decode
    registry provider os os' write_new_sst r now v f e :
  let content := file_content decode registry os in
  let content' := file_content decode registry os' in
  find_provider (providers registry) (primary registry) = Some provider -> ProviderLaws provider -> opens_renumbered registry ->
  (forall n c metadata g, p_create provider n = Value (c, metadata) -> g ∈ all_files v -> object_small c (file_bytes g)) ->
  writes_new registry provider os os' v write_new_sst ->
  (forall g, g ∈ all_files v -> exists b, reads_as registry os g b /\ zlen b < 2 ^ 63) ->
  version_ok content v -> readable content reader_for v ->
  rewrites registry (read_whole os) (read_part os) write_new_sst r now v f e ->
  exists f' b, e = swap_file_edit f f' /\ level f <> 0 /\ reads_as registry os f b /\ reads_as registry os' f' b /\
    version_ok content' (apply v e) /\
    (forall ss ms k, Forall2 models ss ms -> readable content' reader_for' (apply v e) ->
       db_get reader_for' false ss (apply v e) k = db_get reader_for false ss v k) /\
    (forall m, pick_migration v r now = Some m -> migration_sound v r now m).
Proof.
  intros content content' Hp Hlaws Hop Hsm Hwn Hall Hv Hr Hw.
  assert (f ∈ all_files v) as Hin.
  { destruct Hw as [m e' Hpick _|f0 e' Hstale _].
    - assert (rt_tiers r <> []) as Hne by (intros E; unfold pick_migration in Hpick; by rewrite E in Hpick). by destruct (pick_sound v r now Hne m Hpick).
    - unfold stale_file in Hstale. apply find_some in Hstale as [H _]. by apply list_elem_of_In. }
  destruct (Hall f Hin) as (b & Hb & Hlt). destruct (rewrites_spec registry provider os os' write_new_sst r now v Hp Hlaws Hop Hsm Hwn f e b Hb Hlt Hw) as (Hf & Hl & f' & -> & Hsame & Hb' & Hfresh).
  assert (forall g, g ∈ all_files v -> content' g = content g) as Hkeep.
  { intros g Hg. destruct (Hall g Hg) as (bg & Hbg & Hltg). unfold content', content, file_content.
    assert (read_plain registry (read_part os') g = read_plain registry (read_part os) g) as ->; [|done].
    apply (stays_read registry provider os os' write_new_sst v Hwn g 0 kReadToEnd). by destruct Hbg. }
  assert (content' f' = content f) as Hcopy.
  { unfold content', content, file_content. by rewrite (reads_whole _ _ _ _ Hb' ltac:(lia)), (reads_whole _ _ _ _ Hb ltac:(lia)). }
  exists f', b. split_and!; try done.
  - by apply (rehome_ok content).
  - intros ss ms k Hm Hr'. rewrite (db_get_spec content' reader_for' ss ms); [|by apply (rehome_ok content)|done..]. rewrite (db_get_spec content reader_for ss ms) by done.
    rewrite truncated_apply by done. destruct (truncated v k) eqn:Et; [done|]. destruct (mem_verdicts ms k); [done|]. by apply rehome_answers.
  - intros m Hp'. apply pick_sound; [|done]. intros E. unfold pick_migration in Hp'. by rewrite E in Hp'.
Qed.

(** ** Migration at work, and a configuration under which it never rests

    Witnesses for the theorems above, and the run of the drain loop over tiers of which two share a store:
    [tier.hpp] allows that, and a file then changes places for ever. *)


Module MigrationExamples.
Definition small_tier (name : byte) (max_age max_bytes : option Z) : Tier :=
  {| t_store := Some (Authority [name]); t_durability := Durable; t_max_age := max_age; t_max_bytes := max_bytes; t_stall_age := None |}.

(** The first and the last tier keep their files on one store. *)
Definition shared_tiers : list Tier := [small_tier x61 (Some 10) (Some 2); small_tier x62 (Some 20) None; small_tier x61 None None].

Definition shared : ResolvedTiers :=
  {| rt_tiers := shared_tiers; rt_stores := <[[x62] := Authority [x62]]> {[ [x61] := Authority [x61] ]}; rt_age_jitter := Finite 0 0 |}.

Definition distinct : ResolvedTiers :=
  {| rt_tiers := [small_tier x61 (Some 10) (Some 2); small_tier x62 (Some 20) None; small_tier x63 None None];
     rt_stores := <[[x63] := Authority [x63]]> (<[[x62] := Authority [x62]]> {[ [x61] := Authority [x61] ]}); rt_age_jitter := Finite 0 0 |}.

Definition file_on (number : Z) (store : byte) : FileMetadata :=
  {| level := 1; file_number := number; store_id := [store]; smallest_key := [x61]; largest_key := [x61]; file_bytes := 3; num_entries := 1;
     num_tombstones := 0; num_range_tombstones := 0; smallest_range_key := []; largest_range_key := []; compression := NoCompression;
     min_write_time_ms := 1; max_write_time_ms := 1; watermark := no_watermark; encryption_provider := []; encryption_metadata := [] |}.

Definition holding (f : FileMetadata) : Version := make_version [[]; [f]] 20 ∅ [] None.

Definition one_entry : Store := fun _ => {| entries := [([x61], (Put, [x76]))]; ranges := [] |}.

Definition plain_level (lvl : Z) : ResolvedLevel :=
  {| rl_level := lvl; rl_compression := NoCompression; rl_max_bytes := None; rl_max_files := None; rl_slowdown_at := None; rl_stop_at := None; rl_target_file_bytes := 100 |}.

Definition stored (store : Store) (f : FileMetadata) : Result Sst := Value (store_content store f).

Definition numbered (p : positive) : Written :=
  {| wr_number := Z.pos p; wr_store := []; wr_bytes := 3; wr_provider := []; wr_metadata := [] |}.

(** Every read answers the three bytes, every write a new number. *)
Definition bytes_of_file : bytes := [x01; x02; x03].
Definition reads_ok (_ : nat) (_ _ : bytes) : Result bytes := Value bytes_of_file.
Definition writes_ok (i : nat) (_ _ : bytes) (_ : bool) : Result Written := Value (numbered (Pos.of_succ_nat (20 + i))).

Definition drain_from (r : ResolvedTiers) (fuel i : nat) (v : Version) (store : Store) : option (Version * Store * Status) :=
  migrate_while stored [plain_level 0; plain_level 1] r passthrough_registry false (fun _ => false) (fun _ => 100) reads_ok writes_ok (fun _ => false) (fun _ _ => numbered 1) fuel i (v, store).
End MigrationExamples.
Import MigrationExamples.

Lemma pick_by_files v v' r now : all_files v = all_files v' -> pick_migration v r now = pick_migration v' r now.
Proof. intros E. unfold pick_migration, group_by_tier. by rewrite E. Qed.

(** Whichever of the two stores the file is on, the next round moves it to the other. *)
Lemma round_swaps i v store p s s' : (s, s') = (x61, x62) \/ (s, s') = (x62, x61) -> levels_ v = [[]; [file_on (Z.pos p) s]] ->
  exists v' store', run_one_migration stored [plain_level 0; plain_level 1] shared passthrough_registry false (fun _ => false) (fun _ => 100) reads_ok writes_ok (fun _ => false) (fun _ _ => numbered 1) i (v, store) = Worked (v', store') /\
    levels_ v' = [[]; [file_on (Z.pos (Pos.of_succ_nat (20 + i))) s']].
Proof.
  intros Hs Hv. assert (exists m, pick_migration v shared 100 = Some m /\ m_file m = file_on (Z.pos p) s /\ exists t, tier_at shared (m_to_tier m) = Some t /\ tier_id t = [s']) as (m & Em & Ef & t & Et & Eid).
  { rewrite (pick_by_files v (holding (file_on (Z.pos p) s))) by (unfold all_files; by rewrite Hv).
    destruct Hs as [[= -> ->]|[= -> ->]]; (eexists; split; [lazy; reflexivity|]; split; [reflexivity|]; eexists; split; [reflexivity|reflexivity]). }
  unfold run_one_migration. rewrite Em. cbn [negb]. unfold run_migration. rewrite Ef, Et.
  assert (rt_stores shared !! store_id (file_on (Z.pos p) s) = Some (Authority [s])) as -> by (destruct Hs as [[= -> ->]|[= -> ->]]; reflexivity).
  rewrite Eid. assert (s' <> s) as Hne by (by destruct Hs as [[= -> ->]|[= -> ->]]). cbn [store_id file_on]. rewrite bool_decide_eq_false_2 by congruence. unfold reads_ok. cbn [result_bind].
  change (find_provider (providers passthrough_registry) (encryption_provider (file_on (Z.pos p) s))) with (Some no_encryption_provider). cbn iota.
  change (object_layout no_encryption_provider (file_on (Z.pos p) s)) with (Value (4096, 0)). cbn [result_bind].
  change (physical_size (file_bytes (file_on (Z.pos p) s)) 4096 0) with 3. change (zlen bytes_of_file) with 3. cbn [Z.eqb Pos.eqb negb]. unfold writes_ok. cbn [result_bind added swap_file_edit numbered wr_number].
  eexists _, _. split; [reflexivity|]. unfold apply. cbn [levels_ make_version added deleted swap_file_edit fold_left]. rewrite Hv. unfold erase_ref. cbn [ref_level ref_number level file_on file_number].
  change ((1 <? 0) || (Z.of_nat (length [[]; [file_on (Z.pos p) s]]) <=? 1)) with false. cbn iota. change (Z.to_nat 1) with 1%nat. cbn [alter list_alter List.filter file_number file_on]. rewrite Z.eqb_refl. reflexivity.
Qed.

(** Tiers that share a store can make migration run for ever. [resolve_tiers] accepts three tiers of which
    the first and the last name one store and the first has a capacity; a file larger than that capacity and
    older than every bound then moves from that store to the middle one for capacity and back for its age, in
    every round, at one and the same time on the clock, so that the loop never leaves however long it runs,
    against the comment that it terminates because placement is monotone. *)
Theorem shared_store_migrates_forever :
  resolve_tiers shared_tiers (Finite 0 0) = Value shared /\
  forall fuel, drain_from shared fuel 0 (holding (file_on 7 x61)) one_entry = None.
Proof.
  split; [by vm_compute|]. intros fuel. assert (forall fuel i v store p s s', (s, s') = (x61, x62) \/ (s, s') = (x62, x61) -> levels_ v = [[]; [file_on (Z.pos p) s]] -> drain_from shared fuel i v store = None) as H.
  { clear fuel. induction fuel as [|fuel IH]; intros i v store p s s' Hs Hv; [done|]. unfold drain_from. cbn [migrate_while]. destruct (round_swaps i v store p s s' Hs Hv) as (v' & store' & -> & Hv').
    apply (IH (S i) v' store' (Pos.of_succ_nat (20 + i)) s' s); [destruct Hs as [[= -> ->]|[= -> ->]]; [by right|by left]|done]. }
  by apply (H fuel 0%nat _ _ 7%positive x61 x62); [left|].
Qed.

(** ** Witnesses *)

Lemma migrations_terminate_witness :
  (exists fuel, forall more, (fuel <= more)%nat -> exists answer, drain_from distinct more 0 (holding (file_on 7 x61)) one_entry = Some answer) /\
  (fun a => (all_files a.1.1, a.2)) <$> drain_from distinct 3 0 (holding (file_on 7 x61)) one_entry = Some ([file_on 22 x63], Ok).
Proof.
  split.
  - apply (migrations_terminate sst_content_reader stored [plain_level 0; plain_level 1] distinct passthrough_registry false (fun _ => false) (fun _ => 100) reads_ok writes_ok (fun _ => false) (fun _ _ => numbered 1) (holding (file_on 7 x61)) one_entry).
    + apply (bool_decide_eq_true_1 _). by vm_compute.
    + intros lvl f Hf. pose proof (files_at_bounds _ _ _ Hf) as Hb. change (num_levels (holding (file_on 7 x61))) with 2 in Hb. assert (lvl = 0 \/ lvl = 1) as [-> | ->] by lia; [by apply elem_of_nil in Hf|]. by apply list_elem_of_singleton in Hf as ->.
  - by vm_compute.
Defined.

Lemma holding_files f lvl : files_at (holding f) lvl = if lvl =? 1 then [f] else [].
Proof.
  unfold files_at. change (num_levels (holding f)) with 2. destruct (Z.eqb_spec lvl 1) as [-> |Hne]; [done|].
  destruct (Z.ltb_spec lvl 0); [done|]. destruct (Z.leb_spec 2 lvl); [done|]. assert (lvl = 0) as -> by lia. done.
Qed.

Lemma holding_ok number s : version_ok (store_content one_entry) (holding (file_on number s)).
Proof.
  assert (forall lvl f, f ∈ files_at (holding (file_on number s)) lvl -> f = file_on number s /\ lvl = 1) as Hone.
  { intros lvl f. rewrite holding_files. destruct (Z.eqb_spec lvl 1); [|by intros ?%elem_of_nil]. by intros ->%list_elem_of_singleton. }
  assert (forall f, f ∈ all_files (holding (file_on number s)) -> f = file_on number s) as Hall by (by intros f (lvl & [? _]%Hone)%elem_of_all_files). split.
  - by intros lvl f [-> ->]%Hone.
  - intros lvl. rewrite holding_files. destruct (lvl =? 1); repeat constructor.
  - intros f ->%Hall. split; simpl; try done; try (by intros kv [= <-]); [repeat constructor|repeat constructor| |by left].
    intros _ kv ->%list_elem_of_singleton. done.
  - by intros lvl a b _ [-> _]%Hone [-> _]%Hone.
  - intros lvl. rewrite holding_files. destruct (lvl =? 1); [apply NoDup_singleton|constructor].
  - by intros f g ->%Hall ->%Hall.
  - intros lvl. apply carries_ranges_make.
Qed.

(** A plaintext file of three bytes on one store, and one under the toy cipher next to it once it is rewritten. *)
Definition toy_primary : ProviderRegistry :=
  {| providers := providers toy_registry; primary := primary toy_registry; accept_plaintext := true |}.

Abbreviation toy_aes := (aes_provider (gcm := toy_gcm) (keys := toy_keys) 4 9 toy_random).

Definition payload_at (number : Z) : bytes * WrittenObject :=
  match payload_for (primary toy_primary) toy_aes true bytes_of_file number with Value p => p | Unexpected _ => ([], {| wo_file_number := 0; wo_encryption_provider := []; wo_encryption_metadata := [] |}) end.

Definition os_before : Objects := fun id name =>
  if bool_decide (id = [x61] /\ name = sst_object_name 7) then Some bytes_of_file else None.
Definition os_after : Objects := fun id name =>
  if bool_decide (id = [x61] /\ name = sst_object_name 21) then Some (payload_at 21).1 else os_before id name.

Definition seals_as_21 (id b : bytes) (seal : bool) : Result Written :=
  if bool_decide (id = [x61] /\ b = bytes_of_file) && seal then
    Value {| wr_number := 21; wr_store := id; wr_bytes := 3; wr_provider := wo_encryption_provider (payload_at 21).2; wr_metadata := wo_encryption_metadata (payload_at 21).2 |}
  else Unexpected Io.

Definition toy_decode (b : bytes) : Sst := if bool_decide (b = bytes_of_file) then one_entry 7 else {| entries := []; ranges := [] |}.

Abbreviation toy_file := (resealed_file (file_on 7 x61) 21 (wo_encryption_provider (payload_at 21).2) (wo_encryption_metadata (payload_at 21).2)).

Lemma toy_opens_renumbered : opens_renumbered toy_primary.
Proof.
  intros id p n n' metadata. unfold find_provider. cbn [providers toy_primary toy_registry List.find option_map fst snd]. repeat case_match; intros [= <-]; reflexivity.
Qed.

Lemma rewrites_preserve_reads_witness :
  run_reencryption toy_primary (read_part os_before) seals_as_21 distinct (file_on 7 x61) = Value (swap_file_edit (file_on 7 x61) toy_file) /\
  (payload_at 21).1 <> bytes_of_file /\ reads_as toy_primary os_after toy_file bytes_of_file /\
  db_get (fun f => Value (file_content toy_decode toy_primary os_after f)) false [] (apply (holding (file_on 7 x61)) (swap_file_edit (file_on 7 x61) toy_file)) [x61] = Value [x76].
Proof.
  assert (run_reencryption toy_primary (read_part os_before) seals_as_21 distinct (file_on 7 x61) = Value (swap_file_edit (file_on 7 x61) toy_file)) as Hrun by (vm_compute; reflexivity).
  split; [exact Hrun|]. split; [by vm_compute|].
  assert (forall g, g ∈ all_files (holding (file_on 7 x61)) -> g = file_on 7 x61) as Hone.
  { intros g (lvl & Hg)%elem_of_all_files. rewrite holding_files in Hg. destruct (lvl =? 1); [by apply list_elem_of_singleton in Hg|by apply elem_of_nil in Hg]. }
  assert (reads_as toy_primary os_before (file_on 7 x61) bytes_of_file) as Hreads.
  { split; [by vm_compute|]. split; [done|]. intros offset len H0 H1. unfold read_at.
    assert (cipher_for toy_primary (file_on 7 x61) = Value no_encryption_cipher) as -> by (vm_compute; reflexivity). cbn [result_bind].
    apply (eo_read_spec no_encryption_cipher bytes_of_file bytes_of_file); [apply no_encryption_ok|by vm_compute|by vm_compute| |done|done].
    intros off k. apply read_part_found. by vm_compute. }
  assert (file_content toy_decode toy_primary os_before (file_on 7 x61) = one_entry 7) as Hcont by (vm_compute; reflexivity).
  destruct (rewrites_preserve_reads sst_content_reader (fun f => Value (file_content toy_decode toy_primary os_before f)) (fun f => Value (file_content toy_decode toy_primary os_after f)) toy_decode
              toy_primary toy_aes os_before os_after seals_as_21 distinct 0 (holding (file_on 7 x61)) (file_on 7 x61) (swap_file_edit (file_on 7 x61) toy_file)) as (f' & b & E & _ & Hb & Hb' & _ & Hget & _).
  - reflexivity.
  - apply (aes_provider_laws (gcm := toy_gcm)); [apply _|apply (static_key_laws (gcm := toy_gcm) (repeat x01 32)); apply _|by vm_compute].
  - apply toy_opens_renumbered.
  - intros n c metadata g Hc ->%Hone. cbn [p_create aes_provider] in Hc. unfold aes_create in Hc. destruct (new_data_key _) as [[key env]|]; [|done]. cbn [result_bind] in Hc. destruct (negb _); [done|]. injection Hc as <- _. by vm_compute.
  - split.
    + intros id b seal w. unfold seals_as_21. destruct (_ && _); [|done]. intros [= <-]. split; [by vm_compute|]. by intros g ->%Hone.
    + intros id b seal w. unfold seals_as_21. case_bool_decide as Hb; [|done]. destruct Hb as [-> ->]. destruct seal; [|done]. intros [= <-]. exists (payload_at 21).1, (payload_at 21).2. split_and!; [by vm_compute|done..|by vm_compute].
    + intros id name H. unfold os_after. case_bool_decide as Hx; [|done]. destruct Hx as [-> ->]. exfalso. apply H. by vm_compute.
  - intros g ->%Hone. by exists bytes_of_file.
  - pose proof (holding_ok 7 x61) as [H1 H2 H3 H4 H5 H6 H7]. split; try done. intros g Hg. pose proof (H3 g Hg) as Hd. apply Hone in Hg as ->. rewrite Hcont. exact Hd.
  - intros g _. eexists. split; [reflexivity|apply _].
  - apply rewrites_sealing; [by vm_compute|exact Hrun].
  - assert (f' = toy_file) as -> by (by injection E). assert (b = bytes_of_file) as ->.
    { pose proof (reads_whole _ _ _ _ Hb ltac:(destruct Hb as (_ & -> & _); by vm_compute)) as H1. rewrite (reads_whole _ _ _ _ Hreads ltac:(by vm_compute)) in H1. congruence. }
    split; [exact Hb'|]. transitivity (db_get (fun f => Value (file_content toy_decode toy_primary os_before f)) false [] (holding (file_on 7 x61)) [x61]); [|by vm_compute].
    apply (Hget [] []); [constructor|]. intros g _. eexists. split; [reflexivity|apply _].
Defined.
