(* ===== verification/LevelPass.v ===== *)
(** * Compacting one level at the embedder's request

    [DbImpl::compact_level] of [src/compact/compactor.cpp]: one pass over the files a level held when it
    began, each rewritten into the level below, or in place at the last level. The pass preserves every
    answer; with a single configured level it does not, which is shown as the code has it. *)

From S2P Require Import Prelude Slice Format Framing Watermark VersionEdit Version Memtable Merging Sst Lsm Picker Outputs Compact CompactProofs PickerProofs Tiers Migration MigrationProofs.

(** ** Definitions *)

Section Pass.
Context {R : Type} `{ops : SstReaderOps R} (reader_for : Store -> FileMetadata -> Result R).
Context (config : list ResolvedLevel) (r : ResolvedTiers) (lvl : Z).
(** The clock, and what the writes answer, for the file at each place of the pass. *)
Context (clock : nat -> Z) (full : SstWriter -> bool) (outputs : nat -> nat -> Written).

Definition bottom : bool := lvl =? last_level config.
Definition pass_output : Z := if bottom then lvl else lvl + 1.

(** A file of the last level that a rewrite would leave as it is. *)
Definition up_to_date (target : ResolvedLevel) (now : Z) (f : FileMetadata) : bool :=
  bottom && bool_decide (compression f = rl_compression target) && (num_tombstones f =? 0) &&
  match tier_at r (place r f now) with Some t => bool_decide (tier_id t = store_id f) | None => false end.

Definition pass_compaction (v : Version) (f : FileMetadata) : Compaction :=
  let overlaps := if bottom then [] else overlapping_inclusive v pass_output (effective_smallest f) (effective_largest f) in
  let chosen grandparents bottommost :=
    {| c_level := lvl; c_output_level := pass_output; c_inputs := [f]; c_overlaps := overlaps; c_grandparents := grandparents;
       c_output_is_bottommost := bottommost; c_trivial_move := false; c_inputs_trimmed := false |} in
  let hull := effective_hull (chosen [] false) in
  chosen (if negb bottom && (pass_output + 1 <=? last_level config) then overlapping_inclusive v (pass_output + 1) hull.1 hull.2 else [])
         (is_bottommost_for_range v pass_output (last_level config) hull.1 hull.2).

(** Whether ordinary compaction has left the file where it was. *)
Definition still_there (v : Version) (f : FileMetadata) : bool := existsb (fun g => file_number g =? file_number f) (files_at v lvl).

Fixpoint level_pass (target : ResolvedLevel) (i : nat) (pass : list FileMetadata) (st : Version * Store) : Result (Version * Store) :=
  match pass with
  | [] => Value st
  | f :: rest =>
      if up_to_date target (clock i) f || negb (still_there st.1 f) then level_pass target (S i) rest st
      else
        let? st' := run_compaction (reader_for st.2) full (outputs i) target st.1 st.2 (pass_compaction st.1 f) in
        level_pass target (S i) rest st'
  end.

(** [refusal] is the status of a store that is read-only, unusable or fenced. *)
Definition compact_level (refusal : Status) (st : Version * Store) : Result (Version * Store) :=
  match refusal with
  | Ok =>
      if (lvl <? 0) || (last_level config <? lvl) then Unexpected Config
      else
        match config !! Z.to_nat pass_output with
        | None => Unexpected Config
        | Some target => level_pass target 0 (if lvl =? 0 then reverse (files_at st.1 lvl) else files_at st.1 lvl) st
        end
  | s => Unexpected s
  end.

(** The sizes a run meets: every merge reads less than [2 ^ 64] entries and ranges. *)
Fixpoint pass_sizes (target : ResolvedLevel) (i : nat) (pass : list FileMetadata) (st : Version * Store) : Prop :=
  match pass with
  | [] => True
  | f :: rest =>
      if up_to_date target (clock i) f || negb (still_there st.1 f) then pass_sizes target (S i) rest st
      else
        input_size (store_content st.2) (pass_compaction st.1 f) < 2 ^ 64 /\
        match run_compaction (reader_for st.2) full (outputs i) target st.1 st.2 (pass_compaction st.1 f) with
        | Value st' => pass_sizes target (S i) rest st'
        | Unexpected _ => True
        end
  end.
End Pass.

(** ** Each rewrite is sound *)

Lemma single_hull f : in_hull (effective_smallest f, effective_largest f) f.
Proof. split; simpl; key_order. Qed.

(** An L0 file that leaves its tier is the oldest of its level. *)
Lemma l0_escape_ok content v config r primary_id rewrite now c : version_ok content v -> starts_nonempty v ->
  (forall f, f ∈ all_files v -> level f <= last_level config) ->
  l0_escape config r primary_id rewrite now v = Some c -> compaction_ok content v c.
Proof.
  intros Hv Hne Hlast H. unfold l0_escape in H. destruct (_ <? 1); [done|]. destruct (negb _); [done|]. destruct (oldest_file (files_at v 0)) as [seed|] eqn:Es; [|done].
  cbv zeta in H. destruct (existsb _ _) eqn:Eold; [done|]. destruct (effective_hull _) as [lo up] eqn:Eh. injection H as <-. pose proof (oldest_elem _ _ Es) as Hseed.
  apply (selection_ok content v Hv Hne); simpl; try done.
  - by apply singleton_sublist_l.
  - exists (effective_smallest seed), (effective_largest seed). split; [done|]. repeat constructor; apply single_hull.
  - intros _ g f Hg Hn ->%list_elem_of_singleton [Hm1 Hm2]. destruct (Z.lt_trichotomy (file_number seed) (file_number g)) as [|[E|Hlt]]; [done| |].
    + exfalso. apply Hn. rewrite (vo_unique _ _ Hv g seed); [by left|by eapply in_all|by eapply in_all|done].
    + assert (existsb (fun other => file_number other <? file_number seed) (overlapping_inclusive v 0 (effective_smallest seed) (effective_largest seed)) = true) as Ht; [|congruence].
      apply existsb_exists. exists g. split; [|by apply Z.ltb_lt]. apply list_elem_of_In, elem_of_overlapping. done.
  - intros Hb p Hp Hout. unfold effective_hull, all_inputs in *. simpl in *. rewrite Eh. simpl. apply (bottommost_spec v 1 (last_level config)); [done|done|by apply Hlast].
Qed.

(** Rewriting a file in place drops nothing that lies below, for nothing does. *)
Lemma in_place_bottom store v f : version_ok (store_content store) v -> f ∈ all_files v -> level f <> 0 -> (forall g, g ∈ all_files v -> level g <= level f) ->
  forall c, c_level c = level f -> c_output_level c = level f -> c_inputs c = [f] -> c_overlaps c = [] -> c_trivial_move c = false -> compaction_ok (store_content store) v c.
Proof.
  intros Hv Hf Hl Hlast c E1 E2 E3 E4 E5. pose proof (in_place_ok (store_content store) v f Hv Hf Hl) as [H1 H2 H3 H4 H5 H6 H7 _ _].
  unfold all_inputs in *. simpl in *. split; unfold all_inputs; rewrite ?E1, ?E2, ?E3, ?E4, ?E5; try done.
  intros _ p g k Hp Hlt. specialize (Hlast p Hp). lia.
Qed.

Section PassSound.
Context (config : list ResolvedLevel) (lvl : Z) (Hlvl : 0 <= lvl <= last_level config) (Hnot : 0 < last_level config).

Lemma pass_ok store v f : version_ok (store_content store) v -> starts_nonempty v -> (forall g, g ∈ all_files v -> level g <= last_level config) ->
  f ∈ files_at v lvl -> (lvl = 0 -> forall g, g ∈ files_at v 0 -> g <> f -> file_number f < file_number g) ->
  compaction_ok (store_content store) v (pass_compaction config lvl v f).
Proof.
  intros Hv Hne Hlast Hf Hold. pose proof (vo_filed _ _ Hv _ _ Hf) as El. destruct (bottom config lvl) eqn:Eb.
  - unfold bottom in Eb. apply Z.eqb_eq in Eb. apply (in_place_bottom store v f); [done|by eapply in_all|lia|intros g Hg; specialize (Hlast g Hg); lia| | | | |];
      unfold pass_compaction, pass_output, bottom; rewrite Eb, Z.eqb_refl; simpl; congruence.
  - unfold pass_compaction, pass_output. rewrite Eb. cbv zeta. set (hull := effective_hull _).
    apply (selection_ok (store_content store) v Hv Hne); simpl; try done; [lia|by apply singleton_sublist_l| | |].
    + exists (effective_smallest f), (effective_largest f). split; [done|]. repeat constructor; apply single_hull.
    + intros -> g f0 Hg Hn ->%list_elem_of_singleton _. apply Hold; [done|done|]. intros ->. apply Hn. by left.
    + intros Hb p Hp Hout. change (effective_hull _) with hull. apply (bottommost_spec v (lvl + 1) (last_level config)); [done|done|by apply Hlast].
Qed.
End PassSound.

(** ** The pass *)

(** What a merge leaves: files that stay, and outputs under their new numbers. *)
Lemma merge_leaves {R} `{ops : SstReaderOps R} (reader : FileMetadata -> Result R) full written target v store c :
  version_ok (store_content store) v -> compaction_ok (store_content store) v c -> readable (store_content store) reader v -> fresh_numbers written v ->
  input_size (store_content store) c < 2 ^ 64 -> c_trivial_move c = false ->
  exists v' store', run_compaction reader full written target v store c = Value (v', store') /\ version_ok (store_content store') v' /\ same_answers store v store' v' /\
    (forall k, truncated v' k = truncated v k) /\
    forall w, w ∈ all_files v' -> (exists g, g ∈ all_files v /\ effective_smallest g <=k effective_smallest w) /\
      ((w ∈ all_files v /\ w ∉ all_inputs c) \/ (level w = c_output_level c /\ exists j, file_number w = wr_number (written j))).
Proof.
  intros Hv Hc Hr Hfresh Hs Ht. destruct (run_compaction_sound reader full written target v store c Hv Hc Hr Hfresh Hs) as (v' & store' & E & Hv' & Hsame).
  exists v', store'. split; [done|]. split; [done|]. split; [done|]. unfold run_compaction in E.
  destruct (compaction_edit reader full written target (truncation_point_ v) store c) as [[e st]|] eqn:Ee; [|done]. simpl in E. injection E as <- <-.
  split; [intros k; by apply truncated_apply, (edit_no_floor _ _ _ _ _ _ _ _ _ Ee)|]. intros w Hw.
  destruct (compaction_edit_files reader full written target v store c Hv Hc Hr Hfresh Hs _ e st w Ee Hw) as [Hstart _]. split; [done|].
  unfold compaction_edit in Ee. rewrite Ht in Ee. destruct (read_inputs reader (all_inputs c)) as [[children child_ranges]|]; [|done]. simpl in Ee. injection Ee as <- <-.
  apply (replace_all _ _ _ _ (merge_replaces (store_content store) v c Hv Hc written target _ Hfresh)) in Hw as [Hw|Hw]; [by left|right].
  apply elem_of_lookup_imap in Hw as (j & x & -> & _). split; [done|]. by exists j.
Qed.

Section Whole.
Context {R : Type} `{ops : SstReaderOps R} (reader_for : Store -> FileMetadata -> Result R).
Context (config : list ResolvedLevel) (r : ResolvedTiers) (lvl : Z) (clock : nat -> Z) (full : SstWriter -> bool) (outputs : nat -> nat -> Written) (target : ResolvedLevel).
Context (v0 : Version) (Hlvl : 0 <= lvl <= last_level config) (Hdeep : 0 < last_level config).
Context (Hread : forall store f, exists rd, reader_for store f = Value rd /\ SstReaderLaws ops rd (store_content store f)).
Context (Hdistinct : forall i j i' j', wr_number (outputs i j) = wr_number (outputs i' j') -> i = i' /\ j = j').
Context (Hnew : forall i j g, g ∈ all_files v0 -> wr_number (outputs i j) <> file_number g).
Context (Hunique : forall f g, f ∈ all_files v0 -> g ∈ all_files v0 -> file_number f = file_number g -> f = g).

Record pass_inv (i : nat) (rest : list FileMetadata) (v : Version) (store : Store) : Prop := {
  pi_ok : version_ok (store_content store) v;
  pi_starts : starts_nonempty v;
  pi_levels : forall g, g ∈ all_files v -> level g <= last_level config;
  pi_numbers : forall g, g ∈ all_files v -> g ∈ all_files v0 \/ exists i' j, (i' < i)%nat /\ file_number g = wr_number (outputs i' j);
  pi_rest : forall f, f ∈ rest -> f ∈ all_files v0;
  pi_oldest : lvl = 0 -> StronglySorted (fun a b => file_number a < file_number b) rest /\ forall g, g ∈ files_at v 0 -> g ∈ rest
}.

Lemma found_there i f rest v store : pass_inv i (f :: rest) v store -> still_there lvl v f = true -> f ∈ files_at v lvl.
Proof.
  intros H Hs. unfold still_there in Hs. apply existsb_exists in Hs as (g & Hg & E). apply list_elem_of_In in Hg. apply Z.eqb_eq in E.
  assert (f ∈ all_files v0) as Hf by (apply (pi_rest _ _ _ _ H); by left). destruct (pi_numbers _ _ _ _ H g (in_all _ _ _ Hg)) as [Hg0|(i' & j & _ & En)].
  - by rewrite <- (Hunique g f Hg0 Hf E).
  - exfalso. apply (Hnew i' j f Hf). congruence.
Qed.

Lemma not_there f v : still_there lvl v f = false -> f ∉ files_at v lvl.
Proof.
  intros Hs Hf. unfold still_there in Hs. assert (existsb (fun g => file_number g =? file_number f) (files_at v lvl) = true); [|congruence].
  apply existsb_exists. exists f. split; [by apply list_elem_of_In|apply Z.eqb_refl].
Qed.

Lemma inv_skip i f rest v store : pass_inv i (f :: rest) v store -> up_to_date config r lvl target (clock i) f || negb (still_there lvl v f) = true -> pass_inv (S i) rest v store.
Proof.
  intros H Hskip. constructor; try apply H.
  - intros g Hg. destruct (pi_numbers _ _ _ _ H g Hg) as [|(i' & j & ? & ?)]; [by left|right]. exists i', j. split; [lia|done].
  - intros g Hg. apply (pi_rest _ _ _ _ H). by right.
  - intros E. destruct (pi_oldest _ _ _ _ H E) as [Hs Hall]. apply StronglySorted_inv in Hs as [Hs _]. split; [done|]. intros g Hg.
    destruct (elem_of_cons rest g f) as [Hc _]. destruct (Hc (Hall g Hg)) as [-> |]; [|done]. exfalso. apply orb_true_iff in Hskip as [Hu|Hn].
    + unfold up_to_date, bottom in Hu. rewrite (proj2 (Z.eqb_neq _ _)) in Hu by lia. done.
    + apply negb_true_iff in Hn. apply (not_there f v Hn). by rewrite E.
Qed.

(** One rewrite keeps the invariant and every answer. *)
Lemma inv_run i f rest v store : pass_inv i (f :: rest) v store -> still_there lvl v f = true -> input_size (store_content store) (pass_compaction config lvl v f) < 2 ^ 64 ->
  exists v' store', run_compaction (reader_for store) full (outputs i) target v store (pass_compaction config lvl v f) = Value (v', store') /\
    pass_inv (S i) rest v' store' /\ same_answers store v store' v' /\ forall k, truncated v' k = truncated v k.
Proof.
  intros H Hthere Hsize. pose proof (found_there _ _ _ _ _ H Hthere) as Hf. destruct H as [Hv Hst Hlv Hnum Hrest Hold].
  assert (compaction_ok (store_content store) v (pass_compaction config lvl v f)) as Hc.
  { apply pass_ok; try done. intros E g Hg Hne. destruct (Hold E) as [Hs Hall]. apply StronglySorted_inv in Hs as [_ Hs]. rewrite Forall_forall in Hs.
    apply Hs. by apply Hall, elem_of_cons in Hg as [|]. }
  assert (fresh_numbers (outputs i) v) as Hfresh.
  { split; [|intros a b E; by apply (Hdistinct i a i b)]. intros j g Hg. destruct (Hnum g Hg) as [Hg0|(i' & j' & Hlt & ->)]; [by apply Hnew|]. intros E. apply Hdistinct in E as [-> _]. lia. }
  destruct (merge_leaves (reader_for store) full (outputs i) target v store _ Hv Hc) as (v' & store' & E & Hv' & Hsame & Htr & Hleft); [intros g _; apply Hread|done|done|done|].
  exists v', store'. split; [done|]. split; [|done]. assert (lvl <= pass_output config lvl <= last_level config) as Hout by (unfold pass_output, bottom; destruct (Z.eqb_spec lvl (last_level config)); lia).
  constructor.
  - done.
  - intros w Hw. destruct (Hleft w Hw) as [(g & Hg & Hle) _]. specialize (Hst g Hg). rewrite nonempty_lt in *. key_order.
  - intros w Hw. destruct (Hleft w Hw) as [_ [[Hw0 _]|[-> _]]]; [by apply Hlv|]. change (c_output_level _) with (pass_output config lvl). lia.
  - intros w Hw. destruct (Hleft w Hw) as [_ [[Hw0 _]|[_ (j & En)]]].
    + destruct (Hnum w Hw0) as [|(i' & j & ? & ?)]; [by left|right]. exists i', j. split; [lia|done].
    + right. exists i, j. split; [lia|done].
  - intros g Hg. apply Hrest. by right.
  - intros E0. destruct (Hold E0) as [Hs Hall]. apply StronglySorted_inv in Hs as [Hs _]. split; [done|]. intros g Hg.
    destruct (Hleft g (in_all _ _ _ Hg)) as [_ [[Hg0 Hni]|[Hl _]]].
    + pose proof (vo_filed _ _ Hv' _ _ Hg) as El. assert (g ∈ files_at v 0) as Hg1 by (rewrite <- El; by apply in_level; [apply Hv|]).
      apply Hall, elem_of_cons in Hg1 as [-> |]; [|done]. exfalso. apply Hni. unfold all_inputs. simpl. by left.
    + exfalso. pose proof (vo_filed _ _ Hv' _ _ Hg) as El. rewrite El in Hl. change (c_output_level _) with (pass_output config lvl) in Hl. unfold pass_output, bottom in Hl. rewrite E0 in Hl.
      destruct (Z.eqb_spec 0 (last_level config)); lia.
Qed.

Lemma pass_runs rest : forall i v store, pass_inv i rest v store -> pass_sizes reader_for config r lvl clock full outputs target i rest (v, store) ->
  exists v' store', level_pass reader_for config r lvl clock full outputs target i rest (v, store) = Value (v', store') /\
    version_ok (store_content store') v' /\ same_answers store v store' v' /\ forall k, truncated v' k = truncated v k.
Proof.
  induction rest as [|f rest IH]; intros i v store Hinv Hsz; cbn [level_pass pass_sizes fst snd] in *; [exists v, store; split_and!; [done|apply Hinv|done|done]|].
  destruct (up_to_date config r lvl target (clock i) f || negb (still_there lvl v f)) eqn:Es.
  - apply IH; [by eapply inv_skip|done].
  - apply orb_false_iff in Es as [_ Es]. apply negb_false_iff in Es. destruct Hsz as [Hsize Hnext].
    destruct (inv_run i f rest v store Hinv Es Hsize) as (v1 & store1 & E1 & Hinv1 & Hsame1 & Htr1). rewrite E1 in Hnext |- *. cbn [result_bind].
    destruct (IH (S i) v1 store1 Hinv1 Hnext) as (v2 & store2 & E2 & Hv2 & Hsame2 & Htr2). exists v2, store2. split; [done|]. split; [done|]. split.
    + intros k Hk. rewrite Hsame2 by (by rewrite Htr1). by apply Hsame1.
    + intros k. by rewrite Htr2, Htr1.
Qed.
End Whole.

(** ** Properties *)

Lemma pass_order v content : version_ok content v -> StronglySorted (fun a b => file_number a < file_number b) (reverse (files_at v 0)).
Proof.
  intros Hv. pose proof (vo_ordered _ _ Hv 0) as Hs. pose proof (vo_numbers _ _ Hv 0) as Hn. change (level_order 0) with newer_first in Hs.
  induction (files_at v 0) as [|f l IH]; [constructor|]. apply StronglySorted_inv in Hs as [Hs Hf]. apply NoDup_cons in Hn as [Hnot Hn]. rewrite reverse_cons. rewrite Forall_forall in Hf.
  apply StronglySorted_app_2; [|by apply IH|repeat constructor]. intros a b Ha ->%list_elem_of_singleton. rewrite elem_of_reverse in Ha. specialize (Hf a Ha). unfold newer_first in Hf.
  assert (file_number a <> file_number f); [|lia]. intros E. apply Hnot. rewrite <- E. by apply list_elem_of_fmap_2.
Qed.

(** C31: [compact_level] changes no answer, on a store without empty keys ([starts_nonempty]) whose files all lie on
    configured levels. With more than one level configured, on a well-formed version, a pass over any level, level 0 oldest
    file first, the last level in place, runs to its end, leaves a well-formed version, and [get] answers every key as
    before, whatever the memtables hold and whatever the clock reads between two files. The writes answer numbers that are
    new and distinct, and no merge has 2^64 entries. *)
Theorem compact_level_preserves_reads {R} (ops : SstReaderOps R) (reader_for : Store -> FileMetadata -> Result R) config r lvl clock full outputs v store :
  version_ok (store_content store) v -> starts_nonempty v -> (forall g, g ∈ all_files v -> level g <= last_level config) ->
  0 <= lvl <= last_level config -> 0 < last_level config ->
  (forall st f, exists rd, reader_for st f = Value rd /\ SstReaderLaws ops rd (store_content st f)) ->
  (forall i j i' j', wr_number (outputs i j) = wr_number (outputs i' j') -> i = i' /\ j = j') ->
  (forall i j g, g ∈ all_files v -> wr_number (outputs i j) <> file_number g) ->
  (forall target, config !! Z.to_nat (pass_output config lvl) = Some target ->
     pass_sizes reader_for config r lvl clock full outputs target 0 (if lvl =? 0 then reverse (files_at v lvl) else files_at v lvl) (v, store)) ->
  exists v' store', compact_level reader_for config r lvl clock full outputs Ok (v, store) = Value (v', store') /\ version_ok (store_content store') v' /\
    forall ss ms k, Forall2 models ss ms -> db_get (reader_for store') false ss v' k = db_get (reader_for store) false ss v k.
Proof.
  intros Hv Hst Hlv Hl Hdeep Hread Hdis Hnew Hsz. unfold compact_level. destruct (Z.ltb_spec lvl 0); [lia|]. destruct (Z.ltb_spec (last_level config) lvl); [lia|]. cbn [orb].
  destruct (lookup_lt_is_Some_2 config (Z.to_nat (pass_output config lvl))) as [target Et]; [unfold pass_output, bottom, last_level in *; destruct (Z.eqb_spec lvl (Z.of_nat (length config) - 1)); lia|]. rewrite Et. cbn [fst].
  destruct (pass_runs reader_for config r lvl clock full outputs target v Hl Hdeep Hread Hdis Hnew (vo_unique _ _ Hv) (if lvl =? 0 then reverse (files_at v lvl) else files_at v lvl) 0%nat v store) as (v' & store' & E & Hv' & Hsame & Htr); [|exact (Hsz target Et)|].
  - constructor; [done|done|done|by left| |].
    + intros f Hf. apply (in_all v lvl). destruct (lvl =? 0); [by apply elem_of_reverse|done].
    + intros ->. rewrite Z.eqb_refl. split; [by eapply pass_order|]. intros g Hg. by apply elem_of_reverse.
  - exists v', store'. split; [done|]. split; [done|]. intros ss ms k Hm.
    assert (readable (store_content store') (reader_for store') v' /\ readable (store_content store) (reader_for store) v) as [Hr' Hr] by (split; intros g _; apply Hread).
    rewrite (db_get_spec (store_content store') (reader_for store') ss ms), (db_get_spec (store_content store) (reader_for store) ss ms) by done.
    rewrite Htr. destruct (truncated v k) eqn:Ek; [done|]. destruct (mem_verdicts ms k); [done|]. by apply Hsame.
Qed.

Module PassExamples.
Definition only_level : list ResolvedLevel :=
  [ {| rl_level := 0; rl_compression := NoCompression; rl_max_bytes := None; rl_max_files := Some 4; rl_slowdown_at := None; rl_stop_at := None; rl_target_file_bytes := 100 |} ].
Definition two_levels : list ResolvedLevel :=
  only_level ++ [ {| rl_level := 1; rl_compression := NoCompression; rl_max_bytes := None; rl_max_files := None; rl_slowdown_at := None; rl_stop_at := None; rl_target_file_bytes := 100 |} ].

Definition one_tier : ResolvedTiers :=
  {| rt_tiers := [ {| t_store := Some (Authority [x73]); t_durability := Durable; t_max_age := None; t_max_bytes := None; t_stall_age := None |} ];
     rt_stores := {[ [x73] := Authority [x73] ]}; rt_age_jitter := Finite 0 0 |}.

(** File 1 holds a put of [k] and a delete of [m], file 2, newer, another put of [k]. *)
Definition content_1 : Sst := {| entries := [([x6b], (Put, [x31])); ([x6d], (Delete, []))]; ranges := [] |}.
Definition content_2 : Sst := {| entries := [([x6b], (Put, [x32]))]; ranges := [] |}.
Definition both : Store := fun n => if n =? 1 then content_1 else content_2.

Definition level_zero_file (number tombstones entries_ : Z) (largest : byte) : FileMetadata :=
  {| level := 0; file_number := number; store_id := [x73]; smallest_key := [x6b]; largest_key := [largest]; file_bytes := 10; num_entries := entries_;
     num_tombstones := tombstones; num_range_tombstones := 0; smallest_range_key := []; largest_range_key := []; compression := NoCompression;
     min_write_time_ms := 1; max_write_time_ms := 1; watermark := no_watermark; encryption_provider := []; encryption_metadata := [] |}.

Definition two_files : Version := make_version [[level_zero_file 2 0 1 x6b; level_zero_file 1 1 2 x6d]] 3 ∅ [] None.

Definition fetched (store : Store) (f : FileMetadata) : Result Sst := Value (store_content store f).
Definition pass_outputs (i j : nat) : Written :=
  {| wr_number := 10 + Z.of_nat (encode_nat (i, j)); wr_store := [x73]; wr_bytes := 10; wr_provider := []; wr_metadata := [] |}.

Definition run_pass (config : list ResolvedLevel) : Result (Version * Store) :=
  compact_level fetched config one_tier 0 (fun _ => 100) (fun _ => false) pass_outputs Ok (two_files, both).
Definition read_k (st : Version * Store) : Result bytes := db_get (fetched st.2) false [] st.1 [x6b].
End PassExamples.
Import PassExamples.

(** With a single configured level [compact_level] reverts a write. Level 0 is then the last level too: the
    older of two files is rewritten in place under a new, higher number because it holds a delete, the newer is
    left as up to date, and the older value answers from then on. With two levels the same call keeps the
    answer. *)
Theorem single_level_pass_reverts_write :
  read_k (two_files, both) = Value [x32] /\ (let? st := run_pass only_level in read_k st) = Value [x31] /\ (let? st := run_pass two_levels in read_k st) = Value [x32].
Proof. by vm_compute. Qed.

Lemma two_files_at lvl : files_at two_files lvl = if lvl =? 0 then [level_zero_file 2 0 1 x6b; level_zero_file 1 1 2 x6d] else [].
Proof.
  unfold files_at. change (num_levels two_files) with 1. destruct (Z.eqb_spec lvl 0) as [-> |]; [done|]. destruct (Z.ltb_spec lvl 0); [done|]. destruct (Z.leb_spec 1 lvl); [done|lia].
Qed.

Lemma two_files_ok : version_ok (store_content both) two_files.
Proof.
  assert (forall lvl f, f ∈ files_at two_files lvl -> lvl = 0 /\ (f = level_zero_file 2 0 1 x6b \/ f = level_zero_file 1 1 2 x6d)) as Hin.
  { intros lvl f. rewrite two_files_at. destruct (Z.eqb_spec lvl 0); [|by intros ?%elem_of_nil]. rewrite elem_of_cons, list_elem_of_singleton. done. }
  assert (forall f, f ∈ all_files two_files -> f = level_zero_file 2 0 1 x6b \/ f = level_zero_file 1 1 2 x6d) as Hall by (by intros f (lvl & [_ ?]%Hin)%elem_of_all_files). split.
  - by intros lvl f [-> [-> | ->]]%Hin.
  - intros lvl. rewrite two_files_at. destruct (Z.eqb_spec lvl 0) as [-> |]; [|constructor]. repeat constructor; unfold level_order, newer_first; simpl; lia.
  - intros f [-> | ->]%Hall.
    + split; simpl; try done; try (by intros kv [= <-]); [apply SSorted_cons; constructor|split; constructor| |by left]. by intros _ kv ->%list_elem_of_singleton.
    + split; simpl; try done; try (by intros kv [= <-]); [|split; constructor|by left]. apply SSorted_cons; [apply SSorted_cons; constructor|]. apply Forall_cons_2; [by vm_compute|constructor].
  - intros lvl a b Hl [-> _]%Hin. lia.
  - intros lvl. rewrite two_files_at. destruct (lvl =? 0); [apply (bool_decide_eq_true_1 _); by vm_compute|constructor].
  - intros f g [-> | ->]%Hall [-> | ->]%Hall; done.
  - intros lvl. apply carries_ranges_make.
Qed.

Lemma compact_level_preserves_reads_witness : exists v' store', run_pass two_levels = Value (v', store') /\ version_ok (store_content store') v' /\
  forall ss ms k, Forall2 models ss ms -> db_get (fetched store') false ss v' k = db_get (fetched both) false ss two_files k.
Proof.
  apply (compact_level_preserves_reads sst_content_reader fetched two_levels one_tier 0 (fun _ => 100) (fun _ => false) pass_outputs two_files both two_files_ok).
  - intros f Hf. change (f ∈ [level_zero_file 2 0 1 x6b; level_zero_file 1 1 2 x6d]) in Hf. apply elem_of_cons in Hf as [-> |Hf]; [done|]. by apply list_elem_of_singleton in Hf as ->.
  - intros f Hf. change (f ∈ [level_zero_file 2 0 1 x6b; level_zero_file 1 1 2 x6d]) in Hf. apply elem_of_cons in Hf as [-> |Hf]; [by vm_compute|]. apply list_elem_of_singleton in Hf as ->. by vm_compute.
  - by vm_compute.
  - by vm_compute.
  - intros st f. exists (store_content st f). split; [done|apply _].
  - intros i j i' j' E. unfold pass_outputs in E. cbn [wr_number] in E. assert ((i, j) = (i', j')) as E' by (apply (inj encode_nat); lia). by injection E'.
  - intros i j g Hg. change (g ∈ [level_zero_file 2 0 1 x6b; level_zero_file 1 1 2 x6d]) in Hg. unfold pass_outputs. cbn [wr_number]. apply elem_of_cons in Hg as [-> |Hg]; [simpl; lia|]. apply list_elem_of_singleton in Hg as ->. simpl. lia.
  - intros target Et. injection Et as <-. vm_compute. tauto.
Defined.
