(* ===== verification/Positions.v ===== *)
(** * Positions survive: the watermark protocol

    What [set_watermark], the intervals of memtables and files, and the recovery at open promise an embedder
    that replays its own log: nothing at or below the recovered position is lost. The engine is seen through
    its watermarks: an interval for each memtable ([DbImpl::new_memtable], [set_watermark]), the interval
    each file inherits (flush, compaction, migration), the floor a discard records and the position
    adopted at open ([Open]). Which log positions a memtable or a file holds is a ghost: the engine never
    sees it. *)

From S2P Require Import Prelude Slice Format Framing Crypto Names ManifestPayload Watermark VersionEdit Version Catalog VersionSet VersionSetProofs Picker Open.

(** ** State *)

(** The memtable in use, the one being flushed, and the log positions each of them holds. *)
Record Engine := {
  g_version : Version;
  g_content : Z -> list Z;          (* by file number *)
  g_settled : list Z;               (* positions whose files were dropped as dead *)
  g_mem : WatermarkInterval;
  g_mem_writes : list Z;
  g_imm : option (WatermarkInterval * list Z);
  g_established : option Z;
  g_recovered : option Z
}.

(** [new_memtable]: the interval starts at what is established. *)
Definition seeded (established : option Z) : WatermarkInterval :=
  match established with Some e => {| low := Some e; high := Some e |} | None => no_watermark end.

(** [set_watermark] on the interval of the memtable in use. *)
Definition established_at (mem : WatermarkInterval) (writes : list Z) (pos : Z) : WatermarkInterval :=
  if bool_decide (writes = []) then {| low := Some pos; high := Some pos |} else {| low := low mem; high := Some pos |}.

Definition covered (v : Version) (content : Z -> list Z) (settled : list Z) (p : Z) : Prop :=
  p ∈ settled \/ exists lvl f, f ∈ files_at v lvl /\ p ∈ content (file_number f).

Definition imm_writes (imm : option (WatermarkInterval * list Z)) : list Z := match imm with Some i => i.2 | None => [] end.

Definition present (s : Engine) (p : Z) : Prop :=
  covered (g_version s) (g_content s) (g_settled s) p \/ p ∈ g_mem_writes s \/ p ∈ imm_writes (g_imm s).

Definition above (bound : option Z) (p : Z) : Prop := forall b, bound = Some b -> b < p.

(** The stores lost at once, one edit each. *)
Fixpoint discard_all (ids : list bytes) (v : Version) (r : RecoveryWatermark) : Version * RecoveryWatermark :=
  match ids with
  | [] => (v, r)
  | id :: rest => let r' := observe_loss r (lost_files v id) in discard_all rest (apply v (discard_edit v id r')) r'
  end.

(** An edit of maintenance: [gone] are deleted, [made] added; everything else stays. *)
Definition rewrite_edit (gone made : list FileMetadata) : VersionEdit :=
  {| next_file_number := 0; added := made; deleted := map (fun f => {| ref_level := level f; ref_number := file_number f |}) gone;
     compaction_pointers := []; truncation_point := []; floor_update := Silent; watermark_floor := {| position := None |} |}.

Definition with_file (content : Z -> list Z) (n : Z) (ps : list Z) : Z -> list Z := fun k => if k =? n then ps else content k.

Section Log.
(** The embedder's log. *)
Context (log : Z -> Prop).

(** The premises on the right are the embedder's half of the contract: a write after [set_watermark(M)] is
    at a position above [M]; [set_watermark(M)] comes after everything in the log up to [M], from the
    position it was told to resume after, was written; a replay is declared complete once the files
    hold all of the log up to every position they name. *)
Inductive step : Engine -> Engine -> Prop :=
  | step_write s p : log p -> above (g_established s) p ->
      step s {| g_version := g_version s; g_content := g_content s; g_settled := g_settled s; g_mem := g_mem s;
                g_mem_writes := p :: g_mem_writes s; g_imm := g_imm s; g_established := g_established s; g_recovered := g_recovered s |}
  | step_set_watermark s pos : (forall e, g_established s = Some e -> e <= pos) ->
      (forall p, log p -> p <= pos -> above (g_recovered s) p -> present s p) ->
      step s {| g_version := g_version s; g_content := g_content s; g_settled := g_settled s;
                g_mem := established_at (g_mem s) (g_mem_writes s) pos; g_mem_writes := g_mem_writes s; g_imm := g_imm s;
                g_established := Some pos; g_recovered := g_recovered s |}
  | step_seal s : g_imm s = None ->
      step s {| g_version := g_version s; g_content := g_content s; g_settled := g_settled s; g_mem := seeded (g_established s);
                g_mem_writes := []; g_imm := Some (g_mem s, g_mem_writes s); g_established := g_established s; g_recovered := g_recovered s |}
  | step_flush s f w ps : g_imm s = Some (w, ps) -> watermark f = w -> 0 <= level f ->
      (forall lvl g, g ∈ files_at (g_version s) lvl -> file_number g <> file_number f) ->
      step s {| g_version := apply (g_version s) (rewrite_edit [] [f]); g_content := with_file (g_content s) (file_number f) ps;
                g_settled := g_settled s; g_mem := g_mem s; g_mem_writes := g_mem_writes s; g_imm := None;
                g_established := g_established s; g_recovered := g_recovered s |}
  | step_rewrite s gone made content settled :
      (forall f, f ∈ gone -> f ∈ files_at (g_version s) (level f)) -> (forall f, f ∈ made -> 0 <= level f) ->
      (forall f, f ∈ made -> watermark f = merge_watermarks (watermark <$> gone)) ->
      (forall lvl g, g ∈ files_at (g_version s) lvl -> deletes (deleted (rewrite_edit gone made)) (Z.to_nat lvl) g = false ->
         content (file_number g) = g_content s (file_number g) /\ forall f, f ∈ made -> file_number f <> file_number g) ->
      (forall f p, f ∈ made -> p ∈ content (file_number f) -> exists g, g ∈ gone /\ p ∈ g_content s (file_number g)) ->
      (forall p, p ∈ g_settled s -> p ∈ settled) ->
      (forall g p, g ∈ gone -> p ∈ g_content s (file_number g) -> p ∈ settled \/ exists f, f ∈ made /\ p ∈ content (file_number f)) ->
      step s {| g_version := apply (g_version s) (rewrite_edit gone made); g_content := content; g_settled := settled; g_mem := g_mem s;
                g_mem_writes := g_mem_writes s; g_imm := g_imm s; g_established := g_established s; g_recovered := g_recovered s |}
  | step_reopen s ids v r : discard_all ids (g_version s) recovery_start = (v, r) ->
      let recovered := adopt_recovered_watermark r v in
      step s {| g_version := v; g_content := g_content s; g_settled := g_settled s; g_mem := seeded recovered; g_mem_writes := [];
                g_imm := None; g_established := recovered; g_recovered := recovered |}
  | step_recovery_complete s :
      (forall lvl f h p, f ∈ files_at (g_version s) lvl -> high (watermark f) = Some h -> log p -> p <= h ->
         covered (g_version s) (g_content s) (g_settled s) p) ->
      step s {| g_version := apply (g_version s) clear_edit; g_content := g_content s; g_settled := g_settled s; g_mem := g_mem s;
                g_mem_writes := g_mem_writes s; g_imm := g_imm s; g_established := g_established s; g_recovered := g_recovered s |}.

Definition fresh_engine : Engine :=
  {| g_version := empty_version; g_content := fun _ => []; g_settled := []; g_mem := no_watermark; g_mem_writes := []; g_imm := None;
     g_established := None; g_recovered := None |}.

Definition reachable : Engine -> Prop := rtc step fresh_engine.

(** ** The invariant *)

(** Every position held is above the interval's lower bound, which is below its upper bound. *)
Definition interval_ok (w : WatermarkInterval) (ps : list Z) : Prop := wm_ok w /\ forall l p, low w = Some l -> p ∈ ps -> l < p.

Record engine_inv (s : Engine) : Prop := {
  ei_filed : filed (g_version s);
  ei_files : forall lvl f, f ∈ files_at (g_version s) lvl -> interval_ok (watermark f) (g_content s (file_number f));
  ei_mem : interval_ok (g_mem s) (g_mem_writes s);
  ei_mem_low : forall l, low (g_mem s) = Some l -> exists e, g_established s = Some e /\ l <= e;
  ei_mem_high : forall h, high (g_mem s) = Some h -> exists e, g_established s = Some e /\ h <= e;
  ei_imm : forall w ps, g_imm s = Some (w, ps) -> interval_ok w ps;
  ei_imm_high : forall w ps h p, g_imm s = Some (w, ps) -> high w = Some h -> log p -> p <= h ->
    covered (g_version s) (g_content s) (g_settled s) p \/ p ∈ ps;
  ei_highs : watermark_floor_ (g_version s) = None -> forall lvl f h p, f ∈ files_at (g_version s) lvl -> high (watermark f) = Some h -> log p -> p <= h ->
    covered (g_version s) (g_content s) (g_settled s) p;
  ei_floor : forall b p, watermark_floor_ (g_version s) = Some {| position := Some b |} -> log p -> p <= b ->
    covered (g_version s) (g_content s) (g_settled s) p;
  ei_recovered : forall r p, g_recovered s = Some r -> log p -> p <= r -> covered (g_version s) (g_content s) (g_settled s) p;
  ei_established : forall e p, g_established s = Some e -> log p -> p <= e -> present s p
}.

(** ** Lemmas *)

Lemma merge_watermarks_ok ws : Forall wm_ok ws -> wm_ok (merge_watermarks ws).
Proof.
  destruct ws as [|w ws]; [by intros _ l [=]|]. intros [Hw Hws]%Forall_cons. simpl. revert w Hw. induction Hws as [|x ws Hx Hws IH]; intros w Hw; simpl; [done|].
  apply IH. by apply merge_ok.
Qed.

Lemma fold_merge_low ws : forall w l, low (fold_left merge ws w) = Some l -> (exists l0, low w = Some l0 /\ l <= l0) /\ forall x, x ∈ ws -> exists l0, low x = Some l0 /\ l <= l0.
Proof.
  induction ws as [|x ws IH]; intros w l; simpl.
  - intros E. split; [exists l; split; [done|lia]|]. by intros ? ?%elem_of_nil.
  - intros [(l0 & E0 & Hl) Hws]%IH. unfold merge in E0. simpl in E0. destruct (low x) as [lx|] eqn:Ex; [|done]. destruct (low w) as [lw|] eqn:Ew; [|done].
    injection E0 as <-. split; [exists lw; split; [done|lia]|]. intros y [->|Hy]%elem_of_cons; [exists lx; split; [done|lia]|by apply Hws].
Qed.

Lemma merge_watermarks_low ws l : low (merge_watermarks ws) = Some l -> forall w, w ∈ ws -> exists l0, low w = Some l0 /\ l <= l0.
Proof.
  destruct ws as [|w ws]; [done|]. simpl. intros [H1 H2]%fold_merge_low x [->|Hx]%elem_of_cons; [done|by apply H2].
Qed.

Lemma merge_watermarks_high ws h : high (merge_watermarks ws) = Some h -> exists w, w ∈ ws /\ high w = Some h.
Proof.
  destruct ws as [|w ws]; [done|]. simpl. revert w. induction ws as [|x ws IH]; intros w; simpl.
  - intros E. exists w. split; [apply elem_of_cons; by left|done].
  - intros (y & [->|Hy]%elem_of_cons & E)%IH.
    + rewrite merge_high in E. unfold accumulate_max in E. destruct (high x) as [hx|] eqn:Ex; [|exists w; split; [apply elem_of_cons; by left|done]].
      destruct (high w) as [hw|] eqn:Ew.
      * injection E as <-. destruct (Z.max_spec hw hx) as [[_ ->]|[_ ->]]; [exists x|exists w]; (split; [set_solver|done]).
      * exists x. split; [set_solver|congruence].
    + exists y. split; [set_solver|done].
Qed.

Lemma observe_loss_all r files : observe_loss r files = observe_all observe_discarded (watermark <$> files) r.
Proof. unfold observe_loss, observe_all. revert r. induction files as [|f files IH]; intros r; simpl; [done|]. apply IH. Qed.

Lemma survivors_all r files : fold_left (fun r f => observe_survivor r (watermark f)) files r = observe_all observe_survivor (watermark <$> files) r.
Proof. unfold observe_all. revert r. induction files as [|f files IH]; intros r; simpl; [done|]. apply IH. Qed.

Lemma deletes_refs gone n g : deletes (map (fun f => {| ref_level := level f; ref_number := file_number f |}) gone) n g = true <->
  exists f, f ∈ gone /\ level f = Z.of_nat n /\ file_number f = file_number g.
Proof.
  unfold deletes. rewrite existsb_elem. unfold is_ref. split.
  - intros (r & Hr & E). apply list_elem_of_fmap in Hr as (f & -> & Hf). simpl in E. zbool. exists f. by split_and!.
  - intros (f & Hf & E1 & E2). exists {| ref_level := level f; ref_number := file_number f |}. split; [apply list_elem_of_fmap; by exists f|]. simpl.
    rewrite E1, E2, !Z.eqb_refl. done.
Qed.

(** What is covered stays covered where every file stays or hands its positions on. *)
Lemma covered_mono v content settled v' content' settled' p :
  covered v content settled p -> (forall q, q ∈ settled -> q ∈ settled') ->
  (forall lvl f, f ∈ files_at v lvl -> p ∈ content (file_number f) -> covered v' content' settled' p) -> covered v' content' settled' p.
Proof. intros [Hp|(lvl & f & Hf & Hp)] Hs Hm; [left; by apply Hs|by eapply Hm]. Qed.

(** ** A loss, and the floor it records *)

Section Loss.
Context (content : Z -> list Z) (settled : list Z).

Definition files_ok (v : Version) : Prop := forall lvl f, f ∈ files_at v lvl -> interval_ok (watermark f) (content (file_number f)).
Definition highs_ok (v : Version) : Prop := forall lvl f h p, f ∈ files_at v lvl -> high (watermark f) = Some h -> log p -> p <= h -> covered v content settled p.
Definition floor_ok (v : Version) : Prop := forall b p, watermark_floor_ v = Some {| position := Some b |} -> log p -> p <= b -> covered v content settled p.

Definition loss_ok (v : Version) (r : RecoveryWatermark) : Prop :=
  filed v /\ files_ok v /\ floor_ok v /\ (watermark_floor_ v = None -> highs_ok v /\ r = recovery_start).

Lemma elem_of_lost v id f : f ∈ lost_files v id <-> exists lvl, f ∈ files_at v lvl /\ on_store id f = true.
Proof.
  unfold lost_files. rewrite elem_of_filter_bool, elem_of_all_files. split; [intros [[lvl H] Ho]; by exists lvl|intros (lvl & H & Ho); split; [by exists lvl|done]].
Qed.

Lemma recorded_floor_bound v r b : position (recorded_floor v r) = Some b ->
  exists x, discarded_lower_bound r = Some x /\ b <= x /\
    match watermark_floor_ v with None => b = x | Some w => exists b0, w = {| position := Some b0 |} /\ b <= b0 end.
Proof.
  unfold recorded_floor, lower_to. destruct (watermark_floor_ v) as [[[b0|]]|]; simpl; [| |].
  - destruct (discarded_lower_bound r) as [x|]; [|done]. destruct (Z.ltb_spec x b0); intros [= <-]; (eexists; split; [done|]; split; [lia|]; eexists; split; [done|lia]).
  - done.
  - destruct (discarded_lower_bound r) as [x|]; [|done]. rewrite Z.ltb_irrefl. simpl. intros [= <-]. exists x. split; [done|]. split; [lia|done].
Qed.

Lemma discard_one v id r : loss_ok v r ->
  let r' := observe_loss r (lost_files v id) in
  let v' := apply v (discard_edit v id r') in
  loss_ok v' r' /\ watermark_floor_ v' <> None.
Proof.
  intros (Hfiled & Hfiles & Hfloor & Hnone). cbv zeta. set (r' := observe_loss r (lost_files v id)). set (v' := apply v (discard_edit v id r')).
  assert (watermark_floor_ v' = Some (recorded_floor v r')) as Efl by done. split; [|by rewrite Efl].
  assert (forall lvl f, f ∈ files_at v' lvl -> f ∈ files_at v lvl) as Hsub by (intros lvl f [[H _]|(H & _)]%elem_of_apply; [done|by apply elem_of_nil in H]).
  split; [by apply apply_filed|]. split; [intros lvl f Hf; by eapply Hfiles, Hsub|]. split; [|by rewrite Efl].
  intros b p E Hlog Hp. rewrite Efl in E. injection E as E. destruct (recorded_floor_bound v r' b) as (x & Ex & Hbx & Hcase); [by rewrite E|].
  unfold r' in Ex. rewrite observe_loss_all in Ex. destruct (observe_discarded_bound _ _ _ Ex) as (_ & _ & Hlow).
  assert (forall f, f ∈ lost_files v id -> exists l, low (watermark f) = Some l /\ x <= l) as Hlow'.
  { intros f Hf. apply Hlow, list_elem_of_fmap. by exists f. }
  assert (covered v content settled p) as Hcov.
  { destruct (watermark_floor_ v) as [w|] eqn:Efv.
    - destruct Hcase as (b0 & -> & Hb0). eapply Hfloor; [done|done|lia].
    - destruct (Hnone eq_refl) as [Hhighs Er]. destruct (lost_files v id) as [|f0 lost] eqn:El; [by rewrite Er in Ex|].
      destruct (Hlow' f0) as (l & El0 & Hl); [set_solver|]. assert (f0 ∈ lost_files v id) as Hf0 by (rewrite El; set_solver).
      apply elem_of_lost in Hf0 as (lvl & Hf0 & _). destruct (Hfiles lvl f0 Hf0) as [Hok _]. destruct (Hok l El0) as (h & Eh & Hlh).
      eapply Hhighs; [done|done|done|lia]. }
  eapply covered_mono; [exact Hcov|done|]. intros lvl f Hf Hpf. right. exists lvl, f. split; [|done]. apply elem_of_apply. left. split; [done|].
  destruct (deletes _ _ f) eqn:Ed; [|done]. apply deletes_refs in Ed as (f' & Hf' & El' & En'). exfalso.
  destruct (Hlow' f' Hf') as (l & El & Hl). apply elem_of_lost in Hf' as (lvl' & Hin & _). destruct (Hfiles lvl' f' Hin) as [_ Hpos].
  rewrite <- En' in Hpf. specialize (Hpos l p El Hpf). lia.
Qed.

Lemma discard_all_ok ids : forall v r, loss_ok v r -> loss_ok (discard_all ids v r).1 (discard_all ids v r).2.
Proof. induction ids as [|id ids IH]; intros v r H; [done|]. cbn [discard_all]. apply IH. by apply discard_one. Qed.

(** The position adopted certifies what is there. *)
Lemma adopted_covered v r q p : loss_ok v r -> adopt_recovered_watermark r v = Some q -> log p -> p <= q -> covered v content settled p.
Proof.
  intros (Hfiled & Hfiles & Hfloor & Hnone) E Hlog Hp. unfold adopt_recovered_watermark in E. rewrite survivors_all in E.
  destruct (watermark_floor_ v) as [[[b|]]|] eqn:Efl; simpl in E.
  - eapply Hfloor; [done|done|]. destruct (resume_after _); simplify_eq; lia.
  - done.
  - destruct (Hnone eq_refl) as [Hhighs ->]. destruct (observe_survivors_fields (watermark <$> all_files v) recovery_start) as (H1 & _ & H3).
    unfold resume_after in E. rewrite H1 in E. simpl in E. specialize (H3 p). destruct H3 as [H3 _].
    destruct H3 as [(b & Eb & _)|(w & Hw & h & Eh & Hh)]; [by exists q|done|].
    apply list_elem_of_fmap in Hw as (f & -> & Hf). apply elem_of_all_files in Hf as [lvl Hf]. by eapply Hhighs.
Qed.
End Loss.

(** ** Every step keeps the invariant *)

Ltac keep H :=
  try first [exact (ei_filed _ H)|exact (ei_files _ H)|exact (ei_mem _ H)|exact (ei_mem_low _ H)|exact (ei_mem_high _ H)|exact (ei_imm _ H)
            |exact (ei_imm_high _ H)|exact (ei_highs _ H)|exact (ei_floor _ H)|exact (ei_recovered _ H)|exact (ei_established _ H)].

Lemma seeded_ok o : interval_ok (seeded o) [].
Proof. split; [destruct o; simpl; [intros l [= <-]; eexists; split; [done|lia]|by intros l]|]. by intros l p _ ?%elem_of_nil. Qed.

Lemma rewrite_edit_files v gone made lvl f : f ∈ files_at (apply v (rewrite_edit gone made)) lvl <->
  (f ∈ files_at v lvl /\ deletes (deleted (rewrite_edit gone made)) (Z.to_nat lvl) f = false) \/ (f ∈ made /\ level f = lvl /\ 0 <= lvl).
Proof. apply elem_of_apply. Qed.

(** A step of maintenance, as far as the files go. *)
Lemma rewrite_keeps s gone made content settled v' :
  engine_inv s -> v' = apply (g_version s) (rewrite_edit gone made) ->
  (forall f, f ∈ gone -> f ∈ files_at (g_version s) (level f)) -> (forall f, f ∈ made -> 0 <= level f) ->
  (forall lvl g, g ∈ files_at (g_version s) lvl -> deletes (deleted (rewrite_edit gone made)) (Z.to_nat lvl) g = false ->
     content (file_number g) = g_content s (file_number g)) ->
  (forall f, f ∈ made -> interval_ok (watermark f) (content (file_number f))) ->
  (forall f h p, f ∈ made -> watermark_floor_ (g_version s) = None -> high (watermark f) = Some h -> log p -> p <= h -> covered v' content settled p) ->
  (forall p, p ∈ g_settled s -> p ∈ settled) ->
  (forall g p, g ∈ gone -> p ∈ g_content s (file_number g) -> p ∈ settled \/ exists f, f ∈ made /\ p ∈ content (file_number f)) ->
  filed v' /\ files_ok content v' /\ floor_ok content settled v' /\
  (watermark_floor_ v' = None -> highs_ok content settled v') /\
  (forall p, covered (g_version s) (g_content s) (g_settled s) p -> covered v' content settled p).
Proof.
  intros Hinv -> Hgone Hlevel Hkeep Hmade Hhigh Hset Hpass.
  assert (forall p, covered (g_version s) (g_content s) (g_settled s) p -> covered (apply (g_version s) (rewrite_edit gone made)) content settled p) as Hmono.
  { intros p Hp. eapply covered_mono; [exact Hp|done|]. intros lvl f Hf Hpf. destruct (deletes (deleted (rewrite_edit gone made)) (Z.to_nat lvl) f) eqn:Ed.
    - apply deletes_refs in Ed as (g & Hg & _ & En). rewrite <- En in Hpf. destruct (Hpass g p Hg Hpf) as [|(f' & Hf' & Hp')]; [by left|right].
      exists (level f'), f'. split; [|done]. apply rewrite_edit_files. right. split_and!; [done|done|by apply Hlevel].
    - right. exists lvl, f. split; [apply rewrite_edit_files; by left|]. by rewrite (Hkeep lvl f Hf Ed). }
  split_and!.
  - apply apply_filed, (ei_filed _ Hinv).
  - intros lvl f [[Hf Hd]|(Hf & _)]%rewrite_edit_files; [|by apply Hmade]. rewrite (Hkeep lvl f Hf Hd). by apply (ei_files _ Hinv lvl).
  - intros b p E Hlog Hp. apply Hmono. by eapply (ei_floor _ Hinv).
  - intros Enone lvl f h p Hf Eh Hlog Hp. apply rewrite_edit_files in Hf as [[Hf Hd]|(Hf & _)]; [|by eapply Hhigh]. apply Hmono. by eapply (ei_highs _ Hinv).
  - exact Hmono.
Qed.

(** The rest of the state, when the files keep what was covered. *)
Lemma files_step s v content settled imm :
  engine_inv s -> filed v -> files_ok content v -> floor_ok content settled v -> (watermark_floor_ v = None -> highs_ok content settled v) ->
  (forall p, covered (g_version s) (g_content s) (g_settled s) p -> covered v content settled p) ->
  (imm = g_imm s \/ imm = None /\ forall p, p ∈ imm_writes (g_imm s) -> covered v content settled p) ->
  engine_inv {| g_version := v; g_content := content; g_settled := settled; g_mem := g_mem s; g_mem_writes := g_mem_writes s; g_imm := imm;
                g_established := g_established s; g_recovered := g_recovered s |}.
Proof.
  intros Hinv Hf Hfiles Hfloor Hhighs Hmono Himm. split; simpl; keep Hinv; try done.
  - intros w ps E. destruct Himm as [->|[-> _]]; [by apply (ei_imm _ Hinv)|done].
  - intros w ps h p E Eh Hlog Hp. destruct Himm as [->|[-> _]]; [|done]. destruct (ei_imm_high _ Hinv w ps h p E Eh Hlog Hp) as [H|H]; [left; by apply Hmono|by right].
  - intros r p E Hlog Hp. apply Hmono. by eapply (ei_recovered _ Hinv).
  - intros e p E Hlog Hp. destruct (ei_established _ Hinv e p E Hlog Hp) as [H|[H|H]]; [left; by apply Hmono|right; by left|].
    destruct Himm as [->|[-> Hi]]; [right; by right|left; by apply Hi].
Qed.

Lemma step_inv s s' : step s s' -> engine_inv s -> engine_inv s'.
Proof.
  intros Hstep Hinv. destruct Hstep as [s p Hlog Habove|s pos Hpos Hcons|s Eimm|s f w ps Eimm Ew Hlvl Hfresh|s gone made content settled Hgone Hlevel Hwm Hkeep Hfrom Hset Hpass|s ids v r Ed|s Hall].
  - split; simpl; keep Hinv.
    + destruct (ei_mem _ Hinv) as [H1 H2]. split; [done|]. intros l q El [->|Hq]%elem_of_cons; [|by eapply H2].
      destruct (ei_mem_low _ Hinv l El) as (e & Ee & Hle). specialize (Habove e Ee). lia.
    + intros e q Ee Hl Hq. destruct (ei_established _ Hinv e q Ee Hl Hq) as [H|[H|H]]; [by left|right; left; set_solver|right; by right].
  - assert (forall e, g_established s = Some e -> e <= pos) as Hpos' by done.
    split; simpl; keep Hinv.
    + unfold established_at. destruct (ei_mem _ Hinv) as [H1 H2]. case_bool_decide as Ew.
      * rewrite Ew. apply (seeded_ok (Some pos)).
      * split; simpl; [|done]. intros l El. exists pos. split; [done|]. destruct (ei_mem_low _ Hinv l El) as (e & Ee & Hle). specialize (Hpos e Ee). lia.
    + unfold established_at. intros l El. exists pos. split; [done|]. case_bool_decide; simpl in El; [simplify_eq; lia|].
      destruct (ei_mem_low _ Hinv l El) as (e & Ee & Hle). specialize (Hpos e Ee). lia.
    + unfold established_at. intros h Eh. exists pos. split; [done|]. case_bool_decide; simpl in Eh; simplify_eq; lia.
    + intros e p [= <-] Hlog Hp. assert (above (g_recovered s) p \/ exists r, g_recovered s = Some r /\ p <= r) as [Ha|(r & Er & Hr)].
      { destruct (g_recovered s) as [r|]; [|by left]. destruct (Z.le_gt_cases p r); [right; by exists r|left; intros b [= <-]; lia]. }
      * by apply Hcons.
      * left. by eapply (ei_recovered _ Hinv).
  - split; simpl; keep Hinv.
    + apply seeded_ok.
    + destruct (g_established s) as [e|]; simpl; [|done]. intros l [= <-]. exists e. split; [done|lia].
    + destruct (g_established s) as [e|]; simpl; [|done]. intros h [= <-]. exists e. split; [done|lia].
    + intros w ps [= <- <-]. apply (ei_mem _ Hinv).
    + intros w ps h p [= <- <-] Eh Hlog Hp. destruct (ei_mem_high _ Hinv h Eh) as (e & Ee & Hle).
      destruct (ei_established _ Hinv e p Ee Hlog ltac:(lia)) as [H|[H|H]]; [by left|by right|]. rewrite Eimm in H. by apply elem_of_nil in H.
    + intros e p Ee Hlog Hp. destruct (ei_established _ Hinv e p Ee Hlog Hp) as [H|[H|H]]; [by left|right; by right|]. rewrite Eimm in H. by apply elem_of_nil in H.
  - assert (f ∈ files_at (apply (g_version s) (rewrite_edit [] [f])) (level f)) as Hin by (apply rewrite_edit_files; right; set_solver).
    assert (with_file (g_content s) (file_number f) ps (file_number f) = ps) as Eps by (unfold with_file; by rewrite Z.eqb_refl).
    pose proof (ei_imm _ Hinv w ps Eimm) as Hok.
    destruct (rewrite_keeps s [] [f] (with_file (g_content s) (file_number f) ps) (g_settled s) _ Hinv eq_refl) as (K1 & K2 & K3 & K4 & K5).
    + by intros ? ?%elem_of_nil.
    + by intros ? ->%list_elem_of_singleton.
    + intros lvl g Hg _. unfold with_file. destruct (Z.eqb_spec (file_number g) (file_number f)) as [E|]; [by destruct (Hfresh lvl g Hg)|done].
    + intros f' ->%list_elem_of_singleton. by rewrite Eps, Ew.
    + intros f' h p ->%list_elem_of_singleton _ Eh Hlog Hp. rewrite Ew in Eh.
      destruct (ei_imm_high _ Hinv w ps h p Eimm Eh Hlog Hp) as [[H|(lvl & g & Hg & Hp')]|H]; [by left| |right; exists (level f), f; by rewrite Eps].
      right. exists lvl, g. split; [apply rewrite_edit_files; by left|]. unfold with_file. destruct (Z.eqb_spec (file_number g) (file_number f)) as [E|]; [by destruct (Hfresh lvl g Hg)|done].
    + done.
    + by intros ? ? ?%elem_of_nil.
    + apply files_step; [done..|]. right. split; [done|]. rewrite Eimm. simpl. intros p Hp. right. exists (level f), f. by rewrite Eps.
  - destruct (rewrite_keeps s gone made content settled _ Hinv eq_refl) as (K1 & K2 & K3 & K4 & K5); [done|done|by intros; eapply Hkeep| | |done|done|apply files_step; [done..|by left]].
    + intros f Hf. rewrite (Hwm f Hf). split.
      * apply merge_watermarks_ok. apply Forall_forall. intros w (g & -> & Hg)%list_elem_of_fmap. apply (ei_files _ Hinv (level g) g (Hgone g Hg)).
      * intros l p El Hp. destruct (Hfrom f p Hf Hp) as (g & Hg & Hpg). destruct (merge_watermarks_low _ _ El (watermark g)) as (lg & Elg & Hle); [apply list_elem_of_fmap; by exists g|].
        destruct (ei_files _ Hinv (level g) g (Hgone g Hg)) as [_ Hpos]. specialize (Hpos lg p Elg Hpg). lia.
    + intros f h p Hf Enone Eh Hlog Hp. rewrite (Hwm f Hf) in Eh. destruct (merge_watermarks_high _ _ Eh) as (w & (g & -> & Hg)%list_elem_of_fmap & Ehg).
      assert (covered (g_version s) (g_content s) (g_settled s) p) as Hcov by (eapply (ei_highs _ Hinv Enone (level g)); [by apply Hgone|done|done|done]).
      eapply covered_mono; [exact Hcov|done|]. intros lvl f' Hf' Hpf. destruct (deletes (deleted (rewrite_edit gone made)) (Z.to_nat lvl) f') eqn:Ed.
      * apply deletes_refs in Ed as (g' & Hg' & _ & En). rewrite <- En in Hpf. destruct (Hpass g' p Hg' Hpf) as [|(f'' & Hf'' & Hp'')]; [by left|right].
        exists (level f''), f''. split; [|done]. apply rewrite_edit_files. right. split_and!; [done|done|by apply Hlevel].
      * right. exists lvl, f'. split; [apply rewrite_edit_files; by left|]. by rewrite (proj1 (Hkeep lvl f' Hf' Ed)).
  - assert (loss_ok (g_content s) (g_settled s) (g_version s) recovery_start) as Hloss.
    { split; [exact (ei_filed _ Hinv)|]. split; [exact (ei_files _ Hinv)|]. split; [exact (ei_floor _ Hinv)|]. intros E. split; [exact (ei_highs _ Hinv E)|done]. }
    apply (discard_all_ok _ _ ids) in Hloss. rewrite Ed in Hloss. simpl in Hloss. pose proof Hloss as (L1 & L2 & L3 & L4).
    assert (forall q p, adopt_recovered_watermark r v = Some q -> log p -> p <= q -> covered v (g_content s) (g_settled s) p) as Hcov by (intros; by eapply adopted_covered).
    split; simpl; try done; [apply seeded_ok|..].
    + destruct (adopt_recovered_watermark r v) as [q|]; simpl; [|done]. intros l [= <-]. exists q. split; [done|lia].
    + destruct (adopt_recovered_watermark r v) as [q|]; simpl; [|done]. intros h [= <-]. exists q. split; [done|lia].
    + intros E. by apply L4.
    + intros e p E Hlog Hp. left. by eapply Hcov.
  - assert (forall lvl, files_at (apply (g_version s) clear_edit) lvl = files_at (apply (g_version s) (rewrite_edit [] [])) lvl) as Esame.
    { intros lvl. destruct (Z.lt_ge_cases lvl 0); [by rewrite !files_at_neg|]. by rewrite !apply_level. }
    assert (forall lvl f, f ∈ files_at (apply (g_version s) clear_edit) lvl <-> f ∈ files_at (g_version s) lvl) as Hfiles.
    { intros lvl f. rewrite elem_of_apply. split; [by intros [[H _]|(H%elem_of_nil & _)]|]. intros H. left. by split. }
    assert (forall p, covered (g_version s) (g_content s) (g_settled s) p -> covered (apply (g_version s) clear_edit) (g_content s) (g_settled s) p) as Hmono.
    { intros p [H|(lvl & f & Hf & Hp)]; [by left|right]. exists lvl, f. by rewrite Hfiles. }
    apply files_step; [done|apply apply_filed, (ei_filed _ Hinv)| |done| |done|by left].
    + intros lvl f Hf. apply (ei_files _ Hinv lvl). by apply Hfiles.
    + intros _ lvl f h p Hf Eh Hlog Hp. apply Hmono. eapply Hall; [by apply Hfiles|done|done|done].
Qed.

Lemma reachable_inv s : reachable s -> engine_inv s.
Proof.
  intros H. unfold reachable in H. remember fresh_engine as s0 eqn:E0. assert (engine_inv s0) as Hinit.
  { subst s0. assert (forall lvl, files_at empty_version lvl = []) as Enil by (intros lvl; unfold files_at; by destruct (_ || _)).
    split; simpl; try done; try exact (seeded_ok None).
    - intros lvl f. rewrite Enil. by intros ?%elem_of_nil.
    - intros lvl f. rewrite Enil. by intros ?%elem_of_nil.
    - intros _ lvl f h p. rewrite Enil. by intros ?%elem_of_nil. }
  clear E0. induction H as [|s s1 s2 Hs _ IH]; [done|]. apply IH. by eapply step_inv.
Qed.

(** ** Properties *)

(** C3: nothing at or below the recovered position is lost. Through any interleaving of writes, watermarks,
    flushes, compactions, migrations, drops, crashes that take the memtables and losses of whole stores, the
    position an open reports is one such that every position of the log up to it is in a file that is
    still there, or was in one that was dropped as dead; and what is established afterwards is in the
    files or in memory. *)
Theorem recovered_watermark_sound s :
  reachable s ->
  (forall r p, g_recovered s = Some r -> log p -> p <= r -> covered (g_version s) (g_content s) (g_settled s) p) /\
  (forall e p, g_established s = Some e -> log p -> p <= e -> present s p).
Proof. intros H%reachable_inv. split; intros; [by eapply (ei_recovered _ H)|by eapply (ei_established _ H)]. Qed.
End Log.

(** ** The open of [Open] is the one above *)

#[export] Instance lost_files_proper : Proper ((≡@{Version}) ==> (=) ==> (=)) lost_files.
Proof. intros v w E id ? <-. unfold lost_files. by rewrite (all_files_proper _ _ E). Qed.

#[export] Instance discard_edit_proper : Proper ((≡@{Version}) ==> (=) ==> (=) ==> (=)) discard_edit.
Proof. intros v w E id ? <- r ? <-. unfold discard_edit, recorded_floor. rewrite (lost_files_proper _ _ E id id eq_refl). destruct E as (_ & _ & _ & ->). done. Qed.

Lemma discard_all_proper ids : forall v w r, v ≡ w -> (discard_all ids v r).1 ≡ (discard_all ids w r).1 /\ (discard_all ids v r).2 = (discard_all ids w r).2.
Proof.
  induction ids as [|id ids IH]; intros v w r E; [done|]. cbn [discard_all]. rewrite (lost_files_proper _ _ E id id eq_refl).
  rewrite (discard_edit_proper _ _ E id id eq_refl _ _ eq_refl). apply IH. by rewrite E.
Qed.

#[export] Instance adopt_proper r : Proper ((≡@{Version}) ==> (=)) (adopt_recovered_watermark r).
Proof. intros v w E. unfold adopt_recovered_watermark. rewrite (all_files_proper _ _ E). destruct E as (_ & _ & _ & ->). done. Qed.

Section OpenIs.
Context {M : Type} {cat : ManifestCatalog M} {ops : CodecOps} (registry : ProviderRegistry) (edits_per_generation : Z).
Context (deleter : option (list FileMetadata -> list FileMetadata)) (retention now : Z).

Context (seal_fails : forall g address plaintext s, payload_seal registry g address plaintext = Unexpected s -> s <> Ok).

Lemma vs_apply_current vs e held m vs' m' :
  vs_apply registry edits_per_generation deleter retention vs e now held m = (Ok, vs', m') -> current_ vs' ≡ apply (current_ vs) e.
Proof.
  unfold vs_apply. destruct (fenced_ vs); [done|]. destruct (entry_ vs) as [en|]; [|done].
  destruct (payload_seal _ _ _ _) as [framed|s] eqn:Es; [|intros [= -> _ _]; by apply seal_fails in Es].
  destruct (put_edit _ _ _ _) as [[] m1]; try done. set (vs1 := install _ _).
  destruct (maybe_roll_generation _ _ vs1 _ _) as [[s2 vs2] m2] eqn:Er. intros [= <- <-].
  destruct (collect_same deleter retention now held vs2) as (_ & _ & -> & _). destruct (maybe_roll_live registry _ _ _ _ _ _ _ Er) as (_ & -> & _).
  apply apply_number.
Qed.

(** Whatever the stores held, an open that succeeds has discarded the stores that missed something, one
    after the other, and adopted the position that leaves. *)
Lemma discard_stores_all discardable missing read_only ids : forall o m o' m',
  discard_stores registry edits_per_generation deleter retention now discardable missing read_only ids o m = (Ok, o', m') ->
  let d := discard_all (List.filter missing ids) (current_ (op_versions o)) (op_watermark o) in
  current_ (op_versions o') ≡ d.1 /\ op_watermark o' = d.2.
Proof.
  induction ids as [|id ids IH]; intros o m o' m' E; cbn [discard_stores] in E.
  - injection E as <- <-. done.
  - cbn [List.filter]. destruct (missing id); cbn [negb] in E; [|by apply (IH _ _ _ _ E)].
    destruct read_only; [done|]. destruct (discardable id); cbn [negb] in E; [|done].
    destruct (vs_apply _ _ _ _ _ _ _ _ _) as [[s vs1] m1] eqn:Ea. destruct s; try done.
    destruct (IH _ _ _ _ E) as [H1 H2]. cbn [op_versions op_watermark] in *. cbn [discard_all].
    assert (current_ vs1 ≡ apply (current_ (op_versions o)) (discard_edit (current_ (op_versions o)) id (observe_loss (op_watermark o) (lost_files (current_ (op_versions o)) id)))) as Ev.
    { by eapply vs_apply_current. }
    destruct (discard_all_proper (List.filter missing ids) _ _ (observe_loss (op_watermark o) (lost_files (current_ (op_versions o)) id)) Ev) as [P1 P2].
    split; [by rewrite H1|by rewrite H2].
Qed.
End OpenIs.

Lemma observe_names_current names : forall vs, current_ (observe_names vs names) = current_ vs.
Proof.
  induction names as [|n names IH]; intros vs; [done|]. unfold observe_names in *. cbn [fold_left]. rewrite IH. unfold observe_name.
  destruct (sst_file_number n); [|done]. unfold observe_file_number. by destruct (_ <=? _).
Qed.

Lemma step_over_current stores : forall vs s vs', step_over stores vs = (s, vs') -> current_ vs' = current_ vs.
Proof.
  induction stores as [|[id [names|s0]] stores IH]; intros vs s vs'; cbn [step_over]; [by intros [= _ <-]| |by intros [= _ <-]].
  intros ->%IH. apply observe_names_current.
Qed.

(** An open that succeeds on a store that was there reports the position [adopt_recovered_watermark] gives
    after the losses it found, which is the step of reopening above. *)
Lemma open_store_reopens {M : Type} {cat : ManifestCatalog M} {ops : CodecOps} (registry : ProviderRegistry) (edits_per_generation : Z)
    (deleter : option (list FileMetadata -> list FileMetadata)) (retention now : Z) stores discardable read_only m vs m1 db m' :
  (forall g address plaintext s, payload_seal registry g address plaintext = Unexpected s -> s <> Ok) ->
  recover registry new_version_set m = (Some (Ok, vs), m1) ->
  open_store registry edits_per_generation deleter retention now stores discardable read_only m = (Some (Ok, db), m') ->
  exists ids, let d := discard_all ids (current_ vs) recovery_start in
    current_ (op_versions (od_opening db)) ≡ d.1 /\ od_recovered_watermark db = adopt_recovered_watermark d.2 d.1.
Proof.
  intros Hseal Er. unfold open_store. rewrite Er. unfold verify_stores_and_discard.
  destruct (step_over stores vs) as [s vs1] eqn:Es. assert (current_ vs1 = current_ vs) as Ecur by by apply step_over_current in Es.
  destruct s; try done. destruct (existsb _ _); [done|].
  destruct (discard_stores _ _ _ _ _ _ _ _ _ _ _) as [[s o] m2] eqn:Ed. destruct s; try done. intros [= <- _]. simpl.
  apply discard_stores_all in Ed; [|done]. simpl in Ed. rewrite Ecur in Ed. destruct Ed as [H1 H2]. eexists. split; [exact H1|]. by rewrite H2, H1.
Qed.

(** ** Executions *)

Module PositionExamples.
(** A log with records at 5 and 90, and files by number, store and interval. *)
Definition demo_log (p : Z) : Prop := p = 5 \/ p = 90.

Definition demo_file (n : Z) (store : bytes) (l h : Z) : FileMetadata :=
  {| level := 0; file_number := n; store_id := store; smallest_key := []; largest_key := []; file_bytes := 10; num_entries := 1;
     num_tombstones := 0; num_range_tombstones := 0; smallest_range_key := []; largest_range_key := []; compression := NoCompression;
     min_write_time_ms := 0; max_write_time_ms := 0; watermark := {| low := Some l; high := Some h |}; encryption_provider := []; encryption_metadata := [] |}.

Definition fast : bytes := [Byte.x66].
Definition slow : bytes := [Byte.x73].

(** The record at 90 is in file 1 on the fast store; file 2 holds later ones. *)
Definition two_files : Version := apply empty_version (rewrite_edit [] [demo_file 1 fast 80 100; demo_file 2 slow 120 140]).
Definition held (n : Z) : list Z := if n =? 1 then [90] else [].
End PositionExamples.
Import PositionExamples.

(** The declaration of a finished replay is durable before the replay is. A store with a file up to
    100 on a store that is lost and one up to 140 elsewhere reopens at 80, the lower bound of the loss;
    once [mark_recovery_complete] has cleared the floor, whatever was replayed into the memtable and not yet
    flushed, a crash reopens at 140, though the record at 90 is in no file. *)
Theorem recovery_complete_before_flush_overreports :
  let lost := discard_all [fast] two_files recovery_start in
  let cleared := apply lost.1 clear_edit in
  covered two_files held [] 90 /\ adopt_recovered_watermark lost.2 lost.1 = Some 80 /\
  adopt_recovered_watermark recovery_start lost.1 = Some 80 /\
  adopt_recovered_watermark recovery_start cleared = Some 140 /\ ~ covered cleared held [] 90.
Proof.
  cbv zeta. split_and!; [|by vm_compute..|].
  - right. exists 0, (demo_file 1 fast 80 100). split; [|by vm_compute; left]. apply rewrite_edit_files. right. split_and!; [by left|done|done].
  - intros [H%elem_of_nil|(lvl & f & Hf & Hp)]; [done|].
    assert (all_files (apply (discard_all [fast] two_files recovery_start).1 clear_edit) = [demo_file 2 slow 120 140]) as E by by vm_compute.
    assert (f = demo_file 2 slow 120 140) as ->. { apply list_elem_of_singleton. rewrite <- E. apply elem_of_all_files. by exists lvl. }
    by apply elem_of_nil in Hp.
Qed.

(** A write at 5, its watermark, the flush, and a crash: the open reports 10 and the record is in a file. *)
Lemma recovered_watermark_sound_witness :
  exists s, reachable demo_log s /\ g_recovered s = Some 10 /\ covered (g_version s) (g_content s) (g_settled s) 5.
Proof.
  set (f := {| level := 0; file_number := 1; store_id := slow; smallest_key := []; largest_key := []; file_bytes := 10; num_entries := 1;
     num_tombstones := 0; num_range_tombstones := 0; smallest_range_key := []; largest_range_key := []; compression := NoCompression;
     min_write_time_ms := 0; max_write_time_ms := 0; watermark := {| low := None; high := Some 10 |}; encryption_provider := []; encryption_metadata := [] |}).
  set (v := apply empty_version (rewrite_edit [] [f])).
  set (s := {| g_version := v; g_content := with_file (fun _ => []) 1 [5]; g_settled := []; g_mem := seeded (Some 10); g_mem_writes := []; g_imm := None;
               g_established := Some 10; g_recovered := Some 10 |}).
  assert (reachable demo_log s) as Hr.
  { eapply rtc_l; [apply (step_write _ _ 5); [by left|by intros ?]|]. simpl.
    eapply rtc_l; [apply (step_set_watermark _ _ 10); simpl; [done|]|].
    - intros p [-> | ->] Hp _; [right; left; simpl; set_solver|lia].
    - eapply rtc_l; [by apply step_seal|]. simpl. eapply rtc_l; [apply (step_flush _ _ f {| low := None; high := Some 10 |} [5]); [reflexivity|reflexivity|simpl; lia|]|].
      + intros lvl g Hg. assert (g ∈ all_files empty_version) as H by (apply elem_of_all_files; by exists lvl). vm_compute in H. by apply elem_of_nil in H.
      + simpl. eapply rtc_l; [apply (step_reopen _ _ [] _ _ eq_refl)|]. simpl.
        replace (adopt_recovered_watermark recovery_start (apply empty_version (rewrite_edit [] [f]))) with (Some 10) by by vm_compute. apply rtc_refl. }
  exists s. split; [exact Hr|]. split; [done|]. destruct (recovered_watermark_sound demo_log s Hr) as [H _]. apply (H 10 5); [done|by left|lia].
Defined.
