(* ===== verification/Reclaim.v ===== *)
(** * Dropping dead files

    [DbImpl::reclaim_dead_files] of [src/compact/compactor.cpp]: files below the truncation point,
    files past their time to live and files a newer range tombstone covers whole leave the version
    in one edit, unread. *)

From S2P Require Import Prelude Slice Format Framing Watermark VersionEdit Version Memtable Merging Sst Lsm Picker Outputs Compact CompactProofs PickerProofs.

(** ** Definitions *)

Section Reclaim.
Context {R : Type} `{ops : SstReaderOps R} (reader_for : FileMetadata -> Result R).

(** One range containing the file's whole span. *)
Definition range_spans (f : FileMetadata) (r : RangeTombstone) : bool :=
  (lower r <=?k smallest_key f) && (largest_key f <?k upper r).

(** The ranges of a cover: from [read_covers], or read and remembered; [None] leaves the file alone. *)
Definition cover_ranges (read_covers : gmap Z (list RangeTombstone)) (cover : FileMetadata)
  : option (gmap Z (list RangeTombstone) * list RangeTombstone) :=
  match read_covers !! file_number cover with
  | Some rs => Some (read_covers, rs)
  | None =>
      match (let? reader := reader_for cover in sr_range_tombstones reader) with
      | Value rs => Some (<[file_number cover := rs]> read_covers, rs)
      | Unexpected _ => None
      end
  end.

(** One round of the loop over the candidates. *)
Definition consider_candidate (acc : gmap Z (list RangeTombstone) * list FileMetadata)
    (cand : RangeDropCandidate) : gmap Z (list RangeTombstone) * list FileMetadata :=
  let '(read_covers, dead) := acc in
  if rd_exact cand then (read_covers, dead ++ [rd_file cand])
  else
    match cover_ranges read_covers (rd_cover cand) with
    | None => (read_covers, dead)
    | Some (read_covers, rs) =>
        (read_covers, if existsb (range_spans (rd_file cand)) rs then dead ++ [rd_file cand] else dead)
    end.

(** The files past [Options::ttl]: [ttl] is the limit and the clock, when the option is set. *)
Definition expired_files (v : Version) (ttl : option (Z * Z)) : list FileMetadata :=
  match ttl with
  | Some (limit, now) => if limit <? now then files_expired_before v (now - limit) else []
  | None => []
  end.

Definition dead_files (v : Version) (ttl : option (Z * Z)) : list FileMetadata :=
  (fold_left consider_candidate (range_drop_candidates v)
     (∅, files_entirely_truncated v ++ expired_files v ttl)).2.

Definition reclaim_edit (dead : list FileMetadata) : VersionEdit :=
  {| next_file_number := 0; added := [];
     deleted := map (fun f => {| ref_level := level f; ref_number := file_number f |}) dead;
     compaction_pointers := []; truncation_point := []; floor_update := Silent;
     watermark_floor := {| position := None |} |}.

(** The version afterwards, and whether anything was dropped. *)
Definition reclaim_dead_files (v : Version) (ttl : option (Z * Z)) : Version * bool :=
  let dead := dead_files v ttl in
  if bool_decide (dead = []) then (v, false) else (apply v (reclaim_edit dead), true).

(** ** Why each file may go *)

Context (content : FileMetadata -> Sst) (v : Version).
Context (Hv : version_ok content v) (Hread : readable content reader_for v).

(** A file under a newer file's range. *)
Definition shadowed_whole (f : FileMetadata) : Prop :=
  f ∈ all_files v /\ carries_range f = false /\ exists cover r, cover ∈ all_files v /\ newer_than cover f = true /\
    r ∈ ranges (content cover) /\ range_spans f r = true.

Lemma range_candidate cand :
  cand ∈ range_drop_candidates v ->
  rd_file cand ∈ all_files v /\ rd_cover cand ∈ all_files v /\ carries_range (rd_file cand) = false /\
  carries_range (rd_cover cand) = true /\ cover_admits (rd_file cand) (rd_cover cand) = true /\
  rd_exact cand = (num_range_tombstones (rd_cover cand) =? 1).
Proof.
  unfold range_drop_candidates. intros (f & Hf & E)%list_elem_of_omap.
  destruct (carries_range f || (num_entries f =? 0)) eqn:Eg; [done|]. apply orb_false_iff in Eg as [Eg _].
  destruct (List.find _ _) as [cover|] eqn:Ef; [|done]. injection E as <-. simpl.
  apply find_some in Ef as [Hin Had]. rewrite <- list_elem_of_In, elem_of_filter_bool in Hin. naive_solver.
Qed.

Lemma candidate_shadowed cand :
  cand ∈ range_drop_candidates v ->
  (rd_exact cand = true \/ existsb (range_spans (rd_file cand)) (ranges (content (rd_cover cand))) = true) ->
  shadowed_whole (rd_file cand).
Proof.
  intros (Hf & Hc & Hnr & Hcr & Had & Hex)%range_candidate Hor.
  unfold cover_admits in Had. apply andb_true_iff in Had as [[Hnew H1]%andb_true_iff H2].
  pose proof (vo_describes _ _ Hv _ Hc) as Hd. split_and!; [done|done|]. exists (rd_cover cand).
  destruct Hor as [Hor|(r & Hr & Hs)%existsb_elem]; [|exists r; done].
  rewrite Hor in Hex. symmetry in Hex. apply Z.eqb_eq in Hex. rewrite (d_ranges _ _ Hd) in Hex.
  destruct (ranges (content (rd_cover cand))) as [|r [|? ?]] eqn:Er; simpl in Hex; [lia| |lia].
  exists r. split_and!; [done|done|by left|]. unfold range_spans.
  rewrite <- (d_range_first _ _ Hd r), <- (d_range_last _ _ Hd r) by (by rewrite Er). by rewrite H1, H2.
Qed.

Definition cache_ok (read_covers : gmap Z (list RangeTombstone)) : Prop :=
  forall f rs, f ∈ all_files v -> read_covers !! file_number f = Some rs -> rs = ranges (content f).

Lemma cover_ranges_spec rc cover :
  cache_ok rc -> cover ∈ all_files v ->
  exists rc', cover_ranges rc cover = Some (rc', ranges (content cover)) /\ cache_ok rc'.
Proof.
  intros Hrc Hc. unfold cover_ranges. destruct (rc !! file_number cover) as [rs|] eqn:E.
  { exists rc. by rewrite (Hrc cover rs Hc E). }
  destruct (Hread cover Hc) as (r & Hr & Hl). rewrite Hr. simpl. rewrite law_range_tombstones. eexists. split; [done|].
  intros f rs Hf Hlook. apply lookup_insert_Some in Hlook as [[En <-]|[_ Hlook]]; [|by apply Hrc].
  by rewrite (vo_unique _ _ Hv cover f Hc Hf En).
Qed.

Lemma dead_files_spec ttl f :
  f ∈ dead_files v ttl ->
  f ∈ files_entirely_truncated v \/ f ∈ expired_files v ttl \/ shadowed_whole f.
Proof.
  unfold dead_files.
  assert (forall cands rc dead, (forall c, c ∈ cands -> c ∈ range_drop_candidates v) -> cache_ok rc ->
    f ∈ (fold_left consider_candidate cands (rc, dead)).2 -> f ∈ dead \/ shadowed_whole f) as Hloop.
  { induction cands as [|c cands IH]; intros rc dead Hsub Hrc Hf; simpl in Hf; [by left|].
    assert (c ∈ range_drop_candidates v) as Hc by (apply Hsub; by left).
    assert (forall x, x ∈ cands -> x ∈ range_drop_candidates v) as Hsub' by (intros; apply Hsub; by right).
    destruct (rd_exact c) eqn:Ex.
    - destruct (IH _ _ Hsub' Hrc Hf) as [[?|E]%elem_of_app|?]; [by left| |by right].
      apply list_elem_of_singleton in E as ->. right. apply candidate_shadowed; auto.
    - destruct (cover_ranges_spec rc (rd_cover c) Hrc) as (rc' & E & Hrc'); [by apply range_candidate|].
      rewrite E in Hf. destruct (existsb _ _) eqn:Es; [|by apply (IH rc')].
      destruct (IH _ _ Hsub' Hrc' Hf) as [[?|E']%elem_of_app|?]; [by left| |by right].
      apply list_elem_of_singleton in E' as ->. right. apply candidate_shadowed; auto. }
  intros Hf. apply Hloop in Hf as [[?|?]%elem_of_app|?]; auto. by intros ? ? ? ?%lookup_empty_Some.
Qed.

Lemma dead_subset ttl f : f ∈ dead_files v ttl -> f ∈ all_files v.
Proof.
  intros [H|[H|H]]%dead_files_spec; [| |by destruct H].
  - unfold files_entirely_truncated in H. case_bool_decide; [by apply elem_of_nil in H|].
    by apply elem_of_filter_bool in H as [? _].
  - unfold expired_files in H. destruct ttl as [[limit now]|]; [|by apply elem_of_nil in H].
    destruct (_ <? _); [|by apply elem_of_nil in H]. by apply elem_of_filter_bool in H as [? _].
Qed.

(** ** Dropping them changes no answer but an expired one *)

Lemma reclaim_replaces dead :
  (forall f, f ∈ dead -> f ∈ all_files v) -> replaces v (reclaim_edit dead) dead [].
Proof.
  intros Hsub. split; simpl; try done.
  - intros lvl g Hg. pose proof (files_at_bounds _ _ _ Hg). pose proof (vo_filed _ _ Hv _ _ Hg) as El.
    unfold deletes. rewrite existsb_elem. unfold is_ref. split.
    + intros (r & (f & -> & Hf)%list_elem_of_fmap & [_ En]%andb_true_iff). simpl in En. zbool.
      by rewrite (vo_unique _ _ Hv g f (in_all _ _ _ Hg) (Hsub f Hf) En).
    + intros Hin. exists {| ref_level := level g; ref_number := file_number g |}.
      split; [by apply (list_elem_of_fmap_2 (fun f => {| ref_level := level f; ref_number := file_number f |}))|].
      simpl. apply andb_true_iff. split; apply Z.eqb_eq; [lia|done].
  - constructor.
  - by intros w g ?%elem_of_nil.
  - by intros w ?%elem_of_nil.
Qed.

Lemma removal_ok dead : (forall f, f ∈ dead -> f ∈ all_files v) -> version_ok content (apply v (reclaim_edit dead)).
Proof.
  intros Hsub. eapply (replace_ok content content v _ dead []); try done; [by apply reclaim_replaces|..].
  - by intros w ?%elem_of_nil.
  - by intros w g ?%elem_of_nil.
  - by intros w w' ?%elem_of_nil.
Qed.

Lemma removal_files dead g :
  (forall f, f ∈ dead -> f ∈ all_files v) ->
  g ∈ all_files (apply v (reclaim_edit dead)) <-> g ∈ all_files v /\ g ∉ dead.
Proof.
  intros Hsub. rewrite (replace_all v (reclaim_edit dead) dead [] (reclaim_replaces dead Hsub)).
  split; [intros [?|?%elem_of_nil]; done|auto].
Qed.

(** The data spans of a level are in order when no stored key is empty. *)
Lemma level_spans_monotone lvl : starts_nonempty v -> 0 < lvl -> spans_monotone (files_at v lvl).
Proof.
  intros Hne Hl. pose proof (vo_ordered _ _ Hv lvl) as Ho. unfold level_order in Ho. destruct (Z.eqb_spec lvl 0); [lia|].
  assert (NoDup (files_at v lvl)) as Hnd by (eapply NoDup_fmap_1, (vo_numbers _ _ Hv lvl)).
  unfold spans_monotone.
  assert (forall l, StronglySorted by_key l -> NoDup l -> (forall f, f ∈ l -> f ∈ files_at v lvl) ->
    StronglySorted (fun a b => smallest_key a <=k smallest_key b /\ largest_key a <=k largest_key b) l) as Hgen; [|by apply Hgen].
  clear Ho Hnd. induction 1 as [|a l Hs IH Hf]; intros Hnd Hall; constructor.
  { apply IH; [by apply NoDup_cons in Hnd as [_ ?]|]. intros f Hf'. apply Hall. by right. }
  rewrite Forall_forall in *. intros b Hb. specialize (Hf b Hb).
  assert (a <> b) as Hab by (intros ->; by apply NoDup_cons in Hnd as [? _]).
  assert (a ∈ files_at v lvl) as Ha by (apply Hall; by left). assert (b ∈ files_at v lvl) as Hb' by (apply Hall; by right).
  pose proof (vo_describes _ _ Hv _ (in_all _ _ _ Ha)) as Hda. pose proof (vo_describes _ _ Hv _ (in_all _ _ _ Hb')) as Hdb.
  assert (smallest_key a <=k smallest_key b) as Hsm by (destruct Hf as [?|[-> _]]; key_order). split; [done|].
  destruct (decide (num_entries a = 0)) as [E|Hna].
  { destruct (d_no_data _ _ Hda) as [_ ->]; [|apply key_empty_le]. rewrite (d_entries _ _ Hda) in E. by destruct (entries (content a)). }
  destruct (effective_spec _ _ Hda) as (Hea & _). destruct (Hea Hna) as [Hea1 _].
  destruct (decide (num_entries b = 0)) as [E|Hnb].
  { exfalso. destruct (d_no_data _ _ Hdb) as [Esb _]; [rewrite (d_entries _ _ Hdb) in E; by destruct (entries (content b))|].
    apply (Hne a); [by eapply in_all|]. rewrite Esb in Hsm. pose proof (key_empty_le (effective_smallest a)).
    destruct (key_trichotomy (effective_smallest a) []) as [?|[?|?]]; [exfalso; by eapply key_lt_empty|done|key_order]. }
  destruct (effective_spec _ _ Hdb) as (Heb & _). destruct (Heb Hnb) as [Heb1 _].
  pose proof (describes_data_le _ _ Hda Hna). pose proof (describes_data_le _ _ Hdb Hnb).
  destruct (vo_apart _ _ Hv lvl a b Hl Ha Hb' Hab) as [[H1 _]|[H1 _]]; [specialize (H1 Hna)|specialize (H1 Hnb)]; key_order.
Qed.

(** Nothing older than an expired file holds an entry inside its span. *)
Lemma expired_alone ttl f g k :
  starts_nonempty v -> f ∈ expired_files v ttl -> g ∈ all_files v -> newer_than f g = true ->
  touches content f k -> assoc k (entries (content g)) = None.
Proof.
  intros Hne Hf Hg Hn Ht. unfold expired_files in Hf. destruct ttl as [[limit now]|]; [|by apply elem_of_nil in Hf].
  destruct (_ <? _); [|by apply elem_of_nil in Hf]. apply elem_of_filter_bool in Hf as [Hf He].
  unfold expired_before in He. apply andb_true_iff in He as [[[_ _]%andb_true_iff Hnr]%andb_true_iff Hold].
  apply negb_true_iff in Hnr, Hold. unfold carries_range in Hnr. apply negb_false_iff, Z.eqb_eq in Hnr.
  pose proof (in_level _ _ (vo_filed _ _ Hv) Hf) as Hfl.
  rewrite older_overlaps_scan in Hold; [|apply (vo_filed _ _ Hv)|intros; by apply level_spans_monotone|apply files_at_bounds in Hfl; lia].
  destruct (assoc k (entries (content g))) as [e|] eqn:E; [|done]. exfalso.
  destruct (describes_hold _ _ _ _ (vo_describes _ _ Hv g Hg) E) as (_ & ? & ?).
  destruct (verdict_effective _ _ _ (vo_describes _ _ Hv f Hf) Ht) as [Hs Hl].
  unfold effective_smallest, effective_largest in Hs, Hl. rewrite Hnr in Hs, Hl. simpl in Hs, Hl.
  assert (existsb (older_overlap f) (all_files v) = true); [|congruence].
  apply existsb_elem. exists g. split; [done|]. unfold older_overlap. rewrite Hn. simpl.
  apply andb_true_iff. split; key_order.
Qed.

Lemma shadowed_never_decides f k e : shadowed_whole f -> decides content v k f e -> False.
Proof.
  intros (Hf & Hnr & cover & r & Hc & Hnew & Hr & Hs) (_ & Hvf & Hmax).
  unfold carries_range in Hnr. apply negb_false_iff, Z.eqb_eq in Hnr.
  assert (touches content f k) as Ht by (unfold touches; congruence).
  destruct (verdict_effective _ _ _ (vo_describes _ _ Hv f Hf) Ht) as [Hlo Hhi].
  unfold effective_smallest, effective_largest in Hlo, Hhi. rewrite Hnr in Hlo, Hhi. simpl in Hlo, Hhi.
  unfold range_spans in Hs. apply andb_true_iff in Hs as [H1 H2].
  assert (touches content cover k) as Htc.
  { unfold touches, verdict, sst_verdict, verdict_of. destruct (assoc k (entries (content cover))); [done|].
    rewrite (proj2 (any_covers_spec _ _)); [done|]. exists r. split_and!; [done|key_order|key_order]. }
  destruct (Hmax cover Hc Htc) as [->|Hn]; apply newer_than_asym in Hnew as Hnew'; congruence.
Qed.

(** A file below the truncation point decides no readable key. *)
Lemma truncated_hidden f k e : f ∈ files_entirely_truncated v -> verdict content f k = Some e -> truncated v k = true.
Proof.
  unfold files_entirely_truncated, truncated. case_bool_decide as Htp; [by intros ?%elem_of_nil|].
  intros [Hf Hlt]%elem_of_filter_bool Hvf. simpl.
  destruct (verdict_effective f (content f) k (vo_describes _ _ Hv f Hf)) as [_ ?]; [|key_order].
  unfold verdict in Hvf. congruence.
Qed.

Lemma reclaim_answers ttl k :
  starts_nonempty v -> truncated v k = false ->
  let v' := (reclaim_dead_files v ttl).1 in
  answer_of (resolve content v' k) = answer_of (resolve content v k) \/
  (answer_of (resolve content v' k) = Unexpected NotFound /\
   exists f e, f ∈ expired_files v ttl /\ decides content v k f e).
Proof.
  intros Hne Hk. cbv zeta. unfold reclaim_dead_files. case_bool_decide as Hd; [by left|]. simpl.
  set (dead := dead_files v ttl) in *.
  assert (forall f, f ∈ dead -> f ∈ all_files v) as Hsub by (intros f; apply dead_subset).
  set (v' := apply v (reclaim_edit dead)). pose proof (removal_ok dead Hsub) as Hv'. fold v' in Hv'.
  assert (forall g, g ∈ all_files v' <-> g ∈ all_files v /\ g ∉ dead) as Hfiles by (intros; by apply removal_files).
  destruct (resolve content v k) as [e|] eqn:E.
  2:{ left. rewrite resolve_None in E. enough (resolve content v' k = None) as -> by done. apply resolve_None.
      intros g [Hg _]%Hfiles. by apply E. }
  apply (resolve_decides content v k e Hv) in E as [f Hf]. destruct (decide (f ∈ dead)) as [Hfd|Hfd].
  2:{ left. enough (resolve content v' k = Some e) as -> by done. apply resolve_decides; [done|]. exists f.
      destruct Hf as (Hf & Hvf & Hmax). split_and!; [by apply Hfiles|done|]. intros g [Hg _]%Hfiles. by apply Hmax. }
  right. destruct (dead_files_spec ttl f Hfd) as [Ht|[Hx|Hs]].
  - exfalso. destruct Hf as (_ & Hvf & _). rewrite (truncated_hidden f k e Ht Hvf) in Hk. done.
  - split; [|by exists f, e]. destruct (resolve content v' k) as [[t val]|] eqn:E'; [|done].
    apply (resolve_decides content v' k _ Hv') in E' as (g & Hg & Hvg & _). apply Hfiles in Hg as [Hg Hgd].
    destruct Hf as (Hf & Hvf & Hmax). assert (touches content f k) as Htf by (unfold touches; congruence).
    destruct (Hmax g Hg) as [->|Hn]; [unfold touches; congruence|done|].
    unfold verdict, sst_verdict in Hvg. rewrite (expired_alone ttl f g k Hne Hx Hg Hn Htf) in Hvg.
    simpl in Hvg. destruct (any_covers _ _); [|done]. by injection Hvg as <- <-.
  - exfalso. by eapply shadowed_never_decides.
Qed.

Lemma reclaim_version_ok ttl : version_ok content (reclaim_dead_files v ttl).1.
Proof.
  unfold reclaim_dead_files. case_bool_decide; [done|]. apply removal_ok. intros f. apply dead_subset.
Qed.
End Reclaim.

(** ** Properties *)

(** C16: reclaiming drops only what cannot matter, in a store without empty keys ([starts_nonempty]; beside a file of
    range tombstones alone, one that starts at the empty key upsets the search for the older files below an expired one). The version stays well formed, and for every
    readable key the answer is unchanged, unless the file that decided it was past its time to live, and then the key is
    absent: no older value comes back. Files below the truncation point and files a newer range tombstone spans whole never
    change an answer. *)
Theorem reclaim_drops_only_dead {R} (ops : SstReaderOps R) (reader_for : FileMetadata -> Result R)
    (content : FileMetadata -> Sst) v ttl k :
  version_ok content v -> readable content reader_for v -> starts_nonempty v -> truncated v k = false ->
  let v' := (reclaim_dead_files reader_for v ttl).1 in
  version_ok content v' /\
  (answer_of (resolve content v' k) = answer_of (resolve content v k) \/
   (answer_of (resolve content v' k) = Unexpected NotFound /\
    exists f e, f ∈ expired_files v ttl /\ decides content v k f e)).
Proof. intros Hv Hr Hne Hk. cbv zeta. split; [by apply reclaim_version_ok|by apply reclaim_answers]. Qed.
