(* ===== verification/Passes.v ===== *)
(** * Maintenance passes

    [DbImpl::compact_until_quiet] and the body of [background_compaction_loop] of [src/compact/compactor.cpp]: in which
    order reclamation, migration, compaction and re-encryption are asked for work, which failures stop the others, and
    when a pass ends. The tasks are an interface: each takes the status variable its caller passes by reference. *)

From S2P Require Import Prelude.

(** [W] is what the tasks work on. A task answers whether it did something and the status variable after it; a migration
    also says whether its failure preempts the rest. *)
Class Tasks (W : Type) := {
  collect : W -> bool * W;
  reclaim : Status -> W -> bool * Status * W;
  migrate : Status -> bool -> W -> bool * Status * bool * W;
  compact : Status -> W -> bool * Status * W;
  reencrypt : Status -> W -> bool * Status * W;
  sweep : W -> Status * W
}.

Section Passes.
Context {W : Type} {tasks : Tasks W}.

(** [while (run_one_migration(status, &preempts)) worked = true;] *)
Fixpoint drain_migrations (fuel : nat) (status : Status) (preempts worked : bool) (w : W) : option (Status * bool * bool * W) :=
  match fuel with
  | O => None
  | S fuel =>
      let '(ran, status, preempts, w) := migrate status preempts w in
      if ran then drain_migrations fuel status preempts true w else Some (status, preempts, worked, w)
  end.

(** ** [compact_until_quiet] *)

Definition kMaxRounds : nat := 10000.

(** One round: it answers, or goes on with whether something was done. *)
Definition quiet_round (fuel : nat) (w : W) : option ((Status + bool) * W) :=
  let '(worked, status, w) := reclaim Ok w in
  if negb (bool_decide (status = Ok)) then Some (inl status, w)
  else
    match drain_migrations fuel status true worked w with
    | None => None
    | Some (migration_failure, preempts, worked, w) =>
        if negb (bool_decide (migration_failure = Ok)) && (negb (is_retryable migration_failure) || preempts)
        then Some (inl migration_failure, w)
        else
          let '(ran, status, w) := compact Ok w in
          if negb (bool_decide (status = Ok)) then Some (inl status, w)
          else
            let '(ran', status, w) := reencrypt status w in
            if negb (bool_decide (status = Ok)) then Some (inl status, w)
            else if negb (bool_decide (migration_failure = Ok)) then Some (inl migration_failure, w)
            else Some (inr (worked || ran || ran'), w)
    end.

Fixpoint quiet_rounds (rounds fuel : nat) (w : W) : option (Status * W) :=
  match rounds with
  | O => Some (Ok, w)
  | S rounds =>
      match quiet_round fuel w with
      | None => None
      | Some (inl status, w) => Some (status, w)
      | Some (inr true, w) => quiet_rounds rounds fuel w
      | Some (inr false, w) => Some (Ok, w)
      end
  end.

Definition compact_until_quiet (fuel : nat) (w : W) : option (Status * W) := quiet_rounds kMaxRounds fuel (collect w).2.

(** ** One pass of [background_compaction_loop] *)

(** The outage of a move between durable tiers does not stop the rest. *)
Definition forgive (status : Status) (preempts : bool) : Status :=
  if negb (bool_decide (status = Ok)) && is_retryable status && negb preempts then Ok else status.

Fixpoint compactions (fuel : nat) (status : Status) (preempts worked : bool) (w : W) : option (Status * bool * W) :=
  match fuel with
  | O => None
  | S fuel' =>
      if negb (bool_decide (status = Ok)) then Some (status, worked, w)
      else
        let '(ran, status, w) := compact status w in
        if negb ran then Some (status, worked, w)
        else
          match drain_migrations fuel status preempts true w with
          | None => None
          | Some (status, preempts, _, w) => compactions fuel' (forgive status preempts) preempts true w
          end
  end.

Fixpoint reencryptions (fuel : nat) (status : Status) (worked : bool) (w : W) : option (Status * bool * W) :=
  match fuel with
  | O => None
  | S fuel =>
      if negb (bool_decide (status = Ok)) then Some (status, worked, w)
      else
        let '(ran, status, w) := reencrypt status w in
        if ran then reencryptions fuel status true w else Some (status, worked, w)
  end.

(** The cause, not the consequence: a terminal error is never overwritten. *)
Definition keep_cause (bg status : Status) : Status :=
  if negb (bool_decide (status = Ok)) && negb (is_retryable status) && (bool_decide (bg = Ok) || is_retryable bg) then status else bg.

(** The pass: whether the coordinator is told, the stored error, and the time of the next sweep; [interval] is
    [orphan_sweep_interval]. *)
Definition background_pass (fuel : nat) (interval : option Z) (now next_sweep : Z) (bg : Status) (w : W) : option (bool * Status * Z * W) :=
  let '(collected, w) := collect w in
  let '(reclaimed, status, w) := reclaim Ok w in
  match drain_migrations fuel status true (collected || reclaimed) w with
  | None => None
  | Some (status, preempts, worked, w) =>
      match compactions fuel (forgive status preempts) preempts worked w with
      | None => None
      | Some (status, worked, w) =>
          match reencryptions fuel status worked w with
          | None => None
          | Some (status, worked, w) =>
              let '(bg, next_sweep, w) :=
                match interval with
                | Some i => if next_sweep <=? now then let '(swept, w) := sweep w in (keep_cause bg swept, u64 (now + u64 i), w) else (bg, next_sweep, w)
                | None => (bg, next_sweep, w)
                end in
              Some (worked, keep_cause bg status, next_sweep, w)
          end
      end
  end.

(** ** When nothing is left to do *)

(** No task finds work, and none fails. *)
Definition idle (w : W) : Prop :=
  reclaim Ok w = (false, Ok, w) /\ (exists preempts, migrate Ok true w = (false, Ok, preempts, w)) /\
  compact Ok w = (false, Ok, w) /\ reencrypt Ok w = (false, Ok, w).

(** What the passes rely on: a task that did nothing and does not fail changed nothing; one that did something lowers a
    measure of the work left. *)
Class TasksLaws (size : W -> nat) : Prop := {
  law_reclaim : forall w ran s w', reclaim Ok w = (ran, s, w') -> if ran then (size w' < size w)%nat else (size w' <= size w)%nat /\ (s = Ok -> w' = w);
  law_migrate : forall s p w ran s' p' w', migrate s p w = (ran, s', p', w') -> if ran then (size w' < size w)%nat else (size w' <= size w)%nat /\ (s' = Ok -> s = Ok /\ w' = w);
  law_compact : forall w ran s w', compact Ok w = (ran, s, w') -> if ran then (size w' < size w)%nat else (size w' <= size w)%nat /\ (s = Ok -> w' = w);
  law_reencrypt : forall w ran s w', reencrypt Ok w = (ran, s, w') -> if ran then (size w' < size w)%nat else (size w' <= size w)%nat /\ (s = Ok -> w' = w);
  law_collect : forall w, (size (collect w).2 <= size w)%nat
}.

Context {size : W -> nat} {laws : TasksLaws size}.

(** Draining ends, and lowers the measure if it moved something. *)
Lemma passes_drain_ends fuel : forall s p worked w, (size w < fuel)%nat -> exists s' p' worked' w', drain_migrations fuel s p worked w = Some (s', p', worked', w') /\
  (size w' <= size w)%nat /\ (worked' = worked \/ (worked' = true /\ size w' < size w)%nat) /\
  (worked' = false -> s' = Ok -> worked = false /\ s = Ok /\ w' = w /\ migrate s p w = (false, Ok, p', w)).
Proof using laws.
  induction fuel as [|fuel IH]; intros s p worked w Hf; [lia|]. cbn [drain_migrations]. destruct (migrate s p w) as [[[ran s1] p1] w1] eqn:E.
  pose proof (law_migrate _ _ _ _ _ _ _ E) as Hl. destruct ran.
  - destruct (IH s1 p1 true w1 ltac:(lia)) as (s2 & p2 & b2 & w2 & -> & H1 & H2 & H3). exists s2, p2, b2, w2. split; [done|]. split; [lia|].
    assert (b2 = true) as -> by (destruct H2 as [?|[? _]]; done). split; [right; split; [done|lia]|done].
  - destruct Hl as [Hs He]. exists s1, p1, worked, w1. split; [done|]. split; [lia|]. split; [by left|]. intros -> ->. destruct (He eq_refl) as [-> ->]. by repeat split.
Qed.


(** A round ends; one that answers nothing and did nothing found every task idle, one that did something has less left. *)
Lemma quiet_round_ends fuel w : (size w < fuel)%nat -> exists r w', quiet_round fuel w = Some (r, w') /\ (size w' <= size w)%nat /\
  match r with inl s => s <> Ok | inr true => (size w' < size w)%nat | inr false => w' = w /\ idle w end.
Proof using laws.
  intros Hf. unfold quiet_round. destruct (reclaim Ok w) as [[b s] w1] eqn:E1. pose proof (law_reclaim _ _ _ _ E1) as H1.
  assert (size w1 <= size w)%nat as Hle1 by (destruct b; lia). destruct (bool_decide_reflect (s = Ok)); subst; cbn [negb]; [|by eauto 10].
  destruct (passes_drain_ends fuel Ok true b w1 ltac:(lia)) as (s2 & p2 & b2 & w2 & -> & Hle2 & Hb2 & Hq).
  destruct (negb (bool_decide (s2 = Ok)) && (negb (is_retryable s2) || p2)) eqn:E2.
  { apply andb_prop in E2 as [E2 _]. case_bool_decide; [done|]. exists (inl s2), w2. split_and!; [done|lia|done]. }
  destruct (compact Ok w2) as [[c s3] w3] eqn:E3. pose proof (law_compact _ _ _ _ E3) as H3.
  assert (size w3 <= size w2)%nat as Hle3 by (destruct c; lia).
  destruct (bool_decide_reflect (s3 = Ok)); subst; cbn [negb]; [|exists (inl s3), w3; split_and!; [done|lia|done]].
  destruct (reencrypt Ok w3) as [[d s4] w4] eqn:E4. pose proof (law_reencrypt _ _ _ _ E4) as H4.
  assert (size w4 <= size w3)%nat as Hle4 by (destruct d; lia).
  destruct (bool_decide_reflect (s4 = Ok)); subst; cbn [negb]; [|exists (inl s4), w4; split_and!; [done|lia|done]].
  destruct (bool_decide_reflect (s2 = Ok)); subst; cbn [negb]; [|exists (inl s2), w4; split_and!; [done|lia|done]].
  exists (inr (b2 || c || d)), w4. split; [done|]. split; [lia|].
  destruct b2; cbn [orb]; [destruct b; [|destruct Hb2 as [?|[_ ?]]; [done|]]; lia|]. destruct c; cbn [orb]; [lia|]. destruct d; [lia|].
  destruct (Hq eq_refl eq_refl) as (-> & _ & -> & Em). destruct H1 as [_ H1], H3 as [_ H3], H4 as [_ H4].
  specialize (H1 eq_refl); specialize (H3 eq_refl); specialize (H4 eq_refl). subst.
  split; [done|]. unfold idle. rewrite E1, E3, E4. eauto.
Qed.

Lemma quiet_rounds_end rounds fuel : forall w, (size w < rounds)%nat -> (size w < fuel)%nat ->
  exists s w', quiet_rounds rounds fuel w = Some (s, w') /\ (s = Ok -> idle w').
Proof using laws.
  induction rounds as [|rounds IH]; intros w Hr Hf; [lia|]. cbn [quiet_rounds].
  destruct (quiet_round_ends fuel w Hf) as (r & w1 & -> & Hle & H). destruct r as [s|[|]].
  - exists s, w1. split; [done|]. by intros ->.
  - apply IH; lia.
  - destruct H as [-> ?]. by exists Ok, w.
Qed.

(** Where every step of work leaves less to do, and less than the limit of rounds, the call returns, and [Ok] means that
    no task finds anything left. *)
Theorem quiet_means_idle fuel w : (size w < kMaxRounds)%nat -> (size w < fuel)%nat ->
  exists s w', compact_until_quiet fuel w = Some (s, w') /\ (s = Ok -> idle w').
Proof using laws.
  intros Hr Hf. pose proof (law_collect w). apply quiet_rounds_end; lia.
Qed.

(** A terminal error, once stored, is what every later pass leaves stored. *)
Lemma keep_cause_terminal bg status : bg <> Ok -> is_retryable bg = false -> keep_cause bg status = bg.
Proof. intros Hb Hr. unfold keep_cause. rewrite (bool_decide_eq_false_2 _ Hb), Hr. by rewrite andb_false_r. Qed.

Theorem first_cause_kept fuel interval now next bg w worked bg' next' w' : bg <> Ok -> is_retryable bg = false ->
  background_pass fuel interval now next bg w = Some (worked, bg', next', w') -> bg' = bg.
Proof.
  intros Hb Hr. unfold background_pass. destruct (collect w) as [? w1], (reclaim Ok w1) as [[? ?] ?].
  destruct (drain_migrations _ _ _ _ _) as [[[[? ?] ?] ?]|]; [|done]. destruct (compactions _ _ _ _ _) as [[[? ?] ?]|]; [|done].
  destruct (reencryptions _ _ _ _) as [[[? ?] ?]|]; [|done]. destruct interval as [i|]; [destruct (next <=? now); [destruct (sweep _)|]|].
  all: intros [= _ <- _ _]; by rewrite ?(keep_cause_terminal bg) by (rewrite ?(keep_cause_terminal bg) by done; done).
Qed.
End Passes.

Arguments TasksLaws W {tasks} size.

(** ** At concrete tasks *)

Section Runs.
(** Work is a count; each task that finds some does one unit of it. *)
Local Instance counter : Tasks nat := {
  collect n := (false, n);
  reclaim s n := match n with S n' => (true, s, n') | O => (false, s, O) end;
  migrate s p n := match n with S n' => (true, Ok, p, n') | O => (false, s, p, O) end;
  compact s n := match n with S n' => (true, Ok, n') | O => (false, s, O) end;
  reencrypt s n := match n with S n' => (true, Ok, n') | O => (false, s, O) end;
  sweep n := (Ok, n)
}.

Local Instance counter_laws : TasksLaws nat id.
Proof. constructor; unfold id; intros; destruct w; cbn in *; simplify_eq; try lia; split; try lia; done. Qed.

Example quiet_means_idle_witness : exists s w', compact_until_quiet 8 7%nat = Some (s, w') /\ (s = Ok -> idle w').
Proof. apply (quiet_means_idle (size := id)); apply Nat.ltb_lt; vm_compute; reflexivity. Defined.

Example quiet_run : compact_until_quiet 8 7%nat = Some (Ok, 0%nat).
Proof. vm_compute. reflexivity. Qed.

(** A picker that answers the same compaction again and again, whose run succeeds. *)
Local Instance stuck : Tasks unit := {
  collect w := (false, w);
  reclaim s w := (false, s, w);
  migrate s p w := (false, s, p, w);
  compact s w := (true, Ok, w);
  reencrypt s w := (false, s, w);
  sweep w := (Ok, w)
}.

(** The limit of rounds stops it, and the caller is told [Ok]. *)
Example stuck_picker_reports_ok : compact_until_quiet 1 tt = Some (Ok, tt) /\ ~ idle tt.
Proof. split; [vm_compute; reflexivity|]. by intros (_ & _ & H & _). Qed.

End Runs.
