(* ===== verification/Db.v ===== *)
(** * The engine: writes, rotation, flushes

    The write path of [src/db/db_impl.cpp]: [put], [remove], [delete_range], [write],
    [truncate_below], the rotation of the memtable and [flush_memtable], over the engine's state.
    What a call is told by the throttle, by the clock and by the manifest write is an argument. A write is one
    step here, the one it takes under the lock and the rotation that follows with background threads; the whole calls, with the
    throttle's own waits, shedding and rotation and with the inline mode, are [put_call] and the others of [Admission],
    and [run_call_spec] of [AdmissionProofs] shows that with background threads they take these steps. *)

From S2P Require Import Prelude Slice Format Framing Watermark VersionEdit Version Memtable Merging Sst Lsm Picker Outputs Compact Reclaim.

(** ** State *)

Record Db := {
  db_read_only : bool;
  db_bg_error : Status;
  db_write_floor : bytes;
  db_mem : SkiplistMemtable;
  db_imm : option SkiplistMemtable;
  db_imm_installed : bool;  (* the flush of [imm_] has reached the manifest, [imm_] is not dropped yet *)
  db_version : Version;
  db_store : Store;
  db_next_file_number : Z;
  db_established_watermark : option Z;
  db_compacting : option (Compaction * bytes)  (* the compaction in flight, and the truncation point it reads *)
}.

Definition with_mem (db : Db) (m : SkiplistMemtable) : Db :=
  {| db_read_only := db_read_only db; db_bg_error := db_bg_error db; db_write_floor := db_write_floor db;
     db_mem := m; db_imm := db_imm db; db_imm_installed := db_imm_installed db; db_version := db_version db;
     db_store := db_store db; db_next_file_number := db_next_file_number db;
     db_established_watermark := db_established_watermark db;
     db_compacting := db_compacting db |}.

Definition with_floor (db : Db) (floor : bytes) : Db :=
  {| db_read_only := db_read_only db; db_bg_error := db_bg_error db; db_write_floor := floor;
     db_mem := db_mem db; db_imm := db_imm db; db_imm_installed := db_imm_installed db;
     db_version := db_version db; db_store := db_store db; db_next_file_number := db_next_file_number db;
     db_established_watermark := db_established_watermark db;
     db_compacting := db_compacting db |}.

(** [VersionSet::apply] when the manifest write lands: the edit carries the counter of file numbers. *)
Definition stamp_edit (next : Z) (e : VersionEdit) : VersionEdit :=
  {| next_file_number := next; added := added e; deleted := deleted e;
     compaction_pointers := compaction_pointers e; truncation_point := truncation_point e;
     floor_update := floor_update e; watermark_floor := watermark_floor e |}.

Definition install (db : Db) (e : VersionEdit) : Db :=
  {| db_read_only := db_read_only db; db_bg_error := db_bg_error db; db_write_floor := db_write_floor db;
     db_mem := db_mem db; db_imm := db_imm db; db_imm_installed := db_imm_installed db;
     db_version := apply (db_version db) (stamp_edit (db_next_file_number db) e);
     db_store := db_store db; db_next_file_number := db_next_file_number db;
     db_established_watermark := db_established_watermark db;
     db_compacting := db_compacting db |}.

(** ** Memtables *)

(** [DbImpl::new_memtable]. *)
Definition created_memtable (now : Z) (established : option Z) : SkiplistMemtable :=
  let s := new_memtable in
  {| nodes := nodes s; max_height_ := max_height_ s; entries_ := entries_ s; tombstones_ := tombstones_ s;
     ranges_ := ranges_ s; range_count_ := range_count_ s; creation_time_ms_ := now;
     sealed_time_ms_ := sealed_time_ms_ s;
     watermark_ := match established with
                   | Some p => {| low := Some p; high := Some p |}
                   | None => watermark_ s
                   end;
     rng_state_ := rng_state_ s |}.

Definition sealed_at (now : Z) (s : SkiplistMemtable) : SkiplistMemtable :=
  {| nodes := nodes s; max_height_ := max_height_ s; entries_ := entries_ s; tombstones_ := tombstones_ s;
     ranges_ := ranges_ s; range_count_ := range_count_ s; creation_time_ms_ := creation_time_ms_ s;
     sealed_time_ms_ := now; watermark_ := watermark_ s; rng_state_ := rng_state_ s |}.

Definition seal_memtable (now : Z) (db : Db) : Db :=
  {| db_read_only := db_read_only db; db_bg_error := db_bg_error db; db_write_floor := db_write_floor db;
     db_mem := created_memtable now (db_established_watermark db);
     db_imm := Some (sealed_at now (db_mem db)); db_imm_installed := false;
     db_version := db_version db; db_store := db_store db; db_next_file_number := db_next_file_number db;
     db_established_watermark := db_established_watermark db;
     db_compacting := db_compacting db |}.

(** [maybe_freeze_memtable(false)] with background threads; [due] is [memtable_flush_due]. [freeze_memtable] of
    [Admission] is the whole function, inline mode and forced rotation included. *)
Definition maybe_freeze_memtable (due : bool) (now : Z) (db : Db) : Status * Db :=
  if negb due then (Ok, db)
  else
    match db_imm db with
    | Some _ => (Ok, db)
    | None => if empty (db_mem db) then (Ok, db) else (Ok, seal_memtable now db)
    end.

(** ** Writes *)

Definition check_entry_size (key value : bytes) : Status :=
  if kMaxKeyBytes <? zlen key then Config
  else if kMaxValueBytes <? zlen value then Config
  else Ok.

Definition check_below_truncation (db : Db) (key : bytes) : Status :=
  if negb (bool_decide (db_write_floor db = [])) && (key <?k db_write_floor db) then Config else Ok.

(** What a write call is told from outside: by the throttle, which ran before, and by the clock. *)
Record Ambient := { am_throttle : Status; am_due : bool; am_now : Z }.

Definition refused (db : Db) : bool := negb (bool_decide (db_bg_error db = Ok)) && is_terminal (db_bg_error db).

Definition db_put (am : Ambient) (db : Db) (key value : bytes) : Status * Db :=
  if db_read_only db then (Config, db)
  else match check_entry_size key value with
       | Ok =>
           match am_throttle am with
           | Ok =>
               if refused db then (db_bg_error db, db)
               else match check_below_truncation db key with
                    | Ok => maybe_freeze_memtable (am_due am) (am_now am) (with_mem db (put (db_mem db) key value))
                    | s => (s, db)
                    end
           | s => (s, db)
           end
       | s => (s, db)
       end.

Definition db_remove (am : Ambient) (db : Db) (key : bytes) : Status * Db :=
  if db_read_only db then (Config, db)
  else match check_entry_size key [] with
       | Ok =>
           match am_throttle am with
           | Ok =>
               if refused db then (db_bg_error db, db)
               else match check_below_truncation db key with
                    | Ok => maybe_freeze_memtable (am_due am) (am_now am) (with_mem db (remove (db_mem db) key))
                    | s => (s, db)
                    end
           | s => (s, db)
           end
       | s => (s, db)
       end.

(** A range narrowed to the part above the floor. *)
Definition clamp (floor lower : bytes) : bytes :=
  if negb (bool_decide (floor = [])) && (lower <?k floor) then floor else lower.

Definition db_delete_range (am : Ambient) (db : Db) (lower upper : bytes) : Status * Db :=
  if db_read_only db then (Config, db)
  else match check_entry_size lower [] with
       | Ok =>
           match check_entry_size upper [] with
           | Ok =>
               let lower := clamp (truncation_point_ (db_version db)) lower in
               if negb (lower <?k upper) then (Ok, db)
               else match am_throttle am with
                    | Ok =>
                        if refused db then (db_bg_error db, db)
                        else maybe_freeze_memtable (am_due am) (am_now am)
                               (with_mem db (delete_range (db_mem db) lower upper))
                    | s => (s, db)
                    end
           | s => (s, db)
           end
       | s => (s, db)
       end.

(** [WriteBatch::Op]; the value of a range delete is its upper bound. *)
Inductive BatchOp := BPut (key value : bytes) | BRemove (key : bytes) | BDeleteRange (key value : bytes).

(** The validation pass: every op in order, the first refusal wins. *)
Fixpoint validate_batch (db : Db) (ops : list BatchOp) : Status :=
  match ops with
  | [] => Ok
  | op :: rest =>
      let status :=
        match op with
        | BDeleteRange lo up =>
            match check_entry_size lo [] with Ok => check_entry_size up [] | s => s end
        | BPut k v => match check_entry_size k v with Ok => check_below_truncation db k | s => s end
        | BRemove k => match check_entry_size k [] with Ok => check_below_truncation db k | s => s end
        end in
      match status with Ok => validate_batch db rest | s => s end
  end.

Definition apply_batch_op (floor : bytes) (m : SkiplistMemtable) (op : BatchOp) : SkiplistMemtable :=
  match op with
  | BPut k v => put m k v
  | BRemove k => remove m k
  | BDeleteRange lo up =>
      let lo := clamp floor lo in
      if lo <?k up then delete_range m lo up else m
  end.

Definition db_write (am : Ambient) (db : Db) (batch : list BatchOp) : Status * Db :=
  if db_read_only db then (Config, db)
  else match am_throttle am with
       | Ok =>
           if refused db then (db_bg_error db, db)
           else match validate_batch db batch with
                | Ok => maybe_freeze_memtable (am_due am) (am_now am)
                          (with_mem db (fold_left (apply_batch_op (db_write_floor db)) batch (db_mem db)))
                | s => (s, db)
                end
       | s => (s, db)
       end.

Definition truncate_edit (key : bytes) : VersionEdit :=
  {| next_file_number := 0; added := []; deleted := []; compaction_pointers := [];
     truncation_point := key; floor_update := Silent; watermark_floor := {| position := None |} |}.

(** [truncate_below]; [applied] is what the manifest write answers. *)
Definition truncate_below (applied : Status) (db : Db) (key : bytes) : Status * Db :=
  if db_read_only db then (Config, db)
  else if bool_decide (key = []) then (Ok, db)
  else if negb (db_write_floor db <?k key) then (Ok, db)
  else
    let previous_floor := db_write_floor db in
    let db' := with_floor db key in
    match applied with
    | Ok => (Ok, install db' (truncate_edit key))
    | s => (s, if bool_decide (db_write_floor db' = key) then with_floor db' previous_floor else db')
    end.

(** ** Flushes *)

(** The file [flush_memtable] builds: [drop_tombstones] is off, L0 is never bottommost. *)
Definition flush_writer (m : SkiplistMemtable) : SstWriter := build_sst (ascending m) false (range_tombstones m).

Definition flush_file (l0 : ResolvedLevel) (wr : Written) (m : SkiplistMemtable) : FileMetadata :=
  file_of {| p_level := 0; p_number := wr_number wr; p_store := wr_store wr; p_bytes := wr_bytes wr;
             p_compression := rl_compression l0; p_min_time := creation_time_ms_ m;
             p_max_time := sealed_time_ms_ m; p_watermark := watermark_ m;
             p_provider := wr_provider wr; p_metadata := wr_metadata wr |} (flush_writer m).

Definition flush_edit (f : FileMetadata) : VersionEdit :=
  {| next_file_number := 0; added := [f]; deleted := []; compaction_pointers := [];
     truncation_point := []; floor_update := Silent; watermark_floor := {| position := None |} |}.

(** [flush_memtable], when the object is written: the counter has moved past its number. *)
Definition flush_memtable (l0 : ResolvedLevel) (wr : Written) (db : Db) (m : SkiplistMemtable) : Db :=
  let w := flush_writer m in
  if (w_num_entries w =? 0) && (w_num_range_tombstones w =? 0) then db
  else
    install
      {| db_read_only := db_read_only db; db_bg_error := db_bg_error db; db_write_floor := db_write_floor db;
         db_mem := db_mem db; db_imm := db_imm db; db_imm_installed := db_imm_installed db;
         db_version := db_version db;
         db_store := store_put (db_store db) (wr_number wr) (writer_content w);
         db_next_file_number := wr_number wr + 1;
         db_established_watermark := db_established_watermark db;
     db_compacting := db_compacting db |}
      (flush_edit (flush_file l0 wr m)).

(** [run_one_flush] up to the manifest, and its last step: dropping [imm_]. *)
Definition flush_install (l0 : ResolvedLevel) (wr : Written) (db : Db) : Db :=
  match db_imm db with
  | None => db
  | Some m =>
      let db := flush_memtable l0 wr db m in
      {| db_read_only := db_read_only db; db_bg_error := db_bg_error db; db_write_floor := db_write_floor db;
         db_mem := db_mem db; db_imm := db_imm db; db_imm_installed := true; db_version := db_version db;
         db_store := db_store db; db_next_file_number := db_next_file_number db;
         db_established_watermark := db_established_watermark db;
     db_compacting := db_compacting db |}
  end.

Definition flush_done (db : Db) : Db :=
  {| db_read_only := db_read_only db; db_bg_error := db_bg_error db; db_write_floor := db_write_floor db;
     db_mem := db_mem db; db_imm := None; db_imm_installed := false; db_version := db_version db;
     db_store := db_store db; db_next_file_number := db_next_file_number db;
     db_established_watermark := db_established_watermark db;
     db_compacting := db_compacting db |}.

(** A background error is stored or cleared. *)
Definition with_bg_error (db : Db) (s : Status) : Db :=
  {| db_read_only := db_read_only db; db_bg_error := s; db_write_floor := db_write_floor db;
     db_mem := db_mem db; db_imm := db_imm db; db_imm_installed := db_imm_installed db;
     db_version := db_version db; db_store := db_store db; db_next_file_number := db_next_file_number db;
     db_established_watermark := db_established_watermark db; db_compacting := db_compacting db |}.

(** An object that was written and whose edit did not reach the manifest. *)
Definition with_orphan (db : Db) (number : Z) (c : Sst) : Db :=
  {| db_read_only := db_read_only db; db_bg_error := db_bg_error db; db_write_floor := db_write_floor db;
     db_mem := db_mem db; db_imm := db_imm db; db_imm_installed := db_imm_installed db;
     db_version := db_version db; db_store := store_put (db_store db) number c; db_next_file_number := number + 1;
     db_established_watermark := db_established_watermark db; db_compacting := db_compacting db |}.

(** The errors of [run_one_flush]: a terminal one is never overwritten. *)
Definition flush_failed (s : Status) (db : Db) : Db :=
  if bool_decide (db_bg_error db = Ok) || is_retryable (db_bg_error db) then with_bg_error db s else db.

(** What one flush is told: by [write_new_sst], and by the manifest when it applies the edit. *)
Record FlushOutcome := { fo_written : Result Written; fo_applied : Status }.

(** [run_one_flush]: whether it flushed, the status, and the state; [status] is what the caller passed in. *)
Definition run_one_flush (l0 : ResolvedLevel) (o : FlushOutcome) (status : Status) (db : Db) : bool * Status * Db :=
  match db_imm db with
  | None => (false, status, db)
  | Some m =>
      let w := flush_writer m in
      if (w_num_entries w =? 0) && (w_num_range_tombstones w =? 0) then (true, Ok, flush_done db)
      else
        match fo_written o with
        | Unexpected s => (false, s, flush_failed s db)
        | Value wr =>
            match fo_applied o with
            | Ok => (true, Ok, flush_done (flush_install l0 wr db))
            | s => (false, s, flush_failed s (with_orphan db (wr_number wr) (writer_content w)))
            end
        end
  end.

Definition memtables (db : Db) : list SkiplistMemtable :=
  db_mem db :: match db_imm db with Some m => [m] | None => [] end.

(** [set_watermark]. *)
Definition set_watermark (db : Db) (pos : Z) : Status * Db :=
  if db_read_only db then (Config, db)
  else if refused db then (db_bg_error db, db)
  else if match db_established_watermark db with Some e => pos <? e | None => false end then (Config, db)
  else
    let m := db_mem db in
    let wm := if empty m then {| low := Some pos; high := Some pos |}
              else {| low := low (watermark_ m); high := Some pos |} in
    (Ok,
     {| db_read_only := db_read_only db; db_bg_error := db_bg_error db; db_write_floor := db_write_floor db;
        db_mem := {| nodes := nodes m; max_height_ := max_height_ m; entries_ := entries_ m;
                     tombstones_ := tombstones_ m; ranges_ := ranges_ m; range_count_ := range_count_ m;
                     creation_time_ms_ := creation_time_ms_ m; sealed_time_ms_ := sealed_time_ms_ m;
                     watermark_ := wm; rng_state_ := rng_state_ m |};
        db_imm := db_imm db; db_imm_installed := db_imm_installed db; db_version := db_version db;
        db_store := db_store db; db_next_file_number := db_next_file_number db;
        db_established_watermark := Some pos; db_compacting := db_compacting db |}).

(** ** Maintenance

    One executor picks and runs compactions and reclaims; writes and flushes go on meanwhile. *)

Definition with_compacting (db : Db) (c : option (Compaction * bytes)) : Db :=
  {| db_read_only := db_read_only db; db_bg_error := db_bg_error db; db_write_floor := db_write_floor db;
     db_mem := db_mem db; db_imm := db_imm db; db_imm_installed := db_imm_installed db;
     db_version := db_version db; db_store := db_store db; db_next_file_number := db_next_file_number db;
     db_established_watermark := db_established_watermark db; db_compacting := c |}.

(** The head of [run_one_compaction]: the pick, from the version current then. *)
Definition start_compaction (config : list ResolvedLevel) (max_compaction_bytes chosen : Z) (db : Db) : Db :=
  match pick_compaction (db_version db) config max_compaction_bytes chosen with
  | Some c => with_compacting db (Some (c, truncation_point_ (db_version db)))
  | None => db
  end.

Section Maintenance.
Context {R : Type} `{ops : SstReaderOps R} (reader_for : Store -> FileMetadata -> Result R).

(** [run_compaction] in flight reaches the manifest; [next] is the counter by then. *)
Definition finish_compaction (full : SstWriter -> bool) (written : nat -> Written) (target : ResolvedLevel)
    (next : Z) (db : Db) : Result Db :=
  match db_compacting db with
  | None => Value db
  | Some (c, tp) =>
      let? (e, store') := compaction_edit (reader_for (db_store db)) full written target tp (db_store db) c in
      Value (with_compacting
        (install
          {| db_read_only := db_read_only db; db_bg_error := db_bg_error db; db_write_floor := db_write_floor db;
             db_mem := db_mem db; db_imm := db_imm db; db_imm_installed := db_imm_installed db;
             db_version := db_version db; db_store := store'; db_next_file_number := next;
             db_established_watermark := db_established_watermark db; db_compacting := db_compacting db |} e)
        None)
  end.

(** [reclaim_dead_files] without a time to live. *)
Definition run_reclaim (db : Db) : Db :=
  let dead := dead_files (reader_for (db_store db)) (db_version db) None in
  if bool_decide (dead = []) then db else install db (reclaim_edit dead).
End Maintenance.
