(* ===== verification/Flush.v ===== *)
(** * Flushing a memtable

    [DbImpl::flush_memtable] ([Db.flush_memtable]) writes down what the memtable says, on top of
    everything else; a compaction picked before the flush is still sound after it. *)

From S2P Require Import Prelude Slice Format Framing Watermark VersionEdit Version Memtable Merging Sst Lsm Picker Outputs Compact CompactProofs PickerProofs Reclaim Db.

(** ** Versions with the same files *)

Definition same_files (v v' : Version) : Prop := levels_ v = levels_ v' /\ carries_ranges_ v = carries_ranges_ v'.

Lemma same_files_at v v' lvl : same_files v v' -> files_at v lvl = files_at v' lvl.
Proof. intros [E _]. unfold files_at, num_levels. by rewrite E. Qed.

Lemma same_all_files v v' : same_files v v' -> all_files v = all_files v'.
Proof. intros [E _]. unfold all_files. by rewrite E. Qed.

Lemma same_version_ok content v v' : same_files v v' -> version_ok content v -> version_ok content v'.
Proof.
  intros Hs Hv. assert (forall lvl, carries_ranges v lvl = carries_ranges v' lvl) as Hc
    by (destruct Hs as [_ E]; intros; unfold carries_ranges; by rewrite E).
  split; intros lvl; rewrite <- ?(same_files_at _ _ lvl Hs), <- ?(same_all_files _ _ Hs), <- ?Hc; apply Hv.
Qed.

(** The same files at every level, in whatever order. *)
Definition same_members (v v' : Version) : Prop := forall lvl g, g ∈ files_at v lvl <-> g ∈ files_at v' lvl.

Lemma same_files_members v v' : same_files v v' -> same_members v v'.
Proof. intros Hs lvl g. by rewrite (same_files_at _ _ lvl Hs). Qed.

Section SameMembers.
Context (content : FileMetadata -> Sst) (v v' : Version) (Hs : same_members v v').

Lemma members_all g : g ∈ all_files v <-> g ∈ all_files v'.
Proof. rewrite !elem_of_all_files. split; intros (lvl & H); exists lvl; by apply (Hs lvl g). Qed.

Lemma members_resolve k : version_ok content v -> version_ok content v' -> resolve content v k = resolve content v' k.
Proof.
  intros Hv Hv'. apply option_eq. intros e. rewrite !resolve_decides by done.
  split; intros (f & Hf & Hvf & Hmax); exists f; (split_and!; [by apply members_all|done|]);
    intros g Hg; apply Hmax; by apply members_all.
Qed.

Lemma members_compaction_ok c : compaction_ok content v c -> compaction_ok content v' c.
Proof.
  intros Hc. split.
  - apply Hc.
  - intros f Hf. by apply Hs, (co_inputs _ _ _ Hc).
  - intros f Hf. by apply Hs, (co_overlaps _ _ _ Hc).
  - apply Hc.
  - intros p Hp%Hs. by apply Hc.
  - intros g f k Hg%Hs. by apply Hc.
  - apply Hc.
  - intros Hb p g k Hp%members_all. by apply (co_bottom _ _ _ Hc).
  - apply Hc.
Qed.
End SameMembers.

Lemma stamp_same n v e : same_files (apply v e) (apply v (stamp_edit n e)).
Proof. done. Qed.

(** ** What is written down *)

Definition memtable_small (m : SkiplistMemtable) : Prop :=
  Z.of_nat (length (ascending m)) < 2 ^ 64 /\ Z.of_nat (length (range_tombstones m)) < 2 ^ 64.

Lemma flush_writer_spec m :
  memtable_small m ->
  writer_ok (flush_writer m) /\
  writer_content (flush_writer m) = {| entries := ascending m; ranges := range_tombstones m |}.
Proof.
  intros [Ha Hr]. unfold flush_writer, build_sst. set (w0 := fold_left writer_add_range_tombstone _ _).
  destruct (writer_add_ranges (range_tombstones m) new_writer writer_ok_new) as (Hw0 & Hr0 & He0); [simpl; lia|].
  fold w0 in Hw0, Hr0, He0. change (fold_left _ (ascending m) w0) with (fold_left writer_add (ascending m) w0).
  destruct (writer_adds (ascending m) w0 Hw0) as (Hw1 & He1 & Hr1); [rewrite He0; simpl; lia|].
  split; [done|]. unfold writer_content. rewrite He1, Hr1, He0, Hr0. simpl. by rewrite !app_nil_r, !rev_involutive.
Qed.

Lemma ascending_assoc s m k : models s m -> assoc k (ascending s) = m.1 !! k.
Proof.
  intros Hm. destruct (models_reads s m Hm) as (_ & _ & _ & Hp & Hs & _).
  apply option_eq. intros e. rewrite assoc_elem by done. rewrite Hp. apply elem_of_map_to_list.
Qed.

Lemma flush_verdict s m k :
  models s m -> memtable_small s -> sst_verdict (writer_content (flush_writer s)) k = mem_verdict m k.
Proof.
  intros Hm Hs. destruct (flush_writer_spec s Hs) as [_ ->]. unfold sst_verdict, mem_verdict. simpl.
  destruct (models_reads s m Hm) as (_ & _ & Hr & _). by rewrite (ascending_assoc s m k Hm), Hr.
Qed.

Lemma flush_describes l0 wr s m :
  models s m -> memtable_small s ->
  (w_num_entries (flush_writer s) =? 0) && (w_num_range_tombstones (flush_writer s) =? 0) = false ->
  describes (flush_file l0 wr s) (writer_content (flush_writer s)).
Proof.
  intros Hm Hs Hne. destruct (flush_writer_spec s Hs) as [Hw Hc]. destruct (models_reads s m Hm) as (_ & _ & _ & _ & Hsort & _).
  unfold flush_file. injection Hc as He Hr. apply writer_describes; [done| | |].
  - by rewrite He.
  - rewrite Hr. apply merge_ranges_ok.
  - rewrite (wo_entries _ Hw), (wo_ranges _ Hw) in Hne. apply andb_false_iff in Hne as [H|H]; zbool; [left|right];
      intros E; rewrite E in H; done.
Qed.

(** Nothing to write: the memtable says nothing. *)
Lemma flush_nothing s m k :
  models s m -> memtable_small s ->
  (w_num_entries (flush_writer s) =? 0) && (w_num_range_tombstones (flush_writer s) =? 0) = true ->
  mem_verdict m k = None.
Proof.
  intros Hm Hs Hz. rewrite <- (flush_verdict s m k Hm Hs). destruct (flush_writer_spec s Hs) as [Hw _].
  rewrite (wo_entries _ Hw), (wo_ranges _ Hw) in Hz. apply andb_true_iff in Hz as [H1 H2]. zbool.
  unfold sst_verdict, writer_content. simpl. by destruct (w_entries (flush_writer s)), (w_ranges (flush_writer s)).
Qed.

(** ** Installing it *)

Section Install.
Context (store : Store) (v : Version) (f : FileMetadata) (c : Sst).
Abbreviation content := (store_content store).
Abbreviation content' := (store_content (store_put store (file_number f) c)).
Context (Hv : version_ok content v) (Hd : describes f c) (Hl : level f = 0).
Context (Hnew : forall g, g ∈ all_files v -> file_number g < file_number f).

Lemma flush_replaces : replaces v (flush_edit f) [] [f].
Proof.
  split; simpl; try done.
  - intros lvl g Hg. split; [done|by intros ?%elem_of_nil].
  - apply NoDup_singleton.
  - intros w g ->%list_elem_of_singleton Hg _. specialize (Hnew g Hg). lia.
  - intros w ->%list_elem_of_singleton. lia.
Qed.

Lemma flush_old g : g ∈ all_files v -> content' g = content g.
Proof.
  intros Hg. unfold store_content, store_put. specialize (Hnew g Hg).
  by rewrite (proj2 (Z.eqb_neq _ _)) by lia.
Qed.

Lemma flush_own : content' f = c.
Proof. unfold store_content, store_put. by rewrite Z.eqb_refl. Qed.

Lemma flush_version_ok : version_ok content' (apply v (flush_edit f)).
Proof.
  eapply (replace_ok content _ v _ [] [f]); [done|apply flush_replaces|..].
  - intros g Hg _. by apply flush_old.
  - intros w ->%list_elem_of_singleton. by rewrite flush_own.
  - intros w g ->%list_elem_of_singleton ?. lia.
  - by intros w w' ->%list_elem_of_singleton ->%list_elem_of_singleton.
Qed.

Lemma flush_newest g : g ∈ all_files v -> newer_than f g = true.
Proof.
  intros Hg. specialize (Hnew g Hg). pose proof (in_level _ _ (vo_filed _ _ Hv) Hg) as Hgl.
  apply files_at_bounds in Hgl. unfold newer_than. rewrite Hl. lia.
Qed.

Lemma flush_files g : g ∈ all_files (apply v (flush_edit f)) <-> g ∈ all_files v \/ g = f.
Proof.
  rewrite (replace_all v _ [] [f] flush_replaces). rewrite list_elem_of_singleton.
  split; [naive_solver|]. intros [?|?]; [left; split; [done|by intros ?%elem_of_nil]|by right].
Qed.

(** The new file decides what it can; everything else is as before. *)
Lemma flush_resolve k :
  resolve content' (apply v (flush_edit f)) k =
  match sst_verdict c k with Some e => Some e | None => resolve content v k end.
Proof.
  assert (verdict content' f k = sst_verdict c k) as Ef by (unfold verdict; by rewrite flush_own).
  assert (forall g, g ∈ all_files v -> verdict content' g k = verdict content g k) as Eold
    by (intros g Hg; unfold verdict; by rewrite flush_old).
  destruct (sst_verdict c k) as [e|] eqn:E.
  { apply resolve_decides; [apply flush_version_ok|]. exists f. split_and!; [apply flush_files; auto|done|].
    intros g [Hg| ->]%flush_files _; [right; by apply flush_newest|by left]. }
  destruct (resolve content v k) as [e|] eqn:Er.
  - apply (resolve_decides content v k e Hv) in Er as (g & Hg & Hvg & Hmax).
    apply resolve_decides; [apply flush_version_ok|]. exists g.
    split_and!; [apply flush_files; auto|by rewrite Eold|].
    intros h [Hh| ->]%flush_files Ht; [apply Hmax; [done|]; unfold touches in *; by rewrite <- Eold|].
    exfalso. apply Ht. by rewrite Ef.
  - rewrite resolve_None in *. intros g [Hg| ->]%flush_files; [rewrite Eold by done; by apply Er|done].
Qed.

(** A compaction picked before the flush is still sound after it. *)
Lemma flush_compaction_ok cp :
  compaction_ok content v cp -> compaction_ok content' (apply v (flush_edit f)) cp.
Proof.
  intros Hc. pose proof (output_positive content v cp Hc) as Hpos.
  assert (forall lvl g, g ∈ files_at (apply v (flush_edit f)) lvl <-> g ∈ files_at v lvl \/ (g = f /\ lvl = 0)) as Hfiles.
  { intros lvl g. rewrite (replace_files v _ [] [f] flush_replaces), list_elem_of_singleton.
    split; [naive_solver|]. intros [?|[-> ->]]; [left; split; [done|by intros ?%elem_of_nil]|by right]. }
  assert (forall g k, g ∈ all_files v -> touches content' g k <-> touches content g k) as Ht
    by (intros g k Hg; unfold touches, verdict; by rewrite flush_old).
  assert (forall g, g ∈ all_inputs cp -> g ∈ all_files v) as Hin by (by eapply input_file).
  split.
  - apply Hc.
  - intros g Hg. apply Hfiles. left. by apply (co_inputs _ _ _ Hc).
  - intros g Hg. apply Hfiles. left. by apply (co_overlaps _ _ _ Hc).
  - apply Hc.
  - intros p [Hp|[_ ?]]%Hfiles Hn; [|lia]. by apply (co_apart _ _ _ Hc).
  - intros g h k [Hg|[-> E]]%Hfiles Hn Hh Htg Hth.
    + apply (co_oldest _ _ _ Hc g h k); try done; [apply Ht; [by eapply in_all|done]|apply Ht; [|done]].
      apply Hin, elem_of_app. by left.
    + apply flush_newest, Hin, elem_of_app. by left.
  - intros i j a b k Hij Hi Hj Hta Htb. apply (co_recency _ _ _ Hc i j a b k); try done;
      (apply Ht; [apply Hin; by eapply list_elem_of_lookup_2|done]).
  - intros Hb p g k [Hp| ->]%flush_files Hlt Hg Htp Htg; [|lia].
    apply (co_bottom _ _ _ Hc Hb p g k); try done; (apply Ht; [|done]); auto.
  - apply Hc.
Qed.
End Install.

(** ** Properties *)

(** A flush writes down what the memtable says, on top of everything. The file built from a
    memtable that has anything to say describes its content; installed under a number above all
    others it leaves the version well formed, and every key reads as the memtable's verdict, or as
    before where the memtable has none. *)
Theorem flush_writes_on_top store v l0 wr s m :
  version_ok (store_content store) v -> models s m -> memtable_small s -> (exists k, mem_verdict m k <> None) ->
  (forall g, g ∈ all_files v -> file_number g < wr_number wr) ->
  let f := flush_file l0 wr s in
  let store' := store_put store (wr_number wr) (writer_content (flush_writer s)) in
  let v' := apply v (flush_edit f) in
  version_ok (store_content store') v' /\
  forall k, resolve (store_content store') v' k =
            match mem_verdict m k with Some e => Some e | None => resolve (store_content store) v k end.
Proof.
  intros Hv Hm Hs [k0 He] Hn. cbv zeta.
  assert (describes (flush_file l0 wr s) (writer_content (flush_writer s))) as Hd.
  { eapply flush_describes; [done|done|]. destruct (_ && _) eqn:Ez; [|done].
    exfalso. by apply He, (flush_nothing s m k0 Hm Hs). }
  split; [by apply (flush_version_ok store v (flush_file l0 wr s))|]. intros k.
  etrans; [exact (flush_resolve store v (flush_file l0 wr s) _ Hv Hd eq_refl Hn k)|].
  by rewrite (flush_verdict s m k Hm Hs).
Qed.

(** A flush may land while a compaction runs. A compaction that was sound for the version it was
    picked from is sound for the version a newer L0 file has been added to. *)
Theorem compaction_survives_flush store v f c cp :
  version_ok (store_content store) v -> level f = 0 ->
  (forall g, g ∈ all_files v -> file_number g < file_number f) ->
  compaction_ok (store_content store) v cp ->
  compaction_ok (store_content (store_put store (file_number f) c)) (apply v (flush_edit f)) cp.
Proof. intros Hv Hl Hn Hc. by apply flush_compaction_ok. Qed.
