(* ===== verification/Refinement.v ===== *)
(** * The engine implements a map

    The abstract contract of the store — a finite map with a floor below which nothing is readable —
    and the simulation: whatever interleaving of writes, rotations, flushes, compactions, reclaims
    and truncations the engine goes through, [get] answers what the map holds.

    The empty key is left out ([op_nonempty]): [Picker.widen] cannot represent it. *)

From S2P Require Import Prelude Slice Format Framing Watermark VersionEdit Version Memtable Merging Sst Lsm Picker Outputs Compact CompactProofs PickerProofs Reclaim Db Flush.

(** ** The contract *)

Record Kv := { kv_map : gmap bytes bytes; kv_floor : bytes }.

Definition kv_hidden (a : Kv) (k : bytes) : bool := negb (bool_decide (kv_floor a = [])) && (k <?k kv_floor a).

Definition kv_get (a : Kv) (k : bytes) : Result bytes :=
  if kv_hidden a k then Unexpected NotFound
  else match kv_map a !! k with Some v => Value v | None => Unexpected NotFound end.

Definition kv_op (m : gmap bytes bytes) (op : BatchOp) : gmap bytes bytes :=
  match op with
  | BPut k v => <[k := v]> m
  | BRemove k => delete k m
  | BDeleteRange lo up => filter (fun kv => covers (mkRange lo up) kv.1 = false) m
  end.

Definition kv_write (a : Kv) (ops : list BatchOp) : Kv :=
  {| kv_map := fold_left kv_op ops (kv_map a); kv_floor := kv_floor a |}.

Definition kv_truncate (a : Kv) (key : bytes) : Kv :=
  {| kv_map := kv_map a; kv_floor := if kv_floor a <?k key then key else kv_floor a |}.

(** A write that names no empty key. *)
Definition op_nonempty (op : BatchOp) : bool :=
  match op with
  | BPut k _ | BRemove k | BDeleteRange k _ => negb (bool_decide (k = []))
  end.

(** ** The engine's steps *)

Section Steps.
Context {R : Type} `{ops : SstReaderOps R} (reader_for : Store -> FileMetadata -> Result R).
Context (config : list ResolvedLevel).

(** What a step looks like from outside. *)
Inductive Label :=
  | LWrite (ops : list BatchOp)
  | LTruncate (key : bytes)
  | LInternal.

Inductive db_step : Db -> Label -> Db -> Prop :=
  | step_put am db k v db' : op_nonempty (BPut k v) = true -> db_put am db k v = (Ok, db') ->
      db_step db (LWrite [BPut k v]) db'
  | step_remove am db k db' : op_nonempty (BRemove k) = true -> db_remove am db k = (Ok, db') ->
      db_step db (LWrite [BRemove k]) db'
  | step_delete_range am db lo up db' : op_nonempty (BDeleteRange lo up) = true ->
      db_delete_range am db lo up = (Ok, db') -> db_step db (LWrite [BDeleteRange lo up]) db'
  | step_write am db batch db' : forallb op_nonempty batch = true -> db_write am db batch = (Ok, db') ->
      db_step db (LWrite batch) db'
  | step_truncate db key db' : truncate_below Ok db key = (Ok, db') -> db_read_only db = false ->
      db_step db (LTruncate key) db'
  | step_watermark db pos db' : set_watermark db pos = (Ok, db') -> db_step db LInternal db'
  | step_seal db now : db_imm db = None -> db_step db LInternal (seal_memtable now db)
  | step_flush_install db m l0 wr : db_imm db = Some m -> db_imm_installed db = false -> memtable_small m ->
      db_next_file_number db <= wr_number wr -> db_step db LInternal (flush_install l0 wr db)
  | step_flush_done db : db_imm_installed db = true -> db_step db LInternal (flush_done db)
  | step_pick db max_bytes chosen : db_compacting db = None -> 0 <= chosen ->
      db_step db LInternal (start_compaction config max_bytes chosen db)
  | step_compact db c tp full written target next db' : db_compacting db = Some (c, tp) ->
      input_size (store_content (db_store db)) c < 2 ^ 64 ->
      (forall i, db_next_file_number db <= wr_number (written i)) ->
      (forall i j, wr_number (written i) = wr_number (written j) -> i = j) ->
      finish_compaction reader_for full written target next db = Value db' ->
      (forall f, f ∈ all_files (db_version db') -> file_number f < next) ->
      db_step db LInternal db'
  | step_reclaim db : db_compacting db = None -> db_step db LInternal (run_reclaim reader_for db)
  | step_bg_error db s : db_step db LInternal (with_bg_error db s)
  | step_orphan db number c : db_next_file_number db <= number -> db_step db LInternal (with_orphan db number c).

(** The state [Db::open] leaves behind over the version it recovered. *)
Definition open_db (v0 : Version) (store : Store) (now : Z) : Db :=
  {| db_read_only := false; db_bg_error := Ok; db_write_floor := truncation_point_ v0;
     db_mem := created_memtable now None; db_imm := None; db_imm_installed := false; db_version := v0;
     db_store := store; db_next_file_number := next_file_number_ v0; db_established_watermark := None;
     db_compacting := None |}.
End Steps.

(** ** What a memtable says after one operation *)

Definition mem_op (op : BatchOp) : MemOp :=
  match op with BPut k v => OpPut k v | BRemove k => OpRemove k | BDeleteRange lo up => OpDeleteRange lo up end.

Lemma covers_empty_range lo up k : (lo <?k up) = false -> covers (mkRange lo up) k = false.
Proof. intros H. apply covers_empty. simpl. key_order. Qed.

(** The answer a write leaves behind, whatever lay below it. *)
Lemma spec_op_answer (m : gmap bytes Entry * list RangeTombstone) (op : BatchOp) (k : bytes) (rest : option Entry) (r : option bytes) (mp : gmap bytes bytes) :
  mp !! k = r ->
  answer_of (match mem_verdict m k with Some e => Some e | None => rest end) =
    match r with Some v => Value v | None => Unexpected NotFound end ->
  answer_of (match mem_verdict (spec_op m (mem_op op)) k with Some e => Some e | None => rest end) =
    match kv_op mp op !! k with Some v => Value v | None => Unexpected NotFound end.
Proof.
  intros <- Hans. destruct op as [k' v|k'|lo up]; unfold mem_verdict in *; simpl.
  - destruct (decide (k' = k)) as [->|Hne]; [by rewrite !lookup_insert_eq|]. by rewrite !lookup_insert_ne by done.
  - destruct (decide (k' = k)) as [->|Hne]; [by rewrite lookup_insert_eq, lookup_delete_eq|].
    by rewrite lookup_insert_ne, lookup_delete_ne by done.
  - rewrite delete_part_lookup.
    assert (any_covers (if lo <?k up then mkRange lo up :: m.2 else m.2) k = covers (mkRange lo up) k || any_covers m.2 k) as ->.
    { destruct (lo <?k up) eqn:E; [done|]. by rewrite covers_empty_range. }
    destruct (covers (mkRange lo up) k) eqn:Ec.
    + rewrite (map_lookup_filter_None_2 _ mp k) by (right; intros x _; simpl; congruence). by destruct (m.1 !! k).
    + simpl. rewrite (map_lookup_filter (fun kv => covers (mkRange lo up) kv.1 = false)).
      assert (forall o : option Entry, (fun e => e) <$> o = o) as -> by (by intros []).
      rewrite Hans. destruct (mp !! k) as [x|]; simpl; [|done]. by rewrite option_guard_True.
Qed.

(** *** No empty key in a memtable *)

Definition mem_nonempty (m : gmap bytes Entry * list RangeTombstone) : Prop :=
  m.1 !! [] = None /\ Forall (fun r => lower r <> []) m.2.

Lemma mem_nonempty_new : mem_nonempty (∅, []).
Proof. split; [apply lookup_empty|constructor]. Qed.

Lemma mem_verdict_new k : mem_verdict (∅, []) k = None.
Proof. unfold mem_verdict. cbn [fst snd]. by rewrite lookup_empty. Qed.

Lemma mem_nonempty_op (m : gmap bytes Entry * list RangeTombstone) (op : BatchOp) : mem_nonempty m -> op_nonempty op = true -> mem_nonempty (spec_op m (mem_op op)).
Proof.
  intros [H1 H2]. destruct op as [k v|k|lo up]; simpl; rewrite negb_true_iff, bool_decide_eq_false; intros Hk.
  - split; simpl; [by rewrite lookup_insert_ne|done].
  - split; simpl; [by rewrite lookup_insert_ne|done].
  - split; simpl; [by rewrite delete_part_lookup, H1|]. destruct (lo <?k up); [by constructor|done].
Qed.

Lemma mem_nonempty_verdict m : mem_nonempty m -> mem_verdict m [] = None.
Proof.
  intros [H1 H2]. unfold mem_verdict. rewrite H1. simpl. destruct (any_covers m.2 []) eqn:E; [|done].
  apply any_covers_spec in E as (r & Hr & Hle & _). rewrite Forall_forall in H2. exfalso. apply (H2 r Hr).
  destruct (key_trichotomy (lower r) []) as [?|[?|?]]; [exfalso; by eapply key_lt_empty|done|key_order].
Qed.

(** The engine's fields, without unfolding what they hold. *)
Ltac db_simpl :=
  cbn [db_read_only db_bg_error db_write_floor db_mem db_imm db_imm_installed db_version db_store
       db_next_file_number db_established_watermark db_compacting install with_mem with_floor with_compacting] in *.

(** ** The simulation *)

Definition Mem : Type := gmap bytes Entry * list RangeTombstone.

(** What lies below the live memtable. *)
Definition below_verdict (content : FileMetadata -> Sst) (v : Version) (im : option Mem) (k : bytes) : option Entry :=
  match im with
  | Some x => match mem_verdict x k with Some e => Some e | None => resolve content v k end
  | None => resolve content v k
  end.

Definition read_of (o : option bytes) : Result bytes :=
  match o with Some v => Value v | None => Unexpected NotFound end.

Definition over (e rest : option Entry) : option Entry := match e with Some x => Some x | None => rest end.

Lemma over_answer e r r' : answer_of r = answer_of r' -> answer_of (over e r) = answer_of (over e r').
Proof. by destruct e. Qed.

Section Simulation.
Context {R : Type} `{ops : SstReaderOps R} (reader_for : Store -> FileMetadata -> Result R).
Context (config : list ResolvedLevel).
Context (Hreader : forall store f, exists r, reader_for store f = Value r /\ SstReaderLaws ops r (store_content store f)).
Context (Hconfig : config <> []).

Abbreviation cont db := (store_content (db_store db)).

Record engine_ok (db : Db) (m : Mem) (im : option Mem) : Prop := {
  eo_mem : models (db_mem db) m;
  eo_imm : option_Forall2 models (db_imm db) im;
  eo_mem_keys : mem_nonempty m;
  eo_imm_keys : forall x, im = Some x -> mem_nonempty x;
  eo_version : version_ok (cont db) (db_version db);
  eo_floor : truncation_point_ (db_version db) = db_write_floor db;
  eo_numbers : forall f, f ∈ all_files (db_version db) -> file_number f < db_next_file_number db;
  eo_levels : forall f, f ∈ all_files (db_version db) -> level f <= last_level config;
  eo_starts : starts_nonempty (db_version db);
  eo_installed : db_imm_installed db = true -> exists x, im = Some x /\
    forall k e, truncated (db_version db) k = false -> mem_verdict x k = Some e ->
      answer_of (resolve (cont db) (db_version db) k) = answer_of (Some e);
  eo_compacting : forall c tp, db_compacting db = Some (c, tp) ->
    compaction_ok (cont db) (db_version db) c /\ c_output_level c <= last_level config /\
    forall k, truncated (db_version db) k = false -> below_point tp k = false
}.

Record sim (db : Db) (a : Kv) (m : Mem) (im : option Mem) : Prop := {
  sm_ok : engine_ok db m im;
  sm_floor : kv_floor a = db_write_floor db;
  sm_answers : forall k, truncated (db_version db) k = false ->
    answer_of (over (mem_verdict m k) (below_verdict (cont db) (db_version db) im k)) = read_of (kv_map a !! k)
}.

(** Reads answer what the map holds. *)
Lemma sim_get db a m im k :
  sim db a m im -> db_get (reader_for (db_store db)) false (memtables db) (db_version db) k = kv_get a k.
Proof.
  intros [Hok Hfl Hans]. pose proof (eo_mem _ _ _ Hok) as Hm. pose proof (eo_imm _ _ _ Hok) as Hi.
  rewrite (db_get_spec (cont db) (reader_for (db_store db)) (memtables db) (m :: option_list im)).
  - unfold kv_get, kv_hidden, truncated in *. rewrite Hfl, (eo_floor _ _ _ Hok) in *.
    destruct (negb _ && _) eqn:E; [done|]. specialize (Hans k E). unfold read_of, over, below_verdict in Hans.
    rewrite <- Hans. f_equal. simpl. destruct (mem_verdict m k); [done|]. destruct im as [x|]; simpl; [|done].
    by destruct (mem_verdict x k).
  - apply Hok.
  - intros f _. apply Hreader.
  - unfold memtables. constructor; [done|]. destruct Hi; simpl; repeat constructor; done.
Qed.

(** *** Writes *)

Lemma with_mem_ok db m im op :
  engine_ok db m im -> op_nonempty op = true ->
  engine_ok (with_mem db (run_op (db_mem db) (mem_op op))) (spec_op m (mem_op op)) im.
Proof.
  intros Hok Hne. destruct Hok as [H1 H2 H3 H4 H5 H6 H7 H8 H9 H10 H11].
  split; simpl; try done; [by apply models_step|by apply mem_nonempty_op].
Qed.

Lemma sim_op db a m im op :
  sim db a m im -> op_nonempty op = true ->
  sim (with_mem db (run_op (db_mem db) (mem_op op)))
    {| kv_map := kv_op (kv_map a) op; kv_floor := kv_floor a |} (spec_op m (mem_op op)) im.
Proof.
  intros [Hok Hfl Hans] Hne. split; [by apply with_mem_ok|done|]. simpl. intros k Hk. unfold over, read_of.
  by apply (spec_op_answer m op k _ (kv_map a !! k)), Hans.
Qed.

(** The map only matters where it can be read. *)
Lemma sim_ext db a m im mp :
  sim db a m im -> (forall k, truncated (db_version db) k = false -> mp !! k = kv_map a !! k) ->
  sim db {| kv_map := mp; kv_floor := kv_floor a |} m im.
Proof. intros [Hok Hfl Hans] E. split; [done|done|]. simpl. intros k Hk. rewrite E by done. by apply Hans. Qed.

Definition clamp_op (floor : bytes) (op : BatchOp) : BatchOp :=
  match op with BDeleteRange lo up => BDeleteRange (clamp floor lo) up | _ => op end.

Lemma apply_batch_op_run floor s op : apply_batch_op floor s op = run_op s (mem_op (clamp_op floor op)).
Proof.
  destruct op as [k v|k|lo up]; simpl; try done. destruct (clamp floor lo <?k up) eqn:E; [done|]. unfold delete_range. by rewrite E.
Qed.

Lemma clamp_nonempty floor op : op_nonempty op = true -> op_nonempty (clamp_op floor op) = true.
Proof.
  destruct op as [k v|k|lo up]; [done|done|]. unfold clamp_op, op_nonempty, clamp. intros Hlo.
  destruct (bool_decide_reflect (floor = [])) as [|Hf]; [done|]. simpl. destruct (lo <?k floor); [|done].
  by rewrite bool_decide_false.
Qed.

(** Narrowing a range to the floor changes nothing that can be read. *)
Lemma clamp_agree floor op mp mp' k :
  negb (bool_decide (floor = [])) && (k <?k floor) = false -> mp !! k = mp' !! k ->
  kv_op mp (clamp_op floor op) !! k = kv_op mp' op !! k.
Proof.
  intros Hk E. destruct op as [k' v|k'|lo up]; simpl.
  - destruct (decide (k' = k)) as [->|]; [by rewrite !lookup_insert_eq|by rewrite !lookup_insert_ne].
  - destruct (decide (k' = k)) as [->|]; [by rewrite !lookup_delete_eq|by rewrite !lookup_delete_ne].
  - assert (covers (mkRange (clamp floor lo) up) k = covers (mkRange lo up) k) as Ec.
    { unfold clamp. destruct (bool_decide_reflect (floor = [])); [done|]. simpl in *. destruct (lo <?k floor) eqn:El; [|done].
      unfold covers. simpl. f_equal. destruct (floor <=?k k) eqn:?, (lo <=?k k) eqn:?; try done; key_order. }
    apply option_eq. intros x. rewrite !map_lookup_filter_Some. simpl. by rewrite E, Ec.
Qed.

Lemma sim_batch batch db a m im :
  sim db a m im -> forallb op_nonempty batch = true ->
  exists m', sim (with_mem db (fold_left (apply_batch_op (db_write_floor db)) batch (db_mem db))) (kv_write a batch) m' im.
Proof.
  revert db a m. induction batch as [|op batch IH]; intros db a m Hs Hne; simpl.
  { exists m. destruct db, a. done. }
  simpl in Hne. apply andb_true_iff in Hne as [Hop Hne].
  pose proof (sim_op db a m im (clamp_op (db_write_floor db) op) Hs (clamp_nonempty _ _ Hop)) as Hs'.
  eapply sim_ext in Hs' as Hs''; [destruct (IH _ _ _ Hs'' Hne) as [m' Hm']|].
  - exists m'. rewrite apply_batch_op_run. exact Hm'.
  - intros k Hk. simpl. symmetry. apply clamp_agree; [|done]. simpl in Hk. unfold truncated in Hk.
    by rewrite (eo_floor _ _ _ (sm_ok _ _ _ _ Hs)) in Hk.
Qed.

(** *** Rotation *)

Lemma models_sealed now s m : models s m -> models (sealed_at now s) m.
Proof.
  intros (L & Hw & Hm & Hr & Hc). exists L. split_and!; [|done|done|done]. destruct Hw. by split.
Qed.

Lemma models_created now w : models (created_memtable now w) (∅, []).
Proof.
  destruct models_new as (L & Hw & Hm & Hr & Hc). exists L. split_and!; [|done|done|done]. destruct Hw. by split.
Qed.

Lemma sim_seal db a m now :
  sim db a m None -> sim (seal_memtable now db) a (∅, []) (Some m).
Proof.
  intros [[H1 H2 H3 H4 H5 H6 H7 H8 H9 H10 H11] Hfl Hans]. split; [|done|].
  - split; simpl; try done; try apply models_created; try apply mem_nonempty_new.
    + apply Some_Forall2. by apply models_sealed.
    + by intros x [= <-].
  - simpl. intros k Hk. specialize (Hans k Hk). unfold over in *. rewrite mem_verdict_new. simpl.
    by destruct (mem_verdict m k).
Qed.

Lemma sim_freeze due now db a m im db' :
  sim db a m im -> maybe_freeze_memtable due now db = (Ok, db') -> exists m' im', sim db' a m' im'.
Proof.
  intros Hs. unfold maybe_freeze_memtable. destruct due; simpl; [|intros [= <-]; eauto].
  destruct (db_imm db) as [s|] eqn:Ei; [intros [= <-]; eauto|].
  destruct (empty (db_mem db)); intros [= <-]; [eauto|].
  pose proof (eo_imm _ _ _ (sm_ok _ _ _ _ Hs)) as Hi. rewrite Ei in Hi. destruct im; [by inversion Hi|].
  eexists _, _. by apply sim_seal.
Qed.

Lemma sim_watermark db a m im pos db' :
  sim db a m im -> set_watermark db pos = (Ok, db') -> sim db' a m im.
Proof.
  intros [[H1 H2 H3 H4 H5 H6 H7 H8 H9 H10 H11] Hfl Hans]. unfold set_watermark. destruct (db_read_only db); [done|].
  destruct (refused db) eqn:Er; [intros [= E <-]; unfold refused in Er; rewrite E in Er; by rewrite bool_decide_true in Er|].
  destruct (match db_established_watermark db with Some _ => _ | None => _ end); [done|]. intros [= <-].
  split; [|done|done]. split; simpl; try done.
  destruct H1 as (L & Hw & Hm & Hr & Hc). exists L. split_and!; [|done|done|done]. destruct Hw. by split.
Qed.

(** *** Flushes *)

Lemma truncated_install v e n k :
  truncation_point e = [] -> truncated (apply v (stamp_edit n e)) k = truncated v k.
Proof.
  intros E. unfold truncated, apply. simpl. rewrite E.
  by replace (truncation_point_ v <?k []) with false by (symmetry; apply key_ltb_ge, key_empty_le).
Qed.

Lemma install_floor v e n :
  truncation_point e = [] -> truncation_point_ (apply v (stamp_edit n e)) = truncation_point_ v.
Proof.
  intros E. unfold apply. simpl. rewrite E.
  by replace (truncation_point_ v <?k []) with false by (symmetry; apply key_ltb_ge, key_empty_le).
Qed.

Lemma flush_starts v f c :
  starts_nonempty v -> describes f c -> sst_verdict c [] = None ->
  (forall g, g ∈ all_files v -> file_number g < file_number f) -> level f = 0 ->
  starts_nonempty (apply v (flush_edit f)).
Proof.
  intros Hne Hd Hv Hn Hl g [Hg| ->]%(flush_files v f Hl Hn); [by apply Hne|]. intros E.
  pose proof (effective_touched _ _ Hd) as Ht. by rewrite E in Ht.
Qed.

Lemma sim_flush_install db a m x s l0 wr :
  sim db a m (Some x) -> db_imm db = Some s -> memtable_small s -> db_next_file_number db <= wr_number wr ->
  sim (flush_install l0 wr db) a m (Some x).
Proof.
  intros [[H1 H2 H3 H4 H5 H6 H7 H8 H9 H10 H11] Hfl Hans] Ei Hsmall Hnum.
  rewrite Ei in H2. inversion H2 as [? ? Hx|]; subst. unfold flush_install. rewrite Ei. unfold flush_memtable.
  destruct ((w_num_entries (flush_writer s) =? 0) && (w_num_range_tombstones (flush_writer s) =? 0)) eqn:Ez.
  - split; [|done|done]. split; simpl; try done; [by rewrite Ei; constructor|].
    intros _. exists x. split; [done|]. intros k e _. by rewrite (flush_nothing s x k Hx Hsmall Ez).
  - pose proof (flush_describes l0 wr s x Hx Hsmall Ez) as Hd. set (f := flush_file l0 wr s) in *.
    set (c := writer_content (flush_writer s)) in *.
    assert (forall g, g ∈ all_files (db_version db) -> file_number g < file_number f) as Hnew
      by (intros g Hg; specialize (H7 g Hg); simpl; lia).
    pose proof (flush_version_ok (db_store db) (db_version db) f c H5 Hd eq_refl Hnew) as Hv'.
    set (e := flush_edit f). set (n := wr_number wr + 1).
    assert (same_files (apply (db_version db) e) (apply (db_version db) (stamp_edit n e))) as Hsame by done.
    assert (forall k, resolve (store_content (store_put (db_store db) (wr_number wr) c)) (apply (db_version db) (stamp_edit n e)) k =
      over (mem_verdict x k) (resolve (cont db) (db_version db) k)) as Hres.
    { intros k. unfold resolve at 1. rewrite <- (same_all_files _ _ Hsame).
      change (first_verdict _ (all_files (apply (db_version db) e)) k) with
        (resolve (store_content (store_put (db_store db) (file_number f) c)) (apply (db_version db) (flush_edit f)) k).
      rewrite (flush_resolve (db_store db) (db_version db) f c H5 Hd eq_refl Hnew k).
      subst c. by rewrite (flush_verdict s x k Hx Hsmall). }
    split; [|done|].
    + split; db_simpl; try done.
      * rewrite Ei. by constructor.
      * by apply (same_version_ok _ _ _ Hsame).
      * by rewrite install_floor.
      * rewrite <- (same_all_files _ _ Hsame). intros g [Hg| ->]%(flush_files _ f eq_refl Hnew); [specialize (H7 g Hg)|]; simpl; lia.
      * rewrite <- (same_all_files _ _ Hsame). intros g [Hg| ->]%(flush_files _ f eq_refl Hnew); [by apply H8|].
        simpl. unfold last_level. destruct config; [done|simpl; lia].
      * intros g. rewrite <- (same_all_files _ _ Hsame). apply (flush_starts _ f c); try done.
        subst c. rewrite (flush_verdict s x [] Hx Hsmall). by apply mem_nonempty_verdict, H4.
      * intros _. exists x. split; [done|]. intros k e' _ He'. by rewrite Hres, He'.
      * intros cp tp Hcp. destruct (H11 cp tp Hcp) as (Hc1 & Hc2 & Hc3). split_and!; [|done|].
        -- apply (members_compaction_ok _ _ _ (same_files_members _ _ Hsame)).
           by apply (flush_compaction_ok (db_store db) (db_version db) f c H5 eq_refl Hnew).
        -- intros k. rewrite truncated_install by done. apply Hc3.
    + intros k Hk. db_simpl. rewrite truncated_install in Hk by done.
      rewrite <- (Hans k Hk). f_equal. f_equal. unfold below_verdict. rewrite Hres. by destruct (mem_verdict x k).
Qed.

Lemma sim_flush_done db a m im : sim db a m im -> db_imm_installed db = true -> sim (flush_done db) a m None.
Proof.
  intros [[H1 H2 H3 H4 H5 H6 H7 H8 H9 H10 H11] Hfl Hans] Hi. destruct (H10 Hi) as (x & -> & Hx).
  split; [|done|].
  - split; simpl; try done. constructor.
  - simpl. intros k Hk. rewrite <- (Hans k Hk). apply over_answer. unfold below_verdict.
    destruct (mem_verdict x k) as [e|] eqn:E; [|done]. by apply Hx.
Qed.

(** *** Compactions *)

Lemma sim_pick db a m im max_bytes chosen :
  sim db a m im -> 0 <= chosen -> sim (start_compaction config max_bytes chosen db) a m im.
Proof.
  intros Hs Hch. unfold start_compaction. destruct (pick_compaction _ _ _ _) as [c|] eqn:E; [|done].
  destruct Hs as [[H1 H2 H3 H4 H5 H6 H7 H8 H9 H10 H11] Hfl Hans]. split; [|done|done]. split; db_simpl; try done.
  intros c' tp [= <- <-]. split_and!; [by eapply pick_compaction_ok| |by intros k].
  unfold pick_compaction in E. destruct (_ <? 1); [done|]. destruct (config !! Z.to_nat chosen); [|done]. cbn [mbind option_bind] in E.
  destruct (config !! Z.to_nat (chosen + 1)) as [target|] eqn:Et; [|done]. cbn [mbind option_bind] in E.
  apply lookup_lt_Some in Et. destruct (if is_overlapping_level _ _ then _ else _) as [seed|]; [|done].
  cbn [mbind option_bind] in E. repeat (case_match; try done); injection E as <-; simpl; unfold last_level; lia.
Qed.

Lemma sim_compact db a m im c tp full written target next db' :
  sim db a m im -> db_compacting db = Some (c, tp) ->
  input_size (cont db) c < 2 ^ 64 ->
  (forall i, db_next_file_number db <= wr_number (written i)) ->
  (forall i j, wr_number (written i) = wr_number (written j) -> i = j) ->
  finish_compaction reader_for full written target next db = Value db' ->
  (forall f, f ∈ all_files (db_version db') -> file_number f < next) ->
  sim db' a m im.
Proof.
  intros [[H1 H2 H3 H4 H5 H6 H7 H8 H9 H10 H11] Hfl Hans] Ec Hsize Hnew Hinj Hfin Hnext.
  destruct (H11 c tp Ec) as (Hc & Hout & Htp).
  assert (fresh_numbers written (db_version db)) as Hfresh.
  { split; [|done]. intros i g Hg. specialize (H7 g Hg). specialize (Hnew i). lia. }
  assert (readable (cont db) (reader_for (db_store db)) (db_version db)) as Hread by (intros f _; apply Hreader).
  unfold finish_compaction in Hfin. rewrite Ec in Hfin.
  destruct (compaction_edit_sound (reader_for (db_store db)) full written target (db_version db) (db_store db) c
              H5 Hc Hread Hfresh Hsize tp Htp) as (e & store' & E & Hv' & Hsame).
  rewrite E in Hfin. simpl in Hfin. injection Hfin as <-. db_simpl.
  pose proof (edit_no_floor _ _ _ _ _ _ _ _ _ E) as Ef.
  assert (same_files (apply (db_version db) e) (apply (db_version db) (stamp_edit next e))) as Hsf by done.
  pose proof (compaction_edit_files (reader_for (db_store db)) full written target (db_version db) (db_store db) c
                H5 Hc Hread Hfresh Hsize tp e store') as Hfiles.
  assert (forall k, truncated (apply (db_version db) (stamp_edit next e)) k = truncated (db_version db) k) as Htr
    by (intros; by apply truncated_install).
  assert (forall k, truncated (db_version db) k = false ->
    answer_of (resolve (store_content store') (apply (db_version db) (stamp_edit next e)) k) =
    answer_of (resolve (cont db) (db_version db) k)) as Hres.
  { intros k Hk. unfold resolve at 1. rewrite <- (same_all_files _ _ Hsf). by apply Hsame. }
  split; [|done|].
  - split; db_simpl; try done.
    + by apply (same_version_ok _ _ _ Hsf).
    + by rewrite install_floor.
    + rewrite <- (same_all_files _ _ Hsf). intros w Hw. destruct (Hfiles w E Hw) as (_ & [Hw'| ->]); [by apply H8|done].
    + intros w. rewrite <- (same_all_files _ _ Hsf). intros Hw. destruct (Hfiles w E Hw) as ((g & Hg & Hle) & _).
      specialize (H9 g Hg). rewrite nonempty_lt in *. key_order.
    + intros Hi. destruct (H10 Hi) as (x & -> & Hx). exists x. split; [done|]. intros k e' Hk He'. rewrite Htr in Hk.
      rewrite Hres by done. by apply Hx.
  - intros k Hk. db_simpl. rewrite Htr in Hk. rewrite <- (Hans k Hk). apply over_answer. unfold below_verdict.
    destruct im as [x|]; [destruct (mem_verdict x k); [done|]|]; by apply Hres.
Qed.

(** *** Reclaims and truncations *)

Lemma expired_none v : expired_files v None = [].
Proof. done. Qed.

Lemma sim_reclaim db a m im : sim db a m im -> db_compacting db = None -> sim (run_reclaim reader_for db) a m im.
Proof.
  intros [[H1 H2 H3 H4 H5 H6 H7 H8 H9 H10 H11] Hfl Hans] Ec. unfold run_reclaim.
  set (dead := dead_files _ _ _). destruct (bool_decide_reflect (dead = [])) as [|Hd]; [done|].
  set (e := reclaim_edit dead). set (n := db_next_file_number db).
  assert (readable (cont db) (reader_for (db_store db)) (db_version db)) as Hread by (intros f _; apply Hreader).
  assert (forall f, f ∈ dead -> f ∈ all_files (db_version db)) as Hsub
    by (intros f Hf; by apply (dead_subset (reader_for (db_store db)) (cont db) (db_version db) H5 Hread None)).
  assert (same_files (apply (db_version db) e) (apply (db_version db) (stamp_edit n e))) as Hsf by done.
  assert (forall g, g ∈ all_files (apply (db_version db) (stamp_edit n e)) -> g ∈ all_files (db_version db)) as Hfiles.
  { intros g. rewrite <- (same_all_files _ _ Hsf). by intros [? _]%(removal_files (cont db) (db_version db) H5 dead g Hsub). }
  assert (forall k, truncated (db_version db) k = false ->
    answer_of (resolve (cont db) (apply (db_version db) (stamp_edit n e)) k) =
    answer_of (resolve (cont db) (db_version db) k)) as Hres.
  { intros k Hk. unfold resolve at 1. rewrite <- (same_all_files _ _ Hsf).
    destruct (reclaim_answers (reader_for (db_store db)) (cont db) (db_version db) H5 Hread None k H9 Hk) as [E|(_ & f & e' & Hf & _)];
      [|by apply elem_of_nil in Hf].
    rewrite <- E. unfold reclaim_dead_files. by rewrite bool_decide_false. }
  split; [|done|].
  - split; db_simpl; try done.
    + apply (same_version_ok _ _ _ Hsf). by apply removal_ok.
    + by rewrite install_floor.
    + intros f Hf%Hfiles. by apply H7.
    + intros f Hf%Hfiles. by apply H8.
    + intros f Hf%Hfiles. by apply H9.
    + intros Hi. destruct (H10 Hi) as (x & -> & Hx). exists x. split; [done|]. intros k e' Hk He'.
      rewrite truncated_install in Hk by done. rewrite Hres by done. by apply Hx.
    + intros c tp E. congruence.
  - intros k Hk. db_simpl. rewrite truncated_install in Hk by done. rewrite <- (Hans k Hk). apply over_answer. unfold below_verdict.
    destruct im as [x|]; [destruct (mem_verdict x k); [done|]|]; by apply Hres.
Qed.

Lemma truncate_replaces v key : replaces v (truncate_edit key) [] [].
Proof.
  split; simpl; try done.
  - intros lvl g _. split; [done|by intros ?%elem_of_nil].
  - constructor.
  - by intros w g ?%elem_of_nil.
  - by intros w ?%elem_of_nil.
Qed.

Lemma truncate_members v key n : same_members v (apply v (stamp_edit n (truncate_edit key))).
Proof.
  intros lvl g. rewrite <- (same_files_at _ _ lvl (stamp_same n v (truncate_edit key))).
  rewrite (replace_files _ _ _ _ (truncate_replaces v key)). split; [|intros [[? _]|[?%elem_of_nil _]]; done].
  intros Hg. left. split; [done|by intros ?%elem_of_nil].
Qed.

Lemma sim_truncate db a m im key db' :
  sim db a m im -> truncate_below Ok db key = (Ok, db') -> db_read_only db = false -> sim db' (kv_truncate a key) m im.
Proof.
  intros [[H1 H2 H3 H4 H5 H6 H7 H8 H9 H10 H11] Hfl Hans] Ht Hro. unfold truncate_below in Ht. rewrite Hro in Ht.
  unfold kv_truncate. rewrite Hfl. destruct (bool_decide_reflect (key = [])) as [->|Hkey].
  { injection Ht as <-. rewrite (proj2 (key_ltb_ge _ _) (key_empty_le _)). rewrite <- Hfl. destruct a. done. }
  destruct (db_write_floor db <?k key) eqn:Elt; simpl in Ht; injection Ht as <-; [|rewrite <- Hfl; by destruct a].
  set (n := db_next_file_number db). pose proof (truncate_members (db_version db) key n) as Hmem.
  set (v' := apply (db_version db) (stamp_edit n (truncate_edit key))) in *.
  assert (version_ok (cont db) v') as Hv'.
  { apply (same_version_ok _ _ _ (stamp_same n _ _)).
    eapply (replace_ok (cont db) (cont db) (db_version db) _ [] []); try done; [apply truncate_replaces|..].
    - by intros w ?%elem_of_nil.
    - by intros w g ?%elem_of_nil.
    - by intros w w' ?%elem_of_nil. }
  assert (truncation_point_ v' = key) as Etp by (unfold v', apply; simpl; by rewrite H6, Elt).
  assert (forall k, truncated v' k = false -> truncated (db_version db) k = false) as Htr.
  { intros k. unfold truncated. rewrite Etp, H6, (bool_decide_false (key = [])) by done. simpl. intros Hk.
    destruct (bool_decide (db_write_floor db = [])); [done|]. simpl. key_order. }
  assert (forall k, resolve (cont db) v' k = resolve (cont db) (db_version db) k) as Hres
    by (intros; symmetry; by apply members_resolve).
  split.
  - split; db_simpl; fold n v'; try done.
    + intros f Hf. apply H7. by apply (members_all _ _ Hmem).
    + intros f Hf. apply H8. by apply (members_all _ _ Hmem).
    + intros f Hf. apply H9. by apply (members_all _ _ Hmem).
    + intros Hi. destruct (H10 Hi) as (x & -> & Hx). exists x. split; [done|]. intros k e' Hk He'.
      rewrite Hres. apply Hx; [by apply Htr|done].
    + intros c tp E. destruct (H11 c tp E) as (Hc1 & Hc2 & Hc3). split_and!; [by apply (members_compaction_ok _ _ _ Hmem)|done|].
      intros k Hk. by apply Hc3, Htr.
  - done.
  - intros k Hk. db_simpl. fold n v' in Hk. fold n v'. cbn [kv_map]. rewrite <- (Hans k (Htr k Hk)). apply over_answer. unfold below_verdict.
    destruct im as [x|]; [destruct (mem_verdict x k); [done|]|]; by rewrite Hres.
Qed.

(** *** Every step *)

Definition kv_label (a : Kv) (l : Label) : Kv :=
  match l with
  | LWrite batch => kv_write a batch
  | LTruncate key => kv_truncate a key
  | LInternal => a
  end.

Lemma refused_not_ok db : refused db = true -> db_bg_error db <> Ok.
Proof. unfold refused. intros H E. rewrite E in H. by rewrite bool_decide_true in H. Qed.

Lemma sim_delete_range am db a m im lo up db' :
  sim db a m im -> op_nonempty (BDeleteRange lo up) = true -> db_delete_range am db lo up = (Ok, db') ->
  exists m' im', sim db' (kv_write a [BDeleteRange lo up]) m' im'.
Proof.
  intros Hs Hne. unfold db_delete_range. destruct (db_read_only db); [done|].
  destruct (check_entry_size lo []); try done. destruct (check_entry_size up []); try done.
  pose proof (eo_floor _ _ _ (sm_ok _ _ _ _ Hs)) as Hfl. rewrite Hfl.
  assert (forall k, truncated (db_version db) k = false ->
    kv_op (kv_map a) (clamp_op (db_write_floor db) (BDeleteRange lo up)) !! k = kv_op (kv_map a) (BDeleteRange lo up) !! k) as Hag.
  { intros k Hk. apply clamp_agree; [|done]. unfold truncated in Hk. by rewrite Hfl in Hk. }
  destruct (clamp (db_write_floor db) lo <?k up) eqn:Elt; cbn [negb].
  - destruct (am_throttle am); try done. destruct (refused db) eqn:Er; [by intros [= E _]; apply refused_not_ok in Er|].
    apply sim_freeze with (m := spec_op m (mem_op (clamp_op (db_write_floor db) (BDeleteRange lo up)))) (im := im).
    pose proof (sim_op db a m im _ Hs (clamp_nonempty (db_write_floor db) _ Hne)) as Hs'.
    apply (sim_ext _ _ _ _ (kv_op (kv_map a) (BDeleteRange lo up))) in Hs'; [exact Hs'|].
    intros k Hk. symmetry. by apply Hag.
  - intros [= <-]. exists m, im. apply sim_ext; [done|]. intros k Hk. change (fold_left kv_op [BDeleteRange lo up] (kv_map a))
      with (kv_op (kv_map a) (BDeleteRange lo up)). rewrite <- Hag by done. simpl.
    apply option_eq. intros x. rewrite map_lookup_filter_Some. simpl. rewrite covers_empty_range by done. naive_solver.
Qed.

(** *** Failures *)

Lemma sim_bg_error db a m im s : sim db a m im -> sim (with_bg_error db s) a m im.
Proof. intros [[H1 H2 H3 H4 H5 H6 H7 H8 H9 H10 H11] Hfl Hans]. split; [by split|done|done]. Qed.

Lemma first_verdict_content content content' fs k : (forall f, f ∈ fs -> content' f = content f) ->
  first_verdict content' fs k = first_verdict content fs k.
Proof.
  induction fs as [|f fs IH]; intros H; simpl; [done|]. unfold verdict. rewrite (H f) by (by left).
  rewrite IH; [done|]. intros g Hg. apply H. by right.
Qed.

Lemma version_ok_content content content' v : (forall f, f ∈ all_files v -> content' f = content f) ->
  version_ok content v -> version_ok content' v.
Proof. intros H [H1 H2 H3 H4 H5 H6 H7]. split; try done. intros f Hf. rewrite H by done. by apply H3. Qed.

Lemma compaction_ok_content content content' v c : (forall f, f ∈ all_files v -> content' f = content f) ->
  compaction_ok content v c -> compaction_ok content' v c.
Proof.
  intros H [H1 H2 H3 H4 H5 H6 H7 H8 H9].
  assert (forall f k, f ∈ all_files v -> touches content' f k -> touches content f k) as Ht.
  { intros f k Hf. unfold touches, verdict. by rewrite H. }
  assert (forall f, f ∈ all_inputs c -> f ∈ all_files v) as Hin.
  { intros f [Hf|Hf]%elem_of_app; [apply H2 in Hf|apply H3 in Hf]; by eapply in_all. }
  split; try done.
  - intros g f k Hg Hn Hf Hgk Hfk. apply (H6 g f k); try done; apply Ht; try done; [by eapply in_all|]. by eapply in_all, H2.
  - intros i j x y k Hij Hx Hy Hxk Hyk. apply (H7 i j x y k); try done; apply Ht; try done; apply Hin; [by apply list_elem_of_lookup_2 in Hx|by apply list_elem_of_lookup_2 in Hy].
  - intros Hb p g k Hp Hl Hg Hpk Hgk. apply (H8 Hb p g k); try done; apply Ht; try done. by apply Hin.
Qed.

(** An orphaned object is under a number no file has. *)
Lemma sim_orphan db a m im number c : sim db a m im -> db_next_file_number db <= number -> sim (with_orphan db number c) a m im.
Proof.
  intros [[H1 H2 H3 H4 H5 H6 H7 H8 H9 H10 H11] Hfl Hans] Hnum.
  assert (forall f, f ∈ all_files (db_version db) -> store_content (store_put (db_store db) number c) f = cont db f) as Hc.
  { intros f Hf. specialize (H7 f Hf). unfold store_content, store_put. destruct (Z.eqb_spec (file_number f) number); [lia|done]. }
  assert (forall k, resolve (store_content (store_put (db_store db) number c)) (db_version db) k = resolve (cont db) (db_version db) k) as Hr
    by (intros k; by apply first_verdict_content).
  split; [|done|].
  - split; simpl; try done.
    + by apply (version_ok_content (cont db)).
    + intros f Hf. specialize (H7 f Hf). lia.
    + intros Hi. destruct (H10 Hi) as (x & -> & Hx). exists x. split; [done|]. intros k e Hk He. rewrite Hr. by apply Hx.
    + intros cp tp Hcp. destruct (H11 cp tp Hcp) as (Hx & Hy & Hz). split; [|done]. by apply (compaction_ok_content (cont db)).
  - intros k Hk. rewrite <- (Hans k Hk). simpl. unfold below_verdict. by rewrite Hr.
Qed.

Lemma sim_step db a m im l db' :
  sim db a m im -> db_step reader_for config db l db' -> exists m' im', sim db' (kv_label a l) m' im'.
Proof.
  intros Hs Hstep. destruct Hstep; simpl kv_label.
  - unfold db_put in *. destruct (db_read_only db); [done|]. destruct (check_entry_size k v); try done.
    destruct (am_throttle am); try done. destruct (refused db) eqn:Er; [by injection H0 as E _; apply refused_not_ok in Er|].
    destruct (check_below_truncation db k); try done. eapply sim_freeze; [|done]. by apply (sim_op db a m im (BPut k v)).
  - unfold db_remove in *. destruct (db_read_only db); [done|]. destruct (check_entry_size k []); try done.
    destruct (am_throttle am); try done. destruct (refused db) eqn:Er; [by injection H0 as E _; apply refused_not_ok in Er|].
    destruct (check_below_truncation db k); try done. eapply sim_freeze; [|done]. by apply (sim_op db a m im (BRemove k)).
  - by eapply sim_delete_range.
  - unfold db_write in *. destruct (db_read_only db); [done|]. destruct (am_throttle am); try done.
    destruct (refused db) eqn:Er; [by injection H0 as E _; apply refused_not_ok in Er|].
    destruct (validate_batch db batch); try done. destruct (sim_batch batch db a m im Hs H) as [m' Hm'].
    by eapply sim_freeze.
  - exists m, im. by eapply sim_truncate.
  - exists m, im. by eapply sim_watermark.
  - pose proof (eo_imm _ _ _ (sm_ok _ _ _ _ Hs)) as Hi. rewrite H in Hi. destruct im; [by inversion Hi|].
    eexists _, _. by apply sim_seal.
  - pose proof (eo_imm _ _ _ (sm_ok _ _ _ _ Hs)) as Hi. rewrite H in Hi. destruct im as [x|]; [|by inversion Hi].
    exists m, (Some x). by eapply sim_flush_install.
  - exists m, None. by apply (sim_flush_done _ _ _ im).
  - exists m, im. by apply sim_pick.
  - exists m, im. by eapply sim_compact.
  - exists m, im. by apply sim_reclaim.
  - exists m, im. by apply sim_bg_error.
  - exists m, im. by apply sim_orphan.
Qed.

Inductive db_steps : Db -> list Label -> Db -> Prop :=
  | steps_refl db : db_steps db [] db
  | steps_cons db l db' ls db'' : db_step reader_for config db l db' -> db_steps db' ls db'' -> db_steps db (l :: ls) db''.

Lemma sim_steps db a m im ls db' :
  sim db a m im -> db_steps db ls db' -> exists m' im', sim db' (fold_left kv_label ls a) m' im'.
Proof.
  intros Hs Hsteps. revert a m im Hs. induction Hsteps as [db|db l db1 ls db2 Hstep _ IH]; intros a m im Hs; simpl; [eauto|].
  destruct (sim_step _ _ _ _ _ _ Hs Hstep) as (m' & im' & Hs'). by eapply IH.
Qed.

Definition kv_empty : Kv := {| kv_map := ∅; kv_floor := [] |}.

Lemma empty_version_ok content : version_ok content empty_version.
Proof.
  assert (forall lvl, files_at empty_version lvl = []) as Hf.
  { intros lvl. unfold files_at, num_levels. simpl. by destruct (_ || _). }
  split.
  - intros lvl f. rewrite Hf. by intros ?%elem_of_nil.
  - intros lvl. rewrite Hf. constructor.
  - by intros f ?%elem_of_nil.
  - intros lvl a b _. rewrite Hf. by intros ?%elem_of_nil.
  - intros lvl. rewrite Hf. constructor.
  - by intros f g ?%elem_of_nil.
  - intros lvl. apply carries_ranges_make.
Qed.

Lemma sim_open store now : sim (open_db empty_version store now) kv_empty (∅, []) None.
Proof.
  split; [|done|].
  - split; try done; try apply models_created; try apply mem_nonempty_new; try (by intros f ?%elem_of_nil);
      [constructor|by apply empty_version_ok].
  - intros k _. rewrite mem_verdict_new. simpl. by rewrite lookup_empty.
Qed.
End Simulation.

(** ** Properties *)

(** C1: the engine implements the map, as long as no write names the empty key ([op_nonempty]: no put or remove of it and no
    range delete from it; [empty_key_compaction_reverts_write] shows what it does). From a new store, through any
    interleaving of such writes and batches that succeed, truncations, watermarks, rotations, flushes, compactions picked at
    one moment and installed at a later one, and reclaims, [get] answers every key as the map that saw only the writes and
    truncations would. The reclaims are those of a store without a time to live; a reader answers for the object it was
    opened on; the configured levels stay the same. *)
Theorem engine_refines_map {R} (ops : SstReaderOps R) (reader_for : Store -> FileMetadata -> Result R)
    config store now ls db :
  (forall store f, exists r, reader_for store f = Value r /\ SstReaderLaws ops r (store_content store f)) ->
  config <> [] ->
  db_steps reader_for config (open_db empty_version store now) ls db ->
  forall k, db_get (reader_for (db_store db)) false (memtables db) (db_version db) k =
            kv_get (fold_left kv_label ls kv_empty) k.
Proof.
  intros Hr Hcfg Hsteps k.
  destruct (sim_steps reader_for config Hr Hcfg _ _ _ _ _ _ (sim_open config store now) Hsteps) as (m & im & Hs).
  by eapply sim_get.
Qed.
