(* ===== verification/Examples.v ===== *)
(** * The theorems at concrete states

    A small engine run through a write, a rotation, a flush and a compaction, at which the theorems
    of the other files apply; and the runs that show what an empty key does to the picker, and what
    opening a store with fewer levels does to its removals. *)

From S2P Require Import Prelude Slice Format Framing Watermark VersionEdit Version Memtable Merging Sst Iterators Concat Lsm Scan ScanProofs Picker Outputs Compact CompactProofs PickerProofs Reclaim Db Flush Refinement.

(** ** A small engine *)

Definition level_of (lvl : Z) : ResolvedLevel :=
  {| rl_level := lvl; rl_compression := NoCompression; rl_max_bytes := None;
     rl_max_files := if lvl =? 0 then Some 4 else None; rl_slowdown_at := None; rl_stop_at := None;
     rl_target_file_bytes := 1000 |}.

Definition small_config : list ResolvedLevel := [level_of 0; level_of 1; level_of 2].

(** The object store read back as it was written. *)
Definition reads_back (store : Store) (f : FileMetadata) : Result Sst := Value (store_content store f).

Lemma reads_back_laws store f :
  exists r, reads_back store f = Value r /\ SstReaderLaws sst_content_reader r (store_content store f).
Proof. exists (store_content store f). split; [done|apply _]. Qed.

Definition written_as (n : Z) : Written :=
  {| wr_number := n; wr_store := [x73]; wr_bytes := 100; wr_provider := []; wr_metadata := [] |}.

Definition unhindered : Ambient := {| am_throttle := Ok; am_due := false; am_now := 0 |}.

Definition key_k : bytes := [x6b].
Definition value_v : bytes := [x76].

Definition e_open : Db := open_db empty_version (fun _ => {| entries := []; ranges := [] |}) 0.
Definition e_put : Db := (db_put unhindered e_open key_k value_v).2.
Definition e_sealed : Db := seal_memtable 1 e_put.
Definition e_installed : Db := flush_install (level_of 0) (written_as 1) e_sealed.
Definition e_flushed : Db := flush_done e_installed.
Definition e_picked : Db := start_compaction small_config 1000 0 e_flushed.

(** Finishing a compaction that writes its outputs from number [n] on. *)
Definition compacted (n : Z) (db : Db) : Db :=
  match finish_compaction reads_back (fun _ => false) (fun i => written_as (n + Z.of_nat i)) (level_of 1) (n + 10) db with
  | Value db' => db'
  | Unexpected _ => db
  end.

Definition e_compacted : Db := compacted 2 e_picked.

Lemma e_flushed_steps :
  db_steps reads_back small_config e_open [LWrite [BPut key_k value_v]; LInternal; LInternal; LInternal] e_flushed.
Proof.
  eapply steps_cons; [by apply (step_put _ _ unhindered e_open key_k value_v e_put)|].
  eapply steps_cons; [by apply (step_seal _ _ e_put 1)|].
  eapply steps_cons; [eapply (step_flush_install _ _ e_sealed _ (level_of 0) (written_as 1)); [done|done| |done]|].
  { split; vm_compute; reflexivity. }
  eapply steps_cons; [by apply (step_flush_done _ _ e_installed)|]. apply steps_refl.
Qed.

Lemma e_flushed_sim : exists m im, sim small_config e_flushed (fold_left kv_label [LWrite [BPut key_k value_v]] kv_empty) m im.
Proof.
  destruct (sim_steps reads_back small_config reads_back_laws ltac:(done) _ _ _ _ _ _ (sim_open small_config _ 0) e_flushed_steps)
    as (m & im & Hs). by exists m, im.
Qed.

Lemma e_flushed_ok :
  version_ok (store_content (db_store e_flushed)) (db_version e_flushed) /\ starts_nonempty (db_version e_flushed) /\
  (forall f, f ∈ all_files (db_version e_flushed) -> level f <= last_level small_config) /\
  (forall f, f ∈ all_files (db_version e_flushed) -> file_number f < db_next_file_number e_flushed) /\
  readable (store_content (db_store e_flushed)) (reads_back (db_store e_flushed)) (db_version e_flushed).
Proof.
  destruct e_flushed_sim as (m & im & [[H1 H2 H3 H4 H5 H6 H7 H8 H9 H10 H11] _ _]). split_and!; try done.
  intros f _. apply reads_back_laws.
Qed.

Definition e_compaction : Compaction :=
  match db_compacting e_picked with
  | Some (c, _) => c
  | None => {| c_level := 0; c_output_level := 1; c_inputs := []; c_overlaps := []; c_grandparents := [];
               c_output_is_bottommost := false; c_trivial_move := false; c_inputs_trimmed := false |}
  end.

Lemma e_compaction_picked : pick_compaction (db_version e_flushed) small_config 1000 0 = Some e_compaction.
Proof. reflexivity. Qed.

Lemma e_compaction_ok : compaction_ok (store_content (db_store e_flushed)) (db_version e_flushed) e_compaction.
Proof.
  destruct e_flushed_ok as (Hv & Hne & Hl & _). eapply pick_compaction_ok; [done|done| |done|apply e_compaction_picked]. lia.
Qed.

(** ** Witnesses *)

Lemma engine_refines_map_witness :
  db_get (reads_back (db_store e_compacted)) false (memtables e_compacted) (db_version e_compacted) key_k =
  kv_get (fold_left kv_label [LWrite [BPut key_k value_v]; LInternal; LInternal; LInternal; LInternal; LInternal] kv_empty) key_k.
Proof.
  apply (engine_refines_map sst_content_reader reads_back small_config (fun _ => {| entries := []; ranges := [] |}) 0);
    [apply reads_back_laws|discriminate|].
  eapply steps_cons; [by apply (step_put _ _ unhindered e_open key_k value_v e_put)|].
  eapply steps_cons; [by apply (step_seal _ _ e_put 1)|].
  eapply steps_cons; [eapply (step_flush_install _ _ e_sealed _ (level_of 0) (written_as 1)); [done|done| |done]|].
  { split; vm_compute; reflexivity. }
  eapply steps_cons; [by apply (step_flush_done _ _ e_installed)|].
  eapply steps_cons; [by apply (step_pick _ _ e_flushed 1000 0)|].
  eapply steps_cons; [|apply steps_refl].
  eapply (step_compact reads_back small_config e_picked e_compaction [] (fun _ => false) (fun i => written_as (2 + Z.of_nat i))
            (level_of 1) 12 e_compacted); [reflexivity|vm_compute; reflexivity| | |reflexivity|].
  - intros i. change (db_next_file_number e_picked) with 2. simpl. lia.
  - simpl. intros i j. lia.
  - assert (all_files (db_version e_compacted) = [moved_to 1 (flush_file (level_of 0) (written_as 1) (sealed_at 1 (db_mem e_put)))]) as ->
      by reflexivity.
    intros f ->%list_elem_of_singleton. simpl. lia.
Defined.

Lemma get_reads_newest_witness :
  db_get (reads_back (db_store e_flushed)) false [] (db_version e_flushed) key_k = Value value_v.
Proof.
  destruct e_flushed_ok as (Hv & _ & _ & _ & Hr).
  destruct (get_reads_newest sst_content_reader (store_content (db_store e_flushed)) (reads_back (db_store e_flushed))
              [] [] (db_version e_flushed) key_k Hv Hr) as [E _]; [constructor|].
  rewrite E. reflexivity.
Defined.

Lemma pick_compaction_sound_witness :
  compaction_ok (store_content (db_store e_flushed)) (db_version e_flushed) e_compaction.
Proof.
  destruct e_flushed_ok as (Hv & Hne & Hl & _).
  apply (pick_compaction_sound _ _ small_config 1000 0); [done|done|lia|done|reflexivity].
Defined.

Lemma compaction_preserves_reads_witness :
  exists v' store',
    run_compaction (reads_back (db_store e_flushed)) (fun _ => false) (fun i => written_as (2 + Z.of_nat i)) (level_of 1)
      (db_version e_flushed) (db_store e_flushed) e_compaction = Value (v', store') /\
    version_ok (store_content store') v' /\
    forall ss ms k, Forall2 models ss ms -> readable (store_content store') (reads_back (db_store e_flushed)) v' ->
      db_get (reads_back (db_store e_flushed)) false ss v' k =
      db_get (reads_back (db_store e_flushed)) false ss (db_version e_flushed) k.
Proof.
  destruct e_flushed_ok as (Hv & Hne & Hl & Hn & Hr).
  apply (compaction_preserves_reads sst_content_reader (reads_back (db_store e_flushed)) (reads_back (db_store e_flushed))
           (fun _ => false) (fun i => written_as (2 + Z.of_nat i)) (level_of 1) (db_version e_flushed)
           (db_store e_flushed) e_compaction Hv e_compaction_ok Hr).
  - split; [|simpl; lia]. intros i g Hg. specialize (Hn g Hg). change (db_next_file_number e_flushed) with 2 in Hn. simpl. lia.
  - vm_compute. reflexivity.
Defined.

Lemma flush_writes_on_top_witness :
  resolve (store_content (db_store e_installed)) (db_version e_installed) key_k = Some (Put, value_v).
Proof.
  destruct (flush_writes_on_top (db_store e_sealed) empty_version (level_of 0) (written_as 1) (sealed_at 1 (db_mem e_put))
              (spec_run [OpPut key_k value_v])) as [_ E].
  - apply empty_version_ok.
  - apply models_sealed. exact (models_run [OpPut key_k value_v]).
  - split; vm_compute; reflexivity.
  - exists key_k. vm_compute. congruence.
  - by intros g ?%elem_of_nil.
  - etrans; [exact (E key_k)|reflexivity].
Defined.

Lemma compaction_survives_flush_witness :
  compaction_ok (store_content (store_put (db_store e_flushed) 9 {| entries := []; ranges := [] |}))
    (apply (db_version e_flushed) (flush_edit (sample_file 9 [x61] [x7a]))) e_compaction.
Proof.
  destruct e_flushed_ok as (Hv & Hne & Hl & Hn & Hr).
  apply (compaction_survives_flush (db_store e_flushed) (db_version e_flushed) (sample_file 9 [x61] [x7a])); [done|done| |apply e_compaction_ok].
  intros g Hg. specialize (Hn g Hg). change (db_next_file_number e_flushed) with 2 in Hn. simpl. lia.
Defined.

Lemma reclaim_drops_only_dead_witness :
  answer_of (resolve (store_content (db_store e_flushed)) (reclaim_dead_files (reads_back (db_store e_flushed)) (db_version e_flushed) None).1 key_k) =
  Value value_v.
Proof.
  destruct e_flushed_ok as (Hv & Hne & Hl & Hn & Hr).
  destruct (reclaim_drops_only_dead sst_content_reader (reads_back (db_store e_flushed)) (store_content (db_store e_flushed))
              (db_version e_flushed) None key_k Hv Hr Hne eq_refl) as (_ & [E|(_ & f & e & Hf & _)]).
  - rewrite E. reflexivity.
  - by apply elem_of_nil in Hf.
Defined.

(** ** What an empty key does *)

Definition run_put (db : Db) (k v : bytes) : Db := (db_put unhindered db k v).2.
Definition run_flush (n : Z) (db : Db) : Db := flush_done (flush_install (level_of 0) (written_as n) (seal_memtable 1 db)).

(** [""] is written and moved down to L1; then two overlapping L0 files, the newer holding [""] again. *)
Definition empty_key_before : Db :=
  let db := run_put e_open [] [x6f; x6c; x64] in
  let db := compacted 2 (start_compaction small_config 1000 0 (run_flush 1 db)) in
  let db := run_flush 20 (run_put (run_put db [x61] [x31]) [x64] [x31]) in
  run_flush 21 (run_put (run_put db [] [x6e; x65; x77]) [x62] [x32]).

Definition empty_key_after : Db := compacted 30 (start_compaction small_config 1000 0 empty_key_before).

(** The picker misreads an empty key. [widen] takes an empty lower bound for one not set yet, so
    with inputs that start at the empty key the hull it computes starts above it, the file of the
    next level that holds the key is not merged, and the compaction puts a second file with the key
    beside it: the read that answered the new value before answers the old one after. *)
Theorem empty_key_compaction_reverts_write :
  db_get (reads_back (db_store empty_key_before)) false (memtables empty_key_before) (db_version empty_key_before) [] =
    Value [x6e; x65; x77] /\
  db_get (reads_back (db_store empty_key_after)) false (memtables empty_key_after) (db_version empty_key_after) [] =
    Value [x6f; x6c; x64].
Proof. vm_compute. split; reflexivity. Qed.

(** ** A store opened with fewer levels *)

(** A value is moved down to L2; then the key is removed, and the removal flushed beside another file. *)
Definition deep_value : Db :=
  let db := compacted 2 (start_compaction small_config 1000 0 (run_flush 1 (run_put e_open key_k value_v))) in
  let db := compacted 3 (start_compaction small_config 1000 1 db) in
  run_flush 21 ((db_remove unhindered (run_flush 20 (run_put db key_k [x77])) key_k).2).

(** The next L0 compaction under the configuration it was written with, and after it is opened with the first two levels. *)
Definition deep_after (config : list ResolvedLevel) : Db := compacted 30 (start_compaction config 1000 0 deep_value).

(** A store opened with fewer levels than it has files on brings a removed key back. Nothing in [open] compares the levels
    of the recovered version with the configuration; [is_bottommost_for_range] looks no further than the last configured
    level, so that a compaction into it drops the removal while the value below it stays. *)
Theorem fewer_levels_revert_removal :
  map level (all_files (db_version deep_value)) = [0; 0; 2] /\
  db_get (reads_back (db_store deep_value)) false (memtables deep_value) (db_version deep_value) key_k = Unexpected NotFound /\
  (let db := deep_after small_config in db_get (reads_back (db_store db)) false (memtables db) (db_version db) key_k = Unexpected NotFound) /\
  (let db := deep_after (take 2 small_config) in db_get (reads_back (db_store db)) false (memtables db) (db_version db) key_k = Value value_v).
Proof. vm_compute. repeat split; reflexivity. Qed.

(** ** Scans *)

Lemma scan_matches_get_witness :
  exists bound, forall fuel n, (bound <= fuel < n)%nat ->
    exists found last,
      scan (H := child_ops (reads_back (db_store e_flushed))) n fuel
        (make_iterator (reads_back (db_store e_flushed)) false id [] (db_version e_flushed) [x6a] [] false true) = (found, last) /\
      (key_k, value_v) ∈ found.
Proof.
  destruct e_flushed_ok as (Hv & _ & _ & _ & Hr).
  destruct (scan_matches_get sst_content_reader sst_content_scan (store_content (db_store e_flushed)) (reads_back (db_store e_flushed)) id
              [] [] (db_version e_flushed) [x6a] [] false true Hv Hr) as (bound & H); [constructor| |done|].
  { intros f r _ [= <-]. apply _. }
  exists bound. intros fuel n Hb. destruct (H fuel n Hb) as (found & last & E & _ & _ & Hin). exists found, last. split; [done|].
  apply Hin. split_and!; [vm_compute; congruence|done|reflexivity].
Defined.

(** The same scan, run: forwards over the live engine, and over one whose files cannot be opened. *)
Lemma scan_runs :
  (scan (H := child_ops (reads_back (db_store e_flushed))) 5 4
     (make_iterator (reads_back (db_store e_flushed)) false id [] (db_version e_flushed) [] [] false false)).1 = [(key_k, value_v)] /\
  let r := scan (H := child_ops (ops := sst_content_scan) (fun _ => Unexpected Io)) 5 4
             (make_iterator (fun _ => Unexpected Io) false id [] (db_version e_flushed) [] [] false false) in
  r.1 = [] /\ di_status (H := child_ops (ops := sst_content_scan) (fun _ => Unexpected Io)) r.2 = Io.
Proof. vm_compute. done. Qed.


Lemma prefix_scan_matches_get_witness :
  exists bound, forall fuel n, (bound <= fuel < n)%nat ->
    exists found last,
      scan (H := child_ops (reads_back (db_store e_flushed))) n fuel
        (prefix_iterator (reads_back (db_store e_flushed)) false id [] (db_version e_flushed) false [x6b]) = (found, last) /\
      (key_k, value_v) ∈ found.
Proof.
  destruct e_flushed_ok as (Hv & _ & _ & _ & Hr).
  destruct (prefix_scan_matches_get sst_content_reader sst_content_scan (store_content (db_store e_flushed)) (reads_back (db_store e_flushed)) id
              [] [] (db_version e_flushed) [x6b] false Hv Hr) as (bound & H); [constructor| |].
  { intros f r _ [= <-]. apply _. }
  exists bound. intros fuel n Hb. destruct (H fuel n Hb) as (found & last & E & _ & Hin). exists found, last. split; [done|].
  apply Hin. split; reflexivity.
Defined.
