(* ===== verification/Admission.v ===== *)
(** * Admission: what a write waits for, and what a flush waits for

    The valves of [src/db/db_impl.cpp]: [await_flush_slot], [await_rotation_slot], [shed_if_over_budget] and
    [throttle_writes], [maybe_freeze_memtable], [freeze_and_flush_inline] and [flush], and the write calls that go
    through them: [put], [remove], [delete_range] and [write].
    A call that waits on a condition variable sleeps while other threads run: a [Wake] is what they did to the
    engine by the time it wakes, and a call that needs more wakes than it is given is still asleep ([None]). *)

From S2P Require Import Prelude Slice Format Framing Watermark VersionEdit Version Budget BlockCache Tiers Deadlines Memtable Merging Sst Lsm Picker Outputs Compact Reclaim Db Flush Refinement.

(** ** State *)

(** The part of [DbImpl] the valves read and write. The block cache is the one the constructor makes, with the
    budget both share; [eg_installs] tells one current version from the next. *)
Record Engine := {
  eg_db : Db;
  eg_cache : BlockCache;
  eg_transient_stalled : bool;
  eg_unusable : bool;
  eg_fenced : bool;
  eg_shutting_down : bool;
  eg_shutting_down_compaction : bool;
  eg_installs : Z;
  eg_now : Z;
  eg_stalls : Z;
  eg_stalled_total_ms : Z;
  eg_budget_sheds : Z
}.

Definition on_db (f : Db -> Db) (e : Engine) : Engine :=
  {| eg_db := f (eg_db e); eg_cache := eg_cache e; eg_transient_stalled := eg_transient_stalled e;
     eg_unusable := eg_unusable e; eg_fenced := eg_fenced e; eg_shutting_down := eg_shutting_down e;
     eg_shutting_down_compaction := eg_shutting_down_compaction e; eg_installs := eg_installs e; eg_now := eg_now e;
     eg_stalls := eg_stalls e; eg_stalled_total_ms := eg_stalled_total_ms e; eg_budget_sheds := eg_budget_sheds e |}.

(** The counters, and the cache a shedding leaves. *)
Definition noted (stalls stalled_ms sheds : Z) (cache : BlockCache) (e : Engine) : Engine :=
  {| eg_db := eg_db e; eg_cache := cache; eg_transient_stalled := eg_transient_stalled e;
     eg_unusable := eg_unusable e; eg_fenced := eg_fenced e; eg_shutting_down := eg_shutting_down e;
     eg_shutting_down_compaction := eg_shutting_down_compaction e; eg_installs := eg_installs e; eg_now := eg_now e;
     eg_stalls := u64 (eg_stalls e + stalls); eg_stalled_total_ms := u64 (eg_stalled_total_ms e + stalled_ms);
     eg_budget_sheds := u64 (eg_budget_sheds e + sheds) |}.

Definition published (stalled : bool) (e : Engine) : Engine :=
  {| eg_db := eg_db e; eg_cache := eg_cache e; eg_transient_stalled := stalled;
     eg_unusable := eg_unusable e; eg_fenced := eg_fenced e; eg_shutting_down := eg_shutting_down e;
     eg_shutting_down_compaction := eg_shutting_down_compaction e; eg_installs := eg_installs e; eg_now := eg_now e;
     eg_stalls := eg_stalls e; eg_stalled_total_ms := eg_stalled_total_ms e; eg_budget_sheds := eg_budget_sheds e |}.

Definition Wake : Type := Engine -> Engine.

(** A wait, with the time it took. *)
Definition nap (w : Wake) (e : Engine) : Engine :=
  let began := eg_now e in
  let e := w e in
  noted 0 (if began <? eg_now e then eg_now e - began else 0) 0 (eg_cache e) e.

Definition stalled_once (e : Engine) : Engine := noted 1 0 0 (eg_cache e) e.

(** The options the valves consult. *)
Record WriteOptions := {
  wo_inline : bool;
  wo_block_on_stall : bool;
  wo_memtable_bytes : Z;
  wo_flush_interval : option Z;
  wo_flush_interval_jitter : Double
}.

(** A write call of the interface. *)
Inductive WriteCall :=
  | CallPut (key value : bytes)
  | CallRemove (key : bytes)
  | CallDeleteRange (lower upper : bytes)
  | CallWrite (batch : list BatchOp).

Section Valves.
Context (o : WriteOptions) (config : list ResolvedLevel) (tiers : ResolvedTiers).
(* [approximate_bytes] of a memtable; what a flush and an inline [compact_until_quiet] do *)
Context (bytes_of : SkiplistMemtable -> Z) (outcome : Db -> FlushOutcome) (l0 : ResolvedLevel).
Context (compact_until_quiet : Engine -> Status * Engine).

Definition flush_due (force : bool) (e : Engine) : bool :=
  let m := db_mem (eg_db e) in
  memtable_flush_due force (bytes_of m) (wo_memtable_bytes o) (wo_flush_interval o) (wo_flush_interval_jitter o)
    (empty m) (creation_time_ms_ m) (eg_now e).

Definition in_flight (e : Engine) : bool := match db_imm (eg_db e) with Some _ => true | None => false end.

(** ** The flush slot *)

(** [await_flush_slot]. *)
Fixpoint await_flush_slot (wakes : list Wake) (force retried : bool) (e : Engine) : option (Status * Engine * list Wake) :=
  if in_flight e && negb (eg_shutting_down e) && (force || flush_due false e) then
    let bg := db_bg_error (eg_db e) in
    let failed := negb (bool_decide (bg = Ok)) in
    if failed && (negb (is_retryable bg) || retried) then Some (bg, e, wakes)
    else
      let e := if failed then on_db (fun db => with_bg_error db Ok) e else e in
      let e := stalled_once e in
      if negb (wo_block_on_stall o) then Some (Stalled, e, wakes)
      else match wakes with
           | [] => None
           | w :: rest => await_flush_slot rest force (retried || failed) (nap w e)
           end
  else Some (Ok, e, wakes).

(** [await_rotation_slot]. *)
Definition await_rotation_slot (wakes : list Wake) (e : Engine) : option (Status * Engine * list Wake) :=
  if wo_inline o then Some (Ok, e, wakes) else await_flush_slot wakes false false e.

(** ** Rotation and flush *)

(** [while (run_one_flush(status)) {}]. *)
Fixpoint run_flushes (fuel : nat) (status : Status) (db : Db) : Status * Db :=
  match fuel with
  | O => (status, db)
  | S fuel =>
      let '(ran, status, db) := run_one_flush l0 (outcome db) status db in
      if ran then run_flushes fuel status db else (status, db)
  end.

(** [freeze_and_flush_inline]; a flush empties the slot, so that the second turn of the loop ends it. *)
Definition freeze_and_flush_inline (force : bool) (e : Engine) : Status * Engine :=
  let db := eg_db e in
  let sealed :=
    match db_imm db with
    | Some _ => Some db
    | None => if negb (flush_due force e) then None else if empty (db_mem db) then None else Some (seal_memtable (eg_now e) db)
    end in
  match sealed with
  | None => (Ok, e)
  | Some db =>
      let db := if is_retryable (db_bg_error db) then with_bg_error db Ok else db in
      let '(status, db) := run_flushes 2 Ok db in
      let e := on_db (fun _ => db) e in
      match status with Ok => compact_until_quiet e | s => (s, e) end
  end.

(** [maybe_freeze_memtable]. *)
Definition freeze_memtable (force : bool) (wakes : list Wake) (e : Engine) : option (Status * Engine * list Wake) :=
  if wo_inline o then let '(s, e) := freeze_and_flush_inline force e in Some (s, e, wakes)
  else if negb (flush_due force e) then Some (Ok, e, wakes)
  else if empty (db_mem (eg_db e)) && negb (in_flight e) then Some (Ok, e, wakes)
  else if negb force && in_flight e then Some (Ok, e, wakes)
  else
    match await_flush_slot wakes true false e with
    | Some (Ok, e, wakes) =>
        if empty (db_mem (eg_db e)) then Some (Ok, e, wakes)
        else Some (Ok, on_db (seal_memtable (eg_now e)) e, wakes)
    | r => r
    end.

(** The wait at the end of [flush]. *)
Fixpoint await_flushed (wakes : list Wake) (e : Engine) : option (Status * Engine * list Wake) :=
  if in_flight e && bool_decide (db_bg_error (eg_db e) = Ok) && negb (eg_shutting_down e) then
    match wakes with
    | [] => None
    | w :: rest => await_flushed rest (w e)
    end
  else Some (if in_flight e then db_bg_error (eg_db e) else Ok, e, wakes).

(** [flush]. *)
Definition db_flush (wakes : list Wake) (e : Engine) : option (Status * Engine * list Wake) :=
  if db_read_only (eg_db e) then Some (Config, e, wakes)
  else if wo_inline o then let '(s, e) := freeze_and_flush_inline true e in Some (s, e, wakes)
  else
    match freeze_memtable true wakes e with
    | Some (Ok, e, wakes) => await_flushed wakes e
    | r => r
    end.

(** ** The throttle *)

Definition over_budget (e : Engine) : Z := match bc_budget (eg_cache e) with Some b => overage b | None => 0 end.

(** [shed_if_over_budget]: whether the caller should be slowed. *)
Definition shed_if_over_budget (wakes : list Wake) (e : Engine) : option (bool * Engine * list Wake) :=
  match bc_budget (eg_cache e) with
  | None => Some (false, e, wakes)
  | Some b =>
      let over := overage b in
      if over =? 0 then Some (false, e, wakes)
      else
        let '(released, cache) := evict_at_least over (eg_cache e) in
        let e := noted 0 0 1 cache e in
        if over <=? released then Some (false, e, wakes)
        else if over_budget e =? 0 then Some (false, e, wakes)
        else if bytes_of (db_mem (eg_db e)) <? wo_memtable_bytes o / 4 then Some (0 <? over_budget e, e, wakes)
        else
          match freeze_memtable true wakes e with
          | Some (_, e, wakes) => Some (0 <? over_budget e, e, wakes)
          | None => None
          end
  end.

(** The file counts that stop writes: those the version set publishes where it publishes every configured level, which
    are the counts of the current version. *)
Definition at_least (bound : option Z) (files : Z) : bool := match bound with Some n => n <=? files | None => false end.

Definition stop_files (v : Version) : bool := existsb (fun l => at_least (rl_stop_at l) (file_count v (rl_level l))) config.

(** The lambda [budget_still_holding], on the pair of the flag and the overage last seen. *)
Definition budget_still_holding (b : bool * Z) (e : Engine) : bool * Z :=
  if negb b.1 then b
  else
    let now_over := over_budget e in
    (negb ((now_over =? 0) || (b.2 <=? now_over)), now_over).

Definition must_stop (b : bool * Z) (e : Engine) : bool := stop_files (db_version (eg_db e)) || eg_transient_stalled e || b.1.

(** The loop of [throttle_writes] with background threads; a slowdown only sleeps. *)
Fixpoint throttle_loop (wakes : list Wake) (b : bool * Z) (e : Engine) : option (Status * Engine * list Wake) :=
  if negb (must_stop b e) then Some (Ok, e, wakes)
  else
    let e := stalled_once e in
    if negb (wo_block_on_stall o) then Some (Stalled, e, wakes)
    else if eg_shutting_down_compaction e then Some (Ok, e, wakes)
    else
      match wakes with
      | [] => None
      | w :: rest =>
          let e := nap w e in
          let bg := db_bg_error (eg_db e) in
          if negb (bool_decide (bg = Ok)) && is_terminal bg then Some (bg, e, rest)
          else if eg_unusable e then Some (Unusable, e, rest)
          else if eg_fenced e then Some (Fenced, e, rest)
          else throttle_loop rest (budget_still_holding b e) e
      end.

(** The loop inline: the writer runs the compaction it would wait for. *)
Fixpoint throttle_inline (fuel : nat) (b : bool * Z) (e : Engine) : option (Status * Engine) :=
  match fuel with
  | O => None
  | S fuel =>
      let e := published (transient_stalled tiers (db_version (eg_db e)) (eg_now e)) e in
      if negb (must_stop b e) then Some (Ok, e)
      else
        let installs := eg_installs e in
        let '(status, e) := compact_until_quiet e in
        match status with
        | Ok => if eg_installs e =? installs then Some (Ok, e) else throttle_inline fuel (budget_still_holding b e) e
        | s => Some (s, e)
        end
  end.

(** [throttle_writes]. *)
Definition throttle_writes (fuel : nat) (wakes : list Wake) (e : Engine) : option (Status * Engine * list Wake) :=
  if eg_unusable e then Some (Unusable, e, wakes)
  else
    match await_rotation_slot wakes e with
    | Some (Ok, e, wakes) =>
        match shed_if_over_budget wakes e with
        | None => None
        | Some (stall, e, wakes) =>
            let b := (stall, if stall then over_budget e else 0) in
            if wo_inline o then
              match throttle_inline fuel b e with Some (s, e) => Some (s, e, wakes) | None => None end
            else throttle_loop wakes b e
        end
    | r => r
    end.

(** ** The write calls *)

(** What every write does once its arguments are found in order: the throttle, then under the lock the refusal of a
    terminal error and [body], which answers [Ok] with what it wrote or refuses; then the freeze that a write may owe. *)
Definition throttled_write (fuel : nat) (wakes : list Wake) (e : Engine) (body : Db -> Status * SkiplistMemtable) : option (Status * Engine * list Wake) :=
  match throttle_writes fuel wakes e with
  | Some (Ok, e, wakes) =>
      if refused (eg_db e) then Some (db_bg_error (eg_db e), e, wakes)
      else
        match body (eg_db e) with
        | (Ok, m) => freeze_memtable false wakes (on_db (fun db => with_mem db m) e)
        | (s, _) => Some (s, e, wakes)
        end
  | r => r
  end.

(** [put]. *)
Definition put_call (fuel : nat) (wakes : list Wake) (e : Engine) (key value : bytes) : option (Status * Engine * list Wake) :=
  if db_read_only (eg_db e) then Some (Config, e, wakes)
  else
    match check_entry_size key value with
    | Ok => throttled_write fuel wakes e (fun db => (check_below_truncation db key, put (db_mem db) key value))
    | s => Some (s, e, wakes)
    end.

(** [remove]. *)
Definition remove_call (fuel : nat) (wakes : list Wake) (e : Engine) (key : bytes) : option (Status * Engine * list Wake) :=
  if db_read_only (eg_db e) then Some (Config, e, wakes)
  else
    match check_entry_size key [] with
    | Ok => throttled_write fuel wakes e (fun db => (check_below_truncation db key, remove (db_mem db) key))
    | s => Some (s, e, wakes)
    end.

(** [delete_range]: the range is narrowed before the throttle, to the truncation point of the version then current. *)
Definition delete_range_call (fuel : nat) (wakes : list Wake) (e : Engine) (lower upper : bytes) : option (Status * Engine * list Wake) :=
  if db_read_only (eg_db e) then Some (Config, e, wakes)
  else
    match check_entry_size lower [] with
    | Ok =>
        match check_entry_size upper [] with
        | Ok =>
            let lower := clamp (truncation_point_ (db_version (eg_db e))) lower in
            if negb (lower <?k upper) then Some (Ok, e, wakes)
            else throttled_write fuel wakes e (fun db => (Ok, delete_range (db_mem db) lower upper))
        | s => Some (s, e, wakes)
        end
    | s => Some (s, e, wakes)
    end.

(** [write]. *)
Definition write_call (fuel : nat) (wakes : list Wake) (e : Engine) (batch : list BatchOp) : option (Status * Engine * list Wake) :=
  if db_read_only (eg_db e) then Some (Config, e, wakes)
  else throttled_write fuel wakes e (fun db => (validate_batch db batch, fold_left (apply_batch_op (db_write_floor db)) batch (db_mem db))).

(** The write calls of the interface. *)
Definition run_call (fuel : nat) (wakes : list Wake) (e : Engine) (c : WriteCall) : option (Status * Engine * list Wake) :=
  match c with
  | CallPut key value => put_call fuel wakes e key value
  | CallRemove key => remove_call fuel wakes e key
  | CallDeleteRange lower upper => delete_range_call fuel wakes e lower upper
  | CallWrite batch => write_call fuel wakes e batch
  end.
End Valves.
