(* ===== verification/AdmissionProofs.v ===== *)
(** * What the valves guarantee

    A call that is admitted, throttled or told to flush leaves the engine in a state the steps of [Refinement]
    reach, however the threads it waited for were interleaved; what its answer says; and that it ends. *)

From S2P Require Import Prelude Slice Format Framing Watermark VersionEdit Version Budget BlockCache Memtable Merging Sst Lsm Picker Outputs Compact CompactProofs Tiers Deadlines Reclaim Db Flush Refinement Examples Admission.

(** ** A memtable that reports itself empty *)

(** The counter of ranges agrees with the list of them. *)
Definition tallied (s : SkiplistMemtable) : Prop := range_count_ s = u64 (Z.of_nat (length (ranges_ s))).

(** Few enough entries and ranges for the counters not to wrap. *)
Definition few (s : SkiplistMemtable) : Prop :=
  Z.of_nat (length (nodes s)) < 2 ^ 64 /\ Z.of_nat (length (ranges_ s)) < 2 ^ 64.

Lemma iterate_length fuel s at_ : (length (iterate fuel s at_) <= fuel)%nat.
Proof. revert at_. induction fuel as [|fuel IH]; intros [id|]; simpl; [lia..| |lia]. specialize (IH (next_of s id 0)). lia. Qed.

Lemma empty_says_nothing s m k : models s m -> tallied s -> few s -> empty s = true -> mem_verdict m k = None.
Proof.
  intros Hm Ht [Hn Hr] He. apply andb_true_iff in He as [H1 H2]. zbool. rewrite Ht in H2. rewrite u64_small in H2 by (unfold is_u64; lia).
  destruct (models_reads s m Hm) as (_ & _ & _ & Hp & _). pose proof (iterate_length (length (nodes s)) s (next_of s 0 0)) as Hl. fold (ascending s) in Hl.
  destruct Hm as (L & Hw & Hmap & Hrs & Hc & _). apply Permutation_length in Hp. rewrite length_map_to_list in Hp.
  rewrite H1 in Hc. rewrite u64_small in Hc by (unfold is_u64; lia). assert (size m.1 = 0%nat) as Hz%map_size_empty_inv by lia.
  assert (m.2 = []) as Hr2 by (rewrite <- Hrs; destruct (ranges_ s); [done|simpl in *; lia]).
  unfold mem_verdict. by rewrite Hz, lookup_empty, Hr2.
Qed.

Lemma splices_tallied id prev l s : tallied s -> tallied (fold_left (splice id prev) l s).
Proof. revert s. induction l as [|i l IH]; intros s H; simpl; [done|]. by apply IH. Qed.

Lemma insert_tallied s key type value : tallied s -> tallied (insert s key type value).
Proof.
  intros H. unfold insert. destruct (find_greater_or_equal s key) as [next prev]. case_match; [done|].
  destruct (random_height (rng_state_ s)) as [height rng]. by apply splices_tallied.
Qed.

Lemma cover_tallied fuel s at_ up : tallied s -> tallied (cover_loop fuel s at_ up).
Proof.
  revert s at_. induction fuel as [|fuel IH]; intros s [id|] H; simpl; try done. case_match; [done|].
  apply IH. repeat (case_match; try done); by apply insert_tallied.
Qed.

Lemma delete_range_tallied s lo up : tallied s -> tallied (delete_range s lo up).
Proof.
  intros H. unfold delete_range. destruct (lo <?k up); cbn [negb]; [|done].
  pose proof (cover_tallied (S (length (nodes s))) s (find_greater_or_equal s lo).1 up H) as Hc.
  unfold tallied in *. cbn [range_count_ ranges_ length]. rewrite Hc. unfold u64. rewrite Zplus_mod_idemp_l. f_equal. lia.
Qed.

Lemma batch_tallied floor ops s : tallied s -> tallied (fold_left (apply_batch_op floor) ops s).
Proof.
  revert s. induction ops as [|op ops IH]; intros s H; simpl; [done|]. apply IH. destruct op as [k v|k|lo up]; simpl;
    [by apply insert_tallied|by apply insert_tallied|]. case_match; [by apply delete_range_tallied|done].
Qed.

Lemma created_tallied now est : tallied (created_memtable now est).
Proof. done. Qed.

Lemma freeze_tallied due now db s db' : maybe_freeze_memtable due now db = (s, db') -> tallied (db_mem db) -> tallied (db_mem db').
Proof.
  unfold maybe_freeze_memtable. intros E H. destruct due; simpl in E; [|by injection E as _ <-].
  destruct (db_imm db); [by injection E as _ <-|]. by destruct (empty (db_mem db)); injection E as _ <-.
Qed.



Section Engine.
Context {R : Type} `{ops : SstReaderOps R} (reader_for : Store -> FileMetadata -> Result R) (config : list ResolvedLevel).

Lemma finish_mem full written target next db db' : finish_compaction reader_for full written target next db = Value db' -> db_mem db' = db_mem db.
Proof.
  unfold finish_compaction. destruct (db_compacting db) as [[c tp]|]; [|by intros [= <-]].
  destruct (compaction_edit _ _ _ _ _ _) as [[e store']|]; simpl; [|done]. by intros [= <-].
Qed.

Lemma flush_install_mem l0 wr db : db_mem (flush_install l0 wr db) = db_mem db.
Proof. unfold flush_install. destruct (db_imm db); [|done]. cbn [db_mem]. unfold flush_memtable. by case_match. Qed.

(** An internal step leaves the memtable as it is, up to its watermark, or replaces it by a new one. *)
Lemma internal_mem db db' : db_step reader_for config db LInternal db' ->
  (exists now est, db_mem db' = created_memtable now est) \/
  (nodes (db_mem db') = nodes (db_mem db) /\ ranges_ (db_mem db') = ranges_ (db_mem db) /\
   entries_ (db_mem db') = entries_ (db_mem db) /\ range_count_ (db_mem db') = range_count_ (db_mem db)).
Proof.
  intros Hs. inversion Hs; subst.
  - right. unfold set_watermark in H. destruct (db_read_only db); [done|]. destruct (refused db) eqn:Er; [by injection H as E _; apply refused_not_ok in Er|].
    case_match; [done|]. by injection H as <-.
  - left. by exists now, (db_established_watermark db).
  - right. by rewrite flush_install_mem.
  - by right.
  - right. unfold start_compaction. by case_match.
  - right. apply finish_mem in H3. by rewrite H3.
  - right. unfold run_reclaim. by case_match.
  - by right.
  - by right.
Qed.

Lemma step_tallied db l db' : db_step reader_for config db l db' -> tallied (db_mem db) -> tallied (db_mem db').
Proof.
  intros Hs H. destruct (match l with LInternal => true | _ => false end) eqn:El; [destruct l; try done|].
  - destruct (internal_mem db db' Hs) as [(now & est & ->)|(_ & Hr & _ & Hc)]; [done|]. unfold tallied. by rewrite Hr, Hc.
  - inversion Hs; subst; try done; try clear El.
    + unfold db_put in H1. repeat (case_match; try done); simplify_eq; first [done|eapply freeze_tallied; [done|by apply insert_tallied]].
    + unfold db_remove in H1. repeat (case_match; try done); simplify_eq; first [done|eapply freeze_tallied; [done|by apply insert_tallied]].
    + unfold db_delete_range in H1. repeat (case_match; try done); simplify_eq; first [done|eapply freeze_tallied; [done|by apply delete_range_tallied]].
    + unfold db_write in H1. repeat (case_match; try done); simplify_eq; first [done|eapply freeze_tallied; [done|by apply batch_tallied]].
    + unfold truncate_below in H0. repeat (case_match; try done); by simplify_eq.
Qed.


Lemma steps_tallied db ls db' : db_steps reader_for config db ls db' -> tallied (db_mem db) -> tallied (db_mem db').
Proof. induction 1 as [|db l db1 ls db2 Hs _ IH]; [done|]. intros H. by apply IH, (step_tallied _ _ _ Hs). Qed.

(** ** Reachable states *)

Lemma steps_app db ls1 db1 ls2 db2 : db_steps reader_for config db ls1 db1 -> db_steps reader_for config db1 ls2 db2 ->
  db_steps reader_for config db (ls1 ++ ls2) db2.
Proof. induction 1 as [|db l db' ls db'' Hs _ IH]; [done|]. intros H. simpl. eapply steps_cons; [exact Hs|by apply IH]. Qed.

(** What other threads may do while a call sleeps: the steps whose labels are in [P]. *)
Context (P : Label -> Prop) (PI : P LInternal).

(** From one state of the engine to a later one, without a shutdown. *)
Definition moves (e e' : Engine) : Prop :=
  (exists ls, db_steps reader_for config (eg_db e) ls (eg_db e') /\ Forall P ls) /\ eg_shutting_down e' = eg_shutting_down e.

Definition wake_ok (w : Wake) : Prop := forall e, moves e (w e).

#[global] Instance moves_preorder : PreOrder moves.
Proof.
  split.
  - intros e. split; [|done]. exists []. split; [constructor|by apply Forall_nil].
  - intros a b c [(l1 & H1 & F1) S1] [(l2 & H2 & F2) S2]. split; [|congruence]. exists (l1 ++ l2).
    split; [by eapply steps_app|by apply Forall_app].
Qed.

Lemma moves_same e e' : eg_db e' = eg_db e -> eg_shutting_down e' = eg_shutting_down e -> moves e e'.
Proof. intros H1 H2. split; [|done]. exists []. rewrite H1. split; [constructor|by apply Forall_nil]. Qed.

Lemma moves_step e f : db_step reader_for config (eg_db e) LInternal (f (eg_db e)) -> moves e (on_db f e).
Proof using PI. intros H. split; [|done]. exists [LInternal]. split; [eapply steps_cons; [exact H|constructor]|by apply Forall_singleton]. Qed.

Lemma nap_moves w e : wake_ok w -> moves e (nap w e).
Proof. intros H. etrans; [apply H|]. by apply moves_same. Qed.

(** ** The valves, with background threads *)

Context (o : WriteOptions) (tiers : ResolvedTiers) (bytes_of : SkiplistMemtable -> Z) (outcome : Db -> FlushOutcome) (l0 : ResolvedLevel).
Context (compact_until_quiet : Engine -> Status * Engine).

Abbreviation await := (await_flush_slot o bytes_of).
Abbreviation freeze := (freeze_memtable o bytes_of outcome l0 compact_until_quiet).
Abbreviation shed := (shed_if_over_budget o bytes_of outcome l0 compact_until_quiet).
Abbreviation flush := (db_flush o bytes_of outcome l0 compact_until_quiet).
Abbreviation throttle := (throttle_writes o config tiers bytes_of outcome l0 compact_until_quiet).

(** A call that got its slot found no memtable in flight, or found that nothing is owed yet. *)
Lemma await_spec wakes force retried e s e' rest : Forall wake_ok wakes -> await wakes force retried e = Some (s, e', rest) ->
  moves e e' /\ Forall wake_ok rest /\
  (s = Ok -> eg_shutting_down e' = false -> in_flight e' = false \/ (force = false /\ flush_due o bytes_of false e' = false)).
Proof using PI.
  revert retried e. induction wakes as [|w wakes IH]; intros retried e Hw; cbn [await_flush_slot];
    (destruct (in_flight e && negb (eg_shutting_down e) && (force || flush_due o bytes_of false e)) eqn:Eg;
      [|intros [= <- <- <-]; split; [reflexivity|]; split; [done|]; intros _ Hd; rewrite Hd in Eg; simpl in Eg;
        destruct (in_flight e); [|by left]; destruct force; [done|by right]]).
  all: set (failed := negb (bool_decide (db_bg_error (eg_db e) = Ok))); destruct (failed && _) eqn:Eb;
    [intros [= <- <- <-]; split; [reflexivity|]; split; [done|]; intros E; subst failed; rewrite E in Eb; simpl in Eb; done|].
  all: set (e1 := if failed then _ else e); assert (moves e e1) as H1 by (subst e1; destruct failed; [apply moves_step; constructor|reflexivity]).
  all: assert (moves e (stalled_once e1)) as H2 by (etrans; [exact H1|by apply moves_same]).
  all: destruct (wo_block_on_stall o); cbn [negb]; [|by intros [= <- <- <-]].
  - done.
  - apply Forall_cons in Hw as [Hw Hws]. intros E. apply IH in E as (H3 & H4 & H5); [|done].
    split; [|done]. etrans; [exact H2|]. etrans; [by apply nap_moves|exact H3].
Qed.

Lemma freeze_spec wakes e s e' rest : wo_inline o = false -> Forall wake_ok wakes -> eg_shutting_down e = false ->
  freeze true wakes e = Some (s, e', rest) -> moves e e' /\ Forall wake_ok rest.
Proof using PI.
  intros Hi Hw Hd. unfold freeze_memtable. rewrite Hi. unfold flush_due at 1. cbn [memtable_flush_due orb negb].
  destruct (empty (db_mem (eg_db e)) && negb (in_flight e)); [by intros [= <- <- <-]|]. cbn [negb andb].
  destruct (await wakes true false e) as [[[s1 e1] r1]|] eqn:Ea; [|done]. apply await_spec in Ea as (H1 & H2 & H3); [|done].
  destruct s1; try by intros [= <- <- <-]. destruct (empty (db_mem (eg_db e1))); intros [= <- <- <-]; [done|]. split; [|done].
  assert (eg_shutting_down e1 = false) as Hd1 by (destruct H1 as [_ ->]; done). destruct (H3 eq_refl Hd1) as [H4|[? _]]; [|done].
  etrans; [exact H1|]. apply moves_step. constructor. unfold in_flight in H4. by destruct (db_imm (eg_db e1)).
Qed.

Lemma flushed_spec wakes e s e' rest : Forall wake_ok wakes -> await_flushed wakes e = Some (s, e', rest) ->
  moves e e' /\ (s = Ok -> eg_shutting_down e' = false -> in_flight e' = false).
Proof.
  revert e. induction wakes as [|w wakes IH]; intros e Hw; cbn [await_flushed];
    (destruct (in_flight e && bool_decide (db_bg_error (eg_db e) = Ok) && negb (eg_shutting_down e)) eqn:Eg;
      [|intros [= <- <- <-]; split; [reflexivity|]; intros E Hd; rewrite Hd in Eg; destruct (in_flight e); [|done]; by rewrite E in Eg]); [done|].
  apply Forall_cons in Hw as [Hw Hws]. intros E. apply IH in E as [H1 H2]; [|done]. split; [|done]. etrans; [apply (Hw e)|exact H1].
Qed.

(** ** Inline: the writer flushes itself *)

Definition outcome_ok : Prop := forall db, fo_written (outcome db) <> Unexpected Ok /\
  forall wr, fo_written (outcome db) = Value wr -> db_next_file_number db <= wr_number wr.

Lemma few_small s : few s -> memtable_small s.
Proof.
  intros [H1 H2]. split.
  - pose proof (iterate_length (length (nodes s)) s (next_of s 0 0)). unfold ascending. lia.
  - unfold range_tombstones. pose proof (merge_ranges_length (ranges_ s)). lia.
Qed.

(** One flush is a step, whatever it is told, and it empties the slot exactly when it answers that it ran. *)
Lemma run_one_flush_spec m e status : db_imm (eg_db e) = Some m -> db_imm_installed (eg_db e) = false -> few m -> outcome_ok ->
  let '(ran, s, db') := run_one_flush l0 (outcome (eg_db e)) status (eg_db e) in
  moves e (on_db (fun _ => db') e) /\ db_mem db' = db_mem (eg_db e) /\
  if ran then s = Ok /\ db_imm db' = None else s <> Ok.
Proof using PI.
  intros Ei En Hf Ho. destruct (Ho (eg_db e)) as [Ho1 Ho2]. unfold run_one_flush. rewrite Ei.
  assert (forall wr, db_next_file_number (eg_db e) <= wr_number wr -> moves e (on_db (fun _ => flush_done (flush_install l0 wr (eg_db e))) e)) as Hdone.
  { intros wr Hn. split; [|done]. exists [LInternal; LInternal]. split; [|by repeat apply Forall_cons_2; try apply Forall_nil].
    eapply steps_cons; [eapply (step_flush_install _ _ _ m l0 wr); [done|done|by apply few_small|done]|].
    eapply steps_cons; [apply step_flush_done|constructor]. unfold flush_install. by rewrite Ei. }
  assert (forall s db', db' = eg_db e \/ (exists n c, db_next_file_number (eg_db e) <= n /\ db' = with_orphan (eg_db e) n c) ->
    moves e (on_db (fun _ => flush_failed s db') e)) as Hfail.
  { intros s db' Hdb. assert (moves e (on_db (fun _ => db') e)) as H1 by (destruct Hdb as [->|(n & c & Hn & ->)]; [by apply moves_same|by apply (moves_step e (fun db => with_orphan db n c)); constructor]).
    etrans; [exact H1|]. unfold flush_failed. destruct (_ || _); [|by apply moves_same].
    by apply (moves_step (on_db (fun _ => db') e) (fun db => with_bg_error db s)); constructor. }
  destruct ((w_num_entries (flush_writer m) =? 0) && (w_num_range_tombstones (flush_writer m) =? 0)) eqn:Ez.
  - split; [|done]. set (wr := {| wr_number := db_next_file_number (eg_db e); wr_store := []; wr_bytes := 0; wr_provider := []; wr_metadata := [] |}).
    specialize (Hdone wr ltac:(simpl; lia)). unfold flush_install in Hdone. rewrite Ei in Hdone. unfold flush_memtable in Hdone. by rewrite Ez in Hdone.
  - destruct (fo_written (outcome (eg_db e))) as [wr|s]; [|split; [apply Hfail; by left|]; split; [unfold flush_failed; by case_match|congruence]].
    destruct (fo_applied (outcome (eg_db e))) eqn:Ea.
    { split; [by apply Hdone, Ho2|]. split; [|done]. cbn [db_mem flush_done]. by rewrite flush_install_mem. }
    all: split; [apply Hfail; right; eexists _, _; split; [by apply Ho2|done]|]; split; [unfold flush_failed; by case_match|done].
Qed.

Lemma run_flushes_spec m e : db_imm (eg_db e) = Some m -> db_imm_installed (eg_db e) = false -> few m -> outcome_ok ->
  let '(s, db') := run_flushes outcome l0 2 Ok (eg_db e) in
  moves e (on_db (fun _ => db') e) /\ db_mem db' = db_mem (eg_db e) /\ (s = Ok -> db_imm db' = None).
Proof using PI.
  intros Ei En Hf Ho. cbn [run_flushes]. pose proof (run_one_flush_spec m e Ok Ei En Hf Ho) as H.
  destruct (run_one_flush l0 (outcome (eg_db e)) Ok (eg_db e)) as [[ran s] db']. destruct H as (H1 & H2 & H3). destruct ran; [|done].
  destruct H3 as [-> H3]. unfold run_one_flush. by rewrite H3.
Qed.

(** Two turns of the loop are enough. *)
Lemma run_flushes_enough n status db : run_flushes outcome l0 (S (S n)) status db = run_flushes outcome l0 2 status db.
Proof.
  assert (forall st db, (run_one_flush l0 (outcome db) st db).1.1 = true -> db_imm (run_one_flush l0 (outcome db) st db).2 = None) as H.
  { intros st db0. unfold run_one_flush. repeat (case_match; try done). }
  cbn [run_flushes]. specialize (H status db). destruct (run_one_flush l0 (outcome db) status db) as [[ran s] db']. destruct ran; [|done].
  specialize (H eq_refl). cbn [snd] in H. destruct n; unfold run_one_flush; by rewrite H.
Qed.
End Engine.

(** ** Flush *)

Section Flush.
Context {R : Type} `{ops : SstReaderOps R} (reader_for : Store -> FileMetadata -> Result R) (config : list ResolvedLevel).
Context (Hreader : forall store f, exists r, reader_for store f = Value r /\ SstReaderLaws ops r (store_content store f)).
Context (Hconfig : config <> []).
Context (o : WriteOptions) (bytes_of : SkiplistMemtable -> Z) (outcome : Db -> FlushOutcome) (l0 : ResolvedLevel).
Context (compact_until_quiet : Engine -> Status * Engine).

Abbreviation internal := (eq LInternal).
Abbreviation goes := (moves reader_for config internal).
Abbreviation flush := (db_flush o bytes_of outcome l0 compact_until_quiet).

Lemma internal_few e e' : goes e e' -> few (db_mem (eg_db e)) -> few (db_mem (eg_db e')).
Proof.
  intros [(ls & Hs & HP) _]. revert Hs HP. generalize (eg_db e), (eg_db e'). induction 1 as [|db l db1 ls db2 Hs _ IH]; [done|].
  intros [<- HP]%Forall_cons H. apply IH; [done|]. destruct (internal_mem _ _ _ _ Hs) as [(now & est & ->)|(Hn & Hr & _)]; [done|].
  unfold few. by rewrite Hn, Hr.
Qed.

Lemma internal_empty e e' : goes e e' -> empty (db_mem (eg_db e)) = true -> empty (db_mem (eg_db e')) = true.
Proof.
  intros [(ls & Hs & HP) _]. revert Hs HP. generalize (eg_db e), (eg_db e'). induction 1 as [|db l db1 ls db2 Hs _ IH]; [done|].
  intros [<- HP]%Forall_cons H. apply IH; [done|]. destruct (internal_mem _ _ _ _ Hs) as [(now & est & ->)|(_ & _ & He & Hc)]; [done|].
  unfold empty in *. by rewrite He, Hc.
Qed.

(** With background threads: the slot is empty when [flush] answers, and the memtable was rotated. *)
Lemma flush_threaded wakes e e' rest : wo_inline o = false -> eg_shutting_down e = false ->
  Forall (wake_ok reader_for config internal) wakes -> flush wakes e = Some (Ok, e', rest) ->
  goes e e' /\ in_flight e' = false /\ empty (db_mem (eg_db e')) = true.
Proof.
  intros Hi Hd Hw. unfold db_flush. destruct (db_read_only (eg_db e)); [done|]. rewrite Hi.
  destruct (freeze_memtable _ _ _ _ _ true wakes e) as [[[s e1] r1]|] eqn:Ef; [|done]. destruct s; try done.
  destruct (freeze_spec reader_for config internal eq_refl o bytes_of outcome l0 compact_until_quiet wakes e Ok e1 r1 Hi Hw Hd Ef) as [H1 H2].
  assert (empty (db_mem (eg_db e1)) = true) as He1.
  { unfold freeze_memtable in Ef. rewrite Hi in Ef. unfold flush_due at 1 in Ef. cbn [memtable_flush_due orb negb andb] in Ef.
    destruct (empty (db_mem (eg_db e)) && negb (in_flight e)) eqn:Ee; [injection Ef as <- _; by apply andb_true_iff in Ee as [? _]|].
    destruct (await_flush_slot _ _ _ _ _ _) as [[[s2 e2] r2]|]; [|done]. destruct s2; try done.
    destruct (empty (db_mem (eg_db e2))) eqn:E2; injection Ef as <- _; [done|]. done. }
  intros E. apply (flushed_spec reader_for config internal) in E as [H3 H4]; [|done].
  split; [by etrans|]. split; [|by eapply internal_empty]. apply H4; [done|]. destruct H1 as [_ H1], H3 as [_ H3]. congruence.
Qed.

(** Inline, with nothing left over from a flush that failed. *)
Lemma flush_inline wakes e e' rest : wo_inline o = true -> db_imm (eg_db e) = None -> few (db_mem (eg_db e)) -> outcome_ok outcome ->
  wake_ok reader_for config internal (fun e => (compact_until_quiet e).2) ->
  (forall e s e', compact_until_quiet e = (s, e') -> db_imm (eg_db e) = None -> db_imm (eg_db e') = None) ->
  flush wakes e = Some (Ok, e', rest) ->
  goes e e' /\ in_flight e' = false /\ empty (db_mem (eg_db e')) = true.
Proof.
  intros Hi Hn Hf Ho Hc Hci. unfold db_flush. destruct (db_read_only (eg_db e)); [done|]. rewrite Hi. unfold freeze_and_flush_inline. rewrite Hn.
  unfold flush_due at 1. cbn [memtable_flush_due orb negb]. destruct (empty (db_mem (eg_db e))) eqn:Ee.
  { intros [= <- _]. split; [reflexivity|]. split; [|done]. unfold in_flight. by rewrite Hn. }
  set (db1 := seal_memtable (eg_now e) (eg_db e)). set (db2 := if is_retryable (db_bg_error db1) then with_bg_error db1 Ok else db1).
  assert (goes e (on_db (fun _ => db2) e)) as H1.
  { etrans; [apply (moves_step reader_for config internal eq_refl e (seal_memtable (eg_now e))); by constructor|]. fold db1.
    subst db2. destruct (is_retryable _); [|by apply moves_same]. exact (moves_step reader_for config internal eq_refl (on_db (seal_memtable (eg_now e)) e) (fun db => with_bg_error db Ok) ltac:(constructor)). }
  assert (db_imm db2 = Some (sealed_at (eg_now e) (db_mem (eg_db e))) /\ db_imm_installed db2 = false /\ empty (db_mem db2) = true) as (Hi2 & Hn2 & He2)
    by (subst db2; by destruct (is_retryable _)).
  pose proof (run_flushes_spec reader_for config internal eq_refl outcome l0 _ (on_db (fun _ => db2) e) Hi2 Hn2 ltac:(exact Hf) Ho) as H2.
  cbn [eg_db on_db] in H2. destruct (run_flushes outcome l0 2 Ok db2) as [s db3]. destruct H2 as (H2 & H3 & H4).
  destruct s; try done. set (e3 := on_db (fun _ => db3) e). assert (goes e e3) as H5 by (etrans; [exact H1|exact H2]).
  destruct (compact_until_quiet e3) as [s e4] eqn:Ec. intros [= -> <- _]. assert (goes e3 e4) as H6 by (change e4 with ((Ok, e4).2 : Engine); rewrite <- Ec; exact (Hc e3)).
  split; [by etrans|]. split.
  - unfold in_flight. by rewrite (Hci _ _ _ Ec (H4 eq_refl)).
  - apply (internal_empty e3); [done|]. cbn [eg_db on_db e3]. by rewrite H3.
Qed.

(** Nothing in memory: the files answer. *)
Lemma files_answer a m im e k : sim config (eg_db e) a m im -> tallied (db_mem (eg_db e)) -> few (db_mem (eg_db e)) ->
  in_flight e = false -> empty (db_mem (eg_db e)) = true ->
  db_get (reader_for (db_store (eg_db e))) false [] (db_version (eg_db e)) k = kv_get a k.
Proof using Hreader.
  intros Hs Ht Hf Hi He. rewrite <- (sim_get reader_for config Hreader (eg_db e) a m im k Hs).
  pose proof (sm_ok _ _ _ _ _ Hs) as Hok. pose proof (eo_mem _ _ _ _ Hok) as Hm. pose proof (eo_version _ _ _ _ Hok) as Hv.
  assert (db_imm (eg_db e) = None) as Hn by (unfold in_flight in Hi; by destruct (db_imm (eg_db e))).
  assert (readable (store_content (db_store (eg_db e))) (reader_for (db_store (eg_db e))) (db_version (eg_db e))) as Hr by (intros f _; apply Hreader).
  rewrite (db_get_spec _ _ [] []) by done. unfold memtables. rewrite Hn.
  rewrite (db_get_spec _ _ [db_mem (eg_db e)] [m]) by (try done; by repeat constructor). simpl.
  by rewrite (empty_says_nothing _ _ k Hm Ht Hf He).
Qed.
End Flush.

(** ** The throttle *)

Section Throttle.
Context {R : Type} `{ops : SstReaderOps R} (reader_for : Store -> FileMetadata -> Result R) (config : list ResolvedLevel).
Context (P : Label -> Prop) (PI : P LInternal).
Context (o : WriteOptions) (tiers : ResolvedTiers) (bytes_of : SkiplistMemtable -> Z) (outcome : Db -> FlushOutcome) (l0 : ResolvedLevel).
Context (compact_until_quiet : Engine -> Status * Engine).
Context (threaded : wo_inline o = false).

Abbreviation goes := (moves reader_for config P).
Abbreviation sound := (wake_ok reader_for config P).
Abbreviation await := (await_flush_slot o bytes_of).
Abbreviation freeze := (freeze_memtable o bytes_of outcome l0 compact_until_quiet).
Abbreviation shed := (shed_if_over_budget o bytes_of outcome l0 compact_until_quiet).
Abbreviation throttle := (throttle_writes o config tiers bytes_of outcome l0 compact_until_quiet).

Lemma shed_spec wakes e b e' rest : Forall sound wakes -> eg_shutting_down e = false -> shed wakes e = Some (b, e', rest) ->
  goes e e' /\ Forall sound rest.
Proof using PI threaded.
  intros Hw Hd. unfold shed_if_over_budget. destruct (bc_budget (eg_cache e)) as [budget|]; [|by intros [= <- <- <-]].
  destruct (overage budget =? 0); [by intros [= <- <- <-]|]. destruct (evict_at_least _ _) as [released cache].
  set (e1 := noted 0 0 1 cache e). assert (goes e e1) as H1 by (by apply moves_same).
  destruct (overage budget <=? released); [by intros [= <- <- <-]|]. destruct (over_budget e1 =? 0); [by intros [= <- <- <-]|].
  destruct (bytes_of _ <? _); [by intros [= <- <- <-]|]. destruct (freeze true wakes e1) as [[[s e2] r2]|] eqn:Ef; [|done]. intros [= <- <- <-].
  apply (freeze_spec reader_for config P PI) in Ef as [H2 H3]; [|done..]. split; [by etrans|done].
Qed.

(** What an answer of the throttle says: a write let through found no level at its stop count and no transient
    tier past its stall age, unless the store is shutting down; a refusal names its cause. *)
Definition told (s : Status) (e : Engine) : Prop :=
  match s with
  | Ok => eg_shutting_down_compaction e = true \/ (stop_files config (db_version (eg_db e)) = false /\ eg_transient_stalled e = false)
  | _ => s = db_bg_error (eg_db e) \/ (s = Stalled /\ wo_block_on_stall o = false) \/
         (s = Unusable /\ eg_unusable e = true) \/ (s = Fenced /\ eg_fenced e = true)
  end.

Lemma told_bg e : db_bg_error (eg_db e) <> Ok -> told (db_bg_error (eg_db e)) e.
Proof. unfold told. intros H. destruct (db_bg_error (eg_db e)); [done|by left..]. Qed.

Lemma await_told wakes force retried e s e' rest : await wakes force retried e = Some (s, e', rest) -> s = Ok \/ told s e'.
Proof.
  revert retried e. induction wakes as [|w wakes IH]; intros retried e; cbn [await_flush_slot];
    (destruct (in_flight e && negb (eg_shutting_down e) && (force || flush_due o bytes_of false e)); [|intros [= <- _ _]; by left]).
  all: set (failed := negb (bool_decide (db_bg_error (eg_db e) = Ok))); destruct (failed && _);
    [intros [= <- <- _]; unfold told; destruct (db_bg_error (eg_db e)); by eauto|].
  all: destruct (wo_block_on_stall o) eqn:Eb; cbn [negb]; [|intros [= <- _ _]; right; simpl; by eauto]. { done. } apply IH.
Qed.

Lemma loop_spec wakes b e s e' rest : Forall sound wakes -> throttle_loop o config wakes b e = Some (s, e', rest) ->
  goes e e' /\ told s e'.
Proof.
  revert b e. induction wakes as [|w wakes IH]; intros b e Hw; cbn [throttle_loop];
    (destruct (must_stop config b e) eqn:Em; cbn [negb];
      [|intros [= <- <- _]; split; [reflexivity|]; unfold must_stop in Em; apply orb_false_iff in Em as [Em _]; apply orb_false_iff in Em; right; exact Em]).
  all: assert (goes e (stalled_once e)) as H1 by (by apply moves_same).
  all: destruct (wo_block_on_stall o) eqn:Eb; cbn [negb]; [|intros [= <- <- _]; split; [done|]; right; by left].
  all: destruct (eg_shutting_down_compaction (stalled_once e)) eqn:Es; [intros [= <- <- _]; split; [done|]; by left|]. { done. }
  apply Forall_cons in Hw as [Hw Hws]. set (e1 := nap w (stalled_once e)).
  assert (goes e e1) as H2 by (etrans; [exact H1|by apply nap_moves]).
  destruct (_ && is_terminal _) eqn:Et; [intros [= <- <- _]; split; [done|]; apply (told_bg e1); by destruct (db_bg_error (eg_db e1))|].
  destruct (eg_unusable e1) eqn:Eu; [intros [= <- <- _]; split; [done|]; unfold told; by eauto|].
  destruct (eg_fenced e1) eqn:Ef; [intros [= <- <- _]; split; [done|]; unfold told; by eauto 6|].
  intros E. apply IH in E as [H3 H4]; [|done]. split; [by etrans|done].
Qed.

Lemma throttle_spec fuel wakes e s e' rest : Forall sound wakes -> eg_shutting_down e = false -> throttle fuel wakes e = Some (s, e', rest) ->
  goes e e' /\ told s e'.
Proof using PI threaded.
  intros Hw Hd. unfold throttle_writes. destruct (eg_unusable e) eqn:Eu; [intros [= <- <- _]; split; [reflexivity|]; unfold told; by eauto|].
  unfold await_rotation_slot. rewrite threaded. destruct (await wakes false false e) as [[[s1 e1] r1]|] eqn:Ea; [|done].
  pose proof (await_told _ _ _ _ _ _ _ Ea) as Ht. apply (await_spec reader_for config P PI) in Ea as (H1 & H2 & _); [|done].
  destruct (decide (s1 = Ok)) as [->|Hs]; [|intros E; assert (s = s1 /\ e' = e1) as [-> ->] by (destruct s1; by simplify_eq); by destruct Ht].
  destruct (shed r1 e1) as [[[b e2] r2]|] eqn:Es; [|done]. apply shed_spec in Es as [H3 H4]; [|done|by destruct H1 as [_ ->]].
  intros E. apply loop_spec in E as [H5 H6]; [|done]. split; [|done]. etrans; [exact H1|]. by etrans.
Qed.

(** ** The write calls *)

Context (no_truncation : forall key, ~ P (LTruncate key)).



Abbreviation writes := (throttled_write o config tiers bytes_of outcome l0 compact_until_quiet).




(** ** The throttle ends *)

Lemma over_budget_nonneg e : 0 <= over_budget e.
Proof. unfold over_budget. destruct (bc_budget (eg_cache e)) as [b|]; [|done]. unfold overage. destruct (Z.ltb_spec (mb_total b) (mb_used b)); lia. Qed.

Definition pressure (e : Engine) : bool := stop_files config (db_version (eg_db e)) || eg_transient_stalled e.

Lemma await_free wakes force retried e : in_flight e = false -> await wakes force retried e = Some (Ok, e, wakes).
Proof. intros H. destruct wakes; simpl; by rewrite H. Qed.

Lemma await_nonblocking force retried e : wo_block_on_stall o = false -> exists s e', forall wakes, await wakes force retried e = Some (s, e', wakes).
Proof.
  intros Hb. destruct (await [] force retried e) as [[[s e'] r]|] eqn:E; exists (from_option (fun x => x.1.1) Ok (await [] force retried e)), (from_option (fun x => x.1.2) e (await [] force retried e)).
  all: intros wakes; rewrite E; destruct wakes; cbn [await_flush_slot] in *; rewrite Hb in *; cbn [negb] in *; repeat case_match; by simplify_eq.
Qed.

Lemma freeze_nonblocking e : wo_block_on_stall o = false \/ in_flight e = false -> exists s e', (forall wakes, freeze true wakes e = Some (s, e', wakes)).
Proof using threaded.
  intros H. unfold freeze_memtable. rewrite threaded. unfold flush_due at 1. cbn [memtable_flush_due orb negb andb].
  destruct (empty (db_mem (eg_db e)) && negb (in_flight e)); [by eauto|].
  assert (exists s e', forall wakes, await wakes true false e = Some (s, e', wakes)) as (s & e' & Ha)
    by (destruct H as [H|H]; [by apply await_nonblocking|exists Ok, e; intros wakes; by apply await_free]).
  destruct (decide (s = Ok)) as [->|Hs].
  - destruct (empty (db_mem (eg_db e'))) eqn:Ee; [exists Ok, e'|exists Ok, (on_db (seal_memtable (eg_now e')) e')]; intros wakes; by rewrite Ha, Ee.
  - exists s, e'. intros wakes. rewrite Ha. by destruct s.
Qed.

Lemma shed_nonblocking e : wo_block_on_stall o = false \/ in_flight e = false -> exists b e', (forall wakes, shed wakes e = Some (b, e', wakes)).
Proof using threaded.
  intros H. unfold shed_if_over_budget. destruct (bc_budget (eg_cache e)) as [budget|]; [|by eauto].
  destruct (overage budget =? 0); [by eauto|]. destruct (evict_at_least _ _) as [released cache]. set (e1 := noted 0 0 1 cache e).
  destruct (overage budget <=? released); [by eauto|]. destruct (over_budget e1 =? 0); [by eauto|]. destruct (bytes_of _ <? _); [by eauto|].
  destruct (freeze_nonblocking e1) as (s & e2 & Hf); [by destruct H; [left|right]|]. exists (0 <? over_budget e2), e2. intros wakes. by rewrite Hf.
Qed.

Lemma loop_nonblocking wakes b e : wo_block_on_stall o = false -> exists s e', throttle_loop o config wakes b e = Some (s, e', wakes).
Proof. intros Hb. destruct wakes; cbn [throttle_loop]; rewrite Hb; destruct (must_stop config b e); simpl; by eauto. Qed.

(** The budget holds a writer only while the overage shrinks. *)
Lemma loop_bounded wakes b e : pressure e = false -> Forall (fun w : Wake => forall e, pressure (w e) = false) wakes ->
  (b.1 = true -> 0 < b.2 <= Z.of_nat (length wakes)) -> exists s e' rest, throttle_loop o config wakes b e = Some (s, e', rest).
Proof.
  revert b e. induction wakes as [|w wakes IH]; intros b e Hp Hw Hb; cbn [throttle_loop];
    (destruct (must_stop config b e) eqn:Em; cbn [negb]; [|by eauto]).
  - unfold must_stop in Em. fold (pressure e) in Em. rewrite Hp in Em. specialize (Hb Em). simpl in Hb. lia.
  - destruct (wo_block_on_stall o); cbn [negb]; [|by eauto]. destruct (eg_shutting_down_compaction _); [by eauto|].
    apply Forall_cons in Hw as [Hw Hws]. set (e1 := nap w (stalled_once e)). repeat (case_match; [by eauto|]).
    apply IH; [apply Hw|done|]; unfold budget_still_holding; destruct b as [[] over]; cbn [fst snd negb] in *; try done.
    intros Hh. apply negb_true_iff, orb_false_iff in Hh as [Hz Hh]. pose proof (over_budget_nonneg e1) as Hnn. zbool. specialize (Hb eq_refl). simpl in Hb. lia.
Qed.

Lemma shed_holds e b e' wakes rest : shed wakes e = Some (b, e', rest) -> b = true -> 0 < over_budget e'.
Proof.
  unfold shed_if_over_budget. intros E ->. repeat (case_match; try done); simplify_eq; by apply Z.ltb_lt.
Qed.

Lemma shed_version e b e' wakes rest : in_flight e = false -> shed wakes e = Some (b, e', rest) -> pressure e' = pressure e.
Proof using threaded.
  intros Hi. unfold shed_if_over_budget. destruct (bc_budget (eg_cache e)) as [budget|]; [|by intros [= _ <- _]].
  destruct (overage budget =? 0); [by intros [= _ <- _]|]. destruct (evict_at_least _ _) as [released cache]. set (e1 := noted 0 0 1 cache e).
  destruct (overage budget <=? released); [by intros [= _ <- _]|]. destruct (over_budget e1 =? 0); [by intros [= _ <- _]|].
  destruct (bytes_of _ <? _); [by intros [= _ <- _]|]. unfold freeze_memtable. rewrite threaded. unfold flush_due at 1. cbn [memtable_flush_due orb negb andb].
  change (in_flight e1) with (in_flight e). rewrite Hi. rewrite andb_true_r. destruct (empty (db_mem (eg_db e1))) eqn:Ee; [by intros [= _ <- _]|].
  rewrite await_free by done. rewrite Ee. by intros [= _ <- _].
Qed.
End Throttle.

(** ** Properties *)

(** C4: A flush that is acknowledged leaves nothing in memory. From a new store, after any run of the engine whose
    writes have no empty key, while the other threads do the engine's own work only (flushes, compactions, reclaims; no
    write, no truncation, no shutdown), with fewer than 2^64 entries in the memtable: when [flush] answers [Ok], no memtable
    is in flight, the live one is empty, and the files alone answer every key as the map of the writes does. Inline, the
    same when no memtable is left over from a flush that failed and the compaction the flush ends with,
    [compact_until_quiet], takes the engine's own steps only. *)
Theorem flush_leaves_nothing_in_memory {R} (ops : SstReaderOps R) (reader_for : Store -> FileMetadata -> Result R) config
    o bytes_of outcome l0 compact_until_quiet store now ls e wakes e' rest :
  (forall store f, exists r, reader_for store f = Value r /\ SstReaderLaws ops r (store_content store f)) -> config <> [] ->
  db_steps reader_for config (open_db empty_version store now) ls (eg_db e) ->
  few (db_mem (eg_db e)) -> eg_shutting_down e = false ->
  (if wo_inline o then
     db_imm (eg_db e) = None /\ outcome_ok outcome /\ wake_ok reader_for config (eq LInternal) (fun e => (compact_until_quiet e).2) /\
     (forall e s e', compact_until_quiet e = (s, e') -> db_imm (eg_db e) = None -> db_imm (eg_db e') = None)
   else Forall (wake_ok reader_for config (eq LInternal)) wakes) ->
  db_flush o bytes_of outcome l0 compact_until_quiet wakes e = Some (Ok, e', rest) ->
  in_flight e' = false /\ empty (db_mem (eg_db e')) = true /\
  forall k, db_get (reader_for (db_store (eg_db e'))) false [] (db_version (eg_db e')) k = kv_get (fold_left kv_label ls kv_empty) k.
Proof.
  intros Hr Hcfg Hs Hf Hd Hmode E. assert (moves reader_for config (eq LInternal) e e' /\ in_flight e' = false /\ empty (db_mem (eg_db e')) = true) as (Hm & Hi & He).
  { destruct (wo_inline o) eqn:Eo; [destruct Hmode as (H1 & H2 & H3 & H4); by eapply flush_inline|by eapply flush_threaded]. }
  split; [done|]. split; [done|]. intros k. pose proof Hm as [(ls' & Hs' & HP) _].
  pose proof (steps_app _ _ _ _ _ _ _ Hs Hs') as Hall. destruct (sim_steps reader_for config Hr Hcfg _ _ _ _ _ _ (sim_open config store now) Hall) as (m & im & Hsim).
  rewrite (files_answer reader_for config Hr _ m im e' k Hsim); [|by apply (steps_tallied _ _ _ _ _ Hall)|by eapply internal_few|done|done].
  f_equal. rewrite fold_left_app. clear -HP. generalize (fold_left kv_label ls kv_empty). induction HP as [|l ls' <- _ IH]; intros a; [done|]. apply IH.
Qed.

(** What the throttle answers, with background threads. A write that is let through found, at that moment, no
    level at its stop count and no transient tier past its stall age, unless the store is shutting down; every refusal
    names its cause: the stored background error, a stall when the caller asked not to wait, an instance that is
    unusable or fenced. Meanwhile the engine only took steps of its own and of the threads it waited for, so that
    every reading of it is still the map of the writes. *)
Theorem throttle_tells_why {R} (ops : SstReaderOps R) (reader_for : Store -> FileMetadata -> Result R) config (P : Label -> Prop)
    o tiers bytes_of outcome l0 compact_until_quiet fuel wakes e s e' rest :
  P LInternal -> wo_inline o = false -> eg_shutting_down e = false -> Forall (wake_ok reader_for config P) wakes ->
  throttle_writes o config tiers bytes_of outcome l0 compact_until_quiet fuel wakes e = Some (s, e', rest) ->
  told config o s e' /\ exists ls, db_steps reader_for config (eg_db e) ls (eg_db e') /\ Forall P ls.
Proof.
  intros HP Hi Hd Hw E. destruct (throttle_spec reader_for config P HP o tiers bytes_of outcome l0 compact_until_quiet Hi _ _ _ _ _ _ Hw Hd E) as [[Hm _] Ht]. done.
Qed.

(** C38: The throttle ends, with background threads. A caller that asked not to wait is answered at once, without a
    single wait. A caller that waits because of the memory budget alone - no memtable in flight at the call, no level at
    its stop count and no tier past its stall age then or at a wake - is answered after at most as many waits as there are
    bytes over the budget left once the cache is shed and the memtable rotated, however little is ever given back: any list
    of that many wakes is enough. *)
Theorem throttle_ends config o tiers bytes_of outcome l0 compact_until_quiet fuel e :
  wo_inline o = false ->
  (wo_block_on_stall o = false -> forall wakes, exists s e',
     throttle_writes o config tiers bytes_of outcome l0 compact_until_quiet fuel wakes e = Some (s, e', wakes)) /\
  (in_flight e = false -> pressure config e = false -> exists slowed e1,
     (forall wakes, shed_if_over_budget o bytes_of outcome l0 compact_until_quiet wakes e = Some (slowed, e1, wakes)) /\
     forall wakes, Forall (fun w : Wake => forall e, pressure config (w e) = false) wakes -> over_budget e1 <= Z.of_nat (length wakes) ->
       exists s e' rest, throttle_writes o config tiers bytes_of outcome l0 compact_until_quiet fuel wakes e = Some (s, e', rest)).
Proof.
  intros Hi. unfold throttle_writes, await_rotation_slot. rewrite Hi. split.
  - intros Hb wakes. destruct (eg_unusable e); [by eauto|]. destruct (await_nonblocking o bytes_of false false e Hb) as (s & e1 & ->).
    destruct s; try by eauto. destruct (shed_nonblocking o bytes_of outcome l0 compact_until_quiet Hi e1 (or_introl Hb)) as (b & e2 & ->). by apply loop_nonblocking.
  - intros Hf Hp. destruct (shed_nonblocking o bytes_of outcome l0 compact_until_quiet Hi e (or_intror Hf)) as (b & e1 & Hs).
    exists b, e1. split; [done|]. intros wakes Hw Hn. destruct (eg_unusable e); [by eauto|]. rewrite await_free by done. rewrite Hs.
    apply loop_bounded; cbn [fst snd]; [|done|].
    + rewrite (shed_version config o bytes_of outcome l0 compact_until_quiet Hi e b e1 [] [] Hf (Hs [])). done.
    + intros ->. pose proof (shed_holds _ _ _ _ _ _ _ _ _ _ (Hs []) eq_refl). lia.
Qed.


(** ** The valves at concrete states

    Witnesses for the theorems above, and runs where a call does not do what its comment says. *)


(** ** A small engine *)

Definition engine_at (budget : option MemoryBudget) (db : Db) : Engine :=
  {| eg_db := db; eg_cache := new_block_cache budget; eg_transient_stalled := false; eg_unusable := false; eg_fenced := false;
     eg_shutting_down := false; eg_shutting_down_compaction := false; eg_installs := 0; eg_now := 7; eg_stalls := 0;
     eg_stalled_total_ms := 0; eg_budget_sheds := 0 |}.

Definition write_options (inline block : bool) : WriteOptions :=
  {| wo_inline := inline; wo_block_on_stall := block; wo_memtable_bytes := 1000; wo_flush_interval := None;
     wo_flush_interval_jitter := Nan |}.

Definition no_tiers : ResolvedTiers := {| rt_tiers := []; rt_stores := ∅; rt_age_jitter := Nan |}.

Definition flushes_as_next (db : Db) : FlushOutcome := {| fo_written := Value (written_as (db_next_file_number db)); fo_applied := Ok |}.
Definition store_down (db : Db) : FlushOutcome := {| fo_written := Unexpected Io; fo_applied := Ok |}.
Definition no_compaction (e : Engine) : Status * Engine := (Ok, e).
Definition no_bytes (s : SkiplistMemtable) : Z := 0.

(** The flush thread: it flushes what is in flight. *)
Definition flusher : Wake := fun e =>
  match db_imm (eg_db e) with
  | Some m =>
      if negb (db_imm_installed (eg_db e)) && (length (nodes m) <? 1000)%nat && (length (ranges_ m) <? 1000)%nat
      then on_db (fun db => flush_done (flush_install (level_of 0) (written_as (db_next_file_number db)) db)) e
      else e
  | None => e
  end.

Lemma flusher_ok : wake_ok reads_back small_config (eq LInternal) flusher.
Proof.
  intros e. unfold flusher. destruct (db_imm (eg_db e)) as [m|] eqn:Ei; [|reflexivity].
  destruct (negb _ && _ && _) eqn:E; [|reflexivity]. apply andb_true_iff in E as [[E1 E2]%andb_true_iff E3].
  apply negb_true_iff in E1. apply Nat.ltb_lt in E2, E3. split; [|done]. exists [LInternal; LInternal].
  split; [|by repeat apply Forall_cons_2; try apply Forall_nil].
  eapply steps_cons; [eapply (step_flush_install _ _ _ m (level_of 0) (written_as (db_next_file_number (eg_db e)))); [done|done|apply few_small; split; lia|simpl; lia]|].
  eapply steps_cons; [apply step_flush_done|constructor]. unfold flush_install. by rewrite Ei.
Qed.

(** ** Witnesses *)

Lemma e_put_steps : db_steps reads_back small_config e_open [LWrite [BPut key_k value_v]] e_put.
Proof. eapply steps_cons; [by apply (step_put _ _ unhindered e_open key_k value_v e_put)|constructor]. Qed.

Lemma e_put_few : few (db_mem e_put).
Proof. split; vm_compute; reflexivity. Qed.

Definition flushed (inline : bool) : option (Status * Engine * list Wake) :=
  db_flush (write_options inline true) no_bytes flushes_as_next (level_of 0) no_compaction [flusher] (engine_at None e_put).

Lemma flushed_ok inline : (fun r => r.1.1) <$> flushed inline = Some Ok.
Proof. destruct inline; vm_compute; reflexivity. Qed.

Lemma flush_leaves_nothing_in_memory_witness : let in_files e := db_get (reads_back (db_store (eg_db e))) false [] (db_version (eg_db e)) key_k in
  (exists e' rest, flushed false = Some (Ok, e', rest) /\ in_flight e' = false /\ in_files e' = Value value_v) /\
  (exists e' rest, flushed true = Some (Ok, e', rest) /\ in_flight e' = false /\ in_files e' = Value value_v).
Proof.
  cbv zeta. assert (forall inline, exists e' rest, flushed inline = Some (Ok, e', rest) /\ in_flight e' = false /\
    db_get (reads_back (db_store (eg_db e'))) false [] (db_version (eg_db e')) key_k = Value value_v) as H; [|split; apply H].
  intros inline. pose proof (flushed_ok inline) as Hok. destruct (flushed inline) as [[[s e'] rest]|] eqn:E; [|done]. injection Hok as ->.
  destruct (flush_leaves_nothing_in_memory sst_content_reader reads_back small_config (write_options inline true) no_bytes flushes_as_next (level_of 0) no_compaction
    (fun _ => {| entries := []; ranges := [] |}) 0 [LWrite [BPut key_k value_v]] (engine_at None e_put) [flusher] e' rest
    reads_back_laws ltac:(done) e_put_steps e_put_few eq_refl) as (H1 & _ & H3).
  - destruct inline; [|by apply Forall_singleton, flusher_ok]. split; [reflexivity|]. split; [|split].
    + intros db. split; [done|]. intros wr [= <-]. simpl. lia.
    + intros e. reflexivity.
    + by intros e s e1 [= _ <-].
  - exact E.
  - exists e', rest. split; [done|]. split; [done|]. rewrite H3. reflexivity.
Defined.

(** A level that stops writes at its first file, and a wake at which the instance has become unusable. *)
Definition stopping : list ResolvedLevel :=
  [{| rl_level := 0; rl_compression := NoCompression; rl_max_bytes := None; rl_max_files := Some 4; rl_slowdown_at := None;
      rl_stop_at := Some 1; rl_target_file_bytes := 1000 |}; level_of 1; level_of 2].

Definition broken : Wake := fun e =>
  {| eg_db := eg_db e; eg_cache := eg_cache e; eg_transient_stalled := eg_transient_stalled e; eg_unusable := true; eg_fenced := eg_fenced e;
     eg_shutting_down := eg_shutting_down e; eg_shutting_down_compaction := eg_shutting_down_compaction e; eg_installs := eg_installs e;
     eg_now := eg_now e + 50; eg_stalls := eg_stalls e; eg_stalled_total_ms := eg_stalled_total_ms e; eg_budget_sheds := eg_budget_sheds e |}.

Definition throttled (config : list ResolvedLevel) (block : bool) (wakes : list Wake) (e : Engine) : option (Status * Engine * list Wake) :=
  throttle_writes (write_options false block) config no_tiers no_bytes flushes_as_next (level_of 0) no_compaction 0 wakes e.

Lemma throttle_tells_why_witness :
  (exists e', throttled small_config true [] (engine_at None e_put) = Some (Ok, e', []) /\ told small_config (write_options false true) Ok e') /\
  (exists e', throttled stopping false [] (engine_at None e_flushed) = Some (Stalled, e', []) /\ told stopping (write_options false false) Stalled e') /\
  (exists e', throttled stopping true [broken] (engine_at None e_flushed) = Some (Unusable, e', []) /\ told stopping (write_options false true) Unusable e' /\ eg_stalled_total_ms e' = 50).
Proof.
  assert (wake_ok reads_back stopping (eq LInternal) broken) as Hb by (intros e; by apply moves_same).
  split; [|split].
  - eexists. split; [vm_compute; reflexivity|].
    by apply (throttle_tells_why sst_content_reader reads_back small_config (eq LInternal) (write_options false true) no_tiers no_bytes flushes_as_next (level_of 0) no_compaction 0 [] (engine_at None e_put) Ok _ []).
  - eexists. split; [vm_compute; reflexivity|].
    by apply (throttle_tells_why sst_content_reader reads_back stopping (eq LInternal) (write_options false false) no_tiers no_bytes flushes_as_next (level_of 0) no_compaction 0 [] (engine_at None e_flushed) Stalled _ []).
  - eexists. split; [vm_compute; reflexivity|]. split; [|reflexivity].
    apply (throttle_tells_why sst_content_reader reads_back stopping (eq LInternal) (write_options false true) no_tiers no_bytes flushes_as_next (level_of 0) no_compaction 0 [broken] (engine_at None e_flushed) Unusable _ []);
      [done|done|done|by apply Forall_singleton|vm_compute; reflexivity].
Defined.

(** A budget that is never satisfied: fifteen bytes over, and nothing to give back. *)
Definition over_by_15 : Engine := engine_at (Some {| mb_total := 10; mb_used := 25 |}) e_put.

Lemma throttle_ends_witness :
  (exists s e', throttled stopping false [] over_by_15 = Some (s, e', [])) /\
  (forall wakes, Forall (fun w : Wake => forall e, pressure small_config (w e) = false) wakes -> 15 <= Z.of_nat (length wakes) ->
     exists s e' rest, throttled small_config true wakes over_by_15 = Some (s, e', rest)) /\
  (fun r => (r.1.1, length r.2)) <$> throttled small_config true [fun e => e; fun e => e] over_by_15 = Some (Ok, 1%nat).
Proof.
  split; [|split; [|vm_compute; reflexivity]].
  - by apply (throttle_ends stopping (write_options false false) no_tiers no_bytes flushes_as_next (level_of 0) no_compaction 0 over_by_15).
  - destruct (throttle_ends small_config (write_options false true) no_tiers no_bytes flushes_as_next (level_of 0) no_compaction 0 over_by_15 eq_refl)
      as [_ (slowed & e1 & Hshed & H)]; [vm_compute; reflexivity|vm_compute; reflexivity|].
    assert (over_budget e1 = 15) as He by (injection (Hshed []) as _ <-; vm_compute; reflexivity). rewrite He in H. exact H.
Defined.



Definition get_now (e : Engine) (k : bytes) : Result bytes :=
  db_get (reads_back (db_store (eg_db e))) false (memtables (eg_db e)) (db_version (eg_db e)) k.


(** ** Runs *)

(** Inline, a write whose memtable is due flushes it before it answers. When the store is down it answers [Io], as a
    write that was refused would, and the value can be read all the same. *)
Lemma inline_write_lands_and_fails :
  match run_call (write_options true true) small_config no_tiers (fun _ => 1000) store_down (level_of 0) no_compaction 1 [] (engine_at None e_open) (CallPut key_k value_v) with
  | Some (s, e, _) => s = Io /\ get_now e key_k = Value value_v
  | None => False
  end.
Proof. vm_compute. split; reflexivity. Qed.

(** Inline, a flush fails and keeps its memtable; a write then lands in the new one. The next [flush] finds the old
    one in flight, flushes that, and answers [Ok]: the write is still in memory only. *)
Lemma inline_flush_skips_live_memtable :
  let o := write_options true true in
  let e0 := engine_at None e_put in
  let '(s1, e1) := freeze_and_flush_inline o no_bytes store_down (level_of 0) no_compaction true e0 in
  let e2 := on_db (fun db => with_mem db (put (db_mem db) [x6c] value_v)) e1 in
  let '(s2, e3) := freeze_and_flush_inline o no_bytes store_down (level_of 0) no_compaction false e2 in
  match db_flush o no_bytes flushes_as_next (level_of 0) no_compaction [] e3 with
  | Some (s3, e4, _) =>
      s1 = Io /\ s2 = Io /\ s3 = Ok /\
      db_get (reads_back (db_store (eg_db e4))) false (memtables (eg_db e4)) (db_version (eg_db e4)) [x6c] = Value value_v /\
      db_get (reads_back (db_store (eg_db e4))) false [] (db_version (eg_db e4)) [x6c] = Unexpected NotFound
  | None => False
  end.
Proof. vm_compute. repeat split; reflexivity. Qed.

(** Over budget with a memtable in flight, the shedding of the write path sleeps until the flush is done. *)
Lemma shedding_waits_for_flush :
  shed_if_over_budget (write_options false true) (fun _ => 1000) flushes_as_next (level_of 0) no_compaction [] 
    (engine_at (Some {| mb_total := 10; mb_used := 25 |}) (with_mem e_sealed (put (db_mem e_sealed) [x6c] value_v))) = None.
Proof. vm_compute. reflexivity. Qed.
